(* ===== verification/_CoqProject ===== *)
-Q . S2P
Prelude.v
Text.v
Types.v
Lww.v
Vclock.v
CrdtMap.v
Identifier.v
State.v
Fields.v
StateRepr.v
Convergence.v
Resolve.v
Playlist.v
View.v
Writes.v
Lamport.v
Compact.v
Franchise.v
Message.v
SeriesIdentity.v
EpisodeParse.v
Derive.v
TimeSync.v
Sync.v
SyncCorrect.v
Findings.v
Framing.v
Hash.v
Transfer.v
AuthLimit.v
Outbox.v
Conc.v
Server.v
ServerCorrect.v
ServerSafe.v
ServerHandlers.v
ChunkStore.v
Download.v
DownloadPlan.v
DownloadSafe.v
DownloadPolicy.v
F64.v
Drift.v
Spoiler.v
Session.v
SessionCorrect.v
SessionPlayer.v
SessionLive.v
PlayerActor.v
PlayerCorrect.v
PlayerEcho.v
PlayerLaunch.v
AniDb.v
AniDbCorrect.v
AniDbClient.v
AniDbPaced.v
AniDbQueue.v
AniDbWorker.v
AniDbWorkerLogic.v
AniDbWorkerCorrect.v
AniDbLadder.v
AniDbServer.v
AniDbOthers.v
AniDbWorkerSafe.v
AniDbCuration.v
AniDbPromises.v
