(* ===== verification/Prelude.v ===== *)
(** * DessPlay: a verification development

    DessPlay lets a small group watch video together. Every client keeps a full
    replica of the group's state (playlist, watched flags, chat, playback
    registers, ...); a rendezvous server keeps another, relays operations,
    watches presence and compacts the state once a day; files move between
    clients in ed2k-hashed chunks. This library models the parts of the program
    that decide what the group sees, as executable definitions translated from
    the Rust sources under src/, and proves what makes them correct.

    ** The parts of the program and where they are modelled

    The replicated state (src/dessplay-core and the vendored crdts crate).
    - Types (core/types.rs): identifiers and the register payloads, each with
      the derived total order that LWW conflicts tie-break on.
    - Lww (core/lww.rs), Vclock (crdts/dot.rs, vclock.rs, ctx.rs), CrdtMap
      (crdts/map.rs), Identifier (crdts/identifier.rs, glist.rs, gset.rs): the
      CRDT components. CrdtMap gives maps a denotational specification: a
      replica that delivered a set of updates holds exactly the state that set
      determines ([repr]).
    - State (core/state.rs): [CrdtState], [CrdtOp], the mutators, [apply],
      [merge], the datagram guard and [apply_for_broadcast]. Fields and
      StateRepr lift the components' lemmas to the whole state, field by field
      without repetition ([srepr]).
    - Convergence: the replicas of one epoch as a transition system over a
      network that loses, duplicates and reorders; strong eventual consistency,
      merge laws, single fan-out.
    - Resolve, Playlist (core/playlist.rs), View, Writes: what a state resolves
      to, and that every mutator refines an assignment to the view.
    - Lamport, Compact (core/compact.rs): the stamp floor; compaction.

    What is derived from the view (src/dessplay-core).
    - Derive (derive.rs): readiness, gating, outage grace, rejoin, saved
      positions. Franchise (franchise.rs), SeriesIdentity (series_identity.rs):
      which files and List entries belong together. EpisodeParse
      (episode_parse.rs): episode numbers in file names.

    The wire and the file transfer (src/dessplay-core).
    - Message (net/message.rs), Framing (net/framing.rs), TimeSync
      (net/timesync.rs), Transfer (net/transfer.rs), Hash (hash.rs).

    The client's sync actor (src/dessplay/src/actors/sync.rs).
    - Sync: its whole message loop as state transitions with outputs;
      SyncCorrect: its invariant and behaviour; Findings: runs of it that a
      comment of the source excludes.

    The client's file transfer (src/dessplay/src).
    - ChunkStore (chunkstore.rs): the chunks and blocks of a partial file, on a
      disk whose operations may fail. Download (download.rs): the scheduler;
      DownloadPlan, DownloadSafe, DownloadPolicy: what it asks of whom, what it
      delivers, and how it shares, retries and backs off.

    The client's playback (src/dessplay/src).
    - F64: IEEE doubles (the Standard Library's SpecFloat). Drift
      (actors/drift.rs): the drift controller. Spoiler (core/spoiler.rs): the
      masking of chat on screen.
    - Session (session.rs, PlayerWiring): the policy between views and player;
      SessionCorrect, SessionLive: what it publishes, commands and asks for.
    - PlayerActor (actors/player.rs, player/mod.rs): the task that owns the
      player, every handler and the main loop; PlayerCorrect: attribution,
      cadence, ends of file, the outage lock; PlayerEcho: telling the viewer
      from the echo; PlayerLaunch: crashes, relaunches and re-attachment.

    The rendezvous server (src/dessplay-rendezvous/src).
    - AuthLimit (auth_limit.rs): the password throttle. Outbox (outbox.rs): the
      outbound queue, as interleavings of atomic accesses. Conc: tasks over
      shared state, their interleavings and a rely-guarantee judgement. Server
      (server.rs): the handlers, timers and connection tasks as such tasks;
      ServerCorrect and ServerSafe: the invariant, section by section and task
      by task; ServerHandlers: what each handler does, and the statements.
    - AniDb (anidb/protocol.rs, schedule.rs, record.rs, titles.rs): the format of
      requests and replies, the retry ladder, recordings and the title dump as
      text; AniDbCorrect: round trips, credentials, the ladder. AniDbClient
      (anidb/client.rs): rate limiter, requests, sessions and lookups; AniDbPaced:
      pacing and sessions. AniDbQueue (storage.rs): the worker's tables and the
      statements on them, which may fail; AniDbWorker (anidb/worker.rs): its turns,
      over the traits AniDbHost and AniDbApi as classes; AniDbWorkerLogic: a program
      logic and the promise of a host; AniDbServer: the server keeps it;
      AniDbWorkerCorrect, AniDbWorkerSafe, AniDbCuration: what a turn keeps;
      AniDbPromises: the statements.

    Prelude (this file) holds machine integers, Rust's [Ord] as a lawful class,
    sorting and ordered iteration; Text the parts of Rust's [str] in use.

    ** How the parts interact in the model

    Sync and Server use the same [CrdtState] operations, [Derive] functions and
    [Message] types. A client's op is a [run_write] (StateRepr) that the sync
    actor stamps; the server applies it through [apply_for_broadcast]; its own
    writes are [run_write]s by the actor [SERVER]. Interfaces: [Ord]/[LawfulOrd]
    (Prelude) for tie-breaking orders, the CRDT classes of Lww, the map and
    register bundles of Fields, [AsyncRead]/[AsyncWrite] with laws (Framing),
    [Digest] with laws (Hash). Session's [PlayerCommand]s are what PlayerActor
    handles and its [PlayerOutput]s what PlayerActor reports; Session reads the
    view through Derive and follows positions that Drift corrects.

    ** What the theorems show

    - Replication: replicas that delivered the same ops are equal however the
      network behaved; [merge] is a semilattice and is delivery; an op is fanned
      out exactly when new; views never panic and agree on their hash.
    - Client: no turn of the sync actor panics; a local write always wins; what
      was written offline is replayed once; epochs, the outage lock and the
      divergence ladder behave as specified.
    - Server: under any interleaving of its tasks the registry, the Lamport floor
      and the throttle stay consistent, stamps and epoch only grow, nothing
      panics; a write reaches exactly the live connections; EOF advances the
      group once; forced pauses close outage windows; compaction is invisible
      up to its documented reductions; no session without the password; the
      queue to a peer delivers in order within its bound; failed passwords are
      rate-bounded.
    - File transfer: whatever peers send and however the disk fails, a file
      reported complete is on disk with the hash asked for; requests go only to
      present sources that offer the chunk, none is left idle, budgets and
      priorities hold, dead streams back off; a resumed file keeps its intact
      blocks.
    - Playback: the client publishes and commands only what concerns the file the
      group plays and it holds; false ends of file, resolves and lookups are
      bounded and retried; drift correction refines an integer controller and
      is rate-limited; spoilers do not show through the mask.
    - Player: every observation is attributed to the file the player proves to
      have; no echo of a command is taken for the viewer, and the viewer is
      heard; the outage lock holds; positions come at their cadence and an end
      of file once; relaunches are bounded and put the player back where it was.
    - AniDB: replies and recordings survive printing and parsing; recordings show no
      credentials; unknown files are asked for a bounded number of times; packets
      are spaced out and every demand for quiet is respected (the sustained rate,
      a token bucket in doubles, is modelled; its bound is not proved). The worker
      never lets a guess replace what AniDB said, asks about a series until it is
      answered, and asks the model a bounded number of times. The server's other
      tasks run between its accesses; they leave metadata and its tables alone.
    - Derived data: gating, saved positions, playlist edits, franchises, seasons
      and series resolution are characterised exactly; frames round-trip;
      chunks tile files; hashes agree with a block-wise reference.

    ** Conventions, bounds and fuel

    An unsigned integer is a [Z] with the release profile's wrap-around written
    out; a panic is [None]. Counters that reach 2^64 are excluded where a theorem
    needs it ([HALF] in ServerCorrect: fewer than 2^63 readings of the clocks).
    Recursion that is not structural runs on fuel that is proved sufficient
    (union-find and graph walks: the number of relation targets; readers: the
    bytes left; the dash parser: the length of the name).
    A [HashMap] is a [gmap]: its fixed iteration order stands for the unspecified
    one, and no statement depends on it except through the functions' results.
    The server's critical sections are its lock scopes: an atomic accessed inside
    a lock scope (the stamp counter, the epoch) is taken to change only at the
    scope's borders. The epoch is only accessed under the state lock; the stamp
    counter only grows, which is all the scopes rely on.

    ** Parameters and hypotheses

    Code outside the sources is a parameter: MD4, SHA-256, postcard encoding,
    tokio readers and writers (with their documented laws), the SQLite title
    search. The server's clocks, and whether a storage access or a send
    succeeded, are readings the theorems quantify over ([World]); [world_ok]
    asks that clocks stay below 2^63 and the monotonic clock is monotonic.
    [event_ok] describes the ops and states that replicas of the group send.
    Likewise the disk operations of ChunkStore (an I/O oracle), the place of a
    partial file (an injective function of its hash), the Unicode tables of the
    spoiler mask ([CharClasses]), and the clocks and answers of the player
    ([Readings]; statements about time ask that the monotonic clock is one), and
    the network and the clock of the AniDB client ([Net]), and, for its worker, which
    SQL statements fail, the title dump and the model's outcomes ([Outside]).
    A path is its text: Rust's comparison by components is equality of texts in
    normal form.

    ** Not modelled, and why

    The user interface, the house-guest scene, the roguelike and the commentary
    (presentation); the mpv process and its socket, IRC, QUIC, SQLite and the call to
    the model service (I/O: what the modelled code sees of them is a parameter or an
    event); the shell of session.rs, which passes directives on to the tasks, and
    the file actor, which walks directories and hashes files (I/O around Hash and
    Download); the decoders of old snapshot layouts; configuration and tooling.
    The server's byte pump between two transfer streams moves bytes it does not
    look at. *)

From stdpp Require Export prelude gmap strings sorting.
From Stdlib Require Export ZArith Lia.
From Stdlib Require Import Qcanon QArith_base.

#[global] Open Scope Z_scope.

Declare Scope dessplay_scope.
Delimit Scope dessplay_scope with dess.
#[global] Open Scope dessplay_scope.

(** ** Machine integers

    Rust's unsigned integers are modelled as [Z] with the wrap-around of the
    release profile (no overflow checks) and the saturating operations
    written out. *)

Definition u64_modulus : Z := 2 ^ 64.
Definition u64_max : Z := u64_modulus - 1.
Definition is_u64 (x : Z) : Prop := 0 ≤ x < u64_modulus.
Definition u64_wrap (x : Z) : Z := x mod u64_modulus.
Definition u64_saturating_add (x y : Z) : Z := Z.min (x + y) u64_max.
Definition u64_saturating_sub (x y : Z) : Z := Z.max (x - y) 0.
Definition u64_saturating_mul (x y : Z) : Z := Z.min (x * y) u64_max.
Definition u32_modulus : Z := 2 ^ 32.
(** [as u32]. *)
Definition u32_wrap (x : Z) : Z := x mod u32_modulus.
(** [div_ceil] on unsigned integers: no overflow at any operand. *)
Definition div_ceil (x y : Z) : Z := if x mod y =? 0 then x / y else x / y + 1.

(** ** Rust's [Ord]

    [cmp] is [Ord::cmp]; [LawfulOrd] states that it is a total order whose
    [Equal] is Leibniz equality, which is what [#[derive(Ord)]] gives. *)

Class Ord (A : Type) := cmp : A → A → comparison.

Class LawfulOrd (A : Type) `{Ord A} : Prop := {
  cmp_eq_iff (x y : A) : cmp x y = Eq ↔ x = y;
  cmp_antisym (x y : A) : cmp y x = CompOpp (cmp x y);
  cmp_lt_trans (x y z : A) : cmp x y = Lt → cmp y z = Lt → cmp x z = Lt
}.

Definition ord_le `{Ord A} (x y : A) : Prop := cmp x y ≠ Gt.
Definition ord_ltb `{Ord A} (x y : A) : bool :=
  match cmp x y with Lt => true | _ => false end.
Definition ord_leb `{Ord A} (x y : A) : bool :=
  match cmp x y with Gt => false | _ => true end.

(** [Ordering::then_with]. *)
Definition then_with (c d : comparison) : comparison :=
  match c with Eq => d | _ => c end.

Notation "x ≺ y" := (ord_ltb x y) (at level 65, no associativity) : dessplay_scope.

(** *** Order instances

    [#[derive(Ord)]] on a struct is the lexicographic order of its fields, on
    an enum the order of the variant index and then of the fields: each such
    instance is [ord_via] an injective encoding into nested products and sums. *)

Definition ord_via {A B} `{Ord B} (f : A → B) : Ord A := λ x y, cmp (f x) (f y).

#[export] Instance Z_ord : Ord Z := Z.compare.
#[export] Instance nat_ord : Ord nat := Nat.compare.
#[export] Instance bool_ord : Ord bool := ord_via (λ b : bool, if b then 1%Z else 0%Z).
#[export] Instance positive_ord : Ord positive := ord_via Zpos.
#[export] Instance unit_ord : Ord unit := λ _ _, Eq.
#[export] Instance Qc_ord : Ord Qc := λ x y, Qccompare x y.
#[export] Instance prod_ord `{Ord A, Ord B} : Ord (A * B) :=
  λ x y, then_with (cmp x.1 y.1) (cmp x.2 y.2).
#[export] Instance sum_ord `{Ord A, Ord B} : Ord (A + B) :=
  λ x y, match x, y with
         | inl a, inl b => cmp a b
         | inl _, inr _ => Lt
         | inr _, inl _ => Gt
         | inr a, inr b => cmp a b
         end.
#[export] Instance option_ord `{Ord A} : Ord (option A) :=
  λ x y, match x, y with
         | None, None => Eq
         | None, Some _ => Lt
         | Some _, None => Gt
         | Some a, Some b => cmp a b
         end.

Fixpoint list_cmp `{Ord A} (l k : list A) : comparison :=
  match l, k with
  | [], [] => Eq
  | [], _ :: _ => Lt
  | _ :: _, [] => Gt
  | x :: l, y :: k => then_with (cmp x y) (list_cmp l k)
  end.
#[export] Instance list_ord `{Ord A} : Ord (list A) := list_cmp.

(** A Rust [str] compares by its bytes; the model's [string] is that byte
    sequence. *)
Fixpoint bytes_of_string (s : string) : list Z :=
  match s with
  | EmptyString => []
  | String a s => Z.of_nat (Ascii.nat_of_ascii a) :: bytes_of_string s
  end.
#[export] Instance string_ord : Ord string := ord_via bytes_of_string.

(** ** Stable sorting ([slice::sort_by]) *)

Fixpoint insert_by {A} (f : A → A → comparison) (x : A) (l : list A) : list A :=
  match l with
  | [] => [x]
  | y :: l' => match f x y with Gt => y :: insert_by f x l' | _ => x :: l end
  end.
Definition sort_by {A} (f : A → A → comparison) (l : list A) : list A :=
  foldr (insert_by f) [] l.

(** ** [BTreeMap] and [BTreeSet]

    Both are stdpp finite maps and sets; iteration is in ascending key order. *)

Definition btree_iter `{Countable K, Ord K} {V} (m : gmap K V) : list (K * V) :=
  sort_by (λ a b, cmp a.1 b.1) (map_to_list m).
Definition btree_set_iter `{Countable K, Ord K} (s : gset K) : list K :=
  sort_by cmp (elements s).

#[export] Instance gset_ord `{Countable K, Ord K} : Ord (gset K) :=
  ord_via btree_set_iter.

(** ** Automation *)

Create HintDb dess discriminated.

(** Case analysis on every [match], [if] and [decide] of the goal. *)
Ltac split_matches := repeat (case_match || case_decide || case_bool_decide).

(** Turn comparison facts of lawful orders into equations. *)
Ltac cmp_simpl :=
  repeat match goal with
  | H : cmp ?x ?y = Eq |- _ => apply cmp_eq_iff in H
  | H : context [cmp ?x ?x] |- _ =>
      rewrite (proj2 (cmp_eq_iff x x) eq_refl) in H
  | |- context [cmp ?x ?x] => rewrite (proj2 (cmp_eq_iff x x) eq_refl)
  end; simplify_eq/=.

(** ** Lemmas on lawful orders *)

Section lawful.
Context `{LawfulOrd A}.
Implicit Types x y z : A.

Lemma cmp_refl x : cmp x x = Eq.
Proof. by apply cmp_eq_iff. Qed.

Lemma cmp_gt_lt x y : cmp x y = Gt ↔ cmp y x = Lt.
Proof. rewrite (cmp_antisym x y). destruct (cmp x y); simpl; naive_solver. Qed.

Lemma cmp_gt_trans x y z : cmp x y = Gt → cmp y z = Gt → cmp x z = Gt.
Proof. rewrite !cmp_gt_lt. intros ? ?. by eapply cmp_lt_trans. Qed.

Lemma ord_ltb_lt x y : x ≺ y = true ↔ cmp x y = Lt.
Proof. unfold ord_ltb. destruct (cmp x y); naive_solver. Qed.

Lemma ord_ltb_irrefl x : x ≺ x = false.
Proof. unfold ord_ltb. by rewrite cmp_refl. Qed.

#[export] Instance ord_le_refl : Reflexive (ord_le (A:=A)).
Proof. intros x. unfold ord_le. by rewrite cmp_refl. Qed.

#[export] Instance ord_le_trans : Transitive (ord_le (A:=A)).
Proof.
  unfold ord_le. intros x y z Hxy Hyz Hxz.
  destruct (cmp x y) eqn:E1; [by apply cmp_eq_iff in E1 as ->| |done].
  destruct (cmp y z) eqn:E2; [apply cmp_eq_iff in E2 as ->; congruence| |done].
  by rewrite (cmp_lt_trans x y z) in Hxz.
Qed.

#[export] Instance ord_le_antisym : AntiSymm (=) (ord_le (A:=A)).
Proof.
  unfold ord_le. intros x y Hxy Hyx. rewrite (cmp_antisym x y) in Hyx.
  destruct (cmp x y) eqn:E; cmp_simpl; naive_solver.
Qed.

#[export] Instance ord_le_total : Total (ord_le (A:=A)).
Proof.
  intros x y. unfold ord_le. rewrite (cmp_antisym x y).
  destruct (cmp x y); naive_solver.
Qed.

#[export] Instance ord_le_dec : RelDecision (ord_le (A:=A)).
Proof. intros x y. unfold ord_le. apply _. Defined.

Lemma not_ord_le x y : ¬ ord_le x y ↔ cmp y x = Lt.
Proof. rewrite <-cmp_gt_lt. unfold ord_le. destruct (cmp x y); naive_solver. Qed.

Lemma ord_ltb_ge x y : x ≺ y = false ↔ ord_le y x.
Proof.
  unfold ord_ltb, ord_le. rewrite (cmp_antisym x y).
  destruct (cmp x y); simpl; naive_solver.
Qed.

Lemma ord_lt_le x y : cmp x y = Lt → ord_le x y.
Proof. unfold ord_le. congruence. Qed.

Lemma ord_le_lt_trans x y z : ord_le x y → cmp y z = Lt → cmp x z = Lt.
Proof.
  unfold ord_le. intros Hxy Hyz. destruct (cmp x y) eqn:E; cmp_simpl; try done.
  by eapply cmp_lt_trans.
Qed.

Lemma ord_lt_le_trans x y z : cmp x y = Lt → ord_le y z → cmp x z = Lt.
Proof.
  unfold ord_le. intros Hxy Hyz. destruct (cmp y z) eqn:E; cmp_simpl; try done.
  by eapply cmp_lt_trans.
Qed.

Lemma cmp_lt_irrefl x : cmp x x = Lt → False.
Proof. by rewrite cmp_refl. Qed.

Lemma cmp_lt_ne x y : cmp x y = Lt → x ≠ y.
Proof. intros Hl ->. by eapply cmp_lt_irrefl. Qed.

Lemma cmp_not_eq x y : x ≠ y → cmp x y = Lt ∨ cmp y x = Lt.
Proof.
  intros Hne. rewrite (cmp_antisym x y).
  destruct (cmp x y) eqn:E; cmp_simpl; naive_solver.
Qed.
End lawful.

#[export] Hint Resolve cmp_refl : dess.

(** An order through an injection is lawful. *)
Lemma lawful_via {A B} `{LawfulOrd B} (f : A → B) :
  Inj (=) (=) f → @LawfulOrd A (ord_via f).
Proof.
  intros Hf. split; unfold cmp, ord_via; intros.
  - rewrite cmp_eq_iff. split; [apply Hf|by intros ->].
  - apply cmp_antisym.
  - by eapply cmp_lt_trans.
Qed.

#[export] Instance Z_lawful : LawfulOrd Z.
Proof.
  split; unfold cmp, Z_ord; intros.
  - apply Z.compare_eq_iff.
  - apply Z.compare_antisym.
  - rewrite Z.compare_lt_iff in *. lia.
Qed.

#[export] Instance nat_lawful : LawfulOrd nat.
Proof.
  split; unfold cmp, nat_ord; intros.
  - apply Nat.compare_eq_iff.
  - apply Nat.compare_antisym.
  - rewrite Nat.compare_lt_iff in *. lia.
Qed.

#[export] Instance bool_lawful : LawfulOrd bool.
Proof. apply lawful_via. by intros [] []. Qed.

#[export] Instance positive_lawful : LawfulOrd positive.
Proof. apply lawful_via. intros ??. naive_solver. Qed.

#[export] Instance unit_lawful : LawfulOrd unit.
Proof. split; [intros [] []; done|done|done]. Qed.

#[export] Instance Qc_lawful : LawfulOrd Qc.
Proof.
  split; unfold cmp, Qc_ord; intros.
  - by rewrite <-Qceq_alt.
  - destruct (Qccompare x y) eqn:E; simpl.
    + apply Qceq_alt in E as ->. by apply Qceq_alt.
    + apply Qclt_alt in E. by apply Qcgt_alt.
    + apply Qcgt_alt in E. by apply Qclt_alt.
  - apply Qclt_alt. eapply Qclt_trans; by apply Qclt_alt.
Qed.

Lemma then_with_lt c d : then_with c d = Lt ↔ c = Lt ∨ (c = Eq ∧ d = Lt).
Proof. destruct c, d; naive_solver. Qed.
Lemma then_with_opp c d : CompOpp (then_with c d) = then_with (CompOpp c) (CompOpp d).
Proof. by destruct c. Qed.
Lemma then_with_eq c d : then_with c d = Eq ↔ c = Eq ∧ d = Eq.
Proof. destruct c; naive_solver. Qed.

#[export] Instance prod_lawful `{LawfulOrd A, LawfulOrd B} : LawfulOrd (A * B).
Proof.
  split; unfold cmp at 1, prod_ord.
  - intros [a b] [a' b']; simpl. rewrite then_with_eq, !cmp_eq_iff. naive_solver.
  - intros [a b] [a' b']; simpl. unfold cmp at 3, prod_ord; simpl.
    by rewrite then_with_opp, <-!cmp_antisym.
  - intros [a b] [a' b'] [a'' b'']; unfold cmp at 3 6, prod_ord; simpl.
    rewrite !then_with_lt. intros [?|[Ha ?]] [?|[Hb ?]]; cmp_simpl; auto.
    + left. by eapply cmp_lt_trans.
    + right. split; [apply cmp_refl|]. by eapply cmp_lt_trans.
Qed.

#[export] Instance sum_lawful `{LawfulOrd A, LawfulOrd B} : LawfulOrd (A + B).
Proof.
  split; unfold cmp, sum_ord.
  - intros [a|b] [a'|b']; rewrite ?cmp_eq_iff; naive_solver.
  - intros [a|b] [a'|b']; simpl; try done; apply cmp_antisym.
  - intros [a|b] [a'|b'] [a''|b'']; simpl; try done; apply cmp_lt_trans.
Qed.

#[export] Instance option_lawful `{LawfulOrd A} : LawfulOrd (option A).
Proof.
  split; unfold cmp, option_ord.
  - intros [a|] [a'|]; rewrite ?cmp_eq_iff; naive_solver.
  - intros [a|] [a'|]; simpl; try done; apply cmp_antisym.
  - intros [a|] [a'|] [a''|]; simpl; try done; apply cmp_lt_trans.
Qed.

#[export] Instance list_lawful `{LawfulOrd A} : LawfulOrd (list A).
Proof.
  split; unfold cmp, list_ord.
  - intros l. induction l as [|x l IH]; intros [|y k]; simpl; try done.
    rewrite then_with_eq, cmp_eq_iff, IH. naive_solver.
  - intros l. induction l as [|x l IH]; intros [|y k]; simpl; try done.
    by rewrite then_with_opp, <-IH, <-cmp_antisym.
  - intros l. induction l as [|x l IH]; intros [|y k] [|z j]; simpl; try done.
    rewrite !then_with_lt. intros [Hx|[Hx ?]] [Hy|[Hy ?]];
      try apply cmp_eq_iff in Hx as ->; try apply cmp_eq_iff in Hy as ->; auto.
    + left. by eapply cmp_lt_trans.
    + right. rewrite cmp_refl. eauto.
Qed.

Lemma bytes_of_string_inj : Inj (=) (=) bytes_of_string.
Proof.
  intros s. induction s as [|a s IH]; intros [|b t]; simpl; try done.
  intros [= Hab Hst]. apply Nat2Z.inj in Hab. f_equal; [|by apply IH].
  by rewrite <-(Ascii.ascii_nat_embedding a), Hab, Ascii.ascii_nat_embedding.
Qed.

#[export] Instance string_lawful : LawfulOrd string.
Proof. apply lawful_via, bytes_of_string_inj. Qed.

(** ** Sorting *)

Section sort_by.
Context {A : Type} (f : A → A → comparison).

(** The order a comparison function sorts by. *)
Definition le_by (x y : A) : Prop := f x y ≠ Gt.

Lemma insert_by_perm x l : insert_by f x l ≡ₚ x :: l.
Proof.
  induction l as [|y l IH]; simpl; [done|].
  case_match; [done|done|]. by rewrite IH, Permutation_swap.
Qed.

Lemma sort_by_perm l : sort_by f l ≡ₚ l.
Proof.
  induction l as [|x l IH]; simpl; [done|]. by rewrite insert_by_perm, IH.
Qed.

Lemma elem_of_sort_by x l : x ∈ sort_by f l ↔ x ∈ l.
Proof. by rewrite sort_by_perm. Qed.

Lemma length_sort_by l : length (sort_by f l) = length l.
Proof. by rewrite sort_by_perm. Qed.

Context `{!Transitive le_by, !Total le_by}.

Lemma insert_by_sorted x l :
  StronglySorted le_by l → StronglySorted le_by (insert_by f x l).
Proof.
  induction 1 as [|y l Hl IH Hy]; simpl; [by repeat constructor|].
  destruct (f x y) eqn:E; [| |constructor; [done|]].
  1, 2: (constructor; [by constructor|]; assert (le_by x y) by (unfold le_by; congruence);
         constructor; [done|]; eapply Forall_impl; [done|]; intros z ?; by trans y).
  rewrite insert_by_perm. constructor; [|done].
  destruct (total le_by x y) as [Hx|?]; [by destruct Hx|done].
Qed.

Lemma sort_by_sorted l : StronglySorted le_by (sort_by f l).
Proof.
  induction l as [|x l IH]; simpl; [constructor|]. by apply insert_by_sorted.
Qed.

(** A sorted list is its own sorting, provided equal elements coincide. *)
Lemma sort_by_unique l k :
  (∀ x y, x ∈ l → y ∈ l → f x y = Eq → x = y) →
  (∀ x y, f y x = CompOpp (f x y)) →
  StronglySorted le_by k → k ≡ₚ l → sort_by f l = k.
Proof.
  intros Heq Hop Hk Hp. eapply (StronglySorted_unique_strong le_by).
  - intros x y Hx Hy H1 H2. rewrite elem_of_sort_by in Hx. rewrite Hp in Hy.
    apply Heq; [done..|]. unfold le_by in *. rewrite Hop in H2.
    by destruct (f x y).
  - apply sort_by_sorted.
  - done.
  - by rewrite sort_by_perm.
Qed.
End sort_by.

Section sort_key.
Context {A : Type} `{LawfulOrd B} (key : A → B).

#[export] Instance le_by_key_trans : Transitive (le_by (λ x y, cmp (key x) (key y))).
Proof. intros x y z. unfold le_by. apply (ord_le_trans (key x)). Qed.

#[export] Instance le_by_key_total : Total (le_by (λ x y, cmp (key x) (key y))).
Proof. intros x y. unfold le_by. apply (ord_le_total (key x)). Qed.

Lemma sort_by_key_sorted l :
  StronglySorted (λ x y, ord_le (key x) (key y)) (sort_by (λ x y, cmp (key x) (key y)) l).
Proof. apply (sort_by_sorted (λ x y, cmp (key x) (key y))). Qed.

Lemma sort_by_key_unique l k :
  (∀ x y, x ∈ l → y ∈ l → key x = key y → x = y) →
  StronglySorted (λ x y, ord_le (key x) (key y)) k → k ≡ₚ l →
  sort_by (λ x y, cmp (key x) (key y)) l = k.
Proof.
  intros Heq. apply sort_by_unique.
  - apply _.
  - apply _.
  - intros x y ?? Hc. apply cmp_eq_iff in Hc. auto.
  - intros x y. apply cmp_antisym.
Qed.

(** Sorting only depends on the elements. *)
Lemma sort_by_key_perm l k :
  (∀ x y, x ∈ l → y ∈ l → key x = key y → x = y) → k ≡ₚ l →
  sort_by (λ x y, cmp (key x) (key y)) l = sort_by (λ x y, cmp (key x) (key y)) k.
Proof.
  intros Heq Hp. apply sort_by_key_unique; [done| |by rewrite sort_by_perm].
  apply sort_by_key_sorted.
Qed.
End sort_key.

(** ** Ordered iteration *)

Section btree.
Context `{Countable K, LK : !Ord K, !LawfulOrd K} {V : Type}.
Implicit Types (m : gmap K V) (s : gset K).

Lemma btree_iter_perm m : btree_iter m ≡ₚ map_to_list m.
Proof. apply sort_by_perm. Qed.

Lemma elem_of_btree_iter k v m : (k, v) ∈ btree_iter m ↔ m !! k = Some v.
Proof. by rewrite btree_iter_perm, elem_of_map_to_list. Qed.

Lemma NoDup_btree_iter m : NoDup (btree_iter m).*1.
Proof. rewrite btree_iter_perm. apply NoDup_fst_map_to_list. Qed.

Lemma btree_iter_sorted m :
  StronglySorted (λ a b : K * V, ord_le a.1 b.1) (btree_iter m).
Proof. apply (sort_by_key_sorted fst). Qed.

Lemma btree_iter_empty : btree_iter (∅ : gmap K V) = [].
Proof. unfold btree_iter. by rewrite map_to_list_empty. Qed.

Lemma elem_of_btree_set_iter k s : k ∈ btree_set_iter s ↔ k ∈ s.
Proof. unfold btree_set_iter. by rewrite elem_of_sort_by, elem_of_elements. Qed.

Lemma NoDup_btree_set_iter s : NoDup (btree_set_iter s).
Proof. unfold btree_set_iter. rewrite sort_by_perm. apply NoDup_elements. Qed.

Lemma btree_set_iter_sorted s : StronglySorted ord_le (btree_set_iter s).
Proof. apply (sort_by_key_sorted (λ x : K, x)). Qed.

(** An ordered list of distinct elements is the iteration of its set. *)
Lemma btree_set_iter_unique s l :
  NoDup l → (∀ k, k ∈ l ↔ k ∈ s) → StronglySorted ord_le l → btree_set_iter s = l.
Proof.
  intros Hnd Hl Hs. apply (sort_by_key_unique (λ x : K, x)); [done|done|].
  apply NoDup_Permutation; [done|apply NoDup_elements|].
  intros k. by rewrite Hl, elem_of_elements.
Qed.

Lemma btree_set_iter_inj : Inj (=) (=) (btree_set_iter (K:=K)).
Proof.
  intros s t Hst. apply set_eq. intros k.
  by rewrite <-!elem_of_btree_set_iter, Hst.
Qed.
End btree.

#[export] Instance gset_lawful `{Countable K, !Ord K, !LawfulOrd K} : LawfulOrd (gset K).
Proof. apply lawful_via, btree_set_iter_inj. Qed.

(** A loop over a map that only touches the entry at the current key. *)
Lemma foldl_partial_alter_lookup `{Countable K} {A B}
    (g : K → B → option A → option A) (l : list (K * B)) (m : gmap K A) (k : K) :
  NoDup l.*1 →
  foldl (λ m kb, partial_alter (g kb.1 kb.2) kb.1 m) m l !! k =
    match (list_to_map l : gmap K B) !! k with
    | Some b => g k b (m !! k)
    | None => m !! k
    end.
Proof.
  revert m. induction l as [|[i b] l IH]; intros m Hnd; simpl; [by rewrite lookup_empty|].
  apply NoDup_cons in Hnd as [Hi Hnd]. rewrite IH by done.
  destruct (decide (i = k)) as [->|Hne].
  - rewrite lookup_insert_eq, lookup_partial_alter_eq.
    by rewrite (not_elem_of_list_to_map_1 (M:=gmap K)) by done.
  - by rewrite lookup_insert_ne, lookup_partial_alter_ne by done.
Qed.

Lemma foldl_btree_iter_lookup `{Countable K, !Ord K, !LawfulOrd K} {A B}
    (g : K → B → option A → option A) (o : gmap K B) (m : gmap K A) (k : K) :
  foldl (λ m kb, partial_alter (g kb.1 kb.2) kb.1 m) m (btree_iter o) !! k =
    match o !! k with Some b => g k b (m !! k) | None => m !! k end.
Proof.
  rewrite foldl_partial_alter_lookup by apply NoDup_btree_iter.
  by rewrite (list_to_map_proper (btree_iter o) (map_to_list o)
    (NoDup_btree_iter o) (btree_iter_perm o)), list_to_map_to_list.
Qed.

Lemma foldl_ext_in {A B} (f g : A → B → A) (l : list B) (a : A) :
  (∀ a b, b ∈ l → f a b = g a b) → foldl f a l = foldl g a l.
Proof.
  revert a. induction l as [|b l IH]; intros a Hfg; simpl; [done|].
  rewrite Hfg by set_solver. apply IH. set_solver.
Qed.

Lemma find_None_intro {A} (f : A → bool) (l : list A) :
  (∀ x, x ∈ l → f x = false) → List.find f l = None.
Proof.
  induction l as [|x l IH]; intros Hf; simpl; [done|].
  rewrite Hf by left. apply IH. intros y Hy. apply Hf. by right.
Qed.

(** [Iterator::max] on integers. *)
Definition iter_max (l : list Z) : option Z :=
  match l with [] => None | x :: l => Some (foldl Z.max x l) end.

Lemma foldl_max_ub l x y : y = x ∨ y ∈ l → y ≤ foldl Z.max x l.
Proof.
  revert x y. induction l as [|z l IH]; intros x y Hy; simpl; [set_solver by lia|].
  destruct (decide (y = x)) as [->|Hne].
  - trans (Z.max x z); [lia|]. apply IH. by left.
  - destruct Hy as [|[->|Hy]%elem_of_cons]; [done| |apply IH; by right].
    trans (Z.max x z); [lia|]. apply IH. by left.
Qed.

Lemma iter_max_ub l y : y ∈ l → y ≤ default 0 (iter_max l).
Proof.
  destruct l as [|x l]; [by intros ?%elem_of_nil|].
  intros Hy%elem_of_cons. by apply foldl_max_ub.
Qed.

Lemma foldl_max_elem l x : foldl Z.max x l = x ∨ foldl Z.max x l ∈ l.
Proof.
  revert x. induction l as [|z l IH]; intros x; simpl; [by left|].
  destruct (IH (Z.max x z)) as [->|Hin]; [|right; by right].
  destruct (Z.max_spec x z) as [[? ->]|[? ->]]; [right; left|by left].
Qed.

Lemma iter_max_elem l y : iter_max l = Some y → y ∈ l.
Proof.
  destruct l as [|x l]; [done|]. intros [= <-].
  destruct (foldl_max_elem l x) as [->|]; [left|by right].
Qed.

Lemma filter_all {A} (P : A → Prop) `{∀ x, Decision (P x)} (l : list A) :
  (∀ x, x ∈ l → P x) → filter P l = l.
Proof.
  induction l as [|x l IH]; intros HP; [done|].
  rewrite filter_cons_True by (apply HP; left). f_equal. apply IH. intros y Hy.
  apply HP. by right.
Qed.
