(* ===== verification/Text.v ===== *)
(** * Text (the parts of Rust's [str] the sources use)

    A [str] is its UTF-8 bytes. Everything here is the standard library's
    behaviour on them: ASCII classes and case, [trim] (Unicode [White_Space]),
    parsing and printing of unsigned decimal numbers, substring search. *)

From S2P Require Import Prelude.

Abbreviation Bytes := (list Z).

(** ** Strings and bytes *)

Fixpoint string_of_bytes (l : Bytes) : string :=
  match l with
  | [] => EmptyString
  | b :: l => String (Ascii.ascii_of_nat (Z.to_nat b)) (string_of_bytes l)
  end.

(** ** ASCII *)

Definition is_ascii_digit (b : Z) : bool := (48 <=? b) && (b <=? 57).
Definition is_ascii_upper (b : Z) : bool := (65 <=? b) && (b <=? 90).
Definition is_ascii_lower (b : Z) : bool := (97 <=? b) && (b <=? 122).
Definition is_ascii_alphabetic (b : Z) : bool := is_ascii_upper b || is_ascii_lower b.
Definition is_ascii_alphanumeric (b : Z) : bool := is_ascii_digit b || is_ascii_alphabetic b.
Definition to_ascii_lowercase (l : Bytes) : Bytes := (λ b, if is_ascii_upper b then b + 32 else b) <$> l.
Definition to_ascii_uppercase (l : Bytes) : Bytes := (λ b, if is_ascii_lower b then b - 32 else b) <$> l.

(** ** [str::trim] *)

Fixpoint trim_start (l : Bytes) : Bytes :=
  match l with
  | 0xC2 :: ((0x85 | 0xA0) :: r) => trim_start r
  | 0xE1 :: (0x9A :: (0x80 :: r)) => trim_start r
  | 0xE2 :: (0x80 :: (b :: r)) =>
      if ((0x80 <=? b) && (b <=? 0x8A)) || (b =? 0xA8) || (b =? 0xA9) || (b =? 0xAF)
      then trim_start r else l
  | 0xE2 :: (0x81 :: (0x9F :: r)) => trim_start r
  | 0xE3 :: (0x80 :: (0x80 :: r)) => trim_start r
  | b :: r => if ((9 <=? b) && (b <=? 13)) || (b =? 32) then trim_start r else l
  | [] => []
  end.
(** From the end: the same sequences reversed. *)
Fixpoint trim_end_rev (l : Bytes) : Bytes :=
  match l with
  | (0x85 | 0xA0) :: (0xC2 :: r) => trim_end_rev r
  | 0x80 :: (0x9A :: (0xE1 :: r)) => trim_end_rev r
  | b :: ((0x80 :: (0xE2 :: r)) as r') =>
      if ((0x80 <=? b) && (b <=? 0x8A)) || (b =? 0xA8) || (b =? 0xA9) || (b =? 0xAF)
      then trim_end_rev r
      else if ((9 <=? b) && (b <=? 13)) || (b =? 32) then trim_end_rev r' else l
  | 0x9F :: (0x81 :: (0xE2 :: r)) => trim_end_rev r
  | 0x80 :: (0x80 :: (0xE3 :: r)) => trim_end_rev r
  | b :: r => if ((9 <=? b) && (b <=? 13)) || (b =? 32) then trim_end_rev r else l
  | [] => []
  end.
Definition str_trim (l : Bytes) : Bytes := reverse (trim_end_rev (reverse (trim_start l))).

(** ** Numbers *)

(** [parse::<u32>], [parse::<u64>]: an optional [+], then one or more digits,
    checked against the largest value. *)
Fixpoint parse_digits (max acc : Z) (l : Bytes) : option Z :=
  match l with
  | [] => Some acc
  | b :: l =>
      if is_ascii_digit b then
        let acc := acc * 10 + (b - 48) in
        if acc <=? max then parse_digits max acc l else None
      else None
  end.
Definition parse_unsigned (max : Z) (l : Bytes) : option Z :=
  match l with
  | [] => None
  | [43] => None
  | 43 :: l => parse_digits max 0 l
  | _ => parse_digits max 0 l
  end.
Definition parse_u32 : Bytes → option Z := parse_unsigned (2 ^ 32 - 1).

(** [to_string] of an unsigned number: at most twenty digits for a [u64]. *)
Fixpoint decimal_rev (fuel : nat) (n : Z) : Bytes :=
  match fuel with
  | O => []
  | S fuel => (48 + n mod 10) :: (if n <? 10 then [] else decimal_rev fuel (n / 10))
  end.
Definition decimal (n : Z) : Bytes := reverse (decimal_rev 20 n).

(** ** [str::find] of a string: the offset of the first occurrence. *)

Fixpoint starts_with (p l : Bytes) : bool :=
  match p, l with
  | [], _ => true
  | x :: p, y :: l => (x =? y) && starts_with p l
  | _ :: _, [] => false
  end.
Fixpoint str_find (p l : Bytes) : option nat :=
  if starts_with p l then Some 0%nat
  else match l with [] => None | _ :: l => S <$> str_find p l end.

(** [str::split] at the bytes that satisfy [sep]. *)
Fixpoint split_at (sep : Z → bool) (l : Bytes) : list Bytes :=
  match l with
  | [] => [[]]
  | b :: l =>
      if sep b then [] :: split_at sep l
      else match split_at sep l with w :: ws => (b :: w) :: ws | [] => [[b]] end
  end.

(** ** Laws *)

Definition digits (l : Bytes) : Prop := Forall (λ b, is_ascii_digit b = true) l.

Lemma is_ascii_digit_range b : is_ascii_digit b = true ↔ 48 ≤ b ≤ 57.
Proof. unfold is_ascii_digit. lia. Qed.

(** The value of a digit string. *)
Definition value_from (acc : Z) (l : Bytes) : Z := foldl (λ acc b, acc * 10 + (b - 48)) acc l.

Lemma value_from_ge acc l : digits l → 0 ≤ acc → acc ≤ value_from acc l.
Proof.
  intros Hl. revert acc. induction Hl as [|b l Hb Hl IH]; intros acc Ha; simpl; [lia|].
  apply is_ascii_digit_range in Hb. specialize (IH (acc * 10 + (b - 48)) ltac:(lia)).
  unfold value_from in *. simpl. lia.
Qed.

Lemma parse_digits_spec max acc l :
  0 ≤ acc → acc ≤ max →
  parse_digits max acc l =
    if decide (digits l ∧ value_from acc l ≤ max) then Some (value_from acc l) else None.
Proof.
  revert acc. induction l as [|b l IH]; intros acc Ha Hm; simpl.
  - rewrite decide_True; [done|]. split; [constructor|done].
  - destruct (is_ascii_digit b) eqn:Hb.
    2: { rewrite decide_False; [done|]. intros [H%Forall_cons_1 _]. naive_solver congruence. }
    apply is_ascii_digit_range in Hb as Hr.
    destruct (Z.leb_spec (acc * 10 + (b - 48)) max) as [Hle|Hgt].
    + rewrite IH by lia. apply decide_ext. unfold digits. rewrite Forall_cons. naive_solver.
    + rewrite decide_False; [done|]. intros [H%Forall_cons_1 Hv].
      pose proof (value_from_ge (acc * 10 + (b - 48)) l ltac:(naive_solver) ltac:(lia)).
      change (value_from acc (b :: l)) with (value_from (acc * 10 + (b - 48)) l) in Hv. lia.
Qed.

(** Parsing what is all digits. *)
Lemma parse_unsigned_digits max l :
  0 ≤ max → digits l → l ≠ [] → value_from 0 l ≤ max → parse_unsigned max l = Some (value_from 0 l).
Proof.
  intros Hm Hl Hne Hv. assert (parse_unsigned max l = parse_digits max 0 l) as ->.
  { unfold parse_unsigned. destruct l as [|b l]; [done|].
    apply Forall_cons_1 in Hl as [Hb%is_ascii_digit_range _].
    assert (b ≠ 43) by lia. repeat case_match; congruence. }
  rewrite parse_digits_spec by lia. by rewrite decide_True.
Qed.

Lemma decimal_rev_spec fuel n :
  0 ≤ n < 10 ^ Z.of_nat fuel → (0 < fuel)%nat →
  digits (decimal_rev fuel n) ∧ decimal_rev fuel n ≠ [] ∧
  value_from 0 (reverse (decimal_rev fuel n)) = n.
Proof.
  revert n. induction fuel as [|fuel IH]; intros n Hn Hf; [lia|].
  rewrite Nat2Z.inj_succ, Z.pow_succ_r in Hn by lia. cbn [decimal_rev].
  pose proof (Z.mod_pos_bound n 10 ltac:(lia)) as Hd.
  pose proof (Z.div_mod n 10 ltac:(lia)) as Hdm.
  assert (is_ascii_digit (48 + n mod 10) = true) as Hb by (apply is_ascii_digit_range; lia).
  destruct (Z.ltb_spec n 10) as [Hlt|Hge].
  - split_and!; [by constructor|done|]. unfold value_from. simpl.
    rewrite Z.mod_small by lia. lia.
  - assert (0 < fuel)%nat by (destruct fuel; simpl in *; lia).
    destruct (IH (n / 10)) as (H1 & H2 & H3).
    { split; [apply Z.div_pos; lia|]. apply Z.div_lt_upper_bound; lia. }
    { done. }
    split_and!; [by constructor|done|]. rewrite reverse_cons. unfold value_from in *.
    rewrite foldl_app, H3. simpl. lia.
Qed.

Lemma decimal_digits n : 0 ≤ n < 2 ^ 64 → digits (decimal n) ∧ decimal n ≠ [].
Proof.
  intros Hn. destruct (decimal_rev_spec 20 n) as (H1 & H2 & _); [lia..|]. unfold decimal. split.
  - unfold digits. by apply Forall_reverse.
  - intros Hr. apply H2. rewrite <-(reverse_involutive (decimal_rev 20 n)), Hr. done.
Qed.
Lemma decimal_value n : 0 ≤ n < 2 ^ 64 → value_from 0 (decimal n) = n.
Proof. intros Hn. apply decimal_rev_spec; lia. Qed.

(** A printed number parses back. *)
Lemma parse_decimal n : 0 ≤ n < 2 ^ 32 → parse_u32 (decimal n) = Some n.
Proof.
  intros Hn. destruct (decimal_digits n) as [H1 H2]; [lia|].
  pose proof (decimal_value n ltac:(lia)) as Hv. unfold parse_u32.
  rewrite parse_unsigned_digits; [by rewrite Hv|lia|done|done|]. lia.
Qed.

Lemma bytes_of_string_of_bytes l :
  Forall (λ b, 0 ≤ b < 256) l → bytes_of_string (string_of_bytes l) = l.
Proof.
  induction 1 as [|b l Hb Hl IH]; [done|]. simpl. rewrite IH. f_equal.
  rewrite Ascii.nat_ascii_embedding; lia.
Qed.
Lemma digits_bytes l : digits l → Forall (λ b, 0 ≤ b < 256) l.
Proof.
  intros Hl. eapply Forall_impl; [exact Hl|]. intros b Hb%is_ascii_digit_range. simpl. lia.
Qed.

(** Digits are not white space. *)
Lemma trim_start_digit b l : is_ascii_digit b = true → trim_start (b :: l) = b :: l.
Proof.
  intros Hb%is_ascii_digit_range.
  assert (b ∈ [48;49;50;51;52;53;54;55;56;57]) as Hin by (rewrite !elem_of_cons; lia).
  rewrite !elem_of_cons in Hin.
  repeat destruct Hin as [->|Hin]; try reflexivity. by apply elem_of_nil in Hin.
Qed.
Lemma trim_end_digit b l : is_ascii_digit b = true → trim_end_rev (b :: l) = b :: l.
Proof.
  intros Hb%is_ascii_digit_range.
  assert (b ∈ [48;49;50;51;52;53;54;55;56;57]) as Hin by (rewrite !elem_of_cons; lia).
  rewrite !elem_of_cons in Hin.
  repeat destruct Hin as [->|Hin]; try by apply elem_of_nil in Hin.
  all: destruct l as [|x [|y l]]; simpl; try reflexivity; repeat case_match; try reflexivity; lia.
Qed.
Lemma str_trim_digits l : digits l → str_trim l = l.
Proof.
  intros Hl. unfold str_trim. destruct Hl as [|b l Hb Hl]; [done|]. rewrite trim_start_digit by done.
  destruct (reverse (b :: l)) as [|x r] eqn:E.
  - apply (f_equal reverse) in E. rewrite reverse_involutive in E. done.
  - assert (is_ascii_digit x = true) as Hx.
    { assert (digits (reverse (b :: l))) as Hd by (apply Forall_reverse, Forall_cons; by split).
      rewrite E in Hd. unfold digits in Hd. rewrite Forall_cons in Hd. by destruct Hd. }
    rewrite trim_end_digit by done. by rewrite <-E, reverse_involutive.
Qed.

(** Substring search. *)
Lemma starts_with_app p l : starts_with p (p ++ l) = true.
Proof. induction p; simpl; [done|]. by rewrite Z.eqb_refl. Qed.
Lemma starts_with_true p l : starts_with p l = true → ∃ r, l = p ++ r.
Proof.
  revert l. induction p as [|x p IH]; intros l; simpl; [by eexists|].
  destruct l as [|y l]; [done|]. intros [->%Z.eqb_eq (r & ->)%IH]%andb_true_iff. by exists r.
Qed.
Lemma str_find_Some p l n :
  str_find p l = Some n → ∃ a b, l = a ++ p ++ b ∧ n = length a.
Proof.
  revert n. induction l as [|x l IH]; intros n; simpl.
  - destruct (starts_with p []) eqn:E; [|done]. intros [= <-].
    apply starts_with_true in E as (r & E). by exists [], r.
  - destruct (starts_with p (x :: l)) eqn:E.
    + intros [= <-]. apply starts_with_true in E as (r & E). by exists [], r.
    + intros (m & Hm & ->)%fmap_Some_1. destruct (IH m Hm) as (a & b & -> & ->).
      by exists (x :: a), b.
Qed.
