(* ===== verification/Types.v ===== *)
(** * Core identifier and domain types (dessplay-core/src/types.rs)

    Every type that can sit in a register carries the total order Rust derives
    for it ([#[derive(Ord)]]): LWW conflict resolution tiebreaks on the value,
    so the order is part of the replicated semantics. Each order is given by an
    injective encoding into products and sums (variant index first, fields in
    declaration order).

    Newtypes over integers whose arithmetic is used ([SharedTimestamp], [Epoch])
    are the integer itself; the identifiers ([ActorId], [ListEntryId],
    [AniDbSeriesId]) are one-field records, so that they cannot be confused.
    A [NonZeroU64] is a [positive]: zero is unrepresentable, as in the code. *)

From Stdlib Require Import Qcanon.
From S2P Require Import Prelude.

Abbreviation SharedTimestamp := Z (only parsing).
Abbreviation Epoch := Z (only parsing).

(** ** Definitions *)

(** [Epoch::next]: wrapping. *)
Definition epoch_next (e : Epoch) : Epoch := u64_wrap (e + 1).

Record Ed2kHash := mkEd2kHash { ed2k_bytes : list Z }.
Record UserId := mkUserId { user_name : string }.
Record ActorId := mkActorId { actor_u128 : Z }.
Record AniDbSeriesId := mkAniDbSeriesId { aid : Z }.
Record ListEntryId := mkListEntryId { list_entry_u128 : Z }.

(** [ActorId::SERVER]. *)
Definition SERVER : ActorId := mkActorId 0.

(** [ActorId::session]: [md4] is the digest of the byte string, read as a
    little-endian [u128]; [0] is remapped to [1]. *)
Definition session (md4_u128 : list Z → Z) (name : string) (nonce_le : list Z) : ActorId :=
  mkActorId (Z.max (md4_u128 (bytes_of_string name ++ nonce_le)) 1).

Definition is_server (a : ActorId) : bool := actor_u128 a =? 0.

(** The dense identifiers of the vendored [crdts] crate: a path of rationals
    with a marker at each node (identifier.rs). *)
Record Identifier (T : Type) := mkIdentifier { id_path : list (Qc * T) }.
Arguments mkIdentifier {T} _.
Arguments id_path {T} _.

(** [Ord for Identifier]: node-wise, and at a common prefix the *longer* path
    is the smaller one. *)
Fixpoint path_cmp `{Ord T} (p q : list (Qc * T)) : comparison :=
  match p, q with
  | x :: p, y :: q =>
      match cmp x y with
      | Eq => path_cmp p q
      | c => c
      end
  | [], _ :: _ => Gt
  | _ :: _, [] => Lt
  | [], [] => Eq
  end.
#[export] Instance Identifier_ord `{Ord T} : Ord (Identifier T) :=
  λ a b, path_cmp (id_path a) (id_path b).

Record PlaylistFileState := mkPlaylistFileState {
  position : Identifier ActorId;
  added_by : UserId;
  pfs_filename : string;
  pfs_size_bytes : Z;
  pfs_duration_millis : option positive
}.

Inductive SeriesWatchState := Watching | NotWatching | Maybe.

Record SeriesPreference := mkSeriesPreference {
  pref_state : SeriesWatchState;
  pref_set_by : option UserId
}.

Record UserSeek := mkUserSeek {
  seek_user : UserId;
  seek_file : Ed2kHash;
  event_at : SharedTimestamp;
  from_millis : Z;
  to_millis : Z
}.

Inductive SeekAuthority :=
| AuthServer
| AuthUser (seek : UserSeek)
| AuthLaggard (file : Ed2kHash)
| AuthAnchor (user : UserId) (file : Ed2kHash).

Inductive PlaybackIntent := IntentPaused | IntentPlaying.

Inductive ManualState :=
| ManualPaused
| ManualAway (set_by : UserId).

Record MarqueeMessage := mkMarqueeMessage {
  marquee_text : string;
  marquee_set_by : option UserId
}.

Inductive FileAvailability :=
| AvReady
| AvMissing
| AvDownloading (progress_bps : Z)
| AvDownloadingPlayable (progress_bps : Z).

Inductive MetadataSource := SourceAniDb | SourceFilenameDerived.

Record AniDbMetadata := mkAniDbMetadata {
  meta_source : MetadataSource;
  series_name : string;
  series_id : option AniDbSeriesId;
  episode_number : option string
}.

Record FileCatalogEntry := mkFileCatalogEntry {
  cat_filename : string;
  cat_size_bytes : Z;
  cat_duration_millis : option positive
}.

Inductive RelationKind :=
| Sequel
| Prequel
| SameSetting
| AlternativeSetting
| AlternativeVersion
| MusicVideo
| Character
| SideStory
| ParentStory
| Summary
| FullStory
| OtherRelation (code : Z).

(** [RelationKind::groups_franchise]. *)
Definition groups_franchise (k : RelationKind) : bool :=
  match k with
  | Sequel | Prequel | AlternativeVersion | SideStory | ParentStory | Summary
  | FullStory => true
  | SameSetting | AlternativeSetting | MusicVideo | Character | OtherRelation _ => false
  end.

Record SeriesRelation := mkSeriesRelation {
  rel_kind : RelationKind;
  rel_target : AniDbSeriesId
}.

Inductive ListStatus :=
| ShortList | Planned | Active | CurrentSeason | Waiting | Hiatus | Finished | Dropped.

Record NextEpState := mkNextEpState {
  next_ep : option string;
  ep_available : bool
}.

Record ChatMessage := mkChatMessage {
  chat_timestamp : SharedTimestamp;
  chat_sender : UserId;
  chat_text : string
}.

Record FileHashInfo := mkFileHashInfo {
  fhi_hash : Ed2kHash;
  fhi_size : Z;
  fhi_filename : string;
  fhi_mtime : option Z;
  fhi_series_hint : option string
}.

Record PlaybackPosition := mkPlaybackPosition {
  position_millis : Z;
  pos_timestamp : SharedTimestamp;
  pos_file : Ed2kHash
}.

(** ** Encodings

    The tuple (or tagged tuple) whose lexicographic order is the derived one. *)

Definition watch_index (w : SeriesWatchState) : Z :=
  match w with Watching => 0 | NotWatching => 1 | Maybe => 2 end.
Definition seek_tuple (s : UserSeek) : UserId * (Ed2kHash * (Z * (Z * Z))) :=
  (seek_user s, (seek_file s, (event_at s, (from_millis s, to_millis s)))).
Definition intent_index (i : PlaybackIntent) : Z :=
  match i with IntentPaused => 0 | IntentPlaying => 1 end.
Definition manual_tuple (m : ManualState) : Z * option UserId :=
  match m with ManualPaused => (0, None) | ManualAway u => (1, Some u) end.
Definition marquee_tuple (m : MarqueeMessage) : string * option UserId :=
  (marquee_text m, marquee_set_by m).
Definition availability_tuple (a : FileAvailability) : Z * option Z :=
  match a with
  | AvReady => (0, None)
  | AvMissing => (1, None)
  | AvDownloading p => (2, Some p)
  | AvDownloadingPlayable p => (3, Some p)
  end.
Definition source_index (s : MetadataSource) : Z :=
  match s with SourceAniDb => 0 | SourceFilenameDerived => 1 end.
Definition relation_tuple (k : RelationKind) : Z * option Z :=
  match k with
  | Sequel => (0, None) | Prequel => (1, None) | SameSetting => (2, None)
  | AlternativeSetting => (3, None) | AlternativeVersion => (4, None)
  | MusicVideo => (5, None) | Character => (6, None) | SideStory => (7, None)
  | ParentStory => (8, None) | Summary => (9, None) | FullStory => (10, None)
  | OtherRelation c => (11, Some c)
  end.
Definition relation_of_tuple (t : Z * option Z) : option RelationKind :=
  match t with
  | (0, None) => Some Sequel | (1, None) => Some Prequel
  | (2, None) => Some SameSetting | (3, None) => Some AlternativeSetting
  | (4, None) => Some AlternativeVersion | (5, None) => Some MusicVideo
  | (6, None) => Some Character | (7, None) => Some SideStory
  | (8, None) => Some ParentStory | (9, None) => Some Summary
  | (10, None) => Some FullStory | (11, Some c) => Some (OtherRelation c)
  | _ => None
  end.
Definition status_index (s : ListStatus) : Z :=
  match s with
  | ShortList => 0 | Planned => 1 | Active => 2 | CurrentSeason => 3
  | Waiting => 4 | Hiatus => 5 | Finished => 6 | Dropped => 7
  end.

(** ** Equality, order and countability *)

(** An injective function of a plain data type, by case analysis. *)
Ltac solve_enc_inj :=
  intros x y; destruct x, y; simpl; intros; simplify_eq/=; reflexivity.

#[export] Instance Ed2kHash_eq_dec : EqDecision Ed2kHash.
Proof. solve_decision. Defined.
#[export] Instance UserId_eq_dec : EqDecision UserId.
Proof. solve_decision. Defined.
#[export] Instance ActorId_eq_dec : EqDecision ActorId.
Proof. solve_decision. Defined.
#[export] Instance AniDbSeriesId_eq_dec : EqDecision AniDbSeriesId.
Proof. solve_decision. Defined.
#[export] Instance ListEntryId_eq_dec : EqDecision ListEntryId.
Proof. solve_decision. Defined.

#[export] Instance Ed2kHash_countable : Countable Ed2kHash.
Proof. apply (inj_countable' ed2k_bytes mkEd2kHash). by intros []. Defined.
#[export] Instance UserId_countable : Countable UserId.
Proof. apply (inj_countable' user_name mkUserId). by intros []. Defined.
#[export] Instance ActorId_countable : Countable ActorId.
Proof. apply (inj_countable' actor_u128 mkActorId). by intros []. Defined.
#[export] Instance AniDbSeriesId_countable : Countable AniDbSeriesId.
Proof. apply (inj_countable' aid mkAniDbSeriesId). by intros []. Defined.
#[export] Instance ListEntryId_countable : Countable ListEntryId.
Proof. apply (inj_countable' list_entry_u128 mkListEntryId). by intros []. Defined.

#[export] Instance Ed2kHash_ord : Ord Ed2kHash := ord_via ed2k_bytes.
#[export] Instance UserId_ord : Ord UserId := ord_via user_name.
#[export] Instance ActorId_ord : Ord ActorId := ord_via actor_u128.
#[export] Instance AniDbSeriesId_ord : Ord AniDbSeriesId := ord_via aid.
#[export] Instance ListEntryId_ord : Ord ListEntryId := ord_via list_entry_u128.

#[export] Instance Ed2kHash_lawful : LawfulOrd Ed2kHash.
Proof. apply lawful_via. solve_enc_inj. Qed.
#[export] Instance UserId_lawful : LawfulOrd UserId.
Proof. apply lawful_via. solve_enc_inj. Qed.
#[export] Instance ActorId_lawful : LawfulOrd ActorId.
Proof. apply lawful_via. solve_enc_inj. Qed.
#[export] Instance AniDbSeriesId_lawful : LawfulOrd AniDbSeriesId.
Proof. apply lawful_via. solve_enc_inj. Qed.
#[export] Instance ListEntryId_lawful : LawfulOrd ListEntryId.
Proof. apply lawful_via. solve_enc_inj. Qed.

#[export] Instance Identifier_eq_dec `{EqDecision T} : EqDecision (Identifier T).
Proof. solve_decision. Defined.
#[export] Instance Identifier_countable `{Countable T} : Countable (Identifier T).
Proof. apply (inj_countable' id_path mkIdentifier). by intros []. Defined.

Lemma path_cmp_eq `{LawfulOrd T} (p q : list (Qc * T)) : path_cmp p q = Eq ↔ p = q.
Proof.
  revert q. induction p as [|x p IH]; intros [|y q]; simpl; try done.
  destruct (cmp x y) eqn:E.
  - rewrite IH. apply cmp_eq_iff in E. naive_solver.
  - apply cmp_lt_ne in E. naive_solver.
  - apply cmp_gt_lt, cmp_lt_ne in E. naive_solver.
Qed.

#[export] Instance Identifier_lawful `{LawfulOrd T} : LawfulOrd (Identifier T).
Proof.
  split; unfold cmp, Identifier_ord.
  - intros [p] [q]; simpl. rewrite path_cmp_eq. naive_solver.
  - intros [p] [q]; simpl. revert q. induction p as [|x p IH]; intros [|y q]; simpl; try done.
    rewrite (cmp_antisym x y). destruct (cmp x y); simpl; auto.
  - intros [p] [q] [r]; simpl. revert q r.
    induction p as [|x p IH]; intros [|y q] [|z r]; simpl; try done.
    destruct (cmp x y) eqn:E1; destruct (cmp y z) eqn:E2; try done; intros ??;
      try apply cmp_eq_iff in E1 as ->; try apply cmp_eq_iff in E2 as ->.
    + rewrite cmp_refl. eauto.
    + by rewrite E2.
    + by rewrite E1.
    + by rewrite (cmp_lt_trans x y z).
Qed.

Definition pfs_tuple (x : PlaylistFileState) : Identifier ActorId * (UserId * (string * (Z * option positive))) :=
  (position x, (added_by x, (pfs_filename x, (pfs_size_bytes x, pfs_duration_millis x)))).

#[export] Instance PlaylistFileState_eq_dec : EqDecision PlaylistFileState.
Proof. solve_decision. Defined.

#[export] Instance PlaylistFileState_ord : Ord PlaylistFileState := ord_via pfs_tuple.

#[export] Instance PlaylistFileState_lawful : LawfulOrd PlaylistFileState.
Proof. apply lawful_via. solve_enc_inj. Qed.

#[export] Instance SeriesWatchState_eq_dec : EqDecision SeriesWatchState.
Proof. solve_decision. Defined.

#[export] Instance SeriesWatchState_ord : Ord SeriesWatchState := ord_via watch_index.

#[export] Instance SeriesWatchState_lawful : LawfulOrd SeriesWatchState.
Proof. apply lawful_via. solve_enc_inj. Qed.

Definition pref_tuple (x : SeriesPreference) : SeriesWatchState * option UserId :=
  (pref_state x, pref_set_by x).

#[export] Instance SeriesPreference_eq_dec : EqDecision SeriesPreference.
Proof. solve_decision. Defined.

#[export] Instance SeriesPreference_ord : Ord SeriesPreference := ord_via pref_tuple.

#[export] Instance SeriesPreference_lawful : LawfulOrd SeriesPreference.
Proof. apply lawful_via. solve_enc_inj. Qed.

#[export] Instance UserSeek_eq_dec : EqDecision UserSeek.
Proof. solve_decision. Defined.

#[export] Instance UserSeek_ord : Ord UserSeek := ord_via seek_tuple.

#[export] Instance UserSeek_lawful : LawfulOrd UserSeek.
Proof. apply lawful_via. solve_enc_inj. Qed.

Definition authority_tuple (a : SeekAuthority) :
    Z * (option UserSeek * (option UserId * option Ed2kHash)) :=
  match a with
  | AuthServer => (0, (None, (None, None)))
  | AuthUser s => (1, (Some s, (None, None)))
  | AuthLaggard f => (2, (None, (None, Some f)))
  | AuthAnchor u f => (3, (None, (Some u, Some f)))
  end.

#[export] Instance SeekAuthority_eq_dec : EqDecision SeekAuthority.
Proof. solve_decision. Defined.

#[export] Instance SeekAuthority_ord : Ord SeekAuthority := ord_via authority_tuple.

#[export] Instance SeekAuthority_lawful : LawfulOrd SeekAuthority.
Proof. apply lawful_via. solve_enc_inj. Qed.

#[export] Instance PlaybackIntent_eq_dec : EqDecision PlaybackIntent.
Proof. solve_decision. Defined.

#[export] Instance PlaybackIntent_ord : Ord PlaybackIntent := ord_via intent_index.

#[export] Instance PlaybackIntent_lawful : LawfulOrd PlaybackIntent.
Proof. apply lawful_via. solve_enc_inj. Qed.

#[export] Instance ManualState_eq_dec : EqDecision ManualState.
Proof. solve_decision. Defined.

#[export] Instance ManualState_ord : Ord ManualState := ord_via manual_tuple.

#[export] Instance ManualState_lawful : LawfulOrd ManualState.
Proof. apply lawful_via. solve_enc_inj. Qed.

#[export] Instance MarqueeMessage_eq_dec : EqDecision MarqueeMessage.
Proof. solve_decision. Defined.

#[export] Instance MarqueeMessage_ord : Ord MarqueeMessage := ord_via marquee_tuple.

#[export] Instance MarqueeMessage_lawful : LawfulOrd MarqueeMessage.
Proof. apply lawful_via. solve_enc_inj. Qed.

#[export] Instance FileAvailability_eq_dec : EqDecision FileAvailability.
Proof. solve_decision. Defined.

#[export] Instance FileAvailability_ord : Ord FileAvailability := ord_via availability_tuple.

#[export] Instance FileAvailability_lawful : LawfulOrd FileAvailability.
Proof. apply lawful_via. solve_enc_inj. Qed.

#[export] Instance MetadataSource_eq_dec : EqDecision MetadataSource.
Proof. solve_decision. Defined.

#[export] Instance MetadataSource_ord : Ord MetadataSource := ord_via source_index.

#[export] Instance MetadataSource_lawful : LawfulOrd MetadataSource.
Proof. apply lawful_via. solve_enc_inj. Qed.

Definition metadata_tuple (x : AniDbMetadata) : MetadataSource * (string * (option AniDbSeriesId * option string)) :=
  (meta_source x, (series_name x, (series_id x, episode_number x))).

#[export] Instance AniDbMetadata_eq_dec : EqDecision AniDbMetadata.
Proof. solve_decision. Defined.

#[export] Instance AniDbMetadata_ord : Ord AniDbMetadata := ord_via metadata_tuple.

#[export] Instance AniDbMetadata_lawful : LawfulOrd AniDbMetadata.
Proof. apply lawful_via. solve_enc_inj. Qed.

Definition catalog_tuple (x : FileCatalogEntry) : string * (Z * option positive) :=
  (cat_filename x, (cat_size_bytes x, cat_duration_millis x)).

#[export] Instance FileCatalogEntry_eq_dec : EqDecision FileCatalogEntry.
Proof. solve_decision. Defined.

#[export] Instance FileCatalogEntry_ord : Ord FileCatalogEntry := ord_via catalog_tuple.

#[export] Instance FileCatalogEntry_lawful : LawfulOrd FileCatalogEntry.
Proof. apply lawful_via. solve_enc_inj. Qed.

#[export] Instance RelationKind_eq_dec : EqDecision RelationKind.
Proof. solve_decision. Defined.
#[export] Instance RelationKind_ord : Ord RelationKind := ord_via relation_tuple.
#[export] Instance RelationKind_lawful : LawfulOrd RelationKind.
Proof. apply lawful_via. solve_enc_inj. Qed.
#[export] Instance RelationKind_countable : Countable RelationKind.
Proof. apply (inj_countable relation_tuple relation_of_tuple). by intros []. Defined.

Definition series_relation_tuple (x : SeriesRelation) : RelationKind * AniDbSeriesId :=
  (rel_kind x, rel_target x).

#[export] Instance SeriesRelation_eq_dec : EqDecision SeriesRelation.
Proof. solve_decision. Defined.

#[export] Instance SeriesRelation_ord : Ord SeriesRelation := ord_via series_relation_tuple.

#[export] Instance SeriesRelation_lawful : LawfulOrd SeriesRelation.
Proof. apply lawful_via. solve_enc_inj. Qed.

#[export] Instance SeriesRelation_countable : Countable SeriesRelation.
Proof.
  apply (inj_countable' series_relation_tuple
    (λ t, mkSeriesRelation t.1 t.2)).
  by intros [].
Defined.

#[export] Instance ListStatus_eq_dec : EqDecision ListStatus.
Proof. solve_decision. Defined.

#[export] Instance ListStatus_ord : Ord ListStatus := ord_via status_index.

#[export] Instance ListStatus_lawful : LawfulOrd ListStatus.
Proof. apply lawful_via. solve_enc_inj. Qed.

Definition next_ep_tuple (x : NextEpState) : option string * bool :=
  (next_ep x, ep_available x).

#[export] Instance NextEpState_eq_dec : EqDecision NextEpState.
Proof. solve_decision. Defined.

#[export] Instance NextEpState_ord : Ord NextEpState := ord_via next_ep_tuple.

#[export] Instance NextEpState_lawful : LawfulOrd NextEpState.
Proof. apply lawful_via. solve_enc_inj. Qed.

Definition chat_tuple (x : ChatMessage) : Z * (UserId * string) :=
  (chat_timestamp x, (chat_sender x, chat_text x)).

#[export] Instance ChatMessage_eq_dec : EqDecision ChatMessage.
Proof. solve_decision. Defined.

#[export] Instance ChatMessage_ord : Ord ChatMessage := ord_via chat_tuple.

#[export] Instance ChatMessage_lawful : LawfulOrd ChatMessage.
Proof. apply lawful_via. solve_enc_inj. Qed.

#[export] Instance ChatMessage_countable : Countable ChatMessage.
Proof.
  apply (inj_countable' chat_tuple
    (λ t, mkChatMessage t.1 t.2.1 t.2.2)).
  by intros [].
Defined.

Definition fhi_tuple (x : FileHashInfo) : Ed2kHash * (Z * (string * (option Z * option string))) :=
  (fhi_hash x, (fhi_size x, (fhi_filename x, (fhi_mtime x, fhi_series_hint x)))).

#[export] Instance FileHashInfo_eq_dec : EqDecision FileHashInfo.
Proof. solve_decision. Defined.

#[export] Instance FileHashInfo_ord : Ord FileHashInfo := ord_via fhi_tuple.

#[export] Instance FileHashInfo_lawful : LawfulOrd FileHashInfo.
Proof. apply lawful_via. solve_enc_inj. Qed.

#[export] Instance FileHashInfo_countable : Countable FileHashInfo.
Proof.
  apply (inj_countable' fhi_tuple
    (λ t, mkFileHashInfo t.1 t.2.1 t.2.2.1 t.2.2.2.1 t.2.2.2.2)).
  by intros [].
Defined.

Definition playback_position_tuple (x : PlaybackPosition) : Z * (Z * Ed2kHash) :=
  (position_millis x, (pos_timestamp x, pos_file x)).

#[export] Instance PlaybackPosition_eq_dec : EqDecision PlaybackPosition.
Proof. solve_decision. Defined.

#[export] Instance PlaybackPosition_ord : Ord PlaybackPosition := ord_via playback_position_tuple.

#[export] Instance PlaybackPosition_lawful : LawfulOrd PlaybackPosition.
Proof. apply lawful_via. solve_enc_inj. Qed.

(** The two records that hold [BTreeSet]s. *)
Record SeriesRelations := mkSeriesRelations {
  rels_title : string;
  rels_year : option Z;
  rels_episode_count : option Z;
  relations : gset SeriesRelation;
  short_titles : list string
}.

Definition series_relations_tuple (x : SeriesRelations) : string * (option Z * (option Z * (gset SeriesRelation * list string))) :=
  (rels_title x, (rels_year x, (rels_episode_count x, (relations x, short_titles x)))).

#[export] Instance SeriesRelations_eq_dec : EqDecision SeriesRelations.
Proof. solve_decision. Defined.

#[export] Instance SeriesRelations_ord : Ord SeriesRelations := ord_via series_relations_tuple.

#[export] Instance SeriesRelations_lawful : LawfulOrd SeriesRelations.
Proof. apply lawful_via. solve_enc_inj. Qed.

Record SeriesListEntry := mkSeriesListEntry {
  entry_name : string;
  nero_name : option string;
  genre : option string;
  notes : list string;
  recommender : option string;
  status : ListStatus;
  status_note : option string;
  source : option string;
  watchers : gset UserId;
  anidb_series_id : option AniDbSeriesId;
  local_aliases : gset string;
  manual_files : gset Ed2kHash;
  anidb_unavailable : bool
}.

Definition list_entry_tuple (x : SeriesListEntry) :
    string * (option string * (option string * (list string * (option string *
    (ListStatus * (option string * (option string * (gset UserId *
    (option AniDbSeriesId * (gset string * (gset Ed2kHash * bool))))))))))) :=
  (entry_name x, (nero_name x, (genre x, (notes x, (recommender x, (status x,
   (status_note x, (source x, (watchers x, (anidb_series_id x, (local_aliases x,
   (manual_files x, anidb_unavailable x)))))))))))).

#[export] Instance SeriesListEntry_eq_dec : EqDecision SeriesListEntry.
Proof. solve_decision. Defined.

#[export] Instance SeriesListEntry_ord : Ord SeriesListEntry := ord_via list_entry_tuple.

#[export] Instance SeriesListEntry_lawful : LawfulOrd SeriesListEntry.
Proof. apply lawful_via. solve_enc_inj. Qed.
