(* ===== verification/Lww.v ===== *)
(** * Last-writer-wins registers (dessplay-core/src/lww.rs)

    The replication traits of the vendored crate (vendor/crdts/src/traits.rs)
    as type classes, the register [LwwCell], and the register laws: applying an
    op and merging a state are both "keep the maximum of [(timestamp, value)]",
    hence commutative, associative and idempotent under any delivery order. *)

From S2P Require Import Prelude Types.

(** ** The traits *)

Class CmRDT (S O : Type) := cm_apply : S → O → S.
Class CvRDT (S : Type) := cv_merge : S → S → S.
Class ResetRemove (S C : Type) := reset_remove : S → C → S.
Class Default (S : Type) := default_value : S.

(** The contract a keyed collection needs from the values it nests: a value is
    the join of the ops applied to it, merging joins, and causal removal does
    not touch it. [LwwCell] discharges it below; the convergence of the map
    (CrdtMap.v) is proved against this interface alone. *)
Class JoinVal (V O C : Type)
    `{CmRDT V O, CvRDT V, ResetRemove V C, Default V} : Prop := {
  jv_apply_comm (v : V) (x y : O) :
    cm_apply (cm_apply v x) y = cm_apply (cm_apply v y) x;
  jv_apply_idem (v : V) (x : O) : cm_apply (cm_apply v x) x = cm_apply v x;
  jv_merge_default (v : V) : cv_merge v default_value = v;
  jv_merge_apply (v w : V) (x : O) :
    cv_merge v (cm_apply w x) = cm_apply (cv_merge v w) x;
  jv_reset (v : V) (c : C) : reset_remove v c = v
}.

(** The value a list of ops denotes. *)
Definition denote {V O} `{CmRDT V O, Default V} (ops : list O) : V :=
  foldl cm_apply default_value ops.

(** ** The register *)

Record Lww (V : Type) := mkLww { lww_timestamp : SharedTimestamp; lww_value : V }.
Arguments mkLww {V} _ _.
Arguments lww_timestamp {V} _.
Arguments lww_value {V} _.

Definition lww_tuple {V} (x : Lww V) : Z * V := (lww_timestamp x, lww_value x).
#[export] Instance Lww_ord `{Ord V} : Ord (Lww V) := ord_via lww_tuple.
#[export] Instance Lww_eq_dec `{EqDecision V} : EqDecision (Lww V).
Proof. solve_decision. Defined.
#[export] Instance Lww_lawful `{LawfulOrd V} : LawfulOrd (Lww V).
Proof. apply lawful_via. intros [] []; simpl; intros; by simplify_eq/=. Qed.

Record LwwCell (V : Type) := mkLwwCell { current : option (Lww V) }.
Arguments mkLwwCell {V} _.
Arguments current {V} _.

#[export] Instance LwwCell_eq_dec `{EqDecision V} : EqDecision (LwwCell V).
Proof. solve_decision. Defined.

Section LwwCell.
Context `{Ord V}.

#[export] Instance LwwCell_default : Default (LwwCell V) := mkLwwCell None.

(** [LwwCell::write]: builds the op only. *)
Definition lww_write (_ : LwwCell V) (ts : SharedTimestamp) (value : V) : Lww V :=
  mkLww ts value.
(** [LwwCell::read]. *)
Definition lww_read (c : LwwCell V) : option (Lww V) := current c.
(** [LwwCell::value]. *)
Definition lww_cell_value (c : LwwCell V) : option V := lww_value <$> current c.
(** [LwwCell::timestamp]. *)
Definition lww_cell_timestamp (c : LwwCell V) : option SharedTimestamp :=
  lww_timestamp <$> current c.

(** [CmRDT::apply]: [current.is_none_or(|current| *current < op)]. *)
Definition lww_apply (c : LwwCell V) (op : Lww V) : LwwCell V :=
  if match current c with None => true | Some cur => cur ≺ op end
  then mkLwwCell (Some op) else c.

(** [CvRDT::merge]. *)
Definition lww_merge (c other : LwwCell V) : LwwCell V :=
  match current other with
  | Some theirs => lww_apply c theirs
  | None => c
  end.

#[export] Instance LwwCell_cmrdt : CmRDT (LwwCell V) (Lww V) := lww_apply.
#[export] Instance LwwCell_cvrdt : CvRDT (LwwCell V) := lww_merge.

(** [ResetRemove::reset_remove]: nothing is ever causally retracted. *)
#[export] Instance LwwCell_reset_remove {C} : ResetRemove (LwwCell V) C := λ c _, c.
End LwwCell.

(** [resolve] and [resolve_value]. *)
Definition resolve {V} (c : LwwCell V) : option (Lww V) := lww_read c.
Definition resolve_value {V} (c : LwwCell V) : option V := lww_cell_value c.

(** ** The specification: the maximum of a list of writes *)

Definition lww_max_opt `{Ord V} (a b : option (Lww V)) : option (Lww V) :=
  match a, b with
  | Some x, Some y => if x ≺ y then Some y else Some x
  | Some x, None => Some x
  | None, b => b
  end.

(** The register after any sequence of writes, delivered in any order. *)
Definition lww_of_writes `{Ord V} (ops : list (Lww V)) : LwwCell V :=
  foldl lww_apply default_value ops.

(** ** Laws *)

Section laws.
Context `{LawfulOrd V}.
Implicit Types (c d : LwwCell V) (x y : Lww V).

Lemma lww_apply_max c x : current (lww_apply c x) = lww_max_opt (current c) (Some x).
Proof. unfold lww_apply. by destruct c as [[y|]]; simpl; [case_match|]. Qed.

Lemma lww_merge_max c d : current (lww_merge c d) = lww_max_opt (current c) (current d).
Proof.
  unfold lww_merge. destruct (current d) as [y|] eqn:E; [apply lww_apply_max|].
  by destruct (current c).
Qed.

Lemma LwwCell_eq c d : current c = current d → c = d.
Proof. destruct c, d; naive_solver. Qed.

Lemma lww_max_opt_comm (a b : option (Lww V)) : lww_max_opt a b = lww_max_opt b a.
Proof.
  destruct a as [x|], b as [y|]; simpl; try done. unfold ord_ltb.
  rewrite (cmp_antisym x y). destruct (cmp x y) eqn:E; simpl; try done.
  by apply cmp_eq_iff in E as ->.
Qed.

Lemma lww_max_opt_idem (a : option (Lww V)) : lww_max_opt a a = a.
Proof. destruct a as [x|]; simpl; [|done]. by rewrite ord_ltb_irrefl. Qed.

Lemma lww_max_opt_assoc (a b c : option (Lww V)) :
  lww_max_opt a (lww_max_opt b c) = lww_max_opt (lww_max_opt a b) c.
Proof.
  destruct a as [x|], b as [y|], c as [z|]; simpl; try done; [|by case_match].
  destruct (x ≺ y) eqn:Exy, (y ≺ z) eqn:Eyz; simpl; rewrite ?Exy, ?Eyz; try done.
  - assert (x ≺ z = true) as ->; [|done].
    rewrite ord_ltb_lt in *. by eapply cmp_lt_trans.
  - assert (x ≺ z = false) as ->; [|done].
    rewrite ord_ltb_ge in *. by trans y.
Qed.
End laws.

#[export] Instance LwwCell_join `{LawfulOrd V} {C} : JoinVal (LwwCell V) (Lww V) C.
Proof.
  split; unfold cm_apply, cv_merge, LwwCell_cmrdt, LwwCell_cvrdt; try done;
    intros; apply LwwCell_eq; rewrite ?lww_merge_max, ?lww_apply_max, ?lww_merge_max.
  - rewrite <-!lww_max_opt_assoc. f_equal. apply lww_max_opt_comm.
  - by rewrite <-lww_max_opt_assoc, lww_max_opt_idem.
  - by rewrite lww_max_opt_assoc.
Qed.

(** ** Values denoted by op lists *)

Section join_val.
Context `{JoinVal V W C}.
Implicit Types (l k : list W) (v : V) (x : W).

Lemma foldl_apply_comm l v x :
  foldl cm_apply (cm_apply v x) l = cm_apply (foldl cm_apply v l) x.
Proof.
  revert v. induction l as [|y l IH]; intros v; simpl; [done|].
  by rewrite (jv_apply_comm (C:=C)), IH.
Qed.

Lemma foldl_apply_absorb l v x :
  x ∈ l → cm_apply (foldl cm_apply v l) x = foldl cm_apply v l.
Proof.
  revert v. induction l as [|y l IH]; intros v Hx; [by apply elem_of_nil in Hx|].
  apply elem_of_cons in Hx as [->|Hx]; simpl; [|by apply IH].
  by rewrite <-foldl_apply_comm, (jv_apply_idem (C:=C)).
Qed.

Lemma foldl_apply_subset l k v :
  (∀ x, x ∈ k → x ∈ l) → foldl cm_apply (foldl cm_apply v l) k = foldl cm_apply v l.
Proof.
  induction k as [|y k IH]; intros Hs; simpl; [done|].
  rewrite foldl_apply_absorb by set_solver. apply IH. set_solver.
Qed.

(** The value depends on the set of ops only: not on their order, nor on how
    often each was delivered. *)
Lemma denote_set_eq l k : (∀ x, x ∈ l ↔ x ∈ k) → denote (V:=V) l = denote k.
Proof.
  intros Hlk. unfold denote.
  rewrite <-(foldl_apply_subset l k) by set_solver.
  rewrite <-(foldl_apply_subset k l (default_value)) by set_solver.
  rewrite <-!foldl_app.
  generalize (default_value : V). clear Hlk. intros v. revert v k.
  induction l as [|x l IH]; intros v k; simpl; [by rewrite app_nil_r|].
  by rewrite foldl_app, !foldl_apply_comm, <-foldl_app, IH, foldl_app, foldl_app;
    simpl; rewrite foldl_apply_comm.
Qed.

Lemma denote_app l k : cv_merge (denote (V:=V) l) (denote k) = denote (l ++ k).
Proof.
  unfold denote. rewrite foldl_app. generalize (foldl cm_apply (default_value : V) l).
  intros v. induction k as [|x k IH] using rev_ind; simpl.
  - apply (jv_merge_default (C:=C)).
  - by rewrite !foldl_app; simpl; rewrite (jv_merge_apply (C:=C)), IH.
Qed.

Lemma denote_snoc l x : cm_apply (denote (V:=V) l) x = denote (x :: l).
Proof. unfold denote. simpl. by rewrite foldl_apply_comm. Qed.
End join_val.

(** The two facts at the register itself. *)
Lemma lww_denote_snoc `{LawfulOrd V} (l : list (Lww V)) (x : Lww V) :
  lww_apply (denote l) x = denote (x :: l).
Proof. exact (denote_snoc (V:=LwwCell V) (C:=unit) l x). Qed.
Lemma lww_denote_app `{LawfulOrd V} (l k : list (Lww V)) :
  lww_merge (denote l) (denote k) = denote (l ++ k).
Proof. exact (denote_app (V:=LwwCell V) (C:=unit) l k). Qed.
