(* ===== verification/Vclock.v ===== *)
(** * Dots and vector clocks (vendor/crdts/src/dot.rs, vclock.rs, ctx.rs)

    A vector clock is the [BTreeMap] from actors to [u64] counters; its loops
    iterate in actor order. The lemmas give each operation by lookup. *)

From S2P Require Import Prelude Types Lww.

(** ** Definitions *)

Record Dot (A : Type) := mkDot { dot_actor : A; dot_counter : Z }.
Arguments mkDot {A} _ _.
Arguments dot_actor {A} _.
Arguments dot_counter {A} _.

#[export] Instance Dot_eq_dec `{EqDecision A} : EqDecision (Dot A).
Proof. solve_decision. Defined.

(** [Dot::inc]: the successor dot ([u64] addition). *)
Definition dot_inc {A} (d : Dot A) : Dot A :=
  mkDot (dot_actor d) (u64_wrap (dot_counter d + 1)).

(** [VClock { dots: BTreeMap<A, u64> }]. *)
Abbreviation VClock A := (gmap A Z).

Section VClock.
Context `{Countable A, Ord A}.
Implicit Types (c d : VClock A) (a : A).

(** [VClock::get]: absent actors have an implied count of 0. *)
Definition vget c a : Z := default 0 (c !! a).

(** [VClock::dot] and [VClock::inc]. *)
Definition vdot c a : Dot A := mkDot a (vget c a).
Definition vinc c a : Dot A := dot_inc (vdot c a).

(** [CmRDT::apply]. *)
Definition vapply c (d : Dot A) : VClock A :=
  if vget c (dot_actor d) <? dot_counter d
  then <[dot_actor d := dot_counter d]> c else c.

(** [CvRDT::merge]: a loop over the other clock's dots. *)
Definition vmerge c d : VClock A :=
  foldl (λ c an, vapply c (mkDot an.1 an.2)) c (btree_iter d).

(** [ResetRemove::reset_remove]. *)
Definition vreset_remove c d : VClock A :=
  foldl (λ c an, if vget c an.1 <=? an.2 then delete an.1 c else c) c (btree_iter d).

(** [VClock::clone_without]. *)
Definition vclone_without c base : VClock A := vreset_remove c base.

(** [PartialOrd::partial_cmp]. *)
Definition vpartial_cmp c d : option comparison :=
  if bool_decide (c = d) then Some Eq
  else if forallb (λ an, an.2 <=? vget c an.1) (btree_iter d) then Some Gt
  else if forallb (λ an, an.2 <=? vget d an.1) (btree_iter c) then Some Lt
  else None.

(** Rust's [>=] on a [PartialOrd] type. *)
Definition vge c d : bool :=
  match vpartial_cmp c d with Some Gt | Some Eq => true | _ => false end.

(** [VClock::concurrent]. *)
Definition vconcurrent c d : bool :=
  match vpartial_cmp c d with None => true | _ => false end.

(** [VClock::is_empty]. *)
Definition vis_empty c : bool := bool_decide (c = ∅).

(** [VClock::intersection]: same actor and same counter. *)
Definition vintersection c d : VClock A :=
  foldl (λ m an, if vget d an.1 =? an.2 then <[an.1 := an.2]> m else m) ∅ (btree_iter c).

(** [VClock::glb]. *)
Definition vglb c d : VClock A :=
  map_imap (λ a n, let m := Z.min n (vget d a) in if m =? 0 then None else Some m) c.

(** [VClock::validate_op]: [Err] carries the range of missing dots. *)
Definition vvalidate_op c (d : Dot A) : (unit + (A * (Z * Z)))%type :=
  let next_counter := u64_wrap (vget c (dot_actor d) + 1) in
  if next_counter <? dot_counter d
  then inr (dot_actor d, (next_counter, dot_counter d)) else inl tt.

(** [ReadCtx::derive_add_ctx]: the add clock with the next dot applied. *)
Definition derive_add_ctx (add_clock : VClock A) (actor : A) : VClock A * Dot A :=
  let dot := vinc add_clock actor in (vapply add_clock dot, dot).
End VClock.

#[export] Instance VClock_reset_remove `{Countable A, Ord A} :
  ResetRemove (VClock A) (VClock A) := vreset_remove.

(** A clock as the code keeps it: every stored counter is positive. *)
Definition vclock_ok `{Countable A} (c : VClock A) : Prop :=
  map_Forall (λ _ n, 0 < n) c.

(** ** Lemmas *)

Section lemmas.
Context `{Countable A, OA : !Ord A, !LawfulOrd A}.
Implicit Types (c d : VClock A) (a : A).

Lemma vget_empty a : vget (∅ : VClock A) a = 0.
Proof. unfold vget. by rewrite lookup_empty. Qed.

Lemma vget_nonneg c a : vclock_ok c → 0 ≤ vget c a.
Proof.
  intros Hc. unfold vget. destruct (c !! a) as [n|] eqn:E; simpl; [|lia].
  apply Hc in E. lia.
Qed.

Lemma vget_pos_lookup c a : 0 < vget c a → c !! a = Some (vget c a).
Proof. unfold vget. destruct (c !! a); simpl; [done|lia]. Qed.

(** Two clocks with the same counts are equal. *)
Lemma vclock_ext c d :
  vclock_ok c → vclock_ok d → (∀ a, vget c a = vget d a) → c = d.
Proof.
  intros Hc Hd Hcd. apply map_eq. intros a. specialize (Hcd a). unfold vget in Hcd.
  destruct (c !! a) as [n|] eqn:E1, (d !! a) as [m|] eqn:E2; simpl in *; subst; try done.
  - apply Hc in E1. lia.
  - apply Hd in E2. lia.
Qed.

Lemma lookup_vapply c (x : Dot A) a :
  vapply c x !! a =
    if decide (a = dot_actor x) then
      if vget c a <? dot_counter x then Some (dot_counter x) else c !! a
    else c !! a.
Proof.
  unfold vapply. case_decide as Ha; [subst a|].
  - case_match; [|done]. by rewrite lookup_insert_eq.
  - case_match; [|done]. by rewrite lookup_insert_ne by congruence.
Qed.

Lemma vget_vapply c (x : Dot A) a :
  vget (vapply c x) a =
    if decide (a = dot_actor x) then Z.max (vget c a) (dot_counter x) else vget c a.
Proof.
  unfold vget at 1. rewrite lookup_vapply. case_decide; [|done].
  destruct (Z.ltb_spec (vget c a) (dot_counter x)); simpl; [lia|].
  fold (vget c a). lia.
Qed.

Lemma vapply_ok c x : vclock_ok c → vclock_ok (vapply c x).
Proof.
  intros Hc a n. rewrite lookup_vapply. case_decide; [|by apply Hc].
  destruct (Z.ltb_spec (vget c a) (dot_counter x)); [|by apply Hc].
  intros [= <-]. pose proof (vget_nonneg c a Hc). lia.
Qed.

Lemma lookup_vmerge c d a :
  vmerge c d !! a =
    match d !! a with
    | Some n => if vget c a <? n then Some n else c !! a
    | None => c !! a
    end.
Proof.
  unfold vmerge.
  rewrite (foldl_ext_in _ (λ m (an : A * Z),
    partial_alter (λ o, if default 0 o <? an.2 then Some an.2 else o) an.1 m)).
  - by rewrite (foldl_btree_iter_lookup (λ _ n o, if default 0 o <? n then Some n else o)).
  - intros m [i n] _. unfold vapply; simpl. apply map_eq. intros j.
    destruct (decide (j = i)) as [->|Hne].
    + rewrite lookup_partial_alter_eq. fold (vget m i).
      case_match; [by rewrite lookup_insert_eq|done].
    + rewrite lookup_partial_alter_ne by done.
      case_match; [by rewrite lookup_insert_ne by done|done].
Qed.

Lemma vget_vmerge c d a :
  vclock_ok c → vclock_ok d → vget (vmerge c d) a = Z.max (vget c a) (vget d a).
Proof.
  intros Hc Hd. pose proof (vget_nonneg c a Hc).
  unfold vget at 1. rewrite lookup_vmerge. unfold vget at 3.
  destruct (d !! a) as [n|] eqn:E; simpl.
  - destruct (Z.ltb_spec (vget c a) n); simpl; [lia|]. fold (vget c a). lia.
  - fold (vget c a). lia.
Qed.

Lemma vmerge_ok c d : vclock_ok c → vclock_ok d → vclock_ok (vmerge c d).
Proof.
  intros Hc Hd a n. rewrite lookup_vmerge.
  destruct (d !! a) as [m|] eqn:E; [|by apply Hc].
  case_match; [|by apply Hc]. intros [= <-]. by apply Hd in E.
Qed.

Lemma lookup_vreset_remove c d a :
  vreset_remove c d !! a =
    match d !! a with
    | Some n => if vget c a <=? n then None else c !! a
    | None => c !! a
    end.
Proof.
  unfold vreset_remove.
  rewrite (foldl_ext_in _ (λ m (an : A * Z),
    partial_alter (λ o, if default 0 o <=? an.2 then None else o) an.1 m)).
  - by rewrite (foldl_btree_iter_lookup (λ _ n o, if default 0 o <=? n then None else o)).
  - intros m [i n] _; simpl. apply map_eq. intros j.
    destruct (decide (j = i)) as [->|Hne].
    + rewrite lookup_partial_alter_eq. fold (vget m i).
      case_match; [by rewrite lookup_delete_eq|done].
    + rewrite lookup_partial_alter_ne by done.
      case_match; [by rewrite lookup_delete_ne by done|done].
Qed.

Lemma vget_vreset_remove c d a :
  vclock_ok c → vget (vreset_remove c d) a = if vget c a <=? vget d a then 0 else vget c a.
Proof.
  intros Hc. unfold vget at 1. rewrite lookup_vreset_remove. unfold vget at 3.
  destruct (d !! a) as [n|] eqn:E; simpl.
  - by case_match.
  - fold (vget c a). destruct (Z.leb_spec (vget c a) 0); [|done].
    pose proof (vget_nonneg c a Hc). lia.
Qed.

Lemma vreset_remove_ok c d : vclock_ok c → vclock_ok (vreset_remove c d).
Proof.
  intros Hc a n. rewrite lookup_vreset_remove.
  destruct (d !! a); [case_match; [done|]|]; apply Hc.
Qed.

Lemma lookup_vintersection c d a :
  vintersection c d !! a =
    match c !! a with Some n => if vget d a =? n then Some n else None | None => None end.
Proof.
  unfold vintersection.
  rewrite (foldl_ext_in _ (λ m (an : A * Z),
    partial_alter (λ o, if vget d an.1 =? an.2 then Some an.2 else o) an.1 m)).
  - rewrite (foldl_btree_iter_lookup (λ i n o, if vget d i =? n then Some n else o)).
    by rewrite lookup_empty.
  - intros m [i n] _; simpl. apply map_eq. intros j.
    destruct (decide (j = i)) as [->|Hne].
    + rewrite lookup_partial_alter_eq. case_match; [by rewrite lookup_insert_eq|done].
    + rewrite lookup_partial_alter_ne by done.
      case_match; [by rewrite lookup_insert_ne by done|done].
Qed.

Lemma vget_vintersection c d a :
  vget (vintersection c d) a = if vget c a =? vget d a then vget c a else 0.
Proof.
  unfold vget at 1. rewrite lookup_vintersection. rewrite (Z.eqb_sym (vget c a)).
  unfold vget at 3 4. destruct (c !! a) as [n|] eqn:E; simpl; [by case_match|].
  by case_match.
Qed.

Lemma vintersection_ok c d : vclock_ok c → vclock_ok (vintersection c d).
Proof.
  intros Hc a n. rewrite lookup_vintersection.
  destruct (c !! a) as [m|] eqn:E; [|done]. case_match; [|done].
  intros [= <-]. by apply Hc in E.
Qed.

Lemma forallb_btree_iter (f : A * Z → bool) c :
  forallb f (btree_iter c) = true ↔ ∀ a n, c !! a = Some n → f (a, n) = true.
Proof.
  rewrite forallb_forall. split.
  - intros Hf a n Ha. apply Hf. apply list_elem_of_In. by apply elem_of_btree_iter.
  - intros Hf [a n] Ha. apply Hf. apply elem_of_btree_iter. by apply list_elem_of_In.
Qed.

(** [c >= d] is pointwise domination. *)
Lemma vge_iff c d : vclock_ok c → vclock_ok d → vge c d = true ↔ ∀ a, vget d a ≤ vget c a.
Proof.
  intros Hc Hd. unfold vge, vpartial_cmp. case_bool_decide as Hcd; [subst; naive_solver|].
  destruct (forallb _ (btree_iter d)) eqn:E1.
  - rewrite forallb_btree_iter in E1. split; [|done]. intros _ a.
    unfold vget at 1. destruct (d !! a) as [n|] eqn:E; simpl; [|by apply vget_nonneg].
    apply E1 in E; simpl in E. lia.
  - split; [by destruct (forallb (λ an, an.2 <=? vget d an.1) (btree_iter c)); intros [=]|]. intros Hle. exfalso.
    rewrite <-not_true_iff_false, forallb_btree_iter in E1. apply E1.
    intros a n E; simpl. specialize (Hle a). unfold vget at 1 in Hle.
    rewrite E in Hle; simpl in Hle. lia.
Qed.
End lemmas.

#[export] Hint Resolve vapply_ok vmerge_ok vreset_remove_ok vintersection_ok vget_nonneg : dess.
