(* ===== verification/CrdtMap.v ===== *)
(** * The causal map (vendor/crdts/src/map.rs)

    [Map<K, V, A>]: a map clock, an entry clock and a nested CRDT per key, and
    the deferred removals. The model is generic in the nested CRDT, as the code
    is; [LwwMap] instantiates it at [LwwCell].

    The specification is denotational: a replica that has delivered the set [D]
    of updates (closed under per-origin predecessors, no dot spent twice)
    *represents* [D] ([repr]). Applying an update adds it to [D], merging two
    replicas unions their sets, and [D] determines the whole internal state.

    [deferred] is a [HashMap]: its iteration order is unspecified in Rust and
    some fixed order here. Every state reached by updates and merges has an
    empty [deferred] ([repr]), so no theorem depends on that order. *)

From S2P Require Import Prelude Types Lww Vclock.

(** ** Data *)

Record Entry (V A : Type) `{Countable A} := mkEntry {
  entry_clock : VClock A;
  entry_val : V
}.
Arguments mkEntry {V A _ _} _ _.
Arguments entry_clock {V A _ _} _.
Arguments entry_val {V A _ _} _.

Record CMap (K V A : Type) `{Countable K, Countable A} := mkCMap {
  map_clock : VClock A;
  map_entries : gmap K (Entry V A);
  map_deferred : gmap (VClock A) (gset K)
}.
Arguments mkCMap {K V A _ _ _ _} _ _ _.
Arguments map_clock {K V A _ _ _ _} _.
Arguments map_entries {K V A _ _ _ _} _.
Arguments map_deferred {K V A _ _ _ _} _.

(** An update: the dot, the key and the op on the value under the key. *)
Record Up (K W A : Type) := mkUp { up_dot : Dot A; up_key : K; up_op : W }.
Arguments mkUp {K W A} _ _ _.
Arguments up_dot {K W A} _.
Arguments up_key {K W A} _.
Arguments up_op {K W A} _.

Inductive MapOp (K W A : Type) `{Countable K, Countable A} :=
| MapRm (clock : VClock A) (keyset : gset K)
| MapUp (up : Up K W A).
Arguments MapRm {K W A _ _ _ _} _ _.
Arguments MapUp {K W A _ _ _ _} _.

(** ** Operations *)

Section CMap.
Context {K V W A : Type} `{Countable K, Ord K, Countable A, Ord A}.
Context `{CmRDT V W, CvRDT V, ResetRemove V (VClock A), Default V}.
Implicit Types (m : CMap K V A) (es : gmap K (Entry V A)).

#[export] Instance CMap_default : Default (CMap K V A) := mkCMap ∅ ∅ ∅.
Definition entry_default : Entry V A := mkEntry ∅ default_value.

Definition set_entries m es : CMap K V A := mkCMap (map_clock m) es (map_deferred m).

(** [Map::apply_keyset_rm]. *)
Definition rm_entry (clock : VClock A) es (key : K) : gmap K (Entry V A) :=
  match es !! key with
  | Some entry =>
      let c := vreset_remove (entry_clock entry) clock in
      if vis_empty c then delete key es
      else <[key := mkEntry c (reset_remove (entry_val entry) clock)]> es
  | None => es
  end.
Definition apply_keyset_rm m (keyset : gset K) (clock : VClock A) : CMap K V A :=
  let es := foldl (rm_entry clock) (map_entries m) (btree_set_iter keyset) in
  let deferred :=
    match vpartial_cmp (map_clock m) clock with
    | None | Some Lt =>
        <[clock := default ∅ (map_deferred m !! clock) ∪ keyset]> (map_deferred m)
    | _ => map_deferred m
    end in
  mkCMap (map_clock m) es deferred.

(** [Map::apply_deferred]. *)
Definition apply_deferred m : CMap K V A :=
  foldl (λ m ck, apply_keyset_rm m ck.2 ck.1)
    (mkCMap (map_clock m) (map_entries m) ∅) (map_to_list (map_deferred m)).

(** [CmRDT::apply]. *)
Definition map_apply m (op : MapOp K W A) : CMap K V A :=
  match op with
  | MapRm clock keyset => apply_keyset_rm m keyset clock
  | MapUp u =>
      let dot := up_dot u in
      if dot_counter dot <=? vget (map_clock m) (dot_actor dot) then m
      else
        let entry := default entry_default (map_entries m !! up_key u) in
        let entry := mkEntry (vapply (entry_clock entry) dot)
                             (cm_apply (entry_val entry) (up_op u)) in
        apply_deferred
          (mkCMap (vapply (map_clock m) dot) (<[up_key u := entry]> (map_entries m))
             (map_deferred m))
  end.

(** [CvRDT::merge], first pass: what we keep of an entry. *)
Definition retain_entry (other : CMap K V A) (key : K) (entry : Entry V A)
    : option (Entry V A) :=
  match map_entries other !! key with
  | Some _ => Some entry
  | None =>
      if vge (map_clock other) (entry_clock entry) then None
      else
        let c := vreset_remove (entry_clock entry) (map_clock other) in
        let removed_information := vreset_remove (map_clock other) c in
        Some (mkEntry c (reset_remove (entry_val entry) removed_information))
  end.

(** [CvRDT::merge], second pass: folding one entry of the other map in. *)
Definition merge_entry (self_clock other_clock : VClock A) es (ke : K * Entry V A)
    : gmap K (Entry V A) :=
  let '(key, entry) := ke in
  match es !! key with
  | Some our_entry =>
      let common := vintersection (entry_clock entry) (entry_clock our_entry) in
      let common := vmerge common (vclone_without (entry_clock entry) self_clock) in
      let common := vmerge common (vclone_without (entry_clock our_entry) other_clock) in
      if vis_empty common then delete key es
      else
        let val := cv_merge (entry_val our_entry) (entry_val entry) in
        let deleted := vmerge (entry_clock entry) (entry_clock our_entry) in
        let deleted := vreset_remove deleted common in
        <[key := mkEntry common (reset_remove val deleted)]> es
  | None =>
      if vge self_clock (entry_clock entry) then es
      else
        let c := vreset_remove (entry_clock entry) self_clock in
        let deleted := vreset_remove self_clock c in
        <[key := mkEntry c (reset_remove (entry_val entry) deleted)]> es
  end.

Definition map_merge m (other : CMap K V A) : CMap K V A :=
  let es := map_imap (retain_entry other) (map_entries m) in
  let es := foldl (merge_entry (map_clock m) (map_clock other)) es
              (btree_iter (map_entries other)) in
  let m := set_entries m es in
  let m := foldl (λ m ck, apply_keyset_rm m ck.2 ck.1) m
             (map_to_list (map_deferred other)) in
  apply_deferred
    (mkCMap (vmerge (map_clock m) (map_clock other)) (map_entries m) (map_deferred m)).

#[export] Instance CMap_cmrdt : CmRDT (CMap K V A) (MapOp K W A) := map_apply.
#[export] Instance CMap_cvrdt : CvRDT (CMap K V A) := map_merge.

(** [Map::update]: the op is built from the current (or default) value. *)
Definition map_update m (key : K) (ctx : VClock A * Dot A)
    (f : V → VClock A * Dot A → W) : MapOp K W A :=
  MapUp (mkUp ctx.2 key
    (f (match map_entries m !! key with
        | Some e => entry_val e
        | None => default_value
        end) ctx)).

(** [Map::iter_entries]: keys and values in key order. *)
Definition iter_entries m : list (K * V) :=
  (λ ke : K * Entry V A, (ke.1, entry_val ke.2)) <$> btree_iter (map_entries m).
End CMap.

(** ** The specification *)

Section Repr.
Context {K V W A : Type} `{Countable K, Ord K, Countable A, Ord A}.
Context `{CmRDT V W, CvRDT V, ResetRemove V (VClock A), Default V}.
Implicit Types (D : list (Up K W A)) (u : Up K W A).

(** The last counter of [a] in [D], and the last one that touched [k]. *)
Definition max_counter D (a : A) : Z :=
  foldr (λ u n, if decide (dot_actor (up_dot u) = a)
                then Z.max (dot_counter (up_dot u)) n else n) 0 D.
Definition on_key (k : K) D : list (Up K W A) := filter (λ u, up_key u = k) D.

(** No dot is spent twice, and counters start at 1. *)
Definition dots_unique D : Prop := ∀ u v, u ∈ D → v ∈ D → up_dot u = up_dot v → u = v.
Definition dots_pos D : Prop := ∀ u, u ∈ D → 0 < dot_counter (up_dot u).

(** Per-origin FIFO delivery: with a dot, all its predecessors were delivered. *)
Definition fifo_closed D : Prop :=
  ∀ u n, u ∈ D → 0 < n ≤ dot_counter (up_dot u) →
    ∃ v, v ∈ D ∧ up_dot v = mkDot (dot_actor (up_dot u)) n.

(** [m] is the state of a replica that has delivered exactly [D]. *)
Definition entry_repr D (k : K) (oe : option (Entry V A)) : Prop :=
  match oe with
  | None => on_key k D = []
  | Some e =>
      on_key k D ≠ [] ∧ vclock_ok (entry_clock e) ∧
      (∀ a, vget (entry_clock e) a = max_counter (on_key k D) a) ∧
      entry_val e = denote (up_op <$> on_key k D)
  end.
Definition repr D (m : CMap K V A) : Prop :=
  map_deferred m = ∅ ∧ vclock_ok (map_clock m) ∧
  (∀ a, vget (map_clock m) a = max_counter D a) ∧
  (∀ k, entry_repr D k (map_entries m !! k)).
End Repr.

(** ** Counters of a delivered set *)

Section counters.
Context {K W A : Type} `{Countable K, Countable A}.
Implicit Types (D E : list (Up K W A)) (u v : Up K W A).

Lemma max_counter_nonneg D a : 0 ≤ max_counter D a.
Proof. induction D as [|u D IH]; simpl; [lia|]. case_decide; lia. Qed.

Lemma max_counter_ub D u a :
  u ∈ D → dot_actor (up_dot u) = a → dot_counter (up_dot u) ≤ max_counter D a.
Proof.
  induction D as [|v D IH]; simpl; intros Hu Ha; [by apply elem_of_nil in Hu|].
  apply elem_of_cons in Hu as [->|Hu].
  - rewrite decide_True by done. lia.
  - specialize (IH Hu Ha). case_decide; lia.
Qed.

Lemma max_counter_witness D a :
  0 < max_counter D a →
  ∃ u, u ∈ D ∧ dot_actor (up_dot u) = a ∧ dot_counter (up_dot u) = max_counter D a.
Proof.
  induction D as [|v D IH]; simpl; [lia|]. case_decide as Ha.
  - intros Hlt. destruct (Z.le_gt_cases (max_counter D a) (dot_counter (up_dot v))).
    + exists v. split; [left|]. split; [done|lia].
    + destruct IH as (u & ? & ? & ?); [lia|]. exists u. split; [by right|]. split; [done|lia].
  - intros (u & ? & ? & ?)%IH. exists u. split; [by right|done].
Qed.

Lemma max_counter_mono D E a : (∀ u, u ∈ D → u ∈ E) → max_counter D a ≤ max_counter E a.
Proof.
  intros HDE. destruct (Z.le_gt_cases (max_counter D a) 0) as [|Hpos].
  - pose proof (max_counter_nonneg E a). lia.
  - apply max_counter_witness in Hpos as (u & Hu & Ha & <-).
    apply max_counter_ub; auto.
Qed.

Lemma max_counter_set_eq D E a :
  (∀ u, u ∈ D ↔ u ∈ E) → max_counter D a = max_counter E a.
Proof. intros HDE. apply Z.le_antisymm; apply max_counter_mono; naive_solver. Qed.

Lemma max_counter_app D E a :
  max_counter (D ++ E) a = Z.max (max_counter D a) (max_counter E a).
Proof.
  induction D as [|u D IH]; simpl; [|case_decide; lia].
  pose proof (max_counter_nonneg E a). lia.
Qed.

Lemma elem_of_on_key k u D : u ∈ on_key k D ↔ up_key u = k ∧ u ∈ D.
Proof. unfold on_key. by rewrite list_elem_of_filter. Qed.

Lemma on_key_app k D E : on_key k (D ++ E) = on_key k D ++ on_key k E.
Proof. unfold on_key. by rewrite filter_app. Qed.

Lemma on_key_nil k D : on_key k D = [] ↔ ∀ u, u ∈ D → up_key u ≠ k.
Proof.
  split.
  - intros Hk u Hu Hku. assert (u ∈ on_key k D) as Hin by (by apply elem_of_on_key).
    rewrite Hk in Hin. by apply elem_of_nil in Hin.
  - intros Hk. apply elem_of_nil_inv. intros u [Hku Hu]%elem_of_on_key. by apply (Hk u).
Qed.

(** With per-origin FIFO delivery, a dot at or below the clock was delivered. *)
Lemma fifo_delivered D a n :
  fifo_closed D → 0 < n ≤ max_counter D a → ∃ v, v ∈ D ∧ up_dot v = mkDot a n.
Proof.
  intros Hf [Hpos Hle]. destruct (max_counter_witness D a) as (u & Hu & Ha & Hc); [lia|].
  destruct (Hf u n Hu) as (v & Hv & Hd); [lia|]. exists v. by rewrite <-Ha.
Qed.

(** What one replica delivered on a key and the other has not seen is beyond
    the other's clock: the fact that makes the merge exact. *)
Lemma unseen_beyond_clock D E k a :
  dots_unique (D ++ E) → dots_pos (D ++ E) → fifo_closed E →
  max_counter (on_key k E) a < max_counter (on_key k D) a →
  max_counter E a < max_counter (on_key k D) a.
Proof.
  intros Huniq Hpos Hf Hlt.
  destruct (Z.lt_ge_cases (max_counter E a) (max_counter (on_key k D) a)) as [|Hge]; [done|].
  exfalso. destruct (max_counter_witness (on_key k D) a) as (u & Hu & Ha & Hc).
  { pose proof (max_counter_nonneg (on_key k E) a). lia. }
  apply elem_of_on_key in Hu as [Hk Hu].
  destruct (fifo_delivered E a (dot_counter (up_dot u))) as (v & Hv & Hd); [done| |].
  { split; [apply Hpos; set_solver|lia]. }
  assert (u = v) as <-.
  { apply Huniq; [set_solver..|]. rewrite Hd, <-Ha. by destruct (up_dot u). }
  assert (dot_counter (up_dot u) ≤ max_counter (on_key k E) a).
  { apply max_counter_ub; [by apply elem_of_on_key|done]. }
  lia.
Qed.
End counters.

(** ** The refinement *)

Section refinement.
Context {K V W A : Type}.
Context `{Countable K, OK : !Ord K, !LawfulOrd K, Countable A, OA : !Ord A, !LawfulOrd A}.
Context `{CmRDT V W, CvRDT V, ResetRemove V (VClock A), Default V, !JoinVal V W (VClock A)}.
Implicit Types (m : CMap K V A) (D E : list (Up K W A)) (u : Up K W A).

Lemma apply_deferred_empty m : map_deferred m = ∅ → apply_deferred m = m.
Proof.
  intros Hd. unfold apply_deferred. rewrite Hd, map_to_list_empty; simpl.
  destruct m; simpl in *. by subst.
Qed.

Lemma repr_empty : repr (V:=V) ([] : list (Up K W A)) default_value.
Proof.
  split; [done|]. split; [done|]. split; [done|]. intros k. simpl.
  by rewrite lookup_empty.
Qed.

Lemma entry_repr_set_eq D E k (oe : option (Entry V A)) :
  (∀ u, u ∈ D ↔ u ∈ E) → entry_repr D k oe → entry_repr E k oe.
Proof.
  intros HDE. assert (∀ u, u ∈ on_key k D ↔ u ∈ on_key k E) as Hk.
  { intros u. by rewrite !elem_of_on_key, HDE. }
  destruct oe as [e|]; simpl.
  - intros (Hne & Hok & Hc & Hv). split; [|split; [done|split]].
    + intros HE. apply Hne. apply elem_of_nil_inv. intros u. rewrite Hk, HE.
      apply not_elem_of_nil.
    + intros a. rewrite Hc. by apply max_counter_set_eq.
    + rewrite Hv. apply (denote_set_eq (C:=VClock A)). intros x.
      rewrite !list_elem_of_fmap. by setoid_rewrite Hk.
  - rewrite !on_key_nil. intros Hn u Hu. apply Hn. by apply HDE.
Qed.

Lemma repr_set_eq D E m : (∀ u, u ∈ D ↔ u ∈ E) → repr D m → repr E m.
Proof.
  intros HDE (Hd & Hok & Hc & He). split; [done|]. split; [done|]. split.
  - intros a. rewrite Hc. by apply max_counter_set_eq.
  - intros k. by apply (entry_repr_set_eq D).
Qed.

(** The delivered set determines the internal state, clocks included. *)
Lemma repr_fun D E m1 m2 :
  (∀ u, u ∈ D ↔ u ∈ E) → repr D m1 → repr E m2 → m1 = m2.
Proof.
  intros HDE Hr1 (Hd2 & Hok2 & Hc2 & He2).
  apply (repr_set_eq D E) in Hr1 as (Hd1 & Hok1 & Hc1 & He1); [|done].
  destruct m1 as [c1 es1 d1], m2 as [c2 es2 d2]; simpl in *. f_equal; [| |congruence].
  - apply vclock_ext; [done..|]. intros a. by rewrite Hc1, Hc2.
  - apply map_eq. intros k. specialize (He1 k). specialize (He2 k).
    destruct (es1 !! k) as [[ec1 v1]|], (es2 !! k) as [[ec2 v2]|]; simpl in *;
      [|naive_solver..|done].
    destruct He1 as (_ & Ho1 & Hk1 & ->), He2 as (_ & Ho2 & Hk2 & ->).
    do 2 f_equal. apply vclock_ext; [done..|]. intros a. by rewrite Hk1, Hk2.
Qed.

Lemma entry_repr_apply D k u (oe : option (Entry V A)) :
  entry_repr D k oe → up_key u = k →
  let e := default entry_default oe in
  entry_repr (u :: D) k
    (Some (mkEntry (vapply (entry_clock e) (up_dot u)) (cm_apply (entry_val e) (up_op u)))).
Proof.
  intros He Hk. simpl. unfold on_key. rewrite filter_cons_True by done.
  fold (on_key k D).
  assert (vclock_ok (entry_clock (default entry_default oe)) ∧
    (∀ a, vget (entry_clock (default entry_default oe)) a = max_counter (on_key k D) a) ∧
    entry_val (default entry_default oe) = denote (up_op <$> on_key k D)) as (Hok & Hc & Hv).
  { destruct oe as [e|]; simpl in *; [naive_solver|]. rewrite He. done. }
  split; [done|]. split; [by apply vapply_ok|]. split.
  - intros a. rewrite vget_vapply, Hc; simpl.
    destruct (decide (a = dot_actor (up_dot u))), (decide (dot_actor (up_dot u) = a));
      try congruence; lia.
  - rewrite Hv. by rewrite (denote_snoc (C:=VClock A)).
Qed.

(** Delivering an update of a FIFO-closed history adds it to the set; a copy
    that was already delivered changes nothing. *)
Lemma repr_apply D m u :
  dots_unique (u :: D) → dots_pos (u :: D) → fifo_closed D →
  repr D m → repr (u :: D) (map_apply m (MapUp u)).
Proof.
  intros Huniq Hpos Hf Hr. pose proof Hr as (Hd & Hok & Hc & He). simpl.
  destruct (Z.leb_spec (dot_counter (up_dot u)) (vget (map_clock m) (dot_actor (up_dot u))))
    as [Hle|Hlt].
  - rewrite Hc in Hle. destruct (fifo_delivered D (dot_actor (up_dot u))
      (dot_counter (up_dot u)) Hf) as (v & Hv & Hdot).
    { split; [apply Hpos; left|done]. }
    assert (u = v) as <-.
    { apply Huniq; [left|by right|]. rewrite Hdot. by destruct (up_dot u). }
    apply (repr_set_eq D); [|done]. set_solver.
  - rewrite apply_deferred_empty by done. split; [done|]. split; [by apply vapply_ok|].
    split; simpl.
    + intros a. rewrite vget_vapply, Hc.
      destruct (decide (a = dot_actor (up_dot u))), (decide (dot_actor (up_dot u) = a));
        try congruence; lia.
    + intros k. destruct (decide (up_key u = k)) as [<-|Hne].
      * rewrite lookup_insert_eq. by apply entry_repr_apply.
      * rewrite lookup_insert_ne by done. specialize (He k).
        assert (on_key k (u :: D) = on_key k D) as Hkey.
        { unfold on_key. by rewrite filter_cons_False. }
        destruct (map_entries m !! k); simpl in *; by rewrite Hkey.
Qed.

(** The second pass of the merge only touches the entry at its key. *)
Definition merge_entry_at (self_clock other_clock : VClock A) (entry : Entry V A)
    (ours : option (Entry V A)) : option (Entry V A) :=
  match ours with
  | Some our_entry =>
      let common := vintersection (entry_clock entry) (entry_clock our_entry) in
      let common := vmerge common (vclone_without (entry_clock entry) self_clock) in
      let common := vmerge common (vclone_without (entry_clock our_entry) other_clock) in
      if vis_empty common then None
      else Some (mkEntry common (cv_merge (entry_val our_entry) (entry_val entry)))
  | None =>
      if vge self_clock (entry_clock entry) then None
      else Some (mkEntry (vreset_remove (entry_clock entry) self_clock) (entry_val entry))
  end.

Lemma merge_entry_alter c1 c2 (es : gmap K (Entry V A)) (k : K) (e : Entry V A) :
  merge_entry c1 c2 es (k, e) = partial_alter (merge_entry_at c1 c2 e) k es.
Proof.
  apply map_eq. intros j. unfold merge_entry, merge_entry_at.
  destruct (decide (j = k)) as [->|Hne].
  - rewrite lookup_partial_alter_eq. destruct (es !! k) as [o|] eqn:E; case_match;
      rewrite ?(jv_reset (C:=VClock A)); first [by rewrite lookup_delete_eq | by rewrite lookup_insert_eq | done].
  - rewrite lookup_partial_alter_ne by done. destruct (es !! k) as [o|] eqn:E; case_match;
      rewrite ?(jv_reset (C:=VClock A)); first [by rewrite lookup_delete_ne | by rewrite lookup_insert_ne | done].
Qed.

(** The entry of the merged map. *)
Definition merged_entry (m other : CMap K V A) (k : K) : option (Entry V A) :=
  let ours := map_entries m !! k ≫= retain_entry other k in
  match map_entries other !! k with
  | Some e => merge_entry_at (map_clock m) (map_clock other) e ours
  | None => ours
  end.

Lemma map_merge_no_deferred m other :
  map_deferred m = ∅ → map_deferred other = ∅ →
  map_clock (map_merge m other) = vmerge (map_clock m) (map_clock other) ∧
  map_deferred (map_merge m other) = ∅ ∧
  ∀ k, map_entries (map_merge m other) !! k = merged_entry m other k.
Proof.
  intros Hm Ho. unfold map_merge. rewrite Ho, map_to_list_empty; simpl.
  rewrite apply_deferred_empty by done. split; [done|]. split; [done|]. intros k; simpl.
  rewrite (foldl_ext_in _ (λ es ke,
    partial_alter (merge_entry_at (map_clock m) (map_clock other) ke.2) ke.1 es)).
  - rewrite (foldl_btree_iter_lookup
      (λ _ e, merge_entry_at (map_clock m) (map_clock other) e)).
    by rewrite map_lookup_imap.
  - intros es [i e] _. apply merge_entry_alter.
Qed.

(** An entry the other replica does not hold is beyond its clock: it is kept
    whole, on either side of the merge. *)
Lemma entry_kept D E k (e : Entry V A) (c : VClock A) :
  dots_unique (D ++ E) → dots_pos (D ++ E) → fifo_closed E →
  entry_repr D k (Some e) → on_key k E = [] →
  vclock_ok c → (∀ a, vget c a = max_counter E a) →
  vge c (entry_clock e) = false ∧ vreset_remove (entry_clock e) c = entry_clock e.
Proof.
  intros Huniq Hpos Hf (Hne & Hok & Hc & _) HE Hokc HcE.
  assert (∀ a, vget (entry_clock e) a = 0 ∨ vget c a < vget (entry_clock e) a) as Hbeyond.
  { intros a. rewrite Hc, HcE. pose proof (max_counter_nonneg (on_key k D) a).
    destruct (Z.eq_dec (max_counter (on_key k D) a) 0) as [|Hnz]; [by left|right].
    apply unseen_beyond_clock; [done..|]. rewrite HE; simpl. lia. }
  split.
  - apply not_true_iff_false. rewrite vge_iff by done. intros Hge.
    apply Hne, elem_of_nil_inv. intros u Hu. pose proof (elem_of_on_key k u D) as Hk.
    pose proof (max_counter_ub _ u _ Hu eq_refl). rewrite <-Hc in *.
    assert (0 < dot_counter (up_dot u)) by (apply Hpos; set_solver).
    specialize (Hbeyond (dot_actor (up_dot u))). specialize (Hge (dot_actor (up_dot u))). lia.
  - apply vclock_ext; auto with dess. intros a. rewrite vget_vreset_remove by done.
    specialize (Hbeyond a). destruct (Z.leb_spec (vget (entry_clock e) a) (vget c a)); lia.
Qed.

(** An entry both replicas hold gets the pointwise maximum of the two clocks. *)
Lemma common_clock D E k (e1 e2 : Entry V A) (c1 c2 : VClock A) :
  dots_unique (D ++ E) → dots_pos (D ++ E) → fifo_closed D → fifo_closed E →
  entry_repr D k (Some e1) → entry_repr E k (Some e2) →
  (∀ a, vget c1 a = max_counter D a) → (∀ a, vget c2 a = max_counter E a) →
  let common := vmerge (vmerge (vintersection (entry_clock e2) (entry_clock e1))
                  (vclone_without (entry_clock e2) c1))
                  (vclone_without (entry_clock e1) c2) in
  vclock_ok common ∧
  ∀ a, vget common a = Z.max (vget (entry_clock e1) a) (vget (entry_clock e2) a).
Proof.
  intros Huniq Hpos HfD HfE (_ & Hok1 & Hk1 & _) (_ & Hok2 & Hk2 & _) Hc1 Hc2. simpl.
  unfold vclone_without. split; [auto 10 with dess|]. intros a.
  rewrite !vget_vmerge by auto 10 with dess. rewrite vget_vintersection.
  rewrite !vget_vreset_remove by done. rewrite Hk1, Hk2, Hc1, Hc2.
  pose proof (max_counter_nonneg (on_key k D) a).
  pose proof (max_counter_nonneg (on_key k E) a).
  assert (max_counter (on_key k D) a < max_counter (on_key k E) a →
          max_counter D a < max_counter (on_key k E) a).
  { apply unseen_beyond_clock; [|intros u Hu; apply Hpos; set_solver|done].
    intros u v Hu Hv. apply Huniq; set_solver. }
  assert (max_counter (on_key k E) a < max_counter (on_key k D) a →
          max_counter E a < max_counter (on_key k D) a) by (by apply unseen_beyond_clock).
  destruct (Z.eqb_spec (max_counter (on_key k E) a) (max_counter (on_key k D) a)),
    (Z.leb_spec (max_counter (on_key k E) a) (max_counter D a)),
    (Z.leb_spec (max_counter (on_key k D) a) (max_counter E a)); lia.
Qed.

Lemma entry_repr_nonempty D k (e : Entry V A) :
  dots_pos D → entry_repr D k (Some e) → ∃ a, 0 < vget (entry_clock e) a.
Proof.
  intros Hpos (Hne & _ & Hc & _). destruct (on_key k D) as [|u l] eqn:Ek; [done|].
  assert (u ∈ on_key k D) as Hu by (rewrite Ek; left).
  exists (dot_actor (up_dot u)). rewrite Hc, <-Ek.
  pose proof (max_counter_ub _ u _ Hu eq_refl). apply elem_of_on_key in Hu as [_ Hu].
  specialize (Hpos u Hu). lia.
Qed.

Lemma entry_repr_merge D E m1 m2 k :
  dots_unique (D ++ E) → dots_pos (D ++ E) → fifo_closed D → fifo_closed E →
  repr D m1 → repr E m2 → entry_repr (D ++ E) k (merged_entry m1 m2 k).
Proof.
  intros Huniq Hpos HfD HfE (_ & Hok1 & Hc1 & He1) (_ & Hok2 & Hc2 & He2).
  assert (dots_unique (E ++ D)) as Huniq' by (intros u v Hu Hv; apply Huniq; set_solver).
  assert (dots_pos (E ++ D)) as Hpos' by (intros u Hu; apply Hpos; set_solver).
  specialize (He1 k). specialize (He2 k). unfold merged_entry, retain_entry.
  destruct (map_entries m1 !! k) as [e1|] eqn:E1, (map_entries m2 !! k) as [e2|] eqn:E2;
    simpl in He1, He2 |- *; rewrite ?E1, ?E2; simpl.
  - destruct (common_clock D E k e1 e2 (map_clock m1) (map_clock m2)) as [Hok Hcommon]; auto.
    unfold vis_empty. rewrite bool_decide_eq_false_2.
    + simpl. rewrite on_key_app. destruct He1 as (? & ? & Hk1 & ->), He2 as (? & ? & Hk2 & ->).
      split; [by destruct (on_key k D)|]. split; [done|]. split.
      * intros a. by rewrite Hcommon, Hk1, Hk2, max_counter_app.
      * by rewrite (denote_app (C:=VClock A)), fmap_app.
    + intros Hemp. destruct (entry_repr_nonempty D k e1) as [a Ha]; [|done|].
      { intros u Hu. apply Hpos. set_solver. }
      specialize (Hcommon a). rewrite Hemp, vget_empty in Hcommon. lia.
  - destruct (entry_kept D E k e1 (map_clock m2)) as [-> ->]; auto.
    rewrite (jv_reset (C:=VClock A)). simpl. rewrite on_key_app, He2, app_nil_r. done.
  - destruct (entry_kept E D k e2 (map_clock m1)) as [-> ->]; auto.
    simpl. rewrite on_key_app, He1. done.
  - by rewrite on_key_app, He1, He2.
Qed.

(** Merging two replicas delivers the union of what they had delivered. *)
Lemma repr_merge D E m1 m2 :
  dots_unique (D ++ E) → dots_pos (D ++ E) → fifo_closed D → fifo_closed E →
  repr D m1 → repr E m2 → repr (D ++ E) (map_merge m1 m2).
Proof.
  intros Huniq Hpos HfD HfE Hr1 Hr2.
  pose proof Hr1 as (Hd1 & Hok1 & Hc1 & _). pose proof Hr2 as (Hd2 & Hok2 & Hc2 & _).
  destruct (map_merge_no_deferred m1 m2) as (Hc & Hd & He); [done..|].
  split; [done|]. rewrite Hc. split; [by apply vmerge_ok|]. split.
  - intros a. by rewrite vget_vmerge, Hc1, Hc2, max_counter_app.
  - intros k. rewrite He. by apply entry_repr_merge.
Qed.
End refinement.
