(* ===== verification/Identifier.v ===== *)
(** * Dense identifiers and the grow-only collections
      (vendor/crdts/src/identifier.rs, glist.rs, gset.rs)

    [Identifier::between] finds a position strictly between two others; the
    grow-only list is the ordered set of such positions, its elements being the
    markers at the end of each path. A [BigRational] is kept in lowest terms,
    so it is a [Qc]. [Identifier::value] unwraps the last node of the path: the
    model returns [None] where the code would panic. *)

From Stdlib Require Import Qcanon QArith_base Field.
From S2P Require Import Prelude Types Lww.

(** ** Identifiers *)

Definition Qc_two : Qc := Q2Qc 2.

Definition rational_between (low high : option Qc) : Qc :=
  match low, high with
  | None, None => 0%Qc
  | Some low, None => (low + 1)%Qc
  | None, Some high => (high - 1)%Qc
  | Some low, Some high => ((low + high) / Qc_two)%Qc
  end.

Section Identifier.
Context {T : Type} `{EqDecision T, Ord T}.
Implicit Types (p q : list (Qc * T)) (low high : Identifier T).

(** The loop of [Identifier::between]: walk both paths to the fork. *)
Fixpoint between_loop (low_path high_path : list (Qc * T)) (marker : T)
    {struct high_path} : list (Qc * T) :=
  match low_path, high_path with
  | (l_ratio, l_m) :: low_rest, (h_ratio, h_m) :: high_rest =>
      if bool_decide (l_ratio = h_ratio) then
        if (l_m ≺ marker) && (marker ≺ h_m) then [(h_ratio, marker)]
        else if bool_decide (l_m = h_m) then
          (h_ratio, h_m) :: between_loop low_rest high_rest marker
        else (h_ratio, h_m) :: between_loop [] high_rest marker
      else [(rational_between (Some l_ratio) (Some h_ratio), marker)]
  | low_path, high_path =>
      [(rational_between (fst <$> head low_path) (fst <$> head high_path), marker)]
  end.

(** [Identifier::between]. In the [Greater] case the code calls itself with the
    bounds exchanged, which takes the [Less] branch. *)
Definition between (low high : option (Identifier T)) (marker : T) : Identifier T :=
  match low, high with
  | Some low, Some high =>
      match cmp low high with
      | Gt => mkIdentifier (between_loop (id_path high) (id_path low) marker)
      | Eq => high
      | Lt => mkIdentifier (between_loop (id_path low) (id_path high) marker)
      end
  | low, high =>
      mkIdentifier
        [(rational_between (low ≫= λ i, fst <$> head (id_path i))
                           (high ≫= λ i, fst <$> head (id_path i)), marker)]
  end.

(** [Identifier::value]. *)
Definition id_value (i : Identifier T) : option T := snd <$> last (id_path i).
End Identifier.

(** ** Grow-only set: [GSet<T>] is a [BTreeSet<T>] *)

Definition gset_insert `{Countable T} (s : gset T) (x : T) : gset T := {[x]} ∪ s.
Definition gset_contains `{Countable T} (s : gset T) (x : T) : bool := bool_decide (x ∈ s).
Definition gset_merge `{Countable T, Ord T} (s other : gset T) : gset T :=
  foldl gset_insert s (btree_set_iter other).

(** ** Grow-only list *)

Record GList (T : Type) `{Countable T} := mkGList { glist_ids : gset (Identifier T) }.
Arguments mkGList {T _ _} _.
Arguments glist_ids {T _ _} _.

(** [glist::Op::Insert { id }]. *)
Inductive GListOp (T : Type) := GListInsert (id : Identifier T).
Arguments GListInsert {T} _.

Section GList.
Context {T : Type} `{Countable T, Ord T}.
Implicit Types (l : GList T).

#[export] Instance GList_default : Default (GList T) := mkGList ∅.

Definition glist_iter l : list (Identifier T) := btree_set_iter (glist_ids l).
Definition glist_len l : nat := size (glist_ids l).
Definition glist_last l : option (Identifier T) := last (glist_iter l).

(** [GList::read]: the markers in order; [None] if some identifier is empty. *)
Definition glist_read l : option (list T) := mapM id_value (glist_iter l).

(** [GList::insert_after]: between the given identifier and its successor. *)
Definition glist_insert_after l (low : option (Identifier T)) (elem : T) : GListOp T :=
  let high := low ≫= λ low, List.find (λ i, low ≺ i) (glist_iter l) in
  GListInsert (between low high elem).

(** [CmRDT::apply] and [CvRDT::merge] ([BTreeSet::extend]). *)
Definition glist_apply l (op : GListOp T) : GList T :=
  match op with GListInsert id => mkGList (gset_insert (glist_ids l) id) end.
Definition glist_merge l (other : GList T) : GList T :=
  mkGList (gset_merge (glist_ids l) (glist_ids other)).
End GList.

(** Every identifier of the list has at least one node, as every one built by
    [between] has: the invariant under which [value] cannot panic. *)
Definition id_ok {T} (i : Identifier T) : Prop := id_path i ≠ [].
Definition glist_ok `{Countable T} (l : GList T) : Prop :=
  ∀ i, i ∈ glist_ids l → id_ok i.

(** ** Rationals *)

Lemma Qc_lt_succ (x : Qc) : (x < x + 1)%Qc.
Proof.
  rewrite <-(Qcplus_0_r x) at 1. apply Qcplus_lt_mono_l. done.
Qed.

Lemma Qc_pred_lt (x : Qc) : (x - 1 < x)%Qc.
Proof.
  unfold Qcminus. rewrite <-(Qcplus_0_r x) at 2. by apply Qcplus_lt_mono_l.
Qed.

Lemma Qc_mid (x y : Qc) : (x < y)%Qc → (x < (x + y) / Qc_two)%Qc ∧ ((x + y) / Qc_two < y)%Qc.
Proof.
  intros Hxy. assert (Qc_two ≠ 0)%Qc as Htwo by done.
  assert (0 < / Qc_two)%Qc as Hinv by done.
  assert (∀ z : Qc, z = ((z + z) / Qc_two))%Qc as Hdouble.
  { intros z. rewrite <-(Qcdiv_mult_l z Qc_two) at 1 by done. f_equal.
    replace Qc_two with (1 + 1)%Qc by (by apply Qc_is_canon). ring. }
  split.
  - rewrite (Hdouble x) at 1. unfold Qcdiv. apply Qcmult_lt_compat_r; [done|].
    by apply Qcplus_lt_mono_l.
  - rewrite (Hdouble y) at 2. unfold Qcdiv. apply Qcmult_lt_compat_r; [done|].
    by apply Qcplus_lt_mono_r.
Qed.

(** ** Density *)

Section density.
Context {T : Type} `{EqDecision T, OT : !Ord T, !LawfulOrd T}.
Implicit Types (p q : list (Qc * T)).

Lemma cmp_ratio_lt (r s : Qc) (a b : T) : (r < s)%Qc → cmp (r, a) (s, b) = Lt.
Proof.
  intros Hrs. unfold cmp, prod_ord, cmp, Qc_ord; simpl.
  by rewrite (proj1 (Qclt_alt r s) Hrs).
Qed.

Lemma cmp_same_ratio (r : Qc) (a b : T) : cmp (r, a) (r, b) = cmp a b.
Proof. unfold cmp at 1, prod_ord; simpl. by rewrite cmp_refl. Qed.

Lemma cmp_node_lt (r s : Qc) (a b : T) :
  cmp (r, a) (s, b) = Lt → r ≠ s → (r < s)%Qc.
Proof.
  unfold cmp at 1, prod_ord; simpl. rewrite then_with_lt. intros [Hlt|[Heq _]] Hne.
  - by apply Qclt_alt.
  - by apply cmp_eq_iff in Heq.
Qed.

Lemma path_cmp_cons_lt (x y : Qc * T) p q :
  cmp x y = Lt → path_cmp (x :: p) (y :: q) = Lt.
Proof. simpl. by intros ->. Qed.

(** Once the lower path has been left, any node below the rest of the higher
    one will do. *)
Lemma between_loop_below q m : path_cmp (between_loop [] q m) q = Lt.
Proof.
  destruct q as [|[h hm] q]; simpl; [done|].
  by rewrite (cmp_ratio_lt _ _ _ _ (Qc_pred_lt h)).
Qed.

Lemma between_loop_spec p q m :
  path_cmp p q = Lt →
  path_cmp p (between_loop p q m) = Lt ∧ path_cmp (between_loop p q m) q = Lt.
Proof.
  revert p. induction q as [|[h hm] q IH]; intros [|[l lm] p]; try done.
  - intros _. simpl. by rewrite (cmp_ratio_lt _ _ _ _ (Qc_lt_succ l)).
  - intros Hlt. cbn [between_loop]. case_bool_decide as Hr; [subst l|].
    + simpl in Hlt. rewrite cmp_same_ratio in Hlt.
      destruct ((lm ≺ m) && (m ≺ hm)) eqn:Em.
      { apply andb_true_iff in Em as [H1%ord_ltb_lt H2%ord_ltb_lt]. simpl.
        by rewrite !cmp_same_ratio, H1, H2. }
      case_bool_decide as Hm; [subst lm|]; simpl; rewrite !cmp_same_ratio.
      * rewrite cmp_refl in Hlt |- *. by apply IH.
      * rewrite cmp_refl, between_loop_below. destruct (cmp lm hm) eqn:E; [|done..].
        by apply cmp_eq_iff in E.
    + assert (l < h)%Qc as Hlh.
      { apply (cmp_node_lt l h lm hm); [|done]. simpl in Hlt.
        destruct (cmp (l, lm) (h, hm)) eqn:E; [|done..]. apply cmp_eq_iff in E. congruence. }
      destruct (Qc_mid l h Hlh) as [H1 H2]. simpl.
      by rewrite (cmp_ratio_lt _ _ _ _ H1), (cmp_ratio_lt _ _ _ _ H2).
Qed.

Lemma between_loop_nonempty p q m : between_loop p q m ≠ [].
Proof.
  destruct q as [|[h hm] q], p as [|[l lm] p]; simpl; repeat case_match; done.
Qed.

Lemma between_lt (low high : Identifier T) m :
  cmp low high = Lt →
  cmp low (between (Some low) (Some high) m) = Lt ∧
  cmp (between (Some low) (Some high) m) high = Lt.
Proof.
  intros Hlt. unfold between. rewrite Hlt. by apply (between_loop_spec _ _ m).
Qed.

Lemma between_above (low : Identifier T) m :
  id_ok low → cmp low (between (Some low) None m) = Lt.
Proof.
  destruct low as [[|[r t] p]]; [done|]. intros _. unfold cmp, Identifier_ord; simpl.
  by rewrite (cmp_ratio_lt _ _ _ _ (Qc_lt_succ r)).
Qed.

Lemma between_below (high : Identifier T) m :
  id_ok high → cmp (between None (Some high) m) high = Lt.
Proof.
  destruct high as [[|[r t] p]]; [done|]. intros _. unfold cmp, Identifier_ord; simpl.
  by rewrite (cmp_ratio_lt _ _ _ _ (Qc_pred_lt r)).
Qed.

Lemma between_ok (low high : option (Identifier T)) m :
  (∀ i, high = Some i → id_ok i) → id_ok (between low high m).
Proof.
  intros Hh. unfold id_ok, between. destruct low as [low|], high as [high|]; try done.
  destruct (cmp low high); try apply between_loop_nonempty. by apply Hh.
Qed.
End density.

(** ** The grow-only collections *)

Section grow_only.
Context {T : Type} `{Countable T, OT : !Ord T, !LawfulOrd T}.

Lemma foldl_gset_insert (s : gset T) (l : list T) :
  foldl gset_insert s l = s ∪ list_to_set l.
Proof.
  revert s. induction l as [|x l IH]; intros s; simpl; [set_solver|].
  rewrite IH. unfold gset_insert. set_solver.
Qed.

Lemma gset_merge_union (s t : gset T) : gset_merge s t = s ∪ t.
Proof.
  unfold gset_merge. rewrite foldl_gset_insert. f_equal. apply set_eq. intros x.
  by rewrite elem_of_list_to_set, elem_of_btree_set_iter.
Qed.
End grow_only.

Section glist.
Context {T : Type} `{Countable T, OT : !Ord T, !LawfulOrd T}.
Implicit Types (l : GList T) (i : Identifier T).

Lemma elem_of_glist_iter l i : i ∈ glist_iter l ↔ i ∈ glist_ids l.
Proof. apply elem_of_btree_set_iter. Qed.

Lemma glist_apply_ok l i : glist_ok l → id_ok i → glist_ok (glist_apply l (GListInsert i)).
Proof. intros Hl Hi j. simpl. unfold gset_insert. set_solver. Qed.

Lemma glist_merge_ok l l' : glist_ok l → glist_ok l' → glist_ok (glist_merge l l').
Proof. intros Hl Hl' j. simpl. rewrite gset_merge_union. set_solver. Qed.

(** The last identifier is the greatest. *)
Lemma glist_last_max l i j :
  glist_last l = Some i → j ∈ glist_ids l → ord_le j i.
Proof.
  unfold glist_last. intros Hlast Hj. apply elem_of_glist_iter in Hj.
  destruct (last_Some (glist_iter l) i) as [[k Hk] _]; [done|].
  pose proof (btree_set_iter_sorted (glist_ids l)) as Hs. unfold glist_iter in *.
  rewrite Hk in Hj, Hs. apply elem_of_app in Hj as [Hj|Hj].
  - eapply StronglySorted_app_1_elem_of; [done|done|by left].
  - apply list_elem_of_singleton in Hj as ->. done.
Qed.

Lemma glist_last_elem l i : glist_last l = Some i → i ∈ glist_ids l.
Proof.
  intros Hlast. apply elem_of_glist_iter. unfold glist_last in Hlast.
  apply last_Some in Hlast as [k ->]. set_solver.
Qed.

Lemma find_above_last l i :
  glist_last l = Some i → List.find (λ j, i ≺ j) (glist_iter l) = None.
Proof.
  intros Hlast. apply find_None_intro. intros j Hj.
  apply elem_of_glist_iter in Hj. apply ord_ltb_ge. by apply (glist_last_max l).
Qed.

(** The identifier an append generates is above all others. *)
Definition append_id l (x : T) : Identifier T :=
  match glist_insert_after l (glist_last l) x with GListInsert i => i end.

Lemma append_id_spec l x :
  glist_ok l →
  id_ok (append_id l x) ∧ id_value (append_id l x) = Some x ∧
  ∀ j, j ∈ glist_ids l → cmp j (append_id l x) = Lt.
Proof.
  intros Hok. unfold append_id, glist_insert_after.
  destruct (glist_last l) as [i|] eqn:Hlast; simpl.
  - rewrite (find_above_last l i Hlast). split; [done|]. split; [done|].
    intros j Hj. eapply ord_le_lt_trans; [by apply (glist_last_max l)|].
    apply between_above, Hok. by apply glist_last_elem.
  - split; [done|]. split; [done|]. intros j Hj. exfalso.
    apply elem_of_glist_iter in Hj. unfold glist_last in Hlast.
    apply last_None in Hlast. rewrite Hlast in Hj. by apply elem_of_nil in Hj.
Qed.

Lemma glist_append_iter l x :
  glist_ok l →
  glist_iter (glist_apply l (glist_insert_after l (glist_last l) x)) =
    glist_iter l ++ [append_id l x].
Proof.
  intros Hok. pose proof (append_id_spec l x Hok) as (_ & _ & Habove).
  change (glist_insert_after l (glist_last l) x) with (GListInsert (append_id l x)).
  unfold glist_iter, glist_apply; simpl. apply btree_set_iter_unique.
  - apply NoDup_app. split; [apply NoDup_btree_set_iter|]. split; [|apply NoDup_singleton].
    intros j Hj%elem_of_btree_set_iter ->%list_elem_of_singleton.
    apply Habove in Hj. by apply cmp_lt_irrefl in Hj.
  - intros j. rewrite elem_of_app, list_elem_of_singleton, elem_of_btree_set_iter.
    unfold gset_insert. set_solver.
  - apply StronglySorted_app_2; [|apply btree_set_iter_sorted|by repeat constructor].
    intros j k Hj%elem_of_btree_set_iter ->%list_elem_of_singleton.
    by apply ord_lt_le, Habove.
Qed.

(** Appending reads back as the old list followed by the element. *)
Lemma glist_append_read l x xs :
  glist_ok l → glist_read l = Some xs →
  glist_read (glist_apply l (glist_insert_after l (glist_last l) x)) = Some (xs ++ [x]).
Proof.
  intros Hok Hread. unfold glist_read in *. rewrite glist_append_iter by done.
  destruct (append_id_spec l x Hok) as (_ & Hval & _).
  apply mapM_Some. apply mapM_Some in Hread. apply Forall2_app; [done|].
  by constructor.
Qed.

(** With non-empty identifiers [read] does not panic. *)
Lemma glist_read_total l : glist_ok l → is_Some (glist_read l).
Proof.
  intros Hok. unfold glist_read. apply mapM_is_Some_2, Forall_forall. intros i Hi.
  apply elem_of_glist_iter, Hok in Hi. unfold id_ok in Hi. unfold id_value.
  apply fmap_is_Some. destruct (id_path i) as [|y p] using rev_ind; [done|].
  rewrite last_snoc. eauto.
Qed.
End glist.
