(* ===== verification/State.v ===== *)
(** * The replicated state (dessplay-core/src/state.rs)

    [CrdtState] is the product of nineteen CRDTs; [CrdtOp] has one variant per
    field. A mutator builds the op against the current causal context, applies
    it locally and returns it for broadcast: here it returns the new state and
    the op. The three ways an op can arrive (local echo, datagram, reliable
    control stream) are [apply], [apply_if_orderly] and [apply_map_reliable];
    the server goes through [apply_for_broadcast], which also decides whether
    the copy is fanned out again. *)

From S2P Require Import Prelude Types Lww Vclock CrdtMap Identifier.

(** [LwwMap<K, V> = Map<K, LwwCell<V>, ActorId>] and its op type. *)
Abbreviation LwwMap K V := (CMap K (LwwCell V) ActorId).
Abbreviation LwwMapOp K V := (MapOp K (Lww V) ActorId).

(** net/message.rs. *)
Definition PROTOCOL_VERSION : Z := 15.

(** ** State and operations *)

Record CrdtState := mkCrdtState {
  playlist : LwwMap Ed2kHash (option PlaylistFileState);
  watched : LwwMap Ed2kHash bool;
  now_playing : LwwCell (option Ed2kHash);
  seek_authority : LwwCell SeekAuthority;
  playback_intent : LwwCell PlaybackIntent;
  series_preference : LwwMap (UserId * ListEntryId) SeriesPreference;
  manual_override : LwwMap UserId (option ManualState);
  file_availability : LwwMap (UserId * Ed2kHash) FileAvailability;
  anidb_metadata : LwwMap Ed2kHash (option AniDbMetadata);
  series_relations : LwwMap AniDbSeriesId SeriesRelations;
  file_catalog : LwwMap Ed2kHash FileCatalogEntry;
  list_entries : LwwMap ListEntryId SeriesListEntry;
  list_next_ep : LwwMap ListEntryId NextEpState;
  lookup_requests : gset FileHashInfo;
  chat : GList ChatMessage;
  playback_position : LwwMap UserId PlaybackPosition;
  acknowledged_absent : gset (Ed2kHash * UserId);
  marquee : LwwCell (option MarqueeMessage);
  saved_position : LwwMap Ed2kHash Z;
  protocol_version : Z
}.

Inductive CrdtOp :=
| OpPlaylist (op : LwwMapOp Ed2kHash (option PlaylistFileState))
| OpWatched (op : LwwMapOp Ed2kHash bool)
| OpNowPlaying (op : Lww (option Ed2kHash))
| OpSeekAuth (op : Lww SeekAuthority)
| OpPlaybackInt (op : Lww PlaybackIntent)
| OpSeriesPref (op : LwwMapOp (UserId * ListEntryId) SeriesPreference)
| OpManualOverride (op : LwwMapOp UserId (option ManualState))
| OpFileAvail (op : LwwMapOp (UserId * Ed2kHash) FileAvailability)
| OpAniDbMeta (op : LwwMapOp Ed2kHash (option AniDbMetadata))
| OpSeriesRels (op : LwwMapOp AniDbSeriesId SeriesRelations)
| OpFileCatalog (op : LwwMapOp Ed2kHash FileCatalogEntry)
| OpListEntry (op : LwwMapOp ListEntryId SeriesListEntry)
| OpListNextEp (op : LwwMapOp ListEntryId NextEpState)
| OpLookupRequest (op : FileHashInfo)
| OpChat (op : GListOp ChatMessage)
| OpPlaybackPos (op : LwwMapOp UserId PlaybackPosition)
| OpAcknowledgeAbsent (op : Ed2kHash * UserId)
| OpMarquee (op : Lww (option MarqueeMessage))
| OpSavedPos (op : LwwMapOp Ed2kHash Z).

#[export] Instance CrdtState_default : Default CrdtState :=
  mkCrdtState default_value default_value default_value default_value default_value
    default_value default_value default_value default_value default_value
    default_value default_value default_value ∅ default_value default_value ∅
    default_value default_value 0.

(** Field updates ([self.field = x]). *)
Definition with_playlist (s : CrdtState) (x : LwwMap Ed2kHash (option PlaylistFileState)) : CrdtState :=
  mkCrdtState x (watched s) (now_playing s) (seek_authority s) (playback_intent s) (series_preference
    s) (manual_override s) (file_availability s) (anidb_metadata s) (series_relations s)
    (file_catalog s) (list_entries s) (list_next_ep s) (lookup_requests s) (chat s)
    (playback_position s) (acknowledged_absent s) (marquee s) (saved_position s)
    (protocol_version s).
Definition with_watched (s : CrdtState) (x : LwwMap Ed2kHash bool) : CrdtState :=
  mkCrdtState (playlist s) x (now_playing s) (seek_authority s) (playback_intent s) (series_preference
    s) (manual_override s) (file_availability s) (anidb_metadata s) (series_relations s)
    (file_catalog s) (list_entries s) (list_next_ep s) (lookup_requests s) (chat s)
    (playback_position s) (acknowledged_absent s) (marquee s) (saved_position s)
    (protocol_version s).
Definition with_now_playing (s : CrdtState) (x : LwwCell (option Ed2kHash)) : CrdtState :=
  mkCrdtState (playlist s) (watched s) x (seek_authority s) (playback_intent s) (series_preference s)
    (manual_override s) (file_availability s) (anidb_metadata s) (series_relations s)
    (file_catalog s) (list_entries s) (list_next_ep s) (lookup_requests s) (chat s)
    (playback_position s) (acknowledged_absent s) (marquee s) (saved_position s)
    (protocol_version s).
Definition with_seek_authority (s : CrdtState) (x : LwwCell SeekAuthority) : CrdtState :=
  mkCrdtState (playlist s) (watched s) (now_playing s) x (playback_intent s) (series_preference s)
    (manual_override s) (file_availability s) (anidb_metadata s) (series_relations s)
    (file_catalog s) (list_entries s) (list_next_ep s) (lookup_requests s) (chat s)
    (playback_position s) (acknowledged_absent s) (marquee s) (saved_position s)
    (protocol_version s).
Definition with_playback_intent (s : CrdtState) (x : LwwCell PlaybackIntent) : CrdtState :=
  mkCrdtState (playlist s) (watched s) (now_playing s) (seek_authority s) x (series_preference s)
    (manual_override s) (file_availability s) (anidb_metadata s) (series_relations s)
    (file_catalog s) (list_entries s) (list_next_ep s) (lookup_requests s) (chat s)
    (playback_position s) (acknowledged_absent s) (marquee s) (saved_position s)
    (protocol_version s).
Definition with_series_preference (s : CrdtState) (x : LwwMap (UserId * ListEntryId) SeriesPreference) : CrdtState :=
  mkCrdtState (playlist s) (watched s) (now_playing s) (seek_authority s) (playback_intent s) x
    (manual_override s) (file_availability s) (anidb_metadata s) (series_relations s)
    (file_catalog s) (list_entries s) (list_next_ep s) (lookup_requests s) (chat s)
    (playback_position s) (acknowledged_absent s) (marquee s) (saved_position s)
    (protocol_version s).
Definition with_manual_override (s : CrdtState) (x : LwwMap UserId (option ManualState)) : CrdtState :=
  mkCrdtState (playlist s) (watched s) (now_playing s) (seek_authority s) (playback_intent s)
    (series_preference s) x (file_availability s) (anidb_metadata s) (series_relations s)
    (file_catalog s) (list_entries s) (list_next_ep s) (lookup_requests s) (chat s)
    (playback_position s) (acknowledged_absent s) (marquee s) (saved_position s)
    (protocol_version s).
Definition with_file_availability (s : CrdtState) (x : LwwMap (UserId * Ed2kHash) FileAvailability) : CrdtState :=
  mkCrdtState (playlist s) (watched s) (now_playing s) (seek_authority s) (playback_intent s)
    (series_preference s) (manual_override s) x (anidb_metadata s) (series_relations s)
    (file_catalog s) (list_entries s) (list_next_ep s) (lookup_requests s) (chat s)
    (playback_position s) (acknowledged_absent s) (marquee s) (saved_position s)
    (protocol_version s).
Definition with_anidb_metadata (s : CrdtState) (x : LwwMap Ed2kHash (option AniDbMetadata)) : CrdtState :=
  mkCrdtState (playlist s) (watched s) (now_playing s) (seek_authority s) (playback_intent s)
    (series_preference s) (manual_override s) (file_availability s) x (series_relations s)
    (file_catalog s) (list_entries s) (list_next_ep s) (lookup_requests s) (chat s)
    (playback_position s) (acknowledged_absent s) (marquee s) (saved_position s)
    (protocol_version s).
Definition with_series_relations (s : CrdtState) (x : LwwMap AniDbSeriesId SeriesRelations) : CrdtState :=
  mkCrdtState (playlist s) (watched s) (now_playing s) (seek_authority s) (playback_intent s)
    (series_preference s) (manual_override s) (file_availability s) (anidb_metadata s) x
    (file_catalog s) (list_entries s) (list_next_ep s) (lookup_requests s) (chat s)
    (playback_position s) (acknowledged_absent s) (marquee s) (saved_position s)
    (protocol_version s).
Definition with_file_catalog (s : CrdtState) (x : LwwMap Ed2kHash FileCatalogEntry) : CrdtState :=
  mkCrdtState (playlist s) (watched s) (now_playing s) (seek_authority s) (playback_intent s)
    (series_preference s) (manual_override s) (file_availability s) (anidb_metadata s)
    (series_relations s) x (list_entries s) (list_next_ep s) (lookup_requests s) (chat s)
    (playback_position s) (acknowledged_absent s) (marquee s) (saved_position s)
    (protocol_version s).
Definition with_list_entries (s : CrdtState) (x : LwwMap ListEntryId SeriesListEntry) : CrdtState :=
  mkCrdtState (playlist s) (watched s) (now_playing s) (seek_authority s) (playback_intent s)
    (series_preference s) (manual_override s) (file_availability s) (anidb_metadata s)
    (series_relations s) (file_catalog s) x (list_next_ep s) (lookup_requests s) (chat s)
    (playback_position s) (acknowledged_absent s) (marquee s) (saved_position s)
    (protocol_version s).
Definition with_list_next_ep (s : CrdtState) (x : LwwMap ListEntryId NextEpState) : CrdtState :=
  mkCrdtState (playlist s) (watched s) (now_playing s) (seek_authority s) (playback_intent s)
    (series_preference s) (manual_override s) (file_availability s) (anidb_metadata s)
    (series_relations s) (file_catalog s) (list_entries s) x (lookup_requests s) (chat s)
    (playback_position s) (acknowledged_absent s) (marquee s) (saved_position s)
    (protocol_version s).
Definition with_lookup_requests (s : CrdtState) (x : gset FileHashInfo) : CrdtState :=
  mkCrdtState (playlist s) (watched s) (now_playing s) (seek_authority s) (playback_intent s)
    (series_preference s) (manual_override s) (file_availability s) (anidb_metadata s)
    (series_relations s) (file_catalog s) (list_entries s) (list_next_ep s) x (chat s)
    (playback_position s) (acknowledged_absent s) (marquee s) (saved_position s)
    (protocol_version s).
Definition with_chat (s : CrdtState) (x : GList ChatMessage) : CrdtState :=
  mkCrdtState (playlist s) (watched s) (now_playing s) (seek_authority s) (playback_intent s)
    (series_preference s) (manual_override s) (file_availability s) (anidb_metadata s)
    (series_relations s) (file_catalog s) (list_entries s) (list_next_ep s) (lookup_requests
    s) x (playback_position s) (acknowledged_absent s) (marquee s) (saved_position s)
    (protocol_version s).
Definition with_playback_position (s : CrdtState) (x : LwwMap UserId PlaybackPosition) : CrdtState :=
  mkCrdtState (playlist s) (watched s) (now_playing s) (seek_authority s) (playback_intent s)
    (series_preference s) (manual_override s) (file_availability s) (anidb_metadata s)
    (series_relations s) (file_catalog s) (list_entries s) (list_next_ep s) (lookup_requests
    s) (chat s) x (acknowledged_absent s) (marquee s) (saved_position s) (protocol_version
    s).
Definition with_acknowledged_absent (s : CrdtState) (x : gset (Ed2kHash * UserId)) : CrdtState :=
  mkCrdtState (playlist s) (watched s) (now_playing s) (seek_authority s) (playback_intent s)
    (series_preference s) (manual_override s) (file_availability s) (anidb_metadata s)
    (series_relations s) (file_catalog s) (list_entries s) (list_next_ep s) (lookup_requests
    s) (chat s) (playback_position s) x (marquee s) (saved_position s) (protocol_version s).
Definition with_marquee (s : CrdtState) (x : LwwCell (option MarqueeMessage)) : CrdtState :=
  mkCrdtState (playlist s) (watched s) (now_playing s) (seek_authority s) (playback_intent s)
    (series_preference s) (manual_override s) (file_availability s) (anidb_metadata s)
    (series_relations s) (file_catalog s) (list_entries s) (list_next_ep s) (lookup_requests
    s) (chat s) (playback_position s) (acknowledged_absent s) x (saved_position s)
    (protocol_version s).
Definition with_saved_position (s : CrdtState) (x : LwwMap Ed2kHash Z) : CrdtState :=
  mkCrdtState (playlist s) (watched s) (now_playing s) (seek_authority s) (playback_intent s)
    (series_preference s) (manual_override s) (file_availability s) (anidb_metadata s)
    (series_relations s) (file_catalog s) (list_entries s) (list_next_ep s) (lookup_requests
    s) (chat s) (playback_position s) (acknowledged_absent s) (marquee s) x
    (protocol_version s).
Definition with_protocol_version (s : CrdtState) (x : Z) : CrdtState :=
  mkCrdtState (playlist s) (watched s) (now_playing s) (seek_authority s) (playback_intent s)
    (series_preference s) (manual_override s) (file_availability s) (anidb_metadata s)
    (series_relations s) (file_catalog s) (list_entries s) (list_next_ep s) (lookup_requests
    s) (chat s) (playback_position s) (acknowledged_absent s) (marquee s) (saved_position s)
    x.

(** [CrdtState::new]. *)
Definition new_state : CrdtState := with_protocol_version default_value PROTOCOL_VERSION.

(** [CrdtOp::lww_timestamp]: what receivers feed into their Lamport floor. *)
Definition map_ts {K V} `{Countable K} (op : LwwMapOp K V) : option SharedTimestamp :=
  match op with
  | MapUp u => Some (lww_timestamp (up_op u))
  | MapRm _ _ => None
  end.
Definition op_lww_timestamp (op : CrdtOp) : option SharedTimestamp :=
  match op with
  | OpPlaylist op => map_ts op
  | OpWatched op => map_ts op
  | OpNowPlaying op => Some (lww_timestamp op)
  | OpSeekAuth op => Some (lww_timestamp op)
  | OpPlaybackInt op => Some (lww_timestamp op)
  | OpSeriesPref op => map_ts op
  | OpManualOverride op => map_ts op
  | OpFileAvail op => map_ts op
  | OpAniDbMeta op => map_ts op
  | OpSeriesRels op => map_ts op
  | OpFileCatalog op => map_ts op
  | OpListEntry op => map_ts op
  | OpListNextEp op => map_ts op
  | OpLookupRequest _ => None
  | OpChat _ => None
  | OpPlaybackPos op => map_ts op
  | OpAcknowledgeAbsent _ => None
  | OpMarquee op => Some (lww_timestamp op)
  | OpSavedPos op => map_ts op
  end.

(** ** Applying and merging *)

(** [CrdtState::apply]. *)
Definition apply (s : CrdtState) (op : CrdtOp) : CrdtState :=
  match op with
  | OpPlaylist op => with_playlist s (map_apply (playlist s) op)
  | OpWatched op => with_watched s (map_apply (watched s) op)
  | OpNowPlaying op => with_now_playing s (lww_apply (now_playing s) op)
  | OpSeekAuth op => with_seek_authority s (lww_apply (seek_authority s) op)
  | OpPlaybackInt op => with_playback_intent s (lww_apply (playback_intent s) op)
  | OpSeriesPref op => with_series_preference s (map_apply (series_preference s) op)
  | OpManualOverride op => with_manual_override s (map_apply (manual_override s) op)
  | OpFileAvail op => with_file_availability s (map_apply (file_availability s) op)
  | OpAniDbMeta op => with_anidb_metadata s (map_apply (anidb_metadata s) op)
  | OpSeriesRels op => with_series_relations s (map_apply (series_relations s) op)
  | OpFileCatalog op => with_file_catalog s (map_apply (file_catalog s) op)
  | OpListEntry op => with_list_entries s (map_apply (list_entries s) op)
  | OpListNextEp op => with_list_next_ep s (map_apply (list_next_ep s) op)
  | OpLookupRequest op => with_lookup_requests s (gset_insert (lookup_requests s) op)
  | OpChat op => with_chat s (glist_apply (chat s) op)
  | OpPlaybackPos op => with_playback_position s (map_apply (playback_position s) op)
  | OpAcknowledgeAbsent op => with_acknowledged_absent s (gset_insert (acknowledged_absent s) op)
  | OpMarquee op => with_marquee s (lww_apply (marquee s) op)
  | OpSavedPos op => with_saved_position s (map_apply (saved_position s) op)
  end.

(** [CrdtState::merge]. *)
Definition merge (s other : CrdtState) : CrdtState :=
  mkCrdtState
    (map_merge (playlist s) (playlist other))
    (map_merge (watched s) (watched other))
    (lww_merge (now_playing s) (now_playing other))
    (lww_merge (seek_authority s) (seek_authority other))
    (lww_merge (playback_intent s) (playback_intent other))
    (map_merge (series_preference s) (series_preference other))
    (map_merge (manual_override s) (manual_override other))
    (map_merge (file_availability s) (file_availability other))
    (map_merge (anidb_metadata s) (anidb_metadata other))
    (map_merge (series_relations s) (series_relations other))
    (map_merge (file_catalog s) (file_catalog other))
    (map_merge (list_entries s) (list_entries other))
    (map_merge (list_next_ep s) (list_next_ep other))
    (gset_merge (lookup_requests s) (lookup_requests other))
    (glist_merge (chat s) (chat other))
    (map_merge (playback_position s) (playback_position other))
    (gset_merge (acknowledged_absent s) (acknowledged_absent other))
    (lww_merge (marquee s) (marquee other))
    (map_merge (saved_position s) (saved_position other))
    (Z.max (protocol_version s) (protocol_version other)).

(** ** Mutators *)

(** [map_put]: the next dot of [actor], and the timestamped value. *)
Definition map_put {K V} `{Countable K, Ord K, Ord V} (m : LwwMap K V) (actor : ActorId)
    (ts : SharedTimestamp) (key : K) (value : V) : LwwMap K V * LwwMapOp K V :=
  let add_ctx := derive_add_ctx (map_clock m) actor in
  let op := map_update m key add_ctx (λ cell _, lww_write cell ts value) in
  (map_apply m op, op).

(** [reg_put]. *)
Definition reg_put {V} `{Ord V} (reg : LwwCell V) (ts : SharedTimestamp) (value : V)
    : LwwCell V * Lww V :=
  let op := lww_write reg ts value in (lww_apply reg op, op).

(** [CrdtState::set_playlist_entry]. *)
Definition set_playlist_entry (s : CrdtState) (actor : ActorId) (ts : SharedTimestamp)
    (hash : Ed2kHash) (entry : PlaylistFileState) : CrdtState * CrdtOp :=
  let '(m, op) := map_put (playlist s) actor ts hash (Some entry) in (with_playlist s m, OpPlaylist op).

(** [CrdtState::remove_playlist_entry]: a tombstone. *)
Definition remove_playlist_entry (s : CrdtState) (actor : ActorId) (ts : SharedTimestamp)
    (hash : Ed2kHash) : CrdtState * CrdtOp :=
  let '(m, op) := map_put (playlist s) actor ts hash None in (with_playlist s m, OpPlaylist op).

(** [CrdtState::set_watched]. *)
Definition set_watched (s : CrdtState) (actor : ActorId) (ts : SharedTimestamp)
    (hash : Ed2kHash) (w : bool) : CrdtState * CrdtOp :=
  let '(m, op) := map_put (watched s) actor ts hash w in (with_watched s m, OpWatched op).

(** [CrdtState::set_now_playing]. *)
Definition set_now_playing (s : CrdtState) (actor : ActorId) (ts : SharedTimestamp)
    (file : option Ed2kHash) : CrdtState * CrdtOp :=
  let '(r, op) := reg_put (now_playing s) ts file in (with_now_playing s r, OpNowPlaying op).

(** [CrdtState::set_seek_authority]. *)
Definition set_seek_authority (s : CrdtState) (actor : ActorId) (ts : SharedTimestamp)
    (authority : SeekAuthority) : CrdtState * CrdtOp :=
  let '(r, op) := reg_put (seek_authority s) ts authority in (with_seek_authority s r, OpSeekAuth op).

(** [CrdtState::set_playback_intent]. *)
Definition set_playback_intent (s : CrdtState) (actor : ActorId) (ts : SharedTimestamp)
    (intent : PlaybackIntent) : CrdtState * CrdtOp :=
  let '(r, op) := reg_put (playback_intent s) ts intent in (with_playback_intent s r, OpPlaybackInt op).

(** [CrdtState::set_series_preference]. *)
Definition set_series_preference (s : CrdtState) (actor : ActorId) (ts : SharedTimestamp)
    (user : UserId) (entry : ListEntryId) (pref : SeriesWatchState) (set_by : option UserId) : CrdtState * CrdtOp :=
  let '(m, op) := map_put (series_preference s) actor ts (user, entry) (mkSeriesPreference pref set_by) in (with_series_preference s m, OpSeriesPref op).

(** [CrdtState::set_manual_override]. *)
Definition set_manual_override (s : CrdtState) (actor : ActorId) (ts : SharedTimestamp)
    (user : UserId) (state : option ManualState) : CrdtState * CrdtOp :=
  let '(m, op) := map_put (manual_override s) actor ts user state in (with_manual_override s m, OpManualOverride op).

(** [CrdtState::set_file_availability]. *)
Definition set_file_availability (s : CrdtState) (actor : ActorId) (ts : SharedTimestamp)
    (user : UserId) (file : Ed2kHash) (availability : FileAvailability) : CrdtState * CrdtOp :=
  let '(m, op) := map_put (file_availability s) actor ts (user, file) availability in (with_file_availability s m, OpFileAvail op).

(** [CrdtState::set_anidb_metadata]. *)
Definition set_anidb_metadata (s : CrdtState) (actor : ActorId) (ts : SharedTimestamp)
    (hash : Ed2kHash) (metadata : option AniDbMetadata) : CrdtState * CrdtOp :=
  let '(m, op) := map_put (anidb_metadata s) actor ts hash metadata in (with_anidb_metadata s m, OpAniDbMeta op).

(** [CrdtState::set_series_relations]. *)
Definition set_series_relations (s : CrdtState) (actor : ActorId) (ts : SharedTimestamp)
    (series : AniDbSeriesId) (rels : SeriesRelations) : CrdtState * CrdtOp :=
  let '(m, op) := map_put (series_relations s) actor ts series rels in (with_series_relations s m, OpSeriesRels op).

(** [CrdtState::set_file_catalog]. *)
Definition set_file_catalog (s : CrdtState) (actor : ActorId) (ts : SharedTimestamp)
    (hash : Ed2kHash) (entry : FileCatalogEntry) : CrdtState * CrdtOp :=
  let '(m, op) := map_put (file_catalog s) actor ts hash entry in (with_file_catalog s m, OpFileCatalog op).

(** [CrdtState::put_list_entry]. *)
Definition put_list_entry (s : CrdtState) (actor : ActorId) (ts : SharedTimestamp)
    (id : ListEntryId) (entry : SeriesListEntry) : CrdtState * CrdtOp :=
  let '(m, op) := map_put (list_entries s) actor ts id entry in (with_list_entries s m, OpListEntry op).

(** [CrdtState::set_next_ep]. *)
Definition set_next_ep (s : CrdtState) (actor : ActorId) (ts : SharedTimestamp)
    (id : ListEntryId) (next : NextEpState) : CrdtState * CrdtOp :=
  let '(m, op) := map_put (list_next_ep s) actor ts id next in (with_list_next_ep s m, OpListNextEp op).

(** [CrdtState::request_lookup]. *)
Definition request_lookup (s : CrdtState) (info : FileHashInfo) : CrdtState * CrdtOp :=
  (with_lookup_requests s (gset_insert (lookup_requests s) info), OpLookupRequest info).

(** [CrdtState::acknowledge_absent]. *)
Definition acknowledge_absent (s : CrdtState) (file : Ed2kHash) (user : UserId)
    : CrdtState * CrdtOp :=
  (with_acknowledged_absent s (gset_insert (acknowledged_absent s) (file, user)),
   OpAcknowledgeAbsent (file, user)).

(** [CrdtState::set_marquee]. *)
Definition set_marquee (s : CrdtState) (actor : ActorId) (ts : SharedTimestamp)
    (message : option MarqueeMessage) : CrdtState * CrdtOp :=
  let '(r, op) := reg_put (marquee s) ts message in (with_marquee s r, OpMarquee op).

(** [CrdtState::append_chat]. *)
Definition append_chat (s : CrdtState) (message : ChatMessage) : CrdtState * CrdtOp :=
  let op := glist_insert_after (chat s) (glist_last (chat s)) message in
  (with_chat s (glist_apply (chat s) op), OpChat op).

(** [CrdtState::set_playback_position]. *)
Definition set_playback_position (s : CrdtState) (actor : ActorId) (ts : SharedTimestamp)
    (user : UserId) (pos : PlaybackPosition) : CrdtState * CrdtOp :=
  let '(m, op) := map_put (playback_position s) actor ts user pos in (with_playback_position s m, OpPlaybackPos op).

(** [CrdtState::set_saved_position]. *)
Definition set_saved_position (s : CrdtState) (actor : ActorId) (ts : SharedTimestamp)
    (file : Ed2kHash) (millis : Z) : CrdtState * CrdtOp :=
  let '(m, op) := map_put (saved_position s) actor ts file millis in (with_saved_position s m, OpSavedPos op).

(** ** Receiving ops *)

(** The op's dot must be [clock[actor] + 1] on this map. *)
Definition next_in_sequence {K V} `{Countable K} (m : LwwMap K V) (op : LwwMapOp K V) : bool :=
  match op with
  | MapUp u =>
      u64_wrap (vget (map_clock m) (dot_actor (up_dot u)) + 1) =? dot_counter (up_dot u)
  | MapRm _ _ => false
  end.

(** The op carries a dot beyond what was applied for its origin. *)
Definition advances {K V} `{Countable K} (m : LwwMap K V) (op : LwwMapOp K V) : bool :=
  match op with
  | MapUp u => vget (map_clock m) (dot_actor (up_dot u)) <? dot_counter (up_dot u)
  | MapRm _ _ => false
  end.

(** [CrdtState::apply_if_orderly]: the datagram path. The macro [guarded!]
    expands to the map arms below. *)
Definition apply_if_orderly (s : CrdtState) (op : CrdtOp) : CrdtState * bool :=
  match op with
  | OpPlaylist mop =>
      if next_in_sequence (playlist s) mop then (apply s op, true) else (s, false)
  | OpWatched mop =>
      if next_in_sequence (watched s) mop then (apply s op, true) else (s, false)
  | OpSeriesPref mop =>
      if next_in_sequence (series_preference s) mop then (apply s op, true) else (s, false)
  | OpManualOverride mop =>
      if next_in_sequence (manual_override s) mop then (apply s op, true) else (s, false)
  | OpFileAvail mop =>
      if next_in_sequence (file_availability s) mop then (apply s op, true) else (s, false)
  | OpAniDbMeta mop =>
      if next_in_sequence (anidb_metadata s) mop then (apply s op, true) else (s, false)
  | OpSeriesRels mop =>
      if next_in_sequence (series_relations s) mop then (apply s op, true) else (s, false)
  | OpFileCatalog mop =>
      if next_in_sequence (file_catalog s) mop then (apply s op, true) else (s, false)
  | OpListEntry mop =>
      if next_in_sequence (list_entries s) mop then (apply s op, true) else (s, false)
  | OpListNextEp mop =>
      if next_in_sequence (list_next_ep s) mop then (apply s op, true) else (s, false)
  | OpPlaybackPos mop =>
      if next_in_sequence (playback_position s) mop then (apply s op, true) else (s, false)
  | OpSavedPos mop =>
      if next_in_sequence (saved_position s) mop then (apply s op, true) else (s, false)
  | _ => (apply s op, true)
  end.

(** [CrdtState::apply_map_reliable]: the reliable path ([reliable!]). *)
Definition apply_map_reliable (s : CrdtState) (op : CrdtOp) : CrdtState * bool :=
  match op with
  | OpPlaylist mop => (apply s op, advances (playlist s) mop)
  | OpWatched mop => (apply s op, advances (watched s) mop)
  | OpSeriesPref mop => (apply s op, advances (series_preference s) mop)
  | OpManualOverride mop => (apply s op, advances (manual_override s) mop)
  | OpFileAvail mop => (apply s op, advances (file_availability s) mop)
  | OpAniDbMeta mop => (apply s op, advances (anidb_metadata s) mop)
  | OpSeriesRels mop => (apply s op, advances (series_relations s) mop)
  | OpFileCatalog mop => (apply s op, advances (file_catalog s) mop)
  | OpListEntry mop => (apply s op, advances (list_entries s) mop)
  | OpListNextEp mop => (apply s op, advances (list_next_ep s) mop)
  | OpPlaybackPos mop => (apply s op, advances (playback_position s) mop)
  | OpSavedPos mop => (apply s op, advances (saved_position s) mop)
  | _ => (apply s op, true)
  end.

(** [register_changed], [gset_changed], [glist_changed]. *)
Definition register_changed {V} `{EqDecision V, Ord V} (cell : LwwCell V) (op : Lww V)
    : LwwCell V * bool :=
  let before := lww_read cell in
  let cell := lww_apply cell op in
  (cell, bool_decide (lww_read cell ≠ before)).
Definition gset_changed {T} `{Countable T} (s : gset T) (x : T) : gset T * bool :=
  if gset_contains s x then (s, false) else (gset_insert s x, true).
Definition glist_changed {T} `{Countable T} (l : GList T) (op : GListOp T)
    : GList T * bool :=
  let before := glist_len l in
  let l := glist_apply l op in
  (l, bool_decide (glist_len l ≠ before)).

(** [CrdtState::apply_for_broadcast]: apply, and whether to re-fan-out. *)
Definition apply_for_broadcast (s : CrdtState) (op : CrdtOp) (via_datagram : bool)
    : CrdtState * bool :=
  match op with
  | OpNowPlaying op =>
      let '(r, b) := register_changed (now_playing s) op in (with_now_playing s r, b)
  | OpSeekAuth op =>
      let '(r, b) := register_changed (seek_authority s) op in (with_seek_authority s r, b)
  | OpPlaybackInt op =>
      let '(r, b) := register_changed (playback_intent s) op in (with_playback_intent s r, b)
  | OpMarquee op =>
      let '(r, b) := register_changed (marquee s) op in (with_marquee s r, b)
  | OpLookupRequest x =>
      let '(r, b) := gset_changed (lookup_requests s) x in (with_lookup_requests s r, b)
  | OpAcknowledgeAbsent x =>
      let '(r, b) := gset_changed (acknowledged_absent s) x in (with_acknowledged_absent s r, b)
  | OpChat op => let '(r, b) := glist_changed (chat s) op in (with_chat s r, b)
  | map_op => if via_datagram then apply_if_orderly s map_op else apply_map_reliable s map_op
  end.

(** [CrdtState::max_lww_timestamp]: the Lamport floor of a state. *)
Definition map_max {K V} `{Countable K, Ord K} (m : LwwMap K V) : SharedTimestamp :=
  default 0 (iter_max (omap (λ kc, lww_cell_timestamp kc.2) (iter_entries m))).
Definition max_lww_timestamp (s : CrdtState) : SharedTimestamp :=
  default 0 (iter_max
    [ map_max (playlist s); map_max (watched s);
      default 0 (lww_cell_timestamp (now_playing s));
      default 0 (lww_cell_timestamp (seek_authority s));
      default 0 (lww_cell_timestamp (playback_intent s));
      default 0 (lww_cell_timestamp (marquee s));
      map_max (series_preference s); map_max (manual_override s);
      map_max (file_availability s); map_max (anidb_metadata s);
      map_max (series_relations s); map_max (file_catalog s);
      map_max (list_entries s); map_max (list_next_ep s);
      map_max (playback_position s); map_max (saved_position s) ]).
