(* ===== verification/Fields.v ===== *)
(** * The fields of the replicated state, uniformly

    The twelve map fields of [CrdtState] are handled by the same code in the
    source (the macros [guarded!] and [reliable!], the helper [map_put]); this
    file gives the proofs the same uniformity. [MapField] and [RegField] name
    the map and register fields, [map_field] and [reg_field] bundle a field's
    key and value types with its accessor and its op constructor, and the laws
    say what [apply], [merge], [apply_if_orderly], ... of State.v do to a field
    in terms of the component operation. Theorems about the whole state then
    quantify over fields instead of repeating themselves per field. *)

From S2P Require Import Prelude Types Lww Vclock CrdtMap Identifier State.

(** ** Map fields *)

Inductive MapField :=
| FPlaylist | FWatched | FSeriesPref | FManualOverride | FFileAvail | FAniDbMeta
| FSeriesRels | FFileCatalog | FListEntry | FListNextEp | FPlaybackPos | FSavedPos.

#[export] Instance MapField_eq_dec : EqDecision MapField.
Proof. solve_decision. Defined.

Record MapFieldOps := mkMapFieldOps {
  fK : Type; fV : Type;
  fK_eq : EqDecision fK; fK_countable : Countable fK;
  fK_ord : Ord fK; fK_lawful : LawfulOrd fK;
  fV_ord : Ord fV; fV_lawful : LawfulOrd fV;
  fget : CrdtState → LwwMap fK fV;
  fop : LwwMapOp fK fV → CrdtOp;
  fproj : CrdtOp → option (LwwMapOp fK fV)
}.
#[export] Existing Instance fK_eq.
#[export] Existing Instance fK_countable.
#[export] Existing Instance fK_ord.
#[export] Existing Instance fK_lawful.
#[export] Existing Instance fV_ord.
#[export] Existing Instance fV_lawful.
Arguments mkMapFieldOps {_ _ _ _ _ _ _ _} _ _ _.

Definition map_field (f : MapField) : MapFieldOps :=
  match f with
  | FPlaylist => mkMapFieldOps playlist OpPlaylist
      (λ op, match op with OpPlaylist m => Some m | _ => None end)
  | FWatched => mkMapFieldOps watched OpWatched
      (λ op, match op with OpWatched m => Some m | _ => None end)
  | FSeriesPref => mkMapFieldOps series_preference OpSeriesPref
      (λ op, match op with OpSeriesPref m => Some m | _ => None end)
  | FManualOverride => mkMapFieldOps manual_override OpManualOverride
      (λ op, match op with OpManualOverride m => Some m | _ => None end)
  | FFileAvail => mkMapFieldOps file_availability OpFileAvail
      (λ op, match op with OpFileAvail m => Some m | _ => None end)
  | FAniDbMeta => mkMapFieldOps anidb_metadata OpAniDbMeta
      (λ op, match op with OpAniDbMeta m => Some m | _ => None end)
  | FSeriesRels => mkMapFieldOps series_relations OpSeriesRels
      (λ op, match op with OpSeriesRels m => Some m | _ => None end)
  | FFileCatalog => mkMapFieldOps file_catalog OpFileCatalog
      (λ op, match op with OpFileCatalog m => Some m | _ => None end)
  | FListEntry => mkMapFieldOps list_entries OpListEntry
      (λ op, match op with OpListEntry m => Some m | _ => None end)
  | FListNextEp => mkMapFieldOps list_next_ep OpListNextEp
      (λ op, match op with OpListNextEp m => Some m | _ => None end)
  | FPlaybackPos => mkMapFieldOps playback_position OpPlaybackPos
      (λ op, match op with OpPlaybackPos m => Some m | _ => None end)
  | FSavedPos => mkMapFieldOps saved_position OpSavedPos
      (λ op, match op with OpSavedPos m => Some m | _ => None end)
  end.

Abbreviation key_of f := (fK (map_field f)).
Abbreviation val_of f := (fV (map_field f)).
Definition mget (f : MapField) : CrdtState → LwwMap (key_of f) (val_of f) :=
  fget (map_field f).
Definition mop (f : MapField) : LwwMapOp (key_of f) (val_of f) → CrdtOp :=
  fop (map_field f).
Definition mproj (f : MapField) : CrdtOp → option (LwwMapOp (key_of f) (val_of f)) :=
  fproj (map_field f).

(** ** Register fields *)

Inductive RegField := RNowPlaying | RSeekAuth | RPlaybackInt | RMarquee.

#[export] Instance RegField_eq_dec : EqDecision RegField.
Proof. solve_decision. Defined.

Record RegFieldOps := mkRegFieldOps {
  rV : Type; rV_eq : EqDecision rV; rV_ord : Ord rV; rV_lawful : LawfulOrd rV;
  rget_ : CrdtState → LwwCell rV;
  rop_ : Lww rV → CrdtOp;
  rproj_ : CrdtOp → option (Lww rV)
}.
#[export] Existing Instance rV_eq.
#[export] Existing Instance rV_ord.
#[export] Existing Instance rV_lawful.
Arguments mkRegFieldOps {_ _ _ _} _ _ _.

Definition reg_field (r : RegField) : RegFieldOps :=
  match r with
  | RNowPlaying => mkRegFieldOps now_playing OpNowPlaying
      (λ op, match op with OpNowPlaying w => Some w | _ => None end)
  | RSeekAuth => mkRegFieldOps seek_authority OpSeekAuth
      (λ op, match op with OpSeekAuth w => Some w | _ => None end)
  | RPlaybackInt => mkRegFieldOps playback_intent OpPlaybackInt
      (λ op, match op with OpPlaybackInt w => Some w | _ => None end)
  | RMarquee => mkRegFieldOps marquee OpMarquee
      (λ op, match op with OpMarquee w => Some w | _ => None end)
  end.

Abbreviation rval_of r := (rV (reg_field r)).
Definition rget (r : RegField) : CrdtState → LwwCell (rval_of r) := rget_ (reg_field r).
Definition rop (r : RegField) : Lww (rval_of r) → CrdtOp := rop_ (reg_field r).
Definition rproj (r : RegField) : CrdtOp → option (Lww (rval_of r)) :=
  rproj_ (reg_field r).

(** The grow-only fields. *)
Definition proj_lookup (op : CrdtOp) : option FileHashInfo :=
  match op with OpLookupRequest x => Some x | _ => None end.
Definition proj_ack (op : CrdtOp) : option (Ed2kHash * UserId) :=
  match op with OpAcknowledgeAbsent x => Some x | _ => None end.
Definition proj_chat (op : CrdtOp) : option (Identifier ChatMessage) :=
  match op with OpChat (GListInsert i) => Some i | _ => None end.

(** ** Laws *)

(** Every op belongs to exactly one field. *)
Variant op_field : CrdtOp → Type :=
| op_is_map f m : op_field (mop f m)
| op_is_reg r w : op_field (rop r w)
| op_is_lookup x : op_field (OpLookupRequest x)
| op_is_ack x : op_field (OpAcknowledgeAbsent x)
| op_is_chat i : op_field (OpChat (GListInsert i)).

Definition op_field_of (op : CrdtOp) : op_field op :=
  match op with
  | OpPlaylist m => op_is_map FPlaylist m
  | OpWatched m => op_is_map FWatched m
  | OpNowPlaying w => op_is_reg RNowPlaying w
  | OpSeekAuth w => op_is_reg RSeekAuth w
  | OpPlaybackInt w => op_is_reg RPlaybackInt w
  | OpSeriesPref m => op_is_map FSeriesPref m
  | OpManualOverride m => op_is_map FManualOverride m
  | OpFileAvail m => op_is_map FFileAvail m
  | OpAniDbMeta m => op_is_map FAniDbMeta m
  | OpSeriesRels m => op_is_map FSeriesRels m
  | OpFileCatalog m => op_is_map FFileCatalog m
  | OpListEntry m => op_is_map FListEntry m
  | OpListNextEp m => op_is_map FListNextEp m
  | OpLookupRequest x => op_is_lookup x
  | OpChat (GListInsert i) => op_is_chat i
  | OpPlaybackPos m => op_is_map FPlaybackPos m
  | OpAcknowledgeAbsent x => op_is_ack x
  | OpMarquee w => op_is_reg RMarquee w
  | OpSavedPos m => op_is_map FSavedPos m
  end.

Lemma mproj_mop f m : mproj f (mop f m) = Some m.
Proof. by destruct f. Qed.
Lemma mproj_ne f g m : f ≠ g → mproj f (mop g m) = None.
Proof. by destruct f, g. Qed.
Lemma mproj_Some f op m : mproj f op = Some m → op = mop f m.
Proof. by destruct f, op; intros [= ->]. Qed.
Lemma mop_inj f m m' : mop f m = mop f m' → m = m'.
Proof. intros Heq. apply (f_equal (mproj f)) in Heq. rewrite !mproj_mop in Heq. by simplify_eq. Qed.
Lemma rproj_Some r op w : rproj r op = Some w → op = rop r w.
Proof. by destruct r, op; intros [= ->]. Qed.
Lemma rproj_rop r w : rproj r (rop r w) = Some w.
Proof. by destruct r. Qed.
Lemma rproj_ne r q w : r ≠ q → rproj r (rop q w) = None.
Proof. by destruct r, q. Qed.

(** What [apply] does to each field. *)
Lemma mget_apply f s op :
  mget f (apply s op) = match mproj f op with
                        | Some m => map_apply (mget f s) m
                        | None => mget f s
                        end.
Proof. by destruct f, op. Qed.
Lemma rget_apply r s op :
  rget r (apply s op) = match rproj r op with
                        | Some w => lww_apply (rget r s) w
                        | None => rget r s
                        end.
Proof. by destruct r, op. Qed.
Lemma lookup_requests_apply s op :
  lookup_requests (apply s op) =
    match proj_lookup op with
    | Some x => gset_insert (lookup_requests s) x | None => lookup_requests s end.
Proof. by destruct op. Qed.
Lemma acknowledged_absent_apply s op :
  acknowledged_absent (apply s op) =
    match proj_ack op with
    | Some x => gset_insert (acknowledged_absent s) x | None => acknowledged_absent s end.
Proof. by destruct op. Qed.
Lemma chat_ids_apply s op :
  glist_ids (chat (apply s op)) =
    match proj_chat op with
    | Some i => gset_insert (glist_ids (chat s)) i | None => glist_ids (chat s) end.
Proof. by destruct op as [| | | | | | | | | | | | | |[]| | | |]. Qed.
Lemma protocol_version_apply s op : protocol_version (apply s op) = protocol_version s.
Proof. by destruct op. Qed.

(** What [merge] does to each field. *)
Lemma mget_merge f s t : mget f (merge s t) = map_merge (mget f s) (mget f t).
Proof. by destruct f. Qed.
Lemma rget_merge r s t : rget r (merge s t) = lww_merge (rget r s) (rget r t).
Proof. by destruct r. Qed.

Lemma mget_new f : mget f new_state = default_value.
Proof. by destruct f. Qed.
Lemma rget_new r : rget r new_state = default_value.
Proof. by destruct r. Qed.

(** The state is the product of its fields. *)
Lemma state_ext s t :
  (∀ f, mget f s = mget f t) → (∀ r, rget r s = rget r t) →
  lookup_requests s = lookup_requests t → acknowledged_absent s = acknowledged_absent t →
  glist_ids (chat s) = glist_ids (chat t) → protocol_version s = protocol_version t →
  s = t.
Proof.
  intros Hm Hr Hl Ha Hc Hp.
  pose proof (Hm FPlaylist). pose proof (Hm FWatched). pose proof (Hm FSeriesPref).
  pose proof (Hm FManualOverride). pose proof (Hm FFileAvail). pose proof (Hm FAniDbMeta).
  pose proof (Hm FSeriesRels). pose proof (Hm FFileCatalog). pose proof (Hm FListEntry).
  pose proof (Hm FListNextEp). pose proof (Hm FPlaybackPos). pose proof (Hm FSavedPos).
  pose proof (Hr RNowPlaying). pose proof (Hr RSeekAuth). pose proof (Hr RPlaybackInt).
  pose proof (Hr RMarquee). clear Hm Hr.
  destruct s as [], t as []; cbn in *. destruct chat as [], chat0 as []; cbn in *.
  by subst.
Qed.

(** The receiving paths, per kind of field. *)
Lemma apply_if_orderly_mop f s m :
  apply_if_orderly s (mop f m) =
    if next_in_sequence (mget f s) m then (apply s (mop f m), true) else (s, false).
Proof. by destruct f. Qed.
Lemma apply_if_orderly_other s op :
  (∀ f, mproj f op = None) → apply_if_orderly s op = (apply s op, true).
Proof.
  intros Hn. destruct op; try done; exfalso;
    [specialize (Hn FPlaylist)|specialize (Hn FWatched)|specialize (Hn FSeriesPref)
    |specialize (Hn FManualOverride)|specialize (Hn FFileAvail)|specialize (Hn FAniDbMeta)
    |specialize (Hn FSeriesRels)|specialize (Hn FFileCatalog)|specialize (Hn FListEntry)
    |specialize (Hn FListNextEp)|specialize (Hn FPlaybackPos)|specialize (Hn FSavedPos)];
    discriminate Hn.
Qed.
Lemma apply_map_reliable_mop f s m :
  apply_map_reliable s (mop f m) = (apply s (mop f m), advances (mget f s) m).
Proof. by destruct f. Qed.
Lemma apply_for_broadcast_mop f s m dg :
  apply_for_broadcast s (mop f m) dg =
    if dg then apply_if_orderly s (mop f m) else apply_map_reliable s (mop f m).
Proof. by destruct f. Qed.
