(* ===== verification/StateRepr.v ===== *)
(** * What a replica's state means (dessplay-core/src/state.rs)

    The abstract specification of [CrdtState]: a replica that has delivered the
    history [D] (a list of ops, whose order and repetitions do not matter) holds
    exactly the state [srepr D] describes. The file proves that [apply] delivers
    one op, [merge] delivers another replica's history, the mutators issue the
    next op of their actor, the datagram guard keeps histories gap-free, and
    that the history determines the state, clocks and all. *)

From S2P Require Import Prelude Types Lww Vclock CrdtMap Identifier State Fields.

(** ** Histories *)

(** The dot an op spends: on which map, by which actor, with which counter. *)
Definition map_dot {K V} `{Countable K} (m : LwwMapOp K V) : option (Dot ActorId) :=
  match m with MapUp u => Some (up_dot u) | MapRm _ _ => None end.
Definition op_dot (op : CrdtOp) : option (MapField * Dot ActorId) :=
  match op_field_of op with
  | op_is_map f m => pair f <$> map_dot m
  | _ => None
  end.

(** The only ops any code path of the program creates: no [Map::Op::Rm]. *)
Definition is_put (op : CrdtOp) : bool :=
  match op_field_of op with
  | op_is_map f m => match m with MapUp _ => true | MapRm _ _ => false end
  | _ => true
  end.

(** Playback positions travel by datagram only between two reliable ticks, so
    some of their ops reach nobody and the reliable tick is applied over the
    gap; the source leaves this one field out of the state it compares between
    replicas ([view_hash]), and so does the specification. *)
Definition sequenced (f : MapField) : bool := bool_decide (f ≠ FPlaybackPos).

(** No dot is spent on two different ops, counters start at 1 and fit a u64. *)
Definition coherent (D : list CrdtOp) : Prop :=
  (∀ x y f d, sequenced f → x ∈ D → y ∈ D →
     op_dot x = Some (f, d) → op_dot y = Some (f, d) → x = y) ∧
  (∀ x f d, sequenced f → x ∈ D → op_dot x = Some (f, d) → 0 < dot_counter d ≤ u64_max) ∧
  (∀ x, x ∈ D → is_put x = true).

(** With an op, all earlier ops of its actor on the same map are delivered. *)
Definition gap_free (D : list CrdtOp) : Prop :=
  ∀ x f a n k, sequenced f → x ∈ D → op_dot x = Some (f, mkDot a n) → 0 < k ≤ n →
    ∃ y, y ∈ D ∧ op_dot y = Some (f, mkDot a k).

(** The updates of one map in a history. *)
Definition up_of {K V} `{Countable K} (m : LwwMapOp K V) : option (Up K (Lww V) ActorId) :=
  match m with MapUp u => Some u | MapRm _ _ => None end.
Definition ups (f : MapField) (D : list CrdtOp) : list (Up (key_of f) (Lww (val_of f)) ActorId) :=
  omap (λ op, mproj f op ≫= up_of) D.

(** ** The specification *)

Record srepr (D : list CrdtOp) (s : CrdtState) : Prop := {
  sr_map f : sequenced f → repr (ups f D) (mget f s);
  sr_reg r : rget r s = denote (omap (rproj r) D);
  sr_lookup : lookup_requests s = list_to_set (omap proj_lookup D);
  sr_ack : acknowledged_absent s = list_to_set (omap proj_ack D);
  sr_chat : glist_ids (chat s) = list_to_set (omap proj_chat D);
  sr_version : protocol_version s = PROTOCOL_VERSION
}.

(** Equality up to playback positions. *)
Definition strip_positions (s : CrdtState) : CrdtState :=
  with_playback_position s default_value.
Definition same_but_positions (s t : CrdtState) : Prop :=
  strip_positions s = strip_positions t.
Infix "≈" := same_but_positions (at level 70) : dessplay_scope.

#[export] Instance same_but_positions_equiv : Equivalence same_but_positions.
Proof. unfold same_but_positions. split; repeat intro; congruence. Qed.

(** ** Projections of histories *)

Lemma elem_of_ups f D u : u ∈ ups f D ↔ mop f (MapUp u) ∈ D.
Proof.
  unfold ups. rewrite list_elem_of_omap. split.
  - intros (op & Hop & Hu). apply bind_Some in Hu as (m & Hm & Hu).
    apply mproj_Some in Hm as ->. destruct m; simplify_eq/=. done.
  - intros Hu. exists (mop f (MapUp u)). by rewrite mproj_mop.
Qed.

Lemma ups_set_eq f D E : (∀ x, x ∈ D ↔ x ∈ E) → ∀ u, u ∈ ups f D ↔ u ∈ ups f E.
Proof. intros HDE u. by rewrite !elem_of_ups. Qed.

Lemma ups_app f D E : ups f (D ++ E) = ups f D ++ ups f E.
Proof. apply omap_app. Qed.

Lemma op_dot_mop f u : op_dot (mop f (MapUp u)) = Some (f, up_dot u).
Proof. by destruct f. Qed.

Lemma op_dot_Some op f d :
  op_dot op = Some (f, d) → ∃ u, op = mop f (MapUp u) ∧ up_dot u = d.
Proof.
  unfold op_dot. destruct (op_field_of op) as [g m| | | |]; try done.
  destruct m as [|u]; simpl; [done|]. intros [= <- <-]. by exists u.
Qed.

Lemma mop_put f m : is_put (mop f m) = true → ∃ u, m = MapUp u.
Proof. destruct m as [|u]; [by destruct f|]. by exists u. Qed.

Lemma coherent_subset D E : (∀ x, x ∈ E → x ∈ D) → coherent D → coherent E.
Proof. intros Hsub (H1 & H2 & H3). split; [|split]; naive_solver. Qed.

Lemma gap_free_set_eq D E : (∀ x, x ∈ D ↔ x ∈ E) → gap_free D → gap_free E.
Proof.
  intros HDE Hg x f a n k Hf Hx Hd Hk. apply HDE in Hx.
  destruct (Hg x f a n k Hf Hx Hd Hk) as (y & Hy & ?). exists y. by rewrite <-HDE.
Qed.

Lemma gap_free_app D E : gap_free D → gap_free E → gap_free (D ++ E).
Proof.
  intros HD HE x f a n k Hf [Hx|Hx]%elem_of_app Hd Hk;
    [destruct (HD x f a n k Hf Hx Hd Hk) as (y & ? & ?)
    |destruct (HE x f a n k Hf Hx Hd Hk) as (y & ? & ?)];
    exists y; (split; [apply elem_of_app; auto|done]).
Qed.

Lemma coherent_dots f D :
  sequenced f → coherent D → dots_unique (ups f D) ∧ dots_pos (ups f D).
Proof.
  intros Hf (Huniq & Hpos & _). split.
  - intros u v Hu%elem_of_ups Hv%elem_of_ups Hd.
    assert (mop f (MapUp u) = mop f (MapUp v)) as Heq.
    { eapply Huniq; [done..|apply op_dot_mop|rewrite Hd; apply op_dot_mop]. }
    apply mop_inj in Heq. by simplify_eq.
  - intros u Hu%elem_of_ups. eapply Hpos; [done..|apply op_dot_mop].
Qed.

Lemma gap_free_fifo f D : sequenced f → gap_free D → fifo_closed (ups f D).
Proof.
  intros Hf Hg u n Hu%elem_of_ups Hn.
  destruct (Hg (mop f (MapUp u)) f (dot_actor (up_dot u)) (dot_counter (up_dot u)) n)
    as (y & Hy & Hd); [done|done| |done|].
  { rewrite op_dot_mop. by destruct (up_dot u). }
  apply op_dot_Some in Hd as (v & -> & Hv). exists v. by rewrite elem_of_ups.
Qed.

Lemma omap_set_eq {A B} (g : A → option B) (D E : list A) :
  (∀ x, x ∈ D ↔ x ∈ E) → ∀ y, y ∈ omap g D ↔ y ∈ omap g E.
Proof. intros HDE y. rewrite !list_elem_of_omap. by setoid_rewrite HDE. Qed.

(** ** The state refines its history *)

Lemma srepr_new : srepr [] new_state.
Proof.
  split; try done; intros.
  - rewrite mget_new. apply repr_empty.
  - by rewrite rget_new.
Qed.

Lemma srepr_set_eq D E s : (∀ x, x ∈ D ↔ x ∈ E) → srepr D s → srepr E s.
Proof.
  intros HDE []. split; try done.
  - intros f Hf. apply (repr_set_eq (ups f D)); [by apply ups_set_eq|by apply sr_map0].
  - intros r. rewrite sr_reg0. apply (denote_set_eq (C:=VClock ActorId)).
    by apply omap_set_eq.
  - rewrite sr_lookup0. apply set_eq. intros x. rewrite !elem_of_list_to_set.
    by apply omap_set_eq.
  - rewrite sr_ack0. apply set_eq. intros x. rewrite !elem_of_list_to_set.
    by apply omap_set_eq.
  - rewrite sr_chat0. apply set_eq. intros x. rewrite !elem_of_list_to_set.
    by apply omap_set_eq.
Qed.

Lemma same_but_positions_ext s t :
  (∀ f, sequenced f → mget f s = mget f t) → (∀ r, rget r s = rget r t) →
  lookup_requests s = lookup_requests t → acknowledged_absent s = acknowledged_absent t →
  glist_ids (chat s) = glist_ids (chat t) → protocol_version s = protocol_version t →
  s ≈ t.
Proof.
  intros Hm Hr Hl Ha Hc Hp. apply state_ext; [|intros []|done..].
  - intros f. destruct (decide (f = FPlaybackPos)) as [->|Hf]; [done|].
    specialize (Hm f). destruct f; try done; by apply Hm.
  - exact (Hr RNowPlaying).
  - exact (Hr RSeekAuth).
  - exact (Hr RPlaybackInt).
  - exact (Hr RMarquee).
Qed.

(** The delivered set determines every field, the causal bookkeeping included. *)
Lemma srepr_fun D E s t : (∀ x, x ∈ D ↔ x ∈ E) → srepr D s → srepr E t → s ≈ t.
Proof.
  intros HDE Hs Ht. apply (srepr_set_eq D E) in Hs; [|done]. destruct Hs, Ht.
  apply same_but_positions_ext; intros; try congruence.
  apply (repr_fun (ups f E) (ups f E)); auto.
Qed.

Lemma srepr_apply D s op :
  coherent (op :: D) → gap_free D → srepr D s → srepr (op :: D) (apply s op).
Proof.
  intros Hc Hg []. split; simpl.
  - intros f Hf. rewrite mget_apply. unfold ups; simpl.
    destruct (mproj f op) as [m|] eqn:Hm; simpl; [|by apply sr_map0].
    apply mproj_Some in Hm as ->.
    destruct (mop_put f m) as [u ->]; [apply Hc; left|]. simpl.
    destruct (coherent_dots f _ Hf Hc) as [Hu Hp]. unfold ups in Hu, Hp; simpl in Hu, Hp.
    rewrite mproj_mop in Hu, Hp.
    apply repr_apply; [done|done|by apply (gap_free_fifo f)|by apply sr_map0].
  - intros r. rewrite rget_apply, sr_reg0. destruct (rproj r op) as [w|]; [|done].
    apply lww_denote_snoc.
  - rewrite lookup_requests_apply, sr_lookup0. by destruct (proj_lookup op).
  - rewrite acknowledged_absent_apply, sr_ack0. by destruct (proj_ack op).
  - rewrite chat_ids_apply, sr_chat0. by destruct (proj_chat op).
  - by rewrite protocol_version_apply.
Qed.

Lemma srepr_merge D E s t :
  coherent (D ++ E) → gap_free D → gap_free E →
  srepr D s → srepr E t → srepr (D ++ E) (merge s t).
Proof.
  intros Hc HD HE Hs Ht. destruct Hs, Ht. split; simpl.
  - intros f Hf. rewrite mget_merge, ups_app. destruct (coherent_dots f _ Hf Hc) as [Hu Hp].
    rewrite ups_app in Hu, Hp. apply repr_merge; auto using gap_free_fifo.
  - intros r. rewrite rget_merge, sr_reg0, sr_reg1, omap_app.
    apply lww_denote_app.
  - rewrite gset_merge_union, sr_lookup0, sr_lookup1, omap_app. by rewrite list_to_set_app_L.
  - rewrite gset_merge_union, sr_ack0, sr_ack1, omap_app. by rewrite list_to_set_app_L.
  - rewrite gset_merge_union, sr_chat0, sr_chat1, omap_app. by rewrite list_to_set_app_L.
  - by rewrite sr_version0, sr_version1.
Qed.

(** ** Local writes *)

(** The mutators of [CrdtState], as data. *)
Inductive LocalWrite :=
| WPlaylistEntry (hash : Ed2kHash) (entry : PlaylistFileState)
| WRemovePlaylistEntry (hash : Ed2kHash)
| WWatched (hash : Ed2kHash) (w : bool)
| WNowPlaying (file : option Ed2kHash)
| WSeekAuthority (authority : SeekAuthority)
| WPlaybackIntent (intent : PlaybackIntent)
| WSeriesPreference (user : UserId) (entry : ListEntryId) (pref : SeriesWatchState)
    (set_by : option UserId)
| WManualOverride (user : UserId) (state : option ManualState)
| WFileAvailability (user : UserId) (file : Ed2kHash) (availability : FileAvailability)
| WAniDbMetadata (hash : Ed2kHash) (metadata : option AniDbMetadata)
| WSeriesRelations (series : AniDbSeriesId) (rels : SeriesRelations)
| WFileCatalog (hash : Ed2kHash) (entry : FileCatalogEntry)
| WListEntry (id : ListEntryId) (entry : SeriesListEntry)
| WNextEp (id : ListEntryId) (next : NextEpState)
| WLookup (info : FileHashInfo)
| WAcknowledgeAbsent (file : Ed2kHash) (user : UserId)
| WMarquee (message : option MarqueeMessage)
| WChat (message : ChatMessage)
| WPlaybackPosition (user : UserId) (pos : PlaybackPosition)
| WSavedPosition (file : Ed2kHash) (millis : Z).

Definition run_write (w : LocalWrite) (a : ActorId) (ts : SharedTimestamp) (s : CrdtState)
    : CrdtState * CrdtOp :=
  match w with
  | WPlaylistEntry h e => set_playlist_entry s a ts h e
  | WRemovePlaylistEntry h => remove_playlist_entry s a ts h
  | WWatched h b => set_watched s a ts h b
  | WNowPlaying f => set_now_playing s a ts f
  | WSeekAuthority x => set_seek_authority s a ts x
  | WPlaybackIntent x => set_playback_intent s a ts x
  | WSeriesPreference u e p b => set_series_preference s a ts u e p b
  | WManualOverride u x => set_manual_override s a ts u x
  | WFileAvailability u f x => set_file_availability s a ts u f x
  | WAniDbMetadata h m => set_anidb_metadata s a ts h m
  | WSeriesRelations i r => set_series_relations s a ts i r
  | WFileCatalog h e => set_file_catalog s a ts h e
  | WListEntry i e => put_list_entry s a ts i e
  | WNextEp i n => set_next_ep s a ts i n
  | WLookup x => request_lookup s x
  | WAcknowledgeAbsent f u => acknowledge_absent s f u
  | WMarquee m => set_marquee s a ts m
  | WChat m => append_chat s m
  | WPlaybackPosition u p => set_playback_position s a ts u p
  | WSavedPosition f m => set_saved_position s a ts f m
  end.

(** A mutator applies the op it returns, that op is never a removal, and on a
    map it spends the actor's next dot. *)
Lemma run_write_spec w a ts s s' op :
  run_write w a ts s = (s', op) →
  s' = apply s op ∧ is_put op = true ∧
  ∀ f d, op_dot op = Some (f, d) → d = vinc (map_clock (mget f s)) a.
Proof.
  destruct w; simpl; intros [= <- <-]; (split; [done|split; [done|]]);
    intros f d; unfold op_dot; simpl; intros [= <- <-]; done.
Qed.

Lemma run_write_ts w a ts s t : op_lww_timestamp (run_write w a ts s).2 = Some t → t = ts.
Proof. destruct w; simpl; by intros [= <-]. Qed.

(** Chat identifiers stay non-empty. *)
Definition chat_op_ok (op : CrdtOp) : Prop :=
  match op with OpChat (GListInsert i) => id_ok i | _ => True end.

Lemma run_write_chat_ok w a ts s s' op :
  glist_ok (chat s) → run_write w a ts s = (s', op) → chat_op_ok op.
Proof.
  intros Hok. destruct w; simpl; intros [= <- <-]; simpl; try done.
  by destruct (append_id_spec (chat s) message Hok) as (? & _).
Qed.

(** ** Keeping histories gap-free *)

(** The op does not skip over an undelivered predecessor of its actor. *)
Definition in_order (s : CrdtState) (op : CrdtOp) : bool :=
  match op_field_of op with
  | op_is_map f (MapUp u) =>
      negb (sequenced f) ||
      (dot_counter (up_dot u) <=? vget (map_clock (mget f s)) (dot_actor (up_dot u)) + 1)
  | _ => true
  end.

Lemma in_order_mop s f u :
  in_order s (mop f (MapUp u)) =
    negb (sequenced f) ||
    (dot_counter (up_dot u) <=? vget (map_clock (mget f s)) (dot_actor (up_dot u)) + 1).
Proof. by destruct f. Qed.

Lemma in_order_dot s op f d :
  in_order s op = true → op_dot op = Some (f, d) → sequenced f →
  dot_counter d ≤ vget (map_clock (mget f s)) (dot_actor d) + 1.
Proof.
  intros Ho Hd Hf. apply op_dot_Some in Hd as (u & -> & <-).
  rewrite in_order_mop in Ho. destruct (sequenced f); [|done]. simpl in Ho. lia.
Qed.

(** A dot at or below a replica's clock has been delivered to it. *)
Lemma clock_delivered D s f a n :
  sequenced f → gap_free D → srepr D s → 0 < n ≤ vget (map_clock (mget f s)) a →
  ∃ y, y ∈ D ∧ op_dot y = Some (f, mkDot a n).
Proof.
  intros Hf Hg Hs Hn. destruct (sr_map D s Hs f Hf) as (_ & _ & Hc & _).
  destruct (fifo_delivered (ups f D) a n) as (v & Hv & Hd).
  - by apply gap_free_fifo.
  - by rewrite <-Hc.
  - exists (mop f (MapUp v)). by rewrite <-elem_of_ups, op_dot_mop, Hd.
Qed.

Lemma gap_free_cons D s op :
  gap_free D → srepr D s → in_order s op = true → gap_free (op :: D).
Proof.
  intros Hg Hs Ho x f a n k Hf Hx Hd Hk. apply elem_of_cons in Hx as [->|Hx].
  - pose proof (in_order_dot _ _ _ _ Ho Hd Hf) as Hn; simpl in Hn.
    destruct (Z.eq_dec k n) as [->|Hne]; [by exists op; split; [left|]|].
    destruct (clock_delivered D s f a k) as (y & Hy & Hyd); [done..|lia|].
    exists y. split; [by right|done].
  - destruct (Hg x f a n k Hf Hx Hd Hk) as (y & Hy & Hyd). exists y. split; [by right|done].
Qed.

(** The guard of the datagram path implies it: what [apply_if_orderly] applies
    is in order, and what it refuses leaves the state alone. *)
Lemma apply_if_orderly_cases s op :
  apply_if_orderly s op = (apply s op, true) ∨ apply_if_orderly s op = (s, false).
Proof.
  destruct (op_field_of op) as [f m|r w| | |]; [|left; by destruct r|by left..].
  rewrite apply_if_orderly_mop. case_match; auto.
Qed.

Lemma u64_wrap_le x : 0 ≤ x → u64_wrap x ≤ x.
Proof. intros Hx. apply Z.mod_le; [done|]. unfold u64_modulus. lia. Qed.

Lemma apply_if_orderly_in_order D s op :
  srepr D s → (apply_if_orderly s op).2 = true → in_order s op = true.
Proof.
  intros Hs. destruct (op_field_of op) as [f m|r w| | |]; [|by destruct r|done..].
  rewrite apply_if_orderly_mop. destruct (next_in_sequence (mget f s) m) eqn:Hn; [|done].
  intros _. destruct m as [|u]; [done|]. rewrite in_order_mop.
  destruct (sequenced f) eqn:Hf; [simpl|done]. simpl in Hn. apply Z.eqb_eq in Hn.
  apply Z.leb_le. rewrite <-Hn. apply u64_wrap_le.
  destruct (sr_map D s Hs f) as (_ & Hok & _ & _); [by rewrite Hf|].
  pose proof (vget_nonneg _ (dot_actor (up_dot u)) Hok). lia.
Qed.
