(* ===== verification/Convergence.v ===== *)
(** * Convergence of the replicas (dessplay-core/src/state.rs)

    The replicas of one epoch as a transition system: every session is a
    replica with its own actor id, the network may lose, duplicate and reorder
    datagrams and hold messages arbitrarily long, snapshots taken at any time
    may be merged or adopted at any later time. The reliable control stream
    contributes the one guarantee the code relies on, per-origin order: an op is
    delivered on it only when the actor's earlier ops on that map have been.

    The invariant is proved by induction on the steps; strong eventual
    consistency, the absence of double fan-out and the merge laws follow from
    it. *)

From stdpp Require Import functions.
From S2P Require Import Prelude Types Lww Vclock CrdtMap Identifier State Fields StateRepr.

(** ** The system *)

(** A replica: its state and the history it has delivered. The history is a
    ghost: no step reads it. *)
Record Node := mkNode { node_state : CrdtState; node_hist : list CrdtOp }.

Definition fresh_node : Node := mkNode new_state [].
Definition deliver (n : Node) (op : CrdtOp) : Node :=
  mkNode (apply (node_state n) op) (op :: node_hist n).
Definition deliver_datagram (n : Node) (op : CrdtOp) : Node :=
  let '(s, applied) := apply_if_orderly (node_state n) op in
  mkNode s (if applied then op :: node_hist n else node_hist n).
Definition deliver_merge (n m : Node) : Node :=
  mkNode (merge (node_state n) (node_state m)) (node_hist n ++ node_hist m).

Record Net := mkNet {
  nodes : ActorId → Node;
  issued : list CrdtOp;      (* every op ever broadcast *)
  snapshots : list Node      (* every snapshot ever taken *)
}.
Definition init_net : Net := mkNet (λ _, fresh_node) [] [].
Definition set_node (net : Net) (a : ActorId) (n : Node) : Net :=
  mkNet (<[a := n]> (nodes net)) (issued net) (snapshots net).

(** Replaying buffered ops over an adopted snapshot, in order. *)
Inductive replay : Node → list CrdtOp → Node → Prop :=
| replay_nil n : replay n [] n
| replay_cons n op buf n' :
    in_order (node_state n) op = true → replay (deliver n op) buf n' →
    replay n (op :: buf) n'.

(** The clocks of [n] cover every op that [a] has issued. *)
Definition own_ops_covered (net : Net) (a : ActorId) (n : Node) : Prop :=
  ∀ op f c, op ∈ issued net → op_dot op = Some (f, mkDot a c) → sequenced f →
    c ≤ vget (map_clock (mget f (node_state n))) a.

Inductive step : Net → Net → Prop :=
(** A mutator runs on [a]; its op is broadcast. Counters are 64-bit. *)
| step_write net a w ts s' op :
    run_write w a ts (node_state (nodes net a)) = (s', op) →
    (∀ f, vget (map_clock (mget f (node_state (nodes net a)))) a < u64_max) →
    step net (mkNet (<[a := mkNode s' (op :: node_hist (nodes net a))]> (nodes net))
                (op :: issued net) (snapshots net))
(** Any broadcast op arrives at [a] by datagram, at any time. *)
| step_datagram net a op :
    op ∈ issued net → step net (set_node net a (deliver_datagram (nodes net a) op))
(** An op arrives on the reliable stream, in per-origin order. *)
| step_reliable net a op :
    op ∈ issued net → in_order (node_state (nodes net a)) op = true →
    step net (set_node net a (deliver (nodes net a) op))
(** A state is sent as a snapshot or saved to disk. *)
| step_snapshot net a :
    step net (mkNet (nodes net) (issued net) (nodes net a :: snapshots net))
(** A snapshot is merged. *)
| step_merge net a n :
    n ∈ snapshots net → step net (set_node net a (deliver_merge (nodes net a) n))
(** A snapshot is adopted wholesale and the buffered ops are replayed; what the replica
    has issued itself is covered afterwards. *)
| step_adopt net a n buf n' :
    n ∈ snapshots net → (∀ op, op ∈ buf → op ∈ issued net) → replay n buf n' →
    own_ops_covered net a n' → step net (set_node net a n').

Inductive reachable : Net → Prop :=
| reachable_init : reachable init_net
| reachable_step net net' : reachable net → step net net' → reachable net'.

(** ** The invariant *)

Record node_ok (U : list CrdtOp) (n : Node) : Prop := {
  no_known op : op ∈ node_hist n → op ∈ U;
  no_gap_free : gap_free (node_hist n);
  no_repr : srepr (node_hist n) (node_state n)
}.

Record net_ok (net : Net) : Prop := {
  ok_coherent : coherent (issued net);
  ok_chat op : op ∈ issued net → chat_op_ok op;
  ok_nodes a : node_ok (issued net) (nodes net a);
  ok_own a : own_ops_covered net a (nodes net a);
  ok_snapshots n : n ∈ snapshots net → node_ok (issued net) n
}.

Lemma node_ok_mono U V n : (∀ op, op ∈ U → op ∈ V) → node_ok U n → node_ok V n.
Proof. intros Hsub []. split; auto. Qed.

Lemma node_ok_fresh U : node_ok U fresh_node.
Proof.
  split; simpl; [set_solver| |apply srepr_new].
  intros x f a n k _ Hx. by apply not_elem_of_nil in Hx.
Qed.

Lemma node_ok_deliver U n op :
  coherent U → op ∈ U → in_order (node_state n) op = true →
  node_ok U n → node_ok U (deliver n op).
Proof.
  intros Hc Hop Ho []. split; simpl.
  - intros x [->|Hx]%elem_of_cons; auto.
  - by eapply gap_free_cons.
  - apply srepr_apply; [|done..]. apply (coherent_subset U); [|done].
    intros x [->|Hx]%elem_of_cons; auto.
Qed.

Lemma node_ok_datagram U n op :
  coherent U → op ∈ U → node_ok U n → node_ok U (deliver_datagram n op).
Proof.
  intros Hc Hop Hn. unfold deliver_datagram.
  destruct (apply_if_orderly_cases (node_state n) op) as [E|E]; rewrite E.
  - apply node_ok_deliver; try done. eapply apply_if_orderly_in_order; [apply Hn|].
    by rewrite E.
  - by destruct n.
Qed.

Lemma node_ok_merge U n m :
  coherent U → node_ok U n → node_ok U m → node_ok U (deliver_merge n m).
Proof.
  intros Hc [Hk1 Hg1 Hr1] [Hk2 Hg2 Hr2]. split; simpl.
  - intros x [?|?]%elem_of_app; auto.
  - by apply gap_free_app.
  - apply srepr_merge; try done. apply (coherent_subset U); [|done].
    intros x [?|?]%elem_of_app; auto.
Qed.

Lemma node_ok_replay U n buf n' :
  coherent U → (∀ op, op ∈ buf → op ∈ U) → replay n buf n' → node_ok U n → node_ok U n'.
Proof.
  intros Hc. induction 2 as [|n op buf n' Ho Hr IH]; [done|]. intros Hn.
  apply IH; [set_solver|]. apply node_ok_deliver; [done|set_solver|done..].
Qed.

(** Clocks only grow along a delivery. *)
Lemma clock_of D s f a :
  sequenced f → srepr D s → vget (map_clock (mget f s)) a = max_counter (ups f D) a.
Proof. intros Hf Hs. by destruct (sr_map D s Hs f Hf) as (_ & _ & Hc & _). Qed.

Lemma covered_mono net a n n' U :
  node_ok U n → node_ok U n' → (∀ op, op ∈ node_hist n → op ∈ node_hist n') →
  own_ops_covered net a n → own_ops_covered net a n'.
Proof.
  intros Hn Hn' Hsub Hc op f c Hop Hd Hf. specialize (Hc op f c Hop Hd Hf).
  rewrite (clock_of (node_hist n)) in Hc by (done || apply Hn).
  rewrite (clock_of (node_hist n')) by (done || apply Hn').
  etrans; [done|]. apply max_counter_mono. intros u. rewrite !elem_of_ups. apply Hsub.
Qed.

(** The op a write issues continues its actor's sequence and is new. *)
Lemma write_dot_fresh net a w ts s' op f d :
  net_ok net →
  run_write w a ts (node_state (nodes net a)) = (s', op) →
  (∀ f, vget (map_clock (mget f (node_state (nodes net a)))) a < u64_max) →
  sequenced f → op_dot op = Some (f, d) →
  let c := vget (map_clock (mget f (node_state (nodes net a)))) a in
  d = mkDot a (c + 1) ∧ 0 ≤ c < u64_max ∧
  ∀ x n, x ∈ issued net → op_dot x = Some (f, mkDot a n) → n ≤ c.
Proof.
  intros Hnet Hw Hmax Hf Hd. apply run_write_spec in Hw as (_ & _ & Hv).
  apply Hv in Hd as ->. destruct (ok_nodes _ Hnet a) as [_ _ Hr].
  destruct (sr_map _ _ Hr f Hf) as (_ & Hok & _ & _). specialize (Hmax f).
  pose proof (vget_nonneg _ a Hok). unfold vinc, vdot, dot_inc, u64_wrap; simpl.
  rewrite Z.mod_small by (unfold u64_max in *; lia). split; [done|]. split; [done|].
  intros x n Hx Hd. by eapply (ok_own _ Hnet a).
Qed.

Lemma coherent_cons U op :
  coherent U → is_put op = true →
  (∀ f d, sequenced f → op_dot op = Some (f, d) →
     0 < dot_counter d ≤ u64_max ∧ ∀ x, x ∈ U → op_dot x ≠ Some (f, d)) →
  coherent (op :: U).
Proof.
  intros (Hu & Hp & Hput) Hop Hnew. split; [|split].
  - intros x y f d Hf [->|Hx]%elem_of_cons [->|Hy]%elem_of_cons Hdx Hdy; eauto.
    + by destruct (Hnew f d Hf Hdx) as [_ Hn]; destruct (Hn y).
    + by destruct (Hnew f d Hf Hdy) as [_ Hn]; destruct (Hn x).
  - intros x f d Hf [->|Hx]%elem_of_cons Hd; [by apply (Hnew f)|by eapply Hp].
  - intros x [->|Hx]%elem_of_cons; auto.
Qed.

Lemma write_coherent net a w ts s' op :
  net_ok net →
  run_write w a ts (node_state (nodes net a)) = (s', op) →
  (∀ f, vget (map_clock (mget f (node_state (nodes net a)))) a < u64_max) →
  coherent (op :: issued net).
Proof.
  intros Hnet Hw Hmax. apply coherent_cons; [apply Hnet|by eapply run_write_spec|].
  intros f d Hf Hd. destruct (write_dot_fresh _ _ _ _ _ _ _ _ Hnet Hw Hmax Hf Hd)
    as (-> & Hc & Hnew). simpl. split; [lia|]. intros x Hx Hdx.
  specialize (Hnew x _ Hx Hdx). lia.
Qed.

Lemma write_in_order net a w ts s' op :
  net_ok net →
  run_write w a ts (node_state (nodes net a)) = (s', op) →
  (∀ f, vget (map_clock (mget f (node_state (nodes net a)))) a < u64_max) →
  in_order (node_state (nodes net a)) op = true.
Proof.
  intros Hnet Hw Hmax. pose proof (run_write_spec _ _ _ _ _ _ Hw) as (_ & Hput & _).
  destruct (op_field_of op) as [f m|[] ?| | |] eqn:E; try done.
  apply mop_put in Hput as [u ->]. rewrite in_order_mop.
  destruct (sequenced f) eqn:Hf; [simpl|done].
  destruct (write_dot_fresh _ _ _ _ _ _ f (up_dot u) Hnet Hw Hmax) as (-> & _ & _);
    [by rewrite Hf|apply op_dot_mop|]. simpl. lia.
Qed.

(** Changing one replica keeps the invariant if the replica stays fine. *)
Lemma net_ok_set_node net a n :
  net_ok net → node_ok (issued net) n → own_ops_covered net a n →
  net_ok (set_node net a n).
Proof.
  intros Hnet Hn Hc. destruct Hnet. split; simpl; try done.
  - intros b. destruct (decide (a = b)) as [<-|Hne];
      [by rewrite fn_lookup_insert|by rewrite fn_lookup_insert_ne].
  - intros b. destruct (decide (a = b)) as [<-|Hne]; simpl;
      [by rewrite fn_lookup_insert|rewrite fn_lookup_insert_ne by done; apply ok_own0].
Qed.

Lemma net_ok_grow net a n :
  net_ok net → node_ok (issued net) n →
  (∀ op, op ∈ node_hist (nodes net a) → op ∈ node_hist n) →
  net_ok (set_node net a n).
Proof.
  intros Hnet Hn Hsub. apply net_ok_set_node; try done.
  eapply covered_mono; [apply (ok_nodes _ Hnet a)|done|done|apply (ok_own _ Hnet a)].
Qed.

Lemma glist_ok_of_hist U n :
  (∀ op, op ∈ U → chat_op_ok op) → node_ok U n → glist_ok (chat (node_state n)).
Proof.
  intros HU [Hk _ Hr] i. rewrite (sr_chat _ _ Hr), elem_of_list_to_set, list_elem_of_omap.
  intros (op & Hop & Hi). specialize (HU op (Hk op Hop)).
  by destruct op as [| | | | | | | | | | | | | |[]| | | |]; simplify_eq/=.
Qed.

Lemma net_ok_write net a w ts s' op :
  net_ok net →
  run_write w a ts (node_state (nodes net a)) = (s', op) →
  (∀ f, vget (map_clock (mget f (node_state (nodes net a)))) a < u64_max) →
  net_ok (mkNet (<[a := mkNode s' (op :: node_hist (nodes net a))]> (nodes net))
            (op :: issued net) (snapshots net)).
Proof.
  intros Hnet Hw Hmax. pose proof (write_coherent _ _ _ _ _ _ Hnet Hw Hmax) as Hcoh.
  pose proof (write_in_order _ _ _ _ _ _ Hnet Hw Hmax) as Hord.
  pose proof (run_write_spec _ _ _ _ _ _ Hw) as (-> & _ & Hdot).
  assert (node_ok (op :: issued net) (deliver (nodes net a) op)) as Hnode.
  { apply node_ok_deliver; [done|left|done|].
    apply (node_ok_mono (issued net)); [set_solver|apply Hnet]. }
  split; simpl; [done| | | |].
  - intros x [->|Hx]%elem_of_cons; [|by apply Hnet].
    eapply run_write_chat_ok; [|done]. eapply glist_ok_of_hist; apply Hnet.
  - intros b. destruct (decide (a = b)) as [<-|Hne]; [by rewrite fn_lookup_insert|].
    rewrite fn_lookup_insert_ne by done.
    apply (node_ok_mono (issued net)); [set_solver|apply Hnet].
  - intros b x f c Hx Hd Hf. simpl in Hx.
    assert (∀ y, y ∈ issued net → op_dot y = Some (f, mkDot b c) →
      c ≤ vget (map_clock (mget f (node_state (nodes net b)))) b) as Hold.
    { intros y Hy Hyd. by eapply (ok_own _ Hnet b). }
    destruct (decide (a = b)) as [<-|Hne]; simpl.
    + rewrite fn_lookup_insert. change (apply _ op) with (node_state (deliver (nodes net a) op)).
      rewrite (clock_of (op :: node_hist (nodes net a))) by (done || apply Hnode).
      apply elem_of_cons in Hx as [->|Hx].
      * pose proof Hd as Hd'. apply op_dot_Some in Hd' as (u & -> & Hu).
        etrans; [|apply (max_counter_ub _ u)]; [by rewrite Hu|rewrite elem_of_ups; left|by rewrite Hu].
      * specialize (Hold x Hx Hd).
        rewrite (clock_of (node_hist (nodes net a))) in Hold by (done || apply Hnet).
        etrans; [done|]. apply max_counter_mono. intros u. rewrite !elem_of_ups. by right.
    + rewrite fn_lookup_insert_ne by done. apply elem_of_cons in Hx as [->|Hx]; [|by eauto].
      apply Hdot in Hd. unfold vinc, vdot, dot_inc in Hd. by simplify_eq/=.
  - intros n Hn. apply (node_ok_mono (issued net)); [set_solver|by apply Hnet].
Qed.

Lemma net_ok_step net net' : step net net' → net_ok net → net_ok net'.
Proof.
  destruct 1 as [net a w ts s' op Hw Hmax|net a op Hop|net a op Hop Ho|net a|net a n Hn
                |net a n buf n' Hn Hbuf Hr Hcov]; intros Hnet.
  - by eapply net_ok_write.
  - apply net_ok_grow; [done|apply node_ok_datagram; [apply Hnet|done|apply Hnet]|].
    unfold deliver_datagram.
    destruct (apply_if_orderly_cases (node_state (nodes net a)) op) as [E|E]; rewrite E;
      [by right|done].
  - apply net_ok_grow; [done|apply node_ok_deliver; [apply Hnet|done|done|apply Hnet]|].
    by right.
  - destruct Hnet as [? ? Hnodes ? ?]. split; try done; simpl.
    intros n [->|Hn]%elem_of_cons; auto.
  - apply net_ok_grow; [done|apply node_ok_merge; by apply Hnet|].
    intros op Hop. apply elem_of_app. by left.
  - apply net_ok_set_node; [done| |done].
    eapply node_ok_replay; [apply Hnet|done|done|by apply Hnet].
Qed.

Lemma net_ok_reachable net : reachable net → net_ok net.
Proof.
  induction 1 as [|net net' _ IH Hs]; [|by eapply net_ok_step].
  split; simpl.
  - repeat split; intros; exfalso; by eapply not_elem_of_nil.
  - set_solver.
  - intros a. apply node_ok_fresh.
  - intros a op f c Hop. by apply not_elem_of_nil in Hop.
  - set_solver.
Qed.

(** ** Fan-out decisions *)

Lemma gset_insert_elem `{Countable T} (s : gset T) x : x ∈ s → gset_insert s x = s.
Proof. unfold gset_insert. set_solver. Qed.

Lemma with_same s :
  with_now_playing s (now_playing s) = s ∧ with_seek_authority s (seek_authority s) = s ∧
  with_playback_intent s (playback_intent s) = s ∧ with_marquee s (marquee s) = s ∧
  with_lookup_requests s (lookup_requests s) = s ∧
  with_acknowledged_absent s (acknowledged_absent s) = s ∧ with_chat s (chat s) = s.
Proof. by destruct s. Qed.

Lemma glist_apply_elem `{Countable T} (l : GList T) i :
  i ∈ glist_ids l → glist_apply l (GListInsert i) = l.
Proof. intros Hi. destruct l; simpl in *. by rewrite gset_insert_elem. Qed.

(** The state [apply_for_broadcast] leaves is the plain [apply] on the reliable
    path and the guarded one on the datagram path. *)
Lemma apply_for_broadcast_state s op (dg : bool) :
  (apply_for_broadcast s op dg).1 = if dg then (apply_if_orderly s op).1 else apply s op.
Proof.
  destruct (with_same s) as (_ & _ & _ & _ & Hl & Ha & _).
  destruct (op_field_of op) as [f m|[] w|x|x|i].
  - rewrite apply_for_broadcast_mop. destruct dg; [done|]. by rewrite apply_map_reliable_mop.
  - by destruct dg.
  - by destruct dg.
  - by destruct dg.
  - by destruct dg.
  - simpl in *. unfold gset_changed, gset_contains. case_bool_decide; simpl.
    + rewrite gset_insert_elem, ?Hl, ?Ha by done. by destruct dg.
    + by destruct dg.
  - simpl in *. unfold gset_changed, gset_contains. case_bool_decide; simpl.
    + rewrite gset_insert_elem, ?Hl, ?Ha by done. by destruct dg.
    + by destruct dg.
  - by destruct dg.
Qed.

Lemma register_unchanged `{LawfulOrd V, EqDecision V} (c : LwwCell V) w :
  lww_apply c w = c → register_changed c w = (c, false).
Proof. intros Hc. unfold register_changed. rewrite Hc. rewrite bool_decide_eq_false_2; [done|by intros []]. Qed.

Lemma denote_absorb `{LawfulOrd V} (l : list (Lww V)) w :
  w ∈ l → lww_apply (denote l) w = denote l.
Proof. intros Hw. rewrite lww_denote_snoc. apply (denote_set_eq (C:=unit)). set_solver. Qed.

Lemma apply_for_broadcast_rop s r w (dg : bool) :
  apply_for_broadcast s (rop r w) dg =
    (apply s (rop r w), (register_changed (rget r s) w).2).
Proof. by destruct r. Qed.

Lemma apply_rop_noop s r w : lww_apply (rget r s) w = rget r s → apply s (rop r w) = s.
Proof.
  intros Hw. apply state_ext; try (by destruct r); intros q.
  - rewrite mget_apply. by destruct q, r.
  - rewrite rget_apply. destruct (decide (q = r)) as [->|Hne];
      [by rewrite rproj_rop|by rewrite rproj_ne].
Qed.

Lemma apply_mop_noop s f m : map_apply (mget f s) m = mget f s → apply s (mop f m) = s.
Proof.
  intros Hw. apply state_ext; try (by destruct f); intros q.
  - rewrite mget_apply. destruct (decide (q = f)) as [->|Hne];
      [by rewrite mproj_mop|by rewrite mproj_ne].
  - rewrite rget_apply. by destruct q, f.
Qed.

Lemma reg_no_fanout s r w (dg : bool) :
  lww_apply (rget r s) w = rget r s → apply_for_broadcast s (rop r w) dg = (s, false).
Proof.
  intros Hw. rewrite apply_for_broadcast_rop, apply_rop_noop by done.
  by rewrite register_unchanged.
Qed.

Lemma map_no_fanout s f u (dg : bool) :
  dot_counter (up_dot u) ≤ vget (map_clock (mget f s)) (dot_actor (up_dot u)) ≤ u64_max →
  0 < dot_counter (up_dot u) →
  apply_for_broadcast s (mop f (MapUp u)) dg = (s, false).
Proof.
  intros Hle Hc. rewrite apply_for_broadcast_mop. destruct dg.
  - rewrite apply_if_orderly_mop; simpl. rewrite (proj2 (Z.eqb_neq _ _)); [done|].
    unfold u64_wrap. intros Heq.
    destruct (Z.le_gt_cases (vget (map_clock (mget f s)) (dot_actor (up_dot u)) + 1) u64_max).
    + rewrite Z.mod_small in Heq by (unfold u64_max in *; lia). lia.
    + assert (vget (map_clock (mget f s)) (dot_actor (up_dot u)) + 1 = u64_modulus) as Hm
        by (unfold u64_max in *; lia).
      rewrite Hm, Z.mod_same in Heq by done. lia.
  - rewrite apply_map_reliable_mop, apply_mop_noop; simpl.
    + by rewrite (proj2 (Z.ltb_ge _ _)) by lia.
    + by rewrite (proj2 (Z.leb_le _ _)) by lia.
Qed.

(** ** Main results *)

Lemma clock_bounded U n f a :
  coherent U → node_ok U n → sequenced f →
  0 ≤ vget (map_clock (mget f (node_state n))) a ≤ u64_max.
Proof.
  intros Hc Hn Hf. rewrite (clock_of (node_hist n)) by (done || apply Hn).
  split; [apply max_counter_nonneg|].
  destruct (Z.le_gt_cases (max_counter (ups f (node_hist n)) a) 0) as [|Hpos];
    [unfold u64_max, u64_modulus; lia|].
  apply max_counter_witness in Hpos as (u & Hu & _ & <-). apply elem_of_ups in Hu.
  destruct Hc as (_ & Hp & _). eapply (Hp (mop f (MapUp u)));
    [done|by apply (no_known _ _ Hn)|apply op_dot_mop].
Qed.

(** A dot a replica has delivered is at or below its clock. *)
Lemma delivered_clock U n f u :
  coherent U → node_ok U n → sequenced f →
  mop f (MapUp u) ∈ node_hist n →
  dot_counter (up_dot u) ≤ vget (map_clock (mget f (node_state n))) (dot_actor (up_dot u)).
Proof.
  intros Hc Hn Hf Hu. rewrite (clock_of (node_hist n)) by (done || apply Hn).
  apply max_counter_ub; [by rewrite elem_of_ups|done].
Qed.

Lemma delivered_no_fanout U n op (dg : bool) :
  coherent U → node_ok U n → op ∈ node_hist n → mproj FPlaybackPos op = None →
  apply_for_broadcast (node_state n) op dg = (node_state n, false).
Proof.
  intros Hc Hn Hop Hpos. pose proof (no_repr _ _ Hn) as Hr.
  destruct (with_same (node_state n)) as (_ & _ & _ & _ & Hl & Ha & Hch).
  destruct (op_field_of op) as [f m|r w|x|x|i].
  - assert (sequenced f) as Hf.
    { apply bool_decide_pack. intros ->. by rewrite mproj_mop in Hpos. }
    destruct (mop_put f m) as [u ->]; [by apply Hc, (no_known _ _ Hn)|].
    apply map_no_fanout.
    + split; [by eapply delivered_clock|by eapply clock_bounded].
    + eapply (proj1 (proj2 Hc)); [done|by apply (no_known _ _ Hn)|apply op_dot_mop].
  - apply reg_no_fanout. rewrite (sr_reg _ _ Hr r). apply denote_absorb.
    apply list_elem_of_omap. exists (rop r w). by rewrite rproj_rop.
  - simpl. unfold gset_changed, gset_contains. rewrite bool_decide_eq_true_2; [by rewrite Hl|].
    rewrite (sr_lookup _ _ Hr), elem_of_list_to_set, list_elem_of_omap. eauto.
  - simpl. unfold gset_changed, gset_contains. rewrite bool_decide_eq_true_2; [by rewrite Ha|].
    rewrite (sr_ack _ _ Hr), elem_of_list_to_set, list_elem_of_omap. eauto.
  - unfold apply_for_broadcast, glist_changed. rewrite glist_apply_elem.
    + rewrite Hch. by rewrite bool_decide_eq_false_2 by (by intros []).
    + rewrite (sr_chat _ _ Hr), elem_of_list_to_set, list_elem_of_omap.
      by exists (OpChat (GListInsert i)).
Qed.

Lemma new_map_op_fanout U n f u (dg : bool) :
  coherent U → node_ok U n → sequenced f →
  mop f (MapUp u) ∈ U → mop f (MapUp u) ∉ node_hist n →
  in_order (node_state n) (mop f (MapUp u)) = true →
  (apply_for_broadcast (node_state n) (mop f (MapUp u)) dg).2 = true.
Proof.
  intros Hc Hn Hf HU Hnew Ho.
  assert (0 < dot_counter (up_dot u) ≤ u64_max) as Hu.
  { eapply (proj1 (proj2 Hc)); [done|done|apply op_dot_mop]. }
  assert (vget (map_clock (mget f (node_state n))) (dot_actor (up_dot u)) <
          dot_counter (up_dot u)) as Hlt.
  { apply Z.nle_gt. intros Hle. destruct (clock_delivered (node_hist n) (node_state n) f
      (dot_actor (up_dot u)) (dot_counter (up_dot u))) as (y & Hy & Hd); [done|apply Hn..|lia|].
    assert (mop f (MapUp u) = y) as <-; [|done].
    destruct Hc as (Huniq & _ & _). eapply Huniq; [done|done|by apply (no_known _ _ Hn)| |done].
    rewrite op_dot_mop. by destruct (up_dot u). }
  pose proof (in_order_dot _ _ _ _ Ho (op_dot_mop f u) Hf).
  pose proof (clock_bounded _ _ f (dot_actor (up_dot u)) Hc Hn Hf).
  rewrite apply_for_broadcast_mop. destruct dg.
  - rewrite apply_if_orderly_mop; simpl.
    replace (dot_counter (up_dot u))
      with (vget (map_clock (mget f (node_state n))) (dot_actor (up_dot u)) + 1) by lia.
    unfold u64_wrap. rewrite Z.mod_small by (unfold u64_max in *; lia).
    by rewrite Z.eqb_refl.
  - rewrite apply_map_reliable_mop; simpl. by apply Z.ltb_lt.
Qed.

(** ** Statements *)

(** C1. Strong eventual consistency: in every reachable configuration, however
    datagrams were lost, duplicated or reordered, whichever snapshots were merged, and
    whichever were adopted by a replica whose own ops they cover, the replayed ones
    included, two replicas that have delivered the same ops hold the same state, causal
    clocks included (playback positions aside). The guard on adoptions
    ([own_ops_covered], in [step_adopt]) holds of the adoption that opens a session, whose
    actor has issued nothing yet, and of a later one once the server has the actor's ops.
    A client that adopts a snapshot with an op of its own still in flight, as the heal of
    a divergence does, does not respect it: it then spends a dot twice, and nothing is
    claimed of such a run ([Findings.mid_session_heal_double_spends]). *)
Theorem strong_eventual_consistency net a b :
  reachable net →
  (∀ op, op ∈ node_hist (nodes net a) ↔ op ∈ node_hist (nodes net b)) →
  node_state (nodes net a) ≈ node_state (nodes net b).
Proof.
  intros Hr Heq. apply net_ok_reachable in Hr.
  eapply srepr_fun; [done|apply (ok_nodes _ Hr a)|apply (ok_nodes _ Hr b)].
Qed.

(** C2. On the states of one system (live replicas or snapshots of any age; adoptions
    cover the adopter's own ops, as in C1) [merge] is commutative, associative and idempotent, although the causal map
    it is built on treats absent entries as removals. *)
Theorem merge_semilattice net n1 n2 n3 :
  reachable net →
  n1 ∈ snapshots net → n2 ∈ snapshots net → n3 ∈ snapshots net →
  let s1 := node_state n1 in let s2 := node_state n2 in let s3 := node_state n3 in
  merge s1 s2 ≈ merge s2 s1 ∧
  merge s1 (merge s2 s3) ≈ merge (merge s1 s2) s3 ∧
  merge s1 s1 ≈ s1.
Proof.
  intros Hr H1 H2 H3. apply net_ok_reachable in Hr. pose proof (ok_coherent _ Hr) as Hc.
  apply (ok_snapshots _ Hr) in H1, H2, H3.
  pose proof (node_ok_merge _ _ _ Hc H1 H2) as H12.
  pose proof (node_ok_merge _ _ _ Hc H2 H1) as H21.
  pose proof (node_ok_merge _ _ _ Hc H2 H3) as H23.
  pose proof (node_ok_merge _ _ _ Hc H1 H1) as H11.
  split; [|split].
  - eapply srepr_fun; [|apply H12|apply H21]. simpl. set_solver.
  - eapply srepr_fun; [|apply (node_ok_merge _ _ _ Hc H1 H23)
                       |apply (node_ok_merge _ _ _ Hc H12 H3)]. simpl. set_solver.
  - eapply srepr_fun; [|apply H11|apply H1]. simpl. set_solver.
Qed.

(** C3. State-based and op-based replication agree: merging a snapshot gives
    the state that delivering the missing ops one by one would have given, in a system
    whose adoptions cover the adopter's own ops, as in C1. *)
Theorem merge_is_delivery net a n buf n' :
  reachable net → n ∈ snapshots net →
  (∀ op, op ∈ buf → op ∈ node_hist n) →
  (∀ op, op ∈ node_hist n → op ∈ buf ∨ op ∈ node_hist (nodes net a)) →
  replay (nodes net a) buf n' →
  node_state n' ≈ merge (node_state (nodes net a)) (node_state n).
Proof.
  intros Hr Hn Hsub Hcov Hrep. apply net_ok_reachable in Hr.
  pose proof (ok_snapshots _ Hr n Hn) as Hnok. pose proof (ok_nodes _ Hr a) as Haok.
  assert (∀ op, op ∈ node_hist n' ↔ op ∈ buf ∨ op ∈ node_hist (nodes net a)) as Hh.
  { clear -Hrep. induction Hrep as [|n op buf n' _ _ IH]; intros x; [set_solver|].
    rewrite IH. simpl. set_solver. }
  eapply srepr_fun; [|eapply node_ok_replay; [apply Hr| |exact Hrep|exact Haok]
                     |eapply node_ok_merge; [apply Hr|exact Haok|exact Hnok]].
  - intros x. rewrite Hh. simpl. set_solver.
  - intros x Hx. by apply (no_known _ _ Hnok), Hsub.
Qed.

(** The server fans an in-order map op out exactly when it is new to it,
    whichever transport the copy came on. *)
Theorem fanout_iff_new net a f u (dg : bool) :
  reachable net → sequenced f → mop f (MapUp u) ∈ issued net →
  in_order (node_state (nodes net a)) (mop f (MapUp u)) = true →
  (apply_for_broadcast (node_state (nodes net a)) (mop f (MapUp u)) dg).2 = true ↔
    mop f (MapUp u) ∉ node_hist (nodes net a).
Proof.
  intros Hr Hf HU Ho. apply net_ok_reachable in Hr. pose proof (ok_nodes _ Hr a) as Hn.
  split; [|by intros Hnew; apply (new_map_op_fanout (issued net)); [apply Hr|..]].
  intros Ht Hd. rewrite (delivered_no_fanout (issued net)) in Ht; try done; [apply Hr|].
  rewrite mproj_ne; [done|]. intros <-. by apply bool_decide_unpack in Hf.
Qed.

(** A second copy of a delivered op, of any kind, on any transport and at
    any later time, changes nothing and is not fanned out again. *)
Theorem second_copy_ignored net a op (dg : bool) :
  reachable net → op ∈ node_hist (nodes net a) → mproj FPlaybackPos op = None →
  apply_for_broadcast (node_state (nodes net a)) op dg = (node_state (nodes net a), false).
Proof.
  intros Hr Hop Hpos. apply net_ok_reachable in Hr.
  by apply (delivered_no_fanout (issued net)); [apply Hr|apply Hr|..].
Qed.

(** ** A concrete run *)

(** Two sessions: [ex_a] marks a file watched, [ex_b] hears of it by datagram
    and both states are saved. *)
Definition ex_a : ActorId := mkActorId 5.
Definition ex_b : ActorId := mkActorId 7.
Definition ex_hash : Ed2kHash := mkEd2kHash [1; 2; 3].
Definition ex_write := run_write (WWatched ex_hash true) ex_a 10 new_state.
Definition ex_net1 : Net :=
  mkNet (<[ex_a := mkNode ex_write.1 [ex_write.2]]> (nodes init_net)) [ex_write.2] [].
Definition ex_net2 : Net := set_node ex_net1 ex_b (deliver_datagram fresh_node ex_write.2).
Definition ex_net3 : Net :=
  mkNet (nodes ex_net2) (issued ex_net2) [nodes ex_net2 ex_b].

Lemma ex_net1_reachable : reachable ex_net1.
Proof.
  eapply reachable_step; [apply reachable_init|].
  apply (step_write init_net ex_a (WWatched ex_hash true) 10); [done|]. by intros [].
Qed.
Lemma ex_net2_reachable : reachable ex_net2.
Proof.
  eapply reachable_step; [apply ex_net1_reachable|].
  apply (step_datagram ex_net1 ex_b ex_write.2). left.
Qed.
Lemma ex_net3_reachable : reachable ex_net3.
Proof.
  eapply reachable_step; [apply ex_net2_reachable|]. apply (step_snapshot ex_net2 ex_b).
Qed.

Lemma strong_eventual_consistency_witness :
  node_hist (nodes ex_net2 ex_b) = [ex_write.2] ∧
  node_state (nodes ex_net2 ex_a) ≈ node_state (nodes ex_net2 ex_b).
Proof.
  split; [vm_compute; reflexivity|].
  apply strong_eventual_consistency; [apply ex_net2_reachable|]. intros op. reflexivity.
Defined.

Lemma merge_semilattice_witness :
  let s := node_state (nodes ex_net2 ex_b) in merge s s ≈ s.
Proof.
  apply (merge_semilattice ex_net3 (nodes ex_net2 ex_b) (nodes ex_net2 ex_b)
    (nodes ex_net2 ex_b)); [apply ex_net3_reachable|left..].
Defined.

Lemma merge_is_delivery_witness :
  node_state (deliver fresh_node ex_write.2) ≈
    merge (node_state fresh_node) (node_state (nodes ex_net2 ex_b)).
Proof.
  apply (merge_is_delivery ex_net3 SERVER (nodes ex_net2 ex_b) [ex_write.2]
    (deliver fresh_node ex_write.2)).
  - apply ex_net3_reachable.
  - left.
  - intros op Hop. exact Hop.
  - intros op Hop. left. exact Hop.
  - apply replay_cons; [vm_compute; reflexivity|apply replay_nil].
Defined.

Lemma fanout_iff_new_witness :
  (apply_for_broadcast new_state ex_write.2 true).2 = true ↔ ex_write.2 ∉ ([] : list CrdtOp).
Proof.
  apply (fanout_iff_new ex_net1 SERVER FWatched
    (mkUp (mkDot ex_a 1) ex_hash (mkLww 10 true)) true).
  - apply ex_net1_reachable.
  - exact I.
  - left.
  - vm_compute. reflexivity.
Defined.

Lemma second_copy_ignored_witness :
  let s := node_state (nodes ex_net2 ex_b) in
  apply_for_broadcast s ex_write.2 false = (s, false).
Proof.
  apply (second_copy_ignored ex_net2 ex_b).
  - apply ex_net2_reachable.
  - left.
  - reflexivity.
Defined.
