(* ===== verification/Resolve.v ===== *)
(** * Resolved values and Lamport stamps (dessplay-core/src/state.rs)

    [map_view], the effect of a write on the resolved values, and the Lamport
    floor [max_lww_timestamp]: a write stamped above the floor of the state it
    is made on wins its register. *)

From S2P Require Import Prelude Types Lww Vclock CrdtMap Identifier State Fields.

(** [map_view]: every entry that has a winner. *)
Definition map_view {K V} `{Countable K, Ord K} (m : LwwMap K V) : gmap K V :=
  list_to_map (omap (λ kc, pair kc.1 <$> resolve_value kc.2) (iter_entries m)).

(** What a write of [actor] stamped [ts] at [key] needs in order to win: room
    for one more dot, no deferred removal, and a stamp above the current one. *)
Definition put_ok {K V} `{Countable K} (m : LwwMap K V) (actor : ActorId)
    (ts : SharedTimestamp) (key : K) : Prop :=
  map_deferred m = ∅ ∧ 0 ≤ vget (map_clock m) actor < u64_max ∧
  ∀ e t, map_entries m !! key = Some e → lww_cell_timestamp (entry_val e) = Some t → t < ts.
Definition reg_ok {V} (c : LwwCell V) (ts : SharedTimestamp) : Prop :=
  ∀ t, lww_cell_timestamp c = Some t → t < ts.

Section resolve.
Context {K V : Type} `{Countable K, OK : !Ord K, !LawfulOrd K, OV : !Ord V, !LawfulOrd V}.
Implicit Types (m : LwwMap K V) (c : LwwCell V).

Lemma elem_of_iter_entries m k c :
  (k, c) ∈ iter_entries m ↔ ∃ e, map_entries m !! k = Some e ∧ entry_val e = c.
Proof.
  unfold iter_entries. rewrite list_elem_of_fmap. split.
  - intros ([k' e] & [= -> ->] & He%elem_of_btree_iter). by exists e.
  - intros (e & He & <-). exists (k, e). by rewrite elem_of_btree_iter.
Qed.

Lemma NoDup_iter_entries m : NoDup (iter_entries m).*1.
Proof.
  unfold iter_entries. rewrite <-list_fmap_compose.
  erewrite list_fmap_ext; [apply (NoDup_btree_iter (map_entries m))|done].
Qed.

Lemma NoDup_omap_fst {A B} (g : A → option B) (l : list (K * A)) :
  NoDup l.*1 → NoDup (omap (λ kc, pair kc.1 <$> g kc.2) l).*1.
Proof.
  induction l as [|[k a] l IH]; simpl; [done|]. intros [Hk Hl]%NoDup_cons.
  destruct (g a); simpl; [|auto]. constructor; [|auto].
  rewrite list_elem_of_fmap. intros ([k' b'] & -> & Hin%list_elem_of_omap).
  destruct Hin as ([j a'] & Hj & Hb). apply fmap_Some in Hb as (? & _ & [= -> ->]).
  apply Hk, list_elem_of_fmap. by exists (j, a').
Qed.

Lemma lookup_map_view m k :
  map_view m !! k = map_entries m !! k ≫= λ e, resolve_value (entry_val e).
Proof.
  apply option_eq. intros v. unfold map_view.
  rewrite <-elem_of_list_to_map by (apply NoDup_omap_fst, NoDup_iter_entries).
  rewrite list_elem_of_omap, bind_Some. split.
  - intros ([k' c] & Hc%elem_of_iter_entries & Hv). simpl in Hv.
    apply fmap_Some in Hv as (w & Hw & [= -> ->]). destruct Hc as (e & He & <-). eauto.
  - intros (e & He & Hv). exists (k, entry_val e). rewrite elem_of_iter_entries. simpl.
    rewrite Hv. eauto.
Qed.

Lemma lww_apply_newer c (w : Lww V) :
  reg_ok c (lww_timestamp w) → lww_apply c w = mkLwwCell (Some w).
Proof.
  unfold reg_ok, lww_apply, lww_cell_timestamp. destruct c as [[[t v]|]]; simpl; [|done].
  intros Hlt. specialize (Hlt t eq_refl).
  assert (mkLww t v ≺ w = true) as ->; [|done]. destruct w as [t' v']; simpl in *.
  apply ord_ltb_lt. unfold cmp, Lww_ord, ord_via, lww_tuple, cmp, prod_ord, then_with; simpl.
  unfold cmp, Z_ord. by rewrite (proj2 (Z.compare_lt_iff _ _)) by lia.
Qed.

Lemma map_put_entries m a ts k (v : V) :
  put_ok m a ts k →
  let m' := (map_put m a ts k v).1 in
  map_deferred m' = ∅ ∧
  map_clock m' = vapply (map_clock m) (mkDot a (vget (map_clock m) a + 1)) ∧
  map_entries m' =
    <[k := mkEntry (vapply (entry_clock (default entry_default (map_entries m !! k)))
                      (mkDot a (vget (map_clock m) a + 1)))
                   (mkLwwCell (Some (mkLww ts v)))]> (map_entries m).
Proof.
  intros (Hd & Hc & Ht). unfold map_put, map_update, derive_add_ctx, vinc, vdot, dot_inc; simpl.
  unfold u64_wrap. rewrite Z.mod_small by (unfold u64_max in *; lia).
  rewrite (proj2 (Z.leb_gt _ _)) by lia. rewrite apply_deferred_empty by done. simpl.
  split; [done|]. split; [done|]. do 2 f_equal. unfold cm_apply, LwwCell_cmrdt.
  rewrite lww_apply_newer; [done|]. unfold reg_ok.
  destruct (map_entries m !! k) as [e|] eqn:E; simpl; [|done].
  intros t Hct. by apply (Ht e).
Qed.

(** A winning write is what the resolved map shows. *)
Lemma map_view_put m a ts k (v : V) :
  put_ok m a ts k → map_view (map_put m a ts k v).1 = <[k := v]> (map_view m).
Proof.
  intros Hok. apply map_eq. intros j. rewrite lookup_map_view.
  destruct (map_put_entries m a ts k v Hok) as (_ & _ & ->).
  destruct (decide (k = j)) as [<-|Hne].
  - by rewrite !lookup_insert_eq.
  - by rewrite !lookup_insert_ne, lookup_map_view by done.
Qed.

Lemma map_put_clock m a ts k (v : V) :
  put_ok m a ts k →
  vget (map_clock (map_put m a ts k v).1) a = vget (map_clock m) a + 1.
Proof.
  intros Hok. destruct (map_put_entries m a ts k v Hok) as (_ & -> & _).
  rewrite vget_vapply; simpl. rewrite decide_True by done. lia.
Qed.

(** ** The Lamport floor *)

Lemma map_max_ub m k e t :
  map_entries m !! k = Some e → lww_cell_timestamp (entry_val e) = Some t →
  t ≤ map_max m.
Proof.
  intros He Ht. apply iter_max_ub, list_elem_of_omap. exists (k, entry_val e).
  rewrite elem_of_iter_entries. eauto.
Qed.
End resolve.

(** Every map of the state stays below the floor, and so does every register. *)
Lemma max_lww_timestamp_map s f : map_max (mget f s) ≤ max_lww_timestamp s.
Proof. apply iter_max_ub. destruct f; set_solver. Qed.

Lemma max_lww_timestamp_reg s r t :
  lww_cell_timestamp (rget r s) = Some t → t ≤ max_lww_timestamp s.
Proof.
  intros Ht. assert (default 0 (lww_cell_timestamp (rget r s)) ≤ max_lww_timestamp s) as Hle.
  { apply iter_max_ub. destruct r; set_solver. }
  by rewrite Ht in Hle.
Qed.

(** A write stamped above the floor satisfies the stamp half of [put_ok]. *)
Lemma floor_put_ok s f a ts k :
  max_lww_timestamp s < ts → map_deferred (mget f s) = ∅ →
  0 ≤ vget (map_clock (mget f s)) a < u64_max → put_ok (mget f s) a ts k.
Proof.
  intros Hts Hd Hc. split; [done|]. split; [done|]. intros e t He Ht.
  pose proof (map_max_ub _ _ _ _ He Ht). pose proof (max_lww_timestamp_map s f). lia.
Qed.
Lemma floor_reg_ok s r ts : max_lww_timestamp s < ts → reg_ok (rget r s) ts.
Proof. intros Hts t Ht. apply max_lww_timestamp_reg in Ht. lia. Qed.

(** A write leaves the other keys writable. *)
Lemma map_put_ok_other {K V} `{Countable K, OK : !Ord K, !LawfulOrd K, OV : !Ord V, !LawfulOrd V}
    (m : LwwMap K V) a ts ts' k j (v : V) :
  put_ok m a ts k → put_ok m a ts' j → k ≠ j → vget (map_clock m) a + 1 < u64_max →
  put_ok (map_put m a ts k v).1 a ts' j.
Proof.
  intros Hk (Hd & Hc & Hj) Hne Hroom. pose proof (map_put_clock m a ts k v Hk) as Hclk.
  destruct (map_put_entries m a ts k v Hk) as (Hd' & _ & He).
  split; [done|]. split; [lia|]. intros e t. rewrite He, lookup_insert_ne by done. apply Hj.
Qed.
