(* ===== verification/Playlist.v ===== *)
(** * Playlist ordering (dessplay-core/src/playlist.rs)

    The playlist is a map from file hash to entry; its display order is the
    order of the entries' dense identifiers, with the hash as tiebreak. Adding
    and moving compute an identifier between the neighbours of the target slot.
    The theorems say that the display order after an add, a push, a move, a
    removal or a rebalance is exactly the list edit the user asked for. *)

From S2P Require Import Prelude Types Lww Vclock CrdtMap Identifier State Fields Resolve.

Record PlaylistEntry := mkPlaylistEntry { pe_hash : Ed2kHash; pe_state : PlaylistFileState }.

Record NewPlaylistEntry := mkNewPlaylistEntry {
  new_hash : Ed2kHash;
  new_added_by : UserId;
  new_filename : string;
  new_size_bytes : Z;
  new_duration_millis : option positive
}.

#[export] Instance PlaylistEntry_eq_dec : EqDecision PlaylistEntry.
Proof. solve_decision. Defined.

(** ** Operations *)

(** [CrdtState::playlist_entries]. *)
Definition entry_cmp (a b : PlaylistEntry) : comparison :=
  then_with (cmp (position (pe_state a)) (position (pe_state b)))
            (cmp (pe_hash a) (pe_hash b)).
Definition playlist_entries (s : CrdtState) : list PlaylistEntry :=
  sort_by entry_cmp
    (omap (λ kc : Ed2kHash * LwwCell (option PlaylistFileState),
             mkPlaylistEntry kc.1 <$> mjoin (resolve_value kc.2))
       (iter_entries (playlist s))).

(** [Iterator::position]. *)
Fixpoint find_index (hash : Ed2kHash) (entries : list PlaylistEntry) : option nat :=
  match entries with
  | [] => None
  | e :: entries =>
      if bool_decide (pe_hash e = hash) then Some 0%nat
      else S <$> find_index hash entries
  end.

(** [CrdtState::position_after]. *)
Definition position_after (s : CrdtState) (anchor : option Ed2kHash) (moving : Ed2kHash)
    (actor : ActorId) : Identifier ActorId :=
  let entries := filter (λ e, pe_hash e ≠ moving) (playlist_entries s) in
  let anchor_index :=
    match anchor with
    | None => None
    | Some hash =>
        match find_index hash entries with
        | Some index => Some index
        | None => match length entries with O => None | S n => Some n end
        end
    end in
  let low := anchor_index ≫= λ i, entries !! i in
  let high := match anchor_index with
              | None => head entries
              | Some i => entries !! S i
              end in
  between (position ∘ pe_state <$> low) (position ∘ pe_state <$> high) actor.

(** [CrdtState::add_playlist_entry_after]. *)
Definition add_playlist_entry_after (s : CrdtState) (actor : ActorId) (ts : SharedTimestamp)
    (anchor : option Ed2kHash) (new : NewPlaylistEntry) : CrdtState * CrdtOp :=
  let entry := mkPlaylistFileState (position_after s anchor (new_hash new) actor)
                 (new_added_by new) (new_filename new) (new_size_bytes new)
                 (new_duration_millis new) in
  set_playlist_entry s actor ts (new_hash new) entry.

(** [CrdtState::push_playlist_entry]. *)
Definition push_playlist_entry (s : CrdtState) (actor : ActorId) (ts : SharedTimestamp)
    (new : NewPlaylistEntry) : CrdtState * CrdtOp :=
  let anchor := pe_hash <$> last (playlist_entries s) in
  add_playlist_entry_after s actor ts anchor new.

(** [state.position = p]. *)
Definition set_position (p : Identifier ActorId) (e : PlaylistFileState) : PlaylistFileState :=
  mkPlaylistFileState p (added_by e) (pfs_filename e) (pfs_size_bytes e)
    (pfs_duration_millis e).

(** [CrdtState::move_playlist_entry_after]: [None] when nothing was done. *)
Definition move_playlist_entry_after (s : CrdtState) (actor : ActorId) (ts : SharedTimestamp)
    (hash : Ed2kHash) (anchor : option Ed2kHash) : option (CrdtState * CrdtOp) :=
  if bool_decide (anchor = Some hash) then None
  else
    entry ← List.find (λ e, bool_decide (pe_hash e = hash)) (playlist_entries s);
    Some (set_playlist_entry s actor ts hash
      (set_position (position_after s anchor hash actor) (pe_state entry))).

(** [CrdtState::rebalance_playlist]. *)
Definition rebalance_step (actor : ActorId) (ts : SharedTimestamp)
    (acc : CrdtState * list CrdtOp * option (Identifier ActorId)) (entry : PlaylistEntry)
    : CrdtState * list CrdtOp * option (Identifier ActorId) :=
  let '(s, ops, prev) := acc in
  let fresh := between prev None actor in
  let '(s, op) := set_playlist_entry s actor ts (pe_hash entry)
                    (set_position fresh (pe_state entry)) in
  (s, ops ++ [op], Some fresh).
Definition rebalance_playlist (s : CrdtState) (actor : ActorId) (ts : SharedTimestamp)
    : CrdtState * list CrdtOp :=
  (foldl (rebalance_step actor ts) (s, [], None) (playlist_entries s)).1.

(** ** The display order *)

Definition entry_key (e : PlaylistEntry) : Identifier ActorId * Ed2kHash :=
  (position (pe_state e), pe_hash e).
Definition entry_le (a b : PlaylistEntry) : Prop := ord_le (entry_key a) (entry_key b).

Lemma elem_of_playlist_entries s e :
  e ∈ playlist_entries s ↔ map_view (playlist s) !! pe_hash e = Some (Some (pe_state e)).
Proof.
  unfold playlist_entries. rewrite elem_of_sort_by, list_elem_of_omap, lookup_map_view, bind_Some.
  split.
  - intros ([h c] & Hc%elem_of_iter_entries & He). destruct Hc as (en & Hen & <-). simpl in He.
    apply fmap_Some in He as (st & Hst & ->). simpl. exists en. split; [done|].
    by destruct (resolve_value (entry_val en)) as [[]|]; simplify_eq/=.
  - intros (en & Hen & Hst). exists (pe_hash e, entry_val en). rewrite elem_of_iter_entries.
    simpl. rewrite Hst. destruct e; simpl in *. eauto.
Qed.

Lemma NoDup_playlist_hashes s : NoDup (pe_hash <$> playlist_entries s).
Proof.
  unfold playlist_entries. rewrite sort_by_perm.
  pose proof (NoDup_iter_entries (playlist s)) as Hnd.
  induction (iter_entries (playlist s)) as [|[h c] l IH]; simpl in *; [constructor|].
  apply NoDup_cons in Hnd as [Hh Hnd]. destruct (mjoin (resolve_value c)); simpl; [|auto].
  constructor; [|auto]. rewrite list_elem_of_fmap. intros (e & -> & He%list_elem_of_omap).
  destruct He as ([h' c'] & Hin & He). apply fmap_Some in He as (? & _ & ->).
  apply Hh, list_elem_of_fmap. by exists (h', c').
Qed.

Lemma sort_by_entry_cmp l :
  sort_by entry_cmp l = sort_by (λ x y, cmp (entry_key x) (entry_key y)) l.
Proof. reflexivity. Qed.

Lemma playlist_entries_sorted s : StronglySorted entry_le (playlist_entries s).
Proof. unfold playlist_entries. rewrite sort_by_entry_cmp. apply (sort_by_key_sorted entry_key). Qed.

(** An ordered list of the right entries is the display order. *)
Lemma playlist_entries_unique s l :
  NoDup (pe_hash <$> l) →
  (∀ e, e ∈ l ↔ map_view (playlist s) !! pe_hash e = Some (Some (pe_state e))) →
  StronglySorted entry_le l → playlist_entries s = l.
Proof.
  intros Hnd Hl Hs. assert (l ≡ₚ playlist_entries s) as Hp.
  { apply NoDup_Permutation; [by eapply NoDup_fmap_1| |].
    - eapply NoDup_fmap_1, NoDup_playlist_hashes.
    - intros e. by rewrite Hl, elem_of_playlist_entries. }
  unfold playlist_entries. rewrite sort_by_entry_cmp. apply (sort_by_key_unique entry_key).
  - intros [h e] [h' e'] Hx Hy [= _ ->]. f_equal.
    assert (mkPlaylistEntry h' e ∈ playlist_entries s) as He
      by (unfold playlist_entries; by rewrite elem_of_sort_by).
    assert (mkPlaylistEntry h' e' ∈ playlist_entries s) as He'
      by (unfold playlist_entries; by rewrite elem_of_sort_by).
    rewrite elem_of_playlist_entries in He, He'. by simplify_eq/=.
  - done.
  - rewrite Hp. apply sort_by_perm.
Qed.

(** ** Editing the order *)

(** The entries other than [hash], in display order. *)
Definition others (hash : Ed2kHash) (s : CrdtState) : list PlaylistEntry :=
  filter (λ e, pe_hash e ≠ hash) (playlist_entries s).

(** Where an entry placed after [anchor] goes. *)
Definition slot (anchor : option Ed2kHash) (entries : list PlaylistEntry) : nat :=
  match anchor with
  | None => 0
  | Some hash => match find_index hash entries with
                 | Some i => S i
                 | None => length entries
                 end
  end.

Lemma StronglySorted_filter {A} (R : A → A → Prop) (P : A → Prop) `{∀ x, Decision (P x)} l :
  StronglySorted R l → StronglySorted R (filter P l).
Proof.
  induction 1 as [|x l Hs IH Hx]; [constructor|]. rewrite filter_cons.
  case_decide; [|done]. constructor; [done|]. rewrite Forall_forall in *. intros y.
  rewrite list_elem_of_filter. naive_solver.
Qed.

Lemma StronglySorted_insert {A} (R : A → A → Prop) `{!Transitive R} (pre post : list A) x :
  StronglySorted R (pre ++ post) →
  (∀ lo, last pre = Some lo → R lo x) → (∀ hi, head post = Some hi → R x hi) →
  StronglySorted R (pre ++ x :: post).
Proof.
  intros Hs Hlo Hhi. induction pre as [|y pre IH]; simpl in *.
  - constructor; [done|]. destruct post as [|z post]; [constructor|].
    apply StronglySorted_inv in Hs as [_ Hz]. constructor; [by apply Hhi|].
    eapply Forall_impl; [done|]. intros w Hw. trans z; [by apply Hhi|done].
  - apply StronglySorted_inv in Hs as [Hs Hy].
    assert (R y x) as Hyx.
    { destruct (last pre) as [lo|] eqn:E.
      - destruct pre as [|p pre]; [done|]. trans lo; [|apply Hlo; by simpl in *].
        rewrite Forall_forall in Hy. apply Hy. apply elem_of_app. left.
        apply last_Some in E as [k ->]. set_solver.
      - apply last_None in E as ->. by apply Hlo. }
    constructor.
    + apply IH; [done|]. intros lo Hl. apply Hlo. destruct pre; done.
    + rewrite Forall_app, Forall_cons in *. naive_solver.
Qed.

#[export] Instance entry_le_trans : Transitive entry_le.
Proof. intros x y z Hxy Hyz. unfold entry_le in *. by trans (entry_key y). Qed.

Lemma entry_le_position a b :
  cmp (position (pe_state a)) (position (pe_state b)) = Lt → entry_le a b.
Proof.
  intros Hlt. unfold entry_le, ord_le, entry_key, cmp, prod_ord, then_with; simpl.
  by rewrite Hlt.
Qed.

(** Writing entry [e] between its neighbours inserts it there. *)
Lemma playlist_entries_place s s' e pre post :
  map_view (playlist s') = <[pe_hash e := Some (pe_state e)]> (map_view (playlist s)) →
  others (pe_hash e) s = pre ++ post →
  (∀ lo, last pre = Some lo → entry_le lo e) → (∀ hi, head post = Some hi → entry_le e hi) →
  playlist_entries s' = pre ++ e :: post.
Proof.
  intros Hs' Ho Hlo Hhi.
  assert (∀ x, x ∈ pre ++ post ↔ x ∈ playlist_entries s ∧ pe_hash x ≠ pe_hash e) as Hin.
  { intros x. rewrite <-Ho. unfold others. rewrite list_elem_of_filter. naive_solver. }
  apply playlist_entries_unique.
  - rewrite fmap_app; simpl. rewrite <-Permutation_middle, <-fmap_app. constructor.
    + rewrite list_elem_of_fmap. intros (x & Hx & [_ Hne]%Hin). by apply Hne.
    + rewrite <-Ho. eapply sublist_NoDup; [apply NoDup_playlist_hashes|].
      apply fmap_sublist, sublist_filter.
  - intros x. rewrite Hs'. destruct (decide (pe_hash x = pe_hash e)) as [Hx|Hx].
    + rewrite <-Hx, lookup_insert_eq. rewrite elem_of_app, elem_of_cons. split.
      * intros [Hp|[->|Hp]]; [|done|]; destruct (proj1 (Hin x)); set_solver.
      * intros [= Heq]. right. left. by destruct x, e; simpl in *; subst.
    + rewrite lookup_insert_ne by done. rewrite <-elem_of_playlist_entries.
      specialize (Hin x). rewrite elem_of_app in Hin. rewrite elem_of_app, elem_of_cons.
      naive_solver.
  - apply StronglySorted_insert; [apply _| |done|done]. rewrite <-Ho.
    apply StronglySorted_filter, playlist_entries_sorted.
Qed.

Definition ids_ok (l : list PlaylistEntry) : Prop :=
  ∀ e, e ∈ l → id_ok (position (pe_state e)).
(** The neighbours of slot [n] have distinct positions. *)
Definition slot_open (n : nat) (l : list PlaylistEntry) : Prop :=
  ∀ lo hi, last (take n l) = Some lo → head (drop n l) = Some hi →
    cmp (position (pe_state lo)) (position (pe_state hi)) = Lt.

Lemma last_take_S {A} (l : list A) i : (i < length l)%nat → last (take (S i) l) = l !! i.
Proof.
  revert i. induction l as [|x l IH]; intros i; simpl; [lia|]. destruct i as [|i]; simpl.
  - done.
  - intros Hi. rewrite <-IH by lia. destruct l as [|y l]; [simpl in *; lia|done].
Qed.

Lemma head_drop {A} (l : list A) i : head (drop i l) = l !! i.
Proof. rewrite head_lookup, lookup_drop. by rewrite Nat.add_0_r. Qed.

Lemma find_index_lt hash l i : find_index hash l = Some i → (i < length l)%nat.
Proof.
  revert i. induction l as [|e l IH]; intros i; simpl; [done|].
  case_bool_decide; [by intros [= <-]; lia|]. intros (j & Hj & ->)%fmap_Some.
  specialize (IH j Hj). lia.
Qed.

(** [position_after] looks at the two neighbours of the slot. *)
Lemma position_after_slot s anchor hash actor :
  let es := others hash s in let n := slot anchor es in
  position_after s anchor hash actor =
    between (position ∘ pe_state <$> last (take n es))
            (position ∘ pe_state <$> head (drop n es)) actor.
Proof.
  unfold position_after, slot, others. simpl.
  set (es := filter _ (playlist_entries s)). destruct anchor as [h|]; [|done].
  destruct (find_index h es) as [i|] eqn:Hi; simpl.
  - apply find_index_lt in Hi. by rewrite last_take_S, head_drop by lia.
  - destruct (length es) as [|n] eqn:Hn; simpl.
    + by rewrite (nil_length_inv es Hn).
    + rewrite last_take_S, head_drop by lia. done.
Qed.

Lemma between_slot l n actor :
  ids_ok l → slot_open n l →
  let p := between (position ∘ pe_state <$> last (take n l))
                   (position ∘ pe_state <$> head (drop n l)) actor in
  (∀ lo, last (take n l) = Some lo → cmp (position (pe_state lo)) p = Lt) ∧
  (∀ hi, head (drop n l) = Some hi → cmp p (position (pe_state hi)) = Lt).
Proof.
  intros Hok Hopen. simpl.
  assert (∀ lo, last (take n l) = Some lo → id_ok (position (pe_state lo))) as Hlo.
  { intros lo [k Hk]%last_Some. apply Hok.
    assert (lo ∈ take n l) as (i & Hi & _)%elem_of_take by (rewrite Hk; set_solver).
    by eapply list_elem_of_lookup_2. }
  assert (∀ hi, head (drop n l) = Some hi → id_ok (position (pe_state hi))) as Hhi.
  { intros hi Hh. apply Hok. rewrite head_drop in Hh. by eapply list_elem_of_lookup_2. }
  destruct (last (take n l)) as [lo|] eqn:Elo, (head (drop n l)) as [hi|] eqn:Ehi; simpl.
  - destruct (between_lt (position (pe_state lo)) (position (pe_state hi)) actor
      (Hopen lo hi Elo Ehi)). split; by intros ? [= <-].
  - split; [|done]. intros ? [= <-]. by apply between_above, Hlo.
  - split; [done|]. intros ? [= <-]. by apply between_below, Hhi.
  - done.
Qed.

(** Writing [e] at the position computed for its slot puts it in the slot. *)
Lemma placed_after s s' e anchor actor :
  map_view (playlist s') = <[pe_hash e := Some (pe_state e)]> (map_view (playlist s)) →
  position (pe_state e) = position_after s anchor (pe_hash e) actor →
  let es := others (pe_hash e) s in let n := slot anchor es in
  ids_ok es → slot_open n es → playlist_entries s' = take n es ++ e :: drop n es.
Proof.
  intros Hs' Hp es n Hok Hopen. rewrite position_after_slot in Hp.
  destruct (between_slot es n actor Hok Hopen) as [Hlo Hhi]. fold es n in Hp.
  rewrite <-Hp in Hlo, Hhi. apply (playlist_entries_place s); [done|symmetry; apply take_drop| |].
  - intros lo Hl. by apply entry_le_position, Hlo.
  - intros hi Hh. by apply entry_le_position, Hhi.
Qed.

Lemma map_view_set_playlist s a ts h st :
  put_ok (playlist s) a ts h →
  map_view (playlist (set_playlist_entry s a ts h st).1) =
    <[h := Some st]> (map_view (playlist s)).
Proof. intros Hok. rewrite <-(map_view_put (playlist s) a ts h (Some st) Hok). done. Qed.

(** ** Rebalancing *)

(** The entries with fresh identifiers above [prev], one after the other. *)
Fixpoint restamp (actor : ActorId) (prev : option (Identifier ActorId))
    (l : list PlaylistEntry) : list PlaylistEntry :=
  match l with
  | [] => []
  | e :: l =>
      let fresh := between prev None actor in
      mkPlaylistEntry (pe_hash e) (set_position fresh (pe_state e))
        :: restamp actor (Some fresh) l
  end.

Lemma restamp_hashes actor prev l : pe_hash <$> restamp actor prev l = pe_hash <$> l.
Proof. revert prev. induction l as [|e l IH]; intros prev; simpl; [done|]. by rewrite IH. Qed.

Lemma between_none_ok (prev : option (Identifier ActorId)) actor :
  id_ok (between prev None actor).
Proof. by apply between_ok. Qed.

Lemma restamp_above actor l p e :
  id_ok p → e ∈ restamp actor (Some p) l → cmp p (position (pe_state e)) = Lt.
Proof.
  revert p. induction l as [|x l IH]; intros p Hp; simpl; [by intros ?%elem_of_nil|].
  pose proof (between_above p actor Hp) as Hlt.
  intros [->|He]%elem_of_cons; [done|]. eapply cmp_lt_trans; [done|].
  apply IH; [apply between_none_ok|done].
Qed.

Lemma restamp_sorted actor prev l : StronglySorted entry_le (restamp actor prev l).
Proof.
  revert prev. induction l as [|e l IH]; intros prev; simpl; constructor; [apply IH|].
  apply Forall_forall. intros x Hx. apply entry_le_position; simpl.
  eapply restamp_above; [apply between_none_ok|done].
Qed.

(** The writes of a rebalance, as inserts into the resolved map. *)
Definition rebalanced_view (l : list PlaylistEntry)
    (m : gmap Ed2kHash (option PlaylistFileState)) : gmap Ed2kHash (option PlaylistFileState) :=
  foldl (λ m e, <[pe_hash e := Some (pe_state e)]> m) m l.

Lemma rebalanced_view_lookup l m h :
  NoDup (pe_hash <$> l) →
  rebalanced_view l m !! h =
    match List.find (λ e, bool_decide (pe_hash e = h)) l with
    | Some e => Some (Some (pe_state e))
    | None => m !! h
    end.
Proof.
  unfold rebalanced_view. revert m. induction l as [|e l IH]; intros m; simpl; [done|].
  intros [He Hl]%NoDup_cons. rewrite IH by done. case_bool_decide as Heq.
  - destruct (List.find _ l) as [e'|] eqn:E; [|by rewrite <-Heq, lookup_insert_eq].
    apply List.find_some in E as [Hin%list_elem_of_In Hh]. apply bool_decide_eq_true in Hh.
    destruct He. rewrite list_elem_of_fmap. exists e'. split; [congruence|done].
  - destruct (List.find _ l); [done|]. by rewrite lookup_insert_ne.
Qed.

Lemma rebalance_fold actor ts s ops prev l :
  NoDup (pe_hash <$> l) → (∀ h, h ∈ pe_hash <$> l → put_ok (playlist s) actor ts h) →
  vget (map_clock (playlist s)) actor + Z.of_nat (length l) ≤ u64_max →
  map_view (playlist (foldl (rebalance_step actor ts) (s, ops, prev) l).1.1) =
    rebalanced_view (restamp actor prev l) (map_view (playlist s)).
Proof.
  revert s ops prev. induction l as [|e l IH]; intros s ops prev Hnd Hok Hroom; [done|].
  apply NoDup_cons in Hnd as [He Hnd].
  assert (put_ok (playlist s) actor ts (pe_hash e)) as Hput by (apply Hok; left).
  cbn [foldl]. unfold rebalance_step at 2. rewrite (surjective_pairing (set_playlist_entry _ _ _ _ _)).
  rewrite IH; [| done | | ].
  - cbn [restamp]. unfold rebalanced_view. cbn [foldl]. by rewrite map_view_set_playlist.
  - intros h Hh. apply (map_put_ok_other (playlist s) actor ts ts).
    + done.
    + apply Hok. by right.
    + intros <-. done.
    + destruct l; [by apply elem_of_nil in Hh|]. simpl length in Hroom. lia.
  - pose proof (map_put_clock (playlist s) actor ts (pe_hash e)
      (Some (set_position (between prev None actor) (pe_state e))) Hput) as Hclk.
    change (playlist _) with (map_put (playlist s) actor ts (pe_hash e)
      (Some (set_position (between prev None actor) (pe_state e)))).1.
    rewrite Hclk. simpl length in Hroom. lia.
Qed.

Lemma find_hash_elem l e :
  NoDup (pe_hash <$> l) →
  List.find (λ x, bool_decide (pe_hash x = pe_hash e)) l = Some e ↔ e ∈ l.
Proof.
  intros Hnd. split; [intros [Hin _]%List.find_some; by apply list_elem_of_In|].
  induction l as [|x l IH]; [by intros ?%elem_of_nil|]. simpl in *.
  apply NoDup_cons in Hnd as [Hx Hnd]. intros [->|He]%elem_of_cons.
  - by rewrite bool_decide_eq_true_2.
  - rewrite bool_decide_eq_false_2; [auto|]. intros Heq. apply Hx. rewrite Heq.
    apply list_elem_of_fmap. eauto.
Qed.

Lemma rebalance_entries s actor ts :
  (∀ e, e ∈ playlist_entries s → put_ok (playlist s) actor ts (pe_hash e)) →
  vget (map_clock (playlist s)) actor + Z.of_nat (length (playlist_entries s)) ≤ u64_max →
  playlist_entries (rebalance_playlist s actor ts).1 = restamp actor None (playlist_entries s).
Proof.
  intros Hok Hroom. set (l := playlist_entries s). unfold rebalance_playlist.
  assert (NoDup (pe_hash <$> restamp actor None l)) as Hnd.
  { rewrite restamp_hashes. apply NoDup_playlist_hashes. }
  apply playlist_entries_unique; [done| |apply restamp_sorted].
  intros e. rewrite rebalance_fold; [|apply NoDup_playlist_hashes| |done].
  2: { intros h (x & -> & Hx)%list_elem_of_fmap. by apply Hok. }
  rewrite rebalanced_view_lookup by done. fold l. rewrite <-(find_hash_elem _ e Hnd).
  destruct (List.find _ (restamp actor None l)) as [x|] eqn:E.
  - pose proof (List.find_some _ _ E) as [_ Hh%bool_decide_eq_true].
    destruct x, e; simpl in *; subst. split; congruence.
  - split; [done|]. intros Hv.
    assert (pe_hash e ∈ pe_hash <$> l) as He.
    { apply list_elem_of_fmap. exists e. split; [done|]. by apply elem_of_playlist_entries. }
    rewrite <-(restamp_hashes actor None l) in He.
    apply list_elem_of_fmap in He as (x & Hx & Hin).
    apply find_hash_elem in Hin; [|done]. by rewrite <-Hx, E in Hin.
Qed.

(** Appending needs no open slot: the last entry has no upper neighbour. *)
Lemma find_index_last l e :
  NoDup (pe_hash <$> l) → last l = Some e → find_index (pe_hash e) l = Some (pred (length l)).
Proof.
  induction l as [|x l IH]; [done|]. intros [Hx Hnd]%NoDup_cons Hl. simpl.
  destruct l as [|y l]; [simplify_eq/=; by rewrite bool_decide_eq_true_2|].
  rewrite bool_decide_eq_false_2; [by rewrite IH|].
  intros Heq. apply Hx. rewrite Heq.
  assert (pe_hash e ∈ pe_hash <$> y :: l) as Hin; [|done].
  apply list_elem_of_fmap. exists e. split; [done|].
  apply last_Some in Hl as [k Hk]. destruct k as [|? k]; [done|].
  injection Hk as _ ->. apply elem_of_app. right. left.
Qed.

Lemma find_index_None hash l : (∀ e, e ∈ l → pe_hash e ≠ hash) → find_index hash l = None.
Proof.
  induction l as [|e l IH]; intros Hn; simpl; [done|].
  rewrite bool_decide_eq_false_2 by (apply Hn; left). rewrite IH; [done|].
  intros x Hx. apply Hn. by right.
Qed.

Lemma slot_push s hash :
  slot (pe_hash <$> last (playlist_entries s)) (others hash s) = length (others hash s).
Proof.
  destruct (last (playlist_entries s)) as [e|] eqn:Hl; simpl.
  - pose proof Hl as [k Hk]%last_Some. unfold others.
    destruct (decide (pe_hash e = hash)) as [->|Hne].
    + rewrite find_index_None; [done|]. by intros x [? _]%list_elem_of_filter.
    + assert (last (filter (λ e, pe_hash e ≠ hash) (playlist_entries s)) = Some e) as Hlast.
      { rewrite Hk, filter_app, filter_cons_True by done. by rewrite filter_nil, last_snoc. }
      rewrite (find_index_last _ e); [|eapply sublist_NoDup;
        [apply NoDup_playlist_hashes|apply fmap_sublist, sublist_filter]|done].
      destruct (filter _ (playlist_entries s)); [done|]. simpl. lia.
  - apply last_None in Hl. unfold others. by rewrite Hl.
Qed.

Lemma slot_open_end l : slot_open (length l) l.
Proof. intros lo hi _. by rewrite drop_all. Qed.

Lemma ids_ok_others h s : ids_ok (playlist_entries s) → ids_ok (others h s).
Proof. intros Hok e [_ He]%list_elem_of_filter. by apply Hok. Qed.

(** The entry an add or a move writes. *)
Definition added_entry (s : CrdtState) (actor : ActorId) (anchor : option Ed2kHash)
    (new : NewPlaylistEntry) : PlaylistEntry :=
  mkPlaylistEntry (new_hash new)
    (mkPlaylistFileState (position_after s anchor (new_hash new) actor)
       (new_added_by new) (new_filename new) (new_size_bytes new) (new_duration_millis new)).

Lemma add_places s actor ts anchor new :
  put_ok (playlist s) actor ts (new_hash new) →
  let es := others (new_hash new) s in let n := slot anchor es in
  ids_ok es → slot_open n es →
  playlist_entries (add_playlist_entry_after s actor ts anchor new).1 =
    take n es ++ added_entry s actor anchor new :: drop n es.
Proof.
  intros Hput es n Hok Hopen.
  apply (placed_after s _ (added_entry s actor anchor new) anchor actor); [|done..].
  by apply map_view_set_playlist.
Qed.

Lemma push_places s actor ts new :
  put_ok (playlist s) actor ts (new_hash new) → ids_ok (playlist_entries s) →
  playlist_entries (push_playlist_entry s actor ts new).1 =
    others (new_hash new) s ++
    [added_entry s actor (pe_hash <$> last (playlist_entries s)) new].
Proof.
  intros Hput Hok. unfold push_playlist_entry. rewrite add_places; [|done| |].
  - by rewrite slot_push, firstn_all, drop_all.
  - by apply ids_ok_others.
  - rewrite slot_push. apply slot_open_end.
Qed.

(** ** Statements *)

(** Adding a file after an anchor shows it right after the anchor (at the
    front without an anchor, at the end if the anchor vanished) and leaves the
    other entries in their order; an entry of the same file is replaced. *)
Theorem add_after_anchor s actor ts anchor new :
  put_ok (playlist s) actor ts (new_hash new) →
  let es := others (new_hash new) s in let n := slot anchor es in
  ids_ok es → slot_open n es →
  playlist_entries (add_playlist_entry_after s actor ts anchor new).1 =
    take n es ++ added_entry s actor anchor new :: drop n es.
Proof. apply add_places. Qed.

(** Pushing appends at the end, whatever the positions of the entries. *)
Theorem push_appends s actor ts new :
  put_ok (playlist s) actor ts (new_hash new) → ids_ok (playlist_entries s) →
  ∃ e, pe_hash e = new_hash new ∧
    playlist_entries (push_playlist_entry s actor ts new).1 = others (new_hash new) s ++ [e].
Proof. intros Hput Hok. eexists. split; [|by apply push_places]. done. Qed.

(** Moving an entry takes it out and reinserts it after the anchor with its
    other fields intact; it is refused exactly when the entry is not on the
    playlist or is its own anchor. *)
Theorem move_after_anchor s actor ts hash anchor :
  match move_playlist_entry_after s actor ts hash anchor with
  | None => anchor = Some hash ∨ ∀ e, e ∈ playlist_entries s → pe_hash e ≠ hash
  | Some (s', _) =>
      anchor ≠ Some hash ∧
      ∃ st, mkPlaylistEntry hash st ∈ playlist_entries s ∧
        let es := others hash s in let n := slot anchor es in
        let moved := set_position (position_after s anchor hash actor) st in
        put_ok (playlist s) actor ts hash → ids_ok es → slot_open n es →
        playlist_entries s' = take n es ++ mkPlaylistEntry hash moved :: drop n es
  end.
Proof.
  unfold move_playlist_entry_after. case_bool_decide as Ha; [by left|].
  destruct (List.find _ (playlist_entries s)) as [[h st]|] eqn:E; simpl.
  - apply List.find_some in E as [Hin Hh]. apply bool_decide_eq_true in Hh. simpl in Hh. subst.
    split; [done|]. exists st. split; [by apply list_elem_of_In|]. intros Hput Hok Hopen.
    apply (placed_after s _ (mkPlaylistEntry hash _) anchor actor); [|done..].
    by apply map_view_set_playlist.
  - right. intros e He Hh. apply list_elem_of_In in He.
    by pose proof (List.find_none _ _ E e He) as Hf%bool_decide_eq_false.
Qed.

(** Removing a file takes it off the display and keeps the others. *)
Theorem remove_entry_removes s actor ts hash :
  put_ok (playlist s) actor ts hash →
  playlist_entries (remove_playlist_entry s actor ts hash).1 = others hash s.
Proof.
  intros Hput. apply playlist_entries_unique.
  - eapply sublist_NoDup; [apply NoDup_playlist_hashes|apply fmap_sublist, sublist_filter].
  - intros e. unfold others. rewrite list_elem_of_filter, elem_of_playlist_entries.
    change (playlist (remove_playlist_entry s actor ts hash).1)
      with (map_put (playlist s) actor ts hash None).1.
    rewrite map_view_put by done. destruct (decide (hash = pe_hash e)) as [->|Hne].
    + rewrite lookup_insert_eq. naive_solver.
    + rewrite lookup_insert_ne by done. naive_solver.
  - apply StronglySorted_filter, playlist_entries_sorted.
Qed.

(** Rebalancing keeps the files and their order, and leaves strictly
    increasing single-node positions. *)
Theorem rebalance_preserves_order s actor ts :
  (∀ e, e ∈ playlist_entries s → put_ok (playlist s) actor ts (pe_hash e)) →
  vget (map_clock (playlist s)) actor + Z.of_nat (length (playlist_entries s)) ≤ u64_max →
  let es' := playlist_entries (rebalance_playlist s actor ts).1 in
  pe_hash <$> es' = pe_hash <$> playlist_entries s ∧
  Forall (λ e, ∃ r, id_path (position (pe_state e)) = [(r, actor)]) es'.
Proof.
  intros Hok Hroom es'. unfold es'. rewrite rebalance_entries by done.
  split; [apply restamp_hashes|]. generalize (None : option (Identifier ActorId)).
  clear. induction (playlist_entries s) as [|e l IH]; intros prev; simpl; constructor.
  - destruct prev; by eexists.
  - apply IH.
Qed.

(** ** A concrete playlist *)

(** Two pushed entries; the server then edits between and around them. *)
Definition ex_new (n : Z) : NewPlaylistEntry :=
  mkNewPlaylistEntry (mkEd2kHash [n]) (mkUserId "nero") "episode.mkv" 1000 None.
Definition ex_list : CrdtState :=
  (push_playlist_entry (push_playlist_entry new_state SERVER 1 (ex_new 1)).1 SERVER 2 (ex_new 2)).1.

Lemma ex_list_put_ok h ts : 2 < ts → put_ok (playlist ex_list) SERVER ts h.
Proof.
  intros Hts. apply (floor_put_ok ex_list FPlaylist); [|done|done].
  assert (max_lww_timestamp ex_list = 2) as -> by (vm_compute; reflexivity). done.
Qed.
Lemma ex_list_ids_ok : ids_ok (playlist_entries ex_list).
Proof.
  intros e He. assert (Forall (λ e, id_path (position (pe_state e)) ≠ [])
    (playlist_entries ex_list)) as Hf by (vm_compute; repeat constructor; discriminate).
  rewrite Forall_forall in Hf. by apply Hf.
Qed.

Lemma add_after_anchor_witness :
  pe_hash <$> playlist_entries
    (add_playlist_entry_after ex_list SERVER 9 (Some (mkEd2kHash [1])) (ex_new 3)).1 =
  mkEd2kHash <$> [[1]; [3]; [2]].
Proof.
  rewrite (add_after_anchor ex_list SERVER 9 (Some (mkEd2kHash [1])) (ex_new 3)).
  - vm_compute. reflexivity.
  - apply ex_list_put_ok. lia.
  - apply ids_ok_others, ex_list_ids_ok.
  - intros lo hi. vm_compute. intros [= <-] [= <-]. reflexivity.
Defined.

Lemma push_appends_witness :
  ∃ e, pe_hash e = mkEd2kHash [1] ∧
    playlist_entries (push_playlist_entry ex_list SERVER 9 (ex_new 1)).1 =
      others (mkEd2kHash [1]) ex_list ++ [e].
Proof.
  apply (push_appends ex_list SERVER 9 (ex_new 1)).
  - apply ex_list_put_ok. lia.
  - apply ex_list_ids_ok.
Defined.

Lemma remove_entry_removes_witness :
  pe_hash <$> playlist_entries (remove_playlist_entry ex_list SERVER 9 (mkEd2kHash [1])).1 =
    [mkEd2kHash [2]].
Proof.
  rewrite (remove_entry_removes ex_list SERVER 9 (mkEd2kHash [1])).
  - vm_compute. reflexivity.
  - apply ex_list_put_ok. lia.
Defined.

Lemma rebalance_preserves_order_witness :
  pe_hash <$> playlist_entries (rebalance_playlist ex_list SERVER 9).1 =
    mkEd2kHash <$> [[1]; [2]].
Proof.
  destruct (rebalance_preserves_order ex_list SERVER 9) as [-> _].
  - intros e _. apply ex_list_put_ok. lia.
  - vm_compute. discriminate.
  - vm_compute. reflexivity.
Defined.
