(* ===== verification/View.v ===== *)
(** * The resolved view (dessplay-core/src/state.rs, [StateView])

    Everything above the CRDT layer works on [StateView], the plain data a
    state resolves to. [GList::read] panics on an identifier with no nodes, so
    [view] is an option; the theorems rule the panic out for every state the
    system can reach, and show that replicas with the same deliveries agree on
    the hash the divergence alarm compares. *)

From S2P Require Import Prelude Types Lww Vclock CrdtMap Identifier State Fields StateRepr.
From S2P Require Import Convergence Resolve Playlist.

Record StateView := mkStateView {
  v_playlist : list PlaylistEntry;
  v_watched : gmap Ed2kHash bool;
  v_now_playing : option Ed2kHash;
  v_now_playing_since : option SharedTimestamp;
  v_seek_authority : option SeekAuthority;
  v_playback_intent : PlaybackIntent;
  v_series_preference : gmap (UserId * ListEntryId) SeriesPreference;
  v_manual_override : gmap UserId (option ManualState);
  v_file_availability : gmap (UserId * Ed2kHash) FileAvailability;
  v_anidb_metadata : gmap Ed2kHash (option AniDbMetadata);
  v_series_relations : gmap AniDbSeriesId SeriesRelations;
  v_file_catalog : gmap Ed2kHash FileCatalogEntry;
  v_list_entries : gmap ListEntryId SeriesListEntry;
  v_list_next_ep : gmap ListEntryId NextEpState;
  v_lookup_requests : gset FileHashInfo;
  v_chat : list ChatMessage;
  v_playback_position : gmap UserId PlaybackPosition;
  v_acknowledged_absent : gset (Ed2kHash * UserId);
  v_marquee : option (SharedTimestamp * MarqueeMessage);
  v_saved_position : gmap Ed2kHash Z
}.

(** [CrdtState::view]; [None] where [GList::read] would panic. *)
Definition view (s : CrdtState) : option StateView :=
  chat ← glist_read (chat s);
  Some (mkStateView
    (playlist_entries s)
    (map_view (watched s))
    (mjoin (resolve_value (now_playing s)))
    (lww_cell_timestamp (now_playing s))
    (resolve_value (seek_authority s))
    (default IntentPaused (resolve_value (playback_intent s)))
    (map_view (series_preference s))
    (map_view (manual_override s))
    (map_view (file_availability s))
    (map_view (anidb_metadata s))
    (map_view (series_relations s))
    (map_view (file_catalog s))
    (map_view (list_entries s))
    (map_view (list_next_ep s))
    (lookup_requests s)
    chat
    (map_view (playback_position s))
    (acknowledged_absent s)
    (lww_read (marquee s) ≫= λ lww, pair (lww_timestamp lww) <$> lww_value lww)
    (map_view (saved_position s))).

(** [view.playback_position.clear()]. *)
Definition clear_positions (v : StateView) : StateView :=
  mkStateView (v_playlist v) (v_watched v) (v_now_playing v) (v_now_playing_since v)
    (v_seek_authority v) (v_playback_intent v) (v_series_preference v) (v_manual_override v)
    (v_file_availability v) (v_anidb_metadata v) (v_series_relations v) (v_file_catalog v)
    (v_list_entries v) (v_list_next_ep v) (v_lookup_requests v) (v_chat v) ∅
    (v_acknowledged_absent v) (v_marquee v) (v_saved_position v).

(** [CrdtState::view_hash], with the wire encoding and the digest as
    parameters. *)
Section view_hash.
Variable encode : StateView → option (list Z).
Variable sha256 : list Z → list Z.

Definition view_hash (s : CrdtState) : option (list Z) :=
  v ← view s;
  Some (match encode (clear_positions v) with
        | Some bytes => sha256 bytes
        | None => replicate 32 255
        end).

Lemma view_same_but_positions s t : s ≈ t → clear_positions <$> view s = clear_positions <$> view t.
Proof.
  intros Hst. assert (∀ s, clear_positions <$> view s =
    clear_positions <$> view (strip_positions s)) as Hstrip; [|by rewrite Hstrip, Hst, <-Hstrip].
  intros u. unfold view. by destruct u; simpl; destruct (glist_read chat).
Qed.

#[export] Instance view_hash_proper : Proper (same_but_positions ==> eq) view_hash.
Proof.
  intros s t Hst%view_same_but_positions. unfold view_hash.
  destruct (view s) as [v|], (view t) as [w|]; try done; simpl in *.
  apply (inj Some) in Hst. by rewrite Hst.
Qed.
End view_hash.

Lemma view_total s : glist_ok (chat s) → is_Some (view s).
Proof.
  intros [c Hc]%glist_read_total. unfold view. rewrite Hc. by eexists.
Qed.

Lemma view_of_chat s xs :
  glist_read (chat s) = Some xs → ∃ v, view s = Some v ∧ v_chat v = xs.
Proof. intros Hxs. unfold view. rewrite Hxs. by eexists. Qed.
Lemma view_chat s v : view s = Some v → glist_read (chat s) = Some (v_chat v).
Proof. unfold view. destruct (glist_read (chat s)); [|done]. by intros [= <-]. Qed.

(** ** Statements *)

(** No reachable replica, and no snapshot ever taken of one, makes [view]
    panic: every chat identifier in the system has a value. *)
Theorem view_never_panics net n :
  reachable net → (∃ a, n = nodes net a) ∨ n ∈ snapshots net → is_Some (view (node_state n)).
Proof.
  intros Hr Hn. apply net_ok_reachable in Hr. apply view_total.
  apply (glist_ok_of_hist (issued net)); [apply Hr|].
  destruct Hn as [[a ->]|Hn]; [apply Hr|by apply Hr].
Qed.

(** The divergence alarm has no false positive: replicas that have
    delivered the same ops report the same view hash, for any encoding and any
    digest. *)
Theorem alarm_silent_on_same_deliveries encode sha256 net a b :
  reachable net →
  (∀ op, op ∈ node_hist (nodes net a) ↔ op ∈ node_hist (nodes net b)) →
  view_hash encode sha256 (node_state (nodes net a)) =
  view_hash encode sha256 (node_state (nodes net b)).
Proof.
  intros Hr Heq. apply net_ok_reachable in Hr. apply view_hash_proper.
  eapply srepr_fun; [done|apply (ok_nodes _ Hr a)|apply (ok_nodes _ Hr b)].
Qed.

(** A chat message appended by a replica is the last one it shows, after
    all the messages it showed before. *)
Theorem append_chat_at_end s v message :
  glist_ok (chat s) → view s = Some v →
  ∃ v', view (append_chat s message).1 = Some v' ∧ v_chat v' = v_chat v ++ [message].
Proof.
  intros Hok Hv%view_chat. apply view_of_chat. by apply glist_append_read.
Qed.

Lemma view_never_panics_witness : is_Some (view (node_state (nodes ex_net2 ex_b))).
Proof.
  apply (view_never_panics ex_net2).
  - apply ex_net2_reachable.
  - left. exists ex_b. reflexivity.
Defined.

Lemma alarm_silent_on_same_deliveries_witness :
  view_hash (λ v, Some [Z.of_nat (size (v_watched v))]) (λ l, l) (node_state (nodes ex_net2 ex_a)) =
  view_hash (λ v, Some [Z.of_nat (size (v_watched v))]) (λ l, l) (node_state (nodes ex_net2 ex_b)).
Proof.
  apply alarm_silent_on_same_deliveries.
  - apply ex_net2_reachable.
  - intros op. reflexivity.
Defined.

Lemma append_chat_at_end_witness :
  ∃ v', view (append_chat new_state (mkChatMessage 5 (mkUserId "nero") "hello")).1 = Some v' ∧
    v_chat v' = [mkChatMessage 5 (mkUserId "nero") "hello"].
Proof.
  destruct (view new_state) as [v|] eqn:Hv; [|vm_compute in Hv; discriminate Hv].
  destruct (append_chat_at_end new_state v (mkChatMessage 5 (mkUserId "nero") "hello"))
    as (v' & Hv' & Hc).
  - intros i Hi. by apply not_elem_of_empty in Hi.
  - exact Hv.
  - exists v'. split; [exact Hv'|]. rewrite Hc.
    assert (Some (v_chat v) = Some []) as [= ->]; [|reflexivity].
    rewrite <-(view_chat _ _ Hv). reflexivity.
Defined.
