(* ===== verification/Writes.v ===== *)
(** * Local writes refine the view (dessplay-core/src/state.rs)

    What a user of the replicated state relies on when it writes: a mutator
    called with a stamp above the Lamport floor changes the resolved view the
    way an ordinary assignment would, and changes nothing else. [view_after] is
    that abstract specification, over plain maps and lists; the theorem is the
    refinement, for all twenty mutators. *)

From S2P Require Import Prelude Types Lww Vclock CrdtMap Identifier State Fields StateRepr.
From S2P Require Import Convergence Resolve Playlist View.

(** Setting or removing one entry of a sorted playlist. *)
Definition place (h : Ed2kHash) (entry : option PlaylistFileState) (l : list PlaylistEntry)
    : list PlaylistEntry :=
  let l := filter (λ e, pe_hash e ≠ h) l in
  match entry with
  | Some e => sort_by entry_cmp (mkPlaylistEntry h e :: l)
  | None => l
  end.

(** ** The abstract effect of each write *)

Definition view_after (w : LocalWrite) (ts : SharedTimestamp) (v : StateView) : StateView :=
  mkStateView
    (match w with
     | WPlaylistEntry h e => place h (Some e) (v_playlist v)
     | WRemovePlaylistEntry h => place h None (v_playlist v)
     | _ => v_playlist v end)
    (match w with WWatched h b => <[h := b]> (v_watched v) | _ => v_watched v end)
    (match w with WNowPlaying f => f | _ => v_now_playing v end)
    (match w with WNowPlaying _ => Some ts | _ => v_now_playing_since v end)
    (match w with WSeekAuthority x => Some x | _ => v_seek_authority v end)
    (match w with WPlaybackIntent x => x | _ => v_playback_intent v end)
    (match w with
     | WSeriesPreference u e p b => <[(u, e) := mkSeriesPreference p b]> (v_series_preference v)
     | _ => v_series_preference v end)
    (match w with WManualOverride u x => <[u := x]> (v_manual_override v)
     | _ => v_manual_override v end)
    (match w with WFileAvailability u f x => <[(u, f) := x]> (v_file_availability v)
     | _ => v_file_availability v end)
    (match w with WAniDbMetadata h m => <[h := m]> (v_anidb_metadata v)
     | _ => v_anidb_metadata v end)
    (match w with WSeriesRelations i r => <[i := r]> (v_series_relations v)
     | _ => v_series_relations v end)
    (match w with WFileCatalog h e => <[h := e]> (v_file_catalog v) | _ => v_file_catalog v end)
    (match w with WListEntry i e => <[i := e]> (v_list_entries v) | _ => v_list_entries v end)
    (match w with WNextEp i n => <[i := n]> (v_list_next_ep v) | _ => v_list_next_ep v end)
    (match w with WLookup x => {[x]} ∪ v_lookup_requests v | _ => v_lookup_requests v end)
    (match w with WChat m => v_chat v ++ [m] | _ => v_chat v end)
    (match w with WPlaybackPosition u p => <[u := p]> (v_playback_position v)
     | _ => v_playback_position v end)
    (match w with WAcknowledgeAbsent f u => {[(f, u)]} ∪ v_acknowledged_absent v
     | _ => v_acknowledged_absent v end)
    (match w with WMarquee m => pair ts <$> m | _ => v_marquee v end)
    (match w with WSavedPosition f m => <[f := m]> (v_saved_position v)
     | _ => v_saved_position v end).

(** When a replica may write: nothing deferred, a dot to spend, well-formed
    chat, and a stamp above the floor. *)
Record writable (s : CrdtState) (a : ActorId) (ts : SharedTimestamp) : Prop := {
  wr_floor : max_lww_timestamp s < ts;
  wr_deferred f : map_deferred (mget f s) = ∅;
  wr_room f : 0 ≤ vget (map_clock (mget f s)) a < u64_max;
  wr_chat : glist_ok (chat s)
}.

Lemma writable_put s a ts f k : writable s a ts → put_ok (mget f s) a ts k.
Proof. intros []. by apply floor_put_ok. Qed.
Lemma writable_reg s a ts r : writable s a ts → reg_ok (rget r s) ts.
Proof. intros []. by apply floor_reg_ok. Qed.

Lemma resolve_newer {V} `{!Ord V, !LawfulOrd V} (c : LwwCell V) ts (v : V) :
  reg_ok c ts → resolve_value (lww_apply c (mkLww ts v)) = Some v.
Proof. intros Hr. by rewrite lww_apply_newer. Qed.

(** The playlist after a put, as a list. *)
Lemma elem_of_place h x (l : list PlaylistEntry) e :
  e ∈ place h x l ↔ (pe_hash e ≠ h ∧ e ∈ l) ∨ (pe_hash e = h ∧ x = Some (pe_state e)).
Proof.
  unfold place. destruct x as [st|]; rewrite ?elem_of_sort_by, ?elem_of_cons, list_elem_of_filter.
  - destruct e; simpl; naive_solver.
  - naive_solver.
Qed.

Lemma NoDup_filtered_hashes h (l : list PlaylistEntry) :
  NoDup (pe_hash <$> l) →
  NoDup (pe_hash <$> filter (λ e, pe_hash e ≠ h) l) ∧
  h ∉ pe_hash <$> filter (λ e, pe_hash e ≠ h) l.
Proof.
  intros Hnd. split.
  - induction l as [|e l IH]; [constructor|]. apply NoDup_cons in Hnd as [He Hnd].
    rewrite filter_cons. case_decide; [|by apply IH]. constructor; [|by apply IH].
    intros Hin. apply He. apply list_elem_of_fmap in Hin as (e' & -> & He').
    apply list_elem_of_filter in He' as [_ He']. by apply list_elem_of_fmap_2.
  - rewrite list_elem_of_fmap. intros (e & -> & He). by apply list_elem_of_filter in He as [].
Qed.

Lemma playlist_entries_put s s' h (x : option PlaylistFileState) :
  map_view (playlist s') = <[h := x]> (map_view (playlist s)) →
  playlist_entries s' = place h x (playlist_entries s).
Proof.
  intros Hv. pose proof (NoDup_filtered_hashes h _ (NoDup_playlist_hashes s)) as [Hnd Hh].
  apply playlist_entries_unique.
  - unfold place. destruct x as [st|]; [|done]. rewrite sort_by_perm. by constructor.
  - intros e. rewrite elem_of_place, elem_of_playlist_entries, Hv.
    destruct (decide (pe_hash e = h)) as [<-|Hne].
    + rewrite lookup_insert_eq. naive_solver.
    + rewrite lookup_insert_ne by done. naive_solver.
  - unfold place. destruct x as [st|].
    + rewrite sort_by_entry_cmp. apply (sort_by_key_sorted entry_key).
    + apply StronglySorted_filter, playlist_entries_sorted.
Qed.

(** The view of a state whose chat reads as [xs]. *)
Definition view_with (s : CrdtState) (xs : list ChatMessage) : StateView :=
  mkStateView (playlist_entries s) (map_view (watched s)) (mjoin (resolve_value (now_playing s)))
    (lww_cell_timestamp (now_playing s)) (resolve_value (seek_authority s))
    (default IntentPaused (resolve_value (playback_intent s))) (map_view (series_preference s))
    (map_view (manual_override s)) (map_view (file_availability s)) (map_view (anidb_metadata s))
    (map_view (series_relations s)) (map_view (file_catalog s)) (map_view (list_entries s))
    (map_view (list_next_ep s)) (lookup_requests s) xs (map_view (playback_position s))
    (acknowledged_absent s)
    (lww_read (marquee s) ≫= λ lww, pair (lww_timestamp lww) <$> lww_value lww)
    (map_view (saved_position s)).

Lemma view_Some s v :
  view s = Some v ↔ ∃ xs, glist_read (chat s) = Some xs ∧ v = view_with s xs.
Proof. unfold view. destruct (glist_read (chat s)); naive_solver. Qed.

(** The map fields, by the accessor of the field. *)
Lemma view_put_field f s a ts k (x : val_of f) :
  writable s a ts → map_view (map_put (mget f s) a ts k x).1 = <[k := x]> (map_view (mget f s)).
Proof. intros Hw. apply map_view_put. by apply writable_put. Qed.

(** The register fields: value and stamp after a write. *)
Lemma reg_put_field r s a ts (x : rval_of r) :
  writable s a ts → (reg_put (rget r s) ts x).1 = mkLwwCell (Some (mkLww ts x)).
Proof. intros Hw. unfold reg_put. apply lww_apply_newer. by eapply writable_reg. Qed.

Lemma write_refines s a ts w v :
  writable s a ts → view s = Some v →
  view (run_write w a ts s).1 = Some (view_after w ts v).
Proof.
  intros Hw Hv. apply view_Some in Hv as (xs & Hxs & ->). apply view_Some.
  pose proof (λ f k, writable_put s a ts f k Hw) as Hp.
  pose proof (λ r, writable_reg s a ts r Hw) as Hr.
  destruct w; unfold run_write; try (exists xs; split; [exact Hxs|symmetry]).
  18: { eexists. split; [by apply glist_append_read; [apply Hw|]|done]. }
  all: unfold view_after, view_with; f_equal; try reflexivity.
  - apply playlist_entries_put, (view_put_field FPlaylist _ _ _ _ (Some entry) Hw).
  - apply playlist_entries_put, (view_put_field FPlaylist _ _ _ _ None Hw).
  - apply (view_put_field FWatched _ _ _ _ _ Hw).
  - exact (f_equal (λ c, mjoin (resolve_value c)) (reg_put_field RNowPlaying s a ts file Hw)).
  - exact (f_equal lww_cell_timestamp (reg_put_field RNowPlaying s a ts file Hw)).
  - exact (f_equal resolve_value (reg_put_field RSeekAuth s a ts authority Hw)).
  - exact (f_equal (λ c, default IntentPaused (resolve_value c))
      (reg_put_field RPlaybackInt s a ts intent Hw)).
  - apply (view_put_field FSeriesPref _ _ _ _ _ Hw).
  - apply (view_put_field FManualOverride _ _ _ _ _ Hw).
  - apply (view_put_field FFileAvail _ _ _ _ _ Hw).
  - apply (view_put_field FAniDbMeta _ _ _ _ _ Hw).
  - apply (view_put_field FSeriesRels _ _ _ _ _ Hw).
  - apply (view_put_field FFileCatalog _ _ _ _ _ Hw).
  - apply (view_put_field FListEntry _ _ _ _ _ Hw).
  - apply (view_put_field FListNextEp _ _ _ _ _ Hw).
  - exact (f_equal (λ c, lww_read c ≫= λ lww, pair (lww_timestamp lww) <$> lww_value lww)
      (reg_put_field RMarquee s a ts message Hw)).
  - apply (view_put_field FPlaybackPos _ _ _ _ _ Hw).
  - apply (view_put_field FSavedPos _ _ _ _ _ Hw).
Qed.

(** A write spends at most one dot of each map. *)
Lemma write_clock w s a ts f :
  writable s a ts →
  vget (map_clock (mget f (run_write w a ts s).1)) a ≤ vget (map_clock (mget f s)) a + 1.
Proof.
  intros Hw. assert (∀ g k (x : val_of g),
    vget (map_clock (map_put (mget g s) a ts k x).1) a ≤ vget (map_clock (mget g s)) a + 1) as Hput.
  { intros g k x. rewrite map_put_clock by (by apply writable_put). lia. }
  destruct w, f; cbn; first [lia | apply (Hput FPlaylist) | apply (Hput FWatched) | apply (Hput FSeriesPref)
    | apply (Hput FManualOverride) | apply (Hput FFileAvail) | apply (Hput FAniDbMeta) | apply (Hput FSeriesRels)
    | apply (Hput FFileCatalog) | apply (Hput FListEntry) | apply (Hput FListNextEp) | apply (Hput FPlaybackPos)
    | apply (Hput FSavedPos)].
Qed.

(** ** Statements *)

(** Refinement: every mutator, called on a writable state with a stamp
    above the Lamport floor, produces a state whose view is the old view with
    exactly that assignment made: the write wins its register or key, and
    nothing else changes. *)
Theorem local_write_refines_view s a ts w v :
  writable s a ts → view s = Some v →
  view (run_write w a ts s).1 = Some (view_after w ts v).
Proof. apply write_refines. Qed.

Lemma writable_new a ts : 0 < ts → writable new_state a ts.
Proof.
  intros Hts. split.
  - by change (max_lww_timestamp new_state) with 0.
  - intros f. by rewrite mget_new.
  - intros f. rewrite mget_new. by change (vget _ a) with 0.
  - intros i Hi. by apply not_elem_of_empty in Hi.
Qed.

Lemma local_write_refines_view_witness :
  view new_state = Some (view_with new_state []) ∧
  v_watched (view_after (WWatched ex_hash true) 5 (view_with new_state [])) !! ex_hash = Some true ∧
  view (run_write (WWatched ex_hash true) ex_a 5 new_state).1 =
    Some (view_after (WWatched ex_hash true) 5 (view_with new_state [])).
Proof.
  assert (view new_state = Some (view_with new_state [])) as Hv by (apply view_Some; by exists []).
  split; [exact Hv|split; [reflexivity|]].
  apply local_write_refines_view; [by apply writable_new|exact Hv].
Defined.
