(* ===== verification/Lamport.v ===== *)
(** * The Lamport floor (dessplay-core/src/state.rs, [max_lww_timestamp])

    [lamport s X]: the state is well formed (nothing deferred, clocks positive,
    chat identifiers non-empty) and no register in it is stamped above [X]. The
    ways a state changes (applying an op, merging) keep it, which is what the
    sync actor's monotonic stamps rest on. *)

From S2P Require Import Prelude Types Lww Vclock CrdtMap Identifier State Fields StateRepr.
From S2P Require Import Convergence Resolve Playlist View Writes.

Record wf_state (s : CrdtState) : Prop := {
  wf_deferred f : map_deferred (mget f s) = ∅;
  wf_clock f : vclock_ok (map_clock (mget f s));
  wf_chat : glist_ok (chat s)
}.

Definition cell_below {V} (X : Z) (c : LwwCell V) : Prop :=
  ∀ t, lww_cell_timestamp c = Some t → t ≤ X.

Record lamport (s : CrdtState) (X : Z) : Prop := {
  lp_wf : wf_state s;
  lp_map f k e : map_entries (mget f s) !! k = Some e → cell_below X (entry_val e);
  lp_reg r : cell_below X (rget r s)
}.

(** ** Registers *)

Section cells.
Context {V : Type} `{!Ord V, !LawfulOrd V}.
Implicit Types (c d : LwwCell V) (w : Lww V).

Lemma cell_below_empty X : cell_below X (default_value : LwwCell V).
Proof. by intros t. Qed.
Lemma cell_below_mono X Y c : X ≤ Y → cell_below X c → cell_below Y c.
Proof. intros HXY Hc t Ht. specialize (Hc t Ht). lia. Qed.
Lemma cell_below_apply X c w : cell_below X c → lww_timestamp w ≤ X → cell_below X (lww_apply c w).
Proof.
  intros Hc Hw t. unfold lww_apply. destruct c as [[v|]]; simpl.
  - destruct (v ≺ w); simpl; [by intros [= <-]|apply Hc].
  - by intros [= <-].
Qed.
Lemma cell_below_merge X c d : cell_below X c → cell_below X d → cell_below X (lww_merge c d).
Proof.
  intros Hc Hd. unfold lww_merge. destruct d as [[w|]]; simpl; [|done].
  apply cell_below_apply; [done|]. by apply Hd.
Qed.
End cells.

(** ** Maps *)

Section maps.
Context {K V : Type} `{Countable K, OK : !Ord K, !LawfulOrd K, OV : !Ord V, !LawfulOrd V}.
Implicit Types (m : LwwMap K V).

Definition map_below (X : Z) m : Prop :=
  ∀ k e, map_entries m !! k = Some e → cell_below X (entry_val e).

Lemma map_put_below X m (u : Up K (Lww V) ActorId) :
  map_deferred m = ∅ → vclock_ok (map_clock m) → map_below X m →
  lww_timestamp (up_op u) ≤ X →
  let m' := map_apply m (MapUp u) in
  map_deferred m' = ∅ ∧ vclock_ok (map_clock m') ∧ map_below X m'.
Proof.
  intros Hd Hc Hm Hu m'. unfold m', map_apply. case_match; [done|].
  rewrite apply_deferred_empty by done. simpl. split; [done|]. split; [by apply vapply_ok|].
  intros k e. simpl. destruct (decide (up_key u = k)) as [<-|Hne].
  - rewrite lookup_insert_eq. intros [= <-]. simpl. apply cell_below_apply; [|done].
    destruct (map_entries m !! up_key u) as [e0|] eqn:E; simpl; [by eapply Hm|].
    apply cell_below_empty.
  - rewrite lookup_insert_ne by done. apply Hm.
Qed.

Lemma map_merge_below X m m' :
  map_deferred m = ∅ → map_deferred m' = ∅ →
  vclock_ok (map_clock m) → vclock_ok (map_clock m') →
  map_below X m → map_below X m' →
  map_deferred (map_merge m m') = ∅ ∧ vclock_ok (map_clock (map_merge m m')) ∧
  map_below X (map_merge m m').
Proof.
  intros Hd Hd' Hc Hc' Hm Hm'.
  destruct (map_merge_no_deferred m m' Hd Hd') as (Hclk & Hdef & Hent).
  split; [done|]. split; [rewrite Hclk; by apply vmerge_ok|].
  intros k e. rewrite Hent. unfold merged_entry.
  assert (∀ o, map_entries m !! k ≫= retain_entry m' k = Some o → cell_below X (entry_val o)) as Ho.
  { intros o (o0 & Ho0 & Hr)%bind_Some. specialize (Hm k o0 Ho0). unfold retain_entry in Hr.
    repeat case_match; simplify_eq; done. }
  destruct (map_entries m' !! k) as [e'|] eqn:E'; [|apply Ho]. specialize (Hm' k e' E').
  unfold merge_entry_at. destruct (_ ≫= _) as [o|] eqn:Eo.
  - case_match; [done|]. intros [= <-]. simpl. apply cell_below_merge; [by apply Ho|done].
  - case_match; [done|]. by intros [= <-].
Qed.
End maps.

(** ** States *)

Lemma op_ts_mop f u : op_lww_timestamp (mop f (MapUp u)) = Some (lww_timestamp (up_op u)).
Proof. by destruct f. Qed.
Lemma op_ts_rop r w : op_lww_timestamp (rop r w) = Some (lww_timestamp w).
Proof. by destruct r. Qed.

(** An op a well-behaved replica sends, stamped at most [X]. *)
Record op_below (X : Z) (op : CrdtOp) : Prop := {
  ob_put : is_put op = true;
  ob_chat : chat_op_ok op;
  ob_ts t : op_lww_timestamp op = Some t → t ≤ X
}.

Lemma lamport_new X : lamport new_state X.
Proof.
  split; [split| |]; intros.
  - by rewrite mget_new.
  - rewrite mget_new. by intros a n [=].
  - intros i Hi. by apply not_elem_of_empty in Hi.
  - revert H. rewrite mget_new. by intros [=].
  - rewrite rget_new. apply cell_below_empty.
Qed.

Lemma lamport_mono s X Y : X ≤ Y → lamport s X → lamport s Y.
Proof. intros HXY []. split; eauto using cell_below_mono. Qed.

Lemma lamport_apply s X op : lamport s X → op_below X op → lamport (apply s op) X.
Proof.
  intros [[Hd Hc Hch] Hm Hr] [Hput Hop Hts].
  assert (∀ f, map_deferred (mget f (apply s op)) = ∅ ∧
    vclock_ok (map_clock (mget f (apply s op))) ∧ map_below X (mget f (apply s op))) as Hmaps.
  { intros f. rewrite mget_apply. destruct (mproj f op) as [m|] eqn:E; [|exact (conj (Hd f) (conj (Hc f) (Hm f)))].
    apply mproj_Some in E as ->. destruct (mop_put f m Hput) as [u ->].
    apply map_put_below; [done|done|exact (Hm f)|]. apply Hts, op_ts_mop. }
  split; [split|..].
  - intros f. apply Hmaps.
  - intros f. apply Hmaps.
  - intros i. rewrite chat_ids_apply. unfold proj_chat.
    destruct op as [| | | | | | | | | | | | | |[j]| | | |]; try apply Hch.
    unfold gset_insert. intros [->%elem_of_singleton|Hi]%elem_of_union; [done|by apply Hch].
  - intros f. apply Hmaps.
  - intros r. rewrite rget_apply. destruct (rproj r op) as [w|] eqn:E; [|apply Hr].
    apply rproj_Some in E as ->. apply cell_below_apply; [apply Hr|]. apply Hts, op_ts_rop.
Qed.

Lemma run_write_below w actor ts s X :
  glist_ok (chat s) → ts ≤ X → op_below X (run_write w actor ts s).2.
Proof.
  intros Hok HX. destruct (run_write w actor ts s) as [s' op] eqn:E. split; simpl.
  - by destruct (run_write_spec w actor ts s s' op E) as (_ & ? & _).
  - by eapply run_write_chat_ok.
  - intros t Ht. replace op with (run_write w actor ts s).2 in Ht by by rewrite E.
    by apply run_write_ts in Ht as ->.
Qed.

Lemma lamport_write w actor ts s X :
  lamport s X → ts ≤ X → lamport (run_write w actor ts s).1 X.
Proof.
  intros Hs Hts. pose proof (run_write_below w actor ts s X (wf_chat _ (lp_wf _ _ Hs)) Hts) as Hop.
  destruct (run_write w actor ts s) as [s' op] eqn:E. simpl in *.
  destruct (run_write_spec _ _ _ _ _ _ E) as (-> & _). by apply lamport_apply.
Qed.

Lemma lamport_merge s t X : lamport s X → lamport t X → lamport (merge s t) X.
Proof.
  intros [[Hd Hc Hch] Hm Hr] [[Hd' Hc' Hch'] Hm' Hr'].
  assert (∀ f, map_deferred (mget f (merge s t)) = ∅ ∧
    vclock_ok (map_clock (mget f (merge s t))) ∧ map_below X (mget f (merge s t))) as Hmaps.
  { intros f. rewrite mget_merge. by apply map_merge_below; [..|exact (Hm f)|exact (Hm' f)]. }
  split; [split|..]; [intros f; apply Hmaps..| |intros f; apply Hmaps|].
  - by apply glist_merge_ok.
  - intros r. rewrite rget_merge. by apply cell_below_merge.
Qed.

Lemma lamport_apply_all s X ops :
  lamport s X → Forall (op_below X) ops → lamport (foldl apply s ops) X.
Proof.
  intros Hs Hops. revert s Hs. induction Hops as [|op ops Hop Hops IH]; intros s Hs; [done|].
  apply IH. by apply lamport_apply.
Qed.

(** The floor is the least such bound. *)
Lemma map_max_below {K V} `{Countable K, OK : !Ord K, !LawfulOrd K, OV : !Ord V, !LawfulOrd V}
    (m : LwwMap K V) X : 0 ≤ X → map_below X m → map_max m ≤ X.
Proof.
  intros HX Hm. unfold map_max. destruct (iter_max _) as [t|] eqn:E; simpl; [|done].
  apply iter_max_elem, list_elem_of_omap in E as ([k c] & Hkc & Ht). simpl in Ht.
  apply elem_of_iter_entries in Hkc as (e & He & <-). by apply (Hm k e He).
Qed.

Lemma lamport_floor s X : lamport s X → 0 ≤ X → max_lww_timestamp s ≤ X.
Proof.
  intros [_ Hm Hr] HX. unfold max_lww_timestamp. destruct (iter_max _) as [t|] eqn:E; simpl; [|done].
  apply iter_max_elem in E.
  assert (∀ f, map_max (mget f s) ≤ X) as Hmap by (intros f; apply map_max_below; [done|exact (Hm f)]).
  assert (∀ r, default 0 (lww_cell_timestamp (rget r s)) ≤ X) as Hreg.
  { intros r. destruct (lww_cell_timestamp (rget r s)) as [x|] eqn:Ex; simpl; [|done].
    by apply (Hr r). }
  repeat (apply elem_of_cons in E as [->|E];
    [first [apply (Hmap FPlaylist)|apply (Hmap FWatched)|apply (Hreg RNowPlaying)
           |apply (Hreg RSeekAuth)|apply (Hreg RPlaybackInt)|apply (Hreg RMarquee)
           |apply (Hmap FSeriesPref)|apply (Hmap FManualOverride)|apply (Hmap FFileAvail)
           |apply (Hmap FAniDbMeta)|apply (Hmap FSeriesRels)|apply (Hmap FFileCatalog)
           |apply (Hmap FListEntry)|apply (Hmap FListNextEp)|apply (Hmap FPlaybackPos)
           |apply (Hmap FSavedPos)]|]).
  by apply elem_of_nil in E.
Qed.

Lemma lamport_of_floor s : wf_state s → lamport s (max_lww_timestamp s).
Proof.
  intros Hwf. split; [done|..].
  - intros f k e He t Ht. pose proof (map_max_ub _ _ _ _ He Ht).
    pose proof (max_lww_timestamp_map s f). lia.
  - intros r t. apply max_lww_timestamp_reg.
Qed.

(** A stamp above the bound may be written with. *)
Lemma lamport_writable s X a ts :
  lamport s X → 0 ≤ X < ts → (∀ f, vget (map_clock (mget f s)) a < u64_max) → writable s a ts.
Proof.
  intros Hs HX Hroom. pose proof (lamport_floor s X Hs ltac:(lia)). destruct Hs as [[] ? ?].
  split; [lia|done| |done]. intros f. split; [by apply vget_nonneg|done].
Qed.
