(* ===== verification/Compact.v ===== *)
(** * Compaction (dessplay-core/src/compact.rs)

    The server's daily pass rebuilds the state from its resolved view under a
    single actor. [stamp], a closure in the source, is the sequence of values
    its calls return. The theorems: the rebuilt state resolves to the same view
    up to the documented reductions, its clocks know only the rebuilding actor,
    and its floor is the last stamp. *)

From S2P Require Import Prelude Types Lww Vclock CrdtMap Identifier State Fields StateRepr.
From S2P Require Import Convergence Resolve Playlist View Writes Lamport.

(** The state under construction and the number of stamps taken. *)
Abbreviation Build := (CrdtState * nat)%type.

Section rebuild.
Variable actor : ActorId.
Variable stamp : nat → SharedTimestamp.

Definition stamped (b : Build) (w : CrdtState → SharedTimestamp → CrdtState * CrdtOp) : Build :=
  ((w b.1 (stamp b.2)).1, S b.2).

Definition rebuild_playlist (v : StateView) (b : Build) : Build :=
  foldl (λ b entry, stamped b (λ s ts, push_playlist_entry s actor ts
    (mkNewPlaylistEntry (pe_hash entry) (added_by (pe_state entry))
       (pfs_filename (pe_state entry)) (pfs_size_bytes (pe_state entry))
       (pfs_duration_millis (pe_state entry))))) b (v_playlist v).
Definition rebuild_watched (v : StateView) (b : Build) : Build :=
  foldl (λ b '(hash, w), if w : bool
           then stamped b (λ s ts, set_watched s actor ts hash true) else b)
    b (btree_iter (v_watched v)).
Definition rebuild_registers (v : StateView) (b : Build) : Build :=
  let b := stamped b (λ s ts, set_now_playing s actor ts (v_now_playing v)) in
  let b := match v_seek_authority v with
           | Some authority => stamped b (λ s ts, set_seek_authority s actor ts authority)
           | None => b
           end in
  stamped b (λ s ts, set_playback_intent s actor ts (v_playback_intent v)).
Definition rebuild_series_preference (v : StateView) (b : Build) : Build :=
  foldl (λ b '((user, series), pref), stamped b (λ s ts,
           set_series_preference s actor ts user series (pref_state pref) (pref_set_by pref)))
    b (btree_iter (v_series_preference v)).
Definition rebuild_manual_override (v : StateView) (b : Build) : Build :=
  foldl (λ b '(user, value), stamped b (λ s ts, set_manual_override s actor ts user value))
    b (btree_iter (v_manual_override v)).
Definition rebuild_file_availability (v : StateView) (b : Build) : Build :=
  foldl (λ b '((user, file), availability), stamped b (λ s ts,
           set_file_availability s actor ts user file availability))
    b (btree_iter (v_file_availability v)).
Definition rebuild_anidb_metadata (v : StateView) (b : Build) : Build :=
  foldl (λ b '(hash, metadata), stamped b (λ s ts, set_anidb_metadata s actor ts hash metadata))
    b (btree_iter (v_anidb_metadata v)).
Definition rebuild_series_relations (v : StateView) (b : Build) : Build :=
  foldl (λ b '(series, rels), stamped b (λ s ts, set_series_relations s actor ts series rels))
    b (btree_iter (v_series_relations v)).
Definition rebuild_file_catalog (v : StateView) (b : Build) : Build :=
  foldl (λ b '(hash, entry), stamped b (λ s ts, set_file_catalog s actor ts hash entry))
    b (btree_iter (v_file_catalog v)).
Definition rebuild_list_entries (v : StateView) (b : Build) : Build :=
  foldl (λ b '(id, entry), stamped b (λ s ts, put_list_entry s actor ts id entry))
    b (btree_iter (v_list_entries v)).
Definition rebuild_list_next_ep (v : StateView) (b : Build) : Build :=
  foldl (λ b '(id, next_ep), stamped b (λ s ts, set_next_ep s actor ts id next_ep))
    b (btree_iter (v_list_next_ep v)).
Definition rebuild_chat (v : StateView) (chat_keep : nat) (b : Build) : Build :=
  foldl (λ b message, ((append_chat b.1 message).1, b.2))
    b (reverse (take chat_keep (reverse (v_chat v)))).
Definition rebuild_playback_position (v : StateView) (b : Build) : Build :=
  foldl (λ b '(user, pos), stamped b (λ s ts, set_playback_position s actor ts user pos))
    b (btree_iter (v_playback_position v)).
Definition rebuild_saved_position (v : StateView) (b : Build) : Build :=
  foldl (λ b '(file, millis), if 0 <? millis
           then stamped b (λ s ts, set_saved_position s actor ts file millis) else b)
    b (btree_iter (v_saved_position v)).

(** [rebuild], with the number of stamps it took. *)
Definition rebuild_build (v : StateView) (chat_keep : nat) : Build :=
  let b := (new_state, 0%nat) in
  let b := rebuild_playlist v b in
  let b := rebuild_watched v b in
  let b := rebuild_registers v b in
  let b := rebuild_series_preference v b in
  let b := rebuild_manual_override v b in
  let b := rebuild_file_availability v b in
  let b := rebuild_anidb_metadata v b in
  let b := rebuild_series_relations v b in
  let b := rebuild_file_catalog v b in
  let b := rebuild_list_entries v b in
  let b := rebuild_list_next_ep v b in
  let b := rebuild_chat v chat_keep b in
  let b := rebuild_playback_position v b in
  rebuild_saved_position v b.
Definition rebuild (v : StateView) (chat_keep : nat) : CrdtState := (rebuild_build v chat_keep).1.

(** ** Loops that only write one map *)

Section one_map.
Context {K V : Type} `{Countable K, OK : !Ord K, !LawfulOrd K, OV : !Ord V, !LawfulOrd V}.
Implicit Types (m : LwwMap K V) (l : list (K * V)).

Definition puts (m : LwwMap K V) (n : nat) (l : list (K * V)) : LwwMap K V :=
  (foldl (λ mn kv, ((map_put mn.1 actor (stamp mn.2) kv.1 kv.2).1, S mn.2)) (m, n) l).1.

(** A map that only [actor] wrote, with stamps below [t]. *)
Record rebuilt m (t : SharedTimestamp) : Prop := {
  rb_deferred : map_deferred m = ∅;
  rb_clock_nonneg : 0 ≤ vget (map_clock m) actor;
  rb_actor a : a ≠ actor → map_clock m !! a = None;
  rb_stamps k e t' :
    map_entries m !! k = Some e → lww_cell_timestamp (entry_val e) = Some t' → t' < t
}.

Lemma rebuilt_empty t : rebuilt default_value t.
Proof. by split. Qed.

Lemma rebuilt_put_ok m t k :
  rebuilt m t → vget (map_clock m) actor < u64_max → put_ok m actor t k.
Proof. intros [] Hc. split; [done|]. split; [done|]. intros e t'. apply rb_stamps0. Qed.

Lemma rebuilt_mono m t t' : rebuilt m t → t ≤ t' → rebuilt m t'.
Proof. intros [] Ht. split; try done. intros k e u He Hu. specialize (rb_stamps0 k e u He Hu). lia. Qed.

Lemma rebuilt_put m t t' k (v : V) :
  rebuilt m t → vget (map_clock m) actor < u64_max → t < t' →
  rebuilt (map_put m actor t k v).1 t'.
Proof.
  intros Hm Hc Ht. pose proof (rebuilt_put_ok m t k Hm Hc) as Hok.
  pose proof (map_put_clock m actor t k v Hok) as Hclk.
  destruct (map_put_entries m actor t k v Hok) as (Hd & Hclock & He). destruct Hm. split.
  - done.
  - lia.
  - intros a Ha. rewrite Hclock, lookup_vapply; simpl. by rewrite decide_False, rb_actor0.
  - intros j e u. rewrite He. destruct (decide (k = j)) as [<-|Hne].
    + rewrite lookup_insert_eq. intros [= <-] [= <-]. done.
    + rewrite lookup_insert_ne by done. intros Hj Hu. specialize (rb_stamps0 j e u Hj Hu). lia.
Qed.

Lemma puts_cons m n kv l :
  puts m n (kv :: l) = puts (map_put m actor (stamp n) kv.1 kv.2).1 (S n) l.
Proof. done. Qed.

Hypothesis stamp_mono : ∀ i j, (i < j)%nat → stamp i < stamp j.

Lemma puts_spec m n l :
  rebuilt m (stamp n) → vget (map_clock m) actor + Z.of_nat (length l) ≤ u64_max →
  rebuilt (puts m n l) (stamp (n + length l)) ∧
  map_view (puts m n l) = foldl (λ g kv, <[kv.1 := kv.2]> g) (map_view m) l.
Proof.
  revert m n. induction l as [|[k v] l IH]; intros m n Hm Hc; simpl length in Hc.
  - by rewrite Nat.add_0_r.
  - assert (vget (map_clock m) actor < u64_max) as Hlt by lia.
    pose proof (rebuilt_put_ok m _ k Hm Hlt) as Hok.
    rewrite puts_cons; simpl. rewrite <-(map_view_put m actor (stamp n) k v Hok).
    replace (n + S (length l))%nat with (S n + length l)%nat by lia. apply IH.
    + apply rebuilt_put; [done|done|]. apply stamp_mono. lia.
    + rewrite map_put_clock by done. lia.
Qed.

Lemma foldl_insert_list_to_map (g : gmap K V) l :
  NoDup l.*1 → foldl (λ g kv, <[kv.1 := kv.2]> g) g l = list_to_map l ∪ g.
Proof.
  intros Hnd. apply map_eq. intros k.
  etrans; [exact (foldl_partial_alter_lookup (λ _ b _, Some b) l g k Hnd)|].
  rewrite lookup_union. destruct ((list_to_map l : gmap K V) !! k), (g !! k); done.
Qed.

Lemma list_to_map_filter_btree (P : K * V → Prop) `{∀ x, Decision (P x)} (g : gmap K V) :
  list_to_map (filter P (btree_iter g)) = filter P g.
Proof.
  apply map_eq. intros k. apply option_eq. intros v.
  rewrite <-elem_of_list_to_map, list_elem_of_filter, elem_of_btree_iter, map_lookup_filter_Some;
    [naive_solver|].
  eapply sublist_NoDup; [apply (NoDup_btree_iter g)|apply fmap_sublist, sublist_filter].
Qed.

(** Rewriting a map from scratch restores what was filtered in. *)
Lemma puts_restore n (P : K * V → Prop) `{∀ x, Decision (P x)} (g : gmap K V) :
  Z.of_nat (size g) ≤ u64_max →
  let l := filter P (btree_iter g) in
  rebuilt (puts default_value n l) (stamp (n + length l)) ∧
  map_view (puts default_value n l) = filter P g.
Proof.
  intros Hsize l. destruct (puts_spec default_value n l) as [Hr Hv].
  - apply rebuilt_empty.
  - assert (vget (map_clock (default_value : LwwMap K V)) actor = 0) as -> by done.
    assert (length l ≤ size g)%nat; [|lia].
    unfold l. etrans; [apply length_filter|]. rewrite btree_iter_perm. by rewrite length_map_to_list.
  - split; [done|]. rewrite Hv, foldl_insert_list_to_map.
    + unfold l. rewrite list_to_map_filter_btree. apply map_union_empty.
    + eapply sublist_NoDup; [apply (NoDup_btree_iter g)|apply fmap_sublist, sublist_filter].
Qed.

(** A loop of guarded writes to one field is [puts] on that field. *)
Lemma loop_fields (get : CrdtState → LwwMap K V) (set : CrdtState → LwwMap K V → CrdtState)
    (P : K * V → Prop) `{∀ x, Decision (P x)} (f : Build → K * V → Build) s n l :
  (∀ s, set s (get s) = s) → (∀ s m, get (set s m) = m) →
  (∀ s m m', set (set s m) m' = set s m') →
  (∀ b kv, f b kv = if decide (P kv)
     then (set b.1 (map_put (get b.1) actor (stamp b.2) kv.1 kv.2).1, S b.2) else b) →
  foldl f (s, n) l = (set s (puts (get s) n (filter P l)), n + length (filter P l))%nat.
Proof.
  intros H1 H2 H3 Hf. revert s n. induction l as [|kv l IH]; intros s n; simpl.
  - unfold puts; simpl. by rewrite H1, Nat.add_0_r.
  - rewrite Hf, filter_cons. case_decide; simpl; [|apply IH].
    rewrite IH, puts_cons, H2, H3. f_equal. lia.
Qed.
End one_map.

Ltac solve_loop :=
  unfold stamped; intros ? kv; repeat match goal with
                      | x : prod _ _ |- _ => destruct x
                      | x : SeriesPreference |- _ => destruct x
                      end; simpl;
  repeat case_match; try case_decide; simplify_eq/=; try done; try lia.

(** Each loop on a state in constructor form. *)
Lemma rebuild_watched_eq v n x1 x2 x3 x4 x5 x6 x7 x8 x9 x10
    x11 x12 x13 x14 x15 x16 x17 x18 x19 x20 : ∃ n',
  rebuild_watched v (mkCrdtState x1 x2 x3 x4 x5 x6 x7 x8 x9 x10
    x11 x12 x13 x14 x15 x16 x17 x18 x19 x20, n) =
  (mkCrdtState x1 (puts x2 n (filter (λ kv, kv.2 = true) (btree_iter (v_watched v))))
    x3 x4 x5 x6 x7 x8 x9 x10 x11 x12 x13 x14 x15 x16 x17 x18 x19 x20, n').
Proof.
  eexists. unfold rebuild_watched.
  apply (loop_fields watched with_watched (λ kv, kv.2 = true)); [by intros []|done|done|solve_loop].
Qed.
Lemma rebuild_series_preference_eq v n x1 x2 x3 x4 x5 x6 x7 x8 x9 x10
    x11 x12 x13 x14 x15 x16 x17 x18 x19 x20 : ∃ n',
  rebuild_series_preference v (mkCrdtState x1 x2 x3 x4 x5 x6 x7 x8 x9 x10
    x11 x12 x13 x14 x15 x16 x17 x18 x19 x20, n) =
  (mkCrdtState x1 x2 x3 x4 x5 (puts x6 n (filter (λ _, True) (btree_iter
    (v_series_preference v)))) x7 x8 x9 x10 x11 x12 x13 x14 x15 x16 x17 x18 x19 x20,
    n').
Proof.
  eexists. unfold rebuild_series_preference.
  apply (loop_fields series_preference with_series_preference (λ _, True)); [by intros []|done|done|solve_loop].
Qed.
Lemma rebuild_manual_override_eq v n x1 x2 x3 x4 x5 x6 x7 x8 x9 x10
    x11 x12 x13 x14 x15 x16 x17 x18 x19 x20 : ∃ n',
  rebuild_manual_override v (mkCrdtState x1 x2 x3 x4 x5 x6 x7 x8 x9 x10
    x11 x12 x13 x14 x15 x16 x17 x18 x19 x20, n) =
  (mkCrdtState x1 x2 x3 x4 x5 x6 (puts x7 n (filter (λ _, True) (btree_iter
    (v_manual_override v)))) x8 x9 x10 x11 x12 x13 x14 x15 x16 x17 x18 x19 x20, n').
Proof.
  eexists. unfold rebuild_manual_override.
  apply (loop_fields manual_override with_manual_override (λ _, True)); [by intros []|done|done|solve_loop].
Qed.
Lemma rebuild_file_availability_eq v n x1 x2 x3 x4 x5 x6 x7 x8 x9 x10
    x11 x12 x13 x14 x15 x16 x17 x18 x19 x20 : ∃ n',
  rebuild_file_availability v (mkCrdtState x1 x2 x3 x4 x5 x6 x7 x8 x9 x10
    x11 x12 x13 x14 x15 x16 x17 x18 x19 x20, n) =
  (mkCrdtState x1 x2 x3 x4 x5 x6 x7 (puts x8 n (filter (λ _, True) (btree_iter
    (v_file_availability v)))) x9 x10 x11 x12 x13 x14 x15 x16 x17 x18 x19 x20, n').
Proof.
  eexists. unfold rebuild_file_availability.
  apply (loop_fields file_availability with_file_availability (λ _, True)); [by intros []|done|done|solve_loop].
Qed.
Lemma rebuild_anidb_metadata_eq v n x1 x2 x3 x4 x5 x6 x7 x8 x9 x10
    x11 x12 x13 x14 x15 x16 x17 x18 x19 x20 : ∃ n',
  rebuild_anidb_metadata v (mkCrdtState x1 x2 x3 x4 x5 x6 x7 x8 x9 x10
    x11 x12 x13 x14 x15 x16 x17 x18 x19 x20, n) =
  (mkCrdtState x1 x2 x3 x4 x5 x6 x7 x8 (puts x9 n (filter (λ _, True) (btree_iter
    (v_anidb_metadata v)))) x10 x11 x12 x13 x14 x15 x16 x17 x18 x19 x20, n').
Proof.
  eexists. unfold rebuild_anidb_metadata.
  apply (loop_fields anidb_metadata with_anidb_metadata (λ _, True)); [by intros []|done|done|solve_loop].
Qed.
Lemma rebuild_series_relations_eq v n x1 x2 x3 x4 x5 x6 x7 x8 x9 x10
    x11 x12 x13 x14 x15 x16 x17 x18 x19 x20 : ∃ n',
  rebuild_series_relations v (mkCrdtState x1 x2 x3 x4 x5 x6 x7 x8 x9 x10
    x11 x12 x13 x14 x15 x16 x17 x18 x19 x20, n) =
  (mkCrdtState x1 x2 x3 x4 x5 x6 x7 x8 x9 (puts x10 n (filter (λ _, True) (btree_iter
    (v_series_relations v)))) x11 x12 x13 x14 x15 x16 x17 x18 x19 x20, n').
Proof.
  eexists. unfold rebuild_series_relations.
  apply (loop_fields series_relations with_series_relations (λ _, True)); [by intros []|done|done|solve_loop].
Qed.
Lemma rebuild_file_catalog_eq v n x1 x2 x3 x4 x5 x6 x7 x8 x9 x10
    x11 x12 x13 x14 x15 x16 x17 x18 x19 x20 : ∃ n',
  rebuild_file_catalog v (mkCrdtState x1 x2 x3 x4 x5 x6 x7 x8 x9 x10
    x11 x12 x13 x14 x15 x16 x17 x18 x19 x20, n) =
  (mkCrdtState x1 x2 x3 x4 x5 x6 x7 x8 x9 x10 (puts x11 n (filter (λ _, True)
    (btree_iter (v_file_catalog v)))) x12 x13 x14 x15 x16 x17 x18 x19 x20, n').
Proof.
  eexists. unfold rebuild_file_catalog.
  apply (loop_fields file_catalog with_file_catalog (λ _, True)); [by intros []|done|done|solve_loop].
Qed.
Lemma rebuild_list_entries_eq v n x1 x2 x3 x4 x5 x6 x7 x8 x9 x10
    x11 x12 x13 x14 x15 x16 x17 x18 x19 x20 : ∃ n',
  rebuild_list_entries v (mkCrdtState x1 x2 x3 x4 x5 x6 x7 x8 x9 x10
    x11 x12 x13 x14 x15 x16 x17 x18 x19 x20, n) =
  (mkCrdtState x1 x2 x3 x4 x5 x6 x7 x8 x9 x10 x11 (puts x12 n (filter (λ _, True)
    (btree_iter (v_list_entries v)))) x13 x14 x15 x16 x17 x18 x19 x20, n').
Proof.
  eexists. unfold rebuild_list_entries.
  apply (loop_fields list_entries with_list_entries (λ _, True)); [by intros []|done|done|solve_loop].
Qed.
Lemma rebuild_list_next_ep_eq v n x1 x2 x3 x4 x5 x6 x7 x8 x9 x10
    x11 x12 x13 x14 x15 x16 x17 x18 x19 x20 : ∃ n',
  rebuild_list_next_ep v (mkCrdtState x1 x2 x3 x4 x5 x6 x7 x8 x9 x10
    x11 x12 x13 x14 x15 x16 x17 x18 x19 x20, n) =
  (mkCrdtState x1 x2 x3 x4 x5 x6 x7 x8 x9 x10 x11 x12 (puts x13 n (filter (λ _, True)
    (btree_iter (v_list_next_ep v)))) x14 x15 x16 x17 x18 x19 x20, n').
Proof.
  eexists. unfold rebuild_list_next_ep.
  apply (loop_fields list_next_ep with_list_next_ep (λ _, True)); [by intros []|done|done|solve_loop].
Qed.
Lemma rebuild_playback_position_eq v n x1 x2 x3 x4 x5 x6 x7 x8 x9 x10
    x11 x12 x13 x14 x15 x16 x17 x18 x19 x20 : ∃ n',
  rebuild_playback_position v (mkCrdtState x1 x2 x3 x4 x5 x6 x7 x8 x9 x10
    x11 x12 x13 x14 x15 x16 x17 x18 x19 x20, n) =
  (mkCrdtState x1 x2 x3 x4 x5 x6 x7 x8 x9 x10 x11 x12 x13 x14 x15 (puts x16 n (filter
    (λ _, True) (btree_iter (v_playback_position v)))) x17 x18 x19 x20, n').
Proof.
  eexists. unfold rebuild_playback_position.
  apply (loop_fields playback_position with_playback_position (λ _, True)); [by intros []|done|done|solve_loop].
Qed.
Lemma rebuild_saved_position_eq v n x1 x2 x3 x4 x5 x6 x7 x8 x9 x10
    x11 x12 x13 x14 x15 x16 x17 x18 x19 x20 : ∃ n',
  rebuild_saved_position v (mkCrdtState x1 x2 x3 x4 x5 x6 x7 x8 x9 x10
    x11 x12 x13 x14 x15 x16 x17 x18 x19 x20, n) =
  (mkCrdtState x1 x2 x3 x4 x5 x6 x7 x8 x9 x10 x11 x12 x13 x14 x15 x16 x17 x18 (puts x19
    n (filter (λ kv, 0 < kv.2) (btree_iter (v_saved_position v)))) x20, n').
Proof.
  eexists. unfold rebuild_saved_position.
  apply (loop_fields saved_position with_saved_position (λ kv, 0 < kv.2)); [by intros []|done|done|solve_loop].
Qed.

(** The playlist: what an entry says, its position aside. *)
Definition entry_facts (e : PlaylistEntry)
    : Ed2kHash * UserId * string * Z * option positive :=
  (pe_hash e, added_by (pe_state e), pfs_filename (pe_state e), pfs_size_bytes (pe_state e),
   pfs_duration_millis (pe_state e)).

Lemma playlist_entries_ext s t :
  playlist s = playlist t → playlist_entries s = playlist_entries t.
Proof. unfold playlist_entries. by intros ->. Qed.

Lemma others_absent h s : h ∉ pe_hash <$> playlist_entries s → others h s = playlist_entries s.
Proof.
  intros Hh. unfold others. apply filter_all. intros e He Heq.
  apply Hh, list_elem_of_fmap. by exists e.
Qed.

Lemma rebuild_playlist_spec (l : list PlaylistEntry) s n :
  (∀ i j, (i < j)%nat → stamp i < stamp j) →
  NoDup ((pe_hash <$> playlist_entries s) ++ (pe_hash <$> l)) →
  ids_ok (playlist_entries s) → rebuilt (playlist s) (stamp n) →
  vget (map_clock (playlist s)) actor + Z.of_nat (length l) ≤ u64_max →
  ∃ pl n', foldl (λ b entry, stamped b (λ s ts, push_playlist_entry s actor ts
      (mkNewPlaylistEntry (pe_hash entry) (added_by (pe_state entry))
       (pfs_filename (pe_state entry)) (pfs_size_bytes (pe_state entry))
       (pfs_duration_millis (pe_state entry))))) (s, n) l = (with_playlist s pl, n') ∧
    rebuilt pl (stamp n') ∧
    entry_facts <$> playlist_entries (with_playlist s pl) =
      (entry_facts <$> playlist_entries s) ++ (entry_facts <$> l).
Proof.
  intros Hmono. revert s n. induction l as [|e l IH]; intros s n Hnd Hids Hrb Hc.
  - exists (playlist s), n. simpl. rewrite app_nil_r. by destruct s.
  - simpl length in Hc. assert (vget (map_clock (playlist s)) actor < u64_max) as Hlt by lia.
    cbn [foldl]. unfold stamped at 2.
    set (new := mkNewPlaylistEntry _ _ _ _ _).
    pose proof (rebuilt_put_ok (playlist s) _ (new_hash new) Hrb Hlt) as Hput.
    pose proof (push_places s actor (stamp n) new Hput Hids) as Hpush.
    set (added := added_entry _ _ _ _) in Hpush.
    rewrite others_absent in Hpush.
    2: { intros Hin. simpl in Hnd. apply NoDup_app in Hnd as (_ & Hdis & _).
         apply (Hdis (pe_hash e)); [done|left]. }
    set (s' := (push_playlist_entry s actor (stamp n) new).1) in *.
    destruct (IH s' (S n)) as (pl & n' & Hfold & Hrb' & Hfacts).
    + rewrite Hpush, fmap_app, <-app_assoc. exact Hnd.
    + rewrite Hpush. intros x [Hx|Hx%list_elem_of_singleton]%elem_of_app; [by apply Hids|subst x].
      unfold added, added_entry; simpl. rewrite position_after_slot, slot_push, drop_all; simpl.
      apply between_none_ok.
    + apply (rebuilt_put (playlist s) (stamp n)); [done|done|]. apply Hmono. lia.
    + change (playlist s') with (map_put (playlist s) actor (stamp n) (new_hash new)
        (Some (pe_state added))).1. rewrite map_put_clock by done. lia.
    + exists pl, n'. split; [exact Hfold|]. split; [done|].
      etrans; [|etrans; [exact Hfacts|]].
      * done.
      * rewrite Hpush, fmap_app, <-app_assoc. done.
Qed.

Lemma rebuild_chat_spec (l : list ChatMessage) s (n : nat) xs :
  glist_ok (chat s) → glist_read (chat s) = Some xs →
  ∃ c, foldl (λ b message, ((append_chat b.1 message).1, b.2)) (s, n) l = (with_chat s c, n) ∧
    glist_ok c ∧ glist_read c = Some (xs ++ l).
Proof.
  revert s xs. induction l as [|x l IH]; intros s xs Hok Hxs.
  - exists (chat s). rewrite app_nil_r. by destruct s.
  - cbn [foldl fst snd]. destruct (IH (append_chat s x).1 (xs ++ [x])) as (c & Hf & Hc & Hr).
    + apply glist_apply_ok; [done|]. by destruct (append_id_spec (chat s) x Hok).
    + by apply glist_append_read.
    + exists c. rewrite Hf, <-app_assoc in *. done.
Qed.
End rebuild.

(** ** What compaction preserves *)

(** The documented reductions, and nothing else. *)
Record compacted (chat_keep : nat) (v v' : StateView) : Prop := {
  cp_playlist : entry_facts <$> v_playlist v' = entry_facts <$> v_playlist v;
  cp_watched : v_watched v' = filter (λ kv, kv.2 = true) (v_watched v);
  cp_now_playing : v_now_playing v' = v_now_playing v;
  cp_seek_authority : v_seek_authority v' = v_seek_authority v;
  cp_playback_intent : v_playback_intent v' = v_playback_intent v;
  cp_series_preference : v_series_preference v' = v_series_preference v;
  cp_manual_override : v_manual_override v' = v_manual_override v;
  cp_file_availability : v_file_availability v' = v_file_availability v;
  cp_anidb_metadata : v_anidb_metadata v' = v_anidb_metadata v;
  cp_series_relations : v_series_relations v' = v_series_relations v;
  cp_file_catalog : v_file_catalog v' = v_file_catalog v;
  cp_list_entries : v_list_entries v' = v_list_entries v;
  cp_list_next_ep : v_list_next_ep v' = v_list_next_ep v;
  cp_lookup_requests : v_lookup_requests v' = ∅;
  cp_chat : ∃ dropped, v_chat v = dropped ++ v_chat v' ∧
              length (v_chat v') = Nat.min chat_keep (length (v_chat v));
  cp_playback_position : v_playback_position v' = v_playback_position v;
  cp_acknowledged_absent : v_acknowledged_absent v' = ∅;
  cp_marquee : v_marquee v' = None;
  cp_saved_position : v_saved_position v' = filter (λ kv, 0 < kv.2) (v_saved_position v)
}.

(** A dot counter is a [u64]: no map may hold more entries than that. *)
Definition fits_u64 (v : StateView) : Prop :=
  Forall (λ n, Z.of_nat n ≤ u64_max)
    [ length (v_playlist v); size (v_watched v); size (v_series_preference v);
      size (v_manual_override v); size (v_file_availability v); size (v_anidb_metadata v);
      size (v_series_relations v); size (v_file_catalog v); size (v_list_entries v);
      size (v_list_next_ep v); size (v_playback_position v); size (v_saved_position v) ].

Lemma chat_kept (k : nat) (l : list ChatMessage) :
  let kept := reverse (take k (reverse l)) in
  (∃ dropped, l = dropped ++ kept) ∧ length kept = Nat.min k (length l).
Proof.
  simpl. split.
  - exists (reverse (drop k (reverse l))). by rewrite <-reverse_app, take_drop, reverse_involutive.
  - by rewrite length_reverse, length_take, length_reverse.
Qed.

Lemma map_filter_True `{Countable K} {V} (g : gmap K V) : filter (λ _, True) g = g.
Proof. by apply map_filter_id. Qed.

Section correct.
Variable actor : ActorId.
Variable stamp : nat → SharedTimestamp.
Hypothesis stamp_mono : ∀ i j, (i < j)%nat → stamp i < stamp j.

Abbreviation puts := (puts actor stamp).

Lemma new_state_eq : new_state =
  mkCrdtState default_value default_value default_value default_value default_value
    default_value default_value default_value default_value default_value default_value
    default_value default_value ∅ default_value default_value ∅ default_value default_value
    PROTOCOL_VERSION.
Proof. reflexivity. Qed.

Lemma rebuild_registers_eq v n x1 x2 x6 x7 x8 x9 x10 x11 x12 x13 x14 x15 x16 x17 x18 x19 x20 :
  ∃ t1 t2 t3 n',
    rebuild_registers actor stamp v (mkCrdtState x1 x2 default_value default_value
      default_value x6 x7 x8 x9 x10 x11 x12 x13 x14 x15 x16 x17 x18 x19 x20, n) =
    (mkCrdtState x1 x2 (mkLwwCell (Some (mkLww t1 (v_now_playing v))))
      (mkLwwCell (mkLww t2 <$> v_seek_authority v))
      (mkLwwCell (Some (mkLww t3 (v_playback_intent v))))
      x6 x7 x8 x9 x10 x11 x12 x13 x14 x15 x16 x17 x18 x19 x20, n').
Proof.
  exists (stamp n), (stamp (S n)).
  unfold rebuild_registers, stamped. destruct (v_seek_authority v); simpl; by do 2 eexists.
Qed.

Lemma rebuild_chat_eq v keep n x1 x2 x3 x4 x5 x6 x7 x8 x9 x10 x11 x12 x13 x14 x16 x17 x18 x19 x20 :
  ∃ c, rebuild_chat v keep (mkCrdtState x1 x2 x3 x4 x5 x6 x7 x8 x9 x10 x11 x12 x13 x14
         default_value x16 x17 x18 x19 x20, n) =
       (mkCrdtState x1 x2 x3 x4 x5 x6 x7 x8 x9 x10 x11 x12 x13 x14 c x16 x17 x18 x19 x20, n) ∧
    glist_read c = Some (reverse (take keep (reverse (v_chat v)))).
Proof.
  destruct (rebuild_chat_spec (reverse (take keep (reverse (v_chat v))))
    (mkCrdtState x1 x2 x3 x4 x5 x6 x7 x8 x9 x10 x11 x12 x13 x14 default_value x16 x17 x18
       x19 x20) n []) as (c & Hf & _ & Hc); [|reflexivity|by exists c].
  intros x Hx. by apply not_elem_of_empty in Hx.
Qed.

(** The state [rebuild] returns, field by field. *)
Lemma rebuild_shape v keep :
  NoDup (pe_hash <$> v_playlist v) → Z.of_nat (length (v_playlist v)) ≤ u64_max →
  ∃ pl c n0 n1 n2 n3 n4 n5 n6 n7 n8 n9 n10 n11 t1 t2 t3,
    rebuild actor stamp v keep =
      mkCrdtState pl
        (puts default_value n1 (filter (λ kv, kv.2 = true) (btree_iter (v_watched v))))
        (mkLwwCell (Some (mkLww t1 (v_now_playing v))))
        (mkLwwCell (mkLww t2 <$> v_seek_authority v))
        (mkLwwCell (Some (mkLww t3 (v_playback_intent v))))
        (puts default_value n2 (filter (λ _, True) (btree_iter (v_series_preference v))))
        (puts default_value n3 (filter (λ _, True) (btree_iter (v_manual_override v))))
        (puts default_value n4 (filter (λ _, True) (btree_iter (v_file_availability v))))
        (puts default_value n5 (filter (λ _, True) (btree_iter (v_anidb_metadata v))))
        (puts default_value n6 (filter (λ _, True) (btree_iter (v_series_relations v))))
        (puts default_value n7 (filter (λ _, True) (btree_iter (v_file_catalog v))))
        (puts default_value n8 (filter (λ _, True) (btree_iter (v_list_entries v))))
        (puts default_value n9 (filter (λ _, True) (btree_iter (v_list_next_ep v))))
        ∅ c
        (puts default_value n10 (filter (λ _, True) (btree_iter (v_playback_position v))))
        ∅ default_value
        (puts default_value n11 (filter (λ kv, 0 < kv.2) (btree_iter (v_saved_position v))))
        PROTOCOL_VERSION ∧
    rebuilt actor pl (stamp n0) ∧
    entry_facts <$> playlist_entries (with_playlist new_state pl) =
      entry_facts <$> v_playlist v ∧
    glist_read c = Some (reverse (take keep (reverse (v_chat v)))).
Proof.
  intros Hnd Hlen. unfold rebuild, rebuild_build.
  destruct (rebuild_playlist_spec actor stamp (v_playlist v) new_state 0)
    as (pl & n0 & Hpl & Hrb & Hfacts); [done|done|by intros ? ?%elem_of_nil|by split|done|].
  change (foldl _ _ (v_playlist v)) with (rebuild_playlist actor stamp v (new_state, 0%nat)) in Hpl.
  rewrite Hpl. clear Hpl.
  change (with_playlist new_state pl) with (mkCrdtState pl default_value default_value
    default_value default_value default_value default_value default_value default_value
    default_value default_value default_value default_value ∅ default_value default_value ∅
    default_value default_value PROTOCOL_VERSION) at 1.
  edestruct (rebuild_watched_eq actor stamp v) as [m1 ->].
  edestruct rebuild_registers_eq as (t1 & t2 & t3 & m2 & ->).
  edestruct (rebuild_series_preference_eq actor stamp v) as [m3 ->].
  edestruct (rebuild_manual_override_eq actor stamp v) as [m4 ->].
  edestruct (rebuild_file_availability_eq actor stamp v) as [m5 ->].
  edestruct (rebuild_anidb_metadata_eq actor stamp v) as [m6 ->].
  edestruct (rebuild_series_relations_eq actor stamp v) as [m7 ->].
  edestruct (rebuild_file_catalog_eq actor stamp v) as [m8 ->].
  edestruct (rebuild_list_entries_eq actor stamp v) as [m9 ->].
  edestruct (rebuild_list_next_ep_eq actor stamp v) as [m10 ->].
  edestruct rebuild_chat_eq as (c & -> & Hc).
  edestruct (rebuild_playback_position_eq actor stamp v) as [m12 ->].
  edestruct (rebuild_saved_position_eq actor stamp v) as [m13 ->].
  do 17 eexists. split; [reflexivity|]. done.
Qed.

Lemma puts_all {K V} `{Countable K, OK : !Ord K, !LawfulOrd K, OV : !Ord V, !LawfulOrd V}
    n (g : gmap K V) :
  Z.of_nat (size g) ≤ u64_max →
  map_view (puts default_value n (filter (λ _, True) (btree_iter g))) = g.
Proof.
  intros Hs. destruct (puts_restore actor stamp stamp_mono n (λ _, True) g Hs) as [_ ->].
  apply map_filter_True.
Qed.

Lemma rebuild_view v keep :
  NoDup (pe_hash <$> v_playlist v) → fits_u64 v →
  ∃ v', view (rebuild actor stamp v keep) = Some v' ∧ compacted keep v v'.
Proof.
  intros Hnd Hfit. unfold fits_u64 in Hfit. rewrite !Forall_cons in Hfit.
  destruct Hfit as (Hpl & Hw & Hsp & Hmo & Hfa & Ham & Hsr & Hfc & Hle & Hln & Hpp & Hsv & _).
  destruct (rebuild_shape v keep Hnd Hpl) as
    (pl & c & n0 & n1 & n2 & n3 & n4 & n5 & n6 & n7 & n8 & n9 & n10 & n11 & t1 & t2 & t3
     & -> & _ & Hfacts & Hc).
  unfold view. cbn [chat]. rewrite Hc. cbn [mbind option_bind].
  eexists. split; [reflexivity|]. split; cbn -[filter puts map_view];
    try (by apply puts_all); try done.
  - by apply (puts_restore actor stamp stamp_mono n1 (λ kv, kv.2 = true)).
  - by destruct (v_seek_authority v).
  - destruct (chat_kept keep (v_chat v)) as [[d Hd] Hlen]. by exists d.
  - by apply (puts_restore actor stamp stamp_mono n11 (λ kv, 0 < kv.2)).
Qed.

(** Only the rebuilding actor is in the clocks. *)
Lemma rebuild_clocks v keep f a :
  NoDup (pe_hash <$> v_playlist v) → fits_u64 v → a ≠ actor →
  map_clock (mget f (rebuild actor stamp v keep)) !! a = None.
Proof.
  intros Hnd Hfit Ha. unfold fits_u64 in Hfit. rewrite !Forall_cons in Hfit.
  destruct Hfit as (Hpl & Hw & Hsp & Hmo & Hfa & Ham & Hsr & Hfc & Hle & Hln & Hpp & Hsv & _).
  destruct (rebuild_shape v keep Hnd Hpl) as
    (pl & c & n0 & n1 & n2 & n3 & n4 & n5 & n6 & n7 & n8 & n9 & n10 & n11 & t1 & t2 & t3
     & -> & Hrb & _ & _).
  destruct f; [by apply (rb_actor _ _ _ Hrb)|..];
    refine (rb_actor actor _ _ (proj1 (puts_restore actor stamp stamp_mono _ _ _ _)) a Ha);
    assumption.
Qed.
End correct.

(** ** The floor of a rebuilt state *)

Section floor.
Variable actor : ActorId.
Variable stamp : nat → SharedTimestamp.

(** A pass takes its stamps in order and writes with nothing else. *)
Definition pass (f : Build → Build) : Prop :=
  ∀ b, (b.2 ≤ (f b).2)%nat ∧
    ∀ X, lamport b.1 X → (∀ n, (n < (f b).2)%nat → stamp n ≤ X) → lamport (f b).1 X.

Lemma pass_id : pass (λ b, b).
Proof. intros b. split; [done|auto]. Qed.
Lemma pass_then f g : pass f → pass g → pass (λ b, g (f b)).
Proof.
  intros Hf Hg b. destruct (Hf b) as [F1 F2], (Hg (f b)) as [G1 G2]. split; [lia|].
  intros X Hb Hn. apply G2; [|done]. apply F2; [done|]. intros n ?. apply Hn. lia.
Qed.
Lemma pass_fold {A} (F : Build → A → Build) l :
  (∀ x, pass (λ b, F b x)) → pass (λ b, foldl F b l).
Proof.
  intros HF. induction l as [|x l IH]; [apply pass_id|]. cbn [foldl].
  apply (pass_then (λ b, F b x) (λ b, foldl F b l)); [apply HF|done].
Qed.
Lemma pass_stamped (w : CrdtState → SharedTimestamp → CrdtState * CrdtOp) :
  (∀ s ts, ∃ lw, w s ts = run_write lw actor ts s) → pass (λ b, stamped stamp b w).
Proof.
  intros Hw b. split; [simpl; lia|]. intros X Hb Hn. simpl. destruct (Hw b.1 (stamp b.2)) as [lw ->].
  apply lamport_write; [done|]. apply Hn. simpl. lia.
Qed.
Lemma pass_chat message : pass (λ b, ((append_chat b.1 message).1, b.2)).
Proof.
  intros b. split; [done|]. intros X Hb _. simpl.
  by apply (lamport_write (WChat message) actor X b.1 X).
Qed.

(** Every stamp taken below [X] puts the state below [X]. *)
Definition sound (b : Build) : Prop :=
  ∀ X, (∀ n, (n < b.2)%nat → stamp n ≤ X) → lamport b.1 X.
Lemma sound_then f b : pass f → sound b → sound (f b).
Proof.
  intros Hf Hb X Hn. destruct (Hf b) as [H1 H2]. apply H2; [|done]. apply Hb. intros n ?. apply Hn. lia.
Qed.
Lemma count_then f b k : pass f → (k ≤ b.2)%nat → (k ≤ (f b).2)%nat.
Proof. intros Hf Hb. destruct (Hf b). lia. Qed.

(** The write a stamped mutator is. *)
Ltac some_write :=
  intros ? ?;
  first [ by eexists (WPlaylistEntry _ _) | by eexists (WWatched _ _) | by eexists (WNowPlaying _)
        | by eexists (WSeekAuthority _) | by eexists (WPlaybackIntent _)
        | by eexists (WSeriesPreference _ _ _ _) | by eexists (WManualOverride _ _)
        | by eexists (WFileAvailability _ _ _) | by eexists (WAniDbMetadata _ _)
        | by eexists (WSeriesRelations _ _) | by eexists (WFileCatalog _ _)
        | by eexists (WListEntry _ _) | by eexists (WNextEp _ _)
        | by eexists (WPlaybackPosition _ _) | by eexists (WSavedPosition _ _) ].
Ltac pass_loop :=
  apply pass_fold; intros x; repeat case_match;
  first [apply pass_id | apply pass_chat | apply pass_stamped; some_write].
Ltac pass_rebuild :=
  first [ exact (pass_fold _ _ ltac:(intros x; apply pass_stamped; some_write)) | pass_loop ].

Lemma pass_registers v : pass (rebuild_registers actor stamp v).
Proof.
  assert (∀ w : CrdtState → SharedTimestamp → LocalWrite, pass (λ b,
    stamped stamp b (λ s ts, run_write (w s ts) actor ts s))) as Hw.
  { intros w. apply pass_stamped. intros s ts. by exists (w s ts). }
  pose proof (Hw (λ _ _, WNowPlaying (v_now_playing v))) as H1.
  pose proof (Hw (λ _ _, WPlaybackIntent (v_playback_intent v))) as H2.
  unfold rebuild_registers. destruct (v_seek_authority v) as [a|].
  - exact (pass_then _ _ (pass_then _ _ H1 (Hw (λ _ _, WSeekAuthority a))) H2).
  - exact (pass_then _ _ H1 H2).
Qed.

Lemma rebuild_passes v keep (P : Build → Prop) :
  (∀ f b, pass f → P b → P (f b)) →
  P (rebuild_registers actor stamp v (rebuild_watched actor stamp v
       (rebuild_playlist actor stamp v (new_state, 0%nat)))) →
  P (rebuild_build actor stamp v keep).
Proof.
  intros HP Hr. unfold rebuild_build. cbn zeta.
  unfold rebuild_saved_position; apply (HP (λ b, foldl _ b _)); [pass_loop|].
  unfold rebuild_playback_position; apply (HP (λ b, foldl _ b _)); [pass_loop|].
  unfold rebuild_chat; apply (HP (λ b, foldl _ b _)); [pass_loop|].
  unfold rebuild_list_next_ep; apply (HP (λ b, foldl _ b _)); [pass_loop|].
  unfold rebuild_list_entries; apply (HP (λ b, foldl _ b _)); [pass_loop|].
  unfold rebuild_file_catalog; apply (HP (λ b, foldl _ b _)); [pass_loop|].
  unfold rebuild_series_relations; apply (HP (λ b, foldl _ b _)); [pass_loop|].
  unfold rebuild_anidb_metadata; apply (HP (λ b, foldl _ b _)); [pass_loop|].
  unfold rebuild_file_availability; apply (HP (λ b, foldl _ b _)); [pass_loop|].
  unfold rebuild_manual_override; apply (HP (λ b, foldl _ b _)); [pass_loop|].
  unfold rebuild_series_preference; apply (HP (λ b, foldl _ b _)); [pass_loop|].
  exact Hr.
Qed.

Lemma rebuild_lamport v keep X :
  (∀ n, (n < (rebuild_build actor stamp v keep).2)%nat → stamp n ≤ X) →
  lamport (rebuild actor stamp v keep) X.
Proof.
  revert X. apply (rebuild_passes v keep sound); [intros; by apply sound_then|].
  apply sound_then; [apply pass_registers|].
  unfold rebuild_watched; apply (sound_then (λ b, foldl _ b _)); [pass_loop|].
  unfold rebuild_playlist; apply (sound_then (λ b, foldl _ b _)); [pass_loop|].
  intros X _. apply lamport_new.
Qed.

(** It takes at least one stamp: the registers are always written. *)
Lemma rebuild_takes_stamp v keep : (1 ≤ (rebuild_build actor stamp v keep).2)%nat.
Proof.
  apply (rebuild_passes v keep (λ b, (1 ≤ b.2)%nat)); [intros; by apply count_then|].
  unfold rebuild_registers. destruct (v_seek_authority v); simpl; lia.
Qed.
End floor.

(** ** Only the stamps that are taken matter *)

Section agree.
Variable actor : ActorId.
Variables stamp stamp' : nat → SharedTimestamp.

Definition agree (f g : Build → Build) : Prop :=
  ∀ b, (b.2 ≤ (f b).2)%nat ∧ ((∀ n, (n < (f b).2)%nat → stamp n = stamp' n) → f b = g b).
Lemma agree_then f f' g g' : agree f f' → agree g g' → agree (λ b, g (f b)) (λ b, g' (f' b)).
Proof.
  intros Hf Hg b. destruct (Hf b) as [F1 F2], (Hg (f b)) as [G1 G2]. split; [lia|].
  intros Hn. rewrite <-F2 by (intros n ?; apply Hn; lia). by apply G2.
Qed.
Lemma agree_id : agree (λ b, b) (λ b, b).
Proof. by split. Qed.
Lemma agree_fold {A} (F F' : Build → A → Build) l :
  (∀ x, agree (λ b, F b x) (λ b, F' b x)) → agree (λ b, foldl F b l) (λ b, foldl F' b l).
Proof.
  intros HF. induction l as [|x l IH]; [apply agree_id|]. cbn [foldl].
  apply (agree_then (λ b, F b x) (λ b, F' b x) (λ b, foldl F b l) (λ b, foldl F' b l)); [apply HF|done].
Qed.
Lemma agree_stamped w : agree (λ b, stamped stamp b w) (λ b, stamped stamp' b w).
Proof. intros b. split; [simpl; lia|]. intros Hn. unfold stamped. by rewrite Hn by (simpl; lia). Qed.
Lemma agree_free (f : CrdtState → CrdtState) : agree (λ b, (f b.1, b.2)) (λ b, (f b.1, b.2)).
Proof. by split. Qed.

Ltac agree_loop :=
  apply agree_fold; intros x; repeat case_match;
  first [apply agree_id | apply agree_free | apply agree_stamped].
Lemma agree_registers v : agree (rebuild_registers actor stamp v) (rebuild_registers actor stamp' v).
Proof.
  unfold rebuild_registers. destruct (v_seek_authority v) as [a|].
  - exact (agree_then _ _ _ _ (agree_then _ _ _ _ (agree_stamped _) (agree_stamped _)) (agree_stamped _)).
  - exact (agree_then _ _ _ _ (agree_stamped _) (agree_stamped _)).
Qed.

(** Builds that are equal if the stamps taken are. *)
Definition agreed (b b' : Build) : Prop :=
  (∀ n, (n < b.2)%nat → stamp n = stamp' n) → b = b'.
Lemma agreed_step f f' b b' : agree f f' → agreed b b' → agreed (f b) (f' b').
Proof.
  intros Hf Hb Hn. destruct (Hf b) as [H1 H2]. rewrite <-Hb by (intros n ?; apply Hn; lia). by apply H2.
Qed.

Lemma rebuild_build_agree v keep :
  (∀ n, (n < (rebuild_build actor stamp v keep).2)%nat → stamp n = stamp' n) →
  rebuild_build actor stamp v keep = rebuild_build actor stamp' v keep.
Proof.
  change (agreed (rebuild_build actor stamp v keep) (rebuild_build actor stamp' v keep)).
  unfold rebuild_build. cbn zeta.
  unfold rebuild_saved_position; apply (agreed_step (λ b, foldl _ b _) (λ b, foldl _ b _)); [agree_loop|].
  unfold rebuild_playback_position; apply (agreed_step (λ b, foldl _ b _) (λ b, foldl _ b _)); [agree_loop|].
  unfold rebuild_chat; apply (agreed_step (λ b, foldl _ b _) (λ b, foldl _ b _)).
  { apply agree_fold. intros x. exact (agree_free (λ s, (append_chat s x).1)). }
  unfold rebuild_list_next_ep; apply (agreed_step (λ b, foldl _ b _) (λ b, foldl _ b _)); [agree_loop|].
  unfold rebuild_list_entries; apply (agreed_step (λ b, foldl _ b _) (λ b, foldl _ b _)); [agree_loop|].
  unfold rebuild_file_catalog; apply (agreed_step (λ b, foldl _ b _) (λ b, foldl _ b _)); [agree_loop|].
  unfold rebuild_series_relations; apply (agreed_step (λ b, foldl _ b _) (λ b, foldl _ b _)); [agree_loop|].
  unfold rebuild_anidb_metadata; apply (agreed_step (λ b, foldl _ b _) (λ b, foldl _ b _)); [agree_loop|].
  unfold rebuild_file_availability; apply (agreed_step (λ b, foldl _ b _) (λ b, foldl _ b _)); [agree_loop|].
  unfold rebuild_manual_override; apply (agreed_step (λ b, foldl _ b _) (λ b, foldl _ b _)); [agree_loop|].
  unfold rebuild_series_preference; apply (agreed_step (λ b, foldl _ b _) (λ b, foldl _ b _)); [agree_loop|].
  apply (agreed_step _ _ _ _ (agree_registers v)).
  unfold rebuild_watched; apply (agreed_step (λ b, foldl _ b _) (λ b, foldl _ b _)); [agree_loop|].
  unfold rebuild_playlist; apply (agreed_step (λ b, foldl _ b _) (λ b, foldl _ b _)); [agree_loop|].
  done.
Qed.
End agree.

(** ** Statements *)

(** Compaction preserves the resolved view exactly, up to the documented
    reductions: chat trimmed to its tail, [false] watched flags and zero saved
    positions dropped, the lookup, acknowledgement and marquee state emptied,
    playlist positions reassigned. *)
Theorem rebuild_preserves_view s v actor keep stamp :
  (∀ i j, (i < j)%nat → stamp i < stamp j) →
  view s = Some v → fits_u64 v →
  ∃ v', view (rebuild actor stamp v keep) = Some v' ∧ compacted keep v v'.
Proof.
  intros Hst Hv Hfit. apply rebuild_view; [done| |done].
  unfold view in Hv. destruct (glist_read (chat s)); simplify_eq/=. apply NoDup_playlist_hashes.
Qed.

(** The rebuilt state has forgotten every session: each map's clock knows
    the rebuilding actor and nobody else. *)
Theorem rebuild_forgets_sessions s v actor keep stamp f a :
  (∀ i j, (i < j)%nat → stamp i < stamp j) →
  view s = Some v → fits_u64 v → a ≠ actor →
  map_clock (mget f (rebuild actor stamp v keep)) !! a = None.
Proof.
  intros Hst Hv Hfit Ha. apply rebuild_clocks; [done| |done|done].
  unfold view in Hv. destruct (glist_read (chat s)); simplify_eq/=. apply NoDup_playlist_hashes.
Qed.

(** A two-entry playlist with a watched flag and an unwatched one. *)
Definition ex_compact : CrdtState :=
  let s := (set_watched ex_list SERVER 3 (mkEd2kHash [1]) true).1 in
  (set_watched s SERVER 4 (mkEd2kHash [2]) false).1.

Lemma ex_compact_view : ∃ v, view ex_compact = Some v ∧ fits_u64 v.
Proof.
  eexists. split.
  - unfold view. replace (glist_read (chat ex_compact)) with (Some ([] : list ChatMessage))
      by (vm_compute; reflexivity). reflexivity.
  - unfold fits_u64. repeat constructor; vm_compute; discriminate.
Qed.

Lemma rebuild_preserves_view_witness :
  ∃ v v', view ex_compact = Some v ∧
    view (rebuild SERVER (λ n, 100 + Z.of_nat n) v 5) = Some v' ∧ compacted 5 v v'.
Proof.
  destruct ex_compact_view as (v & Hv & Hfit).
  destruct (rebuild_preserves_view ex_compact v SERVER 5 (λ n, 100 + Z.of_nat n))
    as (v' & Hv' & Hc).
  - intros i j Hij. lia.
  - exact Hv.
  - exact Hfit.
  - exists v, v'. auto.
Defined.

Lemma rebuild_forgets_sessions_witness :
  ∃ v, view ex_compact = Some v ∧
    map_clock (mget FWatched (rebuild SERVER (λ n, 100 + Z.of_nat n) v 5)) !! ex_a = None.
Proof.
  destruct ex_compact_view as (v & Hv & Hfit). exists v. split; [exact Hv|].
  apply (rebuild_forgets_sessions ex_compact).
  - intros i j Hij. lia.
  - exact Hv.
  - exact Hfit.
  - vm_compute. discriminate.
Defined.
