(* ===== verification/Franchise.v ===== *)
(** * Franchise grouping (dessplay-core/src/franchise.rs)

    Connected components of the relations graph, computed by union-find
    ([series_components]) and by a local walk ([reachable_component]); the
    season ordinal; the grouping [franchises] and its cache. Loops are run with
    fuel, and the fuel is proved sufficient: union-find chains strictly
    decrease, and the two walks visit each relation target at most once. *)

From stdpp Require Import pretty.
From S2P Require Import Prelude Types Playlist View.

(** ** Union-find *)

Abbreviation Parents := (gmap AniDbSeriesId AniDbSeriesId).

(** The loop of [find]: follow the parents to a root. *)
Fixpoint find_loop (fuel : nat) (parent : Parents) (root : AniDbSeriesId) : AniDbSeriesId :=
  match fuel with
  | O => root
  | S fuel =>
      match parent !! root with
      | Some next => if bool_decide (next = root) then root else find_loop fuel parent next
      | None => root
      end
  end.
(** [find]: the root, and the parents with the path of [id] compressed. A chain
    visits each key at most once, so the number of keys is fuel enough. *)
Definition find_root (parent : Parents) (id : AniDbSeriesId) : AniDbSeriesId :=
  find_loop (S (size parent)) parent id.
Definition uf_find (parent : Parents) (id : AniDbSeriesId) : Parents * AniDbSeriesId :=
  let root := find_root parent id in (<[id := root]> parent, root).
(** [union]. *)
Definition uf_union (parent : Parents) (a b : AniDbSeriesId) : Parents :=
  let '(parent, ra) := uf_find parent a in
  let '(parent, rb) := uf_find parent b in
  let '(lo, hi) := if ord_leb ra rb then (ra, rb) else (rb, ra) in
  <[hi := lo]> parent.

(** The structural edges of a row, in [BTreeSet] order. *)
Definition structural_targets (rels : SeriesRelations) : list AniDbSeriesId :=
  rel_target <$> filter (λ r, groups_franchise (rel_kind r)) (btree_set_iter (relations rels)).

(** [series_components]. *)
Definition union_row (parent : Parents) (row : AniDbSeriesId * SeriesRelations) : Parents :=
  let '(series, rels) := row in
  let parent := (uf_find parent series).1 in
  foldl (λ parent target, uf_union parent series target) parent (structural_targets rels).
Definition find_all (parent : Parents) (ids : list AniDbSeriesId) : Parents :=
  foldl (λ parent id, (uf_find parent id).1) parent ids.
(** [view.anidb_metadata.values().flatten()], the series ids of it. *)
Definition metadata_series (v : StateView) : list AniDbSeriesId :=
  omap (λ hm : Ed2kHash * option AniDbMetadata, hm.2 ≫= series_id) (btree_iter (v_anidb_metadata v)).
Definition series_components (v : StateView) : Parents :=
  let parent := foldl union_row ∅ (btree_iter (v_series_relations v)) in
  let parent := find_all parent (metadata_series v) in
  let ids := (btree_iter parent).*1 in
  find_all parent ids.

(** ** Local walks *)

(** The loop of [reachable_component]; [frontier] is the [Vec] used as a stack,
    its top first. *)
Definition visit (acc : gset AniDbSeriesId * list AniDbSeriesId) (target : AniDbSeriesId)
    : gset AniDbSeriesId * list AniDbSeriesId :=
  let '(seen, frontier) := acc in
  if bool_decide (target ∈ seen) then acc else ({[target]} ∪ seen, target :: frontier).
Fixpoint walk (fuel : nat) (v : StateView) (seen : gset AniDbSeriesId)
    (frontier : list AniDbSeriesId) : gset AniDbSeriesId :=
  match fuel, frontier with
  | S fuel, current :: frontier =>
      match v_series_relations v !! current with
      | None => walk fuel v seen frontier
      | Some rels =>
          let '(seen, frontier) := foldl visit (seen, frontier) (structural_targets rels) in
          walk fuel v seen frontier
      end
  | _, _ => seen
  end.

(** Every series some row points to. *)
Definition all_targets (v : StateView) : gset AniDbSeriesId :=
  list_to_set (row ← btree_iter (v_series_relations v); rel_target <$> btree_set_iter (relations row.2)).

(** [reachable_component]. *)
Definition reachable_component (v : StateView) (series : AniDbSeriesId) : gset AniDbSeriesId :=
  walk (S (size (all_targets v))) v {[series]} [series].

(** [season_ordinal]: the lowest-id prequel is followed. *)
Definition u32_max : Z := 2 ^ 32 - 1.
Definition min_series (l : list AniDbSeriesId) : option AniDbSeriesId :=
  match l with
  | [] => None
  | x :: l => Some (foldl (λ m y, if y ≺ m then y else m) x l)
  end.
Definition prequel_of (rels : SeriesRelations) : option AniDbSeriesId :=
  min_series (rel_target <$>
    filter (λ r, rel_kind r = Prequel) (btree_set_iter (relations rels))).
Fixpoint ordinal_loop (fuel : nat) (v : StateView) (seen : gset AniDbSeriesId)
    (current : AniDbSeriesId) (ordinal : Z) : Z :=
  match fuel with
  | O => ordinal
  | S fuel =>
      match v_series_relations v !! current ≫= prequel_of with
      | None => ordinal
      | Some prequel =>
          if bool_decide (prequel ∈ seen) then ordinal
          else ordinal_loop fuel v ({[prequel]} ∪ seen) prequel (Z.min (ordinal + 1) u32_max)
      end
  end.
Definition season_ordinal (v : StateView) (series : AniDbSeriesId) : Z :=
  ordinal_loop (S (size (all_targets v))) v {[series]} series 1.

(** ** Union-find: chains and roots *)

Lemma series_le_aid (x y : AniDbSeriesId) : ord_le x y ↔ aid x ≤ aid y.
Proof. unfold ord_le, cmp, AniDbSeriesId_ord, ord_via, cmp, Z_ord. by rewrite Z.compare_le_iff. Qed.

Lemma aid_inj (x y : AniDbSeriesId) : aid x = aid y → x = y.
Proof. destruct x, y; simpl; congruence. Qed.

(** Parents never point upwards. *)
Definition decreasing (p : Parents) : Prop := ∀ x y, p !! x = Some y → aid y ≤ aid x.
Definition is_root (p : Parents) (r : AniDbSeriesId) : Prop := p !! r = None ∨ p !! r = Some r.

Inductive chain (p : Parents) : AniDbSeriesId → AniDbSeriesId → Prop :=
| chain_root r : is_root p r → chain p r r
| chain_step x y r : p !! x = Some y → y ≠ x → chain p y r → chain p x r.

Lemma chain_is_root p x r : chain p x r → is_root p r.
Proof. by induction 1. Qed.

Lemma chain_fun p x r r' : chain p x r → chain p x r' → r = r'.
Proof.
  intros H1. revert r'. induction H1 as [r Hr|x y r Hxy Hne H1 IH]; intros r'.
  - destruct 1 as [r' _|r' y r'' Hy Hne _]; [done|]. destruct Hr; congruence.
  - destruct 1 as [r' Hr|r0 z r' Hz _ H2]; [destruct Hr; congruence|].
    apply IH. by simplify_eq.
Qed.

(** The keys at or below [x], which bound the length of its chain. *)
Definition below (p : Parents) (x : AniDbSeriesId) : gset AniDbSeriesId :=
  filter (λ k, aid k ≤ aid x) (dom p).

Lemma below_step p x y : p !! x = Some y → aid y < aid x → (size (below p y) < size (below p x))%nat.
Proof.
  intros Hx Hlt. apply subset_size. split.
  - intros k. unfold below. rewrite !elem_of_filter. intuition lia.
  - intros Hsub. assert (x ∈ below p x) as Hin.
    { apply elem_of_filter. split; [lia|]. apply elem_of_dom. by eexists. }
    apply Hsub, elem_of_filter in Hin. lia.
Qed.

Lemma find_loop_chain fuel p x :
  decreasing p → (size (below p x) < fuel)%nat → chain p x (find_loop fuel p x).
Proof.
  intros Hp. revert x. induction fuel as [|fuel IH]; intros x Hf; [lia|]. simpl.
  destruct (p !! x) as [y|] eqn:Hx; [|apply chain_root; by left].
  case_bool_decide as Hne; [apply chain_root; right; congruence|].
  apply (chain_step _ _ y); [done|done|]. apply IH.
  assert (aid y ≠ aid x) by (intros ?; by apply Hne, aid_inj).
  assert (aid y < aid x) as Hlt by (specialize (Hp x y Hx); lia).
  pose proof (below_step p x y Hx Hlt). lia.
Qed.

(** The fuel of [find] suffices: the loop stops at the root of the chain. *)
Lemma find_root_chain p x : decreasing p → chain p x (find_root p x).
Proof.
  intros Hp. apply find_loop_chain; [done|]. apply Nat.lt_succ_r.
  rewrite <-(size_dom (D:=gset AniDbSeriesId)). apply subseteq_size.
  intros k Hk. by apply elem_of_filter in Hk as [_ Hk].
Qed.

Lemma find_root_unique p x r : decreasing p → chain p x r → find_root p x = r.
Proof. intros Hp Hc. eapply chain_fun; [by apply find_root_chain|done]. Qed.

Lemma chain_le p x r : decreasing p → chain p x r → aid r ≤ aid x.
Proof. intros Hp. induction 1 as [|x y r Hxy _ _ IH]; [lia|]. specialize (Hp x y Hxy). lia. Qed.

Lemma find_root_le p x : decreasing p → aid (find_root p x) ≤ aid x.
Proof. intros Hp. eapply chain_le; [done|by apply find_root_chain]. Qed.

Lemma find_root_idem p x : decreasing p → find_root p (find_root p x) = find_root p x.
Proof.
  intros Hp. apply find_root_unique; [done|]. apply chain_root.
  eapply chain_is_root. by apply find_root_chain.
Qed.

(** Path compression keeps every root. *)
Lemma uf_find_decreasing p x : decreasing p → decreasing (uf_find p x).1.
Proof.
  intros Hp a b. simpl. destruct (decide (x = a)) as [<-|Hne].
  - rewrite lookup_insert_eq. intros [= <-]. by apply find_root_le.
  - rewrite lookup_insert_ne by done. apply Hp.
Qed.

Lemma uf_find_chain p x z s :
  decreasing p → chain p z s → chain (uf_find p x).1 z s.
Proof.
  intros Hp Hc. pose proof (find_root_chain p x Hp) as Hx. simpl.
  pose proof (chain_is_root _ _ _ Hx) as Hroot.
  assert (is_root (<[x:=find_root p x]> p) (find_root p x)) as Hroot'.
  { unfold is_root. destruct (decide (x = find_root p x)) as [Heq|Hne].
    - right. rewrite <-Heq. by rewrite lookup_insert_eq.
    - by rewrite lookup_insert_ne. }
  induction Hc as [r Hr|z y s Hzy Hne Hc IH].
  - destruct (decide (x = r)) as [->|Hne]; [|apply chain_root; unfold is_root; by rewrite lookup_insert_ne].
    assert (find_root p r = r) as -> by (apply find_root_unique; [done|by apply chain_root]).
    apply chain_root. right. by rewrite lookup_insert_eq.
  - destruct (decide (x = z)) as [->|Hnx].
    + assert (find_root p z = s) as Hs.
      { apply find_root_unique; [done|]. by eapply chain_step. }
      rewrite Hs in *. apply (chain_step _ _ s); [by rewrite lookup_insert_eq| |by apply chain_root].
      intros ->. destruct Hroot; congruence.
    + apply (chain_step _ _ y); [by rewrite lookup_insert_ne|done|done].
Qed.

Lemma uf_find_root p x z : decreasing p → find_root (uf_find p x).1 z = find_root p z.
Proof.
  intros Hp. apply find_root_unique; [by apply uf_find_decreasing|].
  apply uf_find_chain; [done|]. by apply find_root_chain.
Qed.

(** Linking one root below another redirects exactly the chains it ended. *)
Lemma link_chain p lo hi z s :
  is_root p lo → is_root p hi → chain p z s →
  chain (<[hi := lo]> p) z (if bool_decide (s = hi) then lo else s).
Proof.
  intros Hlo Hhi.
  assert (chain (<[hi := lo]> p) lo lo) as Hlo'.
  { apply chain_root. unfold is_root. destruct (decide (hi = lo)) as [->|Hne];
      [rewrite lookup_insert_eq; by right|by rewrite lookup_insert_ne]. }
  induction 1 as [r Hr|z y s Hzy Hne Hc IH].
  - case_bool_decide as Hs; [subst|].
    + destruct (decide (hi = lo)) as [->|Hne]; [done|].
      apply (chain_step _ _ lo); [by rewrite lookup_insert_eq|congruence|done].
    + apply chain_root. unfold is_root. by rewrite lookup_insert_ne.
  - destruct (decide (hi = z)) as [->|Hnz]; [destruct Hhi; congruence|].
    apply (chain_step _ _ y); [by rewrite lookup_insert_ne|done|done].
Qed.

Definition uf_min (a b : AniDbSeriesId) : AniDbSeriesId := if ord_leb a b then a else b.

Lemma ord_leb_aid (a b : AniDbSeriesId) : ord_leb a b = (aid a <=? aid b).
Proof.
  unfold ord_leb, cmp, AniDbSeriesId_ord, ord_via, cmp, Z_ord, Z.leb. by destruct (aid a ?= aid b).
Qed.

Lemma uf_union_spec p a b :
  decreasing p →
  decreasing (uf_union p a b) ∧
  ∀ z, find_root (uf_union p a b) z =
    (if bool_decide (find_root p z = find_root p a ∨ find_root p z = find_root p b)
     then uf_min (find_root p a) (find_root p b) else find_root p z).
Proof.
  intros Hp. unfold uf_union. simpl.
  set (p1 := <[a := find_root p a]> p). set (rb := find_root p1 b).
  set (p2 := <[b := rb]> p1). set (ra := find_root p a).
  assert (decreasing p1) as Hp1 by apply (uf_find_decreasing p a Hp).
  assert (decreasing p2) as Hp2 by apply (uf_find_decreasing p1 b Hp1).
  assert (∀ z, find_root p2 z = find_root p z) as Hroots.
  { intros z. etrans; [apply (uf_find_root p1 b z Hp1)|apply (uf_find_root p a z Hp)]. }
  assert (rb = find_root p b) as Hrb by apply (uf_find_root p a b Hp).
  assert (∀ z, is_root p2 (find_root p z)) as Hisroot.
  { intros z. rewrite <-Hroots. eapply chain_is_root. by apply find_root_chain. }
  set (lohi := if ord_leb ra rb then (ra, rb) else (rb, ra)).
  assert (is_root p2 lohi.1 ∧ is_root p2 lohi.2 ∧ aid lohi.1 ≤ aid lohi.2 ∧
    lohi.1 = uf_min ra rb ∧ (lohi = (ra, rb) ∨ lohi = (rb, ra))) as (Hlo & Hhi & Hle & Hmin & Hor).
  { unfold lohi, uf_min. rewrite ord_leb_aid. rewrite Hrb.
    destruct (Z.leb_spec (aid ra) (aid (find_root p b))); simpl;
      (split_and!; [apply Hisroot|apply Hisroot|lia|done|auto]). }
  destruct lohi as [lo hi]; simpl in *.
  assert (decreasing (<[hi := lo]> p2)) as Hp3.
  { intros x y. destruct (decide (hi = x)) as [<-|Hne];
      [rewrite lookup_insert_eq; by intros [= <-]|rewrite lookup_insert_ne by done; apply Hp2]. }
  split; [done|]. intros z. apply find_root_unique; [done|].
  pose proof (link_chain p2 lo hi z _ Hlo Hhi (find_root_chain p2 z Hp2)) as Hc.
  rewrite Hroots in Hc. rewrite Hrb in *. fold ra. rewrite <-Hmin.
  assert (find_root p z = ra ∨ find_root p z = find_root p b ↔
          find_root p z = lo ∨ find_root p z = hi) as Hends by (destruct Hor as [[= -> ->]|[= -> ->]]; tauto).
  rewrite (bool_decide_ext _ _ Hends).
  destruct (decide (find_root p z = hi)) as [Hz|Hz].
  - rewrite bool_decide_eq_true_2 in Hc by done. rewrite bool_decide_eq_true_2; auto.
  - rewrite bool_decide_eq_false_2 in Hc by done. case_bool_decide as Hz'; [|done].
    destruct Hz' as [Hz'|]; [by rewrite Hz' in Hc|done].
Qed.

(** ** Components *)

Abbreviation Edges := (list (AniDbSeriesId * AniDbSeriesId)).
Definition edge_in (E : Edges) (a b : AniDbSeriesId) : Prop := (a, b) ∈ E.

(** The union-find structure represents the connected components of [E]. *)
Definition uf_ok (E : Edges) (p : Parents) : Prop :=
  decreasing p ∧ ∀ x y, find_root p x = find_root p y ↔ rtsc (edge_in E) x y.

Lemma rtsc_mono E F x y : (∀ e, e ∈ E → e ∈ F) → rtsc (edge_in E) x y → rtsc (edge_in F) x y.
Proof.
  intros Hsub Hxy. eapply (rtc_congruence (λ z, z)); [|exact Hxy].
  intros a b [He|He]; [left|right]; by apply Hsub.
Qed.

Lemma uf_ok_empty : uf_ok [] ∅.
Proof.
  split; [done|]. intros x y. unfold find_root, find_loop; simpl. rewrite !lookup_empty. split.
  - intros ->. reflexivity.
  - intros Hxy. induction Hxy as [|x y z [H|H] _ IH]; [done|..]; by apply elem_of_nil in H.
Qed.

Lemma uf_ok_find E p x : uf_ok E p → uf_ok E (uf_find p x).1.
Proof.
  intros [Hp Hc]. split; [by apply uf_find_decreasing|]. intros a b.
  by rewrite !uf_find_root.
Qed.

Lemma uf_min_or a b : uf_min a b = a ∨ uf_min a b = b.
Proof. unfold uf_min. case_match; auto. Qed.

Lemma uf_ok_union E p a b : uf_ok E p → uf_ok ((a, b) :: E) (uf_union p a b).
Proof.
  intros [Hp Hc]. destruct (uf_union_spec p a b Hp) as [Hp' Hroot]. split; [done|].
  assert (∀ x y, rtsc (edge_in E) x y → rtsc (edge_in ((a, b) :: E)) x y) as Hmono.
  { intros x y. apply rtsc_mono. by right. }
  assert (rtsc (edge_in ((a, b) :: E)) a b) as Hab by (apply rtc_once; left; left).
  assert (∀ x, find_root p x = find_root p a ∨ find_root p x = find_root p b →
    rtsc (edge_in ((a, b) :: E)) x a) as Hclass.
  { intros x [Hx|Hx]; apply Hc, Hmono in Hx; [done|]. etrans; [done|by symmetry]. }
  assert (∀ x y, find_root p x = find_root p y →
    find_root (uf_union p a b) x = find_root (uf_union p a b) y) as Hkeep.
  { intros x y Hxy. by rewrite !Hroot, Hxy. }
  intros x y. split.
  - rewrite !Hroot. pose proof (uf_min_or (find_root p a) (find_root p b)) as Hm.
    repeat case_bool_decide.
    + intros _. etrans; [by apply Hclass|]. symmetry. by apply Hclass.
    + intros Hy. exfalso. destruct Hm; naive_solver congruence.
    + intros Hx. exfalso. destruct Hm; naive_solver congruence.
    + intros Hxy. by apply Hmono, Hc.
  - induction 1 as [|x y z Hxy _ IH]; [done|]. rewrite <-IH. clear IH.
    assert (find_root (uf_union p a b) a = find_root (uf_union p a b) b) as Hjoin.
    { rewrite !Hroot. by rewrite !bool_decide_eq_true_2 by auto. }
    destruct Hxy as [H|H]; apply elem_of_cons in H as [[= -> ->]|H]; [done| |done|];
      apply Hkeep, Hc, rtc_once; [by left|by right].
Qed.

Definition row_edges (row : AniDbSeriesId * SeriesRelations) : Edges :=
  pair row.1 <$> structural_targets row.2.

Lemma uf_ok_row E p row : uf_ok E p → uf_ok (reverse (row_edges row) ++ E) (union_row p row).
Proof.
  destruct row as [series rels]. intros Hp. unfold union_row, row_edges. cbn [fst snd].
  apply (uf_ok_find E p series) in Hp. revert Hp.
  generalize (uf_find p series).1. intros q.
  revert E q. induction (structural_targets rels) as [|t l IH]; intros E q Hq.
  { exact Hq. }
  rewrite fmap_cons, reverse_cons, <-app_assoc. apply IH. by apply uf_ok_union.
Qed.

Lemma uf_ok_rows rows E p :
  uf_ok E p → ∃ F, (∀ e, e ∈ F ↔ e ∈ E ∨ ∃ row, row ∈ rows ∧ e ∈ row_edges row) ∧
    uf_ok F (foldl union_row p rows).
Proof.
  revert E p. induction rows as [|row rows IH]; intros E p Hp; simpl.
  - exists E. split; [|done]. intros e. set_solver.
  - destruct (IH _ _ (uf_ok_row _ _ row Hp)) as (F & HF & Hok). exists F. split; [|done].
    intros e. rewrite HF, elem_of_app, elem_of_reverse. setoid_rewrite elem_of_cons. naive_solver.
Qed.

Lemma uf_ok_find_all E p ids : uf_ok E p → uf_ok E (find_all p ids).
Proof.
  revert p. induction ids as [|x ids IH]; intros p Hp; simpl; [done|].
  apply IH. by apply uf_ok_find.
Qed.

(** The structural edges of a view. *)
Definition structural_edge (v : StateView) (a b : AniDbSeriesId) : Prop :=
  ∃ rels, v_series_relations v !! a = Some rels ∧ b ∈ structural_targets rels.

Lemma series_components_uf v :
  ∃ F, (∀ a b, edge_in F a b ↔ structural_edge v a b) ∧ uf_ok F (series_components v).
Proof.
  destruct (uf_ok_rows (btree_iter (v_series_relations v)) [] ∅ uf_ok_empty) as (F & HF & Hok).
  exists F. split.
  - intros a b. unfold edge_in, structural_edge. rewrite HF. split.
    + intros [?%elem_of_nil|([s rels] & Hrow%elem_of_btree_iter & He)]; [done|].
      apply list_elem_of_fmap in He as (t & [= -> ->] & Ht). eauto.
    + intros (rels & Hrow & Hb). right. exists (a, rels). rewrite elem_of_btree_iter.
      split; [done|]. apply list_elem_of_fmap. eauto.
  - unfold series_components. by do 2 apply uf_ok_find_all.
Qed.

(** ** Which series are known *)

(** Every parent is itself a key, and the keys are exactly [D]. *)
Definition uf_keys (D : gset AniDbSeriesId) (p : Parents) : Prop :=
  dom p = D ∧ ∀ x y, p !! x = Some y → y ∈ D.

Lemma chain_keys D p x r : uf_keys D p → chain p x r → r ∈ {[x]} ∪ D.
Proof.
  intros [_ Hcl]. induction 1 as [|x y r Hxy _ _ IH]; [set_solver|].
  apply Hcl in Hxy. set_solver.
Qed.

Lemma uf_keys_find D p x :
  decreasing p → uf_keys D p → uf_keys ({[x]} ∪ D) (uf_find p x).1.
Proof.
  intros Hp Hk. pose proof (chain_keys D p x _ Hk (find_root_chain p x Hp)) as Hr.
  destruct Hk as [Hd Hcl]. split; simpl.
  - rewrite dom_insert_L. set_solver.
  - intros a b [[_ <-]|[_ Hab]]%lookup_insert_Some; [done|]. apply Hcl in Hab. set_solver.
Qed.

Lemma uf_keys_union D p a b :
  decreasing p → uf_keys D p → uf_keys ({[a; b]} ∪ D) (uf_union p a b).
Proof.
  intros Hp Hk. unfold uf_union. simpl.
  pose proof (uf_keys_find D p a Hp Hk) as Hk1.
  pose proof (uf_find_decreasing p a Hp) as Hp1. simpl in Hk1, Hp1.
  pose proof (uf_keys_find _ _ b Hp1 Hk1) as Hk2. simpl in Hk2.
  pose proof (chain_keys _ _ a _ Hk (find_root_chain p a Hp)) as Ha.
  pose proof (chain_keys _ _ b _ Hk1 (find_root_chain _ b Hp1)) as Hb.
  set (p2 := <[b := _]> _) in *. destruct Hk2 as [Hd2 Hcl2].
  set (ra := find_root p a) in *. set (rb := find_root _ b) in *.
  destruct (ord_leb ra rb); (split; [rewrite dom_insert_L, Hd2; set_solver|]);
    intros x y [[_ <-]|[_ Hxy]]%lookup_insert_Some; try set_solver;
    apply Hcl2 in Hxy; set_solver.
Qed.

Lemma uf_keys_row D E p row :
  uf_ok E p → uf_keys D p →
  uf_keys ({[row.1]} ∪ list_to_set (structural_targets row.2) ∪ D) (union_row p row).
Proof.
  destruct row as [series rels]. intros Hok Hk. unfold union_row. cbn [fst snd].
  apply (uf_keys_find D p series (proj1 Hok)) in Hk.
  apply (uf_ok_find E p series) in Hok. revert Hok Hk.
  generalize (uf_find p series).1. intros q. revert D E q.
  induction (structural_targets rels) as [|t l IH]; intros D E q Hok Hk; cbn [foldl].
  - by rewrite list_to_set_nil, (right_id_L ∅ (∪)).
  - pose proof (uf_keys_union _ _ series t (proj1 Hok) Hk) as Hk'.
    apply (uf_ok_union _ _ series t) in Hok. rewrite list_to_set_cons.
    replace ({[series]} ∪ ({[t]} ∪ list_to_set l) ∪ D) with
      ({[series]} ∪ list_to_set l ∪ ({[t]} ∪ D)) by set_solver.
    eapply IH; [done|]. by replace ({[series]} ∪ ({[t]} ∪ D))
      with ({[series; t]} ∪ ({[series]} ∪ D)) by set_solver.
Qed.

Lemma uf_keys_rows rows D E p :
  uf_ok E p → uf_keys D p → ∃ D', uf_keys D' (foldl union_row p rows) ∧
    ∀ x, x ∈ D' ↔ x ∈ D ∨ ∃ row, row ∈ rows ∧ (x = row.1 ∨ x ∈ structural_targets row.2).
Proof.
  revert D E p. induction rows as [|row rows IH]; intros D E p Hok Hk; simpl.
  - exists D. split; [done|]. set_solver.
  - destruct (IH _ _ _ (uf_ok_row E p row Hok) (uf_keys_row D E p row Hok Hk)) as (D' & Hk' & HD').
    exists D'. split; [done|]. intros x. rewrite HD', !elem_of_union, elem_of_singleton,
      elem_of_list_to_set. setoid_rewrite elem_of_cons. naive_solver.
Qed.

Lemma uf_keys_find_all D E p ids :
  uf_ok E p → uf_keys D p → uf_keys (list_to_set ids ∪ D) (find_all p ids).
Proof.
  revert D p. induction ids as [|x ids IH]; intros D p Hok Hk; cbn [find_all foldl].
  - by rewrite list_to_set_nil, (left_id_L ∅ (∪)).
  - replace (list_to_set (x :: ids) ∪ D) with (list_to_set ids ∪ ({[x]} ∪ D)) by set_solver.
    apply IH; [by apply uf_ok_find|apply uf_keys_find; [apply Hok|done]].
Qed.

(** After the last pass every key maps to its root. *)
Lemma find_all_lookup E p ids x :
  uf_ok E p → find_all p ids !! x =
    if bool_decide (x ∈ ids) then Some (find_root p x) else p !! x.
Proof.
  revert p. induction ids as [|i ids IH]; intros p Hok; cbn [find_all foldl]; [done|].
  change (foldl _ ?q ids) with (find_all q ids). rewrite IH by (by apply uf_ok_find).
  rewrite uf_find_root by apply Hok. simpl. destruct (decide (i = x)) as [->|Hne].
  - rewrite lookup_insert_eq. repeat case_bool_decide; set_solver.
  - rewrite lookup_insert_ne by done. repeat case_bool_decide; set_solver.
Qed.

Lemma find_all_root E p ids z : uf_ok E p → find_root (find_all p ids) z = find_root p z.
Proof.
  revert p. induction ids as [|i ids IH]; intros p Hok; cbn [find_all foldl]; [done|].
  change (foldl _ ?q ids) with (find_all q ids). rewrite IH by (by apply uf_ok_find).
  apply uf_find_root, Hok.
Qed.

(** A series is known if it has a row, is named by a structural edge, or is the
    series of some file. *)
Definition known_series (v : StateView) (x : AniDbSeriesId) : Prop :=
  is_Some (v_series_relations v !! x) ∨ (∃ a, structural_edge v a x) ∨
  ∃ h m, v_anidb_metadata v !! h = Some (Some m) ∧ series_id m = Some x.
(** Same franchise: structural edges, in either direction. *)
Definition connected (v : StateView) : AniDbSeriesId → AniDbSeriesId → Prop :=
  rtsc (structural_edge v).

Lemma rtsc_iff {A} (R S : A → A → Prop) x y :
  (∀ a b, R a b ↔ S a b) → rtsc R x y ↔ rtsc S x y.
Proof.
  intros HRS. split; intros Hxy; (eapply (rtc_congruence (λ z, z)); [|exact Hxy]);
    intros a b [He|He]; [left|right|left|right]; by apply HRS.
Qed.

Lemma elem_of_metadata_series v x :
  x ∈ metadata_series v ↔
    ∃ h m, v_anidb_metadata v !! h = Some (Some m) ∧ series_id m = Some x.
Proof.
  unfold metadata_series. rewrite list_elem_of_omap. split.
  - intros ([h om] & Hh%elem_of_btree_iter & Hx). simpl in Hx.
    apply bind_Some in Hx as (m & -> & ?). eauto.
  - intros (h & m & Hh & Hx). exists (h, Some m). by rewrite elem_of_btree_iter.
Qed.

Lemma series_components_keys v x :
  is_Some (series_components v !! x) ↔ known_series v x.
Proof.
  destruct (uf_ok_rows (btree_iter (v_series_relations v)) [] ∅ uf_ok_empty) as (F & _ & Hok).
  destruct (uf_keys_rows (btree_iter (v_series_relations v)) ∅ [] ∅ uf_ok_empty)
    as (D & Hk & HD); [by split|].
  unfold series_components. set (p := foldl union_row ∅ _) in *.
  pose proof (uf_ok_find_all F p (metadata_series v) Hok) as Hok1.
  pose proof (uf_keys_find_all D F p (metadata_series v) Hok Hk) as Hk1.
  pose proof (uf_keys_find_all _ F _ (btree_iter (find_all p (metadata_series v))).*1 Hok1 Hk1)
    as [Hdom _].
  set (q := find_all p (metadata_series v)) in *.
  assert (x ∈ (btree_iter q).*1 ↔ x ∈ metadata_series v ∨ x ∈ D) as Hq.
  { assert (x ∈ (btree_iter q).*1 ↔ x ∈ dom q) as ->.
    { rewrite elem_of_dom, list_elem_of_fmap. split.
      - intros ([a b] & -> & Hab%elem_of_btree_iter). eauto.
      - intros [b Hb]. exists (x, b). by rewrite elem_of_btree_iter. }
    destruct Hk1 as [-> _]. by rewrite elem_of_union, elem_of_list_to_set. }
  rewrite <-elem_of_dom, Hdom, !elem_of_union, !elem_of_list_to_set, Hq, HD,
    elem_of_metadata_series.
  unfold known_series, structural_edge, is_Some.
  assert ((∃ row, row ∈ btree_iter (v_series_relations v) ∧
            (x = row.1 ∨ x ∈ structural_targets row.2)) ↔
          (∃ rels, v_series_relations v !! x = Some rels) ∨
          ∃ a rels, v_series_relations v !! a = Some rels ∧ x ∈ structural_targets rels) as ->.
  { split.
    - intros ([a rels] & Hrow%elem_of_btree_iter & [->|Hx]); eauto.
    - intros [[rels Hr]|(a & rels & Hr & Hx)];
        [exists (x, rels)|exists (a, rels)]; rewrite elem_of_btree_iter; auto. }
  rewrite elem_of_empty. tauto.
Qed.

Lemma series_components_root v x r :
  series_components v !! x = Some r →
  connected v x r ∧ ∀ y, connected v x y → aid r ≤ aid y.
Proof.
  intros Hx. destruct (series_components_uf v) as (F & HF & Hp & Hroot).
  assert (r = find_root (series_components v) x) as ->.
  { unfold series_components in Hx |- *.
    set (p := find_all (foldl union_row ∅ _) (metadata_series v)) in *.
    assert (∃ E, uf_ok E p) as [E Hok].
    { destruct (uf_ok_rows (btree_iter (v_series_relations v)) [] ∅ uf_ok_empty)
        as (E & _ & Hok). exists E. by apply uf_ok_find_all. }
    pose proof (find_all_lookup E p (btree_iter p).*1 x Hok) as Hl. rewrite Hx in Hl.
    rewrite (find_all_root E) by done. case_bool_decide as Hin; [congruence|]. exfalso. apply Hin.
    apply list_elem_of_fmap. exists (x, r). split; [done|]. by apply elem_of_btree_iter. }
  assert (∀ a b, connected v a b ↔ rtsc (edge_in F) a b) as Hconn.
  { intros a b. apply rtsc_iff. intros. by rewrite HF. }
  split.
  - apply Hconn, Hroot. by rewrite find_root_idem.
  - intros y Hy%Hconn%Hroot. rewrite Hy. by apply find_root_le.
Qed.

Lemma rtsc_sym v x y : connected v x y → connected v y x.
Proof. intros Hxy. by symmetry. Qed.

(** ** The local walk *)

Lemma visit_spec (T : gset AniDbSeriesId) l seen fr :
  list_to_set l ⊆ T →
  let '(seen', fr') := foldl visit (seen, fr) l in
  seen' = seen ∪ list_to_set l ∧ (∀ x, x ∈ fr' ↔ x ∈ fr ∨ (x ∈ l ∧ x ∉ seen)) ∧
  (size (T ∖ seen') + length fr' = size (T ∖ seen) + length fr)%nat.
Proof.
  revert seen fr. induction l as [|t l IH]; intros seen fr Hl; cbn [foldl].
  - split; [set_solver|]. split; [set_solver|done].
  - rewrite list_to_set_cons in Hl. unfold visit at 2. case_bool_decide as Ht.
    + specialize (IH seen fr ltac:(set_solver)).
      destruct (foldl visit (seen, fr) l) as [seen' fr']. destruct IH as (-> & Hfr & Hsz).
      split; [set_solver|]. split; [|done]. intros x. rewrite Hfr, elem_of_cons. naive_solver.
    + specialize (IH ({[t]} ∪ seen) (t :: fr) ltac:(set_solver)).
      destruct (foldl visit _ l) as [seen' fr']. destruct IH as (-> & Hfr & Hsz).
      split; [set_solver|]. split.
      * intros x. rewrite Hfr, !elem_of_cons. destruct (decide (x = t)); set_solver.
      * rewrite Hsz. simpl. replace (T ∖ ({[t]} ∪ seen)) with ((T ∖ seen) ∖ {[t]}) by set_solver.
        rewrite size_difference by set_solver. rewrite size_singleton.
        assert (t ∈ T ∖ seen) by set_solver.
        assert (size (T ∖ seen) ≠ 0)%nat by (apply size_non_empty_iff; set_solver). lia.
Qed.

Lemma structural_targets_all v a rels :
  v_series_relations v !! a = Some rels →
  (list_to_set (structural_targets rels) : gset _) ⊆ all_targets v.
Proof.
  intros Ha x. unfold all_targets, structural_targets. rewrite !elem_of_list_to_set.
  intros (r & -> & [_ Hr]%list_elem_of_filter)%list_elem_of_fmap.
  apply list_elem_of_bind. exists (a, rels). rewrite elem_of_btree_iter. split; [|done].
  apply list_elem_of_fmap. by exists r.
Qed.

(** The walk has seen only reachable series, and is done with those that left
    the frontier. *)
Record walk_inv (v : StateView) (series : AniDbSeriesId) (seen : gset AniDbSeriesId)
    (frontier : list AniDbSeriesId) : Prop := {
  wi_start : series ∈ seen;
  wi_frontier x : x ∈ frontier → x ∈ seen;
  wi_reach x : x ∈ seen → rtc (structural_edge v) series x;
  wi_done x y : x ∈ seen → x ∉ frontier → structural_edge v x y → y ∈ seen
}.

Lemma walk_end v series seen x :
  walk_inv v series seen [] → x ∈ seen ↔ rtc (structural_edge v) series x.
Proof.
  intros Hinv. split; [apply Hinv|]. revert x. apply rtc_ind_r; [apply Hinv|].
  intros y z _ Hyz Hy. eapply (wi_done _ _ _ _ Hinv); [done|apply not_elem_of_nil|done].
Qed.

Lemma walk_correct fuel v series seen frontier :
  walk_inv v series seen frontier →
  (size (all_targets v ∖ seen) + length frontier ≤ fuel)%nat →
  ∀ x, x ∈ walk fuel v seen frontier ↔ rtc (structural_edge v) series x.
Proof.
  revert seen frontier. induction fuel as [|fuel IH]; intros seen [|c fr] Hinv Hf;
    [by intros x; apply walk_end|simpl in Hf; lia|by intros x; apply walk_end|].
  simpl in Hf |- *. destruct (v_series_relations v !! c) as [rels|] eqn:Hc.
  - pose proof (visit_spec (all_targets v) _ seen fr (structural_targets_all v c rels Hc)) as Hv.
    destruct (foldl visit (seen, fr) (structural_targets rels)) as [seen' fr'].
    destruct Hv as (-> & Hfr & Hsz). apply IH; [|lia]. destruct Hinv. split.
    + set_solver.
    + intros x. rewrite Hfr. set_solver.
    + intros x [Hx|Hx]%elem_of_union; [by apply wi_reach0|].
      apply elem_of_list_to_set in Hx. eapply rtc_r; [apply (wi_reach0 c)|by exists rels].
      apply wi_frontier0. left.
    + intros x y. rewrite Hfr, !elem_of_union, !elem_of_list_to_set.
      intros Hx Hn Hxy. destruct (decide (x = c)) as [->|Hne].
      * right. destruct Hxy as (rels' & Hc' & Hy). by simplify_eq.
      * destruct (decide (x ∈ seen)); [|tauto]. left.
        apply (wi_done0 x); [done|set_solver|done].
  - apply IH; [|lia]. destruct Hinv. split; try done.
    + intros x Hx. apply wi_frontier0. by right.
    + intros x y Hx Hn Hxy. destruct (decide (x = c)) as [->|Hne].
      * destruct Hxy as (rels & Hc' & _). congruence.
      * apply (wi_done0 x); [done|set_solver|done].
Qed.

Lemma reachable_component_spec v series x :
  x ∈ reachable_component v series ↔ rtc (structural_edge v) series x.
Proof.
  apply walk_correct.
  - split; [set_solver|set_solver| |].
    + intros y ->%elem_of_singleton. reflexivity.
    + set_solver.
  - simpl. assert (size (all_targets v ∖ {[series]}) ≤ size (all_targets v))%nat
      by (apply subseteq_size; set_solver). lia.
Qed.

(** ** Prequel chains *)

(** The walk of [season_ordinal] as a relation: [n] steps to prequels, each
    not seen before, ending where there is no new one. *)
Inductive prequel_walk (v : StateView) : gset AniDbSeriesId → AniDbSeriesId → nat → Prop :=
| pw_end seen c :
    (∀ p, v_series_relations v !! c ≫= prequel_of = Some p → p ∈ seen) →
    prequel_walk v seen c 0
| pw_step seen c p n :
    v_series_relations v !! c ≫= prequel_of = Some p → p ∉ seen →
    prequel_walk v ({[p]} ∪ seen) p n → prequel_walk v seen c (S n).

Lemma foldl_min_elem (l : list AniDbSeriesId) x :
  foldl (λ m y, if y ≺ m then y else m) x l ∈ x :: l.
Proof.
  revert x. induction l as [|y l IH]; intros x; simpl; [left|].
  specialize (IH (if y ≺ x then y else x)). destruct (y ≺ x); set_solver.
Qed.

Lemma prequel_in_targets v c p :
  v_series_relations v !! c ≫= prequel_of = Some p → p ∈ all_targets v.
Proof.
  intros (rels & Hc & Hp)%bind_Some. unfold prequel_of, min_series in Hp.
  assert (p ∈ rel_target <$> filter (λ r, rel_kind r = Prequel) (btree_set_iter (relations rels)))
    as Hin.
  { destruct (rel_target <$> _) as [|x l]; [done|]. simplify_eq. apply foldl_min_elem. }
  apply list_elem_of_fmap in Hin as (r & -> & [_ Hr]%list_elem_of_filter).
  unfold all_targets. apply elem_of_list_to_set, list_elem_of_bind. exists (c, rels).
  rewrite elem_of_btree_iter. split; [|done]. apply list_elem_of_fmap. by exists r.
Qed.

Lemma ordinal_loop_spec fuel v seen c o :
  (size (all_targets v ∖ seen) < fuel)%nat → 1 ≤ o ≤ u32_max →
  ∃ n, prequel_walk v seen c n ∧
    ordinal_loop fuel v seen c o = Z.min (o + Z.of_nat n) u32_max.
Proof.
  revert seen c o. induction fuel as [|fuel IH]; intros seen c o Hf Ho; [lia|]. simpl.
  destruct (v_series_relations v !! c ≫= prequel_of) as [p|] eqn:Hp; simpl.
  - case_bool_decide as Hs.
    + exists 0%nat. split; [apply pw_end; intros; by simplify_eq|lia].
    + destruct (IH ({[p]} ∪ seen) p (Z.min (o + 1) u32_max)) as (n & Hw & ->).
      * assert (p ∈ all_targets v) by (by eapply prequel_in_targets).
        assert (size (all_targets v ∖ ({[p]} ∪ seen)) < size (all_targets v ∖ seen))%nat
          by (apply subset_size; set_solver). lia.
      * lia.
      * exists (S n). split; [by eapply pw_step|lia].
  - exists 0%nat. split; [apply pw_end; intros; congruence|lia].
Qed.

(** ** The grouping *)

Inductive FranchiseKey := KeySeries (id : AniDbSeriesId) | KeyName (name : string).
Definition key_sum (k : FranchiseKey) : AniDbSeriesId + string :=
  match k with KeySeries i => inl i | KeyName n => inr n end.
#[export] Instance FranchiseKey_ord : Ord FranchiseKey := ord_via key_sum.
#[export] Instance FranchiseKey_lawful : LawfulOrd FranchiseKey.
Proof. apply lawful_via. intros [] []; simpl; intros; by simplify_eq. Qed.

Record Franchise := mkFranchise {
  fr_key : FranchiseKey;
  fr_title : string;
  fr_series : list AniDbSeriesId;
  fr_members : gset AniDbSeriesId;
  fr_year : option Z;
  fr_files : list Ed2kHash
}.

Definition u16_max : Z := 2 ^ 16 - 1.

(** [components.entry(root).or_default().insert(id)] for every series. *)
Definition collect_components (parent : Parents) : gmap AniDbSeriesId (gset AniDbSeriesId) :=
  foldl (λ m ir, partial_alter (λ o, Some ({[ir.1]} ∪ default ∅ o)) ir.2 m) ∅ (btree_iter parent).

(** The pass over the file metadata. *)
Record FileIndex := mkFileIndex {
  files_by_root : gmap AniDbSeriesId (list Ed2kHash);
  name_by_root : gmap AniDbSeriesId string;
  series_with_files : gset AniDbSeriesId
}.
Definition component_of (parent : Parents) (id : AniDbSeriesId) : AniDbSeriesId :=
  default id (parent !! id).
Definition index_file (parent : Parents) (acc : FileIndex)
    (hm : Ed2kHash * option AniDbMetadata) : FileIndex :=
  match hm.2 with
  | None => acc
  | Some metadata =>
      match series_id metadata with
      | None => acc
      | Some series =>
          let root := component_of parent series in
          mkFileIndex
            (partial_alter (λ o, Some (default [] o ++ [hm.1])) root (files_by_root acc))
            (partial_alter (λ o, Some (default (series_name metadata) o)) root (name_by_root acc))
            ({[series]} ∪ series_with_files acc)
      end
  end.
Definition index_files (parent : Parents) (v : StateView) : FileIndex :=
  foldl (index_file parent) (mkFileIndex ∅ ∅ ∅) (btree_iter (v_anidb_metadata v)).

(** The pass over the relations: best title and minimum year per component. *)
Definition min_year (a b : option Z) : option Z :=
  match a, b with
  | Some a, Some b => Some (Z.min a b)
  | Some a, None => Some a
  | None, b => b
  end.
Definition better_title (best : option (string * option Z)) (year : option Z) : bool :=
  match best with
  | None => true
  | Some (_, Some existing) =>
      match year with Some candidate => candidate <? existing | None => false end
  | Some (_, None) => match year with Some _ => true | None => false end
  end.
Definition index_title (parent : Parents)
    (acc : gmap AniDbSeriesId (string * option Z) * gmap AniDbSeriesId (option Z))
    (sr : AniDbSeriesId * SeriesRelations)
    : gmap AniDbSeriesId (string * option Z) * gmap AniDbSeriesId (option Z) :=
  let '(best, years) := acc in
  let root := component_of parent sr.1 in
  let year := rels_year sr.2 in
  (if better_title (best !! root) year then <[root := (rels_title sr.2, year)]> best else best,
   <[root := min_year (mjoin (years !! root)) year]> years).
Definition index_titles (parent : Parents) (v : StateView) :=
  foldl (index_title parent) (∅, ∅) (btree_iter (v_series_relations v)).

(** The franchise of one component, if it holds files. *)
Definition series_sort_key (v : StateView) (id : AniDbSeriesId) : Z * Z :=
  (default u16_max (v_series_relations v !! id ≫= rels_year), aid id).
Definition component_franchise (v : StateView) (parent : Parents)
    (rm : AniDbSeriesId * gset AniDbSeriesId) : option Franchise :=
  let '(root, members) := rm in
  let files := index_files parent v in
  let titles := index_titles parent v in
  fs ← files_by_root files !! root;
  let title := match titles.1 !! root, name_by_root files !! root with
               | Some (title, _), _ => title
               | None, Some name => name
               | None, None => "anidb:" +:+ pretty (aid root)
               end in
  let series := filter (λ id, id ∈ series_with_files files) (btree_set_iter members) in
  let series := sort_by (λ a b, cmp (series_sort_key v a) (series_sort_key v b)) series in
  Some (mkFranchise (KeySeries root) title series members (mjoin (titles.2 !! root)) fs).

(** Files with metadata but no series id, by name. *)
Definition files_by_name (v : StateView) : gmap string (list Ed2kHash) :=
  foldl (λ (m : gmap string (list Ed2kHash)) (hm : Ed2kHash * option AniDbMetadata),
           match hm.2 with
           | Some metadata =>
               match series_id metadata with
               | None => partial_alter (λ o, Some (default [] o ++ [hm.1]))
                           (series_name metadata) m
               | Some _ => m
               end
           | None => m
           end) ∅ (btree_iter (v_anidb_metadata v)).
Definition name_franchise (nf : string * list Ed2kHash) : Franchise :=
  mkFranchise (KeyName nf.1) nf.1 [] ∅ None nf.2.

(** [franchises]. *)
Definition franchises (v : StateView) : list Franchise :=
  let parent := series_components v in
  let result := omap (component_franchise v parent) (btree_iter (collect_components parent)) in
  let result := result ++ (name_franchise <$> btree_iter (files_by_name v)) in
  sort_by (λ a b, then_with (cmp (fr_title a) (fr_title b)) (cmp (fr_key a) (fr_key b))) result.

(** ** What the grouping contains *)

(** A loop that appends each element to the list at its key. *)
Definition group_step `{Countable K} {A B} (g : A → option (K * B)) (m : gmap K (list B)) (x : A)
    : gmap K (list B) :=
  match g x with
  | Some (k, y) => partial_alter (λ o, Some (default [] o ++ [y])) k m
  | None => m
  end.

Lemma group_elem `{Countable K} {A B} (g : A → option (K * B)) l (m : gmap K (list B)) k y :
  (∃ ys, foldl (group_step g) m l !! k = Some ys ∧ y ∈ ys) ↔
  (∃ ys, m !! k = Some ys ∧ y ∈ ys) ∨ ∃ x, x ∈ l ∧ g x = Some (k, y).
Proof.
  revert m. induction l as [|x l IH]; intros m; cbn [foldl]; [set_solver|].
  rewrite IH. unfold group_step at 1. setoid_rewrite elem_of_cons.
  destruct (g x) as [[k' y']|] eqn:Hx; [|naive_solver].
  destruct (decide (k' = k)) as [->|Hne].
  - rewrite lookup_partial_alter_eq. split.
    + intros [(ys & [= <-] & [Hy|Hy%list_elem_of_singleton]%elem_of_app)|Hl]; [|subst|naive_solver].
      * left. destruct (m !! k) as [ys|]; [eauto|by apply elem_of_nil in Hy].
      * right. eauto.
    + intros [(ys & -> & Hy)|(x' & [->|Hl] & Hg)].
      * left. eexists. split; [done|]. apply elem_of_app. by left.
      * simplify_eq. left. eexists. split; [done|]. apply elem_of_app. right. left.
      * right. eauto.
  - rewrite lookup_partial_alter_ne by done. naive_solver.
Qed.

(** The component and the file of a metadata row, if it has a series. *)
Definition file_root (parent : Parents) (hm : Ed2kHash * option AniDbMetadata)
    : option (AniDbSeriesId * Ed2kHash) :=
  m ← hm.2; series ← series_id m; Some (component_of parent series, hm.1).
Definition file_name_key (hm : Ed2kHash * option AniDbMetadata) : option (string * Ed2kHash) :=
  m ← hm.2; match series_id m with None => Some (series_name m, hm.1) | Some _ => None end.

Lemma index_files_group parent l acc :
  files_by_root (foldl (index_file parent) acc l) =
    foldl (group_step (file_root parent)) (files_by_root acc) l.
Proof.
  revert acc. induction l as [|[h [m|]] l IH]; intros acc; cbn [foldl]; [done| |];
    rewrite IH; unfold index_file, group_step, file_root; simpl; [|done].
  by destruct (series_id m).
Qed.

Lemma files_by_name_group v :
  files_by_name v = foldl (group_step file_name_key) ∅ (btree_iter (v_anidb_metadata v)).
Proof.
  unfold files_by_name. apply foldl_ext_in. intros m [h [md|]] _; [|done].
  unfold group_step, file_name_key; simpl. by destruct (series_id md).
Qed.

Lemma collect_components_lookup parent r :
  is_Some (collect_components parent !! r) ↔ ∃ x, parent !! x = Some r.
Proof.
  unfold collect_components.
  assert (∀ l (m : gmap AniDbSeriesId (gset AniDbSeriesId)),
    is_Some (foldl (λ m ir, partial_alter (λ o, Some ({[ir.1]} ∪ default ∅ o)) ir.2 m) m l !! r) ↔
    is_Some (m !! r) ∨ ∃ ir : AniDbSeriesId * AniDbSeriesId, ir ∈ l ∧ ir.2 = r) as Hl.
  { induction l as [|ir l IH]; intros m; cbn [foldl]; [set_solver|].
    rewrite IH. setoid_rewrite elem_of_cons. destruct (decide (ir.2 = r)) as [<-|Hne].
    - rewrite lookup_partial_alter_eq. naive_solver.
    - rewrite lookup_partial_alter_ne by done. naive_solver. }
  rewrite Hl, lookup_empty. split.
  - intros [[? ?]|([x r'] & Hx%elem_of_btree_iter & <-)]; [done|]. eauto.
  - intros [x Hx]. right. exists (x, r). by rewrite elem_of_btree_iter.
Qed.

(** The key of the franchise a file belongs to. *)
Definition file_key (v : StateView) (m : AniDbMetadata) : FranchiseKey :=
  match series_id m with
  | Some series => KeySeries (component_of (series_components v) series)
  | None => KeyName (series_name m)
  end.

Lemma component_franchise_spec v parent root members f :
  component_franchise v parent (root, members) = Some f →
  fr_key f = KeySeries root ∧ fr_members f = members ∧
  files_by_root (index_files parent v) !! root = Some (fr_files f).
Proof.
  unfold component_franchise. intros (fs & Hfs & [= <-])%bind_Some. simpl. done.
Qed.

Lemma elem_of_franchises v f :
  f ∈ franchises v ↔
    (∃ rm, collect_components (series_components v) !! rm.1 = Some rm.2 ∧
           component_franchise v (series_components v) rm = Some f) ∨
    (∃ n fs, files_by_name v !! n = Some fs ∧ f = name_franchise (n, fs)).
Proof.
  unfold franchises. rewrite elem_of_sort_by, elem_of_app, list_elem_of_omap, list_elem_of_fmap.
  split.
  - intros [([r ms] & Hr%elem_of_btree_iter & Hf)|([n fs] & -> & Hn%elem_of_btree_iter)]; [left|right].
    + by exists (r, ms).
    + eauto.
  - intros [([r ms] & Hr & Hf)|(n & fs & Hn & ->)]; [left|right].
    + exists (r, ms). by rewrite elem_of_btree_iter.
    + exists (n, fs). by rewrite elem_of_btree_iter.
Qed.

(** A file is listed in the franchise of its key, and nowhere else. *)
Lemma franchise_files v f h :
  f ∈ franchises v → h ∈ fr_files f →
  ∃ m, v_anidb_metadata v !! h = Some (Some m) ∧ fr_key f = file_key v m.
Proof.
  intros [([r ms] & Hr & Hf)|(n & fs & Hn & ->)]%elem_of_franchises Hh.
  - apply component_franchise_spec in Hf as (Hk & _ & Hfs).
    unfold index_files in Hfs. rewrite index_files_group in Hfs. simpl in Hfs.
    assert (∃ ys, foldl (group_step (file_root (series_components v))) ∅
      (btree_iter (v_anidb_metadata v)) !! r = Some ys ∧ h ∈ ys) as Hg by eauto.
    apply group_elem in Hg as [(ys & Hys & _)|([h' [m|]] & Hm%elem_of_btree_iter & Hfr)];
      [by rewrite lookup_empty in Hys| |done].
    unfold file_root in Hfr; simpl in Hfr. destruct (series_id m) as [s|] eqn:Hs; simplify_eq/=.
    exists m. split; [done|]. unfold file_key. by rewrite Hk, Hs.
  - rewrite files_by_name_group in Hn. simpl in Hh.
    assert (∃ ys, foldl (group_step file_name_key) ∅
      (btree_iter (v_anidb_metadata v)) !! n = Some ys ∧ h ∈ ys) as Hg by eauto.
    apply group_elem in Hg as [(ys & Hys & _)|([h' [m|]] & Hm%elem_of_btree_iter & Hfr)];
      [by rewrite lookup_empty in Hys| |done].
    unfold file_name_key in Hfr; simpl in Hfr. destruct (series_id m) as [s|] eqn:Hs; simplify_eq/=.
    exists m. split; [done|]. unfold file_key. by rewrite Hs.
Qed.

Lemma file_in_franchise v h m :
  v_anidb_metadata v !! h = Some (Some m) →
  ∃ f, f ∈ franchises v ∧ h ∈ fr_files f ∧ fr_key f = file_key v m.
Proof.
  intros Hm. unfold file_key. destruct (series_id m) as [s|] eqn:Hs.
  - assert (is_Some (series_components v !! s)) as [r Hr].
    { apply series_components_keys. right. right. eauto. }
    assert (component_of (series_components v) s = r) as Hroot
      by (unfold component_of; by rewrite Hr).
    destruct (proj2 (collect_components_lookup (series_components v) r)) as [ms Hms]; [eauto|].
    destruct (proj2 (group_elem (file_root (series_components v)) (btree_iter (v_anidb_metadata v))
      ∅ r h)) as (fs & Hfs & Hin).
    { right. exists (h, Some m). rewrite elem_of_btree_iter. split; [done|].
      unfold file_root; simpl. by rewrite Hs; simpl; rewrite Hroot. }
    destruct (component_franchise v (series_components v) (r, ms)) as [f|] eqn:Hf.
    + pose proof Hf as (Hk & _ & Hfiles)%component_franchise_spec. exists f. split_and!.
      * apply elem_of_franchises. left. by exists (r, ms).
      * unfold index_files in Hfiles. rewrite index_files_group in Hfiles. simpl in Hfiles.
        by simplify_eq.
      * by rewrite Hk, Hroot.
    + exfalso. unfold component_franchise, index_files in Hf. rewrite index_files_group in Hf.
      simpl in Hf. by rewrite Hfs in Hf.
  - destruct (proj2 (group_elem file_name_key (btree_iter (v_anidb_metadata v)) ∅
      (series_name m) h)) as (fs & Hfs & Hin).
    { right. exists (h, Some m). rewrite elem_of_btree_iter. split; [done|].
      unfold file_name_key; simpl. by rewrite Hs. }
    exists (name_franchise (series_name m, fs)). split_and!; [|done|done].
    apply elem_of_franchises. right. rewrite files_by_name_group. eauto.
Qed.

Lemma NoDup_omap_key {A B C} (g : A → option B) (key : A → C) (key' : B → C) l :
  (∀ a b, g a = Some b → key' b = key a) → NoDup (key <$> l) → NoDup (key' <$> omap g l).
Proof.
  intros Hg. induction l as [|a l IH]; simpl; [constructor|]. intros [Ha Hl]%NoDup_cons.
  destruct (g a) as [b|] eqn:Hb; simpl; [|auto]. constructor; [|auto].
  rewrite (Hg a b Hb), list_elem_of_fmap. intros (b' & Heq & (a' & Ha' & Hb')%list_elem_of_omap).
  apply Ha, list_elem_of_fmap. exists a'. split; [|done]. by rewrite Heq, (Hg a' b').
Qed.

Lemma NoDup_franchise_keys v : NoDup (fr_key <$> franchises v).
Proof.
  unfold franchises. rewrite sort_by_perm, fmap_app. apply NoDup_app. split_and!.
  - apply (NoDup_omap_key _ (KeySeries ∘ fst)).
    + intros [r ms] f Hf. by apply component_franchise_spec in Hf as [-> _].
    + rewrite (list_fmap_compose fst KeySeries). apply NoDup_fmap_2, NoDup_btree_iter.
      by intros ? ? [= ->].
  - intros k Hk Hk'. apply list_elem_of_fmap in Hk as (f & -> & Hf).
    apply list_elem_of_omap in Hf as ([r ms] & _ & Hf).
    apply component_franchise_spec in Hf as (Hf & _). rewrite Hf in Hk'.
    apply list_elem_of_fmap in Hk' as (f' & Hk' & (nf & -> & _)%list_elem_of_fmap). done.
  - rewrite <-list_fmap_compose.
    rewrite (list_fmap_ext _ (KeyName ∘ fst)) by done. rewrite list_fmap_compose.
    apply NoDup_fmap_2, NoDup_btree_iter. by intros ? ? [= ->].
Qed.

(** ** The cache *)

(** [FranchiseCache], with the fingerprint (an [FxHasher] digest of the two
    maps [franchises] reads) as a parameter. *)
Record FranchiseCache := mkFranchiseCache {
  cache_key : option Z;
  cache_franchises : list Franchise
}.
Definition cache_default : FranchiseCache := mkFranchiseCache None [].

Section cache.
Variable fingerprint :
  gmap Ed2kHash (option AniDbMetadata) → gmap AniDbSeriesId SeriesRelations → Z.

Definition metadata_relations_fingerprint (v : StateView) : Z :=
  fingerprint (v_anidb_metadata v) (v_series_relations v).
(** [FranchiseCache::get]. *)
Definition cache_get (c : FranchiseCache) (v : StateView) : FranchiseCache * list Franchise :=
  let key := metadata_relations_fingerprint v in
  let c := if bool_decide (cache_key c = Some key) then c
           else mkFranchiseCache (Some key) (franchises v) in
  (c, cache_franchises c).
End cache.

Lemma franchises_ext v w :
  v_anidb_metadata v = v_anidb_metadata w → v_series_relations v = v_series_relations w →
  franchises v = franchises w.
Proof.
  intros Hm Hr. assert (series_components v = series_components w) as Hc.
  { unfold series_components, metadata_series. by rewrite Hm, Hr. }
  assert (∀ rm, component_franchise v (series_components w) rm =
                component_franchise w (series_components w) rm) as Hcf.
  { intros [r ms]. unfold component_franchise, index_files, index_titles, series_sort_key.
    by rewrite Hm, Hr. }
  unfold franchises. rewrite Hc. unfold files_by_name. rewrite Hm. do 2 f_equal.
  apply list_omap_ext, Forall_Forall2_diag, Forall_true. intros rm. apply Hcf.
Qed.

(** The cache after a sequence of calls. *)
Definition cache_after (fingerprint : gmap Ed2kHash (option AniDbMetadata) →
    gmap AniDbSeriesId SeriesRelations → Z) (vs : list StateView) : FranchiseCache :=
  foldl (λ c v, (cache_get fingerprint c v).1) cache_default vs.

Lemma cache_after_inv fingerprint vs k :
  cache_key (cache_after fingerprint vs) = Some k →
  ∃ w, w ∈ vs ∧ metadata_relations_fingerprint fingerprint w = k ∧
    cache_franchises (cache_after fingerprint vs) = franchises w.
Proof.
  unfold cache_after. revert k. induction vs as [|v vs IH] using rev_ind; intros k; [done|].
  rewrite foldl_app; simpl. set (c := foldl _ cache_default vs) in *.
  unfold cache_get; simpl. case_bool_decide as Hk; simpl.
  - intros Hk'. destruct (IH k Hk') as (w & Hw & ? & ?). exists w. set_solver.
  - intros [= <-]. exists v. set_solver.
Qed.

(** ** Statements *)

(** C38. Union-find computes the franchises: [series_components] maps exactly
    the known series, each to the smallest id of its connected component over
    structural edges taken in both directions. *)
Theorem series_components_correct v x r :
  series_components v !! x = Some r ↔
    known_series v x ∧ connected v x r ∧ ∀ y, connected v x y → aid r ≤ aid y.
Proof.
  split.
  - intros Hx. split; [apply series_components_keys; by eexists|by apply series_components_root].
  - intros (Hk & Hc & Hmin). apply series_components_keys in Hk as [r' Hr'].
    destruct (series_components_root v x r' Hr') as [Hc' Hmin'].
    rewrite Hr'. f_equal. apply aid_inj. specialize (Hmin r' Hc'). specialize (Hmin' r Hc). lia.
Qed.

(** The local walk terminates within its fuel and finds what is reachable
    along structural edges; where relations are symmetric it is the franchise
    union-find computes, so the two definitions of a franchise cannot drift
    apart. *)
Theorem reachable_component_correct v series :
  (∀ a b, structural_edge v a b → structural_edge v b a) →
  ∀ x, x ∈ reachable_component v series ↔ connected v series x.
Proof.
  intros Hsym x. rewrite reachable_component_spec. split.
  - intros Hx. eapply (rtc_congruence (λ z, z)); [|exact Hx]. by left.
  - intros Hx. eapply (rtc_congruence (λ z, z)); [|exact Hx]. intros a b [Hab|Hab]; auto.
Qed.

(** [season_ordinal] terminates whatever cycles the relations have: it is
    one more than the length of the prequel walk, saturating at [u32::MAX]. *)
Theorem season_ordinal_correct v series :
  ∃ n, prequel_walk v {[series]} series n ∧
    season_ordinal v series = Z.min (1 + Z.of_nat n) u32_max.
Proof.
  apply ordinal_loop_spec.
  - assert (size (all_targets v ∖ {[series]}) ≤ size (all_targets v))%nat
      by (apply subseteq_size; set_solver). lia.
  - unfold u32_max. lia.
Qed.

(** [franchises] partitions the files with metadata: each is listed in the
    franchise of its series' component (or of its parsed name), in no other,
    and no two franchises share a key. *)
Theorem franchises_partition_files v :
  NoDup (fr_key <$> franchises v) ∧
  (∀ h m, v_anidb_metadata v !! h = Some (Some m) →
     ∃ f, f ∈ franchises v ∧ h ∈ fr_files f ∧ fr_key f = file_key v m) ∧
  (∀ f h, f ∈ franchises v → h ∈ fr_files f →
     ∃ m, v_anidb_metadata v !! h = Some (Some m) ∧ fr_key f = file_key v m).
Proof.
  split; [apply NoDup_franchise_keys|]. split; [apply file_in_franchise|apply franchise_files].
Qed.

(** The cache never serves a stale grouping: after any sequence of calls,
    if the fingerprint tells the current inputs apart from those seen before,
    [get] returns [franchises] of the current view; and a view that differs from
    the previous one elsewhere only does not recompute. *)
Theorem cache_get_fresh fingerprint vs v :
  (∀ w, w ∈ vs →
     metadata_relations_fingerprint fingerprint w = metadata_relations_fingerprint fingerprint v →
     v_anidb_metadata w = v_anidb_metadata v ∧ v_series_relations w = v_series_relations v) →
  let c := cache_after fingerprint vs in
  (cache_get fingerprint c v).2 = franchises v ∧
  (∀ w, last vs = Some w → v_anidb_metadata w = v_anidb_metadata v →
     v_series_relations w = v_series_relations v → (cache_get fingerprint c v).1 = c).
Proof.
  intros Hfp c. split.
  - unfold cache_get; simpl. case_bool_decide as Hk; [|done].
    destruct (cache_after_inv fingerprint vs _ Hk) as (w & Hw & Heq & Hf).
    etrans; [exact Hf|]. destruct (Hfp w Hw Heq). by apply franchises_ext.
  - intros w [us ->]%last_Some Hm Hr. unfold c, cache_after. rewrite foldl_app. simpl.
    set (c' := foldl _ _ us). unfold cache_get, metadata_relations_fingerprint; simpl.
    rewrite <-Hm, <-Hr. destruct (bool_decide (cache_key c' = _)) eqn:E; simpl.
    + by rewrite E.
    + by rewrite bool_decide_eq_true_2.
Qed.

(** ** A concrete relations graph *)

Definition empty_view : StateView :=
  mkStateView [] ∅ None None None IntentPaused ∅ ∅ ∅ ∅ ∅ ∅ ∅ ∅ ∅ [] ∅ ∅ None ∅.
Definition with_relations (v : StateView) (m : gmap AniDbSeriesId SeriesRelations) : StateView :=
  mkStateView (v_playlist v) (v_watched v) (v_now_playing v) (v_now_playing_since v)
    (v_seek_authority v) (v_playback_intent v) (v_series_preference v) (v_manual_override v)
    (v_file_availability v) (v_anidb_metadata v) m (v_file_catalog v) (v_list_entries v)
    (v_list_next_ep v) (v_lookup_requests v) (v_chat v) (v_playback_position v)
    (v_acknowledged_absent v) (v_marquee v) (v_saved_position v).

(** Season 1 (id 3) and its sequel (id 7), each naming the other. *)
Definition ex_season (kind : RelationKind) (other : Z) : SeriesRelations :=
  mkSeriesRelations "show" None None {[mkSeriesRelation kind (mkAniDbSeriesId other)]} [].
Definition ex_graph : StateView :=
  with_relations empty_view
    {[mkAniDbSeriesId 3 := ex_season Sequel 7; mkAniDbSeriesId 7 := ex_season Prequel 3]}.

Example ex_ordinal : season_ordinal ex_graph (mkAniDbSeriesId 7) = 2.
Proof. vm_compute. reflexivity. Qed.

Lemma ex_graph_symmetric a b : structural_edge ex_graph a b → structural_edge ex_graph b a.
Proof.
  intros (rels & Ha & Hb). unfold ex_graph, with_relations in Ha; simpl in Ha.
  assert (structural_targets (ex_season Sequel 7) = [mkAniDbSeriesId 7]) as H7
    by (vm_compute; reflexivity).
  assert (structural_targets (ex_season Prequel 3) = [mkAniDbSeriesId 3]) as H3
    by (vm_compute; reflexivity).
  apply lookup_insert_Some in Ha as [[<- <-]|[_ [<- <-]%lookup_singleton_Some]].
  - rewrite H7 in Hb. apply list_elem_of_singleton in Hb as ->.
    exists (ex_season Prequel 3). split; [reflexivity|]. rewrite H3. left.
  - rewrite H3 in Hb. apply list_elem_of_singleton in Hb as ->.
    exists (ex_season Sequel 7). split; [reflexivity|]. rewrite H7. left.
Qed.

Lemma reachable_component_correct_witness :
  connected ex_graph (mkAniDbSeriesId 7) (mkAniDbSeriesId 3).
Proof.
  apply (reachable_component_correct ex_graph (mkAniDbSeriesId 7)).
  - exact ex_graph_symmetric.
  - vm_compute. reflexivity.
Defined.

Lemma cache_get_fresh_witness :
  (cache_get (λ _ r, Z.of_nat (size r)) (cache_after (λ _ r, Z.of_nat (size r)) [empty_view])
     ex_graph).2 = franchises ex_graph.
Proof.
  apply (cache_get_fresh (λ _ r, Z.of_nat (size r)) [empty_view] ex_graph).
  intros w Hw%list_elem_of_singleton. subst w. vm_compute. discriminate.
Defined.
