(* ===== verification/Message.v ===== *)
(** * Wire message types (dessplay-core/src/net/message.rs)

    The control protocol's vocabulary: roles, presence, the peer list and the
    control messages. A socket address is informational and kept as text; the
    32-byte hashes are byte lists. The byte encoding itself (postcard) is not
    part of the sources. *)

From S2P Require Import Prelude Types State.

Inductive Role := Interactive | Seeder.
Inductive Presence := Present | Lost | Departed.

#[export] Instance Role_eq_dec : EqDecision Role.
Proof. solve_decision. Defined.
#[export] Instance Presence_eq_dec : EqDecision Presence.
Proof. solve_decision. Defined.

Record PeerInfo := mkPeerInfo {
  peer_username : UserId;
  peer_role : Role;
  peer_presence : Presence;
  peer_addresses : list string;
  peer_connected_since : Z;
  peer_grace_until : option Z
}.

Record KnownUser := mkKnownUser { known_username : UserId; known_last_seen : Z }.

(** [StateSnapshot] (state.rs): a state tagged with its epoch. *)
Record StateSnapshot := mkStateSnapshot { snap_epoch : Epoch; snap_state : CrdtState }.

Record AniDbSearchHit := mkAniDbSearchHit {
  hit_series : AniDbSeriesId;
  hit_title : string;
  hit_matched : string
}.

Inductive ServerControl :=
| Auth (username : UserId) (password : string) (role : Role) (epoch : Epoch)
    (protocol_version : Z)
| TimeSyncRequest (client_send : Z)
| EofReached (file : Ed2kHash)
| Goodbye
| AuthOk (observed_addr : string) (transfer_token : Z)
| AuthFailed
| PeerList (peers : list PeerInfo) (known_offline : list KnownUser)
| TimeSyncResponse (client_send server_recv server_send : Z)
| CtlStateSnapshot (snapshot : StateSnapshot)
| StateOp (epoch : Epoch) (op : CrdtOp)
| StateMerge (snapshot : StateSnapshot)
| StateHash (epoch : Epoch) (hash : list Z)
| RequestMerge
| AniDbSearch (query : string)
| AniDbSearchResults (query : string) (results : list AniDbSearchHit)
| ProtocolMismatch (server_version : Z)
| MarkWatched (file : Ed2kHash) (w : bool)
| TransferAuth (username : UserId) (token : Z)
| SetAnthropicToken (token : option string)
| SyncStatus (epoch : Epoch) (state_hash : list Z).

(** [ServerControl::variant_name]. *)
Definition variant_name (m : ServerControl) : string :=
  match m with
  | Auth _ _ _ _ _ => "Auth"
  | TimeSyncRequest _ => "TimeSyncRequest"
  | EofReached _ => "EofReached"
  | Goodbye => "Goodbye"
  | AuthOk _ _ => "AuthOk"
  | AuthFailed => "AuthFailed"
  | PeerList _ _ => "PeerList"
  | TimeSyncResponse _ _ _ => "TimeSyncResponse"
  | CtlStateSnapshot _ => "StateSnapshot"
  | StateOp _ _ => "StateOp"
  | StateMerge _ => "StateMerge"
  | StateHash _ _ => "StateHash"
  | RequestMerge => "RequestMerge"
  | AniDbSearch _ => "AniDbSearch"
  | AniDbSearchResults _ _ => "AniDbSearchResults"
  | ProtocolMismatch _ => "ProtocolMismatch"
  | MarkWatched _ _ => "MarkWatched"
  | TransferAuth _ _ => "TransferAuth"
  | SetAnthropicToken _ => "SetAnthropicToken"
  | SyncStatus _ _ => "SyncStatus"
  end.
