(* ===== verification/SeriesIdentity.v ===== *)
(** * Series identity (dessplay-core/src/series_identity.rs)

    Resolving a file to the List entry that claims it: by franchise, by an
    explicitly attached hash, then by name. [md4] is the digest of the byte
    string, read as a little-endian [u128]; it comes from a crate outside the
    sources and is a parameter. *)

From S2P Require Import Prelude Types Playlist View Franchise.

(** The index of [SeriesEntryIndex::new]. *)
Record SeriesEntryIndex := mkSeriesEntryIndex {
  by_series : gmap AniDbSeriesId (list ListEntryId);
  by_neighbour : gmap AniDbSeriesId (list ListEntryId);
  by_manual : gmap Ed2kHash ListEntryId;
  by_name : gmap string ListEntryId
}.

(** [entry(k).or_default().push(x)] and [entry(k).or_insert(x)]. *)
Definition push_at `{Countable K} (m : gmap K (list ListEntryId)) (k : K) (x : ListEntryId)
    : gmap K (list ListEntryId) :=
  partial_alter (λ o, Some (default [] o ++ [x])) k m.
Definition or_insert `{Countable K} (m : gmap K ListEntryId) (k : K) (x : ListEntryId)
    : gmap K ListEntryId :=
  partial_alter (λ o, Some (default x o)) k m.

(** One iteration of the loop over [view.list_entries]. *)
Definition index_entry (v : StateView) (ix : SeriesEntryIndex)
    (ie : ListEntryId * SeriesListEntry) : SeriesEntryIndex :=
  let '(id, entry) := ie in
  let '(bs, bn) :=
    match anidb_series_id entry with
    | Some series =>
        (push_at (by_series ix) series id,
         match v_series_relations v !! series with
         | Some rels => foldl (λ m t, push_at m t id) (by_neighbour ix) (structural_targets rels)
         | None => by_neighbour ix
         end)
    | None => (by_series ix, by_neighbour ix)
    end in
  let bm := foldl (λ m file, or_insert m file id) (by_manual ix)
              (btree_set_iter (manual_files entry)) in
  let names := or_insert (by_name ix) (entry_name entry) id in
  let names := foldl (λ m alias, or_insert m alias id) names
                 (btree_set_iter (local_aliases entry)) in
  mkSeriesEntryIndex bs bn bm names.
Definition new_index (v : StateView) : SeriesEntryIndex :=
  foldl (index_entry v) (mkSeriesEntryIndex ∅ ∅ ∅ ∅) (btree_iter (v_list_entries v)).

(** [u32::to_le_bytes]. *)
Definition u32_le_bytes (x : Z) : list Z :=
  [x mod 256; (x / 2 ^ 8) mod 256; (x / 2 ^ 16) mod 256; (x / 2 ^ 24) mod 256].

(** [Vec::dedup]: drop consecutive repetitions. *)
Fixpoint dedup (l : list ListEntryId) : list ListEntryId :=
  match l with
  | [] => []
  | x :: l =>
      match l with
      | y :: _ => if bool_decide (x = y) then dedup l else x :: dedup l
      | [] => [x]
      end
  end.

Section identity.
Variable md4 : list Z → Z.

(** [derive_entry_id]. *)
Definition derive_entry_id (link : option AniDbSeriesId) (derived_name : string) : ListEntryId :=
  mkListEntryId (md4 (match link with
    | Some id => bytes_of_string "dessplay:list-entry:anidb:" ++ u32_le_bytes (aid id)
    | None => bytes_of_string "dessplay:list-entry:name:" ++ bytes_of_string derived_name
    end)).

(** [canonical_first]; [Reverse] flips the ordinal's order. *)
Definition entry_link (v : StateView) (id : ListEntryId) : option AniDbSeriesId :=
  v_list_entries v !! id ≫= anidb_series_id.
Definition canonical_key (v : StateView) (id : ListEntryId) : bool * Z :=
  let auto_created :=
    match entry_link v id with
    | Some series => bool_decide (derive_entry_id (Some series) "" = id)
    | None => false
    end in
  let ordinal := match entry_link v id with
                 | Some series => season_ordinal v series
                 | None => 0
                 end in
  (auto_created, - ordinal).
Definition canonical_first (v : StateView) (ids : list ListEntryId) : list ListEntryId :=
  sort_by (λ a b, cmp (canonical_key v a) (canonical_key v b)) (dedup (sort_by cmp ids)).

(** [SeriesEntryIndex::claimants]. *)
Definition claimants (ix : SeriesEntryIndex) (v : StateView) (series : AniDbSeriesId)
    : list ListEntryId :=
  canonical_first v
    ((member ← btree_set_iter (reachable_component v series); default [] (by_series ix !! member))
     ++ default [] (by_neighbour ix !! series)).
(** [SeriesEntryIndex::resolve]. *)
Definition resolve_entry (ix : SeriesEntryIndex) (v : StateView) (file : Ed2kHash)
    : option ListEntryId :=
  let metadata : option AniDbMetadata := mjoin (v_anidb_metadata v !! file) in
  match (metadata ≫= series_id) ≫= λ series, head (claimants ix v series) with
  | Some id => Some id
  | None =>
      match by_manual ix !! file with
      | Some id => Some id
      | None => m ← metadata; by_name ix !! series_name m
      end
  end.

(** [resolve_series_entry_for_file] and [entries_claiming_series]. *)
Definition resolve_series_entry_for_file (v : StateView) (file : Ed2kHash)
    : option ListEntryId :=
  resolve_entry (new_index v) v file.
Definition entries_claiming_series (v : StateView) (series : AniDbSeriesId)
    : list ListEntryId :=
  claimants (new_index v) v series.

(** [build_entry_for_file]. *)
Definition build_entry_for_file (v : StateView) (file : Ed2kHash) : option SeriesListEntry :=
  m ← (mjoin (v_anidb_metadata v !! file) : option AniDbMetadata);
  Some (mkSeriesListEntry (series_name m) None None [] None Active None None ∅ (series_id m)
    (if series_id m is None then {[series_name m]} else ∅) ∅ false).

(** [resolve_or_build_entry]. *)
Definition resolve_or_build_entry (v : StateView) (file : Ed2kHash)
    : option (ListEntryId * option SeriesListEntry) :=
  match resolve_series_entry_for_file v file with
  | Some id => Some (id, None)
  | None =>
      m ← (mjoin (v_anidb_metadata v !! file) : option AniDbMetadata);
      let id := derive_entry_id (series_id m) (series_name m) in
      entry ← build_entry_for_file v file;
      Some (id, Some entry)
  end.
End identity.

(** ** The index answers what a scan of the entries would *)

(** The first entry, in ascending id order, that satisfies [P]. *)
Definition scan (v : StateView) (P : SeriesListEntry → bool) : option ListEntryId :=
  fst <$> List.find (λ ie, P ie.2) (btree_iter (v_list_entries v)).
Definition claims_file (file : Ed2kHash) (e : SeriesListEntry) : bool :=
  bool_decide (file ∈ manual_files e).
Definition claims_name (name : string) (e : SeriesListEntry) : bool :=
  bool_decide (entry_name e = name) || bool_decide (name ∈ local_aliases e).

Section or_insert.
Context `{Countable K}.

Lemma lookup_or_insert (m : gmap K ListEntryId) k x j :
  or_insert m k x !! j = match m !! j with
                         | Some y => Some y
                         | None => if bool_decide (k = j) then Some x else None
                         end.
Proof.
  unfold or_insert. case_bool_decide as Hk; [subst|].
  - rewrite lookup_partial_alter_eq. by destruct (m !! j).
  - rewrite lookup_partial_alter_ne by done. by destruct (m !! j).
Qed.

Lemma lookup_or_insert_all (m : gmap K ListEntryId) ks x j :
  foldl (λ m k, or_insert m k x) m ks !! j =
    match m !! j with
    | Some y => Some y
    | None => if bool_decide (j ∈ ks) then Some x else None
    end.
Proof.
  revert m. induction ks as [|k ks IH]; intros m; simpl; [by destruct (m !! j)|].
  rewrite IH, lookup_or_insert. destruct (m !! j); [done|].
  repeat case_bool_decide; set_solver.
Qed.

Lemma lookup_push_all (m : gmap K (list ListEntryId)) ks x j id :
  id ∈ default [] (foldl (λ m k, push_at m k x) m ks !! j) ↔
    id ∈ default [] (m !! j) ∨ (id = x ∧ j ∈ ks).
Proof.
  revert m. induction ks as [|k ks IH]; intros m; cbn [foldl]; [set_solver|].
  rewrite IH. unfold push_at at 1. destruct (decide (k = j)) as [->|Hne].
  - rewrite lookup_partial_alter_eq; simpl. set_solver.
  - rewrite lookup_partial_alter_ne by done. set_solver.
Qed.
End or_insert.

Lemma index_by_manual v l ix file :
  by_manual (foldl (index_entry v) ix l) !! file =
    match by_manual ix !! file with
    | Some id => Some id
    | None => fst <$> List.find (λ ie, claims_file file ie.2) l
    end.
Proof.
  revert ix. induction l as [|[id e] l IH]; intros ix; cbn [foldl]; [by destruct (by_manual ix !! file)|].
  rewrite IH. unfold index_entry. simpl. destruct (anidb_series_id e); simpl;
    rewrite lookup_or_insert_all; unfold claims_file;
    rewrite (bool_decide_ext _ _ (elem_of_btree_set_iter file (manual_files e)));
    destruct (by_manual ix !! file); try done; by case_bool_decide.
Qed.

Lemma index_by_name v l ix name :
  by_name (foldl (index_entry v) ix l) !! name =
    match by_name ix !! name with
    | Some id => Some id
    | None => fst <$> List.find (λ ie, claims_name name ie.2) l
    end.
Proof.
  revert ix. induction l as [|[id e] l IH]; intros ix; cbn [foldl]; [by destruct (by_name ix !! name)|].
  rewrite IH. unfold index_entry. simpl. destruct (anidb_series_id e); simpl;
    rewrite lookup_or_insert_all, lookup_or_insert; unfold claims_name;
    rewrite (bool_decide_ext _ _ (elem_of_btree_set_iter name (local_aliases e)));
    destruct (by_name ix !! name); try done; by repeat case_bool_decide.
Qed.

Lemma index_by_series v l ix s id :
  id ∈ default [] (by_series (foldl (index_entry v) ix l) !! s) ↔
    id ∈ default [] (by_series ix !! s) ∨ ∃ e, (id, e) ∈ l ∧ anidb_series_id e = Some s.
Proof.
  revert ix. induction l as [|[i e] l IH]; intros ix; cbn [foldl]; [set_solver|].
  rewrite IH. unfold index_entry. setoid_rewrite elem_of_cons.
  destruct (anidb_series_id e) as [s'|] eqn:Hs; simpl; [|naive_solver].
  pose proof (lookup_push_all (by_series ix) [s'] i s id) as Hp; cbn [foldl] in Hp.
  rewrite Hp, list_elem_of_singleton. naive_solver.
Qed.

Lemma index_by_neighbour v l ix t id :
  id ∈ default [] (by_neighbour (foldl (index_entry v) ix l) !! t) ↔
    id ∈ default [] (by_neighbour ix !! t) ∨
    ∃ e s, (id, e) ∈ l ∧ anidb_series_id e = Some s ∧ structural_edge v s t.
Proof.
  revert ix. induction l as [|[i e] l IH]; intros ix; cbn [foldl]; [set_solver|].
  rewrite IH. unfold index_entry. setoid_rewrite elem_of_cons. unfold structural_edge.
  destruct (anidb_series_id e) as [s|] eqn:Hs; simpl; [|naive_solver].
  destruct (v_series_relations v !! s) as [rels|] eqn:Hr; [|naive_solver].
  rewrite lookup_push_all. naive_solver.
Qed.

(** ** Canonical order *)

Lemma dedup_cons x l : dedup (x :: l) =
  match l with
  | y :: _ => if bool_decide (x = y) then dedup l else x :: dedup l
  | [] => [x]
  end.
Proof. done. Qed.

Lemma elem_of_dedup x l : x ∈ dedup l ↔ x ∈ l.
Proof.
  induction l as [|y l IH]; [done|]. rewrite dedup_cons. destruct l as [|z l]; [done|].
  case_bool_decide as Hyz; [subst; rewrite IH; set_solver|].
  rewrite !elem_of_cons in *. rewrite IH. done.
Qed.

Lemma dedup_sorted l :
  StronglySorted ord_le l → StronglySorted (λ x y, cmp x y = Lt) (dedup l).
Proof.
  induction 1 as [|x l Hl IH Hx]; [constructor|]. rewrite dedup_cons.
  destruct l as [|y l]; [by repeat constructor|]. case_bool_decide as Hxy; [done|].
  constructor; [done|]. apply Forall_forall. intros z Hz. rewrite elem_of_dedup in Hz.
  rewrite Forall_forall in Hx. pose proof (Hx y ltac:(left)) as Hy.
  assert (cmp x y = Lt) as Hlt.
  { destruct (cmp_not_eq x y Hxy) as [|Hgt]; [done|]. by apply cmp_gt_lt in Hgt. }
  apply elem_of_cons in Hz as [->|Hz]; [done|].
  apply StronglySorted_inv in Hl as [_ Hyl]. rewrite Forall_forall in Hyl.
  eapply ord_lt_le_trans; [done|]. by apply Hyl.
Qed.

(** A stable sort of an ascending list sorts by (key, element). *)
Section stable.
Context {A B : Type} `{OA : !Ord A, !LawfulOrd A, OB : !Ord B, !LawfulOrd B} (key : A → B).
Definition keyed (x y : A) : Prop := cmp (key x, x) (key y, y) = Lt.

Lemma cmp_keyed (x y : A) :
  cmp (key x, x) (key y, y) = then_with (cmp (key x) (key y)) (cmp x y).
Proof. done. Qed.

Lemma insert_by_stable x l :
  (∀ y, y ∈ l → cmp x y = Lt) → StronglySorted keyed l →
  StronglySorted keyed (insert_by (λ a b, cmp (key a) (key b)) x l).
Proof.
  intros Hx. induction 1 as [|y l Hl IH Hy]; simpl; [by repeat constructor|].
  destruct (cmp (key x) (key y)) eqn:E.
  1, 2: assert (keyed x y) as Hxy by (unfold keyed; rewrite cmp_keyed, E; simpl; try done; apply Hx; left);
    constructor; [by constructor|]; constructor; [done|];
    eapply Forall_impl; [exact Hy|]; intros z Hz; by eapply cmp_lt_trans.
  constructor; [apply IH; intros z Hz; apply Hx; by right|].
  rewrite insert_by_perm. constructor; [|done]. unfold keyed. rewrite cmp_keyed.
  apply cmp_gt_lt in E. by rewrite E.
Qed.

Lemma sort_by_stable l :
  StronglySorted (λ x y, cmp x y = Lt) l →
  StronglySorted keyed (sort_by (λ a b, cmp (key a) (key b)) l).
Proof.
  induction 1 as [|x l Hl IH Hx]; simpl; [constructor|]. apply insert_by_stable; [|done].
  intros y Hy. rewrite elem_of_sort_by in Hy. rewrite Forall_forall in Hx. by apply Hx.
Qed.
End stable.

Section claims.
Variable md4 : list Z → Z.
Implicit Types (v : StateView) (id : ListEntryId).

Lemma elem_of_canonical_first v ids id : id ∈ canonical_first md4 v ids ↔ id ∈ ids.
Proof. unfold canonical_first. by rewrite elem_of_sort_by, elem_of_dedup, elem_of_sort_by. Qed.

Lemma canonical_first_sorted v ids :
  StronglySorted (keyed (canonical_key md4 v)) (canonical_first md4 v ids).
Proof.
  unfold canonical_first. apply sort_by_stable, dedup_sorted.
  apply (sort_by_key_sorted (λ x : ListEntryId, x)).
Qed.

(** An entry claims a series if it is linked into what is reachable from it, or
    to a season that names it directly. *)
Definition claims_series v (series : AniDbSeriesId) id : Prop :=
  ∃ e s, v_list_entries v !! id = Some e ∧ anidb_series_id e = Some s ∧
    (rtc (structural_edge v) series s ∨ structural_edge v s series).

Lemma elem_of_claimants v series id :
  id ∈ claimants md4 (new_index v) v series ↔ claims_series v series id.
Proof.
  unfold claimants, new_index. rewrite elem_of_canonical_first, elem_of_app, list_elem_of_bind.
  rewrite index_by_neighbour. setoid_rewrite index_by_series. simpl.
  setoid_rewrite lookup_empty. setoid_rewrite elem_of_btree_set_iter.
  setoid_rewrite reachable_component_spec. setoid_rewrite elem_of_btree_iter.
  unfold claims_series. simpl. set_solver.
Qed.
End claims.

(** ** Auto-creation *)

Definition with_list_entries_view (v : StateView) (m : gmap ListEntryId SeriesListEntry)
    : StateView :=
  mkStateView (v_playlist v) (v_watched v) (v_now_playing v) (v_now_playing_since v)
    (v_seek_authority v) (v_playback_intent v) (v_series_preference v) (v_manual_override v)
    (v_file_availability v) (v_anidb_metadata v) (v_series_relations v) (v_file_catalog v) m
    (v_list_next_ep v) (v_lookup_requests v) (v_chat v) (v_playback_position v)
    (v_acknowledged_absent v) (v_marquee v) (v_saved_position v).

Lemma scan_None v P :
  scan v P = None ↔ ∀ id e, v_list_entries v !! id = Some e → P e = false.
Proof.
  unfold scan. rewrite fmap_None. split.
  - intros Hf id e He%elem_of_btree_iter%list_elem_of_In.
    exact (List.find_none _ _ Hf (id, e) He).
  - intros Hn. apply find_None_intro. intros [id e] He%elem_of_btree_iter. by apply (Hn id).
Qed.

Lemma scan_unique v P id e :
  v_list_entries v !! id = Some e → P e = true →
  (∀ i e', v_list_entries v !! i = Some e' → P e' = true → i = id) → scan v P = Some id.
Proof.
  intros He HP Hu. destruct (scan v P) as [i|] eqn:Hs.
  - unfold scan in Hs. apply fmap_Some in Hs as ([i' e'] & Hf & ->).
    apply List.find_some in Hf as [Hin HP']. apply list_elem_of_In, elem_of_btree_iter in Hin.
    simpl. f_equal. by apply (Hu i' e').
  - by rewrite (proj1 (scan_None v P) Hs id e He) in HP.
Qed.

Section resolve.
Variable md4 : list Z → Z.

(** Resolution, stated with scans over the entries. *)
Definition resolve_by_scan (v : StateView) (file : Ed2kHash) : option ListEntryId :=
  let metadata : option AniDbMetadata := mjoin (v_anidb_metadata v !! file) in
  match (metadata ≫= series_id) ≫= λ s, head (entries_claiming_series md4 v s) with
  | Some id => Some id
  | None =>
      match scan v (claims_file file) with
      | Some id => Some id
      | None => m ← metadata; scan v (claims_name (series_name m))
      end
  end.

Lemma resolve_scan v file :
  resolve_series_entry_for_file md4 v file = resolve_by_scan v file.
Proof.
  unfold resolve_series_entry_for_file, resolve_by_scan, resolve_entry, new_index.
  rewrite index_by_manual. cbn [by_manual]. rewrite lookup_empty.
  unfold entries_claiming_series, new_index, scan.
  destruct (mjoin (v_anidb_metadata v !! file)) as [m|]; simpl; [|done].
  rewrite index_by_name. cbn [by_name]. by rewrite lookup_empty.
Qed.

Lemma claims_series_created v s id e i :
  anidb_series_id e = Some s → (∀ i, ¬ claims_series v s i) →
  claims_series (with_list_entries_view v (<[id := e]> (v_list_entries v))) s i ↔ i = id.
Proof.
  intros He Hn. unfold claims_series; simpl. split.
  - intros (e' & s' & [[<- <-]|[Hne Hi]]%lookup_insert_Some & Hs & Hr); [done|].
    destruct (Hn i). by exists e', s'.
  - intros ->. exists e, s. rewrite lookup_insert_eq. split_and!; try done. by left.
Qed.

Lemma head_of_singleton_set (l : list ListEntryId) id :
  (∀ i, i ∈ l ↔ i = id) → head l = Some id.
Proof.
  destruct l as [|x l]; intros Hl; simpl.
  - exfalso. by apply (not_elem_of_nil id), Hl.
  - f_equal. apply Hl. left.
Qed.

Lemma created_resolves v file id e :
  resolve_or_build_entry md4 v file = Some (id, Some e) →
  resolve_series_entry_for_file md4
    (with_list_entries_view v (<[id := e]> (v_list_entries v))) file = Some id.
Proof.
  unfold resolve_or_build_entry. rewrite !resolve_scan.
  destruct (resolve_by_scan v file) eqn:Hr; [by intros [=]|].
  unfold build_entry_for_file, resolve_by_scan in *. simpl in *.
  destruct (mjoin (v_anidb_metadata v !! file)) as [m|] eqn:Hm; [|by intros [=]].
  simpl in *. intros [= Hid <-]. set (w := with_list_entries_view v _).
  assert (∀ i e', v_list_entries w !! i = Some e' → i ≠ id → v_list_entries v !! i = Some e') as Hold.
  { intros i e' Hi Hne. simpl in Hi. by rewrite lookup_insert_ne in Hi by congruence. }
  destruct (series_id m) as [s|] eqn:Hs; simpl in *.
  - rewrite (head_of_singleton_set _ id); [done|]. intros i. unfold entries_claiming_series.
    rewrite elem_of_claimants. apply claims_series_created; [done|].
    intros j Hj%(elem_of_claimants md4). unfold entries_claiming_series in Hr.
    destruct (claimants md4 (new_index v) v s); [by apply elem_of_nil in Hj|done].
  - destruct (scan v (claims_file file)) eqn:Hf; [done|].
    pose proof (proj1 (scan_None _ _) Hf) as Hfile. pose proof (proj1 (scan_None _ _) Hr) as Hname.
    assert (scan w (claims_file file) = None) as ->.
    { apply scan_None. intros i e' Hi. destruct (decide (i = id)) as [->|Hne].
      - simpl in Hi. rewrite lookup_insert_eq in Hi. by simplify_eq.
      - by apply (Hfile i), Hold. }
    eapply scan_unique; [apply lookup_insert_eq| |].
    + unfold claims_name; simpl. by rewrite bool_decide_eq_true_2.
    + intros i e' Hi HP. destruct (decide (i = id)) as [|Hne]; [done|].
      by rewrite (Hname i e') in HP by auto.
Qed.
End resolve.

(** ** Statements *)

(** The entries claiming a series are exactly those linked into its
    reachable franchise or naming it directly, without repetition, in canonical
    order: human-created first, then deepest season, then lowest id. *)
Theorem entries_claiming_series_correct md4 v series :
  let ids := entries_claiming_series md4 v series in
  (∀ id, id ∈ ids ↔ claims_series v series id) ∧
  StronglySorted (λ a b, cmp (canonical_key md4 v a, a) (canonical_key md4 v b, b) = Lt) ids.
Proof.
  split; [intros id; apply elem_of_claimants|]. apply canonical_first_sorted.
Qed.

(** Resolving through the prebuilt index gives what the three scans over
    the entries give, first match in id order. *)
Theorem index_resolves_like_scans md4 v file :
  resolve_series_entry_for_file md4 v file = resolve_by_scan md4 v file.
Proof. apply resolve_scan. Qed.

(** Auto-creation is stable: once the entry built for an unclaimed file is
    saved under its derived id, the file resolves to that id. *)
Theorem built_entry_claims_file md4 v file id e :
  resolve_or_build_entry md4 v file = Some (id, Some e) →
  resolve_series_entry_for_file md4
    (with_list_entries_view v (<[id := e]> (v_list_entries v))) file = Some id.
Proof. apply created_resolves. Qed.

(** ** A file known by name only *)

Definition ex_digest (bytes : list Z) : Z := Z.of_nat (length bytes).
Definition ex_file : Ed2kHash := mkEd2kHash [9].
Definition ex_metadata : AniDbMetadata := mkAniDbMetadata SourceFilenameDerived "show" None None.
Definition ex_unclaimed : StateView :=
  mkStateView [] ∅ None None None IntentPaused ∅ ∅ ∅ {[ex_file := Some ex_metadata]}
    ∅ ∅ ∅ ∅ ∅ [] ∅ ∅ None ∅.

Lemma built_entry_claims_file_witness :
  ∃ id e, resolve_or_build_entry ex_digest ex_unclaimed ex_file = Some (id, Some e) ∧
    resolve_series_entry_for_file ex_digest
      (with_list_entries_view ex_unclaimed (<[id := e]> (v_list_entries ex_unclaimed))) ex_file
      = Some id.
Proof.
  destruct (resolve_or_build_entry ex_digest ex_unclaimed ex_file) as [[id [e|]]|] eqn:Hr.
  - exists id, e. split; [reflexivity|]. apply (built_entry_claims_file ex_digest). exact Hr.
  - vm_compute in Hr. discriminate Hr.
  - vm_compute in Hr. discriminate Hr.
Defined.
