(* ===== verification/EpisodeParse.v ===== *)
(** * Episode numbers from file names (dessplay-core/src/episode_parse.rs)

    Two conventions are recognised (an [E12] token, a [" - 12"] group), and any
    season marker makes the parser decline. Positions are byte offsets, as in
    the source. The loop of [parse_dash_number] runs on fuel: each round starts
    three bytes further on at least, so the length of the name is enough. *)

From S2P Require Import Prelude Text.

Definition b_e : Z := 101.
Definition b_s : Z := 115.
Definition b_v : Z := 118.
Definition b_space : Z := 32.
Definition s_season : Bytes := bytes_of_string "season".
Definition s_episode : Bytes := bytes_of_string "episode".
Definition s_ep : Bytes := bytes_of_string "ep".
Definition s_dash : Bytes := bytes_of_string " - ".

(** [digit_run]: the run of digits at [start], and the index past it. *)
Fixpoint digits_len (l : Bytes) : nat :=
  match l with
  | b :: l => if is_ascii_digit b then S (digits_len l) else 0
  | [] => 0
  end.
Definition digit_run (bytes : Bytes) (start : nat) : option (nat * nat) :=
  match bytes !! start with
  | Some b => if is_ascii_digit b
              then Some (start, (start + digits_len (drop start bytes))%nat) else None
  | None => None
  end.

(** [is_boundary]. *)
Definition is_boundary (bytes : Bytes) (i : nat) : bool :=
  match bytes !! i with
  | None => true
  | Some b => negb (is_ascii_alphanumeric b)
  end.
(** [i == 0 || is_boundary(bytes, i - 1)]: the negation of the loops' [continue]. *)
Definition word_start (bytes : Bytes) (i : nat) : bool :=
  match i with O => true | S j => is_boundary bytes j end.

(** [&bytes[start..end]]. *)
Definition slice (bytes : Bytes) (start end_ : nat) : Bytes := take (end_ - start) (drop start bytes).

(** [has_season_marker]: the loop body, then the function. *)
Definition season_at (bytes : Bytes) (i : nat) : bool :=
  bool_decide (bytes !! i = Some b_s) && word_start bytes i &&
  match digit_run bytes (i + 1) with
  | None => false
  | Some (_, digits_end) =>
      is_boundary bytes digits_end ||
      bool_decide (bytes !! digits_end = Some b_e) &&
      match digit_run bytes (digits_end + 1) with
      | Some (_, e) => is_boundary bytes e
      | None => false
      end
  end.
Definition has_season_marker (filename : Bytes) : bool :=
  let lower := to_ascii_lowercase filename in
  existsb (λ word, bool_decide (word = s_season))
    (split_at (λ b, negb (is_ascii_alphanumeric b)) lower) ||
  existsb (season_at lower) (seq 0 (length lower)).

(** [normalize]. *)
Definition normalize (digits : Bytes) : option Bytes := decimal <$> parse_u32 digits.

(** [parse_explicit_episode_token]: the loop body, then the function. *)
Definition token_at (lower : Bytes) (i : nat) : option Bytes :=
  if negb (word_start lower i) then None
  else
    let rest := drop i lower in
    digit_start ←
      (if starts_with s_episode rest then Some (i + length s_episode)%nat
       else if starts_with s_ep rest then Some (i + length s_ep)%nat
       else if starts_with [b_e] rest then Some (i + 1)%nat
       else None);
    let digit_start :=
      if bool_decide (lower !! digit_start = Some b_space) then (digit_start + 1)%nat
      else digit_start in
    '(start, end_) ← digit_run lower digit_start;
    if Nat.ltb 3 (end_ - start) || negb (is_boundary lower end_) then None
    else normalize (slice lower start end_).
Fixpoint find_map {A B} (f : A → option B) (l : list A) : option B :=
  match l with
  | [] => None
  | x :: l => match f x with Some y => Some y | None => find_map f l end
  end.
Definition parse_explicit_episode_token (filename : Bytes) : option Bytes :=
  let lower := to_ascii_lowercase filename in
  find_map (token_at lower) (seq 0 (length lower)).

(** [parse_dash_number]: the loop body, then the loop. *)
Definition dash_at (bytes : Bytes) (dash_end : nat) : option Bytes :=
  '(start, end_) ← digit_run bytes dash_end;
  if Nat.ltb 3 (end_ - start) then None
  else
    let after :=
      if bool_decide (bytes !! end_ = Some b_v) then
        match digit_run bytes (end_ + 1) with Some (_, e) => e | None => end_ end
      else end_ in
    if is_boundary bytes after then normalize (slice bytes start end_) else None.
Fixpoint dash_loop (fuel : nat) (bytes : Bytes) (search_from : nat) : option Bytes :=
  match fuel with
  | O => None
  | S fuel =>
      match str_find s_dash (drop search_from bytes) with
      | None => None
      | Some rel =>
          let dash_end := (search_from + rel + length s_dash)%nat in
          match dash_at bytes dash_end with
          | Some number => Some number
          | None => dash_loop fuel bytes dash_end
          end
      end
  end.
Definition parse_dash_number (filename : Bytes) : option Bytes :=
  dash_loop (S (length filename)) filename 0.

(** [parse_episode_number]. *)
Definition parse_episode_number (filename : Bytes) : option Bytes :=
  if has_season_marker filename then None
  else match parse_explicit_episode_token filename with
       | Some n => Some n
       | None => parse_dash_number filename
       end.

(** [parse_anidb_epno]. *)
Fixpoint find_digit (l : Bytes) : option nat :=
  match l with
  | [] => None
  | b :: l => if is_ascii_digit b then Some 0%nat else S <$> find_digit l
  end.
Definition u64_saturating_digit (n b : Z) : Z :=
  u64_saturating_add (u64_saturating_mul n 10) (b - 48).
Definition epno_category (prefix : Bytes) : Z :=
  let p := to_ascii_uppercase prefix in
  if bool_decide (p = []) then 0
  else if bool_decide (p = bytes_of_string "S") then 1
  else if bool_decide (p = bytes_of_string "C") then 2
  else if bool_decide (p = bytes_of_string "T") then 3
  else if bool_decide (p = bytes_of_string "P") then 4
  else 5.
Definition parse_anidb_epno (episode_number : option Bytes) : option (Z * Z) :=
  epno ← str_trim <$> episode_number;
  digits_at ← find_digit epno;
  let prefix := take digits_at epno in
  let digits := drop digits_at epno in
  if forallb is_ascii_alphabetic prefix
  then Some (epno_category prefix,
             foldl u64_saturating_digit 0 (take (digits_len digits) digits))
  else None.

(** ** Digit runs *)

Lemma digits_len_app ds r :
  digits ds → is_boundary r 0 = true ∨ (∃ b r', r = b :: r' ∧ is_ascii_digit b = false) →
  digits_len (ds ++ r) = length ds.
Proof.
  intros Hd Hr. induction Hd as [|b ds Hb Hd IH]; simpl.
  - destruct Hr as [Hr|(b & r' & -> & Hb)]; [|simpl; by rewrite Hb].
    destruct r as [|b r]; [done|]. simpl in *. unfold is_boundary, is_ascii_alphanumeric in Hr.
    simpl in Hr. by destruct (is_ascii_digit b).
  - rewrite Hb. by rewrite IH.
Qed.

Lemma digits_len_spec l :
  (digits_len l ≤ length l)%nat ∧ digits (take (digits_len l) l).
Proof.
  induction l as [|b l [IH1 IH2]]; simpl; [split; [done|constructor]|].
  destruct (is_ascii_digit b) eqn:E; simpl; [|split; [lia|constructor]].
  split; [lia|by constructor].
Qed.

Lemma digit_run_spec bytes start s e :
  digit_run bytes start = Some (s, e) →
  s = start ∧ (s < e)%nat ∧ (e ≤ length bytes)%nat ∧ digits (slice bytes s e).
Proof.
  unfold digit_run. destruct (bytes !! start) as [b|] eqn:Hb; [|done].
  destruct (is_ascii_digit b) eqn:Hd; [|done]. intros [= <- <-].
  pose proof (lookup_lt_Some _ _ _ Hb) as Hlt.
  destruct (digits_len_spec (drop start bytes)) as [H1 H2]. rewrite length_drop in H1.
  assert (0 < digits_len (drop start bytes))%nat.
  { erewrite drop_S by done. simpl. rewrite Hd. lia. }
  split_and!; [done|lia|lia|]. unfold slice.
  by replace (start + digits_len (drop start bytes) - start)%nat with (digits_len (drop start bytes)) by lia.
Qed.

Lemma length_slice bytes s e : (e ≤ length bytes)%nat → length (slice bytes s e) = (e - s)%nat.
Proof. intros He. unfold slice. rewrite length_take, length_drop. lia. Qed.

(** One to three digits always parse, to a number below 1000. *)
Lemma value_from_bound ds acc :
  digits ds → 0 ≤ acc →
  0 ≤ value_from acc ds < (acc + 1) * 10 ^ Z.of_nat (length ds).
Proof.
  intros Hd. revert acc. induction Hd as [|b ds Hb Hd IH]; intros acc Ha.
  - unfold value_from; simpl. lia.
  - apply is_ascii_digit_range in Hb. specialize (IH (acc * 10 + (b - 48)) ltac:(lia)).
    change (value_from acc (b :: ds)) with (value_from (acc * 10 + (b - 48)) ds).
    cbn [length]. rewrite Nat2Z.inj_succ, Z.pow_succ_r by lia. nia.
Qed.

Lemma normalize_digits ds :
  digits ds → ds ≠ [] → (length ds ≤ 3)%nat →
  normalize ds = Some (decimal (value_from 0 ds)) ∧ 0 ≤ value_from 0 ds < 1000.
Proof.
  intros Hd Hne Hlen. pose proof (value_from_bound ds 0 Hd ltac:(lia)) as Hv.
  assert (10 ^ Z.of_nat (length ds) ≤ 10 ^ 3) by (apply Z.pow_le_mono_r; lia).
  split; [|lia]. unfold normalize, parse_u32. rewrite parse_unsigned_digits; [done|lia|done..|lia].
Qed.

(** What a parsed number looks like in the name. *)
Definition shows (name : Bytes) (number : Bytes) : Prop :=
  ∃ i e, (i < e ≤ length name)%nat ∧ (e - i ≤ 3)%nat ∧ digits (slice name i e) ∧
    number = decimal (value_from 0 (slice name i e)) ∧ 0 ≤ value_from 0 (slice name i e) < 1000.

Lemma normalize_shows name start s e number :
  digit_run name start = Some (s, e) → Nat.ltb 3 (e - s) = false →
  normalize (slice name s e) = Some number → shows name number.
Proof.
  intros Hr Hlen Hn. apply digit_run_spec in Hr as (_ & Hlt & He & Hd). apply Nat.ltb_ge in Hlen.
  pose proof (length_slice name s e He) as Hls.
  destruct (normalize_digits (slice name s e)) as [Heq Hv]; [done|by destruct (slice name s e); simpl in *; [lia|]|lia|].
  exists s, e. split_and!; [lia..|done|congruence|lia|lia].
Qed.

Lemma find_map_Some {A B} (f : A → option B) l y : find_map f l = Some y → ∃ x, x ∈ l ∧ f x = Some y.
Proof.
  induction l as [|x l IH]; simpl; [done|]. destruct (f x) as [z|] eqn:E.
  - intros [= <-]. exists x. split; [left|done].
  - intros (x' & Hx & Hf)%IH. exists x'. split; [by right|done].
Qed.

Lemma token_at_shows lower i n : token_at lower i = Some n → shows lower n.
Proof.
  unfold token_at. destruct (negb _); [done|]. intros (ds & _ & H)%bind_Some.
  apply bind_Some in H as ([s e] & Hr & H). destruct (Nat.ltb 3 (e - s)) eqn:El; [done|].
  destruct (negb (is_boundary lower e)); [done|]. by eapply normalize_shows.
Qed.
Lemma dash_at_shows bytes i n : dash_at bytes i = Some n → shows bytes n.
Proof.
  unfold dash_at. intros ([s e] & Hr & H)%bind_Some. destruct (Nat.ltb 3 (e - s)) eqn:El; [done|].
  destruct (is_boundary _ _); [|done]. by eapply normalize_shows.
Qed.
Lemma dash_loop_shows fuel bytes i n : dash_loop fuel bytes i = Some n → shows bytes n.
Proof.
  revert i. induction fuel as [|fuel IH]; intros i; simpl; [done|].
  destruct (str_find _ _) as [rel|]; [|done]. destruct (dash_at _ _) as [m|] eqn:E; [|apply IH].
  intros [= <-]. by eapply dash_at_shows.
Qed.

(** The fuel never runs out: more of it changes nothing. *)
Lemma dash_loop_fuel fuel fuel' bytes i :
  (length bytes < i + fuel)%nat → (fuel ≤ fuel')%nat →
  dash_loop fuel' bytes i = dash_loop fuel bytes i.
Proof.
  revert fuel' i. induction fuel as [|fuel IH]; intros fuel' i Hi Hf.
  - destruct fuel' as [|fuel']; [done|]. simpl. rewrite drop_ge by lia. done.
  - destruct fuel' as [|fuel']; [lia|]. simpl.
    destruct (str_find s_dash (drop i bytes)) as [rel|] eqn:Hs; [|done].
    destruct (dash_at _ _); [done|]. apply IH; simpl; lia.
Qed.

(** ** Statements *)

(** Soundness: a parsed episode number is the canonical decimal form of a
    number below 1000 that stands in the (lower-cased) name as one to three
    digits, and the name carries no season marker. *)
Theorem parse_episode_number_sound filename number :
  parse_episode_number filename = Some number →
  has_season_marker filename = false ∧
  (shows filename number ∨ shows (to_ascii_lowercase filename) number).
Proof.
  unfold parse_episode_number. destruct (has_season_marker filename); [done|].
  destruct (parse_explicit_episode_token filename) as [m|] eqn:E.
  - intros [= <-]. split; [done|]. right. unfold parse_explicit_episode_token in E.
    apply find_map_Some in E as (i & _ & E). by eapply token_at_shows.
  - intros H. split; [done|]. left. by eapply dash_loop_shows.
Qed.

(** How a name may go on after the number. *)
Definition rest_ok (r : Bytes) : Prop :=
  is_boundary r 0 = true ∨
  ∃ ds r', r = b_v :: ds ++ r' ∧ digits ds ∧ ds ≠ [] ∧ is_boundary r' 0 = true.

Lemma lookup_after (a r : Bytes) : (a ++ r) !! length a = r !! 0%nat.
Proof. rewrite lookup_app_r by done. by rewrite Nat.sub_diag. Qed.
Lemma digit_run_app a ds r :
  digits ds → ds ≠ [] → is_boundary r 0 = true ∨ (∃ b r', r = b :: r' ∧ is_ascii_digit b = false) →
  digit_run (a ++ ds ++ r) (length a) = Some (length a, (length a + length ds)%nat).
Proof.
  intros Hd Hne Hr. unfold digit_run. rewrite lookup_after, drop_app_length, digits_len_app by done.
  destruct Hd as [|b ds Hb Hd]; [done|]. simpl. by rewrite Hb.
Qed.
Lemma is_boundary_app a r : is_boundary (a ++ r) (length a) = is_boundary r 0.
Proof. unfold is_boundary. by rewrite lookup_after. Qed.

(** Round trip for the dash convention: a title, [" - "], one to three
    digits and either a word boundary or a [v2]-style suffix parse to the
    number, whatever the title (as long as it holds no [" - "] itself, no
    season marker and no explicit token). *)
Theorem dash_name_roundtrip title ds r :
  digits ds → ds ≠ [] → (length ds ≤ 3)%nat → rest_ok r →
  str_find s_dash (title ++ s_dash ++ ds ++ r) = Some (length title) →
  has_season_marker (title ++ s_dash ++ ds ++ r) = false →
  parse_explicit_episode_token (title ++ s_dash ++ ds ++ r) = None →
  parse_episode_number (title ++ s_dash ++ ds ++ r) = Some (decimal (value_from 0 ds)).
Proof.
  intros Hd Hne Hlen Hr Hfind Hseason Htok. unfold parse_episode_number. rewrite Hseason, Htok.
  unfold parse_dash_number. set (name := title ++ s_dash ++ ds ++ r) in *.
  cbn [dash_loop]. rewrite drop_0, Hfind. rewrite Nat.add_0_l.
  enough (dash_at name (length title + length s_dash) = Some (decimal (value_from 0 ds))) as -> by done.
  assert (name = (title ++ s_dash) ++ ds ++ r) as Hname by (unfold name; by rewrite <-app_assoc).
  rewrite <-length_app. set (a := title ++ s_dash) in *. rewrite Hname. unfold dash_at.
  assert (is_boundary r 0 = true ∨ (∃ b r', r = b :: r' ∧ is_ascii_digit b = false)) as Hr'.
  { destruct Hr as [?|(ds' & r' & -> & _)]; [by left|]. right. by exists b_v, (ds' ++ r'). }
  rewrite digit_run_app by done. cbn [mbind option_bind].
  replace (length a + length ds - length a)%nat with (length ds) by lia.
  rewrite (proj2 (Nat.ltb_ge _ _)) by lia.
  assert (slice (a ++ ds ++ r) (length a) (length a + length ds) = ds) as ->.
  { unfold slice. rewrite drop_app_length. rewrite Nat.add_comm, Nat.add_sub.
    by rewrite take_app_length. }
  rewrite (app_assoc a ds r), <-(length_app a ds).
  rewrite lookup_after. destruct (normalize_digits ds Hd Hne Hlen) as [Hn _].
  destruct Hr as [Hr|(ds' & r' & -> & Hd' & Hne' & Hb)].
  - rewrite bool_decide_false; [by rewrite is_boundary_app, Hr|].
    intros Hv. unfold is_boundary in Hr. by rewrite Hv in Hr.
  - rewrite bool_decide_true by done.
    change (b_v :: ds' ++ r') with ([b_v] ++ ds' ++ r'). rewrite (app_assoc _ [b_v]).
    replace (length (a ++ ds) + 1)%nat with (length ((a ++ ds) ++ [b_v])) by (by rewrite length_app).
    rewrite digit_run_app by (done || by left).
    rewrite (app_assoc _ ds'), <-length_app, is_boundary_app. by rewrite Hb.
Qed.

Lemma parse_episode_number_sound_witness :
  parse_episode_number (bytes_of_string "Title EP05.mkv") = Some (bytes_of_string "5") ∧
  has_season_marker (bytes_of_string "Title EP05.mkv") = false ∧
  (shows (bytes_of_string "Title EP05.mkv") (bytes_of_string "5") ∨
   shows (to_ascii_lowercase (bytes_of_string "Title EP05.mkv")) (bytes_of_string "5")).
Proof.
  split; [vm_compute; reflexivity|]. apply parse_episode_number_sound. vm_compute. reflexivity.
Defined.

Lemma dash_name_roundtrip_witness :
  parse_episode_number
    (bytes_of_string "[Sub] Show" ++ s_dash ++ bytes_of_string "07" ++ bytes_of_string "v2.mkv") =
  Some (bytes_of_string "7").
Proof.
  apply (dash_name_roundtrip (bytes_of_string "[Sub] Show") (bytes_of_string "07")
           (bytes_of_string "v2.mkv")).
  - repeat constructor.
  - discriminate.
  - vm_compute. lia.
  - right. exists (bytes_of_string "2"), (bytes_of_string ".mkv").
    split; [reflexivity|]. split; [repeat constructor|]. split; [discriminate|reflexivity].
  - vm_compute. reflexivity.
  - vm_compute. reflexivity.
  - vm_compute. reflexivity.
Defined.
