(* ===== verification/Derive.v ===== *)
(** * Derived state (dessplay-core/src/derive.rs)

    Pure functions from the resolved view and the peer list to what the product
    shows and decides: a user's effective state, who blocks playback and why,
    the outage grace window, whom to follow after an outage, the saved position
    to store. The [f64] comparison of the watched threshold is computed in
    binary64 (SpecFloat), rounding included. *)

From Stdlib Require Import SpecFloat.
From S2P Require Import Prelude Types Playlist View Franchise SeriesIdentity Message.

Inductive DerivedUserState :=
| DReady | DMaybe | DPaused | DAway (set_by : UserId) | DNotWatching.
Inductive BlockReason := BPaused | BFileMissing | BDownloading | BCommittedAbsent.
Record Blocker := mkBlocker { blocker_user : UserId; blocker_reason : BlockReason }.

#[export] Instance BlockReason_eq_dec : EqDecision BlockReason.
Proof. solve_decision. Defined.

(** ** Commitment *)

(** The fold of [series_watch_for_file]: Watching beats NotWatching beats Maybe. *)
Definition stronger (acc state : SeriesWatchState) : SeriesWatchState :=
  match acc, state with
  | Watching, _ | _, Watching => Watching
  | NotWatching, _ | _, NotWatching => NotWatching
  | Maybe, Maybe => Maybe
  end.

Section derive.
Variable md4 : list Z → Z.

(** [series_watch_for_file]. *)
Definition series_watch_for_file (v : StateView) (user : UserId) (file : Ed2kHash)
    : SeriesWatchState :=
  match resolve_series_entry_for_file md4 v file with
  | None => Maybe
  | Some entry =>
      let siblings :=
        match v_list_entries v !! entry ≫= anidb_series_id with
        | Some series => entries_claiming_series md4 v series
        | None => [entry]
        end in
      foldl stronger Maybe
        (pref_state <$> omap (λ entry, v_series_preference v !! (user, entry)) siblings)
  end.

(** [effective_watch]. *)
Definition effective_watch (v : StateView) (user : UserId) : SeriesWatchState :=
  match v_now_playing v with
  | Some file => series_watch_for_file v user file
  | None => Maybe
  end.

(** [user_state]. *)
Definition manual_of (v : StateView) (user : UserId) : option ManualState :=
  mjoin (v_manual_override v !! user).
Definition user_state (v : StateView) (user : UserId) : DerivedUserState :=
  match manual_of v user with
  | Some ManualPaused => DPaused
  | Some (ManualAway set_by) => DAway set_by
  | None =>
      match effective_watch v user with
      | Watching => DReady
      | Maybe => DMaybe
      | NotWatching => DNotWatching
      end
  end.

(** ** Gating *)

(** [file_block_reason], [file_permits], [held_now_playing]. *)
Definition file_block_reason (v : StateView) (user : UserId) : option BlockReason :=
  file ← v_now_playing v;
  match v_file_availability v !! (user, file) with
  | None | Some AvReady | Some (AvDownloadingPlayable _) => None
  | Some AvMissing => Some BFileMissing
  | Some (AvDownloading _) => Some BDownloading
  end.
Definition file_permits (v : StateView) (user : UserId) : bool :=
  match file_block_reason v user with None => true | Some _ => false end.
Definition held_now_playing (v : StateView) (user : UserId) : option Ed2kHash :=
  file ← v_now_playing v;
  if bool_decide (v_file_availability v !! (user, file) = Some AvReady) then Some file else None.

(** [present_block_reason]. *)
Definition present_block_reason (v : StateView) (user : UserId) (manual : option ManualState)
    : option BlockReason :=
  match manual with
  | Some ManualPaused => Some BPaused
  | _ => file_block_reason v user
  end.

(** [playback_blockers]: the loop body, then the loop. *)
Definition acknowledged (v : StateView) (user : UserId) : bool :=
  match v_now_playing v with
  | Some file => bool_decide ((file, user) ∈ v_acknowledged_absent v)
  | None => false
  end.
Definition peer_blocker (v : StateView) (peer : PeerInfo) : option Blocker :=
  if bool_decide (peer_role peer ≠ Interactive) then None
  else
    let user := peer_username peer in
    let manual := manual_of v user in
    match manual with
    | Some (ManualAway _) => None
    | _ =>
        if bool_decide (peer_presence peer ≠ Present) &&
           bool_decide (is_Some (peer_grace_until peer)) then None
        else
          let reason :=
            match effective_watch v user, peer_presence peer with
            | NotWatching, _ => None
            | Maybe, Present => present_block_reason v user manual
            | Maybe, (Lost | Departed) => None
            | Watching, Present => present_block_reason v user manual
            | Watching, (Lost | Departed) =>
                if acknowledged v user then None else Some BCommittedAbsent
            end in
          mkBlocker user <$> reason
    end.
Definition playback_blockers (v : StateView) (peers : list PeerInfo) : list Blocker :=
  foldl (λ blockers peer, match peer_blocker v peer with
                          | Some b => blockers ++ [b]
                          | None => blockers
                          end) [] peers.

(** [playback_active]. *)
Definition playback_active (v : StateView) (peers : list PeerInfo) : bool :=
  bool_decide (v_playback_intent v = IntentPlaying) &&
  bool_decide (is_Some (v_now_playing v)) &&
  match playback_blockers v peers with [] => true | _ :: _ => false end.
End derive.

(** ** The peer list *)

Definition KNOWN_OFFLINE_GATING_HORIZON_MILLIS : Z := 7 * 24 * 60 * 60 * 1000.

(** [merge_known_offline]. *)
Definition synthesized (user : KnownUser) : PeerInfo :=
  mkPeerInfo (known_username user) Interactive Departed [] (known_last_seen user) None.
Definition merge_one (now_millis : Z) (merged : list PeerInfo) (user : KnownUser)
    : list PeerInfo :=
  if KNOWN_OFFLINE_GATING_HORIZON_MILLIS
       <? u64_saturating_sub now_millis (known_last_seen user) then merged
  else if existsb (λ p, bool_decide (peer_username p = known_username user)) merged then merged
  else merged ++ [synthesized user].
Definition merge_known_offline (peers : list PeerInfo) (known_offline : list KnownUser)
    (now_millis : Z) : list PeerInfo :=
  foldl (merge_one now_millis) peers known_offline.

(** [OUTAGE_GRACE_MILLIS], [OutageGrace], [outage_grace]. *)
Definition OUTAGE_GRACE_MILLIS : Z := 3 * 60 * 1000.
Record OutageGrace := mkOutageGrace { grace_user : UserId; grace_end : Z }.

(** [Iterator::min_by_key]: the first of the least elements. *)
Definition min_by_key {A} (key : A → Z) (l : list A) : option A :=
  match l with
  | [] => None
  | x :: l => Some (foldl (λ m y, if key y <? key m then y else m) x l)
  end.
Definition outage_grace (peers : list PeerInfo) : option OutageGrace :=
  min_by_key grace_end
    (omap (λ p, mkOutageGrace (peer_username p) <$> peer_grace_until p)
       (filter (λ p, peer_role p = Interactive ∧ peer_presence p ≠ Present) peers)).

(** ** Downloads *)

(** [anchored_download_order]. *)
Definition anchored_download_order (l : list PlaylistEntry) (anchor : option Ed2kHash)
    : list PlaylistEntry :=
  match anchor ≫= λ a, find_index a l with
  | None => l
  | Some i => drop i l ++ reverse (take i l)
  end.

(** ** Positions *)

(** [loaded_positions]: collected through a [BTreeMap] keyed by user. *)
Definition holds_video (v : StateView) (user : UserId) (file : Ed2kHash) : bool :=
  match v_file_availability v !! (user, file) with
  | Some AvReady | Some (AvDownloadingPlayable _) => true
  | _ => false
  end.
Definition loaded_position (v : StateView) (file : Ed2kHash) (p : PeerInfo)
    : option (UserId * PlaybackPosition) :=
  if bool_decide (peer_presence p = Present) && bool_decide (peer_role p = Interactive) &&
     holds_video v (peer_username p) file
  then
    pos ← v_playback_position v !! peer_username p;
    if bool_decide (pos_file pos = file) then Some (peer_username p, pos) else None
  else None.
Definition loaded_positions (v : StateView) (peers : list PeerInfo) (file : Ed2kHash)
    : list (UserId * PlaybackPosition) :=
  btree_iter (foldl (λ (m : gmap UserId PlaybackPosition) up, <[up.1 := up.2]> m) ∅
                (omap (loaded_position v file) peers)).

(** [rejoin_laggard]. *)
Definition rejoin_laggard (v : StateView) (peers : list PeerInfo)
    : option (UserId * PlaybackPosition) :=
  file ← v_now_playing v;
  let loaded := loaded_positions v peers file in
  front ← iter_max ((λ up, position_millis up.2) <$> loaded);
  min_by_key (λ up, position_millis up.2)
    (filter (λ up, front ≤ u64_saturating_add (position_millis up.2) OUTAGE_GRACE_MILLIS) loaded).

(** [WATCHED_FRACTION * d <= median], in binary64. *)
Definition f64_of_u64 (x : Z) : spec_float := binary_normalize 53 1024 x 0 false.
Definition WATCHED_FRACTION : spec_float := S754_finite false 7656119366529843 (-53).
Definition past_watched (median duration : Z) : bool :=
  SFleb (SFmul 53 1024 WATCHED_FRACTION (f64_of_u64 duration)) (f64_of_u64 median).

(** [saved_position]. *)
Definition median_of (positions : list Z) : Z :=
  let mid := (length positions / 2)%nat in
  let at_ i := default 0 (positions !! i) in
  if (length positions mod 2 =? 1)%nat then at_ mid
  else (at_ (mid - 1)%nat + at_ mid) / 2.
Definition saved_position (v : StateView) (peers : list PeerInfo) (file : Ed2kHash)
    : option Z :=
  let positions := (λ up, position_millis up.2) <$> loaded_positions v peers file in
  match positions with
  | [] => None
  | _ :: _ =>
      let median := median_of (sort_by cmp positions) in
      let duration := List.find (λ e, bool_decide (pe_hash e = file)) (v_playlist v)
                        ≫= λ e, pfs_duration_millis (pe_state e) in
      match duration with
      | Some d => if past_watched median (Zpos d) then Some 0 else Some median
      | None => Some median
      end
  end.

(** ** The gating rule *)

Section gating.
Variable md4 : list Z → Z.
Implicit Types (v : StateView) (p : PeerInfo).

(** The matrix of the documentation, as rules: who blocks and for what. *)
Inductive blocks v p : BlockReason → Prop :=
| blocks_paused :
    manual_of v (peer_username p) = Some ManualPaused → peer_presence p = Present →
    effective_watch md4 v (peer_username p) ≠ NotWatching → blocks v p BPaused
| blocks_file r :
    manual_of v (peer_username p) = None → peer_presence p = Present →
    effective_watch md4 v (peer_username p) ≠ NotWatching →
    file_block_reason v (peer_username p) = Some r → blocks v p r
| blocks_absent :
    (∀ u, manual_of v (peer_username p) ≠ Some (ManualAway u)) →
    peer_presence p ≠ Present → peer_grace_until p = None →
    effective_watch md4 v (peer_username p) = Watching →
    acknowledged v (peer_username p) = false → blocks v p BCommittedAbsent.

Lemma peer_blocker_blocks v p b :
  peer_blocker md4 v p = Some b ↔
    peer_role p = Interactive ∧ blocker_user b = peer_username p ∧ blocks v p (blocker_reason b).
Proof.
  destruct b as [u r]. unfold peer_blocker, present_block_reason. simpl. split.
  - intros Hb. destruct (peer_role p) eqn:Hrole; simpl in Hb; [|done].
    destruct (manual_of v (peer_username p)) as [[|by_]|] eqn:Hm; try done;
      destruct (peer_presence p) eqn:Hp; simpl in Hb;
      destruct (peer_grace_until p) eqn:Hg; simpl in Hb; try done;
      destruct (effective_watch md4 v (peer_username p)) eqn:Hw; simpl in Hb; try done;
      repeat match type of Hb with context [if ?b then _ else _] => destruct b eqn:?; simpl in Hb end;
      try (apply fmap_Some in Hb as (? & Hf & Hb)); simplify_eq; (split_and!; [done|done|]);
      solve [ by apply blocks_paused; congruence
            | by eapply blocks_file; congruence
            | by apply blocks_absent; (congruence || done) ].
  - intros (-> & -> & Hb). simpl.
    inversion Hb as [Hm Hp Hw|r' Hm Hp Hw Hf|Hm Hp Hg Hw Ha]; subst.
    + rewrite Hm, Hp. simpl. by destruct (effective_watch md4 v (peer_username p)).
    + rewrite Hm, Hp. simpl. rewrite Hf. by destruct (effective_watch md4 v (peer_username p)).
    + rewrite Hg, Hw, Ha. rewrite (bool_decide_eq_false_2 (is_Some None)) by (by intros [? ?]).
      rewrite andb_false_r. destruct (manual_of v (peer_username p)) as [[|u]|] eqn:Hman;
        [|by destruct (Hm u)|]; by destruct (peer_presence p).
Qed.

Lemma blockers_omap v peers :
  playback_blockers md4 v peers = omap (peer_blocker md4 v) peers.
Proof.
  unfold playback_blockers.
  assert (∀ acc, foldl (λ blockers peer, match peer_blocker md4 v peer with
                          | Some b => blockers ++ [b] | None => blockers end) acc peers =
                 acc ++ omap (peer_blocker md4 v) peers) as H; [|apply H].
  induction peers as [|p peers IH]; intros acc; simpl; [by rewrite app_nil_r|].
  rewrite IH. destruct (peer_blocker md4 v p); [by rewrite <-app_assoc|done].
Qed.

Lemma elem_of_blockers v peers u r :
  mkBlocker u r ∈ playback_blockers md4 v peers ↔
    ∃ p, p ∈ peers ∧ peer_role p = Interactive ∧ peer_username p = u ∧ blocks v p r.
Proof.
  rewrite blockers_omap, list_elem_of_omap. setoid_rewrite peer_blocker_blocks. naive_solver.
Qed.

Lemma playback_active_spec v peers :
  playback_active md4 v peers = true ↔
    v_playback_intent v = IntentPlaying ∧ is_Some (v_now_playing v) ∧
    ∀ p r, p ∈ peers → peer_role p = Interactive → ¬ blocks v p r.
Proof.
  unfold playback_active. rewrite !andb_true_iff, !bool_decide_eq_true. split.
  - intros [[Hi Hn] Hb]. split_and!; [done|done|]. intros p r Hp Hrole Hbl.
    assert (mkBlocker (peer_username p) r ∈ playback_blockers md4 v peers) as Hin
      by (apply elem_of_blockers; eauto).
    destruct (playback_blockers md4 v peers); [by apply elem_of_nil in Hin|done].
  - intros (Hi & Hn & Hb). split; [done|].
    destruct (playback_blockers md4 v peers) as [|[u r] l] eqn:E; [done|].
    assert (mkBlocker u r ∈ playback_blockers md4 v peers) as Hin by (rewrite E; left).
    apply elem_of_blockers in Hin as (p & Hp & Hrole & _ & Hbl). by destruct (Hb p r).
Qed.
End gating.

(** ** Known-offline users *)

Lemma existsb_username (merged : list PeerInfo) u :
  existsb (λ p, bool_decide (peer_username p = u)) merged = true ↔ u ∈ peer_username <$> merged.
Proof.
  rewrite existsb_exists, list_elem_of_fmap. setoid_rewrite bool_decide_eq_true.
  setoid_rewrite <-list_elem_of_In. naive_solver.
Qed.

Definition in_horizon (now_millis : Z) (k : KnownUser) : Prop :=
  u64_saturating_sub now_millis (known_last_seen k) ≤ KNOWN_OFFLINE_GATING_HORIZON_MILLIS.

Lemma merge_one_cases now merged k :
  (merge_one now merged k = merged ∧
     (¬ in_horizon now k ∨ known_username k ∈ peer_username <$> merged)) ∨
  (merge_one now merged k = merged ++ [synthesized k] ∧ in_horizon now k ∧
     known_username k ∉ peer_username <$> merged).
Proof.
  unfold merge_one, in_horizon. destruct (Z.ltb_spec KNOWN_OFFLINE_GATING_HORIZON_MILLIS
    (u64_saturating_sub now (known_last_seen k))); [left; split; [done|left; lia]|].
  destruct (existsb _ merged) eqn:E.
  - apply existsb_username in E. left. auto.
  - right. split_and!; [done|lia|]. rewrite <-existsb_username. by rewrite E.
Qed.

Lemma merge_known_spec peers known now :
  ∃ extra, merge_known_offline peers known now = peers ++ extra ∧
    (∀ p, p ∈ extra → ∃ k, k ∈ known ∧ in_horizon now k ∧ p = synthesized k ∧
       known_username k ∉ peer_username <$> peers) ∧
    NoDup (peer_username <$> extra) ∧
    (∀ k, k ∈ known → in_horizon now k → known_username k ∉ peer_username <$> peers →
       ∃ k', synthesized k' ∈ extra ∧ known_username k' = known_username k).
Proof.
  unfold merge_known_offline. induction known as [|k known IH] using rev_ind.
  - exists []. rewrite app_nil_r. split_and!; [done|set_solver|constructor|set_solver].
  - rewrite foldl_app. simpl. destruct IH as (extra & -> & Hex & Hnd & Hcov).
    destruct (merge_one_cases now (peers ++ extra) k) as [[-> Hskip]|(-> & Hh & Hn)].
    + exists extra. split_and!; [done|intros p Hp; destruct (Hex p Hp) as (k' & ? & ?); exists k'; set_solver|done|].
      intros k' [Hk'|Hk']%elem_of_app Hh Hn; [by apply Hcov|].
      apply list_elem_of_singleton in Hk' as ->. destruct Hskip as [|Hin]; [done|].
      rewrite fmap_app, elem_of_app in Hin. destruct Hin as [|Hin]; [done|].
      apply list_elem_of_fmap in Hin as (p & Hp & Hin).
      destruct (Hex p Hin) as (k' & _ & _ & -> & _). exists k'. by simpl in Hp.
    + rewrite fmap_app, elem_of_app in Hn. exists (extra ++ [synthesized k]). rewrite app_assoc.
      split_and!; [done| | |].
      * intros p [Hp|Hp%list_elem_of_singleton]%elem_of_app.
        -- destruct (Hex p Hp) as (k' & ? & ?). exists k'. set_solver.
        -- exists k. set_solver.
      * rewrite fmap_app. apply NoDup_app. split_and!; [done|set_solver|apply NoDup_singleton].
      * intros k' [Hk'|Hk'%list_elem_of_singleton]%elem_of_app Hh' Hn'.
        -- destruct (Hcov k' Hk' Hh' Hn') as (k'' & ? & ?). exists k''. set_solver.
        -- subst. exists k. set_solver.
Qed.

(** ** Positions *)

Lemma lookup_foldl_insert_values `{Countable K} {V} (g : K → option V) (l : list (K * V)) m k v :
  (∀ k v, (k, v) ∈ l → g k = Some v) → (∀ k v, m !! k = Some v → g k = Some v) →
  foldl (λ (m : gmap K V) kv, <[kv.1 := kv.2]> m) m l !! k = Some v ↔
    m !! k = Some v ∨ (k, v) ∈ l.
Proof.
  revert m. induction l as [|[i x] l IH]; intros m Hl Hm; cbn [foldl fst snd]; [set_solver|].
  rewrite IH.
  - rewrite lookup_insert_Some, elem_of_cons. split.
    + intros [[[-> ->]|[_ Hk]]|Hk]; auto.
    + intros [Hk|[[= -> ->]|Hk]]; [|by left; left|by right].
      destruct (decide (i = k)) as [->|Hne]; [|left; right; done]. left. left.
      split; [done|]. apply Hm in Hk. specialize (Hl k x ltac:(left)). congruence.
  - intros j y Hj. apply Hl. by right.
  - intros j y [[<- <-]|[_ Hj]]%lookup_insert_Some; [apply Hl; left|by apply Hm].
Qed.

Lemma loaded_position_Some v file p u pos :
  loaded_position v file p = Some (u, pos) ↔
    peer_presence p = Present ∧ peer_role p = Interactive ∧ peer_username p = u ∧
    holds_video v u file = true ∧ v_playback_position v !! u = Some pos ∧ pos_file pos = file.
Proof.
  unfold loaded_position. split.
  - destruct (_ && _) eqn:E; [|done]. rewrite !andb_true_iff, !bool_decide_eq_true in E.
    destruct E as [[Hp Hr] Hh]. intros (q & Hq & Hf)%bind_Some.
    case_bool_decide; simplify_eq. done.
  - intros (Hp & Hr & <- & Hh & Hpos & Hf). rewrite Hp, Hr, Hh, Hpos. simpl.
    by rewrite bool_decide_eq_true_2.
Qed.

Lemma elem_of_loaded_positions v peers file u pos :
  (u, pos) ∈ loaded_positions v peers file ↔
    ∃ p, p ∈ peers ∧ loaded_position v file p = Some (u, pos).
Proof.
  unfold loaded_positions. rewrite elem_of_btree_iter.
  rewrite (lookup_foldl_insert_values (λ u, v_playback_position v !! u)).
  - rewrite lookup_empty, list_elem_of_omap. naive_solver.
  - intros k x (p & _ & Hp)%list_elem_of_omap. by apply loaded_position_Some in Hp as (_ & _ & _ & _ & ? & _).
  - intros k x. by rewrite lookup_empty.
Qed.

Lemma min_by_key_spec {A} (key : A → Z) l :
  match min_by_key key l with
  | None => l = []
  | Some m => m ∈ l ∧ ∀ y, y ∈ l → key m ≤ key y
  end.
Proof.
  destruct l as [|x l]; simpl; [done|].
  assert (∀ l x, let m := foldl (λ m y, if key y <? key m then y else m) x l in
    m ∈ x :: l ∧ ∀ y, y ∈ x :: l → key m ≤ key y) as H; [|apply H].
  clear. induction l as [|y l IH]; intros x; simpl.
  - split; [left|]. intros y ->%list_elem_of_singleton. lia.
  - destruct (IH (if key y <? key x then y else x)) as [Hin Hle]. split.
    + destruct (key y <? key x); set_solver.
    + intros z Hz. destruct (Z.ltb_spec (key y) (key x)).
      * apply elem_of_cons in Hz as [->|Hz]; [|by apply Hle].
        specialize (Hle y ltac:(left)). lia.
      * apply elem_of_cons in Hz as [->|[->|Hz]%elem_of_cons]; [apply Hle; left| |].
        -- specialize (Hle x ltac:(left)). lia.
        -- apply Hle. by right.
Qed.

Lemma sorted_lookup_le l i j x y :
  StronglySorted ord_le l → (i ≤ j)%nat → l !! i = Some x → l !! j = Some y → x ≤ y.
Proof.
  intros Hs. revert i j. induction Hs as [|z l Hl IH Hz]; intros i j Hij Hi Hj; [done|].
  destruct i as [|i], j as [|j]; simplify_eq/=; [lia| |lia|].
  - apply list_elem_of_lookup_2 in Hj. rewrite Forall_forall in Hz. specialize (Hz y Hj).
    unfold ord_le, cmp, Z_ord in Hz. by rewrite Z.compare_le_iff in Hz.
  - apply (IH i j); [lia|done|done].
Qed.

(** The median lies between the two middle values. *)
Lemma median_between l x y :
  StronglySorted ord_le l → l !! ((length l - 1) / 2)%nat = Some x →
  l !! (length l / 2)%nat = Some y → x ≤ median_of l ≤ y.
Proof.
  intros Hs Hx Hy. unfold median_of. pose proof (Nat.div_mod_eq (length l) 2) as Hdm.
  pose proof (Nat.mod_upper_bound (length l) 2 ltac:(lia)) as Hmod.
  assert (length l ≠ 0)%nat by (destruct l; [done|simpl; lia]).
  destruct (Nat.eqb_spec (length l mod 2) 1) as [Hodd|Heven].
  - assert ((length l - 1) / 2 = length l / 2)%nat as Heq.
    { symmetry. apply (Nat.div_unique _ 2 _ 0); lia. }
    rewrite Heq in Hx. rewrite Hy. simpl. simplify_eq. lia.
  - assert (length l / 2 - 1 = (length l - 1) / 2)%nat as Heq.
    { apply (Nat.div_unique _ 2 _ 1); lia. }
    rewrite Heq, Hx, Hy. simpl.
    assert (x ≤ y) by (eapply (sorted_lookup_le l _ _ x y Hs); [|done|done]; lia).
    split; [apply Z.div_le_lower_bound; lia|]. apply Z.div_le_upper_bound; lia.
Qed.

(** ** Statements *)

(** The gating matrix: a user is listed as a blocker, with a given reason,
    exactly when some interactive peer of that name blocks by one of the rules;
    seeders, away users, users not watching, absent undecided users and absent
    users inside an outage grace never do. *)
Theorem playback_blockers_matrix md4 v peers u r :
  mkBlocker u r ∈ playback_blockers md4 v peers ↔
    ∃ p, p ∈ peers ∧ peer_role p = Interactive ∧ peer_username p = u ∧ blocks md4 v p r.
Proof. apply elem_of_blockers. Qed.

(** The video plays exactly when the latch is on [Playing], something is
    queued and no interactive peer blocks. *)
Theorem playback_active_iff md4 v peers :
  playback_active md4 v peers = true ↔
    v_playback_intent v = IntentPlaying ∧ is_Some (v_now_playing v) ∧
    ∀ p r, p ∈ peers → peer_role p = Interactive → ¬ blocks md4 v p r.
Proof. apply playback_active_spec. Qed.

(** A server restart does not waive commitments: a committed user who is
    only in the known-offline registry, seen within the horizon, keeps playback
    blocked, and the entries of connected peers are kept as they are. *)
Theorem known_offline_commitment_gates md4 v peers known now k :
  k ∈ known → in_horizon now k → known_username k ∉ peer_username <$> peers →
  effective_watch md4 v (known_username k) = Watching →
  (∀ u, manual_of v (known_username k) ≠ Some (ManualAway u)) →
  acknowledged v (known_username k) = false →
  mkBlocker (known_username k) BCommittedAbsent
    ∈ playback_blockers md4 v (merge_known_offline peers known now) ∧
  peers `prefix_of` merge_known_offline peers known now.
Proof.
  intros Hk Hh Hn Hw Hm Ha. destruct (merge_known_spec peers known now) as (extra & Heq & _ & _ & Hcov).
  rewrite Heq. split; [|by exists extra]. destruct (Hcov k Hk Hh Hn) as (k' & Hin & Hname).
  apply elem_of_blockers. exists (synthesized k'). split_and!; [set_solver|done|done|].
  apply blocks_absent; simpl; rewrite ?Hname; done.
Qed.

(** After an outage the group follows a loaded peer who is furthest behind
    among those within one grace window of the furthest ahead; there is one as
    soon as anyone has now-playing loaded. *)
Theorem rejoin_laggard_correct v peers :
  match rejoin_laggard v peers with
  | Some (u, pos) =>
      ∃ file, v_now_playing v = Some file ∧ (u, pos) ∈ loaded_positions v peers file ∧
        ∀ u' pos', (u', pos') ∈ loaded_positions v peers file →
          position_millis pos' ≤ u64_saturating_add (position_millis pos) OUTAGE_GRACE_MILLIS ∧
          (position_millis pos' < position_millis pos →
           ∃ w, w ∈ loaded_positions v peers file ∧
             u64_saturating_add (position_millis pos') OUTAGE_GRACE_MILLIS < position_millis w.2)
  | None =>
      ∀ file, v_now_playing v = Some file →
        (∀ w, w ∈ loaded_positions v peers file → is_u64 (position_millis w.2)) →
        loaded_positions v peers file = []
  end.
Proof.
  unfold rejoin_laggard. destruct (v_now_playing v) as [file|]; simpl; [|done].
  set (l := loaded_positions v peers file). set (key := λ up : UserId * PlaybackPosition, position_millis up.2).
  destruct (iter_max (key <$> l)) as [front|] eqn:Hfront; simpl.
  - assert (∃ w, w ∈ l ∧ key w = front) as (w & Hw & Hwf).
    { apply iter_max_elem in Hfront. apply list_elem_of_fmap in Hfront as (w & -> & Hw). eauto. }
    assert (∀ x, x ∈ l → key x ≤ front) as Hub.
    { intros x Hx. pose proof (iter_max_ub (key <$> l) (key x)) as H. rewrite Hfront in H.
      apply H. apply list_elem_of_fmap. eauto. }
    pose proof (min_by_key_spec key
      (filter (λ up, front ≤ u64_saturating_add (key up) OUTAGE_GRACE_MILLIS) l)) as Hmin.
    change (λ up : UserId * PlaybackPosition, position_millis up.2) with key.
    destruct (min_by_key key _) as [[u pos]|].
    + destruct Hmin as [[Hin1 Hin2]%list_elem_of_filter Hle]. exists file. split_and!; [done|done|].
      intros u' pos' Hp. split; [specialize (Hub _ Hp); unfold key in *; simpl in *; lia|].
      intros Hlt. exists w. split; [done|]. apply Z.nle_gt. intros Hin.
      assert (key (u, pos) ≤ key (u', pos')) as Hcon.
      { apply Hle, list_elem_of_filter. unfold key in *. simpl in *. split; [lia|done]. }
      unfold key in Hcon. simpl in Hcon. lia.
    + intros file' [= <-] Hu64. exfalso.
      assert (w ∈ filter (λ up, front ≤ u64_saturating_add (key up) OUTAGE_GRACE_MILLIS) l) as Hin.
      { apply list_elem_of_filter. split; [|done]. rewrite Hwf. specialize (Hu64 w Hw).
        unfold is_u64, u64_saturating_add, u64_max, OUTAGE_GRACE_MILLIS, key in *. lia. }
      rewrite Hmin in Hin. by apply elem_of_nil in Hin.
  - intros file' [= <-] _. change (l = []). by destruct l.
Qed.

(** The saved position is stored exactly when somebody has the file loaded;
    it is 0 or a median of the loaded positions, so between the two middle
    ones, and 0 whenever that median is past the watched threshold. *)
Theorem saved_position_median v peers file :
  let positions := sort_by cmp ((λ up, position_millis up.2) <$> loaded_positions v peers file) in
  match saved_position v peers file with
  | None => loaded_positions v peers file = []
  | Some m =>
      ∃ x y, positions !! ((length positions - 1) / 2)%nat = Some x ∧
        positions !! (length positions / 2)%nat = Some y ∧
        x ≤ median_of positions ≤ y ∧ (m = median_of positions ∨ m = 0) ∧
        (∀ e d, List.find (λ e, bool_decide (pe_hash e = file)) (v_playlist v) = Some e →
           pfs_duration_millis (pe_state e) = Some d →
           m = if past_watched (median_of positions) (Zpos d) then 0 else median_of positions)
  end.
Proof.
  intros positions. unfold saved_position.
  destruct (loaded_positions v peers file) as [|w l] eqn:Hl; simpl; [done|].
  fold (fmap (M:=list) (λ up : UserId * PlaybackPosition, position_millis up.2) l) in *.
  change (insert_by cmp (position_millis w.2)
    (sort_by cmp ((λ up : UserId * PlaybackPosition, position_millis up.2) <$> l))) with positions.
  assert (length positions ≠ 0)%nat as Hlen by (unfold positions; rewrite length_sort_by; done).
  assert (StronglySorted ord_le positions) as Hsort by apply (sort_by_key_sorted (λ x : Z, x)).
  pose proof (Nat.Div0.div_le_upper_bound (length positions - 1) 2 (length positions - 1) ltac:(lia)) as Hlo.
  pose proof (Nat.div_lt (length positions) 2 ltac:(lia) ltac:(lia)) as Hhi.
  destruct (lookup_lt_is_Some_2 positions ((length positions - 1) / 2)%nat) as [x Hx]; [lia|].
  destruct (lookup_lt_is_Some_2 positions (length positions / 2)%nat) as [y Hy]; [lia|].
  pose proof (median_between positions x y Hsort Hx Hy) as Hm.
  destruct (List.find _ (v_playlist v)) as [e|]; simpl;
    [destruct (pfs_duration_millis (pe_state e)) as [d|] eqn:Hd; simpl;
       [destruct (past_watched (median_of positions) (Zpos d)) eqn:Hpast|]|];
    exists x, y; (split_and!; [done|done|lia|lia|auto|]); intros e' d' [= <-] Hd'; simplify_eq; by rewrite ?Hpast.
Qed.

(** Download order: the anchor first, then what follows it in playlist
    order, then what precedes it nearest first; nothing is lost or repeated. *)
Theorem anchored_order_correct l anchor :
  anchored_download_order l anchor ≡ₚ l ∧
  (∀ a pre e post, anchor = Some a → l = pre ++ e :: post → pe_hash e = a →
     (∀ x, x ∈ pre → pe_hash x ≠ a) →
     anchored_download_order l anchor = e :: post ++ reverse pre) ∧
  ((∀ a, anchor = Some a → ∀ x, x ∈ l → pe_hash x ≠ a) → anchored_download_order l anchor = l).
Proof.
  unfold anchored_download_order. split_and!.
  - destruct (anchor ≫= _) as [i|]; [|done].
    rewrite reverse_Permutation, Permutation_app_comm. by rewrite take_drop.
  - intros a pre e post -> -> He Hpre. simpl.
    assert (find_index a (pre ++ e :: post) = Some (length pre)) as ->.
    { clear -He Hpre. induction pre as [|x pre IH]; simpl; [by rewrite bool_decide_eq_true_2|].
      rewrite bool_decide_eq_false_2 by (apply Hpre; left). rewrite IH; [done|].
      intros y Hy. apply Hpre. by right. }
    by rewrite drop_app_length, take_app_length.
  - intros Hn. destruct anchor as [a|]; simpl; [|done].
    by rewrite find_index_None by (by apply Hn).
Qed.

(** ** A committed user the restarted server only remembers *)

Definition ex_nero : UserId := mkUserId "nero".
Definition ex_entry : ListEntryId := mkListEntryId 77.
Definition ex_committed : StateView :=
  mkStateView [] ∅ (Some ex_file) None None IntentPlaying
    {[(ex_nero, ex_entry) := mkSeriesPreference Watching None]} ∅ ∅
    {[ex_file := Some ex_metadata]} ∅ ∅
    {[ex_entry := mkSeriesListEntry "show" None None [] None Active None None ∅ None ∅ ∅ false]}
    ∅ ∅ [] ∅ ∅ None ∅.

Lemma known_offline_commitment_gates_witness :
  mkBlocker ex_nero BCommittedAbsent
    ∈ playback_blockers ex_digest ex_committed
        (merge_known_offline [] [mkKnownUser ex_nero 1000] 5000).
Proof.
  apply (known_offline_commitment_gates ex_digest ex_committed [] [mkKnownUser ex_nero 1000] 5000
    (mkKnownUser ex_nero 1000)).
  - left.
  - vm_compute. discriminate.
  - apply not_elem_of_nil.
  - vm_compute. reflexivity.
  - intros u. vm_compute. discriminate.
  - vm_compute. reflexivity.
Defined.

(** 0.85 of 100 s is 85 s, up to the rounding of the product. *)
Example ex_past : past_watched 85000 100000 = true ∧ past_watched 84999 100000 = false.
Proof. vm_compute. done. Qed.
