(* ===== verification/TimeSync.v ===== *)
(** * Clock synchronisation (dessplay-core/src/net/timesync.rs)

    NTP-style offset estimation over a rolling window. The intermediate
    arithmetic is 128-bit in the source and cannot overflow there; the results
    are narrowed with [try_from], modelled as options. Rust's [/] truncates
    towards zero ([Z.quot]). *)

From S2P Require Import Prelude Types.

Record TimeSyncSample := mkTimeSyncSample { sample_rtt : Z; sample_offset : Z }.

Definition i64_min : Z := - 2 ^ 63.
Definition i64_max : Z := 2 ^ 63 - 1.
(** [u64::try_from], [i64::try_from]. *)
Definition u64_try_from (x : Z) : option Z :=
  if (0 <=? x) && (x <=? u64_max) then Some x else None.
Definition i64_try_from (x : Z) : option Z :=
  if (i64_min <=? x) && (x <=? i64_max) then Some x else None.

(** [sample_from_exchange]. *)
Definition sample_from_exchange (t1 t2 t3 t4 : Z) : option TimeSyncSample :=
  let round := t4 - t1 in
  let turnaround := t3 - t2 in
  if (round <? 0) || (turnaround <? 0) || (round <? turnaround) then None
  else
    rtt ← u64_try_from (round - turnaround);
    let offset := Z.quot ((t2 - t1) + (t3 - t4)) 2 in
    offset ← i64_try_from offset;
    Some (mkTimeSyncSample rtt offset).

(** [TimeSync]: the window, oldest first. *)
Record TimeSync := mkTimeSync { samples : list TimeSyncSample }.
Definition WINDOW : nat := 16.
Definition timesync_new : TimeSync := mkTimeSync [].

(** [while len > WINDOW { pop_front }]. *)
Fixpoint trim (l : list TimeSyncSample) : list TimeSyncSample :=
  match l with
  | [] => []
  | _ :: rest => if (WINDOW <? length l)%nat then trim rest else l
  end.
(** [TimeSync::add_exchange]. *)
Definition add_exchange (ts : TimeSync) (t1 t2 t3 t4 : Z) : TimeSync :=
  match sample_from_exchange t1 t2 t3 t4 with
  | Some sample => mkTimeSync (trim (samples ts ++ [sample]))
  | None => ts
  end.
Definition sample_count (ts : TimeSync) : nat := length (samples ts).

(** [TimeSync::median_rtt] and [TimeSync::offset]. *)
Definition median_rtt (ts : TimeSync) : option Z :=
  match samples ts with
  | [] => None
  | _ :: _ =>
      let rtts := sort_by cmp (sample_rtt <$> samples ts) in
      rtts !! (length rtts / 2)%nat
  end.
Definition offset (ts : TimeSync) : option Z :=
  median ← median_rtt ts;
  let cutoff := u64_saturating_mul median 2 in
  let kept := sample_offset <$> filter (λ s, sample_rtt s ≤ cutoff) (samples ts) in
  match kept with
  | [] => None
  | _ :: _ => i64_try_from (Z.quot (foldr Z.add 0 kept) (Z.of_nat (length kept)))
  end.

(** [u64::saturating_add_signed] and [TimeSync::shared_now]. *)
Definition u64_saturating_add_signed (x d : Z) : Z := Z.max 0 (Z.min (x + d) u64_max).
Definition shared_now (ts : TimeSync) (local_millis : Z) : option SharedTimestamp :=
  offset ← offset ts;
  Some (u64_saturating_add_signed local_millis offset).

(** ** Lemmas *)

Lemma u64_try_from_Some x y : u64_try_from x = Some y ↔ y = x ∧ 0 ≤ x ≤ u64_max.
Proof. unfold u64_try_from. case_match eqn:E; naive_solver lia. Qed.
Lemma i64_try_from_Some x y : i64_try_from x = Some y ↔ y = x ∧ i64_min ≤ x ≤ i64_max.
Proof. unfold i64_try_from. case_match eqn:E; naive_solver lia. Qed.

Lemma sample_Some t1 t2 t3 t4 s :
  sample_from_exchange t1 t2 t3 t4 = Some s →
  t1 ≤ t4 ∧ t2 ≤ t3 ∧ t3 - t2 ≤ t4 - t1 ∧ sample_rtt s = (t4 - t1) - (t3 - t2) ∧
  0 ≤ sample_rtt s ≤ u64_max ∧
  sample_offset s = Z.quot ((t2 - t1) + (t3 - t4)) 2 ∧ i64_min ≤ sample_offset s ≤ i64_max.
Proof.
  unfold sample_from_exchange. destruct (_ || _) eqn:E; [done|].
  apply orb_false_iff in E as [[E1 E2]%orb_false_iff E3].
  intros (r & Hr & (o & Ho & [= <-])%bind_Some)%bind_Some. simpl.
  apply u64_try_from_Some in Hr as [-> Hr]. apply i64_try_from_Some in Ho as [-> Ho]. lia.
Qed.

Lemma trim_suffix l : ∃ k, l = k ++ trim l.
Proof.
  induction l as [|x l [k Hk]]; [by exists []|]. cbn [trim].
  case_match; [exists (x :: k); by rewrite Hk at 1|by exists []].
Qed.
Lemma trim_length l : length (trim l) = Nat.min WINDOW (length l).
Proof.
  induction l as [|x l IH]; [done|]. cbn [trim].
  destruct (Nat.ltb_spec WINDOW (length (x :: l))) as [Hlt|Hge]; [|lia].
  rewrite IH. cbn [length] in *. lia.
Qed.

Lemma foldr_add_bounds (l : list Z) lo hi :
  (∀ x, x ∈ l → lo ≤ x ≤ hi) →
  lo * Z.of_nat (length l) ≤ foldr Z.add 0 l ≤ hi * Z.of_nat (length l).
Proof.
  induction l as [|x l IH]; intros Hl; simpl; [lia|].
  specialize (Hl x ltac:(left)) as Hx. specialize (IH ltac:(intros; apply Hl; by right)). lia.
Qed.

Lemma quot_bounds s n lo hi :
  0 < n → lo * n ≤ s ≤ hi * n → lo ≤ Z.quot s n ≤ hi.
Proof.
  intros Hn Hs. pose proof (Z.quot_rem' s n) as Hq. pose proof (Z.rem_bound_abs s n ltac:(lia)) as Hr.
  pose proof (Z.rem_sign_mul s n ltac:(lia)) as Hsg.
  destruct (Z.le_gt_cases 0 s) as [Hpos|Hneg].
  - pose proof (Z.rem_nonneg s n ltac:(lia) Hpos). nia.
  - pose proof (Z.rem_nonpos s n ltac:(lia) ltac:(lia)). nia.
Qed.

Lemma trim_drop l : trim l = drop (length l - WINDOW) l.
Proof.
  induction l as [|x l IH]; [done|]. cbn [trim].
  destruct (Nat.ltb_spec WINDOW (length (x :: l))) as [Hlt|Hge].
  - rewrite IH. cbn [length] in *. by rewrite Nat.sub_succ_l by lia.
  - by replace (length (x :: l) - WINDOW)%nat with 0%nat by lia.
Qed.

Lemma drop_snoc_window {A} (l : list A) x :
  drop (length (drop (length l - WINDOW) l ++ [x]) - WINDOW) (drop (length l - WINDOW) l ++ [x]) =
  drop (length (l ++ [x]) - WINDOW) (l ++ [x]).
Proof.
  rewrite !length_app, length_drop. simpl length.
  destruct (Nat.le_gt_cases (length l) WINDOW) as [Hle|Hgt].
  - by replace (length l - WINDOW)%nat with 0%nat by lia; rewrite drop_0, Nat.sub_0_r.
  - rewrite !drop_app_le by (rewrite ?length_drop; unfold WINDOW in *; lia).
    rewrite drop_drop. do 2 f_equal. unfold WINDOW in *. lia.
Qed.

(** The samples of a sequence of exchanges, and the window they leave. *)
Definition exchange := (Z * Z * Z * Z)%type.
Definition sample_of (e : exchange) : option TimeSyncSample :=
  let '(t1, t2, t3, t4) := e in sample_from_exchange t1 t2 t3 t4.
Definition after_exchanges (es : list exchange) : TimeSync :=
  foldl (λ ts e, let '(t1, t2, t3, t4) := e in add_exchange ts t1 t2 t3 t4) timesync_new es.

Lemma after_exchanges_window es :
  samples (after_exchanges es) =
    drop (length (omap sample_of es) - WINDOW) (omap sample_of es).
Proof.
  unfold after_exchanges. induction es as [|[[[t1 t2] t3] t4] es IH] using rev_ind; [done|].
  rewrite foldl_app, omap_app. cbn [foldl]. unfold add_exchange.
  change (omap sample_of [(t1, t2, t3, t4)]) with
    (match sample_from_exchange t1 t2 t3 t4 with Some s => [s] | None => [] end).
  destruct (sample_from_exchange t1 t2 t3 t4) as [s|]; [|by rewrite app_nil_r].
  cbn [samples]. rewrite trim_drop. set (ts := foldl _ _ _) in *.
  replace (samples ts) with (drop (length (omap sample_of es) - WINDOW) (omap sample_of es)).
  apply drop_snoc_window.
Qed.

Lemma elem_of_window es s :
  s ∈ samples (after_exchanges es) →
  0 ≤ sample_rtt s ≤ u64_max ∧ i64_min ≤ sample_offset s ≤ i64_max.
Proof.
  rewrite after_exchanges_window. intros Hs.
  assert (s ∈ omap sample_of es) as Hin.
  { rewrite <-(take_drop (length (omap sample_of es) - WINDOW) (omap sample_of es)).
    apply elem_of_app. by right. }
  apply list_elem_of_omap in Hin as ([[[t1 t2] t3] t4] & _ & Hs').
  apply sample_Some in Hs'. lia.
Qed.

Lemma median_rtt_elem ts :
  samples ts ≠ [] → ∃ s, s ∈ samples ts ∧ median_rtt ts = Some (sample_rtt s).
Proof.
  intros Hne. unfold median_rtt. destruct (samples ts) as [|x l] eqn:E; [done|]. rewrite <-E.
  set (rtts := sort_by cmp (sample_rtt <$> samples ts)).
  assert (length rtts ≠ 0)%nat as Hlen
    by (unfold rtts; rewrite length_sort_by, length_fmap, E; done).
  destruct (lookup_lt_is_Some_2 rtts (length rtts / 2)%nat) as [r Hr].
  { apply Nat.div_lt; lia. }
  assert (r ∈ sample_rtt <$> samples ts) as Hin.
  { apply list_elem_of_lookup_2 in Hr. unfold rtts in Hr. by rewrite elem_of_sort_by in Hr. }
  apply list_elem_of_fmap in Hin as (s & -> & Hs). by exists s.
Qed.

Lemma offset_extremes (l : list TimeSyncSample) :
  l ≠ [] → ∃ lo hi, lo ∈ l ∧ hi ∈ l ∧
    ∀ x, x ∈ sample_offset <$> l → sample_offset lo ≤ x ≤ sample_offset hi.
Proof.
  induction l as [|y l IH]; [done|intros _]. destruct l as [|z l].
  { exists y, y. split_and!; [left|left|]. intros x ->%list_elem_of_singleton. lia. }
  destruct IH as (lo & hi & Hlo & Hhi & Hb); [done|]. rewrite fmap_cons.
  exists (if sample_offset y <=? sample_offset lo then y else lo),
         (if sample_offset hi <=? sample_offset y then y else hi).
  split_and!; [case_match; [left|by right]|case_match; [left|by right]|].
  pose proof (Hb (sample_offset lo) ltac:(by apply list_elem_of_fmap_2)) as Hlh.
  intros x [->|Hx]%elem_of_cons; [|specialize (Hb x Hx)];
    destruct (Z.leb_spec (sample_offset y) (sample_offset lo)),
      (Z.leb_spec (sample_offset hi) (sample_offset y)); lia.
Qed.

(** The low-RTT samples the estimate averages. *)
Definition low_rtt (ts : TimeSync) (s : TimeSyncSample) : Prop :=
  ∃ m, median_rtt ts = Some m ∧ sample_rtt s ≤ u64_saturating_mul m 2.

(** ** Statements *)

(** An exchange with a server [theta] ahead, whose two network legs take
    [d1] and [d2], is accepted; its RTT is exactly the network time and its
    offset is off by at most half of it (plus the rounding of the division). *)
Theorem exchange_accuracy t1 theta d1 d2 turn :
  0 ≤ d1 ≤ 2 ^ 60 → 0 ≤ d2 ≤ 2 ^ 60 → 0 ≤ turn → - 2 ^ 62 ≤ theta ≤ 2 ^ 62 →
  ∃ s, sample_from_exchange t1 (t1 + d1 + theta) (t1 + d1 + theta + turn) (t1 + d1 + turn + d2)
         = Some s ∧
    sample_rtt s = d1 + d2 ∧ 2 * Z.abs (sample_offset s - theta) ≤ sample_rtt s + 1.
Proof.
  intros H1 H2 H3 Ht. unfold sample_from_exchange.
  replace (t1 + d1 + theta - t1 + (t1 + d1 + theta + turn - (t1 + d1 + turn + d2)))
    with (2 * theta + (d1 - d2)) by lia.
  replace (t1 + d1 + turn + d2 - t1) with (d1 + turn + d2) by lia.
  replace (t1 + d1 + theta + turn - (t1 + d1 + theta)) with turn by lia.
  rewrite (proj2 (Z.ltb_ge (d1 + turn + d2) 0)), (proj2 (Z.ltb_ge turn 0)),
    (proj2 (Z.ltb_ge (d1 + turn + d2) turn)) by lia. cbn [orb].
  set (q := Z.quot (2 * theta + (d1 - d2)) 2).
  assert (2 * Z.abs (q - theta) ≤ Z.abs (d1 - d2) + 1) as Hq.
  { pose proof (Z.quot_rem' (2 * theta + (d1 - d2)) 2) as Hqr. fold q in Hqr.
    pose proof (Z.rem_bound_abs (2 * theta + (d1 - d2)) 2 ltac:(lia)). lia. }
  assert (u64_try_from (d1 + turn + d2 - turn) = Some (d1 + d2)) as ->.
  { apply u64_try_from_Some. unfold u64_max, u64_modulus. lia. }
  assert (i64_try_from q = Some q) as Hi.
  { apply i64_try_from_Some. unfold i64_min, i64_max. lia. }
  simpl. rewrite Hi. simpl. eexists. split; [done|]. simpl. lia.
Qed.

(** After any exchanges the window holds the last 16 accepted samples in
    order; the estimate exists as soon as there is one and lies between the
    offsets of two samples whose RTT is at most twice the median. *)
Theorem window_estimate es :
  let ts := after_exchanges es in let accepted := omap sample_of es in
  samples ts = drop (length accepted - WINDOW) accepted ∧ (sample_count ts ≤ WINDOW)%nat ∧
  (accepted ≠ [] → ∃ o lo hi, offset ts = Some o ∧ lo ∈ samples ts ∧ hi ∈ samples ts ∧
     low_rtt ts lo ∧ low_rtt ts hi ∧ sample_offset lo ≤ o ≤ sample_offset hi).
Proof.
  intros ts accepted. pose proof (after_exchanges_window es) as Hw. fold ts accepted in Hw.
  split_and!; [done|unfold sample_count; rewrite Hw, length_drop; lia|]. intros Hne.
  assert (samples ts ≠ []) as Hs.
  { rewrite Hw. intros Hn%(f_equal length). rewrite length_drop in Hn. simpl in Hn.
    assert (length accepted ≠ 0)%nat by (by destruct accepted). unfold WINDOW in Hn. lia. }
  destruct (median_rtt_elem ts Hs) as (sm & Hsm & Hmed).
  set (kept := filter (λ s, sample_rtt s ≤ u64_saturating_mul (sample_rtt sm) 2) (samples ts)).
  assert (sm ∈ kept) as Hsk.
  { apply list_elem_of_filter. split; [|done]. pose proof (elem_of_window es sm Hsm).
    unfold u64_saturating_mul. lia. }
  destruct (offset_extremes kept) as (lo & hi & Hlo & Hhi & Hb); [by intros ->; apply elem_of_nil in Hsk|].
  assert (sample_offset <$> kept ≠ []) as Hkne by by (intros Hn; apply fmap_nil_inv in Hn; rewrite Hn in Hsk; by apply elem_of_nil in Hsk).
  pose proof (foldr_add_bounds (sample_offset <$> kept) _ _ Hb) as Hsum.
  assert (0 < Z.of_nat (length (sample_offset <$> kept))) as Hlen
    by (destruct (sample_offset <$> kept); cbn [length]; [done|lia]).
  apply (quot_bounds _ _ _ _ Hlen) in Hsum.
  apply list_elem_of_filter in Hlo as [Hlo1 Hlo2]. apply list_elem_of_filter in Hhi as [Hhi1 Hhi2].
  eexists _, lo, hi. split_and!; [|done|done| | |exact (proj1 Hsum)|exact (proj2 Hsum)].
  - unfold offset. rewrite Hmed. cbn [mbind option_bind]. fold kept.
    destruct (sample_offset <$> kept) as [|o os] eqn:E; [congruence|]. rewrite <-E in *.
    apply i64_try_from_Some. split; [done|].
    pose proof (elem_of_window es lo Hlo2). pose proof (elem_of_window es hi Hhi2). lia.
  - by exists (sample_rtt sm).
  - by exists (sample_rtt sm).
Qed.

(** A server 5 s ahead with legs of 20 ms and 40 ms: RTT 60, offset 4990. *)
Lemma exchange_accuracy_witness :
  sample_from_exchange 1000 6020 6025 1065 = Some (mkTimeSyncSample 60 4990) ∧
  ∃ s, sample_from_exchange 1000 (1000 + 20 + 5000) (1000 + 20 + 5000 + 5) (1000 + 20 + 5 + 40)
         = Some s ∧ sample_rtt s = 20 + 40 ∧
    2 * Z.abs (sample_offset s - 5000) ≤ sample_rtt s + 1.
Proof. split; [reflexivity|]. apply (exchange_accuracy 1000 5000 20 40 5); lia. Defined.
