(* ===== verification/Sync.v ===== *)
(** * The sync actor (dessplay/src/actors/sync.rs)

    The client's owner of the replicated state: every local write goes through
    [mutate], every message of the server through [remote]. The actor is a
    value, a handler a computation [M] over it that can emit network commands,
    events, replies and saves, and can panic ([GList::read] and
    [Identifier::value] on an empty identifier: [None]).

    What the handlers read from outside (the clocks, the peer list, whether a
    save succeeds) is [Env], sampled per command. Deliveries are not modelled
    here: an emitted network command is handed to the network actor. *)

From S2P Require Import Prelude Types Lww Vclock CrdtMap Identifier State Fields StateRepr.
From S2P Require Import Convergence Resolve Playlist View Writes Message Franchise Derive.
From S2P Require TimeSync.

(** ** Data *)

Inductive Mutation :=
| AddPlaylistAfter (anchor : option Ed2kHash) (new : NewPlaylistEntry)
| PushPlaylist (new : NewPlaylistEntry)
| MovePlaylistAfter (hash : Ed2kHash) (anchor : option Ed2kHash)
| RemovePlaylist (hash : Ed2kHash)
| SetWatched (hash : Ed2kHash) (w : bool)
| SetNowPlaying (file : option Ed2kHash)
| SetSeekAuthority (authority : SeekAuthority)
| SetUserSeek (file : Ed2kHash) (from_millis to_millis : Z)
| SetPlaybackIntent (intent : PlaybackIntent)
| SetSeriesPreference (user : UserId) (entry : ListEntryId) (pref : SeriesWatchState)
    (set_by : option UserId)
| SetManualOverride (user : UserId) (state : option ManualState)
| SetFileAvailability (file : Ed2kHash) (availability : FileAvailability)
| SetAniDbMetadata (hash : Ed2kHash) (metadata : option AniDbMetadata)
| SetSeriesRelations (series : AniDbSeriesId) (rels : SeriesRelations)
| SetFileCatalog (hash : Ed2kHash) (entry : FileCatalogEntry)
| PutListEntry (id : ListEntryId) (entry : SeriesListEntry)
| SetNextEp (id : ListEntryId) (next_ep : NextEpState)
| RequestLookup (info : FileHashInfo)
| Chat (text : string)
| LocalReport (text : string) (timestamp : SharedTimestamp)
| SetPlaybackPosition (position_millis : Z) (file : Ed2kHash)
| SetPlaylistDuration (hash : Ed2kHash) (duration_millis : positive)
| AcknowledgeAbsent (file : Ed2kHash) (user : UserId)
| SetMarquee (message : option MarqueeMessage).

Inductive GraceRefusal := RefusePause | RefuseSeek | RefuseFileChange.

Inductive Link := Down | AwaitingSync | Synced.
#[export] Instance Link_eq_dec : EqDecision Link.
Proof. solve_decision. Defined.

Inductive SyncCommand :=
| PublishLocalReport (text : string) (timestamp : SharedTimestamp)
| Mutate (m : Mutation)
| Server (msg : ServerControl) (via_datagram : bool)
| Connected
| Disconnected
| ClockSync (millis : Z)
| OfflineHold
| GetView
| GetEpoch.

Inductive SyncEvent :=
| StateChanged
| Diverged
| DivergencePersisted
| DivergenceHealed
| GraceRefused (refusal : GraceRefusal) (grace : OutageGrace).

(** The sync actor's part of [NetworkCommand] (network.rs). *)
Inductive NetworkCommand :=
| SendReliable (msg : ServerControl)
| SendEager (msg : ServerControl)
| SendDatagramOnly (msg : ServerControl).

Inductive Output :=
| ONet (cmd : NetworkCommand)
| OEvent (e : SyncEvent)
| OSave (epoch : Epoch) (s : CrdtState)
| OView (v : StateView)
| OEpoch (e : Epoch)
| OReported (durable : bool).

(** What a handler reads from outside: the wall clock (ms), the monotonic clock
    (ns), the peer list if the session gave one, and the storage if there is
    one (whether it accepts a save). *)
Record Env := mkEnv {
  clock : Z;
  instant : Z;
  peers : option (list PeerInfo);
  storage : option (Epoch → CrdtState → bool)
}.

Definition POSITION_RELIABLE_INTERVAL : Z := 1000000000.
Definition GRACE_REFUSAL_COALESCE : Z := 1000000000.
Definition HEAL_ATTEMPTS_ESCALATE : Z := 3.

(** [grace_refusal]. *)
Definition grace_refusal (m : Mutation) (now_playing : option Ed2kHash) : option GraceRefusal :=
  match m with
  | SetPlaybackIntent IntentPaused | SetManualOverride _ (Some ManualPaused) => Some RefusePause
  | SetUserSeek _ _ _ | SetSeekAuthority _ => Some RefuseSeek
  | SetNowPlaying file =>
      if bool_decide (file ≠ now_playing) then Some RefuseFileChange else None
  | _ => None
  end.

(** ** The actor *)

Record SyncActor := mkSyncActor {
  sa_state : CrdtState;
  sa_user : UserId;
  sa_actor : ActorId;
  sa_epoch_cell : Epoch;
  sa_offset_millis : Z;
  sa_last_issued : Z;
  sa_link : Link;
  sa_offline_buffer : list CrdtOp;
  sa_offline_position : option CrdtOp;
  sa_last_reliable_position : option Z;
  sa_hash_mismatches : Z;
  sa_heal_attempts : Z;
  sa_escalated : bool;
  sa_dirty : bool;
  sa_adopted : bool;
  sa_offline_hold : bool;
  sa_last_grace_refusal : option Z
}.

(** Assigning one field. *)
Definition put_state (x : CrdtState) (a : SyncActor) : SyncActor :=
  mkSyncActor x (sa_user a) (sa_actor a) (sa_epoch_cell a) (sa_offset_millis a)
    (sa_last_issued a) (sa_link a) (sa_offline_buffer a) (sa_offline_position a)
    (sa_last_reliable_position a) (sa_hash_mismatches a) (sa_heal_attempts a) (sa_escalated a)
    (sa_dirty a) (sa_adopted a) (sa_offline_hold a) (sa_last_grace_refusal a).
Definition put_epoch_cell (x : Epoch) (a : SyncActor) : SyncActor :=
  mkSyncActor (sa_state a) (sa_user a) (sa_actor a) x (sa_offset_millis a) (sa_last_issued a)
    (sa_link a) (sa_offline_buffer a) (sa_offline_position a) (sa_last_reliable_position a)
    (sa_hash_mismatches a) (sa_heal_attempts a) (sa_escalated a) (sa_dirty a) (sa_adopted a)
    (sa_offline_hold a) (sa_last_grace_refusal a).
Definition put_offset_millis (x : Z) (a : SyncActor) : SyncActor :=
  mkSyncActor (sa_state a) (sa_user a) (sa_actor a) (sa_epoch_cell a) x (sa_last_issued a)
    (sa_link a) (sa_offline_buffer a) (sa_offline_position a) (sa_last_reliable_position a)
    (sa_hash_mismatches a) (sa_heal_attempts a) (sa_escalated a) (sa_dirty a) (sa_adopted a)
    (sa_offline_hold a) (sa_last_grace_refusal a).
Definition put_last_issued (x : Z) (a : SyncActor) : SyncActor :=
  mkSyncActor (sa_state a) (sa_user a) (sa_actor a) (sa_epoch_cell a) (sa_offset_millis a) x
    (sa_link a) (sa_offline_buffer a) (sa_offline_position a) (sa_last_reliable_position a)
    (sa_hash_mismatches a) (sa_heal_attempts a) (sa_escalated a) (sa_dirty a) (sa_adopted a)
    (sa_offline_hold a) (sa_last_grace_refusal a).
Definition put_link (x : Link) (a : SyncActor) : SyncActor :=
  mkSyncActor (sa_state a) (sa_user a) (sa_actor a) (sa_epoch_cell a) (sa_offset_millis a)
    (sa_last_issued a) x (sa_offline_buffer a) (sa_offline_position a)
    (sa_last_reliable_position a) (sa_hash_mismatches a) (sa_heal_attempts a) (sa_escalated a)
    (sa_dirty a) (sa_adopted a) (sa_offline_hold a) (sa_last_grace_refusal a).
Definition put_offline_buffer (x : list CrdtOp) (a : SyncActor) : SyncActor :=
  mkSyncActor (sa_state a) (sa_user a) (sa_actor a) (sa_epoch_cell a) (sa_offset_millis a)
    (sa_last_issued a) (sa_link a) x (sa_offline_position a) (sa_last_reliable_position a)
    (sa_hash_mismatches a) (sa_heal_attempts a) (sa_escalated a) (sa_dirty a) (sa_adopted a)
    (sa_offline_hold a) (sa_last_grace_refusal a).
Definition put_offline_position (x : option CrdtOp) (a : SyncActor) : SyncActor :=
  mkSyncActor (sa_state a) (sa_user a) (sa_actor a) (sa_epoch_cell a) (sa_offset_millis a)
    (sa_last_issued a) (sa_link a) (sa_offline_buffer a) x (sa_last_reliable_position a)
    (sa_hash_mismatches a) (sa_heal_attempts a) (sa_escalated a) (sa_dirty a) (sa_adopted a)
    (sa_offline_hold a) (sa_last_grace_refusal a).
Definition put_last_reliable_position (x : option Z) (a : SyncActor) : SyncActor :=
  mkSyncActor (sa_state a) (sa_user a) (sa_actor a) (sa_epoch_cell a) (sa_offset_millis a)
    (sa_last_issued a) (sa_link a) (sa_offline_buffer a) (sa_offline_position a) x
    (sa_hash_mismatches a) (sa_heal_attempts a) (sa_escalated a) (sa_dirty a) (sa_adopted a)
    (sa_offline_hold a) (sa_last_grace_refusal a).
Definition put_hash_mismatches (x : Z) (a : SyncActor) : SyncActor :=
  mkSyncActor (sa_state a) (sa_user a) (sa_actor a) (sa_epoch_cell a) (sa_offset_millis a)
    (sa_last_issued a) (sa_link a) (sa_offline_buffer a) (sa_offline_position a)
    (sa_last_reliable_position a) x (sa_heal_attempts a) (sa_escalated a) (sa_dirty a)
    (sa_adopted a) (sa_offline_hold a) (sa_last_grace_refusal a).
Definition put_heal_attempts (x : Z) (a : SyncActor) : SyncActor :=
  mkSyncActor (sa_state a) (sa_user a) (sa_actor a) (sa_epoch_cell a) (sa_offset_millis a)
    (sa_last_issued a) (sa_link a) (sa_offline_buffer a) (sa_offline_position a)
    (sa_last_reliable_position a) (sa_hash_mismatches a) x (sa_escalated a) (sa_dirty a)
    (sa_adopted a) (sa_offline_hold a) (sa_last_grace_refusal a).
Definition put_escalated (x : bool) (a : SyncActor) : SyncActor :=
  mkSyncActor (sa_state a) (sa_user a) (sa_actor a) (sa_epoch_cell a) (sa_offset_millis a)
    (sa_last_issued a) (sa_link a) (sa_offline_buffer a) (sa_offline_position a)
    (sa_last_reliable_position a) (sa_hash_mismatches a) (sa_heal_attempts a) x (sa_dirty a)
    (sa_adopted a) (sa_offline_hold a) (sa_last_grace_refusal a).
Definition put_dirty (x : bool) (a : SyncActor) : SyncActor :=
  mkSyncActor (sa_state a) (sa_user a) (sa_actor a) (sa_epoch_cell a) (sa_offset_millis a)
    (sa_last_issued a) (sa_link a) (sa_offline_buffer a) (sa_offline_position a)
    (sa_last_reliable_position a) (sa_hash_mismatches a) (sa_heal_attempts a) (sa_escalated a) x
    (sa_adopted a) (sa_offline_hold a) (sa_last_grace_refusal a).
Definition put_adopted (x : bool) (a : SyncActor) : SyncActor :=
  mkSyncActor (sa_state a) (sa_user a) (sa_actor a) (sa_epoch_cell a) (sa_offset_millis a)
    (sa_last_issued a) (sa_link a) (sa_offline_buffer a) (sa_offline_position a)
    (sa_last_reliable_position a) (sa_hash_mismatches a) (sa_heal_attempts a) (sa_escalated a)
    (sa_dirty a) x (sa_offline_hold a) (sa_last_grace_refusal a).
Definition put_offline_hold (x : bool) (a : SyncActor) : SyncActor :=
  mkSyncActor (sa_state a) (sa_user a) (sa_actor a) (sa_epoch_cell a) (sa_offset_millis a)
    (sa_last_issued a) (sa_link a) (sa_offline_buffer a) (sa_offline_position a)
    (sa_last_reliable_position a) (sa_hash_mismatches a) (sa_heal_attempts a) (sa_escalated a)
    (sa_dirty a) (sa_adopted a) x (sa_last_grace_refusal a).
Definition put_last_grace_refusal (x : option Z) (a : SyncActor) : SyncActor :=
  mkSyncActor (sa_state a) (sa_user a) (sa_actor a) (sa_epoch_cell a) (sa_offset_millis a)
    (sa_last_issued a) (sa_link a) (sa_offline_buffer a) (sa_offline_position a)
    (sa_last_reliable_position a) (sa_hash_mismatches a) (sa_heal_attempts a) (sa_escalated a)
    (sa_dirty a) (sa_adopted a) (sa_offline_hold a) x.

(** ** Computations over the actor *)

Definition M (A : Type) : Type := SyncActor → option (A * (SyncActor * list Output)).
#[export] Instance M_ret : MRet M := λ A x a, Some (x, (a, [])).
#[export] Instance M_bind : MBind M := λ A B f m a,
  match m a with
  | Some (x, (a, o)) =>
      match f x a with Some (y, (a, o')) => Some (y, (a, o ++ o')) | None => None end
  | None => None
  end.
Definition get {A} (f : SyncActor → A) : M A := λ a, Some (f a, (a, [])).
Definition modify (f : SyncActor → SyncActor) : M unit := λ a, Some ((), (f a, [])).
Definition emit (o : Output) : M unit := λ a, Some ((), (a, [o])).
(** A value that is [None] where the code panics. *)
Definition or_panic {A} (x : option A) : M A := λ a, (λ x, (x, (a, []))) <$> x.
Definition when (b : bool) (m : M unit) : M unit := if b then m else mret ().

(** [Option::flatten] of a resolved register. *)
Definition now_playing_of (s : CrdtState) : option Ed2kHash := mjoin (resolve_value (now_playing s)).

(** ** The actor's methods *)

Section actor.
Variable encode : StateView → option (list Z).
Variable sha256 : list Z → list Z.

(** [run]: the initial actor. *)
Definition sync_start (user : UserId) (actor : ActorId) (initial : option StateSnapshot)
    : SyncActor :=
  let '(state, epoch) :=
    match initial with
    | Some snapshot => (snap_state snapshot, snap_epoch snapshot)
    | None => (new_state, 0)
    end in
  mkSyncActor state user actor epoch 0 (max_lww_timestamp state) Down [] None None 0 0 false false
    (match initial with Some _ => true | None => false end) false None.

(** [stamp], [observe]. *)
Definition stamp (env : Env) : M SharedTimestamp :=
  a ← get id;
  let shared := TimeSync.u64_saturating_add_signed (clock env) (sa_offset_millis a) in
  let ts := Z.max shared (u64_wrap (sa_last_issued a + 1)) in
  modify (put_last_issued ts);; mret ts.
Definition observe (ts : option SharedTimestamp) : M unit :=
  match ts with
  | Some ts => modify (λ a, put_last_issued (Z.max (sa_last_issued a) ts) a)
  | None => mret ()
  end.

(** [flush_to_storage]. *)
Definition flush_to_storage (env : Env) : M unit :=
  a ← get id;
  if sa_dirty a then
    match storage env with
    | Some save =>
        emit (OSave (sa_epoch_cell a) (sa_state a));;
        when (save (sa_epoch_cell a) (sa_state a)) (modify (put_dirty false))
    | None => modify (put_dirty false)
    end
  else mret ().

(** [changed]. *)
Definition changed : M unit := modify (put_dirty true);; emit (OEvent StateChanged).

(** [served_view]. *)
Definition with_intent (i : PlaybackIntent) (v : StateView) : StateView :=
  mkStateView (v_playlist v) (v_watched v) (v_now_playing v) (v_now_playing_since v)
    (v_seek_authority v) i (v_series_preference v) (v_manual_override v)
    (v_file_availability v) (v_anidb_metadata v) (v_series_relations v) (v_file_catalog v)
    (v_list_entries v) (v_list_next_ep v) (v_lookup_requests v) (v_chat v)
    (v_playback_position v) (v_acknowledged_absent v) (v_marquee v) (v_saved_position v).
Definition served_view : M StateView :=
  a ← get id;
  v ← or_panic (view (sa_state a));
  mret (if sa_offline_hold a then with_intent IntentPaused v else v).

(** [grace_lock]. *)
Definition grace_lock (env : Env) (a : SyncActor) (m : Mutation)
    : option (GraceRefusal * OutageGrace) :=
  peers ← peers env;
  grace ← outage_grace peers;
  refusal ← grace_refusal m (now_playing_of (sa_state a));
  Some (refusal, grace).

(** [chat.iter().any(|existing| existing.value() == &message)]: stops at the
    first hit. *)
Fixpoint any_value (message : ChatMessage) (ids : list (Identifier ChatMessage)) : option bool :=
  match ids with
  | [] => Some false
  | i :: ids =>
      v ← id_value i;
      if bool_decide (v = message) then Some true else any_value message ids
  end.

(** The [match mutation] of [mutate]: the mutator of [CrdtState] it calls. The
    outer option is a panic, the inner one the early returns. *)
Definition local_op (user : UserId) (actor : ActorId) (ts : SharedTimestamp) (m : Mutation)
    (s : CrdtState) : option (option (CrdtState * CrdtOp)) :=
  match m with
  | AddPlaylistAfter anchor new => Some (Some (add_playlist_entry_after s actor ts anchor new))
  | PushPlaylist new => Some (Some (push_playlist_entry s actor ts new))
  | MovePlaylistAfter hash anchor => Some (move_playlist_entry_after s actor ts hash anchor)
  | RemovePlaylist hash => Some (Some (remove_playlist_entry s actor ts hash))
  | SetWatched hash w => Some (Some (set_watched s actor ts hash w))
  | SetNowPlaying file => Some (Some (set_now_playing s actor ts file))
  | SetSeekAuthority authority => Some (Some (set_seek_authority s actor ts authority))
  | SetUserSeek file from_millis to_millis =>
      Some (Some (set_seek_authority s actor ts
        (AuthUser (mkUserSeek user file ts from_millis to_millis))))
  | SetPlaybackIntent intent => Some (Some (set_playback_intent s actor ts intent))
  | SetSeriesPreference u entry pref set_by =>
      Some (Some (set_series_preference s actor ts u entry pref set_by))
  | SetManualOverride u st => Some (Some (set_manual_override s actor ts u st))
  | SetFileAvailability file availability =>
      Some (Some (set_file_availability s actor ts user file availability))
  | SetAniDbMetadata hash metadata => Some (Some (set_anidb_metadata s actor ts hash metadata))
  | SetSeriesRelations series rels => Some (Some (set_series_relations s actor ts series rels))
  | SetFileCatalog hash entry => Some (Some (set_file_catalog s actor ts hash entry))
  | PutListEntry id entry => Some (Some (put_list_entry s actor ts id entry))
  | SetNextEp id next_ep => Some (Some (set_next_ep s actor ts id next_ep))
  | RequestLookup info => Some (Some (request_lookup s info))
  | LocalReport text timestamp =>
      let message := mkChatMessage timestamp user text in
      found ← any_value message (glist_iter (chat s));
      Some (if (found : bool) then None else Some (append_chat s message))
  | Chat text => Some (Some (append_chat s (mkChatMessage ts user text)))
  | SetPlaybackPosition position_millis file =>
      Some (Some (set_playback_position s actor ts user
        (mkPlaybackPosition position_millis ts file)))
  | SetPlaylistDuration hash duration_millis =>
      v ← view s;
      Some (match List.find (λ e, bool_decide (pe_hash e = hash)) (v_playlist v) with
            | Some e =>
                let st := pe_state e in
                Some (set_playlist_entry s actor ts hash
                  (mkPlaylistFileState (position st) (added_by st) (pfs_filename st)
                     (pfs_size_bytes st) (Some duration_millis)))
            | None => None
            end)
  | AcknowledgeAbsent file u => Some (Some (acknowledge_absent s file u))
  | SetMarquee message => Some (Some (set_marquee s actor ts message))
  end.

(** [mutate]. *)
Definition is_position (m : Mutation) : bool :=
  match m with SetPlaybackPosition _ _ => true | _ => false end.
Definition elapsed (env : Env) (since : option Z) (interval : Z) : bool :=
  match since with
  | None => true
  | Some last => interval <=? Z.max (instant env - last) 0
  end.
Definition refuse (env : Env) (refusal : GraceRefusal) (grace : OutageGrace) : M unit :=
  a ← get id;
  when (elapsed env (sa_last_grace_refusal a) GRACE_REFUSAL_COALESCE)
    (emit (OEvent (GraceRefused refusal grace)));;
  modify (put_last_grace_refusal (Some (instant env))).
(** The routing of a finished op. *)
Definition route (env : Env) (position : bool) (op : CrdtOp) : M unit :=
  a ← get id;
  if bool_decide (sa_link a = Synced) then
    let msg := StateOp (sa_epoch_cell a) op in
    if position then
      if elapsed env (sa_last_reliable_position a) POSITION_RELIABLE_INTERVAL then
        modify (put_last_reliable_position (Some (instant env)));; emit (ONet (SendEager msg))
      else emit (ONet (SendDatagramOnly msg))
    else emit (ONet (SendEager msg))
  else if position then modify (put_offline_position (Some op))
  else modify (put_offline_buffer (sa_offline_buffer a ++ [op])).
Definition mutate (env : Env) (m : Mutation) : M unit :=
  a ← get id;
  match grace_lock env a m with
  | Some (refusal, grace) => refuse env refusal grace
  | None =>
      ts ← stamp env;
      r ← or_panic (local_op (sa_user a) (sa_actor a) ts m (sa_state a));
      match r with
      | None => mret ()
      | Some (s, op) =>
          match m with LocalReport _ t => observe (Some t) | _ => mret () end;;
          modify (put_state s);;
          route env (is_position m) op;;
          changed
      end
  end.

(** [synced]. *)
Definition replay_offline (a : SyncActor) : SyncActor :=
  let s := foldl apply (sa_state a) (sa_offline_buffer a) in
  let s := match sa_offline_position a with Some op => apply s op | None => s end in
  put_offline_position None (put_offline_buffer [] (put_state s a)).
Definition synced : M unit :=
  modify (put_adopted true);;
  a ← get id;
  if bool_decide (sa_link a = Down) then mret ()
  else
    modify (λ a, put_offline_hold false (put_link Synced a));;
    when (bool_decide (sa_link a = AwaitingSync))
      (modify replay_offline;;
       a ← get id;
       emit (ONet (SendReliable (StateMerge (mkStateSnapshot (sa_epoch_cell a) (sa_state a)))))).

(** [remote], arm by arm. *)
Definition remote_op (epoch : Epoch) (op : CrdtOp) (via_datagram : bool) : M unit :=
  a ← get id;
  if bool_decide (epoch ≠ sa_epoch_cell a) then mret ()
  else
    observe (op_lww_timestamp op);;
    modify (λ a, put_state (if via_datagram then (apply_if_orderly (sa_state a) op).1
                            else apply (sa_state a) op) a);;
    changed.
(** The end of the merge and snapshot arms. *)
Definition adopted_state : M unit :=
  a ← get id;
  observe (Some (max_lww_timestamp (sa_state a)));;
  modify (put_hash_mismatches 0);;
  synced;;
  changed.
Definition adopt (snapshot : StateSnapshot) : M unit :=
  modify (λ a, put_state (snap_state snapshot) (put_epoch_cell (snap_epoch snapshot) a)).
Definition remote_merge (snapshot : StateSnapshot) : M unit :=
  a ← get id;
  let ours := sa_epoch_cell a in
  if snap_epoch snapshot =? ours then
    modify (λ a, put_state (merge (sa_state a) (snap_state snapshot)) a);; adopted_state
  else if ours <? snap_epoch snapshot then adopt snapshot;; adopted_state
  else if bool_decide (sa_link a = AwaitingSync) then adopt snapshot;; adopted_state
  else mret ().
Definition remote_snapshot (snapshot : StateSnapshot) : M unit :=
  a ← get id;
  if (snap_epoch snapshot <? sa_epoch_cell a) && bool_decide (sa_link a ≠ AwaitingSync)
  then mret ()
  else adopt snapshot;; adopted_state.
Definition remote_hash (epoch : Epoch) (hash : list Z) : M unit :=
  a ← get id;
  if bool_decide (epoch ≠ sa_epoch_cell a) then mret ()
  else
    ours ← or_panic (view_hash encode sha256 (sa_state a));
    if bool_decide (ours = hash) then
      modify (put_hash_mismatches 0);;
      when ((0 <? sa_heal_attempts a) || sa_escalated a)
        (modify (λ a, put_escalated false (put_heal_attempts 0 a));;
         emit (OEvent DivergenceHealed))
    else
      modify (λ a, put_hash_mismatches (u32_wrap (sa_hash_mismatches a + 1)) a);;
      a ← get id;
      when (2 <=? sa_hash_mismatches a)
        (modify (λ a, put_heal_attempts (u32_wrap (sa_heal_attempts a + 1))
                        (put_hash_mismatches 0 a));;
         emit (ONet (SendReliable RequestMerge));;
         emit (OEvent Diverged);;
         a ← get id;
         when (sa_heal_attempts a =? HEAL_ATTEMPTS_ESCALATE)
           (modify (put_escalated true);; emit (OEvent DivergencePersisted))).
Definition remote (msg : ServerControl) (via_datagram : bool) : M unit :=
  match msg with
  | StateOp epoch op => remote_op epoch op via_datagram
  | StateMerge snapshot => remote_merge snapshot
  | CtlStateSnapshot snapshot => remote_snapshot snapshot
  | StateHash epoch hash => remote_hash epoch hash
  | _ => mret ()
  end.

(** [handle]. *)
Definition handle (env : Env) (cmd : SyncCommand) : M unit :=
  match cmd with
  | PublishLocalReport text timestamp =>
      mutate env (LocalReport text timestamp);;
      flush_to_storage env;;
      a ← get id;
      emit (OReported (negb (sa_dirty a)))
  | Mutate m => mutate env m
  | Server msg via_datagram => remote msg via_datagram
  | Connected =>
      modify (put_link AwaitingSync);;
      a ← get id;
      hash ← or_panic (view_hash encode sha256 (sa_state a));
      emit (ONet (SendReliable (SyncStatus (sa_epoch_cell a) hash)))
  | Disconnected => modify (λ a, put_hash_mismatches 0 (put_link Down a))
  | ClockSync millis => modify (put_offset_millis millis)
  | OfflineHold =>
      a ← get id;
      when (bool_decide (sa_link a ≠ Synced) && negb (sa_offline_hold a))
        (modify (put_offline_hold true);; changed)
  | GetView => v ← served_view; emit (OView v)
  | GetEpoch => a ← get id; emit (OEpoch (sa_epoch_cell a))
  end.
(** A turn of [run]'s loop: a command or the flush tick. *)
Inductive Turn := TCommand (cmd : SyncCommand) | TFlush.
Definition turn (env : Env) (t : Turn) : M unit :=
  match t with TCommand cmd => handle env cmd | TFlush => flush_to_storage env end.
End actor.
