(* ===== verification/SyncCorrect.v ===== *)
(** * Correctness of the sync actor (dessplay/src/actors/sync.rs)

    The invariant that every turn of the actor keeps ([actor_ok]: the Lamport
    floor dominates the state and everything buffered), and what it gives: no
    turn panics, local writes always win, the grace window locks what it must,
    nothing written offline is lost, stale epochs are ignored, and the
    divergence ladder escalates when it should. *)

From S2P Require Import Prelude Types Lww Vclock CrdtMap Identifier State Fields StateRepr.
From S2P Require Import Convergence Resolve Playlist View Writes Lamport Message Franchise Derive.
From S2P Require Import Sync.
From S2P Require TimeSync.

(** ** The handlers, as equations *)

(** The stamp the next write gets. *)
Definition next_stamp (env : Env) (a : SyncActor) : SharedTimestamp :=
  Z.max (TimeSync.u64_saturating_add_signed (clock env) (sa_offset_millis a))
    (u64_wrap (sa_last_issued a + 1)).

(** Which field write a mutation is; [None] inside where nothing is written. *)
Definition write_of (user : UserId) (actor : ActorId) (ts : SharedTimestamp) (m : Mutation)
    (s : CrdtState) : option (option LocalWrite) :=
  let added anchor new :=
    WPlaylistEntry (new_hash new)
      (mkPlaylistFileState (position_after s anchor (new_hash new) actor) (new_added_by new)
         (new_filename new) (new_size_bytes new) (new_duration_millis new)) in
  match m with
  | AddPlaylistAfter anchor new => Some (Some (added anchor new))
  | PushPlaylist new => Some (Some (added (pe_hash <$> last (playlist_entries s)) new))
  | MovePlaylistAfter hash anchor =>
      Some (if bool_decide (anchor = Some hash) then None
            else (λ e, WPlaylistEntry hash
                    (set_position (position_after s anchor hash actor) (pe_state e))) <$>
                 List.find (λ e, bool_decide (pe_hash e = hash)) (playlist_entries s))
  | RemovePlaylist hash => Some (Some (WRemovePlaylistEntry hash))
  | SetWatched hash w => Some (Some (WWatched hash w))
  | SetNowPlaying file => Some (Some (WNowPlaying file))
  | SetSeekAuthority authority => Some (Some (WSeekAuthority authority))
  | SetUserSeek file from_millis to_millis =>
      Some (Some (WSeekAuthority (AuthUser (mkUserSeek user file ts from_millis to_millis))))
  | SetPlaybackIntent intent => Some (Some (WPlaybackIntent intent))
  | SetSeriesPreference u entry pref set_by => Some (Some (WSeriesPreference u entry pref set_by))
  | SetManualOverride u st => Some (Some (WManualOverride u st))
  | SetFileAvailability file availability => Some (Some (WFileAvailability user file availability))
  | SetAniDbMetadata hash metadata => Some (Some (WAniDbMetadata hash metadata))
  | SetSeriesRelations series rels => Some (Some (WSeriesRelations series rels))
  | SetFileCatalog hash entry => Some (Some (WFileCatalog hash entry))
  | PutListEntry id entry => Some (Some (WListEntry id entry))
  | SetNextEp id next_ep => Some (Some (WNextEp id next_ep))
  | RequestLookup info => Some (Some (WLookup info))
  | LocalReport text timestamp =>
      let message := mkChatMessage timestamp user text in
      (λ found : bool, if found then None else Some (WChat message)) <$>
        any_value message (glist_iter (chat s))
  | Chat text => Some (Some (WChat (mkChatMessage ts user text)))
  | SetPlaybackPosition position_millis file =>
      Some (Some (WPlaybackPosition user (mkPlaybackPosition position_millis ts file)))
  | SetPlaylistDuration hash duration_millis =>
      (λ v, (λ e, WPlaylistEntry hash
               (let st := pe_state e in
                mkPlaylistFileState (position st) (added_by st) (pfs_filename st)
                  (pfs_size_bytes st) (Some duration_millis))) <$>
            List.find (λ e, bool_decide (pe_hash e = hash)) (v_playlist v)) <$> view s
  | AcknowledgeAbsent file u => Some (Some (WAcknowledgeAbsent file u))
  | SetMarquee message => Some (Some (WMarquee message))
  end.

Lemma local_op_write user actor ts m s :
  local_op user actor ts m s =
    (λ ow : option LocalWrite, (λ w, run_write w actor ts s) <$> ow) <$>
      write_of user actor ts m s.
Proof.
  destruct m; simpl; try reflexivity.
  - unfold move_playlist_entry_after. case_bool_decide; simpl; [done|].
    by destruct (List.find _ _).
  - destruct (any_value _ _) as [[]|]; reflexivity.
  - destruct (view s); simpl; [|done]. by destruct (List.find _ _).
Qed.

(** [route] and [mutate] without the monad. *)
Definition routed (env : Env) (position : bool) (op : CrdtOp) (a : SyncActor)
    : SyncActor * list Output :=
  if bool_decide (sa_link a = Synced) then
    let msg := StateOp (sa_epoch_cell a) op in
    if position then
      if elapsed env (sa_last_reliable_position a) POSITION_RELIABLE_INTERVAL
      then (put_last_reliable_position (Some (instant env)) a, [ONet (SendEager msg)])
      else (a, [ONet (SendDatagramOnly msg)])
    else (a, [ONet (SendEager msg)])
  else if position then (put_offline_position (Some op) a, [])
  else (put_offline_buffer (sa_offline_buffer a ++ [op]) a, []).

Lemma route_eq env position op a :
  route env position op a = Some ((), routed env position op a).
Proof.
  unfold route, routed, get, modify, emit, mbind, M_bind; simpl.
  destruct (bool_decide _); simpl; [|by destruct position].
  destruct position; simpl; [|done]. by destruct (elapsed _ _ _).
Qed.

(** A write is stamped, and a report raises the floor to its own stamp. *)
Definition stamped_actor (env : Env) (m : Mutation) (a : SyncActor) : SyncActor :=
  let a := put_last_issued (next_stamp env a) a in
  match m with
  | LocalReport _ t => put_last_issued (Z.max (sa_last_issued a) t) a
  | _ => a
  end.

Lemma mutate_eq env m a :
  mutate env m a =
    match grace_lock env a m with
    | Some (refusal, grace) =>
        Some ((), (put_last_grace_refusal (Some (instant env)) a,
                   if elapsed env (sa_last_grace_refusal a) GRACE_REFUSAL_COALESCE
                   then [OEvent (GraceRefused refusal grace)] else []))
    | None =>
        r ← local_op (sa_user a) (sa_actor a) (next_stamp env a) m (sa_state a);
        match r with
        | None => Some ((), (put_last_issued (next_stamp env a) a, []))
        | Some (s, op) =>
            let '(a, o) := routed env (is_position m) op (put_state s (stamped_actor env m a)) in
            Some ((), (put_dirty true a, o ++ [OEvent StateChanged]))
        end
    end.
Proof.
  unfold mutate, refuse, stamp, get, or_panic, modify, emit, changed, when, mbind, M_bind; simpl.
  destruct (grace_lock env a m) as [[refusal grace]|].
  { by destruct (elapsed _ _ _). }
  simpl. fold (next_stamp env a).
  destruct (local_op _ _ _ _ _) as [[[s op]|]|]; simpl; [|done|done].
  destruct m; simpl; rewrite route_eq; simpl; try by destruct (routed _ _ _ _).
Qed.

(** ** Total correctness of computations *)

(** From [P], [m] does not panic and ends in [Q]. *)
Definition triple {A} (P : SyncActor → Prop) (m : M A) (Q : A → SyncActor → Prop) : Prop :=
  ∀ a, P a → ∃ x a' o, m a = Some (x, (a', o)) ∧ Q x a'.

Lemma triple_ret {A} (x : A) (Q : A → SyncActor → Prop) : triple (Q x) (mret x) Q.
Proof. intros a Ha. by exists x, a, []. Qed.
Lemma triple_bind {A B} P (R : A → SyncActor → Prop) Q (m : M A) (f : A → M B) :
  triple P m R → (∀ x, triple (R x) (f x) Q) → triple P (m ≫= f) Q.
Proof.
  intros Hm Hf a Ha. destruct (Hm a Ha) as (x & a1 & o1 & Hm1 & Hx).
  destruct (Hf x a1 Hx) as (y & a2 & o2 & Hf2 & Hy). exists y, a2, (o1 ++ o2).
  split; [|done]. unfold mbind, M_bind. by rewrite Hm1, Hf2.
Qed.
Lemma triple_get {A} (f : SyncActor → A) (P : SyncActor → Prop) :
  triple P (get f) (λ x a, x = f a ∧ P a).
Proof. intros a Ha. by exists (f a), a, []. Qed.
Lemma triple_modify f (P Q : SyncActor → Prop) : (∀ a, P a → Q (f a)) → triple P (modify f) (λ _, Q).
Proof. intros Hf a Ha. exists (), (f a), []. auto. Qed.
Lemma triple_emit o (P : SyncActor → Prop) : triple P (emit o) (λ _, P).
Proof. intros a Ha. by exists (), a, [o]. Qed.
Lemma triple_when b m (P : SyncActor → Prop) : triple P m (λ _, P) → triple P (when b m) (λ _, P).
Proof. intros Hm. destruct b; [done|]. exact (triple_ret () (λ _, P)). Qed.
Lemma triple_pre {A} (P P' : SyncActor → Prop) (m : M A) Q :
  (∀ a, P a → P' a) → triple P' m Q → triple P m Q.
Proof. intros HP Hm a Ha. apply Hm, HP, Ha. Qed.

(** ** The invariant *)

Record actor_ok (a : SyncActor) : Prop := {
  ao_floor : lamport (sa_state a) (sa_last_issued a);
  ao_nonneg : 0 ≤ sa_last_issued a;
  ao_buffer : Forall (op_below (sa_last_issued a)) (sa_offline_buffer a);
  ao_position op : sa_offline_position a = Some op → op_below (sa_last_issued a) op
}.
(** ... with the floor at least [X]. *)
Definition inv (X : Z) (a : SyncActor) : Prop := actor_ok a ∧ X ≤ sa_last_issued a.

(** What a replica of the group sends: no removal ops, well-formed states. *)
Definition msg_ok (msg : ServerControl) : Prop :=
  match msg with
  | StateOp _ op => is_put op = true ∧ chat_op_ok op
  | StateMerge snapshot | CtlStateSnapshot snapshot => wf_state (snap_state snapshot)
  | _ => True
  end.
Definition turn_ok (t : Turn) : Prop :=
  match t with TCommand (Server msg _) => msg_ok msg | _ => True end.

Lemma op_below_mono X Y op : X ≤ Y → op_below X op → op_below Y op.
Proof. intros HXY [Hp Hc Hts]. split; [done..|]. intros t Ht. specialize (Hts t Ht). lia. Qed.

Lemma actor_ok_raise a X :
  sa_last_issued a ≤ X → actor_ok a → actor_ok (put_last_issued X a).
Proof.
  intros HX []. split; simpl.
  - by eapply lamport_mono.
  - lia.
  - eapply Forall_impl; [done|]. intros op. by apply op_below_mono.
  - intros op Hop. eapply op_below_mono; [done|auto].
Qed.
Lemma actor_ok_state a s : lamport s (sa_last_issued a) → actor_ok a → actor_ok (put_state s a).
Proof. intros Hs []. by split. Qed.

(** Every field but the state, the floor and the buffers is irrelevant to it. *)
Definition same_core (a b : SyncActor) : Prop :=
  sa_state b = sa_state a ∧ sa_last_issued b = sa_last_issued a ∧
  sa_offline_buffer b = sa_offline_buffer a ∧ sa_offline_position b = sa_offline_position a.
Lemma actor_ok_same a b : same_core a b → actor_ok a → actor_ok b.
Proof. intros (Hs & Hl & Hb & Hp) []. split; by rewrite ?Hs, ?Hl, ?Hb, ?Hp. Qed.
Lemma inv_same X a b : same_core a b → inv X a → inv X b.
Proof.
  intros Hab [Ha HX]. split; [by eapply actor_ok_same|]. by destruct Hab as (_ & -> & _).
Qed.

(** A [modify] of such fields. *)
Lemma triple_same X f : (∀ a, same_core a (f a)) → triple (inv X) (modify f) (λ _, inv X).
Proof. intros Hf. apply triple_modify. intros a. by apply inv_same. Qed.

Lemma any_value_total message ids : Forall id_ok ids → is_Some (any_value message ids).
Proof.
  induction 1 as [|i ids Hi Hids IH]; [by eexists|]. cbn [any_value].
  destruct (id_value i) as [v|] eqn:Hv; simpl.
  - case_bool_decide; [by eexists|done].
  - unfold id_value in Hv. unfold id_ok in Hi.
    apply fmap_None in Hv. by apply last_None in Hv.
Qed.

Lemma write_of_total user actor ts m s : glist_ok (chat s) → is_Some (write_of user actor ts m s).
Proof.
  intros Hok. destruct m; simpl; try by eexists.
  - destruct (any_value_total (mkChatMessage timestamp user text) (glist_iter (chat s))) as [b ->].
    { apply Forall_forall. intros i Hi. apply Hok. by apply elem_of_btree_set_iter in Hi. }
    by eexists.
  - destruct (view_total s Hok) as [v ->]. by eexists.
Qed.

Lemma next_stamp_gt env a :
  0 ≤ sa_last_issued a < u64_max → sa_last_issued a < next_stamp env a.
Proof.
  intros Ha. unfold next_stamp, u64_wrap. unfold u64_max in Ha. rewrite Z.mod_small; lia.
Qed.

(** ** Every turn keeps the invariant *)

Lemma routed_inv env position op a X :
  op_below (sa_last_issued a) op → inv X a → inv X (routed env position op a).1.
Proof.
  intros Hop Ha. unfold routed.
  destruct (bool_decide _); [destruct position; [destruct (elapsed _ _ _)|]|destruct position];
    cbn [fst]; try exact Ha; try (by apply (inv_same X a)); destruct Ha as [[Hf Hn Hb Hp] HX]; (split; [|done]).
  - split; simpl; [done..|]. intros op' Hop'. by simplify_eq/=.
  - split; simpl; [done|done| |done]. apply Forall_app. split; [done|]. by apply Forall_singleton.
Qed.

Lemma stamped_actor_issued env m a :
  let ts := next_stamp env a in
  ts ≤ sa_last_issued (stamped_actor env m a) ∧
  sa_state (stamped_actor env m a) = sa_state a ∧
  stamped_actor env m a = put_last_issued (sa_last_issued (stamped_actor env m a)) a.
Proof. destruct m; simpl; split_and!; try done; lia. Qed.

Lemma mutate_inv env m X :
  triple (λ a, inv X a ∧ sa_last_issued a < u64_max) (mutate env m) (λ _, inv X).
Proof.
  intros a [[Ha HX] Hroom]. rewrite mutate_eq.
  destruct (grace_lock env a m) as [[refusal grace]|].
  { eexists (), _, _. split; [done|]. by apply (inv_same X a). }
  rewrite local_op_write. pose proof (next_stamp_gt env a) as Hts.
  assert (glist_ok (chat (sa_state a))) as Hok by apply Ha.
  destruct (write_of_total (sa_user a) (sa_actor a) (next_stamp env a) m (sa_state a) Hok)
    as [ow ->]. simpl. pose proof (ao_nonneg a Ha).
  destruct ow as [w|]; simpl.
  2: { eexists (), _, _. split; [done|]. split; simpl; [apply actor_ok_raise; [lia|done]|lia]. }
  destruct (run_write w (sa_actor a) (next_stamp env a) (sa_state a)) as [s op] eqn:Hw.
  destruct (stamped_actor_issued env m a) as (Hissued & _ & Hst).
  set (F := sa_last_issued (stamped_actor env m a)) in *. rewrite Hst.
  assert (op_below F op) as Hop.
  { replace op with (run_write w (sa_actor a) (next_stamp env a) (sa_state a)).2 by by rewrite Hw.
    by apply run_write_below. }
  assert (inv X (put_state s (put_last_issued F a))) as Hinv.
  { split; [|simpl; lia]. apply actor_ok_state; [|apply actor_ok_raise; [lia|done]].
    destruct (run_write_spec _ _ _ _ _ _ Hw) as (-> & _). simpl.
    apply lamport_apply; [|done]. eapply lamport_mono; [|apply Ha]. lia. }
  pose proof (routed_inv env (is_position m) op (put_state s (put_last_issued F a)) X Hop Hinv) as Hr.
  destruct (routed _ _ _ _) as [a' o]. eexists (), _, _. split; [done|].
  by apply (inv_same X a').
Qed.

Lemma observe_inv ts X : triple (inv X) (observe ts) (λ _, inv X).
Proof.
  destruct ts as [ts|]; [|exact (triple_ret () (λ _, inv X))]. apply triple_modify.
  intros a [Ha HX]. split; [apply actor_ok_raise; [lia|done]|simpl; lia].
Qed.

Lemma changed_inv X : triple (inv X) changed (λ _, inv X).
Proof.
  apply (triple_bind _ (λ _, inv X)); [by apply triple_same|]. intros _. apply triple_emit.
Qed.

Lemma flush_inv env X : triple (inv X) (flush_to_storage env) (λ _, inv X).
Proof.
  eapply triple_bind; [apply triple_get|]. intros b.
  apply (triple_pre _ (inv X)); [by intros ? (_ & ?)|].
  destruct (sa_dirty b); [|exact (triple_ret () (λ _, inv X))].
  destruct (storage env) as [save|]; [|by apply triple_same].
  apply (triple_bind _ (λ _, inv X)); [apply triple_emit|]. intros _. apply triple_when. by apply triple_same.
Qed.

Lemma replay_offline_inv X a : inv X a → inv X (replay_offline a).
Proof.
  intros [[Hf Hn Hb Hp] HX]. split; [|done]. split; simpl; [|done|constructor|done].
  destruct (sa_offline_position a) as [op|] eqn:E.
  - apply lamport_apply; [by apply lamport_apply_all|by apply Hp].
  - by apply lamport_apply_all.
Qed.

Lemma synced_inv X : triple (inv X) synced (λ _, inv X).
Proof.
  apply (triple_bind _ (λ _, inv X)); [by apply triple_same|]. intros _.
  eapply triple_bind; [apply triple_get|]. intros b.
  apply (triple_pre _ (inv X)); [by intros ? (_ & ?)|].
  destruct (bool_decide _); [exact (triple_ret () (λ _, inv X))|].
  apply (triple_bind _ (λ _, inv X)); [by apply triple_same|]. intros _. apply triple_when.
  apply (triple_bind _ (λ _, inv X)); [apply triple_modify, replay_offline_inv|]. intros _.
  eapply triple_bind; [apply triple_get|]. intros c.
  apply (triple_pre _ (inv X)); [by intros ? (_ & ?)|]. apply triple_emit.
Qed.

(** Between assigning a state and observing its floor. *)
Definition adopting (X : Z) (a : SyncActor) : Prop :=
  wf_state (sa_state a) ∧ 0 ≤ sa_last_issued a ∧ X ≤ sa_last_issued a ∧
  Forall (op_below (sa_last_issued a)) (sa_offline_buffer a) ∧
  (∀ op, sa_offline_position a = Some op → op_below (sa_last_issued a) op).

Lemma adopting_observe X a :
  adopting X a →
  inv X (put_last_issued (Z.max (sa_last_issued a) (max_lww_timestamp (sa_state a))) a).
Proof.
  intros (Hwf & Hn & HX & Hb & Hp). split; [|simpl; lia]. split; simpl.
  - eapply lamport_mono; [|by apply lamport_of_floor]. lia.
  - lia.
  - eapply Forall_impl; [done|]. intros op. apply op_below_mono. lia.
  - intros op Hop. eapply op_below_mono; [|by apply Hp]. lia.
Qed.

Lemma adopted_state_inv X : triple (adopting X) adopted_state (λ _, inv X).
Proof.
  eapply triple_bind; [apply triple_get|]. intros b.
  apply (triple_bind _ (λ _, inv X)).
  { apply triple_modify. intros a [-> Ha]. by apply adopting_observe. }
  intros _. apply (triple_bind _ (λ _, inv X)); [by apply triple_same|]. intros _.
  apply (triple_bind _ (λ _, inv X)); [apply synced_inv|]. intros _. apply changed_inv.
Qed.

Lemma inv_adopting X a s :
  inv X a → wf_state s → adopting X (put_state s a).
Proof. intros [[Hf Hn Hb Hp] HX] Hs. by split_and!. Qed.

(** The adoption paths end in the invariant. *)
Lemma adopt_inv X snapshot :
  wf_state (snap_state snapshot) →
  triple (inv X) (adopt snapshot;; adopted_state) (λ _, inv X).
Proof.
  intros Hs. apply (triple_bind _ (λ _, adopting X)); [|intros _; apply adopted_state_inv].
  apply triple_modify. intros a Ha. apply (inv_adopting X (put_epoch_cell (snap_epoch snapshot) a)); [|done].
  by apply (inv_same X a).
Qed.

Lemma remote_op_inv X epoch op dg :
  is_put op = true → chat_op_ok op → triple (inv X) (remote_op epoch op dg) (λ _, inv X).
Proof.
  intros Hput Hchat. eapply triple_bind; [apply triple_get|]. intros b.
  apply (triple_pre _ (inv X)); [by intros ? [_ ?]|].
  case_bool_decide; [exact (triple_ret () (λ _, inv X))|].
  apply (triple_bind _ (λ _ a, inv X a ∧ op_below (sa_last_issued a) op)).
  { destruct (op_lww_timestamp op) as [ts|] eqn:Hts; simpl.
    - apply triple_modify. intros a [Ha HX].
      split; [split; [apply actor_ok_raise; [lia|done]|simpl; lia]|].
      split; [done..|]. intros t Ht. simplify_eq/=. lia.
    - intros a Ha. exists (), a, []. split; [done|]. split; [done|].
      split; [done..|]. intros t Ht. congruence. }
  intros _. apply (triple_bind _ (λ _, inv X)); [|intros _; apply changed_inv].
  apply triple_modify. intros a [[Ha HX] Hop]. split; [|done].
  assert (lamport (apply (sa_state a) op) (sa_last_issued a)) as Happ
    by (apply lamport_apply; [apply Ha|done]).
  apply actor_ok_state; [|done]. destruct dg; [|done].
  destruct (apply_if_orderly_cases (sa_state a) op) as [->| ->]; [done|apply Ha].
Qed.

Lemma remote_merge_inv X snapshot :
  wf_state (snap_state snapshot) → triple (inv X) (remote_merge snapshot) (λ _, inv X).
Proof.
  intros Hs. eapply triple_bind; [apply triple_get|]. intros b.
  apply (triple_pre _ (inv X)); [by intros ? [_ ?]|].
  cbn zeta. destruct (snap_epoch snapshot =? sa_epoch_cell b).
  { apply (triple_bind _ (λ _, adopting X)); [|intros _; apply adopted_state_inv].
    apply triple_modify. intros a [[Hf Hn Hb Hp] HX]. apply (inv_adopting X a); [by split|].
    pose proof (lamport_of_floor _ Hs) as Ht.
    eapply (lp_wf _ (Z.max (sa_last_issued a) (max_lww_timestamp (snap_state snapshot)))).
    apply lamport_merge; (eapply lamport_mono; [|done]); lia. }
  destruct (sa_epoch_cell b <? snap_epoch snapshot); [by apply adopt_inv|].
  case_bool_decide; [by apply adopt_inv|exact (triple_ret () (λ _, inv X))].
Qed.

Lemma remote_snapshot_inv X snapshot :
  wf_state (snap_state snapshot) → triple (inv X) (remote_snapshot snapshot) (λ _, inv X).
Proof.
  intros Hs. eapply triple_bind; [apply triple_get|]. intros b.
  apply (triple_pre _ (inv X)); [by intros ? [_ ?]|].
  destruct (_ && _); [exact (triple_ret () (λ _, inv X))|by apply adopt_inv].
Qed.

Lemma inv_view X a : inv X a → is_Some (view (sa_state a)).
Proof. intros [Ha _]. apply view_total, Ha. Qed.

(** Reading the view or its hash, in a state where the invariant holds. *)
Lemma triple_view_hash X encode sha256 a :
  inv X a → is_Some (view_hash encode sha256 (sa_state a)).
Proof. intros Ha. unfold view_hash. destruct (inv_view X a Ha) as [v ->]. by eexists. Qed.

Lemma remote_hash_inv X encode sha256 epoch hash :
  triple (inv X) (remote_hash encode sha256 epoch hash) (λ _, inv X).
Proof.
  eapply triple_bind; [apply triple_get|]. intros b.
  case_bool_decide.
  { apply (triple_pre _ (inv X)); [by intros ? [_ ?]|exact (triple_ret () (λ _, inv X))]. }
  apply (triple_bind _ (λ _, inv X)).
  { intros a [-> Ha]. destruct (triple_view_hash X encode sha256 a Ha) as [h Hh].
    exists h, a, []. split; [|done]. unfold or_panic. simpl. by rewrite Hh. }
  intros ours. case_bool_decide.
  - apply (triple_bind _ (λ _, inv X)); [by apply triple_same|]. intros _. apply triple_when.
    apply (triple_bind _ (λ _, inv X)); [by apply triple_same|]. intros _. apply triple_emit.
  - apply (triple_bind _ (λ _, inv X)); [by apply triple_same|]. intros _.
    eapply triple_bind; [apply triple_get|]. intros c.
    apply (triple_pre _ (inv X)); [by intros ? [_ ?]|]. apply triple_when.
    apply (triple_bind _ (λ _, inv X)); [by apply triple_same|]. intros _.
    apply (triple_bind _ (λ _, inv X)); [apply triple_emit|]. intros _.
    apply (triple_bind _ (λ _, inv X)); [apply triple_emit|]. intros _.
    eapply triple_bind; [apply triple_get|]. intros d.
    apply (triple_pre _ (inv X)); [by intros ? [_ ?]|]. apply triple_when.
    apply (triple_bind _ (λ _, inv X)); [by apply triple_same|]. intros _. apply triple_emit.
Qed.

Lemma remote_inv X encode sha256 msg dg :
  msg_ok msg → triple (inv X) (remote encode sha256 msg dg) (λ _, inv X).
Proof.
  intros Hmsg. destruct msg; try exact (triple_ret () (λ _, inv X)).
  - by apply remote_snapshot_inv.
  - destruct Hmsg. by apply remote_op_inv.
  - by apply remote_merge_inv.
  - apply remote_hash_inv.
Qed.

Lemma turn_inv X encode sha256 env t :
  turn_ok t → triple (λ a, inv X a ∧ sa_last_issued a < u64_max) (turn encode sha256 env t) (λ _, inv X).
Proof.
  intros Ht. destruct t as [cmd|].
  2: { apply (triple_pre _ (inv X)); [by intros ? [? _]|apply flush_inv]. }
  destruct cmd; simpl; [|apply mutate_inv|..].
  2-8: apply (triple_pre _ (inv X)); [by intros ? [? _]|].
  - apply (triple_bind _ (λ _, inv X)); [apply mutate_inv|]. intros _.
    apply (triple_bind _ (λ _, inv X)); [apply flush_inv|]. intros _.
    eapply triple_bind; [apply triple_get|]. intros b.
    apply (triple_pre _ (inv X)); [by intros ? [_ ?]|]. apply triple_emit.
  - by apply remote_inv.
  - apply (triple_bind _ (λ _, inv X)); [by apply triple_same|]. intros _.
    intros a Ha. destruct (triple_view_hash X encode sha256 a Ha) as [h Hh].
    eexists (), _, _. unfold mbind, M_bind, get, or_panic. simpl. by rewrite Hh.
  - by apply triple_same.
  - by apply triple_same.
  - eapply triple_bind; [apply triple_get|]. intros b.
    apply (triple_pre _ (inv X)); [by intros ? [_ ?]|]. apply triple_when.
    apply (triple_bind _ (λ _, inv X)); [by apply triple_same|]. intros _. apply changed_inv.
  - intros a Ha. destruct (inv_view X a Ha) as [v Hv].
    eexists (), _, _. unfold served_view, mbind, M_bind, get, or_panic. simpl. by rewrite Hv.
  - eapply triple_bind; [apply triple_get|]. intros b.
    apply (triple_pre _ (inv X)); [by intros ? [_ ?]|]. apply triple_emit.
Qed.

(** ** Local writes *)

(** The actor has a dot to spend on every map and a stamp to issue. *)
Definition room (a : SyncActor) : Prop :=
  sa_last_issued a < u64_max ∧ ∀ f, vget (map_clock (mget f (sa_state a))) (sa_actor a) < u64_max.

Lemma routed_state env position op a : sa_state (routed env position op a).1 = sa_state a.
Proof.
  unfold routed. destruct (bool_decide _); [destruct position; [destruct (elapsed _ _ _)|]|destruct position];
    done.
Qed.

(** An accepted mutation: the field write it stands for, made with a fresh
    stamp, and its op routed. *)
Lemma mutate_accepted env m a :
  actor_ok a → grace_lock env a m = None →
  ∃ ow, write_of (sa_user a) (sa_actor a) (next_stamp env a) m (sa_state a) = Some ow ∧
    mutate env m a =
      match ow with
      | None => Some ((), (put_last_issued (next_stamp env a) a, []))
      | Some w =>
          let '(s, op) := run_write w (sa_actor a) (next_stamp env a) (sa_state a) in
          let '(a', o) := routed env (is_position m) op (put_state s (stamped_actor env m a)) in
          Some ((), (put_dirty true a', o ++ [OEvent StateChanged]))
      end.
Proof.
  intros Ha Hg. rewrite mutate_eq, Hg, local_op_write.
  destruct (write_of_total (sa_user a) (sa_actor a) (next_stamp env a) m (sa_state a)) as [ow ->];
    [apply Ha|]. exists ow. split; [done|]. destruct ow; [|done]. simpl.
  by destruct (run_write _ _ _ _).
Qed.

Lemma mutate_view env m a v :
  actor_ok a → room a → grace_lock env a m = None → view (sa_state a) = Some v →
  ∃ ow a' o, write_of (sa_user a) (sa_actor a) (next_stamp env a) m (sa_state a) = Some ow ∧
    mutate env m a = Some ((), (a', o)) ∧
    match ow with
    | Some w => view (sa_state a') = Some (view_after w (next_stamp env a) v)
    | None => sa_state a' = sa_state a ∧ o = []
    end.
Proof.
  intros Ha [Hl Hroom] Hg Hv. destruct (mutate_accepted env m a Ha Hg) as (ow & How & Hm).
  exists ow. rewrite Hm. destruct ow as [w|].
  2: { by eexists _, _. }
  assert (view (run_write w (sa_actor a) (next_stamp env a) (sa_state a)).1 =
    Some (view_after w (next_stamp env a) v)) as Hview.
  { apply write_refines; [|done]. eapply lamport_writable; [apply Ha| |done].
    split; [apply Ha|]. apply next_stamp_gt. split; [apply Ha|done]. }
  destruct (run_write _ _ _ _) as [s op]. simpl in Hview.
  pose proof (routed_state env (is_position m) op (put_state s (stamped_actor env m a))) as Hs.
  destruct (routed _ _ _ _) as [a' o]. eexists _, _. split; [done|]. split; [done|].
  simpl in *. by rewrite Hs.
Qed.

Lemma view_now_playing_of s v : view s = Some v → v_now_playing v = now_playing_of s.
Proof. intros (xs & _ & ->)%view_Some. done. Qed.

(** What a refused kind of write would have changed. *)
Lemma not_refused_locks user actor ts m s w v :
  write_of user actor ts m s = Some (Some w) → grace_refusal m (v_now_playing v) = None →
  let v' := view_after w ts v in
  v_now_playing v' = v_now_playing v ∧ v_seek_authority v' = v_seek_authority v ∧
  (v_playback_intent v' = IntentPaused → v_playback_intent v = IntentPaused) ∧
  (∀ u, v_manual_override v' !! u = Some (Some ManualPaused) →
        v_manual_override v !! u = Some (Some ManualPaused)).
Proof.
  intros Hw Hr.
  destruct m; simpl in Hw, Hr;
    try (injection Hw as <-; simpl; try (split_and!; (done || tauto))); try done.
  - case_bool_decide; [by simplify_eq|]. injection Hw as Hw. destruct (List.find _ _); [|done].
    injection Hw as <-. by split_and!.
  - destruct (decide (file = v_now_playing v)) as [->|Hf]; [by split_and!|].
    by rewrite bool_decide_eq_true_2 in Hr.
  - split_and!; try done. intros Hp. by subst.
  - split_and!; try done. intros u. destruct (decide (u = user0)) as [->|Hne].
    + rewrite lookup_insert_eq. by intros [= ->].
    + by rewrite lookup_insert_ne by done.
  - apply fmap_Some in Hw as (b & _ & Hw). destruct b; simplify_eq. by split_and!.
  - apply fmap_Some in Hw as (v0 & _ & Hw). destruct (List.find _ _); simplify_eq/=.
    by split_and!.
Qed.

(** ** Messages of the server *)

(** Equations of the pieces of [remote]. *)
Definition observed (a : SyncActor) : SyncActor :=
  put_hash_mismatches 0
    (put_last_issued (Z.max (sa_last_issued a) (max_lww_timestamp (sa_state a))) a).
Definition synced_actor (a : SyncActor) : SyncActor * list Output :=
  let a := put_adopted true a in
  match sa_link a with
  | Down => (a, [])
  | Synced => (put_offline_hold false (put_link Synced a), [])
  | AwaitingSync =>
      let a := replay_offline (put_offline_hold false (put_link Synced a)) in
      (a, [ONet (SendReliable (StateMerge (mkStateSnapshot (sa_epoch_cell a) (sa_state a))))])
  end.
Definition adopted_actor (a : SyncActor) : SyncActor * list Output :=
  let '(a, o) := synced_actor (observed a) in (put_dirty true a, o ++ [OEvent StateChanged]).

Lemma synced_eq a : synced a = Some ((), synced_actor a).
Proof.
  unfold synced, synced_actor, modify, get, emit, when, mbind, M_bind; simpl.
  by destruct (sa_link a).
Qed.

Lemma adopted_state_eq a : adopted_state a = Some ((), adopted_actor a).
Proof.
  unfold adopted_state, adopted_actor, changed, observe, modify, get, emit, mbind, M_bind; simpl.
  fold (observed a). rewrite synced_eq. by destruct (synced_actor (observed a)).
Qed.

(** The state a merge or a snapshot leads to, before the offline edits; [None]
    when the message is ignored. *)
Definition base_state (a : SyncActor) (msg : ServerControl) : option (Epoch * CrdtState) :=
  match msg with
  | StateMerge snapshot =>
      if snap_epoch snapshot =? sa_epoch_cell a
      then Some (sa_epoch_cell a, merge (sa_state a) (snap_state snapshot))
      else if (sa_epoch_cell a <? snap_epoch snapshot) || bool_decide (sa_link a = AwaitingSync)
      then Some (snap_epoch snapshot, snap_state snapshot) else None
  | CtlStateSnapshot snapshot =>
      if (snap_epoch snapshot <? sa_epoch_cell a) && bool_decide (sa_link a ≠ AwaitingSync)
      then None else Some (snap_epoch snapshot, snap_state snapshot)
  | _ => None
  end.

Definition is_sync_reply (msg : ServerControl) : bool :=
  match msg with StateMerge _ | CtlStateSnapshot _ => true | _ => false end.

Lemma put_epoch_same a : put_epoch_cell (sa_epoch_cell a) a = a.
Proof. by destruct a. Qed.

Lemma remote_sync_eq encode sha256 msg dg a :
  is_sync_reply msg = true →
  remote encode sha256 msg dg a =
    match base_state a msg with
    | Some (epoch, s) => Some ((), adopted_actor (put_state s (put_epoch_cell epoch a)))
    | None => Some ((), (a, []))
    end.
Proof.
  destruct msg as [| | | | | | | |snapshot| |snapshot| | | | | | | | |]; try done; intros _; simpl.
  - unfold remote_snapshot, mbind, M_bind, get, adopt, modify; simpl.
    destruct (_ && _); [done|]. rewrite adopted_state_eq.
    by destruct (adopted_actor _).
  - unfold remote_merge, mbind, M_bind, get, adopt, modify; simpl.
    destruct (snap_epoch snapshot =? sa_epoch_cell a).
    { rewrite adopted_state_eq, put_epoch_same. by destruct (adopted_actor _). }
    destruct (sa_epoch_cell a <? snap_epoch snapshot); simpl.
    { rewrite adopted_state_eq. by destruct (adopted_actor _). }
    case_bool_decide; [|done]. rewrite adopted_state_eq. by destruct (adopted_actor _).
Qed.

(** What was written offline and not sent yet, in order. *)
Definition pending (a : SyncActor) : list CrdtOp :=
  sa_offline_buffer a ++ option_list (sa_offline_position a).

Lemma replay_offline_state a :
  sa_state (replay_offline a) = foldl apply (sa_state a) (pending a).
Proof.
  unfold replay_offline, pending. rewrite foldl_app. simpl. by destruct (sa_offline_position a).
Qed.

(** The network commands among the outputs. *)
Definition sent (o : list Output) : list NetworkCommand :=
  omap (λ x, match x with ONet c => Some c | _ => None end) o.

(** ** The divergence ladder *)

(** A run of [StateHash] messages of one epoch. *)
Fixpoint hash_run (encode : StateView → option (list Z)) (sha256 : list Z → list Z)
    (epoch : Epoch) (hs : list (list Z)) : M unit :=
  match hs with
  | [] => mret ()
  | h :: hs => remote_hash encode sha256 epoch h;; hash_run encode sha256 epoch hs
  end.
(** What the [k]-th alarm in a row puts out. *)
Definition rung (k : nat) : list Output :=
  [ONet (SendReliable RequestMerge); OEvent Diverged] ++
  (if (k =? 3)%nat then [OEvent DivergencePersisted] else []).

(** [remote_hash] without the monad. *)
Definition hash_outcome (epoch : Epoch) (hash ours : list Z) (a : SyncActor)
    : SyncActor * list Output :=
  if bool_decide (epoch ≠ sa_epoch_cell a) then (a, [])
  else if bool_decide (ours = hash) then
    if (0 <? sa_heal_attempts a) || sa_escalated a
    then (put_escalated false (put_heal_attempts 0 (put_hash_mismatches 0 a)),
          [OEvent DivergenceHealed])
    else (put_hash_mismatches 0 a, [])
  else
    let n := u32_wrap (sa_hash_mismatches a + 1) in
    if 2 <=? n then
      let k := u32_wrap (sa_heal_attempts a + 1) in
      let a := put_heal_attempts k (put_hash_mismatches 0 a) in
      if k =? HEAL_ATTEMPTS_ESCALATE
      then (put_escalated true a,
            [ONet (SendReliable RequestMerge); OEvent Diverged; OEvent DivergencePersisted])
      else (a, [ONet (SendReliable RequestMerge); OEvent Diverged])
    else (put_hash_mismatches n a, []).

Lemma remote_hash_eq encode sha256 epoch hash a ours :
  view_hash encode sha256 (sa_state a) = Some ours →
  remote_hash encode sha256 epoch hash a = Some ((), hash_outcome epoch hash ours a).
Proof.
  intros Hours. unfold remote_hash, hash_outcome, mbind, M_bind, get. cbn [id].
  destruct (bool_decide (epoch ≠ sa_epoch_cell a)); [done|]. unfold or_panic. rewrite Hours.
  cbn [fmap option_fmap option_map]. destruct (bool_decide (ours = hash)).
  - unfold when, modify, emit, mbind, M_bind; simpl. by destruct (_ || _).
  - unfold when, modify, emit, mbind, M_bind. cbn [sa_hash_mismatches put_hash_mismatches].
    destruct (2 <=? _); [|done]. cbn [sa_heal_attempts put_heal_attempts].
    by destruct (_ =? HEAL_ATTEMPTS_ESCALATE).
Qed.

(** After [n] mismatches: how far up the ladder the actor is. *)
Definition on_ladder (a0 : SyncActor) (n : nat) (a : SyncActor) : Prop :=
  a = put_escalated (6 <=? n)%nat (put_heal_attempts (Z.of_nat (n / 2))
        (put_hash_mismatches (Z.of_nat (n mod 2)) a0)).

Lemma half_step n :
  ((n mod 2 = 0 ∧ S n / 2 = n / 2 ∧ S n mod 2 = 1) ∨
   (n mod 2 = 1 ∧ S n / 2 = S (n / 2) ∧ S n mod 2 = 0))%nat.
Proof.
  pose proof (Nat.div_mod_eq n 2). pose proof (Nat.mod_upper_bound n 2 ltac:(lia)).
  pose proof (Nat.div_mod_eq (S n) 2). pose proof (Nat.mod_upper_bound (S n) 2 ltac:(lia)). lia.
Qed.

Lemma ladder_step encode sha256 a0 a n h ours :
  view_hash encode sha256 (sa_state a0) = Some ours → ours ≠ h →
  Z.of_nat (S n) < u32_modulus → on_ladder a0 n a →
  ∃ a' o, remote_hash encode sha256 (sa_epoch_cell a0) h a = Some ((), (a', o)) ∧
    on_ladder a0 (S n) a' ∧
    o = if (n mod 2 =? 0)%nat then [] else rung (S (n / 2)).
Proof.
  intros Hours Hh Hn ->. rewrite (remote_hash_eq _ _ _ _ _ ours) by done.
  unfold hash_outcome. cbn [sa_epoch_cell sa_hash_mismatches sa_heal_attempts sa_escalated
    put_hash_mismatches put_heal_attempts put_escalated].
  rewrite (bool_decide_eq_false_2 (_ ≠ _)) by tauto. rewrite (bool_decide_eq_false_2 (ours = h)) by done.
  pose proof (Nat.div_mod_eq n 2) as Hdm. unfold on_ladder, rung.
  destruct (half_step n) as [(Hm & Hd & Hm')|(Hm & Hd & Hm')]; rewrite Hd, Hm', Hm.
  - eexists _, _. split; [done|]. split; [|done].
    replace (6 <=? S n)%nat with (6 <=? n)%nat; [done|].
    destruct (Nat.leb_spec 6 n), (Nat.leb_spec 6 (S n)); try done; lia.
  - change (2 <=? u32_wrap (Z.of_nat 1 + 1)) with true. cbn zeta iota.
    assert (u32_wrap (Z.of_nat (n / 2) + 1) = Z.of_nat (S (n / 2))) as ->.
    { unfold u32_wrap. rewrite Z.mod_small; lia. }
    destruct (Z.eqb_spec (Z.of_nat (S (n / 2))) HEAL_ATTEMPTS_ESCALATE) as [He|He];
      unfold HEAL_ATTEMPTS_ESCALATE in He.
    + assert (n / 2 = 2)%nat as -> by lia. eexists _, _. split; [done|].
      by rewrite (proj2 (Nat.leb_le 6 (S n))) by lia.
    + rewrite (proj2 (Nat.eqb_neq (S (n / 2)) 3)) by lia. eexists _, _. split; [done|].
      by replace (6 <=? S n)%nat with (6 <=? n)%nat
        by (destruct (Nat.leb_spec 6 n), (Nat.leb_spec 6 (S n)); lia).
Qed.

Lemma ladder_run encode sha256 a0 ours hs n a :
  view_hash encode sha256 (sa_state a0) = Some ours → ours ∉ hs →
  Z.of_nat (n + length hs) < u32_modulus → on_ladder a0 n a →
  ∃ a' o, hash_run encode sha256 (sa_epoch_cell a0) hs a = Some ((), (a', o)) ∧
    on_ladder a0 (n + length hs) a' ∧
    o = concat (rung <$> seq (S (n / 2)) ((n + length hs) / 2 - n / 2)).
Proof.
  intros Hours. revert n a. induction hs as [|h hs IH]; intros n a Hnot Hn Ha.
  { exists a, []. rewrite Nat.add_0_r. by rewrite Nat.sub_diag. }
  apply not_elem_of_cons in Hnot as [Hh Hnot]. cbn [length] in Hn.
  destruct (ladder_step encode sha256 a0 a n h ours Hours Hh ltac:(lia) Ha)
    as (a1 & o1 & H1 & Ha1 & Ho1).
  destruct (IH (S n) a1 Hnot ltac:(lia) Ha1) as (a2 & o2 & H2 & Ha2 & Ho2).
  exists a2, (o1 ++ o2). cbn [hash_run length]. unfold mbind, M_bind. rewrite H1, H2.
  replace (n + S (length hs))%nat with (S n + length hs)%nat by lia.
  split; [done|]. split; [done|]. rewrite Ho1, Ho2.
  assert (S n / 2 ≤ (S n + length hs) / 2)%nat as Hle by (apply Nat.Div0.div_le_mono; lia).
  destruct (half_step n) as [(Hm & Hd & _)|(Hm & Hd & _)]; rewrite Hm, Hd in *.
  - done.
  - replace ((S n + length hs) / 2 - n / 2)%nat
      with (S ((S n + length hs) / 2 - S (n / 2))) by lia.
    cbn [Nat.eqb seq]. by rewrite fmap_cons.
Qed.

(** The start of a session. *)
Lemma sync_start_ok user actor initial :
  (∀ snapshot, initial = Some snapshot →
     wf_state (snap_state snapshot) ∧ 0 ≤ max_lww_timestamp (snap_state snapshot)) →
  actor_ok (sync_start user actor initial).
Proof.
  intros Hi. destruct initial as [snapshot|]; simpl.
  - destruct (Hi snapshot eq_refl). split; simpl; [by apply lamport_of_floor|done|done|done].
  - split; simpl; [apply lamport_new|done|done|done].
Qed.

(** ** Statements *)

(** C5. Safety of the sync actor against what replicas of the group send: from a state
    satisfying the invariant no command and no flush makes it panic, nor does a server
    message that carries a put op with proper chat identifiers, or a well-formed
    snapshot ([msg_ok]); the invariant holds again after the turn (the Lamport floor
    dominates every register of the state and every buffered op), and the floor never
    goes down. Left out are the messages no replica produces but the decoder accepts: a
    removal op, and a chat op whose identifier has an empty path, after which the view
    of the state panics (identifier.rs). *)
Theorem sync_turn_safe encode sha256 env t a :
  turn_ok t → actor_ok a → sa_last_issued a < u64_max →
  ∃ a' o, turn encode sha256 env t a = Some ((), (a', o)) ∧
    actor_ok a' ∧ sa_last_issued a ≤ sa_last_issued a'.
Proof.
  intros Ht Ha Hl.
  destruct (turn_inv (sa_last_issued a) encode sha256 env t Ht a) as (x & a' & o & Hr & Ha' & HX).
  { split; [by split|done]. }
  destruct x. by exists a', o.
Qed.

(** C4. A local mutation that the grace lock lets through takes effect: its
    stamp is above everything the actor has issued or seen, and the resolved
    view afterwards is the old one with exactly that assignment made (or
    nothing at all, where the code returns early). *)
Theorem local_mutation_takes_effect env m a v :
  actor_ok a → room a → grace_lock env a m = None → view (sa_state a) = Some v →
  sa_last_issued a < next_stamp env a ∧
  ∃ ow a' o, write_of (sa_user a) (sa_actor a) (next_stamp env a) m (sa_state a) = Some ow ∧
    mutate env m a = Some ((), (a', o)) ∧
    match ow with
    | Some w => view (sa_state a') = Some (view_after w (next_stamp env a) v)
    | None => sa_state a' = sa_state a ∧ o = []
    end.
Proof.
  intros Ha Hr Hg Hv. split; [|by apply mutate_view].
  apply next_stamp_gt. split; [apply Ha|apply Hr].
Qed.

(** While an outage grace window is open no local write pauses, seeks or
    switches the file: whatever is requested, the view's now-playing file and
    seek authority stay, the latch does not become [Paused] and nobody gains a
    [Paused] override. *)
Theorem grace_window_locks env m a v peers_now g a' o v' :
  actor_ok a → room a → peers env = Some peers_now → outage_grace peers_now = Some g →
  view (sa_state a) = Some v → mutate env m a = Some ((), (a', o)) → view (sa_state a') = Some v' →
  v_now_playing v' = v_now_playing v ∧ v_seek_authority v' = v_seek_authority v ∧
  (v_playback_intent v' = IntentPaused → v_playback_intent v = IntentPaused) ∧
  (∀ u, v_manual_override v' !! u = Some (Some ManualPaused) →
        v_manual_override v !! u = Some (Some ManualPaused)).
Proof.
  intros Ha Hr Hp Hg Hv Hm Hv'. destruct (grace_lock env a m) as [[refusal g']|] eqn:Hlock.
  { rewrite mutate_eq, Hlock in Hm. simplify_eq/=. by split_and!. }
  destruct (mutate_view env m a v Ha Hr Hlock Hv) as (ow & a1 & o1 & Hw & Hm1 & How).
  simplify_eq. destruct ow as [w|].
  - simplify_eq. eapply not_refused_locks; [done|].
    unfold grace_lock in Hlock. rewrite Hp in Hlock. simpl in Hlock. rewrite Hg in Hlock.
    simpl in Hlock. rewrite (view_now_playing_of _ _ Hv).
    by destruct (grace_refusal m (now_playing_of (sa_state a))).
  - destruct How as [Hs _]. rewrite Hs in Hv'. simplify_eq. by split_and!.
Qed.

(** Routing of a local write. In sync, exactly one message with the op
    goes out, eagerly (on both transports) unless it is a position within a
    second of the last eager one; out of sync nothing goes out and the op is
    appended to what will be replayed, a position replacing the previous one. *)
Theorem local_write_routing env m a w :
  actor_ok a → grace_lock env a m = None →
  write_of (sa_user a) (sa_actor a) (next_stamp env a) m (sa_state a) = Some (Some w) →
  let op := (run_write w (sa_actor a) (next_stamp env a) (sa_state a)).2 in
  ∃ a' o, mutate env m a = Some ((), (a', o)) ∧ sa_link a' = sa_link a ∧
    if bool_decide (sa_link a = Synced) then
      let msg := StateOp (sa_epoch_cell a) op in
      pending a' = pending a ∧
      sent o = [if is_position m &&
                   negb (elapsed env (sa_last_reliable_position a) POSITION_RELIABLE_INTERVAL)
                then SendDatagramOnly msg else SendEager msg]
    else
      sent o = [] ∧
      (if is_position m
       then sa_offline_buffer a' = sa_offline_buffer a ∧ sa_offline_position a' = Some op
       else sa_offline_buffer a' = sa_offline_buffer a ++ [op] ∧
            sa_offline_position a' = sa_offline_position a).
Proof.
  intros Ha Hg Hw op. destruct (mutate_accepted env m a Ha Hg) as (ow & How & ->).
  simplify_eq. subst op. destruct (run_write _ _ _ _) as [s op].
  assert (sa_link (stamped_actor env m a) = sa_link a ∧
    sa_epoch_cell (stamped_actor env m a) = sa_epoch_cell a ∧
    sa_last_reliable_position (stamped_actor env m a) = sa_last_reliable_position a ∧
    sa_offline_buffer (stamped_actor env m a) = sa_offline_buffer a ∧
    sa_offline_position (stamped_actor env m a) = sa_offline_position a) as (Hl & He & Hp & Hb & Hpos)
    by by destruct m.
  unfold routed. cbn [sa_link put_state sa_epoch_cell sa_last_reliable_position].
  rewrite Hl, He, Hp. destruct (bool_decide (sa_link a = Synced)), (is_position m);
    [destruct (elapsed _ _ _)|..]; eexists _, _; (split; [done|]); cbn; rewrite ?Hl, ?Hb, ?Hpos;
    unfold pending; cbn; by rewrite ?Hb, ?Hpos.
Qed.

(** Reconnecting loses nothing: when the server's answer to the connect
    handshake is accepted, the actor re-applies every pending op, in order, to
    the merged or adopted state, empties the buffers, opens the gates and
    pushes exactly that state up in one [StateMerge]. *)
Theorem reconnect_replays_pending encode sha256 msg dg a epoch s :
  sa_link a = AwaitingSync → is_sync_reply msg = true → base_state a msg = Some (epoch, s) →
  ∃ a' o, remote encode sha256 msg dg a = Some ((), (a', o)) ∧
    sa_state a' = foldl apply s (pending a) ∧ sa_epoch_cell a' = epoch ∧
    pending a' = [] ∧ sa_link a' = Synced ∧ sa_offline_hold a' = false ∧ sa_adopted a' = true ∧
    sent o = [SendReliable (StateMerge (mkStateSnapshot epoch (sa_state a')))].
Proof.
  intros Hl Hmsg Hb. rewrite remote_sync_eq, Hb by done. unfold adopted_actor, synced_actor.
  cbn [sa_link put_adopted observed put_hash_mismatches put_last_issued put_state put_epoch_cell].
  rewrite Hl. eexists _, _. split; [done|]. split.
  { cbn [fst put_dirty sa_state]. etransitivity; [apply replay_offline_state|done]. }
  done.
Qed.

(** C26. Epoch discipline: the actor never goes back an epoch except on the
    server's answer during the connect window, and only an op of its own epoch,
    or a merge or snapshot of the epoch it ends in, can change its state. *)
Theorem epoch_discipline encode sha256 msg dg a a' o :
  is_Some (view (sa_state a)) → remote encode sha256 msg dg a = Some ((), (a', o)) →
  (sa_epoch_cell a ≤ sa_epoch_cell a' ∨ sa_link a = AwaitingSync) ∧
  (sa_state a' ≠ sa_state a →
   match msg with
   | StateOp epoch _ => epoch = sa_epoch_cell a ∧ epoch = sa_epoch_cell a'
   | StateMerge snapshot | CtlStateSnapshot snapshot => snap_epoch snapshot = sa_epoch_cell a'
   | _ => False
   end).
Proof.
  intros [v Hv] Hr. destruct (is_sync_reply msg) eqn:Hmsg.
  - rewrite remote_sync_eq in Hr by done. destruct (base_state a msg) as [[epoch s]|] eqn:Hb.
    2: { simplify_eq. split; [by left|done]. }
    assert (sa_epoch_cell a' = epoch) as ->.
    { unfold adopted_actor in Hr. destruct (synced_actor _) as [a1 o1] eqn:E. simplify_eq/=.
      unfold synced_actor in E. by destruct (sa_link _); simplify_eq/=. }
    destruct msg as [| | | | | | | |snapshot| |snapshot| | | | | | | | |]; try done; simpl in Hb.
    + destruct (_ && _) eqn:Hc; [done|]. simplify_eq. split; [|done].
      apply andb_false_iff in Hc as [Hc|Hc]; [left; lia|right].
      by apply bool_decide_eq_false in Hc; apply dec_stable.
    + destruct (Z.eqb_spec (snap_epoch snapshot) (sa_epoch_cell a)); [simplify_eq; by split; [left|]|].
      destruct (_ || _) eqn:Hc; [|done]. simplify_eq. split; [|done].
      apply orb_true_iff in Hc as [Hc|Hc]; [left; lia|right]. by apply bool_decide_eq_true in Hc.
  - destruct msg as [| | | | | | | | |epoch op| |epoch hash| | | | | | | |]; try done;
      cbv [remote mret M_ret] in Hr; try (simplify_eq; split; [by left|done]).
    + unfold remote_op, mbind, M_bind, get in Hr; simpl in Hr. case_bool_decide as He; simpl in Hr.
      { simplify_eq. split; [by left|done]. }
      destruct (op_lww_timestamp op); simpl in Hr; simplify_eq/=;
        (split; [by left|done]).
    + unfold view_hash in Hr. destruct (view_hash encode sha256 (sa_state a)) as [ours|] eqn:Hours.
      2: { unfold view_hash in Hours. by rewrite Hv in Hours. }
      rewrite (remote_hash_eq _ _ _ _ _ ours) in Hr by done. unfold hash_outcome in Hr.
      repeat case_match; simplify_eq/=; (split; [by left|done]).
Qed.

(** The divergence ladder: [n] mismatching view hashes in a row put out a
    [RequestMerge] and an alarm at every second one, and the advice to resync
    exactly once, with the third alarm; the first matching hash afterwards
    announces the healing if there was any alarm and resets the ladder. *)
Theorem divergence_ladder encode sha256 a ours hs :
  view_hash encode sha256 (sa_state a) = Some ours → ours ∉ hs →
  sa_hash_mismatches a = 0 → sa_heal_attempts a = 0 → sa_escalated a = false →
  Z.of_nat (length hs) < u32_modulus →
  let n := length hs in
  ∃ a', hash_run encode sha256 (sa_epoch_cell a) hs a =
      Some ((), (a', concat (rung <$> seq 1 (n / 2)))) ∧
    sa_hash_mismatches a' = Z.of_nat (n mod 2) ∧ sa_heal_attempts a' = Z.of_nat (n / 2) ∧
    sa_escalated a' = (6 <=? n)%nat ∧
    remote_hash encode sha256 (sa_epoch_cell a) ours a' =
      Some ((), (a, if (0 <? n / 2)%nat then [OEvent DivergenceHealed] else [])).
Proof.
  intros Hours Hnot Hm Hh He Hlen n.
  assert (on_ladder a 0 a) as H0 by (unfold on_ladder; destruct a; by simplify_eq/=).
  destruct (ladder_run encode sha256 a ours hs 0 a Hours Hnot Hlen H0) as (a' & o & Hrun & Ha' & Ho).
  exists a'. rewrite Hrun, Ho. fold n in Ha'. simpl plus in *.
  split; [by rewrite Nat.sub_0_r|]. unfold on_ladder in Ha'. split_and!; [by rewrite Ha'..|].
  rewrite (remote_hash_eq _ _ _ _ _ ours) by by rewrite Ha'.
  unfold hash_outcome. rewrite Ha'.
  cbn [sa_epoch_cell sa_heal_attempts sa_escalated put_escalated put_heal_attempts put_hash_mismatches].
  rewrite (bool_decide_eq_false_2 (_ ≠ _)) by tauto. rewrite bool_decide_eq_true_2 by done.
  assert ((6 <= n)%nat → (0 < n / 2)%nat) as Hsix by (intros; by apply Nat.div_str_pos; lia).
  clear Ha' Hrun. revert Hsix. generalize (n / 2)%nat. intros k Hsix.
  destruct (Nat.leb_spec 6 n), (Nat.ltb_spec 0 k); try lia.
  - rewrite orb_true_r. destruct a; by simplify_eq/=.
  - rewrite (proj2 (Z.ltb_lt 0 (Z.of_nat k))) by lia. destruct a; by simplify_eq/=.
  - rewrite (proj2 (Z.ltb_ge 0 (Z.of_nat k))) by lia.
    assert (k = 0)%nat as -> by lia. destruct a; simpl in *; by subst.
Qed.

(** ** Concrete actors *)

Definition ex_env : Env := mkEnv 1000 0 None None.
Definition ex_actor : SyncActor := sync_start (mkUserId "nero") ex_a None.
Definition ex_awaiting : SyncActor := put_link AwaitingSync ex_actor.
Definition ex_write_m : Mutation := SetWatched ex_hash true.

Lemma ex_actor_ok : actor_ok ex_actor.
Proof. by apply sync_start_ok. Qed.
Lemma ex_room : room ex_actor.
Proof. split; [done|]. intros f. by destruct f. Qed.

Lemma sync_turn_safe_witness :
  ∃ a' o, turn (λ _, None) id ex_env (TCommand (Mutate ex_write_m)) ex_actor = Some ((), (a', o)) ∧
    actor_ok a' ∧ sa_last_issued ex_actor ≤ sa_last_issued a'.
Proof. apply sync_turn_safe; [exact I|exact ex_actor_ok|reflexivity]. Defined.

Lemma local_mutation_takes_effect_witness :
  sa_last_issued ex_actor < next_stamp ex_env ex_actor ∧
  ∃ ow a' o, write_of (mkUserId "nero") ex_a 1000 ex_write_m new_state = Some ow ∧
    mutate ex_env ex_write_m ex_actor = Some ((), (a', o)) ∧
    match ow with
    | Some w => view (sa_state a') = Some (view_after w 1000 (view_with new_state []))
    | None => sa_state a' = sa_state ex_actor ∧ o = []
    end.
Proof.
  apply (local_mutation_takes_effect ex_env ex_write_m ex_actor (view_with new_state [])).
  - exact ex_actor_ok.
  - exact ex_room.
  - reflexivity.
  - apply view_Some. exists []. split; reflexivity.
Defined.

(** A window is open because of "asuka"; switching the file is refused. *)
Definition ex_lost : PeerInfo :=
  mkPeerInfo (mkUserId "asuka") Interactive Lost [] 0 (Some 180000).
Definition ex_grace_env : Env := mkEnv 1000 0 (Some [ex_lost]) None.

Lemma grace_window_locks_witness :
  mutate ex_grace_env (SetNowPlaying (Some ex_hash)) ex_actor =
    Some ((), (put_last_grace_refusal (Some 0) ex_actor,
               [OEvent (GraceRefused RefuseFileChange (mkOutageGrace (mkUserId "asuka") 180000))])) ∧
  v_now_playing (view_with new_state []) = v_now_playing (view_with new_state []) ∧
  v_seek_authority (view_with new_state []) = v_seek_authority (view_with new_state []) ∧
  (v_playback_intent (view_with new_state []) = IntentPaused →
   v_playback_intent (view_with new_state []) = IntentPaused) ∧
  (∀ u, v_manual_override (view_with new_state []) !! u = Some (Some ManualPaused) →
        v_manual_override (view_with new_state []) !! u = Some (Some ManualPaused)).
Proof.
  split; [reflexivity|].
  apply (grace_window_locks ex_grace_env (SetNowPlaying (Some ex_hash)) ex_actor
    (view_with new_state []) [ex_lost] (mkOutageGrace (mkUserId "asuka") 180000)
    (put_last_grace_refusal (Some 0) ex_actor)
    [OEvent (GraceRefused RefuseFileChange (mkOutageGrace (mkUserId "asuka") 180000))]
    (view_with new_state [])).
  - exact ex_actor_ok.
  - exact ex_room.
  - reflexivity.
  - reflexivity.
  - apply view_Some. exists []. split; reflexivity.
  - reflexivity.
  - apply view_Some. exists []. split; reflexivity.
Defined.

(** Offline, the op waits in the buffer. *)
Lemma local_write_routing_witness :
  ∃ a' o, mutate ex_env ex_write_m ex_actor = Some ((), (a', o)) ∧ sa_link a' = Down ∧
    sent o = [] ∧
    sa_offline_buffer a' = [(run_write (WWatched ex_hash true) ex_a 1000 new_state).2] ∧
    sa_offline_position a' = None.
Proof.
  apply (local_write_routing ex_env ex_write_m ex_actor (WWatched ex_hash true)).
  - exact ex_actor_ok.
  - reflexivity.
  - reflexivity.
Defined.

Definition ex_reply : ServerControl := CtlStateSnapshot (mkStateSnapshot 3 new_state).
Lemma reconnect_replays_pending_witness :
  ∃ a' o, remote (λ _, None) id ex_reply false ex_awaiting = Some ((), (a', o)) ∧
    sa_state a' = foldl apply new_state (pending ex_awaiting) ∧ sa_epoch_cell a' = 3 ∧
    pending a' = [] ∧ sa_link a' = Synced ∧ sa_offline_hold a' = false ∧ sa_adopted a' = true ∧
    sent o = [SendReliable (StateMerge (mkStateSnapshot 3 (sa_state a')))].
Proof. apply reconnect_replays_pending; reflexivity. Defined.

(** In sync, a snapshot of an older epoch is ignored. *)
Definition ex_synced : SyncActor := put_epoch_cell 5 (put_link Synced ex_actor).
Lemma epoch_discipline_witness :
  remote (λ _, None) id ex_reply false ex_synced = Some ((), (ex_synced, [])) ∧
  (sa_epoch_cell ex_synced ≤ sa_epoch_cell ex_synced ∨ sa_link ex_synced = AwaitingSync) ∧
  (sa_state ex_synced ≠ sa_state ex_synced → 3 = sa_epoch_cell ex_synced).
Proof.
  split; [reflexivity|].
  apply (epoch_discipline (λ _, None) id ex_reply false ex_synced ex_synced []).
  - exists (view_with new_state []). apply view_Some. exists []. split; reflexivity.
  - reflexivity.
Defined.

Lemma divergence_ladder_witness :
  concat (rung <$> seq 1 (7 / 2)) =
    [ONet (SendReliable RequestMerge); OEvent Diverged;
     ONet (SendReliable RequestMerge); OEvent Diverged;
     ONet (SendReliable RequestMerge); OEvent Diverged; OEvent DivergencePersisted] ∧
  ∃ a', hash_run (λ _, None) id 0 (replicate 7 [0]) ex_actor =
      Some ((), (a', concat (rung <$> seq 1 (7 / 2)))) ∧
    sa_hash_mismatches a' = Z.of_nat (7 mod 2) ∧ sa_heal_attempts a' = Z.of_nat (7 / 2) ∧
    sa_escalated a' = (6 <=? 7)%nat ∧
    remote_hash (λ _, None) id 0 (replicate 32 255) a' =
      Some ((), (ex_actor, if (0 <? 7 / 2)%nat then [OEvent DivergenceHealed] else [])).
Proof.
  split; [reflexivity|].
  apply (divergence_ladder (λ _, None) id ex_actor (replicate 32 255) (replicate 7 [0])).
  - reflexivity.
  - simpl. intros Hin. repeat (apply elem_of_cons in Hin as [Hin|Hin]; [discriminate Hin|]).
    by apply elem_of_nil in Hin.
  - reflexivity.
  - reflexivity.
  - reflexivity.
  - reflexivity.
Defined.
