(* ===== verification/Findings.v ===== *)
(** * Divergences found while modelling

    Concrete runs of the modelled code that a comment of the source excludes,
    evaluated by the kernel. *)

From S2P Require Import Prelude Types Lww Vclock CrdtMap Identifier State Fields StateRepr.
From S2P Require Import Convergence Resolve Playlist View Writes Message Franchise Derive Sync.
From S2P Require Import SyncCorrect.

Definition ex_hash2 : Ed2kHash := mkEd2kHash (replicate 16 2).

(** The op a handler put out. *)
Definition sent_op (o : list Output) : option CrdtOp :=
  match sent o with [SendEager (StateOp _ op)] => Some op | _ => None end.

(** A synced client writes (the op is on its way), the server's curative
    snapshot, taken before that op arrived, is adopted, and the client writes
    again: both ops, and the client's state. *)
Definition heal_scenario : option (CrdtOp * CrdtOp * CrdtState) :=
  '(_, (a, o1)) ← mutate ex_env (SetWatched ex_hash true) (put_link Synced ex_actor);
  '(_, (a, _)) ← remote (λ _, None) id (CtlStateSnapshot (mkStateSnapshot 0 new_state)) false a;
  '(_, (a, o2)) ← mutate ex_env (SetWatched ex_hash2 true) a;
  op1 ← sent_op o1;
  op2 ← sent_op o2;
  Some (op1, op2, sa_state a).

(** A mid-session divergence heal can make one session spend a dot twice: both
    ops carry the same dot. The server, which has the first one, drops the
    second; the client has forgotten the first. The comment on
    [ActorId::session] calls a double-spent dot structurally impossible. *)
Theorem mid_session_heal_double_spends :
  match heal_scenario with
  | Some (op1, op2, client) =>
      let server := apply new_state op1 in
      op_dot op1 = op_dot op2 ∧ op1 ≠ op2 ∧
      (apply_for_broadcast server op2 false).2 = false ∧
      map_view (watched (apply_for_broadcast server op2 false).1) !! ex_hash2 = None ∧
      map_view (watched client) !! ex_hash = None
  | None => False
  end.
Proof.
  vm_compute. split; [reflexivity|]. split; [discriminate|]. by split.
Qed.

(** The comment in [apply_map_reliable] says that an out-of-band removal op is
    dropped; the macro applies it and reports no change. *)
Theorem reliable_path_applies_removal :
  ∃ s op, is_put op = false ∧
    (apply_for_broadcast s op false).2 = false ∧
    map_view (watched s) !! ex_hash = Some true ∧
    map_view (watched (apply_for_broadcast s op false).1) !! ex_hash = None.
Proof.
  exists (set_watched new_state ex_a 10 ex_hash true).1,
    (OpWatched (MapRm {[ex_a := 1]} {[ex_hash]})).
  vm_compute. by split_and!.
Qed.
