(* ===== verification/Framing.v ===== *)
(** * Stream framing (dessplay-core/src/net/framing.rs)

    A frame is a little-endian [u32] length and that many payload bytes. The
    reader and the writer the code is generic in (tokio's [AsyncRead],
    [AsyncWrite] and their extension methods) are type classes of operations
    with the documented laws: the theorems are proved against the interface.
    An in-memory reader that delivers the bytes in chunks of any sizes, and an
    in-memory writer, implement it. *)

From S2P Require Import Prelude.

Definition MAX_FRAME_LEN : Z := 64 * 1024 * 1024.
Definition HANDSHAKE_FRAME_LEN : Z := 4 * 1024.

(** [std::io::ErrorKind], the kinds that are distinguished, and [FrameError]. *)
Inductive io_error := UnexpectedEof | OtherIo (code : Z).
Inductive FrameError := Io (e : io_error) | TooLarge (len : Z) | Closed.
#[export] Instance io_error_eq_dec : EqDecision io_error.
Proof. solve_decision. Defined.
#[export] Instance FrameError_eq_dec : EqDecision FrameError.
Proof. solve_decision. Defined.

(** [to_le_bytes] and [from_le_bytes] at [n] bytes. *)
Fixpoint to_le_bytes (n : nat) (x : Z) : list Z :=
  match n with
  | O => []
  | S n => x mod 256 :: to_le_bytes n (x / 256)
  end.
Fixpoint from_le_bytes (bs : list Z) : Z :=
  match bs with
  | [] => 0
  | b :: bs => b + 256 * from_le_bytes bs
  end.

(** ** The reader's and the writer's interfaces *)

Class AsyncRead (R : Type) := {
  read : R → nat → io_error + (list Z * R);
  read_exact : R → nat → io_error + (list Z * R)
}.
(** [holds r bs]: [r] will deliver exactly [bs] and then end-of-file. A read
    into a non-empty buffer delivers a prefix, empty only at end-of-file. *)
Class AsyncReadLaws (R : Type) `{AsyncRead R} := {
  holds : R → list Z → Prop;
  read_spec r bs k : holds r bs → (0 < k)%nat →
    ∃ n r', read r k = inr (take n bs, r') ∧ holds r' (drop n bs) ∧
      (n ≤ k)%nat ∧ (n ≤ length bs)%nat ∧ (bs ≠ [] → (0 < n)%nat);
  read_exact_ok r bs k : holds r bs → (k ≤ length bs)%nat →
    ∃ r', read_exact r k = inr (take k bs, r') ∧ holds r' (drop k bs);
  read_exact_eof r bs k : holds r bs → (length bs < k)%nat →
    read_exact r k = inl UnexpectedEof
}.

Class AsyncWrite (W : Type) := {
  write_all : W → list Z → io_error + W;
  flush : W → io_error + W
}.
Class AsyncWriteLaws (W : Type) `{AsyncWrite W} := {
  written : W → list Z;
  write_all_spec w bs w' : write_all w bs = inr w' → written w' = written w ++ bs;
  flush_spec w w' : flush w = inr w' → written w' = written w
}.

(** The [?] operator on these results, and its conversion [From<io::Error>]. *)
Definition try {E A B} (r : E + A) (f : A → E + B) : E + B :=
  match r with inl e => inl e | inr x => f x end.
Definition from_io {A} (r : io_error + A) : FrameError + A :=
  match r with inl e => inl (Io e) | inr x => inr x end.

(** [validate_len]. *)
Definition validate_len (len max : Z) : FrameError + Z :=
  if max <? len then inl (TooLarge len) else inr len.

(** [write_frame]. *)
Definition write_frame `{AsyncWrite W} (writer : W) (payload : list Z) : FrameError + W :=
  let n := Z.of_nat (length payload) in
  try (if n <? u32_modulus then inr n else inl (TooLarge n)) (λ len,
  try (validate_len len MAX_FRAME_LEN) (λ _,
  try (from_io (write_all writer (to_le_bytes 4 len))) (λ writer,
  try (from_io (write_all writer payload)) (λ writer,
  from_io (flush writer))))).

(** The length loop of [read_frame_capped]: [len_bytes] holds the filled part
    of the buffer. Every iteration fills at least one byte, so four are enough;
    [None] would be a fifth. *)
Fixpoint read_len_bytes `{AsyncRead R} (fuel : nat) (reader : R) (len_bytes : list Z)
    : option (FrameError + (list Z * R)) :=
  if (length len_bytes <? 4)%nat then
    match fuel with
    | O => None
    | S fuel =>
        match read reader (4 - length len_bytes)%nat with
        | inl e => Some (inl (Io e))
        | inr (bs, reader) =>
            if (length bs =? 0)%nat then
              if (length len_bytes =? 0)%nat then Some (inl Closed)
              else Some (inl (Io UnexpectedEof))
            else read_len_bytes fuel reader (len_bytes ++ bs)
        end
    end
  else Some (inr (len_bytes, reader)).

(** [read_frame_capped] and [read_frame]. *)
Definition read_frame_capped `{AsyncRead R} (reader : R) (max : Z)
    : option (FrameError + (list Z * R)) :=
  r ← read_len_bytes 4 reader [];
  Some (try r (λ '(len_bytes, reader),
    try (validate_len (from_le_bytes len_bytes) max) (λ len,
    from_io (read_exact reader (Z.to_nat len))))).
Definition read_frame `{AsyncRead R} (reader : R) : option (FrameError + (list Z * R)) :=
  read_frame_capped reader MAX_FRAME_LEN.

(** What the connections do: write a sequence of frames, and read frames until
    the reader reports an error (here the error is returned with the frames). *)
Fixpoint write_frames `{AsyncWrite W} (writer : W) (payloads : list (list Z)) : FrameError + W :=
  match payloads with
  | [] => inr writer
  | p :: payloads => try (write_frame writer p) (λ writer, write_frames writer payloads)
  end.
Fixpoint read_frames `{AsyncRead R} (fuel : nat) (reader : R) (max : Z)
    : option (list (list Z) * FrameError) :=
  match fuel with
  | O => None
  | S fuel =>
      r ← read_frame_capped reader max;
      match r with
      | inl e => Some ([], e)
      | inr (p, reader) => '(ps, e) ← read_frames fuel reader max; Some (p :: ps, e)
      end
  end.

(** A reader over memory: the chunks that successive reads deliver, split
    further when the buffer is shorter; an empty list of chunks is the end. *)
Record ChunkReader := mkChunkReader { chunks : list (list Z) }.
Definition chunk_read (r : ChunkReader) (k : nat) : io_error + (list Z * ChunkReader) :=
  match filter (λ c, c ≠ []) (chunks r) with
  | [] => inr ([], mkChunkReader [])
  | c :: cs => inr (take k c, mkChunkReader (drop k c :: cs))
  end.
Definition chunk_read_exact (r : ChunkReader) (k : nat) : io_error + (list Z * ChunkReader) :=
  let bs := concat (chunks r) in
  if (length bs <? k)%nat then inl UnexpectedEof
  else inr (take k bs, mkChunkReader [drop k bs]).
#[export] Instance ChunkReader_AsyncRead : AsyncRead ChunkReader :=
  {| read := chunk_read; read_exact := chunk_read_exact |}.

Lemma concat_filter_nonempty (cs : list (list Z)) :
  concat (filter (λ c, c ≠ []) cs) = concat cs.
Proof.
  induction cs as [|c cs IH]; [done|]. rewrite filter_cons.
  destruct c; simpl; [done|by rewrite IH].
Qed.

#[export] Program Instance ChunkReader_laws : AsyncReadLaws ChunkReader :=
  {| holds r bs := concat (chunks r) = bs |}.
Next Obligation.
  intros r bs k <- Hk. cbn [read ChunkReader_AsyncRead]. unfold chunk_read.
  rewrite <-(concat_filter_nonempty (chunks r)).
  destruct (filter _ (chunks r)) as [|c cs] eqn:E.
  { exists 0%nat, (mkChunkReader []). split_and!; [done..|simpl; lia|simpl; lia|by intros []]. }
  assert (c ≠ []) as Hc.
  { assert (c ∈ filter (λ c, c ≠ []) (chunks r)) as Hin by (rewrite E; left).
    by apply list_elem_of_filter in Hin as [Hin _]. }
  assert (length c ≠ 0)%nat as Hlen by by destruct c.
  exists (Nat.min k (length c)), (mkChunkReader (drop k c :: cs)). simpl.
  rewrite length_app, take_app_le, drop_app_le by lia. split_and!; try lia.
  - destruct (Nat.le_ge_cases k (length c)); [by rewrite Nat.min_l by lia|].
    rewrite Nat.min_r by lia. by rewrite !take_ge by lia.
  - destruct (Nat.le_ge_cases k (length c)); [by rewrite Nat.min_l by lia|].
    rewrite Nat.min_r by lia. by rewrite !drop_ge by lia.
Qed.
Next Obligation.
  intros r bs k <- Hk. simpl. unfold chunk_read_exact.
  rewrite (proj2 (Nat.ltb_ge _ _) Hk). eexists. split; [done|]. simpl. by rewrite app_nil_r.
Qed.
Next Obligation.
  intros r bs k <- Hk. simpl. unfold chunk_read_exact. by rewrite (proj2 (Nat.ltb_lt _ _) Hk).
Qed.

(** A writer over memory that never fails. *)
Record VecWriter := mkVecWriter { vec : list Z }.
#[export] Instance VecWriter_AsyncWrite : AsyncWrite VecWriter :=
  {| write_all w bs := inr (mkVecWriter (vec w ++ bs)); flush w := inr w |}.
#[export] Program Instance VecWriter_laws : AsyncWriteLaws VecWriter := {| written := vec |}.
Next Obligation. by intros w bs w' [= <-]. Qed.
Next Obligation. by intros w w' [= <-]. Qed.

(** ** Lemmas *)

Definition is_byte (b : Z) : Prop := 0 ≤ b < 256.

Lemma length_to_le_bytes n x : length (to_le_bytes n x) = n.
Proof. revert x. induction n; simpl; intros; [done|by rewrite IHn]. Qed.
Lemma to_le_bytes_bytes n x : Forall is_byte (to_le_bytes n x).
Proof.
  revert x. induction n; simpl; intros; constructor; [|done].
  unfold is_byte. pose proof (Z.mod_pos_bound x 256). lia.
Qed.
Lemma from_to_le_bytes n x : 0 ≤ x < 256 ^ Z.of_nat n → from_le_bytes (to_le_bytes n x) = x.
Proof.
  revert x. induction n as [|n IH]; intros x Hx; [simpl in *; lia|].
  cbn [to_le_bytes from_le_bytes]. rewrite IH.
  - pose proof (Z.div_mod x 256). lia.
  - rewrite Nat2Z.inj_succ, Z.pow_succ_r in Hx by lia.
    split; [apply Z.div_pos; lia|apply Z.div_lt_upper_bound; lia].
Qed.
Lemma from_le_bytes_nonneg bs : Forall is_byte bs → 0 ≤ from_le_bytes bs.
Proof. unfold is_byte. induction 1; simpl; lia. Qed.

Lemma validate_len_ok len max : len ≤ max → validate_len len max = inr len.
Proof. unfold validate_len. by rewrite <-Z.ltb_ge => ->. Qed.

(** The bytes of one frame. *)
Definition frame_bytes (p : list Z) : list Z := to_le_bytes 4 (Z.of_nat (length p)) ++ p.

(** What a reader holding [bs] answers: the frame and what is left, or the
    error. *)
Definition parse_frame (bs : list Z) (max : Z) : FrameError + (list Z * list Z) :=
  match bs with
  | [] => inl Closed
  | b0 :: b1 :: b2 :: b3 :: rest =>
      let len := from_le_bytes [b0; b1; b2; b3] in
      if max <? len then inl (TooLarge len)
      else if Z.of_nat (length rest) <? len then inl (Io UnexpectedEof)
      else inr (take (Z.to_nat len) rest, drop (Z.to_nat len) rest)
  | _ => inl (Io UnexpectedEof)
  end.

Section writer.
Context `{AsyncWriteLaws W}.

Lemma write_frame_written (w w' : W) p :
  write_frame w p = inr w' →
  written w' = written w ++ frame_bytes p ∧ Z.of_nat (length p) ≤ MAX_FRAME_LEN.
Proof.
  unfold write_frame, validate_len, try, from_io.
  destruct (Z.of_nat (length p) <? u32_modulus); [|done].
  destruct (MAX_FRAME_LEN <? Z.of_nat (length p)) eqn:E; [done|].
  destruct (write_all w _) as [|w1] eqn:E1; [done|].
  destruct (write_all w1 p) as [|w2] eqn:E2; [done|].
  destruct (flush w2) as [|w3] eqn:E3; [done|]. intros [= <-].
  apply write_all_spec in E1, E2. apply flush_spec in E3.
  unfold frame_bytes. rewrite app_assoc. split; [congruence|lia].
Qed.

Lemma write_frames_written ps (w w' : W) :
  write_frames w ps = inr w' →
  written w' = written w ++ concat (frame_bytes <$> ps) ∧
  Forall (λ p, Z.of_nat (length p) ≤ MAX_FRAME_LEN) ps.
Proof.
  revert w. induction ps as [|p ps IH]; intros w; simpl.
  { intros [= <-]. by rewrite app_nil_r. }
  unfold try. destruct (write_frame w p) as [|w1] eqn:E; [done|]. intros Hw.
  apply IH in Hw as [-> Hps]. apply write_frame_written in E as [-> Hp].
  rewrite <-app_assoc. by split; [|constructor].
Qed.
End writer.

Section reader.
Context `{AsyncReadLaws R}.

(** The length loop, from any amount already filled. *)
Lemma read_len_bytes_spec fuel (r : R) bs acc :
  holds r bs → (length acc ≤ 4)%nat → (4 - length acc ≤ fuel)%nat →
  let want := (4 - length acc)%nat in
  if (length bs <? want)%nat then
    read_len_bytes fuel r acc =
      Some (inl (if bool_decide (acc ++ bs = []) then Closed else Io UnexpectedEof))
  else ∃ r', read_len_bytes fuel r acc = Some (inr (acc ++ take want bs, r')) ∧
             holds r' (drop want bs).
Proof.
  revert r bs acc. induction fuel as [|fuel IH]; intros r bs acc Hr Hacc Hfuel want.
  { assert (want = 0)%nat as -> by lia. simpl. unfold read_len_bytes.
    rewrite (proj2 (Nat.ltb_ge _ _)) by lia. exists r. by rewrite take_0, drop_0, app_nil_r. }
  cbn [read_len_bytes]. destruct (Nat.ltb_spec (length acc) 4) as [Hlt|Hge].
  2: { assert (want = 0)%nat as -> by lia. simpl. exists r. by rewrite take_0, drop_0, app_nil_r. }
  destruct (read_spec r bs want Hr ltac:(lia)) as (n & r' & Hread & Hr' & Hn1 & Hn2 & Hn3).
  fold want. rewrite Hread, length_take, Nat.min_l by lia.
  destruct (Nat.eqb_spec n 0) as [->|Hn0].
  { assert (bs = []) as -> by (destruct bs; [done|]; specialize (Hn3 ltac:(done)); lia).
    rewrite (proj2 (Nat.ltb_lt _ _)) by (simpl; lia). rewrite app_nil_r.
    by destruct acc. }
  specialize (IH r' (drop n bs) (acc ++ take n bs) Hr').
  rewrite length_app, length_take, Nat.min_l, length_drop, <-app_assoc, take_drop in IH by lia.
  specialize (IH ltac:(lia) ltac:(lia)). cbn zeta in IH.
  replace (4 - (length acc + n))%nat with (want - n)%nat in IH by lia.
  destruct (Nat.ltb_spec (length bs) want), (Nat.ltb_spec (length bs - n) (want - n));
    try lia; [done|].
  destruct IH as (r'' & -> & Hr''). exists r''.
  rewrite drop_drop in Hr''. replace (n + (want - n))%nat with want in Hr'' by lia. split; [|done].
  rewrite <-?app_assoc, take_take_drop. by replace (n + (want - n))%nat with want by lia.
Qed.

Lemma read_frame_capped_parse (r : R) bs max :
  holds r bs → Forall is_byte bs →
  match parse_frame bs max with
  | inl e => read_frame_capped r max = Some (inl e)
  | inr (p, rest) => ∃ r', read_frame_capped r max = Some (inr (p, r')) ∧ holds r' rest
  end.
Proof.
  intros Hr Hb. pose proof (read_len_bytes_spec 4 r bs [] Hr ltac:(simpl; lia) ltac:(simpl; lia)) as Hl.
  unfold read_frame_capped.
  destruct bs as [|b0 [|b1 [|b2 [|b3 rest]]]]; cbn -[read_len_bytes] in Hl; try by rewrite Hl.
  destruct Hl as (r' & -> & Hr'). rewrite take_0. rewrite drop_0 in Hr'. cbn [parse_frame mbind option_bind try]. cbn zeta.
  set (len := from_le_bytes [b0; b1; b2; b3]).
  assert (0 ≤ len) as Hlen.
  { apply from_le_bytes_nonneg. change (b0 :: b1 :: b2 :: b3 :: rest) with ([b0; b1; b2; b3] ++ rest) in Hb.
    by apply Forall_app in Hb as [Hb _]. }
  unfold validate_len. destruct (max <? len); [done|]. cbn [try].
  destruct (Z.ltb_spec (Z.of_nat (length rest)) len) as [Hlt|Hge].
  - rewrite (read_exact_eof r' rest) by (done || lia). done.
  - destruct (read_exact_ok r' rest (Z.to_nat len) Hr' ltac:(lia)) as (r'' & -> & Hr'').
    exists r''. done.
Qed.
End reader.

Lemma parse_frame_bytes p rest max :
  Z.of_nat (length p) ≤ max → Z.of_nat (length p) < u32_modulus →
  parse_frame (frame_bytes p ++ rest) max = inr (p, rest).
Proof.
  intros Hmax Hu. pose proof (from_to_le_bytes 4 (Z.of_nat (length p))) as Hft.
  pose proof (length_to_le_bytes 4 (Z.of_nat (length p))) as Hlen.
  unfold frame_bytes. destruct (to_le_bytes 4 (Z.of_nat (length p))) as [|b0 [|b1 [|b2 [|b3 [|]]]]];
    try done. rewrite <-app_assoc. cbn [app parse_frame].
  rewrite Hft by (unfold u32_modulus in Hu; lia).
  rewrite (proj2 (Z.ltb_ge _ _)) by lia. rewrite length_app, (proj2 (Z.ltb_ge _ _)) by lia.
  rewrite Nat2Z.id. by rewrite take_app_length, drop_app_length.
Qed.

Lemma frame_bytes_bytes p : Forall is_byte p → Forall is_byte (frame_bytes p).
Proof. intros Hp. apply Forall_app. split; [apply to_le_bytes_bytes|done]. Qed.

Lemma read_frames_concat `{AsyncReadLaws R} ps (r : R) max rest e :
  holds r (concat (frame_bytes <$> ps) ++ rest) →
  Forall (Forall is_byte) ps → Forall is_byte rest →
  Forall (λ p, Z.of_nat (length p) ≤ max ∧ Z.of_nat (length p) < u32_modulus) ps →
  parse_frame rest max = inl e →
  read_frames (S (length ps)) r max = Some (ps, e).
Proof.
  revert r. induction ps as [|p ps IH]; intros r Hr Hps Hrest Hlen He.
  - simpl. pose proof (read_frame_capped_parse r rest max Hr Hrest) as Hp. rewrite He in Hp.
    by rewrite Hp.
  - apply Forall_cons in Hps as [Hp Hps]. apply Forall_cons in Hlen as [[Hm Hu] Hlen].
    rewrite fmap_cons in Hr. cbn [concat] in Hr. rewrite <-app_assoc in Hr.
    assert (Forall is_byte (frame_bytes p ++ concat (frame_bytes <$> ps) ++ rest)) as Hb.
    { rewrite !Forall_app. split_and!; [by apply frame_bytes_bytes| |done].
      apply Forall_concat, Forall_fmap. eapply Forall_impl; [exact Hps|]. apply frame_bytes_bytes. }
    pose proof (read_frame_capped_parse r _ max Hr Hb) as Hparse.
    rewrite parse_frame_bytes in Hparse by done. destruct Hparse as (r' & Hread & Hr').
    change (length (p :: ps)) with (S (length ps)).
    cbn [read_frames]. rewrite Hread. cbn [mbind option_bind].
    specialize (IH r' Hr' Hps Hrest Hlen He). cbn [read_frames] in IH |- *. by rewrite IH.
Qed.

(** ** Statements *)

(** C40. Whatever byte stream a reader holds, and however its reads are split,
    [read_frame_capped] returns (the loop never runs out of fuel) what the
    stream says: [Closed] at the boundary, end-of-file inside a frame,
    [TooLarge] before anything is allocated, or exactly the payload, leaving
    the reader behind it. *)
Theorem read_frame_capped_correct `{AsyncReadLaws R} (r : R) bs max :
  holds r bs → Forall is_byte bs →
  match parse_frame bs max with
  | inl e => read_frame_capped r max = Some (inl e)
  | inr (p, rest) => ∃ r', read_frame_capped r max = Some (inr (p, r')) ∧ holds r' rest
  end.
Proof. apply read_frame_capped_parse. Qed.

Definition ex_chunks : ChunkReader := mkChunkReader [[3]; [0; 0]; [0; 7]; [8; 9; 1]].
Lemma read_frame_capped_correct_witness :
  match parse_frame [3; 0; 0; 0; 7; 8; 9; 1] MAX_FRAME_LEN with
  | inl e => read_frame_capped ex_chunks MAX_FRAME_LEN = Some (inl e)
  | inr (p, rest) => p = [7; 8; 9] ∧ rest = [1] ∧
      ∃ r', read_frame_capped ex_chunks MAX_FRAME_LEN = Some (inr (p, r')) ∧ holds r' rest
  end.
Proof.
  split; [reflexivity|split; [reflexivity|]].
  apply (read_frame_capped_correct ex_chunks [3; 0; 0; 0; 7; 8; 9; 1] MAX_FRAME_LEN);
    [reflexivity|]. repeat constructor; unfold is_byte; lia.
Defined.

(** Frames written in sequence are read back in order, by a reader that
    splits the bytes in any way, and then the clean end of the stream is
    reported. *)
Theorem frames_roundtrip `{AsyncWriteLaws W} `{AsyncReadLaws R} (w w' : W) (r : R) ps :
  Forall (Forall is_byte) ps → write_frames w ps = inr w' →
  holds r (drop (length (written w)) (written w')) →
  read_frames (S (length ps)) r MAX_FRAME_LEN = Some (ps, Closed).
Proof.
  intros Hps Hw Hr. apply write_frames_written in Hw as [Hw Hlen].
  rewrite Hw, drop_app_length in Hr.
  apply (read_frames_concat ps r MAX_FRAME_LEN []); rewrite ?app_nil_r; try done.
  eapply Forall_impl; [done|]. unfold MAX_FRAME_LEN, u32_modulus. simpl. lia.
Qed.

Lemma frames_roundtrip_witness :
  write_frames (mkVecWriter [42]) [[7; 8; 9]; []] =
    inr (mkVecWriter [42; 3; 0; 0; 0; 7; 8; 9; 0; 0; 0; 0]) ∧
  read_frames 3 (mkChunkReader [[3; 0]; [0]; [0; 7; 8]; [9; 0]; [0; 0; 0]]) MAX_FRAME_LEN =
    Some ([[7; 8; 9]; []], Closed).
Proof.
  split; [reflexivity|].
  apply (frames_roundtrip (mkVecWriter [42]) (mkVecWriter [42; 3; 0; 0; 0; 7; 8; 9; 0; 0; 0; 0])
    (mkChunkReader [[3; 0]; [0]; [0; 7; 8]; [9; 0]; [0; 0; 0]]) [[7; 8; 9]; []]);
    [repeat constructor; unfold is_byte; lia|reflexivity|reflexivity].
Defined.
