(* ===== verification/Hash.v ===== *)
(** * ed2k hashing (dessplay-core/src/hash.rs)

    The streaming hash of a file: one MD4 per 9,728,000-byte block and the root
    over them ("red" variant). MD4 itself is third-party code: a function on
    byte strings and an incremental hasher whose operations have the documented
    laws ([Digest]: updates absorb bytes in order, [finalize_reset] digests what
    was absorbed and starts again). *)

From S2P Require Import Prelude Types Framing.

Definition ED2K_BLOCK_SIZE : Z := 9728000.

Record Ed2kBlockHash := mkEd2kBlockHash { block_bytes : list Z }.
Record Ed2kFileHash := mkEd2kFileHash {
  root : Ed2kHash;
  blocks : list Ed2kBlockHash;
  size_bytes : Z
}.
#[export] Instance Ed2kBlockHash_eq_dec : EqDecision Ed2kBlockHash.
Proof. solve_decision. Defined.

(** The incremental MD4 hasher. *)
Class Digest (H : Type) := {
  hasher_new : H;
  update : H → list Z → H;
  finalize : H → list Z
}.
Definition finalize_reset `{Digest H} (h : H) : list Z * H := (finalize h, hasher_new).
Class DigestLaws (H : Type) `{Digest H} (md4 : list Z → list Z) := {
  absorbed : H → list Z → Prop;
  absorbed_new : absorbed hasher_new [];
  absorbed_update h bs cs : absorbed h bs → absorbed (update h cs) (bs ++ cs);
  finalize_spec h bs : absorbed h bs → finalize h = md4 bs
}.

Section ed2k.
Context `{Digest H}.

(** The variables of [ed2k_hash_reader]'s loop. *)
Record HashState := mkHashState {
  hs_blocks : list Ed2kBlockHash;
  block_hasher : H;
  block_len : Z;
  hs_size : Z
}.
Definition hash_start : HashState := mkHashState [] hasher_new 0 0.

(** The inner loop [while !rest.is_empty()]. An iteration takes at least one
    byte, so the length of [rest] is enough fuel. *)
Fixpoint absorb (fuel : nat) (s : HashState) (rest : list Z) : option HashState :=
  if (length rest =? 0)%nat then Some s
  else
    match fuel with
    | O => None
    | S fuel =>
        let space := ED2K_BLOCK_SIZE - block_len s in
        let take_n := Z.min (Z.of_nat (length rest)) space in
        let head := take (Z.to_nat take_n) rest in
        let tail := drop (Z.to_nat take_n) rest in
        let block_hasher := update (block_hasher s) head in
        let block_len := block_len s + take_n in
        if block_len =? ED2K_BLOCK_SIZE then
          let '(digest, block_hasher) := finalize_reset block_hasher in
          absorb fuel
            (mkHashState (hs_blocks s ++ [mkEd2kBlockHash digest]) block_hasher 0 (hs_size s)) tail
        else absorb fuel (mkHashState (hs_blocks s) block_hasher block_len (hs_size s)) tail
    end.

(** The outer loop: the results of the successive reads; an empty read, or the
    end of the list, is end-of-file. *)
Fixpoint hash_loop (s : HashState) (reads : list (io_error + list Z))
    : option (io_error + HashState) :=
  match reads with
  | [] | inr [] :: _ => Some (inr s)
  | inl e :: _ => Some (inl e)
  | inr buf :: reads =>
      let s := mkHashState (hs_blocks s) (block_hasher s) (block_len s)
                 (u64_wrap (hs_size s + Z.of_nat (length buf))) in
      s ← absorb (length buf) s buf;
      hash_loop s reads
  end.

(** [root_from_blocks]. *)
Definition root_from_blocks (all : list Ed2kBlockHash) (size_bytes : Z) : Ed2kHash :=
  let combined :=
    let root_hasher := foldl (λ h b, update h (block_bytes b)) hasher_new all in
    let root_hasher :=
      if size_bytes mod ED2K_BLOCK_SIZE =? 0
      then update root_hasher (finalize hasher_new) else root_hasher in
    mkEd2kHash (finalize root_hasher) in
  match all with
  | [single] => if size_bytes <? ED2K_BLOCK_SIZE then mkEd2kHash (block_bytes single) else combined
  | _ => combined
  end.

(** [ed2k_hash_reader]. *)
Definition ed2k_hash_reader (reads : list (io_error + list Z)) : option (io_error + Ed2kFileHash) :=
  r ← hash_loop hash_start reads;
  Some (try r (λ s,
    let blocks :=
      if (0 <? block_len s) || (length (hs_blocks s) =? 0)%nat
      then hs_blocks s ++ [mkEd2kBlockHash (finalize (block_hasher s))] else hs_blocks s in
    inr (mkEd2kFileHash (root_from_blocks blocks (hs_size s)) blocks (hs_size s)))).

(** [ed2k_hash_bytes]: a slice's [Read] fills the 64 KiB buffer each time. *)
Fixpoint slice_reads (fuel : nat) (data : list Z) : list (io_error + list Z) :=
  match fuel, data with
  | S fuel, _ :: _ =>
      let n := Z.to_nat (Z.min (64 * 1024) (Z.of_nat (length data))) in
      inr (take n data) :: slice_reads fuel (drop n data)
  | _, _ => []
  end.
Definition ed2k_hash_bytes (data : list Z) : option (io_error + Ed2kFileHash) :=
  ed2k_hash_reader (slice_reads (length data) data).

(** [block_hash]. *)
Definition block_hash (bytes : list Z) : Ed2kBlockHash :=
  mkEd2kBlockHash (finalize (update hasher_new bytes)).
End ed2k.
Arguments HashState H : clear implicits.

(** ** Specification: the blocks of a byte string and the red root. *)

Definition block_of (data : list Z) (i : nat) : list Z :=
  take (Z.to_nat ED2K_BLOCK_SIZE) (drop (i * Z.to_nat ED2K_BLOCK_SIZE) data).
Definition split_blocks (data : list Z) : list (list Z) :=
  block_of data <$> seq 0 (Z.to_nat (Z.max 1 (div_ceil (Z.of_nat (length data)) ED2K_BLOCK_SIZE))).
Definition red_root (md4 : list Z → list Z) (data : list Z) : list Z :=
  let n := Z.of_nat (length data) in
  if n <? ED2K_BLOCK_SIZE then md4 data
  else md4 (concat (md4 <$> split_blocks data) ++ if n mod ED2K_BLOCK_SIZE =? 0 then md4 [] else []).

(** ** Lemmas *)

Lemma drop_concat {A} (n : nat) (full : list (list A)) tail i :
  Forall (λ b, length b = n) full → (i ≤ length full)%nat →
  drop (i * n) (concat full ++ tail) = concat (drop i full) ++ tail.
Proof.
  intros Hf. revert i. induction Hf as [|b full Hb Hf IH]; intros i Hi; simpl in Hi.
  { by replace i with 0%nat by lia. }
  destruct i as [|i]; [done|]. cbn [Nat.mul concat drop]. rewrite <-app_assoc, <-drop_drop.
  rewrite drop_app_length' by done. apply IH. lia.
Qed.

Lemma length_concat_full {A} (n : nat) (full : list (list A)) :
  Forall (λ b, length b = n) full → length (concat full) = (length full * n)%nat.
Proof. induction 1 as [|b full Hb _ IH]; simpl; [done|]. rewrite length_app. lia. Qed.

(** A byte string cut into full blocks and a shorter tail. *)
Definition cut (data : list Z) (full : list (list Z)) (tail : list Z) : Prop :=
  data = concat full ++ tail ∧
  Forall (λ b, length b = Z.to_nat ED2K_BLOCK_SIZE) full ∧
  Z.of_nat (length tail) < ED2K_BLOCK_SIZE.

Lemma block_size_pos : 0 < ED2K_BLOCK_SIZE.
Proof. done. Qed.

Lemma cut_length data full tail :
  cut data full tail →
  Z.of_nat (length data) = Z.of_nat (length full) * ED2K_BLOCK_SIZE + Z.of_nat (length tail).
Proof.
  intros (-> & Hf & _). rewrite length_app, (length_concat_full _ _ Hf).
  pose proof block_size_pos. rewrite Nat2Z.inj_add, Nat2Z.inj_mul, Z2Nat.id; lia.
Qed.

Lemma cut_mod data full tail :
  cut data full tail →
  Z.of_nat (length data) mod ED2K_BLOCK_SIZE = Z.of_nat (length tail) ∧
  Z.of_nat (length data) / ED2K_BLOCK_SIZE = Z.of_nat (length full).
Proof.
  intros Hc. pose proof (cut_length _ _ _ Hc) as Hl. destruct Hc as (_ & _ & Ht).
  pose proof block_size_pos.
  split; symmetry; [eapply Z.mod_unique_pos|eapply Z.div_unique_pos];
    rewrite ?Hl; try (rewrite Z.mul_comm; reflexivity); lia.
Qed.

Lemma split_blocks_cut data full tail :
  cut data full tail →
  split_blocks data =
    full ++ if bool_decide (tail = [] ∧ full ≠ []) then [] else [tail].
Proof.
  intros Hc. pose proof (cut_mod _ _ _ Hc) as [Hmod Hdiv].
  destruct Hc as (Hd & Hf & Ht). pose proof block_size_pos as HB.
  set (k := length full) in *.
  assert (block_of data <$> seq 0 k = full) as Hfull.
  { apply list_eq. intros i. rewrite list_lookup_fmap.
    destruct (decide (i < k)%nat) as [Hi|Hi].
    - rewrite lookup_seq_lt by done. simpl. unfold block_of.
      rewrite Hd, drop_concat by (done || lia).
      destruct (lookup_lt_is_Some_2 full i Hi) as [b Hb]. rewrite Hb.
      rewrite (drop_S full b i Hb). cbn [concat]. rewrite <-app_assoc.
      rewrite take_app_length'; [done|]. symmetry.
      rewrite Forall_lookup in Hf. by apply (Hf i).
    - rewrite lookup_seq_ge by lia. simpl. symmetry. apply lookup_ge_None_2. lia. }
  assert (block_of data k = tail) as Htail.
  { unfold block_of. rewrite Hd, drop_concat by (done || lia).
    rewrite drop_ge by lia. simpl. apply take_ge. lia. }
  assert (split_blocks data =
    block_of data <$> seq 0 (k + if bool_decide (tail = [] ∧ full ≠ []) then 0 else 1)) as ->.
  { unfold split_blocks. do 2 f_equal. unfold div_ceil. rewrite Hmod, Hdiv.
    destruct tail as [|t tail]; cbn [length].
    - rewrite (proj2 (Z.eqb_eq _ _)) by done.
      destruct full;
        [rewrite bool_decide_eq_false_2 by naive_solver|rewrite bool_decide_eq_true_2 by done];
        unfold k; cbn [length]; lia.
    - rewrite (proj2 (Z.eqb_neq _ _)) by lia. rewrite bool_decide_eq_false_2 by naive_solver. lia. }
  rewrite seq_app, fmap_app, Hfull. f_equal.
  case_bool_decide; [done|]. simpl. by rewrite Htail.
Qed.

Section ed2k_laws.
Context `{DigestLaws H md4}.

Definition hash_inv (s : HashState H) (data : list Z) : Prop :=
  ∃ full tail, cut data full tail ∧
    hs_blocks s = mkEd2kBlockHash ∘ md4 <$> full ∧
    absorbed (block_hasher s) tail ∧ block_len s = Z.of_nat (length tail).

Lemma hash_start_inv : hash_inv hash_start [].
Proof. exists [], []. split_and!; try done. apply absorbed_new. Qed.

Lemma absorb_inv fuel s rest data :
  hash_inv s data → (length rest ≤ fuel)%nat →
  ∃ s', absorb fuel s rest = Some s' ∧ hash_inv s' (data ++ rest) ∧ hs_size s' = hs_size s.
Proof.
  revert s rest data. induction fuel as [|fuel IH]; intros s rest data Hinv Hfuel.
  { destruct rest; [|simpl in Hfuel; lia]. exists s. by rewrite app_nil_r. }
  cbn [absorb]. destruct (Nat.eqb_spec (length rest) 0) as [Hz|Hz].
  { destruct rest; [|done]. exists s. by rewrite app_nil_r. }
  destruct Hinv as (full & tail & (Hd & Hf & Ht) & Hbl & Habs & Hlen).
  set (n := Z.min _ _). assert (0 < n ≤ Z.of_nat (length rest)) as Hn by lia.
  assert (data ++ rest = (data ++ take (Z.to_nat n) rest) ++ drop (Z.to_nat n) rest) as ->
    by by rewrite <-app_assoc, take_drop.
  assert (length (take (Z.to_nat n) rest) = Z.to_nat n) as Htk by (rewrite length_take; lia).
  pose proof (absorbed_update _ _ (take (Z.to_nat n) rest) Habs) as Habs'.
  destruct (Z.eqb_spec (block_len s + n) ED2K_BLOCK_SIZE) as [Heq|Hne]; cbn [finalize_reset].
  - match goal with |- context [absorb fuel ?s1 ?r1] =>
      destruct (IH s1 r1 (data ++ take (Z.to_nat n) rest)) as (s' & -> & Hs' & Hsz) end; [| |by exists s'].
    + exists (full ++ [tail ++ take (Z.to_nat n) rest]), []. unfold cut. split_and!; cbn.
      * rewrite concat_app, Hd. simpl. by rewrite !app_nil_r, app_assoc.
      * apply Forall_app. split; [done|]. apply Forall_singleton. rewrite length_app. lia.
      * apply block_size_pos.
      * by rewrite fmap_app, Hbl, (finalize_spec _ _ Habs').
      * apply absorbed_new.
      * done.
    + rewrite length_drop. lia.
  - match goal with |- context [absorb fuel ?s1 ?r1] =>
      destruct (IH s1 r1 (data ++ take (Z.to_nat n) rest)) as (s' & -> & Hs' & Hsz) end; [| |by exists s'].
    + exists full, (tail ++ take (Z.to_nat n) rest). unfold cut. split_and!; cbn.
      * by rewrite Hd, app_assoc.
      * done.
      * rewrite length_app. lia.
      * done.
      * done.
      * rewrite length_app. lia.
    + rewrite length_drop. lia.
Qed.

(** Non-empty reads [cs], whatever comes after them. *)
Lemma hash_loop_inv s (cs : list (list Z)) data rest :
  hash_inv s data → hs_size s = Z.of_nat (length data) →
  Forall (λ c, c ≠ []) cs → Z.of_nat (length (data ++ concat cs)) < u64_modulus →
  ∃ s', hash_loop s ((inr <$> cs) ++ rest) = hash_loop s' rest ∧
        hash_inv s' (data ++ concat cs) ∧
        hs_size s' = Z.of_nat (length (data ++ concat cs)).
Proof.
  revert s data. induction cs as [|c cs IH]; intros s data Hinv Hsz Hne Hlt.
  { exists s. simpl. by rewrite app_nil_r. }
  apply Forall_cons in Hne as [Hc Hne]. destruct c as [|b c]; [done|]. set (bc := b :: c) in *.
  rewrite fmap_cons. cbn [app hash_loop]. unfold bc at 1. fold bc.
  set (s0 := mkHashState _ _ _ _).
  assert (hash_inv s0 data) as Hinv0 by done.
  destruct (absorb_inv (length bc) s0 bc data Hinv0 ltac:(lia)) as (s1 & -> & Hinv1 & Hsz1).
  cbn [mbind option_bind]. cbn [concat] in Hlt |- *. rewrite app_assoc in Hlt |- *.
  apply IH; [done| |done|done].
  rewrite Hsz1. unfold s0. cbn [hs_size]. rewrite Hsz, length_app. unfold u64_wrap.
  rewrite !length_app in Hlt. rewrite Z.mod_small; lia.
Qed.

Lemma absorbed_blocks (bs : list Ed2kBlockHash) h d :
  absorbed h d →
  absorbed (foldl (λ h b, update h (block_bytes b)) h bs) (d ++ concat (block_bytes <$> bs)).
Proof.
  revert h d. induction bs as [|b bs IH]; intros h d Hh; simpl; [by rewrite app_nil_r|].
  rewrite app_assoc. by apply IH, absorbed_update.
Qed.

Lemma root_of_split data full tail :
  cut data full tail →
  root_from_blocks (mkEd2kBlockHash ∘ md4 <$> split_blocks data) (Z.of_nat (length data)) =
    mkEd2kHash (red_root md4 data).
Proof.
  intros Hc. pose proof (cut_mod _ _ _ Hc) as [Hmod Hdiv]. pose proof (cut_length _ _ _ Hc) as Hlen.
  pose proof (split_blocks_cut _ _ _ Hc) as Hs. unfold red_root, root_from_blocks.
  pose proof (absorbed_blocks (mkEd2kBlockHash ∘ md4 <$> split_blocks data) hasher_new []
    absorbed_new) as Hab.
  rewrite <-list_fmap_compose in Hab.
  change (block_bytes ∘ (mkEd2kBlockHash ∘ md4)) with md4 in Hab. simpl app in Hab.
  pose proof (finalize_spec _ _ absorbed_new) as Hempty.
  set (all := mkEd2kBlockHash ∘ md4 <$> split_blocks data) in *. cbn zeta.
  set (h := foldl _ _ _) in *.
  set (aligned := Z.of_nat (length data) mod ED2K_BLOCK_SIZE =? 0).
  assert (mkEd2kHash (finalize (if aligned then update h (finalize hasher_new) else h)) =
    mkEd2kHash (md4 (concat (md4 <$> split_blocks data) ++ if aligned then md4 [] else [])))
    as Hcomb.
  { f_equal. destruct aligned; [|by rewrite app_nil_r, (finalize_spec _ _ Hab)].
    rewrite Hempty. apply finalize_spec. by apply absorbed_update. }
  destruct Hc as (Hd & Hf & Ht). pose proof block_size_pos.
  destruct (Z.ltb_spec (Z.of_nat (length data)) ED2K_BLOCK_SIZE) as [Hlt|Hge].
  - assert (full = []) as -> by (destruct full; [done|simpl in Hlen; lia]).
    simpl in Hd. subst tail. unfold all. rewrite Hs, bool_decide_eq_false_2 by naive_solver. done.
  - rewrite <-Hcomb. by destruct all as [|? [|]].
Qed.

Lemma ed2k_hash_reader_spec (cs : list (list Z)) :
  Forall (λ c, c ≠ []) cs → Z.of_nat (length (concat cs)) < u64_modulus →
  ed2k_hash_reader (inr <$> cs) = Some (inr (mkEd2kFileHash
    (mkEd2kHash (red_root md4 (concat cs)))
    (mkEd2kBlockHash ∘ md4 <$> split_blocks (concat cs)) (Z.of_nat (length (concat cs))))).
Proof.
  intros Hne Hlt.
  destruct (hash_loop_inv hash_start cs [] [] hash_start_inv eq_refl Hne Hlt)
    as (s & Hl & Hinv & Hsz).
  rewrite app_nil_r in Hl. unfold ed2k_hash_reader. rewrite Hl. cbn [hash_loop mbind option_bind try]. simpl app in *.
  destruct Hinv as (full & tail & Hc & Hbl & Habs & Hlen).
  assert ((if (0 <? block_len s) || (length (hs_blocks s) =? 0)%nat
     then hs_blocks s ++ [mkEd2kBlockHash (finalize (block_hasher s))] else hs_blocks s) =
     mkEd2kBlockHash ∘ md4 <$> split_blocks (concat cs)) as ->.
  { rewrite (split_blocks_cut _ _ _ Hc), fmap_app, <-Hbl, (finalize_spec _ _ Habs), Hlen.
    rewrite Hbl, length_fmap. destruct tail as [|t tail], full as [|f full]; cbn [length orb];
      rewrite ?bool_decide_eq_false_2 by naive_solver; try done.
    rewrite bool_decide_eq_true_2 by done. by rewrite app_nil_r. }
  rewrite Hsz. by rewrite (root_of_split _ _ _ Hc).
Qed.
End ed2k_laws.

Lemma slice_reads_spec fuel (data : list Z) :
  (length data ≤ fuel)%nat →
  ∃ cs, slice_reads fuel data = inr <$> cs ∧ Forall (λ c, c ≠ []) cs ∧ concat cs = data.
Proof.
  revert data. induction fuel as [|fuel IH]; intros data Hlen.
  { exists []. by destruct data; [|simpl in Hlen; lia]. }
  destruct data as [|b data]; [by exists []|]. cbn [slice_reads].
  set (n := Z.to_nat _). assert (0 < n)%nat as Hn by (subst n; cbn [length]; lia).
  destruct (IH (drop n (b :: data))) as (cs & -> & Hne & Hcs).
  { rewrite length_drop. lia. }
  exists (take n (b :: data) :: cs). split_and!; [done| |cbn [concat]; by rewrite Hcs, take_drop].
  constructor; [|done]. by destruct n; [lia|].
Qed.

(** ** Statements *)

(** C39. However a stream's reads split a file, [ed2k_hash_reader] returns (its
    loops terminate) the MD4 of each 9,728,000-byte block and the red root over
    them; hashing the bytes in memory gives the same; each entry is what
    [block_hash] computes from that block alone, so a downloaded block can be
    checked by itself; a failing read is the result. *)
Theorem ed2k_hash_correct `{DigestLaws H md4} (cs : list (list Z)) :
  Forall (λ c, c ≠ []) cs → Z.of_nat (length (concat cs)) < u64_modulus →
  let data := concat cs in
  let hash := mkEd2kFileHash (mkEd2kHash (red_root md4 data))
    (mkEd2kBlockHash ∘ md4 <$> split_blocks data) (Z.of_nat (length data)) in
  ed2k_hash_reader (inr <$> cs) = Some (inr hash) ∧
  ed2k_hash_bytes data = Some (inr hash) ∧
  (∀ i h, blocks hash !! i = Some h → h = block_hash (block_of data i)) ∧
  (∀ e rest, ed2k_hash_reader ((inr <$> cs) ++ inl e :: rest) = Some (inl e)).
Proof.
  intros Hne Hlt data hash. split_and!.
  - by apply ed2k_hash_reader_spec.
  - unfold ed2k_hash_bytes.
    destruct (slice_reads_spec (length data) data ltac:(done)) as (cs' & -> & Hne' & Hcs').
    unfold hash. rewrite <-Hcs'. apply ed2k_hash_reader_spec; [done|]. by rewrite Hcs'.
  - intros i h. unfold hash. cbn [blocks]. rewrite list_lookup_fmap. unfold split_blocks.
    rewrite list_lookup_fmap. intros (b & (j & Hj & ->)%fmap_Some & ->)%fmap_Some.
    apply lookup_seq in Hj as [-> _]. unfold block_hash. simpl. f_equal. symmetry.
    apply finalize_spec. apply (absorbed_update _ []), absorbed_new.
  - intros e rest. unfold ed2k_hash_reader.
    destruct (hash_loop_inv hash_start cs [] (inl e :: rest) hash_start_inv eq_refl Hne Hlt)
      as (s & -> & _). done.
Qed.

(** A hasher that keeps the bytes, with a stand-in digest. *)
Definition toy_digest (bs : list Z) : list Z := [Z.of_nat (length bs); foldr Z.add 7 bs].
#[export] Instance toy_Digest : Digest (list Z) :=
  {| hasher_new := []; update := app; finalize := toy_digest |}.
#[export] Program Instance toy_laws : DigestLaws (list Z) toy_digest :=
  {| absorbed h bs := h = bs |}.
Solve Obligations with naive_solver.

Lemma ed2k_hash_correct_witness :
  let hash := mkEd2kFileHash (mkEd2kHash [3; 13]) [mkEd2kBlockHash [3; 13]] 3 in
  ed2k_hash_reader (inr <$> [[1]; [2; 3]]) = Some (inr hash) ∧
  let cs := [[1]; [2; 3]] in
  ed2k_hash_reader (inr <$> cs) =
    Some (inr (mkEd2kFileHash (mkEd2kHash (red_root toy_digest (concat cs)))
      (mkEd2kBlockHash ∘ toy_digest <$> split_blocks (concat cs))
      (Z.of_nat (length (concat cs))))).
Proof.
  split; [vm_compute; reflexivity|]. intros cs.
  refine (proj1 (ed2k_hash_correct (md4 := toy_digest) cs _ _));
    [by repeat constructor|unfold u64_modulus; simpl; lia].
Defined.
