(* ===== verification/Transfer.v ===== *)
(** * File-transfer vocabulary (dessplay-core/src/net/transfer.rs)

    Chunks of a file (38 to an ed2k block), the bitfield of the chunks a peer
    holds, the peer messages and the relay envelope. An out-of-range byte index
    panics in the code: the bitfield operations return [None] there. *)

From S2P Require Import Prelude Types Hash.

Abbreviation PeerId := UserId (only parsing).

Definition CHUNKS_PER_BLOCK : Z := 38.
Definition CHUNK_SIZE : Z := ED2K_BLOCK_SIZE / CHUNKS_PER_BLOCK.

(** [chunk_count], [chunk_range]. *)
Definition chunk_count (size_bytes : Z) : Z := u32_wrap (div_ceil size_bytes CHUNK_SIZE).
Definition chunk_range (index size_bytes : Z) : Z * Z :=
  let start := index * CHUNK_SIZE in
  let stop := Z.min (start + CHUNK_SIZE) size_bytes in
  (start, stop).

(** [Bitfield]: bytes, LSB-first, and the logical length in bits. *)
Record Bitfield := mkBitfield { bits : list Z; bf_len : Z }.

Definition bf_new (len : Z) : Bitfield :=
  mkBitfield (replicate (Z.to_nat (div_ceil len 8)) 0) len.
Definition bf_is_empty (b : Bitfield) : bool := bf_len b =? 0.

(** [get]. *)
Definition get (b : Bitfield) (index : Z) : option bool :=
  if bf_len b <=? index then Some false
  else
    let '(byte, bit) := (Z.to_nat (index / 8), index mod 8) in
    x ← bits b !! byte;
    Some (negb (Z.land x (Z.shiftl 1 bit) =? 0)).

(** [set]. *)
Definition set (b : Bitfield) (index : Z) : option Bitfield :=
  if bf_len b <=? index then Some b
  else
    let '(byte, bit) := (Z.to_nat (index / 8), index mod 8) in
    x ← bits b !! byte;
    Some (mkBitfield (<[byte := Z.lor x (Z.shiftl 1 bit)]> (bits b)) (bf_len b)).

(** [unset]; [!] on a [u8] flips its eight bits. *)
Definition u8_not (x : Z) : Z := Z.lxor x 255.
Definition unset (b : Bitfield) (index : Z) : option Bitfield :=
  if bf_len b <=? index then Some b
  else
    let '(byte, bit) := (Z.to_nat (index / 8), index mod 8) in
    x ← bits b !! byte;
    Some (mkBitfield (<[byte := Z.land x (u8_not (Z.shiftl 1 bit))]> (bits b)) (bf_len b)).

(** [u8::count_ones], [count_ones], [is_complete]. *)
Definition byte_bits (x : Z) : list bool := Z.testbit x <$> seqZ 0 8.
Definition count_true (l : list bool) : Z := Z.of_nat (length (filter (λ b, b = true) l)).
Definition u8_count_ones (x : Z) : Z := count_true (byte_bits x).
Definition count_ones (b : Bitfield) : Z :=
  u32_wrap (foldr Z.add 0 (u8_count_ones <$> bits b)).
Definition is_complete (b : Bitfield) : bool := count_ones b =? bf_len b.

(** [is_valid_for]. *)
Definition is_valid_for (b : Bitfield) (expected_len : Z) : bool :=
  if negb (bf_len b =? expected_len)
     || negb (Z.of_nat (length (bits b)) =? div_ceil expected_len 8) then false
  else
    let used := expected_len mod 8 in
    match last (bits b) with
    | Some last_byte =>
        if negb (used =? 0) then
          let mask := u8_not (Z.shiftl 1 used - 1) in
          Z.land last_byte mask =? 0
        else true
    | None => true
    end.

Inductive PeerMessage :=
| FileAvailabilityMsg (file : Ed2kHash) (bitfield : Bitfield)
| BlockHashRequest (file : Ed2kHash)
| BlockHashes (file : Ed2kHash) (hashes : list Ed2kBlockHash)
| ChunkRequest (file : Ed2kHash) (chunks : list Z)
| ChunkData (file : Ed2kHash) (index : Z) (data : list Z)
| Cancel (file : Ed2kHash) (chunks : list Z)
| CannotServe (file : Ed2kHash).

Inductive RelayEnvelope :=
| Hello
| Forward (to : PeerId) (message : list Z)
| Forwarded (from : PeerId) (message : list Z)
| OpenTransfer (to : PeerId) (file : Ed2kHash)
| TransferFrom (from : PeerId) (file : Ed2kHash).

(** ** Lemmas *)

(** *** Bits of a byte *)

Lemma test_bit x k : 0 ≤ k → negb (Z.land x (Z.shiftl 1 k) =? 0) = Z.testbit x k.
Proof.
  intros Hk. rewrite Z.shiftl_1_l. destruct (Z.testbit x k) eqn:E.
  - apply negb_true_iff, Z.eqb_neq. intros Hz. apply (f_equal (λ z, Z.testbit z k)) in Hz.
    rewrite Z.land_spec, E, Z.pow2_bits_true, Z.bits_0 in Hz by done. done.
  - apply negb_false_iff, Z.eqb_eq, Z.bits_inj_iff'. intros j Hj.
    rewrite Z.land_spec, Z.bits_0. destruct (decide (j = k)) as [->|]; [by rewrite E|].
    rewrite Z.pow2_bits_false by done. apply andb_false_r.
Qed.

Lemma set_bit x k j : 0 ≤ k → Z.testbit (Z.lor x (Z.shiftl 1 k)) j = Z.testbit x j || (j =? k).
Proof. intros Hk. rewrite Z.shiftl_1_l, Z.lor_spec, Z.pow2_bits_eqb, Z.eqb_sym by done. done. Qed.

Lemma u8_not_bits x j : 0 ≤ j < 8 → Z.testbit (u8_not x) j = negb (Z.testbit x j).
Proof.
  intros Hj. unfold u8_not. rewrite Z.lxor_spec. change 255 with (Z.ones 8).
  rewrite Z.ones_spec_low by lia. by rewrite xorb_true_r.
Qed.

Lemma unset_bit x k j :
  0 ≤ k → 0 ≤ j < 8 →
  Z.testbit (Z.land x (u8_not (Z.shiftl 1 k))) j = Z.testbit x j && negb (j =? k).
Proof.
  intros Hk Hj. rewrite Z.land_spec, u8_not_bits, Z.shiftl_1_l, Z.pow2_bits_eqb, Z.eqb_sym by done.
  done.
Qed.

Lemma byte_high_bits x k : Framing.is_byte x → 8 ≤ k → Z.testbit x k = false.
Proof.
  intros [Hx1 Hx2] Hk. destruct (decide (x = 0)) as [->|]; [apply Z.bits_0|].
  apply Z.bits_above_log2; [done|]. apply Z.log2_lt_pow2; [lia|].
  pose proof (Z.pow_le_mono_r 2 8 k). lia.
Qed.

Lemma is_byte_bits x : 0 ≤ x → (∀ k, 8 ≤ k → Z.testbit x k = false) → Framing.is_byte x.
Proof.
  intros Hx Hk. split; [done|]. change 256 with (2 ^ 8).
  destruct (decide (x = 0)) as [->|]; [done|]. apply Z.log2_lt_pow2; [lia|].
  apply Z.nle_gt. intros Hle. pose proof (Z.bit_log2 x ltac:(lia)). by rewrite Hk in *.
Qed.

(** Padding: the bits of [x] from [used] up are zero. *)
Lemma padding_clear x used :
  Framing.is_byte x → 0 ≤ used < 8 →
  (Z.land x (u8_not (Z.shiftl 1 used - 1)) =? 0) = true ↔
    ∀ k, used ≤ k → Z.testbit x k = false.
Proof.
  intros Hx Hu. replace (Z.shiftl 1 used - 1) with (Z.ones used)
    by (rewrite Z.ones_equiv, Z.shiftl_1_l; lia).
  rewrite Z.eqb_eq. split.
  - intros Hz k Hk. destruct (decide (8 ≤ k)) as [|Hk8]; [by apply byte_high_bits|].
    apply (f_equal (λ z, Z.testbit z k)) in Hz.
    rewrite Z.land_spec, u8_not_bits, Z.ones_spec_high, Z.bits_0 in Hz by lia.
    by rewrite andb_true_r in Hz.
  - intros Hk. apply Z.bits_inj_iff'. intros j Hj. rewrite Z.land_spec, Z.bits_0.
    destruct (decide (used ≤ j)); [by rewrite Hk|]. rewrite u8_not_bits, Z.ones_spec_low by lia.
    apply andb_false_r.
Qed.

(** *** A byte list as an infinite bit string *)

Definition bit_of (l : list Z) (i : Z) : bool :=
  match l !! Z.to_nat (i / 8) with Some x => Z.testbit x (i mod 8) | None => false end.

Lemma bit_of_cons x l i : 0 ≤ i → bit_of (x :: l) (8 + i) = bit_of l i.
Proof.
  intros Hi. unfold bit_of. replace ((8 + i) / 8) with (1 + i / 8) by (Z.to_euclidean_division_equations; lia).
  replace ((8 + i) mod 8) with (i mod 8) by (Z.to_euclidean_division_equations; lia).
  assert (0 ≤ i / 8) by (apply Z.div_pos; lia).
  replace (Z.to_nat (1 + i / 8)) with (S (Z.to_nat (i / 8))) by lia. done.
Qed.

Lemma bit_of_beyond l i : 8 * Z.of_nat (length l) ≤ i → bit_of l i = false.
Proof.
  intros Hi. unfold bit_of. rewrite lookup_ge_None_2; [done|].
  assert (Z.of_nat (length l) ≤ i / 8) by (apply Z.div_le_lower_bound; lia). lia.
Qed.

Lemma concat_byte_bits l :
  concat (byte_bits <$> l) = bit_of l <$> seqZ 0 (8 * Z.of_nat (length l)).
Proof.
  induction l as [|x l IH]; [done|].
  rewrite fmap_cons. cbn [concat length]. rewrite IH.
  replace (8 * Z.of_nat (S (length l))) with (8 + 8 * Z.of_nat (length l)) by lia.
  rewrite seqZ_app, <-(fmap_add_seqZ 8 0), fmap_app, <-list_fmap_compose by lia.
  apply (f_equal2 app).
  - unfold byte_bits. apply list_fmap_ext. intros i k Hk. apply lookup_seqZ in Hk as [-> Hk].
    unfold bit_of. rewrite Z.div_small, Z.mod_small by lia. done.
  - apply list_fmap_ext. intros i k Hk. apply lookup_seqZ in Hk as [-> Hk]. cbn [compose].
    symmetry. apply bit_of_cons. lia.
Qed.

Lemma count_true_app l k : count_true (l ++ k) = count_true l + count_true k.
Proof. unfold count_true. rewrite filter_app, length_app. lia. Qed.
Lemma sum_counts l : foldr Z.add 0 (u8_count_ones <$> l) = count_true (concat (byte_bits <$> l)).
Proof.
  induction l as [|x l IH]; [done|]. rewrite !fmap_cons. cbn [foldr concat].
  by rewrite IH, count_true_app.
Qed.
Lemma count_true_bound l : 0 ≤ count_true l ≤ Z.of_nat (length l).
Proof. unfold count_true. pose proof (length_filter (λ b, b = true) l). lia. Qed.
Lemma count_true_false l : (∀ b, b ∈ l → b = false) → count_true l = 0.
Proof.
  induction l as [|b l IH]; intros Hl; [done|]. unfold count_true.
  rewrite filter_cons_False by (rewrite (Hl b) by left; done). apply IH. intros; apply Hl. by right.
Qed.

(** *** Valid bitfields *)

Record valid (b : Bitfield) (n : Z) : Prop := {
  valid_len : bf_len b = n;
  valid_u8 : Forall Framing.is_byte (bits b);
  valid_bytes : Z.of_nat (length (bits b)) = div_ceil n 8;
  valid_padding i : n ≤ i → bit_of (bits b) i = false
}.

Lemma div_ceil_8 n : 0 ≤ n → n ≤ 8 * div_ceil n 8 < n + 8.
Proof.
  intros Hn. unfold div_ceil. destruct (Z.eqb_spec (n mod 8) 0);
    Z.to_euclidean_division_equations; lia.
Qed.

Lemma bit_of_last l x i :
  last l = Some x → 0 ≤ i → 8 * (Z.of_nat (length l) - 1) ≤ i < 8 * Z.of_nat (length l) →
  bit_of l i = Z.testbit x (i mod 8).
Proof.
  intros Hl Hi0 Hi. unfold bit_of. rewrite last_lookup in Hl.
  replace (Z.to_nat (i / 8)) with (pred (length l)); [by rewrite Hl|].
  assert (i / 8 = Z.of_nat (length l) - 1) as ->
    by (Z.to_euclidean_division_equations; lia). lia.
Qed.

Lemma is_valid_for_iff b n :
  0 ≤ n → Forall Framing.is_byte (bits b) → is_valid_for b n = true ↔ valid b n.
Proof.
  intros Hn Hu. unfold is_valid_for. pose proof (div_ceil_8 n Hn) as Hc.
  destruct (Z.eqb_spec (bf_len b) n) as [Hl|Hl]; [|split; [done|by intros []]].
  destruct (Z.eqb_spec (Z.of_nat (length (bits b))) (div_ceil n 8)) as [Hb|Hb];
    [|split; [done|by intros []]]. cbn [negb orb].
  assert (∀ x, last (bits b) = Some x → n mod 8 ≠ 0 →
    (∀ k, n mod 8 ≤ k → Z.testbit x k = false) ↔ (∀ i, n ≤ i → bit_of (bits b) i = false)) as Hpad.
  { intros x Hx Hmod. pose proof (Z.mod_pos_bound n 8 ltac:(lia)).
    assert (8 * (Z.of_nat (length (bits b)) - 1) = n - n mod 8) as Hbase.
    { rewrite Hb in *. unfold div_ceil in *. rewrite (proj2 (Z.eqb_neq _ _)) in * by done.
      pose proof (Z.div_mod n 8). lia. }
    split; intros Hk i Hi.
    - destruct (decide (8 * Z.of_nat (length (bits b)) ≤ i)); [by apply bit_of_beyond|].
      rewrite (bit_of_last _ x) by (done || lia). apply Hk.
      Z.to_euclidean_division_equations; lia.
    - destruct (decide (8 ≤ i)).
      + apply byte_high_bits; [|done]. rewrite Forall_forall in Hu. apply Hu.
        apply last_Some in Hx as [l' ->]. apply elem_of_app. right. left.
      + specialize (Hk (n - n mod 8 + i) ltac:(lia)). rewrite (bit_of_last _ x) in Hk by (done || lia).
        by replace ((n - n mod 8 + i) mod 8) with i in Hk by (Z.to_euclidean_division_equations; lia). }
  destruct (last (bits b)) as [x|] eqn:Hx.
  - assert (Framing.is_byte x) as Hxb.
    { rewrite Forall_forall in Hu. apply Hu. apply last_Some in Hx as [l' ->].
      apply elem_of_app. right. left. }
    pose proof (Z.mod_pos_bound n 8 ltac:(lia)) as Hm.
    destruct (Z.eqb_spec (n mod 8) 0) as [Hz|Hz]; cbn [negb].
    + split; [intros _|done]. split; [done..|]. intros i Hi. apply bit_of_beyond.
      unfold div_ceil in Hb. rewrite (proj2 (Z.eqb_eq _ _) Hz) in Hb.
      pose proof (Z.div_mod n 8). lia.
    + rewrite (padding_clear x (n mod 8) Hxb Hm), (Hpad x eq_refl Hz).
      split; [intros; by split|by intros []].
  - apply last_None in Hx. rewrite Hx in *. split; [intros _|done].
    split; rewrite ?Hx; [done..|]. intros i Hi. apply bit_of_beyond. simpl in *. lia.
Qed.

Section valid_bitfield.
Context (b : Bitfield) (n : Z) (Hn : 0 ≤ n < u32_modulus) (Hv : valid b n).

Lemma byte_in_range i : 0 ≤ i < n → is_Some (bits b !! Z.to_nat (i / 8)).
Proof.
  intros Hi. apply lookup_lt_is_Some_2. pose proof (valid_bytes _ _ Hv).
  pose proof (div_ceil_8 n ltac:(lia)).
  assert (i / 8 < Z.of_nat (length (bits b))) by (apply Z.div_lt_upper_bound; lia). lia.
Qed.

Lemma get_valid i : 0 ≤ i → get b i = Some (bit_of (bits b) i).
Proof.
  intros Hi. unfold get. rewrite (valid_len _ _ Hv).
  destruct (Z.leb_spec n i) as [Hni|Hni]; [by rewrite (valid_padding _ _ Hv)|].
  destruct (byte_in_range i ltac:(lia)) as [x Hx]. unfold bit_of. rewrite Hx. simpl.
  rewrite test_bit; [done|]. by apply Z.mod_pos_bound.
Qed.

(** Replacing the byte of bit [i] by one that differs in that bit only. *)
Lemma bit_of_insert i x y v j :
  0 ≤ i → 0 ≤ j → bits b !! Z.to_nat (i / 8) = Some x →
  (∀ k, 0 ≤ k < 8 → Z.testbit y k = if decide (k = i mod 8) then v else Z.testbit x k) →
  bit_of (<[Z.to_nat (i / 8) := y]> (bits b)) j =
    if decide (j = i) then v else bit_of (bits b) j.
Proof.
  intros Hi Hj Hx Hy. unfold bit_of.
  pose proof (Z.mod_pos_bound j 8 ltac:(lia)) as Hjm.
  pose proof (Z.mod_pos_bound i 8 ltac:(lia)) as Him.
  pose proof (Z.div_mod i 8 ltac:(lia)) as Hdi. pose proof (Z.div_mod j 8 ltac:(lia)) as Hdj.
  assert (0 ≤ i / 8 ∧ 0 ≤ j / 8) as [? ?] by (split; apply Z.div_pos; lia).
  destruct (decide (i / 8 = j / 8)) as [He|He].
  - rewrite <-He. rewrite list_lookup_insert_eq by (by eapply lookup_lt_Some).
    rewrite Hx, Hy by done. destruct (decide (j mod 8 = i mod 8)), (decide (j = i)); try done; lia.
  - rewrite list_lookup_insert_ne by lia. destruct (decide (j = i)); [subst; lia|done].
Qed.

Lemma valid_insert i y x v :
  0 ≤ i < n → bits b !! Z.to_nat (i / 8) = Some x → Framing.is_byte y →
  (∀ k, 0 ≤ k < 8 → Z.testbit y k = if decide (k = i mod 8) then v else Z.testbit x k) →
  valid (mkBitfield (<[Z.to_nat (i / 8) := y]> (bits b)) (bf_len b)) n.
Proof.
  intros Hi Hx Hy Hbits. destruct Hv as [Hl Hu Hb Hp]. split; cbn [bits bf_len].
  - done.
  - by apply Forall_insert.
  - by rewrite length_insert.
  - intros j Hj. rewrite (bit_of_insert i x y v j) by (done || lia).
    rewrite decide_False by lia. by apply Hp.
Qed.

Lemma set_valid i :
  0 ≤ i → ∃ b', set b i = Some b' ∧ valid b' n ∧
    ∀ j, 0 ≤ j → bit_of (bits b') j = bit_of (bits b) j || (j =? i) && (i <? n).
Proof.
  intros Hi. unfold set. rewrite (valid_len _ _ Hv).
  destruct (Z.leb_spec n i) as [Hni|Hni].
  { exists b. split_and!; [done..|]. intros j Hj. rewrite (proj2 (Z.ltb_ge _ _)) by lia.
    by rewrite andb_false_r, orb_false_r. }
  destruct (byte_in_range i ltac:(lia)) as [x Hx]. rewrite Hx. simpl.
  pose proof (Z.mod_pos_bound i 8 ltac:(lia)) as Him.
  set (y := Z.lor x _).
  assert (∀ k, 0 ≤ k < 8 →
    Z.testbit y k = if decide (k = i mod 8) then true else Z.testbit x k) as Hy.
  { intros k Hk. unfold y. rewrite set_bit by lia. destruct (Z.eqb_spec k (i mod 8)) as [->|].
    - rewrite decide_True by done. apply orb_true_r.
    - rewrite decide_False by done. apply orb_false_r. }
  assert (Framing.is_byte x) as Hxb by (eapply Forall_lookup_1; [apply (valid_u8 _ _ Hv)|done]).
  eexists. split; [done|]. split.
  - rewrite <-(valid_len _ _ Hv). rewrite (valid_len _ _ Hv) at 2.
    apply (valid_insert i y x true); [lia|done| |done]. apply is_byte_bits.
    + unfold y. apply Z.lor_nonneg. split; [apply Hxb|]. rewrite Z.shiftl_1_l. lia.
    + intros k Hk. unfold y. rewrite set_bit, byte_high_bits by (done || lia).
      apply Z.eqb_neq. lia.
  - intros j Hj. cbn [bits]. rewrite (bit_of_insert i x y true j) by (done || lia).
    rewrite (proj2 (Z.ltb_lt _ _)) by lia. rewrite andb_true_r.
    destruct (Z.eqb_spec j i), (decide (j = i)); try done; by rewrite ?orb_true_r, ?orb_false_r.
Qed.

Lemma unset_valid i :
  0 ≤ i → ∃ b', unset b i = Some b' ∧ valid b' n ∧
    ∀ j, 0 ≤ j → bit_of (bits b') j = bit_of (bits b) j && negb (j =? i).
Proof.
  intros Hi. unfold unset. rewrite (valid_len _ _ Hv).
  destruct (Z.leb_spec n i) as [Hni|Hni].
  { exists b. split_and!; [done..|]. intros j Hj. destruct (Z.eqb_spec j i) as [->|].
    - by rewrite (valid_padding _ _ Hv).
    - by rewrite andb_true_r. }
  destruct (byte_in_range i ltac:(lia)) as [x Hx]. rewrite Hx. simpl.
  pose proof (Z.mod_pos_bound i 8 ltac:(lia)) as Him.
  set (y := Z.land x _).
  assert (∀ k, 0 ≤ k < 8 →
    Z.testbit y k = if decide (k = i mod 8) then false else Z.testbit x k) as Hy.
  { intros k Hk. unfold y. rewrite unset_bit by lia. destruct (Z.eqb_spec k (i mod 8)) as [->|].
    - rewrite decide_True by done. apply andb_false_r.
    - rewrite decide_False by done. apply andb_true_r. }
  assert (Framing.is_byte x) as Hxb by (eapply Forall_lookup_1; [apply (valid_u8 _ _ Hv)|done]).
  eexists. split; [done|]. split.
  - rewrite <-(valid_len _ _ Hv). rewrite (valid_len _ _ Hv) at 2.
    apply (valid_insert i y x false); [lia|done| |done]. apply is_byte_bits.
    + unfold y. apply Z.land_nonneg. left. apply Hxb.
    + intros k Hk. unfold y. by rewrite Z.land_spec, byte_high_bits by (done || lia).
  - intros j Hj. cbn [bits]. rewrite (bit_of_insert i x y false j) by (done || lia).
    destruct (Z.eqb_spec j i), (decide (j = i)); try done; by rewrite ?andb_true_r, ?andb_false_r.
Qed.

(** The number of chunks a valid field counts. *)
Lemma count_valid :
  count_ones b = count_true (bit_of (bits b) <$> seqZ 0 n) ∧ 0 ≤ count_ones b ≤ n.
Proof.
  unfold count_ones. rewrite sum_counts, concat_byte_bits, (valid_bytes _ _ Hv).
  pose proof (div_ceil_8 n ltac:(lia)) as Hc.
  replace (8 * div_ceil n 8) with (n + (8 * div_ceil n 8 - n)) by lia.
  rewrite seqZ_app, fmap_app, count_true_app by lia.
  rewrite (count_true_false (_ <$> seqZ (0 + n) _)).
  2: { intros v (i & -> & Hi)%list_elem_of_fmap. apply elem_of_seqZ in Hi.
       apply (valid_padding _ _ Hv). lia. }
  rewrite Z.add_0_r. pose proof (count_true_bound (bit_of (bits b) <$> seqZ 0 n)) as Hb.
  rewrite length_fmap, length_seqZ in Hb. unfold u32_wrap. rewrite Z.mod_small by lia. lia.
Qed.
End valid_bitfield.

Lemma bf_new_valid n : 0 ≤ n → valid (bf_new n) n.
Proof.
  intros Hn. pose proof (div_ceil_8 n Hn) as Hc. split; cbn [bf_new bits bf_len].
  - done.
  - apply Forall_replicate. unfold Framing.is_byte. lia.
  - rewrite length_replicate. lia.
  - intros i Hi. unfold bit_of. destruct (_ !! _) as [x|] eqn:E; [|done].
    apply lookup_replicate in E as [-> _]. apply Z.bits_0.
Qed.

(** The operations on a bitfield, and the set of chunks they describe. *)
Inductive bit_op := OpSet (i : Z) | OpUnset (i : Z).
Definition bit_op_index (o : bit_op) : Z := match o with OpSet i | OpUnset i => i end.
Definition run_bit_op (b : Bitfield) (o : bit_op) : option Bitfield :=
  match o with OpSet i => set b i | OpUnset i => unset b i end.
Definition run_bit_ops (b : Bitfield) (os : list bit_op) : option Bitfield :=
  foldl (λ b o, b ← b; run_bit_op b o) (Some b) os.
Definition chunks_of_op (n : Z) (have : gset Z) (o : bit_op) : gset Z :=
  match o with
  | OpSet i => if bool_decide (i < n) then {[i]} ∪ have else have
  | OpUnset i => have ∖ {[i]}
  end.
Definition chunks_of_ops (n : Z) (os : list bit_op) : gset Z := foldl (chunks_of_op n) ∅ os.

(** [b] is a valid field of length [n] whose set bits are [have]. *)
Definition represents (b : Bitfield) (n : Z) (have : gset Z) : Prop :=
  valid b n ∧ (∀ i, 0 ≤ i → bit_of (bits b) i = bool_decide (i ∈ have)) ∧
  (∀ i, i ∈ have → 0 ≤ i < n).

Lemma represents_new n : 0 ≤ n → represents (bf_new n) n ∅.
Proof.
  intros Hn. split_and!; [by apply bf_new_valid| |set_solver]. intros i Hi.
  rewrite bool_decide_eq_false_2 by set_solver. unfold bit_of. cbn [bf_new bits].
  destruct (_ !! _) as [x|] eqn:E; [|done]. apply lookup_replicate in E as [-> _]. apply Z.bits_0.
Qed.

Lemma represents_op b n have o :
  0 ≤ n < u32_modulus → 0 ≤ bit_op_index o → represents b n have →
  ∃ b', run_bit_op b o = Some b' ∧ represents b' n (chunks_of_op n have o).
Proof.
  intros Hn Ho (Hv & Hbits & Hsub). destruct o as [i|i]; simpl in *.
  - destruct (set_valid b n Hn Hv i Ho) as (b' & Hs & Hv' & Hb'). exists b'.
    unfold represents. split_and!; [done|done| |].
    + intros j Hj. rewrite Hb', Hbits by done. apply eq_true_iff_eq.
      rewrite orb_true_iff, andb_true_iff, Z.eqb_eq, Z.ltb_lt, !bool_decide_eq_true.
      case_bool_decide; set_solver.
    + intros j. case_bool_decide; [|apply Hsub].
      intros [->%elem_of_singleton|]%elem_of_union; [lia|by apply Hsub].
  - destruct (unset_valid b n Hn Hv i Ho) as (b' & Hs & Hv' & Hb'). exists b'.
    unfold represents. split_and!; [done|done| |].
    + intros j Hj. rewrite Hb', Hbits by done. apply eq_true_iff_eq.
      rewrite andb_true_iff, negb_true_iff, Z.eqb_neq, !bool_decide_eq_true. set_solver.
    + intros j [? _]%elem_of_difference. by apply Hsub.
Qed.

Lemma represents_ops b n have os :
  0 ≤ n < u32_modulus → Forall (λ o, 0 ≤ bit_op_index o) os → represents b n have →
  ∃ b', run_bit_ops b os = Some b' ∧ represents b' n (foldl (chunks_of_op n) have os).
Proof.
  intros Hn Hos. revert b have. induction Hos as [|o os Ho Hos IH]; intros b have Hr.
  { by exists b. }
  destruct (represents_op b n have o Hn Ho Hr) as (b1 & Hb1 & Hr1).
  unfold run_bit_ops. cbn [foldl mbind option_bind]. rewrite Hb1. by apply IH.
Qed.

Lemma count_true_fmap (f : Z → bool) l :
  count_true (f <$> l) = Z.of_nat (length (filter (λ i, f i = true) l)).
Proof.
  induction l as [|i l IH]; [done|]. unfold count_true in *. rewrite fmap_cons, !filter_cons.
  destruct (f i); simpl; lia.
Qed.

Lemma represents_count b n have :
  0 ≤ n < u32_modulus → represents b n have → count_ones b = Z.of_nat (size have).
Proof.
  intros Hn (Hv & Hbits & Hsub). rewrite (proj1 (count_valid b n Hn Hv)), count_true_fmap.
  f_equal. assert (have = list_to_set (filter (λ i, bit_of (bits b) i = true) (seqZ 0 n))) as ->.
  { apply set_eq. intros i. rewrite elem_of_list_to_set, list_elem_of_filter, elem_of_seqZ.
    split.
    - intros Hi. split; [|specialize (Hsub i Hi); lia]. rewrite Hbits by (specialize (Hsub i Hi); lia).
      by apply bool_decide_eq_true.
    - intros [Hb Hi]. rewrite Hbits in Hb by lia. by apply bool_decide_eq_true in Hb. }
  symmetry. apply size_list_to_set. apply NoDup_filter, NoDup_seqZ.
Qed.

Lemma represents_complete b n have :
  0 ≤ n < u32_modulus → represents b n have →
  is_complete b = true ↔ ∀ i, 0 ≤ i < n → i ∈ have.
Proof.
  intros Hn Hr. unfold is_complete. rewrite (represents_count b n have Hn Hr), Z.eqb_eq.
  destruct Hr as (Hv & _ & Hsub). rewrite (valid_len _ _ Hv).
  assert (size (list_to_set (seqZ 0 n) : gset Z) = Z.to_nat n) as Hsz
    by (rewrite size_list_to_set by apply NoDup_seqZ; apply length_seqZ).
  assert (have ⊆ list_to_set (seqZ 0 n)) as Hle.
  { intros i Hi. apply elem_of_list_to_set, elem_of_seqZ. specialize (Hsub i Hi). lia. }
  split.
  - intros Hs i Hi. assert (list_to_set (seqZ 0 n) ⊆ have) as Hge.
    { rewrite (set_subseteq_size_eq _ _ Hle); [done|]. rewrite Hsz. lia. }
    apply Hge, elem_of_list_to_set, elem_of_seqZ. lia.
  - intros Hall. assert (have = list_to_set (seqZ 0 n)) as ->; [|rewrite Hsz; lia].
    apply set_eq. intros i. split; [apply Hle|].
    intros Hi%elem_of_list_to_set%elem_of_seqZ. apply Hall. lia.
Qed.

(** ** Statements *)

(** The chunks of a file tile it: every byte is in exactly one chunk; each
    chunk is non-empty, at most 256,000 bytes, full unless it is the last one,
    and lies inside one ed2k block, the one of its group of 38. *)
Theorem chunks_tile_file size :
  0 ≤ size ≤ (u32_modulus - 1) * CHUNK_SIZE →
  (∀ i, 0 ≤ i < chunk_count size →
     let '(s, e) := chunk_range i size in
     s < e ≤ s + CHUNK_SIZE ∧ e ≤ size ∧ (i < chunk_count size - 1 → e = s + CHUNK_SIZE) ∧
     s / ED2K_BLOCK_SIZE = i / CHUNKS_PER_BLOCK ∧ (e - 1) / ED2K_BLOCK_SIZE = i / CHUNKS_PER_BLOCK) ∧
  (∀ off, 0 ≤ off → off < size ↔ ∃ i, 0 ≤ i < chunk_count size ∧
     (chunk_range i size).1 ≤ off < (chunk_range i size).2) ∧
  (∀ off i j, (chunk_range i size).1 ≤ off < (chunk_range i size).2 →
     (chunk_range j size).1 ≤ off < (chunk_range j size).2 → i = j).
Proof.
  unfold chunk_range. change CHUNK_SIZE with 256000. change ED2K_BLOCK_SIZE with (256000 * 38).
  change CHUNKS_PER_BLOCK with 38. intros Hs.
  assert (chunk_count size * 256000 - 256000 < size ≤ chunk_count size * 256000) as Hc.
  { unfold chunk_count, div_ceil, u32_wrap, u32_modulus in *. change CHUNK_SIZE with 256000 in *.
    destruct (Z.eqb_spec (size mod 256000) 0); rewrite Z.mod_small;
      Z.to_euclidean_division_equations; lia. }
  simpl. split_and!.
  - intros i Hi. split_and!; [lia|lia|lia|lia|..].
    + symmetry. apply Z.div_unique_pos with (256000 * (i mod 38));
        Z.to_euclidean_division_equations; lia.
    + symmetry. apply Z.div_unique_pos with
        (256000 * (i mod 38) + (Z.min (i * 256000 + 256000) size - 1 - i * 256000));
        Z.to_euclidean_division_equations; lia.
  - intros off Ho. split; [intros Hlt; exists (off / 256000)|intros (i & Hi & ?); lia].
    Z.to_euclidean_division_equations; lia.
  - intros off i j Hi Hj. lia.
Qed.

(** A file of one block and one byte has 39 chunks. *)
Lemma chunks_tile_file_witness :
  chunk_count 9728001 = 39 ∧
  (∀ off, 0 ≤ off → off < 9728001 ↔ ∃ i, 0 ≤ i < chunk_count 9728001 ∧
     (chunk_range i 9728001).1 ≤ off < (chunk_range i 9728001).2).
Proof.
  split; [reflexivity|]. apply (chunks_tile_file 9728001).
  unfold u32_modulus, CHUNK_SIZE, ED2K_BLOCK_SIZE, CHUNKS_PER_BLOCK.
  change (9728000 / 38) with 256000. lia.
Defined.

(** A bitfield received from a peer that passes [is_valid_for] is safe: no
    operation indexes outside its bytes, setting or clearing a chunk changes
    that chunk only (nothing out of range) and the result still passes. *)
Theorem validated_bitfield_safe b n :
  0 ≤ n < u32_modulus → Forall Framing.is_byte (bits b) → is_valid_for b n = true →
  ∀ i, 0 ≤ i → is_Some (get b i) ∧
    (∃ b', set b i = Some b' ∧ is_valid_for b' n = true ∧
       ∀ j, 0 ≤ j → get b' j = if decide (j = i ∧ i < n) then Some true else get b j) ∧
    (∃ b', unset b i = Some b' ∧ is_valid_for b' n = true ∧
       ∀ j, 0 ≤ j → get b' j = if decide (j = i) then Some false else get b j).
Proof.
  intros Hn Hu Hv i Hi. apply is_valid_for_iff in Hv; [|lia|done]. split_and!.
  - rewrite (get_valid b n Hn Hv) by done. done.
  - destruct (set_valid b n Hn Hv i Hi) as (b' & Hs & Hv' & Hb'). exists b'. split_and!; [done|..].
    { apply is_valid_for_iff; [lia|apply Hv'|done]. }
    intros j Hj. rewrite (get_valid b' n Hn Hv'), (get_valid b n Hn Hv), Hb' by done.
    destruct (Z.eqb_spec j i), (Z.ltb_spec i n); case_decide as Hd; try lia; simpl;
      by rewrite ?orb_true_r, ?orb_false_r.
  - destruct (unset_valid b n Hn Hv i Hi) as (b' & Hs & Hv' & Hb'). exists b'. split_and!; [done|..].
    { apply is_valid_for_iff; [lia|apply Hv'|done]. }
    intros j Hj. rewrite (get_valid b' n Hn Hv'), (get_valid b n Hn Hv), Hb' by done.
    destruct (Z.eqb_spec j i); case_decide as Hd; try lia; simpl;
      by rewrite ?andb_true_r, ?andb_false_r.
Qed.

Definition ex_field : Bitfield := mkBitfield [5; 2] 10.
Lemma validated_bitfield_safe_witness :
  is_valid_for ex_field 10 = true ∧ is_valid_for (mkBitfield [5; 6] 10) 10 = false ∧
  is_Some (get ex_field 9).
Proof.
  split; [reflexivity|split; [reflexivity|]].
  apply (validated_bitfield_safe ex_field 10); [unfold u32_modulus; lia| |reflexivity|lia].
  repeat constructor; unfold Framing.is_byte; lia.
Defined.

(** A bitfield built by any sequence of sets and unsets is exactly the set
    of chunks the sequence leaves present: membership, the count and
    completeness all agree with it, and it passes [is_valid_for]. *)
Theorem bitfield_is_set n os :
  0 ≤ n < u32_modulus → Forall (λ o, 0 ≤ bit_op_index o) os →
  let have := chunks_of_ops n os in
  ∃ b, run_bit_ops (bf_new n) os = Some b ∧
    (∀ i, 0 ≤ i → get b i = Some (bool_decide (i ∈ have))) ∧
    count_ones b = Z.of_nat (size have) ∧
    (is_complete b = true ↔ ∀ i, 0 ≤ i < n → i ∈ have) ∧
    is_valid_for b n = true.
Proof.
  intros Hn Hos have.
  destruct (represents_ops (bf_new n) n ∅ os Hn Hos (represents_new n ltac:(lia)))
    as (b & Hb & Hr). fold (chunks_of_ops n os) in Hr. fold have in Hr.
  exists b. split_and!; [done| |by apply (represents_count b n)|by apply represents_complete|].
  - intros i Hi. destruct Hr as (Hv & Hbits & _). by rewrite (get_valid b n Hn Hv), Hbits.
  - destruct Hr as (Hv & _). apply is_valid_for_iff; [lia|apply Hv|done].
Qed.

Lemma bitfield_is_set_witness :
  run_bit_ops (bf_new 10) [OpSet 9; OpSet 2; OpSet 12; OpUnset 2; OpSet 0] =
    Some (mkBitfield [1; 2] 10) ∧
  ∃ b, run_bit_ops (bf_new 10) [OpSet 9; OpSet 2; OpSet 12; OpUnset 2; OpSet 0] = Some b ∧
    ∀ i, 0 ≤ i → get b i = Some (bool_decide
      (i ∈ chunks_of_ops 10 [OpSet 9; OpSet 2; OpSet 12; OpUnset 2; OpSet 0])).
Proof.
  split; [reflexivity|].
  destruct (bitfield_is_set 10 [OpSet 9; OpSet 2; OpSet 12; OpUnset 2; OpSet 0])
    as (b & Hb & Hg & _); [unfold u32_modulus; lia|repeat constructor; simpl; lia|].
  exists b. split; [exact Hb|exact Hg].
Defined.
