(* ===== verification/AuthLimit.v ===== *)
(** * Throttling of failed password attempts (dessplay-rendezvous/src/auth_limit.rs)

    One moment per source address: when its budget of failures will be full
    again. Instants and durations are nanoseconds; the operations of
    [std::time] that panic on overflow are [None] there. The theorems bound the
    failures an address can make in any window, show that an address is
    throttled only after spending its whole budget, and that throttling reveals
    nothing about the password. *)

From S2P Require Import Prelude.

(** ** Time *)

Definition DURATION_MAX : Z := (2 ^ 64 - 1) * 1000000000 + 999999999.
Definition INSTANT_MAX : Z := 2 ^ 63 * 1000000000 - 1.

(** [Duration * u32], [Duration + Duration], [Instant + Duration]. *)
Definition duration_mul (d n : Z) : option Z := if d * n <=? DURATION_MAX then Some (d * n) else None.
Definition duration_add (d e : Z) : option Z := if d + e <=? DURATION_MAX then Some (d + e) else None.
Definition instant_add (t d : Z) : option Z := if t + d <=? INSTANT_MAX then Some (t + d) else None.
(** [Instant::saturating_duration_since]. *)
Definition saturating_duration_since (later earlier : Z) : Z := Z.max 0 (later - earlier).

(** ** Addresses *)

(** [IpAddr]: a 32-bit or a 128-bit number. *)
Inductive IpAddr := V4 (a : Z) | V6 (a : Z).
#[export] Instance IpAddr_eq_dec : EqDecision IpAddr.
Proof. solve_decision. Defined.
#[export] Instance IpAddr_countable : Countable IpAddr.
Proof.
  apply (inj_countable' (λ ip, match ip with V4 a => inl a | V6 a => inr a end)
    (λ s, match s with inl a => V4 a | inr a => V6 a end)). by intros [].
Defined.

(** [Ipv6Addr::to_ipv4_mapped]: [::ffff:a.b.c.d]. *)
Definition to_ipv4_mapped (a : Z) : option Z :=
  if Z.shiftr a 32 =? 0xffff then Some (Z.land a 0xffffffff) else None.
(** [address_key]. *)
Definition address_key (ip : IpAddr) : IpAddr :=
  match ip with
  | V4 _ => ip
  | V6 v6 =>
      match to_ipv4_mapped v6 with
      | Some v4 => V4 v4
      | None => V6 (Z.land v6 (Z.shiftl (2 ^ 128 - 1) 64 mod 2 ^ 128))
      end
  end.

(** ** The limiter *)

Record AuthLimit := mkAuthLimit { burst : Z; refill : Z }.
(** [AuthLimit::default]: five failures, then one a minute. *)
Definition AuthLimit_default : AuthLimit := mkAuthLimit 5 (60 * 1000000000).
Inductive Verdict := Accept | Reject | Throttled.
#[export] Instance Verdict_eq_dec : EqDecision Verdict.
Proof. solve_decision. Defined.
Definition SWEEP_AT : nat := 1024.
Definition MAX_TRACKED : Z := 65536.
Record AuthLimiter := mkAuthLimiter { limit : AuthLimit; full_at : gmap IpAddr Z }.
(** [AuthLimiter::new]. *)
Definition AuthLimiter_new (l : AuthLimit) : AuthLimiter := mkAuthLimiter l ∅.

(** [make_room]. *)
Definition make_room (l : AuthLimiter) (now : Z) : AuthLimiter * bool :=
  let l := if Nat.leb SWEEP_AT (size (full_at l))
           then mkAuthLimiter (limit l) (filter (λ kv, now < kv.2) (full_at l)) else l in
  (l, Z.of_nat (size (full_at l)) <? MAX_TRACKED).

(** [judge]; [correct] is what the closure returns if it is called. *)
Definition judge (l : AuthLimiter) (ip : IpAddr) (now : Z) (correct : bool)
    : option (Verdict * AuthLimiter) :=
  let key := address_key ip in
  let at_ := full_at l !! key in
  let debt := match at_ with Some at_ => saturating_duration_since at_ now | None => 0 end in
  capacity ← duration_mul (refill (limit l)) (Z.max (burst (limit l)) 1);
  spent ← duration_add debt (refill (limit l));
  if capacity <? spent then Some (Throttled, l)
  else if correct then Some (Accept, l)
  else
    new_full_at ← instant_add now debt ≫= λ t, instant_add t (refill (limit l));
    let '(l, room) := match at_ with None => make_room l now | Some _ => (l, true) end in
    if room then Some (Reject, mkAuthLimiter (limit l) (<[key := new_full_at]> (full_at l)))
    else Some (Reject, l).

(** Attempts in sequence. *)
Record Attempt := mkAttempt { at_ip : IpAddr; at_time : Z; at_correct : bool }.
Fixpoint judge_all (l : AuthLimiter) (attempts : list Attempt)
    : option (list Verdict * AuthLimiter) :=
  match attempts with
  | [] => Some ([], l)
  | a :: attempts =>
      '(v, l) ← judge l (at_ip a) (at_time a) (at_correct a);
      '(vs, l) ← judge_all l attempts;
      Some (v :: vs, l)
  end.

(** ** The budget of one address *)

(** What an address still owes at an instant. *)
Definition debt (l : AuthLimiter) (key : IpAddr) (now : Z) : Z :=
  match full_at l !! key with Some t => saturating_duration_since t now | None => 0 end.
Definition capacity (limit : AuthLimit) : Z := refill limit * Z.max (burst limit) 1.
Definition tracked_keys (l : AuthLimiter) (attempts : list Attempt) : gset IpAddr :=
  dom (full_at l) ∪ list_to_set ((λ a, address_key (at_ip a)) <$> attempts).

(** No arithmetic overflows up to the instant [t]. *)
Record limit_ok (limit : AuthLimit) (t : Z) : Prop := {
  lo_refill : 0 < refill limit;
  lo_burst : 0 ≤ burst limit;
  lo_capacity : capacity limit ≤ INSTANT_MAX;
  lo_time : t + capacity limit ≤ INSTANT_MAX
}.
(** The limiter at time [t]: nobody owes more than the whole budget. *)
Definition limiter_ok (l : AuthLimiter) (t : Z) : Prop :=
  ∀ key at_, full_at l !! key = Some at_ → at_ ≤ t + capacity (limit l).

(** Attempts in the order of time, between [t0] and [t1]. *)
Fixpoint in_order (t0 t1 : Z) (attempts : list Attempt) : Prop :=
  match attempts with
  | [] => t0 ≤ t1
  | a :: attempts => t0 ≤ at_time a ∧ in_order (at_time a) t1 attempts
  end.
(** The failures counted against one address. *)
Fixpoint failures (key : IpAddr) (attempts : list Attempt) (vs : list Verdict) : Z :=
  match attempts, vs with
  | a :: attempts, v :: vs =>
      (if bool_decide (address_key (at_ip a) = key) && bool_decide (v = Reject) then 1 else 0) +
      failures key attempts vs
  | _, _ => 0
  end.

(** ** Lemmas *)

Section limiter.
Implicit Types (l : AuthLimiter) (key : IpAddr).

Lemma debt_nonneg l key now : 0 ≤ debt l key now.
Proof. unfold debt, saturating_duration_since. case_match; lia. Qed.

Lemma debt_le_capacity l key now t :
  limiter_ok l t → limit_ok (limit l) t → t ≤ now → debt l key now ≤ capacity (limit l).
Proof.
  intros Hl [Hr Hb _ _] Hnow. unfold debt, saturating_duration_since.
  assert (0 ≤ capacity (limit l)) by (unfold capacity; nia).
  destruct (full_at l !! key) as [at_|] eqn:E; [|done]. specialize (Hl key at_ E). lia.
Qed.

Lemma debt_decays l key now later :
  now ≤ later → debt l key later ≤ debt l key now ≤ debt l key later + (later - now).
Proof. unfold debt, saturating_duration_since. case_match; lia. Qed.

(** Sweeping forgets only what is paid. *)
Lemma make_room_spec l now :
  let l' := (make_room l now).1 in
  limit l' = limit l ∧ (∀ key later, now ≤ later → debt l' key later = debt l key later) ∧
  full_at l' ⊆ full_at l ∧
  (make_room l now).2 = (Z.of_nat (size (full_at l')) <? MAX_TRACKED).
Proof.
  cbn zeta. unfold make_room. destruct (Nat.leb _ _); cbn [fst snd limit full_at]; [|done].
  split_and!; [done| |apply map_filter_subseteq|done].
  intros key later Hl. unfold debt. cbn [full_at].
  destruct (full_at l !! key) as [t|] eqn:E.
  - destruct (decide (now < t)) as [Ht|Ht].
    + by rewrite (map_lookup_filter_Some_2 _ _ _ t).
    + rewrite map_lookup_filter_None_2; [unfold saturating_duration_since; lia|].
      right. intros x Hx. simplify_eq/=. lia.
  - rewrite map_lookup_filter_None_2; [done|]. by left.
Qed.

(** [judge], by what is owed. *)
Lemma judge_eq l ip now correct t0 :
  limiter_ok l t0 → limit_ok (limit l) now → t0 ≤ now →
  let key := address_key ip in
  let owed := debt l key now + refill (limit l) in
  judge l ip now correct =
    if capacity (limit l) <? owed then Some (Throttled, l)
    else if correct then Some (Accept, l)
    else
      let '(l', room) :=
        match full_at l !! key with None => make_room l now | Some _ => (l, true) end in
      Some (Reject, if room
                    then mkAuthLimiter (limit l') (<[key := now + owed]> (full_at l')) else l').
Proof.
  intros Hl Hok Hnow. cbn zeta. pose proof Hok as [Hr Hb Hcp Ht].
  assert (limit_ok (limit l) t0) as Hok0 by (split; [done..|lia]).
  pose proof (debt_le_capacity l (address_key ip) now t0 Hl Hok0 Hnow) as Hd.
  pose proof (debt_nonneg l (address_key ip) now).
  assert (refill (limit l) ≤ capacity (limit l)) by (unfold capacity; nia).
  unfold judge. fold (debt l (address_key ip) now).
  unfold duration_mul. fold (capacity (limit l)).
  unfold DURATION_MAX, INSTANT_MAX in *.
  rewrite (proj2 (Z.leb_le _ _)) by lia. cbn [mbind option_bind].
  unfold duration_add, DURATION_MAX. rewrite (proj2 (Z.leb_le _ _)) by lia.
  cbn [mbind option_bind].
  destruct (Z.ltb_spec (capacity (limit l)) (debt l (address_key ip) now + refill (limit l)));
    [done|].
  destruct correct; [done|]. unfold instant_add, INSTANT_MAX.
  rewrite (proj2 (Z.leb_le _ _)) by lia. cbn [mbind option_bind].
  rewrite (proj2 (Z.leb_le _ _)) by lia. cbn [mbind option_bind].
  rewrite <-Z.add_assoc. destruct (full_at l !! address_key ip); [done|].
  by destruct (make_room l now) as [l' []].
Qed.

(** A failure with room in the table adds [refill] to its own debt only. *)
Lemma judge_reject_debt l ip now t0 l' :
  limiter_ok l t0 → limit_ok (limit l) now → t0 ≤ now →
  Z.of_nat (size (dom (full_at l) ∪ {[address_key ip]})) ≤ MAX_TRACKED →
  judge l ip now false = Some (Reject, l') →
  limit l' = limit l ∧ dom (full_at l') ⊆ dom (full_at l) ∪ {[address_key ip]} ∧
  debt l (address_key ip) now + refill (limit l) ≤ capacity (limit l) ∧
  limiter_ok l' now ∧
  ∀ key later, now ≤ later →
    debt l' key later =
      if decide (key = address_key ip)
      then Z.max 0 (now + debt l key now + refill (limit l) - later)
      else debt l key later.
Proof.
  intros Hl Hok Hnow Hsize. rewrite (judge_eq l ip now false t0 Hl Hok Hnow). cbn zeta.
  set (key := address_key ip) in *.
  destruct (Z.ltb_spec (capacity (limit l)) (debt l key now + refill (limit l))) as [|Hcap]; [done|].
  destruct (make_room_spec l now) as (Hlim & Hdebt & Hsub & Hroom).
  set (r := match full_at l !! key with None => make_room l now | Some _ => (l, true) end).
  assert (limit r.1 = limit l ∧ full_at r.1 ⊆ full_at l ∧ r.2 = true ∧
    ∀ k later, now ≤ later → debt r.1 k later = debt l k later) as (H1 & H2 & H3 & H4).
  { unfold r. destruct (full_at l !! key) as [t|] eqn:E; [done|].
    split_and!; [done..| |done]. rewrite Hroom. apply Z.ltb_lt.
    assert (size (full_at (make_room l now).1) < size (dom (full_at l) ∪ {[key]}))%nat; [|lia].
    rewrite <-size_dom. apply subset_size.
    apply subseteq_dom in Hsub. apply not_elem_of_dom in E. set_solver. }
  destruct r as [l1 room]. cbn [fst snd] in *. subst room. intros [= <-]. cbn [limit full_at].
  assert (∀ at_ k, full_at l1 !! k = Some at_ → at_ ≤ now + capacity (limit l)) as Hle.
  { intros at_ k Hk. specialize (Hl k at_ (lookup_weaken _ _ _ _ Hk H2)). lia. }
  split_and!; [done| |done| |].
  - rewrite dom_insert. apply subseteq_dom in H2. set_solver.
  - intros k at_. cbn [limit full_at]. rewrite H1.
    intros [[<- <-]|[_ Hk]]%lookup_insert_Some; [lia|by eapply Hle].
  - intros k later Hlater. unfold debt at 1. cbn [full_at]. case_decide as Hk.
    + subst k. rewrite lookup_insert_eq. unfold saturating_duration_since. lia.
    + rewrite lookup_insert_ne by done. fold (debt l1 k later). by apply H4.
Qed.

(** Otherwise nothing changes. *)
Lemma judge_other l ip now correct t0 v l' :
  limiter_ok l t0 → limit_ok (limit l) now → t0 ≤ now →
  judge l ip now correct = Some (v, l') → v ≠ Reject → l' = l.
Proof.
  intros Hl Hok Hnow. rewrite (judge_eq l ip now correct t0 Hl Hok Hnow). cbn zeta.
  destruct (_ <? _); [naive_solver|]. destruct correct; [naive_solver|].
  destruct (match full_at l !! address_key ip with None => _ | Some _ => _ end). naive_solver.
Qed.
Lemma judge_total l ip now correct t0 :
  limiter_ok l t0 → limit_ok (limit l) now → t0 ≤ now →
  ∃ v l', judge l ip now correct = Some (v, l') ∧
    (v = Reject → correct = false) ∧
    (v = Throttled ↔ capacity (limit l) < debt l (address_key ip) now + refill (limit l)).
Proof.
  intros Hl Hok Hnow. rewrite (judge_eq l ip now correct t0 Hl Hok Hnow). cbn zeta.
  destruct (Z.ltb_spec (capacity (limit l)) (debt l (address_key ip) now + refill (limit l))).
  { eexists _, _. split; [done|]. naive_solver. }
  destruct correct; [|destruct (match full_at l !! _ with None => _ | Some _ => _ end)];
    (eexists _, _; split; [done|]; split; [done|]; split; [done|lia]).
Qed.

(** Whatever the outcome, nobody comes to owe more than the budget. *)
Lemma judge_ok l ip now correct t0 :
  limiter_ok l t0 → limit_ok (limit l) now → t0 ≤ now →
  ∃ v l', judge l ip now correct = Some (v, l') ∧ limit l' = limit l ∧ limiter_ok l' now.
Proof.
  intros Hl Hok Hnow. rewrite (judge_eq l ip now correct t0 Hl Hok Hnow). cbn zeta.
  assert (limiter_ok l now) as Hl' by (intros k at_ Hk; specialize (Hl k at_ Hk); lia).
  destruct (Z.ltb_spec (capacity (limit l)) (debt l (address_key ip) now + refill (limit l)));
    [by eexists _, _|]. destruct correct; [by eexists _, _|].
  destruct (make_room_spec l now) as (Hlim & _ & Hsub & _).
  set (r := match full_at l !! address_key ip with None => make_room l now | Some _ => (l, true) end).
  assert (limit r.1 = limit l ∧ limiter_ok r.1 now) as [H1 H2].
  { unfold r. destruct (full_at l !! address_key ip); [done|]. split; [done|].
    intros k at_ Hk. rewrite Hlim. eapply Hl'. by eapply lookup_weaken. }
  destruct r as [l1 []]; cbn [fst] in *; eexists _, _; split; try done.
  split; [done|]. intros k at_. cbn [limit full_at]. rewrite H1.
  intros [[<- <-]|[_ Hk]]%lookup_insert_Some; [lia|]. rewrite <-H1. by eapply H2.
Qed.

Lemma limiter_ok_new lim t : limiter_ok (AuthLimiter_new lim) t.
Proof. intros k at_. simpl. by rewrite lookup_empty. Qed.
Lemma limiter_ok_later l t t' : limiter_ok l t → t ≤ t' → limiter_ok l t'.
Proof. intros Hl Ht k at_ Hk. specialize (Hl k at_ Hk). lia. Qed.
Lemma limit_ok_earlier lim t t' : limit_ok lim t → t' ≤ t → limit_ok lim t'.
Proof. intros [] Ht. split; [done..|lia]. Qed.
Lemma in_order_le t0 t1 attempts : in_order t0 t1 attempts → t0 ≤ t1.
Proof.
  revert t0. induction attempts as [|a l IH]; intros t0; simpl; [done|].
  intros [? ?%IH]. lia.
Qed.

(** One attempt, whatever it is. *)
Lemma judge_step l a t0 t1 attempts :
  limiter_ok l t0 → limit_ok (limit l) t1 → in_order t0 t1 (a :: attempts) →
  Z.of_nat (size (tracked_keys l (a :: attempts))) ≤ MAX_TRACKED →
  ∃ v l', judge l (at_ip a) (at_time a) (at_correct a) = Some (v, l') ∧
    limiter_ok l' (at_time a) ∧ limit l' = limit l ∧
    Z.of_nat (size (tracked_keys l' attempts)) ≤ MAX_TRACKED ∧
    (v = Throttled → capacity (limit l) < debt l (address_key (at_ip a)) (at_time a) + refill (limit l)) ∧
    ∀ key, debt l' key (at_time a) = debt l key (at_time a) +
      refill (limit l) * failures key [a] [v] ∧ debt l' key (at_time a) ≤ capacity (limit l).
Proof.
  intros Hl Hok [Ht0 Hord] Hsize. pose proof (in_order_le _ _ _ Hord) as Ht1.
  assert (limit_ok (limit l) (at_time a)) as Hoka by by eapply limit_ok_earlier.
  destruct (judge_total l (at_ip a) (at_time a) (at_correct a) t0 Hl Hoka Ht0)
    as (v & l' & Hj & Hrej & Hthr).
  exists v, l'. split; [done|]. assert (∀ k, debt l k (at_time a) ≤ capacity (limit l)) as Hcap.
  { intros k. eapply debt_le_capacity; [done| |done]. eapply limit_ok_earlier; [done|lia]. }
  destruct (decide (v = Reject)) as [->|Hv].
  - rewrite (Hrej eq_refl) in Hj.
    destruct (judge_reject_debt l (at_ip a) (at_time a) t0 l' Hl Hoka Ht0) as (H1 & H2 & H3 & H4 & H5);
      [|done|].
    { etrans; [|done]. apply inj_le, subseteq_size. unfold tracked_keys. cbn [fmap list_fmap list_to_set].
      set_solver. }
    split_and!; try done.
    + etrans; [|done]. apply inj_le, subseteq_size. unfold tracked_keys.
      cbn [fmap list_fmap list_to_set]. set_solver.
    + intros key. rewrite H5 by lia. simpl. case_decide as Hk; subst.
      * rewrite bool_decide_true by done. simpl. pose proof (debt_nonneg l (address_key (at_ip a)) (at_time a)).
        destruct Hok. lia.
      * rewrite bool_decide_false by congruence. simpl. split; [lia|done].
  - rewrite (judge_other l (at_ip a) (at_time a) (at_correct a) t0 v l' Hl Hoka Ht0 Hj Hv).
    split_and!; try done.
    + by eapply limiter_ok_later.
    + etrans; [|done]. apply inj_le, subseteq_size. unfold tracked_keys.
      cbn [fmap list_fmap list_to_set]. set_solver.
    + apply Hthr.
    + intros key. simpl. rewrite (bool_decide_false (v = Reject)) by done.
      rewrite andb_false_r. split; [lia|done].
Qed.

(** Failures in a window are paid for by the budget and the refills. *)
Lemma judge_all_spec l attempts t0 t1 :
  limiter_ok l t0 → limit_ok (limit l) t1 → in_order t0 t1 attempts →
  Z.of_nat (size (tracked_keys l attempts)) ≤ MAX_TRACKED →
  ∃ vs l', judge_all l attempts = Some (vs, l') ∧
    limiter_ok l' t1 ∧ limit l' = limit l ∧
    ∀ key,
      debt l key t0 + refill (limit l) * failures key attempts vs ≤
        debt l' key t1 + (t1 - t0) ∧
      debt l' key t1 ≤ capacity (limit l).
Proof.
  revert l t0. induction attempts as [|a attempts IH]; intros l t0 Hl Hok Hord Hsize.
  - simpl in Hord. exists [], l. split; [done|]. split; [by eapply limiter_ok_later|]. split; [done|].
    intros key. pose proof (debt_decays l key t0 t1 Hord). split; [simpl; lia|].
    eapply debt_le_capacity; [done| |done]. by eapply limit_ok_earlier.
  - destruct (judge_step l a t0 t1 attempts Hl Hok Hord Hsize)
      as (v & l1 & Hj & Hl1 & Hlim & Hsize1 & _ & Hstep).
    destruct Hord as [Ht0 Hord].
    destruct (IH l1 (at_time a) Hl1) as (vs & l' & Hall & Hl' & Hlim' & Hkeys); [by rewrite Hlim|done..|].
    exists (v :: vs), l'. cbn [judge_all]. rewrite Hj. cbn [mbind option_bind].
    rewrite Hall. cbn [mbind option_bind]. split; [done|]. split; [done|]. split; [congruence|].
    intros key. destruct (Hkeys key) as [H1 H2]. destruct (Hstep key) as [H3 H4].
    rewrite Hlim in H1, H2. split; [|done].
    pose proof (debt_decays l key t0 (at_time a) Ht0) as Hdec.
    assert (failures key (a :: attempts) (v :: vs) = failures key [a] [v] + failures key attempts vs)
      as -> by (simpl; lia). lia.
Qed.
End limiter.

(** ** Statements *)

(** C36. However many attempts arrive in a window, at most [burst] failures plus
    one per [refill] of elapsed time are judged for one address (an IPv6 /64
    counting as one, while the table has room); no arithmetic overflows, and the
    limiter is again in a state from which the bound holds. *)
Theorem failures_bounded l attempts t0 t1 key :
  limiter_ok l t0 → limit_ok (limit l) t1 → in_order t0 t1 attempts →
  Z.of_nat (size (tracked_keys l attempts)) ≤ MAX_TRACKED →
  ∃ vs l', judge_all l attempts = Some (vs, l') ∧ limiter_ok l' t1 ∧
    failures key attempts vs ≤ Z.max (burst (limit l)) 1 + (t1 - t0) / refill (limit l).
Proof.
  intros Hl Hok Hord Hsize. pose proof (lo_refill _ _ Hok) as Hr.
  destruct (judge_all_spec l attempts t0 t1 Hl Hok Hord Hsize) as (vs & l' & Hall & Hl' & _ & Hkey).
  exists vs, l'. split; [done|]. split; [done|]. destruct (Hkey key) as [H1 H2].
  pose proof (debt_nonneg l key t0). unfold capacity in H2.
  assert (failures key attempts vs - Z.max (burst (limit l)) 1 ≤ (t1 - t0) / refill (limit l)); [|lia].
  apply Z.div_le_lower_bound; [done|]. nia.
Qed.

(** The throttle is exact: an attempt is throttled exactly when the
    address's debt leaves no room for one more failure, and then neither the
    password nor the limiter is touched; a correct password spends nothing; a
    failure by one address leaves every other address's debt as it was. *)
Theorem judge_verdict l ip now t0 :
  limiter_ok l t0 → limit_ok (limit l) now → t0 ≤ now →
  Z.of_nat (size (dom (full_at l) ∪ {[address_key ip]})) ≤ MAX_TRACKED →
  if decide (capacity (limit l) < debt l (address_key ip) now + refill (limit l))
  then ∀ correct, judge l ip now correct = Some (Throttled, l)
  else judge l ip now true = Some (Accept, l) ∧
    ∃ l', judge l ip now false = Some (Reject, l') ∧
      debt l' (address_key ip) now = debt l (address_key ip) now + refill (limit l) ∧
      ∀ key later, key ≠ address_key ip → now ≤ later → debt l' key later = debt l key later.
Proof.
  intros Hl Hok Hnow Hsize. case_decide as Hd.
  - intros correct. rewrite (judge_eq l ip now correct t0 Hl Hok Hnow). cbn zeta.
    by rewrite (proj2 (Z.ltb_lt _ _)).
  - split.
    + rewrite (judge_eq l ip now true t0 Hl Hok Hnow). cbn zeta.
      by rewrite (proj2 (Z.ltb_ge _ _)) by lia.
    + destruct (judge_total l ip now false t0 Hl Hok Hnow) as (v & l' & Hj & _ & Hthr).
      assert (v = Reject) as ->.
      { revert Hj. rewrite (judge_eq l ip now false t0 Hl Hok Hnow). cbn zeta.
        rewrite (proj2 (Z.ltb_ge _ _)) by lia.
        destruct (match full_at l !! _ with None => _ | Some _ => _ end). by intros [= <-]. }
      exists l'. split; [done|].
      destruct (judge_reject_debt l ip now t0 l' Hl Hok Hnow Hsize Hj) as (_ & _ & _ & _ & H5).
      split.
      * rewrite H5, decide_True by done || lia. pose proof (debt_nonneg l (address_key ip) now).
        destruct Hok. lia.
      * intros key later Hk Hlater. by rewrite H5, decide_False.
Qed.

(** ** Witnesses *)

Definition ex_ip : IpAddr := V6 0x20010db8000000000000000000000001.
Definition ex_neighbour : IpAddr := V6 0x20010db800000000ffff000000000002.
Definition ex_attempts : list Attempt :=
  [ mkAttempt ex_ip 0 false; mkAttempt ex_neighbour 1 false; mkAttempt (V4 7) 1 false;
    mkAttempt ex_ip 2 true; mkAttempt ex_ip 3 false ].
Definition ex_limiter : AuthLimiter := AuthLimiter_new (mkAuthLimit 2 1000).

Lemma failures_bounded_witness :
  (∃ l', judge_all ex_limiter ex_attempts =
    Some ([Reject; Reject; Reject; Throttled; Throttled], l')) ∧
  ∃ vs l', judge_all ex_limiter ex_attempts = Some (vs, l') ∧ limiter_ok l' 3 ∧
    failures (address_key ex_ip) ex_attempts vs ≤ 2 + (3 - 0) / 1000.
Proof.
  split; [eexists; vm_compute; reflexivity|].
  apply (failures_bounded ex_limiter ex_attempts 0 3 (address_key ex_ip)).
  - apply limiter_ok_new.
  - split; vm_compute; congruence.
  - vm_compute. repeat split; congruence.
  - vm_compute. congruence.
Defined.

Lemma judge_verdict_witness :
  judge ex_limiter ex_ip 0 true = Some (Accept, ex_limiter) ∧
  ∃ l', judge ex_limiter ex_ip 0 false = Some (Reject, l') ∧
    debt l' (address_key ex_ip) 0 = debt ex_limiter (address_key ex_ip) 0 + 1000 ∧
    ∀ key later, key ≠ address_key ex_ip → 0 ≤ later → debt l' key later = debt ex_limiter key later.
Proof.
  refine (judge_verdict ex_limiter ex_ip 0 0 _ _ _ _).
  - apply limiter_ok_new.
  - split; vm_compute; congruence.
  - lia.
  - vm_compute. congruence.
Defined.
