(* ===== verification/Outbox.v ===== *)
(** * Per-connection outbound queues (dessplay-rendezvous/src/outbox.rs)

    Any number of tasks push frames while one writer task drains them. The
    shared state is atomics and a channel, so the model runs each task one
    atomic access at a time and interleaves them arbitrarily: [push_step] is the
    next access of [Outbox::push] (and [overflow]), [writer_step] that of
    [drain]. The theorems hold for every interleaving. Byte counts are [nat]: a
    [usize] counts bytes that are all in memory and cannot wrap. *)

From S2P Require Import Prelude.

(** One encoded frame. *)
Abbreviation Frame := (list Z).

(** [State], with the channel it comes with: the frames in it, and whether the
    writer still holds the receiving end. [on_overflow] tells whether the action
    has not been taken yet. *)
Record OutboxState := mkOutboxState {
  queued : nat;
  limit : nat;
  closed : bool;
  on_overflow : bool;
  rx : list Frame;
  rx_alive : bool
}.

(** What a task does that others can see. *)
Inductive Event := Accepted (f : Frame) | Wrote (f : Frame) | OverflowRan.

(** [Outbox::spawn]. *)
Definition spawn (limit : nat) : OutboxState := mkOutboxState 0 limit false true [] true.

(** Assigning one field. *)
Definition set_queued (n : nat) (s : OutboxState) : OutboxState :=
  mkOutboxState n (limit s) (closed s) (on_overflow s) (rx s) (rx_alive s).
Definition set_closed (s : OutboxState) : OutboxState :=
  mkOutboxState (queued s) (limit s) true (on_overflow s) (rx s) (rx_alive s).
Definition take_action (s : OutboxState) : OutboxState :=
  mkOutboxState (queued s) (limit s) (closed s) false (rx s) (rx_alive s).
Definition set_rx (l : list Frame) (s : OutboxState) : OutboxState :=
  mkOutboxState (queued s) (limit s) (closed s) (on_overflow s) l (rx_alive s).
Definition drop_rx (s : OutboxState) : OutboxState :=
  mkOutboxState (queued s) (limit s) (closed s) (on_overflow s) (rx s) false.

(** ** [Outbox::push] *)

Inductive PushPc :=
| PStart (f : Frame)
| PLoaded (f : Frame)   (* [closed] was false *)
| PSend (f : Frame)     (* counted, and within the limit *)
| PUnsend (f : Frame)   (* the writer is gone *)
| POver (f : Frame)     (* counted, but over the limit *)
| PSwap                 (* in [overflow] *)
| PTake
| PDone (result : bool).

Definition push_step (pc : PushPc) (s : OutboxState) : PushPc * OutboxState * list Event :=
  match pc with
  | PStart f => if closed s then (PDone false, s, []) else (PLoaded f, s, [])
  | PLoaded f =>
      let len := length f in
      let before := queued s in
      let s := set_queued (before + len) s in
      if Nat.ltb 0 before && Nat.ltb (limit s) (before + len)
      then (POver f, s, []) else (PSend f, s, [])
  | PSend f =>
      if rx_alive s then (PDone true, set_rx (rx s ++ [f]) s, [Accepted f])
      else (PUnsend f, s, [])
  | PUnsend f => (PDone false, set_queued (queued s - length f) s, [])
  | POver f => (PSwap, set_queued (queued s - length f) s, [])
  | PSwap => if closed s then (PDone false, s, []) else (PTake, set_closed s, [])
  | PTake => (PDone false, take_action s, if on_overflow s then [OverflowRan] else [])
  | PDone b => (PDone b, s, [])
  end.

(** ** [drain] *)

Inductive Writer :=
| WRecv
| WGot (f : Frame)
| WWriting (f : Frame)
| WWrote (f : Frame) (ok : bool)
| WClose (f : Frame)
| WExit (lost : list Frame)
| WDone (lost : list Frame).

(** [ok]: what the destination answers to a write; [live]: whether a sending
    handle is left. *)
Definition writer_step (w : Writer) (ok live : bool) (s : OutboxState)
    : Writer * OutboxState * list Event :=
  match w with
  | WRecv =>
      match rx s with
      | f :: rest => (WGot f, set_rx rest s, [])
      | [] => if live then (WRecv, s, []) else (WExit [], s, [])
      end
  | WGot f => if closed s then (WExit [f], s, []) else (WWriting f, s, [])
  | WWriting f => (WWrote f ok, s, if ok then [Wrote f] else [])
  | WWrote f ok =>
      let s := set_queued (queued s - length f) s in
      if ok then (WRecv, s, []) else (WClose f, s, [])
  | WClose f => (WExit [f], set_closed s, [])
  | WExit lost => (WDone lost, drop_rx s, [])
  | WDone lost => (WDone lost, s, [])
  end.

(** ** The tasks together *)

Record System := mkSystem {
  box : OutboxState;
  pushers : list PushPc;
  writer : Writer;
  live : bool;
  log : list Event
}.
Definition init_system (limit : nat) : System := mkSystem (spawn limit) [] WRecv true [].

Inductive step : System → System → Prop :=
| step_call x f :
    live x = true → step x (mkSystem (box x) (pushers x ++ [PStart f]) (writer x) true (log x))
| step_push x i pc pc' b ev :
    pushers x !! i = Some pc → push_step pc (box x) = (pc', b, ev) →
    step x (mkSystem b (<[i := pc']> (pushers x)) (writer x) (live x) (log x ++ ev))
| step_write x ok w b ev :
    writer_step (writer x) ok (live x) (box x) = (w, b, ev) →
    step x (mkSystem b (pushers x) w (live x) (log x ++ ev))
| step_drop x :
    (∀ pc, pc ∈ pushers x → ∃ b, pc = PDone b) →
    step x (mkSystem (box x) (pushers x) (writer x) false (log x)).

Definition runs (limit : nat) (x : System) : Prop := rtc step (init_system limit) x.

(** ** Observations *)

Definition accepted (l : list Event) : list Frame :=
  omap (λ e, match e with Accepted f => Some f | _ => None end) l.
Definition written (l : list Event) : list Frame :=
  omap (λ e, match e with Wrote f => Some f | _ => None end) l.
Definition overflows (l : list Event) : nat :=
  length (omap (λ e, match e with OverflowRan => Some () | _ => None end) l).

(** Bytes. *)
Definition bytes (l : list Frame) : nat := sum_list_with length l.
(** The frame a pusher has counted; the one of these that will be queued. *)
Definition counted (pc : PushPc) : list Frame :=
  match pc with PSend f | PUnsend f | POver f => [f] | _ => [] end.
Definition committed (pc : PushPc) : list Frame :=
  match pc with PSend f => [f] | _ => [] end.
(** The frames the writer took and has not written; the counted ones of these. *)
Definition unwritten (w : Writer) : list Frame :=
  match w with
  | WGot f | WWriting f | WWrote f false | WClose f => [f]
  | WExit lost | WDone lost => lost
  | _ => []
  end.
Definition held (w : Writer) : list Frame :=
  match w with WGot f | WWriting f | WWrote f _ => [f] | _ => [] end.
(** Whether a task is between taking [closed] over and running the action. *)
Definition taking (pc : PushPc) : nat := match pc with PTake => 1 | _ => 0 end.

(** The backlog: everything accepted or about to be, and not yet written. *)
Definition backlog (x : System) : list Frame :=
  (pushers x ≫= committed) ++ rx (box x) ++ held (writer x).

(** At most the limit, or a single frame (frames of no bytes aside). *)
Definition bounded (n : nat) (l : list Frame) : Prop :=
  (bytes l ≤ n)%nat ∨ ∃ f, f ∈ l ∧ bytes l = length f.

(** ** The invariant *)

Record ok (n : nat) (x : System) : Prop := {
  ok_limit : limit (box x) = n;
  ok_queued :
    (bytes (pushers x ≫= counted) + bytes (rx (box x)) + bytes (held (writer x)) ≤
      queued (box x))%nat;
  ok_backlog : bounded n (backlog x);
  ok_fifo : accepted (log x) = written (log x) ++ unwritten (writer x) ++ rx (box x);
  ok_once :
    (overflows (log x) + (if on_overflow (box x) then 1 else 0) = 1)%nat ∧
    (if on_overflow (box x) then True else closed (box x) = true) ∧
    (sum_list_with taking (pushers x) = 0%nat ∨ closed (box x) = true)
}.

Section facts.
Lemma bytes_app l k : bytes (l ++ k) = (bytes l + bytes k)%nat.
Proof. apply sum_list_with_app. Qed.
Lemma bytes_perm l k : l ≡ₚ k → bytes l = bytes k.
Proof. intros H. unfold bytes. by rewrite H. Qed.

(** One task's entry of a per-task tally, replaced. *)
Lemma bind_insert (g : PushPc → list Frame) l i pc pc' :
  l !! i = Some pc →
  ∃ rest, l ≫= g ≡ₚ g pc ++ rest ∧ <[i := pc']> l ≫= g ≡ₚ g pc' ++ rest.
Proof.
  revert i. induction l as [|x l IH]; intros [|i]; simpl; try done.
  - intros [= ->]. by exists (l ≫= g).
  - intros (rest & H1 & H2)%IH. exists (g x ++ rest). unfold mbind in *. simpl in *.
    rewrite H1, H2. split; solve_Permutation.
Qed.
Lemma sum_insert (g : PushPc → nat) l i pc pc' :
  l !! i = Some pc →
  (sum_list_with g (<[i := pc']> l) + g pc = sum_list_with g l + g pc')%nat.
Proof.
  revert i. induction l as [|x l IH]; intros [|i]; simpl; try done.
  - intros [= ->]. lia.
  - intros Hi. specialize (IH i Hi). lia.
Qed.

End facts.

Lemma committed_counted l : (bytes (l ≫= committed) ≤ bytes (l ≫= counted))%nat.
Proof.
  induction l as [|pc l IH]; [done|]. cbn [mbind list_bind] in *. rewrite !bytes_app.
  destruct pc; simpl in *; lia.
Qed.

Lemma bounded_perm n l k : l ≡ₚ k → bounded n l → bounded n k.
Proof. intros Hp. unfold bounded. rewrite (bytes_perm l k Hp). by setoid_rewrite Hp. Qed.
Lemma bounded_drop n f l : bounded n (f :: l) → bounded n l.
Proof.
  intros [H|(g & Hg & H)]; simpl in H; [left; lia|].
  apply elem_of_cons in Hg as [->|Hg]; [left; lia|].
  destruct (decide (length f = 0%nat)); [right; exists g; split; [done|lia]|].
  apply list_elem_of_split in Hg as (l1 & l2 & ->). rewrite bytes_app in H. simpl in H. lia.
Qed.
(** Accepting: into an empty queue, or within the limit. *)
Lemma bounded_add n f l before :
  bounded n l → (bytes l ≤ before)%nat →
  Nat.ltb 0 before && Nat.ltb n (before + length f) = false → bounded n (f :: l).
Proof.
  intros _ Hb [H|H]%andb_false_iff.
  - apply Nat.ltb_ge in H. right. exists f. split; [left|simpl; lia].
  - apply Nat.ltb_ge in H. left. simpl. lia.
Qed.

Lemma ok_init n : ok n (init_system n).
Proof. split; simpl; try done; [by left; apply Nat.le_0_l|by auto]. Qed.

Lemma observe_app l ev :
  accepted (l ++ ev) = accepted l ++ accepted ev ∧ written (l ++ ev) = written l ++ written ev ∧
  overflows (l ++ ev) = (overflows l + overflows ev)%nat.
Proof. unfold accepted, written, overflows. by rewrite !omap_app, length_app. Qed.

(** One access by a pusher: the byte count, and the backlog. *)
Lemma push_counts n x i pc pc' b ev :
  ok n x → pushers x !! i = Some pc → push_step pc (box x) = (pc', b, ev) →
  limit b = n ∧
  (bytes (<[i := pc']> (pushers x) ≫= counted) + bytes (rx b) + bytes (held (writer x)) ≤
    queued b)%nat ∧
  bounded n ((<[i := pc']> (pushers x) ≫= committed) ++ rx b ++ held (writer x)).
Proof.
  intros [Hn Hq Hbl _ _] Hi Hs.
  destruct (bind_insert counted _ _ _ pc' Hi) as (rc & Hc1 & Hc2).
  destruct (bind_insert committed _ _ _ pc' Hi) as (rm & Hm1 & Hm2).
  pose proof (committed_counted (pushers x)) as Hle.
  unfold backlog in Hbl. rewrite (bytes_perm _ _ Hc1), bytes_app in Hq.
  rewrite (bytes_perm _ _ Hm1), (bytes_perm _ _ Hc1), !bytes_app in Hle.
  assert (Hbl' : bounded n (committed pc ++ rm ++ rx (box x) ++ held (writer x))).
  { eapply bounded_perm; [|exact Hbl]. by rewrite Hm1, <-app_assoc. }
  rewrite (bytes_perm _ _ Hc2), bytes_app.
  enough (limit b = n ∧
    (bytes (counted pc') + bytes rc + bytes (rx b) + bytes (held (writer x)) ≤ queued b)%nat ∧
    bounded n (committed pc' ++ rm ++ rx b ++ held (writer x))) as (?&?&Hb).
  { split_and!; [done..|]. eapply bounded_perm; [|exact Hb]. by rewrite Hm2, <-app_assoc. }
  destruct pc; simpl in Hs; repeat case_match; simplify_eq;
    cbn [limit queued rx counted committed set_queued set_closed take_action set_rx] in *;
    rewrite ?bytes_app in *; cbn [bytes sum_list_with] in *; (split; [done|]);
    try (split; [simpl in *; lia|done]).
  - (* counted within the limit *)
    split; [simpl in *; lia|]. simpl. eapply bounded_add; [exact Hbl'| |done].
    rewrite !bytes_app. simpl in *. lia.
  - (* sent *)
    split; [simpl in *; lia|]. eapply bounded_perm; [|exact Hbl']. simpl. solve_Permutation.
  - split; [simpl in *; lia|]. by eapply bounded_drop.
Qed.

(** ... the order of the frames, and the overflow action. *)
Lemma ok_push n x i pc pc' b ev :
  ok n x → pushers x !! i = Some pc → push_step pc (box x) = (pc', b, ev) →
  ok n (mkSystem b (<[i := pc']> (pushers x)) (writer x) (live x) (log x ++ ev)).
Proof.
  intros Hok Hi Hs. destruct (push_counts n x i pc pc' b ev Hok Hi Hs) as (? & ? & ?).
  destruct Hok as [_ _ _ Hf (Ho1 & Ho2 & Ho3)].
  pose proof (sum_insert taking _ _ _ pc' Hi) as Ht.
  destruct (observe_app (log x) ev) as (Ha & Hw & Ho).
  split; try done; cbn [box pushers writer live log]; rewrite ?Ha, ?Hw, ?Ho.
  - destruct pc; simpl in Hs; repeat case_match; simplify_eq; simpl;
      rewrite ?app_nil_r; try done; by rewrite Hf, <-!app_assoc.
  - destruct pc; simpl in Hs; repeat case_match; simplify_eq; simpl in *;
      rewrite ?Nat.add_0_r in *; split_and!; try done; try lia; auto;
      try (destruct Ho3 as [|]; [left; lia|by right]); try (destruct (on_overflow (box x)); done).
    destruct Ho3 as [|]; [lia|done].
Qed.

(** One access by the writer. *)
Lemma ok_write n x ok_ w b ev :
  ok n x → writer_step (writer x) ok_ (live x) (box x) = (w, b, ev) →
  ok n (mkSystem b (pushers x) w (live x) (log x ++ ev)).
Proof.
  intros [Hn Hq Hbl Hf (Ho1 & Ho2 & Ho3)] Hs. unfold backlog in Hbl.
  destruct (observe_app (log x) ev) as (Ha & Hw & Ho).
  assert (∀ f l, bounded n (l ++ rx (box x) ++ f :: []) → bounded n (l ++ rx (box x) ++ [])) as Hdrop.
  { intros f l H. eapply (bounded_drop _ f), bounded_perm; [|exact H]. solve_Permutation. }
  split; cbn [box pushers writer live log]; rewrite ?Ha, ?Hw, ?Ho; unfold backlog;
    cbn [box pushers writer live log].
  - destruct (writer x) as [|f|f|f []|f|lost|lost]; simpl in Hs; repeat case_match; by simplify_eq.
  - destruct (writer x) as [|f|f|f []|f|lost|lost]; simpl in Hs; repeat case_match; simplify_eq;
      simpl in *; rewrite ?H in *; simpl in *; lia.
  - destruct (writer x) as [|f|f|f []|f|lost|lost]; simpl in Hs; repeat case_match; simplify_eq;
      simpl in *; rewrite ?H in *; try done; try (by eapply Hdrop);
      (eapply bounded_perm; [|exact Hbl]); solve_Permutation.
  - destruct (writer x) as [|f|f|f []|f|lost|lost]; simpl in Hs; repeat case_match; simplify_eq;
      simpl in *; rewrite ?H, ?app_nil_r in *; try done; by rewrite Hf, <-?app_assoc.
  - destruct (writer x) as [|f|f|f []|f|lost|lost]; simpl in Hs; repeat case_match; simplify_eq;
      simpl in *; rewrite ?Nat.add_0_r; split_and!; auto;
      first [done | lia | by right | by destruct (on_overflow (box x))].
Qed.

Lemma step_ok n x y : ok n x → step x y → ok n y.
Proof.
  intros Hok Hs. destruct Hs as [x f Hl|x i pc pc' b ev Hi Hp|x ok_ w b ev Hw|x Hd].
  - destruct Hok as [Hn Hq Hbl Hf (Ho1 & Ho2 & Ho3)]. unfold backlog in *.
    split; unfold backlog; cbn [box pushers writer live log];
      rewrite ?bind_app, ?bind_singleton, ?app_nil_r, ?sum_list_with_app; try done.
    by rewrite Nat.add_0_r.
  - by eapply ok_push.
  - by eapply ok_write.
  - by destruct Hok.
Qed.

Lemma runs_ok n x : runs n x → ok n x.
Proof.
  intros Hr. unfold runs in Hr. remember (init_system n) as x0 eqn:E.
  assert (ok n x0) as H0 by (subst; apply ok_init). clear E.
  induction Hr as [|x y z Hxy Hyz IH]; [done|]. by apply IH, (step_ok n x y).
Qed.

(** ** Statements *)

(** C37. In every interleaving of any number of pushers with the writer: the
    destination receives exactly a prefix of the accepted frames, in the order
    in which they were accepted, none lost, doubled or reordered. *)
Theorem frames_delivered_in_order n x :
  runs n x → written (log x) `prefix_of` accepted (log x) ∧
    (writer x = WRecv → rx (box x) = [] → written (log x) = accepted (log x)).
Proof.
  intros Hr. destruct (runs_ok n x Hr) as [_ _ _ Hf _]. split.
  - by eexists.
  - intros Hw Hrx. rewrite Hf, Hw, Hrx. by rewrite !app_nil_r.
Qed.

(** In every interleaving the frames accepted and not yet written hold at
    most [limit] bytes, or the bytes of a single frame (which alone may exceed
    it); a peer is written off at most once, its queue being closed by then. *)
Theorem backlog_bounded n x :
  runs n x →
  ((bytes (backlog x) ≤ n)%nat ∨ ∃ f, f ∈ backlog x ∧ bytes (backlog x) = length f) ∧
  (overflows (log x) ≤ 1)%nat ∧ (overflows (log x) = 1%nat → closed (box x) = true).
Proof.
  intros Hr. destruct (runs_ok n x Hr) as [_ _ Hb _ (Ho1 & Ho2 & _)].
  split; [exact Hb|]. destruct (on_overflow (box x)); simpl in *; split; lia || done.
Qed.

(** A push that nobody interrupts. *)
Fixpoint push_alone (fuel : nat) (pc : PushPc) (s : OutboxState) (l : list Event)
    : option (bool * OutboxState * list Event) :=
  match pc, fuel with
  | PDone b, _ => Some (b, s, l)
  | _, O => None
  | _, S fuel => let '(pc, s, ev) := push_step pc s in push_alone fuel pc s (l ++ ev)
  end.
Definition push (s : OutboxState) (f : Frame) : option (bool * OutboxState * list Event) :=
  push_alone 6 (PStart f) s [].

(** An uninterrupted push returns. A closed queue refuses; otherwise a frame
    that finds the queue empty or fits is accepted (refused, and uncounted again,
    if the writer is gone), and any other closes the queue and runs the overflow
    action if it has not run. *)
Theorem push_correct s f :
  push s f = Some (
    if closed s then (false, s, [])
    else if decide (queued s = 0%nat ∨ queued s + length f ≤ limit s)%nat then
      if rx_alive s
      then (true, set_rx (rx s ++ [f]) (set_queued (queued s + length f) s), [Accepted f])
      else (false, s, [])
    else (false, take_action (set_closed s), if on_overflow s then [OverflowRan] else [])).
Proof.
  unfold push. cbn [push_alone push_step]. destruct s as [q lim [] o r a]; [done|].
  cbn [push_alone push_step closed queued limit].
  assert (Nat.ltb 0 q && Nat.ltb lim (q + length f) =
    negb (bool_decide (q = 0 ∨ q + length f ≤ lim)%nat)) as Hb.
  { case_bool_decide; destruct (Nat.ltb_spec 0 q), (Nat.ltb_spec lim (q + length f)); simpl; lia. }
  cbn [set_queued queued limit closed on_overflow rx rx_alive]. rewrite Hb. clear Hb.
  case_decide; [rewrite bool_decide_true by done|rewrite bool_decide_false by done]; simpl.
  - destruct a; simpl; [done|]. unfold set_queued; simpl. by rewrite Nat.add_sub.
  - unfold set_queued; simpl. rewrite Nat.add_sub. by destruct o.
Qed.

(** ** A run *)

(** Two frames pushed and written, in an interleaving where the second push
    starts before the first one ends. *)
Definition ex_frames : list Frame := [[1; 2; 3]; [4]].
Definition ex_system : System :=
  mkSystem (mkOutboxState 0 2 false true [] true) [PDone true; PDone true] WRecv true
    [Accepted [1; 2; 3]; Wrote [1; 2; 3]; Accepted [4]; Wrote [4]].

Ltac run_push i := eapply rtc_l; [eapply (step_push _ i); reflexivity|cbn].
Ltac run_writer := eapply rtc_l; [eapply (step_write _ true); reflexivity|cbn].
Lemma ex_runs : runs 2 ex_system.
Proof.
  unfold runs, init_system, ex_system.
  eapply rtc_l; [apply (step_call _ [1; 2; 3]); done|]. cbn.
  run_push 0%nat. run_push 0%nat. eapply rtc_l; [apply (step_call _ [4]); done|]. cbn.
  run_push 1%nat. run_push 0%nat. run_writer. run_writer. run_writer. run_writer.
  run_push 1%nat. run_push 1%nat. run_writer. run_writer. run_writer. run_writer. apply rtc_refl.
Qed.

Lemma frames_delivered_in_order_witness :
  accepted (log ex_system) = ex_frames ∧ written (log ex_system) `prefix_of` accepted (log ex_system) ∧
    (writer ex_system = WRecv → rx (box ex_system) = [] →
      written (log ex_system) = accepted (log ex_system)).
Proof.
  split; [vm_compute; reflexivity|]. apply (frames_delivered_in_order 2). apply ex_runs.
Defined.

Lemma backlog_bounded_witness :
  ((bytes (backlog ex_system) ≤ 2)%nat ∨
    ∃ f, f ∈ backlog ex_system ∧ bytes (backlog ex_system) = length f) ∧
  (overflows (log ex_system) ≤ 1)%nat ∧
  (overflows (log ex_system) = 1%nat → closed (box ex_system) = true).
Proof. apply (backlog_bounded 2). apply ex_runs. Defined.
