(* ===== verification/Conc.v ===== *)
(** * Tasks over shared state

    The server runs one task per connection and per timer over state behind
    locks. A task is modelled as the sequence of its critical sections: what it
    does while it holds a lock, or in one atomic access, is one indivisible step
    on the shared state ([Sec]); between two steps any other task may run.

    [run] executes a task without interference (the sequential behaviour);
    [pool_step] interleaves any number of tasks. [safe] is a rely-guarantee
    judgement: under an invariant [I] and a preorder [R] that every step of
    every task respects, the task never panics and respects both; [pool_safe]
    says that safe tasks may be interleaved at will. *)

From S2P Require Import Prelude.

(** ** Critical sections *)

(** A computation on the state with outputs; [None] is a panic. *)
Definition Sec (S O A : Type) : Type := S → option (A * (S * list O)).
#[export] Instance Sec_ret {S O} : MRet (Sec S O) := λ A x s, Some (x, (s, [])).
#[export] Instance Sec_bind {S O} : MBind (Sec S O) := λ A B f m s,
  match m s with
  | Some (x, (s, o)) =>
      match f x s with Some (y, (s, o')) => Some (y, (s, o ++ o')) | None => None end
  | None => None
  end.
Definition sget {S O A} (f : S → A) : Sec S O A := λ s, Some (f s, (s, [])).
Definition smodify {S O} (f : S → S) : Sec S O unit := λ s, Some ((), (f s, [])).
Definition semit {S O} (o : O) : Sec S O unit := λ s, Some ((), (s, [o])).
Definition sof_option {S O A} (x : option A) : Sec S O A := λ s, (λ x, (x, (s, []))) <$> x.
Definition swhen {S O} (b : bool) (m : Sec S O unit) : Sec S O unit := if b then m else mret ().

(** ** Tasks *)

Inductive Task (S O A : Type) : Type :=
| Done (a : A)
| Atomic (k : S → option (S * list O * Task S O A)).
Arguments Done {S O A} a.
Arguments Atomic {S O A} k.

Definition atomic {S O A} (m : Sec S O A) : Task S O A :=
  Atomic (λ s, match m s with Some (a, (s, o)) => Some (s, o, Done a) | None => None end).
Fixpoint tbind {S O A B} (f : A → Task S O B) (t : Task S O A) : Task S O B :=
  match t with
  | Done a => f a
  | Atomic k =>
      Atomic (λ s, match k s with Some (s, o, t) => Some (s, o, tbind f t) | None => None end)
  end.
#[export] Instance Task_ret {S O} : MRet (Task S O) := λ A a, Done a.
#[export] Instance Task_bind {S O} : MBind (Task S O) := λ A B f t, tbind f t.
Definition twhen {S O} (b : bool) (t : Task S O unit) : Task S O unit := if b then t else mret ().
Fixpoint for_each {S O A} (l : list A) (f : A → Task S O unit) : Task S O unit :=
  match l with [] => mret () | x :: l => f x;; for_each l f end.

(** ** Running alone *)

Fixpoint run {S O A} (t : Task S O A) (s : S) : option (A * (S * list O)) :=
  match t with
  | Done a => Some (a, (s, []))
  | Atomic k =>
      match k s with
      | Some (s, o, t) =>
          match run t s with Some (a, (s, o')) => Some (a, (s, o ++ o')) | None => None end
      | None => None
      end
  end.

(** ** Running together *)

Section pool.
Context {S O : Type} (spawnable : Task S O unit → Prop).
Abbreviation Pool := (list (Task S O unit) * S)%type.

Inductive pool_step : Pool → Pool → Prop :=
| pool_spawn l s t : spawnable t → pool_step (l, s) (l ++ [t], s)
| pool_exec l s i k s' o t :
    l !! i = Some (Atomic k) → k s = Some (s', o, t) → pool_step (l, s) (<[i := t]> l, s').

(** A task that would panic. *)
Definition panicking (p : Pool) : Prop := ∃ i k, p.1 !! i = Some (Atomic k) ∧ k p.2 = None.
End pool.

(** ** Equations *)

Section equations.
Context {S O : Type}.

Lemma run_atomic {A} (m : Sec S O A) s : run (atomic m) s = m s.
Proof. simpl. destruct (m s) as [[a [s' o]]|]; simpl; [|done]. by rewrite app_nil_r. Qed.
Lemma run_ret {A} (a : A) s : run (mret a : Task S O A) s = Some (a, (s, [])).
Proof. done. Qed.
Lemma run_bind {A B} (t : Task S O A) (f : A → Task S O B) s :
  run (t ≫= f) s =
    match run t s with
    | Some (a, (s, o)) =>
        match run (f a) s with Some (b, (s, o')) => Some (b, (s, o ++ o')) | None => None end
    | None => None
    end.
Proof.
  revert t s. fix IH 1. intros [a|k] s; unfold mbind, Task_bind in *.
  - simpl. destruct (run (f a) s) as [[b [s' o]]|]; done.
  - simpl. destruct (k s) as [[[s' o] t]|]; [|done]. rewrite IH.
    destruct (run t s') as [[a [s1 o1]]|]; [|done].
    destruct (run (f a) s1) as [[b [s2 o2]]|]; [|done]. by rewrite app_assoc.
Qed.
End equations.

(** A task that runs alone is one of the interleavings. *)
Lemma run_steps {S O} (spawnable : Task S O unit → Prop) (t : Task S O unit) s s' o l i :
  run t s = Some ((), (s', o)) → l !! i = Some t →
  rtc (pool_step spawnable) (l, s) (<[i := Done ()]> l, s').
Proof.
  revert t s o l. fix IH 1. intros [[]|k] s o l Hrun Hi; simpl in Hrun.
  - simplify_eq. by rewrite list_insert_id.
  - destruct (k s) as [[[s1 o1] t1]|] eqn:Hk; [|done].
    destruct (run t1 s1) as [[[] [s2 o2]]|] eqn:Hrun1; [|done]. simplify_eq.
    eapply rtc_l; [by apply (pool_exec _ l s i k s1 o1 t1)|].
    rewrite <-(list_insert_insert_eq l i (Done ()) t1).
    eapply IH; [exact Hrun1|]. rewrite list_lookup_insert_eq; [done|by eapply lookup_lt_Some].
Qed.

(** ** Safety *)

Section safe.
Context {S O : Type} (I : S → Prop) (R : S → S → Prop) `{!PreOrder R}.

(** [safe Q s0 t]: started at [s0] or any later state, [t] keeps [I] and [R],
    never panics, and ends with [Q]. *)
Inductive safe {A} (Q : A → S → Prop) : S → Task S O A → Prop :=
| safe_done s0 a : (∀ s, R s0 s → I s → Q a s) → safe Q s0 (Done a)
| safe_atomic s0 k :
    (∀ s, R s0 s → I s → is_Some (k s)) →
    (∀ s s' o t, R s0 s → I s → k s = Some (s', o, t) → I s' ∧ R s s') →
    (∀ s s' o t, R s0 s → I s → k s = Some (s', o, t) → safe Q s' t) →
    safe Q s0 (Atomic k).

Lemma safe_later {A} (Q : A → S → Prop) s0 s1 t : R s0 s1 → safe Q s0 t → safe Q s1 t.
Proof.
  intros H01 Ht. destruct Ht as [s0 a Ha|s0 k H1 H2 H3].
  - constructor. intros s Hs. apply Ha. by trans s1.
  - constructor; [intros s Hs; apply H1|intros s s' o t Hs; apply H2|intros s s' o t Hs; apply H3];
      by trans s1.
Qed.

Lemma safe_mono {A} (Q Q' : A → S → Prop) s0 t :
  (∀ a s, R s0 s → I s → Q a s → Q' a s) → safe Q s0 t → safe Q' s0 t.
Proof.
  intros HQ Ht. induction Ht as [s0 a Ha|s0 k H1 H2 _ IH]; constructor.
  - auto.
  - auto.
  - auto.
  - intros s s' o t Hs HI Hk. eapply IH; [done..|]. destruct (H2 s s' o t Hs HI Hk) as [_ Hss].
    intros a u Hu. apply HQ. trans s; [done|]. by trans s'.
Qed.

Lemma safe_ret {A} (Q : A → S → Prop) s0 a :
  (∀ s, R s0 s → I s → Q a s) → safe Q s0 (mret a).
Proof. by constructor. Qed.

Lemma safe_now {A} (Q : A → S → Prop) s0 t :
  (∀ s, R s0 s → I s → safe Q s t) → safe Q s0 t.
Proof.
  intros Ht. destruct t as [a|k]; constructor.
  - intros s Hs HI. specialize (Ht s Hs HI). inversion Ht as [? ? Ha|]; subst. by apply Ha.
  - intros s Hs HI. specialize (Ht s Hs HI). inversion Ht as [|? ? H1 _ _]; subst. by apply H1.
  - intros s s' o t Hs HI Hk. specialize (Ht s Hs HI). inversion Ht as [|? ? _ H2 _]; subst. by eapply H2.
  - intros s s' o t Hs HI Hk. specialize (Ht s Hs HI). inversion Ht as [|? ? _ _ H3]; subst. by eapply H3.
Qed.

Lemma safe_bind {A B} (Q : A → S → Prop) (Q' : B → S → Prop) s0 t (f : A → Task S O B) :
  safe Q s0 t → (∀ a s, R s0 s → I s → Q a s → safe Q' s (f a)) → safe Q' s0 (t ≫= f).
Proof.
  intros Ht Hf. unfold mbind, Task_bind.
  induction Ht as [s0 a Ha|s0 k H1 H2 _ IH]; cbn [tbind].
  - apply safe_now. auto.
  - constructor.
    + intros s Hs HI. destruct (H1 s Hs HI) as [[[s' o] t] ->]. by eexists.
    + intros s s' o t Hs HI. destruct (k s) as [[[s1 o1] t1]|] eqn:Hk; [|done].
      intros [= <- <- <-]. by eapply H2.
    + intros s s' o t Hs HI. destruct (k s) as [[[s1 o1] t1]|] eqn:Hk; [|done].
      intros [= <- <- <-]. eapply IH; [done..|]. destruct (H2 _ _ _ _ Hs HI Hk) as [_ Hss].
      intros a u Hu. apply Hf. trans s; [done|]. by trans s1.
Qed.

Lemma safe_for_each {A} s0 (l : list A) (f : A → Task S O unit) :
  (∀ x s, x ∈ l → R s0 s → I s → safe (λ _ _, True) s (f x)) →
  safe (λ _ _, True) s0 (for_each l f).
Proof.
  revert s0. induction l as [|x l IH]; intros s0 Hl; [by apply safe_ret|].
  apply (safe_bind (λ _ _, True)).
  - apply safe_now. intros s. by apply Hl; left.
  - intros _ s Hs HI _. apply IH. intros y u Hy Hu. apply Hl; [by right|by trans s].
Qed.

(** One section: total, and it keeps [I] and [R]. *)
Definition section_ok {A} (m : Sec S O A) (Q : A → S → Prop) (s : S) : Prop :=
  ∃ a s' o, m s = Some (a, (s', o)) ∧ I s' ∧ R s s' ∧ ∀ u, R s' u → I u → Q a u.

Lemma safe_section {A} (m : Sec S O A) (Q : A → S → Prop) s0 :
  (∀ s, R s0 s → I s → section_ok m Q s) → safe Q s0 (atomic m).
Proof.
  intros Hm. constructor.
  - intros s Hs HI. destruct (Hm s Hs HI) as (a & s' & o & -> & _). by eexists.
  - intros s s' o t Hs HI. destruct (Hm s Hs HI) as (a & s1 & o1 & -> & H1 & H2 & _).
    by intros [= <- <- <-].
  - intros s s' o t Hs HI. destruct (Hm s Hs HI) as (a & s1 & o1 & -> & H1 & H2 & H3).
    intros [= <- <- <-]. by constructor.
Qed.

(** Alone, a safe task runs to its end. *)
Lemma safe_run {A} (Q : A → S → Prop) s t :
  safe Q s t → I s → ∃ a s' o, run t s = Some (a, (s', o)) ∧ I s' ∧ R s s' ∧ Q a s'.
Proof.
  intros Ht. induction Ht as [s a Ha|s k H1 H2 _ IH]; intros HI.
  - exists a, s, []. split_and!; [done..|]. by apply Ha.
  - destruct (H1 s) as [[[s1 o1] t1] Hk]; [done..|]. destruct (H2 s s1 o1 t1) as [HI1 HR1]; [done..|].
    destruct (IH s s1 o1 t1) as (a & s' & o & Hrun & HI' & HR' & HQ); [done..|].
    exists a, s', (o1 ++ o). simpl. rewrite Hk, Hrun. split_and!; [done|done|by trans s1|done].
Qed.

(** Safe tasks, interleaved. *)
Section pool_safety.
Context (spawnable : Task S O unit → Prop).
Hypothesis Hspawn : ∀ t s, spawnable t → I s → safe (λ _ _, True) s t.

Definition pool_ok (s0 : S) (p : list (Task S O unit) * S) : Prop :=
  I p.2 ∧ R s0 p.2 ∧ Forall (safe (λ _ _, True) p.2) p.1.

Lemma pool_step_ok s0 p q : pool_ok s0 p → pool_step spawnable p q → pool_ok s0 q.
Proof.
  intros (HI & HR & Hall) Hs. destruct Hs as [l s t Ht|l s i k s' o t Hi Hk]; unfold pool_ok in *; simpl in *.
  - split_and!; [done..|]. apply Forall_app. split; [done|]. constructor; [by apply Hspawn|done].
  - pose proof (Forall_lookup_1 _ _ _ _ Hall Hi) as Hsafe. inversion Hsafe as [|? ? H1 H2 H3]; subst.
    destruct (H2 s s' o t) as [HI' Hss]; [done..|]. split_and!; [done|by trans s|].
    apply Forall_insert.
    + eapply Forall_impl; [exact Hall|]. intros u Hu. by apply (safe_later _ s).
    + eapply (H3 s); [reflexivity|exact HI|exact Hk].
Qed.

Lemma pool_safe s0 p :
  I s0 → rtc (pool_step spawnable) ([], s0) p → I p.2 ∧ R s0 p.2 ∧ ¬ panicking p.
Proof.
  intros HI Hr.
  assert (pool_ok s0 p) as (H1 & H2 & Hall).
  { assert (pool_ok s0 ([], s0)) as H0 by by repeat split.
    remember ([], s0) as p0 eqn:E. clear E. induction Hr as [|x y z Hxy Hyz IH]; [done|].
    apply IH, (pool_step_ok s0 x y H0 Hxy). }
  split_and!; [done..|]. intros (i & k & Hi & Hk).
  pose proof (Forall_lookup_1 _ _ _ _ Hall Hi) as Hsafe. inversion Hsafe as [|? ? H3 _ _]; subst.
  destruct (H3 p.2) as [x Hx]; [done..|]. congruence.
Qed.
End pool_safety.
End safe.
