(* ===== verification/Server.v ===== *)
(** * The rendezvous server (dessplay-rendezvous/src/server.rs)

    The tasks of the server over its shared state: one critical section (a
    [lock] scope or an atomic access) is one step ([Conc]). What the server
    reads from outside (the clocks, whether a storage or a send succeeded) is a
    sequence of readings, consumed in order: the theorems quantify over it.

    The SQLite tables the server uses are a record ([Storage]); a [HashMap] is a
    [gmap], whose fixed order stands for the unspecified one. A connection is
    its id. What the server sends is an output. *)

From S2P Require Import Prelude Types Text Lww Vclock CrdtMap Identifier State Fields StateRepr.
From S2P Require Import Convergence Resolve Playlist View Writes Compact Franchise Message.
From S2P Require Import SeriesIdentity EpisodeParse Derive Transfer AuthLimit Conc.

(** ** Data *)

(** [CompactionSchedule], [ServerConfig] (the parts the modelled code reads). *)
Inductive CompactionSchedule := DailyUtc (hour minute : Z) | Every (period : Z) | Disabled.
Record ServerConfig := mkServerConfig {
  password : string;
  auth_limit : AuthLimit;
  compaction : CompactionSchedule;
  chat_keep : nat
}.
Definition ServerConfig_new (password : string) : ServerConfig :=
  mkServerConfig password AuthLimit_default (DailyUtc 12 0) (Z.to_nat 10000).

Inductive RelayTransport := Eager | DatagramOnly.
#[export] Instance RelayTransport_eq_dec : EqDecision RelayTransport.
Proof. solve_decision. Defined.
(** [relay_transport]. *)
Definition relay_transport (op : CrdtOp) (via_datagram : bool) : RelayTransport :=
  match op with
  | OpPlaybackPos _ => if via_datagram then DatagramOnly else Eager
  | _ => Eager
  end.

Abbreviation ConnId := Z (only parsing).

Record PeerEntry := mkPeerEntry {
  en_conn_id : ConnId;
  en_conn : option ConnId;
  en_transfer_token : Z;
  en_transfer_conn : option ConnId;
  en_transfer_conn_id : option ConnId;
  en_relay_tx : option Z;
  en_info : PeerInfo;
  en_lost_at : option Z
}.

(** The tables: the stored snapshot with its date, the known users, the chat
    archive, the curator's token. *)
Record Storage := mkStorage {
  st_saved : option (StateSnapshot * Z);
  st_known : gmap UserId Z;
  st_archive : gset ChatMessage;
  st_token : option string
}.

(** [Shared]; [sv_reads] counts the outside readings consumed. *)
Record Shared := mkShared {
  sv_peers : gmap UserId PeerEntry;
  sv_grace_file : option Ed2kHash;
  sv_state : CrdtState;
  sv_epoch : Epoch;
  sv_last_issued : Z;
  sv_dirty : bool;
  sv_storage : option Storage;
  sv_limiter : AuthLimiter;
  sv_reads : nat
}.
Definition put_peers (x : gmap UserId PeerEntry) (s : Shared) : Shared :=
  mkShared x (sv_grace_file s) (sv_state s) (sv_epoch s) (sv_last_issued s) (sv_dirty s)
    (sv_storage s) (sv_limiter s) (sv_reads s).
Definition put_grace_file (x : option Ed2kHash) (s : Shared) : Shared :=
  mkShared (sv_peers s) x (sv_state s) (sv_epoch s) (sv_last_issued s) (sv_dirty s)
    (sv_storage s) (sv_limiter s) (sv_reads s).
Definition put_crdt (x : CrdtState) (s : Shared) : Shared :=
  mkShared (sv_peers s) (sv_grace_file s) x (sv_epoch s) (sv_last_issued s) (sv_dirty s)
    (sv_storage s) (sv_limiter s) (sv_reads s).
Definition put_epoch (x : Epoch) (s : Shared) : Shared :=
  mkShared (sv_peers s) (sv_grace_file s) (sv_state s) x (sv_last_issued s) (sv_dirty s)
    (sv_storage s) (sv_limiter s) (sv_reads s).
Definition put_issued (x : Z) (s : Shared) : Shared :=
  mkShared (sv_peers s) (sv_grace_file s) (sv_state s) (sv_epoch s) x (sv_dirty s)
    (sv_storage s) (sv_limiter s) (sv_reads s).
Definition put_sv_dirty (x : bool) (s : Shared) : Shared :=
  mkShared (sv_peers s) (sv_grace_file s) (sv_state s) (sv_epoch s) (sv_last_issued s) x
    (sv_storage s) (sv_limiter s) (sv_reads s).
Definition put_storage (x : option Storage) (s : Shared) : Shared :=
  mkShared (sv_peers s) (sv_grace_file s) (sv_state s) (sv_epoch s) (sv_last_issued s)
    (sv_dirty s) x (sv_limiter s) (sv_reads s).
Definition put_limiter (x : AuthLimiter) (s : Shared) : Shared :=
  mkShared (sv_peers s) (sv_grace_file s) (sv_state s) (sv_epoch s) (sv_last_issued s)
    (sv_dirty s) (sv_storage s) x (sv_reads s).
Definition put_reads (x : nat) (s : Shared) : Shared :=
  mkShared (sv_peers s) (sv_grace_file s) (sv_state s) (sv_epoch s) (sv_last_issued s)
    (sv_dirty s) (sv_storage s) (sv_limiter s) x.

(** What the server does to the outside. *)
Inductive Out :=
| OControl (conn : ConnId) (msg : ServerControl)
| ODatagram (conn : ConnId) (msg : ServerControl)
| ORelay (outbox : Z) (envelope : RelayEnvelope)
| OAdmit (conn : ConnId)
| OClose (conn : ConnId) (reason : string)
| OTransferAdmit (conn : ConnId)
| OTransferClose (conn : ConnId) (reason : string).

(** [TransportEvent]; a frame that does not decode is [None]. *)
Inductive TransportEvent :=
| EvControl (msg : option ServerControl)
| EvDatagram (msg : option ServerControl)
| EvStream
| EvClosed (reason : string).

Inductive AuthedEnd := EndGoodbye | EndLost (reason : string).

(** The readings: the wall clock (ms), the monotonic clock (ns), and whether the
    storage access or send made then succeeded. *)
Record World := mkWorld { w_clock : nat → Z; w_instant : nat → Z; w_ok : nat → bool }.

Abbreviation SecM := (Sec Shared Out).
Abbreviation TaskM := (Task Shared Out).

(** Rust's [as i64] and [as u64]. *)
Definition as_i64 (x : Z) : Z := (x + 2 ^ 63) mod 2 ^ 64 - 2 ^ 63.
Definition as_u64 (x : Z) : Z := x mod 2 ^ 64.

Definition DEPART_AFTER_MILLIS : Z := 30000.
Definition KNOWN_USER_RETENTION_MILLIS : Z := 30 * 24 * 60 * 60 * 1000.

(** [millis_until_daily_utc]. *)
Definition millis_until_daily_utc (now hour minute : Z) : Z :=
  let DAY := 24 * 60 * 60 * 1000 in
  let target := (hour * 60 + minute) * 60 * 1000 in
  let into_day := now mod DAY in
  let wait := (target + DAY - into_day) mod DAY in
  if wait =? 0 then DAY else wait.

(** [resolve_value(&state.now_playing).flatten()]. *)
Definition playing_file (s : CrdtState) : option Ed2kHash := mjoin (resolve_value (now_playing s)).

(** Updating one field of a peer's public data. *)
Definition set_presence (p : Presence) (i : PeerInfo) : PeerInfo :=
  mkPeerInfo (peer_username i) (peer_role i) p (peer_addresses i) (peer_connected_since i)
    (peer_grace_until i).
Definition set_grace (g : option Z) (i : PeerInfo) : PeerInfo :=
  mkPeerInfo (peer_username i) (peer_role i) (peer_presence i) (peer_addresses i)
    (peer_connected_since i) g.
Definition put_info (i : PeerInfo) (e : PeerEntry) : PeerEntry :=
  mkPeerEntry (en_conn_id e) (en_conn e) (en_transfer_token e) (en_transfer_conn e)
    (en_transfer_conn_id e) (en_relay_tx e) i (en_lost_at e).

Section server.
Context (md4 : list Z → Z).
Context (encode_view : StateView → option (list Z)) (sha256 : list Z → list Z).
(** [wire::encode], the transport's datagram limit, the SQL title search. *)
Context (encode : ServerControl → option (list Z)) (encode_relay : RelayEnvelope → option (list Z)).
Context (max_datagram_size : ConnId → option Z).
Context (search_titles : Storage → string → list AniDbSearchHit).
Context (W : World).

(** ** Readings *)

Definition reading {A} (f : nat → A) : SecM A :=
  n ← sget sv_reads; smodify (put_reads (S n));; mret (f n).
Definition now : SecM Z := reading (w_clock W).
Definition instant_now : SecM Z := reading (w_instant W).
Definition succeeds : SecM bool := reading (w_ok W).

(** ** [Registry] and [Shared] *)

(** [peer_infos]. *)
Definition infos_of (peers : gmap UserId PeerEntry) : list PeerInfo :=
  sort_by (λ a b, cmp (peer_username a) (peer_username b)) (en_info <$> (map_to_list peers).*2).
Definition peer_infos : SecM (list PeerInfo) := sget (λ s, infos_of (sv_peers s)).

(** [snapshot]. *)
Definition snapshot : SecM StateSnapshot := sget (λ s, mkStateSnapshot (sv_epoch s) (sv_state s)).

(** [stamp], [observe]. *)
Definition stamp : SecM SharedTimestamp :=
  t ← now;
  prev ← sget sv_last_issued;
  let ts := Z.max t (u64_wrap (prev + 1)) in
  smodify (put_issued ts);; mret ts.
Definition observe (ts : option SharedTimestamp) : SecM unit :=
  match ts with
  | Some ts => smodify (λ s, put_issued (Z.max (sv_last_issued s) ts) s)
  | None => mret ()
  end.

(** [flush]. *)
Definition flush : TaskM unit :=
  dirty ← atomic (d ← sget sv_dirty; smodify (put_sv_dirty false);; mret d);
  twhen dirty
    (snapshot ← atomic snapshot;
     t ← atomic now;
     atomic (storage ← sget sv_storage;
             match storage with
             | None => mret ()
             | Some st =>
                 ok ← succeeds;
                 if ok : bool then smodify (put_storage (Some
                   (mkStorage (Some (snapshot, as_i64 t)) (st_known st) (st_archive st) (st_token st))))
                 else smodify (put_sv_dirty true)
             end)).

(** [live_conns]. *)
Definition live_conns (skip : option ConnId) : SecM (list ConnId) :=
  sget (λ s, omap en_conn (filter (λ e, Some (en_conn_id e) ≠ skip) (map_to_list (sv_peers s)).*2)).

(** [broadcast_op]; the bytes of the frame decide whether it fits a datagram. *)
Definition send_op_to (msg : ServerControl) (frame : list Z) (transport : RelayTransport)
    (conn : ConnId) : SecM unit :=
  let fits_datagram :=
    match max_datagram_size conn with
    | Some max => Z.of_nat (length frame) <=? max
    | None => false
    end in
  swhen (bool_decide (transport = Eager)) (semit (OControl conn msg));;
  swhen fits_datagram (semit (ODatagram conn msg)).
Definition broadcast_op (msg : ServerControl) (skip : option ConnId) (transport : RelayTransport)
    : TaskM unit :=
  match encode msg with
  | None => mret ()
  | Some frame =>
      conns ← atomic (live_conns skip);
      for_each conns (λ conn, atomic (send_op_to msg frame transport conn))
  end.

(** [broadcast_control]. *)
Definition broadcast_control (msg : ServerControl) (skip : option ConnId) : TaskM unit :=
  match encode msg with
  | None => mret ()
  | Some _ =>
      conns ← atomic (live_conns skip);
      for_each conns (λ conn, atomic (semit (OControl conn msg)))
  end.

(** [send_to]. *)
Definition send_to (conn : ConnId) (msg : ServerControl) : SecM bool :=
  match encode msg with
  | None => mret false
  | Some _ => semit (OControl conn msg);; succeeds
  end.

(** [forward]. *)
Definition forward (from to : UserId) (message : list Z) : TaskM bool :=
  relay_tx ← atomic (sget (λ s, sv_peers s !! to ≫= en_relay_tx));
  match relay_tx with
  | None => mret false
  | Some relay_tx =>
      let envelope := Forwarded from message in
      match encode_relay envelope with
      | None => mret false
      | Some _ => atomic (semit (ORelay relay_tx envelope);; succeeds)
      end
  end.

(** [broadcast_server_op], [server_write]. *)
Definition broadcast_server_op (epoch : Epoch) (op : CrdtOp) : TaskM unit :=
  atomic (smodify (put_sv_dirty true));;
  broadcast_op (StateOp epoch op) None Eager.
Definition apply_write (w : LocalWrite) (ts : SharedTimestamp) : SecM (Epoch * CrdtOp) :=
  s ← sget id;
  let '(state, op) := run_write w SERVER ts (sv_state s) in
  smodify (put_crdt state);; mret (sv_epoch s, op).
Definition server_write (w : LocalWrite) : TaskM unit :=
  ts ← atomic stamp;
  '(epoch, op) ← atomic (apply_write w ts);
  broadcast_server_op epoch op.

(** [known_offline]. *)
Definition known_offline (peers : list PeerInfo) : SecM (list KnownUser) :=
  storage ← sget sv_storage;
  match storage with
  | None => mret []
  | Some st =>
      t ← now;
      let cutoff := as_i64 (u64_saturating_sub t KNOWN_USER_RETENTION_MILLIS) in
      ok ← succeeds;
      if ok : bool then
        mret ((λ kv, mkKnownUser kv.1 (as_u64 kv.2)) <$>
          filter (λ kv, cutoff ≤ kv.2 ∧
                        existsb (λ p, bool_decide (peer_username p = kv.1) &&
                                      bool_decide (peer_presence p = Present)) peers = false)
            (map_to_list (st_known st)))
      else mret []
  end.

(** [record_seen]. *)
Definition record_seen (username : UserId) (at_ : Z) : SecM unit :=
  storage ← sget sv_storage;
  match storage with
  | None => mret ()
  | Some st =>
      ok ← succeeds;
      swhen ok (smodify (put_storage (Some
        (mkStorage (st_saved st) (<[username := as_i64 at_]> (st_known st)) (st_archive st)
           (st_token st)))))
  end.

(** [broadcast_peer_list]. *)
Definition broadcast_peer_list : TaskM unit :=
  peers ← atomic peer_infos;
  known ← atomic (known_offline peers);
  broadcast_control (PeerList peers known) None.

(** [close_grace_windows]. *)
Definition windows_open (s : Shared) : bool :=
  bool_decide (is_Some (sv_grace_file s)) ||
  existsb (λ e, bool_decide (is_Some (peer_grace_until (en_info e)))) (map_to_list (sv_peers s)).*2.
Definition close_grace_windows : SecM bool :=
  any ← sget windows_open;
  smodify (λ s, put_grace_file None
    (put_peers ((λ e, put_info (set_grace None (en_info e)) e) <$> sv_peers s) s));;
  mret any.

(** [follow_laggard]. *)
Definition follow_laggard (file : Ed2kHash) : TaskM unit :=
  playing ← atomic (sget (λ s, playing_file (sv_state s)));
  twhen (bool_decide (playing = Some file)) (server_write (WSeekAuthority (AuthLaggard file))).

(** [force_pause]. *)
Definition force_pause : TaskM unit :=
  server_write (WPlaybackIntent IntentPaused);;
  file ← atomic (sget sv_grace_file);
  any ← atomic close_grace_windows;
  twhen any
    (match file with Some file => follow_laggard file | None => mret () end;;
     broadcast_peer_list).

(** [saved_position_op]. *)
Definition saved_position_op (peers : list PeerInfo) (file : Ed2kHash) : SecM (option CrdtOp) :=
  s ← sget sv_state;
  v ← sof_option (view s);
  match Derive.saved_position v peers file with
  | None => mret None
  | Some millis =>
      ts ← stamp;
      '(_, op) ← apply_write (WSavedPosition file millis) ts;
      mret (Some op)
  end.

(** [open_grace_window]. *)
Definition open_window (user : UserId) (conn_id : ConnId) (until : Z) (file : option Ed2kHash)
    : SecM bool :=
  e ← sget (λ s, sv_peers s !! user);
  match e with
  | Some entry =>
      if bool_decide (en_conn_id entry = conn_id) &&
         bool_decide (peer_presence (en_info entry) = Lost)
      then
        smodify (λ s, put_grace_file file
          (put_peers (<[user := put_info (set_grace (Some until) (en_info entry)) entry]>
             (sv_peers s)) s));;
        mret true
      else mret false
  | None => mret false
  end.
Definition open_grace_window (user : UserId) (conn_id : ConnId) (before_leave : list PeerInfo)
    : TaskM bool :=
  t ← atomic now;
  v ← atomic (s ← sget sv_state; sof_option (view s));
  known ← atomic (known_offline before_leave);
  let gating := merge_known_offline before_leave known t in
  if negb (playback_active md4 v gating) then mret false
  else atomic (open_window user conn_id (u64_wrap (t + OUTAGE_GRACE_MILLIS)) (v_now_playing v)).

(** [reconcile_grace_windows]. *)
Definition reconcile_grace_windows : TaskM unit :=
  g ← atomic (sget sv_grace_file);
  match g with
  | None => mret ()
  | Some file =>
      '(paused, moved) ← atomic (sget (λ s,
        (bool_decide (resolve_value (playback_intent (sv_state s)) ≠ Some IntentPlaying),
         bool_decide (playing_file (sv_state s) ≠ Some file))));
      if negb (paused || moved) then mret ()
      else
        any ← atomic close_grace_windows;
        twhen any (twhen (negb moved) (follow_laggard file);; broadcast_peer_list)
  end.

(** [pin_rejoin_anchor]. *)
Definition laggard_resumed (s : CrdtState) : option Ed2kHash :=
  match resolve_value (seek_authority s) with
  | Some (AuthLaggard file) =>
      if bool_decide (resolve_value (playback_intent s) = Some IntentPlaying) then Some file else None
  | _ => None
  end.
Definition pin_rejoin_anchor : TaskM unit :=
  laggard_file ← atomic (sget (λ s, laggard_resumed (sv_state s)));
  match laggard_file with
  | None => mret ()
  | Some file =>
      peers ← atomic peer_infos;
      known ← atomic (known_offline peers);
      t ← atomic now;
      let gating := merge_known_offline peers known t in
      v ← atomic (s ← sget sv_state; sof_option (view s));
      if bool_decide (v_now_playing v ≠ Some file) then mret ()
      else if negb (playback_active md4 v gating) then mret ()
      else
        let authority :=
          match rejoin_laggard v peers with
          | Some (user, _) => AuthAnchor user file
          | None => AuthServer
          end in
        server_write (WSeekAuthority authority)
  end.

(** [take_authority_from]. *)
Definition holds_authority (s : CrdtState) (user : UserId) : bool :=
  match resolve_value (seek_authority s) with
  | Some (AuthUser seek) => bool_decide (seek_user seek = user)
  | Some (AuthAnchor holder _) => bool_decide (holder = user)
  | _ => false
  end.
Definition take_authority_from (user : UserId) : TaskM unit :=
  holds ← atomic (sget (λ s, holds_authority (sv_state s) user));
  twhen holds (server_write (WSeekAuthority AuthServer)).

(** ** The AniDB worker's writes (its [AniDbHost]) *)

Definition write_metadata (hash : Ed2kHash) (metadata : AniDbMetadata) : TaskM unit :=
  server_write (WAniDbMetadata hash (Some metadata)).
Definition write_relations (series : AniDbSeriesId) (relations : SeriesRelations) : TaskM unit :=
  server_write (WSeriesRelations series relations).
Definition write_catalog (hash : Ed2kHash) (entry : FileCatalogEntry) : TaskM unit :=
  server_write (WFileCatalog hash entry).

(** ** The timers *)

(** The StateHash tick of [run]. *)
Definition hash_tick : TaskM unit :=
  msg ← atomic (s ← sget id;
                hash ← sof_option (view_hash encode_view sha256 (sv_state s));
                mret (StateHash (sv_epoch s) hash));
  broadcast_control msg None.

(** [sweep_departed]. *)
Definition departs (t : Z) (e : PeerEntry) : bool :=
  bool_decide (peer_presence (en_info e) = Lost) &&
  match en_lost_at e with
  | Some lost => DEPART_AFTER_MILLIS <=? u64_saturating_sub t lost
  | None => false
  end.
Definition promote_departed (t : Z) : SecM (list (UserId * Role)) :=
  peers ← sget sv_peers;
  smodify (put_peers ((λ e, if departs t e then put_info (set_presence Departed (en_info e)) e else e)
    <$> peers));;
  mret ((λ kv, (kv.1, peer_role (en_info kv.2))) <$>
    filter (λ kv, departs t kv.2 = true) (map_to_list peers)).
Definition sweep_departed : TaskM unit :=
  t ← atomic now;
  promoted ← atomic (promote_departed t);
  match promoted with
  | [] => mret ()
  | _ :: _ =>
      broadcast_peer_list;;
      for_each promoted (λ '(user, role),
        twhen (bool_decide (role = Interactive)) (take_authority_from user))
  end.

(** [sweep_grace]. *)
Definition grace_expired (t : Z) (e : PeerEntry) : bool :=
  match peer_grace_until (en_info e) with Some until => until <=? t | None => false end.
Definition sweep_grace : TaskM unit :=
  t ← atomic now;
  expired ← atomic (sget (λ s, filter (λ kv, grace_expired t kv.2 = true) (map_to_list (sv_peers s))));
  match expired with [] => mret () | _ :: _ => force_pause end.

(** [compact_state], [run_compaction]. The stamps are the successive values
    [stamp] returns; the state is swapped with the epoch bump in one section. *)
Fixpoint nth_stamp (n : nat) (s : Shared) : SharedTimestamp * Shared :=
  let prev := match n with O => s | S n => (nth_stamp n s).2 end in
  let ts := Z.max (w_clock W (sv_reads prev)) (u64_wrap (sv_last_issued prev + 1)) in
  (ts, put_issued ts (put_reads (S (sv_reads prev)) prev)).
Definition stamps_taken (n : nat) (s : Shared) : Shared :=
  match n with O => s | S n => (nth_stamp n s).2 end.
Definition swap_state (chat_keep : nat) : SecM StateView :=
  s ← sget id;
  v ← sof_option (view (sv_state s));
  let '(fresh, n) := rebuild_build SERVER (λ n, (nth_stamp n s).1) v chat_keep in
  smodify (λ s, put_epoch (u64_wrap (sv_epoch s + 1)) (put_crdt fresh (stamps_taken n s)));;
  mret v.
Definition archive_chat (messages : list ChatMessage) : SecM unit :=
  storage ← sget sv_storage;
  match storage with
  | None => mret ()
  | Some st =>
      ok ← succeeds;
      swhen ok (smodify (put_storage (Some
        (mkStorage (st_saved st) (st_known st) (list_to_set messages ∪ st_archive st)
           (st_token st)))))
  end.
Definition compact_state (chat_keep : nat) : TaskM StateSnapshot :=
  v ← atomic (swap_state chat_keep);
  atomic (archive_chat (v_chat v));;
  atomic (smodify (put_sv_dirty true));;
  atomic snapshot.
Definition run_compaction (chat_keep : nat) : TaskM unit :=
  snapshot ← compact_state chat_keep;
  broadcast_control (CtlStateSnapshot snapshot) None;;
  flush.

(** ** EOF and watched flags *)

(** [list_advances]. *)
Definition advance_episode (v : StateView) (id : ListEntryId) (file : Ed2kHash) : option Z :=
  let linked :=
    match v_list_entries v !! id with
    | Some entry => bool_decide (is_Some (anidb_series_id entry))
    | None => false
    end in
  match (m ← mjoin (v_anidb_metadata v !! file); ep ← episode_number m;
         parse_u32 (str_trim (bytes_of_string ep))) with
  | Some ep => Some ep
  | None =>
      if linked then None
      else
        e ← List.find (λ e, bool_decide (pe_hash e = file)) (v_playlist v);
        number ← parse_episode_number (bytes_of_string (pfs_filename (pe_state e)));
        parse_u32 number
  end.
Definition list_advances (v : StateView) (file : Ed2kHash) : list (ListEntryId * NextEpState) :=
  match resolve_series_entry_for_file md4 v file with
  | None => []
  | Some id =>
      match advance_episode v id file with
      | None => []
      | Some episode =>
          match v_list_next_ep v !! id with
          | None => []
          | Some progress =>
              match (s ← next_ep progress; parse_u32 (str_trim (bytes_of_string s))) with
              | None => []
              | Some next =>
                  if negb (next =? episode) then []
                  else [(id, mkNextEpState
                               (Some (string_of_bytes (decimal (u32_wrap (episode + 1))))) false)]
              end
          end
      end
  end.

(** Several stamped writes in one section. *)
Fixpoint write_all (ws : list LocalWrite) : SecM (list CrdtOp) :=
  match ws with
  | [] => mret []
  | w :: ws =>
      ts ← stamp;
      '(_, op) ← apply_write w ts;
      ops ← write_all ws;
      mret (op :: ops)
  end.
Definition advance_writes (v : StateView) (file : Ed2kHash) : list LocalWrite :=
  (λ '(id, next), WNextEp id next) <$> list_advances v file.

(** [handle_eof]: the section, then the handler. *)
Definition next_in_playlist (v : StateView) (file : Ed2kHash) : option Ed2kHash :=
  match find_index file (v_playlist v) with
  | Some i => pe_hash <$> v_playlist v !! S i
  | None => None
  end.
Definition eof_section (reporter : UserId) (file : Ed2kHash) (peers : list PeerInfo)
    : SecM (option (Epoch * list CrdtOp)) :=
  s ← sget sv_state;
  v ← sof_option (view s);
  if bool_decide (v_now_playing v ≠ Some file) then mret None
  else
    match user_state md4 v reporter with
    | DReady | DMaybe =>
        epoch ← sget sv_epoch;
        saved ← saved_position_op peers file;
        ops ← write_all [WWatched file true; WNowPlaying (next_in_playlist v file);
                         WPlaybackIntent IntentPaused; WSeekAuthority AuthServer];
        advances ← write_all (advance_writes v file);
        mret (Some (epoch, ops ++ option_list saved ++ advances))
    | _ => mret None
    end.
Definition handle_eof (reporter : UserId) (role : Role) (file : Ed2kHash) : TaskM unit :=
  if bool_decide (role ≠ Interactive) then mret ()
  else
    peers ← atomic peer_infos;
    r ← atomic (eof_section reporter file peers);
    match r with
    | None => mret ()
    | Some (epoch, ops) =>
        atomic (smodify (put_sv_dirty true));;
        for_each ops (λ op, broadcast_op (StateOp epoch op) None Eager);;
        reconcile_grace_windows
    end.

(** [handle_mark_watched]. *)
Definition mark_section (file : Ed2kHash) (w : bool) : SecM (option (Epoch * list CrdtOp)) :=
  s ← sget sv_state;
  v ← sof_option (view s);
  if bool_decide (v_watched v !! file = Some w) then mret None
  else
    epoch ← sget sv_epoch;
    ops ← write_all (WWatched file w :: if w then advance_writes v file else []);
    mret (Some (epoch, ops)).
Definition handle_mark_watched (file : Ed2kHash) (w : bool) : TaskM unit :=
  r ← atomic (mark_section file w);
  match r with
  | None => mret ()
  | Some (epoch, ops) =>
      atomic (smodify (put_sv_dirty true));;
      for_each ops (λ op, broadcast_op (StateOp epoch op) None Eager)
  end.

(** ** The messages of an authenticated connection *)

(** What follows a change of now-playing, and any change. *)
Definition after_change (now_playing_changed : bool) (saved : option (Epoch * CrdtOp)) : TaskM unit :=
  twhen now_playing_changed
    (match saved with Some (epoch, op) => broadcast_server_op epoch op | None => mret () end;;
     server_write (WSeekAuthority AuthServer));;
  reconcile_grace_windows;;
  pin_rejoin_anchor.

(** The [StateOp] arm of [serve_authed]: its section, then the arm. *)
Definition is_now_playing (op : CrdtOp) : bool :=
  match op with OpNowPlaying _ => true | _ => false end.
Definition op_section (epoch : Epoch) (op : CrdtOp) (via_datagram : bool)
    (peers : option (list PeerInfo)) : SecM (bool * option (Epoch * CrdtOp)) :=
  s ← sget id;
  if bool_decide (epoch ≠ sv_epoch s) then mret (false, None)
  else
    let before := playing_file (sv_state s) in
    let '(state, applied) := apply_for_broadcast (sv_state s) op via_datagram in
    smodify (put_crdt state);;
    match applied, peers, before with
    | true, Some peers, Some before =>
        if bool_decide (playing_file state ≠ Some before) then
          saved ← saved_position_op peers before;
          mret (true, pair (sv_epoch s) <$> saved)
        else mret (true, None)
    | _, _, _ => mret (applied, None)
    end.
Definition on_state_op (conn_id : ConnId) (epoch : Epoch) (op : CrdtOp) (via_datagram : bool)
    : TaskM unit :=
  atomic (observe (op_lww_timestamp op));;
  peers ← (if is_now_playing op then (infos ← atomic peer_infos; mret (Some infos)) else mret None);
  '(applied, saved) ← atomic (op_section epoch op via_datagram peers);
  twhen applied
    (atomic (smodify (put_sv_dirty true));;
     broadcast_op (StateOp epoch op) (Some conn_id) (relay_transport op via_datagram);;
     after_change (is_now_playing op) saved).

(** The [StateMerge] arm. *)
Definition merge_section (snapshot : StateSnapshot) (peers : list PeerInfo)
    : SecM (option (bool * option (Epoch * CrdtOp))) :=
  s ← sget id;
  if bool_decide (snap_epoch snapshot ≠ sv_epoch s) then mret None
  else
    let before := playing_file (sv_state s) in
    let state := merge (sv_state s) (snap_state snapshot) in
    smodify (put_crdt state);;
    observe (Some (max_lww_timestamp state));;
    let changed := bool_decide (before ≠ playing_file state) in
    saved ← (match before with
             | Some file => if changed then saved_position_op peers file else mret None
             | None => mret None
             end);
    mret (Some (changed, pair (sv_epoch s) <$> saved)).
Definition on_state_merge (snapshot_in : StateSnapshot) : TaskM unit :=
  peers ← atomic peer_infos;
  r ← atomic (merge_section snapshot_in peers);
  match r with
  | None => mret ()
  | Some (now_playing_changed, saved) =>
      atomic (smodify (put_sv_dirty true));;
      snap ← atomic snapshot;
      broadcast_control (StateMerge snap) None;;
      after_change now_playing_changed saved
  end.

(** The [TimeSyncRequest] arm; [false] when the send failed. *)
Definition on_time_sync (conn : ConnId) (client_send : Z) (via_datagram : bool) : TaskM bool :=
  server_recv ← atomic now;
  server_send ← atomic now;
  let response := TimeSyncResponse client_send server_recv server_send in
  match encode response with
  | None => mret true
  | Some _ =>
      sent ← (if via_datagram then atomic (semit (ODatagram conn response);; succeeds)
              else mret false);
      if sent : bool then mret true else atomic (semit (OControl conn response);; succeeds)
  end.

(** The [AniDbSearch] and [SetAnthropicToken] arms. *)
Definition on_search (conn : ConnId) (query : string) : TaskM unit :=
  results ← atomic (storage ← sget sv_storage;
                    match storage with
                    | None => mret []
                    | Some st => ok ← succeeds; mret (if ok : bool then search_titles st query else [])
                    end);
  atomic (send_to conn (AniDbSearchResults query results);; mret ()).
Definition on_token (token : option string) : TaskM unit :=
  atomic (storage ← sget sv_storage;
          match storage with
          | None => mret ()
          | Some st =>
              ok ← succeeds;
              swhen ok (smodify (put_storage (Some
                (mkStorage (st_saved st) (st_known st) (st_archive st) token))))
          end).

(** The [SyncStatus] and [RequestMerge] arms. *)
Definition initial_sync (epoch : Epoch) (state_hash : list Z) (snap : StateSnapshot)
    : option ServerControl :=
  if bool_decide (epoch = snap_epoch snap) then
    hash ← view_hash encode_view sha256 (snap_state snap);
    Some (if bool_decide (state_hash = hash) then StateMerge snap else CtlStateSnapshot snap)
  else Some (CtlStateSnapshot snap).
Definition on_sync_status (conn : ConnId) (epoch : Epoch) (state_hash : list Z) : TaskM unit :=
  snap ← atomic snapshot;
  atomic (initial ← sof_option (initial_sync epoch state_hash snap); send_to conn initial;; mret ()).
Definition on_request_merge (conn : ConnId) : TaskM unit :=
  snap ← atomic snapshot;
  atomic (send_to conn (CtlStateSnapshot snap);; mret ()).

(** [serve_authed], given the events the connection will deliver; when they run
    out the transport has failed. *)
Fixpoint serve_authed (conn_id : ConnId) (username : UserId) (role : Role)
    (initial_sync_sent : bool) (events : list TransportEvent) : TaskM AuthedEnd :=
  match events with
  | [] => mret (EndLost "recv failed")
  | EvClosed reason :: _ => mret (EndLost reason)
  | EvStream :: events | EvControl None :: events | EvDatagram None :: events =>
      serve_authed conn_id username role initial_sync_sent events
  | EvControl (Some msg) as ev :: events | EvDatagram (Some msg) as ev :: events =>
      let via_datagram := match ev with EvDatagram _ => true | _ => false end in
      let continue := serve_authed conn_id username role initial_sync_sent events in
      match msg with
      | Goodbye => mret EndGoodbye
      | TimeSyncRequest client_send =>
          sent ← on_time_sync conn_id client_send via_datagram;
          if sent : bool then continue else mret (EndLost "send failed")
      | StateOp epoch op => on_state_op conn_id epoch op via_datagram;; continue
      | EofReached file => handle_eof username role file;; continue
      | MarkWatched file w => handle_mark_watched file w;; continue
      | AniDbSearch query => on_search conn_id query;; continue
      | SetAnthropicToken token => on_token token;; continue
      | SyncStatus epoch state_hash =>
          if initial_sync_sent then continue
          else on_sync_status conn_id epoch state_hash;;
               serve_authed conn_id username role true events
      | RequestMerge => on_request_merge conn_id;; continue
      | StateMerge snapshot => on_state_merge snapshot;; continue
      | _ => continue
      end
  end.

(** ** A connection from beginning to end *)

(** The wait for [Auth]: the first control frame decides. *)
Inductive AuthOutcome :=
| OutAuth (username : UserId) (pass : string) (role : Role) (epoch : Epoch) (version : Z)
| OutUndecodable
| OutDead.
Fixpoint await_auth (events : list TransportEvent) : AuthOutcome * list TransportEvent :=
  match events with
  | [] => (OutDead, [])
  | EvControl (Some (Auth username pass role epoch version)) :: events =>
      (OutAuth username pass role epoch version, events)
  | EvControl (Some _) :: events => (OutDead, events)
  | EvControl None :: events => (OutUndecodable, events)
  | EvClosed _ :: events => (OutDead, events)
  | _ :: events => await_auth events
  end.

(** Registration, in one section; the superseded entry comes back. *)
Definition register (conn_id : ConnId) (username : UserId) (role : Role) (remote : string)
    (transfer_token : Z) : SecM (option PeerEntry) :=
  send_to conn_id (AuthOk remote transfer_token);;
  t ← now;
  superseded ← sget (λ s, sv_peers s !! username);
  smodify (λ s, put_peers (<[username :=
    mkPeerEntry conn_id (Some conn_id) transfer_token None None None
      (mkPeerInfo username role Present [remote] t None) None]> (sv_peers s)) s);;
  smodify (λ s,
    if existsb (λ e, bool_decide (is_Some (peer_grace_until (en_info e)))) (map_to_list (sv_peers s)).*2
    then s else put_grace_file None s);;
  mret superseded.

(** The end of a connection, in one section. *)
Definition nobody_watching (peers : gmap UserId PeerEntry) : bool :=
  negb (existsb (λ e, bool_decide (peer_presence (en_info e) = Present) &&
                      bool_decide (peer_role (en_info e) = Interactive)) (map_to_list peers).*2).
Definition gone_entry (end_ : AuthedEnd) (t : Z) (entry : PeerEntry) : PeerEntry :=
  mkPeerEntry (en_conn_id entry) None (en_transfer_token entry) None None None
    (set_presence (match end_ with EndGoodbye => Departed | EndLost _ => Lost end) (en_info entry))
    (Some t).
Definition deregister (conn_id : ConnId) (username : UserId) (role : Role) (end_ : AuthedEnd)
    : SecM (bool * option ConnId * option (list PeerInfo) * list PeerInfo) :=
  before_leave ← peer_infos;
  e ← sget (λ s, sv_peers s !! username);
  '(still_ours, dead_transfer) ←
    (match e with
     | Some entry =>
         if bool_decide (en_conn_id entry = conn_id) then
           t ← now;
           smodify (λ s, put_peers (<[username := gone_entry end_ t entry]> (sv_peers s)) s);;
           mret (true, en_transfer_conn entry)
         else mret (false, None)
     | None => mret (false, None)
     end);
  nobody ← sget (λ s, nobody_watching (sv_peers s));
  mret (still_ours, dead_transfer,
        if still_ours && bool_decide (role = Interactive) && nobody
        then Some before_leave else None,
        before_leave).

(** The last viewer's saved position. *)
Definition leave_position (peers : list PeerInfo) : SecM (option (Epoch * CrdtOp)) :=
  s ← sget id;
  match playing_file (sv_state s) with
  | None => mret None
  | Some file =>
      op ← saved_position_op peers file;
      mret (pair (sv_epoch s) <$> op)
  end.
Definition close_old (reason : string) (old : option PeerEntry) : TaskM unit :=
  match old with
  | None => mret ()
  | Some old =>
      match en_conn old with Some c => atomic (semit (OClose c reason)) | None => mret () end;;
      match en_transfer_conn old with
      | Some c => atomic (semit (OTransferClose c reason))
      | None => mret ()
      end
  end.
Definition seen (username : UserId) (role : Role) : TaskM unit :=
  twhen (bool_decide (role = Interactive))
    (t ← atomic now; atomic (record_seen username t)).
Definition connection_ended (conn_id : ConnId) (username : UserId) (role : Role)
    (end_ : AuthedEnd) (before_leave : list PeerInfo) : TaskM unit :=
  match end_ with
  | EndGoodbye =>
      atomic (semit (OClose conn_id "goodbye"));;
      broadcast_peer_list;;
      twhen (bool_decide (role = Interactive)) (force_pause;; take_authority_from username)
  | EndLost _ =>
      windowed ← (if bool_decide (role = Interactive)
                  then open_grace_window username conn_id before_leave else mret false);
      broadcast_peer_list;;
      twhen (bool_decide (role = Interactive))
        (twhen (negb windowed) force_pause;; take_authority_from username)
  end.
Definition reject_and_close (conn_id : ConnId) (msg : ServerControl) (reason : string) : TaskM unit :=
  atomic (send_to conn_id msg;; semit (OClose conn_id reason)).

(** The password check: throttled by source address. *)
Definition judge_auth (ip : IpAddr) (correct : bool) : SecM Verdict :=
  t ← instant_now;
  l ← sget sv_limiter;
  '(verdict, l) ← sof_option (judge l ip t correct);
  smodify (put_limiter l);; mret verdict.

(** After the password was accepted: register, serve, and clean up. *)
Definition serve_session (conn_id : ConnId) (remote : string) (transfer_token : Z)
    (username : UserId) (role : Role) (events : list TransportEvent) : TaskM unit :=
  atomic (semit (OAdmit conn_id));;
  superseded ← atomic (register conn_id username role remote transfer_token);
  close_old "superseded by a new connection" superseded;;
  seen username role;;
  broadcast_peer_list;;
  end_ ← serve_authed conn_id username role false events;
  '(still_ours, dead_transfer, last_viewer_left, before_leave) ←
    atomic (deregister conn_id username role end_);
  match dead_transfer with
  | Some c => atomic (semit (OTransferClose c "session ended"))
  | None => mret ()
  end;;
  twhen still_ours
    (seen username role;;
     match last_viewer_left with
     | Some peers =>
         saved ← atomic (leave_position peers);
         match saved with Some (epoch, op) => broadcast_server_op epoch op | None => mret () end
     | None => mret ()
     end;;
     connection_ended conn_id username role end_ before_leave).

(** [serve_connection]. *)
Definition serve_connection (config : ServerConfig) (conn_id : ConnId) (remote : string)
    (ip : IpAddr) (transfer_token : Z) (events : list TransportEvent) : TaskM unit :=
  let '(outcome, events) := await_auth events in
  match outcome with
  | OutDead => atomic (semit (OClose conn_id "authentication required"))
  | OutUndecodable => reject_and_close conn_id AuthFailed "protocol version too old"
  | OutAuth username pass role _ version =>
      if bool_decide (version ≠ PROTOCOL_VERSION) then
        reject_and_close conn_id (ProtocolMismatch PROTOCOL_VERSION) "protocol version mismatch"
      else
        verdict ← atomic (judge_auth ip (bool_decide (pass = password config)));
        match verdict with
        | Accept => serve_session conn_id remote transfer_token username role events
        | Reject => reject_and_close conn_id AuthFailed "bad password"
        | Throttled => reject_and_close conn_id AuthFailed "too many failed attempts"
        end
  end.

(** ** Transfer connections *)

(** The bind of [serve_transfer_connection]: the token is the credential. *)
Definition bind_transfer (conn : ConnId) (username : UserId) (token : Z)
    : SecM (string + option ConnId) :=
  e ← sget (λ s, sv_peers s !! username);
  match e with
  | Some entry =>
      if bool_decide (is_Some (en_conn entry)) && bool_decide (en_transfer_token entry = token) then
        smodify (λ s, put_peers (<[username :=
          mkPeerEntry (en_conn_id entry) (en_conn entry) (en_transfer_token entry) (Some conn)
            (Some conn) None (en_info entry) (en_lost_at entry)]> (sv_peers s)) s);;
        mret (inr (en_transfer_conn entry))
      else mret (inl "stale or invalid transfer token")
  | None => mret (inl "no such session")
  end.
(** Its end: only if no newer connection has replaced it. *)
Definition unbind_transfer (conn : ConnId) (username : UserId) : SecM unit :=
  e ← sget (λ s, sv_peers s !! username);
  match e with
  | Some entry =>
      swhen (bool_decide (en_transfer_conn_id entry = Some conn))
        (smodify (λ s, put_peers (<[username :=
          mkPeerEntry (en_conn_id entry) (en_conn entry) (en_transfer_token entry) None None None
            (en_info entry) (en_lost_at entry)]> (sv_peers s)) s))
  | None => mret ()
  end.
(** [classify_stream] on [Hello]: registering the relay queue. *)
Definition register_relay (conn : ConnId) (username : UserId) (outbox : Z) : SecM unit :=
  e ← sget (λ s, sv_peers s !! username);
  match e with
  | Some entry =>
      swhen (bool_decide (en_transfer_conn_id entry = Some conn))
        (smodify (λ s, put_peers (<[username :=
          mkPeerEntry (en_conn_id entry) (en_conn entry) (en_transfer_token entry)
            (en_transfer_conn entry) (en_transfer_conn_id entry) (Some outbox) (en_info entry)
            (en_lost_at entry)]> (sv_peers s)) s))
  | None => mret ()
  end.
(** [relay_reader], given the envelopes the stream will deliver. *)
Fixpoint relay_reader (from : UserId) (envelopes : list (option RelayEnvelope)) : TaskM unit :=
  match envelopes with
  | [] => mret ()
  | Some (Forward to message) :: envelopes =>
      forward from to message;; relay_reader from envelopes
  | _ :: envelopes => relay_reader from envelopes
  end.
Definition relay_stream (conn : ConnId) (username : UserId) (outbox : Z)
    (envelopes : list (option RelayEnvelope)) : TaskM unit :=
  atomic (register_relay conn username outbox);; relay_reader username envelopes.
(** [serve_transfer_connection], its streams aside (each is a task of its own). *)
Definition serve_transfer (conn : ConnId) (auth : option (UserId * Z)) : TaskM unit :=
  match auth with
  | None => atomic (semit (OTransferClose conn "transfer authentication required"))
  | Some (username, token) =>
      r ← atomic (bind_transfer conn username token);
      match r with
      | inl reason => atomic (semit (OTransferClose conn reason))
      | inr old =>
          match old with
          | Some old => atomic (semit (OTransferClose old "superseded by a new transfer connection"))
          | None => mret ()
          end;;
          atomic (semit (OTransferAdmit conn));;
          atomic (unbind_transfer conn username)
      end
  end.

(** ** Start-up *)

(** [initial_snapshot]: what loading the stored snapshot gave. *)
Definition initial_snapshot (loaded : option (string + option StateSnapshot))
    : string + StateSnapshot :=
  match loaded with
  | None | Some (inr None) => inr (mkStateSnapshot 1 new_state)
  | Some (inr (Some snapshot)) => inr snapshot
  | Some (inl e) => inl e
  end.
(** [run]: the shared state the tasks start with. *)
Definition start (config : ServerConfig) (storage : option Storage) (initial : StateSnapshot) : Shared :=
  mkShared ∅ None (snap_state initial) (snap_epoch initial)
    (max_lww_timestamp (snap_state initial)) false storage (AuthLimiter_new (auth_limit config)) 0.

(** The tasks [run] and the accept loops spawn; [delivers] is what the network
    may deliver on a connection. *)
Inductive server_task (config : ServerConfig) (delivers : TransportEvent → Prop)
    : TaskM unit → Prop :=
| task_hash : server_task config delivers hash_tick
| task_flush : server_task config delivers flush
| task_sweep : server_task config delivers (sweep_departed;; sweep_grace)
| task_compaction :
    compaction config ≠ Disabled → server_task config delivers (run_compaction (chat_keep config))
| task_metadata hash metadata : server_task config delivers (write_metadata hash metadata)
| task_relations series relations : server_task config delivers (write_relations series relations)
| task_catalog hash entry : server_task config delivers (write_catalog hash entry)
| task_connection conn_id remote ip token events :
    Forall delivers events →
    server_task config delivers (serve_connection config conn_id remote ip token events)
| task_transfer conn auth : server_task config delivers (serve_transfer conn auth)
| task_relay conn username outbox envelopes :
    server_task config delivers (relay_stream conn username outbox envelopes).
End server.
