(* ===== verification/ServerCorrect.v ===== *)
(** * Correctness of the rendezvous server (dessplay-rendezvous/src/server.rs)

    Safety under concurrency: the invariant [shared_ok] (a well-formed replicated
    state below the Lamport floor, a consistent registry, outage windows tied to
    their file, a limiter within its budget) holds whenever no critical section
    is running, whatever tasks are interleaved, and no task panics. This file
    proves it section by section. *)

From S2P Require Import Prelude Types Text Lww Vclock CrdtMap Identifier State Fields StateRepr.
From S2P Require Import Convergence Resolve Playlist View Writes Lamport Compact Franchise Message.
From S2P Require Import SeriesIdentity EpisodeParse Derive Transfer AuthLimit Conc Server.

(** ** The invariant *)

(** The instants and times that are read lie in the first 2^63 of their range. *)
Definition HALF : Z := 2 ^ 63.
Record world_ok (config : ServerConfig) (W : World) : Prop := {
  wo_clock n : 0 ≤ w_clock W n < HALF;
  wo_instant n m : (n ≤ m)%nat → w_instant W n ≤ w_instant W m;
  wo_limit n : limit_ok (auth_limit config) (w_instant W n)
}.

Record entry_ok (user : UserId) (e : PeerEntry) : Prop := {
  eo_user : peer_username (en_info e) = user;
  eo_present : peer_presence (en_info e) = Present ↔ en_conn e = Some (en_conn_id e);
  eo_absent : peer_presence (en_info e) ≠ Present ↔ en_conn e = None;
  eo_lost : is_Some (en_lost_at e) ↔ peer_presence (en_info e) ≠ Present;
  eo_grace : is_Some (peer_grace_until (en_info e)) → peer_presence (en_info e) ≠ Present;
  eo_transfer_id : en_transfer_conn_id e = en_transfer_conn e;
  eo_transfer : is_Some (en_transfer_conn e) → is_Some (en_conn e);
  eo_relay : is_Some (en_relay_tx e) → is_Some (en_transfer_conn e)
}.
(** A window is open exactly while a file is remembered. *)
Definition window_open (peers : gmap UserId PeerEntry) : Prop :=
  ∃ user e, peers !! user = Some e ∧ is_Some (peer_grace_until (en_info e)).
Record registry_ok (peers : gmap UserId PeerEntry) (file : option Ed2kHash) : Prop := {
  ro_entry user e : peers !! user = Some e → entry_ok user e;
  ro_grace : is_Some file ↔ window_open peers
}.

(** While fewer than 2^63 readings were made: no stamp was below one before. *)
Record floor_ok (s : Shared) : Prop := {
  fl_issued : 0 ≤ sv_last_issued s < HALF + Z.of_nat (sv_reads s);
  fl_epoch : 0 ≤ sv_epoch s < HALF + Z.of_nat (sv_reads s);
  fl_state : max_lww_timestamp (sv_state s) ≤ sv_last_issued s
}.
Definition early (s : Shared) : Prop := Z.of_nat (sv_reads s) < HALF.

Record shared_ok (config : ServerConfig) (W : World) (s : Shared) : Prop := {
  so_wf : wf_state (sv_state s);
  so_registry : registry_ok (sv_peers s) (sv_grace_file s);
  so_limit : AuthLimit.limit (sv_limiter s) = auth_limit config;
  so_limiter : limiter_ok (sv_limiter s) (w_instant W (sv_reads s));
  so_floor : early s → floor_ok s
}.

(** What only grows: readings, stamps and the epoch. *)
Record grows (s s' : Shared) : Prop := {
  gr_reads : (sv_reads s ≤ sv_reads s')%nat;
  gr_issued : early s' → sv_last_issued s ≤ sv_last_issued s';
  gr_epoch : early s' → sv_epoch s ≤ sv_epoch s'
}.
#[export] Instance grows_preorder : PreOrder grows.
Proof.
  split.
  - intros s. split; lia.
  - intros s t u [H1 H2 H3] [H4 H5 H6]. split; [lia|..]; intros Hu; unfold early in *;
      specialize (H5 Hu); specialize (H6 Hu); specialize (H2 ltac:(lia)); specialize (H3 ltac:(lia)); lia.
Qed.

(** What a replica of the group sends, stamped in the first half of the range. *)
Definition stamped_ok (ts : option SharedTimestamp) : Prop :=
  match ts with Some t => t < HALF | None => True end.
Definition client_msg_ok (msg : ServerControl) : Prop :=
  match msg with
  | StateOp _ op => is_put op = true ∧ chat_op_ok op ∧ stamped_ok (op_lww_timestamp op)
  | StateMerge snapshot =>
      wf_state (snap_state snapshot) ∧ max_lww_timestamp (snap_state snapshot) < HALF
  | _ => True
  end.
Definition event_ok (e : TransportEvent) : Prop :=
  match e with EvControl (Some msg) | EvDatagram (Some msg) => client_msg_ok msg | _ => True end.

(** ** Sections *)

Section sections.
Context (config : ServerConfig) (W : World) (HW : world_ok config W).
Abbreviation I := (shared_ok config W).
Abbreviation SecM := (Sec Shared Out).
Implicit Types (s : Shared).

(** From a good state where [P] holds, [m] succeeds, keeps the invariant and
    ends with [Q]. *)
Definition keeps {A} (P : Shared → Prop) (m : SecM A) (Q : A → Shared → Prop) : Prop :=
  ∀ s, I s → P s → ∃ a s' o, m s = Some (a, (s', o)) ∧ I s' ∧ grows s s' ∧ Q a s'.
Abbreviation keeps_ m := (keeps (λ _, True) m (λ _ _, True)).

Lemma keeps_ret {A} (a : A) P : keeps P (mret a) (λ _, P).
Proof. intros s HI HP. exists a, s, []. done. Qed.
Lemma keeps_bind {A B} P Q Q' (m : SecM A) (f : A → SecM B) :
  keeps P m Q → (∀ a, keeps (Q a) (f a) Q') → keeps P (m ≫= f) Q'.
Proof.
  intros Hm Hf s HI HP. destruct (Hm s HI HP) as (a & s1 & o1 & E1 & HI1 & Hg1 & HQ).
  destruct (Hf a s1 HI1 HQ) as (b & s2 & o2 & E2 & HI2 & Hg2 & HQ').
  exists b, s2, (o1 ++ o2). unfold mbind, Sec_bind. rewrite E1, E2. split; [done|].
  split; [done|]. split; [by trans s1|done].
Qed.
Lemma keeps_sget {A} (f : Shared → A) P : keeps P (sget f) (λ a s, a = f s ∧ P s).
Proof. intros s HI HP. by exists (f s), s, []. Qed.
Lemma keeps_semit o P : keeps P (semit o) (λ _, P).
Proof. intros s HI HP. by exists (), s, [o]. Qed.
Lemma keeps_swhen b m P : keeps P m (λ _, P) → keeps P (swhen b m) (λ _, P).
Proof. intros Hm. destruct b; [done|]. exact (keeps_ret () P). Qed.
Lemma keeps_weaken {A} P P' (Q Q' : A → Shared → Prop) (m : SecM A) :
  (∀ s, P s → P' s) → (∀ a s, Q a s → Q' a s) → keeps P' m Q → keeps P m Q'.
Proof.
  intros HP HQ Hm s HI Hs. destruct (Hm s HI (HP s Hs)) as (a & s' & o & ? & ? & ? & ?).
  exists a, s', o. auto.
Qed.
Lemma keeps_sof {A} (x : option A) (P : Shared → Prop) :
  (∀ s, I s → P s → is_Some x) → keeps P (sof_option x) (λ a s, x = Some a ∧ P s).
Proof. intros Hx s HI HP. destruct (Hx s HI HP) as [a ->]. by exists a, s, []. Qed.

(** Changing fields the invariant does not mention. *)
Definition same_core s s' : Prop :=
  sv_peers s' = sv_peers s ∧ sv_grace_file s' = sv_grace_file s ∧ sv_state s' = sv_state s ∧
  sv_epoch s' = sv_epoch s ∧ sv_last_issued s' = sv_last_issued s ∧
  sv_limiter s' = sv_limiter s ∧ sv_reads s' = sv_reads s.
Lemma same_core_ok s s' : same_core s s' → I s → I s' ∧ grows s s'.
Proof.
  intros (H1 & H2 & H3 & H4 & H5 & H6 & H7) [Hw Hr Hl Hk Hf]. split; split; unfold early in *;
    rewrite ?H1, ?H2, ?H3, ?H4, ?H5, ?H6, ?H7; try done.
  intros He. specialize (Hf He). destruct Hf. split; by rewrite ?H3, ?H4, ?H5, ?H7.
Qed.
Lemma keeps_same f : (∀ s, same_core s (f s)) → keeps_ (smodify f).
Proof. intros Hf s HI _. destruct (same_core_ok s (f s) (Hf s) HI). by exists (), (f s), []. Qed.

(** A reading. *)
Lemma ok_read s : I s → I (put_reads (S (sv_reads s)) s) ∧ grows s (put_reads (S (sv_reads s)) s).
Proof.
  intros [Hw Hr Hl Hk Hf]. split; split; simpl; try done; try lia.
  - eapply limiter_ok_later; [done|]. apply (wo_instant _ _ HW). lia.
  - unfold early in *; simpl. intros He. destruct Hf as [H1 H2 H3]; [lia|]. split; simpl; try done; lia.
Qed.
Lemma keeps_reading {A} (f : nat → A) P :
  (∀ s, P s → P (put_reads (S (sv_reads s)) s)) →
  keeps P (reading f) (λ a s, P s ∧ ∃ n, a = f n ∧ sv_reads s = S n).
Proof.
  intros HP s HI Hs. unfold reading. exists (f (sv_reads s)), (put_reads (S (sv_reads s)) s), [].
  split; [done|]. destruct (ok_read s HI) as [H1 H2]. split; [done|]. split; [done|].
  split; [by apply HP|]. by exists (sv_reads s).
Qed.
Lemma keeps_reading_ {A} (f : nat → A) : keeps_ (reading f).
Proof. eapply keeps_weaken; [| |apply (keeps_reading f (λ _, True))]; done. Qed.

(** A stamp: above everything issued before. *)
Definition issued (ts : SharedTimestamp) s : Prop := early s → ts ≤ sv_last_issued s.
Lemma issued_grows ts s s' : grows s s' → issued ts s → issued ts s'.
Proof.
  intros [H1 H2 _] Hts He. specialize (H2 He). unfold issued, early in *. specialize (Hts ltac:(lia)). lia.
Qed.
Definition stamp_value s : SharedTimestamp :=
  Z.max (w_clock W (sv_reads s)) (u64_wrap (sv_last_issued s + 1)).
Definition stamped_shared s : Shared := put_issued (stamp_value s) (put_reads (S (sv_reads s)) s).
Lemma stamp_eq s : stamp W s = Some (stamp_value s, (stamped_shared s, [])).
Proof. done. Qed.
Lemma stamp_above s :
  I s → early s → sv_last_issued s < stamp_value s < HALF + Z.of_nat (S (sv_reads s)).
Proof.
  intros HI He. destruct (so_floor _ _ _ HI He) as [H1 _ _]. unfold stamp_value, u64_wrap, u64_modulus.
  unfold early, HALF in *. pose proof (wo_clock _ _ HW (sv_reads s)). unfold HALF in *.
  rewrite Z.mod_small by lia. lia.
Qed.
Lemma keeps_stamp : keeps (λ _, True) (stamp W) issued.
Proof.
  intros s HI _. rewrite stamp_eq. eexists _, _, []. split; [done|].
  destruct (ok_read s HI) as [[Hw Hr Hl Hk Hf] [G1 G2 G3]].
  assert (∀ P : Prop, (early s → P) → early (stamped_shared s) → P) as Hearly.
  { intros P HP He. apply HP. unfold early, stamped_shared in *. simpl in He. lia. }
  split_and!.
  - split; simpl; try done. apply Hearly. intros He. pose proof (stamp_above s HI He).
    destruct (so_floor _ _ _ HI He). split; simpl; lia.
  - split; simpl; [lia| |lia]. apply Hearly. intros He. pose proof (stamp_above s HI He). lia.
  - intros _. simpl. lia.
Qed.

(** The replicated state, by what is known of the floor. *)
Lemma floor_lamport s : I s → early s → lamport (sv_state s) (sv_last_issued s).
Proof.
  intros HI He. eapply lamport_mono; [apply (fl_state s (so_floor _ _ _ HI He))|].
  apply lamport_of_floor, HI.
Qed.
Lemma put_crdt_ok s x :
  I s → wf_state x → (early s → lamport x (sv_last_issued s)) →
  I (put_crdt x s) ∧ grows s (put_crdt x s).
Proof.
  intros [Hw Hr Hl Hk Hf] Hx Hlam. split; split; simpl; try done.
  intros He. destruct (Hf He) as [H1 H2 H3]. split; try done. simpl.
  apply lamport_floor; [by apply Hlam|lia].
Qed.
Lemma wf_apply x op : wf_state x → is_put op = true → chat_op_ok op → wf_state (apply x op).
Proof.
  intros Hx Hp Hc.
  apply (lp_wf _ (Z.max (max_lww_timestamp x) (default 0 (op_lww_timestamp op)))), lamport_apply.
  - eapply lamport_mono; [|by apply lamport_of_floor]. lia.
  - split; [done..|]. intros t ->. simpl. lia.
Qed.

Lemma keeps_apply_write w ts : keeps (issued ts) (apply_write w ts) (λ _ _, True).
Proof.
  intros s HI Hts. unfold apply_write, sget, mbind, Sec_bind. simpl.
  destruct (run_write w SERVER ts (sv_state s)) as [x op] eqn:Hw. simpl.
  destruct (run_write_spec _ _ _ _ _ _ Hw) as (-> & Hput & _).
  assert (chat_op_ok op) as Hchat by (eapply run_write_chat_ok; [apply HI|done]).
  eexists _, _, _. split; [done|].
  destruct (put_crdt_ok s (apply (sv_state s) op) HI) as [H1 H2]; [by apply wf_apply; [apply HI|..]| |done].
  intros He. apply lamport_apply; [by apply floor_lamport|]. split; [done..|].
  intros t Ht. replace op with (run_write w SERVER ts (sv_state s)).2 in Ht by by rewrite Hw.
  apply run_write_ts in Ht as ->. by apply Hts.
Qed.

Lemma keeps_view : keeps_ (s ← sget sv_state; sof_option (view s)).
Proof.
  eapply keeps_bind; [apply keeps_sget|]. intros x.
  eapply (keeps_weaken _ (λ s, x = sv_state s)); [by intros ? []| |apply keeps_sof].
  - done.
  - intros s HI ->. apply view_total, HI.
Qed.

(** *** The registry *)

Lemma existsb_values {B} (f : B → bool) (m : gmap UserId B) :
  existsb f (map_to_list m).*2 = true ↔ ∃ k v, m !! k = Some v ∧ f v = true.
Proof.
  rewrite existsb_exists. split.
  - intros (v & Hin%list_elem_of_In & Hf). apply list_elem_of_fmap in Hin as ([k x] & -> & Hk).
    exists k, x. by apply elem_of_map_to_list in Hk.
  - intros (k & v & Hk & Hf). exists v. split; [|done]. apply list_elem_of_In, list_elem_of_fmap.
    exists (k, v). split; [done|by apply elem_of_map_to_list].
Qed.
Lemma windows_open_spec s :
  registry_ok (sv_peers s) (sv_grace_file s) →
  windows_open s = bool_decide (is_Some (sv_grace_file s)).
Proof.
  intros [_ Hg]. unfold windows_open. case_bool_decide as Hf; [done|]. simpl.
  apply not_true_iff_false. rewrite existsb_values. intros (k & e & Hk & He%bool_decide_eq_true).
  apply Hf, Hg. by exists k, e.
Qed.

Lemma put_registry_ok s peers file :
  I s → registry_ok peers file →
  I (put_grace_file file (put_peers peers s)) ∧ grows s (put_grace_file file (put_peers peers s)).
Proof.
  intros [Hw Hr Hl Hk Hf] Hreg. split; split; simpl; try done.
  intros He. by destruct (Hf He).
Qed.
Lemma put_peers_ok s peers :
  I s → registry_ok peers (sv_grace_file s) → I (put_peers peers s) ∧ grows s (put_peers peers s).
Proof.
  intros HI Hr. destruct (put_registry_ok s peers (sv_grace_file s) HI Hr) as [H1 H2].
  by destruct s.
Qed.

(** Replacing one entry without touching its window. *)
Lemma registry_update peers file user e e' :
  registry_ok peers file → peers !! user = Some e → entry_ok user e' →
  peer_grace_until (en_info e') = peer_grace_until (en_info e) →
  registry_ok (<[user := e']> peers) file.
Proof.
  intros [Hent Hg] He He' Hgr. split.
  - intros u x [[<- <-]|[_ Hx]]%lookup_insert_Some; [done|by apply Hent].
  - rewrite Hg. unfold window_open. split.
    + intros (u & x & Hx & Hs). destruct (decide (u = user)) as [->|Hne].
      * exists user, e'. rewrite lookup_insert_eq. simplify_eq. by rewrite Hgr.
      * exists u, x. by rewrite lookup_insert_ne.
    + intros (u & x & [[<- <-]|[_ Hx]]%lookup_insert_Some & Hs).
      * exists user, e. by rewrite <-Hgr.
      * by exists u, x.
Qed.
Lemma registry_close peers file :
  registry_ok peers file →
  registry_ok ((λ e, put_info (set_grace None (en_info e)) e) <$> peers) None.
Proof.
  intros [Hent _]. split.
  - intros u x. rewrite lookup_fmap_Some. intros (e & <- & He). destruct (Hent u e He). split; try done. by intros [? [=]].
  - split; [by intros [? [=]]|]. intros (u & x & Hx & Hs).
    rewrite lookup_fmap_Some in Hx. destruct Hx as (e & <- & _). by destruct Hs.
Qed.
Lemma registry_promote peers file t :
  registry_ok peers file →
  registry_ok ((λ e, if departs t e then put_info (set_presence Departed (en_info e)) e else e)
    <$> peers) file.
Proof.
  intros [Hent Hg]. split.
  - intros u x. rewrite lookup_fmap_Some. intros (e & <- & He). specialize (Hent u e He).
    destruct (departs t e) eqn:Hd; [|done]. unfold departs in Hd.
    apply andb_true_iff in Hd as [Hl%bool_decide_eq_true _].
    destruct Hent as [H1 H2 H3 H4 H5 H6 H7 H8]. rewrite Hl in *.
    split; simpl; try done.
    + split; [done|]. intros Hc. by apply H2 in Hc.
    + split; [|done]. intros _. by apply H3.
    + split; [done|]. intros _. by apply H4.
  - rewrite Hg. unfold window_open. setoid_rewrite lookup_fmap_Some. split.
    + intros (u & x & Hx & Hs). eexists u, _. split; [by exists x|]. by destruct (departs t x).
    + intros (u & ? & (x & <- & Hx) & Hs). exists u, x. split; [done|]. by destruct (departs t x).
Qed.
Lemma registry_open peers file0 user e until file :
  registry_ok peers file0 → peers !! user = Some e → peer_presence (en_info e) = Lost →
  registry_ok (<[user := put_info (set_grace (Some until) (en_info e)) e]> peers) (Some file).
Proof.
  intros [Hent _] He Hl. pose proof (Hent user e He) as []. split.
  - intros u x [[<- <-]|[_ Hx]]%lookup_insert_Some; [|by apply Hent].
    split; simpl; try done. intros _. by rewrite Hl.
  - split; [|by eexists]. intros _. exists user. eexists. rewrite lookup_insert_eq. split; [done|].
    by eexists.
Qed.
Lemma registry_register peers file user e :
  registry_ok peers file → entry_ok user e → peer_grace_until (en_info e) = None →
  registry_ok (<[user := e]> peers)
    (if existsb (λ e, bool_decide (is_Some (peer_grace_until (en_info e))))
          (map_to_list (<[user := e]> peers)).*2 then file else None).
Proof.
  intros [Hent Hg] He Hn. split.
  - intros u x [[<- <-]|[_ Hx]]%lookup_insert_Some; [done|by apply Hent].
  - destruct (existsb _ _) eqn:E.
    + apply existsb_values in E as (u & x & Hx & Hs%bool_decide_eq_true).
      split; [by exists u, x|]. intros _. apply Hg. exists u, x.
      apply lookup_insert_Some in Hx as [[<- <-]|[_ Hx]]; [|done]. rewrite Hn in Hs. by destruct Hs.
    + split; [by intros [? [=]]|]. intros (u & x & Hx & Hs).
      rewrite <-not_true_iff_false, existsb_values in E. destruct E. exists u, x.
      split; [done|]. by apply bool_decide_eq_true.
Qed.

(** A section that replaces one entry. *)
Lemma keeps_put_entry user e e' :
  entry_ok user e' → peer_grace_until (en_info e') = peer_grace_until (en_info e) →
  keeps (λ s, sv_peers s !! user = Some e)
    (smodify (λ s, put_peers (<[user := e']> (sv_peers s)) s)) (λ _ _, True).
Proof.
  intros He' Hg s HI He. eexists (), _, []. split; [done|].
  destruct (put_peers_ok s (<[user := e']> (sv_peers s)) HI); [|done].
  eapply registry_update; [apply HI|done..].
Qed.

(** *** The sections of the handlers *)

Lemma keeps_put_storage f : keeps_ (smodify (λ s, put_storage (f s) s)).
Proof. by apply keeps_same. Qed.
Lemma keeps_dirty b : keeps_ (smodify (put_sv_dirty b)).
Proof. by apply keeps_same. Qed.
Lemma keeps_get {A} (f : Shared → A) : keeps_ (sget f).
Proof. eapply keeps_weaken; [| |apply (keeps_sget f (λ _, True))]; done. Qed.

End sections.

(** The sections that only read, log, and write storage or what was proved above. *)
Create HintDb keeps.
#[export] Hint Resolve keeps_get keeps_reading_ keeps_dirty keeps_put_storage : keeps.
Ltac keeps_step :=
  match goal with
  | |- keeps _ _ _ (mbind _ _) _ => eapply (keeps_bind _ _ _ (λ _ _, True)); [|intros ?]
  | |- keeps _ _ _ (mret _) _ => exact (keeps_ret _ _ _ (λ _, True))
  | |- keeps _ _ _ (semit _) _ => apply (keeps_semit _ _ _ (λ _, True))
  | |- keeps _ _ _ (swhen _ _) _ => apply (keeps_swhen _ _ _ _ (λ _, True))
  | |- keeps _ _ _ (match ?x with _ => _ end) _ => destruct x
  | |- _ => solve [eauto 2 with keeps]
  end.
Ltac keeps_auto := repeat first [done | keeps_step | progress unfold now, succeeds].

Section handlers.
Context (config : ServerConfig) (W : World) (HW : world_ok config W).
Abbreviation I := (shared_ok config W).
Abbreviation SecM := (Sec Shared Out).
Abbreviation keeps := (keeps config W).
Abbreviation keeps_ m := (keeps (λ _, True) m (λ _ _, True)).
Implicit Types (s : Shared).

Lemma keeps_known_offline peers : keeps_ (known_offline W peers).
Proof. unfold known_offline. keeps_auto. Qed.
Lemma keeps_record_seen user t : keeps_ (record_seen W user t).
Proof. unfold record_seen. keeps_auto. Qed.
Lemma keeps_archive_chat l : keeps_ (archive_chat W l).
Proof. unfold archive_chat. keeps_auto. Qed.
Lemma keeps_send_to encode c msg : keeps_ (send_to encode W c msg).
Proof. unfold send_to. keeps_auto. Qed.
Hint Resolve keeps_known_offline keeps_record_seen keeps_archive_chat keeps_send_to : keeps.

Lemma keeps_close : keeps_ close_grace_windows.
Proof.
  unfold close_grace_windows. eapply (keeps_bind _ _ _ (λ _ _, True)); [apply keeps_get|intros any].
  eapply (keeps_bind _ _ _ (λ _ _, True)); [|intros _; exact (keeps_ret _ _ _ (λ _, True))].
  intros s HI _. eexists (), _, []. split; [done|].
  by destruct (put_registry_ok _ _ s _ _ HI (registry_close _ _ (so_registry _ _ _ HI))).
Qed.

Lemma keeps_open user conn until file :
  is_Some file → keeps_ (open_window user conn until file).
Proof.
  intros [f ->] s HI _. unfold open_window, mbind, Sec_bind, sget. cbn -[put_peers put_grace_file].
  destruct (sv_peers s !! user) as [e|] eqn:He; [|by eexists _, s, _].
  case_bool_decide; [|by eexists _, s, _]. case_bool_decide as Hl; [|by eexists _, s, _].
  cbn -[put_peers put_grace_file]. eexists _, _, _. split; [done|].
  by destruct (put_registry_ok _ _ s _ _ HI (registry_open _ _ _ e until f (so_registry _ _ _ HI) He Hl)).
Qed.

Lemma keeps_promote t : keeps_ (promote_departed t).
Proof.
  intros s HI _. unfold promote_departed, mbind, Sec_bind, sget, smodify. cbn -[put_peers].
  eexists _, _, _. split; [done|].
  by destruct (put_peers_ok _ _ s _ HI (registry_promote _ _ t (so_registry _ _ _ HI))).
Qed.

Lemma keeps_bind_transfer c user token : keeps_ (bind_transfer c user token).
Proof.
  intros s HI _. unfold bind_transfer, mbind, Sec_bind, sget, smodify. cbn -[put_peers].
  destruct (sv_peers s !! user) as [e|] eqn:He; [|by eexists _, s, _].
  case_bool_decide as Hc; [|by eexists _, s, _]. case_bool_decide; [|by eexists _, s, _].
  cbn -[put_peers]. eexists _, _, _. split; [done|].
  destruct (ro_entry _ _ (so_registry _ _ _ HI) user e He).
  apply and_assoc; split; [|done]. apply put_peers_ok; [done|].
  eapply registry_update; [apply HI|done| |done]. split; simpl; try done; by intros [? [=]].
Qed.
Lemma keeps_unbind_transfer c user : keeps_ (unbind_transfer c user).
Proof.
  intros s HI _. unfold unbind_transfer, mbind, Sec_bind, sget, smodify, swhen. cbn -[put_peers].
  destruct (sv_peers s !! user) as [e|] eqn:He; [|by eexists _, s, _].
  case_bool_decide; [|by eexists _, s, _]. cbn -[put_peers]. eexists _, _, _. split; [done|].
  destruct (ro_entry _ _ (so_registry _ _ _ HI) user e He).
  apply and_assoc; split; [|done]. apply put_peers_ok; [done|].
  eapply registry_update; [apply HI|done| |done]. split; simpl; try done; by intros [? [=]].
Qed.
Lemma keeps_register_relay c user outbox : keeps_ (register_relay c user outbox).
Proof.
  intros s HI _. unfold register_relay, mbind, Sec_bind, sget, smodify, swhen. cbn -[put_peers].
  destruct (sv_peers s !! user) as [e|] eqn:He; [|by eexists _, s, _].
  case_bool_decide as Hid; [|by eexists _, s, _]. cbn -[put_peers]. eexists _, _, _. split; [done|].
  destruct (ro_entry _ _ (so_registry _ _ _ HI) user e He) as [? ? ? ? ? Htid ? ?].
  apply and_assoc; split; [|done]. apply put_peers_ok; [done|].
  eapply registry_update; [apply HI|done| |done]. split; simpl; try done.
  intros _. rewrite <-Htid, Hid. by eexists.
Qed.

Lemma keeps_register encode c user role remote token :
  keeps_ (register encode W c user role remote token).
Proof.
  unfold register. eapply (keeps_bind _ _ _ (λ _ _, True)); [apply keeps_send_to|intros _].
  eapply (keeps_bind _ _ _ (λ _ _, True)); [by apply keeps_reading_|intros t].
  eapply (keeps_bind _ _ _ (λ _ _, True)); [apply keeps_get|intros old].
  intros s HI _. unfold mbind, Sec_bind, smodify. cbn -[put_peers put_grace_file].
  set (e := mkPeerEntry _ _ _ _ _ _ _ _).
  assert (entry_ok user e) as He.
  { split; simpl; try done; try (by intros [? [=]]); split; try done; by intros [? [=]]. }
  eexists _, _, _. split; [done|].
  pose proof (registry_register _ _ user e (so_registry _ _ _ HI) He eq_refl) as Hreg.
  destruct (put_registry_ok _ _ s _ _ HI Hreg) as [H1 H2].
  replace (if existsb _ _ then _ else _) with (put_grace_file
    (if existsb (λ e, bool_decide (is_Some (peer_grace_until (en_info e))))
          (map_to_list (<[user := e]> (sv_peers s))).*2 then sv_grace_file s else None)
    (put_peers (<[user := e]> (sv_peers s)) s)); [done|].
  destruct s; simpl. by destruct (existsb _ _).
Qed.

Lemma keeps_deregister c user role end_ : keeps_ (deregister W c user role end_).
Proof.
  unfold deregister. eapply (keeps_bind _ _ _ (λ _ _, True)); [apply keeps_get|intros before].
  eapply (keeps_bind _ _ _ (λ e s, sv_peers s !! user = e)).
  { eapply keeps_weaken; [| |apply (keeps_sget _ _ _ (λ _, True))]; [done|]. by intros ? s [-> _]. }
  intros e. eapply (keeps_bind _ _ _ (λ _ _, True)).
  - destruct e as [e|]; [|eapply keeps_weaken; [| |exact (keeps_ret _ _ _ (λ _, True))]; done].
    case_bool_decide; [|eapply keeps_weaken; [| |exact (keeps_ret _ _ _ (λ _, True))]; done].
    eapply keeps_bind; [by apply (keeps_reading _ _ HW _ (λ s, sv_peers s !! user = Some e))|intros t].
    eapply (keeps_bind _ _ _ (λ _ _, True)); [|intros _; exact (keeps_ret _ _ _ (λ _, True))].
    intros s HI [He _]. destruct (ro_entry _ _ (so_registry _ _ _ HI) user e He).
    apply (keeps_put_entry _ _ user e (gone_entry end_ t e)); [|done|done|exact He].
    split; simpl; try done; try (by intros [? [=]]); destruct end_; try done; split; try done; by eexists.
  - intros [ours dead]. eapply (keeps_bind _ _ _ (λ _ _, True)); [apply keeps_get|intros nobody].
    exact (keeps_ret _ _ _ (λ _, True)).
Qed.

(** Reading the view of the current state. *)
Lemma keeps_view_then {A} (f : CrdtState → StateView → SecM A) :
  (∀ x v, keeps_ (f x v)) → keeps_ (s ← sget sv_state; v ← sof_option (view s); f s v).
Proof.
  intros Hf. eapply keeps_bind; [apply (keeps_sget _ _ _ (λ _, True))|]. intros x.
  eapply (keeps_bind _ _ _ (λ _ _, True)); [|intros v; apply Hf].
  eapply (keeps_weaken _ _ _ (λ s, x = sv_state s)); [by intros ? []|done|apply keeps_sof].
  intros s HI ->. apply view_total, HI.
Qed.
Lemma keeps_stamped_write {A} w (f : Epoch * CrdtOp → SecM A) :
  (∀ op, keeps_ (f op)) → keeps_ (ts ← stamp W; op ← apply_write w ts; f op).
Proof.
  intros Hf. eapply keeps_bind; [by apply keeps_stamp|]. intros ts.
  eapply (keeps_bind _ _ _ (λ _ _, True)); [apply keeps_apply_write|done].
Qed.
Lemma keeps_saved peers file : keeps_ (saved_position_op W peers file).
Proof.
  apply (keeps_view_then (λ _ _, _)). intros _ v. destruct (Derive.saved_position v peers file) as [millis|].
  - apply keeps_stamped_write. intros [? op]. exact (keeps_ret _ _ _ (λ _, True)).
  - exact (keeps_ret _ _ _ (λ _, True)).
Qed.
Lemma keeps_write_all ws : keeps_ (write_all W ws).
Proof.
  induction ws as [|w ws IH]; [exact (keeps_ret _ _ _ (λ _, True))|].
  apply keeps_stamped_write. intros [? op].
  eapply (keeps_bind _ _ _ (λ _ _, True)); [done|intros ops; exact (keeps_ret _ _ _ (λ _, True))].
Qed.
Hint Resolve keeps_saved keeps_write_all : keeps.

Lemma keeps_eof md4 reporter file peers : keeps_ (eof_section md4 W reporter file peers).
Proof. apply (keeps_view_then (λ _ v, _ v)). intros _ v. keeps_auto. Qed.
Lemma keeps_mark md4 file w : keeps_ (mark_section md4 W file w).
Proof. apply (keeps_view_then (λ _ v, _ v)). intros _ v. keeps_auto. Qed.
Lemma keeps_leave peers : keeps_ (leave_position W peers).
Proof. unfold leave_position. keeps_auto. Qed.

Lemma keeps_judge ip correct : keeps_ (judge_auth W ip correct).
Proof.
  intros s HI _. destruct (judge_ok (sv_limiter s) ip (w_instant W (sv_reads s)) correct
    (w_instant W (sv_reads s))) as (v & l & E & Hlim & Hok).
  { apply HI. } { rewrite (so_limit _ _ _ HI). apply HW. } { lia. }
  unfold judge_auth, instant_now, reading, mbind, Sec_bind, sget, smodify, sof_option, mret, Sec_ret.
  cbn. rewrite E. cbn. eexists _, _, _. split; [done|]. destruct (ok_read _ _ HW s HI) as [[] []].
  split; [|done]. split; simpl in *; try done; [by rewrite Hlim| |].
  - eapply limiter_ok_later; [done|]. apply (wo_instant _ _ HW). lia.
  - intros He. by destruct (so_floor0 He).
Qed.
End handlers.
#[export] Hint Resolve keeps_known_offline keeps_record_seen keeps_archive_chat keeps_send_to
  keeps_close keeps_promote keeps_bind_transfer keeps_unbind_transfer keeps_register_relay
  keeps_register keeps_deregister keeps_saved keeps_write_all keeps_eof keeps_mark keeps_leave
  keeps_judge : keeps.
