(* ===== verification/ServerSafe.v ===== *)
(** * Safety of the rendezvous server's tasks

    The sections of server.rs that write the replicated state (operations from
    clients, merges, compaction), then every task the server spawns: each is
    [safe], so that any interleaving of them keeps [shared_ok] and never panics
    ([calm_task]; the statement is [server_safe] in ServerHandlers). *)

From S2P Require Import Prelude Types Text Lww Vclock CrdtMap Identifier State Fields StateRepr.
From S2P Require Import Convergence Resolve Playlist View Writes Lamport Compact Franchise Message.
From S2P Require Import SeriesIdentity EpisodeParse Derive Transfer AuthLimit Conc Server ServerCorrect.

Section safety.
Context (config : ServerConfig) (W : World) (HW : world_ok config W).
Abbreviation I := (shared_ok config W).
Abbreviation SecM := (Sec Shared Out).
Abbreviation keeps := (keeps config W).
Abbreviation keeps_ m := (keeps (λ _, True) m (λ _ _, True)).
Implicit Types (s : Shared).

(** ** Writes stamped elsewhere *)

Definition op_issued (op : CrdtOp) s : Prop := ∀ t, op_lww_timestamp op = Some t → issued t s.
Lemma op_issued_grows op s s' : grows s s' → op_issued op s → op_issued op s'.
Proof. intros Hg Hop t Ht. by eapply issued_grows, Hop. Qed.

Lemma ok_observe s t :
  I s → t < HALF →
  I (put_issued (Z.max (sv_last_issued s) t) s) ∧ grows s (put_issued (Z.max (sv_last_issued s) t) s).
Proof.
  intros [Hw Hr Hl Hk Hf] Ht. split; split; simpl; try done; try lia.
  intros He. destruct (Hf He). split; simpl; lia.
Qed.
Lemma keeps_observe op :
  stamped_ok (op_lww_timestamp op) →
  keeps (λ _, True) (observe (op_lww_timestamp op)) (λ _, op_issued op).
Proof.
  intros Hts s HI _. unfold op_issued. destruct (op_lww_timestamp op) as [t|]; simpl in *.
  - eexists (), _, []. split; [done|]. destruct (ok_observe s t HI Hts) as [H1 H2].
    split_and!; [done..|]. intros u [= <-] _. simpl. lia.
  - exists (), s, []. done.
Qed.

(** What [apply_for_broadcast] leaves is what [apply] leaves, or nothing changed. *)
Lemma broadcast_state_cases x op dg :
  (apply_for_broadcast x op dg).1 = x ∨ (apply_for_broadcast x op dg).1 = apply x op.
Proof.
  rewrite apply_for_broadcast_state. destruct dg; [|by right].
  destruct (apply_if_orderly_cases x op) as [E|E]; rewrite E; auto.
Qed.

Lemma keeps_op_section epoch op dg peers :
  is_put op = true → chat_op_ok op →
  keeps (op_issued op) (op_section W epoch op dg peers) (λ _ _, True).
Proof.
  intros Hput Hchat. unfold op_section. eapply keeps_bind; [apply (keeps_sget _ _ _ (op_issued op))|].
  intros x. cbn beta.
  case_bool_decide; [eapply keeps_weaken; [| |exact (keeps_ret _ _ _ (λ _, True))]; done|].
  destruct (apply_for_broadcast (sv_state x) op dg) as [state applied] eqn:Happ.
  eapply (keeps_bind _ _ _ (λ _ _, True)).
  - intros s HI [-> Hop]. eexists (), _, []. split; [done|]. apply and_assoc. split; [|done].
    pose proof (broadcast_state_cases (sv_state (id s)) op dg) as Hc. rewrite Happ in Hc. simpl in Hc.
    apply put_crdt_ok; [done|..].
    + destruct Hc as [-> | ->]; [apply HI|by apply wf_apply; [apply HI|..]].
    + intros He. pose proof (floor_lamport _ _ s HI He).
      destruct Hc as [-> | ->]; [done|]. apply lamport_apply; [done|]. split; [done..|].
      intros t Ht. by apply (Hop t Ht).
  - intros _. keeps_auto.
Qed.

(** Two changes of the state, seen as one. *)
Lemma keeps_modify2 {A} P (f g : Shared → Shared) (m : SecM A) :
  (∀ s, I s → P s → I (g (f s)) ∧ grows s (g (f s))) → keeps_ m →
  keeps P (smodify f;; smodify g;; m) (λ _ _, True).
Proof.
  intros Hfg Hm s HI HP. destruct (Hfg s HI HP) as [H1 H2].
  destruct (Hm (g (f s)) H1 Logic.I) as (a & s' & o & E & H3 & H4 & _).
  exists a, s', o. unfold mbind, Sec_bind, smodify. rewrite E. split_and!; [done|done|by trans (g (f s))|done].
Qed.

Lemma keeps_merge_section snapshot peers :
  wf_state (snap_state snapshot) → max_lww_timestamp (snap_state snapshot) < HALF →
  keeps_ (merge_section W snapshot peers).
Proof.
  intros Hwf Hmax. unfold merge_section.
  eapply keeps_bind; [apply (keeps_sget _ _ _ (λ _, True))|]. intros x. cbn beta.
  case_bool_decide; [eapply keeps_weaken; [| |exact (keeps_ret _ _ _ (λ _, True))]; done|].
  apply keeps_modify2; [|keeps_auto].
  intros s HI [-> _]. set (y := merge (sv_state (id s)) (snap_state snapshot)).
  assert (∀ X, max_lww_timestamp (sv_state s) ≤ X → max_lww_timestamp (snap_state snapshot) ≤ X →
    lamport y X) as Hy.
  { intros X H1 H2. apply lamport_merge.
    - eapply lamport_mono; [exact H1|apply lamport_of_floor, HI].
    - eapply lamport_mono; [exact H2|by apply lamport_of_floor]. }
  assert (wf_state y) as Hwfy.
  { apply (lp_wf _ (Z.max (max_lww_timestamp (sv_state s)) (max_lww_timestamp (snap_state snapshot)))).
    apply Hy; lia. }
  destruct HI as [Hw Hr Hl Hk Hf]. split; split; simpl; try done; try lia.
  intros He. destruct (Hf He) as [H1 H2 H3].
  assert (max_lww_timestamp y ≤ Z.max (sv_last_issued s) (HALF - 1)) as Hm.
  { apply lamport_floor; [|lia]. apply Hy; unfold HALF in *; lia. }
  split; simpl; unfold HALF in *; lia.
Qed.

(** ** Compaction *)

Lemma nth_stamp_taken n s :
  nth_stamp W n s = (stamp_value W (stamps_taken W n s), stamped_shared W (stamps_taken W n s)).
Proof. by destruct n. Qed.
Lemma ok_stamp s : I s → I (stamped_shared W s) ∧ grows s (stamped_shared W s).
Proof.
  intros HI. destruct (keeps_stamp config W HW s HI Logic.I) as (a & s' & o & E & H1 & H2 & _).
  rewrite stamp_eq in E. by simplify_eq.
Qed.
Lemma stamps_taken_ok n s :
  I s → I (stamps_taken W n s) ∧ grows s (stamps_taken W n s) ∧
  sv_reads (stamps_taken W n s) = (sv_reads s + n)%nat ∧
  sv_epoch (stamps_taken W n s) = sv_epoch s ∧
  ∀ k, (k < n)%nat → issued (nth_stamp W k s).1 (stamps_taken W n s).
Proof.
  intros HI. induction n as [|n (H1 & H2 & H3 & H4 & H5)].
  { split_and!; try done; try lia. }
  cbn [stamps_taken]. rewrite nth_stamp_taken. cbn [snd].
  destruct (ok_stamp _ H1) as [H6 H7]. split_and!; [done|by trans (stamps_taken W n s)| |done|].
  - simpl. lia.
  - intros k Hk. destruct (decide (k = n)) as [->|].
    + rewrite nth_stamp_taken. intros _. simpl. lia.
    + eapply issued_grows; [exact H7|]. apply H5. lia.
Qed.

Lemma bound_prefix (f : nat → Z) n : ∃ X, ∀ k, (k < n)%nat → f k ≤ X.
Proof.
  induction n as [|n [X HX]]; [exists 0; lia|]. exists (Z.max X (f n)). intros k Hk.
  destruct (decide (k = n)) as [->|]; [lia|]. specialize (HX k ltac:(lia)). lia.
Qed.

Lemma keeps_swap keep : keeps_ (swap_state W keep).
Proof.
  unfold swap_state. eapply keeps_bind; [apply (keeps_sget _ _ _ (λ _, True))|]. intros x.
  eapply (keeps_bind _ _ _ (λ _ s, x = s)).
  { eapply (keeps_weaken _ _ _ (λ s, x = s)); [by intros ? []| |apply keeps_sof].
    - by intros ? ? [].
    - intros s HI ->. apply view_total, HI. }
  intros v. cbn zeta beta. set (stamps := λ n, (nth_stamp W n x).1).
  destruct (rebuild_build SERVER stamps v keep) as [fresh n] eqn:Eb.
  eapply (keeps_bind _ _ _ (λ _ _, True)); [|intros _; exact (keeps_ret _ _ _ (λ _, True))].
  intros s HI <-. eexists (), _, []. split; [done|]. apply and_assoc. split; [|done].
  assert (∀ X, (∀ k, (k < n)%nat → stamps k ≤ X) → lamport fresh X) as Hlam.
  { intros X HX. pose proof (rebuild_lamport SERVER stamps v keep X) as Hr. unfold rebuild in Hr.
    rewrite Eb in Hr. by apply Hr. }
  pose proof (rebuild_takes_stamp SERVER stamps v keep) as Hn. rewrite Eb in Hn. simpl in Hn.
  destruct (stamps_taken_ok n x HI) as (HI' & Hg & Hreads & Hep & Hiss).
  destruct (put_crdt_ok _ _ (stamps_taken W n x) fresh HI') as [[Hw Hr Hl Hk Hf] Hg2].
  { destruct (bound_prefix stamps n) as [X HX]. by apply (lp_wf _ X), Hlam. }
  { intros He. apply Hlam. intros k Hk. by apply Hiss. }
  assert (early (stamps_taken W n x) → u64_wrap (sv_epoch x + 1) = sv_epoch x + 1 ∧
    0 ≤ sv_epoch x + 1 < HALF + Z.of_nat (sv_reads x + n)) as Hwrap.
  { unfold early. rewrite Hreads. intros He. destruct (so_floor _ _ x HI) as [_ H1 _]; [unfold early; lia|].
    unfold u64_wrap, u64_modulus, HALF in *. rewrite Z.mod_small; lia. }
  split.
  - split; simpl; try done. intros He. destruct (Hf He) as [H1 H2 H3].
    destruct (Hwrap He) as [-> ?]. split; simpl; try done. rewrite Hreads. lia.
  - destruct Hg as [G1 G2 G3]. split; simpl; [done|done|]. intros He. destruct (Hwrap He) as [-> ?]. lia.
Qed.

(** ** Tasks *)

Section tasks.
Context (md4 : list Z → Z).
Context (encode_view : StateView → option (list Z)) (sha256 : list Z → list Z).
Context (encode : ServerControl → option (list Z)) (encode_relay : RelayEnvelope → option (list Z)).
Context (max_datagram_size : ConnId → option Z).
Context (search_titles : Storage → string → list AniDbSearchHit).

(** A task that is safe at any time, whatever it returns. *)
Definition calm {A} (t : Task Shared Out A) : Prop := ∀ s, I s → safe I grows (λ _ _, True) s t.

Lemma calm_ret {A} (a : A) : calm (mret a).
Proof. intros s _. by apply safe_ret. Qed.
Lemma calm_bind {A B} (t : Task Shared Out A) (f : A → Task Shared Out B) :
  calm t → (∀ a, calm (f a)) → calm (t ≫= f).
Proof.
  intros Ht Hf s HI. eapply (safe_bind I grows (λ _ _, True)); [by apply Ht|].
  intros a s' _ HI' _. by apply Hf.
Qed.
Lemma safe_keeps {A} P (m : SecM A) (Q : A → Shared → Prop) s0 :
  keeps P m Q → (∀ a s s', grows s s' → Q a s → Q a s') →
  (∀ s, grows s0 s → P s) → safe I grows Q s0 (atomic m).
Proof.
  intros Hm HQ HP. apply safe_section. intros s Hs HI. unfold section_ok.
  destruct (Hm s HI (HP s Hs)) as (a & s' & o & E & H1 & H2 & H3).
  exists a, s', o. split_and!; [done..|]. intros u Hu _. by eapply HQ.
Qed.
Lemma calm_atomic {A} (m : SecM A) : keeps_ m → calm (atomic m).
Proof. intros Hm s _. by apply (safe_keeps (λ _, True)). Qed.
Lemma calm_when b t : calm t → calm (twhen b t).
Proof. destruct b; [done|intros _; apply calm_ret]. Qed.
Lemma calm_for_each {A} (l : list A) (f : A → Task Shared Out ()) :
  (∀ x, calm (f x)) → calm (for_each l f).
Proof.
  intros Hf s HI. eapply safe_for_each; [apply _|].
  intros x u Hx Hs Hu. by apply Hf.
Qed.
(** The value a section returns, remembered. *)
Lemma calm_then {A B} (m : SecM A) (Q : A → Shared → Prop) (f : A → Task Shared Out B) :
  keeps (λ _, True) m Q → (∀ a s s', grows s s' → Q a s → Q a s') →
  (∀ a s, I s → Q a s → safe I grows (λ _ _, True) s (f a)) → calm (atomic m ≫= f).
Proof.
  intros Hm HQ Hf s HI. eapply (safe_bind I grows Q).
  - by apply (safe_keeps (λ _, True)).
  - intros a s' _ HI' Ha. by apply Hf.
Qed.

Create HintDb calm.
Ltac calm_step :=
  match goal with
  | |- calm (mbind _ _) => apply calm_bind; [|intros ?]
  | |- calm (mret _) => apply calm_ret
  | |- calm (atomic _) => apply calm_atomic; first [solve [eauto 2 with keeps] | keeps_auto]
  | |- calm (twhen _ _) => apply calm_when
  | |- calm (for_each _ _) => apply calm_for_each; intros ?
  | |- calm (match ?x with _ => _ end) => destruct x
  | |- _ => solve [eauto 2 with calm]
  end.
Ltac calm_auto := cbn zeta; repeat first [done | calm_step].

Lemma calm_broadcast_control msg skip : calm (broadcast_control encode msg skip).
Proof. unfold broadcast_control, live_conns. calm_auto. Qed.
Lemma calm_broadcast_op msg skip tr : calm (broadcast_op encode max_datagram_size msg skip tr).
Proof.
  unfold broadcast_op, live_conns, send_op_to. calm_auto.
Qed.
Hint Resolve calm_broadcast_control calm_broadcast_op : calm.
Lemma calm_flush : calm (flush W).
Proof. unfold flush, snapshot. calm_auto. Qed.
Lemma calm_forward from to msg : calm (forward encode_relay W from to msg).
Proof. unfold forward. calm_auto. Qed.
Lemma calm_server_op epoch op : calm (broadcast_server_op encode max_datagram_size epoch op).
Proof. unfold broadcast_server_op. calm_auto. Qed.
Hint Resolve calm_flush calm_forward calm_server_op : calm.

Lemma calm_server_write w : calm (server_write encode max_datagram_size W w).
Proof.
  unfold server_write. apply (calm_then _ issued).
  - apply keeps_stamp; done.
  - intros ts s s'. apply issued_grows.
  - intros ts s HI Hts. eapply (safe_bind I grows (λ _ _, True)).
    + apply (safe_keeps (issued ts)); [apply keeps_apply_write|done|].
      intros s' Hs. by eapply issued_grows.
    + intros [epoch op] s' _ HI' _. by apply calm_server_op.
Qed.
Hint Resolve calm_server_write : calm.

Lemma calm_peer_list : calm (broadcast_peer_list encode W).
Proof. unfold broadcast_peer_list, peer_infos. calm_auto. Qed.
Hint Resolve calm_peer_list : calm.
Lemma calm_follow file : calm (follow_laggard encode max_datagram_size W file).
Proof. unfold follow_laggard. calm_auto. Qed.
Hint Resolve calm_follow : calm.
Lemma calm_force_pause : calm (force_pause encode max_datagram_size W).
Proof. unfold force_pause. calm_auto. Qed.
Lemma calm_reconcile : calm (reconcile_grace_windows encode max_datagram_size W).
Proof. unfold reconcile_grace_windows. calm_auto. Qed.
Lemma calm_take user : calm (take_authority_from encode max_datagram_size W user).
Proof. unfold take_authority_from. calm_auto. Qed.
Hint Resolve calm_force_pause calm_reconcile calm_take : calm.
Lemma keeps_view_ : keeps_ (s ← sget sv_state; sof_option (view s)).
Proof. by apply keeps_view. Qed.
Hint Resolve keeps_view_ : keeps.
Lemma calm_pin : calm (pin_rejoin_anchor md4 encode max_datagram_size W).
Proof. unfold pin_rejoin_anchor, peer_infos. calm_auto. Qed.
Hint Resolve calm_pin : calm.

Lemma calm_open user c before : calm (open_grace_window md4 W user c before).
Proof.
  unfold open_grace_window, now.
  apply calm_bind; [apply calm_atomic; by apply keeps_reading_|intros t].
  apply calm_bind; [apply calm_atomic, keeps_view_|intros v].
  apply calm_bind; [apply calm_atomic; by apply keeps_known_offline|intros known]. cbn zeta.
  destruct (playback_active _ _ _) eqn:Hact; [|apply calm_ret].
  apply calm_atomic, keeps_open. unfold playback_active in Hact.
  apply andb_true_iff in Hact as [[_ Hnow%bool_decide_eq_true]%andb_true_iff _]. done.
Qed.
Hint Resolve calm_open : calm.

Lemma calm_hash_tick : calm (hash_tick encode_view sha256 encode).
Proof.
  unfold hash_tick. apply calm_bind; [|intros; apply calm_broadcast_control]. apply calm_atomic.
  eapply keeps_bind; [apply (keeps_sget _ _ _ (λ _, True))|intros x].
  eapply (keeps_bind _ _ _ (λ _ _, True)); [|intros; exact (keeps_ret _ _ _ (λ _, True))].
  eapply (keeps_weaken _ _ _ (λ s, x = s)); [by intros ? []|done|apply keeps_sof].
  intros s HI ->. unfold view_hash. destruct (view_total (sv_state s)) as [v Hv]; [apply HI|].
  unfold id. rewrite Hv. by eexists.
Qed.
Lemma calm_sweep_departed : calm (sweep_departed encode max_datagram_size W).
Proof. unfold sweep_departed. calm_auto. Qed.
Lemma calm_sweep_grace : calm (sweep_grace encode max_datagram_size W).
Proof. unfold sweep_grace. calm_auto. Qed.
Lemma calm_compaction keep : calm (run_compaction encode W keep).
Proof.
  unfold run_compaction, compact_state, snapshot.
  assert (keeps_ (swap_state W keep)) by apply keeps_swap. calm_auto.
Qed.
Hint Resolve calm_hash_tick calm_sweep_departed calm_sweep_grace calm_compaction : calm.

(** *** The messages of a connection *)

Lemma calm_eof reporter role file :
  calm (handle_eof md4 encode max_datagram_size W reporter role file).
Proof. unfold handle_eof, peer_infos. calm_auto. Qed.
Lemma calm_mark file w : calm (handle_mark_watched md4 encode max_datagram_size W file w).
Proof. unfold handle_mark_watched. calm_auto. Qed.
Lemma calm_after changed saved : calm (after_change md4 encode max_datagram_size W changed saved).
Proof. unfold after_change. calm_auto. Qed.
Hint Resolve calm_eof calm_mark calm_after : calm.

Lemma calm_state_op c epoch op dg :
  is_put op = true → chat_op_ok op → stamped_ok (op_lww_timestamp op) →
  calm (on_state_op md4 encode max_datagram_size W c epoch op dg).
Proof.
  intros Hput Hchat Hts. unfold on_state_op. apply (calm_then _ (λ _, op_issued op)).
  - by apply keeps_observe.
  - intros _ s s'. apply op_issued_grows.
  - intros _ s HI Hop.
    eapply (safe_bind I grows (λ _ _, True)).
    { destruct (is_now_playing op); [|by apply safe_ret]. unfold peer_infos.
      apply (calm_bind (atomic (sget _)) (λ infos, mret (Some infos))); [|intros; apply calm_ret|done].
      apply calm_atomic. by apply keeps_get. }
    intros peers s1 Hs1 HI1 _. eapply (safe_bind I grows (λ _ _, True)).
    { apply (safe_keeps (op_issued op)); [by apply keeps_op_section|done|].
      intros s' Hs. eapply op_issued_grows; [|exact Hop]. by trans s1. }
    intros [applied saved] s2 _ HI2 _. cbn beta iota.
    cut (calm (twhen applied (atomic (smodify (put_sv_dirty true));;
      broadcast_op encode max_datagram_size (StateOp epoch op) (Some c) (relay_transport op dg);;
      after_change md4 encode max_datagram_size W (is_now_playing op) saved))); [intros Hc; by apply Hc|].
    calm_auto.
Qed.

Lemma calm_state_merge snap :
  wf_state (snap_state snap) → max_lww_timestamp (snap_state snap) < HALF →
  calm (on_state_merge md4 encode max_datagram_size W snap).
Proof.
  intros Hwf Hmax. unfold on_state_merge, peer_infos, snapshot.
  assert (∀ peers, keeps_ (merge_section W snap peers)) by (intros; by apply keeps_merge_section).
  calm_auto.
Qed.
Lemma calm_time_sync c t dg : calm (on_time_sync encode W c t dg).
Proof. unfold on_time_sync, now. calm_auto. Qed.
Lemma calm_search c q : calm (on_search encode search_titles W c q).
Proof. unfold on_search. calm_auto. Qed.
Lemma calm_token token : calm (on_token W token).
Proof. unfold on_token. calm_auto. Qed.
Lemma calm_request_merge c : calm (on_request_merge encode W c).
Proof. unfold on_request_merge, snapshot. calm_auto. Qed.
Hint Resolve calm_time_sync calm_search calm_token calm_request_merge : calm.

(** The snapshot that is read can always be hashed. *)
Lemma calm_sync_status c epoch hash : calm (on_sync_status encode_view sha256 encode W c epoch hash).
Proof.
  unfold on_sync_status, snapshot. apply (calm_then _ (λ snap _, wf_state (snap_state snap))).
  - intros s HI _. eexists _, s, []. split; [done|]. split; [done|]. split; [done|].
    exact (so_wf _ _ _ HI).
  - done.
  - intros snap s HI Hwf. unfold initial_sync.
    destruct (view_total (snap_state snap)) as [v Hv]; [apply Hwf|].
    unfold view_hash. rewrite Hv. cbn [mbind option_bind].
    match goal with |- safe _ _ _ _ ?t => cut (calm t); [intros Hc; by apply Hc|] end.
    apply calm_atomic. unfold sof_option. case_bool_decide; [case_bool_decide|];
      (eapply (keeps_bind _ _ _ (λ _ _, True));
        [intros u Hu _; by eexists _, u, []|intros ?; keeps_auto]).
Qed.
Hint Resolve calm_sync_status : calm.

Lemma calm_serve_authed c user role sent events :
  Forall event_ok events →
  calm (serve_authed md4 encode_view sha256 encode max_datagram_size search_titles W
    c user role sent events).
Proof.
  intros Hev. revert sent. induction Hev as [|e events He Hev IH]; intros sent; [apply calm_ret|].
  destruct e as [[msg|]|[msg|]| |reason]; simpl in He; cbn [serve_authed];
    try apply IH; try apply calm_ret.
  all: destruct msg; try apply calm_ret; try apply IH.
  all: try (destruct sent; [apply IH|]).
  all: apply calm_bind; [|intros ?; try (case_match; [|apply calm_ret]); apply IH].
  all: try (solve [eauto 2 with calm]).
  all: first [ by apply calm_state_op; apply He | by apply calm_state_merge; apply He ].
Qed.

(** *** Connections *)

Lemma calm_close_old reason old : calm (close_old reason old).
Proof. unfold close_old. calm_auto. Qed.
Lemma calm_seen user role : calm (seen W user role).
Proof. unfold seen, now. calm_auto. Qed.
Lemma calm_ended c user role end_ before :
  calm (connection_ended md4 encode max_datagram_size W c user role end_ before).
Proof. unfold connection_ended. calm_auto. Qed.
Lemma calm_reject c msg reason : calm (reject_and_close encode W c msg reason).
Proof. unfold reject_and_close. calm_auto. Qed.
Hint Resolve calm_close_old calm_seen calm_ended calm_reject : calm.
Lemma calm_session c remote token user role events :
  Forall event_ok events →
  calm (serve_session md4 encode_view sha256 encode max_datagram_size search_titles W
    c remote token user role events).
Proof.
  intros Hev. unfold serve_session.
  assert (∀ sent, calm (serve_authed md4 encode_view sha256 encode max_datagram_size search_titles W
    c user role sent events)) by (intros; by apply calm_serve_authed).
  calm_auto.
Qed.
Lemma await_auth_suffix events : (await_auth events).2 `suffix_of` events.
Proof.
  induction events as [|e events IH]; [done|].
  assert (events `suffix_of` e :: events) as Hs by by exists [e].
  destruct e as [[msg|]|[msg|]| |reason]; simpl; try (by apply suffix_cons_r); try done.
  by destruct msg.
Qed.
Lemma calm_connection c remote ip token events :
  Forall event_ok events →
  calm (serve_connection md4 encode_view sha256 encode max_datagram_size search_titles W
    config c remote ip token events).
Proof.
  intros Hev. unfold serve_connection. pose proof (await_auth_suffix events) as [l Hl].
  destruct (await_auth events) as [outcome rest]. simpl in Hl. subst events.
  apply Forall_app in Hev as [_ Hev]. pose proof calm_session. calm_auto.
Qed.
Lemma calm_transfer c auth : calm (serve_transfer c auth).
Proof. unfold serve_transfer. calm_auto. Qed.
Lemma calm_relay c user outbox envelopes : calm (relay_stream encode_relay W c user outbox envelopes).
Proof.
  unfold relay_stream. apply calm_bind; [calm_auto|intros _].
  induction envelopes as [|[[]|] envelopes IH]; cbn [relay_reader]; calm_auto.
Qed.
Hint Resolve calm_transfer calm_relay : calm.

Lemma calm_task t :
  server_task md4 encode_view sha256 encode encode_relay max_datagram_size search_titles W
    config event_ok t → calm t.
Proof.
  intros [| | |Hc|h m|a r|h e|c remote ip token events Hev|c auth|c user o l].
  - apply calm_hash_tick.
  - apply calm_flush.
  - apply calm_bind; [apply calm_sweep_departed|intros _; apply calm_sweep_grace].
  - apply calm_compaction.
  - apply calm_server_write.
  - apply calm_server_write.
  - apply calm_server_write.
  - by apply calm_connection.
  - apply calm_transfer.
  - apply calm_relay.
Qed.
End tasks.
End safety.

(** ** Starting *)

(** What the server may be started from. *)
Record initial_ok (initial : StateSnapshot) : Prop := {
  in_wf : wf_state (snap_state initial);
  in_epoch : 0 ≤ snap_epoch initial < HALF;
  in_floor : 0 ≤ max_lww_timestamp (snap_state initial) < HALF
}.
Lemma start_ok config W storage initial :
  initial_ok initial → shared_ok config W (start config storage initial).
Proof.
  intros [Hwf Hep Hfl]. split.
  - exact Hwf.
  - split; [intros ? ? Hl; cbn in Hl; by rewrite lookup_empty in Hl|].
    split; [by intros [? [=]]|]. intros (? & ? & Hl & _). cbn in Hl. by rewrite lookup_empty in Hl.
  - reflexivity.
  - intros k a Hk. cbn in Hk. by rewrite lookup_empty in Hk.
  - intros _. split; cbn [start sv_last_issued sv_epoch sv_state sv_reads]; lia.
Qed.
