(* ===== verification/ServerHandlers.v ===== *)
(** * What the rendezvous server's handlers do

    The sequential behaviour of server.rs: each handler run alone from a good
    state. Safety gives that the run ends ([calm_run]); the lemmas here say in
    what state and with which messages sent. *)

From S2P Require Import Prelude Types Text Lww Vclock CrdtMap Identifier State Fields StateRepr.
From S2P Require Import Convergence Resolve Playlist View Writes Lamport Compact Franchise Message.
From S2P Require Import SeriesIdentity EpisodeParse Derive Transfer AuthLimit Conc.
From S2P Require Import Server ServerCorrect ServerSafe.

(** ** Running alone *)

Section runs.
Context {S O : Type}.
Definition runs {A} (t : Task S O A) (s : S) (Q : A → S → list O → Prop) : Prop :=
  ∃ a s' o, run t s = Some (a, (s', o)) ∧ Q a s' o.

Lemma runs_ret {A} (a : A) s (Q : A → S → list O → Prop) : Q a s [] → runs (mret a) s Q.
Proof. by exists a, s, []. Qed.
Lemma runs_bind {A B} (t : Task S O A) (f : A → Task S O B) s Q :
  runs t s (λ a s1 o1, runs (f a) s1 (λ b s2 o2, Q b s2 (o1 ++ o2))) → runs (t ≫= f) s Q.
Proof.
  intros (a & s1 & o1 & E1 & b & s2 & o2 & E2 & HQ). exists b, s2, (o1 ++ o2).
  rewrite run_bind, E1, E2. done.
Qed.
Lemma runs_atomic {A} (m : Sec S O A) s a s' o Q :
  m s = Some (a, (s', o)) → Q a s' o → runs (atomic m) s Q.
Proof. intros E HQ. exists a, s', o. by rewrite run_atomic. Qed.
Lemma runs_mono {A} (t : Task S O A) s (Q Q' : A → S → list O → Prop) :
  runs t s Q → (∀ a s' o, Q a s' o → Q' a s' o) → runs t s Q'.
Proof. intros (a & s' & o & E & HQ) Himp. exists a, s', o. auto. Qed.
Lemma runs_and {A} (t : Task S O A) s (Q Q' : A → S → list O → Prop) :
  runs t s Q → runs t s Q' → runs t s (λ a s' o, Q a s' o ∧ Q' a s' o).
Proof.
  intros (a & s' & o & E & HQ) (a2 & s2 & o2 & E2 & HQ'). rewrite E in E2. simplify_eq.
  by exists a2, s2, o2.
Qed.
Lemma runs_run {A} (t : Task S O A) s a s' o Q :
  run t s = Some (a, (s', o)) → Q a s' o → runs t s Q.
Proof. intros E HQ. by exists a, s', o. Qed.
(** A loop whose body only emits. *)
Lemma run_for_each {A} (f : A → Task S O unit) (g : A → list O) l s :
  (∀ x, run (f x) s = Some ((), (s, g x))) → run (for_each l f) s = Some ((), (s, l ≫= g)).
Proof.
  intros Hf. induction l as [|x l IH]; [done|]. cbn [for_each]. rewrite run_bind, Hf, IH. done.
Qed.
End runs.

Section handlers.
Context (config : ServerConfig) (W : World) (HW : world_ok config W).
Context (md4 : list Z → Z).
Context (encode_view : StateView → option (list Z)) (sha256 : list Z → list Z).
Context (encode : ServerControl → option (list Z)) (encode_relay : RelayEnvelope → option (list Z)).
Context (max_datagram_size : ConnId → option Z).
Context (search_titles : Storage → string → list AniDbSearchHit).
Implicit Types (s : Shared) (w : LocalWrite).

Lemma calm_run {A} (t : Task Shared Out A) s :
  calm config W t → shared_ok config W s →
  runs t s (λ _ s' _, shared_ok config W s' ∧ grows s s').
Proof.
  intros Ht HI. destruct (safe_run _ _ _ s t (Ht s HI) HI) as (a & s' & o & E & H1 & H2 & _).
  by exists a, s', o.
Qed.

(** ** What is sent *)

(** The live connections, in the order of the map. *)
Definition live (skip : option ConnId) s : list ConnId :=
  omap en_conn (filter (λ e, Some (en_conn_id e) ≠ skip) (map_to_list (sv_peers s)).*2).
Definition copies (msg : ServerControl) (frame : list Z) (tr : RelayTransport) (conn : ConnId)
    : list Out :=
  (if bool_decide (tr = Eager) then [OControl conn msg] else []) ++
  (if match max_datagram_size conn with
      | Some max => Z.of_nat (length frame) <=? max | None => false end
   then [ODatagram conn msg] else []).
Definition fanout (msg : ServerControl) (skip : option ConnId) (tr : RelayTransport) s : list Out :=
  match encode msg with None => [] | Some frame => live skip s ≫= copies msg frame tr end.
Definition control_fanout (msg : ServerControl) (skip : option ConnId) s : list Out :=
  match encode msg with None => [] | Some _ => live skip s ≫= λ conn, [OControl conn msg] end.

Lemma run_broadcast_op msg skip tr s :
  run (broadcast_op encode max_datagram_size msg skip tr) s = Some ((), (s, fanout msg skip tr s)).
Proof.
  unfold broadcast_op, fanout. destruct (encode msg) as [frame|]; [|done].
  rewrite run_bind, run_atomic. cbn [live_conns sget]. fold (live skip s).
  rewrite (run_for_each _ (copies msg frame tr)); [done|].
  intros conn. rewrite run_atomic. unfold send_op_to, copies, swhen. cbn zeta.
  destruct (bool_decide (tr = Eager)), (match max_datagram_size conn with Some _ => _ | None => _ end); done.
Qed.
Lemma run_broadcast_control msg skip s :
  run (broadcast_control encode msg skip) s = Some ((), (s, control_fanout msg skip s)).
Proof.
  unfold broadcast_control, control_fanout. destruct (encode msg) as [frame|]; [|done].
  rewrite run_bind, run_atomic. cbn [live_conns sget]. fold (live skip s).
  by rewrite (run_for_each _ (λ conn, [OControl conn msg])).
Qed.

(** Who is sent a copy. *)
Lemma elem_of_live skip s conn :
  conn ∈ live skip s ↔
  ∃ user e, sv_peers s !! user = Some e ∧ en_conn e = Some conn ∧ Some (en_conn_id e) ≠ skip.
Proof.
  unfold live. rewrite list_elem_of_omap. setoid_rewrite list_elem_of_filter.
  setoid_rewrite list_elem_of_fmap. split.
  - intros (e & (Hskip & [user e'] & -> & Hin) & Hc). apply elem_of_map_to_list in Hin. by exists user, e'.
  - intros (user & e & Hu & Hc & Hskip). exists e. split; [|done]. split; [done|].
    exists (user, e). split; [done|]. by apply elem_of_map_to_list.
Qed.
Lemma elem_of_fanout msg frame skip s out :
  encode msg = Some frame →
  out ∈ fanout msg skip Eager s ↔
  ∃ user e conn, sv_peers s !! user = Some e ∧ en_conn e = Some conn ∧ Some (en_conn_id e) ≠ skip ∧
    (out = OControl conn msg ∨
     out = ODatagram conn msg ∧ ∃ max, max_datagram_size conn = Some max ∧ Z.of_nat (length frame) ≤ max).
Proof using encode max_datagram_size.
  clear md4 sha256 encode_view encode_relay search_titles.
  intros E. unfold fanout. rewrite E, list_elem_of_bind. unfold copies.
  rewrite bool_decide_eq_true_2 by done.
  assert (∀ conn, out ∈ [OControl conn msg] ++
      (if match max_datagram_size conn with
          | Some max => Z.of_nat (length frame) <=? max | None => false end
       then [ODatagram conn msg] else []) ↔
    (out = OControl conn msg ∨
     out = ODatagram conn msg ∧
     ∃ max, max_datagram_size conn = Some max ∧ Z.of_nat (length frame) ≤ max)) as Hc.
  { intros conn. rewrite elem_of_app, list_elem_of_singleton.
    destruct (max_datagram_size conn) as [max|]; [destruct (Z.leb_spec (Z.of_nat (length frame)) max)|];
      rewrite ?list_elem_of_singleton, ?elem_of_nil; naive_solver lia. }
  setoid_rewrite elem_of_live. split.
  - intros (conn & Hout & user & e & H1 & H2 & H3). apply Hc in Hout. eauto 10.
  - intros (user & e & conn & H1 & H2 & H3 & Hout). exists conn. split; [by apply Hc|eauto].
Qed.

(** ** Server writes *)

(** The state after a stamped write, and the op it makes. *)
Definition wrote w s : Shared :=
  put_crdt (run_write w SERVER (stamp_value W s) (sv_state s)).1 (stamped_shared W s).
Definition wrote_op w s : CrdtOp := (run_write w SERVER (stamp_value W s) (sv_state s)).2.

Lemma apply_write_eq w s :
  apply_write w (stamp_value W s) (stamped_shared W s) = Some ((sv_epoch s, wrote_op w s), (wrote w s, [])).
Proof.
  unfold apply_write, wrote, wrote_op, sget, mbind, Sec_bind. simpl.
  by destruct (run_write w SERVER (stamp_value W s) (sv_state s)).
Qed.
Lemma run_server_write w s :
  run (server_write encode max_datagram_size W w) s =
    Some ((), (put_sv_dirty true (wrote w s),
               fanout (StateOp (sv_epoch s) (wrote_op w s)) None Eager s)).
Proof.
  unfold server_write. rewrite run_bind, run_atomic, stamp_eq, run_bind, run_atomic, apply_write_eq.
  unfold broadcast_server_op. rewrite run_bind, run_atomic. unfold smodify.
  rewrite run_broadcast_op. done.
Qed.

(** Room for [k] more stamps: in the readings and in every map's clock. *)
Record fresh (k : Z) s : Prop := {
  fr_ok : shared_ok config W s;
  fr_reads : Z.of_nat (sv_reads s) + k < HALF;
  fr_room f : vget (map_clock (mget f (sv_state s))) SERVER + k < u64_max
}.
Lemma fresh_mono k j s : j ≤ k → fresh k s → fresh j s.
Proof. intros Hj [H1 H2 H3]. split; [done|lia|intros f; specialize (H3 f); lia]. Qed.
Lemma fresh_early k s : 0 ≤ k → fresh k s → early s.
Proof. intros Hk [_ H _]. unfold early. lia. Qed.
Lemma stamp_writable k s : 1 ≤ k → fresh k s → writable (sv_state s) SERVER (stamp_value W s).
Proof.
  intros Hk Hf. assert (early s) as He by (apply (fresh_early k); [lia|done]).
  destruct Hf as [HI _ Hroom]. pose proof (stamp_above config W HW s HI He).
  destruct (so_floor _ _ _ HI He) as [? _ ?].
  apply (lamport_writable _ (sv_last_issued s)); [by apply (floor_lamport config W)|lia|].
  intros f. specialize (Hroom f). lia.
Qed.

(** One write: the view changes by that assignment, and there is room for one less. *)
Lemma wrote_ok w s : shared_ok config W s → shared_ok config W (wrote w s) ∧ grows s (wrote w s).
Proof.
  intros HI. destruct (ok_stamp config W HW s HI) as [H1 H2].
  destruct (keeps_stamp config W HW s HI Logic.I) as (ts & s' & o & E & _ & _ & Hiss).
  rewrite stamp_eq in E. simplify_eq.
  destruct (keeps_apply_write config W w (stamp_value W s) (stamped_shared W s) H1 Hiss)
    as (a & s' & o & E & H3 & H4 & _).
  rewrite apply_write_eq in E. simplify_eq. split; [done|]. by trans (stamped_shared W s).
Qed.
Lemma wrote_fresh k w s : 0 ≤ k → fresh (k + 1) s → fresh k (wrote w s).
Proof.
  intros Hk Hf. pose proof (stamp_writable (k + 1) s ltac:(lia) Hf) as Hw. destruct Hf as [H1 H2 H3].
  split; [by apply wrote_ok|simpl; lia|]. intros f.
  pose proof (write_clock w (sv_state s) SERVER (stamp_value W s) f Hw). specialize (H3 f). simpl. lia.
Qed.
Lemma wrote_view k w s v :
  1 ≤ k → fresh k s → view (sv_state s) = Some v →
  view (sv_state (wrote w s)) = Some (view_after w (stamp_value W s) v).
Proof. intros Hk Hf Hv. apply write_refines; [by eapply stamp_writable|done]. Qed.

(** Several writes in one section. *)
Fixpoint wrote_all (ws : list LocalWrite) s : Shared :=
  match ws with [] => s | w :: ws => wrote_all ws (wrote w s) end.
Fixpoint wrote_ops (ws : list LocalWrite) s : list CrdtOp :=
  match ws with [] => [] | w :: ws => wrote_op w s :: wrote_ops ws (wrote w s) end.
Fixpoint view_after_all (ws : list LocalWrite) s (v : StateView) : StateView :=
  match ws with
  | [] => v
  | w :: ws => view_after_all ws (wrote w s) (view_after w (stamp_value W s) v)
  end.
Lemma write_all_eq ws s : write_all W ws s = Some (wrote_ops ws s, (wrote_all ws s, [])).
Proof.
  revert s. induction ws as [|w ws IH]; intros s; [done|]. cbn [write_all].
  unfold mbind, Sec_bind. rewrite stamp_eq, apply_write_eq, IH. done.
Qed.
Lemma wrote_all_spec k ws s v :
  0 ≤ k → fresh (k + Z.of_nat (length ws)) s → view (sv_state s) = Some v →
  fresh k (wrote_all ws s) ∧ grows s (wrote_all ws s) ∧
  view (sv_state (wrote_all ws s)) = Some (view_after_all ws s v).
Proof.
  revert s v. induction ws as [|w ws IH]; intros s v Hk Hf Hv; simpl in *.
  { split; [|done]. by rewrite Z.add_0_r in Hf. }
  assert (fresh (k + Z.of_nat (length ws) + 1) s) as Hf' by (eapply fresh_mono; [|exact Hf]; lia).
  destruct (IH (wrote w s) (view_after w (stamp_value W s) v)) as (H1 & H2 & H3); [done| | |].
  - apply wrote_fresh; [lia|done].
  - eapply wrote_view; [|exact Hf'|done]. lia.
  - split_and!; [done| |done]. trans (wrote w s); [|done]. by apply wrote_ok, Hf.
Qed.
Lemma wrote_all_core ws s :
  sv_peers (wrote_all ws s) = sv_peers s ∧ sv_grace_file (wrote_all ws s) = sv_grace_file s ∧
  sv_epoch (wrote_all ws s) = sv_epoch s ∧ sv_storage (wrote_all ws s) = sv_storage s.
Proof. revert s. induction ws as [|w ws IH]; intros s; [done|]. exact (IH (wrote w s)). Qed.
Lemma wrote_all_app ws ws' s : wrote_all (ws ++ ws') s = wrote_all ws' (wrote_all ws s).
Proof. revert s. induction ws as [|w ws IH]; intros s; [done|]. apply IH. Qed.
Lemma wrote_ops_app ws ws' s :
  wrote_ops (ws ++ ws') s = wrote_ops ws s ++ wrote_ops ws' (wrote_all ws s).
Proof. revert s. induction ws as [|w ws IH]; intros s; [done|]. simpl. f_equal. apply IH. Qed.

(** ** The outage windows *)

Definition closed s : Shared :=
  put_grace_file None (put_peers ((λ e, put_info (set_grace None (en_info e)) e) <$> sv_peers s) s).
Definition no_window s : Prop :=
  sv_grace_file s = None ∧ ∀ user e, sv_peers s !! user = Some e → peer_grace_until (en_info e) = None.
Lemma no_window_ok s : shared_ok config W s → sv_grace_file s = None → no_window s.
Proof.
  intros HI Hg. split; [done|]. intros user e He. destruct (peer_grace_until (en_info e)) eqn:E; [|done].
  destruct (ro_grace _ _ (so_registry _ _ _ HI)) as [_ Hopen]. rewrite Hg in Hopen.
  destruct Hopen as [? [=]]. exists user, e. rewrite E. split; [done|by eexists].
Qed.
Lemma no_window_closed s : no_window (closed s).
Proof.
  split; [done|]. intros user e. cbn. rewrite lookup_fmap_Some. by intros (e' & <- & _).
Qed.
Lemma ok_closed k s : fresh k s → fresh k (closed s).
Proof.
  intros [HI H2 H3]. split; [|done|done].
  by apply (put_registry_ok _ _ s _ _ HI), (registry_close _ _ (so_registry _ _ _ HI)).
Qed.
Lemma run_close s :
  shared_ok config W s →
  run (atomic close_grace_windows) s =
    Some (bool_decide (is_Some (sv_grace_file s)), (closed s, [] : list Out)).
Proof.
  intros HI. rewrite run_atomic. unfold close_grace_windows, sget, mbind, Sec_bind, smodify. cbn.
  by rewrite windows_open_spec by apply HI.
Qed.

(** The peer list consumes readings and changes nothing. *)
Lemma run_known_offline peers s :
  ∃ n known, known_offline W peers s = Some (known, (put_reads n s, [] : list Out)).
Proof.
  unfold known_offline, now, succeeds, reading, sget, smodify, mbind, Sec_bind, mret, Sec_ret.
  destruct (sv_storage s) as [st|] eqn:Hst; cbn.
  - destruct (w_ok W (S (sv_reads s))); cbn; by eexists _, _.
  - exists (sv_reads s), []. by destruct s.
Qed.
Lemma run_peer_list s :
  runs (broadcast_peer_list encode W) s (λ _ s' o, ∃ n, s' = put_reads n s).
Proof.
  unfold broadcast_peer_list. apply runs_bind. eapply runs_atomic; [done|].
  apply runs_bind. destruct (run_known_offline (infos_of (sv_peers s)) s) as (n & known & E).
  eapply runs_atomic; [exact E|]. eapply runs_run; [apply run_broadcast_control|]. by exists n.
Qed.

Lemma view_playing s v :
  view (sv_state s) = Some v →
  v_now_playing v = playing_file (sv_state s) ∧
  v_playback_intent v = default IntentPaused (resolve_value (playback_intent (sv_state s))) ∧
  v_seek_authority v = resolve_value (seek_authority (sv_state s)).
Proof. intros Hv. apply view_Some in Hv as (xs & _ & ->). done. Qed.

(** [follow_laggard], when the file is the one that plays. *)
Lemma run_follow file s :
  run (follow_laggard encode max_datagram_size W file) s =
    if bool_decide (playing_file (sv_state s) = Some file)
    then Some ((), (put_sv_dirty true (wrote (WSeekAuthority (AuthLaggard file)) s),
      fanout (StateOp (sv_epoch s) (wrote_op (WSeekAuthority (AuthLaggard file)) s)) None Eager s))
    else Some ((), (s, [])).
Proof.
  unfold follow_laggard. rewrite run_bind, run_atomic. unfold sget. case_bool_decide; [|done].
  cbn [twhen]. rewrite run_server_write. done.
Qed.

(** What closing the windows leaves in the replicated state. *)
Definition after_windows (file : option Ed2kHash) s : CrdtState :=
  match file with
  | Some g =>
      if bool_decide (playing_file (sv_state s) = Some g)
      then sv_state (wrote (WSeekAuthority (AuthLaggard g)) (closed s)) else sv_state s
  | None => sv_state s
  end.

(** [reconcile_grace_windows]: the windows of a paused group, or of a file that
    no longer plays, are all closed; the laggard's position takes over unless
    the group has moved on. *)
Lemma runs_reconcile s v :
  shared_ok config W s → view (sv_state s) = Some v →
  runs (reconcile_grace_windows encode max_datagram_size W) s (λ _ s' o,
    if bool_decide (is_Some (sv_grace_file s) ∧
         (v_playback_intent v ≠ IntentPlaying ∨ v_now_playing v ≠ sv_grace_file s))
    then no_window s' ∧ sv_state s' = after_windows (sv_grace_file s) s
    else s' = s ∧ o = []).
Proof.
  intros HI Hv. destruct (view_playing s v Hv) as (Hnow & Hint & _). rewrite Hnow, Hint.
  unfold reconcile_grace_windows. apply runs_bind. eapply runs_atomic; [done|].
  destruct (sv_grace_file s) as [g|] eqn:Hg; [|rewrite bool_decide_eq_false_2 by (by intros [[? [=]] _]); by apply runs_ret].
  apply runs_bind. eapply runs_atomic; [done|]. cbn beta iota.
  set (paused := bool_decide (resolve_value (playback_intent (sv_state s)) ≠ Some IntentPlaying)).
  set (moved := bool_decide (playing_file (sv_state s) ≠ Some g)).
  assert (paused || moved = bool_decide (is_Some (Some g) ∧
    (default IntentPaused (resolve_value (playback_intent (sv_state s))) ≠ IntentPlaying ∨
     playing_file (sv_state s) ≠ Some g))) as <-.
  { clear md4 encode_view sha256 encode_relay search_titles.
    subst paused moved. destruct (resolve_value (playback_intent (sv_state s))) as [[]|] eqn:E;
      repeat case_bool_decide; naive_solver. }
  destruct (paused || moved) eqn:Hpm; [|by apply runs_ret]. cbn [negb].
  apply runs_bind. eapply runs_run; [by apply run_close|]. rewrite Hg.
  cbn [twhen bool_decide]. rewrite bool_decide_eq_true_2 by by eexists. cbn [twhen].
  apply runs_bind. unfold after_windows. destruct moved eqn:Hm; subst moved; cbn [negb twhen].
  - apply bool_decide_eq_true in Hm. rewrite bool_decide_eq_false_2 by done.
    apply runs_ret. eapply runs_mono; [apply run_peer_list|]. intros _ s' o [n ->].
    split; [apply no_window_closed|done].
  - apply bool_decide_eq_false, dec_stable in Hm. rewrite bool_decide_eq_true_2 by done.
    eapply runs_run; [rewrite run_follow; rewrite bool_decide_eq_true_2 by done; reflexivity|].
    eapply runs_mono; [apply run_peer_list|]. intros _ s' o [n ->].
    split; [|done]. exact (no_window_closed s).
Qed.

(** [force_pause]: the group is paused, every window is closed, and if one was
    open on the file that plays its laggard decides the position. *)
Lemma ok_dirty k b s : fresh k s → fresh k (put_sv_dirty b s).
Proof.
  intros [HI H2 H3]. split; [|done|done].
  by apply (same_core_ok config W s (put_sv_dirty b s) ltac:(done) HI).
Qed.
Lemma playing_kept w s :
  (∀ f, w ≠ WNowPlaying f) → playing_file (sv_state (wrote w s)) = playing_file (sv_state s).
Proof. intros Hw. unfold wrote, playing_file. simpl. destruct w; try done. by destruct (Hw file). Qed.
Lemma runs_force_pause s v :
  fresh 2 s → view (sv_state s) = Some v →
  runs (force_pause encode max_datagram_size W) s (λ _ s' o,
    let paused := view_after (WPlaybackIntent IntentPaused) (stamp_value W s) v in
    no_window s' ∧ ∃ v', view (sv_state s') = Some v' ∧
      match sv_grace_file s with
      | Some g =>
          if bool_decide (v_now_playing v = Some g)
          then ∃ ts, v' = view_after (WSeekAuthority (AuthLaggard g)) ts paused else v' = paused
      | None => v' = paused
      end).
Proof.
  intros Hf Hv. set (w := WPlaybackIntent IntentPaused).
  assert (fresh 1 (put_sv_dirty true (wrote w s))) as Hf1 by (apply ok_dirty, wrote_fresh; [lia|done]).
  pose proof (wrote_view 2 w s v ltac:(lia) Hf Hv) as Hv1.
  assert (playing_file (sv_state (wrote w s)) = v_now_playing v) as Hnow.
  { rewrite playing_kept by done. by destruct (view_playing s v Hv). }
  unfold force_pause. apply runs_bind. eapply runs_run; [apply run_server_write|]. fold w.
  apply runs_bind. eapply runs_atomic; [done|].
  apply runs_bind. eapply runs_run; [apply run_close, Hf1|].
  change (sv_grace_file (put_sv_dirty true (wrote w s))) with (sv_grace_file s).
  destruct (sv_grace_file s) as [g|] eqn:Hg.
  - rewrite bool_decide_eq_true_2 by by eexists. cbn [twhen]. apply runs_bind. rewrite <-Hnow.
    pose proof (run_follow g (closed (put_sv_dirty true (wrote w s)))) as Hrun.
    change (playing_file (sv_state (closed (put_sv_dirty true (wrote w s)))))
      with (playing_file (sv_state (wrote w s))) in Hrun.
    case_bool_decide as Hpl; (eapply runs_run; [exact Hrun|]);
      (eapply runs_mono; [apply run_peer_list|]); intros _ s' o [n ->];
      (split; [exact (no_window_closed (put_sv_dirty true (wrote w s)))|]); [|by eexists].
    eexists. split; [|eexists; reflexivity].
    exact (wrote_view 1 (WSeekAuthority (AuthLaggard g)) (closed (put_sv_dirty true (wrote w s))) _
      ltac:(lia) (ok_closed _ _ Hf1) Hv1).
  - rewrite bool_decide_eq_false_2 by by intros [? [=]]. cbn [twhen]. apply runs_ret.
    split; [exact (no_window_closed (put_sv_dirty true (wrote w s)))|]. by eexists.
Qed.

(** ** End of file *)

Definition saved_writes (v : StateView) (peers : list PeerInfo) (file : Ed2kHash) : list LocalWrite :=
  match Derive.saved_position v peers file with
  | Some millis => [WSavedPosition file millis]
  | None => []
  end.
Lemma saved_eq s v peers file :
  view (sv_state s) = Some v →
  saved_position_op W peers file s =
    Some (head (wrote_ops (saved_writes v peers file) s), (wrote_all (saved_writes v peers file) s, [])).
Proof.
  intros Hv. unfold saved_position_op, saved_writes, sget, sof_option, mbind at 1 2, Sec_bind at 1 2.
  cbn. rewrite Hv. cbn. destruct (Derive.saved_position v peers file); [|done].
  unfold mbind, Sec_bind. rewrite stamp_eq, apply_write_eq. done.
Qed.

Definition eof_writes (v : StateView) (file : Ed2kHash) : list LocalWrite :=
  [WWatched file true; WNowPlaying (next_in_playlist v file);
   WPlaybackIntent IntentPaused; WSeekAuthority AuthServer].
(** The writes of an EOF, in the order of their stamps. *)
Definition all_eof_writes (v : StateView) (peers : list PeerInfo) (file : Ed2kHash) : list LocalWrite :=
  saved_writes v peers file ++ eof_writes v file ++ advance_writes md4 v file.
(** Is the report taken? Only from a watching viewer, about the file that plays. *)
Definition eof_taken (v : StateView) (reporter : UserId) (role : Role) (file : Ed2kHash) : Prop :=
  role = Interactive ∧ v_now_playing v = Some file ∧
  match user_state md4 v reporter with DReady | DMaybe => True | _ => False end.
#[export] Instance eof_taken_dec v reporter role file : Decision (eof_taken v reporter role file).
Proof. unfold eof_taken. destruct (user_state md4 v reporter); apply _. Defined.

Lemma bind_eq {A B} (m : Sec Shared Out A) (f : A → Sec Shared Out B) s a s1 b s2 o2 :
  m s = Some (a, (s1, [])) → f a s1 = Some (b, (s2, o2)) → (m ≫= f) s = Some (b, (s2, o2)).
Proof. intros E1 E2. unfold mbind, Sec_bind. by rewrite E1, E2. Qed.

Lemma eof_section_eq s v reporter file peers :
  view (sv_state s) = Some v → eof_taken v reporter Interactive file →
  ∃ ops, eof_section md4 W reporter file peers s =
    Some (Some (sv_epoch s, ops), (wrote_all (all_eof_writes v peers file) s, [])) ∧
    ops ≡ₚ wrote_ops (all_eof_writes v peers file) s.
Proof.
  intros Hv (_ & Hnow & Hus).
  set (s1 := wrote_all (saved_writes v peers file) s).
  set (s2 := wrote_all (eof_writes v file) s1).
  exists (wrote_ops (eof_writes v file) s1 ++
          option_list (head (wrote_ops (saved_writes v peers file) s)) ++
          wrote_ops (advance_writes md4 v file) s2).
  unfold all_eof_writes. rewrite !wrote_all_app, !wrote_ops_app. fold s1 s2. split.
  - unfold eof_section. eapply bind_eq; [done|].
    eapply bind_eq; [unfold sof_option; by rewrite Hv|]. cbn beta.
    rewrite bool_decide_eq_false_2 by (intros Hc; by apply Hc).
    destruct (user_state md4 v reporter); try done.
    all: (eapply bind_eq; [done|]); (eapply bind_eq; [by apply saved_eq|]);
      (eapply bind_eq; [apply write_all_eq|]); by (eapply bind_eq; [apply write_all_eq|]).
  - rewrite app_assoc, (Permutation_app_comm (wrote_ops (eof_writes v file) s1)), <-app_assoc.
    apply Permutation_app; [|done]. unfold saved_writes. by destruct (Derive.saved_position v peers file).
Qed.

(** The rest of the view: what an EOF does not touch. *)
Definition untouched (v : StateView) :=
  (v_playlist v, v_series_preference v, v_manual_override v, v_file_availability v,
   v_anidb_metadata v, v_series_relations v, v_file_catalog v, v_list_entries v,
   v_lookup_requests v, v_chat v, (v_playback_position v, v_acknowledged_absent v, v_marquee v)).
Record eof_view (v : StateView) (peers : list PeerInfo) (file : Ed2kHash) (v' : StateView) : Prop := {
  ev_watched : v_watched v' = <[file := true]> (v_watched v);
  ev_playing : v_now_playing v' = next_in_playlist v file;
  ev_paused : v_playback_intent v' = IntentPaused;
  ev_saved : v_saved_position v' =
    match Derive.saved_position v peers file with
    | Some millis => <[file := millis]> (v_saved_position v) | None => v_saved_position v end;
  ev_next_ep : v_list_next_ep v' =
    foldl (λ m '(id, next), <[id := next]> m) (v_list_next_ep v) (list_advances md4 v file);
  ev_untouched : untouched v' = untouched v
}.
Lemma view_after_advances l s v :
  let v' := view_after_all ((λ '(id, next), WNextEp id next) <$> l) s v in
  v_list_next_ep v' = foldl (λ m '(id, next), <[id := next]> m) (v_list_next_ep v) l ∧
  v_watched v' = v_watched v ∧ v_now_playing v' = v_now_playing v ∧
  v_playback_intent v' = v_playback_intent v ∧ v_saved_position v' = v_saved_position v ∧
  v_seek_authority v' = v_seek_authority v ∧ untouched v' = untouched v.
Proof.
  revert s v. induction l as [|[id next] l IH]; intros s v; [done|].
  exact (IH (wrote (WNextEp id next) s) (view_after (WNextEp id next) (stamp_value W s) v)).
Qed.
Lemma view_after_app ws ws' s v :
  view_after_all (ws ++ ws') s v = view_after_all ws' (wrote_all ws s) (view_after_all ws s v).
Proof. revert s v. induction ws as [|w ws IH]; intros s v; [done|]. apply IH. Qed.
Lemma eof_view_after s v peers file :
  eof_view v peers file (view_after_all (all_eof_writes v peers file) s v) ∧
  v_seek_authority (view_after_all (all_eof_writes v peers file) s v) = Some AuthServer.
Proof.
  unfold all_eof_writes. rewrite !view_after_app. unfold advance_writes.
  set (s1 := wrote_all (saved_writes v peers file) s).
  set (v1 := view_after_all (saved_writes v peers file) s v).
  set (s2 := wrote_all (eof_writes v file) s1). set (v2 := view_after_all (eof_writes v file) s1 v1).
  destruct (view_after_advances (list_advances md4 v file) s2 v2) as (H0 & H1 & H2 & H3 & H4 & H5 & H6).
  split; [split; rewrite ?H0, ?H1, ?H2, ?H3, ?H4, ?H6|rewrite H5]; subst v1 v2; unfold saved_writes;
    by destruct (Derive.saved_position v peers file).
Qed.
Lemma find_index_Some hash l i :
  find_index hash l = Some i → ∃ e, l !! i = Some e ∧ pe_hash e = hash.
Proof.
  revert i. induction l as [|e l IH]; intros i; simpl; [done|].
  case_bool_decide; [intros [= <-]; by exists e|]. intros (j & Hj & ->)%fmap_Some. by apply IH.
Qed.
Lemma next_not_self v file :
  NoDup (pe_hash <$> v_playlist v) → next_in_playlist v file ≠ Some file.
Proof.
  intros Hnd. unfold next_in_playlist. destruct (find_index file (v_playlist v)) as [i|] eqn:Hi; [|done].
  intros Hn. apply find_index_Some in Hi as (e & He & Heq).
  apply fmap_Some in Hn as (e' & He' & Heq').
  assert (i = S i); [|lia]. eapply (NoDup_lookup _ _ _ file Hnd); rewrite list_lookup_fmap.
  - by rewrite He; simpl; rewrite Heq.
  - rewrite He'. simpl. congruence.
Qed.
Lemma list_advances_short v file : (length (list_advances md4 v file) ≤ 1)%nat.
Proof. unfold list_advances. repeat case_match; simpl; lia. Qed.
Lemma all_eof_writes_short v peers file : Z.of_nat (length (all_eof_writes v peers file)) ≤ 6.
Proof.
  unfold all_eof_writes, saved_writes, advance_writes. rewrite !length_app, length_fmap.
  pose proof (list_advances_short v file). destruct (Derive.saved_position v peers file); simpl; lia.
Qed.

(** A report that is not taken. *)
Lemma run_eof_ignored s v reporter role file :
  view (sv_state s) = Some v → ¬ eof_taken v reporter role file →
  run (handle_eof md4 encode max_datagram_size W reporter role file) s = Some ((), (s, [])).
Proof.
  intros Hv Hn. unfold handle_eof. case_bool_decide as Hrole; [done|].
  rewrite run_bind, run_atomic. unfold peer_infos, sget. rewrite run_bind, run_atomic.
  enough (∀ peers, eof_section md4 W reporter file peers s = Some (None, (s, []))) as -> by done.
  intros peers. unfold eof_section. eapply bind_eq; [done|].
  eapply bind_eq; [unfold sof_option; by rewrite Hv|]. cbn beta.
  case_bool_decide as Hnow; [done|].
  destruct (user_state md4 v reporter) eqn:E; try done; destruct Hn; unfold eof_taken; by rewrite E.
Qed.

Lemma runs_eof s v reporter role file :
  fresh 8 s → view (sv_state s) = Some v → eof_taken v reporter role file →
  runs (handle_eof md4 encode max_datagram_size W reporter role file) s (λ _ s' o,
    no_window s' ∧
    (∀ op, op ∈ wrote_ops (all_eof_writes v (infos_of (sv_peers s)) file) s →
      fanout (StateOp (sv_epoch s) op) None Eager s ⊆ o) ∧
    ∃ v', view (sv_state s') = Some v' ∧ eof_view v (infos_of (sv_peers s)) file v' ∧
      v_now_playing v' ≠ Some file ∧
      (v_seek_authority v' = Some AuthServer ∨
       ∃ g, sv_grace_file s = Some g ∧ next_in_playlist v file = Some g ∧
         v_seek_authority v' = Some (AuthLaggard g))).
Proof.
  intros Hf Hv Htaken. pose proof Htaken as [-> _]. set (peers := infos_of (sv_peers s)).
  set (ws := all_eof_writes v peers file).
  pose proof (all_eof_writes_short v peers file) as Hlen. fold ws in Hlen.
  destruct (wrote_all_spec 1 ws s v) as (Hf1 & _ & Hv1);
    [lia|eapply fresh_mono; [|exact Hf]; lia|done|].
  set (s1 := put_sv_dirty true (wrote_all ws s)). set (v1 := view_after_all ws s v) in *.
  destruct (wrote_all_core ws s) as (Hpeers & Hgrace & _).
  destruct (eof_view_after s v peers file) as [Hev Hauth]. fold ws v1 in Hev, Hauth.
  assert (v_now_playing v1 ≠ Some file) as Hnext.
  { rewrite (ev_playing _ _ _ _ Hev). apply next_not_self.
    apply view_Some in Hv as (xs & _ & ->). apply NoDup_playlist_hashes. }
  unfold handle_eof. rewrite bool_decide_eq_false_2 by (intros Hc; by apply Hc).
  apply runs_bind. eapply runs_atomic; [done|]. fold peers.
  destruct (eof_section_eq s v reporter file peers Hv Htaken) as (ops & Hsec & Hperm).
  apply runs_bind. eapply runs_atomic; [exact Hsec|]. cbn beta iota.
  apply runs_bind. eapply runs_atomic; [done|]. apply runs_bind.
  fold ws in Hperm. fold ws s1.
  assert (∀ op, run (broadcast_op encode max_datagram_size (StateOp (sv_epoch s) op) None Eager) s1 =
    Some ((), (s1, fanout (StateOp (sv_epoch s) op) None Eager s))) as Hsend.
  { intros op. rewrite run_broadcast_op. unfold fanout, live.
    change (sv_peers s1) with (sv_peers (wrote_all ws s)). by rewrite Hpeers. }
  assert (∀ l, run (for_each l (λ op, broadcast_op encode max_datagram_size
      (StateOp (sv_epoch s) op) None Eager)) s1 =
    Some ((), (s1, l ≫= λ op, fanout (StateOp (sv_epoch s) op) None Eager s))) as Hloop.
  { induction l as [|op l IH]; [done|]. cbn [for_each]. by rewrite run_bind, Hsend, IH. }
  eapply runs_run; [apply Hloop|].
  assert (fresh 1 s1) as Hf1' by by apply ok_dirty.
  eapply runs_mono; [apply (runs_and _ _ _ _ (calm_run _ s1 (calm_reconcile config W HW encode
    max_datagram_size) (fr_ok _ _ Hf1')) (runs_reconcile s1 v1 (fr_ok _ _ Hf1') Hv1))|].
  intros _ s' o [[HI' _] Hrec]. cbn beta in Hrec.
  change (sv_grace_file s1) with (sv_grace_file (wrote_all ws s)) in Hrec. rewrite Hgrace in Hrec.
  assert (no_window s' ∧ ∃ v', view (sv_state s') = Some v' ∧
    (v' = v1 ∨ ∃ g ts, sv_grace_file s = Some g ∧ v_now_playing v1 = Some g ∧
      v' = view_after (WSeekAuthority (AuthLaggard g)) ts v1)) as [Hnw (v' & Hv' & Hcase)].
  { case_bool_decide as Hc.
    - destruct Hrec as [Hnw Hst]. split; [done|]. destruct Hc as [[g Hg] _]. rewrite Hg in Hst.
      cbn [after_windows] in Hst. destruct (view_playing s1 v1 Hv1) as (Hp & _).
      case_bool_decide as Hpl; [|exists v1; rewrite Hst; split; [done|by left]].
      eexists. rewrite Hst. split; [exact (wrote_view 1 _ _ _ ltac:(lia) (ok_closed _ _ Hf1') Hv1)|].
      right. eexists g, _. split_and!; [done|congruence|reflexivity].
    - destruct Hrec as [-> _]. split; [|exists v1; split; [done|by left]]. apply no_window_ok; [apply Hf1'|].
      cbn. rewrite Hgrace. destruct (sv_grace_file s) as [g|]; [|done]. destruct Hc.
      split; [by eexists|]. left. by rewrite (ev_paused _ _ _ _ Hev). }
  split; [done|]. split.
  - intros op Hop out Hout. rewrite !elem_of_app. do 3 right. left. apply list_elem_of_bind. exists op.
    split; [done|]. by rewrite Hperm.
  - exists v'. split; [done|]. destruct Hcase as [->|(g & ts & Hg & Hp & ->)].
    { split; [done|]. split; [done|]. by left. }
    destruct Hev as [E1 E2 E3 E4 E5 E6].
    split; [by split|]. split; [done|]. right. exists g. by rewrite <-E2.
Qed.

(** ** Ops from a client *)

Lemma observe_eq ts s :
  ∃ x, observe ts s = Some ((), (put_issued x s, [])).
Proof.
  destruct ts as [t|]; [by eexists|]. exists (sv_last_issued s). by destruct s.
Qed.

(** The section of an op: what it decides does not depend on the saved position. *)
Lemma op_section_eq epoch op dg peers s :
  wf_state (apply_for_broadcast (sv_state s) op dg).1 →
  ∃ saved s', op_section W epoch op dg peers s =
    Some ((bool_decide (epoch = sv_epoch s) && (apply_for_broadcast (sv_state s) op dg).2, saved),
          (s', [])) ∧
    sv_peers s' = sv_peers s ∧
    (bool_decide (epoch = sv_epoch s) && (apply_for_broadcast (sv_state s) op dg).2 = false →
     sv_state s' = if bool_decide (epoch = sv_epoch s)
                   then (apply_for_broadcast (sv_state s) op dg).1 else sv_state s).
Proof.
  intros Hwf. unfold op_section.
  destruct (bool_decide (epoch = sv_epoch s)) eqn:He.
  2: { exists None, s. split; [|done]. eapply bind_eq; [done|]. cbn beta.
       apply bool_decide_eq_false in He. by rewrite bool_decide_eq_true_2. }
  apply bool_decide_eq_true in He. cbn [andb].
  destruct (apply_for_broadcast (sv_state s) op dg) as [state applied] eqn:Happ. cbn [fst snd] in *.
  assert (∀ r s', (match applied, peers, playing_file (sv_state s) with
      | true, Some peers, Some before =>
          if bool_decide (playing_file state ≠ Some before) then
            saved ← saved_position_op W peers before;
            mret (true, pair (sv_epoch s) <$> saved)
          else mret (true, None)
      | _, _, _ => mret (applied, None)
      end : Sec Shared Out _) (put_crdt state s) = Some (r, (s', [])) →
    op_section W epoch op dg peers s = Some (r, (s', []))) as Hstep.
  { intros r s' Htail. unfold op_section. eapply bind_eq; [done|]. cbn beta.
    rewrite bool_decide_eq_false_2 by (intros Hc; by apply Hc). unfold id. rewrite Happ.
    eapply bind_eq; [done|exact Htail]. }
  unfold op_section in Hstep.
  destruct applied; [|by eexists None, (put_crdt state s); split; [apply Hstep|]].
  destruct peers as [peers|]; [|by eexists None, (put_crdt state s); split; [apply Hstep|]].
  destruct (playing_file (sv_state s)) as [before|];
    [|by eexists None, (put_crdt state s); split; [apply Hstep|]].
  case_bool_decide; [|by eexists None, (put_crdt state s); split; [apply Hstep|]].
  destruct (view_total state) as [v Hv]; [apply Hwf|].
  pose proof (saved_eq (put_crdt state s) v peers before Hv) as Hsaved.
  eexists _, _. split; [apply Hstep; eapply bind_eq; [exact Hsaved|done]|].
  destruct (wrote_all_core (saved_writes v peers before) (put_crdt state s)) as (-> & _). done.
Qed.

Lemma runs_state_op c epoch op dg s :
  shared_ok config W s → is_put op = true → chat_op_ok op → stamped_ok (op_lww_timestamp op) →
  runs (on_state_op md4 encode max_datagram_size W c epoch op dg) s (λ _ s' o,
    if bool_decide (epoch = sv_epoch s) && (apply_for_broadcast (sv_state s) op dg).2
    then ∃ o', o = fanout (StateOp epoch op) (Some c) (relay_transport op dg) s ++ o'
    else o = [] ∧ sv_state s' = if bool_decide (epoch = sv_epoch s)
      then (apply_for_broadcast (sv_state s) op dg).1 else sv_state s).
Proof.
  intros HI Hput Hchat Hts.
  destruct (observe_eq (op_lww_timestamp op) s) as [x Hobs].
  set (s0 := put_issued x s) in *.
  assert (shared_ok config W s0 ∧ op_issued op s0) as [HI0 Hiss].
  { destruct (keeps_observe config W op Hts s HI Logic.I) as (a & s' & o & E & H1 & _ & H2).
    rewrite Hobs in E. by simplify_eq. }
  assert (wf_state (apply_for_broadcast (sv_state s0) op dg).1) as Hwf.
  { destruct (broadcast_state_cases (sv_state s0) op dg) as [-> | ->]; [apply HI0|].
    by apply wf_apply; [apply HI0|..]. }
  unfold on_state_op. apply runs_bind. eapply runs_atomic; [exact Hobs|]. fold s0.
  apply runs_bind.
  assert (∃ peers, run (if is_now_playing op
      then (infos ← atomic peer_infos; mret (Some infos)) else mret None) s0 =
    Some (peers, (s0, [] : list Out))) as [peers Hpeers] by by destruct (is_now_playing op); eexists.
  eapply runs_run; [exact Hpeers|].
  destruct (op_section_eq epoch op dg peers s0 Hwf) as (saved & s1 & Hsec & Hp & Hst).
  apply runs_bind. eapply runs_atomic; [exact Hsec|]. cbn beta iota.
  change (sv_epoch s0) with (sv_epoch s) in *. change (sv_state s0) with (sv_state s) in *.
  destruct (bool_decide (epoch = sv_epoch s) && (apply_for_broadcast (sv_state s) op dg).2) eqn:Happ;
    cbn [twhen]; [|apply runs_ret; split; [done|by apply Hst]].
  apply runs_bind. eapply runs_atomic; [done|].
  apply runs_bind. eapply runs_run; [apply run_broadcast_op|].
  assert (shared_ok config W (put_sv_dirty true s1)) as HI1.
  { destruct (keeps_op_section config W HW epoch op dg peers Hput Hchat s0 HI0 Hiss)
      as (a & s' & o & E & H1 & _). rewrite Hsec in E. simplify_eq.
    by apply (same_core_ok config W s' (put_sv_dirty true s') ltac:(done)). }
  eapply runs_mono; [apply (calm_run _ _ (calm_after config W HW md4 encode max_datagram_size _ _) HI1)|].
  intros _ s' o' _. exists o'. cbn [app]. unfold fanout, live.
  change (sv_peers (put_sv_dirty true s1)) with (sv_peers s1). by rewrite Hp.
Qed.

(** ** Compaction *)

Definition compaction_build (keep : nat) (v : StateView) s : Build :=
  rebuild_build SERVER (λ n, (nth_stamp W n s).1) v keep.
Definition swapped (keep : nat) (v : StateView) s : Shared :=
  put_epoch (u64_wrap (sv_epoch s + 1))
    (put_crdt (compaction_build keep v s).1 (stamps_taken W (compaction_build keep v s).2 s)).
Lemma swap_eq keep v s :
  view (sv_state s) = Some v → swap_state W keep s = Some (v, (swapped keep v s, [])).
Proof.
  intros Hv. unfold swap_state, swapped, compaction_build. eapply bind_eq; [done|].
  eapply bind_eq; [unfold sof_option, id; by rewrite Hv|]. cbn zeta.
  unfold id. destruct (rebuild_build SERVER (λ n, (nth_stamp W n s).1) v keep) as [x n].
  by eapply bind_eq.
Qed.

(** The stamps a compaction takes increase. *)
Lemma stamps_increase s n i j :
  shared_ok config W s → Z.of_nat (sv_reads s) + Z.of_nat n < HALF → (i < j < n)%nat →
  (nth_stamp W i s).1 < (nth_stamp W j s).1.
Proof.
  intros HI Hn Hij. destruct (stamps_taken_ok config W HW j s HI) as (Hj & _ & Hr & _ & Hiss).
  assert (early (stamps_taken W j s)) as He by (unfold early; lia).
  specialize (Hiss i ltac:(lia) He). rewrite (nth_stamp_taken W j s). cbn [fst].
  pose proof (stamp_above config W HW _ Hj He). lia.
Qed.
Lemma compaction_view keep v s :
  shared_ok config W s → view (sv_state s) = Some v → fits_u64 v →
  Z.of_nat (sv_reads s) + Z.of_nat (compaction_build keep v s).2 < HALF →
  ∃ v', view (compaction_build keep v s).1 = Some v' ∧ compacted keep v v'.
Proof.
  intros HI Hv Hfit Hroom. set (stamp := λ n, (nth_stamp W n s).1). set (n := (compaction_build keep v s).2) in *.
  assert (1 ≤ n)%nat as Hn by exact (rebuild_takes_stamp SERVER stamp v keep).
  set (stamp' := λ k, if decide (k < n)%nat then stamp k else stamp (pred n) + Z.of_nat k).
  assert (∀ i j, (i < j < n)%nat → stamp i < stamp j) as Hmono by (intros i j; by apply stamps_increase).
  assert (∀ i, (i < n)%nat → stamp i ≤ stamp (pred n)) as Hle.
  { intros i Hi. destruct (decide (i = pred n)) as [->|]; [lia|]. apply Z.lt_le_incl, Hmono. lia. }
  assert (compaction_build keep v s = rebuild_build SERVER stamp' v keep) as ->.
  { refine (rebuild_build_agree SERVER stamp stamp' v keep _). intros k Hk. unfold stamp'. by rewrite decide_True. }
  apply rebuild_view; [|by apply view_Some in Hv as (xs & _ & ->); apply NoDup_playlist_hashes|done].
  intros i j Hij. unfold stamp'. repeat case_decide.
  - apply Hmono. lia.
  - specialize (Hle i ltac:(done)). lia.
  - lia.
  - lia.
Qed.

(** What flushing and archiving leave alone. *)
Definition kept s s' : Prop :=
  sv_state s' = sv_state s ∧ sv_epoch s' = sv_epoch s ∧ sv_peers s' = sv_peers s.
Lemma archive_eq messages s :
  ∃ s', archive_chat W messages s = Some ((), (s', [])) ∧ kept s s' ∧
    ∀ st, sv_storage s = Some st → ∃ st', sv_storage s' = Some st' ∧
      (w_ok W (sv_reads s) = true → ∀ message, message ∈ messages → message ∈ st_archive st').
Proof.
  unfold archive_chat, sget, succeeds, reading, smodify, swhen, mbind, Sec_bind, mret, Sec_ret. cbn.
  destruct (sv_storage s) as [st|] eqn:Hst; [|by exists s].
  destruct (w_ok W (sv_reads s)); eexists; (split; [done|]); (split; [done|]).
  - intros st0 _. eexists. split; [done|]. intros _ m Hm. cbn. by apply elem_of_union_l, elem_of_list_to_set.
  - intros st0 _. exists st. by split.
Qed.
Lemma runs_flush s :
  runs (flush W) s (λ _ s' o, o = [] ∧ kept s s' ∧
    (sv_dirty s = true → ∀ st, sv_storage s = Some st →
     ∃ st', sv_storage s' = Some st' ∧ st_archive st' = st_archive st ∧
       (sv_dirty s' = false →
        ∃ date, st_saved st' = Some (mkStateSnapshot (sv_epoch s) (sv_state s), date)))).
Proof.
  unfold flush. apply runs_bind. eapply runs_atomic; [done|].
  destruct (sv_dirty s) eqn:Hd; cbn [twhen]; [|by apply runs_ret].
  apply runs_bind. eapply runs_atomic; [done|]. apply runs_bind. eapply runs_atomic; [done|].
  unfold runs. cbn [run atomic]. unfold sget, succeeds, reading, smodify, mbind, Sec_bind, mret, Sec_ret. cbn.
  destruct (sv_storage s) as [st|] eqn:Hst; cbn.
  - destruct (w_ok W (S (sv_reads s))); cbn; eexists _, _, _; (split; [done|]); (split; [done|]);
      (split; [done|]); intros _ st0 [= <-]; eexists; (split; [cbn; done|]); (split; [done|]); [|done].
    intros _. by eexists.
  - eexists _, _, _. split; [done|]. split; [done|]. split; [done|]. by intros _ st0 [=].
Qed.

Lemma runs_compaction keep v s :
  shared_ok config W s → view (sv_state s) = Some v → fits_u64 v →
  Z.of_nat (sv_reads s) + Z.of_nat (compaction_build keep v s).2 < HALF →
  runs (run_compaction encode W keep) s (λ _ s' o,
    (∃ v', view (sv_state s') = Some v' ∧ compacted keep v v') ∧
    sv_epoch s' = sv_epoch s + 1 ∧ sv_peers s' = sv_peers s ∧
    o = control_fanout (CtlStateSnapshot (mkStateSnapshot (sv_epoch s') (sv_state s'))) None s ∧
    ∀ st, sv_storage s = Some st → ∃ st', sv_storage s' = Some st' ∧
      (w_ok W (sv_reads s + (compaction_build keep v s).2) = true →
       ∀ message, message ∈ v_chat v → message ∈ st_archive st') ∧
      (sv_dirty s' = false →
       ∃ date, st_saved st' = Some (mkStateSnapshot (sv_epoch s') (sv_state s'), date))).
Proof.
  intros HI Hv Hfit Hroom. pose proof (compaction_view keep v s HI Hv Hfit Hroom) as Hview.
  destruct (stamps_taken_ok config W HW (compaction_build keep v s).2 s HI)
    as (_ & _ & Hreads & Hep & _).
  assert (sv_peers (swapped keep v s) = sv_peers s ∧ sv_storage (swapped keep v s) = sv_storage s)
    as [Hpeers Hst].
  { unfold swapped. cbn. clear. induction (compaction_build keep v s).2 as [|n IH]; [done|].
    cbn [stamps_taken]. rewrite nth_stamp_taken. exact IH. }
  assert (sv_epoch (swapped keep v s) = sv_epoch s + 1) as Hep'.
  { unfold swapped. cbn. destruct (so_floor _ _ s HI) as [_ H1 _].
    { unfold early. pose proof (rebuild_takes_stamp SERVER (λ n, (nth_stamp W n s).1) v keep). lia. }
    unfold u64_wrap, u64_modulus, HALF in *. rewrite Z.mod_small; lia. }
  unfold run_compaction, compact_state. apply runs_bind, runs_bind.
  eapply runs_atomic; [by apply swap_eq|]. set (s1 := swapped keep v s) in *.
  assert (sv_reads s1 = sv_reads s + (compaction_build keep v s).2)%nat as Hr1 by exact Hreads.
  destruct (archive_eq (v_chat v) s1) as (s2 & E2 & (K1 & K2 & K3) & Harch).
  apply runs_bind. eapply runs_atomic; [exact E2|]. apply runs_bind. eapply runs_atomic; [done|].
  eapply runs_atomic; [done|]. apply runs_bind. eapply runs_run; [apply run_broadcast_control|].
  eapply runs_mono; [apply runs_flush|]. intros _ s' o (-> & (L1 & L2 & L3) & Hfl). cbn in L1, L2, L3.
  rewrite L1, L2, L3, K1, K2, K3, Hep', Hpeers. split; [exact Hview|]. split; [done|]. split; [done|]. split.
  - rewrite !app_nil_r. cbn [app]. unfold control_fanout, live. cbn. by rewrite K1, K2, K3, Hpeers, Hep'.
  - intros st Hs. rewrite Hs in Hst. destruct (Harch st Hst) as (st2 & Hst2 & Hin).
    destruct (Hfl eq_refl st2 Hst2) as (st' & Hst' & Harc & Hsaved). exists st'. split; [done|]. split.
    + rewrite Harc, <-Hr1. exact Hin.
    + intros Hd. destruct (Hsaved Hd) as [date ->]. exists date. cbn. by rewrite K1, K2, Hep'.
Qed.

(** ** Manual watched flags *)

Lemma run_mark_ignored s v file (b : bool) :
  view (sv_state s) = Some v → v_watched v !! file = Some b →
  run (handle_mark_watched md4 encode max_datagram_size W file b) s = Some ((), (s, [])). 
Proof.
  intros Hv Hw. unfold handle_mark_watched. rewrite run_bind, run_atomic.
  enough (mark_section md4 W file b s = Some (None, (s, []))) as -> by done.
  unfold mark_section. eapply bind_eq; [done|].
  eapply bind_eq; [unfold sof_option; by rewrite Hv|]. cbn beta. by rewrite bool_decide_eq_true_2.
Qed.

(** ** Who gets in *)

(** The connection presents the password, in the server's protocol version. *)
Definition credentials (events : list TransportEvent) : Prop :=
  ∃ username role epoch,
    (await_auth events).1 = OutAuth username (password config) role epoch PROTOCOL_VERSION.
(** Nothing of the group changes but the throttle. *)
Definition unaffected s s' : Prop :=
  sv_peers s' = sv_peers s ∧ sv_grace_file s' = sv_grace_file s ∧ sv_state s' = sv_state s ∧
  sv_epoch s' = sv_epoch s ∧ sv_last_issued s' = sv_last_issued s ∧ sv_dirty s' = sv_dirty s ∧
  sv_storage s' = sv_storage s.
Definition refusal (c : ConnId) (out : Out) : Prop :=
  (∃ reason, out = OClose c reason) ∨ out = OControl c AuthFailed ∨
  out = OControl c (ProtocolMismatch PROTOCOL_VERSION).

Lemma judge_wrong l ip t v l' : judge l ip t false = Some (v, l') → v ≠ Accept.
Proof.
  unfold judge, mbind, option_bind. cbn zeta. intros Hj ->.
  repeat (case_match; simplify_eq).
Qed.
Lemma runs_reject c msg reason s :
  (msg = AuthFailed ∨ msg = ProtocolMismatch PROTOCOL_VERSION) →
  runs (reject_and_close encode W c msg reason) s (λ _ s' o, unaffected s s' ∧ Forall (refusal c) o).
Proof.
  intros Hmsg. unfold runs, reject_and_close, send_to. destruct (encode msg) as [frame|].
  - eexists _, _, _. split; [cbn; reflexivity|]. split; [done|].
    cbn. apply Forall_cons. split; [right; destruct Hmsg as [-> | ->]; auto|].
    apply Forall_singleton. left. by eexists.
  - eexists _, _, _. split; [cbn; reflexivity|]. split; [done|]. apply Forall_singleton. left. by eexists.
Qed.
Lemma runs_gate c remote ip token events s :
  shared_ok config W s → ¬ credentials events →
  runs (serve_connection md4 encode_view sha256 encode max_datagram_size search_titles W config
          c remote ip token events) s (λ _ s' o, unaffected s s' ∧ Forall (refusal c) o).
Proof.
  intros HI Hcred. unfold credentials in Hcred. unfold serve_connection.
  destruct (await_auth events) as [outcome rest]. cbn [fst] in Hcred.
  destruct outcome as [user pass role epoch version| |].
  - case_bool_decide as Hver; [by apply runs_reject; right|].
    assert (pass ≠ password config) as Hpass by (intros ->; apply Hcred; subst version; eauto).
    rewrite bool_decide_eq_false_2 by done.
    destruct (judge_ok (sv_limiter s) ip (w_instant W (sv_reads s)) false (w_instant W (sv_reads s)))
      as (v & l & E & _); [apply HI|rewrite (so_limit _ _ _ HI); apply HW|lia|].
    apply runs_bind. eapply (runs_atomic _ _ v).
    { unfold judge_auth. eapply bind_eq; [done|]. eapply bind_eq; [done|].
      eapply bind_eq; [unfold sof_option; cbn; by rewrite E|]. cbn. reflexivity. }
    pose proof (judge_wrong _ _ _ _ _ E) as Hv.
    destruct v; [done|..]; (eapply runs_mono; [by apply runs_reject; left|]);
      intros _ s' o [Hs Ho]; (split; [exact Hs|exact Ho]).
  - by apply runs_reject; left.
  - eapply runs_atomic; [done|]. split; [done|]. apply Forall_singleton. left. by eexists.
Qed.

(** ** Presence *)

(** What a connection that ends leaves of its session. *)
Lemma deregister_eq c user role end_ s :
  ∃ dead last before s' ours, deregister W c user role end_ s = Some ((ours, dead, last, before), (s', [])) ∧
    (∀ other, other ≠ user → sv_peers s' !! other = sv_peers s !! other) ∧
    match sv_peers s !! user with
    | Some e =>
        if bool_decide (en_conn_id e = c)
        then ours = true ∧ dead = en_transfer_conn e ∧
          sv_peers s' !! user = Some (gone_entry end_ (w_clock W (sv_reads s)) e)
        else ours = false ∧ dead = None ∧ s' = s
    | None => ours = false ∧ dead = None ∧ s' = s
    end.
Proof.
  unfold deregister, now, reading, peer_infos, sget, smodify, mbind, Sec_bind, mret, Sec_ret. cbn -[put_peers].
  destruct (sv_peers s !! user) as [e|] eqn:He; [case_bool_decide|]; cbn -[put_peers].
  - eexists _, _, _, _, true. split; [done|]. split.
    + intros other Ho. simpl. by rewrite lookup_insert_ne.
    + split; [done|]. split; [done|]. simpl. by rewrite lookup_insert_eq.
  - by eexists _, _, _, _, false.
  - by eexists _, _, _, _, false.
Qed.
End handlers.

(** ** Statements *)

(** C6. However the server's tasks interleave — timers, compaction, the AniDB
    worker's writes, and any number of connections delivering what replicas of
    the group send — its invariant holds between any two critical sections, its
    stamps and its epoch never go back, and no task ever panics. *)
Theorem server_safe config W md4 encode_view sha256 encode encode_relay max_datagram_size
    search_titles storage initial p :
  world_ok config W → initial_ok initial →
  rtc (pool_step (server_task md4 encode_view sha256 encode encode_relay max_datagram_size
         search_titles W config event_ok)) ([], start config storage initial) p →
  shared_ok config W p.2 ∧ grows (start config storage initial) p.2 ∧ ¬ panicking p.
Proof.
  intros HW Hin Hr. eapply (pool_safe (shared_ok config W) grows _); [| |exact Hr].
  - intros t s Ht Hs. by eapply calm_task.
  - by apply start_ok.
Qed.

Section statements.
Context (config : ServerConfig) (W : World).
Context (md4 : list Z → Z).
Context (encode_view : StateView → option (list Z)) (sha256 : list Z → list Z).
Context (encode : ServerControl → option (list Z)) (encode_relay : RelayEnvelope → option (list Z)).
Context (max_datagram_size : ConnId → option Z).
Context (search_titles : Storage → string → list AniDbSearchHit).

(** C7. A server write is an assignment everyone hears of: its stamp is above
    every stamp issued, seen or stored before, the view changes by exactly that
    write, the state is marked to be saved, and the op that does it is sent, in
    the current epoch, to the live connections and nobody else. *)
Theorem server_write_effect s v w frame :
  world_ok config W → fresh config W 1 s → view (sv_state s) = Some v →
  encode (StateOp (sv_epoch s) (wrote_op W w s)) = Some frame →
  ∃ s' o, run (server_write encode max_datagram_size W w) s = Some ((), (s', o)) ∧
    sv_last_issued s < stamp_value W s ∧ max_lww_timestamp (sv_state s) < stamp_value W s ∧
    view (sv_state s') = Some (view_after w (stamp_value W s) v) ∧
    sv_state s' = apply (sv_state s) (wrote_op W w s) ∧
    sv_dirty s' = true ∧ sv_epoch s' = sv_epoch s ∧ sv_peers s' = sv_peers s ∧
    ∀ conn, OControl conn (StateOp (sv_epoch s) (wrote_op W w s)) ∈ o ↔
      ∃ user e, sv_peers s !! user = Some e ∧ en_conn e = Some conn.
Proof.
  intros HW Hf Hv Henc. eexists _, _. split; [apply run_server_write|].
  pose proof (stamp_above config W HW s (fr_ok _ _ _ _ Hf) (fresh_early _ _ 1 s ltac:(lia) Hf)).
  pose proof (wr_floor _ _ _ (stamp_writable config W HW 1 s ltac:(lia) Hf)).
  split; [lia|]. split; [done|]. split; [exact (wrote_view config W HW 1 w s v ltac:(lia) Hf Hv)|].
  split. { unfold wrote, wrote_op. cbn. destruct (run_write w SERVER (stamp_value W s) (sv_state s)) eqn:E.
    by apply run_write_spec in E as [-> _]. }
  split; [done|]. split; [done|]. split; [done|]. intros conn.
  rewrite elem_of_fanout by exact Henc. split.
  - intros (user & e & conn' & Hu & Hc & _ & [[= ->]|[[=] _]]). by exists user, e.
  - intros (user & e & Hu & Hc). exists user, e, conn. by auto.
Qed.

(** C8. End of file. A report from a watching viewer about the file that plays
    advances the group once: the file is watched, its resume point saved, the
    next entry loads paused with the server in authority, the List advances,
    nothing else in the view changes, every one of these writes is sent to all
    live connections, and no outage window survives. The playing file is then
    another one, so that a duplicate of the report — like any report by a
    seeder, by someone not watching, or about another file — does nothing. *)
Theorem eof_advances_once s v reporter role file :
  world_ok config W → fresh config W 8 s → view (sv_state s) = Some v →
  let eof := handle_eof md4 encode max_datagram_size W in
  let peers := infos_of (sv_peers s) in
  if decide (eof_taken md4 v reporter role file) then
    ∃ s' o v', run (eof reporter role file) s = Some ((), (s', o)) ∧
      view (sv_state s') = Some v' ∧ eof_view md4 v peers file v' ∧
      (v_seek_authority v' = Some AuthServer ∨
       ∃ g, sv_grace_file s = Some g ∧ next_in_playlist v file = Some g ∧
         v_seek_authority v' = Some (AuthLaggard g)) ∧
      no_window s' ∧
      (∀ op, op ∈ wrote_ops W (all_eof_writes md4 v peers file) s →
        fanout encode max_datagram_size (StateOp (sv_epoch s) op) None Eager s ⊆ o) ∧
      ∀ reporter' role', run (eof reporter' role' file) s' = Some ((), (s', []))
  else run (eof reporter role file) s = Some ((), (s, [])).
Proof.
  intros HW Hf Hv eof peers. case_decide as Ht; [|by apply run_eof_ignored with v].
  destruct (runs_eof config W HW md4 encode max_datagram_size s v reporter role file Hf Hv Ht)
    as ([] & s' & o & Hrun & Hnw & Hsent & v' & Hv' & Hev & Hne & Hauth).
  exists s', o, v'. split_and!; [done..|]. intros reporter' role'.
  apply run_eof_ignored with v'; [done|]. by intros (_ & Hnow & _).
Qed.

(** C9. An op from a client is relayed exactly when it is news: to the live
    connections other than its sender's, before anything the server adds; an op
    of another epoch, or one already known, is not relayed at all, and one of
    another epoch is not applied either. *)
Theorem op_relayed_iff_new s c epoch op dg :
  world_ok config W → shared_ok config W s →
  is_put op = true → chat_op_ok op → stamped_ok (op_lww_timestamp op) →
  ∃ s' o, run (on_state_op md4 encode max_datagram_size W c epoch op dg) s = Some ((), (s', o)) ∧
    if bool_decide (epoch = sv_epoch s) && (apply_for_broadcast (sv_state s) op dg).2
    then ∃ o', o = fanout encode max_datagram_size (StateOp epoch op) (Some c)
                     (relay_transport op dg) s ++ o'
    else o = [] ∧ sv_state s' = if bool_decide (epoch = sv_epoch s)
      then (apply_for_broadcast (sv_state s) op dg).1 else sv_state s.
Proof.
  intros HW HI Hput Hchat Hts.
  destruct (runs_state_op config W HW md4 encode max_datagram_size c epoch op dg s HI Hput Hchat Hts)
    as ([] & s' & o & Hrun & H). by exists s', o.
Qed.

(** A pause forced by a departure pauses the group and closes every outage
    window; if one was open on the file that plays, the slowest viewer's
    position takes over as authority; nothing else in the view changes. *)
Theorem force_pause_closes_windows s v :
  world_ok config W → fresh config W 2 s → view (sv_state s) = Some v →
  ∃ s' o v', run (force_pause encode max_datagram_size W) s = Some ((), (s', o)) ∧
    no_window s' ∧ view (sv_state s') = Some v' ∧
    let paused := view_after (WPlaybackIntent IntentPaused) (stamp_value W s) v in
    match sv_grace_file s with
    | Some g =>
        if bool_decide (v_now_playing v = Some g)
        then ∃ ts, v' = view_after (WSeekAuthority (AuthLaggard g)) ts paused else v' = paused
    | None => v' = paused
    end.
Proof.
  intros HW Hf Hv.
  destruct (runs_force_pause config W HW encode max_datagram_size s v Hf Hv)
    as ([] & s' & o & Hrun & Hnw & v' & Hv' & H). by exists s', o, v'.
Qed.

(** C10. Compaction is invisible but for its documented reductions: the view is
    preserved up to [compacted], the epoch is the next one, every live
    connection is sent exactly the new snapshot, the chat is in the archive if
    the storage took it, and the state is saved unless it is still marked to
    be. *)
Theorem compaction_preserves_view s v keep :
  world_ok config W → shared_ok config W s → view (sv_state s) = Some v → fits_u64 v →
  let n := (compaction_build W keep v s).2 in
  Z.of_nat (sv_reads s) + Z.of_nat n < HALF →
  ∃ s' o, run (run_compaction encode W keep) s = Some ((), (s', o)) ∧
    (∃ v', view (sv_state s') = Some v' ∧ compacted keep v v') ∧
    sv_epoch s' = sv_epoch s + 1 ∧ sv_peers s' = sv_peers s ∧
    o = control_fanout encode (CtlStateSnapshot (mkStateSnapshot (sv_epoch s') (sv_state s'))) None s ∧
    ∀ st, sv_storage s = Some st → ∃ st', sv_storage s' = Some st' ∧
      (w_ok W (sv_reads s + n) = true →
       ∀ message, message ∈ v_chat v → message ∈ st_archive st') ∧
      (sv_dirty s' = false →
       ∃ date, st_saved st' = Some (mkStateSnapshot (sv_epoch s') (sv_state s'), date)).
Proof.
  intros HW HI Hv Hfit n Hroom.
  destruct (runs_compaction config W HW encode keep v s HI Hv Hfit Hroom) as ([] & s' & o & Hrun & H).
  by exists s', o.
Qed.

(** C25. Nobody gets in without the password: a connection whose first control
    frame is not an [Auth] of this protocol version with the server's password
    changes nothing but the throttle, and is sent nothing but a refusal. *)
Theorem no_session_without_password c remote ip token events s :
  world_ok config W → shared_ok config W s → ¬ credentials config events →
  ∃ s' o, run (serve_connection md4 encode_view sha256 encode max_datagram_size search_titles W
          config c remote ip token events) s = Some ((), (s', o)) ∧
    unaffected s s' ∧ Forall (refusal c) o.
Proof.
  intros HW HI Hcred.
  destruct (runs_gate config W HW md4 encode_view sha256 encode max_datagram_size search_titles
    c remote ip token events s HI Hcred) as ([] & s' & o & Hrun & H). by exists s', o.
Qed.

(** The presence ladder. A connection that ends touches its own session
    only, and not even that when a newer connection has taken it over. Its own
    user is Departed at once after a goodbye; after an outage Lost, and Departed
    exactly from the first sweep [DEPART_AFTER_MILLIS] later. *)
Theorem presence_ladder s c user role end_ e t :
  sv_peers s !! user = Some e →
  ∃ r s', deregister W c user role end_ s = Some (r, (s', [])) ∧
    (∀ other, other ≠ user → sv_peers s' !! other = sv_peers s !! other) ∧
    if bool_decide (en_conn_id e = c) then
      ∃ l s'', promote_departed t s' = Some (l, (s'', [])) ∧
        ∃ e', sv_peers s'' !! user = Some e' ∧ en_conn e' = None ∧ en_transfer_conn e' = None ∧
          peer_presence (en_info e') =
            match end_ with
            | EndGoodbye => Departed
            | EndLost _ =>
                if DEPART_AFTER_MILLIS <=? u64_saturating_sub t (w_clock W (sv_reads s))
                then Departed else Lost
            end
    else s' = s.
Proof.
  intros He. destruct (deregister_eq W c user role end_ s)
    as (dead & last & before & s' & ours & E & Hother & Hcase).
  rewrite He in Hcase. eexists _, s'. split; [exact E|]. split; [done|].
  case_bool_decide; [|apply Hcase]. destruct Hcase as (_ & _ & Hu).
  eexists _, _. split; [unfold promote_departed; by eapply bind_eq|].
  set (e1 := gone_entry end_ (w_clock W (sv_reads s)) e) in *.
  exists (if departs t e1 then put_info (set_presence Departed (en_info e1)) e1 else e1).
  split; [simpl; by rewrite lookup_fmap, Hu|].
  destruct end_; unfold departs; cbn; [done|].
  by destruct (DEPART_AFTER_MILLIS <=? _).
Qed.
End statements.

(** The daily compaction waits a positive time, at most a day, and wakes at
    the next occurrence of the configured UTC time. *)
Theorem daily_wait_correct now hour minute :
  0 ≤ now → 0 ≤ hour < 24 → 0 ≤ minute < 60 →
  let DAY := 24 * 60 * 60 * 1000 in
  let target := (hour * 60 + minute) * 60 * 1000 in
  let w := millis_until_daily_utc now hour minute in
  0 < w ≤ DAY ∧ (now + w) mod DAY = target ∧ ∀ d, 0 < d < w → (now + d) mod DAY ≠ target.
Proof.
  intros Hnow Hh Hm DAY target w. assert (0 ≤ target < DAY) as Ht by (subst target DAY; lia).
  pose proof (Z.mod_pos_bound now DAY ltac:(done)) as Hmod.
  pose proof (Z.div_mod now DAY ltac:(done)) as Hdiv.
  assert (now mod DAY < target ∧ w = target - now mod DAY ∨
          target ≤ now mod DAY ∧ w = target + DAY - now mod DAY) as Hw.
  { subst w. unfold millis_until_daily_utc. fold DAY target. cbn zeta.
    destruct (Z.lt_ge_cases (now mod DAY) target) as [Hlt|Hge].
    - left. split; [done|]. replace (target + DAY - now mod DAY)
        with (target - now mod DAY + 1 * DAY) by lia.
      rewrite Z.mod_add, Z.mod_small by lia. by rewrite (proj2 (Z.eqb_neq _ _)) by lia.
    - right. split; [done|]. destruct (decide (now mod DAY = target)) as [->|Hne].
      + replace (target + DAY - target) with (0 + 1 * DAY) by lia. rewrite Z.mod_add by done.
        rewrite Z.mod_0_l by done. cbn [Z.eqb]. lia.
      + rewrite Z.mod_small by lia. by rewrite (proj2 (Z.eqb_neq _ _)) by lia. }
  assert (∀ d r, 0 ≤ r < DAY → (now + d) mod DAY = r ↔ ∃ k, now mod DAY + d = r + k * DAY) as Hr.
  { intros d r Hr. split.
    - intros <-. exists ((now + d) / DAY - now / DAY). pose proof (Z.div_mod (now + d) DAY ltac:(done)). lia.
    - intros [k Hk]. replace (now + d) with (r + (now / DAY + k) * DAY) by lia.
      by rewrite Z.mod_add, Z.mod_small by done. }
  split; [lia|]. split.
  - apply Hr; [done|]. destruct Hw as [[? ->]|[? ->]]; [exists 0|exists 1]; lia.
  - intros d Hd [k Hk]%Hr; [|done]. clear Hr. clearbody target w. unfold DAY in *. lia.
Qed.

(** ** Witnesses *)

Definition ex_config : ServerConfig := ServerConfig_new "secret".
Definition ex_world : World := mkWorld (λ _, 1000) (λ _, 0) (λ _, true).
Lemma ex_world_ok : world_ok ex_config ex_world.
Proof.
  split; [intros n; cbn; unfold HALF; lia|done|]. intros n. split; vm_compute; congruence.
Qed.

(** Two files on the list, the first of them playing. *)
Definition ex_h1 : Ed2kHash := mkEd2kHash [1].
Definition ex_h2 : Ed2kHash := mkEd2kHash [2].
Definition ex_crdt : CrdtState :=
  foldl (λ x '(w, ts), (run_write w SERVER ts x).1) ex_list
    [(WNowPlaying (Some ex_h1), 3); (WPlaybackIntent IntentPlaying, 4)].
Lemma ex_crdt_lamport : lamport ex_crdt 4.
Proof.
  unfold ex_crdt, foldl. repeat (apply lamport_write; [|lia]). unfold ex_list.
  do 2 (apply (lamport_write (WPlaylistEntry _ _)); [|lia]). apply lamport_new.
Qed.
Lemma ex_crdt_view : view ex_crdt = Some (view_with ex_crdt []).
Proof. apply view_Some. exists []. split; [vm_compute; reflexivity|done]. Qed.
Definition ex_initial : StateSnapshot := mkStateSnapshot 1 ex_crdt.
Lemma ex_initial_ok : initial_ok ex_initial.
Proof.
  split; cbn [ex_initial snap_state snap_epoch].
  - apply (lp_wf _ _ ex_crdt_lamport).
  - unfold HALF. lia.
  - pose proof (lamport_floor _ _ ex_crdt_lamport ltac:(lia)) as H.
    assert (0 ≤ max_lww_timestamp ex_crdt) by (vm_compute; congruence). unfold HALF. lia.
Qed.

(** Alice is watching; Bob was cut off, with a window open. *)
Definition ex_alice : UserId := mkUserId "alice".
Definition ex_bob : UserId := mkUserId "bob".
Definition ex_alice_entry : PeerEntry :=
  mkPeerEntry 1 (Some 1) 77 None None None
    (mkPeerInfo ex_alice Interactive Present ["a"%string] 900 None) None.
Definition ex_bob_entry : PeerEntry :=
  mkPeerEntry 2 None 78 None None None
    (mkPeerInfo ex_bob Interactive Lost ["b"%string] 900 (Some 2000)) (Some 950).
Definition ex_shared : Shared :=
  put_grace_file (Some ex_h1) (put_peers (<[ex_alice := ex_alice_entry]> {[ex_bob := ex_bob_entry]})
    (start ex_config None ex_initial)).
Lemma ex_shared_ok : shared_ok ex_config ex_world ex_shared.
Proof.
  apply put_registry_ok; [apply start_ok, ex_initial_ok|]. split.
  - intros user e [[<- <-]|[_ [<- <-]%lookup_singleton_Some]]%lookup_insert_Some;
      split; cbn; try done; try (by split); try (by intros [? [=]]); split; try done; by eexists.
  - split; [|by eexists]. intros _. exists ex_bob, ex_bob_entry. split; [vm_compute; reflexivity|by eexists].
Qed.
Lemma ex_shared_fresh : fresh ex_config ex_world 8 ex_shared.
Proof.
  split; [apply ex_shared_ok|vm_compute; reflexivity|]. intros f. destruct f; vm_compute; reflexivity.
Qed.
Definition ex_encode (msg : ServerControl) : option (list Z) := Some [0].
Definition ex_datagram (conn : ConnId) : option Z := None.

Lemma server_write_effect_witness :
  ∃ s' o, run (server_write ex_encode ex_datagram ex_world (WWatched ex_h1 true)) ex_shared = Some ((), (s', o)) ∧
    view (sv_state s') = Some (view_after (WWatched ex_h1 true) 1000 (view_with ex_crdt [])).
Proof.
  destruct (server_write_effect ex_config ex_world ex_encode ex_datagram ex_shared (view_with ex_crdt [])
    (WWatched ex_h1 true) [0]) as (s' & o & Hrun & _ & _ & Hview & _).
  - exact ex_world_ok.
  - eapply fresh_mono; [|exact ex_shared_fresh]. lia.
  - exact ex_crdt_view.
  - reflexivity.
  - exists s', o. split; [exact Hrun|]. replace 1000 with (stamp_value ex_world ex_shared) by (vm_compute; reflexivity).
    exact Hview.
Defined.

Lemma eof_advances_once_witness :
  eof_taken (λ _, 0) (view_with ex_crdt []) ex_alice Interactive ex_h1 ∧
  ∃ s' o v', run (handle_eof (λ _, 0) ex_encode ex_datagram ex_world ex_alice Interactive ex_h1) ex_shared =
      Some ((), (s', o)) ∧
    view (sv_state s') = Some v' ∧ v_now_playing v' = Some ex_h2 ∧ no_window s'.
Proof.
  assert (eof_taken (λ _, 0) (view_with ex_crdt []) ex_alice Interactive ex_h1) as Ht
    by (vm_compute; done).
  split; [exact Ht|].
  pose proof (eof_advances_once ex_config ex_world (λ _, 0) ex_encode ex_datagram ex_shared
    (view_with ex_crdt []) ex_alice Interactive ex_h1 ex_world_ok ex_shared_fresh ex_crdt_view) as H.
  cbn zeta in H. rewrite decide_True in H by exact Ht.
  destruct H as (s' & o & v' & Hrun & Hv & Hev & _ & Hnw & _). exists s', o, v'.
  split; [exact Hrun|]. split; [exact Hv|]. split; [|exact Hnw].
  rewrite (ev_playing _ _ _ _ _ Hev). vm_compute. reflexivity.
Defined.

Lemma op_relayed_iff_new_witness :
  ∃ s' o, run (on_state_op (λ _, 0) ex_encode ex_datagram ex_world 1 1 ex_write.2 false) ex_shared =
      Some ((), (s', o)) ∧
    ∃ o', o = fanout ex_encode ex_datagram (StateOp 1 ex_write.2) (Some 1) Eager ex_shared ++ o'.
Proof.
  destruct (op_relayed_iff_new ex_config ex_world (λ _, 0) ex_encode ex_datagram ex_shared 1 1
    ex_write.2 false) as (s' & o & Hrun & H).
  - exact ex_world_ok.
  - exact ex_shared_ok.
  - reflexivity.
  - exact Logic.I.
  - vm_compute. reflexivity.
  - exists s', o. split; [exact Hrun|].
    replace (bool_decide (1 = sv_epoch ex_shared) && (apply_for_broadcast (sv_state ex_shared) ex_write.2 false).2)
      with true in H by (vm_compute; reflexivity). exact H.
Defined.

Lemma force_pause_closes_windows_witness :
  ∃ s' o v', run (force_pause ex_encode ex_datagram ex_world) ex_shared = Some ((), (s', o)) ∧
    no_window s' ∧ view (sv_state s') = Some v' ∧ v_seek_authority v' = Some (AuthLaggard ex_h1).
Proof.
  destruct (force_pause_closes_windows ex_config ex_world ex_encode ex_datagram ex_shared
    (view_with ex_crdt [])) as (s' & o & v' & Hrun & Hnw & Hv & H).
  - exact ex_world_ok.
  - eapply fresh_mono; [|exact ex_shared_fresh]. lia.
  - exact ex_crdt_view.
  - exists s', o, v'. split; [exact Hrun|]. split; [exact Hnw|]. split; [exact Hv|].
    cbn [ex_shared sv_grace_file put_grace_file] in H. rewrite bool_decide_eq_true_2 in H by (vm_compute; reflexivity).
    destruct H as [ts ->]. reflexivity.
Defined.

Lemma compaction_preserves_view_witness :
  ∃ s' o, run (run_compaction ex_encode ex_world 5) ex_shared = Some ((), (s', o)) ∧
    (∃ v', view (sv_state s') = Some v' ∧ compacted 5 (view_with ex_crdt []) v') ∧ sv_epoch s' = 2.
Proof.
  destruct (compaction_preserves_view ex_config ex_world ex_encode ex_shared (view_with ex_crdt []) 5)
    as (s' & o & Hrun & Hv & Hep & _).
  - exact ex_world_ok.
  - exact ex_shared_ok.
  - exact ex_crdt_view.
  - unfold fits_u64. repeat constructor; vm_compute; discriminate.
  - vm_compute. reflexivity.
  - exists s', o. split; [exact Hrun|]. split; [exact Hv|exact Hep].
Defined.

Lemma no_session_without_password_witness :
  let events := [EvStream; EvControl (Some (Auth ex_bob "guess" Interactive 1 PROTOCOL_VERSION))] in
  ∃ s' o, run (serve_connection (λ _, 0) (λ _, None) id ex_encode ex_datagram (λ _ _, []) ex_world
      ex_config 9 "addr" (V4 7) 5 events) ex_shared = Some ((), (s', o)) ∧
    unaffected ex_shared s' ∧ Forall (refusal 9) o.
Proof.
  intros events. apply (no_session_without_password ex_config ex_world).
  - exact ex_world_ok.
  - exact ex_shared_ok.
  - intros (user & role & epoch & H). vm_compute in H. discriminate H.
Defined.

Lemma presence_ladder_witness :
  ∃ r s', deregister ex_world 1 ex_alice Interactive (EndLost "timeout") ex_shared = Some (r, (s', [])) ∧
    ∃ l s'' e', promote_departed 31000 s' = Some (l, (s'', [])) ∧ sv_peers s'' !! ex_alice = Some e' ∧
      peer_presence (en_info e') = Departed.
Proof.
  destruct (presence_ladder ex_world ex_shared 1 ex_alice Interactive (EndLost "timeout") ex_alice_entry 31000)
    as (r & s' & E & _ & H); [vm_compute; reflexivity|].
  rewrite bool_decide_eq_true_2 in H by reflexivity.
  destruct H as (l & s'' & E2 & e' & Hu & _ & _ & Hp). exists r, s'. split; [exact E|].
  exists l, s'', e'. split; [exact E2|]. split; [exact Hu|exact Hp].
Defined.

Lemma daily_wait_correct_witness :
  millis_until_daily_utc 43200000 12 0 = 86400000 ∧
  (43200000 + millis_until_daily_utc 43200000 12 0) mod 86400000 = 43200000.
Proof.
  split; [reflexivity|]. apply (daily_wait_correct 43200000 12 0); lia.
Defined.

(** A viewer connects, syncs, marks a file watched and leaves. *)
Definition ex_events : list TransportEvent :=
  [ EvControl (Some (Auth ex_bob "secret" Interactive 1 PROTOCOL_VERSION));
    EvControl (Some (SyncStatus 1 [])); EvControl (Some (StateOp 1 ex_write.2));
    EvDatagram (Some (TimeSyncRequest 7)); EvControl (Some (EofReached ex_h1));
    EvControl (Some Goodbye) ].
Lemma ex_events_ok : Forall event_ok ex_events.
Proof. repeat constructor; vm_compute; congruence. Qed.
Definition ex_connection : Task Shared Out () :=
  serve_connection (λ _, 0) (λ _, None) id ex_encode ex_datagram (λ _ _, []) ex_world ex_config
    3 "addr" (V4 7) 99 ex_events.

Lemma server_safe_witness :
  ∃ p, p.1 = [Done ()] ∧
    rtc (pool_step (server_task (λ _, 0) (λ _, None) id ex_encode (λ _, None) ex_datagram (λ _ _, [])
           ex_world ex_config event_ok)) ([], start ex_config None ex_initial) p ∧
    shared_ok ex_config ex_world p.2 ∧ ¬ panicking p.
Proof.
  destruct (calm_run ex_config ex_world ex_connection (start ex_config None ex_initial))
    as ([] & s' & o & Hrun & _).
  - apply (calm_connection _ _ ex_world_ok). exact ex_events_ok.
  - apply start_ok, ex_initial_ok.
  - assert (rtc (pool_step (server_task (λ _, 0) (λ _, None) id ex_encode (λ _, None) ex_datagram (λ _ _, [])
      ex_world ex_config event_ok)) ([], start ex_config None ex_initial) ([Done ()], s')) as Hr.
    { eapply rtc_l; [apply (pool_spawn _ [] _ ex_connection)|].
      - apply task_connection, ex_events_ok.
      - exact (run_steps _ ex_connection _ s' o [ex_connection] 0 Hrun eq_refl). }
    exists ([Done ()], s'). split; [reflexivity|]. split; [exact Hr|].
    destruct (server_safe ex_config ex_world (λ _, 0) (λ _, None) id ex_encode (λ _, None) ex_datagram
      (λ _ _, []) None ex_initial ([Done ()], s') ex_world_ok ex_initial_ok Hr) as (H1 & _ & H2).
    split; [exact H1|exact H2].
Defined.

(** The same run, evaluated: the file is watched, the next one is loaded, Bob has left. *)
Lemma ex_connection_run :
  ∃ s' o, run ex_connection (start ex_config None ex_initial) = Some ((), (s', o)) ∧
    map_view (watched (sv_state s')) !! ex_h1 = Some true ∧
    playing_file (sv_state s') = Some ex_h2 ∧ sv_epoch s' = 1 ∧
    (peer_presence ∘ en_info <$> sv_peers s' !! ex_bob) = Some Departed.
Proof.
  assert (is_Some (run ex_connection (start ex_config None ex_initial))) as [[[] [s' o]] E].
  { destruct (calm_run ex_config ex_world ex_connection (start ex_config None ex_initial))
      as ([] & s' & o & -> & _); [|apply start_ok, ex_initial_ok|by eexists].
    apply (calm_connection _ _ ex_world_ok). exact ex_events_ok. }
  exists s', o. split; [exact E|].
  assert (((λ r : () * (Shared * list Out), (map_view (watched (sv_state r.2.1)) !! ex_h1,
      playing_file (sv_state r.2.1), sv_epoch r.2.1,
      peer_presence ∘ en_info <$> sv_peers r.2.1 !! ex_bob)) <$>
    run ex_connection (start ex_config None ex_initial)) =
    Some (Some true, Some ex_h2, 1, Some Departed)) as H by (vm_compute; reflexivity).
  rewrite E in H. apply (f_equal (default (None, None, 0, None))) in H.
  split; [exact (f_equal (λ x, x.1.1.1) H)|]. split; [exact (f_equal (λ x, x.1.1.2) H)|].
  split; [exact (f_equal (λ x, x.1.2) H)|exact (f_equal (λ x, x.2) H)].
Qed.
