(* ===== verification/ChunkStore.v ===== *)
(** * Assembly of a downloaded file on disk (dessplay/src/chunkstore.rs)

    The store of a partly downloaded file: which chunks are on disk ([written])
    and which ed2k blocks hashed to what the trusted block-hash list says
    ([verified]). The disk is explicit state, a map from paths to contents; what
    the operating system answers (a failed open, a write that stops half-way, a
    failed read) is an input of each operation ([StoreIo]). A store's open file
    is the disk's entry at its path. Out-of-range indices panic: [None]. *)

From S2P Require Import Prelude Types Framing Hash Transfer.

Abbreviation Disk := (gmap string (list Z)) (only parsing).

(** ** The operating system *)

(** [create_dir_all], [OpenOptions::open] with truncation, [set_len]. *)
Inductive CreateOutcome := Created | NoDirectory (e : io_error) | NotOpened (e : io_error)
| NoSpace (e : io_error).
Record StoreIo := mkStoreIo {
  (** opening the existing file without truncation succeeds; so does its [metadata] *)
  io_open : bool;
  io_metadata : bool;
  io_create : CreateOutcome;
  (** a failing [write_all] leaves that many bytes of its data written *)
  io_write : option (nat * io_error);
  (** a failing [seek] or [read_exact] at an offset *)
  io_read : Z → option io_error
}.
Definition io_fine : StoreIo := mkStoreIo true true Created None (λ _, None).

(** Writing into a file; a gap left before the offset reads as zeros. *)
Definition write_at (bytes : list Z) (off : nat) (data : list Z) : list Z :=
  take off bytes ++ replicate (off - length bytes) 0 ++ data ++ drop (off + length data) bytes.
Definition read_exact_at (io : StoreIo) (bytes : list Z) (start stop : Z) : io_error + list Z :=
  match io_read io start with
  | Some e => inl e
  | None =>
      if Z.of_nat (length bytes) <? stop then inl UnexpectedEof
      else inr (take (Z.to_nat (stop - start)) (drop (Z.to_nat start) bytes))
  end.

(** [io::Error]: the two kinds made by the store, and the system's. *)
Inductive StoreError := InvalidInput | NotFound | Sys (e : io_error).

(** ** Geometry *)

Definition CPB : Z := CHUNKS_PER_BLOCK.

(** [block_count], [block_byte_range], [chunks_in_block], [block_of_chunk]. *)
Definition block_count (size_bytes : Z) : Z := u32_wrap (div_ceil size_bytes ED2K_BLOCK_SIZE).
Definition block_byte_range (b size_bytes : Z) : Z * Z :=
  let start := b * ED2K_BLOCK_SIZE in
  let stop := Z.min (start + ED2K_BLOCK_SIZE) size_bytes in
  (start, stop).
Definition chunks_in_block (b total_chunks : Z) : Z * Z :=
  let first := u32_wrap (b * CPB) in
  let last := Z.min (u32_wrap (first + CPB)) total_chunks in
  (first, last).
Definition block_of_chunk (index : Z) : Z := index / CPB.

(** The indices of a [Range]. *)
Definition range_iter (r : Z * Z) : list Z := seqZ r.1 (r.2 - r.1).

(** [Iterator::all], [filter] and a loop over a fallible body. *)
Fixpoint all_m {A} (f : A → option bool) (l : list A) : option bool :=
  match l with
  | [] => Some true
  | x :: l => b ← f x; if (b : bool) then all_m f l else Some false
  end.
Fixpoint filter_m {A} (f : A → option bool) (l : list A) : option (list A) :=
  match l with
  | [] => Some []
  | x :: l => b ← f x; k ← filter_m f l; Some (if (b : bool) then x :: k else k)
  end.
Fixpoint fold_m {A B} (f : A → B → option A) (a : A) (l : list B) : option A :=
  match l with [] => Some a | x :: l => a ← f a x; fold_m f a l end.

(** ** The store *)

Record VerifySummary := mkVerifySummary { newly_verified : Z; mismatched : list Z }.
Definition empty_summary : VerifySummary := mkVerifySummary 0 [].

Record ChunkStore := mkChunkStore {
  cs_path : string;
  cs_size : Z;
  cs_chunks : Z;
  cs_blocks : Z;
  written : Bitfield;
  verified : list bool
}.

(** The contents its open file has. *)
Definition contents (disk : Disk) (s : ChunkStore) : list Z := default [] (disk !! cs_path s).

(** [with_file]. *)
Definition with_file (path : string) (size_bytes : Z) (all_written : bool) : option ChunkStore :=
  let chunks := chunk_count size_bytes in
  let blocks := block_count size_bytes in
  w ← if all_written then fold_m set (bf_new chunks) (seqZ 0 chunks) else Some (bf_new chunks);
  Some (mkChunkStore path size_bytes chunks blocks w (replicate (Z.to_nat blocks) false)).

(** [create]. *)
Definition create (io : StoreIo) (disk : Disk) (path : string) (size_bytes : Z)
    : option (Disk * (io_error + ChunkStore)) :=
  match io_create io with
  | NoDirectory e | NotOpened e => Some (disk, inl e)
  | NoSpace e => Some (<[path := []]> disk, inl e)
  | Created =>
      s ← with_file path size_bytes false;
      Some (<[path := replicate (Z.to_nat size_bytes) 0]> disk, inr s)
  end.

(** [open]. *)
Definition open (io : StoreIo) (disk : Disk) (path : string) (size_bytes : Z)
    : option (Disk * (io_error + ChunkStore)) :=
  match disk !! path with
  | Some bytes =>
      let len := if io_metadata io then Z.of_nat (length bytes) else 0 in
      if io_open io && (len =? size_bytes) then
        s ← with_file path size_bytes true;
        Some (disk, inr s)
      else create io disk path size_bytes
  | None => create io disk path size_bytes
  end.

(** [is_written], [block_size]. *)
Definition is_written (s : ChunkStore) (index : Z) : option bool := get (written s) index.
Definition block_size (s : ChunkStore) (b : Z) : Z :=
  let r := block_byte_range b (cs_size s) in r.2 - r.1.

(** [write_chunk]. *)
Definition write_chunk (io : StoreIo) (disk : Disk) (s : ChunkStore) (index : Z) (data : list Z)
    : option (Disk * ChunkStore * (StoreError + unit)) :=
  let range := chunk_range index (cs_size s) in
  if (cs_chunks s <=? index) || negb (Z.of_nat (length data) =? range.2 - range.1) then
    Some (disk, s, inl InvalidInput)
  else
    let put data := <[cs_path s := write_at (contents disk s) (Z.to_nat range.1) data]> disk in
    match io_write io with
    | Some (n, e) => Some (put (take n data), s, inl (Sys e))
    | None =>
        w ← set (written s) index;
        Some (put data, mkChunkStore (cs_path s) (cs_size s) (cs_chunks s) (cs_blocks s) w
                          (verified s), inr ())
    end.

(** [read_chunk]. *)
Definition read_chunk (io : StoreIo) (disk : Disk) (s : ChunkStore) (index : Z)
    : option (StoreError + list Z) :=
  w ← get (written s) index;
  if negb w then Some (inl NotFound)
  else
    let range := chunk_range index (cs_size s) in
    Some (match read_exact_at io (contents disk s) range.1 range.2 with
          | inl e => inl (Sys e)
          | inr buf => inr buf
          end).

Section verify.
Context `{Digest H}.

(** [block_hashes_match]. *)
Definition block_hashes_match (s : ChunkStore) (root : Ed2kHash) (hashes : list Ed2kBlockHash)
    : bool :=
  (u32_wrap (Z.of_nat (length hashes)) =? cs_blocks s)
  && bool_decide (root_from_blocks hashes (cs_size s) = root).

(** [verify], from block [bs] on. *)
Definition set_verified (s : ChunkStore) (b : Z) : ChunkStore :=
  mkChunkStore (cs_path s) (cs_size s) (cs_chunks s) (cs_blocks s) (written s)
    (<[Z.to_nat b := true]> (verified s)).
Definition set_written (s : ChunkStore) (w : Bitfield) : ChunkStore :=
  mkChunkStore (cs_path s) (cs_size s) (cs_chunks s) (cs_blocks s) w (verified s).
Fixpoint verify_loop (io : StoreIo) (disk : Disk) (block_hashes : list Ed2kBlockHash)
    (bs : list Z) (s : ChunkStore) (summary : VerifySummary)
    : option (ChunkStore * (StoreError + VerifySummary)) :=
  match bs with
  | [] => Some (s, inr summary)
  | b :: bs =>
      v ← verified s !! Z.to_nat b;
      if (v : bool) then verify_loop io disk block_hashes bs s summary
      else
        let chunks := range_iter (chunks_in_block b (cs_chunks s)) in
        full ← all_m (get (written s)) chunks;
        if negb full then verify_loop io disk block_hashes bs s summary
        else
          let bytes := block_byte_range b (cs_size s) in
          match read_exact_at io (contents disk s) bytes.1 bytes.2 with
          | inl e => Some (s, inl (Sys e))
          | inr buf =>
              h ← block_hashes !! Z.to_nat b;
              if decide (block_hash buf = h) then
                verify_loop io disk block_hashes bs (set_verified s b)
                  (mkVerifySummary (newly_verified summary + 1) (mismatched summary))
              else
                w ← fold_m unset (written s) chunks;
                verify_loop io disk block_hashes bs (set_written s w)
                  (mkVerifySummary (newly_verified summary) (mismatched summary ++ [b]))
          end
  end.
Definition verify (io : StoreIo) (disk : Disk) (s : ChunkStore) (block_hashes : list Ed2kBlockHash)
    : option (ChunkStore * (StoreError + VerifySummary)) :=
  verify_loop io disk block_hashes (seqZ 0 (cs_blocks s)) s empty_summary.
End verify.

(** [is_complete]. *)
Definition store_complete (s : ChunkStore) : bool :=
  (0 <? cs_blocks s) && forallb (λ v, v) (verified s).

(** [verified[block_of_chunk(i)]], [verified[b]]. *)
Definition block_verified (s : ChunkStore) (b : Z) : option bool := verified s !! Z.to_nat b.
Definition chunk_verified (s : ChunkStore) (i : Z) : option bool :=
  block_verified s (block_of_chunk i).

(** [progress_bps]. *)
Definition progress_bps (s : ChunkStore) : option Z :=
  if cs_blocks s =? 0 then Some 10000
  else
    bs ← filter_m (block_verified s) (seqZ 0 (cs_blocks s));
    let verified := foldr Z.add 0 (block_size s <$> bs) in
    Some ((u64_saturating_mul verified 10000 / Z.max (cs_size s) 1) mod 2 ^ 16).

(** [available]. *)
Definition available (s : ChunkStore) : option Bitfield :=
  fold_m (λ bf i, v ← chunk_verified s i; if (v : bool) then set bf i else Some bf)
    (bf_new (cs_chunks s)) (seqZ 0 (cs_chunks s)).

(** [needed_chunks]. *)
Definition needed_chunks (s : ChunkStore) : option (list Z) :=
  filter_m (λ i,
    w ← get (written s) i;
    if (w : bool) then Some false else v ← chunk_verified s i; Some (negb v))
    (seqZ 0 (cs_chunks s)).

(** [playable_from]. *)
Definition PLAYABLE_WINDOW_FRAC : Z := 5.
Definition u32_saturating_add (x y : Z) : Z := Z.min (x + y) (u32_modulus - 1).
Definition playable_from (s : ChunkStore) (play_chunk : Z) : option bool :=
  let window := u32_wrap (cs_chunks s / PLAYABLE_WINDOW_FRAC + 1) in
  let start := Z.min play_chunk (cs_chunks s) in
  let stop := Z.min (u32_saturating_add play_chunk window) (cs_chunks s) in
  all_m (chunk_verified s) (range_iter (start, stop)).

(** ** Fallible iteration *)

Lemma all_m_total {A} (f : A → option bool) (g : A → bool) l :
  (∀ x, x ∈ l → f x = Some (g x)) → all_m f l = Some (forallb g l).
Proof.
  induction l as [|x l IH]; intros Hf; simpl; [done|].
  rewrite Hf by left. simpl. destruct (g x); [|done]. apply IH. intros; apply Hf. by right.
Qed.

Lemma filter_m_total {A} (f : A → option bool) (g : A → bool) l :
  (∀ x, x ∈ l → f x = Some (g x)) → filter_m f l = Some (filter (λ x, g x = true) l).
Proof.
  induction l as [|x l IH]; intros Hf; [done|]. cbn [filter_m].
  rewrite Hf by left. cbn [mbind option_bind].
  rewrite IH by (intros; apply Hf; by right). rewrite filter_cons. simpl. by destruct (g x).
Qed.

Lemma filter_ext_in {A} (f g : A → bool) (l : list A) :
  (∀ x, x ∈ l → f x = g x) → filter (λ x, f x = true) l = filter (λ x, g x = true) l.
Proof.
  induction l as [|x l IH]; intros Hf; [done|]. rewrite !filter_cons, (Hf x) by left.
  rewrite IH; [done|]. intros; apply Hf. by right.
Qed.

Lemma fold_m_inv_from {A B} (I : list B → A → Prop) (f : A → B → option A) l start a :
  I start a → (∀ done x a, x ∈ l → I done a → ∃ a', f a x = Some a' ∧ I (done ++ [x]) a') →
  ∃ a', fold_m f a l = Some a' ∧ I (start ++ l) a'.
Proof.
  revert start a. induction l as [|x l IH]; intros start a Ha Hf.
  { exists a. by rewrite app_nil_r. }
  destruct (Hf start x a) as (a' & Hfx & Ha'); [by left|done|].
  cbn [fold_m]. rewrite Hfx. cbn [mbind option_bind].
  replace (start ++ x :: l) with ((start ++ [x]) ++ l) by by rewrite <-app_assoc.
  apply IH; [done|]. intros done y a1 Hy. apply Hf. by right.
Qed.

Lemma fold_m_inv {A B} (I : list B → A → Prop) (f : A → B → option A) l a :
  I [] a → (∀ done x a, x ∈ l → I done a → ∃ a', f a x = Some a' ∧ I (done ++ [x]) a') →
  ∃ a', fold_m f a l = Some a' ∧ I l a'.
Proof. apply (fold_m_inv_from I f l []). Qed.

Lemma set_all b n l :
  0 ≤ n < u32_modulus → valid b n → (∀ i, i ∈ l → 0 ≤ i) →
  ∃ b', fold_m set b l = Some b' ∧ valid b' n ∧
    ∀ j, 0 ≤ j → bit_of (bits b') j = bit_of (bits b) j || bool_decide (j ∈ l) && (j <? n).
Proof.
  intros Hn Hv Hl. pose (I (k : list Z) b' := valid b' n ∧ ∀ j, 0 ≤ j →
    bit_of (bits b') j = bit_of (bits b) j || bool_decide (j ∈ k) && (j <? n)).
  apply (fold_m_inv I); unfold I.
  - split; [done|]. intros j _. by rewrite orb_false_r.
  - intros done x b1 Hx [Hv1 Hb1]. destruct (set_valid b1 n Hn Hv1 x (Hl x Hx)) as (b2 & Hs & Hv2 & Hb2).
    exists b2. split_and!; [done..|]. intros j Hj. rewrite Hb2, Hb1, <-orb_assoc by done. f_equal.
    apply eq_true_iff_eq. rewrite orb_true_iff, !andb_true_iff, !bool_decide_eq_true, Z.eqb_eq,
      !Z.ltb_lt, elem_of_app, list_elem_of_singleton. naive_solver.
Qed.

Lemma unset_all b n l :
  0 ≤ n < u32_modulus → valid b n → (∀ i, i ∈ l → 0 ≤ i) →
  ∃ b', fold_m unset b l = Some b' ∧ valid b' n ∧
    ∀ j, 0 ≤ j → bit_of (bits b') j = bit_of (bits b) j && negb (bool_decide (j ∈ l)).
Proof.
  intros Hn Hv Hl. pose (I (k : list Z) b' := valid b' n ∧ ∀ j, 0 ≤ j →
    bit_of (bits b') j = bit_of (bits b) j && negb (bool_decide (j ∈ k))).
  apply (fold_m_inv I); unfold I.
  - split; [done|]. intros j _. by rewrite andb_true_r.
  - intros done x b1 Hx [Hv1 Hb1]. destruct (unset_valid b1 n Hn Hv1 x (Hl x Hx)) as (b2 & Hs & Hv2 & Hb2).
    exists b2. split_and!; [done..|]. intros j Hj. rewrite Hb2, Hb1, <-andb_assoc by done. f_equal.
    apply eq_true_iff_eq. rewrite andb_true_iff, !negb_true_iff, !bool_decide_eq_false, Z.eqb_neq,
      elem_of_app, list_elem_of_singleton. naive_solver.
Qed.

(** ** Geometry of chunks and blocks

    Sizes up to [MAX_SIZE] (over a petabyte): chunk indices and their successors
    in a block stay below 2^32. *)

Definition MAX_SIZE : Z := (u32_modulus - CPB) * CHUNK_SIZE.

Lemma chunk_count_spec size :
  0 ≤ size ≤ MAX_SIZE →
  0 ≤ chunk_count size ≤ u32_modulus - CPB ∧
  CHUNK_SIZE * (chunk_count size - 1) < size ≤ CHUNK_SIZE * chunk_count size.
Proof.
  unfold MAX_SIZE, chunk_count, div_ceil, u32_wrap, u32_modulus.
  change CHUNK_SIZE with 256000. change CPB with 38. intros Hs.
  destruct (Z.eqb_spec (size mod 256000) 0); rewrite Z.mod_small;
    Z.to_euclidean_division_equations; lia.
Qed.

Lemma block_count_spec size :
  0 ≤ size ≤ MAX_SIZE →
  0 ≤ block_count size < u32_modulus ∧
  ED2K_BLOCK_SIZE * (block_count size - 1) < size ≤ ED2K_BLOCK_SIZE * block_count size.
Proof.
  unfold MAX_SIZE, block_count, div_ceil, u32_wrap, u32_modulus.
  change CHUNK_SIZE with 256000. change CPB with 38. change ED2K_BLOCK_SIZE with 9728000. intros Hs.
  destruct (Z.eqb_spec (size mod 9728000) 0); rewrite Z.mod_small;
    Z.to_euclidean_division_equations; lia.
Qed.

Lemma elem_of_range_iter i r : i ∈ range_iter r ↔ r.1 ≤ i < r.2.
Proof. unfold range_iter. rewrite elem_of_seqZ. lia. Qed.

Lemma chunks_in_block_spec b size :
  0 ≤ size ≤ MAX_SIZE → 0 ≤ b < block_count size →
  chunks_in_block b (chunk_count size) = (b * CPB, Z.min (b * CPB + CPB) (chunk_count size)) ∧
  b * CPB < chunk_count size.
Proof.
  intros Hs Hb. pose proof (chunk_count_spec size Hs) as [Hc1 Hc2].
  pose proof (block_count_spec size Hs) as [Hb1 Hb2]. unfold chunks_in_block, u32_wrap, u32_modulus in *.
  change CHUNK_SIZE with 256000 in *. change CPB with 38 in *. change ED2K_BLOCK_SIZE with 9728000 in *.
  rewrite !Z.mod_small by lia. split; [done|lia].
Qed.

Lemma elem_of_block_chunks i b size :
  0 ≤ size ≤ MAX_SIZE → 0 ≤ b < block_count size →
  i ∈ range_iter (chunks_in_block b (chunk_count size)) ↔
    0 ≤ i < chunk_count size ∧ block_of_chunk i = b.
Proof.
  intros Hs Hb. rewrite (proj1 (chunks_in_block_spec b size Hs Hb)), elem_of_range_iter. simpl.
  unfold block_of_chunk. change CPB with 38. split.
  - intros Hi. split; [lia|]. symmetry. apply Z.div_unique_pos with (i - 38 * b); lia.
  - intros [Hi <-]. Z.to_euclidean_division_equations; lia.
Qed.

Lemma block_of_chunk_range i size :
  0 ≤ size ≤ MAX_SIZE → 0 ≤ i < chunk_count size → 0 ≤ block_of_chunk i < block_count size.
Proof.
  intros Hs Hi. pose proof (chunk_count_spec size Hs) as [Hc1 Hc2].
  pose proof (block_count_spec size Hs) as [Hb1 Hb2]. unfold block_of_chunk.
  change CHUNK_SIZE with 256000 in *. change CPB with 38 in *. change ED2K_BLOCK_SIZE with 9728000 in *.
  Z.to_euclidean_division_equations; lia.
Qed.

Lemma block_range_spec b size :
  0 ≤ size ≤ MAX_SIZE → 0 ≤ b < block_count size →
  let '(s, e) := block_byte_range b size in
  s = b * ED2K_BLOCK_SIZE ∧ s < e ≤ s + ED2K_BLOCK_SIZE ∧ e ≤ size ∧
  (b < block_count size - 1 → e = s + ED2K_BLOCK_SIZE) ∧ (b = block_count size - 1 → e = size).
Proof.
  intros Hs Hb. pose proof (block_count_spec size Hs) as [Hb1 Hb2]. simpl.
  change ED2K_BLOCK_SIZE with 9728000 in *. lia.
Qed.

(** A chunk's bytes are bytes of its block. *)
Lemma chunk_range_spec i size :
  0 ≤ size ≤ MAX_SIZE → 0 ≤ i < chunk_count size →
  let '(s, e) := chunk_range i size in
  0 ≤ s < e ∧ e ≤ size ∧ block_of_chunk i * ED2K_BLOCK_SIZE ≤ s ∧
  e ≤ (block_of_chunk i + 1) * ED2K_BLOCK_SIZE.
Proof.
  intros Hs Hi. pose proof (chunk_count_spec size Hs) as [Hc1 Hc2]. simpl. unfold block_of_chunk.
  change CHUNK_SIZE with 256000 in *. change CPB with 38 in *. change ED2K_BLOCK_SIZE with 9728000 in *.
  Z.to_euclidean_division_equations; lia.
Qed.

(** ** Well-formed stores *)

Definition has (s : ChunkStore) (i : Z) : bool := bit_of (bits (written s)) i.
Definition trusted (s : ChunkStore) (b : Z) : bool := default false (verified s !! Z.to_nat b).
Definition full (s : ChunkStore) (b : Z) : bool :=
  forallb (has s) (range_iter (chunks_in_block b (cs_chunks s))).

Record store_ok (s : ChunkStore) : Prop := {
  ok_size : 0 ≤ cs_size s ≤ MAX_SIZE;
  ok_chunks : cs_chunks s = chunk_count (cs_size s);
  ok_blocks : cs_blocks s = block_count (cs_size s);
  ok_written : valid (written s) (cs_chunks s);
  ok_verified : Z.of_nat (length (verified s)) = cs_blocks s
}.

Section store_ok.
Context (s : ChunkStore) (Hok : store_ok s).

Lemma ok_chunk_bound : 0 ≤ cs_chunks s < u32_modulus.
Proof.
  rewrite (ok_chunks _ Hok). pose proof (chunk_count_spec _ (ok_size _ Hok)).
  assert (0 < CPB) by done. lia.
Qed.
Lemma ok_block_bound : 0 ≤ cs_blocks s < u32_modulus.
Proof. rewrite (ok_blocks _ Hok). apply (block_count_spec _ (ok_size _ Hok)). Qed.

Lemma get_written i : 0 ≤ i → get (written s) i = Some (has s i).
Proof. apply (get_valid _ _ ok_chunk_bound (ok_written _ Hok)). Qed.

Lemma has_range i : 0 ≤ i → has s i = true → i < cs_chunks s.
Proof.
  intros Hi Hh. destruct (decide (i < cs_chunks s)) as [|Hn]; [done|].
  unfold has in Hh. rewrite (valid_padding _ _ (ok_written _ Hok)) in Hh by lia. done.
Qed.

Lemma block_verified_spec b : 0 ≤ b < cs_blocks s → block_verified s b = Some (trusted s b).
Proof.
  intros Hb. unfold block_verified, trusted. pose proof (ok_verified _ Hok).
  destruct (lookup_lt_is_Some_2 (verified s) (Z.to_nat b)) as [v ->]; [lia|done].
Qed.

Lemma block_of_chunk_bound i : 0 ≤ i < cs_chunks s → 0 ≤ block_of_chunk i < cs_blocks s.
Proof.
  rewrite (ok_chunks _ Hok), (ok_blocks _ Hok). apply block_of_chunk_range, ok_size, Hok.
Qed.

Lemma chunk_verified_spec i :
  0 ≤ i < cs_chunks s → chunk_verified s i = Some (trusted s (block_of_chunk i)).
Proof. intros Hi. by apply block_verified_spec, block_of_chunk_bound. Qed.

Lemma elem_of_chunks_in i b :
  0 ≤ b < cs_blocks s →
  i ∈ range_iter (chunks_in_block b (cs_chunks s)) ↔ 0 ≤ i < cs_chunks s ∧ block_of_chunk i = b.
Proof. rewrite (ok_chunks _ Hok), (ok_blocks _ Hok). apply elem_of_block_chunks, ok_size, Hok. Qed.

Lemma full_iff b :
  0 ≤ b < cs_blocks s →
  full s b = true ↔ ∀ i, 0 ≤ i < cs_chunks s → block_of_chunk i = b → has s i = true.
Proof.
  intros Hb. unfold full. rewrite forallb_forall. split; intros Hf i.
  - intros Hi Hib. apply Hf, list_elem_of_In. by apply elem_of_chunks_in.
  - intros Hi%list_elem_of_In. apply elem_of_chunks_in in Hi as [??]; [by apply Hf|done].
Qed.

Lemma full_spec b :
  0 ≤ b < cs_blocks s →
  all_m (get (written s)) (range_iter (chunks_in_block b (cs_chunks s))) = Some (full s b).
Proof.
  intros Hb. apply all_m_total. intros i Hi. apply elem_of_chunks_in in Hi; [|done].
  apply get_written. lia.
Qed.

Lemma is_written_spec i : 0 ≤ i → is_written s i = Some (has s i).
Proof. apply get_written. Qed.

Lemma needed_chunks_spec :
  needed_chunks s = Some (filter (λ i, (negb (has s i) && negb (trusted s (block_of_chunk i))) = true)
    (seqZ 0 (cs_chunks s))).
Proof.
  apply filter_m_total. intros i Hi%elem_of_seqZ. rewrite get_written by lia. simpl.
  destruct (has s i); [done|]. by rewrite chunk_verified_spec by lia.
Qed.

Lemma available_spec :
  ∃ bf, available s = Some bf ∧ valid bf (cs_chunks s) ∧
    ∀ j, 0 ≤ j → bit_of (bits bf) j = (j <? cs_chunks s) && trusted s (block_of_chunk j).
Proof.
  pose proof ok_chunk_bound as Hn.
  pose (I (k : list Z) bf := valid bf (cs_chunks s) ∧ ∀ j, 0 ≤ j →
    bit_of (bits bf) j = bool_decide (j ∈ k) && (j <? cs_chunks s) && trusted s (block_of_chunk j)).
  destruct (fold_m_inv I (λ bf i, v ← chunk_verified s i; if (v : bool) then set bf i else Some bf)
    (seqZ 0 (cs_chunks s)) (bf_new (cs_chunks s))) as (bf & Hbf & Hv & Hbits).
  - destruct (represents_new (cs_chunks s)) as (Hv & Hb & _); [lia|]. split; [done|].
    intros j Hj. rewrite Hb by done. by rewrite bool_decide_eq_false_2 by set_solver.
  - intros done i bf Hi%elem_of_seqZ [Hv Hb]. rewrite chunk_verified_spec by lia. simpl.
    destruct (trusted s (block_of_chunk i)) eqn:Ht.
    + destruct (set_valid bf _ Hn Hv i ltac:(lia)) as (b' & -> & Hv' & Hb'). exists b'.
      split; [done|]. split; [done|]. intros j Hj. rewrite Hb', Hb by done. apply eq_true_iff_eq.
      rewrite orb_true_iff, !andb_true_iff, !bool_decide_eq_true, Z.eqb_eq, !Z.ltb_lt, elem_of_app,
        list_elem_of_singleton. split; [|naive_solver]. intros [?|[-> ?]]; [naive_solver|]. auto.
    + exists bf. split; [done|]. split; [done|]. intros j Hj. rewrite Hb by done. apply eq_true_iff_eq.
      rewrite !andb_true_iff, !bool_decide_eq_true, elem_of_app, list_elem_of_singleton.
      split; [naive_solver|]. intros [[[?| ->] ?] ?]; [done|congruence].
  - exists bf. split_and!; [done..|]. intros j Hj. rewrite Hbits by done.
    destruct (Z.ltb_spec j (cs_chunks s)); [|by rewrite andb_false_r].
    by rewrite bool_decide_eq_true_2 by (apply elem_of_seqZ; lia).
Qed.

Lemma complete_iff :
  store_complete s = true ↔
    0 < cs_blocks s ∧ ∀ b, 0 ≤ b < cs_blocks s → trusted s b = true.
Proof.
  unfold store_complete. rewrite andb_true_iff, Z.ltb_lt, forallb_forall. pose proof (ok_verified _ Hok).
  split; intros [Hp Hf]; (split; [done|]).
  - intros b Hb. unfold trusted.
    destruct (lookup_lt_is_Some_2 (verified s) (Z.to_nat b)) as [v Hv]; [lia|].
    rewrite Hv. simpl. apply Hf, list_elem_of_In. by eapply list_elem_of_lookup_2.
  - intros v Hv%list_elem_of_In. apply list_elem_of_lookup in Hv as [k Hk].
    specialize (Hf (Z.of_nat k)). unfold trusted in Hf. rewrite Nat2Z.id, Hk in Hf. apply Hf.
    apply lookup_lt_Some in Hk. lia.
Qed.
End store_ok.

Lemma with_file_spec path size (all : bool) :
  0 ≤ size ≤ MAX_SIZE →
  ∃ s, with_file path size all = Some s ∧ store_ok s ∧ cs_path s = path ∧ cs_size s = size ∧
    (∀ i, 0 ≤ i → has s i = all && (i <? cs_chunks s)) ∧ ∀ b, trusted s b = false.
Proof.
  intros Hs. pose proof (chunk_count_spec size Hs) as [Hc _]. pose proof (block_count_spec size Hs) as [Hb _].
  assert (0 < CPB) by done. assert (0 ≤ chunk_count size < u32_modulus) as Hn by lia.
  unfold with_file.
  assert (∃ w, (if all then fold_m set (bf_new (chunk_count size)) (seqZ 0 (chunk_count size))
    else Some (bf_new (chunk_count size))) = Some w ∧ valid w (chunk_count size) ∧
    ∀ i, 0 ≤ i → bit_of (bits w) i = all && (i <? chunk_count size)) as (w & -> & Hv & Hw).
  { destruct (represents_new (chunk_count size)) as (Hv0 & Hb0 & _); [lia|]. destruct all.
    - destruct (set_all _ _ (seqZ 0 (chunk_count size)) Hn Hv0) as (w & Hw & Hv & Hbits).
      { intros i Hi%elem_of_seqZ. lia. }
      exists w. split_and!; [done..|]. intros i Hi. rewrite Hbits, Hb0 by done.
      rewrite bool_decide_eq_false_2 by set_solver. simpl.
      destruct (Z.ltb_spec i (chunk_count size)); [|by rewrite andb_false_r].
      by rewrite bool_decide_eq_true_2 by (apply elem_of_seqZ; lia).
    - exists (bf_new (chunk_count size)). split_and!; [done..|]. intros i Hi.
      rewrite Hb0 by done. by apply bool_decide_eq_false_2. }
  eexists. split; [done|]. split_and!; [|done..|].
  - split; simpl; [done..| |rewrite length_replicate; lia]. done.
  - intros b. unfold trusted. simpl. destruct (_ !! _) as [v|] eqn:E; [|done].
    by apply lookup_replicate in E as [-> _].
Qed.

(** ** Contents *)

Definition accepted {E A} (r : E + A) : bool := match r with inr _ => true | inl _ => false end.

(** The file on disk has the store's size (an empty store reads nothing). *)
Definition on_disk (disk : Disk) (s : ChunkStore) : Prop :=
  0 < cs_size s → Z.of_nat (length (contents disk s)) = cs_size s.

Lemma read_block io disk s b :
  store_ok s → on_disk disk s → 0 ≤ b < cs_blocks s →
  read_exact_at io (contents disk s) (block_byte_range b (cs_size s)).1
    (block_byte_range b (cs_size s)).2 =
    match io_read io (b * ED2K_BLOCK_SIZE) with
    | Some e => inl e
    | None => inr (block_of (contents disk s) (Z.to_nat b))
    end.
Proof.
  intros Hok Hd Hb. rewrite (ok_blocks _ Hok) in Hb.
  pose proof (block_range_spec b _ (ok_size _ Hok) Hb) as Hr.
  destruct (block_byte_range b (cs_size s)) as [st e]. cbn [fst snd] in *.
  destruct Hr as (-> & He1 & He2 & Hfull & Hlast). unfold read_exact_at.
  assert (0 < ED2K_BLOCK_SIZE) by done.
  assert (0 < cs_size s) as Hpos by nia. specialize (Hd Hpos). rewrite Hd.
  case_match; [done|]. destruct (Z.ltb_spec (cs_size s) e); [lia|]. f_equal.
  unfold block_of. replace (Z.to_nat (b * ED2K_BLOCK_SIZE)) with (Z.to_nat b * Z.to_nat ED2K_BLOCK_SIZE)%nat
    by (rewrite Z2Nat.inj_mul; lia).
  destruct (decide (b = block_count (cs_size s) - 1)) as [Hbl|Hbl].
  - rewrite !take_ge; [done|..]; rewrite length_drop, <-Z2Nat.inj_mul; lia.
  - rewrite Hfull by lia. do 2 f_equal. lia.
Qed.

(** Bytes outside a write are kept. *)
Lemma write_at_inside bytes off data :
  (off + length data ≤ length bytes)%nat →
  write_at bytes off data = take off bytes ++ data ++ drop (off + length data) bytes.
Proof. intros Hl. unfold write_at. by replace (off - length bytes)%nat with 0%nat by lia. Qed.

Lemma length_write_at bytes off data :
  (off + length data ≤ length bytes)%nat → length (write_at bytes off data) = length bytes.
Proof. intros Hl. rewrite write_at_inside by done. rewrite !length_app, length_take, length_drop. lia. Qed.

Lemma write_at_keeps bytes off data from n :
  (off + length data ≤ length bytes)%nat →
  (from + n ≤ off ∨ off + length data ≤ from)%nat →
  take n (drop from (write_at bytes off data)) = take n (drop from bytes).
Proof.
  intros Hl Hd. rewrite write_at_inside by done. apply list_eq. intros i.
  destruct (decide (i < n)%nat) as [Hi|Hi]; [|by rewrite !lookup_take_ge by lia].
  rewrite !lookup_take_lt, !lookup_drop by done. destruct Hd as [Hd|Hd].
  - rewrite lookup_app_l by (rewrite length_take; lia). by rewrite lookup_take_lt by lia.
  - rewrite lookup_app_r by (rewrite length_take; lia). rewrite length_take.
    rewrite lookup_app_r by lia. rewrite lookup_drop. f_equal. lia.
Qed.

(** ** [verify] judges blocks *)

Section judge.
Context `{Digest H}.

Definition good (disk : Disk) (hashes : list Ed2kBlockHash) (s : ChunkStore) (b : Z) : bool :=
  bool_decide (hashes !! Z.to_nat b = Some (block_hash (block_of (contents disk s) (Z.to_nat b)))).

(** The blocks of [bs] that are up for a verdict, and what they are. *)
Definition passes disk hashes s b : bool :=
  negb (trusted s b) && full s b && good disk hashes s b.
Definition fails disk hashes s b : bool :=
  negb (trusted s b) && full s b && negb (good disk hashes s b).

(** [s'] is [s] after the verdicts on [bs]. *)
Record judged (disk : Disk) (hashes : list Ed2kBlockHash) (bs : list Z) (s s' : ChunkStore) : Prop := {
  judged_ok : store_ok s';
  judged_path : cs_path s' = cs_path s;
  judged_size : cs_size s' = cs_size s;
  judged_trusted b : 0 ≤ b < cs_blocks s →
    trusted s' b = trusted s b || bool_decide (b ∈ bs) && passes disk hashes s b;
  judged_has i : 0 ≤ i < cs_chunks s →
    has s' i = has s i && negb (bool_decide (block_of_chunk i ∈ bs)
                                && fails disk hashes s (block_of_chunk i))
}.

Lemma judged_chunks disk hashes bs s s' :
  store_ok s → judged disk hashes bs s s' → cs_chunks s' = cs_chunks s ∧ cs_blocks s' = cs_blocks s.
Proof.
  intros Hok Hj. pose proof (judged_ok _ _ _ _ _ Hj) as Hok'.
  by rewrite (ok_chunks _ Hok'), (ok_chunks _ Hok), (ok_blocks _ Hok'), (ok_blocks _ Hok),
    (judged_size _ _ _ _ _ Hj).
Qed.

Lemma judged_nil disk hashes s : store_ok s → judged disk hashes [] s s.
Proof.
  intros Hok. split; [done..| |]; intros; rewrite bool_decide_eq_false_2 by set_solver; simpl.
  - by rewrite orb_false_r.
  - by rewrite andb_true_r.
Qed.

(** A verdict on one block does not concern the others. *)
Lemma judged_other disk hashes b s s' b' :
  store_ok s → judged disk hashes [b] s s' → 0 ≤ b' < cs_blocks s → b' ≠ b →
  passes disk hashes s' b' = passes disk hashes s b' ∧
  fails disk hashes s' b' = fails disk hashes s b'.
Proof.
  intros Hok Hj Hb' Hne. destruct (judged_chunks _ _ _ _ _ Hok Hj) as [Hc Hbl].
  pose proof (judged_ok _ _ _ _ _ Hj) as Hok'.
  assert (trusted s' b' = trusted s b') as Ht.
  { rewrite (judged_trusted _ _ _ _ _ Hj), bool_decide_eq_false_2 by (done || set_solver).
    apply orb_false_r. }
  assert (full s' b' = full s b') as Hf.
  { apply eq_true_iff_eq. rewrite !full_iff, Hc by (done || by rewrite Hbl).
    apply forall_proper. intros i. split; intros Hh Hi Hib; [rewrite <-(Hh Hi Hib)|rewrite <-(Hh Hi Hib)];
      rewrite (judged_has _ _ _ _ _ Hj) by done; rewrite bool_decide_eq_false_2 by set_solver;
      by rewrite andb_true_r. }
  unfold passes, fails, good, contents. by rewrite Ht, Hf, (judged_path _ _ _ _ _ Hj).
Qed.

Lemma judged_cons disk hashes b bs s s1 s2 :
  store_ok s → b ∉ bs → judged disk hashes [b] s s1 → judged disk hashes bs s1 s2 →
  judged disk hashes (b :: bs) s s2.
Proof.
  intros Hok Hnb H1 H2. destruct (judged_chunks _ _ _ _ _ Hok H1) as [Hc Hbl].
  split; [apply H2| | | |].
  - by rewrite (judged_path _ _ _ _ _ H2), (judged_path _ _ _ _ _ H1).
  - by rewrite (judged_size _ _ _ _ _ H2), (judged_size _ _ _ _ _ H1).
  - intros b' Hb'. rewrite (judged_trusted _ _ _ _ _ H2) by (by rewrite Hbl).
    rewrite (judged_trusted _ _ _ _ _ H1) by done. destruct (decide (b' = b)) as [->|Hne].
    + rewrite (bool_decide_eq_false_2 (b ∈ bs)) by done. rewrite !bool_decide_eq_true_2 by set_solver.
      by rewrite orb_false_r.
    + rewrite (bool_decide_eq_false_2 (b' ∈ [b])) by set_solver. simpl. rewrite orb_false_r.
      rewrite (proj1 (judged_other _ _ b s s1 b' Hok H1 Hb' Hne)). do 2 f_equal.
      apply bool_decide_ext. set_solver.
  - intros i Hi. rewrite (judged_has _ _ _ _ _ H2) by (by rewrite Hc).
    rewrite (judged_has _ _ _ _ _ H1) by done.
    pose proof (block_of_chunk_bound s Hok i Hi) as Hb'. destruct (decide (block_of_chunk i = b)) as [<-|Hne].
    + rewrite (bool_decide_eq_false_2 (_ ∈ bs)) by done. rewrite !bool_decide_eq_true_2 by set_solver.
      by rewrite andb_true_r.
    + rewrite (bool_decide_eq_false_2 (_ ∈ [b])) by set_solver. simpl. rewrite andb_true_r.
      rewrite (proj2 (judged_other _ _ b s s1 _ Hok H1 Hb' Hne)). do 3 f_equal.
      apply bool_decide_ext. set_solver.
Qed.

(** A block without a verdict, one that passes, one that fails. *)
Lemma judged_skip disk hashes b s :
  store_ok s → passes disk hashes s b = false → fails disk hashes s b = false →
  judged disk hashes [b] s s.
Proof.
  intros Hok Hp Hf. split; [done..| |]; [intros b'|intros i]; intros Hi; case_bool_decide as Hin;
    rewrite ?orb_false_r, ?andb_true_r; try done; apply list_elem_of_singleton in Hin; subst.
  - by rewrite Hp, orb_false_r.
  - rewrite Hf. simpl. by rewrite andb_true_r.
Qed.

Lemma judged_pass disk hashes b s :
  store_ok s → 0 ≤ b < cs_blocks s → passes disk hashes s b = true →
  judged disk hashes [b] s (set_verified s b).
Proof.
  intros Hok Hb Hp. pose proof (ok_verified _ Hok) as Hl.
  assert (fails disk hashes s b = false) as Hf.
  { unfold passes, fails in *. apply andb_true_iff in Hp as [_ ->]. apply andb_false_r. }
  split; [|done|done| |].
  - destruct Hok. split; simpl; [done..|]. by rewrite length_insert.
  - intros b' Hb'. unfold trusted. simpl. case_bool_decide as Hin.
    + apply list_elem_of_singleton in Hin as ->. rewrite list_lookup_insert_eq by lia.
      by rewrite Hp, orb_true_r.
    + rewrite list_lookup_insert_ne by set_solver by lia. by rewrite orb_false_r.
  - intros i Hi. case_bool_decide as Hin; [|by rewrite andb_true_r].
    apply list_elem_of_singleton in Hin as ->. rewrite Hf. by rewrite andb_true_r.
Qed.

Lemma judged_fail disk hashes b s :
  store_ok s → 0 ≤ b < cs_blocks s → fails disk hashes s b = true →
  ∃ w, fold_m unset (written s) (range_iter (chunks_in_block b (cs_chunks s))) = Some w ∧
    judged disk hashes [b] s (set_written s w).
Proof.
  intros Hok Hb Hf. pose proof (elem_of_chunks_in s Hok) as Hin.
  assert (passes disk hashes s b = false) as Hp.
  { unfold passes, fails in *. apply andb_true_iff in Hf as [_ ->%negb_true_iff]. apply andb_false_r. }
  destruct (unset_all (written s) _ (range_iter (chunks_in_block b (cs_chunks s)))
    (ok_chunk_bound _ Hok) (ok_written _ Hok)) as (w & Hw & Hv & Hbits).
  { intros i [? _]%Hin; [lia|done]. }
  exists w. split; [done|]. split; [|done|done| |].
  - destruct Hok. by split.
  - intros b' Hb'. unfold trusted. simpl. case_bool_decide as Hbb; [|by rewrite orb_false_r].
    apply list_elem_of_singleton in Hbb as ->. by rewrite Hp, orb_false_r.
  - intros i Hi. unfold has at 1. cbn [written set_written]. rewrite Hbits by lia. f_equal. f_equal.
    apply eq_true_iff_eq. rewrite andb_true_iff, !bool_decide_eq_true, Hin, list_elem_of_singleton by done.
    split; [intros [_ <-]; done|naive_solver].
Qed.

Definition passing disk hashes s (bs : list Z) : list Z :=
  filter (λ b, passes disk hashes s b = true) bs.
Definition failing disk hashes s (bs : list Z) : list Z :=
  filter (λ b, fails disk hashes s b = true) bs.

Lemma passing_other disk hashes b s s1 bs :
  store_ok s → judged disk hashes [b] s s1 → b ∉ bs → (∀ b', b' ∈ bs → 0 ≤ b' < cs_blocks s) →
  passing disk hashes s1 bs = passing disk hashes s bs ∧
  failing disk hashes s1 bs = failing disk hashes s bs.
Proof.
  intros Hok Hj Hb Hr.
  split; apply filter_ext_in; intros b' Hb'; apply (judged_other _ _ b); set_solver.
Qed.

(** What a pass over the blocks [bs] comes to: verdicts on a prefix of them,
    all of them unless a read failed. *)
Definition verify_result (io : StoreIo) disk hashes (bs : list Z) s (sum : VerifySummary)
    (s' : ChunkStore) (r : StoreError + VerifySummary) : Prop :=
  ∃ done rest, bs = done ++ rest ∧ judged disk hashes done s s' ∧
    match r with
    | inr sum' => rest = [] ∧
        newly_verified sum' = newly_verified sum + Z.of_nat (length (passing disk hashes s done)) ∧
        mismatched sum' = mismatched sum ++ failing disk hashes s done
    | inl e => ∃ b rest' e', rest = b :: rest' ∧ e = Sys e' ∧
        io_read io (b * ED2K_BLOCK_SIZE) = Some e'
    end.

Lemma verify_result_cons io disk hashes b bs s s1 sum sum1 s' r :
  store_ok s → b ∉ bs → (∀ b', b' ∈ b :: bs → 0 ≤ b' < cs_blocks s) →
  judged disk hashes [b] s s1 →
  newly_verified sum1 = newly_verified sum + Z.of_nat (length (passing disk hashes s [b])) →
  mismatched sum1 = mismatched sum ++ failing disk hashes s [b] →
  verify_result io disk hashes bs s1 sum1 s' r →
  verify_result io disk hashes (b :: bs) s sum s' r.
Proof.
  intros Hok Hb Hr Hj Hnew Hmis (done & rest & -> & Hj' & Hres).
  exists (b :: done), rest. split; [done|]. split; [eapply judged_cons; set_solver|].
  destruct r as [e|sum']; [done|]. destruct Hres as (-> & Hn' & Hm').
  destruct (passing_other disk hashes b s s1 done Hok Hj) as [Hp Hf]; [set_solver|set_solver|].
  change (b :: done) with ([b] ++ done). unfold passing, failing in *.
  rewrite !filter_app, length_app, Hn', Hm', Hp, Hf, Hnew, Hmis, <-app_assoc.
  split_and!; [done|lia|done].
Qed.

Lemma verify_loop_spec io disk hashes bs s sum :
  store_ok s → on_disk disk s → NoDup bs → (∀ b, b ∈ bs → 0 ≤ b < cs_blocks s) →
  Z.of_nat (length hashes) = cs_blocks s →
  ∃ s' r, verify_loop io disk hashes bs s sum = Some (s', r) ∧
    verify_result io disk hashes bs s sum s' r.
Proof.
  revert s sum. induction bs as [|b bs IH]; intros s sum Hok Hd Hnd Hr Hh.
  { exists s, (inr sum). split; [done|]. exists [], []. split_and!; [done|by apply judged_nil|done|..].
    - simpl. lia.
    - by rewrite app_nil_r. }
  apply NoDup_cons in Hnd as [Hb Hnd]. assert (0 ≤ b < cs_blocks s) as Hbr by (apply Hr; by left).
  assert (∀ s1 sum1, judged disk hashes [b] s s1 →
    newly_verified sum1 = newly_verified sum + Z.of_nat (length (passing disk hashes s [b])) →
    mismatched sum1 = mismatched sum ++ failing disk hashes s [b] →
    ∃ s' r, verify_loop io disk hashes bs s1 sum1 = Some (s', r) ∧
      verify_result io disk hashes (b :: bs) s sum s' r) as Hnext.
  { intros s1 sum1 Hj Hn Hm. destruct (judged_chunks _ _ _ _ _ Hok Hj) as [_ Hbl].
    destruct (IH s1 sum1) as (s' & r & Hv & Hres); [apply Hj| |done|..].
    - unfold on_disk, contents. rewrite (judged_size _ _ _ _ _ Hj), (judged_path _ _ _ _ _ Hj). apply Hd.
    - rewrite Hbl. set_solver.
    - by rewrite Hbl.
    - exists s', r. split; [done|]. by eapply verify_result_cons. }
  assert (∀ c, passes disk hashes s b = false → fails disk hashes s b = c →
    passing disk hashes s [b] = [] ∧ failing disk hashes s [b] = if c then [b] else []) as Hpf.
  { intros c Hp Hf. unfold passing, failing. rewrite !filter_cons, Hp, Hf. by destruct c. }
  cbn [verify_loop]. change (verified s !! Z.to_nat b) with (block_verified s b).
  rewrite (block_verified_spec s Hok b Hbr). cbn [mbind option_bind].
  destruct (trusted s b) eqn:Ht.
  { assert (passes disk hashes s b = false ∧ fails disk hashes s b = false) as [Hp Hf]
      by (unfold passes, fails; by rewrite Ht).
    destruct (Hpf false Hp Hf) as [Hp' Hf']. apply Hnext; [by apply judged_skip|..].
    - rewrite Hp'. simpl. lia.
    - by rewrite Hf', app_nil_r. }
  rewrite (full_spec s Hok b Hbr). cbn [mbind option_bind].
  destruct (full s b) eqn:Hfull; cbn [negb].
  2: { assert (passes disk hashes s b = false ∧ fails disk hashes s b = false) as [Hp Hf]
      by (unfold passes, fails; by rewrite Ht, Hfull).
    destruct (Hpf false Hp Hf) as [Hp' Hf']. apply Hnext; [by apply judged_skip|..].
    - rewrite Hp'. simpl. lia.
    - by rewrite Hf', app_nil_r. }
  rewrite (read_block io disk s b Hok Hd Hbr). destruct (io_read io _) as [e|] eqn:He.
  { exists s, (inl (Sys e)). split; [done|]. exists [], (b :: bs).
    split_and!; [done|by apply judged_nil|]. by exists b, bs, e. }
  destruct (lookup_lt_is_Some_2 hashes (Z.to_nat b)) as [h Hhb]; [lia|].
  rewrite Hhb. cbn [mbind option_bind].
  assert (good disk hashes s b =
    bool_decide (block_hash (block_of (contents disk s) (Z.to_nat b)) = h)) as Hg.
  { unfold good. rewrite Hhb. apply bool_decide_ext. naive_solver. }
  destruct (decide _) as [Heq|Hne].
  - rewrite bool_decide_eq_true_2 in Hg by done.
    assert (passes disk hashes s b = true) as Hp by (unfold passes; by rewrite Ht, Hfull, Hg).
    assert (fails disk hashes s b = false) as Hf by (unfold fails; by rewrite Ht, Hfull, Hg).
    apply Hnext; [by apply judged_pass|..]; unfold passing, failing; rewrite filter_cons, ?Hp, ?Hf; simpl.
    + done.
    + by rewrite app_nil_r.
  - rewrite bool_decide_eq_false_2 in Hg by done.
    assert (passes disk hashes s b = false) as Hp by (unfold passes; by rewrite Ht, Hfull, Hg).
    assert (fails disk hashes s b = true) as Hf by (unfold fails; by rewrite Ht, Hfull, Hg).
    destruct (judged_fail disk hashes b s Hok Hbr Hf) as (w & -> & Hj). cbn [mbind option_bind].
    destruct (Hpf true Hp Hf) as [Hp' Hf']. apply Hnext; [done|..].
    + rewrite Hp'. simpl. lia.
    + by rewrite Hf'.
Qed.

Lemma verify_spec io disk s hashes :
  store_ok s → on_disk disk s → Z.of_nat (length hashes) = cs_blocks s →
  ∃ s' r, verify io disk s hashes = Some (s', r) ∧
    verify_result io disk hashes (seqZ 0 (cs_blocks s)) s empty_summary s' r.
Proof.
  intros Hok Hd Hh. apply verify_loop_spec; [done..| | |done].
  - apply NoDup_seqZ.
  - intros b Hb%elem_of_seqZ. lia.
Qed.
End judge.

(** ** Trust *)

Section trust.
Context `{Digest H}.

(** Every trusted block is on disk and hashes to its entry of the list. *)
Definition trust_ok (disk : Disk) (hashes : list Ed2kBlockHash) (s : ChunkStore) : Prop :=
  ∀ b, 0 ≤ b < cs_blocks s → trusted s b = true → full s b = true ∧ good disk hashes s b = true.

Lemma trust_ok_none disk hashes s : (∀ b, trusted s b = false) → trust_ok disk hashes s.
Proof. intros Ht b _. by rewrite Ht. Qed.

Lemma judged_on_disk disk hashes bs s s' : judged disk hashes bs s s' → on_disk disk s → on_disk disk s'.
Proof. intros [_ Hp Hs _ _]. unfold on_disk, contents. by rewrite Hp, Hs. Qed.

Lemma judged_trust disk hashes bs s s' :
  store_ok s → judged disk hashes bs s s' → trust_ok disk hashes s → trust_ok disk hashes s'.
Proof.
  intros Hok Hj Ht b Hb Htr. destruct (judged_chunks _ _ _ _ _ Hok Hj) as [Hc Hbl]. rewrite Hbl in Hb.
  rewrite (judged_trusted _ _ _ _ _ Hj) in Htr by done.
  assert (full s b = true ∧ good disk hashes s b = true) as [Hf Hg].
  { destruct (trusted s b) eqn:E; [by apply Ht|]. simpl in Htr. unfold passes in Htr.
    by apply andb_true_iff in Htr as [_ [[_ ?]%andb_true_iff ?]%andb_true_iff]. }
  split; [|by unfold good, contents in *; rewrite (judged_path _ _ _ _ _ Hj)].
  apply full_iff; [apply Hj|by rewrite Hbl|]. intros i Hi Hib. rewrite Hc in Hi.
  rewrite (judged_has _ _ _ _ _ Hj), Hib by done.
  rewrite (proj1 (full_iff s Hok b Hb) Hf) by done. unfold fails. rewrite Hg. simpl.
  by rewrite !andb_false_r.
Qed.

(** The whole outcome of [write_chunk]. *)
Lemma write_chunk_spec io disk s index data :
  store_ok s → on_disk disk s → 0 ≤ index →
  ∃ disk' s' r, write_chunk io disk s index data = Some (disk', s', r) ∧
    store_ok s' ∧ on_disk disk' s' ∧ cs_path s' = cs_path s ∧ cs_size s' = cs_size s ∧
    (∀ p, p ≠ cs_path s → disk' !! p = disk !! p) ∧
    (∀ b, trusted s' b = trusted s b) ∧
    (∀ i, 0 ≤ i → has s' i = has s i || accepted r && (i =? index)) ∧
    (∀ b, b ≠ Z.to_nat (block_of_chunk index) ∨ cs_chunks s ≤ index →
       block_of (contents disk' s) b = block_of (contents disk s) b) ∧
    (accepted r = true → index < cs_chunks s ∧
       let '(st, e) := chunk_range index (cs_size s) in
       take (Z.to_nat (e - st)) (drop (Z.to_nat st) (contents disk' s)) = data).
Proof.
  intros Hok Hd Hi. unfold write_chunk. set (range := chunk_range index (cs_size s)).
  destruct (_ || _) eqn:Eg.
  { exists disk, s, (inl InvalidInput). split_and!; try done. intros i _. by rewrite orb_false_r. }
  apply orb_false_iff in Eg as [Hlt%Z.leb_gt Hlen%negb_false_iff%Z.eqb_eq].
  pose proof (chunk_range_spec index _ (ok_size _ Hok)) as Hr.
  rewrite <-(ok_chunks _ Hok) in Hr. specialize (Hr ltac:(lia)). fold range in Hr.
  destruct range as [st e] eqn:Er. cbn [fst snd] in *. destruct Hr as (Hst & He & Hblo & Hbhi).
  assert (Z.of_nat (length (contents disk s)) = cs_size s) as Hsz by (apply Hd; lia).
  set (put data := <[cs_path s := write_at (contents disk s) (Z.to_nat st) data]> disk).
  assert (∀ d, (length d ≤ length data)%nat →
    contents (put d) s = write_at (contents disk s) (Z.to_nat st) d ∧
    length (contents (put d) s) = length (contents disk s) ∧
    (∀ p, p ≠ cs_path s → put d !! p = disk !! p) ∧
    ∀ b, b ≠ Z.to_nat (block_of_chunk index) ∨ cs_chunks s ≤ index →
      block_of (contents (put d) s) b = block_of (contents disk s) b) as Hput.
  { intros d Hdl. assert (contents (put d) s = write_at (contents disk s) (Z.to_nat st) d) as Hc
      by (unfold contents at 1; subst put; cbv beta; by rewrite lookup_insert_eq).
    rewrite Hc. split_and!; [done|apply length_write_at; lia| |].
    - intros p Hp. subst put. cbv beta. by rewrite lookup_insert_ne.
    - intros b [Hb|]; [|lia]. unfold block_of. apply write_at_keeps; [lia|].
      assert (0 < ED2K_BLOCK_SIZE) by done.
      destruct (decide (Z.of_nat b < block_of_chunk index)) as [Hlo|Hhi]; [left|right]; nia. }
  destruct (io_write io) as [[n er]|].
  - destruct (Hput (take n data)) as (Hc & Hl & Ho & Hbl); [rewrite length_take; lia|].
    eexists _, s, _. split; [done|]. split_and!; try done.
    + intros Hpos. trans (Z.of_nat (length (contents disk s))); [f_equal; exact Hl|exact Hsz].
    + intros i _. by rewrite orb_false_r.
  - destruct (Hput data) as (Hc & Hl & Ho & Hbl); [done|].
    destruct (set_valid (written s) _ (ok_chunk_bound _ Hok) (ok_written _ Hok) index Hi)
      as (w & -> & Hv & Hbits). cbn [mbind option_bind].
    eexists _, _, _. split; [done|]. split_and!; try done.
    + destruct Hok. by split.
    + intros Hpos. trans (Z.of_nat (length (contents disk s))); [f_equal; exact Hl|exact Hsz].
    + intros i Hi'. unfold has at 1. cbn [written]. rewrite Hbits by done. f_equal.
      rewrite (proj2 (Z.ltb_lt _ _)) by lia. by rewrite andb_true_r.
    + intros _. split; [done|]. change (contents _ s) with (contents (put data) s).
      rewrite Hc, write_at_inside by lia.
      rewrite drop_app_length' by (rewrite length_take; lia). apply take_app_length'. lia.
Qed.

Lemma write_chunk_trust io disk s index data disk' s' r hashes :
  store_ok s → on_disk disk s → 0 ≤ index → has s index = false →
  write_chunk io disk s index data = Some (disk', s', r) →
  trust_ok disk hashes s → trust_ok disk' hashes s'.
Proof.
  intros Hok Hd Hi Hnew Hw Ht b Hb Htr.
  destruct (write_chunk_spec io disk s index data Hok Hd Hi)
    as (disk1 & s1 & r1 & Hw1 & Hok1 & _ & Hp & Hs & _ & Ht1 & Hh1 & Hbl & _).
  rewrite Hw in Hw1. simplify_eq.
  assert (cs_chunks s1 = cs_chunks s ∧ cs_blocks s1 = cs_blocks s) as [Hc Hbc]
    by (by rewrite (ok_chunks _ Hok1), (ok_blocks _ Hok1), (ok_chunks _ Hok), (ok_blocks _ Hok), Hs).
  rewrite Hbc in Hb. rewrite Ht1 in Htr. destruct (Ht b Hb Htr) as [Hf Hg]. split.
  - apply full_iff; [done|by rewrite Hbc|]. intros i Hi' Hib. rewrite Hc in Hi'.
    rewrite Hh1 by lia. by rewrite (proj1 (full_iff s Hok b Hb) Hf).
  - unfold good, contents in *. rewrite Hp. fold (contents disk1 s) (contents disk s) in *.
    rewrite Hbl; [done|]. destruct (decide (index < cs_chunks s)) as [Hlt|]; [left|right; lia].
    intros Heq. assert (block_of_chunk index = b) as Hib.
    { pose proof (block_of_chunk_bound s Hok index). lia. }
    rewrite (proj1 (full_iff s Hok b Hb) Hf index) in Hnew by (done || lia). done.
Qed.
End trust.

(** ** The finished file *)

Lemma block_hash_md4 `{DigestLaws H md4} bs : block_hash bs = mkEd2kBlockHash (md4 bs).
Proof.
  unfold block_hash. f_equal. apply finalize_spec. apply (absorbed_update _ []), absorbed_new.
Qed.

Lemma cut_exists `{DigestLaws H md4} (data : list Z) :
  data ≠ [] → Z.of_nat (length data) < u64_modulus → ∃ full tail, cut data full tail.
Proof.
  intros Hne Hlt.
  destruct (hash_loop_inv hash_start [data] [] [] hash_start_inv eq_refl) as (s & _ & Hinv & _).
  - by constructor.
  - simpl. by rewrite app_nil_r.
  - simpl in Hinv. rewrite app_nil_r in Hinv. destruct Hinv as (f & t & Hc & _). by exists f, t.
Qed.

Lemma hashed_blocks `{DigestLaws H md4} disk hashes s :
  store_ok s → on_disk disk s → 0 < cs_blocks s → Z.of_nat (length hashes) = cs_blocks s →
  (∀ b, 0 ≤ b < cs_blocks s → good disk hashes s b = true) →
  hashes = mkEd2kBlockHash ∘ md4 <$> split_blocks (contents disk s).
Proof.
  intros Hok Hd Hpos Hl Hg. pose proof (ok_size _ Hok) as Hs.
  pose proof (block_count_spec _ Hs) as [Hbc Hbs]. rewrite <-(ok_blocks _ Hok) in *.
  assert (0 < ED2K_BLOCK_SIZE) by done. assert (0 < cs_size s) as Hsz by nia.
  assert (Z.to_nat (Z.max 1 (div_ceil (Z.of_nat (length (contents disk s))) ED2K_BLOCK_SIZE)) =
    Z.to_nat (cs_blocks s)) as Hn.
  { rewrite (Hd Hsz). unfold div_ceil. change ED2K_BLOCK_SIZE with 9728000 in *.
    destruct (Z.eqb_spec (cs_size s mod 9728000) 0); Z.to_euclidean_division_equations; lia. }
  unfold split_blocks. rewrite Hn. apply list_eq. intros i. rewrite !list_lookup_fmap.
  destruct (decide (i < Z.to_nat (cs_blocks s))%nat) as [Hi|Hi].
  - rewrite lookup_seq_lt by done. simpl. specialize (Hg (Z.of_nat i) ltac:(lia)).
    unfold good in Hg. rewrite Nat2Z.id in Hg. apply bool_decide_eq_true in Hg as ->.
    by rewrite block_hash_md4.
  - rewrite lookup_seq_ge by lia. simpl. apply lookup_ge_None. lia.
Qed.

Lemma complete_store_hash `{DigestLaws H md4} disk hashes s root :
  store_ok s → on_disk disk s → trust_ok disk hashes s → store_complete s = true →
  Z.of_nat (length hashes) < u32_modulus → block_hashes_match s root hashes = true →
  ed2k_hash_bytes (contents disk s) = Some (inr (mkEd2kFileHash root hashes (cs_size s))).
Proof.
  intros Hok Hd Ht [Hpos Hall]%complete_iff Hl Hm; [|done].
  apply andb_true_iff in Hm as [Hlen%Z.eqb_eq Hroot%bool_decide_eq_true].
  unfold u32_wrap in Hlen. rewrite Z.mod_small in Hlen by lia.
  pose proof (hashed_blocks disk hashes s Hok Hd Hpos Hlen) as Hh.
  specialize (Hh (λ b Hb, proj2 (Ht b Hb (Hall b Hb)))).
  pose proof (block_count_spec _ (ok_size _ Hok)) as [Hbc Hbs]. rewrite <-(ok_blocks _ Hok) in *.
  assert (0 < ED2K_BLOCK_SIZE) by done. assert (0 < cs_size s) as Hsz by nia.
  specialize (Hd Hsz). set (data := contents disk s) in *.
  assert (Z.of_nat (length data) < u64_modulus) as Hu.
  { rewrite Hd. pose proof (ok_size _ Hok) as Hs. unfold MAX_SIZE, u32_modulus, u64_modulus in *.
    change CHUNK_SIZE with 256000 in *. change CPB with 38 in *. lia. }
  assert (data ≠ []) as Hne by (intros Hz; rewrite Hz in Hd; simpl in Hd; lia).
  destruct (cut_exists data Hne Hu) as (f & t & Hcut).
  destruct (slice_reads_spec (length data) data ltac:(done)) as (cs & Hcs & Hcne & Hconc).
  unfold ed2k_hash_bytes. rewrite Hcs, (ed2k_hash_reader_spec cs Hcne) by by rewrite Hconc.
  rewrite Hconc, <-Hh, Hd. do 3 f_equal. rewrite <-Hroot, Hh, <-Hd. symmetry. by eapply root_of_split.
Qed.

(** ** Opening *)

Lemma create_spec io disk path size :
  0 ≤ size ≤ MAX_SIZE →
  ∃ disk' r, create io disk path size = Some (disk', r) ∧
    (∀ p, p ≠ path → disk' !! p = disk !! p) ∧
    ∀ s, r = inr s → store_ok s ∧ on_disk disk' s ∧ cs_path s = path ∧ cs_size s = size ∧
      ∀ b, trusted s b = false.
Proof.
  intros Hs. unfold create. destruct (with_file_spec path size false Hs)
    as (s & -> & Hok & Hp & Hsz & _ & Ht). cbn [mbind option_bind].
  destruct (io_create io); eexists _, _; (split; [done|]);
    (split; [intros p Hne; by rewrite ?lookup_insert_ne|]); intros s' Hs'; simplify_eq.
  split_and!; [done| |done..]. intros _. unfold contents. rewrite lookup_insert_eq. simpl.
  rewrite length_replicate. lia.
Qed.

Lemma open_spec io disk path size :
  0 ≤ size ≤ MAX_SIZE →
  ∃ disk' r, open io disk path size = Some (disk', r) ∧
    (∀ p, p ≠ path → disk' !! p = disk !! p) ∧
    ∀ s, r = inr s → store_ok s ∧ on_disk disk' s ∧ cs_path s = path ∧ cs_size s = size ∧
      ∀ b, trusted s b = false.
Proof.
  intros Hs. unfold open. destruct (disk !! path) as [bytes|] eqn:Hd; [|by apply create_spec].
  destruct (_ && _) eqn:E; [|by apply create_spec].
  apply andb_true_iff in E as [_ Hlen%Z.eqb_eq].
  destruct (with_file_spec path size true Hs) as (s & -> & Hok & Hp & Hsz & _ & Ht).
  eexists _, _. split; [done|]. split; [done|]. intros s' Hs'; simplify_eq.
  split_and!; [done| |done..]. intros Hpos. unfold contents. rewrite Hd. simpl.
  destruct (io_metadata io); [done|lia].
Qed.

(** ** Progress *)

Lemma sum_app (l k : list Z) : foldr Z.add 0 (l ++ k) = foldr Z.add 0 l + foldr Z.add 0 k.
Proof. induction l as [|x l IH]; simpl; [done|]. rewrite IH. lia. Qed.

Lemma sum_filter (w : Z → Z) (f : Z → bool) l :
  (∀ b, b ∈ l → 0 < w b) →
  let part := foldr Z.add 0 (w <$> filter (λ b, f b = true) l) in
  let total := foldr Z.add 0 (w <$> l) in
  0 ≤ part ≤ total ∧ (part = total ↔ ∀ b, b ∈ l → f b = true).
Proof.
  induction l as [|b l IH]; intros Hw; [set_solver|].
  destruct IH as [Hle Hiff]; [set_solver|]. specialize (Hw b ltac:(left)).
  cbn zeta. rewrite filter_cons. destruct (f b) eqn:Hf.
  - rewrite decide_True by done. rewrite !fmap_cons. cbn [foldr].
    split; [lia|]. rewrite <-(Z.add_cancel_l _ _ (w b)) in Hiff. rewrite Hiff. set_solver.
  - rewrite decide_False by done. rewrite !fmap_cons. cbn [foldr]. split; [lia|]. split; [lia|].
    intros Hall. specialize (Hall b ltac:(left)). congruence.
Qed.

Lemma sum_block_sizes s n :
  store_ok s → 0 ≤ n ≤ cs_blocks s →
  foldr Z.add 0 (block_size s <$> seqZ 0 n) = Z.min (n * ED2K_BLOCK_SIZE) (cs_size s).
Proof.
  intros Hok [Hn Hb]. pose proof (ok_size _ Hok). assert (0 < ED2K_BLOCK_SIZE) by done.
  pose proof (block_count_spec _ (ok_size _ Hok)) as [_ Hbs]. rewrite <-(ok_blocks _ Hok) in Hbs.
  revert n Hn Hb. apply (natlike_ind (λ n, n ≤ cs_blocks s → _)).
  { intros _. simpl. lia. }
  intros n Hn IH Hb. unfold Z.succ. rewrite seqZ_app, fmap_app, sum_app, IH by lia.
  rewrite (seqZ_cons (0 + n) 1) by lia. simpl. unfold block_size. simpl. nia.
Qed.

Lemma progress_spec s :
  store_ok s → 0 < cs_blocks s →
  let bytes := foldr Z.add 0 (block_size s <$>
    filter (λ b, trusted s b = true) (seqZ 0 (cs_blocks s))) in
  0 ≤ bytes ≤ cs_size s ∧ 0 < cs_size s ∧
  progress_bps s = Some (bytes * 10000 / cs_size s) ∧
  (bytes = cs_size s ↔ ∀ b, 0 ≤ b < cs_blocks s → trusted s b = true).
Proof.
  intros Hok Hpos bytes. pose proof (ok_size _ Hok) as Hsz. assert (0 < ED2K_BLOCK_SIZE) by done.
  pose proof (block_count_spec _ Hsz) as [_ Hbs]. rewrite <-(ok_blocks _ Hok) in Hbs.
  assert (0 < cs_size s) as Hs0 by nia.
  destruct (sum_filter (block_size s) (trusted s) (seqZ 0 (cs_blocks s))) as [Hle Hiff].
  { intros b Hb%elem_of_seqZ. unfold block_size. simpl. nia. }
  rewrite sum_block_sizes in Hle, Hiff by (done || lia). rewrite Z.min_r in Hle, Hiff by lia.
  fold bytes in Hle, Hiff. split_and!; [lia|lia|done| |].
  - unfold progress_bps. rewrite (proj2 (Z.eqb_neq _ _)) by lia.
    rewrite (filter_m_total _ (trusted s))
      by (intros b Hb%elem_of_seqZ; apply block_verified_spec; [done|lia]).
    cbn [mbind option_bind]. fold bytes. unfold u64_saturating_mul.
    assert (cs_size s * 10000 < u64_modulus) as Hsat.
    { unfold MAX_SIZE, u32_modulus, u64_modulus in *. change CHUNK_SIZE with 256000 in *.
      change CPB with 38 in *. lia. }
    unfold u64_max. rewrite Z.min_l, Z.max_l by lia. f_equal. apply Z.mod_small.
    split; [apply Z.div_pos; lia|]. apply Z.div_lt_upper_bound; lia.
  - rewrite Hiff. split; intros Hall b; [|intros Hb%elem_of_seqZ; apply Hall; lia].
    intros Hb. apply Hall. apply elem_of_seqZ. lia.
Qed.

Lemma playable_spec s play_chunk :
  store_ok s → 0 ≤ play_chunk < u32_modulus →
  ∃ p, playable_from s play_chunk = Some p ∧
    (p = true ↔ ∀ i, play_chunk ≤ i < play_chunk + cs_chunks s / PLAYABLE_WINDOW_FRAC + 1 →
       i < cs_chunks s → trusted s (block_of_chunk i) = true).
Proof.
  intros Hok Hp. pose proof (ok_chunk_bound s Hok) as Hc. unfold playable_from.
  assert (0 ≤ cs_chunks s / PLAYABLE_WINDOW_FRAC < u32_modulus - 1) as Hw.
  { unfold PLAYABLE_WINDOW_FRAC, u32_modulus in *. Z.to_euclidean_division_equations; lia. }
  set (start := Z.min play_chunk (cs_chunks s)). set (stop := Z.min (u32_saturating_add _ _) _).
  assert (start = Z.min play_chunk (cs_chunks s) ∧
    stop = Z.min (play_chunk + cs_chunks s / PLAYABLE_WINDOW_FRAC + 1) (cs_chunks s)) as [Hst Hsp].
  { split; [done|]. unfold stop, u32_saturating_add, u32_wrap. rewrite Z.mod_small; lia. }
  rewrite (all_m_total _ (λ i, trusted s (block_of_chunk i))).
  - eexists. split; [done|]. rewrite forallb_forall. split; intros Hall i.
    + intros Hi Hic. apply Hall, list_elem_of_In, elem_of_range_iter. simpl. lia.
    + intros Hi%list_elem_of_In%elem_of_range_iter. simpl in Hi. apply Hall; lia.
  - intros i Hi%elem_of_range_iter. simpl in Hi. apply chunk_verified_spec; [done|lia].
Qed.

(** ** Statements *)

(** [verify] never panics. A pass judges exactly the blocks that are wholly on
    disk and not yet trusted: a block whose bytes hash to its entry becomes
    trusted, the chunks of any other are cleared for re-fetch, and the summary
    counts the ones and lists the others; nothing else changes. If a read fails,
    the blocks before it have been judged and the rest is as it was. *)
Theorem verify_judges_blocks `{Digest H} io disk s hashes :
  store_ok s → on_disk disk s → Z.of_nat (length hashes) = cs_blocks s →
  let all := seqZ 0 (cs_blocks s) in
  (∃ s' r done, verify io disk s hashes = Some (s', r) ∧ done `prefix_of` all ∧
     judged disk hashes done s s' ∧ (accepted r = true → done = all)) ∧
  ((∀ off, io_read io off = None) →
   ∃ s', verify io disk s hashes = Some (s', inr (mkVerifySummary
       (Z.of_nat (length (passing disk hashes s all))) (failing disk hashes s all))) ∧
     (∀ b, 0 ≤ b < cs_blocks s →
        trusted s' b = trusted s b || (full s b && good disk hashes s b)) ∧
     (∀ i, 0 ≤ i < cs_chunks s →
        has s' i = has s i && negb (fails disk hashes s (block_of_chunk i)))).
Proof.
  intros Hok Hd Hh all. destruct (verify_spec io disk s hashes Hok Hd Hh)
    as (s' & r & Hv & done & rest & Hall & Hj & Hr). fold all in Hall. split.
  - exists s', r, done. split_and!; [done|by exists rest|done|]. intros Ha.
    destruct r as [|sum']; [done|]. destruct Hr as [-> _]. by rewrite app_nil_r in Hall.
  - intros Hio. destruct r as [e|[n m]].
    { destruct Hr as (b & ? & e' & _ & _ & He). by rewrite Hio in He. }
    destruct Hr as (-> & Hn & Hm). rewrite app_nil_r in Hall. subst done.
    exists s'. cbn [newly_verified mismatched empty_summary] in *. rewrite Z.add_0_l in Hn.
    rewrite app_nil_l in Hm. subst n m. split_and!; [done|intros b Hb|intros i Hi].
    + rewrite (judged_trusted _ _ _ _ _ Hj) by done.
      rewrite bool_decide_eq_true_2 by (apply elem_of_seqZ; lia). unfold passes. simpl.
      by destruct (trusted s b).
    + rewrite (judged_has _ _ _ _ _ Hj) by done. pose proof (block_of_chunk_bound s Hok i Hi).
      by rewrite bool_decide_eq_true_2 by (apply elem_of_seqZ; lia).
Qed.

Definition ex_store : ChunkStore := mkChunkStore "f" 3 1 1 (mkBitfield [1] 1) [false].
Definition ex_disk : Disk := {["f" := [1; 2; 3]]}.
Lemma ex_store_ok : store_ok ex_store.
Proof.
  split; [|reflexivity|reflexivity| |reflexivity].
  - unfold MAX_SIZE, u32_modulus. change CHUNK_SIZE with 256000. change CPB with 38. simpl. lia.
  - apply is_valid_for_iff; [simpl; lia| |reflexivity]. repeat constructor; unfold is_byte; lia.
Qed.

Lemma verify_judges_blocks_witness :
  verify io_fine ex_disk ex_store [mkEd2kBlockHash [3; 13]] =
    Some (set_verified ex_store 0, inr (mkVerifySummary 1 [])) ∧
  verify io_fine ex_disk ex_store [mkEd2kBlockHash [3; 14]] =
    Some (set_written ex_store (mkBitfield [0] 1), inr (mkVerifySummary 0 [0])) ∧
  ∃ s', verify io_fine ex_disk ex_store [mkEd2kBlockHash [3; 13]] = Some (s', inr (mkVerifySummary
      (Z.of_nat (length (passing ex_disk [mkEd2kBlockHash [3; 13]] ex_store (seqZ 0 1))))
      (failing ex_disk [mkEd2kBlockHash [3; 13]] ex_store (seqZ 0 1)))).
Proof.
  split; [vm_compute; reflexivity|]. split; [vm_compute; reflexivity|].
  destruct (verify_judges_blocks io_fine ex_disk ex_store [mkEd2kBlockHash [3; 13]])
    as [_ Hv]; [exact ex_store_ok|intros _; vm_compute; reflexivity|reflexivity|].
  destruct Hv as (s' & Hv & _); [done|]. exists s'. exact Hv.
Defined.

(** The figures and chunk sets derived from a store are exact: progress is the
    verified share of the bytes, at most 10,000 and 10,000 exactly when the
    store is complete; needed are the chunks neither on disk nor trusted,
    advertised those of trusted blocks; playable means trusted from the anchor
    through a fifth of the file, or to its end. *)
Theorem store_reports_exact s play_chunk :
  store_ok s → 0 < cs_blocks s → 0 ≤ play_chunk < u32_modulus →
  (∃ p, progress_bps s = Some p ∧ 0 ≤ p ≤ 10000 ∧ (p = 10000 ↔ store_complete s = true) ∧
     p = foldr Z.add 0 (block_size s <$> filter (λ b, trusted s b = true) (seqZ 0 (cs_blocks s)))
         * 10000 / cs_size s) ∧
  (∃ l, needed_chunks s = Some l ∧ NoDup l ∧
     ∀ i, i ∈ l ↔ 0 ≤ i < cs_chunks s ∧ has s i = false ∧ trusted s (block_of_chunk i) = false) ∧
  (∃ bf, available s = Some bf ∧
     ∀ i, 0 ≤ i → get bf i = Some ((i <? cs_chunks s) && trusted s (block_of_chunk i))) ∧
  (∃ p, playable_from s play_chunk = Some p ∧
     (p = true ↔ ∀ i, play_chunk ≤ i < play_chunk + cs_chunks s / PLAYABLE_WINDOW_FRAC + 1 →
        i < cs_chunks s → trusted s (block_of_chunk i) = true)) ∧
  (store_complete s = true → playable_from s play_chunk = Some true).
Proof.
  intros Hok Hpos Hpc. destruct (progress_spec s Hok Hpos) as (Hb & Hsz & Hp & Hall).
  destruct (playable_spec s play_chunk Hok Hpc) as (p & Hpl & Hpiff). split_and!.
  - eexists. split; [done|]. split_and!; [by apply Z.div_pos; lia|apply Z.div_le_upper_bound; lia| |done].
    rewrite complete_iff by done. set (w := foldr _ _ _) in *. split.
    + intros Hw. split; [done|]. apply Hall. enough (cs_size s ≤ w) by lia.
      pose proof (Z.mul_div_le (w * 10000) (cs_size s) Hsz) as Hle. rewrite Hw in Hle. lia.
    + intros [_ ->%Hall]. rewrite Z.mul_comm. by apply Z.div_mul; lia.
  - eexists. split; [by apply needed_chunks_spec|]. split; [apply NoDup_filter, NoDup_seqZ|].
    intros i. rewrite list_elem_of_filter, elem_of_seqZ, andb_true_iff, !negb_true_iff. intuition lia.
  - destruct (available_spec s Hok) as (bf & Hbf & Hv & Hbits). exists bf. split; [done|].
    intros i Hi. rewrite (get_valid _ _ (ok_chunk_bound _ Hok) Hv) by done. by rewrite Hbits.
  - by exists p.
  - rewrite complete_iff by done. intros [_ Ht]. rewrite Hpl. f_equal. apply Hpiff.
    intros i Hi Hic. apply Ht. apply block_of_chunk_bound; [done|lia].
Qed.

Lemma store_reports_exact_witness :
  progress_bps ex_store = Some 0 ∧ progress_bps (set_verified ex_store 0) = Some 10000 ∧
  (store_complete ex_store = true → playable_from ex_store 0 = Some true).
Proof.
  split; [reflexivity|]. split; [reflexivity|].
  refine (proj2 (proj2 (proj2 (proj2 (store_reports_exact ex_store 0 ex_store_ok _ _)))));
    [reflexivity|split; reflexivity || discriminate].
Defined.

(** C30. Resume needs no sidecar: re-opening a file of the right size and verifying
    it against the hashes trusts exactly the blocks that are intact on disk,
    and asks again for exactly the chunks of the others. *)
Theorem resume_keeps_good_blocks `{Digest H} disk path size bytes hashes :
  0 ≤ size ≤ MAX_SIZE → disk !! path = Some bytes → Z.of_nat (length bytes) = size →
  Z.of_nat (length hashes) = block_count size →
  let good b := bool_decide (hashes !! Z.to_nat b = Some (block_hash (block_of bytes (Z.to_nat b)))) in
  ∃ s s' sum, open io_fine disk path size = Some (disk, inr s) ∧
    verify io_fine disk s hashes = Some (s', inr sum) ∧
    (∀ b, 0 ≤ b < block_count size → trusted s' b = good b) ∧
    (∀ i, 0 ≤ i < chunk_count size → has s' i = good (block_of_chunk i)) ∧
    (∃ l, needed_chunks s' = Some l ∧
       ∀ i, i ∈ l ↔ 0 ≤ i < chunk_count size ∧ good (block_of_chunk i) = false).
Proof.
  intros Hs Hd Hl Hh good. unfold open. rewrite Hd. cbn [io_fine io_open io_metadata].
  rewrite (proj2 (Z.eqb_eq _ _) Hl). cbn [andb].
  destruct (with_file_spec path size true Hs) as (s & -> & Hok & Hp & Hsz & Hhas & Ht).
  assert (contents disk s = bytes) as Hc by (unfold contents; by rewrite Hp, Hd).
  assert (cs_blocks s = block_count size) as Hbl by (by rewrite (ok_blocks _ Hok), Hsz).
  assert (cs_chunks s = chunk_count size) as Hch by (by rewrite (ok_chunks _ Hok), Hsz).
  destruct (verify_spec io_fine disk s hashes Hok) as (s' & r & Hv & done & rest & Hall & Hj & Hr);
    [intros _; by rewrite Hc, Hl|by rewrite Hbl|].
  destruct r as [e|sum].
  { by destruct Hr as (b & ? & e' & _ & _ & ?). }
  destruct Hr as (-> & _). rewrite app_nil_r in Hall. subst done.
  assert (∀ b, 0 ≤ b < cs_blocks s → full s b = true) as Hfull.
  { intros b Hb. apply full_iff; [done..|]. intros i Hi _. rewrite Hhas by lia. simpl. lia. }
  assert (∀ b, ChunkStore.good disk hashes s b = good b) as Hg.
  { intros b. unfold ChunkStore.good. by rewrite Hc. }
  destruct (judged_chunks _ _ _ _ _ Hok Hj) as [Hch' Hbl'].
  assert (∀ b, 0 ≤ b < cs_blocks s → trusted s' b = good b) as Htr.
  { intros b Hb. rewrite (judged_trusted _ _ _ _ _ Hj), Ht by done.
    rewrite bool_decide_eq_true_2 by (apply elem_of_seqZ; lia). unfold passes.
    by rewrite Ht, Hfull, Hg. }
  assert (∀ i, 0 ≤ i < cs_chunks s → has s' i = good (block_of_chunk i)) as Hhs.
  { intros i Hi. pose proof (block_of_chunk_bound s Hok i Hi) as Hb.
    rewrite (judged_has _ _ _ _ _ Hj), Hhas by (done || lia). rewrite (proj2 (Z.ltb_lt _ _)) by lia.
    rewrite bool_decide_eq_true_2 by (apply elem_of_seqZ; lia). unfold fails.
    rewrite Ht, Hfull, Hg by done. simpl. by rewrite negb_involutive. }
  exists s, s', sum. rewrite <-Hbl, <-Hch. split_and!; [done..|].
  eexists. split; [by apply needed_chunks_spec, Hj|]. intros i.
  rewrite list_elem_of_filter, elem_of_seqZ, Hch', andb_true_iff, !negb_true_iff.
  split; intros Hi.
  - rewrite <-Hhs by lia. intuition lia.
  - pose proof (block_of_chunk_bound s Hok i). rewrite Hhs, Htr by lia. intuition lia.
Qed.

Lemma resume_keeps_good_blocks_witness :
  (∃ s', (open io_fine ex_disk "f" 3 ≫= λ r, match r with
     | (d, inr s) => verify io_fine d s [mkEd2kBlockHash [3; 13]] | _ => None end) =
     Some (s', inr (mkVerifySummary 1 [])) ∧ store_complete s' = true) ∧
  ∃ s s' sum, open io_fine ex_disk "f" 3 = Some (ex_disk, inr s) ∧
    verify io_fine ex_disk s [mkEd2kBlockHash [3; 13]] = Some (s', inr sum).
Proof.
  split; [eexists; split; [vm_compute; reflexivity|reflexivity]|].
  destruct (resume_keeps_good_blocks ex_disk "f" 3 [1; 2; 3] [mkEd2kBlockHash [3; 13]])
    as (s & s' & sum & Ho & Hv & _).
  - unfold MAX_SIZE, u32_modulus. change CHUNK_SIZE with 256000. change CPB with 38. lia.
  - reflexivity.
  - reflexivity.
  - reflexivity.
  - exists s, s', sum. split; [exact Ho|exact Hv].
Defined.
