(* ===== verification/Download.v ===== *)
(** * The download scheduler (dessplay/src/download.rs)

    Which chunks to ask which peers for, and what to do with what they send:
    the coordinator is a function of the events it is given (peer messages, a
    clock tick, source-set updates) and answers with actions. All of its
    operations are here, over explicit state and an explicit disk ([ChunkStore]).
    A [HashMap] is a [gmap]; a loop over one visits the entries in [map_to_list]
    order, which stands for the unspecified one. *)

From S2P Require Import Prelude Types Framing Hash Transfer ChunkStore.

Record DownloadConfig := mkDownloadConfig {
  pipeline_depth : Z;
  max_sources : Z;
  snub_timeout_millis : Z;
  urgent_age_millis : Z
}.
Definition default_config : DownloadConfig := mkDownloadConfig 16 4 30000 5000.

Record TransferStats := mkTransferStats {
  bytes_received : Z;
  bytes_duplicate : Z;
  bytes_refetched : Z;
  chunks_requeued : Z
}.
Definition no_stats : TransferStats := mkTransferStats 0 0 0 0.

(** [goodput_bps], [retransmit_bps]. *)
Definition goodput_bps (t : TransferStats) (file_size : Z) : Z :=
  if bytes_received t =? 0 then 10000
  else u32_wrap (u64_saturating_mul (Z.min file_size (bytes_received t)) 10000 / bytes_received t).
Definition retransmit_bps (t : TransferStats) : Z :=
  if bytes_received t =? 0 then 0
  else u32_wrap (u64_saturating_mul (u64_saturating_add (bytes_duplicate t) (bytes_refetched t)) 10000
                 / bytes_received t).

(** The reason of an [Abandon] is the error the message quotes. *)
Inductive DownloadAction :=
| Send (to : PeerId) (message : PeerMessage)
| Progress (file : Ed2kHash) (progress_bps : Z) (playable : bool)
| Complete (file : Ed2kHash) (path : string) (block_hashes : list Ed2kBlockHash)
| Abandon (file : Ed2kHash) (reason : io_error).

Inductive BlockHashState := Pending | Have (hashes : list Ed2kBlockHash).

Record Source := mkSource {
  src_bitfield : Bitfield;
  in_flight : gset Z;
  last_progress : Z;
  solicited : bool;
  hashes_replied : bool;
  solicit_attempts : Z;
  dead_streams : Z;
  retry_at : Z
}.

Record Download := mkDownload {
  store : ChunkStore;
  d_root : Ed2kHash;
  d_size : Z;
  block_hashes : BlockHashState;
  sources : gmap PeerId Source;
  denied : gset PeerId;
  play_chunk : Z;
  first_requested : gmap Z Z;
  d_stats : TransferStats;
  last_progress_bps : Z;
  last_playable : bool
}.

Record Downloads := mkDownloads {
  config : DownloadConfig;
  files : gmap Ed2kHash Download;
  priority : gmap Ed2kHash Z;
  now_playing : option Ed2kHash
}.

(** ** Field updates *)

Definition set_bitfield (b : Bitfield) (s : Source) : Source :=
  mkSource b (in_flight s) (last_progress s) (solicited s) (hashes_replied s) (solicit_attempts s)
    (dead_streams s) (retry_at s).
Definition set_in_flight (f : gset Z) (s : Source) : Source :=
  mkSource (src_bitfield s) f (last_progress s) (solicited s) (hashes_replied s) (solicit_attempts s)
    (dead_streams s) (retry_at s).
Definition set_last_progress (t : Z) (s : Source) : Source :=
  mkSource (src_bitfield s) (in_flight s) t (solicited s) (hashes_replied s) (solicit_attempts s)
    (dead_streams s) (retry_at s).
Definition set_solicited (b : bool) (s : Source) : Source :=
  mkSource (src_bitfield s) (in_flight s) (last_progress s) b (hashes_replied s) (solicit_attempts s)
    (dead_streams s) (retry_at s).
Definition set_hashes_replied (b : bool) (s : Source) : Source :=
  mkSource (src_bitfield s) (in_flight s) (last_progress s) (solicited s) b (solicit_attempts s)
    (dead_streams s) (retry_at s).
Definition set_solicit_attempts (n : Z) (s : Source) : Source :=
  mkSource (src_bitfield s) (in_flight s) (last_progress s) (solicited s) (hashes_replied s) n
    (dead_streams s) (retry_at s).
Definition set_dead_streams (n : Z) (s : Source) : Source :=
  mkSource (src_bitfield s) (in_flight s) (last_progress s) (solicited s) (hashes_replied s)
    (solicit_attempts s) n (retry_at s).
Definition set_retry_at (t : Z) (s : Source) : Source :=
  mkSource (src_bitfield s) (in_flight s) (last_progress s) (solicited s) (hashes_replied s)
    (solicit_attempts s) (dead_streams s) t.

Definition set_store (c : ChunkStore) (d : Download) : Download :=
  mkDownload c (d_root d) (d_size d) (block_hashes d) (sources d) (denied d) (play_chunk d)
    (first_requested d) (d_stats d) (last_progress_bps d) (last_playable d).
Definition set_block_hashes (h : BlockHashState) (d : Download) : Download :=
  mkDownload (store d) (d_root d) (d_size d) h (sources d) (denied d) (play_chunk d)
    (first_requested d) (d_stats d) (last_progress_bps d) (last_playable d).
Definition set_srcs (m : gmap PeerId Source) (d : Download) : Download :=
  mkDownload (store d) (d_root d) (d_size d) (block_hashes d) m (denied d) (play_chunk d)
    (first_requested d) (d_stats d) (last_progress_bps d) (last_playable d).
Definition set_denied (s : gset PeerId) (d : Download) : Download :=
  mkDownload (store d) (d_root d) (d_size d) (block_hashes d) (sources d) s (play_chunk d)
    (first_requested d) (d_stats d) (last_progress_bps d) (last_playable d).
Definition set_play_chunk (c : Z) (d : Download) : Download :=
  mkDownload (store d) (d_root d) (d_size d) (block_hashes d) (sources d) (denied d) c
    (first_requested d) (d_stats d) (last_progress_bps d) (last_playable d).
Definition set_first_requested (m : gmap Z Z) (d : Download) : Download :=
  mkDownload (store d) (d_root d) (d_size d) (block_hashes d) (sources d) (denied d) (play_chunk d)
    m (d_stats d) (last_progress_bps d) (last_playable d).
Definition set_stats (t : TransferStats) (d : Download) : Download :=
  mkDownload (store d) (d_root d) (d_size d) (block_hashes d) (sources d) (denied d) (play_chunk d)
    (first_requested d) t (last_progress_bps d) (last_playable d).
Definition set_reported (bps : Z) (playable : bool) (d : Download) : Download :=
  mkDownload (store d) (d_root d) (d_size d) (block_hashes d) (sources d) (denied d) (play_chunk d)
    (first_requested d) (d_stats d) bps playable.
Definition set_files (m : gmap Ed2kHash Download) (ds : Downloads) : Downloads :=
  mkDownloads (config ds) m (priority ds) (now_playing ds).
(** Writing back through a [get_mut]. *)
Definition put (file : Ed2kHash) (d : Download) (ds : Downloads) : Downloads :=
  set_files (<[file := d]> (files ds)) ds.

Definition add_received (n : Z) (t : TransferStats) : TransferStats :=
  mkTransferStats (u64_wrap (bytes_received t + n)) (bytes_duplicate t) (bytes_refetched t)
    (chunks_requeued t).
Definition add_duplicate (n : Z) (t : TransferStats) : TransferStats :=
  mkTransferStats (bytes_received t) (u64_wrap (bytes_duplicate t + n)) (bytes_refetched t)
    (chunks_requeued t).
Definition add_refetched (n : Z) (t : TransferStats) : TransferStats :=
  mkTransferStats (bytes_received t) (bytes_duplicate t) (u64_wrap (bytes_refetched t + n))
    (chunks_requeued t).
Definition add_requeued (n : Z) (t : TransferStats) : TransferStats :=
  mkTransferStats (bytes_received t) (bytes_duplicate t) (bytes_refetched t)
    (u64_wrap (chunks_requeued t + n)).

(** A [for] loop over [iter_mut()] whose body touches the entry at hand and
    pushes outputs. *)
Definition iter_mut {O} (f : PeerId → Source → Source * list O) (m : gmap PeerId Source)
    : gmap PeerId Source * list O :=
  (map_imap (λ p s, Some (f p s).1) m, concat ((λ ps, (f ps.1 ps.2).2) <$> map_to_list m)).

(** ** Constants and helpers *)

(** [stream_backoff]. *)
Definition stream_backoff (losses : Z) : Z :=
  let BASE_MILLIS := 1000 in
  let CAP_MILLIS := 30000 in
  if losses <=? 1 then 0
  else Z.min (u64_saturating_mul BASE_MILLIS (Z.shiftl 1 (Z.min (losses - 2) 16))) CAP_MILLIS.

Definition MAX_SOLICIT_ATTEMPTS : Z := 3.
Definition GIVE_UP_COOLDOWN_MULTIPLIER : Z := 10.
Definition SEQUENTIAL_WINDOW_FRAC : Z := PLAYABLE_WINDOW_FRAC.
Definition usize_max : Z := u64_max.

(** [drain_in_flight]. *)
Definition drain_in_flight (src : Source) (stats : TransferStats)
    : list Z * Source * TransferStats :=
  let chunks := elements (in_flight src) in
  (chunks, set_in_flight ∅ src, add_requeued (Z.of_nat (length chunks)) stats).

(** ** Planning one file's requests *)

(** [HashMap::entry(c).or_insert(0) += 1], [or_insert(now)]. *)
Definition bump {K} `{Countable K} (k : K) (n : Z) (m : gmap K Z) : gmap K Z :=
  <[k := default 0 (m !! k) + n]> m.
Definition or_insert {K V} `{Countable K} (k : K) (v : V) (m : gmap K V) : gmap K V :=
  match m !! k with Some _ => m | None => <[k := v]> m end.

(** The playable window, rounded out to blocks. *)
Definition gate (d : Download) : Z * Z :=
  let total_chunks := chunk_count (d_size d) in
  let window_end := u32_saturating_add (play_chunk d)
                      (u32_wrap (total_chunks / SEQUENTIAL_WINDOW_FRAC + 1)) in
  let cpb := CHUNKS_PER_BLOCK in
  let gate_start := (play_chunk d / cpb) * cpb in
  let gate_end := Z.min (div_ceil window_end cpb * cpb) (u32_modulus - 1) in
  (gate_start, gate_end).
Definition in_window (d : Download) (c : Z) : bool :=
  let '(gate_start, gate_end) := gate d in (gate_start <=? c) && (c <? gate_end).

(** [urgent], over the needed chunks. *)
Definition is_urgent (d : Download) (cfg : DownloadConfig) (window_urgent : bool) (now : Z)
    (endgame : bool) (c : Z) : bool :=
  endgame
  || (window_urgent && in_window d c
      && match first_requested d !! c with
         | Some t0 => urgent_age_millis cfg <=? u64_saturating_sub now t0
         | None => false
         end).
Definition urgent_set (d : Download) (cfg : DownloadConfig) (window_urgent : bool) (now : Z)
    (needed : list Z) : gset Z :=
  let endgame := u32_wrap (Z.of_nat (length needed)) <=? pipeline_depth cfg in
  list_to_set (filter (λ c, is_urgent d cfg window_urgent now endgame c = true) needed).

(** [rarity]: how many sources advertise each needed chunk. *)
Definition rarity_of (srcs : list Source) (needed : list Z) : option (gmap Z Z) :=
  fold_m (λ m src,
    fold_m (λ m c, h ← get (src_bitfield src) c; Some (if (h : bool) then bump c 1 m else m)) m needed)
    ∅ srcs.

(** The comparison of [candidates.sort_by]. *)
Definition candidate_cmp (urgent : gset Z) (in_window : Z → bool) (rarity : gmap Z Z) (a b : Z)
    : comparison :=
  let au := bool_decide (a ∈ urgent) in
  let bu := bool_decide (b ∈ urgent) in
  let aw := in_window a in
  let bw := in_window b in
  then_with (cmp bu au) (then_with (cmp bw aw)
    (if (au && bu) || (aw && bw) then cmp a b
     else then_with (cmp (default (u32_modulus - 1) (rarity !! a))
                         (default (u32_modulus - 1) (rarity !! b))) (cmp a b))).

(** All urgent candidates, then bulk ones while the budget lasts. *)
Fixpoint take_candidates (urgent : gset Z) (bulk_left : Z) (candidates : list Z) : list Z :=
  match candidates with
  | [] => []
  | c :: cs =>
      if decide (c ∈ urgent) then c :: take_candidates urgent bulk_left cs
      else if 0 <? bulk_left then c :: take_candidates urgent (bulk_left - 1) cs
      else []
  end.

(** What the loop over the sources carries. *)
Record PlanState := mkPlanState {
  p_sources : gmap PeerId Source;
  p_first : gmap Z Z;
  p_assigned : gset Z;
  p_budget : gmap PeerId Z;
  p_actions : list DownloadAction
}.

(** The loop's body for the [rank]-th source. *)
Definition plan_source (d : Download) (cfg : DownloadConfig) (file : Ed2kHash) (now : Z)
    (needed : list Z) (urgent : gset Z) (rarity : gmap Z Z)
    (st : PlanState) (rank_peer : nat * PeerId) : option PlanState :=
  let '(rank, peer) := rank_peer in
  let urgent_only := max_sources cfg <=? Z.of_nat rank in
  match p_sources st !! peer with
  | None => Some st
  | Some src =>
      if now <? retry_at src then Some st
      else
        let slots := Z.max (pipeline_depth cfg - default 0 (p_budget st !! peer)) 0 in
        candidates ← filter_m (λ c,
          h ← get (src_bitfield src) c;
          Some (h && negb (bool_decide (c ∈ in_flight src)) &&
                if bool_decide (c ∈ urgent) then true
                else negb urgent_only && negb (bool_decide (c ∈ p_assigned st)))) needed;
        let candidates := sort_by (candidate_cmp urgent (in_window d) rarity) candidates in
        let take := take_candidates urgent slots candidates in
        match take with
        | [] => Some st
        | _ =>
            Some (mkPlanState
              (<[peer := set_in_flight (in_flight src ∪ list_to_set take) src]> (p_sources st))
              (foldl (λ m c, or_insert c now m) (p_first st) take)
              (p_assigned st ∪ list_to_set take)
              (bump peer (Z.of_nat (length take)) (p_budget st))
              (p_actions st ++ [Send peer (ChunkRequest file take)]))
        end
  end.

(** [plan_requests]. *)
Definition plan_requests (d : Download) (cfg : DownloadConfig) (file : Ed2kHash)
    (window_urgent : bool) (now : Z) (budget : gmap PeerId Z)
    : option (Download * gmap PeerId Z * list DownloadAction) :=
  needed ← needed_chunks (store d);
  match needed with
  | [] => Some (d, budget, [])
  | _ =>
      let urgent := urgent_set d cfg window_urgent now needed in
      let srcs := (map_to_list (sources d)).*2 in
      rarity ← rarity_of srcs needed;
      let assigned := ⋃ (in_flight <$> srcs) in
      let peers := sort_by cmp (map_to_list (sources d)).*1 in
      st ← fold_m (plan_source d cfg file now needed urgent rarity)
             (mkPlanState (sources d) (first_requested d) assigned budget [])
             (imap pair peers);
      Some (set_first_requested (p_first st) (set_srcs (p_sources st) d), p_budget st, p_actions st)
  end.

(** ** Planning all files *)

(** [priority_ordered_files]. *)
Definition priority_ordered_files (ds : Downloads) : list Ed2kHash :=
  let key h := (default usize_max (priority ds !! h), h) in
  sort_by (λ a b, cmp (key a) (key b)) (map_to_list (files ds)).*1.

(** Every source's chunks in flight, over all files. *)
Definition budget_of (fs : list Download) : gmap PeerId Z :=
  foldl (λ b d, foldl (λ b ps, bump ps.1 (Z.of_nat (size (in_flight ps.2))) b) b
                  (map_to_list (sources d))) ∅ fs.

(** [plan_all]'s loop body. *)
Definition plan_file (now : Z) (urgent_sweep : bool)
    (acc : Downloads * gmap PeerId Z * list DownloadAction) (file : Ed2kHash)
    : option (Downloads * gmap PeerId Z * list DownloadAction) :=
  let '(ds, budget, actions) := acc in
  let depth := pipeline_depth (config ds) in
  let window_urgent := bool_decide (now_playing ds = Some file) in
  match files ds !! file with
  | None => Some acc
  | Some d =>
      if bool_decide (sources d = ∅) || match block_hashes d with Pending => true | Have _ => false end
      then Some acc
      else
        let has_budget := existsb (λ ps, default 0 (budget !! ps.1) <? depth) (map_to_list (sources d)) in
        go ← (if has_budget then Some true
              else if negb urgent_sweep then Some false
              else if window_urgent && negb (bool_decide (first_requested d = ∅)) then Some true
              else needed ← needed_chunks (store d); Some (Z.of_nat (length needed) <=? depth));
        if (go : bool) then
          '(d, budget, more) ← plan_requests d (config ds) file window_urgent now budget;
          Some (put file d ds, budget, actions ++ more)
        else Some acc
  end.

(** [plan_all]. *)
Definition plan_all (now : Z) (urgent_sweep : bool) (ds : Downloads)
    : option (Downloads * list DownloadAction) :=
  let budget := budget_of (map_to_list (files ds)).*2 in
  '(ds, _, actions) ← fold_m (plan_file now urgent_sweep) (ds, budget, []) (priority_ordered_files ds);
  Some (ds, actions).

(** ** Bookkeeping of one file *)

(** [progress_and_solicit]. *)
Definition solicit (file : Ed2kHash) (peer : PeerId) (src : Source) : Source * list DownloadAction :=
  if negb (solicited src) && (count_ones (src_bitfield src) =? 0) then
    (set_solicited true src, [Send peer (BlockHashRequest file)])
  else (src, []).
Definition progress_and_solicit (file : Ed2kHash) (ds : Downloads)
    : option (Downloads * list DownloadAction) :=
  match files ds !! file with
  | None => Some (ds, [])
  | Some d =>
      if store_complete (store d) then
        let hashes := match block_hashes d with Have hashes => hashes | Pending => [] end in
        Some (set_files (delete file (files ds)) ds, [Complete file (cs_path (store d)) hashes])
      else
        let '(srcs, asks) := iter_mut (solicit file) (sources d) in
        let d := set_srcs srcs d in
        match block_hashes d with
        | Pending => Some (put file d ds, asks)
        | Have _ =>
            bps ← progress_bps (store d);
            playable ← playable_from (store d) (play_chunk d);
            if negb (bps =? last_progress_bps d) || negb (Bool.eqb playable (last_playable d)) then
              Some (put file (set_reported bps playable d) ds, asks ++ [Progress file bps playable])
            else Some (put file d ds, asks)
        end
  end.

(** [progress_and_refill]. *)
Definition progress_and_refill (file : Ed2kHash) (now : Z) (ds : Downloads)
    : option (Downloads * list DownloadAction) :=
  '(ds, a1) ← progress_and_solicit file ds;
  '(ds, a2) ← plan_all now false ds;
  Some (ds, a1 ++ a2).

(** [snub]. *)
Definition silent (now timeout : Z) (src : Source) : bool :=
  negb (bool_decide (in_flight src = ∅))
  && (timeout <=? u64_saturating_sub now (last_progress src)).
Definition snub_source (file : Ed2kHash) (acc : Download * list DownloadAction) (peer : PeerId)
    : Download * list DownloadAction :=
  let '(d, actions) := acc in
  match sources d !! peer with
  | None => acc
  | Some src =>
      let '(chunks, _, stats) := drain_in_flight src (d_stats d) in
      (set_srcs (delete peer (sources d)) (set_stats stats d),
       actions ++ [Send peer (Cancel file chunks)])
  end.
Definition resolicit (file : Ed2kHash) (need_hashes : bool) (now timeout : Z)
    (peer : PeerId) (src : Source) : Source * list DownloadAction :=
  let still_missing_something :=
    (count_ones (src_bitfield src) =? 0) || (need_hashes && negb (hashes_replied src)) in
  if negb (solicited src && bool_decide (in_flight src = ∅) && still_missing_something) then (src, [])
  else
    let elapsed := u64_saturating_sub now (last_progress src) in
    let ask n :=
      (set_solicit_attempts (n + 1) (set_last_progress now src), [Send peer (BlockHashRequest file)]) in
    if MAX_SOLICIT_ATTEMPTS <=? solicit_attempts src then
      if elapsed <? u64_saturating_mul timeout GIVE_UP_COOLDOWN_MULTIPLIER then (src, []) else ask 0
    else if elapsed <? timeout then (src, [])
    else ask (solicit_attempts src).
Definition snub (file : Ed2kHash) (now : Z) (ds : Downloads) : Downloads * list DownloadAction :=
  match files ds !! file with
  | None => (ds, [])
  | Some d =>
      let timeout := snub_timeout_millis (config ds) in
      let snubbed := (filter (λ ps, silent now timeout ps.2 = true) (map_to_list (sources d))).*1 in
      let '(d, a1) := foldl (snub_source file) (d, []) snubbed in
      let need_hashes := match block_hashes d with Pending => true | Have _ => false end in
      let '(srcs, a2) := iter_mut (resolicit file need_hashes now timeout) (sources d) in
      (put file (set_srcs srcs d) ds, a1 ++ a2)
  end.

(** [cancel_elsewhere]. *)
Definition retract (file : Ed2kHash) (index : Z) (arrived_from peer : PeerId) (src : Source)
    : Source * list DownloadAction :=
  if negb (bool_decide (peer = arrived_from)) && bool_decide (index ∈ in_flight src) then
    (set_in_flight (in_flight src ∖ {[index]}) src, [Send peer (Cancel file [index])])
  else (src, []).
Definition cancel_elsewhere (file : Ed2kHash) (index : Z) (arrived_from : PeerId) (ds : Downloads)
    : Downloads * list DownloadAction :=
  match files ds !! file with
  | None => (ds, [])
  | Some d =>
      let '(srcs, actions) := iter_mut (retract file index arrived_from) (sources d) in
      (put file (set_srcs srcs d) ds, actions)
  end.

(** ** Operations *)

(** [Downloads::new], [set_priority], [is_active], [active_files], [stats]. *)
Definition new (config : DownloadConfig) : Downloads := mkDownloads config ∅ ∅ None.
Definition set_priority (order : list Ed2kHash) (now_playing : option Ed2kHash) (ds : Downloads)
    : Downloads :=
  mkDownloads (config ds) (files ds)
    (foldl (λ m ih, <[ih.2 := Z.of_nat ih.1]> m) ∅ (imap pair order)) now_playing.
Definition is_active (ds : Downloads) (file : Ed2kHash) : bool := bool_decide (is_Some (files ds !! file)).
Definition active_files (ds : Downloads) : list Ed2kHash := (map_to_list (files ds)).*1.
Definition stats (ds : Downloads) (file : Ed2kHash) : option TransferStats :=
  d_stats <$> files ds !! file.

(** [set_sources]. *)
Definition new_source (size_bytes now : Z) : Source :=
  mkSource (bf_new (chunk_count size_bytes)) ∅ now false false 0 0 0.
Definition offer (size_bytes now : Z) (denied : gset PeerId) (m : gmap PeerId Source) (peer : PeerId)
    : gmap PeerId Source :=
  if decide (peer ∈ denied) then m else or_insert peer (new_source size_bytes now) m.
Definition set_sources (file : Ed2kHash) (srcs : list PeerId) (play_chunk now : Z) (ds : Downloads)
    : option (Downloads * list DownloadAction) :=
  match files ds !! file with
  | None => Some (ds, [])
  | Some d =>
      let d := set_play_chunk play_chunk d in
      let keep : gset PeerId := list_to_set srcs in
      let kept := filter (λ ps : PeerId * Source, ps.1 ∈ keep) (sources d) in
      let denied := filter (λ p, p ∈ keep) (denied d) in
      let d := set_denied denied (set_srcs (foldl (offer (d_size d) now denied) kept srcs) d) in
      progress_and_refill file now (put file d ds)
  end.

(** [start]. *)
Definition start (io : StoreIo) (file : Ed2kHash) (size_bytes : Z) (root : Ed2kHash) (path : string)
    (srcs : list PeerId) (play_chunk now : Z) (st : Downloads * Disk)
    : option (Downloads * Disk * list DownloadAction) :=
  let '(ds, disk) := st in
  opened ← (if is_active ds file then Some (disk, inr ds)
            else
              '(disk, r) ← open io disk path size_bytes;
              Some (disk, match r with
                          | inl e => inl e
                          | inr s =>
                              inr (put file (mkDownload s root size_bytes Pending ∅ ∅ play_chunk ∅
                                               no_stats 0 false) ds)
                          end));
  match opened with
  | (disk, inl e) => Some (ds, disk, [Abandon file e])
  | (disk, inr ds) =>
      '(ds, actions) ← set_sources file srcs play_chunk now ds;
      Some (ds, disk, actions)
  end.

(** [cancel]. *)
Definition cancel (file : Ed2kHash) (ds : Downloads) : Downloads * list DownloadAction :=
  match files ds !! file with
  | None => (ds, [])
  | Some d =>
      (set_files (delete file (files ds)) ds,
       omap (λ ps : PeerId * Source,
         if decide (in_flight ps.2 = ∅) then None
         else Some (Send ps.1 (Cancel file (btree_set_iter (in_flight ps.2))))) (map_to_list (sources d)))
  end.

(** [requeue_source], [on_source_stream_lost]. *)
Definition requeue_source (file : Ed2kHash) (peer : PeerId) (now : Z) (ds : Downloads) : Downloads :=
  match files ds !! file with
  | None => ds
  | Some d =>
      match sources d !! peer with
      | None => ds
      | Some src =>
          let '(_, src, stats) := drain_in_flight src (d_stats d) in
          let src := set_last_progress now (set_solicited false src) in
          let src := set_dead_streams (u32_saturating_add (dead_streams src) 1) src in
          let backoff := stream_backoff (dead_streams src) in
          let src := set_retry_at (u64_saturating_add now backoff) src in
          put file (set_srcs (<[peer := src]> (sources d)) (set_stats stats d)) ds
      end
  end.
Definition on_source_stream_lost (file : Ed2kHash) (peer : PeerId) (now : Z) (ds : Downloads)
    : option (Downloads * list DownloadAction) :=
  progress_and_refill file now (requeue_source file peer now ds).

(** [tick]. *)
Definition tick_file (now : Z) (acc : Downloads * list DownloadAction) (file : Ed2kHash)
    : option (Downloads * list DownloadAction) :=
  let '(ds, actions) := acc in
  let '(ds, a1) := snub file now ds in
  '(ds, a2) ← progress_and_solicit file ds;
  Some (ds, actions ++ a1 ++ a2).
Definition tick (now : Z) (ds : Downloads) : option (Downloads * list DownloadAction) :=
  '(ds, actions) ← fold_m (tick_file now) (ds, []) (priority_ordered_files ds);
  '(ds, more) ← plan_all now true ds;
  Some (ds, actions ++ more).

Section verifying.
Context `{Digest H}.

(** [verify_and_collect]. *)
Definition verify_and_collect (io : StoreIo) (disk : Disk) (file : Ed2kHash) (ds : Downloads)
    : option Downloads :=
  match files ds !! file with
  | None => Some ds
  | Some d =>
      match block_hashes d with
      | Pending => Some ds
      | Have hashes =>
          '(s, r) ← verify io disk (store d) hashes;
          let stats :=
            match r with
            | inl _ => d_stats d
            | inr summary =>
                foldl (λ t block, add_refetched (block_size s block) t) (d_stats d) (mismatched summary)
            end in
          Some (put file (set_stats stats (set_store s d)) ds)
      end
  end.

(** [on_block_hashes]. *)
Definition on_block_hashes (io : StoreIo) (disk : Disk) (file : Ed2kHash) (from : PeerId)
    (hashes : list Ed2kBlockHash) (now : Z) (ds : Downloads)
    : option (Downloads * list DownloadAction) :=
  match files ds !! file with
  | None => Some (ds, [])
  | Some d =>
      match block_hashes d with
      | Have _ => Some (ds, [])
      | Pending =>
          if negb (block_hashes_match (store d) (d_root d) hashes) then
            progress_and_refill file now (put file (set_srcs (delete from (sources d)) d) ds)
          else
            let d := set_block_hashes (Have hashes) d in
            let d := set_srcs (alter (set_hashes_replied true) from (sources d)) d in
            ds ← verify_and_collect io disk file (put file d ds);
            progress_and_refill file now ds
      end
  end.

(** [on_chunk_data]. *)
Definition on_chunk_data (io : StoreIo) (disk : Disk) (file : Ed2kHash) (from : PeerId) (index : Z)
    (data : list Z) (now : Z) (ds : Downloads) : option (Downloads * Disk * list DownloadAction) :=
  match files ds !! file with
  | None => Some (ds, disk, [])
  | Some d =>
      let len := Z.of_nat (length data) in
      let d := set_stats (add_received len (d_stats d)) d in
      let d := set_srcs (alter (λ src, set_dead_streams 0
                 (set_in_flight (in_flight src ∖ {[index]}) (set_last_progress now src)))
                 from (sources d)) d in
      have ← is_written (store d) index;
      if (have : bool) then
        let d := set_stats (add_duplicate len (d_stats d)) d in
        let '(ds, actions) := cancel_elsewhere file index from (put file d ds) in
        Some (ds, disk, actions)
      else
        '(disk, s, r) ← write_chunk io disk (store d) index data;
        let ds := put file (set_store s d) ds in
        match r with
        | inl _ => Some (ds, disk, [])
        | inr _ =>
            let '(ds, a1) := cancel_elsewhere file index from ds in
            ds ← verify_and_collect io disk file ds;
            '(ds, a2) ← progress_and_refill file now ds;
            Some (ds, disk, a1 ++ a2)
        end
  end.

(** [on_peer_message]. *)
Definition on_peer_message (io : StoreIo) (from : PeerId) (message : PeerMessage) (now : Z)
    (st : Downloads * Disk) : option (Downloads * Disk * list DownloadAction) :=
  let '(ds, disk) := st in
  let keep_disk (r : option (Downloads * list DownloadAction)) :=
    (λ r, (r.1, disk, r.2)) <$> r in
  match message with
  | FileAvailabilityMsg file bitfield =>
      match files ds !! file with
      | None => Some (ds, disk, [])
      | Some d =>
          if negb (is_valid_for bitfield (chunk_count (d_size d))) then Some (ds, disk, [])
          else
            let d := set_srcs (alter (set_bitfield bitfield) from (sources d)) d in
            keep_disk (progress_and_refill file now (put file d ds))
      end
  | BlockHashes file hashes => keep_disk (on_block_hashes io disk file from hashes now ds)
  | CannotServe file =>
      match files ds !! file with
      | None => Some (ds, disk, [])
      | Some d =>
          let d := set_denied ({[from]} ∪ denied d) (set_srcs (delete from (sources d)) d) in
          keep_disk (progress_and_refill file now (put file d ds))
      end
  | ChunkData file index data => on_chunk_data io disk file from index data now ds
  | BlockHashRequest _ | ChunkRequest _ _ | Cancel _ _ => Some (ds, disk, [])
  end.
End verifying.
