(* ===== verification/DownloadPlan.v ===== *)
(** * The download scheduler: planning requests

    What one call of [plan_requests] asks of whom. The loop over the sources is
    characterised by the chunks each source was asked for ([plan_inv]): requests
    are for needed, advertised chunks; bulk chunks go to one source, within the
    shared budget; no source with room is left idle while it has work. *)

From S2P Require Import Prelude Types Framing Hash Transfer ChunkStore Download.

(** ** The candidates' order is a lexicographic key *)

Definition candidate_key (urgent : gset Z) (in_window : Z → bool) (rarity : gmap Z Z) (c : Z)
    : bool * (bool * (Z * Z)) :=
  let u := bool_decide (c ∈ urgent) in
  let w := in_window c in
  (negb u, (negb w, (if u || w then 0 else default (u32_modulus - 1) (rarity !! c), c))).

Lemma candidate_cmp_key urgent iw rarity a b :
  candidate_cmp urgent iw rarity a b =
    cmp (candidate_key urgent iw rarity a) (candidate_key urgent iw rarity b).
Proof.
  unfold candidate_cmp, candidate_key. unfold cmp at 6, prod_ord. cbn [fst snd].
  destruct (bool_decide (a ∈ urgent)), (bool_decide (b ∈ urgent)), (iw a), (iw b); reflexivity.
Qed.

Lemma sort_by_ext {A} (f g : A → A → comparison) l :
  (∀ x y, f x y = g x y) → sort_by f l = sort_by g l.
Proof.
  intros Hfg. unfold sort_by. induction l as [|x l IH]; [done|]. simpl. rewrite IH.
  generalize (foldr (insert_by g) [] l) as k. induction k as [|y k IHk]; [done|]. simpl.
  by rewrite Hfg, IHk.
Qed.

Lemma candidate_key_inj urgent iw rarity a b :
  candidate_key urgent iw rarity a = candidate_key urgent iw rarity b → a = b.
Proof. by intros [=]. Qed.

(** ** Taking candidates *)

Lemma take_candidates_split urgent k us bs :
  (∀ c, c ∈ us → c ∈ urgent) → (∀ c, c ∈ bs → c ∉ urgent) → 0 ≤ k →
  take_candidates urgent k (us ++ bs) = us ++ take (Z.to_nat k) bs.
Proof.
  intros Hu Hb Hk. induction us as [|c us IH].
  - simpl. clear Hu. revert k Hk. induction bs as [|c bs IH]; intros k Hk; simpl; [by rewrite take_nil|].
    rewrite decide_False by (apply Hb; left). destruct (Z.ltb_spec 0 k).
    + rewrite IH by (lia || set_solver). by replace (Z.to_nat k) with (S (Z.to_nat (k - 1))) by lia.
    + by replace (Z.to_nat k) with 0%nat by lia.
  - cbn [app take_candidates]. rewrite decide_True by (apply Hu; left). f_equal. apply IH. set_solver.
Qed.

(** A list sorted by a key with a boolean first component splits there. *)
Lemma sorted_split {A} (R : A → A → Prop) (f : A → bool) (l : list A) :
  StronglySorted R l → (∀ x y, R x y → f x = true → f y = true) →
  ∃ us bs, l = us ++ bs ∧ (∀ x, x ∈ us → f x = false) ∧ (∀ x, x ∈ bs → f x = true) ∧
    StronglySorted R bs.
Proof.
  intros Hs HR. induction Hs as [|x l Hs IH Hx]; [by exists [], []; split_and!; try set_solver; constructor|].
  destruct (f x) eqn:Hf.
  - exists [], (x :: l). split_and!; [done|set_solver| |by constructor].
    intros y [->|Hy]%elem_of_cons; [done|]. rewrite Forall_forall in Hx. by eapply HR, Hf; apply Hx.
  - destruct IH as (us & bs & -> & Hu & Hb & Hsb). exists (x :: us), bs. split_and!; [done| |done|done].
    intros y [->|Hy]%elem_of_cons; [done|by apply Hu].
Qed.

(** ** One source's turn *)

Definition advertises (src : Source) (c : Z) : bool := bit_of (bits (src_bitfield src)) c.

Section plan.
Context (d : Download) (cfg : DownloadConfig) (file : Ed2kHash) (now : Z) (needed : list Z)
  (urgent : gset Z) (rarity : gmap Z Z) (n : Z).

(** The chunks the source of that rank may be asked for. *)
Definition candidate (rank : nat) (assigned : gset Z) (src : Source) (c : Z) : bool :=
  advertises src c && negb (bool_decide (c ∈ in_flight src)) &&
  if bool_decide (c ∈ urgent) then true
  else negb (max_sources cfg <=? Z.of_nat rank) && negb (bool_decide (c ∈ assigned)).
Definition key (c : Z) : bool * (bool * (Z * Z)) := candidate_key urgent (in_window d) rarity c.
Definition bulk (l : list Z) : list Z := filter (λ c, c ∉ urgent) l.

Record turn (rank : nat) (src : Source) (assigned : gset Z) (slots : Z) (took : list Z) : Prop := {
  turn_NoDup : NoDup took;
  turn_cand c : c ∈ took → c ∈ needed ∧ candidate rank assigned src c = true;
  turn_urgent c : c ∈ needed → c ∈ urgent → candidate rank assigned src c = true → c ∈ took;
  turn_slots : Z.of_nat (length (bulk took)) ≤ slots;
  turn_left c : c ∈ needed → candidate rank assigned src c = true → c ∉ took →
    Z.of_nat (length (bulk took)) = slots ∧ ∀ c', c' ∈ took → ord_le (key c') (key c);
  turn_sorted : StronglySorted (λ a b, ord_le (key a) (key b)) took
}.

Lemma take_turn rank src assigned slots :
  NoDup needed → 0 ≤ slots →
  turn rank src assigned slots
    (take_candidates urgent slots (sort_by (candidate_cmp urgent (in_window d) rarity)
      (filter (λ c, candidate rank assigned src c = true) needed))).
Proof.
  intros Hnd Hs. rewrite (sort_by_ext _ (λ a b, cmp (key a) (key b)))
    by (intros; apply candidate_cmp_key).
  pose proof (sort_by_key_sorted key (filter (λ c, candidate rank assigned src c = true) needed)) as Hsort.
  pose proof (sort_by_perm (λ a b, cmp (key a) (key b))
    (filter (λ c, candidate rank assigned src c = true) needed)) as Hperm.
  set (l := sort_by _ _) in *.
  assert (NoDup l) as Hl by (rewrite Hperm; by apply NoDup_filter).
  assert (∀ c, c ∈ l ↔ c ∈ needed ∧ candidate rank assigned src c = true) as Hin.
  { intros c. rewrite Hperm, list_elem_of_filter. naive_solver. }
  destruct (sorted_split _ (λ c, bool_decide (c ∉ urgent)) l Hsort) as (us & bs & Heq & Hus & Hbs & Hsb).
  { intros x y Hxy Hx%bool_decide_eq_true. apply bool_decide_eq_true. intros Hy. apply Hxy.
    unfold key, candidate_key. rewrite (bool_decide_eq_false_2 (x ∈ _)), (bool_decide_eq_true_2 (y ∈ _)) by done.
    done. }
  setoid_rewrite bool_decide_eq_false in Hus. setoid_rewrite bool_decide_eq_true in Hbs.
  assert (∀ c, c ∈ us → c ∈ urgent) as Hus' by (intros c Hc; apply dec_stable; by apply Hus).
  rewrite Heq, take_candidates_split by done. rewrite Heq in Hin, Hl, Hsort. clear Heq Hus Hperm l.
  set (k := Z.to_nat slots).
  assert (bulk (us ++ take k bs) = take k bs) as Hbulk.
  { unfold bulk. rewrite filter_app. rewrite (filter_all _ (take k bs))
      by (intros c (i & Hi & _)%elem_of_take; apply Hbs; by eapply list_elem_of_lookup_2).
    assert (filter (λ c, c ∉ urgent) us = []) as ->; [|done].
    destruct (filter _ us) as [|x r] eqn:Ef; [done|].
    assert (x ∈ filter (λ c, c ∉ urgent) us) as Hx by (rewrite Ef; left).
    apply list_elem_of_filter in Hx as [Hx1 Hx2]. by apply Hus' in Hx2. }
  assert (∀ c, c ∈ us ++ take k bs → c ∈ us ++ bs) as Hsub.
  { intros c. rewrite !elem_of_app. intros [?|(i & Hi & _)%elem_of_take]; [by left|right].
    by eapply list_elem_of_lookup_2. }
  split.
  - rewrite <-(take_drop k bs), app_assoc in Hl. by apply NoDup_app in Hl as [? _].
  - intros c Hc. by apply Hin, Hsub.
  - intros c Hc Hu Hcand. apply elem_of_app. left.
    assert (c ∈ us ++ bs) as [?|Hb]%elem_of_app by (by apply Hin); [done|]. by destruct (Hbs c Hb).
  - rewrite Hbulk, length_take. lia.
  - intros c Hc Hcand Hnt. assert (c ∈ us ++ bs) as Hcl by by apply Hin.
    assert (c ∈ drop k bs) as Hd.
    { apply elem_of_app in Hcl as [|Hcb]; [by destruct Hnt; apply elem_of_app; left|].
      rewrite <-(take_drop k bs) in Hcb. apply elem_of_app in Hcb as [|]; [|done].
      destruct Hnt. apply elem_of_app. by right. }
    split.
    + rewrite Hbulk, length_take. assert (k < length bs)%nat; [|lia].
      apply list_elem_of_lookup in Hd as [i Hi]. rewrite lookup_drop in Hi. apply lookup_lt_Some in Hi. lia.
    + intros c' Hc'. rewrite <-(take_drop k bs), app_assoc in Hsort.
      eapply (StronglySorted_app_1_elem_of (λ a b, ord_le (key a) (key b))); done.
  - rewrite <-(take_drop k bs), app_assoc in Hsort. by eapply (StronglySorted_app_1_l (λ a b, ord_le (key a) (key b))).
Qed.

(** ** The loop over the sources *)

Context (budget0 : gmap PeerId Z) (assigned0 : gset Z).
Context (Hn : 0 ≤ n < u32_modulus) (Hnd : NoDup needed) (Hpos : ∀ c, c ∈ needed → 0 ≤ c).
Context (Hvalid : ∀ p src, sources d !! p = Some src → valid (src_bitfield src) n).

Definition slots (p : PeerId) : Z := Z.max (pipeline_depth cfg - default 0 (budget0 !! p)) 0.

(** The state after the sources in [done], which were asked for [took]. *)
Record plan_inv (done : list (nat * PeerId)) (st : PlanState) (took : PeerId → list Z) : Prop := {
  pi_undone p : p ∉ done.*2 → took p = [];
  pi_sources p : p_sources st !! p =
    (λ src, set_in_flight (in_flight src ∪ list_to_set (took p)) src) <$> sources d !! p;
  pi_assigned c : c ∈ p_assigned st ↔ c ∈ assigned0 ∨ ∃ p, c ∈ took p;
  pi_budget p : default 0 (p_budget st !! p) =
    default 0 (budget0 !! p) + Z.of_nat (length (took p));
  pi_first c : p_first st !! c = match first_requested d !! c with
    | Some t => Some t
    | None => if existsb (λ r, bool_decide (c ∈ took r.2)) done then Some now else None
    end;
  pi_actions : p_actions st =
    (λ p, Send p (ChunkRequest file (took p))) <$> filter (λ p, took p ≠ []) done.*2;
  pi_idle p : took p ≠ [] → ∃ src, sources d !! p = Some src ∧ retry_at src ≤ now;
  pi_turn i r p src : done !! i = Some (r, p) → sources d !! p = Some src → retry_at src ≤ now →
    ∃ assigned, turn r src assigned (slots p) (took p) ∧ assigned0 ⊆ assigned ∧ assigned ⊆ p_assigned st ∧
      ∀ j r' q, (j < i)%nat → done !! j = Some (r', q) → ∀ c, c ∈ took q → c ∈ assigned
}.

Lemma plan_inv_start :
  plan_inv [] (mkPlanState (sources d) (first_requested d) assigned0 budget0 []) (λ _, []).
Proof.
  split; cbn; try done.
  - intros p. destruct (sources d !! p) as [src|]; [|done]. simpl. f_equal.
    rewrite union_empty_r_L. by destruct src.
  - intros c. split; [by left|]. intros [|[p Hp]]; [done|by apply elem_of_nil in Hp].
  - intros p. simpl. lia.
  - intros c. by destruct (first_requested d !! c).
Qed.

Lemma foldl_or_insert m (l : list Z) c :
  foldl (λ m c, or_insert c now m) m l !! c =
    match m !! c with Some t => Some t | None => if bool_decide (c ∈ l) then Some now else None end.
Proof.
  revert m. induction l as [|x l IH]; intros m; simpl; [by destruct (m !! c)|].
  rewrite IH. unfold or_insert. destruct (decide (x = c)) as [->|Hne].
  - rewrite (bool_decide_eq_true_2 (c ∈ c :: l)) by left. destruct (m !! c) as [t|] eqn:Hc; [by rewrite Hc|].
    by rewrite lookup_insert_eq.
  - assert (match m !! x with Some _ => m | None => <[x:=now]> m end !! c = m !! c) as ->.
    { destruct (m !! x); [done|]. by rewrite lookup_insert_ne. }
    destruct (m !! c); [done|].
    assert (bool_decide (c ∈ x :: l) = bool_decide (c ∈ l)) as ->; [|done].
    apply bool_decide_ext. rewrite elem_of_cons. naive_solver.
Qed.

Lemma bump_lookup `{Countable K} (k j : K) x m :
  default 0 (bump k x m !! j) = default 0 (m !! j) + if decide (j = k) then x else 0.
Proof.
  unfold bump. case_decide as Hjk; [subst; by rewrite lookup_insert_eq|].
  rewrite lookup_insert_ne by done. lia.
Qed.

Lemma asked_ext (f g : PeerId → list Z) (l : list PeerId) :
  (∀ p, p ∈ l → f p = g p) →
  ((λ p, Send p (ChunkRequest file (f p))) <$> filter (λ p, f p ≠ []) l) =
  ((λ p, Send p (ChunkRequest file (g p))) <$> filter (λ p, g p ≠ []) l).
Proof.
  induction l as [|p l IH]; intros Hfg; [done|]. rewrite !filter_cons.
  assert (f p = g p) as Hp by (apply Hfg; left). rewrite !Hp.
  specialize (IH ltac:(intros q Hq; apply Hfg; by right)).
  case_decide; [|done]. rewrite !fmap_cons, IH. by rewrite Hp.
Qed.

(** Nothing was asked of the source whose turn it was. *)
Lemma plan_inv_skip done st took r p :
  plan_inv done st took → p ∉ done.*2 →
  (∀ src, sources d !! p = Some src → now < retry_at src) →
  plan_inv (done ++ [(r, p)]) st took.
Proof.
  intros [Hu Hs Ha Hb Hf Hac Hi Ht] Hp Hskip. pose proof (Hu p Hp) as Hnil.
  split; try done.
  - intros q Hq. apply Hu. rewrite fmap_app in Hq. set_solver.
  - intros c. rewrite Hf, existsb_app. simpl. rewrite Hnil.
    rewrite (bool_decide_eq_false_2 (c ∈ [])) by set_solver. by rewrite !orb_false_r.
  - rewrite fmap_app, filter_app. simpl. rewrite filter_cons_False by (rewrite Hnil; naive_solver).
    by rewrite filter_nil, app_nil_r.
  - intros i r' p' src [Hi'|[Hlen Hi']]%lookup_app_Some Hsrc Hretry.
    + destruct (Ht i r' p' src Hi' Hsrc Hretry) as (A & Htn & H1 & H2 & H3). exists A.
      split_and!; [done..|]. intros j r1 q Hj Hjd. apply H3 with j r1; [done|].
      rewrite lookup_app_l in Hjd by (apply lookup_lt_Some in Hi'; lia). done.
    + apply list_lookup_singleton_Some in Hi' as [_ [= <- <-]]. apply Hskip in Hsrc. lia.
Qed.

(** The source whose turn it was is asked for [tk], possibly nothing. *)
Lemma plan_inv_take done st st' took r p src assigned tk :
  plan_inv done st took → p ∉ done.*2 → sources d !! p = Some src → retry_at src ≤ now →
  turn r src assigned (slots p) tk → assigned = p_assigned st →
  p_sources st' = <[p := set_in_flight (in_flight src ∪ list_to_set tk) src]> (p_sources st) →
  (∀ c, p_first st' !! c = match p_first st !! c with Some t => Some t
                           | None => if bool_decide (c ∈ tk) then Some now else None end) →
  p_assigned st' = p_assigned st ∪ list_to_set tk →
  (∀ q, default 0 (p_budget st' !! q) =
     default 0 (p_budget st !! q) + if decide (q = p) then Z.of_nat (length tk) else 0) →
  p_actions st' = p_actions st ++ (if decide (tk = []) then [] else [Send p (ChunkRequest file tk)]) →
  plan_inv (done ++ [(r, p)]) st' (λ q, if decide (q = p) then tk else took q).
Proof.
  intros [Hu Hs Ha Hb Hf Hac Hi Ht] Hp Hsrc Hretry Htn -> Es Ef Ea Eb Eac.
  pose proof (Hu p Hp) as Hnil.
  assert (∀ q, q ∈ done.*2 → q ≠ p) as Hne by (intros q Hq ->; done).
  assert (∀ (r' : nat) q, (r', q) ∈ done → (if decide (q = p) then tk else took q) = took q) as Hold.
  { intros r' q Hq. rewrite decide_False; [done|]. apply Hne, list_elem_of_fmap. by exists (r', q). }
  split.
  - intros q Hq. rewrite fmap_app in Hq. rewrite decide_False by set_solver. apply Hu. set_solver.
  - intros q. rewrite Es. destruct (decide (q = p)) as [Hqp|Hqp].
    + by rewrite Hqp, lookup_insert_eq, Hsrc.
    + by rewrite lookup_insert_ne, Hs.
  - intros c. rewrite Ea, elem_of_union, Ha, elem_of_list_to_set. split.
    + intros [[|[q Hq]]|Hc]; [by left|right; exists q|right; exists p; by rewrite decide_True].
      rewrite decide_False; [done|]. intros ->. rewrite Hnil in Hq. by apply elem_of_nil in Hq.
    + intros [|[q Hq]]; [by left; left|]. case_decide; [by right|]. left. right. by exists q.
  - intros q. rewrite Eb, Hb. destruct (decide (q = p)) as [Hqp|]; [|lia].
    rewrite Hqp, Hnil. simpl. lia.
  - intros c. rewrite Ef, Hf, existsb_app. simpl. rewrite decide_True, orb_false_r by done.
    destruct (first_requested d !! c); [done|].
    assert (existsb (λ r, bool_decide (c ∈ if decide (r.2 = p) then tk else took r.2)) done =
      existsb (λ r, bool_decide (c ∈ took r.2)) done) as ->.
    { clear -Hold. induction done as [|[r' q] done IH]; [done|]. simpl.
      rewrite (Hold r' q) by left. f_equal. apply IH. intros r1 q1 Hq. apply (Hold r1). by right. }
    by destruct (existsb _ done), (bool_decide (c ∈ tk)).
  - rewrite Eac, Hac, fmap_app, filter_app, fmap_app. f_equal.
    + apply asked_ext. intros q Hq. symmetry. apply list_elem_of_fmap in Hq as ([r' ?] & -> & Hq).
      by apply (Hold r').
    + rewrite list_fmap_singleton, filter_cons, filter_nil. cbn [snd].
      destruct (decide (tk = [])) as [->|Htk].
      * rewrite decide_False; [done|]. rewrite decide_True by done. naive_solver.
      * rewrite (decide_True (P := (_ ≠ []))) by (by rewrite decide_True). simpl. by rewrite decide_True.
  - intros q. destruct (decide (q = p)) as [->|]; [by exists src|apply Hi].
  - intros i r' p' src' [Hi'|[Hlen Hi']]%lookup_app_Some Hsrc' Hretry'.
    + pose proof (list_elem_of_lookup_2 _ _ _ Hi') as Hin. rewrite (Hold r' p' Hin).
      destruct (Ht i r' p' src' Hi' Hsrc' Hretry') as (A & HtA & H1 & H2 & H3). exists A.
      split_and!; [done|done|rewrite Ea; set_solver|].
      intros j r1 q Hj Hjd c. rewrite lookup_app_l in Hjd by (apply lookup_lt_Some in Hi'; lia).
      rewrite (Hold r1 q) by (by eapply list_elem_of_lookup_2). by apply (H3 j r1).
    + apply list_lookup_singleton_Some in Hi' as [Hi0 [= <- <-]]. rewrite decide_True by done.
      simplify_eq. exists (p_assigned st). split_and!; [done|intros c; rewrite Ha; by left|set_solver|].
      intros j r1 q Hj Hjd c. rewrite lookup_app_l in Hjd by lia.
      rewrite (Hold r1 q) by (by eapply list_elem_of_lookup_2). intros Hc. apply Ha. right. by exists q.
Qed.

Lemma plan_source_inv done st took r p :
  plan_inv done st took → p ∉ done.*2 →
  ∃ st' took', plan_source d cfg file now needed urgent rarity st (r, p) = Some st' ∧
    plan_inv (done ++ [(r, p)]) st' took'.
Proof.
  intros Hinv Hp. unfold plan_source. rewrite (pi_sources _ _ _ Hinv).
  pose proof (pi_undone _ _ _ Hinv p Hp) as Hnil. rewrite Hnil.
  destruct (sources d !! p) as [src|] eqn:Hsrc; cbn [fmap option_fmap option_map].
  2: { exists st, took. split; [done|]. apply plan_inv_skip; [done..|]. intros src. by rewrite Hsrc. }
  assert (set_in_flight (in_flight src ∪ list_to_set []) src = src) as ->.
  { simpl. rewrite union_empty_r_L. by destruct src. }
  destruct (Z.ltb_spec now (retry_at src)) as [Hback|Hretry].
  { exists st, took. split; [done|]. apply plan_inv_skip; [done..|].
    intros src'. rewrite Hsrc. by intros [= <-]. }
  rewrite (pi_budget _ _ _ Hinv), Hnil. cbn [length]. rewrite Z.add_0_r. fold (slots p).
  rewrite (filter_m_total _ (candidate r (p_assigned st) src)).
  2: { intros c Hc. rewrite (get_valid _ _ Hn (Hvalid p src Hsrc)) by by apply Hpos. done. }
  cbn [mbind option_bind].
  pose proof (take_turn r src (p_assigned st) (slots p) Hnd ltac:(unfold slots; lia)) as Hturn.
  set (tk := take_candidates _ _ _) in *. cbn zeta.
  destruct tk as [|c tk'] eqn:Etk.
  - eexists st, _. split; [done|]. eapply (plan_inv_take done st st took r p src _ []); try done.
    + rewrite insert_id; [done|]. rewrite (pi_sources _ _ _ Hinv), Hsrc, Hnil. done.
    + intros c. by destruct (p_first st !! c).
    + simpl. by rewrite union_empty_r_L.
    + intros q. simpl. case_decide; lia.
    + simpl. by rewrite app_nil_r.
  - rewrite <-Etk. eexists _, _. split; [done|]. rewrite <-Etk in Hturn.
    eapply (plan_inv_take done st _ took r p src _ tk); try done; cbn [p_sources p_first p_assigned p_budget p_actions].
    + intros c'. apply foldl_or_insert.
    + intros q. by rewrite bump_lookup.
    + rewrite decide_False; [done|]. by rewrite Etk.
Qed.

Lemma plan_loop_inv l done st took :
  plan_inv done st took → NoDup (done ++ l).*2 →
  ∃ st' took', fold_m (plan_source d cfg file now needed urgent rarity) st l = Some st' ∧
    plan_inv (done ++ l) st' took'.
Proof.
  revert done st took. induction l as [|[r p] l IH]; intros done st took Hinv Hnd'.
  { exists st, took. by rewrite app_nil_r. }
  destruct (plan_source_inv done st took r p Hinv) as (st1 & took1 & H1 & Hinv1).
  { rewrite fmap_app in Hnd'. apply NoDup_app in Hnd' as (_ & Hd & _). intros Hin.
    apply (Hd p Hin). simpl. left. }
  cbn [fold_m]. rewrite H1. cbn [mbind option_bind].
  replace (done ++ (r, p) :: l) with ((done ++ [(r, p)]) ++ l) in * by by rewrite <-app_assoc.
  by eapply IH.
Qed.
End plan.

(** ** Rarity *)

Lemma rarity_of_spec n srcs needed :
  0 ≤ n < u32_modulus → (∀ src, src ∈ srcs → valid (src_bitfield src) n) →
  NoDup needed → (∀ c, c ∈ needed → 0 ≤ c) →
  ∃ m, rarity_of srcs needed = Some m ∧
    ∀ c, c ∈ needed → m !! c = 
      let k := length (filter (λ src, advertises src c = true) srcs) in
      if decide (k = 0%nat) then None else Some (Z.of_nat k).
Proof.
  intros Hn Hv Hnd Hpos.
  pose (I (done : list Source) (m : gmap Z Z) := ∀ c, c ∈ needed → m !! c =
    let k := length (filter (λ src, advertises src c = true) done) in
    if decide (k = 0%nat) then None else Some (Z.of_nat k)).
  apply (fold_m_inv I); [done|]. intros done src m Hsrc HI.
  pose (J (cs : list Z) (m' : gmap Z Z) := NoDup cs → ∀ c, c ∈ needed → m' !! c =
    if bool_decide (c ∈ cs) && advertises src c then Some (default 0 (m !! c) + 1) else m !! c).
  destruct (fold_m_inv_from J (λ m c, h ← get (src_bitfield src) c;
    Some (if (h : bool) then bump c 1 m else m)) needed [] m) as (m' & Hm' & HJ).
  - done.
  - intros cs c m1 Hc HJ. rewrite (get_valid _ _ Hn (Hv src Hsrc)) by by apply Hpos.
    cbn [mbind option_bind]. eexists. split; [done|].
    intros Hnd'. apply NoDup_app in Hnd' as (Hcs & Hdisj & _). intros c' Hc'. specialize (HJ Hcs c' Hc').
    fold (advertises src c). destruct (decide (c' = c)) as [->|Hne].
    + rewrite (bool_decide_eq_true_2 (c ∈ cs ++ [c])) by set_solver. simpl.
      rewrite (bool_decide_eq_false_2 (c ∈ cs)) in HJ by (intros Hin; by apply (Hdisj c Hin); left).
      simpl in HJ. destruct (advertises src c); [|done]. unfold bump. by rewrite lookup_insert_eq, HJ.
    + assert (bool_decide (c' ∈ cs ++ [c]) = bool_decide (c' ∈ cs)) as ->.
      { apply bool_decide_ext. rewrite elem_of_app, list_elem_of_singleton. naive_solver. }
      rewrite <-HJ. destruct (advertises src c); [|done]. unfold bump. by rewrite lookup_insert_ne.
  - exists m'. split; [done|]. intros c Hc. specialize (HJ Hnd c Hc). simpl in HJ.
    rewrite bool_decide_eq_true_2 in HJ by done. simpl in HJ. rewrite HJ, (HI c Hc).
    cbn zeta. rewrite filter_app, length_app, filter_cons, filter_nil.
    destruct (advertises src c); simpl.
    + rewrite (decide_False (P := (_ + 1 = 0)%nat)) by lia. f_equal. case_decide; simpl; lia.
    + by rewrite Nat.add_0_r.
Qed.

(** ** [plan_requests] *)

Definition peers_of (d : Download) : list PeerId := sort_by cmp (map_to_list (sources d)).*1.
Definition wanted (s : ChunkStore) (c : Z) : Prop :=
  0 ≤ c < cs_chunks s ∧ has s c = false ∧ trusted s (block_of_chunk c) = false.
Definition flying (d : Download) (c : Z) : Prop :=
  ∃ p src, sources d !! p = Some src ∧ c ∈ in_flight src.
Definition copies (d : Download) (c : Z) : nat :=
  length (filter (λ src, advertises src c = true) (map_to_list (sources d)).*2).

Lemma elem_of_peers d p : p ∈ peers_of d ↔ is_Some (sources d !! p).
Proof.
  unfold peers_of. rewrite elem_of_sort_by, list_elem_of_fmap. split.
  - intros ([q src] & -> & Hq%elem_of_map_to_list). by exists src.
  - intros [src Hsrc]. exists (p, src). split; [done|]. by apply elem_of_map_to_list.
Qed.
Lemma NoDup_peers d : NoDup (peers_of d).
Proof. unfold peers_of. rewrite sort_by_perm. apply NoDup_fst_map_to_list. Qed.
Lemma elem_of_sources d src : src ∈ (map_to_list (sources d)).*2 ↔ ∃ p, sources d !! p = Some src.
Proof.
  rewrite list_elem_of_fmap. split.
  - intros ([p src'] & -> & Hp%elem_of_map_to_list). by exists p.
  - intros [p Hp]. exists (p, src). split; [done|]. by apply elem_of_map_to_list.
Qed.

Lemma imap_pair_snd (l : list PeerId) : (imap pair l).*2 = l.
Proof. apply list_eq. intros i. rewrite list_lookup_fmap, list_lookup_imap. by destruct (l !! i). Qed.

Lemma in_flight_union d c :
  c ∈ ⋃ (in_flight <$> (map_to_list (sources d)).*2) ↔ flying d c.
Proof.
  rewrite elem_of_union_list. split.
  - intros (X & (src & -> & [p Hp]%elem_of_sources)%list_elem_of_fmap & Hc). by exists p, src.
  - intros (p & src & Hp & Hc). exists (in_flight src). split; [|done].
    apply list_elem_of_fmap. exists src. split; [done|]. apply elem_of_sources. by exists p.
Qed.

Lemma plan_inv_nothing d cfg file now urgent rarity budget0 assigned0 l :
  plan_inv d cfg file now [] urgent rarity budget0 assigned0 l
    (mkPlanState (sources d) (first_requested d) assigned0 budget0 []) (λ _, []).
Proof.
  destruct (plan_inv_start d cfg file now [] urgent rarity budget0 assigned0) as [Hu Hs Ha Hb Hf Hac Hi Ht].
  split; try done.
  - intros c. rewrite Hf. simpl. destruct (first_requested d !! c); [done|].
    clear. induction l as [|r l IH]; [done|]. simpl. by rewrite <-IH.
  - simpl. clear. induction l as [|r l IH]; [done|]. simpl. by rewrite filter_cons_False by naive_solver.
  - intros i r p src _ Hsrc Hretry. exists assigned0. split_and!; [|done|done|].
    + split; try (by intros c ?%elem_of_nil); [constructor|simpl; unfold slots; lia|constructor].
    + intros j r' q _ _ c Hc. by apply elem_of_nil in Hc.
Qed.

Lemma plan_requests_spec d cfg file window_urgent now budget :
  store_ok (store d) →
  (∀ p src, sources d !! p = Some src → valid (src_bitfield src) (cs_chunks (store d))) →
  ∃ needed rarity st took,
    needed_chunks (store d) = Some needed ∧ NoDup needed ∧ (∀ c, c ∈ needed ↔ wanted (store d) c) ∧
    (∀ c, c ∈ needed → copies d c ≠ 0%nat → rarity !! c = Some (Z.of_nat (copies d c))) ∧
    plan_inv d cfg file now needed (urgent_set d cfg window_urgent now needed) rarity budget
      (⋃ (in_flight <$> (map_to_list (sources d)).*2)) (imap pair (peers_of d)) st took ∧
    plan_requests d cfg file window_urgent now budget =
      Some (set_first_requested (p_first st) (set_srcs (p_sources st) d), p_budget st, p_actions st).
Proof.
  intros Hok Hv. unfold plan_requests. pose proof (needed_chunks_spec _ Hok) as Hneeded.
  set (needed := filter _ _) in Hneeded. rewrite Hneeded. cbn [mbind option_bind].
  assert (NoDup needed) as Hnd by apply NoDup_filter, NoDup_seqZ.
  assert (∀ c, c ∈ needed ↔ wanted (store d) c) as Hin.
  { intros c. unfold needed, wanted. rewrite list_elem_of_filter, elem_of_seqZ, andb_true_iff, !negb_true_iff.
    intuition lia. }
  assert (∀ c, c ∈ needed → 0 ≤ c) as Hpos by (intros c Hc; apply Hin in Hc; apply Hc).
  destruct (rarity_of_spec _ (map_to_list (sources d)).*2 needed (ok_chunk_bound _ Hok)) as (rarity & Hrar & Hrs);
    [intros src [p Hp]%elem_of_sources; by eapply Hv|done|done|].
  assert (∀ c, c ∈ needed → copies d c ≠ 0%nat → rarity !! c = Some (Z.of_nat (copies d c))) as Hcop.
  { intros c Hc Hne. rewrite (Hrs c Hc). cbn zeta. fold (copies d c). by rewrite decide_False. }
  destruct needed as [|c0 needed'] eqn:En.
  - eexists [], rarity, _, _. split_and!; [done..|apply plan_inv_nothing|]. cbn. by destruct d.
  - rewrite <-En in *. rewrite Hrar. cbn [mbind option_bind].
    destruct (plan_loop_inv d cfg file now needed (urgent_set d cfg window_urgent now needed) rarity
      (cs_chunks (store d)) budget (⋃ (in_flight <$> (map_to_list (sources d)).*2))
      (ok_chunk_bound _ Hok) Hnd Hpos Hv (imap pair (peers_of d)) [] _ _ (plan_inv_start _ _ _ _ _ _ _ _ _))
      as (st & took & Hloop & Hinv).
    { rewrite app_nil_l, imap_pair_snd. apply NoDup_peers. }
    exists needed, rarity, st, took. split_and!; [done..|]. unfold peers_of in Hloop. by rewrite Hloop.
Qed.

(** ** Statements *)

Definition plan_ready (d : Download) : Prop :=
  store_ok (store d) ∧
  ∀ p src, sources d !! p = Some src → valid (src_bitfield src) (cs_chunks (store d)).
Definition urgent_of (d : Download) (cfg : DownloadConfig) (window_urgent : bool) (now : Z) : gset Z :=
  urgent_set d cfg window_urgent now (default [] (needed_chunks (store d))).

(** What the plan's actions say of the chunks each source was asked for. *)
Lemma asked_iff d cfg file now needed urgent rarity budget assigned0 st took p cs :
  plan_inv d cfg file now needed urgent rarity budget assigned0 (imap pair (peers_of d)) st took →
  Send p (ChunkRequest file cs) ∈ p_actions st ↔ cs = took p ∧ cs ≠ [].
Proof.
  intros Hinv. rewrite (pi_actions _ _ _ _ _ _ _ _ _ _ _ _ Hinv), imap_pair_snd, list_elem_of_fmap.
  split.
  - intros (q & [= -> ->] & [Hne _]%list_elem_of_filter). done.
  - intros [-> Hne]. exists p. split; [done|]. apply list_elem_of_filter. split; [done|].
    destruct (pi_idle _ _ _ _ _ _ _ _ _ _ _ _ Hinv p Hne) as (src & Hsrc & _).
    apply elem_of_peers. by exists src.
Qed.

(** The turn of a source that is not backing off. *)
Lemma turn_of d cfg file now needed urgent rarity budget assigned0 st took p src :
  plan_inv d cfg file now needed urgent rarity budget assigned0 (imap pair (peers_of d)) st took →
  sources d !! p = Some src → retry_at src ≤ now →
  ∃ rank assigned, peers_of d !! rank = Some p ∧
    turn d cfg needed urgent rarity rank src assigned (slots cfg budget p) (took p) ∧
    assigned0 ⊆ assigned ∧ assigned ⊆ p_assigned st ∧
    ∀ j q, (j < rank)%nat → peers_of d !! j = Some q → ∀ c, c ∈ took q → c ∈ assigned.
Proof.
  intros Hinv Hsrc Hretry. assert (p ∈ peers_of d) as [rank Hrank]%list_elem_of_lookup
    by (apply elem_of_peers; by exists src).
  assert (imap pair (peers_of d) !! rank = Some (rank, p)) as Hi by (by rewrite list_lookup_imap, Hrank).
  destruct (pi_turn _ _ _ _ _ _ _ _ _ _ _ _ Hinv rank rank p src Hi Hsrc Hretry)
    as (A & Ht & H1 & H2 & H3).
  exists rank, A. split_and!; [done..|]. intros j q Hj Hq. apply (H3 j j q Hj).
  by rewrite list_lookup_imap, Hq.
Qed.

(** Chunks asked of two sources in one plan are urgent. *)
Lemma asked_twice d cfg file now needed urgent rarity budget assigned0 st took p q c :
  plan_inv d cfg file now needed urgent rarity budget assigned0 (imap pair (peers_of d)) st took →
  p ≠ q → c ∈ took p → c ∈ took q → c ∈ urgent.
Proof.
  intros Hinv Hpq Hp Hq. 
  assert (∀ r, c ∈ took r → ∃ src, sources d !! r = Some src ∧ retry_at src ≤ now) as Hsrcs.
  { intros r Hr. apply (pi_idle _ _ _ _ _ _ _ _ _ _ _ _ Hinv). intros Hz. rewrite Hz in Hr.
    by apply elem_of_nil in Hr. }
  destruct (Hsrcs p Hp) as (sp & Hsp & Hrp). destruct (Hsrcs q Hq) as (sq & Hsq & Hrq).
  destruct (turn_of _ _ _ _ _ _ _ _ _ _ _ p sp Hinv Hsp Hrp) as (i & A & Hi & HtA & _ & _ & HA).
  destruct (turn_of _ _ _ _ _ _ _ _ _ _ _ q sq Hinv Hsq Hrq) as (j & B & Hj & HtB & _ & _ & HB).
  assert (∀ rank src assigned l, turn d cfg needed urgent rarity rank src assigned l (took p) ∨
    turn d cfg needed urgent rarity rank src assigned l (took q) → c ∈ assigned → c ∈ urgent) as Hu.
  { intros rank src assigned l Ht Hc. apply dec_stable. intros Hnu.
    assert (candidate cfg urgent rank assigned src c = true) as Hcand.
    { destruct Ht as [Ht|Ht]; by apply (turn_cand _ _ _ _ _ _ _ _ _ _ Ht). }
    unfold candidate in Hcand. rewrite (bool_decide_eq_false_2 (c ∈ urgent)) in Hcand by done.
    rewrite (bool_decide_eq_true_2 (c ∈ assigned)) in Hcand by done. by rewrite !andb_false_r in Hcand. }
  destruct (decide (i = j)) as [->|Hij]; [congruence|].
  destruct (decide (i < j)%nat).
  - eapply Hu; [by right|]. by apply (HB i p).
  - eapply Hu; [by left|]. apply (HA j q); [lia|done|done].
Qed.

Definition ex_plan_config : DownloadConfig := mkDownloadConfig 1 4 30000 5000.
Definition ex_source (retry : Z) : Source := mkSource (mkBitfield [7] 3) ∅ 0 true true 0 0 retry.
(** Three chunks wanted; of four sources the third is backing off. *)
Definition ex_download : Download :=
  mkDownload (mkChunkStore "f" 600000 3 1 (mkBitfield [0] 3) [false]) (mkEd2kHash []) 600000 Pending
    {[mkUserId "a" := ex_source 0; mkUserId "b" := ex_source 0; mkUserId "c" := ex_source 1000;
      mkUserId "d" := ex_source 0]} ∅ 0 {[2 := 5]} no_stats 0 false.

Lemma ex_plan_ready : plan_ready ex_download.
Proof.
  assert (valid (mkBitfield [7] 3) 3) as Hv.
  { apply is_valid_for_iff; [lia| |reflexivity]. repeat constructor; unfold is_byte; lia. }
  split.
  - split; [|reflexivity|reflexivity| |reflexivity].
    + unfold MAX_SIZE, u32_modulus. change CHUNK_SIZE with 256000. change CPB with 38. simpl. lia.
    + apply is_valid_for_iff; [simpl; lia| |reflexivity]. repeat constructor; unfold is_byte; lia.
  - intros p src Hp. assert (src_bitfield src = mkBitfield [7] 3) as ->; [|exact Hv].
    assert (map_Forall (λ _ src, src_bitfield src = mkBitfield [7] 3) (sources ex_download)) as Hall.
    { repeat (apply map_Forall_insert_2; [reflexivity|]). apply map_Forall_empty. }
    by apply (Hall p).
Qed.

(** C28. Planning never panics and asks only for what makes sense. A request goes to
    a present source that is not backing off, once per source, for distinct
    chunks that are still needed, that the source advertises and that it was not
    already asked for. A bulk chunk is asked of one of the first [max_sources]
    sources only, is in flight nowhere else, and does not take the source past
    its shared budget; only urgent chunks are asked of several sources. The
    chunks asked for are then in flight, and nothing else changed. *)
Theorem plan_requests_sound d cfg file window_urgent now budget :
  plan_ready d →
  let urgent := urgent_of d cfg window_urgent now in
  ∃ d' budget' actions,
    plan_requests d cfg file window_urgent now budget = Some (d', budget', actions) ∧
    (∀ a, a ∈ actions → ∃ p cs, a = Send p (ChunkRequest file cs)) ∧
    (∀ p cs, Send p (ChunkRequest file cs) ∈ actions → ∃ rank src,
       peers_of d !! rank = Some p ∧ sources d !! p = Some src ∧ retry_at src ≤ now ∧
       cs ≠ [] ∧ NoDup cs ∧
       (∀ c, c ∈ cs → wanted (store d) c ∧ advertises src c = true ∧ (c ∉ in_flight src) ∧
          (c ∉ urgent → Z.of_nat rank < max_sources cfg ∧ ¬ flying d c)) ∧
       (bulk urgent cs ≠ [] → default 0 (budget !! p) + Z.of_nat (length (bulk urgent cs)) ≤ pipeline_depth cfg) ∧
       default 0 (budget' !! p) = default 0 (budget !! p) + Z.of_nat (length cs) ∧
       sources d' !! p = Some (set_in_flight (in_flight src ∪ list_to_set cs) src)) ∧
    (∀ p cs q ks c, Send p (ChunkRequest file cs) ∈ actions → Send q (ChunkRequest file ks) ∈ actions →
       c ∈ cs → c ∈ ks → (p = q ∧ cs = ks) ∨ c ∈ urgent) ∧
    (∀ p, (∀ cs, Send p (ChunkRequest file cs) ∉ actions) →
       sources d' !! p = sources d !! p ∧ default 0 (budget' !! p) = default 0 (budget !! p)).
Proof.
  intros [Hok Hv] urgent. destruct (plan_requests_spec d cfg file window_urgent now budget Hok Hv)
    as (needed & rarity & st & took & Hn & Hnd & Hin & _ & Hinv & ->).
  assert (urgent = urgent_set d cfg window_urgent now needed) as Hu by (unfold urgent, urgent_of; by rewrite Hn).
  rewrite <-Hu in Hinv. clear Hu.
  pose proof (λ p cs, asked_iff d _ _ _ _ _ _ _ _ _ _ p cs Hinv) as Hasked.
  eexists _, _, _. split; [done|]. split_and!.
  - intros a. rewrite (pi_actions _ _ _ _ _ _ _ _ _ _ _ _ Hinv), list_elem_of_fmap.
    intros (p & -> & _). by eexists _, _.
  - intros p cs [-> Hne]%Hasked.
    destruct (pi_idle _ _ _ _ _ _ _ _ _ _ _ _ Hinv p Hne) as (src & Hsrc & Hretry).
    destruct (turn_of _ _ _ _ _ _ _ _ _ _ _ p src Hinv Hsrc Hretry) as (rank & A & Hr & Ht & H0 & _ & _).
    exists rank, src. split_and!; [done..|by eapply turn_NoDup| | | |].
    + intros c [Hc Hcand]%(turn_cand _ _ _ _ _ _ _ _ _ _ Ht). unfold candidate in Hcand.
      apply andb_true_iff in Hcand as [[Hadv Hfl%negb_true_iff%bool_decide_eq_false]%andb_true_iff Hb].
      split_and!; [by apply Hin|done|done|]. intros Hu. rewrite bool_decide_eq_false_2 in Hb by done.
      apply andb_true_iff in Hb as [Hrk%negb_true_iff%Z.leb_gt Has%negb_true_iff%bool_decide_eq_false].
      split; [done|]. intros Hf%in_flight_union. by apply Has, H0.
    + intros Hb. pose proof (turn_slots _ _ _ _ _ _ _ _ _ _ Ht) as Hs. unfold slots in Hs.
      destruct (bulk urgent (took p)); [done|]. cbn [length] in *. lia.
    + apply (pi_budget _ _ _ _ _ _ _ _ _ _ _ _ Hinv).
    + cbn [sources set_first_requested set_srcs]. by rewrite (pi_sources _ _ _ _ _ _ _ _ _ _ _ _ Hinv), Hsrc.
  - intros p cs q ks c [-> _]%Hasked [-> _]%Hasked Hp Hq. destruct (decide (p = q)) as [->|Hne]; [by left|].
    right. by eapply asked_twice.
  - intros p Hno. assert (took p = []) as Hz.
    { apply dec_stable. intros Hne. apply (Hno (took p)). by apply Hasked. }
    cbn [sources set_first_requested set_srcs].
    rewrite (pi_sources _ _ _ _ _ _ _ _ _ _ _ _ Hinv), (pi_budget _ _ _ _ _ _ _ _ _ _ _ _ Hinv), Hz. split.
    + destruct (sources d !! p) as [src|]; [|done]. simpl. rewrite union_empty_r_L. by destruct src.
    + simpl. lia.
Qed.

Lemma plan_requests_sound_witness :
  (plan_requests ex_download ex_plan_config (mkEd2kHash []) true 100 ∅ ≫= λ r, Some r.2) =
    Some [Send (mkUserId "a") (ChunkRequest (mkEd2kHash []) [0]);
          Send (mkUserId "b") (ChunkRequest (mkEd2kHash []) [1]);
          Send (mkUserId "d") (ChunkRequest (mkEd2kHash []) [2])] ∧
  ∃ d' budget' actions,
    plan_requests ex_download ex_plan_config (mkEd2kHash []) true 100 ∅ = Some (d', budget', actions).
Proof.
  split; [vm_compute; reflexivity|].
  destruct (plan_requests_sound ex_download ex_plan_config (mkEd2kHash []) true 100 ∅ ex_plan_ready)
    as (d' & b' & acts & Heq & _).
  by exists d', b', acts.
Defined.

(** Bulk order: the playable window first and in file order, then the chunks
    fewest sources have. *)
Definition before (d : Download) (a b : Z) : Prop :=
  if in_window d a then in_window d b = true → a ≤ b
  else in_window d b = false ∧ ((copies d a < copies d b)%nat ∨ (copies d a = copies d b ∧ a ≤ b)).

Lemma key_before d urgent rarity a b :
  a ∉ urgent → b ∉ urgent →
  rarity !! a = Some (Z.of_nat (copies d a)) → rarity !! b = Some (Z.of_nat (copies d b)) →
  ord_le (key d urgent rarity a) (key d urgent rarity b) → before d a b.
Proof.
  intros Ha Hb Hra Hrb. unfold key, candidate_key, before.
  rewrite !bool_decide_eq_false_2, Hra, Hrb by done. cbn [default orb negb].
  unfold ord_le, cmp, prod_ord. cbn [fst snd].
  destruct (in_window d a), (in_window d b); cbn; intros Hle; try done.
  split; [done|]. unfold cmp, prod_ord in Hle. cbn [fst snd] in Hle. unfold cmp, Z_ord in Hle.
  destruct (Z.compare_spec (Z.of_nat (copies d a)) (Z.of_nat (copies d b))) as [He|Hl|Hg]; simpl in Hle.
  - right. split; [lia|]. by apply Z.compare_le_iff.
  - left. lia.
  - done.
Qed.

Lemma advertised_copies d p src c :
  sources d !! p = Some src → advertises src c = true → copies d c ≠ 0%nat.
Proof.
  intros Hp Hc. unfold copies. intros Hz%length_zero_iff_nil.
  assert (src ∈ filter (λ src, advertises src c = true) (map_to_list (sources d)).*2) as Hin.
  { apply list_elem_of_filter. split; [done|]. apply elem_of_sources. by exists p. }
  rewrite Hz in Hin. by apply elem_of_nil in Hin.
Qed.

Lemma plan_requests_work d cfg file window_urgent now budget d' budget' actions :
  plan_ready d → plan_requests d cfg file window_urgent now budget = Some (d', budget', actions) →
  ∀ rank p src c, peers_of d !! rank = Some p → sources d !! p = Some src → retry_at src ≤ now →
    wanted (store d) c → advertises src c = true →
    (c ∈ urgent_of d cfg window_urgent now →
       ∃ src', sources d' !! p = Some src' ∧ c ∈ in_flight src') ∧
    (Z.of_nat rank < max_sources cfg →
       flying d' c ∨
       pipeline_depth cfg ≤ default 0 (budget' !! p) ∧
       ∀ cs c', Send p (ChunkRequest file cs) ∈ actions → c' ∈ cs →
         c' ∈ urgent_of d cfg window_urgent now ∨ before d c' c).
Proof.
  intros [Hok Hv] Hplan rank p src c Hrank Hsrc Hretry Hc Hadv. set (urgent := urgent_of _ _ _ _).
  destruct (plan_requests_spec d cfg file window_urgent now budget Hok Hv)
    as (needed & rarity & st & took & Hn & Hnd & Hin & Hrar & Hinv & Heq).
  rewrite Hplan in Heq. simplify_eq/=.
  assert (urgent = urgent_set d cfg window_urgent now needed) as Hu by (unfold urgent, urgent_of; by rewrite Hn).
  rewrite <-Hu in Hinv. clear Hu. apply Hin in Hc.
  destruct (turn_of _ _ _ _ _ _ _ _ _ _ _ p src Hinv Hsrc Hretry) as (rank' & A & Hr & Ht & H0 & HA & _).
  assert (rank' = rank) as -> by (eapply NoDup_lookup; [apply NoDup_peers|done..]).
  assert (∀ q sq, sources d !! q = Some sq → ∃ sq', p_sources st !! q = Some sq' ∧
    in_flight sq' = in_flight sq ∪ list_to_set (took q)) as Hsrcs.
  { intros q sq Hq. rewrite (pi_sources _ _ _ _ _ _ _ _ _ _ _ _ Hinv), Hq. by eexists. }
  destruct (Hsrcs p src Hsrc) as (src' & Hsrc' & Hfl').
  destruct (decide (c ∈ in_flight src')) as [Hfl|Hnfl].
  { split; [by exists src'|]. intros _. left. by exists p, src'. }
  assert ((c ∉ in_flight src) ∧ c ∉ took p) as [Hnf Hnt] by (rewrite Hfl' in Hnfl; set_solver).
  assert (c ∉ urgent) as Hnu.
  { intros Hcu. apply Hnt. apply (turn_urgent _ _ _ _ _ _ _ _ _ _ Ht c Hc Hcu). unfold candidate.
    by rewrite Hadv, !bool_decide_eq_false_2, bool_decide_eq_true_2 by done. }
  split; [done|]. intros Hcap.
  destruct (decide (c ∈ p_assigned st)) as [Has|Hnas].
  { left. apply (pi_assigned _ _ _ _ _ _ _ _ _ _ _ _ Hinv) in Has as [(q & sq & Hq & Hcq)%in_flight_union|[q Hcq]].
    - destruct (Hsrcs q sq Hq) as (sq' & Hq' & Hf'). exists q, sq'. split; [done|]. rewrite Hf'. set_solver.
    - destruct (pi_idle _ _ _ _ _ _ _ _ _ _ _ _ Hinv q) as (sq & Hq & _).
      { intros Hz. rewrite Hz in Hcq. by apply elem_of_nil in Hcq. }
      destruct (Hsrcs q sq Hq) as (sq' & Hq' & Hf'). exists q, sq'. split; [done|]. rewrite Hf'. set_solver. }
  assert (candidate cfg urgent rank A src c = true) as Hcand.
  { unfold candidate. rewrite Hadv, !bool_decide_eq_false_2 by (done || set_solver). simpl.
    rewrite andb_true_r. by apply negb_true_iff, Z.leb_gt. }
  destruct (turn_left _ _ _ _ _ _ _ _ _ _ Ht c Hc Hcand Hnt) as [Hfull Hfirst].
  right. split.
  - rewrite (pi_budget _ _ _ _ _ _ _ _ _ _ _ _ Hinv). unfold slots in Hfull.
    assert (length (bulk urgent (took p)) ≤ length (took p))%nat by apply length_filter. lia.
  - intros cs c' [-> _]%(asked_iff _ _ _ _ _ _ _ _ _ _ _ _ _ Hinv) Hc'.
    destruct (decide (c' ∈ urgent)) as [|Hnu']; [by left|right].
    destruct (turn_cand _ _ _ _ _ _ _ _ _ _ Ht c' Hc') as [Hn' Hcand'].
    apply key_before with urgent rarity; [done..| | |by apply Hfirst].
    + apply Hrar; [done|]. eapply advertised_copies; [done|]. unfold candidate in Hcand'.
      by destruct (advertises src c').
    + apply Hrar; [done|]. by eapply advertised_copies.
Qed.

Lemma plan_requests_work_conserving_inv d cfg file window_urgent now budget d' budget' actions :
  plan_ready d → plan_requests d cfg file window_urgent now budget = Some (d', budget', actions) →
  ∀ rank p src c, peers_of d !! rank = Some p → sources d !! p = Some src → retry_at src ≤ now →
    Z.of_nat rank < max_sources cfg → wanted (store d) c → advertises src c = true →
    flying d' c ∨ pipeline_depth cfg ≤ default 0 (budget' !! p).
Proof.
  intros Hr Hp rank p src c H1 H2 H3 H4 H5 H6.
  destruct (plan_requests_work d cfg file window_urgent now budget d' budget' actions Hr Hp rank p src c H1 H2 H3 H5 H6)
    as [_ Hw]. destruct (Hw H4) as [?|[? _]]; auto.
Qed.

(** C29. No source is left idle while it has work, and none does the wrong work
    first. After planning, take any source that is not backing off and any
    needed chunk it advertises. If the chunk is urgent it is in flight from that
    very source. Otherwise, if the source is one of the first [max_sources], the
    chunk is in flight somewhere or the source's shared budget is used up; and
    what was asked of the source instead was urgent or comes [before] it. *)
Theorem plan_requests_work_conserving d cfg file window_urgent now budget d' budget' actions :
  plan_ready d → plan_requests d cfg file window_urgent now budget = Some (d', budget', actions) →
  ∀ rank p src c, peers_of d !! rank = Some p → sources d !! p = Some src → retry_at src ≤ now →
    wanted (store d) c → advertises src c = true →
    (c ∈ urgent_of d cfg window_urgent now →
       ∃ src', sources d' !! p = Some src' ∧ c ∈ in_flight src') ∧
    (Z.of_nat rank < max_sources cfg →
       flying d' c ∨
       pipeline_depth cfg ≤ default 0 (budget' !! p) ∧
       ∀ cs c', Send p (ChunkRequest file cs) ∈ actions → c' ∈ cs →
         c' ∈ urgent_of d cfg window_urgent now ∨ before d c' c).
Proof. apply plan_requests_work. Qed.

Lemma plan_requests_work_conserving_witness :
  ∃ d' budget' actions,
    plan_requests ex_download ex_plan_config (mkEd2kHash []) true 10000 ∅ = Some (d', budget', actions) ∧
    actions = [Send (mkUserId "a") (ChunkRequest (mkEd2kHash []) [2; 0]);
               Send (mkUserId "b") (ChunkRequest (mkEd2kHash []) [2; 1]);
               Send (mkUserId "c") (ChunkRequest (mkEd2kHash []) [2]);
               Send (mkUserId "d") (ChunkRequest (mkEd2kHash []) [2])] ∧
    (Z.of_nat 2 < 4 → flying d' 1 ∨ 1 ≤ default 0 (budget' !! mkUserId "c") ∧
      ∀ cs c', Send (mkUserId "c") (ChunkRequest (mkEd2kHash []) cs) ∈ actions → c' ∈ cs →
        c' ∈ urgent_of ex_download ex_plan_config true 10000 ∨ before ex_download c' 1).
Proof.
  eexists _, _, _. split; [vm_compute; reflexivity|]. split; [reflexivity|].
  eapply (plan_requests_work_conserving ex_download ex_plan_config (mkEd2kHash []) true 10000 ∅ _ _ _ ex_plan_ready).
  - vm_compute. reflexivity.
  - vm_compute. reflexivity.
  - vm_compute. reflexivity.
  - vm_compute. discriminate.
  - split_and!; [vm_compute; discriminate|reflexivity..].
  - reflexivity.
Defined.
