(* ===== verification/DownloadSafe.v ===== *)
(** * The download scheduler: integrity

    The invariant of all active downloads ([downloads_ok]) and that every
    operation keeps it, whatever peers send and whatever the disk does. From it:
    no operation panics, and a file reported [Complete] is on disk with exactly
    the ed2k hash it was asked for. *)

From stdpp Require Import pretty.
From S2P Require Import Prelude Types Framing Hash Transfer ChunkStore Download DownloadPlan.

Section safe.
Context `{DigestLaws H md4}.
(** The cache path of a file (actors/file.rs [download_path]). *)
Context (download_path : Ed2kHash → string) (path_inj : Inj (=) (=) download_path).

(** ** The invariant *)

Definition sources_ok (n : Z) (m : gmap PeerId Source) : Prop :=
  ∀ p src, m !! p = Some src → valid (src_bitfield src) n.

Definition hashes_ok (disk : Disk) (file : Ed2kHash) (d : Download) : Prop :=
  match block_hashes d with
  | Pending => ∀ b, trusted (store d) b = false
  | Have hashes =>
      Z.of_nat (length hashes) < u32_modulus ∧
      block_hashes_match (store d) file hashes = true ∧ trust_ok disk hashes (store d)
  end.

Record download_ok (disk : Disk) (file : Ed2kHash) (d : Download) : Prop := {
  do_store : store_ok (store d);
  do_disk : on_disk disk (store d);
  do_path : cs_path (store d) = download_path file;
  do_size : cs_size (store d) = d_size d;
  do_root : d_root d = file;
  do_hashes : hashes_ok disk file d;
  do_sources : sources_ok (cs_chunks (store d)) (sources d);
  do_play : 0 ≤ play_chunk d < u32_modulus
}.
Definition downloads_ok (disk : Disk) (ds : Downloads) : Prop :=
  ∀ file d, files ds !! file = Some d → download_ok disk file d.

(** The file at a path is the one asked for. *)
Definition finished (disk : Disk) (file : Ed2kHash) (path : string) (hashes : list Ed2kBlockHash) : Prop :=
  path = download_path file ∧ ∃ bytes, disk !! path = Some bytes ∧
    ed2k_hash_bytes bytes = Some (inr (mkEd2kFileHash file hashes (Z.of_nat (length bytes)))).

Record evolves (disk : Disk) (ds ds' : Downloads) (actions : list DownloadAction) : Prop := {
  ev_config : config ds' = config ds;
  ev_dom f : files ds !! f = None → files ds' !! f = None;
  ev_ok : downloads_ok disk ds';
  ev_complete f path hashes : Complete f path hashes ∈ actions →
    finished disk f path hashes ∧ files ds' !! f = None
}.
Definition sound (disk : Disk) (ds : Downloads) (m : option (Downloads * list DownloadAction)) : Prop :=
  ∃ ds' actions, m = Some (ds', actions) ∧ evolves disk ds ds' actions.

Lemma evolves_refl disk ds : downloads_ok disk ds → evolves disk ds ds [].
Proof. intros Hok. split; [done..|]. by intros f p hs ?%elem_of_nil. Qed.

Lemma evolves_trans disk ds ds1 ds2 a1 a2 :
  evolves disk ds ds1 a1 → evolves disk ds1 ds2 a2 → evolves disk ds ds2 (a1 ++ a2).
Proof.
  intros [C1 D1 O1 F1] [C2 D2 O2 F2]. split; [congruence|by auto|done|].
  intros f p hs [Ha|Ha]%elem_of_app; [|by apply F2]. destruct (F1 f p hs Ha). by auto.
Qed.

Lemma sound_bind disk ds m (k : Downloads → option (Downloads * list DownloadAction)) :
  sound disk ds m → (∀ ds1, downloads_ok disk ds1 → sound disk ds1 (k ds1)) →
  sound disk ds ('(ds1, a1) ← m; '(ds2, a2) ← k ds1; Some (ds2, a1 ++ a2)).
Proof.
  intros (ds1 & a1 & -> & E1) Hk. destruct (Hk ds1 (ev_ok _ _ _ _ E1)) as (ds2 & a2 & Hm & E2).
  cbn [mbind option_bind]. rewrite Hm. cbn [mbind option_bind]. eexists _, _. split; [done|].
  by eapply evolves_trans.
Qed.

(** Actions without a completion. *)
Definition no_complete (actions : list DownloadAction) : Prop :=
  ∀ f path hashes, Complete f path hashes ∉ actions.

(** An operation that replaces one download by another well-formed one. *)
Lemma evolves_put disk ds file d d' actions :
  downloads_ok disk ds → files ds !! file = Some d → download_ok disk file d' →
  no_complete actions → evolves disk ds (put file d' ds) actions.
Proof.
  intros Hok Hd Hd' Hno. split; [done| | |].
  - intros f Hf. simpl. rewrite lookup_insert_ne; [done|congruence].
  - intros f d1. simpl. rewrite lookup_insert_Some. intros [[<- <-]|[_ Hf]]; [done|by apply Hok].
  - intros f p hs Ha. by apply Hno in Ha.
Qed.

(** Only the sources, the anchor and the bookkeeping changed. *)
Record same_core (d d' : Download) : Prop := {
  sc_store : store d' = store d;
  sc_root : d_root d' = d_root d;
  sc_size : d_size d' = d_size d;
  sc_hashes : block_hashes d' = block_hashes d
}.
Lemma download_ok_core disk file d d' :
  download_ok disk file d → same_core d d' → sources_ok (cs_chunks (store d)) (sources d') →
  0 ≤ play_chunk d' < u32_modulus → download_ok disk file d'.
Proof.
  intros [] [Hs Hr Hz Hh] Hsrc Hp. split; rewrite ?Hs, ?Hr, ?Hz; try done.
  unfold hashes_ok in *. by rewrite Hh, Hs.
Qed.

(** A change elsewhere on the disk. *)
Lemma download_ok_disk disk disk' file d :
  download_ok disk file d → disk' !! download_path file = disk !! download_path file →
  download_ok disk' file d.
Proof.
  intros [Hs Hd Hp Hz Hr Hh Hsrc Hpl] Heq.
  assert (contents disk' (store d) = contents disk (store d)) as Hc by (unfold contents; by rewrite Hp, Heq).
  split; [exact Hs| |exact Hp|exact Hz|exact Hr| |exact Hsrc|exact Hpl].
  - unfold on_disk. by rewrite Hc.
  - unfold hashes_ok, trust_ok, good in *. by rewrite Hc.
Qed.
Lemma downloads_ok_disk disk disk' ds file :
  downloads_ok disk ds → (∀ p, p ≠ download_path file → disk' !! p = disk !! p) →
  ∀ f d, f ≠ file → files ds !! f = Some d → download_ok disk' f d.
Proof.
  intros Hok Heq f d Hne Hd. apply (download_ok_disk disk); [by apply Hok|].
  apply Heq. by intros ?%(inj download_path).
Qed.

Lemma store_chunks disk file d : download_ok disk file d → chunk_count (d_size d) = cs_chunks (store d).
Proof. intros Hok. by rewrite (ok_chunks _ (do_store _ _ _ Hok)), (do_size _ _ _ Hok). Qed.

(** ** Source maps *)

Lemma sources_ok_iter_mut {O} n (f : PeerId → Source → Source * list O) m :
  (∀ p src, valid (src_bitfield src) n → valid (src_bitfield (f p src).1) n) →
  sources_ok n m → sources_ok n (iter_mut f m).1.
Proof.
  intros Hf Hm p src. cbn [iter_mut fst]. rewrite map_lookup_imap. intros (s & Hs & [= <-])%bind_Some.
  by eapply Hf, Hm.
Qed.
Lemma sources_ok_alter n (f : Source → Source) p m :
  (∀ src, valid (src_bitfield src) n → valid (src_bitfield (f src)) n) →
  sources_ok n m → sources_ok n (alter f p m).
Proof.
  intros Hf Hm q src. rewrite lookup_alter. case_decide; [|apply Hm].
  intros (s & Hs & ->)%fmap_Some. by eapply Hf, Hm.
Qed.
Lemma sources_ok_delete n p m : sources_ok n m → sources_ok n (delete p m).
Proof. intros Hm q src [_ Hq]%lookup_delete_Some. by eapply Hm. Qed.

Lemma iter_mut_actions {O} (f : PeerId → Source → Source * list O) m a :
  a ∈ (iter_mut f m).2 ↔ ∃ p src, m !! p = Some src ∧ a ∈ (f p src).2.
Proof.
  cbn [iter_mut snd]. rewrite list_elem_of_In, in_concat. split.
  - intros (l & Hl & Ha). apply list_elem_of_In, list_elem_of_fmap in Hl as ([p src] & -> & Hp).
    exists p, src. apply elem_of_map_to_list in Hp. split; [done|]. by apply list_elem_of_In.
  - intros (p & src & Hp & Ha). exists (f p src).2. rewrite <-!list_elem_of_In. split; [|done].
    apply list_elem_of_fmap. exists (p, src). split; [done|]. by apply elem_of_map_to_list.
Qed.
(** ** Planning *)

Lemma plan_ready_ok disk file d : download_ok disk file d → plan_ready d.
Proof. intros Hok. split; apply Hok. Qed.

Lemma plan_requests_ok disk file d cfg window_urgent now budget :
  download_ok disk file d →
  ∃ d' budget' actions, plan_requests d cfg file window_urgent now budget = Some (d', budget', actions) ∧
    download_ok disk file d' ∧ no_complete actions.
Proof.
  intros Hok. destruct (plan_requests_spec d cfg file window_urgent now budget)
    as (needed & rarity & st & took & _ & _ & _ & _ & Hinv & ->); [apply Hok..|].
  eexists _, _, _. split; [done|]. split.
  - eapply download_ok_core; [done|by split| |apply Hok]. intros p src. simpl.
    rewrite (pi_sources _ _ _ _ _ _ _ _ _ _ _ _ Hinv). intros (s & Hs & ->)%fmap_Some. simpl.
    by eapply (do_sources _ _ _ Hok).
  - intros f p hs. rewrite (pi_actions _ _ _ _ _ _ _ _ _ _ _ _ Hinv), list_elem_of_fmap.
    by intros (? & ? & _).
Qed.

Lemma plan_file_sound disk now urgent_sweep ds budget actions file :
  downloads_ok disk ds →
  ∃ ds' budget' more, plan_file now urgent_sweep (ds, budget, actions) file =
      Some (ds', budget', actions ++ more) ∧
    evolves disk ds ds' more ∧ no_complete more.
Proof.
  intros Hok. unfold plan_file.
  assert (∃ ds' budget' more, Some (ds, budget, actions) = Some (ds', budget', actions ++ more) ∧
    evolves disk ds ds' more ∧ no_complete more) as Hskip.
  { exists ds, budget, []. rewrite app_nil_r. split; [done|]. split; [by apply evolves_refl|].
    by intros f p hs ?%elem_of_nil. }
  destruct (files ds !! file) as [d|] eqn:Hd; [|done].
  pose proof (Hok file d Hd) as Hdok. destruct (_ || _); [done|].
  set (go := if existsb _ _ then Some true else _).
  assert (∃ b, go = Some b) as [b ->].
  { unfold go. rewrite (needed_chunks_spec _ (do_store _ _ _ Hdok)). cbn [mbind option_bind].
    repeat case_match; by eexists. }
  cbn [mbind option_bind]. destruct b; [|done].
  destruct (plan_requests_ok disk file d (config ds) (bool_decide (now_playing ds = Some file)) now
    budget Hdok) as (d' & budget' & more & -> & Hd' & Hno).
  cbn [mbind option_bind]. eexists _, _, _. split; [done|]. split; [|done]. by eapply evolves_put.
Qed.

Lemma plan_all_sound disk now urgent_sweep ds :
  downloads_ok disk ds → sound disk ds (plan_all now urgent_sweep ds).
Proof.
  intros Hok. unfold plan_all. generalize (budget_of (map_to_list (files ds)).*2) as budget.
  assert (∀ l ds1 budget actions, downloads_ok disk ds1 → evolves disk ds ds1 actions →
    ∃ ds' budget' actions', fold_m (plan_file now urgent_sweep) (ds1, budget, actions) l =
      Some (ds', budget', actions') ∧ evolves disk ds ds' actions') as Hloop.
  { induction l as [|f l IH]; intros ds1 budget actions Hok1 Hev.
    { by eexists _, _, _. }
    cbn [fold_m]. destruct (plan_file_sound disk now urgent_sweep ds1 budget actions f Hok1)
      as (ds2 & b2 & more & -> & Hev2 & _). cbn [mbind option_bind].
    apply IH; [apply Hev2|]. by eapply evolves_trans. }
  intros budget. destruct (Hloop (priority_ordered_files ds) ds budget [] Hok) as (ds' & b & acts & -> & Hev).
  { by apply evolves_refl. }
  by exists ds', acts.
Qed.

(** ** Bookkeeping *)

Lemma solicit_source file p src n :
  valid (src_bitfield src) n → valid (src_bitfield (solicit file p src).1) n.
Proof. unfold solicit. by case_match. Qed.

Lemma complete_finished disk file d :
  download_ok disk file d → store_complete (store d) = true →
  finished disk file (cs_path (store d)) (match block_hashes d with Have hs => hs | Pending => [] end).
Proof.
  intros Hok Hc. pose proof (do_hashes _ _ _ Hok) as Hh. unfold hashes_ok in Hh.
  pose proof (proj1 (complete_iff _ (do_store _ _ _ Hok)) Hc) as [Hpos Hall].
  split; [apply Hok|]. destruct (block_hashes d) as [|hashes].
  { specialize (Hall 0 ltac:(lia)). by rewrite Hh in Hall. }
  destruct Hh as (Hlt & Hm & Ht).
  pose proof (complete_store_hash disk hashes (store d) file (do_store _ _ _ Hok) (do_disk _ _ _ Hok) Ht Hc Hlt Hm)
    as Heq.
  assert (0 < cs_size (store d)) as Hsz.
  { destruct (progress_spec _ (do_store _ _ _ Hok) Hpos) as (_ & ? & _). done. }
  pose proof (do_disk _ _ _ Hok Hsz) as Hlen. unfold contents in *.
  destruct (disk !! cs_path (store d)) as [bytes|]; simpl in *; [|lia].
  exists bytes. by rewrite Hlen.
Qed.

Lemma progress_and_solicit_sound disk file ds :
  downloads_ok disk ds → sound disk ds (progress_and_solicit file ds).
Proof.
  intros Hok. unfold progress_and_solicit. destruct (files ds !! file) as [d|] eqn:Hd.
  2: { exists ds, []. split; [done|]. by apply evolves_refl. }
  pose proof (Hok file d Hd) as Hdok. destruct (store_complete (store d)) eqn:Hc.
  { eexists _, _. split; [done|]. split; [done| | |].
    - intros f Hf. simpl. by rewrite lookup_delete_None; right.
    - intros f d'. simpl. intros [_ Hf]%lookup_delete_Some. by apply Hok.
    - intros f p hs [= -> -> ->]%list_elem_of_singleton. split; [by apply complete_finished|].
      apply lookup_delete_eq. }
  pose proof (sources_ok_iter_mut _ (solicit file) (sources d) (λ p src, solicit_source file p src _) (do_sources _ _ _ Hdok)) as Hsrc.
  assert (no_complete (iter_mut (solicit file) (sources d)).2) as Hno.
  { intros f p hs (q & src & _ & Ha)%iter_mut_actions. unfold solicit in Ha. case_match; set_solver. }
  destruct (iter_mut (solicit file) (sources d)) as [srcs asks]. cbn [fst snd] in *.
  assert (download_ok disk file (set_srcs srcs d)) as Hd1 by (eapply download_ok_core; [done|by split|done|apply Hdok]).
  assert (∀ d' acts, download_ok disk file d' → no_complete acts →
    sound disk ds (Some (put file d' ds, acts))) as Hput.
  { intros d' acts Hd' Hna. eexists _, _. split; [done|]. by eapply evolves_put. }
  cbn [block_hashes set_srcs store play_chunk last_progress_bps last_playable].
  destruct (block_hashes d) as [|hashes]; [by apply Hput|].
  destruct (playable_spec (store d) (play_chunk d) (do_store _ _ _ Hdok) (do_play _ _ _ Hdok)) as (pl & -> & _).
  assert (∃ bps, progress_bps (store d) = Some bps) as [bps ->].
  { pose proof (ok_block_bound _ (do_store _ _ _ Hdok)). destruct (decide (cs_blocks (store d) = 0)) as [Hz|].
    - unfold progress_bps. rewrite Hz. by eexists.
    - destruct (progress_spec (store d) (do_store _ _ _ Hdok)) as (_ & _ & Hp & _); [lia|]. by eexists. }
  cbn [mbind option_bind]. case_match; apply Hput; try done.
  - eapply download_ok_core; [exact Hd1|by split|apply Hd1|apply Hd1].
  - intros f p hs [?|?]%elem_of_app; [by eapply Hno|set_solver].
Qed.

Lemma progress_and_refill_sound disk file now ds :
  downloads_ok disk ds → sound disk ds (progress_and_refill file now ds).
Proof.
  intros Hok. unfold progress_and_refill. apply (sound_bind disk ds _ (plan_all now false)).
  - by apply progress_and_solicit_sound.
  - intros ds1 Hok1. by apply plan_all_sound.
Qed.

(** An update of one download, and then a refill. *)
Lemma put_refill_sound disk file now ds d d' :
  downloads_ok disk ds → files ds !! file = Some d → download_ok disk file d' →
  sound disk ds (progress_and_refill file now (put file d' ds)).
Proof.
  intros Hok Hd Hd'.
  pose proof (evolves_put disk ds file d d' [] Hok Hd Hd' ltac:(by intros f p hs ?%elem_of_nil)) as Hev.
  destruct (progress_and_refill_sound disk file now _ (ev_ok _ _ _ _ Hev)) as (ds' & acts & -> & Hev').
  exists ds', acts. split; [done|]. by apply (evolves_trans _ _ _ _ [] acts Hev).
Qed.

Lemma snub_evolves disk file now ds :
  downloads_ok disk ds → evolves disk ds (snub file now ds).1 (snub file now ds).2.
Proof.
  intros Hok. unfold snub. destruct (files ds !! file) as [d|] eqn:Hd; [|by apply evolves_refl].
  set (timeout := snub_timeout_millis (config ds)).
  pose proof (Hok file d Hd) as Hdok. generalize ((filter (λ ps, silent now timeout ps.2 = true) (map_to_list (sources d))).*1).
  intros snubbed.
  assert (∀ l d1 a1, download_ok disk file d1 → no_complete a1 →
    download_ok disk file (foldl (snub_source file) (d1, a1) l).1 ∧
    no_complete (foldl (snub_source file) (d1, a1) l).2) as Hloop.
  { induction l as [|p l IH]; intros d1 a1 Hd1 Ha1; [done|]. cbn [foldl]. unfold snub_source at 2 4.
    destruct (sources d1 !! p) as [src|]; [|by apply IH]. cbn [drain_in_flight]. apply IH.
    - eapply download_ok_core; [done|by split|by apply sources_ok_delete, Hd1|apply Hd1].
    - intros f q hs [?|?]%elem_of_app; [by eapply Ha1|set_solver]. }
  destruct (Hloop snubbed d [] Hdok) as [Hd1 Ha1]; [by intros f p hs ?%elem_of_nil|].
  destruct (foldl _ _ _) as [d1 a1]. cbn [fst snd] in *.
  set (need := match block_hashes d1 with Pending => true | Have _ => false end).
  assert (sources_ok (cs_chunks (store d1)) (iter_mut (resolicit file need now timeout) (sources d1)).1) as Hsrc.
  { apply sources_ok_iter_mut; [|apply Hd1]. intros p src Hv. unfold resolicit. by repeat case_match. }
  assert (no_complete (iter_mut (resolicit file need now timeout) (sources d1)).2) as Ha2.
  { intros f p hs (q & src & _ & Ha)%iter_mut_actions. unfold resolicit in Ha. repeat case_match; set_solver. }
  destruct (iter_mut _ _) as [srcs a2]. cbn [fst snd] in *. eapply evolves_put; [done..| |].
  - eapply download_ok_core; [exact Hd1|by split|done|apply Hd1].
  - intros f p hs [?|?]%elem_of_app; [by eapply Ha1|by eapply Ha2].
Qed.

Lemma tick_sound disk now ds : downloads_ok disk ds → sound disk ds (tick now ds).
Proof.
  intros Hok. unfold tick.
  assert (∀ l ds1 a1, evolves disk ds ds1 a1 → sound disk ds (fold_m (tick_file now) (ds1, a1) l)) as Hloop.
  { induction l as [|f l IH]; intros ds1 a1 Hev; [by eexists _, _|]. cbn [fold_m tick_file].
    pose proof (snub_evolves disk f now ds1 (ev_ok _ _ _ _ Hev)) as Hev1.
    destruct (snub f now ds1) as [ds2 a2]. cbn [fst snd] in *.
    destruct (progress_and_solicit_sound disk f ds2 (ev_ok _ _ _ _ Hev1)) as (ds3 & a3 & -> & Hev3).
    cbn [mbind option_bind]. apply IH. eapply evolves_trans; [done|]. by eapply evolves_trans. }
  apply (sound_bind disk ds _ (plan_all now true)).
  - apply Hloop. by apply evolves_refl.
  - intros ds1 Hok1. by apply plan_all_sound.
Qed.

(** ** Operations *)

Lemma no_complete_nil : no_complete [].
Proof. by intros f p hs ?%elem_of_nil. Qed.

Lemma cancel_elsewhere_spec disk file index from ds d :
  downloads_ok disk ds → files ds !! file = Some d →
  ∃ srcs, (cancel_elsewhere file index from ds).1 = put file (set_srcs srcs d) ds ∧
    sources_ok (cs_chunks (store d)) srcs ∧ no_complete (cancel_elsewhere file index from ds).2.
Proof.
  intros Hok Hd. unfold cancel_elsewhere. rewrite Hd.
  assert (sources_ok (cs_chunks (store d)) (iter_mut (retract file index from) (sources d)).1) as Hs.
  { apply sources_ok_iter_mut; [|by apply (do_sources _ _ _ (Hok _ _ Hd))].
    intros p src Hv. unfold retract. by case_match. }
  assert (no_complete (iter_mut (retract file index from) (sources d)).2) as Ha.
  { intros f p hs (q & src & _ & Ha)%iter_mut_actions. unfold retract in Ha. case_match; set_solver. }
  destruct (iter_mut (retract file index from) (sources d)) as [srcs acts]. by exists srcs.
Qed.

Lemma verify_download disk io file d hashes s' r :
  download_ok disk file d → block_hashes d = Have hashes →
  verify io disk (store d) hashes = Some (s', r) → ∀ t, download_ok disk file (set_stats t (set_store s' d)).
Proof.
  intros Hok Hh Hv t. pose proof (do_hashes _ _ _ Hok) as Hok'. unfold hashes_ok in Hok'. rewrite Hh in Hok'.
  destruct Hok' as (Hl & Hm & Ht).
  pose proof Hm as Hlen. apply andb_true_iff in Hlen as [Hlen%Z.eqb_eq _].
  unfold u32_wrap in Hlen. rewrite Z.mod_small in Hlen by lia.
  destruct (verify_spec io disk (store d) hashes (do_store _ _ _ Hok) (do_disk _ _ _ Hok) Hlen)
    as (s1 & r1 & Hv1 & done & rest & _ & Hj & _). rewrite Hv in Hv1. simplify_eq.
  destruct (judged_chunks _ _ _ _ _ (do_store _ _ _ Hok) Hj) as [Hc Hb].
  split; cbn; [apply Hj|by eapply judged_on_disk, Hok| | |apply Hok| | |apply Hok].
  - by rewrite (judged_path _ _ _ _ _ Hj), (do_path _ _ _ Hok).
  - by rewrite (judged_size _ _ _ _ _ Hj), (do_size _ _ _ Hok).
  - unfold hashes_ok. cbn. rewrite Hh. split_and!; [done| |by eapply judged_trust; [apply Hok|..]].
    unfold block_hashes_match in *. by rewrite Hb, (judged_size _ _ _ _ _ Hj).
  - rewrite Hc. apply Hok.
Qed.

Lemma verify_and_collect_ok disk io file ds :
  downloads_ok disk ds →
  ∃ ds', verify_and_collect io disk file ds = Some ds' ∧ evolves disk ds ds' [].
Proof.
  intros Hok. unfold verify_and_collect. destruct (files ds !! file) as [d|] eqn:Hd.
  2: { exists ds. split; [done|]. by apply evolves_refl. }
  pose proof (Hok file d Hd) as Hdok. destruct (block_hashes d) as [|hashes] eqn:Hh.
  { exists ds. split; [done|]. by apply evolves_refl. }
  pose proof (do_hashes _ _ _ Hdok) as Hok'. unfold hashes_ok in Hok'. rewrite Hh in Hok'.
  destruct Hok' as (Hl & Hm & Ht). apply andb_true_iff in Hm as [Hlen%Z.eqb_eq _].
  unfold u32_wrap in Hlen. rewrite Z.mod_small in Hlen by lia.
  destruct (verify_spec io disk (store d) hashes (do_store _ _ _ Hdok) (do_disk _ _ _ Hdok) Hlen)
    as (s1 & r1 & Hv & _). rewrite Hv. cbn [mbind option_bind].
  eexists. split; [done|]. eapply evolves_put; [done|done| |apply no_complete_nil].
  by eapply verify_download.
Qed.

Lemma on_block_hashes_sound disk io file from hashes now ds :
  downloads_ok disk ds → Z.of_nat (length hashes) < u32_modulus →
  sound disk ds (on_block_hashes io disk file from hashes now ds).
Proof.
  intros Hok Hl. unfold on_block_hashes. destruct (files ds !! file) as [d|] eqn:Hd.
  2: { exists ds, []. split; [done|]. by apply evolves_refl. }
  pose proof (Hok file d Hd) as Hdok. destruct (block_hashes d) as [|hs] eqn:Hh.
  2: { exists ds, []. split; [done|]. by apply evolves_refl. }
  destruct (block_hashes_match _ _ _) eqn:Hm; cbn [negb].
  - assert (download_ok disk file (set_srcs (alter (set_hashes_replied true) from (sources d))
      (set_block_hashes (Have hashes) d))) as Hd1.
    { destruct Hdok as [Hs Hdk Hp Hz Hr Hok' Hsrc Hpl]. split; try done.
      - unfold hashes_ok in *. cbn. rewrite Hh in Hok'. rewrite Hr in Hm.
        split_and!; [done..|]. by apply trust_ok_none.
      - cbn. by apply sources_ok_alter. }
    pose proof (evolves_put disk ds file d _ [] Hok Hd Hd1 no_complete_nil) as Hev.
    destruct (verify_and_collect_ok disk io file _ (ev_ok _ _ _ _ Hev)) as (ds2 & Hv & Hev2).
    cbn [set_block_hashes sources]. rewrite Hv. cbn [mbind option_bind].
    destruct (progress_and_refill_sound disk file now ds2 (ev_ok _ _ _ _ Hev2)) as (ds3 & acts & -> & Hev3).
    eexists _, _. split; [done|]. eapply (evolves_trans _ _ _ _ [] acts); [exact Hev|].
    by apply (evolves_trans _ _ _ _ [] acts Hev2).
  - eapply put_refill_sound; [done..|]. eapply download_ok_core; [done|by split| |apply Hdok].
    apply sources_ok_delete, Hdok.
Qed.

Lemma set_sources_sound disk file srcs play now ds :
  downloads_ok disk ds → 0 ≤ play < u32_modulus →
  sound disk ds (set_sources file srcs play now ds).
Proof.
  intros Hok Hplay. unfold set_sources. destruct (files ds !! file) as [d|] eqn:Hd.
  2: { exists ds, []. split; [done|]. by apply evolves_refl. }
  pose proof (Hok file d Hd) as Hdok. eapply put_refill_sound; [done..|].
  eapply download_ok_core; [exact Hdok|by split| |done]. cbn [sources set_denied set_srcs].
  set (den := filter _ (denied _)). clearbody den.
  assert (sources_ok (cs_chunks (store d)) (filter (λ ps : PeerId * Source,
    ps.1 ∈ (list_to_set srcs : gset PeerId)) (sources d))) as Hkept.
  { intros p src [Hp _]%map_lookup_filter_Some. by eapply (do_sources _ _ _ Hdok). }
  cbn [sources set_play_chunk]. revert Hkept. generalize (filter (λ ps : PeerId * Source,
    ps.1 ∈ (list_to_set srcs : gset PeerId)) (sources d)) as m. clear Hd.
  induction srcs as [|p l IH]; intros m Hm; [done|]. cbn [foldl]. apply IH. unfold offer.
  case_decide; [done|]. unfold or_insert. destruct (m !! p); [done|].
  intros q src [[<- <-]|[_ Hq]]%lookup_insert_Some; [|by eapply Hm]. cbn.
  rewrite (store_chunks _ _ _ Hdok). apply bf_new_valid.
  pose proof (ok_chunk_bound _ (do_store _ _ _ Hdok)). lia.
Qed.

Lemma requeue_source_evolves disk file peer now ds :
  downloads_ok disk ds → evolves disk ds (requeue_source file peer now ds) [].
Proof.
  intros Hok. unfold requeue_source. destruct (files ds !! file) as [d|] eqn:Hd; [|by apply evolves_refl].
  destruct (sources d !! peer) as [src|] eqn:Hsrc; [|by apply evolves_refl]. cbn [drain_in_flight].
  pose proof (Hok file d Hd) as Hdok. eapply evolves_put; [done|done| |apply no_complete_nil].
  eapply download_ok_core; [exact Hdok|by split| |apply Hdok].
  intros q s. cbn. intros [[<- <-]|[_ Hq]]%lookup_insert_Some.
  - exact (do_sources _ _ _ Hdok peer src Hsrc).
  - by eapply (do_sources _ _ _ Hdok).
Qed.

Lemma cancel_evolves disk file ds :
  downloads_ok disk ds → evolves disk ds (cancel file ds).1 (cancel file ds).2.
Proof.
  intros Hok. unfold cancel. destruct (files ds !! file) as [d|] eqn:Hd; [|by apply evolves_refl].
  split; cbn; [done| | |].
  - intros f Hf. rewrite lookup_delete_None. by right.
  - intros f d'. cbn. intros [_ Hf]%lookup_delete_Some. by apply Hok.
  - intros f p hs ([q src] & _ & Hq)%list_elem_of_omap. by case_decide.
Qed.

(** ** Operations that touch the disk *)

Definition safe_step (m : option (Downloads * Disk * list DownloadAction)) : Prop :=
  ∃ ds' disk' actions, m = Some (ds', disk', actions) ∧ downloads_ok disk' ds' ∧
    ∀ f path hashes, Complete f path hashes ∈ actions →
      finished disk' f path hashes ∧ files ds' !! f = None.

Lemma safe_evolves disk ds ds' actions :
  evolves disk ds ds' actions → safe_step (Some (ds', disk, actions)).
Proof. intros [_ _ Hok Hc]. by exists ds', disk, actions. Qed.
Lemma safe_sound disk ds (m : option (Downloads * list DownloadAction)) :
  sound disk ds m → safe_step ((λ r, (r.1, disk, r.2)) <$> m).
Proof. intros (ds' & acts & -> & Hev). by eapply safe_evolves. Qed.

Lemma written_download disk io file d index data disk' s' r :
  download_ok disk file d → 0 ≤ index → has (store d) index = false →
  write_chunk io disk (store d) index data = Some (disk', s', r) →
  download_ok disk' file (set_store s' d) ∧ ∀ p, p ≠ download_path file → disk' !! p = disk !! p.
Proof.
  intros Hok Hi Hnew Hw.
  destruct (write_chunk_spec io disk (store d) index data (do_store _ _ _ Hok) (do_disk _ _ _ Hok) Hi)
    as (disk1 & s1 & r1 & Hw1 & Hok1 & Hd1 & Hp & Hs & Hother & Ht1 & _).
  rewrite Hw in Hw1. simplify_eq. split; [|by rewrite <-(do_path _ _ _ Hok)].
  assert (cs_chunks s1 = cs_chunks (store d) ∧ cs_blocks s1 = cs_blocks (store d)) as [Hc Hb].
  { pose proof (do_store _ _ _ Hok) as Hst.
    by rewrite (ok_chunks _ Hok1), (ok_blocks _ Hok1), (ok_chunks _ Hst), (ok_blocks _ Hst), Hs. }
  split; cbn; [done|done|by rewrite Hp; apply Hok|by rewrite Hs; apply Hok|apply Hok| |by rewrite Hc; apply Hok|apply Hok].
  pose proof (do_hashes _ _ _ Hok) as Hh. unfold hashes_ok in *. cbn.
  destruct (block_hashes d) as [|hashes]; [intros b; by rewrite Ht1|].
  destruct Hh as (Hl & Hm & Ht). split_and!; [done|by unfold block_hashes_match in *; rewrite Hb, Hs|].
  by eapply write_chunk_trust; [apply Hok..|done|done|done|done].
Qed.

Lemma put_disk_ok disk disk' ds file d :
  downloads_ok disk ds → (∀ p, p ≠ download_path file → disk' !! p = disk !! p) →
  download_ok disk' file d → downloads_ok disk' (put file d ds).
Proof.
  intros Hok Hp Hd f d'. cbn. rewrite lookup_insert_Some. intros [[<- <-]|[Hne Hf]]; [done|].
  eapply downloads_ok_disk; done.
Qed.

Lemma on_chunk_data_safe disk io file from index data now ds :
  downloads_ok disk ds → 0 ≤ index → safe_step (on_chunk_data io disk file from index data now ds).
Proof.
  intros Hok Hi. unfold on_chunk_data. destruct (files ds !! file) as [d|] eqn:Hd.
  2: { eapply safe_evolves. by apply evolves_refl. }
  set (d1 := set_srcs _ _). assert (download_ok disk file d1) as Hd1.
  { pose proof (Hok file d Hd) as Hdok. eapply download_ok_core; [exact Hdok|by split| |apply Hdok].
    cbn. apply sources_ok_alter; [done|apply Hdok]. }
  clearbody d1. rewrite is_written_spec by (apply Hd1 || done). cbn [mbind option_bind].
  destruct (has (store d1) index) eqn:Hhas.
  - set (d2 := set_stats _ d1).
    assert (download_ok disk file d2) as Hd2 by (eapply download_ok_core; [exact Hd1|by split|apply Hd1..]).
    clearbody d2. pose proof (evolves_put disk ds file d d2 [] Hok Hd Hd2 no_complete_nil) as Hev.
    destruct (cancel_elsewhere_spec disk file index from (put file d2 ds) d2 (ev_ok _ _ _ _ Hev))
      as (srcs & Hc1 & Hsrcs & Hno); [apply lookup_insert_eq|].
    destruct (cancel_elsewhere _ _ _ _) as [ds3 acts]. cbn [fst snd] in *. subst ds3.
    eapply safe_evolves. eapply (evolves_put disk _ file d2); [apply Hev|apply lookup_insert_eq| |done].
    eapply download_ok_core; [exact Hd2|by split|done|apply Hd2].
  - destruct (write_chunk_spec io disk (store d1) index data (do_store _ _ _ Hd1) (do_disk _ _ _ Hd1) Hi)
      as (disk' & s' & r & Hw & _).
    rewrite Hw. cbn [mbind option_bind].
    destruct (written_download disk io file d1 index data disk' s' r Hd1 Hi Hhas Hw) as [Hd2 Hother].
    set (d2 := set_store s' d1) in *. clearbody d2.
    assert (downloads_ok disk' (put file d2 ds)) as Hok2 by by eapply put_disk_ok.
    destruct r as [e|u].
    { eexists _, _, _. split; [done|]. split; [done|]. by intros f p hs ?%elem_of_nil. }
    destruct (cancel_elsewhere_spec disk' file index from (put file d2 ds) d2 Hok2)
      as (srcs & Hc1 & Hsrcs & Hno); [apply lookup_insert_eq|].
    destruct (cancel_elsewhere _ _ _ _) as [ds3 acts]. cbn [fst snd] in *. subst ds3.
    assert (evolves disk' (put file d2 ds) (put file (set_srcs srcs d2) (put file d2 ds)) acts) as Hev3.
    { eapply evolves_put; [done|apply lookup_insert_eq| |done].
      eapply download_ok_core; [exact Hd2|by split|done|apply Hd2]. }
    destruct (verify_and_collect_ok disk' io file _ (ev_ok _ _ _ _ Hev3)) as (ds4 & -> & Hev4).
    cbn [mbind option_bind].
    destruct (progress_and_refill_sound disk' file now ds4 (ev_ok _ _ _ _ Hev4)) as (ds5 & a2 & -> & Hev5).
    cbn [mbind option_bind]. eapply safe_evolves. eapply evolves_trans; [exact Hev3|].
    by apply (evolves_trans _ _ _ _ [] a2 Hev4).
Qed.

(** What a decoded message guarantees: bytes are bytes, a list or an index fits
    32 bits (frames are bounded by a [u32]). *)
Definition message_ok (m : PeerMessage) : Prop :=
  match m with
  | FileAvailabilityMsg _ bitfield => Forall is_byte (bits bitfield)
  | BlockHashes _ hashes => Z.of_nat (length hashes) < u32_modulus
  | ChunkData _ index _ => 0 ≤ index < u32_modulus
  | _ => True
  end.

Lemma on_peer_message_safe disk io from m now ds :
  downloads_ok disk ds → message_ok m → safe_step (on_peer_message io from m now (ds, disk)).
Proof.
  intros Hok Hm. pose proof (safe_evolves disk ds ds [] (evolves_refl disk ds Hok)) as Hsame.
  destruct m as [file bf|file|file hashes|file cs|file index data|file cs|file]; cbn [on_peer_message]; try done.
  - destruct (files ds !! file) as [d|] eqn:Hd; [|done].
    pose proof (Hok file d Hd) as Hdok. pose proof (ok_chunk_bound _ (do_store _ _ _ Hdok)) as Hn.
    destruct (is_valid_for bf _) eqn:Hv; [|done]. rewrite (store_chunks _ _ _ Hdok) in Hv.
    apply is_valid_for_iff in Hv; [|lia|done]. cbn [negb].
    apply (safe_sound disk ds), put_refill_sound with d; [done..|].
    eapply download_ok_core; [exact Hdok|by split| |apply Hdok]. cbn.
    by apply sources_ok_alter, Hdok.
  - apply (safe_sound disk ds). by apply on_block_hashes_sound.
  - apply on_chunk_data_safe; [done|]. apply Hm.
  - destruct (files ds !! file) as [d|] eqn:Hd; [|done]. pose proof (Hok file d Hd) as Hdok.
    apply (safe_sound disk ds), put_refill_sound with d; [done..|].
    eapply download_ok_core; [exact Hdok|by split| |apply Hdok]. cbn. apply sources_ok_delete, Hdok.
Qed.

Lemma start_safe disk io file size srcs play now ds :
  downloads_ok disk ds → 0 ≤ size ≤ MAX_SIZE → 0 ≤ play < u32_modulus →
  safe_step (start io file size file (download_path file) srcs play now (ds, disk)).
Proof.
  intros Hok Hs Hp. unfold start, is_active. destruct (files ds !! file) as [d|] eqn:Hd.
  - cbn. destruct (set_sources_sound disk file srcs play now ds Hok Hp) as (ds' & acts & -> & Hev).
    by eapply safe_evolves.
  - cbn. destruct (open_spec io disk (download_path file) size Hs) as (disk' & r & -> & Hother & Hr).
    cbn [mbind option_bind]. destruct r as [e|s].
    { eexists _, _, _. split; [done|]. split; [|by intros f p hs Ha%list_elem_of_singleton].
      intros f d Hf. eapply (downloads_ok_disk disk); [done|done| |done]. congruence. }
    destruct (Hr s eq_refl) as (Hst & Hdk & Hpath & Hsz & Ht).
    set (d := mkDownload _ _ _ _ _ _ _ _ _ _ _).
    assert (download_ok disk' file d) as Hd1.
    { split; [exact Hst|exact Hdk|exact Hpath|exact Hsz|reflexivity|exact Ht| |exact Hp].
      intros p src. cbn. by rewrite lookup_empty. }
    assert (downloads_ok disk' (put file d ds)) as Hok1 by by eapply put_disk_ok.
    destruct (set_sources_sound disk' file srcs play now _ Hok1 Hp) as (ds' & acts & -> & Hev).
    by eapply safe_evolves.
Qed.

(** ** Runs *)

(** What happens to the scheduler: the file actor's calls, the client's restart
    (the partial files survive), and other writers of files that no active
    download owns. *)
Inductive Event :=
| EvStart (io : StoreIo) (file : Ed2kHash) (size : Z) (srcs : list PeerId) (play now : Z)
| EvSources (file : Ed2kHash) (srcs : list PeerId) (play now : Z)
| EvCancel (file : Ed2kHash)
| EvPriority (order : list Ed2kHash) (playing : option Ed2kHash)
| EvPeer (io : StoreIo) (from : PeerId) (message : PeerMessage) (now : Z)
| EvStreamLost (file : Ed2kHash) (peer : PeerId) (now : Z)
| EvRequeue (file : Ed2kHash) (peer : PeerId) (now : Z)
| EvTick (now : Z)
| EvRestart
| EvDisk (path : string) (content : option (list Z)).

Definition owned (ds : Downloads) (path : string) : bool :=
  existsb (λ fd : Ed2kHash * Download, bool_decide (cs_path (store fd.2) = path)) (map_to_list (files ds)).

Definition step (st : Downloads * Disk) (e : Event) : option (Downloads * Disk * list DownloadAction) :=
  let '(ds, disk) := st in
  let keep (r : option (Downloads * list DownloadAction)) := (λ r, (r.1, disk, r.2)) <$> r in
  match e with
  | EvStart io file size srcs play now => start io file size file (download_path file) srcs play now st
  | EvSources file srcs play now => keep (set_sources file srcs play now ds)
  | EvCancel file => keep (Some (cancel file ds))
  | EvPriority order playing => Some (set_priority order playing ds, disk, [])
  | EvPeer io from m now => on_peer_message io from m now st
  | EvStreamLost file peer now => keep (on_source_stream_lost file peer now ds)
  | EvRequeue file peer now => Some (requeue_source file peer now ds, disk, [])
  | EvTick now => keep (tick now ds)
  | EvRestart => Some (new (config ds), disk, [])
  | EvDisk path content =>
      Some (ds, if owned ds path then disk else partial_alter (λ _, content) path disk, [])
  end.

Fixpoint run (st : Downloads * Disk) (es : list Event)
    : option (Downloads * Disk * list DownloadAction) :=
  match es with
  | [] => Some (st.1, st.2, [])
  | e :: es =>
      '(ds, disk, a1) ← step st e;
      '(ds, disk, a2) ← run (ds, disk) es;
      Some (ds, disk, a1 ++ a2)
  end.

Definition event_ok (e : Event) : Prop :=
  match e with
  | EvStart _ _ size _ play _ => 0 ≤ size ≤ MAX_SIZE ∧ 0 ≤ play < u32_modulus
  | EvSources _ _ play _ => 0 ≤ play < u32_modulus
  | EvPeer _ _ m _ => message_ok m
  | _ => True
  end.

Lemma step_safe ds disk e : downloads_ok disk ds → event_ok e → safe_step (step (ds, disk) e).
Proof.
  intros Hok He. destruct e; cbn [step event_ok] in *.
  - apply start_safe; [done|apply He|apply He].
  - by apply (safe_sound disk ds), set_sources_sound.
  - apply (safe_evolves disk ds). by apply cancel_evolves.
  - apply (safe_evolves disk ds). split; [done..|]. by intros f p hs ?%elem_of_nil.
  - by apply on_peer_message_safe.
  - apply (safe_sound disk ds). unfold on_source_stream_lost.
    pose proof (requeue_source_evolves disk file peer now ds Hok) as Hev.
    destruct (progress_and_refill_sound disk file now _ (ev_ok _ _ _ _ Hev)) as (ds' & acts & -> & Hev').
    exists ds', acts. split; [done|]. by apply (evolves_trans _ _ _ _ [] acts Hev).
  - apply (safe_evolves disk ds). by apply requeue_source_evolves.
  - by apply (safe_sound disk ds), tick_sound.
  - apply (safe_evolves disk ds). split; try done. by intros f p hs ?%elem_of_nil.
  - eexists _, _, _. split; [done|]. split; [|by intros f p hs ?%elem_of_nil].
    destruct (owned ds path) eqn:Ho; [done|]. intros f d Hf. apply (download_ok_disk disk); [by apply Hok|].
    rewrite lookup_partial_alter_ne; [done|]. intros Hp.
    assert (owned ds path = true) as Ht; [|congruence]. apply existsb_exists. exists (f, d).
    split; [by apply list_elem_of_In, elem_of_map_to_list|]. apply bool_decide_eq_true. simpl.
    by rewrite Hp, (do_path _ _ _ (Hok f d Hf)).
Qed.

Lemma run_safe es ds disk :
  downloads_ok disk ds → Forall event_ok es →
  ∃ ds' disk' actions, run (ds, disk) es = Some (ds', disk', actions) ∧ downloads_ok disk' ds'.
Proof.
  intros Hok Hes. revert ds disk Hok. induction Hes as [|e es He Hes IH]; intros ds disk Hok.
  { by exists ds, disk, []. }
  destruct (step_safe ds disk e Hok He) as (ds1 & disk1 & a1 & Hs & Hok1 & _).
  destruct (IH ds1 disk1 Hok1) as (ds2 & disk2 & a2 & Hr & Hok2).
  cbn [run]. rewrite Hs. cbn [mbind option_bind]. rewrite Hr. by eexists _, _, _.
Qed.

Lemma new_ok cfg disk : downloads_ok disk (new cfg).
Proof. intros f d. cbn. by rewrite lookup_empty. Qed.

(** ** Statements *)

(** C27. Whatever peers send (wrong chunks, wrong block hashes, lies about what they
    have), however writes and reads fail and whatever the disk held before, no
    event makes the scheduler panic; and whenever it reports a file [Complete],
    the file is at its cache path, hashing those bytes gives exactly the ed2k
    hash that was asked for and the block hashes reported, and the download is
    no longer active. *)
Theorem downloads_deliver_the_file cfg disk es e :
  Forall event_ok es → event_ok e →
  ∃ ds disk1 before, run (new cfg, disk) es = Some (ds, disk1, before) ∧
  ∃ ds' disk' actions, step (ds, disk1) e = Some (ds', disk', actions) ∧
    ∀ file path hashes, Complete file path hashes ∈ actions →
      path = download_path file ∧ files ds' !! file = None ∧
      ∃ bytes, disk' !! path = Some bytes ∧
        ed2k_hash_bytes bytes = Some (inr (mkEd2kFileHash file hashes (Z.of_nat (length bytes)))).
Proof.
  intros Hes He. destruct (run_safe es (new cfg) disk (new_ok cfg disk) Hes)
    as (ds & disk1 & before & Hr & Hok).
  exists ds, disk1, before. split; [done|].
  destruct (step_safe ds disk1 e Hok He) as (ds' & disk' & acts & Hs & _ & Hc).
  exists ds', disk', acts. split; [done|]. intros f p hs Ha. destruct (Hc f p hs Ha) as [[Hp Hb] Hf].
  done.
Qed.
End safe.

(** A download of three bytes, whose first delivery is wrong. *)
Definition ex_file : Ed2kHash := mkEd2kHash [3; 13].
Definition ex_path (f : Ed2kHash) : string := pretty (Npos (encode f)).
Definition ex_events : list Event :=
  [EvStart io_fine ex_file 3 [mkUserId "bob"] 0 0;
   EvPeer io_fine (mkUserId "bob") (BlockHashes ex_file [mkEd2kBlockHash [3; 13]]) 1;
   EvPeer io_fine (mkUserId "bob") (FileAvailabilityMsg ex_file (mkBitfield [1] 1)) 2;
   EvPeer io_fine (mkUserId "bob") (ChunkData ex_file 0 [9; 9; 9]) 3].
#[export] Instance ex_path_inj : Inj (=) (=) ex_path.
Proof. intros f g Hfg. unfold ex_path in Hfg. apply (inj pretty) in Hfg. by simplify_eq. Qed.

Lemma downloads_deliver_the_file_witness :
  (run ex_path (new default_config, ∅) ex_events ≫= λ r, Some r.2) =
    Some [Send (mkUserId "bob") (BlockHashRequest ex_file);
          Send (mkUserId "bob") (ChunkRequest ex_file [0]);
          Send (mkUserId "bob") (ChunkRequest ex_file [0])] ∧
  (run ex_path (new default_config, ∅) (ex_events ++
     [EvPeer io_fine (mkUserId "bob") (ChunkData ex_file 0 [1; 2; 3]) 4]) ≫= λ r, Some (last r.2)) =
    Some (Some (Complete ex_file (ex_path ex_file) [mkEd2kBlockHash [3; 13]])) ∧
  ∃ ds disk1 before, run ex_path (new default_config, ∅) ex_events = Some (ds, disk1, before).
Proof.
  split; [vm_compute; reflexivity|]. split; [vm_compute; reflexivity|].
  destruct (downloads_deliver_the_file (md4 := toy_digest) ex_path _ default_config ∅ ex_events
    (EvPeer io_fine (mkUserId "bob") (ChunkData ex_file 0 [1; 2; 3]) 4)) as (ds & disk1 & b & Hr & _).
  - assert (0 ≤ 3 ≤ MAX_SIZE).
    { unfold MAX_SIZE, u32_modulus. change CHUNK_SIZE with 256000. change CPB with 38. lia. }
    repeat constructor; try done; unfold is_byte; lia.
  - split; [done|reflexivity].
  - by exists ds, disk1, b.
Defined.

(** A resumed file whose bytes on disk are wrong counts them as re-fetched
    although nothing was received for them, so the share of the received bytes
    that was wasted can exceed all of them. *)
Definition ex_resume : list Event :=
  [EvStart io_fine ex_file 3 [mkUserId "bob"] 0 0;
   EvPeer io_fine (mkUserId "bob") (BlockHashes ex_file [mkEd2kBlockHash [3; 13]]) 1;
   EvPeer io_fine (mkUserId "bob") (ChunkData ex_file 0 [1]) 2].
Theorem resumed_bytes_count_as_refetched :
  (run ex_path (new default_config, {[ex_path ex_file := [9; 9; 9]]}) ex_resume
     ≫= λ r, stats r.1.1 ex_file) = Some (mkTransferStats 1 0 3 0) ∧
  retransmit_bps (mkTransferStats 1 0 3 0) = 30000.
Proof. split; vm_compute; reflexivity. Qed.
