(* ===== verification/DownloadPolicy.v ===== *)
(** * The download scheduler: policy across files and over time

    The shared request budget and the priority order of [plan_all]; the backoff
    of sources whose streams die; the snub and re-solicitation of silent
    sources; the transfer counters. *)

From S2P Require Import Prelude Types Framing Hash Transfer ChunkStore Download DownloadPlan.

(** ** The budget is what is in flight *)

Definition load (d : Download) (p : PeerId) : Z :=
  match sources d !! p with Some src => Z.of_nat (size (in_flight src)) | None => 0 end.
(** Chunks in flight from a source, over all files. *)
Definition total (ds : Downloads) (p : PeerId) : Z :=
  foldr Z.add 0 ((λ fd : Ed2kHash * Download, load fd.2 p) <$> map_to_list (files ds)).

Lemma sum_perm (l k : list Z) : l ≡ₚ k → foldr Z.add 0 l = foldr Z.add 0 k.
Proof. induction 1; simpl; lia. Qed.

Lemma bump_sources (l : list (PeerId * Source)) (b : gmap PeerId Z) p :
  NoDup l.*1 →
  default 0 (foldl (λ b ps, bump ps.1 (Z.of_nat (size (in_flight ps.2))) b) b l !! p) =
  default 0 (b !! p) +
    match (list_to_map l : gmap PeerId Source) !! p with Some src => Z.of_nat (size (in_flight src)) | None => 0 end.
Proof.
  revert b. induction l as [|[q src] l IH]; intros b Hnd; simpl; [rewrite lookup_empty; lia|].
  apply NoDup_cons in Hnd as [Hq Hnd]. rewrite IH by done. rewrite bump_lookup. simpl.
  case_decide as Hp.
  - subst. rewrite lookup_insert_eq. rewrite (not_elem_of_list_to_map_1 (M:=gmap PeerId)) by done. lia.
  - rewrite lookup_insert_ne by done. lia.
Qed.

Lemma budget_is_total ds p : default 0 (budget_of (map_to_list (files ds)).*2 !! p) = total ds p.
Proof.
  unfold budget_of, total. rewrite <-(Z.add_0_l (foldr _ _ _)).
  change 0 with (default 0 ((∅ : gmap PeerId Z) !! p)) at 2.
  generalize (∅ : gmap PeerId Z) as b. induction (map_to_list (files ds)) as [|[f d] l IH]; intros b.
  { simpl. lia. }
  rewrite !fmap_cons. cbn [foldl foldr fst snd]. rewrite IH, bump_sources by apply NoDup_fst_map_to_list.
  rewrite list_to_map_to_list. unfold load at 2. lia.
Qed.

Lemma total_put ds file d d' p :
  files ds !! file = Some d → total (put file d' ds) p = total ds p + load d' p - load d p.
Proof.
  intros Hd. unfold total. cbn [put set_files files].
  assert (map_to_list (files ds) ≡ₚ (file, d) :: map_to_list (delete file (files ds))) as Hold.
  { by rewrite map_to_list_delete. }
  assert (map_to_list (<[file := d']> (files ds)) ≡ₚ (file, d') :: map_to_list (delete file (files ds))) as Hnew.
  { rewrite <-insert_delete_eq. apply map_to_list_insert. apply lookup_delete_eq. }
  rewrite (sum_perm _ _ (Permutation_map _ Hold)), (sum_perm _ _ (Permutation_map _ Hnew)). simpl. lia.
Qed.

(** ** One file's turn *)

Definition urgent_in (ds : Downloads) (now : Z) (file : Ed2kHash) (d : Download) : gset Z :=
  urgent_of d (config ds) (bool_decide (now_playing ds = Some file)) now.
Definition ready (ds : Downloads) : Prop := ∀ f d, files ds !! f = Some d → plan_ready d.
(** Urgent chunks an action asks of [p]. *)
Definition urgent_asked (ds : Downloads) (now : Z) (p : PeerId) (a : DownloadAction) : Z :=
  match a with
  | Send q (ChunkRequest file cs) =>
      if decide (q = p) then
        match files ds !! file with
        | Some d => Z.of_nat (length (filter (λ c, c ∈ urgent_in ds now file d) cs))
        | None => 0
        end
      else 0
  | _ => 0
  end.
Definition urgent_total ds now p (actions : list DownloadAction) : Z :=
  foldr Z.add 0 (urgent_asked ds now p <$> actions).

Lemma plan_file_cases now sweep ds budget actions file r :
  plan_file now sweep (ds, budget, actions) file = Some r →
  (r = (ds, budget, actions) ∧
   ∀ d, files ds !! file = Some d → block_hashes d ≠ Pending →
     ∀ p src, sources d !! p = Some src → pipeline_depth (config ds) ≤ default 0 (budget !! p)) ∨
  (∃ d d' budget' more, files ds !! file = Some d ∧
     plan_requests d (config ds) file (bool_decide (now_playing ds = Some file)) now budget =
       Some (d', budget', more) ∧ r = (put file d' ds, budget', actions ++ more)).
Proof.
  unfold plan_file. destruct (files ds !! file) as [d|] eqn:Hd.
  2: { intros [= <-]. left. split; [done|]. by intros d [=]. }
  destruct (bool_decide (sources d = ∅) || _) eqn:Hg.
  { intros [= <-]. left. split; [done|]. intros d1 [= <-] Hp p src Hsrc.
    apply orb_true_iff in Hg as [Hg%bool_decide_eq_true|Hg].
    - by rewrite Hg, lookup_empty in Hsrc.
    - by destruct (block_hashes d). }
  destruct (existsb _ _) eqn:Hb.
  - cbn [mbind option_bind].
    destruct (plan_requests _ _ _ _ _ _) as [[[d' b'] more]|] eqn:Hpl; [|done]. cbn [mbind option_bind].
    intros [= <-]. right. by exists d, d', b', more.
  - assert (∀ p src, sources d !! p = Some src → pipeline_depth (config ds) ≤ default 0 (budget !! p)) as Hfull.
    { intros p src Hsrc. apply Z.nlt_ge. intros Hlt.
      assert (existsb (λ ps : PeerId * Source, default 0 (budget !! ps.1) <? pipeline_depth (config ds))
        (map_to_list (sources d)) = true) as Ht; [|congruence].
      apply existsb_exists. exists (p, src). rewrite <-list_elem_of_In, elem_of_map_to_list.
      split; [done|]. by apply Z.ltb_lt. }
    destruct (if negb sweep then Some false else _) as [[]|]; cbn [mbind option_bind]; [| |done].
    + destruct (plan_requests _ _ _ _ _ _) as [[[d' b'] more]|] eqn:Hpl; [|done]. cbn [mbind option_bind].
      intros [= <-]. right. by exists d, d', b', more.
    + intros [= <-]. left. split; [done|]. intros d1 [= <-] _. apply Hfull.
Qed.

(** What a plan of one file does to the budget of a source. *)
Lemma length_bulk_urgent urgent (cs : list Z) :
  length cs = (length (bulk urgent cs) + length (filter (λ c, c ∈ urgent) cs))%nat.
Proof.
  unfold bulk. induction cs as [|c cs IH]; [done|]. rewrite !filter_cons. cbn [length].
  destruct (decide (c ∈ urgent)).
  - rewrite decide_False by auto. simpl. lia.
  - rewrite decide_True by auto. simpl. lia.
Qed.

Record file_turn (d : Download) (cfg : DownloadConfig) (file : Ed2kHash) (urgent : gset Z)
    (now : Z) (budget : gmap PeerId Z) (d' : Download) (budget' : gmap PeerId Z) (more : list DownloadAction) : Prop := {
  ft_shape a : a ∈ more → ∃ p cs, a = Send p (ChunkRequest file cs);
  ft_asked p ks : Send p (ChunkRequest file ks) ∈ more →
    ∃ src, sources d !! p = Some src ∧ retry_at src ≤ now;
  ft_core : plan_ready d';
  ft_load p : load d' p - load d p = default 0 (budget' !! p) - default 0 (budget !! p);
  ft_budget p : ∃ cs, (∀ ks, Send p (ChunkRequest file ks) ∈ more → ks = cs) ∧
    default 0 (budget' !! p) = default 0 (budget !! p) + Z.of_nat (length cs) ∧
    (bulk urgent cs ≠ [] → default 0 (budget !! p) + Z.of_nat (length (bulk urgent cs)) ≤ pipeline_depth cfg) ∧
    foldr Z.add 0 ((λ a, match a with
      | Send q (ChunkRequest _ ks) => if decide (q = p) then Z.of_nat (length (filter (λ c, c ∈ urgent) ks)) else 0
      | _ => 0 end) <$> more) = Z.of_nat (length (filter (λ c, c ∈ urgent) cs))
}.

Lemma sum_indicator (l : list PeerId) (w : PeerId → Z) p :
  NoDup l → (p ∉ l → w p = 0) → foldr Z.add 0 ((λ q, if decide (q = p) then w q else 0) <$> l) = w p.
Proof.
  intros Hnd. induction Hnd as [|q l Hq Hnd IH]; intros Hw; [by rewrite Hw by apply not_elem_of_nil|].
  rewrite fmap_cons. cbn [foldr]. destruct (decide (q = p)) as [->|Hne].
  - assert (foldr Z.add 0 ((λ q, if decide (q = p) then w q else 0) <$> l) = 0) as ->; [|lia].
    clear -Hq. induction l as [|r l IH]; [done|]. rewrite fmap_cons. cbn [foldr].
    rewrite decide_False by set_solver. rewrite IH; [done|set_solver].
  - rewrite IH; [lia|]. intros Hp. apply Hw. set_solver.
Qed.

Lemma plan_requests_turn d cfg file window_urgent now budget d' budget' more :
  plan_ready d → plan_requests d cfg file window_urgent now budget = Some (d', budget', more) →
  file_turn d cfg file (urgent_of d cfg window_urgent now) now budget d' budget' more.
Proof.
  intros [Hok Hv] Hplan. destruct (plan_requests_spec d cfg file window_urgent now budget Hok Hv)
    as (needed & rarity & st & took & Hn & Hnd & Hin & _ & Hinv & Heq).
  rewrite Hplan in Heq. simplify_eq. set (urgent := urgent_of _ _ _ _).
  assert (urgent = urgent_set d cfg window_urgent now needed) as Hu by (unfold urgent, urgent_of; by rewrite Hn).
  rewrite <-Hu in Hinv. clear Hu. pose proof (pi_budget _ _ _ _ _ _ _ _ _ _ _ _ Hinv) as Hbud.
  assert (∀ p, took p ≠ [] → ∃ src rank A, sources d !! p = Some src ∧
    turn d cfg needed urgent rarity rank src A (slots cfg budget p) (took p)) as Hturn.
  { intros p Hne. destruct (pi_idle _ _ _ _ _ _ _ _ _ _ _ _ Hinv p Hne) as (src & Hsrc & Hretry).
    destruct (turn_of _ _ _ _ _ _ _ _ _ _ _ p src Hinv Hsrc Hretry) as (rank & A & _ & Ht & _).
    by exists src, rank, A. }
  split.
  - intros a. rewrite (pi_actions _ _ _ _ _ _ _ _ _ _ _ _ Hinv), list_elem_of_fmap.
    intros (p & -> & _). by eexists _, _.
  - intros p ks [-> Hne]%(asked_iff _ _ _ _ _ _ _ _ _ _ _ _ _ Hinv).
    by apply (pi_idle _ _ _ _ _ _ _ _ _ _ _ _ Hinv).
  - split; [done|]. intros p src. cbn. rewrite (pi_sources _ _ _ _ _ _ _ _ _ _ _ _ Hinv).
    intros (s & Hs & ->)%fmap_Some. cbn. by eapply Hv.
  - intros p. rewrite Hbud. unfold load. cbn. rewrite (pi_sources _ _ _ _ _ _ _ _ _ _ _ _ Hinv).
    destruct (decide (took p = [])) as [Hz|Hne].
    { rewrite Hz. destruct (sources d !! p) as [src|]; simpl; [|lia]. rewrite union_empty_r_L. lia. }
    destruct (Hturn p Hne) as (src & rank & A & Hsrc & Ht). rewrite Hsrc. cbn.
    rewrite size_union, size_list_to_set; [lia|by eapply turn_NoDup|].
    intros c Hc1 Hc2%elem_of_list_to_set. apply (turn_cand _ _ _ _ _ _ _ _ _ _ Ht) in Hc2 as [_ Hcand].
    unfold candidate in Hcand. rewrite (bool_decide_eq_true_2 (c ∈ in_flight src)) in Hcand by done.
    by rewrite andb_false_r in Hcand.
  - intros p. exists (took p). split_and!.
    + intros ks Hks. by apply (asked_iff _ _ _ _ _ _ _ _ _ _ _ _ _ Hinv) in Hks as [-> _].
    + apply Hbud.
    + intros Hb. assert (took p ≠ []) as Hne by (intros Hz; by rewrite Hz in Hb).
      destruct (Hturn p Hne) as (src & rank & A & Hsrc & Ht).
      pose proof (turn_slots _ _ _ _ _ _ _ _ _ _ Ht) as Hs. unfold slots in Hs.
      destruct (bulk urgent (took p)); [done|]. cbn [length] in *. lia.
    + rewrite (pi_actions _ _ _ _ _ _ _ _ _ _ _ _ Hinv), imap_pair_snd, <-list_fmap_compose.
      apply (sum_indicator _ (λ q, Z.of_nat (length (filter (λ c, c ∈ urgent) (took q))))).
      * apply NoDup_filter, NoDup_peers.
      * intros Hp. destruct (decide (took p = [])) as [->|Hne]; [done|]. destruct Hp.
        apply list_elem_of_filter. split; [done|]. destruct (Hturn p Hne) as (src & _ & _ & Hsrc & _).
        apply elem_of_peers. by exists src.
Qed.

(** ** The walk over the files *)

Section walk.
Context (now : Z) (sweep : bool).

(** Requests concern the files walked; the other files, the configuration and
    the playing file stay as they are. *)
Lemma walk_frame l ds budget acts ds' budget' acts' :
  NoDup l → ready ds → fold_m (plan_file now sweep) (ds, budget, acts) l = Some (ds', budget', acts') →
  ∃ more, acts' = acts ++ more ∧ config ds' = config ds ∧ now_playing ds' = now_playing ds ∧ ready ds' ∧
    (∀ g, g ∉ l → files ds' !! g = files ds !! g) ∧
    (∀ a, a ∈ more → ∃ p g cs, a = Send p (ChunkRequest g cs) ∧ g ∈ l) ∧
    (∀ p, default 0 (budget !! p) ≤ default 0 (budget' !! p)) ∧
    (∀ p, default 0 (budget !! p) = total ds p → default 0 (budget' !! p) = total ds' p) ∧
    (∀ p, default 0 (budget' !! p) ≤
       Z.max (default 0 (budget !! p)) (pipeline_depth (config ds)) + urgent_total ds now p more) ∧
    (∀ p g cs d c, pipeline_depth (config ds) ≤ default 0 (budget !! p) →
       Send p (ChunkRequest g cs) ∈ more → files ds !! g = Some d → c ∈ cs → c ∈ urgent_in ds now g d) ∧
    (∀ p g cs, Send p (ChunkRequest g cs) ∈ more → ∃ d src, files ds !! g = Some d ∧
       sources d !! p = Some src ∧ retry_at src ≤ now).
Proof.
  revert ds budget acts. induction l as [|f l IH]; intros ds budget acts Hnd Hready Hfold; cbn [fold_m] in Hfold.
  { simplify_eq. exists []. rewrite app_nil_r. split_and!; try done.
    - by intros a ?%elem_of_nil.
    - intros p. unfold urgent_total. simpl. lia.
    - by intros p g cs d c _ ?%elem_of_nil.
    - by intros p g cs ?%elem_of_nil. }
  apply NoDup_cons in Hnd as [Hf Hnd].
  destruct (plan_file now sweep (ds, budget, acts) f) as [[[ds1 b1] a1]|] eqn:Hpf; [|done].
  cbn [mbind option_bind] in Hfold.
  destruct (plan_file_cases _ _ _ _ _ _ _ Hpf) as [[[= -> -> ->] _]|(d & d' & b' & m1 & Hd & Hpl & [= -> -> ->])].
  - destruct (IH ds budget acts Hnd Hready Hfold) as (more & -> & Hc & Hp & Hrd & Hfr & Hsh & Hmo & Htot & Hub & Hfull & Hidle).
    exists more. split_and!; try done.
    + intros g Hg. apply Hfr. set_solver.
    + intros a Ha. destruct (Hsh a Ha) as (p & g & cs & -> & Hg). exists p, g, cs. set_solver.
  - pose proof (plan_requests_turn _ _ _ _ _ _ _ _ _ (Hready f d Hd) Hpl) as Ht.
    fold (urgent_in ds now f d) in Ht. set (ds1 := put f d' ds) in *.
    assert (ready ds1) as Hready1.
    { intros g dg. cbn. rewrite lookup_insert_Some. intros [[<- <-]|[_ Hg]]; [apply Ht|by eapply Hready]. }
    destruct (IH ds1 b' (acts ++ m1) Hnd Hready1 Hfold)
      as (more & -> & Hc & Hp & Hrd & Hfr & Hsh & Hmo & Htot & Hub & Hfull & Hidle).
    assert (∀ a, a ∈ more → ∀ p, urgent_asked ds1 now p a = urgent_asked ds now p a) as Hua.
    { intros a Ha p. destruct (Hsh a Ha) as (q & g & cs & -> & Hg). cbn.
      by rewrite lookup_insert_ne by (intros ->; done). }
    assert (∀ p, urgent_total ds now p (m1 ++ more) =
      urgent_total ds now p m1 + urgent_total ds1 now p more) as Hsum.
    { intros p. unfold urgent_total. rewrite fmap_app, sum_app. f_equal. f_equal.
      apply list_fmap_ext. intros i a Ha. symmetry. apply Hua. by eapply list_elem_of_lookup_2. }
    assert (∀ p, urgent_total ds now p m1 = foldr Z.add 0 ((λ a, match a with
      | Send q (ChunkRequest _ ks) =>
          if decide (q = p) then Z.of_nat (length (filter (λ c, c ∈ urgent_in ds now f d) ks)) else 0
      | _ => 0 end) <$> m1)) as Hm1.
    { intros p. unfold urgent_total. f_equal. apply list_fmap_ext. intros i a Ha%list_elem_of_lookup_2.
      destruct (ft_shape _ _ _ _ _ _ _ _ _ Ht a Ha) as (q & cs & ->). cbn. by rewrite Hd. }
    exists (m1 ++ more). split_and!; try done.
    + by rewrite app_assoc.
    + intros g Hg. rewrite Hfr by set_solver. cbn. by rewrite lookup_insert_ne by set_solver.
    + intros a [Ha|Ha]%elem_of_app.
      * destruct (ft_shape _ _ _ _ _ _ _ _ _ Ht a Ha) as (q & cs & ->). exists q, f, cs. set_solver.
      * destruct (Hsh a Ha) as (p & g & cs & -> & Hg). exists p, g, cs. set_solver.
    + intros p. specialize (Hmo p). destruct (ft_budget _ _ _ _ _ _ _ _ _ Ht p) as (cs & _ & Hb & _). lia.
    + intros p Hbt. apply Htot. cbn. unfold ds1. rewrite (total_put ds f d d' p Hd).
      pose proof (ft_load _ _ _ _ _ _ _ _ _ Ht p). lia.
    + intros p. specialize (Hub p). rewrite Hsum, Hm1. cbn in Hub.
      destruct (ft_budget _ _ _ _ _ _ _ _ _ Ht p) as (cs & _ & Hb & Hbulk & ->).
      pose proof (length_bulk_urgent (urgent_in ds now f d) cs).
      destruct (bulk _ cs) as [|x bs] eqn:Eb; [|specialize (Hbulk ltac:(done))]; cbn [length] in *; lia.
    + intros p g cs dg c Hdep [Ha|Ha]%elem_of_app Hdg Hcs.
      * destruct (ft_shape _ _ _ _ _ _ _ _ _ Ht _ Ha) as (q & ks & [= <- -> <-]). rewrite Hd in Hdg. simplify_eq.
        destruct (ft_budget _ _ _ _ _ _ _ _ _ Ht p) as (ks & Hks & _ & Hbulk & _).
        rewrite (Hks cs Ha) in Hcs. apply dec_stable. intros Hnu.
        assert (c ∈ bulk (urgent_in ds now f dg) ks) as Hin by (by apply list_elem_of_filter).
        assert (bulk (urgent_in ds now f dg) ks ≠ []) as Hne by (intros Hz; rewrite Hz in Hin; by apply elem_of_nil in Hin).
        specialize (Hbulk Hne).
        destruct (bulk (urgent_in ds now f dg) ks) as [|x bs]; [done|].
        cbn [length] in Hbulk. lia.
      * assert (f ≠ g) as Hfg.
        { destruct (Hsh _ Ha) as (q & g' & ks & [= <- <- <-] & Hg). by intros ->. }
        apply (Hfull p g cs dg c); [|done| |done].
        -- destruct (ft_budget _ _ _ _ _ _ _ _ _ Ht p) as (ks & _ & Hb & _). cbn. lia.
        -- cbn. by rewrite lookup_insert_ne.
    + intros p g cs [Ha|Ha]%elem_of_app.
      * destruct (ft_shape _ _ _ _ _ _ _ _ _ Ht _ Ha) as (q & ks & [= <- -> <-]).
        destruct (ft_asked _ _ _ _ _ _ _ _ _ Ht p cs Ha) as (src & Hsrc & Hretry). by exists d, src.
      * destruct (Hidle p g cs Ha) as (dg & src & Hdg & Hsrc & Hretry). exists dg, src. split_and!; [|done..].
        destruct (Hsh _ Ha) as (q & g' & ks & [= <- <- <-] & Hg). cbn in Hdg.
        by rewrite lookup_insert_ne in Hdg by (intros ->; done).
Qed.
End walk.

Lemma fold_m_app {A B} (f : A → B → option A) l k a :
  fold_m f a (l ++ k) = fold_m f a l ≫= λ a, fold_m f a k.
Proof. revert a. induction l as [|x l IH]; intros a; simpl; [done|]. destruct (f a x); simpl; [apply IH|done]. Qed.

Lemma NoDup_priority_ordered ds : NoDup (priority_ordered_files ds).
Proof. unfold priority_ordered_files. rewrite sort_by_perm. apply NoDup_fst_map_to_list. Qed.

(** ** Statements *)

(** The request window is shared across files and spent in priority order.
    After a refill, a source has at most [pipeline_depth] chunks in flight over
    all files, except for what exceeded that before and the urgent chunks asked
    of it now. And if a file is still waiting for a chunk it could get from a
    source (one of its first [max_sources], not backing off), then no file
    behind it in the order got anything but urgent chunks from that source. *)
Theorem plan_all_budget_and_priority now sweep ds ds' actions :
  ready ds → plan_all now sweep ds = Some (ds', actions) →
  (∀ p, total ds' p ≤ Z.max (total ds p) (pipeline_depth (config ds)) + urgent_total ds now p actions) ∧
  (∀ i j f g d d' dg rank p src c,
     priority_ordered_files ds !! i = Some f → priority_ordered_files ds !! j = Some g → (i < j)%nat →
     files ds !! f = Some d → block_hashes d ≠ Pending →
     peers_of d !! rank = Some p → sources d !! p = Some src →
     retry_at src ≤ now → Z.of_nat rank < max_sources (config ds) →
     wanted (store d) c → advertises src c = true → files ds' !! f = Some d' → ¬ flying d' c →
     files ds !! g = Some dg →
     ∀ cs c', Send p (ChunkRequest g cs) ∈ actions → c' ∈ cs → c' ∈ urgent_in ds now g dg).
Proof.
  intros Hready Hplan. unfold plan_all in Hplan.
  destruct (fold_m _ _ _) as [[[ds1 b1] a1]|] eqn:Hfold; [|done]. cbn [mbind option_bind] in Hplan. simplify_eq.
  pose proof (NoDup_priority_ordered ds) as Hnd.
  destruct (walk_frame _ _ _ _ _ _ _ _ _ Hnd Hready Hfold)
    as (more & Hmore & _ & _ & _ & _ & _ & _ & Htot & Hub & _). rewrite app_nil_l in Hmore. subst more.
  split.
  { intros p. rewrite <-Htot by apply budget_is_total. rewrite <-budget_is_total. apply Hub. }
  intros i j f g d d' dg rank p src c Hi Hj Hij Hd Hp Hrank Hsrc Hretry Hcap Hc Hadv Hd' Hnf Hdg cs c' Ha Hc'.
  set (order := priority_ordered_files ds) in *.
  assert (∃ l1 l2, order = l1 ++ f :: l2 ∧ g ∈ l2 ∧ (g ∉ l1) ∧ g ≠ f) as (l1 & l2 & Ho & Hg2 & Hg1 & Hgf).
  { exists (take i order), (drop (S i) order). split_and!.
    - symmetry. by apply take_drop_middle.
    - apply list_elem_of_lookup. exists (j - S i)%nat. rewrite lookup_drop.
      by replace (S i + (j - S i))%nat with j by lia.
    - intros (k & Hk & Hlt)%elem_of_take. assert (k = j) by (by eapply NoDup_lookup). lia.
    - intros ->. assert (i = j) by (by eapply NoDup_lookup). lia. }
  rewrite Ho in Hfold, Hnd. clear Hi Hj Hij Ho order Htot Hub.
  rewrite fold_m_app in Hfold.
  destruct (fold_m _ (ds, _, []) l1) as [[[dsa ba] aa]|] eqn:Hfa; [|done]. cbn [mbind option_bind fold_m] in Hfold.
  apply NoDup_app in Hnd as (Hnd1 & Hdisj & [Hf2 Hnd2]%NoDup_cons).
  assert (f ∉ l1) as Hf1 by (intros Hin; apply (Hdisj f Hin); left).
  destruct (walk_frame _ _ _ _ _ _ _ _ _ Hnd1 Hready Hfa)
    as (ma & Hma & Hca & Hpa & Hra & Hfra & Hsha & _). rewrite app_nil_l in Hma. subst ma.
  destruct (plan_file now sweep (dsa, ba, aa) f) as [[[dsb bb] ab]|] eqn:Hpf; [|done]. cbn [mbind option_bind] in Hfold.
  pose proof (Hfra f Hf1) as Hfa1. rewrite Hd in Hfa1.
  assert (∃ mb, ab = aa ++ mb ∧ config dsb = config dsa ∧ now_playing dsb = now_playing dsa ∧ ready dsb ∧
    files dsb !! g = files dsa !! g ∧ (Send p (ChunkRequest g cs) ∉ mb) ∧
    (files dsb !! f = Some d' → pipeline_depth (config ds) ≤ default 0 (bb !! p)))
    as (mb & -> & Hcb & Hpb & Hrb & Hfb & Hnb & Hbb).
  { destruct (plan_file_cases _ _ _ _ _ _ _ Hpf) as [[[= -> -> ->] Hfull]|(d1 & d1' & b' & m1 & Hd1 & Hpl & [= -> -> ->])].
    - exists []. rewrite app_nil_r. split_and!; try done; [apply not_elem_of_nil|]. intros _.
      rewrite <-Hca. by eapply Hfull.
    - rewrite Hfa1 in Hd1. simplify_eq.
      pose proof (plan_requests_turn _ _ _ _ _ _ _ _ _ (Hra f d1 Hfa1) Hpl) as Ht.
      exists m1. split_and!; try done.
      + intros g' dg'. cbn. rewrite lookup_insert_Some. intros [[<- <-]|[_ Hg']]; [apply Ht|by eapply Hra].
      + cbn. by rewrite lookup_insert_ne.
      + intros Hin. by destruct (ft_shape _ _ _ _ _ _ _ _ _ Ht _ Hin) as (q & ks & [= <- <- <-]).
      + cbn. rewrite lookup_insert_eq. intros [= ->].
        destruct (plan_requests_work_conserving_inv _ _ _ _ _ _ _ _ _ (Hra f d1 Hfa1) Hpl rank p src c)
          as [?|?]; try done. by rewrite Hca. by rewrite <-Hca. }
  destruct (walk_frame _ _ _ _ _ _ _ _ _ Hnd2 Hrb Hfold)
    as (mc & -> & Hcc & Hpc & _ & Hfrc & _ & _ & _ & _ & Hfull & _).
  rewrite (Hfrc f Hf2) in Hd'. specialize (Hbb Hd').
  assert (urgent_in ds now g dg = urgent_in dsb now g dg) as ->.
  { unfold urgent_in. by rewrite Hcb, Hpb, Hca, Hpa. }
  apply (Hfull p g cs dg c'); [by rewrite Hcb, Hca| |by rewrite Hfb, Hfra|done].
  apply elem_of_app in Ha as [[Ha|Ha]%elem_of_app|Ha]; [|done|done].
  destruct (Hsha _ Ha) as (q & g' & ks & [= <- <- <-] & Hg'). done.
Qed.

(** Two files wait for the same only source, whose window is one chunk. *)
Definition ex_waiting : Download :=
  set_block_hashes (Have []) (set_srcs {[mkUserId "a" := ex_source 0]} (set_first_requested ∅ ex_download)).
Definition ex_first : Ed2kHash := mkEd2kHash [1].
Definition ex_second : Ed2kHash := mkEd2kHash [2].
Definition ex_queue : Downloads :=
  set_priority [ex_second; ex_first] (Some ex_second)
    (mkDownloads ex_plan_config {[ex_first := ex_waiting; ex_second := ex_waiting]} ∅ None).
Lemma ex_queue_ready : ready ex_queue.
Proof.
  assert (plan_ready ex_waiting) as Hw.
  { destruct ex_plan_ready as [Hs Hv]. split; [exact Hs|]. intros p src Hp.
    change (({[mkUserId "a" := ex_source 0]} : gmap PeerId Source) !! p = Some src) in Hp.
    apply lookup_singleton_Some in Hp as [_ <-]. by apply (Hv (mkUserId "a")). }
  assert (map_Forall (λ _ d, plan_ready d) (files ex_queue)) as Hall.
  { repeat (apply map_Forall_insert_2; [exact Hw|]). apply map_Forall_empty. }
  exact Hall.
Qed.
Lemma plan_all_budget_and_priority_witness :
  ∃ ds', plan_all 100 false ex_queue =
    Some (ds', [Send (mkUserId "a") (ChunkRequest ex_second [0])]) ∧
  total ds' (mkUserId "a") = 1 ∧
  ∀ p, total ds' p ≤ Z.max (total ex_queue p) 1
         + urgent_total ex_queue 100 p [Send (mkUserId "a") (ChunkRequest ex_second [0])].
Proof.
  eexists. split; [vm_compute; reflexivity|]. split; [vm_compute; reflexivity|].
  refine (proj1 (plan_all_budget_and_priority 100 false ex_queue _ _ ex_queue_ready _)).
  vm_compute. reflexivity.
Defined.

(** *** Sources whose streams die *)

Lemma stream_backoff_spec losses :
  0 ≤ losses →
  stream_backoff losses = if losses <=? 1 then 0 else Z.min (1000 * 2 ^ (losses - 2)) 30000.
Proof.
  intros Hl. unfold stream_backoff. destruct (Z.leb_spec losses 1); [done|].
  rewrite Z.shiftl_1_l. unfold u64_saturating_mul.
  destruct (decide (losses - 2 ≤ 16)) as [Hs|Hs].
  - rewrite (Z.min_l (losses - 2) 16) by done.
    assert (2 ^ (losses - 2) ≤ 2 ^ 16) by (apply Z.pow_le_mono_r; lia).
    rewrite (Z.min_l _ u64_max); [done|]. unfold u64_max, u64_modulus. lia.
  - rewrite (Z.min_r (losses - 2) 16) by lia.
    assert (2 ^ 16 ≤ 2 ^ (losses - 2)) by (apply Z.pow_le_mono_r; lia).
    rewrite !Z.min_r; try done; lia.
Qed.

Lemma plan_all_asks now sweep ds ds' actions p g cs :
  ready ds → plan_all now sweep ds = Some (ds', actions) → Send p (ChunkRequest g cs) ∈ actions →
  ∃ d src, files ds !! g = Some d ∧ sources d !! p = Some src ∧ retry_at src ≤ now.
Proof.
  intros Hready Hplan Ha. unfold plan_all in Hplan.
  destruct (fold_m _ _ _) as [[[ds1 b1] a1]|] eqn:Hfold; [|done]. cbn [mbind option_bind] in Hplan. simplify_eq.
  destruct (walk_frame _ _ _ _ _ _ _ _ _ (NoDup_priority_ordered ds) Hready Hfold)
    as (more & Hmore & _ & _ & _ & _ & _ & _ & _ & _ & _ & Hidle).
  rewrite app_nil_l in Hmore. subst more. by eapply Hidle.
Qed.

(** A lost stream requeues the source's chunks and makes it wait: not at all
    after a first loss, then one second, doubling to at most thirty, until a
    chunk arrives; no refill before that time asks the source for a chunk of
    the file, urgent or not. *)
Theorem dead_streams_back_off ds file peer now d src :
  ready ds → files ds !! file = Some d → sources d !! peer = Some src →
  0 ≤ dead_streams src < u32_modulus - 1 → 0 ≤ now ≤ u64_max - 30000 →
  let delay := if decide (dead_streams src = 0) then 0
               else Z.min (1000 * 2 ^ (dead_streams src - 1)) 30000 in
  let ds1 := requeue_source file peer now ds in
  (∃ d1 src1, files ds1 !! file = Some d1 ∧ sources d1 !! peer = Some src1 ∧ in_flight src1 = ∅ ∧
     dead_streams src1 = dead_streams src + 1 ∧ retry_at src1 = now + delay ∧
     (∀ q, q ≠ peer → sources d1 !! q = sources d !! q)) ∧
  (∀ t sweep ds2 actions, t < now + delay → plan_all t sweep ds1 = Some (ds2, actions) →
     ∀ cs, Send peer (ChunkRequest file cs) ∉ actions).
Proof.
  intros Hready Hd Hsrc Hdead Hnow delay. cbv zeta. unfold requeue_source. rewrite Hd, Hsrc.
  cbn [drain_in_flight]. set (src1 := set_retry_at _ _).
  assert (retry_at src1 = now + delay) as Hretry.
  { cbn. unfold u64_saturating_add, u32_saturating_add. rewrite (Z.min_l (dead_streams src + 1)) by lia.
    rewrite stream_backoff_spec by lia. unfold delay. destruct (decide (dead_streams src = 0)) as [Hz|Hz].
    - rewrite Hz. simpl. lia.
    - rewrite (proj2 (Z.leb_gt _ _)) by lia.
      replace (dead_streams src + 1 - 2) with (dead_streams src - 1) by lia.
      assert (0 < 2 ^ (dead_streams src - 1)) by (apply Z.pow_pos_nonneg; lia). lia. }
  set (d1 := set_srcs (<[peer := src1]> (sources d)) (set_stats _ d)). set (ds1 := put file d1 ds).
  assert (files ds1 !! file = Some d1) as Hd1 by apply lookup_insert_eq. split.
  - exists d1, src1. split_and!; [done|apply lookup_insert_eq|done| |done|].
    + cbn. unfold u32_saturating_add. lia.
    + intros q Hq. cbn. by apply lookup_insert_ne.
  - intros t sweep ds2 actions Ht Hplan cs Ha.
    assert (ready ds1) as Hready1.
    { intros g dg. cbn. rewrite lookup_insert_Some. intros [[<- <-]|[_ Hg]]; [|by eapply Hready].
      destruct (Hready file d Hd) as [Hs Hv]. split; [done|]. intros q s. cbn.
      intros [[<- <-]|[_ Hq]]%lookup_insert_Some; [by apply (Hv peer src)|by eapply Hv]. }
    destruct (plan_all_asks _ _ _ _ _ _ _ _ Hready1 Hplan Ha) as (d2 & s2 & Hd2 & Hs2 & Hr2).
    rewrite Hd1 in Hd2. injection Hd2 as <-. cbn in Hs2. rewrite lookup_insert_eq in Hs2.
    injection Hs2 as <-. lia.
Qed.

Lemma dead_streams_back_off_witness :
  stream_backoff 1 = 0 ∧ stream_backoff 2 = 1000 ∧ stream_backoff 7 = 30000 ∧
  let twice := requeue_source ex_first (mkUserId "a") 500 (requeue_source ex_first (mkUserId "a") 400 ex_queue) in
  ∀ t sweep ds2 actions, t < 400 + 0 →
    plan_all t sweep (requeue_source ex_first (mkUserId "a") 400 ex_queue) = Some (ds2, actions) →
    ∀ cs, Send (mkUserId "a") (ChunkRequest ex_first cs) ∉ actions.
Proof.
  split; [reflexivity|]. split; [reflexivity|]. split; [reflexivity|]. intros _.
  refine (proj2 (dead_streams_back_off ex_queue ex_first (mkUserId "a") 400 ex_waiting (ex_source 0)
    ex_queue_ready _ _ _ _)).
  - vm_compute. reflexivity.
  - vm_compute. reflexivity.
  - cbn. unfold u32_modulus. lia.
  - unfold u64_max, u64_modulus. lia.
Defined.

(** *** Silent sources *)

(** One source polled by [snub] at successive times, never answering: the
    times at which it was asked again. *)
Fixpoint polled (file : Ed2kHash) (need_hashes : bool) (timeout : Z) (peer : PeerId) (src : Source)
    (times : list Z) : list Z :=
  match times with
  | [] => []
  | now :: times =>
      let '(src', asks) := resolicit file need_hashes now timeout peer src in
      (if decide (asks = []) then [] else [now]) ++ polled file need_hashes timeout peer src' times
  end.

(** When the [k]-th further ask may come, after [n] in the present round. *)
Definition ask_after (timeout n k : Z) : Z := timeout * (k + 1 + 9 * ((n + k) / 3)).

Lemma resolicit_step file need timeout peer src now :
  0 ≤ timeout → timeout * 10 ≤ u64_max → 0 ≤ solicit_attempts src ≤ 3 → last_progress src ≤ now →
  let '(src', asks) := resolicit file need now timeout peer src in
  (src' = src ∧ asks = []) ∨
  (asks = [Send peer (BlockHashRequest file)] ∧ last_progress src' = now ∧
   (if decide (solicit_attempts src = 3)
    then solicit_attempts src' = 1 ∧ last_progress src + timeout * 10 ≤ now
    else solicit_attempts src' = solicit_attempts src + 1 ∧ last_progress src + timeout ≤ now)).
Proof.
  intros Ht Hm Ha Hnow. unfold resolicit. destruct (negb _); [by left|].
  assert (u64_saturating_sub now (last_progress src) = now - last_progress src) as ->
    by (unfold u64_saturating_sub; lia).
  assert (u64_saturating_mul timeout GIVE_UP_COOLDOWN_MULTIPLIER = timeout * 10) as ->
    by (unfold u64_saturating_mul; apply Z.min_l; exact Hm).
  change MAX_SOLICIT_ATTEMPTS with 3. destruct (Z.leb_spec 3 (solicit_attempts src)).
  - destruct (Z.ltb_spec (now - last_progress src) (timeout * 10)); [by left|]. right.
    rewrite decide_True by lia. cbn. split_and!; [done|done|done|lia].
  - destruct (Z.ltb_spec (now - last_progress src) timeout); [by left|]. right.
    rewrite decide_False by lia. cbn. split_and!; [done|done|done|lia].
Qed.

Lemma polled_bound file need timeout peer src times k t :
  0 ≤ timeout → timeout * 10 ≤ u64_max → 0 ≤ solicit_attempts src ≤ 3 →
  Sorted Z.le (last_progress src :: times) →
  polled file need timeout peer src times !! k = Some t →
  last_progress src + ask_after timeout (solicit_attempts src) (Z.of_nat k) ≤ t.
Proof.
  intros Ht Hm. revert src k. induction times as [|now times IH]; intros src k Ha Hs Hk; [done|].
  assert (last_progress src ≤ now ∧ Sorted Z.le (now :: times)) as [Hle Hs'].
  { apply Sorted_inv in Hs as [Hs Hr]. by apply HdRel_inv in Hr. }
  cbn [polled] in Hk. pose proof (resolicit_step file need timeout peer src now Ht Hm Ha Hle) as Hr.
  destruct (resolicit file need now timeout peer src) as [src' asks].
  destruct Hr as [[-> ->]|(-> & Hl & Hr)].
  - cbn in Hk. apply IH; [done| |done]. apply Sorted_inv in Hs' as [Hst _].
    apply Sorted_inv in Hs as [Hsn Hhd]. constructor; [done|].
    inversion Hsn as [|? ? _ Hn]; subst. destruct times as [|x times]; constructor.
    apply HdRel_inv in Hn. lia.
  - rewrite decide_False in Hk by done. destruct k as [|k].
    + simpl in Hk. injection Hk as <-. unfold ask_after. case_decide as Hd.
      * rewrite Hd. change (Z.of_nat 0) with 0. change ((3 + 0) / 3) with 1. lia.
      * replace ((solicit_attempts src + Z.of_nat 0) / 3) with 0; [lia|].
        symmetry. apply Z.div_small. lia.
    + cbn in Hk. apply IH in Hk; [|case_decide; lia|by rewrite Hl]. rewrite Hl in Hk.
      revert Hk. unfold ask_after. rewrite Nat2Z.inj_succ. case_decide as Hd.
      * destruct Hr as [-> Hr]. rewrite Hd. intros Hk.
        replace ((3 + Z.succ (Z.of_nat k)) / 3) with (1 + (1 + Z.of_nat k) / 3)
          by (Z.to_euclidean_division_equations; lia). lia.
      * destruct Hr as [-> Hr]. intros Hk.
        replace (solicit_attempts src + Z.succ (Z.of_nat k))
          with (solicit_attempts src + 1 + Z.of_nat k) by lia. lia.
Qed.

(** A source that never answers is asked again at most three times, a timeout
    apart, and then waits ten timeouts for each further round of three: the
    [k]-th repeat comes no earlier than [k + 1 + 9 * (k / 3)] timeouts after the
    last sign of life, however often the scheduler ticks. *)
Theorem resolicitation_rate_bounded file need_hashes timeout peer src times k t :
  0 ≤ timeout → timeout * 10 ≤ u64_max → solicit_attempts src = 0 →
  Sorted Z.le (last_progress src :: times) →
  polled file need_hashes timeout peer src times !! k = Some t →
  last_progress src + timeout * (Z.of_nat k + 1 + 9 * (Z.of_nat k / 3)) ≤ t.
Proof.
  intros Ht Hm Ha Hs Hk. pose proof (polled_bound file need_hashes timeout peer src times k t Ht Hm) as Hb.
  rewrite Ha in Hb. unfold ask_after in Hb. rewrite Z.add_0_l in Hb. apply Hb; [lia|done|done].
Qed.

Definition ex_silent : Source := mkSource (mkBitfield [0] 3) ∅ 0 true false 0 0 0.
Definition ex_ticks : list Z := [10; 30; 59; 60; 90; 120; 300; 389; 390; 400].
Lemma resolicitation_rate_bounded_witness :
  polled ex_first true 30 (mkUserId "a") ex_silent ex_ticks = [30; 60; 90; 390] ∧
  0 + 30 * (3 + 1 + 9 * (3 / 3)) ≤ 390.
Proof.
  assert (polled ex_first true 30 (mkUserId "a") ex_silent ex_ticks =
    [30; 60; 90; 390]) as He by (vm_compute; reflexivity).
  split; [exact He|].
  refine (resolicitation_rate_bounded ex_first true 30 (mkUserId "a") ex_silent ex_ticks 3 390 _ _ _ _ _).
  - lia.
  - unfold u64_max, u64_modulus. lia.
  - reflexivity.
  - repeat constructor; discriminate.
  - rewrite He. reflexivity.
Defined.
