(* ===== verification/F64.v ===== *)
(** * Doubles

    Rust's [f64] as the Standard Library's executable specification of IEEE
    binary64: the operations the sources use, and when they are exact. *)

From Stdlib Require Import SpecFloat.
From S2P Require Import Prelude.

(** ** Operations *)

Abbreviation f64 := spec_float.
Definition prec : Z := 53.
Definition emax : Z := 1024.

(** [x as f64], [a / b], [a + b], [a - b], [a * b], [-a], [a.abs()], [a < b]. *)
Definition f64_of (x : Z) : f64 := binary_normalize prec emax x 0 false.
Definition f64_div : f64 → f64 → f64 := SFdiv prec emax.
Definition f64_add : f64 → f64 → f64 := SFadd prec emax.
Definition f64_sub : f64 → f64 → f64 := SFsub prec emax.
Definition f64_mul : f64 → f64 → f64 := SFmul prec emax.
Definition f64_neg : f64 → f64 := SFopp.
Definition f64_abs : f64 → f64 := SFabs.
Definition f64_lt : f64 → f64 → bool := SFltb.

(** [a.clamp(min, max)]. *)
Definition f64_clamp (a min max : f64) : f64 :=
  let a := if f64_lt a min then min else a in
  if f64_lt max a then max else a.

(** The literal [n/d]: both are exact doubles, so the correctly rounded
    quotient is the double nearest to the decimal. *)
Definition f64_lit (n d : Z) : f64 := f64_div (f64_of n) (f64_of d).

(** [x as u64]: truncated, saturating, 0 for NaN. *)
Definition f64_to_u64 (x : f64) : Z :=
  match x with
  | S754_finite false m e => Z.min u64_max (Z.shiftl (Zpos m) e)
  | S754_infinity false => u64_max
  | _ => 0
  end.

(** ** Exactness *)

Lemma digits2_pos_bounds m : 2 ^ (Zpos (digits2_pos m) - 1) ≤ Zpos m < 2 ^ Zpos (digits2_pos m).
Proof.
  induction m as [m IH|m IH|]; cbn [digits2_pos]; [| |done].
  all: rewrite Pos2Z.inj_succ.
  all: replace (Z.succ (Zpos (digits2_pos m)) - 1) with (Z.succ (Zpos (digits2_pos m) - 1)) by lia.
  all: rewrite !Z.pow_succ_r by lia; lia.
Qed.

Lemma iter_xO m d : Zpos (Pos.iter xO m d) = Zpos m * 2 ^ Zpos d.
Proof.
  induction d as [|d IH] using Pos.peano_ind; [cbn; lia|].
  rewrite Pos.iter_succ, Pos2Z.inj_xO, IH, Pos2Z.inj_succ, Z.pow_succ_r by lia. lia.
Qed.

Lemma digits2_pos_unique m g : 2 ^ (g - 1) ≤ Zpos m < 2 ^ g → Zpos (digits2_pos m) = g.
Proof.
  intros [H1 H2]. pose proof (digits2_pos_bounds m) as [H3 H4].
  assert (0 < g) as Hg by (destruct (Z.lt_ge_cases 0 g); [done|]; pose proof (Z.pow_le_mono_r 2 g 0); lia).
  destruct (Z.lt_trichotomy (Zpos (digits2_pos m)) g) as [H|[H|H]]; [|done|].
  - pose proof (Z.pow_le_mono_r 2 (Zpos (digits2_pos m)) (g - 1)). lia.
  - pose proof (Z.pow_le_mono_r 2 g (Zpos (digits2_pos m) - 1)). lia.
Qed.

(** A mantissa of 53 digits is not rounded. *)
Lemma round_aux_exact s m e : Zpos (digits2_pos m) = 53 → -1074 ≤ e ≤ 971 →
  binary_round_aux prec emax s (Zpos m) e loc_Exact = S754_finite s m e.
Proof.
  intros Hd He. unfold binary_round_aux, shr_fexp. cbn [Zdigits2]. rewrite Hd.
  assert (fexp prec emax (53 + e) - e = 0) as Hf by (unfold fexp, emin, prec, emax; lia).
  rewrite Hf. cbn [shr shr_record_of_loc shr_m loc_of_shr_record round_nearest_even Zdigits2].
  rewrite Hd, Hf. cbn [shr shr_record_of_loc shr_m].
  by rewrite (proj2 (Z.leb_le e (emax - prec))) by (unfold emax, prec; lia).
Qed.

(** Integers of at most 53 digits are exact at any ordinary exponent. *)
Lemma round_exact s m e : Zpos m < 2 ^ 53 → -1000 ≤ e ≤ 900 →
  ∃ m', binary_round prec emax s m e = S754_finite s m' (e + Zpos (digits2_pos m) - 53) ∧
    Zpos m' = Zpos m * 2 ^ (53 - Zpos (digits2_pos m)).
Proof.
  intros Hm He. pose proof (digits2_pos_bounds m) as Hb. set (g := Zpos (digits2_pos m)) in *.
  assert (g ≤ 53) as Hg.
  { destruct (Z.le_gt_cases g 53); [done|]. pose proof (Z.pow_le_mono_r 2 53 (g - 1)). lia. }
  assert (0 < g) by (unfold g; lia).
  unfold binary_round. fold g.
  assert (fexp prec emax (g + e) = g + e - 53) as -> by (unfold fexp, emin, prec, emax; lia).
  assert (∀ m', Zpos m' = Zpos m * 2 ^ (53 - g) → Zpos (digits2_pos m') = 53) as Hd.
  { intros m' Hm'. apply digits2_pos_unique. rewrite Hm'.
    replace (53 - 1) with (g - 1 + (53 - g)) by lia. rewrite Z.pow_add_r by lia.
    replace (2 ^ 53) with (2 ^ g * 2 ^ (53 - g)) by (rewrite <-Z.pow_add_r by lia; f_equal; lia).
    pose proof (Z.pow_pos_nonneg 2 (53 - g)). nia. }
  unfold shl_align. replace (g + e - 53 - e) with (g - 53) by lia.
  replace (e + g - 53) with (g + e - 53) by lia.
  destruct (g - 53) as [|q|q] eqn:Hq; [|lia|].
  - exists m. assert (g = 53) as Hg53 by lia. rewrite round_aux_exact by (lia || exact Hg53).
    rewrite Hg53. split; [f_equal; lia|]. by rewrite Z.mul_1_r.
  - exists (Pos.iter xO m q). replace (53 - g) with (Zpos q) in * by lia.
    pose proof (iter_xO m q) as Hi. rewrite round_aux_exact by (lia || by apply Hd). done.
Qed.

Lemma lt_finite m e m' e' :
  f64_lt (S754_finite false m e) (S754_finite false m' e') =
  match e ?= e' with Lt => true | Gt => false | Eq => Zpos m <? Zpos m' end.
Proof. unfold f64_lt, SFltb, SFcompare, Z.ltb. cbn. destruct (e ?= e'); done. Qed.

(** Signs commute with rounding. *)
Lemma round_aux_sign s m e l :
  binary_round_aux prec emax (negb s) m e l = SFopp (binary_round_aux prec emax s m e l).
Proof.
  unfold binary_round_aux. destruct (shr_fexp _ _ m e l) as [r1 e1].
  destruct (shr_fexp _ _ _ e1 _) as [r2 e2]. destruct (shr_m r2); try done. by destruct (_ <=? _).
Qed.
Lemma f64_of_neg p : f64_of (Zneg p) = SFopp (f64_of (Zpos p)).
Proof. unfold f64_of. cbn [binary_normalize]. unfold binary_round. destruct (shl_align _ _ _). apply (round_aux_sign false). Qed.
Lemma f64_div_neg x y : f64_div (SFopp x) y = SFopp (f64_div x y).
Proof.
  destruct x as [s|s| |s m e], y as [s'|s'| |s' m' e']; try done; try (by destruct s, s').
  unfold f64_div. cbn [SFopp SFdiv]. destruct (SFdiv_core_binary _ _ _ _ _ _) as [[? ?] ?].
  by rewrite <-round_aux_sign, <-negb_xorb_l.
Qed.
Lemma f64_lt_neg x y : f64_lt (SFopp x) (SFopp y) = f64_lt y x.
Proof.
  destruct x as [[]|[]| |[] m e], y as [[]|[]| |[] m' e']; try done;
    unfold f64_lt, SFltb; cbn [SFopp SFcompare negb]; rewrite (Z.compare_antisym e' e);
    destruct (e' ?= e); try done; cbn [CompOpp];
    change (Pos.compare_cont Eq m m') with (m ?= m')%positive;
    change (Pos.compare_cont Eq m' m) with (m' ?= m)%positive;
    rewrite (Pos.compare_antisym m' m); by destruct (m' ?= m)%positive.
Qed.

