(* ===== verification/Drift.v ===== *)
(** * The drift controller

    src/dessplay/src/actors/drift.rs: one measured drift per sample in, a speed
    command or a hard seek out. Speeds are IEEE doubles and stay so here: [f64]
    is the Standard Library's executable specification of binary64, so the
    commands below are the very numbers the player is sent.

    The abstract specification is a controller over integers: a correction is a
    number of ten-thousandths, and the only trace of rounding left is that an
    update of exactly the quantum may or may not be taken. *)

From Stdlib Require Import SpecFloat.
From S2P Require Import Prelude F64.

(** ** The controller *)

Definition DRIFT_ENGAGE_MILLIS : Z := 150.
Definition DRIFT_RELEASE_MILLIS : Z := 25.
Definition DRIFT_HARD_SEEK_MILLIS : Z := 3000.
Definition SLEW_RATE : f64 := Eval vm_compute in f64_lit 2 100.
Definition SLEW_TAU_MILLIS : f64 := Eval vm_compute in f64_lit 10000 1.
Definition SLEW_QUANTUM : f64 := Eval vm_compute in f64_lit 8 1000.
Definition SLEW_RECOMMAND_SAMPLES : Z := 10.
Definition ENGAGE_RUN : Z := 3.

Inductive DriftAction := NoAction | SetSpeed (speed : f64) | HardSeek.

Record DriftController := mkDrift {
  slew : option f64;
  engage_run : Z;
  seek_run : Z;
  since_command : Z
}.

Definition new : DriftController := mkDrift None 0 0 0.
Definition reset (c : DriftController) : DriftController := new.

Definition u32_max : Z := u32_modulus - 1.

(** [1.0 + (delta as f64 / SLEW_TAU_MILLIS).clamp(-SLEW_RATE, SLEW_RATE)]. *)
Definition target_speed (delta_millis : Z) : f64 :=
  f64_add (f64_of 1)
    (f64_clamp (f64_div (f64_of delta_millis) SLEW_TAU_MILLIS) (f64_neg SLEW_RATE) SLEW_RATE).

Definition observe (c : DriftController) (delta_millis : Z) : DriftController * DriftAction :=
  let magnitude := Z.abs delta_millis in
  let since := Z.min (since_command c + 1) u32_max in
  if DRIFT_HARD_SEEK_MILLIS <? magnitude then
    let run := u32_wrap (seek_run c + 1) in
    let c := mkDrift (slew c) (engage_run c) run since in
    if ENGAGE_RUN <=? run then (reset c, HardSeek) else (c, NoAction)
  else
    let idle := match slew c with None => true | Some _ => false end in
    let run := u32_wrap (engage_run c + 1) in
    if idle && (magnitude <? DRIFT_ENGAGE_MILLIS) then (mkDrift (slew c) 0 0 since, NoAction)
    else if idle && (run <? ENGAGE_RUN) then (mkDrift (slew c) run 0 since, NoAction)
    else if magnitude <? DRIFT_RELEASE_MILLIS then (mkDrift None 0 0 0, SetSpeed (f64_of 1))
    else
      let target := target_speed delta_millis in
      let keep := match slew c with
        | Some current => f64_lt (f64_abs (f64_sub target current)) SLEW_QUANTUM
                          || (since <? SLEW_RECOMMAND_SAMPLES)
        | None => false end in
      if keep then (mkDrift (slew c) 0 0 since, NoAction)
      else (mkDrift (Some target) 0 0 0, SetSpeed target).

(** The controller over a sequence of samples, with its actions. *)
Fixpoint feed (c : DriftController) (deltas : list Z) : DriftController * list DriftAction :=
  match deltas with
  | [] => (c, [])
  | d :: ds =>
      let '(c, a) := observe c d in
      let '(c, acts) := feed c ds in (c, a :: acts)
  end.

(** ** The specification: a controller over integers *)

Inductive Mode := Idle (run : Z) | Correcting (slew age : Z).
Record Ctl := mkCtl { mode : Mode; beyond : Z }.
Inductive Act := Leave | Command (slew : Z) | Seek.

(** The slew for a drift, in ten-thousandths of the speed: proportional, at
    most two percent. *)
Definition clamp (d : Z) : Z := Z.max (-200) (Z.min d 200).

Definition older (m : Mode) : Mode :=
  match m with Idle n => Idle n | Correcting c age => Correcting c (age + 1) end.

Inductive ctl_step : Ctl → Z → Ctl → Act → Prop :=
  | ctl_seek m k d : 3000 < Z.abs d → 3 ≤ k + 1 → ctl_step (mkCtl m k) d (mkCtl (Idle 0) 0) Seek
  | ctl_far m k d : 3000 < Z.abs d → k + 1 < 3 → ctl_step (mkCtl m k) d (mkCtl (older m) (k + 1)) Leave
  | ctl_in_band n k d : Z.abs d < 150 → ctl_step (mkCtl (Idle n) k) d (mkCtl (Idle 0) 0) Leave
  | ctl_arm n k d : 150 ≤ Z.abs d ≤ 3000 → n + 1 < 3 →
      ctl_step (mkCtl (Idle n) k) d (mkCtl (Idle (n + 1)) 0) Leave
  | ctl_engage n k d : 150 ≤ Z.abs d ≤ 3000 → 3 ≤ n + 1 →
      ctl_step (mkCtl (Idle n) k) d (mkCtl (Correcting (clamp d) 0) 0) (Command (clamp d))
  | ctl_release c age k d : Z.abs d < 25 →
      ctl_step (mkCtl (Correcting c age) k) d (mkCtl (Idle 0) 0) (Command 0)
  | ctl_hold c age k d : 25 ≤ Z.abs d ≤ 3000 → age + 1 < 10 ∨ Z.abs (clamp d - c) ≤ 80 →
      ctl_step (mkCtl (Correcting c age) k) d (mkCtl (Correcting c (age + 1)) 0) Leave
  | ctl_update c age k d : 25 ≤ Z.abs d ≤ 3000 → 10 ≤ age + 1 → 80 ≤ Z.abs (clamp d - c) →
      ctl_step (mkCtl (Correcting c age) k) d (mkCtl (Correcting (clamp d) 0) 0) (Command (clamp d)).

Inductive ctl_run : Ctl → list Z → Ctl → list Act → Prop :=
  | ctl_nil s : ctl_run s [] s []
  | ctl_cons s d s1 a ds s2 acts :
      ctl_step s d s1 a → ctl_run s1 ds s2 acts → ctl_run s (d :: ds) s2 (a :: acts).

Definition ctl_init : Ctl := mkCtl (Idle 0) 0.

(** ** The quantum

    The quantum test compares a rounded difference with a rounded literal. The
    difference of two speeds is exact, so it is decided by integers. *)

(** The quantum is [q] units of [2^-59]. *)
Definition q : Z := match SLEW_QUANTUM with S754_finite false m (-59) => Zpos m | _ => 0 end.

Lemma below_quantum s m e : e = -53 ∨ e = -52 → Zpos m < 2 ^ 53 →
  f64_lt (f64_abs (binary_round prec emax s m e)) SLEW_QUANTUM = (Zpos m * 2 ^ (e + 59) <? q).
Proof.
  intros He Hm. destruct (round_exact s m e) as (m' & -> & Hm'); [done|lia|].
  pose proof (digits2_pos_bounds m) as Hb. set (g := Zpos (digits2_pos m)) in *.
  assert (0 < g) by (unfold g; lia).
  unfold f64_abs, SLEW_QUANTUM, q. cbn [SFabs SLEW_QUANTUM]. rewrite lt_finite.
  destruct (Z.compare_spec (e + g - 53) (-59)) as [Hc|Hc|Hc].
  - by replace (53 - g) with (e + 59) in Hm' by lia; rewrite <-Hm'.
  - symmetry. apply Z.ltb_lt. assert (2 ^ (g + (e + 59)) ≤ 2 ^ 52) as Hp by (apply Z.pow_le_mono_r; lia).
    rewrite Z.pow_add_r in Hp by lia. pose proof (Z.pow_pos_nonneg 2 (e + 59)).
    apply Z.lt_le_trans with (2 ^ g * 2 ^ (e + 59)); [apply Z.mul_lt_mono_pos_r; lia|lia].
  - symmetry. apply Z.ltb_ge. assert (2 ^ 53 ≤ 2 ^ (g - 1 + (e + 59))) as Hp by (apply Z.pow_le_mono_r; lia).
    rewrite Z.pow_add_r in Hp by lia. pose proof (Z.pow_pos_nonneg 2 (e + 59)).
    apply Z.le_trans with (2 ^ (g - 1) * 2 ^ (e + 59)); [lia|apply Z.mul_le_mono_nonneg_r; lia].
Qed.

(** ** The speeds

    There are 401 of them; what the division and the addition round to is
    checked on each. *)

Lemma forallb_seqZ (P : Z → bool) lo n x :
  forallb P (seqZ lo n) = true → lo ≤ x < lo + n → P x = true.
Proof. intros H Hx. rewrite forallb_forall in H. apply H, list_elem_of_In, elem_of_seqZ. lia. Qed.

(** The value of a speed in units of [2^-53]. *)
Definition units (m : positive) (e : Z) : Z := Zpos m * 2 ^ (e + 53).

(** [f] is a double within one unit in the last place of [1 + c/10000], and
    between the doubles 0.98 and 1.02. *)
Definition speed_for (c : Z) (f : f64) : bool :=
  match f with
  | S754_finite false m e =>
      ((e =? -53) || (e =? -52)) && (Z.abs (10000 * units m e - (10000 + c) * 2 ^ 53) <=? 10000 * 2 ^ (e + 53)) &&
      SFleb (f64_lit 98 100) f && SFleb f (f64_lit 102 100)
  | _ => false
  end.
Lemma speed_table : forallb (λ c, speed_for c (target_speed c)) (seqZ (-200) 401) = true.
Proof. vm_compute. reflexivity. Qed.
Lemma target_speed_for c : -200 ≤ c ≤ 200 → speed_for c (target_speed c) = true.
Proof. intros. apply (forallb_seqZ (λ c, speed_for c (target_speed c)) _ _ _ speed_table). lia. Qed.


Lemma speed_for_inv c f : speed_for c f = true →
  ∃ m e, f = S754_finite false m e ∧ (e = -53 ∨ e = -52) ∧
    Z.abs (10000 * units m e - (10000 + c) * 2 ^ 53) ≤ 20000 ∧
    SFleb (f64_lit 98 100) f = true ∧ SFleb f (f64_lit 102 100) = true.
Proof.
  unfold speed_for. intros H. destruct f as [| | |[] m e]; try done. exists m, e. split; [done|].
  apply andb_true_iff in H as [[[He%orb_true_iff Hu%Z.leb_le]%andb_true_iff Hlo]%andb_true_iff Hhi].
  rewrite !Z.eqb_eq in He. split; [done|]. split; [|done].
  destruct He as [-> | ->]; cbn [Z.add Z.pow Z.pow_pos Pos.iter Z.pos_sub] in Hu; lia.
Qed.

Lemma sub_units m e m' e' : (e = -53 ∨ e = -52) → (e' = -53 ∨ e' = -52) →
  ∃ D ez, (ez = -53 ∨ ez = -52) ∧ D * 2 ^ (ez + 53) = units m e - units m' e' ∧
    f64_sub (S754_finite false m e) (S754_finite false m' e') = binary_normalize prec emax D ez false.
Proof.
  intros He He'. unfold f64_sub. cbn [SFsub cond_Zopp].
  eexists _, _. split; [|split; [|reflexivity]]; [lia|].
  unfold units. destruct He as [-> | ->], He' as [-> | ->].
  - change ((Zpos m - Zpos m') * 1 = Zpos m * 1 - Zpos m' * 1). lia.
  - change ((Zpos m - Zpos m'~0) * 1 = Zpos m * 1 - Zpos m' * 2). lia.
  - change ((Zpos m~0 - Zpos m') * 1 = Zpos m * 2 - Zpos m' * 1). lia.
  - change ((Zpos m - Zpos m') * 2 = Zpos m * 2 - Zpos m' * 2). lia.
Qed.

Lemma quantum_spec c d :
  -200 ≤ c ≤ 200 → -200 ≤ d ≤ 200 → Z.abs (d - c) ≠ 80 →
  f64_lt (f64_abs (f64_sub (target_speed d) (target_speed c))) SLEW_QUANTUM = (Z.abs (d - c) <? 80).
Proof.
  intros Hc Hd Hne.
  destruct (speed_for_inv _ _ (target_speed_for d Hd)) as (m & e & -> & He & Hu & _).
  destruct (speed_for_inv _ _ (target_speed_for c Hc)) as (m' & e' & -> & He' & Hu' & _).
  destruct (sub_units m e m' e' He He') as (D & ez & Hez & HD & ->).
  set (u := units m e) in *. set (u' := units m' e') in *. clearbody u u'.
  assert ((Z.abs D * 2 ^ (ez + 59) <? q) = (Z.abs (d - c) <? 80)) as Hcmp.
  { unfold q, SLEW_QUANTUM. destruct Hez as [-> | ->]; cbn in HD |- *; lia. }
  destruct D as [|D|D]; cbn [binary_normalize].
  - rewrite <-Hcmp. vm_compute. reflexivity.
  - rewrite below_quantum; [|done|destruct Hez as [-> | ->]; cbn in HD; lia]. done.
  - rewrite below_quantum; [|done|destruct Hez as [-> | ->]; cbn in HD; lia]. done.
Qed.

(** Drifts beyond the slew range are commanded its border. *)
Definition beyond_range (d : Z) : bool :=
  let x := f64_div (f64_of d) SLEW_TAU_MILLIS in
  negb (f64_lt x (f64_neg SLEW_RATE)) && f64_lt SLEW_RATE x.
Lemma beyond_table : forallb beyond_range (seqZ 201 2800) = true.
Proof. vm_compute. reflexivity. Qed.
Lemma beyond_spec d : 200 < d ≤ 3000 → beyond_range d = true.
Proof. intros. apply (forallb_seqZ _ _ _ d beyond_table). lia. Qed.

Lemma target_clamp d : Z.abs d ≤ 3000 → target_speed d = target_speed (clamp d).
Proof.
  intros Hd. unfold clamp. destruct (Z.lt_ge_cases 200 d); [|destruct (Z.lt_ge_cases d (-200))].
  - destruct (andb_prop _ _ (beyond_spec d ltac:(lia))) as [Hlo%negb_true_iff Hhi].
    replace (Z.max _ _) with 200 by lia. unfold target_speed, f64_clamp. rewrite Hlo, Hhi. by vm_compute.
  - destruct d as [|p|p]; [lia..|].
    destruct (andb_prop _ _ (beyond_spec (Zpos p) ltac:(lia))) as [_ Hhi].
    replace (Z.max _ _) with (-200) by lia. unfold target_speed, f64_clamp, f64_neg.
    rewrite f64_of_neg, f64_div_neg, f64_lt_neg, Hhi. by vm_compute.
  - by replace (Z.max _ _) with d by lia.
Qed.

Lemma clamp_range d : -200 ≤ clamp d ≤ 200.
Proof. unfold clamp. lia. Qed.

(** ** Simulation *)

Definition sim (c : DriftController) (s : Ctl) : Prop :=
  seek_run c = beyond s ∧ 0 ≤ beyond s < 3 ∧
  match mode s with
  | Idle n => slew c = None ∧ engage_run c = n ∧ 0 ≤ n < 3
  | Correcting k age =>
      slew c = Some (target_speed k) ∧ -200 ≤ k ≤ 200 ∧ engage_run c = 0 ∧
      0 ≤ age ∧ since_command c = Z.min age u32_max
  end.

(** The action the specification's stands for; a commanded speed is the double
    the code computes, and is the right one. *)
Definition commanded (b : Act) (a : DriftAction) : Prop :=
  match b, a with
  | Leave, NoAction | Seek, HardSeek => True
  | Command k, SetSpeed f => f = target_speed k ∧ speed_for k f = true
  | _, _ => False
  end.

Lemma commanded_target k : -200 ≤ k ≤ 200 → commanded (Command k) (SetSpeed (target_speed k)).
Proof. intros Hk. split; [done|]. by apply target_speed_for. Qed.

Lemma sim_correcting k : -200 ≤ k ≤ 200 →
  sim (mkDrift (Some (target_speed k)) 0 0 0) (mkCtl (Correcting k 0) 0).
Proof. intros Hk. repeat split; cbn; try lia. Qed.

Lemma sim_idle c n : 0 ≤ n < 3 → slew c = None → engage_run c = n → seek_run c = 0 →
  sim c (mkCtl (Idle n) 0).
Proof. intros. repeat split; cbn; auto; lia. Qed.

Lemma observe_far c s d : sim c s → 3000 < Z.abs d →
  ∃ s' b, ctl_step s d s' b ∧ sim (observe c d).1 s' ∧ commanded b (observe c d).2.
Proof.
  destruct s as [m k]. intros (Hk & Hr & Hm) Hd. cbn in Hk, Hr. unfold observe.
  rewrite (proj2 (Z.ltb_lt _ _) Hd : (DRIFT_HARD_SEEK_MILLIS <? Z.abs d) = true). rewrite Hk.
  unfold u32_wrap. rewrite Z.mod_small by (unfold u32_modulus; lia). unfold ENGAGE_RUN.
  destruct (Z.leb_spec 3 (k + 1)).
  - eexists _, _. split; [by apply ctl_seek|]. split; [apply sim_idle; done|done].
  - eexists _, _. split; [by apply ctl_far|]. split; [|done].
    split; [done|]. split; [cbn; lia|]. destruct m as [n|k' age]; cbn in *; [tauto|].
    destruct Hm as (?&?&?&?&Hs). rewrite Hs. repeat split; try done; lia.
Qed.

Lemma observe_idle c n k d : sim c (mkCtl (Idle n) k) → Z.abs d ≤ 3000 →
  ∃ s' b, ctl_step (mkCtl (Idle n) k) d s' b ∧ sim (observe c d).1 s' ∧ commanded b (observe c d).2.
Proof.
  intros (Hk & Hr & Hs & He & Hn) Hd. unfold observe.
  rewrite (proj2 (Z.ltb_ge _ _) Hd : (DRIFT_HARD_SEEK_MILLIS <? Z.abs d) = false). rewrite Hs, He.
  unfold u32_wrap. rewrite Z.mod_small by (unfold u32_modulus; lia). cbn [andb].
  unfold DRIFT_ENGAGE_MILLIS, DRIFT_RELEASE_MILLIS, ENGAGE_RUN.
  destruct (Z.ltb_spec (Z.abs d) 150); [|destruct (Z.ltb_spec (n + 1) 3)].
  - eexists _, _. split; [by apply ctl_in_band|]. split; [|done]. by apply sim_idle.
  - eexists _, _. split; [by apply ctl_arm|]. split; [|done]. apply sim_idle; cbn; auto; lia.
  - rewrite (proj2 (Z.ltb_ge (Z.abs d) 25)) by lia. cbn [fst snd].
    pose proof (clamp_range d). rewrite target_clamp by done.
    eexists _, _. split; [by apply ctl_engage|]. split; [by apply sim_correcting|by apply commanded_target].
Qed.

Lemma observe_correcting c g age k d : sim c (mkCtl (Correcting g age) k) → Z.abs d ≤ 3000 →
  ∃ s' b, ctl_step (mkCtl (Correcting g age) k) d s' b ∧
    sim (observe c d).1 s' ∧ commanded b (observe c d).2.
Proof.
  intros (Hk & Hr & Hs & Hg & He & Ha & Hc) Hd. cbn in Hk, Hr, Hs, Hg, Ha, Hc. unfold observe.
  rewrite (proj2 (Z.ltb_ge _ _) Hd : (DRIFT_HARD_SEEK_MILLIS <? Z.abs d) = false). rewrite Hs. cbn [andb].
  unfold DRIFT_RELEASE_MILLIS. destruct (Z.ltb_spec (Z.abs d) 25).
  { eexists _, _. split; [by apply ctl_release|]. split; [by apply sim_idle|].
    split; vm_compute; reflexivity. }
  pose proof (clamp_range d) as Hcl. rewrite (target_clamp d) by done. rewrite Hc. unfold SLEW_RECOMMAND_SAMPLES.
  assert (Z.min (Z.min age u32_max + 1) u32_max = Z.min (age + 1) u32_max) as -> by lia.
  set (lt := f64_lt _ _). destruct (lt || _) eqn:Hkeep.
  - eexists _, _. split; [apply ctl_hold; [lia|]|].
    { apply orb_true_iff in Hkeep as [Hlt|Hage]; [right|left; unfold u32_max, u32_modulus in Hage; lia].
      destruct (Z.eq_dec (Z.abs (clamp d - g)) 80); [lia|].
      unfold lt in Hlt. rewrite quantum_spec in Hlt by done. lia. }
    split; [|done]. repeat split; cbn; try done; lia.
  - apply orb_false_iff in Hkeep as [Hlt Hage].
    eexists _, _. split; [apply ctl_update; [lia|unfold u32_max, u32_modulus in Hage; lia|]|].
    { destruct (Z.eq_dec (Z.abs (clamp d - g)) 80); [lia|].
      unfold lt in Hlt. rewrite quantum_spec in Hlt by done. lia. }
    split; [by apply sim_correcting|by apply commanded_target].
Qed.

Lemma observe_sim c s d : sim c s →
  ∃ s' b, ctl_step s d s' b ∧ sim (observe c d).1 s' ∧ commanded b (observe c d).2.
Proof.
  intros Hs. destruct (Z.lt_ge_cases 3000 (Z.abs d)); [by apply observe_far|].
  destruct s as [[n|g age] k]; [by apply observe_idle|by apply observe_correcting].
Qed.

Lemma feed_cons c d ds :
  feed c (d :: ds) = ((feed (observe c d).1 ds).1, (observe c d).2 :: (feed (observe c d).1 ds).2).
Proof. cbn. destruct (observe c d) as [c1 a]; cbn. by destruct (feed c1 ds). Qed.

Lemma feed_sim ds : ∀ c s, sim c s →
  ∃ s' bs, ctl_run s ds s' bs ∧ sim (feed c ds).1 s' ∧ Forall2 commanded bs (feed c ds).2.
Proof.
  induction ds as [|d ds IH]; intros c s Hs.
  { exists s, []. repeat split; try constructor; apply Hs. }
  rewrite feed_cons. destruct (observe_sim c s d Hs) as (s1 & b & Hstep & Hs1 & Hb).
  destruct (IH _ _ Hs1) as (s2 & bs & Hrun & Hs2 & Hbs).
  exists s2, (b :: bs). cbn. split; [by econstructor|]. split; [done|by constructor].
Qed.

Lemma sim_init : sim new ctl_init.
Proof. by apply sim_idle. Qed.

(** ** Counting transitions *)

Definition is_release (a : DriftAction) : bool :=
  match a with SetSpeed f => SFeqb f (f64_of 1) | _ => false end.
Definition is_slew (a : DriftAction) : bool :=
  match a with SetSpeed f => negb (SFeqb f (f64_of 1)) | _ => false end.
Definition is_seek (a : DriftAction) : bool := match a with HardSeek => true | _ => false end.
Definition tally {A} (P : A → bool) (acts : list A) : Z := Z.of_nat (length (List.filter P acts)).
Lemma tally_app {A} (P : A → bool) l k : tally P (l ++ k) = tally P l + tally P k.
Proof. unfold tally. rewrite List.filter_app, length_app. lia. Qed.

Lemma tally_cons {A} (P : A → bool) a acts : tally P (a :: acts) = Z.b2z (P a) + tally P acts.
Proof. unfold tally. cbn. destruct (P a); cbn; lia. Qed.

Lemma neutral_table :
  forallb (λ k, Bool.eqb (SFeqb (target_speed k) (f64_of 1)) (k =? 0)) (seqZ (-200) 401) = true.
Proof. vm_compute. reflexivity. Qed.
Lemma neutral_spec k : -200 ≤ k ≤ 200 → SFeqb (target_speed k) (f64_of 1) = (k =? 0).
Proof.
  intros. apply eqb_prop.
  apply (forallb_seqZ (λ k, Bool.eqb (SFeqb (target_speed k) (f64_of 1)) (k =? 0)) _ _ _ neutral_table). lia.
Qed.

(** What a state has saved up towards its next command: towards the rate of
    updates, and towards the rate of commands at all. *)
Definition saved_up (m : Mode) : Z := match m with Idle _ => 10 | Correcting _ age => Z.min age 10 end.
Definition banked (m : Mode) : Z := match m with Idle n => n | Correcting _ age => 1 + Z.min age 10 end.

Definition slews (b : Act) : bool := match b with Command k => negb (k =? 0) | _ => false end.
Definition releases (b : Act) : bool := match b with Command k => k =? 0 | _ => false end.
Definition seeks (b : Act) : bool := match b with Seek => true | _ => false end.

Definition ctl_ok (s : Ctl) : Prop :=
  0 ≤ beyond s < 3 ∧ match mode s with Idle n => 0 ≤ n < 3 | Correcting _ age => 0 ≤ age end.

Lemma clamp_zero d : 25 ≤ Z.abs d → (clamp d =? 0) = false.
Proof. unfold clamp. lia. Qed.

Lemma ctl_step_budget s d s' b : ctl_ok s → ctl_step s d s' b →
  ctl_ok s' ∧
  10 * Z.b2z (slews b) + saved_up (mode s') ≤
    1 + 10 * (Z.b2z (releases b) + Z.b2z (seeks b)) + saved_up (mode s) ∧
  2 * (Z.b2z (slews b) + Z.b2z (releases b)) + banked (mode s') ≤ 1 + banked (mode s) ∧
  3 * Z.b2z (seeks b) + beyond s' ≤ 1 + beyond s.
Proof.
  intros [Hk Hm] Hstep. unfold ctl_ok.
  destruct Hstep as [[]|[]|?|?|?|?|?|?]; cbn in *; rewrite ?clamp_zero by lia; cbn; repeat split; lia.
Qed.

Lemma ctl_run_budget s ds s' bs : ctl_run s ds s' bs → ctl_ok s →
  10 * tally slews bs ≤ Z.of_nat (length ds) + 10 * (tally releases bs + tally seeks bs) + saved_up (mode s) ∧
  2 * (tally slews bs + tally releases bs) ≤ Z.of_nat (length ds) + banked (mode s) ∧
  3 * tally seeks bs ≤ Z.of_nat (length ds) + beyond s.
Proof.
  induction 1 as [s|s d s1 b ds s2 bs Hst Hrun IH]; intros Hok.
  { unfold tally. destruct Hok as [? Hm]. cbn [List.filter length]. destruct (mode s); cbn [saved_up banked] in *; lia. }
  destruct (ctl_step_budget _ _ _ _ Hok Hst) as (Hok1 & H1 & H2 & H3).
  specialize (IH Hok1). rewrite !tally_cons. cbn [length]. rewrite Nat2Z.inj_succ. lia.
Qed.

Lemma commanded_kinds b a : commanded b a → (∀ k, b = Command k → -200 ≤ k ≤ 200) →
  is_slew a = slews b ∧ is_release a = releases b ∧ is_seek a = seeks b.
Proof.
  intros Hc Hr. destruct b as [|k|], a as [|f|]; cbn in *; try done.
  destruct Hc as [-> _]. by rewrite neutral_spec by (by apply Hr).
Qed.

Lemma ctl_step_range s d s' b k : ctl_step s d s' b → b = Command k → -200 ≤ k ≤ 200.
Proof. intros Hst ->. inversion Hst; subst; try apply clamp_range; lia. Qed.

Lemma ctl_run_tallies s ds s' bs acts : ctl_run s ds s' bs → Forall2 commanded bs acts →
  tally is_slew acts = tally slews bs ∧ tally is_release acts = tally releases bs ∧
  tally is_seek acts = tally seeks bs.
Proof.
  intros Hrun. revert acts. induction Hrun as [|s d s1 b ds s2 bs Hst Hrun IH]; intros acts Ha;
    inversion Ha as [|? a ? acts' Hb Hbs]; subst; [done|].
  rewrite !tally_cons. destruct (IH _ Hbs) as (-> & -> & ->).
  destruct (commanded_kinds b a Hb) as (-> & -> & ->); [|done]. intros k. by eapply ctl_step_range.
Qed.

(** ** Reactions *)

Lemma sim_ok c s : sim c s → ctl_ok s.
Proof. intros (_ & Hb & Hm). split; [done|]. destruct (mode s); tauto. Qed.

(** After [j] samples drifting the same way: still arming, or correcting that
    way, or waiting out the update interval of an earlier correction. *)
Definition turning (sg j : Z) (s : Ctl) : Prop :=
  match mode s with
  | Idle n => j ≤ n < 3
  | Correcting k age => 70 ≤ sg * k ∨ j ≤ age < 10
  end.

Lemma turning_step sg j s d s' b :
  sg = 1 ∨ sg = -1 → 150 ≤ sg * d ≤ 3000 → 0 ≤ j → j = 0 ∧ ctl_ok s ∨ turning sg j s →
  ctl_step s d s' b → turning sg (j + 1) s'.
Proof.
  intros Hsg Hd Hj Hs Hst. unfold turning, ctl_ok in *.
  inversion Hst; subst; cbn [mode beyond] in *; unfold clamp in *;
    destruct Hsg as [-> | ->]; cbn [mode] in *; lia.
Qed.

Lemma turning_run sg ds : ∀ j s s' bs,
  sg = 1 ∨ sg = -1 → Forall (λ d, 150 ≤ sg * d ≤ 3000) ds → 0 ≤ j → j = 0 ∧ ctl_ok s ∨ turning sg j s →
  ctl_run s ds s' bs → ds = [] ∨ turning sg (j + Z.of_nat (length ds)) s'.
Proof.
  induction ds as [|d ds IH]; intros j s s' bs Hsg Hds Hj Hs Hrun; [by left|right].
  inversion Hds; inversion Hrun; subst.
  assert (turning sg (j + 1) s1) as Ht1 by (eapply turning_step; eauto).
  destruct (IH (j + 1) s1 s' acts) as [->|Ht]; try done; [lia|by right| |].
  - match goal with H : ctl_run _ [] _ _ |- _ => inversion H; subst end. cbn. done.
  - cbn [length]. by replace (j + Z.of_nat (S (length ds))) with (j + 1 + Z.of_nat (length ds)) by lia.
Qed.

Lemma feed_app c ds es :
  feed c (ds ++ es) = ((feed (feed c ds).1 es).1, (feed c ds).2 ++ (feed (feed c ds).1 es).2).
Proof.
  revert c. induction ds as [|d ds IH]; intros c; [by cbn; destruct (feed c es)|].
  rewrite <-app_comm_cons, !feed_cons, IH. done.
Qed.

Lemma reached_sim pre : ∃ s, sim (feed new pre).1 s.
Proof. destruct (feed_sim pre new ctl_init sim_init) as (s & _ & _ & Hs & _). by exists s. Qed.

Lemma commanded_leave a : commanded Leave a → a = NoAction.
Proof. by destruct a. Qed.

(** From a sample in the band on, two samples cost nothing. *)
Lemma ctl_rests s d s' b : Z.abs d < 25 → ctl_step s d s' b → s' = ctl_init.
Proof. intros Hd Hst. inversion Hst; subst; done || lia. Qed.

Definition calm_for (j : Z) (s : Ctl) : Prop :=
  beyond s ≤ j ∧ match mode s with Idle n => n ≤ j | Correcting _ _ => False end.

Lemma ctl_quiet j s d s' b : calm_for j s → 0 ≤ j < 2 → ctl_step s d s' b → b = Leave ∧ calm_for (j + 1) s'.
Proof.
  unfold calm_for. intros [Hb Hm] Hj Hst.
  inversion Hst; subst; cbn [mode beyond] in *; try done; try lia.
  all: try (destruct m; [|done]).
  all: cbn [older mode beyond] in *; repeat split; (done || lia).
Qed.

Lemma ctl_debounced s d0 d1 d2 s' bs : Z.abs d0 < 25 → ctl_run s [d0; d1; d2] s' bs →
  ∃ b, bs = [b; Leave; Leave].
Proof.
  intros Hd Hrun.
  inversion Hrun as [|? ? s1 b0 ? ? ? H0 R1]; subst. inversion R1 as [|? ? s2 b1 ? ? ? H1 R2]; subst.
  inversion R2 as [|? ? s3 b2 ? ? ? H2 R3]; subst. inversion R3; subst.
  rewrite (ctl_rests _ _ _ _ Hd H0) in H1.
  destruct (ctl_quiet 0 ctl_init _ _ _ ltac:(split; cbn; lia) ltac:(lia) H1) as [-> Hc].
  destruct (ctl_quiet 1 _ _ _ _ Hc ltac:(lia) H2) as [-> _]. by exists b0.
Qed.

Lemma ctl_far_run s d s' b : 3000 < Z.abs d → ctl_step s d s' b → b = Seek ∨ beyond s' = beyond s + 1 ∧ beyond s < 2.
Proof. intros Hd Hst. inversion Hst; subst; cbn [beyond]; try lia; auto. Qed.

Lemma ctl_seeks s d0 d1 d2 s' bs : ctl_ok s →
  3000 < Z.abs d0 → 3000 < Z.abs d1 → 3000 < Z.abs d2 → ctl_run s [d0; d1; d2] s' bs → Seek ∈ bs.
Proof.
  intros [Hb _] D0 D1 D2 Hrun.
  inversion Hrun as [|? ? s1 b0 ? ? ? H0 R1]; subst. inversion R1 as [|? ? s2 b1 ? ? ? H1 R2]; subst.
  inversion R2 as [|? ? s3 b2 ? ? ? H2 R3]; subst.
  apply ctl_far_run in H0, H1, H2; try done. set_solver by lia.
Qed.

(** ** Statements *)

(** C23. For every sequence of samples the floating-point controller acts as the
    integer controller of the specification does: the same samples are left
    alone, seeked and commanded, and every commanded speed is a double within
    one unit in the last place of [1 + slew/10000]. *)
Theorem drift_refines_integer_controller deltas :
  ∃ s bs, ctl_run ctl_init deltas s bs ∧ Forall2 commanded bs (feed new deltas).2.
Proof. destruct (feed_sim deltas new ctl_init sim_init) as (s & bs & Hr & _ & Hb). by exists s, bs. Qed.

(** However noisy the samples, transitions are bounded: speed commands (slews
    and releases together) at most one per two samples, slews at most one per
    ten samples beyond one for each release and hard seek, hard seeks at most
    one per three samples; and every commanded speed lies in [0.98, 1.02]. *)
Theorem drift_transitions_bounded deltas :
  let acts := (feed new deltas).2 in
  let n := Z.of_nat (length deltas) in
  2 * (tally is_slew acts + tally is_release acts) ≤ n ∧
  10 * tally is_slew acts ≤ n + 10 * (tally is_release acts + tally is_seek acts + 1) ∧
  3 * tally is_seek acts ≤ n ∧
  (∀ f, SetSpeed f ∈ acts → SFleb (f64_lit 98 100) f = true ∧ SFleb f (f64_lit 102 100) = true).
Proof.
  intros acts n. destruct (feed_sim deltas new ctl_init sim_init) as (s & bs & Hr & _ & Hb).
  fold acts in Hb. destruct (ctl_run_tallies _ _ _ _ _ Hr Hb) as (-> & -> & ->).
  destruct (ctl_run_budget _ _ _ _ Hr (sim_ok _ _ sim_init)) as (H1 & H2 & H3). cbn in H1, H2, H3.
  split; [lia|]. split; [lia|]. split; [lia|].
  intros f Hf. apply list_elem_of_lookup_1 in Hf as [i Hi].
  destruct (Forall2_lookup_r _ _ _ _ _ Hb Hi) as ([|k|] & _ & Hc); try done.
  destruct Hc as [_ Hc]. unfold speed_for in Hc. destruct f as [| | |[] m e]; try done.
  by apply andb_true_iff in Hc as [[_ ?]%andb_true_iff ?].
Qed.

(** The controller reacts when it should and not before, whatever happened
    earlier. After a sample in the release band, the next two samples are left
    alone whatever they are. Three samples in a row beyond the seek threshold
    cause a hard seek. Ten in a row that lag (or lead) by at least the engage
    threshold leave the player faster (or slower) by at least 0.7 percent. A
    sample in the release band leaves it at normal speed. *)
Theorem drift_reacts pre :
  let c := (feed new pre).1 in
  (∀ d0 d1 d2, Z.abs d0 < 25 → ∃ a, (feed c [d0; d1; d2]).2 = [a; NoAction; NoAction]) ∧
  (∀ d0 d1 d2, 3000 < Z.abs d0 → 3000 < Z.abs d1 → 3000 < Z.abs d2 → HardSeek ∈ (feed c [d0; d1; d2]).2) ∧
  (∀ sg ds, sg = 1 ∨ sg = -1 → Forall (λ d, 150 ≤ sg * d ≤ 3000) ds → length ds = 10%nat →
     ∃ k f, slew (feed c ds).1 = Some f ∧ speed_for k f = true ∧ 70 ≤ sg * k) ∧
  (∀ d, Z.abs d < 25 → slew (observe c d).1 = None).
Proof.
  cbv zeta. destruct (reached_sim pre) as [s Hs]. set (c := (feed new pre).1) in *.
  pose proof (sim_ok _ _ Hs) as Hok. split; [|split; [|split]].
  - intros d0 d1 d2 Hd. destruct (feed_sim [d0; d1; d2] c s Hs) as (s' & bs & Hr & _ & Hb).
    destruct (ctl_debounced _ _ _ _ _ _ Hd Hr) as [b ->].
    destruct (Forall2_cons_inv_l _ _ _ _ Hb) as (a & l & _ & Hb1 & ->).
    destruct (Forall2_cons_inv_l _ _ _ _ Hb1) as (a1 & l1 & E1 & Hb2 & ->).
    destruct (Forall2_cons_inv_l _ _ _ _ Hb2) as (a2 & l2 & E2 & ->%Forall2_nil_inv_l & ->).
    apply commanded_leave in E1, E2. subst. by exists a.
  - intros d0 d1 d2 D0 D1 D2. destruct (feed_sim [d0; d1; d2] c s Hs) as (s' & bs & Hr & _ & Hb).
    pose proof (ctl_seeks _ _ _ _ _ _ Hok D0 D1 D2 Hr) as [i Hi]%list_elem_of_lookup_1.
    destruct (Forall2_lookup_l _ _ _ _ _ Hb Hi) as ([] & Ha & Hc); try done.
    by eapply list_elem_of_lookup_2.
  - intros sg ds Hsg Hds Hl. destruct (feed_sim ds c s Hs) as (s' & bs & Hr & Hs' & _).
    destruct (turning_run sg ds 0 s s' bs) as [->|Ht]; try done; [by left|].
    rewrite Hl in Ht. destruct Hs' as (_ & _ & Hm). unfold turning in Ht.
    destruct (mode s') as [n|k age]; [lia|]. destruct Hm as (Hk & Hr' & _).
    exists k, (target_speed k). split; [done|]. split; [by apply target_speed_for|lia].
  - intros d Hd. destruct (observe_sim c s d Hs) as (s' & b & Hst & Hs' & _).
    rewrite (ctl_rests _ _ _ _ Hd Hst) in Hs'. apply Hs'.
Qed.
