(* ===== verification/Spoiler.v ===== *)
(** * Spoiler tags

    src/dessplay-core/src/spoiler.rs: finding the [||hidden||] runs of a chat
    body and masking them for the surfaces that cannot reveal them (the player's
    on-screen display, the public IRC channel).

    A [str] is its bytes (Text); [chars] and [utf8] are the standard library's
    decoding and encoding. The Unicode tables behind [is_whitespace],
    [is_numeric] and [is_uppercase] are a parameter. *)

From S2P Require Import Prelude Text Framing.

(** ** Characters *)

(** [str::chars] on valid UTF-8. *)
Fixpoint chars (l : Bytes) : list Z :=
  match l with
  | [] => []
  | b0 :: l1 =>
      if b0 <? 0x80 then b0 :: chars l1
      else match l1 with
      | [] => []
      | b1 :: l2 =>
          if b0 <? 0xE0 then (b0 - 0xC0) * 64 + (b1 - 0x80) :: chars l2
          else match l2 with
          | [] => []
          | b2 :: l3 =>
              if b0 <? 0xF0 then ((b0 - 0xE0) * 64 + (b1 - 0x80)) * 64 + (b2 - 0x80) :: chars l3
              else match l3 with
              | [] => []
              | b3 :: l4 =>
                  (((b0 - 0xF0) * 64 + (b1 - 0x80)) * 64 + (b2 - 0x80)) * 64 + (b3 - 0x80) :: chars l4
              end
          end
      end
  end.
(** [char::encode_utf8], and collecting characters into a [String]. *)
Definition encode_utf8 (c : Z) : Bytes :=
  if c <? 0x80 then [c]
  else if c <? 0x800 then [0xC0 + c / 64; 0x80 + c mod 64]
  else if c <? 0x10000 then [0xE0 + c / 4096; 0x80 + c / 64 mod 64; 0x80 + c mod 64]
  else [0xF0 + c / 262144; 0x80 + c / 4096 mod 64; 0x80 + c / 64 mod 64; 0x80 + c mod 64].
Definition utf8 (cs : list Z) : Bytes := mjoin (encode_utf8 <$> cs).

Definition is_ascii_punctuation (c : Z) : bool :=
  ((33 <=? c) && (c <=? 47)) || ((58 <=? c) && (c <=? 64)) ||
  ((91 <=? c) && (c <=? 96)) || ((123 <=? c) && (c <=? 126)).

(** The Unicode classes of a character. *)
Class CharClasses := {
  is_whitespace : Z → bool;
  is_numeric : Z → bool;
  is_uppercase : Z → bool
}.

(** ** Parsing *)

Inductive Segment := SText (t : Bytes) | SSpoiler (t : Bytes).

Definition bars : Bytes := [124; 124].

(** The slice [text[a..b]]. *)
Definition slice (text : Bytes) (a b : nat) : Bytes := take (b - a) (drop a text).

Fixpoint parse_loop (fuel : nat) (text : Bytes) (pos scan : nat) (out : list Segment) : list Segment :=
  let finish := if (pos <? length text)%nat then out ++ [SText (drop pos text)] else out in
  match fuel with
  | O => finish
  | S fuel =>
      match str_find bars (drop scan text) with
      | None => finish
      | Some open_rel =>
          let open := (scan + open_rel)%nat in
          let after := (open + 2)%nat in
          match str_find bars (drop after text) with
          | None => finish
          | Some O => parse_loop fuel text pos after out
          | Some close_rel =>
              let close := (after + close_rel)%nat in
              let out := if (pos <? open)%nat then out ++ [SText (slice text pos open)] else out in
              parse_loop fuel text (close + 2) (close + 2) (out ++ [SSpoiler (slice text after close)])
          end
      end
  end.
Definition parse (text : Bytes) : list Segment := parse_loop (length text) text 0 0 [].

(** ** Masking *)

Definition FNV_OFFSET : Z := 0xcbf29ce484222325.
Definition FNV_PRIME : Z := 0x00000100000001b3.

Definition fnv1a (state : Z) (bytes : Bytes) : Z :=
  foldl (λ h b, u64_wrap (Z.lxor h b * FNV_PRIME)) state bytes.

Definition seed (millis : Z) (sender : Bytes) (index : Z) : Z :=
  let h := fnv1a FNV_OFFSET (to_le_bytes 8 millis) in
  let h := fnv1a h sender in
  fnv1a h (to_le_bytes 8 index).

Definition decide_hash (sd tag generation index : Z) : Z :=
  let h := fnv1a sd [tag] in
  let h := fnv1a h (to_le_bytes 8 generation) in
  fnv1a h (to_le_bytes 8 index).

Section masks.
Context `{CharClasses}.

Definition substitute (c h : Z) : Z :=
  if is_numeric c then 48 + h mod 10
  else if is_uppercase c then 65 + h mod 26
  else 97 + h mod 26.

Definition scramble_char (sd generation : Z) (i : nat) (c : Z) : Z :=
  if is_whitespace c || is_ascii_punctuation c then c
  else substitute c (decide_hash sd 0 generation (Z.of_nat i)).
Definition scramble (text : Bytes) (sd generation : Z) : Bytes :=
  utf8 (imap (scramble_char sd generation) (chars text)).

(** The loop of [mask_message]: the text so far and the runs seen. *)
Fixpoint mask_loop (seed_base : Z) (sender : Bytes) (segments : list Segment) (index : Z) : Bytes :=
  match segments with
  | [] => []
  | SText t :: rest => t ++ mask_loop seed_base sender rest index
  | SSpoiler s :: rest =>
      scramble s (seed seed_base sender index) 0 ++ mask_loop seed_base sender rest (index + 1)
  end.
Definition mask_message (text : Bytes) (seed_base : Z) (sender : Bytes) : Bytes :=
  match str_find bars text with
  | None => text
  | Some _ => mask_loop seed_base sender (parse text) 0
  end.

(** [rain_glyph] and [zalgo], for the surfaces that animate. *)
Definition BOX_RAIN : list Z := [0x2500; 0x2502; 0x253C; 0x251C; 0x2524; 0x252C; 0x2534].
Definition is_box_drawing (c : Z) : bool := (0x2500 <=? c) && (c <=? 0x257F).
Definition is_content (c : Z) : bool := negb (is_whitespace c) && negb (is_ascii_punctuation c).
Definition rain_glyph (target fallback sd generation : Z) : option Z :=
  let h := decide_hash sd 2 generation 0 in
  let source := if is_box_drawing target || is_content target then target else fallback in
  if is_box_drawing source then BOX_RAIN !! Z.to_nat (h mod Z.of_nat (length BOX_RAIN))
  else if is_content source then Some (substitute source h)
  else Some (substitute 97 h).

Definition ZALGO_MARKS : list Z := [0x300; 0x301; 0x303; 0x306; 0x308; 0x30C; 0x323; 0x330].
Definition zalgo_char (sd generation : Z) (char_offset i : nat) (c : Z) : option (list Z) :=
  if is_whitespace c then Some [c]
  else
    let h := decide_hash sd 1 generation (Z.of_nat (char_offset + i)) in
    if h mod 3 =? 0 then
      mark ← ZALGO_MARKS !! Z.to_nat (h / 3 mod Z.of_nat (length ZALGO_MARKS)); Some [c; mark]
    else Some [c].
Definition zalgo (text : Bytes) (sd generation : Z) (char_offset : nat) : option Bytes :=
  css ← mapM id (imap (zalgo_char sd generation char_offset) (chars text));
  Some (utf8 (mjoin css)).
End masks.

(** ** Finding the bars *)

Lemma str_find_first p l n m : str_find p l = Some n → (m < n)%nat → starts_with p (drop m l) = false.
Proof.
  revert n m. induction l as [|x l IH]; intros n m; simpl.
  - destruct (starts_with p []); [|done]. intros [= <-]. lia.
  - destruct (starts_with p (x :: l)) eqn:E; [intros [= <-]; lia|].
    intros (k & Hk & ->)%fmap_Some_1 Hm. destruct m as [|m]; [done|]. apply (IH k); [done|lia].
Qed.

Lemma str_find_None p l : str_find p l = None ↔ ∀ m, starts_with p (drop m l) = false.
Proof.
  induction l as [|x l IH]; simpl.
  - destruct (starts_with p []) eqn:E; split; try done.
    + intros Hm. specialize (Hm 0%nat). simpl in Hm. congruence.
    + intros _ m. by rewrite drop_nil.
  - destruct (starts_with p (x :: l)) eqn:E.
    + split; [done|]. intros Hm. specialize (Hm 0%nat). simpl in Hm. congruence.
    + rewrite fmap_None, IH. split; intros Hm m; [destruct m; [done|apply Hm]|apply (Hm (S m))].
Qed.

Lemma starts_with_prefix p l r : starts_with p l = true → starts_with p (l ++ r) = true.
Proof. intros (s & ->)%starts_with_true. rewrite <-(assoc_L _). apply starts_with_app. Qed.

(** What precedes the first match holds none. *)
Lemma str_find_take p l n : p ≠ [] → str_find p l = Some n → str_find p (take n l) = None.
Proof.
  intros Hp Hf. apply str_find_None. intros m. destruct (Nat.lt_ge_cases m n) as [Hm|Hm].
  - destruct (starts_with p (drop m (take n l))) eqn:E; [|done].
    pose proof (str_find_first p l n m Hf Hm) as Hno.
    rewrite <-(take_drop n l), drop_app_le, starts_with_prefix in Hno; [done|done|].
    rewrite length_take. destruct (str_find_Some p l n Hf) as (a & b & -> & ->). rewrite length_app. lia.
  - rewrite drop_ge by (rewrite length_take; lia). by destruct p.
Qed.

Lemma find_bars text a n : str_find bars (drop a text) = Some n →
  drop (a + n) text = bars ++ drop (a + n + 2) text ∧ (a + n + 2 ≤ length text)%nat.
Proof.
  intros (x & y & Hd & ->)%str_find_Some. pose proof (f_equal length Hd) as Hl.
  rewrite length_drop, !length_app in Hl. cbn [bars length] in Hl. split; [|lia].
  assert (∀ k, drop (a + (length x + k)) text = drop k (bars ++ y)) as Hk
    by (intros k; by rewrite <-drop_drop, Hd, <-drop_drop, drop_app_length).
  rewrite <-(Nat.add_0_r (a + length x)), <-!Nat.add_assoc, !Hk. done.
Qed.

(** ** Round trip *)

Definition unparse_segment (s : Segment) : Bytes :=
  match s with SText t => t | SSpoiler t => bars ++ t ++ bars end.
Definition unparse (segments : list Segment) : Bytes := mjoin (unparse_segment <$> segments).

Definition segment_ok (s : Segment) : Prop :=
  match s with SText t => t ≠ [] | SSpoiler t => t ≠ [] ∧ str_find bars t = None end.

Lemma unparse_app s r : unparse (s ++ r) = unparse s ++ unparse r.
Proof. unfold unparse. by rewrite fmap_app, join_app. Qed.

Lemma slice_join text a b : (a ≤ b)%nat → take a text ++ slice text a b = take b text.
Proof.
  intros Hab. unfold slice. rewrite <-(take_drop a text) at 3.
  destruct (Nat.le_gt_cases (length text) a) as [Hl|Hl].
  - rewrite !(drop_ge text) by lia. by rewrite take_nil, !(right_id_L [] (++)), take_take, Nat.min_r by lia.
  - rewrite take_app_ge by (rewrite length_take; lia). f_equal. rewrite length_take. f_equal. lia.
Qed.

Lemma take_bars text a : drop a text = bars ++ drop (a + 2) text → take (a + 2) text = take a text ++ bars.
Proof.
  intros Hd. rewrite <-(slice_join text a (a + 2)) by lia. f_equal. unfold slice. rewrite Hd.
  replace (a + 2 - a)%nat with 2%nat by lia. done.
Qed.

(** A run of the loop: what was parsed accounts for the text up to [pos]. *)
Lemma parse_loop_ok fuel text : ∀ pos scan out,
  (pos ≤ scan)%nat → (length text - scan ≤ fuel)%nat → (pos ≤ length text)%nat →
  unparse out = take pos text → Forall segment_ok out →
  unparse (parse_loop fuel text pos scan out) = text ∧ Forall segment_ok (parse_loop fuel text pos scan out) ∧
  (∀ more, parse_loop (fuel + more) text pos scan out = parse_loop fuel text pos scan out).
Proof.
  induction fuel as [|fuel IH]; intros pos scan out Hps Hfuel Hpos Hu Hok.
  all: set (finish := if (pos <? length text)%nat then out ++ [SText (drop pos text)] else out).
  all: assert (unparse finish = text ∧ Forall segment_ok finish) as [Hfin Hfok].
  1,3: unfold finish; destruct (Nat.ltb_spec pos (length text)) as [Hlt|Hge];
    [rewrite unparse_app, Hu; unfold unparse; cbn [fmap list_fmap unparse_segment mjoin list_join];
     rewrite (right_id_L [] (++)), take_drop; split; [done|];
     apply Forall_app; split; [done|]; apply Forall_singleton; cbn; intros He;
     pose proof (f_equal length He) as Hl; rewrite length_drop in Hl; cbn in Hl; lia
    |by rewrite Hu, take_ge by lia].
  - cbn [parse_loop]. fold finish. split; [done|]. split; [done|]. intros [|more]; [done|].
    cbn [Nat.add parse_loop]. fold finish. by rewrite drop_ge by lia.
  - cbn [parse_loop Nat.add]. fold finish.
    destruct (str_find bars (drop scan text)) as [open_rel|] eqn:Hopen; [|done].
    destruct (find_bars _ _ _ Hopen) as [Ho Hol]. set (open := (scan + open_rel)%nat) in *.
    destruct (str_find bars (drop (open + 2) text)) as [[|n]|] eqn:Hclose; [| |done].
    { apply IH; lia || done. }
    set (close_rel := S n) in *. destruct (find_bars _ _ _ Hclose) as [Hc Hcl].
    set (close := (open + 2 + close_rel)%nat) in *.
    assert (slice text (open + 2) close = take close_rel (drop (open + 2) text)) as Hslice
      by (unfold slice; f_equal; unfold close; lia).
    apply IH; try lia.
    + rewrite unparse_app. transitivity (take open text ++ (bars ++ slice text (open + 2) close ++ bars)).
      * f_equal; [|unfold unparse; cbn [fmap list_fmap mjoin list_join unparse_segment];
                   by rewrite (right_id_L [] (++))].
        destruct (Nat.ltb_spec pos open).
        { rewrite unparse_app, Hu, <-(slice_join text pos open) by lia. f_equal.
          unfold unparse. cbn. by rewrite (right_id_L [] (++)). }
        rewrite Hu. f_equal. lia.
      * rewrite take_bars by done. rewrite <-(slice_join text (open + 2) close) by (unfold close; lia).
        rewrite take_bars by done. by rewrite <-!(assoc_L (++)).
    + apply Forall_app. split; [|apply Forall_singleton; rewrite Hslice; split].
      * destruct (Nat.ltb_spec pos open) as [Hlt|]; [|done]. apply Forall_app. split; [done|]. apply Forall_singleton.
        cbn. unfold slice. intros He. pose proof (f_equal length He) as Hl.
        rewrite length_take, length_drop in Hl. cbn [length] in Hl. lia.
      * intros He. pose proof (f_equal length He) as Hl. rewrite length_take, length_drop in Hl.
        unfold close, close_rel in *. cbn [length] in Hl. lia.
      * by apply str_find_take.
Qed.

(** ** Masks *)

Lemma parse_ok text :
  unparse (parse text) = text ∧ Forall segment_ok (parse text) ∧
  (∀ more, parse_loop (length text + more) text 0 0 [] = parse text).
Proof. apply parse_loop_ok; [lia..|done|constructor]. Qed.

Lemma encode_decode c l : 0 ≤ c < 0x110000 → chars (encode_utf8 c ++ l) = c :: chars l.
Proof.
  intros Hc. unfold encode_utf8.
  destruct (Z.ltb_spec c 0x80); [|destruct (Z.ltb_spec c 0x800); [|destruct (Z.ltb_spec c 0x10000)]];
    cbn [app chars].
  - by rewrite (proj2 (Z.ltb_lt c 0x80)) by lia.
  - pose proof (Z.div_mod c 64). pose proof (Z.mod_pos_bound c 64).
    rewrite (proj2 (Z.ltb_ge _ 0x80)), (proj2 (Z.ltb_lt _ 0xE0)) by lia. f_equal. lia.
  - pose proof (Z.div_mod c 64). pose proof (Z.mod_pos_bound c 64).
    pose proof (Z.div_mod (c / 64) 64). pose proof (Z.mod_pos_bound (c / 64) 64).
    assert (c / 4096 = c / 64 / 64) as -> by (rewrite Z.div_div; done || lia).
    rewrite (proj2 (Z.ltb_ge _ 0x80)), (proj2 (Z.ltb_ge _ 0xE0)), (proj2 (Z.ltb_lt _ 0xF0)) by lia.
    f_equal. lia.
  - pose proof (Z.div_mod c 64). pose proof (Z.mod_pos_bound c 64).
    pose proof (Z.div_mod (c / 64) 64). pose proof (Z.mod_pos_bound (c / 64) 64).
    pose proof (Z.div_mod (c / 64 / 64) 64). pose proof (Z.mod_pos_bound (c / 64 / 64) 64).
    assert (c / 4096 = c / 64 / 64) as -> by (rewrite Z.div_div; done || lia).
    assert (c / 262144 = c / 64 / 64 / 64) as -> by (rewrite !Z.div_div; done || lia).
    rewrite (proj2 (Z.ltb_ge _ 0x80)), (proj2 (Z.ltb_ge _ 0xE0)), (proj2 (Z.ltb_ge _ 0xF0)) by lia.
    f_equal. lia.
Qed.

Lemma chars_utf8 cs : Forall (λ c, 0 ≤ c < 0x110000) cs → chars (utf8 cs) = cs.
Proof.
  induction 1 as [|c cs Hc _ IH]; [done|].
  change (utf8 (c :: cs)) with (encode_utf8 c ++ utf8 cs). by rewrite encode_decode, IH.
Qed.

Section mask_laws.
Context `{CharClasses}.

Lemma mask_by_segments text seed_base sender :
  mask_message text seed_base sender = mask_loop seed_base sender (parse text) 0.
Proof.
  unfold mask_message. destruct (str_find bars text) as [n|] eqn:Hf; [done|].
  unfold parse. destruct text as [|b text]; [done|]. cbn [length parse_loop]. rewrite drop_0, Hf.
  cbn [length Nat.ltb Nat.leb app mask_loop]. by rewrite (right_id_L [] (++)).
Qed.

(** Characters a masked run does not tell apart: it shows what passes through,
    and the class of everything else. *)
Definition shows (c : Z) : bool := is_whitespace c || is_ascii_punctuation c.
Definition alike (c d : Z) : Prop :=
  if shows c then d = c
  else shows d = false ∧ is_numeric d = is_numeric c ∧
       (is_numeric c = false → is_uppercase d = is_uppercase c).
Definition segments_alike (s r : Segment) : Prop :=
  match s, r with
  | SText t, SText u => u = t
  | SSpoiler t, SSpoiler u => Forall2 alike (chars t) (chars u)
  | _, _ => False
  end.

Lemma scramble_alike sd generation i c d : alike c d →
  scramble_char sd generation i d = scramble_char sd generation i c.
Proof.
  unfold alike, scramble_char. fold (shows c) (shows d). destruct (shows c) eqn:E; [by intros ->; rewrite E|].
  intros (-> & Hn & Hu). unfold substitute. rewrite Hn. destruct (is_numeric c); [done|].
  by rewrite (Hu eq_refl).
Qed.

Lemma imap_alike sd generation cs ds : Forall2 alike cs ds →
  imap (scramble_char sd generation) ds = imap (scramble_char sd generation) cs.
Proof.
  intros Hf. apply list_eq. intros i. rewrite !list_lookup_imap.
  pose proof (proj1 (Forall2_lookup _ _ _) Hf i) as Hi.
  destruct Hi as [c d Hcd|]; cbn [fmap option_fmap option_map]; [|done].
  by rewrite (scramble_alike sd generation i c d Hcd).
Qed.

Lemma mask_loop_alike seed_base sender ss rs : Forall2 segments_alike ss rs →
  ∀ index, mask_loop seed_base sender rs index = mask_loop seed_base sender ss index.
Proof.
  induction 1 as [|s r ss rs Hsr _ IH]; intros index; [done|].
  destruct s as [t|t], r as [u|u]; cbn in Hsr |- *; try done.
  - by rewrite Hsr, IH.
  - f_equal; [|apply IH]. unfold scramble. f_equal. by apply imap_alike.
Qed.

Lemma substitute_ascii c h : 48 ≤ substitute c h ≤ 57 ∨ 65 ≤ substitute c h ≤ 90 ∨ 97 ≤ substitute c h ≤ 122.
Proof.
  unfold substitute. pose proof (Z.mod_pos_bound h 10). pose proof (Z.mod_pos_bound h 26).
  destruct (is_numeric c); [|destruct (is_uppercase c)]; lia.
Qed.

Lemma scramble_chars text sd generation : Forall (λ c, 0 ≤ c < 0x110000) (chars text) →
  chars (scramble text sd generation) = imap (scramble_char sd generation) (chars text).
Proof.
  intros Hv. unfold scramble. apply chars_utf8, Forall_lookup. intros i x.
  rewrite list_lookup_imap. intros (c & Hc & ->)%fmap_Some_1. unfold scramble_char.
  destruct (_ || _); [by apply (Forall_lookup_1 _ _ _ _ Hv Hc)|].
  pose proof (substitute_ascii c (decide_hash sd 0 generation (Z.of_nat i))). lia.
Qed.
End mask_laws.

(** ** Statements *)

(** Parsing loses nothing and terminates: the segments with their bars put back
    are the input, no text segment is empty, a spoiler is not empty and holds
    no bars, and more iterations than the text is long change nothing. *)
Theorem parse_roundtrip text :
  unparse (parse text) = text ∧ Forall segment_ok (parse text) ∧
  (∀ more, parse_loop (length text + more) text 0 0 [] = parse text).
Proof. apply parse_ok. Qed.

(** C24. A mask tells nothing about a hidden run but its shape. Two messages whose
    visible text is equal and whose hidden runs agree in length and in the
    class of each character are masked alike, whoever sends them whenever; and
    a masked run has as many characters as the hidden one, all of them white
    space or ASCII. *)
Theorem mask_hides_content `{CharClasses} text text' seed_base sender :
  Forall2 segments_alike (parse text) (parse text') →
  mask_message text' seed_base sender = mask_message text seed_base sender ∧
  (∀ s sd generation, SSpoiler s ∈ parse text → Forall (λ c, 0 ≤ c < 0x110000) (chars s) →
     length (chars (scramble s sd generation)) = length (chars s) ∧
     Forall (λ c, is_whitespace c = true ∨ 0 ≤ c < 128) (chars (scramble s sd generation))).
Proof.
  intros Hf. split; [by rewrite !mask_by_segments; apply mask_loop_alike|].
  intros s sd generation _ Hv. rewrite scramble_chars by done. split; [apply length_imap|].
  apply Forall_lookup. intros i x. rewrite list_lookup_imap. intros (c & Hc & ->)%fmap_Some_1.
  unfold scramble_char. destruct (is_whitespace c) eqn:Hw; cbn [orb]; [by left|right].
  destruct (is_ascii_punctuation c) eqn:Hp; [unfold is_ascii_punctuation in Hp; lia|].
  pose proof (substitute_ascii c (decide_hash sd 0 generation (Z.of_nat i))). lia.
Qed.

(** The ASCII part of the Unicode tables. *)
Definition ascii_classes : CharClasses :=
  {| is_whitespace c := ((9 <=? c) && (c <=? 13)) || (c =? 32);
     is_numeric := is_ascii_digit; is_uppercase := is_ascii_upper |}.

Lemma mask_hides_content_witness :
  let text := bytes_of_string "so ||Aya dies|| ok" in
  let text' := bytes_of_string "so ||Bob wins|| ok" in
  text ≠ text' ∧
  @mask_message ascii_classes text' 5 [7] = @mask_message ascii_classes text 5 [7].
Proof.
  cbv zeta. split; [by vm_compute|].
  apply (@mask_hides_content ascii_classes (bytes_of_string "so ||Aya dies|| ok")
           (bytes_of_string "so ||Bob wins|| ok") 5 [7]).
  vm_compute. repeat constructor.
Defined.
