(* ===== verification/Session.v ===== *)
(** * The client's session policy

    src/dessplay/src/session.rs: the synchronous core between the synced state
    and the player. Fresh views, player reports and file resolutions come in;
    directives (player commands, mutations, file work) go out. Every operation
    of [PlayerWiring] is here; the shell that passes directives on is not. Log lines
    are left out; the sets that exist to avoid repeating them are kept.

    Parameters: the MD4 digest behind derived List-entry ids and the Unicode
    tables of the spoiler mask. *)

From Stdlib Require Import SpecFloat.
From S2P Require Import Prelude Text Types View Playlist Derive SeriesIdentity Message Sync Transfer F64 Drift Spoiler Hash Download.

(** ** Data *)

Abbreviation PathBuf := string.

(** [actors/file.rs]. *)
Inductive Resolution := Verified (path : PathBuf) | HashMismatch (path : PathBuf) | NotFound.
Record DownloadFetch := mkDownloadFetch {
  df_size_bytes : Z;
  df_sources : list PeerId;
  df_play_chunk : Z
}.
Record WantedDownload := mkWantedDownload { wd_file : Ed2kHash; wd_fetch : option DownloadFetch }.
Record IndexedFile := mkIndexedFile {
  if_hash : Ed2kHash;
  if_size : Z;
  if_filename : string;
  if_mtime : Z;
  if_series_hint : option string
}.

(** [storage::SeriesKey]. *)
Inductive SeriesKey := KeyAniDb (id : AniDbSeriesId) | KeyName (name : string).

(** [actors/player.rs]. *)
Inductive PlayerCommand :=
  | Load (file : Ed2kHash) (path : PathBuf) (title : option string) (resume_millis : option Z)
  | SetPlaying (playing : bool)
  | SyncTo (position_millis : Z) (timestamp : SharedTimestamp) (playing : bool)
  | SetGraceLock (locked : bool)
  | ReleaseSlew
  | RecoverFalseEof (position_millis : option Z)
  | ClockOffset (offset : Z)
  | ShowOsd (text : string)
  | SetBlockerOverlay (text : option string)
  | Screenshot (path : PathBuf) (file : Ed2kHash)
  | Shutdown.
Inductive PlayerOutput :=
  | UserPaused
  | UserUnpaused
  | OGraceRefused (refusal : GraceRefusal)
  | UserSeeked (from_millis to_millis : Z)
  | PositionTick (file : Ed2kHash) (position_millis : Z)
  | DurationKnown (file : Ed2kHash) (duration_millis : positive)
  | OSubtitleLine (text : string) (speaker : option string) (position_millis : Z)
  | Eof (file : Ed2kHash)
  | LoadFailed (file : Ed2kHash)
  | PathObserved (path : PathBuf)
  | FatalCrash
  | GaveUp.

Inductive Directive :=
  | Player (cmd : PlayerCommand)
  | DMutate (m : Mutation)
  | ReportEof (file : Ed2kHash)
  | SystemLine (text : string)
  | DGraceRefused (refusal : GraceRefusal) (grace : OutageGrace)
  | Resolve (file : Ed2kHash) (filename : string)
  | Subtitle (text : string) (speaker : option string) (video_millis : Z)
  | RecordWatched (file : Ed2kHash) (series_id : option AniDbSeriesId) (series_name : option string)
      (filename : string)
  | CheckSeriesKnown (file : Ed2kHash) (series_id : option AniDbSeriesId) (series_name : string)
  | OfferLocalCopies (file : Ed2kHash) (filename : string)
  | RenderPlaceholder (file : Ed2kHash) (lines : list string)
  | SetDownloads (wanted : list WantedDownload) (now_playing : option Ed2kHash)
  | RunEviction (protected group_watched playlist : gset Ed2kHash)
  | ForgetLocalFile (file : Ed2kHash)
  | AdoptDraggedFile (file : Ed2kHash) (path : PathBuf) (series : option SeriesKey).

Record LoadedFile := mkLoadedFile { lf_file : Ed2kHash; lf_path : PathBuf; lf_partial : bool }.

#[export] Instance LoadedFile_eq_dec : EqDecision LoadedFile.
Proof. solve_decision. Defined.

Record NarratorState := mkNarratorState {
  ns_now_playing : option Ed2kHash;
  ns_now_playing_watched : bool;
  ns_user_seek : option UserSeek;
  ns_manual_override : gmap UserId (option ManualState);
  ns_series_preference : gmap (UserId * ListEntryId) SeriesPreference;
  ns_peers : gmap UserId Presence;
  ns_graced : gset UserId;
  ns_anchor : option UserId;
  ns_acknowledged_absent : gset (Ed2kHash * UserId);
  ns_active : bool
}.

Record PlayerWiring := mkPlayerWiring {
  pw_me : UserId;
  pw_grace : option OutageGrace;
  pw_resolved : gmap Ed2kHash Resolution;
  pw_pending_resolve : gmap Ed2kHash Z;
  pw_loaded : option LoadedFile;
  pw_last_synced : option (UserId * PlaybackPosition);
  pw_chat_seen : option nat;
  pw_blocker_overlay_sent : option (option Ed2kHash * option string);
  pw_lookups_requested : gset Ed2kHash;
  pw_watcher_prefs_written : gset ListEntryId;
  pw_watched_recorded : gset Ed2kHash;
  pw_series_known_checked : gset Ed2kHash;
  pw_copy_offer_checked : gset Ed2kHash;
  pw_copy_offer_pending : gset Ed2kHash;
  pw_deferred_series_known : gmap Ed2kHash (option AniDbSeriesId * bool);
  pw_eviction_started : bool;
  pw_last_now_playing : option Ed2kHash;
  pw_prefetching : gset Ed2kHash;
  pw_awaiting_source : gset Ed2kHash;
  pw_narrator : option NarratorState;
  pw_auto_download : bool;
  pw_drift_high_snapshots : Z;
  pw_partial_load_failed : gmap Ed2kHash Z;
  pw_last_position : option (Ed2kHash * Z);
  pw_verified_position : option (Ed2kHash * Z);
  pw_eof_recovery : option (Ed2kHash * option Z);
  pw_state_adopted : bool
}.

(** Assignments to the fields. *)
Definition put_grace (x : option OutageGrace) (w : PlayerWiring) : PlayerWiring :=
  mkPlayerWiring (pw_me w) x (pw_resolved w) (pw_pending_resolve w) (pw_loaded w) (pw_last_synced w) (pw_chat_seen w)
    (pw_blocker_overlay_sent w) (pw_lookups_requested w) (pw_watcher_prefs_written w)
    (pw_watched_recorded w) (pw_series_known_checked w) (pw_copy_offer_checked w) (pw_copy_offer_pending
    w) (pw_deferred_series_known w) (pw_eviction_started w) (pw_last_now_playing w) (pw_prefetching w)
    (pw_awaiting_source w) (pw_narrator w) (pw_auto_download w) (pw_drift_high_snapshots w)
    (pw_partial_load_failed w) (pw_last_position w) (pw_verified_position w) (pw_eof_recovery w)
    (pw_state_adopted w).
Definition put_resolved (x : gmap Ed2kHash Resolution) (w : PlayerWiring) : PlayerWiring :=
  mkPlayerWiring (pw_me w) (pw_grace w) x (pw_pending_resolve w) (pw_loaded w) (pw_last_synced w) (pw_chat_seen w)
    (pw_blocker_overlay_sent w) (pw_lookups_requested w) (pw_watcher_prefs_written w)
    (pw_watched_recorded w) (pw_series_known_checked w) (pw_copy_offer_checked w) (pw_copy_offer_pending
    w) (pw_deferred_series_known w) (pw_eviction_started w) (pw_last_now_playing w) (pw_prefetching w)
    (pw_awaiting_source w) (pw_narrator w) (pw_auto_download w) (pw_drift_high_snapshots w)
    (pw_partial_load_failed w) (pw_last_position w) (pw_verified_position w) (pw_eof_recovery w)
    (pw_state_adopted w).
Definition put_pending_resolve (x : gmap Ed2kHash Z) (w : PlayerWiring) : PlayerWiring :=
  mkPlayerWiring (pw_me w) (pw_grace w) (pw_resolved w) x (pw_loaded w) (pw_last_synced w) (pw_chat_seen w)
    (pw_blocker_overlay_sent w) (pw_lookups_requested w) (pw_watcher_prefs_written w)
    (pw_watched_recorded w) (pw_series_known_checked w) (pw_copy_offer_checked w) (pw_copy_offer_pending
    w) (pw_deferred_series_known w) (pw_eviction_started w) (pw_last_now_playing w) (pw_prefetching w)
    (pw_awaiting_source w) (pw_narrator w) (pw_auto_download w) (pw_drift_high_snapshots w)
    (pw_partial_load_failed w) (pw_last_position w) (pw_verified_position w) (pw_eof_recovery w)
    (pw_state_adopted w).
Definition put_loaded (x : option LoadedFile) (w : PlayerWiring) : PlayerWiring :=
  mkPlayerWiring (pw_me w) (pw_grace w) (pw_resolved w) (pw_pending_resolve w) x (pw_last_synced w) (pw_chat_seen w)
    (pw_blocker_overlay_sent w) (pw_lookups_requested w) (pw_watcher_prefs_written w)
    (pw_watched_recorded w) (pw_series_known_checked w) (pw_copy_offer_checked w) (pw_copy_offer_pending
    w) (pw_deferred_series_known w) (pw_eviction_started w) (pw_last_now_playing w) (pw_prefetching w)
    (pw_awaiting_source w) (pw_narrator w) (pw_auto_download w) (pw_drift_high_snapshots w)
    (pw_partial_load_failed w) (pw_last_position w) (pw_verified_position w) (pw_eof_recovery w)
    (pw_state_adopted w).
Definition put_last_synced (x : option (UserId * PlaybackPosition)) (w : PlayerWiring) : PlayerWiring :=
  mkPlayerWiring (pw_me w) (pw_grace w) (pw_resolved w) (pw_pending_resolve w) (pw_loaded w) x (pw_chat_seen w)
    (pw_blocker_overlay_sent w) (pw_lookups_requested w) (pw_watcher_prefs_written w)
    (pw_watched_recorded w) (pw_series_known_checked w) (pw_copy_offer_checked w) (pw_copy_offer_pending
    w) (pw_deferred_series_known w) (pw_eviction_started w) (pw_last_now_playing w) (pw_prefetching w)
    (pw_awaiting_source w) (pw_narrator w) (pw_auto_download w) (pw_drift_high_snapshots w)
    (pw_partial_load_failed w) (pw_last_position w) (pw_verified_position w) (pw_eof_recovery w)
    (pw_state_adopted w).
Definition put_chat_seen (x : option nat) (w : PlayerWiring) : PlayerWiring :=
  mkPlayerWiring (pw_me w) (pw_grace w) (pw_resolved w) (pw_pending_resolve w) (pw_loaded w) (pw_last_synced w) x
    (pw_blocker_overlay_sent w) (pw_lookups_requested w) (pw_watcher_prefs_written w)
    (pw_watched_recorded w) (pw_series_known_checked w) (pw_copy_offer_checked w) (pw_copy_offer_pending
    w) (pw_deferred_series_known w) (pw_eviction_started w) (pw_last_now_playing w) (pw_prefetching w)
    (pw_awaiting_source w) (pw_narrator w) (pw_auto_download w) (pw_drift_high_snapshots w)
    (pw_partial_load_failed w) (pw_last_position w) (pw_verified_position w) (pw_eof_recovery w)
    (pw_state_adopted w).
Definition put_blocker_overlay_sent (x : option (option Ed2kHash * option string)) (w : PlayerWiring) : PlayerWiring :=
  mkPlayerWiring (pw_me w) (pw_grace w) (pw_resolved w) (pw_pending_resolve w) (pw_loaded w) (pw_last_synced w)
    (pw_chat_seen w) x (pw_lookups_requested w) (pw_watcher_prefs_written w) (pw_watched_recorded w)
    (pw_series_known_checked w) (pw_copy_offer_checked w) (pw_copy_offer_pending w)
    (pw_deferred_series_known w) (pw_eviction_started w) (pw_last_now_playing w) (pw_prefetching w)
    (pw_awaiting_source w) (pw_narrator w) (pw_auto_download w) (pw_drift_high_snapshots w)
    (pw_partial_load_failed w) (pw_last_position w) (pw_verified_position w) (pw_eof_recovery w)
    (pw_state_adopted w).
Definition put_lookups_requested (x : gset Ed2kHash) (w : PlayerWiring) : PlayerWiring :=
  mkPlayerWiring (pw_me w) (pw_grace w) (pw_resolved w) (pw_pending_resolve w) (pw_loaded w) (pw_last_synced w)
    (pw_chat_seen w) (pw_blocker_overlay_sent w) x (pw_watcher_prefs_written w) (pw_watched_recorded w)
    (pw_series_known_checked w) (pw_copy_offer_checked w) (pw_copy_offer_pending w)
    (pw_deferred_series_known w) (pw_eviction_started w) (pw_last_now_playing w) (pw_prefetching w)
    (pw_awaiting_source w) (pw_narrator w) (pw_auto_download w) (pw_drift_high_snapshots w)
    (pw_partial_load_failed w) (pw_last_position w) (pw_verified_position w) (pw_eof_recovery w)
    (pw_state_adopted w).
Definition put_watcher_prefs_written (x : gset ListEntryId) (w : PlayerWiring) : PlayerWiring :=
  mkPlayerWiring (pw_me w) (pw_grace w) (pw_resolved w) (pw_pending_resolve w) (pw_loaded w) (pw_last_synced w)
    (pw_chat_seen w) (pw_blocker_overlay_sent w) (pw_lookups_requested w) x (pw_watched_recorded w)
    (pw_series_known_checked w) (pw_copy_offer_checked w) (pw_copy_offer_pending w)
    (pw_deferred_series_known w) (pw_eviction_started w) (pw_last_now_playing w) (pw_prefetching w)
    (pw_awaiting_source w) (pw_narrator w) (pw_auto_download w) (pw_drift_high_snapshots w)
    (pw_partial_load_failed w) (pw_last_position w) (pw_verified_position w) (pw_eof_recovery w)
    (pw_state_adopted w).
Definition put_watched_recorded (x : gset Ed2kHash) (w : PlayerWiring) : PlayerWiring :=
  mkPlayerWiring (pw_me w) (pw_grace w) (pw_resolved w) (pw_pending_resolve w) (pw_loaded w) (pw_last_synced w)
    (pw_chat_seen w) (pw_blocker_overlay_sent w) (pw_lookups_requested w) (pw_watcher_prefs_written w) x
    (pw_series_known_checked w) (pw_copy_offer_checked w) (pw_copy_offer_pending w)
    (pw_deferred_series_known w) (pw_eviction_started w) (pw_last_now_playing w) (pw_prefetching w)
    (pw_awaiting_source w) (pw_narrator w) (pw_auto_download w) (pw_drift_high_snapshots w)
    (pw_partial_load_failed w) (pw_last_position w) (pw_verified_position w) (pw_eof_recovery w)
    (pw_state_adopted w).
Definition put_series_known_checked (x : gset Ed2kHash) (w : PlayerWiring) : PlayerWiring :=
  mkPlayerWiring (pw_me w) (pw_grace w) (pw_resolved w) (pw_pending_resolve w) (pw_loaded w) (pw_last_synced w)
    (pw_chat_seen w) (pw_blocker_overlay_sent w) (pw_lookups_requested w) (pw_watcher_prefs_written w)
    (pw_watched_recorded w) x (pw_copy_offer_checked w) (pw_copy_offer_pending w)
    (pw_deferred_series_known w) (pw_eviction_started w) (pw_last_now_playing w) (pw_prefetching w)
    (pw_awaiting_source w) (pw_narrator w) (pw_auto_download w) (pw_drift_high_snapshots w)
    (pw_partial_load_failed w) (pw_last_position w) (pw_verified_position w) (pw_eof_recovery w)
    (pw_state_adopted w).
Definition put_copy_offer_checked (x : gset Ed2kHash) (w : PlayerWiring) : PlayerWiring :=
  mkPlayerWiring (pw_me w) (pw_grace w) (pw_resolved w) (pw_pending_resolve w) (pw_loaded w) (pw_last_synced w)
    (pw_chat_seen w) (pw_blocker_overlay_sent w) (pw_lookups_requested w) (pw_watcher_prefs_written w)
    (pw_watched_recorded w) (pw_series_known_checked w) x (pw_copy_offer_pending w)
    (pw_deferred_series_known w) (pw_eviction_started w) (pw_last_now_playing w) (pw_prefetching w)
    (pw_awaiting_source w) (pw_narrator w) (pw_auto_download w) (pw_drift_high_snapshots w)
    (pw_partial_load_failed w) (pw_last_position w) (pw_verified_position w) (pw_eof_recovery w)
    (pw_state_adopted w).
Definition put_copy_offer_pending (x : gset Ed2kHash) (w : PlayerWiring) : PlayerWiring :=
  mkPlayerWiring (pw_me w) (pw_grace w) (pw_resolved w) (pw_pending_resolve w) (pw_loaded w) (pw_last_synced w)
    (pw_chat_seen w) (pw_blocker_overlay_sent w) (pw_lookups_requested w) (pw_watcher_prefs_written w)
    (pw_watched_recorded w) (pw_series_known_checked w) (pw_copy_offer_checked w) x
    (pw_deferred_series_known w) (pw_eviction_started w) (pw_last_now_playing w) (pw_prefetching w)
    (pw_awaiting_source w) (pw_narrator w) (pw_auto_download w) (pw_drift_high_snapshots w)
    (pw_partial_load_failed w) (pw_last_position w) (pw_verified_position w) (pw_eof_recovery w)
    (pw_state_adopted w).
Definition put_deferred_series_known (x : gmap Ed2kHash (option AniDbSeriesId * bool)) (w : PlayerWiring) : PlayerWiring :=
  mkPlayerWiring (pw_me w) (pw_grace w) (pw_resolved w) (pw_pending_resolve w) (pw_loaded w) (pw_last_synced w)
    (pw_chat_seen w) (pw_blocker_overlay_sent w) (pw_lookups_requested w) (pw_watcher_prefs_written w)
    (pw_watched_recorded w) (pw_series_known_checked w) (pw_copy_offer_checked w) (pw_copy_offer_pending
    w) x (pw_eviction_started w) (pw_last_now_playing w) (pw_prefetching w) (pw_awaiting_source w)
    (pw_narrator w) (pw_auto_download w) (pw_drift_high_snapshots w) (pw_partial_load_failed w)
    (pw_last_position w) (pw_verified_position w) (pw_eof_recovery w) (pw_state_adopted w).
Definition put_eviction_started (x : bool) (w : PlayerWiring) : PlayerWiring :=
  mkPlayerWiring (pw_me w) (pw_grace w) (pw_resolved w) (pw_pending_resolve w) (pw_loaded w) (pw_last_synced w)
    (pw_chat_seen w) (pw_blocker_overlay_sent w) (pw_lookups_requested w) (pw_watcher_prefs_written w)
    (pw_watched_recorded w) (pw_series_known_checked w) (pw_copy_offer_checked w) (pw_copy_offer_pending
    w) (pw_deferred_series_known w) x (pw_last_now_playing w) (pw_prefetching w) (pw_awaiting_source w)
    (pw_narrator w) (pw_auto_download w) (pw_drift_high_snapshots w) (pw_partial_load_failed w)
    (pw_last_position w) (pw_verified_position w) (pw_eof_recovery w) (pw_state_adopted w).
Definition put_last_now_playing (x : option Ed2kHash) (w : PlayerWiring) : PlayerWiring :=
  mkPlayerWiring (pw_me w) (pw_grace w) (pw_resolved w) (pw_pending_resolve w) (pw_loaded w) (pw_last_synced w)
    (pw_chat_seen w) (pw_blocker_overlay_sent w) (pw_lookups_requested w) (pw_watcher_prefs_written w)
    (pw_watched_recorded w) (pw_series_known_checked w) (pw_copy_offer_checked w) (pw_copy_offer_pending
    w) (pw_deferred_series_known w) (pw_eviction_started w) x (pw_prefetching w) (pw_awaiting_source w)
    (pw_narrator w) (pw_auto_download w) (pw_drift_high_snapshots w) (pw_partial_load_failed w)
    (pw_last_position w) (pw_verified_position w) (pw_eof_recovery w) (pw_state_adopted w).
Definition put_prefetching (x : gset Ed2kHash) (w : PlayerWiring) : PlayerWiring :=
  mkPlayerWiring (pw_me w) (pw_grace w) (pw_resolved w) (pw_pending_resolve w) (pw_loaded w) (pw_last_synced w)
    (pw_chat_seen w) (pw_blocker_overlay_sent w) (pw_lookups_requested w) (pw_watcher_prefs_written w)
    (pw_watched_recorded w) (pw_series_known_checked w) (pw_copy_offer_checked w) (pw_copy_offer_pending
    w) (pw_deferred_series_known w) (pw_eviction_started w) (pw_last_now_playing w) x
    (pw_awaiting_source w) (pw_narrator w) (pw_auto_download w) (pw_drift_high_snapshots w)
    (pw_partial_load_failed w) (pw_last_position w) (pw_verified_position w) (pw_eof_recovery w)
    (pw_state_adopted w).
Definition put_awaiting_source (x : gset Ed2kHash) (w : PlayerWiring) : PlayerWiring :=
  mkPlayerWiring (pw_me w) (pw_grace w) (pw_resolved w) (pw_pending_resolve w) (pw_loaded w) (pw_last_synced w)
    (pw_chat_seen w) (pw_blocker_overlay_sent w) (pw_lookups_requested w) (pw_watcher_prefs_written w)
    (pw_watched_recorded w) (pw_series_known_checked w) (pw_copy_offer_checked w) (pw_copy_offer_pending
    w) (pw_deferred_series_known w) (pw_eviction_started w) (pw_last_now_playing w) (pw_prefetching w) x
    (pw_narrator w) (pw_auto_download w) (pw_drift_high_snapshots w) (pw_partial_load_failed w)
    (pw_last_position w) (pw_verified_position w) (pw_eof_recovery w) (pw_state_adopted w).
Definition put_narrator (x : option NarratorState) (w : PlayerWiring) : PlayerWiring :=
  mkPlayerWiring (pw_me w) (pw_grace w) (pw_resolved w) (pw_pending_resolve w) (pw_loaded w) (pw_last_synced w)
    (pw_chat_seen w) (pw_blocker_overlay_sent w) (pw_lookups_requested w) (pw_watcher_prefs_written w)
    (pw_watched_recorded w) (pw_series_known_checked w) (pw_copy_offer_checked w) (pw_copy_offer_pending
    w) (pw_deferred_series_known w) (pw_eviction_started w) (pw_last_now_playing w) (pw_prefetching w)
    (pw_awaiting_source w) x (pw_auto_download w) (pw_drift_high_snapshots w) (pw_partial_load_failed w)
    (pw_last_position w) (pw_verified_position w) (pw_eof_recovery w) (pw_state_adopted w).
Definition put_auto_download (x : bool) (w : PlayerWiring) : PlayerWiring :=
  mkPlayerWiring (pw_me w) (pw_grace w) (pw_resolved w) (pw_pending_resolve w) (pw_loaded w) (pw_last_synced w)
    (pw_chat_seen w) (pw_blocker_overlay_sent w) (pw_lookups_requested w) (pw_watcher_prefs_written w)
    (pw_watched_recorded w) (pw_series_known_checked w) (pw_copy_offer_checked w) (pw_copy_offer_pending
    w) (pw_deferred_series_known w) (pw_eviction_started w) (pw_last_now_playing w) (pw_prefetching w)
    (pw_awaiting_source w) (pw_narrator w) x (pw_drift_high_snapshots w) (pw_partial_load_failed w)
    (pw_last_position w) (pw_verified_position w) (pw_eof_recovery w) (pw_state_adopted w).
Definition put_drift_high_snapshots (x : Z) (w : PlayerWiring) : PlayerWiring :=
  mkPlayerWiring (pw_me w) (pw_grace w) (pw_resolved w) (pw_pending_resolve w) (pw_loaded w) (pw_last_synced w)
    (pw_chat_seen w) (pw_blocker_overlay_sent w) (pw_lookups_requested w) (pw_watcher_prefs_written w)
    (pw_watched_recorded w) (pw_series_known_checked w) (pw_copy_offer_checked w) (pw_copy_offer_pending
    w) (pw_deferred_series_known w) (pw_eviction_started w) (pw_last_now_playing w) (pw_prefetching w)
    (pw_awaiting_source w) (pw_narrator w) (pw_auto_download w) x (pw_partial_load_failed w)
    (pw_last_position w) (pw_verified_position w) (pw_eof_recovery w) (pw_state_adopted w).
Definition put_partial_load_failed (x : gmap Ed2kHash Z) (w : PlayerWiring) : PlayerWiring :=
  mkPlayerWiring (pw_me w) (pw_grace w) (pw_resolved w) (pw_pending_resolve w) (pw_loaded w) (pw_last_synced w)
    (pw_chat_seen w) (pw_blocker_overlay_sent w) (pw_lookups_requested w) (pw_watcher_prefs_written w)
    (pw_watched_recorded w) (pw_series_known_checked w) (pw_copy_offer_checked w) (pw_copy_offer_pending
    w) (pw_deferred_series_known w) (pw_eviction_started w) (pw_last_now_playing w) (pw_prefetching w)
    (pw_awaiting_source w) (pw_narrator w) (pw_auto_download w) (pw_drift_high_snapshots w) x
    (pw_last_position w) (pw_verified_position w) (pw_eof_recovery w) (pw_state_adopted w).
Definition put_last_position (x : option (Ed2kHash * Z)) (w : PlayerWiring) : PlayerWiring :=
  mkPlayerWiring (pw_me w) (pw_grace w) (pw_resolved w) (pw_pending_resolve w) (pw_loaded w) (pw_last_synced w)
    (pw_chat_seen w) (pw_blocker_overlay_sent w) (pw_lookups_requested w) (pw_watcher_prefs_written w)
    (pw_watched_recorded w) (pw_series_known_checked w) (pw_copy_offer_checked w) (pw_copy_offer_pending
    w) (pw_deferred_series_known w) (pw_eviction_started w) (pw_last_now_playing w) (pw_prefetching w)
    (pw_awaiting_source w) (pw_narrator w) (pw_auto_download w) (pw_drift_high_snapshots w)
    (pw_partial_load_failed w) x (pw_verified_position w) (pw_eof_recovery w) (pw_state_adopted w).
Definition put_verified_position (x : option (Ed2kHash * Z)) (w : PlayerWiring) : PlayerWiring :=
  mkPlayerWiring (pw_me w) (pw_grace w) (pw_resolved w) (pw_pending_resolve w) (pw_loaded w) (pw_last_synced w)
    (pw_chat_seen w) (pw_blocker_overlay_sent w) (pw_lookups_requested w) (pw_watcher_prefs_written w)
    (pw_watched_recorded w) (pw_series_known_checked w) (pw_copy_offer_checked w) (pw_copy_offer_pending
    w) (pw_deferred_series_known w) (pw_eviction_started w) (pw_last_now_playing w) (pw_prefetching w)
    (pw_awaiting_source w) (pw_narrator w) (pw_auto_download w) (pw_drift_high_snapshots w)
    (pw_partial_load_failed w) (pw_last_position w) x (pw_eof_recovery w) (pw_state_adopted w).
Definition put_eof_recovery (x : option (Ed2kHash * option Z)) (w : PlayerWiring) : PlayerWiring :=
  mkPlayerWiring (pw_me w) (pw_grace w) (pw_resolved w) (pw_pending_resolve w) (pw_loaded w) (pw_last_synced w)
    (pw_chat_seen w) (pw_blocker_overlay_sent w) (pw_lookups_requested w) (pw_watcher_prefs_written w)
    (pw_watched_recorded w) (pw_series_known_checked w) (pw_copy_offer_checked w) (pw_copy_offer_pending
    w) (pw_deferred_series_known w) (pw_eviction_started w) (pw_last_now_playing w) (pw_prefetching w)
    (pw_awaiting_source w) (pw_narrator w) (pw_auto_download w) (pw_drift_high_snapshots w)
    (pw_partial_load_failed w) (pw_last_position w) (pw_verified_position w) x (pw_state_adopted w).
Definition put_state_adopted (x : bool) (w : PlayerWiring) : PlayerWiring :=
  mkPlayerWiring (pw_me w) (pw_grace w) (pw_resolved w) (pw_pending_resolve w) (pw_loaded w) (pw_last_synced w)
    (pw_chat_seen w) (pw_blocker_overlay_sent w) (pw_lookups_requested w) (pw_watcher_prefs_written w)
    (pw_watched_recorded w) (pw_series_known_checked w) (pw_copy_offer_checked w) (pw_copy_offer_pending
    w) (pw_deferred_series_known w) (pw_eviction_started w) (pw_last_now_playing w) (pw_prefetching w)
    (pw_awaiting_source w) (pw_narrator w) (pw_auto_download w) (pw_drift_high_snapshots w)
    (pw_partial_load_failed w) (pw_last_position w) (pw_verified_position w) (pw_eof_recovery w) x.

(** [PlayerWiring::new]. *)
Definition new_wiring (me : UserId) : PlayerWiring :=
  mkPlayerWiring me None ∅ ∅ None None None (Some (None, None)) ∅ ∅ ∅ ∅ ∅ ∅ ∅ false None ∅ ∅ None true
    0 ∅ None None None false.

Definition RESOLVE_RETRY_SNAPSHOTS : Z := 600.
Definition PARTIAL_EOF_EPSILON_MILLIS : Z := 5000.
Definition PARTIAL_RETRY_PROGRESS_BPS : Z := 1000.
Definition DRIFT_PERSIST_SNAPSHOTS : Z := 8.
Definition NARRATOR_BURST_CAP : nat := 5.
Definition SEEK_NARRATE_MILLIS : Z := 5000.

(** ** Text *)

#[local] Open Scope string_scope.
#[local] Open Scope Z_scope.
#[local] Open Scope list_scope.

Definition show_num (n : Z) : string := string_of_bytes (decimal n).
(** [{n:02}]. *)
Definition show_num2 (n : Z) : string := if n <? 10 then "0" +:+ show_num n else show_num n.
(** [{byte:02x}], and [Ed2kHash]'s [Display]. *)
Definition hex_digit (d : Z) : Z := if d <? 10 then 48 + d else 87 + d.
Definition show_hash (h : Ed2kHash) : string :=
  string_of_bytes (mjoin ((λ b, [hex_digit (b / 16); hex_digit (b mod 16)]) <$> ed2k_bytes h)).
(** [parts.join(", ")]. *)
Fixpoint join_comma (l : list string) : string :=
  match l with
  | [] => ""
  | [x] => x
  | x :: l => x +:+ ", " +:+ join_comma l
  end.

Definition fmt_mmss (millis : Z) : string :=
  let total := millis / 1000 in
  let h := total / 3600 in
  let m := total mod 3600 / 60 in
  let s := total mod 60 in
  if 0 <? h then show_num h +:+ ":" +:+ show_num2 m +:+ ":" +:+ show_num2 s
  else show_num m +:+ ":" +:+ show_num2 s.

(** [view.playlist.iter().find(|e| e.hash == file)]. *)
Definition entry_of (v : StateView) (file : Ed2kHash) : option PlaylistEntry :=
  List.find (λ e, bool_decide (pe_hash e = file)) (v_playlist v).
Definition playlist_title (v : StateView) (file : Ed2kHash) : option string :=
  (λ e, pfs_filename (pe_state e)) <$> entry_of v file.
Definition duration_of (v : StateView) (file : Ed2kHash) : option positive :=
  entry_of v file ≫= λ e, pfs_duration_millis (pe_state e).

Definition now_playing_name (v : StateView) (file : Ed2kHash) : string :=
  match playlist_title v file with
  | Some t => t
  | None => match v_file_catalog v !! file with
            | Some c => cat_filename c
            | None => show_hash file
            end
  end.

Definition grace_span : string :=
  let minutes := OUTAGE_GRACE_MILLIS / 60000 in
  if minutes =? 1 then "a minute" else show_num minutes +:+ " minutes".

Definition presence_line (user me : UserId) (was now : option (Presence * bool)) : option string :=
  let u := user_name user in
  let mine := bool_decide (user = me) in
  match was, now with
  | (None | Some (Departed, _)), Some (Present, _) => Some (u +:+ " joined")
  | Some (Lost, _), Some (Present, _) =>
      Some (if mine then "Reconnected" else u +:+ " is back")
  | Some (Present, _), Some (Lost, true) =>
      Some (if mine then "Your connection dropped — playing on for " +:+ grace_span
            else u +:+ "'s connection dropped — playing on for " +:+ grace_span
                   +:+ "; pause and seek are locked")
  | Some (Present, _), Some (Lost, false) =>
      Some (if mine then "Your connection dropped"
            else u +:+ "'s connection dropped — everyone paused")
  | Some (p0, true), Some (p1, false) =>
      if bool_decide (p0 ≠ Present) && bool_decide (p1 ≠ Present) then
        Some (if mine then "Still no connection — paused"
              else u +:+ " is still away — playback paused")
      else match p0, p1 with
           | (Present | Lost), Departed => Some (u +:+ " left")
           | _, _ => None
           end
  | Some ((Present | Lost), _), (Some (Departed, _) | None) => Some (u +:+ " left")
  | _, _ => None
  end.

Definition grace_summary (peers : list PeerInfo) (me : UserId) : option string :=
  (λ g, if bool_decide (grace_user g = me) then "Connection lost — playing on"
        else user_name (grace_user g) +:+ "'s connection dropped — playing on; pause and seek are locked")
    <$> outage_grace peers.

Definition grace_refused_line (refusal : GraceRefusal) (g : OutageGrace) (me : UserId) (now : Z) : string :=
  let what := match refusal with
    | RefusePause => "pause" | RefuseSeek => "seek" | RefuseFileChange => "change the file" end in
  let secs := div_ceil (u64_saturating_sub (grace_end g) now) 1000 in
  let left := show_num (secs / 60) +:+ ":" +:+ show_num2 (secs mod 60) in
  if bool_decide (grace_user g = me) then "Can't " +:+ what +:+ " while reconnecting (" +:+ left +:+ " left)"
  else "Can't " +:+ what +:+ " for " +:+ left +:+ " — " +:+ user_name (grace_user g)
         +:+ "'s connection dropped; playing on so they can catch up".

(** [decode_action] (types.rs): the phrase of a CTCP action. *)
Definition ACTION_PREFIX : Bytes := 1 :: bytes_of_string "ACTION ".
Definition decode_action (text : Bytes) : option Bytes :=
  if starts_with ACTION_PREFIX text then
    let body := drop (length ACTION_PREFIX) text in
    Some (match last body with Some 1 => take (length body - 1) body | _ => body end)
  else None.

(** [Path::file_name] on Unix: the last normal component. *)
Definition file_name (path : PathBuf) : option Bytes :=
  match last (filter (λ c, c ≠ [] ∧ c ≠ [46]) (split_at (λ b, b =? 47) (bytes_of_string path))) with
  | Some c => if decide (c = [46; 46]) then None else Some c
  | None => None
  end.
Definition eq_ignore_ascii_case (a b : Bytes) : bool :=
  bool_decide (to_ascii_lowercase a = to_ascii_lowercase b).

Section wiring.
Context (md4 : Bytes → Z) `{CharClasses}.
Implicit Types (w : PlayerWiring) (v : StateView) (peers : list PeerInfo) (file : Ed2kHash).

Definition placeholder_lines (v : StateView) (peers : list PeerInfo) (file : Ed2kHash) : list string :=
  let filename := default (show_hash file) (playlist_title v file) in
  let interactive := filter (λ p, peer_role p = Interactive) peers in
  let is_watching p := match user_state md4 v (peer_username p) with
    | DReady | DMaybe => true | DPaused | DAway _ | DNotWatching => false end in
  let names := fmap (λ p, user_name (peer_username p)) in
  let watching := names (filter (λ p, is_watching p = true) interactive) in
  let not_watching := names (filter (λ p, is_watching p = false) interactive) in
  let watching_line := match watching with
    | [] => "Nobody is watching this"
    | _ => "Watching: " +:+ join_comma watching end in
  [filename; "You don't have this file"; ""; watching_line] ++
  match not_watching with [] => [] | _ => ["Not watching: " +:+ join_comma not_watching] end.

Definition blocker_reason_text (v : StateView) (b : Blocker) : string :=
  match blocker_reason b with
  | BPaused => "paused"
  | BFileMissing => "missing file"
  | BDownloading =>
      match v_now_playing v ≫= λ file, v_file_availability v !! (blocker_user b, file) with
      | Some (AvDownloading progress_bps) => "downloading " +:+ show_num (progress_bps / 100) +:+ "%"
      | _ => "downloading"
      end
  | BCommittedAbsent => "committed, away"
  end.
Definition blocker_summary (v : StateView) (peers : list PeerInfo) : option string :=
  match playback_blockers md4 v peers with
  | [] => None
  | blockers =>
      Some ("Waiting for " +:+ join_comma
        ((λ b, user_name (blocker_user b) +:+ " (" +:+ blocker_reason_text v b +:+ ")") <$> blockers))
  end.

Definition same_file_positions (v : StateView) (peers : list PeerInfo) : list (UserId * PlaybackPosition) :=
  match v_now_playing v with
  | Some file => loaded_positions v peers file
  | None => []
  end.

Definition resume_point (v : StateView) : option Z :=
  now_playing ← v_now_playing v;
  millis ← v_saved_position v !! now_playing;
  if 0 <? millis then Some millis else None.

(** [resolve_or_create_series_entry], [list_implied_pref]. *)
Definition resolve_or_create_series_entry (v : StateView) (file : Ed2kHash)
    : option (ListEntryId * option Mutation) :=
  (λ r : ListEntryId * option SeriesListEntry, (r.1, PutListEntry r.1 <$> r.2)) <$>
    resolve_or_build_entry md4 v file.
Definition list_implied_pref (v : StateView) (entry : ListEntryId) (user : UserId)
    : option SeriesWatchState :=
  e ← v_list_entries v !! entry;
  if decide (watchers e = ∅) then None
  else Some (if decide (user ∈ watchers e) then Watching else NotWatching).

(** ** The narrator *)

Definition current_interactive (peers : list PeerInfo) : gmap UserId Presence :=
  foldl (λ m p, <[peer_username p := peer_presence p]> m) ∅
    (filter (λ p, peer_role p = Interactive) peers).

Definition capture (v : StateView) (peers : list PeerInfo) : NarratorState :=
  mkNarratorState (v_now_playing v)
    (match v_now_playing v with Some f => bool_decide (v_watched v !! f = Some true) | None => false end)
    (match v_seek_authority v with
     | Some (AuthUser seek) => if decide (Some (seek_file seek) = v_now_playing v) then Some seek else None
     | _ => None end)
    (v_manual_override v) (v_series_preference v) (current_interactive peers)
    (list_to_set (peer_username <$> filter (λ p, is_Some (peer_grace_until p)) peers))
    (match v_seek_authority v with
     | Some (AuthAnchor user file) => if decide (Some file = v_now_playing v) then Some user else None
     | _ => None end)
    (v_acknowledged_absent v) (playback_active md4 v peers).

Definition narrate_file (prev : NarratorState) (v : StateView) : list string :=
  if decide (ns_now_playing prev = v_now_playing v) then []
  else match v_now_playing v with
  | None => []
  | Some file =>
      let name := now_playing_name v file in
      let eof := match ns_now_playing prev with
        | Some prev_file => negb (ns_now_playing_watched prev) && bool_decide (v_watched v !! prev_file = Some true)
        | None => false end in
      [if eof then "Up next: " +:+ name else "Now playing: " +:+ name]
  end.

Definition narrate_seek (prev current : NarratorState) (v : StateView) : list string :=
  if decide (ns_now_playing prev = v_now_playing v) then
    match ns_user_seek current with
    | Some seek =>
        if bool_decide (event_at <$> ns_user_seek prev ≠ Some (event_at seek)) &&
           (SEEK_NARRATE_MILLIS <? Z.abs (from_millis seek - to_millis seek)) then
          [user_name (seek_user seek) +:+ " skipped " +:+ fmt_mmss (from_millis seek) +:+ " → "
             +:+ fmt_mmss (to_millis seek)]
        else []
    | None => []
    end
  else [].

Definition narrate_override (prev current : NarratorState) (v : StateView) (user : UserId) : list string :=
  let u := user_name user in
  let was := mjoin (ns_manual_override prev !! user) in
  let now := mjoin (v_manual_override v !! user) in
  if decide (was = now) then []
  else match now with
  | Some ManualPaused => [if ns_active prev then u +:+ " paused" else u +:+ " is not ready"]
  | Some (ManualAway set_by) =>
      match was with
      | Some (ManualAway _) => []
      | _ => [if decide (set_by = user) then u +:+ " is away"
              else user_name set_by +:+ " marked " +:+ u +:+ " away"]
      end
  | None => [match was with
             | Some ManualPaused => if ns_active current then u +:+ " unpaused" else u +:+ " is ready"
             | _ => u +:+ " is back" end]
  end.
Definition narrate_overrides (prev current : NarratorState) (v : StateView) : list string :=
  List.flat_map (narrate_override prev current v)
    (btree_set_iter (dom (ns_manual_override prev) ∪ dom (v_manual_override v))).

Definition narrate_preference (prev : NarratorState) (v : StateView) (entry : ListEntryId)
    (kv : (UserId * ListEntryId) * SeriesPreference) : list string :=
  let '((user, e), now) := kv in
  if negb (bool_decide (e = entry)) then []
  else
    let was := ns_series_preference prev !! (user, e) in
    if decide (was = Some now) then []
    else if bool_decide (was = None) && bool_decide (Some (pref_state now) = list_implied_pref v entry user) then []
    else
      let override_cleared := bool_decide (is_Some (mjoin (ns_manual_override prev !! user))) &&
        bool_decide (mjoin (v_manual_override v !! user) = None) in
      match v_list_entries v !! entry with
      | None => []
      | Some l =>
          let u := user_name user in
          let name := entry_name l in
          let by_ := user_name (default user (pref_set_by now)) in
          match pref_state now with
          | NotWatching => [u +:+ " set to not-watching " +:+ name +:+ " (by " +:+ by_ +:+ ")"]
          | Watching => [u +:+ " is committed to " +:+ name +:+ " (by " +:+ by_ +:+ ")"]
          | Maybe => if override_cleared then [] else [u +:+ " set " +:+ name +:+ " to maybe (by " +:+ by_ +:+ ")"]
          end
      end.
Definition narrate_preferences (prev : NarratorState) (v : StateView) : list string :=
  match v_now_playing v ≫= resolve_series_entry_for_file md4 v with
  | Some entry => List.flat_map (narrate_preference prev v entry) (btree_iter (v_series_preference v))
  | None => []
  end.

Definition narrate_acknowledged (prev : NarratorState) (v : StateView) : list string :=
  match v_now_playing v with
  | Some file =>
      (λ ack : Ed2kHash * UserId, "Playing past " +:+ user_name ack.2 +:+ " (committed, away)") <$>
        filter (λ ack : Ed2kHash * UserId, ack.1 = file ∧ ack ∉ ns_acknowledged_absent prev)
          (btree_set_iter (v_acknowledged_absent v))
  | None => []
  end.

Definition narrate_anchor (me : UserId) (prev current : NarratorState) : list string :=
  match ns_anchor current with
  | Some user =>
      if decide (ns_anchor prev = Some user) then []
      else [if decide (user = me) then "Picking up from your position so nobody misses anything"
            else "Picking up from " +:+ user_name user +:+ "'s position so nobody misses anything"]
  | None => []
  end.

Definition narrated (state : NarratorState) (user : UserId) : option (Presence * bool) :=
  (λ p, (p, bool_decide (user ∈ ns_graced state))) <$> ns_peers state !! user.
Definition narrate_presence (me : UserId) (prev current : NarratorState) : list string :=
  omap (λ user, presence_line user me (narrated prev user) (narrated current user))
    (btree_set_iter (dom (ns_peers prev) ∪ dom (ns_peers current))).

Definition narrate (w : PlayerWiring) (v : StateView) (peers : list PeerInfo)
    : PlayerWiring * list Directive :=
  let current := capture v peers in
  let w' := put_narrator (Some current) w in
  match pw_narrator w with
  | None => (w', [])
  | Some prev =>
      let lines := narrate_file prev v ++ narrate_seek prev current v ++ narrate_overrides prev current v ++
        narrate_preferences prev v ++ narrate_acknowledged prev v ++ narrate_anchor (pw_me w) prev current ++
        narrate_presence (pw_me w) prev current in
      if (NARRATOR_BURST_CAP <? length lines)%nat then (w', [])
      else (w', SystemLine <$> lines)
  end.

(** ** Missing files *)

Definition note_state_adopted (w : PlayerWiring) : PlayerWiring := put_state_adopted true w.
Definition with_auto_download (w : PlayerWiring) (enabled : bool) : PlayerWiring := put_auto_download enabled w.
Definition forget_last_synced (w : PlayerWiring) : PlayerWiring := put_last_synced None w.
Definition forget_blocker_overlay (w : PlayerWiring) : PlayerWiring := put_blocker_overlay_sent None w.

(** [matches!(self.resolved.get(&file), Some(NotFound) | Some(HashMismatch(_)))]. *)
Definition is_missing (w : PlayerWiring) (file : Ed2kHash) : bool :=
  match pw_resolved w !! file with Some NotFound | Some (HashMismatch _) => true | _ => false end.

Definition maybe_check_series_known (w : PlayerWiring) (v : StateView) : PlayerWiring * list Directive :=
  match v_now_playing v with
  | None => (w, [])
  | Some file =>
      if negb (is_missing w file) || bool_decide (file ∈ pw_series_known_checked w) then (w, [])
      else match v_anidb_metadata v !! file with
      | Some (Some metadata) =>
          (put_series_known_checked ({[file]} ∪ pw_series_known_checked w) w,
           [CheckSeriesKnown file (series_id metadata) (series_name metadata)])
      | _ => (w, [])
      end
  end.

Definition maybe_offer_local_copies (w : PlayerWiring) (v : StateView) : PlayerWiring * list Directive :=
  if pw_auto_download w then (w, [])
  else match v_now_playing v with
  | None => (w, [])
  | Some file =>
      if negb (is_missing w file) || bool_decide (file ∈ pw_copy_offer_checked w) then (w, [])
      else match v_anidb_metadata v !! file with
      | Some (Some _) =>
          if decide (series_watch_for_file md4 v (pw_me w) file = NotWatching) then (w, [])
          else match entry_of v file with
          | None => (w, [])
          | Some entry =>
              (put_copy_offer_checked ({[file]} ∪ pw_copy_offer_checked w) w,
               [OfferLocalCopies file (pfs_filename (pe_state entry))])
          end
      | _ => (w, [])
      end
  end.

Definition note_copy_offer_shown (w : PlayerWiring) (file : Ed2kHash) : PlayerWiring :=
  put_copy_offer_pending ({[file]} ∪ pw_copy_offer_pending w) w.

Definition download_sources (w : PlayerWiring) (v : StateView) (peers : list PeerInfo) (file : Ed2kHash)
    : list PeerId :=
  peer_username <$> filter (λ p, peer_username p ≠ pw_me w ∧ peer_presence p = Present ∧
    v_file_availability v !! (peer_username p, file) = Some AvReady) peers.

Definition placeholder_if_playing (v : StateView) (peers : list PeerInfo) (file : Ed2kHash) : list Directive :=
  if decide (v_now_playing v = Some file) then [RenderPlaceholder file (placeholder_lines v peers file)] else [].

Definition on_series_known (w : PlayerWiring) (file : Ed2kHash) (series : option AniDbSeriesId)
    (known : bool) (v : StateView) (peers : list PeerInfo) : PlayerWiring * list Directive :=
  if decide (file ∈ pw_copy_offer_pending w) then
    (put_deferred_series_known (<[file := (series, known)]> (pw_deferred_series_known w)) w, [])
  else if known then (w, [])
  else match series with
  | None => (w, [])
  | Some _ =>
      let has_pref := match resolve_series_entry_for_file md4 v file with
        | Some entry => bool_decide (is_Some (v_series_preference v !! (pw_me w, entry)))
        | None => false end in
      if has_pref then (w, [])
      else if pw_auto_download w && negb (bool_decide (download_sources w v peers file = [])) then
        (w, placeholder_if_playing v peers file)
      else match resolve_or_create_series_entry v file with
      | None => (w, [])
      | Some (entry, create) =>
          (w, match create with Some m => [DMutate m] | None => [] end ++
              [DMutate (SetSeriesPreference (pw_me w) entry NotWatching None)] ++
              placeholder_if_playing v peers file)
      end
  end.

Definition on_copy_offer_closed (w : PlayerWiring) (file : Ed2kHash) (v : StateView) (peers : list PeerInfo)
    : PlayerWiring * list Directive :=
  let w := put_copy_offer_pending (pw_copy_offer_pending w ∖ {[file]}) w in
  match pw_deferred_series_known w !! file with
  | Some (series, known) =>
      on_series_known (put_deferred_series_known (delete file (pw_deferred_series_known w)) w)
        file series known v peers
  | None => (w, [])
  end.

(** ** Downloads and eviction *)

Definition wanted_entries (w : PlayerWiring) (v : StateView) : list PlaylistEntry :=
  filter (λ e, (Some (pe_hash e) = v_now_playing v ∨ v_watched v !! pe_hash e ≠ Some true) ∧
               series_watch_for_file md4 v (pw_me w) (pe_hash e) ≠ NotWatching)
    (anchored_download_order (v_playlist v) (v_now_playing v)).

Definition play_anchor_chunk (w : PlayerWiring) (v : StateView) (file : Ed2kHash) (size_bytes : Z) : Z :=
  match pw_last_position w with
  | None => 0
  | Some (position_file, position_millis) =>
      if negb (bool_decide (position_file = file)) || (size_bytes =? 0) then 0
      else match duration_of v file with
      | None => 0
      | Some duration =>
          let frac := f64_clamp (f64_div (f64_of position_millis) (f64_of (Zpos duration))) (f64_of 0) (f64_of 1) in
          let byte := f64_to_u64 (f64_mul frac (f64_of size_bytes)) in
          u32_wrap (byte / CHUNK_SIZE)
      end
  end.

Definition plan_wanted (v : StateView) (peers : list PeerInfo) (acc : PlayerWiring * list WantedDownload)
    (e : PlaylistEntry) : PlayerWiring * list WantedDownload :=
  let '(w, out) := acc in
  let file := pe_hash e in
  let size_bytes := pfs_size_bytes (pe_state e) in
  match pw_resolved w !! file with
  | Some (Verified _) | None =>
      (put_awaiting_source (pw_awaiting_source w ∖ {[file]})
         (put_prefetching (pw_prefetching w ∖ {[file]}) w),
       out ++ [mkWantedDownload file None])
  | Some _ =>
      let sources := download_sources w v peers file in
      let w := match sources with
        | [] => put_awaiting_source ({[file]} ∪ pw_awaiting_source w)
                  (put_prefetching (pw_prefetching w ∖ {[file]}) w)
        | _ => put_prefetching ({[file]} ∪ pw_prefetching w)
                 (put_awaiting_source (pw_awaiting_source w ∖ {[file]}) w) end in
      (w, out ++ [mkWantedDownload file (Some (mkDownloadFetch size_bytes sources
                    (play_anchor_chunk w v file size_bytes)))])
  end.
Definition plan_download (w : PlayerWiring) (v : StateView) (peers : list PeerInfo)
    : PlayerWiring * list Directive :=
  if negb (pw_auto_download w) then
    (put_awaiting_source ∅ (put_prefetching ∅ w), [SetDownloads [] (v_now_playing v)])
  else
    let wanted := wanted_entries w v in
    let wanted_set : gset Ed2kHash := list_to_set (pe_hash <$> wanted) in
    let w := put_awaiting_source (pw_awaiting_source w ∩ wanted_set)
               (put_prefetching (pw_prefetching w ∩ wanted_set) w) in
    let '(w, out) := foldl (plan_wanted v peers) (w, []) wanted in
    (w, [SetDownloads out (v_now_playing v)]).

Definition plan_eviction (v : StateView) : Directive :=
  let playlist : gset Ed2kHash := list_to_set (pe_hash <$> v_playlist v) in
  let protected : gset Ed2kHash :=
    list_to_set (pe_hash <$> filter (λ e, v_watched v !! pe_hash e ≠ Some true) (v_playlist v)) in
  let protected := match v_now_playing v with Some now => {[now]} ∪ protected | None => protected end in
  let group_watched : gset Ed2kHash := dom (filter (λ kv, kv.2 = true) (v_watched v)) in
  RunEviction protected group_watched playlist.

Definition note_evicted (w : PlayerWiring) (files : list Ed2kHash) : PlayerWiring * list Directive :=
  foldl (λ acc file,
    match pw_resolved acc.1 !! file with
    | Some _ => (put_resolved (delete file (pw_resolved acc.1)) acc.1,
                 acc.2 ++ [DMutate (SetFileAvailability file AvMissing)])
    | None => acc
    end) (w, []) files.

(** ** Watching and local copies *)

Definition maybe_record_watched (w : PlayerWiring) (v : StateView) (position_millis : Z)
    : PlayerWiring * list Directive :=
  match v_now_playing v with
  | None => (w, [])
  | Some file =>
      if decide (file ∈ pw_watched_recorded w) then (w, [])
      else match entry_of v file with
      | None => (w, [])
      | Some entry =>
          match pfs_duration_millis (pe_state entry) with
          | None => (w, [])
          | Some duration =>
              if f64_lt (f64_of position_millis) (f64_mul WATCHED_FRACTION (f64_of (Zpos duration))) then (w, [])
              else
                let metadata := mjoin (v_anidb_metadata v !! file) in
                (put_watched_recorded ({[file]} ∪ pw_watched_recorded w) w,
                 [RecordWatched file (metadata ≫= series_id) (series_name <$> metadata)
                    (pfs_filename (pe_state entry))])
          end
      end
  end.

Definition note_local_file (w : PlayerWiring) (file : Ed2kHash) (path : PathBuf) (assembled_in_place : bool)
    : PlayerWiring * list Directive :=
  let w := put_pending_resolve (delete file (pw_pending_resolve w)) w in
  let w := match pw_loaded w with
    | Some l =>
        if bool_decide (lf_file l = file) && bool_decide (lf_path l = path) && lf_partial l then
          if assembled_in_place then
            match pw_eof_recovery w with
            | Some (f, _) =>
                if decide (f = file) then put_loaded None (put_eof_recovery None w)
                else put_loaded (Some (mkLoadedFile (lf_file l) (lf_path l) false)) w
            | None => put_loaded (Some (mkLoadedFile (lf_file l) (lf_path l) false)) w
            end
          else put_loaded None w
        else w
    | None => w
    end in
  let w := put_partial_load_failed (delete file (pw_partial_load_failed w)) w in
  let w := put_resolved (<[file := Verified path]> (pw_resolved w)) w in
  (w, [DMutate (SetFileAvailability file AvReady)]).

Definition maybe_request_lookup (w : PlayerWiring) (info : FileHashInfo) (v : StateView)
    : PlayerWiring * list Directive :=
  let missing := match v_anidb_metadata v !! fhi_hash info with None | Some None => true | Some (Some _) => false end in
  if missing && negb (bool_decide (fhi_hash info ∈ pw_lookups_requested w)) then
    (put_lookups_requested ({[fhi_hash info]} ∪ pw_lookups_requested w) w, [DMutate (RequestLookup info)])
  else (w, []).

(** A loop that threads the wiring and collects directives. *)
Definition each {A} (step : PlayerWiring → A → PlayerWiring * list Directive) (l : list A)
    (w : PlayerWiring) : PlayerWiring * list Directive :=
  foldl (λ acc x, let '(w, out) := step acc.1 x in (w, acc.2 ++ out)) (w, []) l.

(** Blocks one after the other. *)
Definition sequence (steps : list (PlayerWiring → PlayerWiring * list Directive)) :
    PlayerWiring → PlayerWiring * list Directive := each (λ w step, step w) steps.

Definition on_library_indexed (w : PlayerWiring) (files : list IndexedFile) (v : StateView)
    : PlayerWiring * list Directive :=
  each (λ w f, maybe_request_lookup w (mkFileHashInfo (if_hash f) (if_size f) (if_filename f)
                 (Some (if_mtime f)) (if_series_hint f)) v) files w.

Definition holds_now_playing (w : PlayerWiring) (v : StateView) : bool :=
  match pw_loaded w with Some l => bool_decide (v_now_playing v = Some (lf_file l)) | None => false end.
Definition speaks_for_now_playing (w : PlayerWiring) (v : StateView) (file : Ed2kHash) : bool :=
  bool_decide (v_now_playing v = Some file) && holds_now_playing w v.
Definition may_screenshot (w : PlayerWiring) (v : StateView) (file : Ed2kHash) : bool :=
  bool_decide (held_now_playing v (pw_me w) = Some file) && speaks_for_now_playing w v file.

Definition correct_availability (w : PlayerWiring) (file : Ed2kHash) (availability : FileAvailability)
    : FileAvailability :=
  match availability with
  | AvDownloadingPlayable progress_bps =>
      if decide (is_Some (pw_partial_load_failed w !! file)) then AvDownloading progress_bps else availability
  | other => other
  end.
Definition own_progress_bps (w : PlayerWiring) (v : StateView) (file : Ed2kHash) : Z :=
  match v_file_availability v !! (pw_me w, file) with
  | Some (AvDownloading progress_bps | AvDownloadingPlayable progress_bps) => progress_bps
  | _ => 0
  end.
Definition position_near_end (w : PlayerWiring) (v : StateView) (file : Ed2kHash) : bool :=
  match pw_last_position w with
  | None => false
  | Some (position_file, position_millis) =>
      if negb (bool_decide (position_file = file)) then false
      else match duration_of v file with
      | None => false
      | Some duration => Zpos duration <=? u64_saturating_add position_millis PARTIAL_EOF_EPSILON_MILLIS
      end
  end.

(** ** Whom to follow *)

(** [Iterator::max_by_key]: the last of the largest. *)
Definition max_by_key {A} (key : A → Z) (l : list A) : option A :=
  match l with
  | [] => None
  | x :: l => Some (foldl (λ best y, if key y <? key best then best else y) x l)
  end.

Definition position_reference (me : UserId) (v : StateView) (peers : list PeerInfo)
    : option (UserId * PlaybackPosition) :=
  let laggard := match v_seek_authority v with
    | Some (AuthLaggard file) =>
        if decide (v_now_playing v = Some file) then rejoin_laggard v peers else None
    | _ => None end in
  match laggard with
  | Some l => if decide (l.1 = me) then None else Some l
  | None =>
      let authority := match v_seek_authority v with
        | Some (AuthUser seek) => Some (seek_user seek)
        | Some (AuthAnchor user file) => if decide (v_now_playing v = Some file) then Some user else None
        | _ => None end in
      if decide (authority = Some me) then None
      else
        let sample := authority ≫= λ a, List.find (λ up, bool_decide (up.1 = a)) (same_file_positions v peers) in
        match sample with
        | Some s => Some s
        | None =>
            match max_by_key (λ up, position_millis up.2) (same_file_positions v peers) with
            | None => None
            | Some leader =>
                let mine := match v_playback_position v !! me with
                  | Some p => if decide (v_now_playing v = Some (pos_file p)) then position_millis p else 0
                  | None => 0 end in
                if bool_decide (leader.1 = me) || (position_millis leader.2 <=? mine) then None
                else Some leader
            end
        end
  end.

Definition report_drift (w : PlayerWiring) (v : StateView) (peers : list PeerInfo) (active : bool)
    : PlayerWiring :=
  let samples := same_file_positions v peers in
  match min_by_key (λ up, position_millis up.2) samples, max_by_key (λ up, position_millis up.2) samples with
  | Some lagging, Some leading =>
      let spread := position_millis leading.2 - position_millis lagging.2 in
      if active && (DRIFT_HARD_SEEK_MILLIS <? spread) then
        put_drift_high_snapshots (Z.min (pw_drift_high_snapshots w + 1) Drift.u32_max) w
      else put_drift_high_snapshots 0 w
  | _, _ => put_drift_high_snapshots 0 w
  end.

(** ** A fresh view: the blocks of [on_state] *)

Definition state_eviction (v : StateView) (w : PlayerWiring) : PlayerWiring * list Directive :=
  if pw_state_adopted w &&
     (negb (pw_eviction_started w) || negb (bool_decide (pw_last_now_playing w = v_now_playing v))) then
    (put_last_now_playing (v_now_playing v) (put_eviction_started true w), [plan_eviction v])
  else (w, []).

Definition request_resolve (v : StateView) (w : PlayerWiring) (entry : PlaylistEntry)
    : PlayerWiring * list Directive :=
  let file := pe_hash entry in
  let watched := bool_decide (v_watched v !! file = Some true) && negb (bool_decide (Some file = v_now_playing v)) in
  let ask age := (put_pending_resolve (<[file := age]> (pw_pending_resolve w)) w,
                  [Resolve file (pfs_filename (pe_state entry))]) in
  if watched || bool_decide (is_Some (pw_resolved w !! file)) then (w, [])
  else match pw_pending_resolve w !! file with
  | Some age =>
      let age := u32_wrap (age + 1) in
      if age <? RESOLVE_RETRY_SNAPSHOTS then
        (put_pending_resolve (<[file := age]> (pw_pending_resolve w)) w, [])
      else ask 0
  | None => ask 0
  end.
Definition state_resolves (v : StateView) : PlayerWiring → PlayerWiring * list Directive :=
  each (request_resolve v) (v_playlist v).

Definition state_lookups (v : StateView) : PlayerWiring → PlayerWiring * list Directive :=
  each (λ w entry, maybe_request_lookup w (mkFileHashInfo (pe_hash entry) (pfs_size_bytes (pe_state entry))
                     (pfs_filename (pe_state entry)) None None) v) (v_playlist v).

Definition write_watcher_pref (v : StateView) (w : PlayerWiring) (kv : ListEntryId * SeriesListEntry)
    : PlayerWiring * list Directive :=
  let '(id, entry) := kv in
  if decide (watchers entry = ∅) then (w, [])
  else if bool_decide (is_Some (v_series_preference v !! (pw_me w, id))) ||
          bool_decide (id ∈ pw_watcher_prefs_written w) then (w, [])
  else
    let pref := if decide (pw_me w ∈ watchers entry) then Watching else NotWatching in
    (put_watcher_prefs_written ({[id]} ∪ pw_watcher_prefs_written w) w,
     [DMutate (SetSeriesPreference (pw_me w) id pref None)]).
Definition state_watchers (v : StateView) : PlayerWiring → PlayerWiring * list Directive :=
  each (write_watcher_pref v) (btree_iter (v_list_entries v)).

(** The loaded verified copy: nothing to do. *)
Definition is_loaded_copy (w : PlayerWiring) (file : Ed2kHash) (path : PathBuf) : bool :=
  match pw_loaded w with
  | Some l => bool_decide (lf_file l = file) && bool_decide (lf_path l = path) && negb (lf_partial l)
  | None => false
  end.
Definition state_load (v : StateView) (w : PlayerWiring) : PlayerWiring * list Directive :=
  match v_now_playing v with
  | Some file =>
      match pw_resolved w !! file with
      | Some (Verified path) =>
          if is_loaded_copy w file path then (w, [])
          else (put_loaded (Some (mkLoadedFile file path false)) (put_eof_recovery None w),
                [Player (Load file path (playlist_title v file) (resume_point v))])
      | _ => (w, [])
      end
  | None => (w, [])
  end.

Definition state_playing (v : StateView) (peers : list PeerInfo) (w : PlayerWiring)
    : PlayerWiring * list Directive :=
  let active := playback_active md4 v peers in
  let w := put_grace (outage_grace peers) w in
  (w, match pw_loaded w with
      | Some _ => [Player (SetPlaying (holds_now_playing w v && active));
                   Player (SetGraceLock (bool_decide (is_Some (pw_grace w))))]
      | None => []
      end).

Definition state_follow (v : StateView) (peers : list PeerInfo) (w : PlayerWiring)
    : PlayerWiring * list Directive :=
  let active := playback_active md4 v peers in
  let following := if holds_now_playing w v then position_reference (pw_me w) v peers else None in
  match following with
  | Some sample =>
      if decide (pw_last_synced w = Some sample) then (w, [])
      else (put_last_synced (Some sample) w,
            [Player (SyncTo (position_millis sample.2) (pos_timestamp sample.2) active)])
  | None =>
      match pw_last_synced w with
      | Some _ => (put_last_synced None w, [Player ReleaseSlew])
      | None => (w, [])
      end
  end.

Definition state_drift (v : StateView) (peers : list PeerInfo) (w : PlayerWiring)
    : PlayerWiring * list Directive :=
  (if holds_now_playing w v then report_drift w v peers (playback_active md4 v peers)
   else put_drift_high_snapshots 0 w, []).

Definition overlay_text (w : PlayerWiring) (v : StateView) (peers : list PeerInfo) : option string :=
  match v_now_playing v with
  | Some _ => match blocker_summary v peers with Some s => Some s | None => grace_summary peers (pw_me w) end
  | None => None
  end.
Definition state_overlay (v : StateView) (peers : list PeerInfo) (w : PlayerWiring)
    : PlayerWiring * list Directive :=
  let key := (lf_file <$> pw_loaded w, overlay_text w v peers) in
  if decide (pw_blocker_overlay_sent w = Some key) then (w, [])
  else (put_blocker_overlay_sent (Some key) w, [Player (SetBlockerOverlay key.2)]).

Definition osd_line (msg : ChatMessage) : string :=
  let sender := user_name (chat_sender msg) in
  let mask body := string_of_bytes (mask_message body (chat_timestamp msg) (bytes_of_string sender)) in
  let text := bytes_of_string (chat_text msg) in
  match decode_action text with
  | Some phrase => "* " +:+ sender +:+ " " +:+ mask phrase
  | None => sender +:+ ": " +:+ mask text
  end.
Definition state_chat (v : StateView) (w : PlayerWiring) : PlayerWiring * list Directive :=
  (put_chat_seen (Some (length (v_chat v))) w,
   match pw_chat_seen w with
   | None => []
   | Some seen =>
       (λ msg, Player (ShowOsd (osd_line msg))) <$>
         filter (λ msg, chat_sender msg ≠ pw_me w) (drop seen (v_chat v))
   end).

Definition state_steps (v : StateView) (peers : list PeerInfo)
    : list (PlayerWiring → PlayerWiring * list Directive) :=
  [state_eviction v; state_resolves v; state_lookups v; state_watchers v;
   (λ w, maybe_check_series_known w v); (λ w, maybe_offer_local_copies w v);
   (λ w, plan_download w v peers); state_load v; state_playing v peers; state_follow v peers;
   state_drift v peers; state_overlay v peers; state_chat v; (λ w, narrate w v peers)].
Definition on_state (w : PlayerWiring) (v : StateView) (peers : list PeerInfo)
    : PlayerWiring * list Directive := sequence (state_steps v peers) w.

(** ** Resolutions, archives and partial downloads *)

Definition on_resolved (w : PlayerWiring) (file : Ed2kHash) (resolution : Resolution) (v : StateView)
    (peers : list PeerInfo) : PlayerWiring * list Directive :=
  let was_pending := bool_decide (is_Some (pw_pending_resolve w !! file)) in
  let w := put_pending_resolve (delete file (pw_pending_resolve w)) w in
  let downgrade := match resolution with NotFound | HashMismatch _ => true | Verified _ => false end in
  let verified := match pw_resolved w !! file with Some (Verified _) => true | _ => false end in
  if negb was_pending && downgrade && verified then (w, [])
  else
    let '(w, availability) := match resolution with
      | Verified _ =>
          (put_deferred_series_known (delete file (pw_deferred_series_known w))
            (put_copy_offer_pending (pw_copy_offer_pending w ∖ {[file]})
              (put_copy_offer_checked (pw_copy_offer_checked w ∖ {[file]})
                (put_partial_load_failed (delete file (pw_partial_load_failed w)) w))), AvReady)
      | HashMismatch _ | NotFound => (w, AvMissing) end in
    let w := put_resolved (<[file := resolution]> (pw_resolved w)) w in
    let out := [DMutate (SetFileAvailability file availability)] in
    match resolution with
    | Verified path =>
        if bool_decide (v_now_playing v = Some file) && negb (is_loaded_copy w file path) then
          (put_loaded (Some (mkLoadedFile file path false)) w,
           out ++ [Player (Load file path (playlist_title v file) (resume_point v));
                   Player (SetPlaying (playback_active md4 v peers))])
        else (w, out)
    | _ => (w, out)
    end.

Definition on_archived (w : PlayerWiring) (file : Ed2kHash) (path : PathBuf) : PlayerWiring :=
  let w := put_resolved (<[file := Verified path]> (pw_resolved w)) w in
  match pw_loaded w with
  | Some l => if decide (lf_file l = file) then put_loaded (Some (mkLoadedFile file path (lf_partial l))) w else w
  | None => w
  end.

(** The end of [on_download_playable]: load the partial unless it failed to
    open and too little has arrived since. *)
Definition load_partial (w : PlayerWiring) (file : Ed2kHash) (path : PathBuf) (v : StateView)
    (peers : list PeerInfo) : PlayerWiring * list Directive :=
  let deferred := match pw_partial_load_failed w !! file with
    | Some failed_at => own_progress_bps w v file <? Z.min (failed_at + PARTIAL_RETRY_PROGRESS_BPS) 65535
    | None => false end in
  if deferred then (w, [])
  else
    let w := put_partial_load_failed (delete file (pw_partial_load_failed w)) w in
    (put_loaded (Some (mkLoadedFile file path true)) (put_eof_recovery None w),
     [Player (Load file path (playlist_title v file) (resume_point v));
      Player (SetPlaying (playback_active md4 v peers))]).

Definition on_download_playable (w : PlayerWiring) (file : Ed2kHash) (path : PathBuf) (v : StateView)
    (peers : list PeerInfo) : PlayerWiring * list Directive :=
  if negb (bool_decide (v_now_playing v = Some file)) then (w, [])
  else if negb (bool_decide (lf_file <$> pw_loaded w = Some file)) then load_partial w file path v peers
  else if negb (bool_decide (fst <$> pw_eof_recovery w = Some file)) then (w, [])
  else match pw_verified_position w with
  | Some (f, target) =>
      if decide (f = file) then
        (put_eof_recovery (Some (file, Some target)) w, [Player (RecoverFalseEof (Some target))])
      else load_partial (put_loaded None (put_eof_recovery None w)) file path v peers
  | None => load_partial (put_loaded None (put_eof_recovery None w)) file path v peers
  end.

(** The [PlaceholderReady] arm of [on_file_output]: put the placeholder up if its
    file still plays and its real video is not loaded. [loaded] stays as it is. *)
Definition on_placeholder_ready (w : PlayerWiring) (file : Ed2kHash) (path : PathBuf) (v : StateView)
    : list Directive :=
  if bool_decide (v_now_playing v = Some file) && negb (holds_now_playing w v) then
    [Player (Load file path (playlist_title v file) None)]
  else [].

Definition series_key (meta : AniDbMetadata) : SeriesKey :=
  match series_id meta with Some id => KeyAniDb id | None => KeyName (series_name meta) end.
Definition adopt_dragged_file (w : PlayerWiring) (path : PathBuf) (v : StateView) : option Directive :=
  file ← v_now_playing v;
  if holds_now_playing w v then None
  else
    want ← (match playlist_title v file with
            | Some t => Some t
            | None => cat_filename <$> v_file_catalog v !! file end);
    got ← file_name path;
    if eq_ignore_ascii_case (bytes_of_string want) got then
      Some (AdoptDraggedFile file path (series_key <$> mjoin (v_anidb_metadata v !! file)))
    else None.

(** ** Player reports *)

Definition on_position_tick (w : PlayerWiring) (file : Ed2kHash) (position_millis : Z) (v : StateView)
    : PlayerWiring * list Directive :=
  if negb (speaks_for_now_playing w v file) then (w, [])
  else
    let w := put_last_position (Some (file, position_millis)) w in
    let recovered := match pw_eof_recovery w with
      | Some (recovery_file, issued) => bool_decide (recovery_file = file) &&
          match issued with None => true | Some target => target <? position_millis end
      | None => false end in
    let w := if recovered then put_eof_recovery None w else w in
    let in_verified := match pw_loaded w with
      | Some l => bool_decide (lf_file l = file) && lf_partial l
      | None => false end &&
      match v_file_availability v !! (pw_me w, file) with Some (AvDownloadingPlayable _) => true | _ => false end in
    let w := if in_verified then put_verified_position (Some (file, position_millis)) w else w in
    let '(w, more) := maybe_record_watched w v position_millis in
    (w, DMutate (SetPlaybackPosition position_millis file) :: more).

Definition on_eof (w : PlayerWiring) (file : Ed2kHash) (v : StateView) : PlayerWiring * list Directive :=
  if negb (speaks_for_now_playing w v file) then (w, [])
  else if match pw_loaded w with Some l => lf_partial l | None => false end &&
          negb (position_near_end w v file) then
    let target := match pw_verified_position w with
      | Some (position_file, position) => if decide (position_file = file) then Some position else None
      | None => None end in
    let already_seeked := match pw_eof_recovery w with
      | Some (recovery_file, issued) => if decide (recovery_file = file) then issued else None
      | None => None end in
    let position := match target with
      | Some t => if decide (already_seeked = Some t) then None else Some t
      | None => None end in
    (put_eof_recovery (Some (file, match position with Some t => Some t | None => already_seeked end)) w,
     [Player (RecoverFalseEof position)])
  else (w, [ReportEof file]).

Definition on_load_failed (w : PlayerWiring) (file : Ed2kHash) (v : StateView) : PlayerWiring * list Directive :=
  let mine := bool_decide (lf_file <$> pw_loaded w = Some file) in
  let was_partial := mine && match pw_loaded w with Some l => lf_partial l | None => false end in
  let w := if mine then put_loaded None w else w in
  if was_partial then
    let progress := own_progress_bps w v file in
    (put_partial_load_failed (<[file := progress]> (pw_partial_load_failed w)) w,
     [DMutate (SetFileAvailability file (AvDownloading progress))])
  else
    let w := put_resolved (delete file (pw_resolved w)) w in
    let out := [ForgetLocalFile file; DMutate (SetFileAvailability file AvMissing)] in
    match entry_of v file with
    | Some entry =>
        (put_pending_resolve (<[file := 0]> (pw_pending_resolve w)) w,
         out ++ [Resolve file (pfs_filename (pe_state entry))])
    | None => (w, out)
    end.

Definition on_player (w : PlayerWiring) (output : PlayerOutput) (v : StateView)
    : PlayerWiring * list Directive :=
  match output with
  | UserPaused =>
      (w, [DMutate (SetManualOverride (pw_me w) (Some ManualPaused)); DMutate (SetPlaybackIntent IntentPaused)])
  | OGraceRefused refusal =>
      (w, match pw_grace w with Some g => [DGraceRefused refusal g] | None => [] end)
  | UserUnpaused =>
      (w, [DMutate (SetManualOverride (pw_me w) None); DMutate (SetPlaybackIntent IntentPlaying)])
  | UserSeeked from_millis to_millis =>
      match (if holds_now_playing w v then v_now_playing v else None) with
      | None => (w, [])
      | Some file =>
          (put_last_position (Some (file, to_millis)) w,
           [DMutate (SetUserSeek file from_millis to_millis); DMutate (SetPlaybackPosition to_millis file)])
      end
  | PositionTick file position_millis => on_position_tick w file position_millis v
  | DurationKnown file duration_millis =>
      (w, if existsb (λ e, bool_decide (pe_hash e = file) && bool_decide (pfs_duration_millis (pe_state e) = None))
               (v_playlist v)
          then [DMutate (SetPlaylistDuration file duration_millis)] else [])
  | OSubtitleLine text speaker position_millis => (w, [Subtitle text speaker position_millis])
  | Eof file => on_eof w file v
  | LoadFailed file => on_load_failed w file v
  | PathObserved path => (w, match adopt_dragged_file w path v with Some d => [d] | None => [] end)
  | FatalCrash =>
      (w, [DMutate (SetPlaybackIntent IntentPaused); DMutate (Chat "my player crashed — pausing")])
  | GaveUp =>
      (w, [DMutate (SetPlaybackIntent IntentPaused);
           DMutate (Chat "my player keeps crashing — giving up until someone picks another file")])
  end.
End wiring.
