(* ===== verification/SessionCorrect.v ===== *)
(** * The session policy: properties

    The events of the client's session (Session), and what it does over whole
    runs of them: who may speak for the group, and what is asked only once. *)

From S2P Require Import Prelude Text Types View Playlist Derive SeriesIdentity Message Sync Transfer F64 Drift Spoiler Hash Download Session.

(** ** Loops *)

Lemma each_cons {A} (step : PlayerWiring → A → PlayerWiring * list Directive) x l w :
  each step (x :: l) w =
  ((each step l (step w x).1).1, (step w x).2 ++ (each step l (step w x).1).2).
Proof.
  unfold each. cbn [foldl fst snd]. destruct (step w x) as [w1 o1]. cbn [fst snd app].
  generalize w1 o1. clear w1 o1 w x. induction l as [|y l IH]; intros w1 o1; cbn [foldl fst snd].
  - by rewrite app_nil_r.
  - destruct (step w1 y) as [w2 o2]. cbn [fst snd app].
    rewrite (IH w2 (o1 ++ o2)), (IH w2 o2). cbn [fst snd]. by rewrite (assoc_L (++)).
Qed.
Lemma each_nil {A} (step : PlayerWiring → A → PlayerWiring * list Directive) w : each step [] w = (w, []).
Proof. done. Qed.

(** A property kept by every turn, with what is said of the directives. *)
Lemma each_inv {A} (P : PlayerWiring → Prop) (Q : Directive → Prop)
    (step : PlayerWiring → A → PlayerWiring * list Directive) l w :
  P w → (∀ w x, x ∈ l → P w → P (step w x).1 ∧ Forall Q (step w x).2) →
  P (each step l w).1 ∧ Forall Q (each step l w).2.
Proof.
  revert w. induction l as [|x l IH]; intros w Hw Hs; [by split; [|constructor]|].
  rewrite each_cons. cbn [fst snd]. destruct (Hs w x) as [H1 H2]; [set_solver|done|].
  destruct (IH (step w x).1 H1) as [H3 H4]; [set_solver|]. split; [done|]. by apply Forall_app.
Qed.

(** What a step says nothing of: all its directives satisfy [Q]. *)
Definition emits (Q : Directive → Prop) (r : PlayerWiring * list Directive) : Prop := Forall Q r.2.
Lemma emits_each {A} Q (step : PlayerWiring → A → PlayerWiring * list Directive) l w :
  (∀ w x, emits Q (step w x)) → emits Q (each step l w).
Proof. intros Hs. apply (each_inv (λ _, True)); [done|]. intros; split; [done|apply Hs]. Qed.

(** A composition of steps. *)
Lemma sequence_inv (P : PlayerWiring → Prop) (Q : Directive → Prop) steps w :
  P w → Forall (λ f, ∀ w, P w → P (f w).1 ∧ Forall Q (f w).2) steps →
  P (sequence steps w).1 ∧ Forall Q (sequence steps w).2.
Proof. intros Hw Hs. apply each_inv; [done|]. intros w' f Hf. rewrite Forall_forall in Hs. by apply Hs. Qed.
Lemma emits_sequence Q steps w : Forall (λ f, ∀ w, emits Q (f w)) steps → emits Q (sequence steps w).
Proof.
  intros Hs. apply (sequence_inv (λ _, True)); [done|]. eapply Forall_impl; [exact Hs|].
  intros f Hf w' _. split; [done|apply Hf].
Qed.

(** Case analysis of a step down to its results. *)
Ltac cases := repeat (case_match || case_decide || case_bool_decide); simplify_eq/=.
Ltac split_if := match goal with |- context [if ?b then _ else _] => destruct b eqn:? end.
Ltac emits_done := unfold emits; cases; repeat (apply Forall_cons; split); try apply Forall_nil; try done.

(** What each block of a session operation does to what matters here. *)
Create HintDb session.

Section session.
Context (md4 : Bytes → Z) `{CharClasses}.

(** ** Events

    What the shell hands the wiring: views, reports of the player and of the
    file work, notes; the two drops are a command that found the player's
    channel full ([execute]). *)

Inductive Event :=
  | EvState (v : StateView) (peers : list PeerInfo)
  | EvPlayer (output : PlayerOutput) (v : StateView)
  | EvResolved (file : Ed2kHash) (resolution : Resolution) (v : StateView) (peers : list PeerInfo)
  | EvLocalFile (file : Ed2kHash) (path : PathBuf) (assembled_in_place : bool)
  | EvIndexed (files : list IndexedFile) (v : StateView)
  | EvSeriesKnown (file : Ed2kHash) (series : option AniDbSeriesId) (known : bool) (v : StateView)
      (peers : list PeerInfo)
  | EvOfferShown (file : Ed2kHash)
  | EvOfferClosed (file : Ed2kHash) (v : StateView) (peers : list PeerInfo)
  | EvEvicted (files : list Ed2kHash)
  | EvArchived (file : Ed2kHash) (path : PathBuf)
  | EvPlaceholder (file : Ed2kHash) (path : PathBuf) (v : StateView)
  | EvPlayable (file : Ed2kHash) (path : PathBuf) (v : StateView) (peers : list PeerInfo)
  | EvAdopted
  | EvSyncDropped
  | EvOverlayDropped
  | EvAutoDownload (enabled : bool).

Definition step (w : PlayerWiring) (e : Event) : PlayerWiring * list Directive :=
  match e with
  | EvState v peers => on_state md4 w v peers
  | EvPlayer output v => on_player w output v
  | EvResolved file resolution v peers => on_resolved md4 w file resolution v peers
  | EvLocalFile file path in_place => note_local_file w file path in_place
  | EvIndexed files v => on_library_indexed w files v
  | EvSeriesKnown file series known v peers => on_series_known md4 w file series known v peers
  | EvOfferShown file => (note_copy_offer_shown w file, [])
  | EvOfferClosed file v peers => on_copy_offer_closed md4 w file v peers
  | EvEvicted files => note_evicted w files
  | EvArchived file path => (on_archived w file path, [])
  | EvPlaceholder file path v => (w, on_placeholder_ready w file path v)
  | EvPlayable file path v peers => on_download_playable md4 w file path v peers
  | EvAdopted => (note_state_adopted w, [])
  | EvSyncDropped => (forget_last_synced w, [])
  | EvOverlayDropped => (forget_blocker_overlay w, [])
  | EvAutoDownload enabled => (with_auto_download w enabled, [])
  end.
Definition run : list Event → PlayerWiring → PlayerWiring * list Directive := each step.

(** ** Speaking for the group *)

(** Directives that speak for the group about a file: its position, a seek in
    it, its end, and that it was watched. *)
Definition speaks (d : Directive) : bool :=
  match d with
  | ReportEof _ | RecordWatched _ _ _ _ => true
  | DMutate (SetPlaybackPosition _ _) | DMutate (SetUserSeek _ _ _) => true
  | _ => false
  end.
Definition silent (d : Directive) : Prop := speaks d = false.

Lemma silent_narrate w v peers : emits silent (narrate md4 w v peers).
Proof. unfold narrate, emits. cases; try constructor. apply Forall_fmap, Forall_true. done. Qed.
Lemma silent_plan_download w v peers : emits silent (plan_download md4 w v peers).
Proof.
  unfold plan_download, emits. destruct (negb _); [by repeat constructor|].
  destruct (foldl _ _ _). by repeat constructor.
Qed.
Lemma silent_state_eviction v w : emits silent (state_eviction v w).
Proof. unfold state_eviction, plan_eviction. emits_done. Qed.
Lemma silent_state_resolves v w : emits silent (state_resolves v w).
Proof. apply emits_each. intros. unfold request_resolve. emits_done. Qed.
Lemma silent_maybe_request_lookup w info v : emits silent (maybe_request_lookup w info v).
Proof. unfold maybe_request_lookup. emits_done. Qed.
Lemma silent_state_watchers v w : emits silent (state_watchers v w).
Proof. apply emits_each. intros w0 [id e]. unfold write_watcher_pref. emits_done. Qed.
Lemma silent_check w v : emits silent (maybe_check_series_known w v).
Proof. unfold maybe_check_series_known. emits_done. Qed.
Lemma silent_offer w v : emits silent (maybe_offer_local_copies md4 w v).
Proof. unfold maybe_offer_local_copies. emits_done. Qed.
Lemma silent_state_load v w : emits silent (state_load v w).
Proof. unfold state_load. emits_done. Qed.
Lemma silent_state_playing v peers w : emits silent (state_playing md4 v peers w).
Proof. unfold state_playing, emits. cbn [snd]. case_match; repeat constructor. Qed.
Lemma silent_state_follow v peers w : emits silent (state_follow md4 v peers w).
Proof. unfold state_follow. emits_done. Qed.
Lemma silent_state_overlay v peers w : emits silent (state_overlay md4 v peers w).
Proof. unfold state_overlay, emits. case_decide; repeat constructor. Qed.
Lemma silent_state_chat v w : emits silent (state_chat v w).
Proof.
  unfold state_chat, emits. cbn [snd]. case_match; [|constructor]. apply Forall_fmap, Forall_true. done.
Qed.

#[local] Hint Resolve silent_state_eviction silent_state_resolves silent_maybe_request_lookup
  silent_state_watchers silent_check silent_offer silent_plan_download silent_state_load
  silent_state_playing silent_state_follow silent_state_overlay silent_state_chat silent_narrate : session.
#[local] Hint Resolve emits_each : session.

Lemma emits_nil Q w : emits Q (w, []).
Proof. apply Forall_nil. done. Qed.

Lemma silent_state_lookups v w : emits silent (state_lookups v w).
Proof. apply emits_each. auto with session. Qed.
Lemma silent_state_drift v peers w : emits silent (state_drift md4 v peers w).
Proof. apply emits_nil. Qed.
#[local] Hint Resolve silent_state_lookups silent_state_drift : session.

Lemma silent_on_state w v peers : emits silent (on_state md4 w v peers).
Proof.
  apply emits_sequence. unfold state_steps.
  repeat first [apply Forall_cons_2; [intros w'; auto with session|]|apply Forall_nil_2].
Qed.
Lemma emits_app Q w o o' : emits Q (w, o) → emits Q (w, o') → emits Q (w, o ++ o').
Proof. intros. by apply Forall_app. Qed.

Lemma silent_placeholder v peers file w : emits silent (w, placeholder_if_playing md4 v peers file).
Proof. unfold placeholder_if_playing. emits_done. Qed.
Lemma silent_on_series_known w file series known v peers :
  emits silent (on_series_known md4 w file series known v peers).
Proof.
  unfold on_series_known. case_decide; [apply emits_nil|]. destruct known; [apply emits_nil|].
  destruct series; [|apply emits_nil]. cbv zeta. split_if; [apply emits_nil|].
  split_if; [apply silent_placeholder|].
  destruct (resolve_or_create_series_entry md4 v file) as [[entry create]|] eqn:Hr; [|apply emits_nil].
  repeat (apply emits_app); [|by apply Forall_singleton|apply silent_placeholder].
  unfold resolve_or_create_series_entry in Hr. apply fmap_Some_1 in Hr as ([id oe] & _ & [= -> ->]).
  destruct oe; by repeat constructor.
Qed.
Lemma silent_offer_closed w file v peers : emits silent (on_copy_offer_closed md4 w file v peers).
Proof.
  unfold on_copy_offer_closed. cbv zeta. destruct (_ !! file) as [[series known]|]; [|apply emits_nil].
  apply silent_on_series_known.
Qed.
Lemma silent_on_resolved w file r v peers : emits silent (on_resolved md4 w file r v peers).
Proof.
  unfold on_resolved. cbv zeta. destruct (_ && _); [apply emits_nil|].
  destruct r; cbn [fst snd]; try (by repeat constructor).
  destruct (_ && _); by repeat constructor.
Qed.
Lemma silent_load_partial w file path v peers : emits silent (load_partial md4 w file path v peers).
Proof. unfold load_partial. cbv zeta. split_if; by repeat constructor. Qed.
Lemma silent_playable w file path v peers : emits silent (on_download_playable md4 w file path v peers).
Proof.
  unfold on_download_playable. repeat (destruct (negb _); [apply emits_nil || apply silent_load_partial|]).
  destruct (pw_verified_position w) as [[f t]|]; [case_decide|]; try apply silent_load_partial. by repeat constructor.
Qed.
Lemma silent_evicted w files : emits silent (note_evicted w files).
Proof.
  unfold note_evicted. assert (∀ acc : PlayerWiring * list Directive, emits silent acc → emits silent (foldl (λ acc file,
    match pw_resolved acc.1 !! file with
    | Some _ => (put_resolved (delete file (pw_resolved acc.1)) acc.1,
                 acc.2 ++ [DMutate (SetFileAvailability file AvMissing)])
    | None => acc
    end) acc files)) as Hf; [|apply Hf, emits_nil].
  induction files as [|f files IH]; intros acc Hacc; [done|]. cbn [foldl]. apply IH.
  destruct (_ !! f); [|done]. apply Forall_app. split; [done|by repeat constructor].
Qed.

(** Only reports of the player make the client speak. *)
Lemma only_player_speaks w e : (∀ output v, e ≠ EvPlayer output v) → emits silent (step w e).
Proof.
  destruct e; intros He; cbn [step]; try apply emits_nil; auto with session.
  - apply silent_on_state.
  - by destruct (He output v).
  - apply silent_on_resolved.
  - by repeat constructor.
  - apply emits_each. auto with session.
  - apply silent_on_series_known.
  - apply silent_offer_closed.
  - apply silent_evicted.
  - unfold on_placeholder_ready. emits_done.
  - apply silent_playable.
Qed.

(** What a speaking directive says, given the report and the file it is about. *)
Definition spoken (w : PlayerWiring) (v : StateView) (output : PlayerOutput) (l : LoadedFile) (d : Directive) : Prop :=
  let file := lf_file l in
  match d with
  | ReportEof f => f = file ∧ output = Eof file ∧ (lf_partial l = true → position_near_end w v file = true)
  | RecordWatched f _ _ _ => f = file ∧ ∃ position, output = PositionTick file position
  | DMutate (SetPlaybackPosition position f) =>
      f = file ∧ (output = PositionTick file position ∨ ∃ from, output = UserSeeked from position)
  | DMutate (SetUserSeek f from to) => f = file ∧ output = UserSeeked from to
  | _ => False
  end.

Lemma speaks_holds w v file : speaks_for_now_playing w v file = true →
  v_now_playing v = Some file ∧ ∃ l, pw_loaded w = Some l ∧ lf_file l = file.
Proof.
  unfold speaks_for_now_playing, holds_now_playing. intros [Hf%bool_decide_eq_true Hl]%andb_true_iff.
  destruct (pw_loaded w) as [l|]; [|done]. apply bool_decide_eq_true in Hl. split; [done|].
  exists l. split; [done|]. congruence.
Qed.

Lemma record_watched_speaks w v p d : d ∈ (maybe_record_watched w v p).2 →
  ∃ file id name filename, v_now_playing v = Some file ∧ d = RecordWatched file id name filename.
Proof.
  unfold maybe_record_watched. intros Hd. destruct (v_now_playing v) as [file|]; [|set_solver].
  case_decide; [set_solver|]. destruct (entry_of v file); [|set_solver].
  destruct (pfs_duration_millis _); [|set_solver]. destruct (f64_lt _ _); [set_solver|].
  cbn [snd] in Hd. apply list_elem_of_singleton in Hd. subst. by eexists _, _, _, _.
Qed.

Lemma tick_speaks w file p v d : d ∈ (on_position_tick w file p v).2 →
  ∃ l, v_now_playing v = Some (lf_file l) ∧ pw_loaded w = Some l ∧
    spoken w v (PositionTick file p) l d.
Proof.
  unfold on_position_tick. destruct (speaks_for_now_playing w v file) eqn:Hs; [|set_solver]. cbn [negb].
  destruct (speaks_holds _ _ _ Hs) as (Hn & l & Hl & <-). cbv zeta.
  match goal with |- context [maybe_record_watched ?x v p] => set (w0 := x) end.
  pose proof (record_watched_speaks w0 v p) as Hr. destruct (maybe_record_watched w0 v p) as [w' more].
  cbn [snd] in Hr |- *. intros [->|Hd]%elem_of_cons; exists l; (split; [done|]; split; [done|]); cbn [spoken].
  - split; [done|by left].
  - destruct (Hr d Hd) as (f & ? & ? & ? & Hf & ->). cbn. split; [congruence|by exists p].
Qed.

Lemma eof_speaks w file v d : d ∈ (on_eof w file v).2 → speaks d = true →
  ∃ l, v_now_playing v = Some (lf_file l) ∧ pw_loaded w = Some l ∧ spoken w v (Eof file) l d.
Proof.
  unfold on_eof. destruct (speaks_for_now_playing w v file) eqn:Hs; [|set_solver]. cbn [negb].
  destruct (speaks_holds _ _ _ Hs) as (Hn & l & Hl & <-). rewrite Hl. cbv zeta.
  destruct (lf_partial l && _) eqn:Hp; cbn [snd]; intros ->%list_elem_of_singleton Hd; [done|].
  exists l. split; [done|]. split; [done|]. cbn. split; [done|]. split; [done|].
  intros Hl'. rewrite Hl' in Hp. by apply negb_false_iff in Hp.
Qed.

Lemma load_failed_silent w file v : emits silent (on_load_failed w file v).
Proof.
  unfold on_load_failed. cbv zeta. destruct (bool_decide _ && _); [by repeat constructor|].
  destruct (entry_of v file); by repeat constructor.
Qed.

Lemma player_speaks w output v d : d ∈ (on_player w output v).2 → speaks d = true →
  ∃ l, v_now_playing v = Some (lf_file l) ∧ pw_loaded w = Some l ∧ spoken w v output l d.
Proof.
  intros Hd Hs. destruct output; cbn [on_player snd] in Hd.
  1,2,11,12: repeat (apply elem_of_cons in Hd as [->|Hd]; [done|]); by apply elem_of_nil in Hd.
  - destruct (pw_grace w); [apply list_elem_of_singleton in Hd; by subst|by apply elem_of_nil in Hd].
  - unfold holds_now_playing in Hd. destruct (pw_loaded w) as [l|] eqn:Hl; [|by apply elem_of_nil in Hd].
    case_bool_decide as Hn; [|by apply elem_of_nil in Hd]. rewrite Hn in Hd. cbn [snd] in Hd.
    exists l. split; [done|]. split; [done|].
    repeat (apply elem_of_cons in Hd as [->|Hd]; [cbn; eauto|]). by apply elem_of_nil in Hd.
  - destruct (tick_speaks w file position_millis v d Hd) as (l & ? & ? & ?). eauto.
  - destruct (existsb _ _); [apply list_elem_of_singleton in Hd; by subst|by apply elem_of_nil in Hd].
  - apply list_elem_of_singleton in Hd; by subst.
  - by apply eof_speaks.
  - pose proof (load_failed_silent w file v) as Hf. unfold emits in Hf. rewrite Forall_forall in Hf.
    by rewrite (Hf d Hd) in Hs.
  - destruct (adopt_dragged_file w path v) eqn:Ha; [|by apply elem_of_nil in Hd].
    apply list_elem_of_singleton in Hd. subst. unfold adopt_dragged_file in Ha.
    apply bind_Some in Ha as (file & _ & Ha). destruct (holds_now_playing w v); [done|].
    apply bind_Some in Ha as (want & _ & (got & _ & Ha)%bind_Some).
    destruct (eq_ignore_ascii_case _ _); by simplify_eq/=.
Qed.

(** ** Asked once

    Recording a watch, asking whether a series is known and requesting a lookup
    happen at most once per file and session. *)

Inductive Ask := AskWatched (file : Ed2kHash) | AskSeries (file : Ed2kHash) | AskLookup (file : Ed2kHash).
Definition ask_of (d : Directive) : option Ask :=
  match d with
  | RecordWatched file _ _ _ => Some (AskWatched file)
  | CheckSeriesKnown file _ _ => Some (AskSeries file)
  | DMutate (RequestLookup info) => Some (AskLookup (fhi_hash info))
  | _ => None
  end.
Definition asked (w : PlayerWiring) (a : Ask) : Prop :=
  match a with
  | AskWatched file => file ∈ pw_watched_recorded w
  | AskSeries file => file ∈ pw_series_known_checked w
  | AskLookup file => file ∈ pw_lookups_requested w
  end.

(** A step that asks only what was not asked, once, and remembers. *)
Definition asks_once (w : PlayerWiring) (r : PlayerWiring * list Directive) : Prop :=
  (∀ a, asked w a → asked r.1 a) ∧ NoDup (omap ask_of r.2) ∧
  (∀ a, a ∈ omap ask_of r.2 → asked r.1 a ∧ ¬ asked w a).

(** Steps that ask nothing and leave the record alone. *)
Definition no_ask (d : Directive) : Prop := ask_of d = None.
Lemma omap_no_ask l : Forall no_ask l → omap ask_of l = [].
Proof. induction 1 as [|d l Hd _ IH]; [done|]. cbn. by rewrite Hd. Qed.
Definition same_record (w w' : PlayerWiring) : Prop :=
  pw_watched_recorded w' = pw_watched_recorded w ∧
  pw_series_known_checked w' = pw_series_known_checked w ∧
  pw_lookups_requested w' = pw_lookups_requested w.
Lemma asks_nothing w r : same_record w r.1 → Forall no_ask r.2 → asks_once w r.
Proof.
  intros (H1 & H2 & H3) Hq. unfold asks_once. rewrite omap_no_ask by done. split; [|split; [constructor|set_solver]].
  intros []; cbn; by rewrite ?H1, ?H2, ?H3.
Qed.
Lemma asks_none w : asks_once w (w, []).
Proof. apply asks_nothing; [done|constructor]. Qed.

Lemma asks_once_app w w1 w2 o1 o2 : asks_once w (w1, o1) → asks_once w1 (w2, o2) → asks_once w (w2, o1 ++ o2).
Proof.
  unfold asks_once. cbn [fst snd]. rewrite omap_app. intros (M1 & N1 & A1) (M2 & N2 & A2).
  split; [auto|]. split.
  - apply NoDup_app. split; [done|]. split; [|done]. intros a Ha Hb. by apply (A2 a Hb), (A1 a Ha).
  - intros a [Ha|Ha]%elem_of_app; [destruct (A1 a Ha); auto|]. destruct (A2 a Ha) as [? Hn]. split; [done|auto].
Qed.

Lemma asks_once_each {A} (f : PlayerWiring → A → PlayerWiring * list Directive) l : ∀ w,
  (∀ w x, x ∈ l → asks_once w (f w x)) → asks_once w (each f l w).
Proof.
  induction l as [|x l IH]; intros w Hf; [apply asks_none|]. rewrite each_cons.
  specialize (Hf w x ltac:(set_solver)) as Hx. destruct (f w x) as [w1 o1]. cbn [fst snd].
  specialize (IH w1 ltac:(intros; apply Hf; set_solver)) as Hl. destruct (each f l w1) as [w2 o2].
  by eapply asks_once_app.
Qed.

Lemma asks_one w w' d a : ask_of d = Some a → ¬ asked w a → asked w' a → (∀ b, asked w b → asked w' b) →
  asks_once w (w', [d]).
Proof.
  intros Hd Hn Ha Hm. unfold asks_once. cbn [fst snd omap list_omap]. rewrite Hd. split; [done|].
  split; [apply NoDup_singleton|]. intros b ->%list_elem_of_singleton. done.
Qed.

Ltac asks_quiet := apply asks_nothing; [by repeat split|by repeat constructor].

Lemma asks_state_eviction v w : asks_once w (state_eviction v w).
Proof. unfold state_eviction, plan_eviction. split_if; [asks_quiet|apply asks_none]. Qed.
Lemma asks_state_resolves v w : asks_once w (state_resolves v w).
Proof.
  apply asks_once_each. intros w' e _. unfold request_resolve. cbv zeta. split_if; [apply asks_none|].
  destruct (pw_pending_resolve w' !! pe_hash e); [split_if|]; asks_quiet.
Qed.
Lemma asks_lookup w info v : asks_once w (maybe_request_lookup w info v).
Proof.
  unfold maybe_request_lookup. cbv zeta. split_if; [|apply asks_none].
  apply andb_true_iff in Heqb as [_ Hn%negb_true_iff%bool_decide_eq_false].
  apply (asks_one _ _ _ (AskLookup (fhi_hash info))); [done|done|cbn; set_solver|].
  intros []; cbn; set_solver.
Qed.
Lemma asks_state_watchers v w : asks_once w (state_watchers v w).
Proof.
  apply asks_once_each. intros w' [id e] _. unfold write_watcher_pref. case_decide; [apply asks_none|].
  split_if; [apply asks_none|]. asks_quiet.
Qed.
Lemma asks_check w v : asks_once w (maybe_check_series_known w v).
Proof.
  unfold maybe_check_series_known. destruct (v_now_playing v) as [file|]; [|apply asks_none].
  split_if; [apply asks_none|]. apply orb_false_iff in Heqb as [_ Hn%bool_decide_eq_false].
  destruct (_ !! _) as [[]|]; try apply asks_none.
  apply (asks_one _ _ _ (AskSeries file)); [done|done|cbn; set_solver|]. intros []; cbn; set_solver.
Qed.
Lemma asks_offer w v : asks_once w (maybe_offer_local_copies md4 w v).
Proof.
  unfold maybe_offer_local_copies. repeat (case_match || case_decide); try apply asks_none.
Qed.
Lemma asks_state_load v w : asks_once w (state_load v w).
Proof.
  unfold state_load. destruct (v_now_playing v) as [file|]; [|apply asks_none].
  destruct (_ !! file) as [[]|]; try apply asks_none. split_if; [apply asks_none|asks_quiet].
Qed.
Lemma asks_state_playing v peers w : asks_once w (state_playing md4 v peers w).
Proof. unfold state_playing. cbv zeta. destruct (pw_loaded _); asks_quiet. Qed.
Lemma asks_state_follow v peers w : asks_once w (state_follow md4 v peers w).
Proof.
  unfold state_follow. cbv zeta. destruct (if holds_now_playing w v then _ else _).
  - case_decide; [apply asks_none|asks_quiet].
  - destruct (pw_last_synced w); [asks_quiet|apply asks_none].
Qed.
Lemma asks_state_drift v peers w : asks_once w (state_drift md4 v peers w).
Proof.
  unfold state_drift, report_drift. destruct (holds_now_playing w v); [|asks_quiet]. cbv zeta.
  destruct (min_by_key _ _); [destruct (max_by_key _ _); [split_if|]|]; asks_quiet.
Qed.
Lemma asks_state_overlay v peers w : asks_once w (state_overlay md4 v peers w).
Proof. unfold state_overlay. cbv zeta. case_decide; [apply asks_none|asks_quiet]. Qed.
Lemma asks_state_chat v w : asks_once w (state_chat v w).
Proof.
  unfold state_chat. apply asks_nothing; [by repeat split|]. cbn [snd]. destruct (pw_chat_seen w); [|constructor].
  apply Forall_fmap, Forall_true. done.
Qed.
Lemma asks_narrate w v peers : asks_once w (narrate md4 w v peers).
Proof.
  unfold narrate. cbv zeta. destruct (pw_narrator w); [|asks_quiet]. split_if; [asks_quiet|].
  apply asks_nothing; [by repeat split|]. apply Forall_fmap, Forall_true. done.
Qed.

(** What [plan_download] leaves alone: everything but its two logging sets. *)
Definition same_but_logs (w w' : PlayerWiring) : Prop :=
  ∃ prefetching awaiting, w' = put_awaiting_source awaiting (put_prefetching prefetching w).
Lemma same_but_logs_trans w w1 w2 : same_but_logs w w1 → same_but_logs w1 w2 → same_but_logs w w2.
Proof. intros (p & a & ->) (p' & a' & ->). by exists p', a'. Qed.
Lemma plan_wanted_frame v peers l : ∀ w out, same_but_logs w (foldl (plan_wanted v peers) (w, out) l).1.
Proof.
  induction l as [|e l IH]; intros w out; [by exists (pw_prefetching w), (pw_awaiting_source w); destruct w|].
  cbn [foldl]. destruct (plan_wanted v peers (w, out) e) as [w1 out1] eqn:Hp.
  eapply same_but_logs_trans; [|apply IH]. unfold plan_wanted in Hp. cbv zeta in Hp.
  destruct (pw_resolved w !! pe_hash e) as [[]|]; simplify_eq; try by eexists _, _.
  all: destruct (download_sources w v peers (pe_hash e)); by eexists _, _.
Qed.
Lemma plan_download_frame w v peers : same_but_logs w (plan_download md4 w v peers).1.
Proof.
  unfold plan_download. cbv zeta. destruct (negb _); [by eexists _, _|].
  set (w0 := put_awaiting_source _ _). pose proof (plan_wanted_frame v peers (wanted_entries md4 w v) w0 []) as Hf.
  destruct (foldl _ _ _) as [w1 out]. eapply same_but_logs_trans; [|exact Hf]. by eexists _, _.
Qed.

Lemma asks_plan_download w v peers : asks_once w (plan_download md4 w v peers).
Proof.
  apply asks_nothing.
  - destruct (plan_download_frame w v peers) as (? & ? & ->). by repeat split.
  - unfold plan_download. cbv zeta. destruct (negb _); [by repeat constructor|].
    destruct (foldl _ _ _). by repeat constructor.
Qed.

Lemma asks_state_lookups v w : asks_once w (state_lookups v w).
Proof. apply asks_once_each. intros. apply asks_lookup. Qed.
#[local] Hint Resolve asks_state_eviction asks_state_resolves asks_state_lookups asks_state_watchers asks_check
  asks_offer asks_plan_download asks_state_load asks_state_playing asks_state_follow asks_state_drift
  asks_state_overlay asks_state_chat asks_narrate : session.

Lemma asks_on_state w v peers : asks_once w (on_state md4 w v peers).
Proof.
  apply asks_once_each. intros w' f. unfold state_steps.
  repeat (intros [->|Hf]%elem_of_cons; [auto with session|revert Hf]). by intros ?%elem_of_nil.
Qed.

Lemma asks_on_series_known w file series known v peers :
  asks_once w (on_series_known md4 w file series known v peers).
Proof.
  assert (∀ w', asks_once w' (w', placeholder_if_playing md4 v peers file)) as Hp
    by (intros w'; unfold placeholder_if_playing; case_decide; asks_quiet).
  unfold on_series_known. case_decide; [asks_quiet|]. destruct known; [apply asks_none|].
  destruct series; [|apply asks_none]. cbv zeta. split_if; [apply asks_none|]. split_if; [apply Hp|].
  destruct (resolve_or_create_series_entry md4 v file) as [[entry create]|] eqn:Hr; [|apply asks_none].
  eapply asks_once_app; [|eapply asks_once_app; [|apply Hp]]; [|asks_quiet].
  unfold resolve_or_create_series_entry in Hr. apply fmap_Some_1 in Hr as ([id oe] & _ & [= -> ->]).
  destruct oe; asks_quiet.
Qed.

Lemma asks_load_partial w file path v peers : asks_once w (load_partial md4 w file path v peers).
Proof. unfold load_partial. cbv zeta. split_if; [apply asks_none|asks_quiet]. Qed.
Lemma asks_same w w' r : same_record w w' → asks_once w' r → asks_once w r.
Proof.
  intros (H1 & H2 & H3) (M & N & A). assert (∀ a, asked w a ↔ asked w' a) as Hiff
    by (intros []; cbn; by rewrite ?H1, ?H2, ?H3).
  split; [intros a Ha; by apply M, Hiff|]. split; [done|]. intros a Ha. destruct (A a Ha). split; [done|]. by rewrite Hiff.
Qed.
Lemma asks_playable w file path v peers : asks_once w (on_download_playable md4 w file path v peers).
Proof.
  unfold on_download_playable. destruct (negb _); [apply asks_none|]. destruct (negb _); [apply asks_load_partial|].
  destruct (negb _); [apply asks_none|].
  destruct (pw_verified_position w) as [[f t]|]; [case_decide; [asks_quiet|]|];
    (eapply asks_same; [|apply asks_load_partial]; by repeat split).
Qed.
Lemma asks_on_resolved w file r v peers : asks_once w (on_resolved md4 w file r v peers).
Proof.
  unfold on_resolved. cbv zeta. split_if; [asks_quiet|]. destruct r; cbn [fst snd]; try asks_quiet.
  split_if; asks_quiet.
Qed.
Lemma asks_local_file w file path in_place : asks_once w (note_local_file w file path in_place).
Proof.
  unfold note_local_file. cbv zeta. apply asks_nothing; [|by repeat constructor].
  cbn [fst]. unfold same_record. repeat case_match; by repeat split.
Qed.
Lemma asks_evicted w files : asks_once w (note_evicted w files).
Proof.
  unfold note_evicted. assert (∀ acc : PlayerWiring * list Directive, asks_once w acc → asks_once w (foldl (λ acc file,
    match pw_resolved acc.1 !! file with
    | Some _ => (put_resolved (delete file (pw_resolved acc.1)) acc.1,
                 acc.2 ++ [DMutate (SetFileAvailability file AvMissing)])
    | None => acc
    end) acc files)) as Hf; [|apply Hf, asks_none].
  induction files as [|f files IH]; intros [w' o] Hacc; [done|]. cbn [foldl]. apply IH. cbn [fst snd].
  destruct (_ !! f); [|done]. eapply asks_once_app; [exact Hacc|asks_quiet].
Qed.

Lemma asks_record_watched w v p : asks_once w (maybe_record_watched w v p).
Proof.
  unfold maybe_record_watched. destruct (v_now_playing v) as [file|]; [|apply asks_none].
  case_decide; [apply asks_none|]. destruct (entry_of v file); [|apply asks_none].
  destruct (pfs_duration_millis _); [|apply asks_none]. split_if; [apply asks_none|].
  apply (asks_one _ _ _ (AskWatched file)); [done|done|cbn; set_solver|]. intros []; cbn; set_solver.
Qed.
Lemma asks_tick w file p v : asks_once w (on_position_tick w file p v).
Proof.
  unfold on_position_tick. destruct (negb _); [apply asks_none|]. cbv zeta.
  match goal with |- context [maybe_record_watched ?x v p] => set (w0 := x) end.
  pose proof (asks_record_watched w0 v p) as Hr. destruct (maybe_record_watched w0 v p) as [w' more].
  eapply asks_same; [|eapply (asks_once_app _ w0 _ [_]); [asks_quiet|exact Hr]].
  unfold w0. repeat split_if; by repeat split.
Qed.
Lemma asks_eof w file v : asks_once w (on_eof w file v).
Proof. unfold on_eof. destruct (negb _); [apply asks_none|]. cbv zeta. split_if; asks_quiet. Qed.
Lemma asks_load_failed w file v : asks_once w (on_load_failed w file v).
Proof.
  unfold on_load_failed. cbv zeta. destruct (bool_decide _); cbn [andb];
    [split_if|]; try (destruct (entry_of v file)); asks_quiet.
Qed.
Lemma asks_on_player w output v : asks_once w (on_player w output v).
Proof.
  destruct output; cbn [on_player]; try asks_quiet.
  - destruct (pw_grace w); asks_quiet.
  - destruct (if holds_now_playing w v then _ else _); [asks_quiet|apply asks_none].
  - apply asks_tick.
  - destruct (existsb _ _); asks_quiet.
  - apply asks_eof.
  - apply asks_load_failed.
  - destruct (adopt_dragged_file w path v) eqn:Ha; [|apply asks_none].
    apply asks_nothing; [by repeat split|]. apply Forall_singleton. unfold adopt_dragged_file in Ha.
    apply bind_Some in Ha as (file & _ & Ha). destruct (holds_now_playing w v); [done|].
    apply bind_Some in Ha as (want & _ & (got & _ & Ha)%bind_Some).
    destruct (eq_ignore_ascii_case _ _); by simplify_eq/=.
Qed.

Lemma asks_step w e : asks_once w (step w e).
Proof.
  destruct e; cbn [step]; auto using asks_on_state, asks_on_player, asks_on_resolved, asks_local_file,
    asks_on_series_known, asks_evicted, asks_playable.
  - apply asks_once_each. intros. apply asks_lookup.
  - asks_quiet.
  - unfold on_copy_offer_closed. cbv zeta. destruct (_ !! file) as [[series known]|]; [|asks_quiet].
    eapply asks_same; [|apply asks_on_series_known]; by repeat split.
  - unfold on_archived. cbv zeta. destruct (pw_loaded _); [case_decide|]; asks_quiet.
  - unfold on_placeholder_ready. split_if; asks_quiet.
  - asks_quiet.
  - asks_quiet.
  - asks_quiet.
  - asks_quiet.
Qed.

(** ** Statements *)

(** C11. The client speaks for the group (publishes a position or a seek, reports an
    end of file, records a watch) only on a report of its player, only about the
    file that is playing, and only while its player was told to load that very
    file's video; an end of file of a partial download is reported only near
    the end of the file. *)
Theorem speaks_only_for_the_loaded_file w e d :
  d ∈ (step w e).2 → speaks d = true →
  ∃ output v l, e = EvPlayer output v ∧ v_now_playing v = Some (lf_file l) ∧ pw_loaded w = Some l ∧
    spoken w v output l d.
Proof.
  intros Hd Hs.
  assert ((∃ output v, e = EvPlayer output v) ∨ ∀ output v, e ≠ EvPlayer output v) as [(output & v & ->)|Hno]
    by (destruct e; eauto; right; intros ? ?; discriminate).
  - destruct (player_speaks w output v d Hd Hs) as (l & ? & ? & ?). by exists output, v, l.
  - pose proof (only_player_speaks w e Hno) as Hq. unfold emits in Hq. rewrite Forall_forall in Hq.
    by rewrite (Hq d Hd) in Hs.
Qed.

(** C14. Recording a watch, asking whether a series is known and requesting a lookup
    each happen at most once per file in a session, whatever comes in. *)
Theorem asked_once_per_session me es : NoDup (omap ask_of (run es (new_wiring me)).2).
Proof. apply (asks_once_each step es (new_wiring me)). intros. apply asks_step. Qed.

End session.

(** ** Examples *)

Definition ex_digest (_ : Bytes) : Z := 0.
Definition ex_file : Ed2kHash := mkEd2kHash [1].
Definition ex_me : UserId := mkUserId "aya".
Definition ex_you : UserId := mkUserId "nero".
Definition ex_playlist : list PlaylistEntry :=
  [mkPlaylistEntry ex_file (mkPlaylistFileState (mkIdentifier []) ex_me "a.mkv" 1000 (Some 60000%positive))].
Definition ex_peers : list PeerInfo :=
  [mkPeerInfo ex_me Interactive Present [] 0 None; mkPeerInfo ex_you Interactive Present [] 0 None].
Definition ex_view : StateView :=
  mkStateView ex_playlist ∅ (Some ex_file) None None IntentPlaying ∅ ∅
    {[(ex_me, ex_file) := AvReady; (ex_you, ex_file) := AvReady]} ∅ ∅ ∅ ∅ ∅ ∅ []
    {[ex_me := mkPlaybackPosition 1000 5 ex_file; ex_you := mkPlaybackPosition 9000 5 ex_file]} ∅ None ∅.
Definition ex_wiring : PlayerWiring :=
  put_loaded (Some (mkLoadedFile ex_file "/a.mkv" false)) (new_wiring ex_me).

Lemma speaks_only_for_the_loaded_file_witness :
  ∃ output v l, EvPlayer (Eof ex_file) ex_view = EvPlayer output v ∧
    spoken ex_wiring v output l (ReportEof ex_file).
Proof.
  destruct (@speaks_only_for_the_loaded_file ex_digest ascii_classes ex_wiring (EvPlayer (Eof ex_file) ex_view)
    (ReportEof ex_file)) as (output & v & l & He & _ & _ & Hs).
  - apply list_elem_of_singleton. vm_compute. reflexivity.
  - reflexivity.
  - exists output, v, l. split; [exact He|exact Hs].
Defined.
