(* ===== verification/SessionPlayer.v ===== *)
(** * The session policy: driving the player

    What the client's session (Session) makes its player do: whom it follows,
    every command a fresh view sends, and what is on the screen when the
    player is told to play. *)

From S2P Require Import Prelude Text Types View Playlist Derive SeriesIdentity Message Sync Transfer F64 Drift Spoiler Hash Download Session SessionCorrect.

(** ** Selection in order

    [max_by_key] takes the last of the largest, [min_by_key] the first of the
    least: in a sorted list, ties go to the greatest and to the least name. *)

Section select.
Context {A : Type} (R : relation A) `{!PreOrder R} (key : A → Z).

Definition over (x y : A) : Prop := key y < key x ∨ key y = key x ∧ R y x.
Definition under (x y : A) : Prop := key x < key y ∨ key x = key y ∧ R x y.

#[local] Instance over_po : PreOrder over.
Proof.
  split; [intros x; by right|]. intros x y z [|[? Hx]] [|[? Hy]]; [left; lia..|]. right. split; [lia|]. by transitivity y.
Qed.
#[local] Instance under_po : PreOrder under.
Proof.
  split; [intros x; by right|]. intros x y z [|[? Hx]] [|[? Hy]]; [left; lia..|]. right. split; [lia|]. by transitivity y.
Qed.

(** A fold that keeps one of two keeps a bound of all it has seen. *)
Lemma foldl_keeps (S : relation A) `{!PreOrder S} (f : A → A → A) l : ∀ x,
  StronglySorted R (x :: l) →
  (∀ b y, R b y → (f b y = b ∨ f b y = y) ∧ S (f b y) b ∧ S (f b y) y) →
  foldl f x l ∈ x :: l ∧ ∀ y, y ∈ x :: l → S (foldl f x l) y.
Proof.
  induction l as [|y l IH]; intros x Hs Hf; cbn [foldl].
  - split; [by left|]. by intros y ->%list_elem_of_singleton.
  - apply StronglySorted_inv in Hs as [Hs Hx]. apply Forall_cons in Hx as [Hxy Hx].
    destruct (Hf x y Hxy) as (He & Hb & Hy). destruct (IH (f x y)) as [Hin Hall]; [|done|].
    + apply StronglySorted_inv in Hs as [Hs' Hy']. by destruct He as [->| ->]; constructor.
    + assert (S (foldl f (f x y) l) (f x y)) as Hfst by (apply Hall; by left). split.
      * apply elem_of_cons in Hin as [->|Hin]; [destruct He as [->| ->]; set_solver|set_solver].
      * intros z [->|[->|Hz]%elem_of_cons]%elem_of_cons; [by transitivity (f x y)..|]. apply Hall. by right.
Qed.

Lemma max_by_key_sorted l x : StronglySorted R l → max_by_key key l = Some x →
  x ∈ l ∧ ∀ y, y ∈ l → over x y.
Proof.
  destruct l as [|x0 l]; [done|]. cbn [max_by_key]. intros Hs [= <-].
  apply (foldl_keeps over); [done|]. intros b y Hby.
  destruct (Z.ltb_spec (key y) (key b)).
  - split; [by left|]. split; [done|]. by left.
  - split; [by right|]. split; [|done]. destruct (decide (key b = key y)); [by right|left; lia].
Qed.
Lemma min_by_key_sorted l x : StronglySorted R l → min_by_key key l = Some x →
  x ∈ l ∧ ∀ y, y ∈ l → under x y.
Proof.
  destruct l as [|x0 l]; [done|]. cbn [min_by_key]. intros Hs [= <-].
  apply (foldl_keeps under); [done|]. intros b y Hby.
  destruct (Z.ltb_spec (key y) (key b)).
  - split; [by right|]. split; [by left|done].
  - split; [by left|]. split; [done|]. destruct (decide (key b = key y)); [by right|left; lia].
Qed.

Lemma filter_sorted (P : A → Prop) `{∀ x, Decision (P x)} l : StronglySorted R l → StronglySorted R (filter P l).
Proof.
  induction 1 as [|x l Hl IH Hx]; [constructor|]. destruct (decide (P x)).
  - rewrite filter_cons_True by done. constructor; [done|]. apply Forall_forall. intros y [_ Hy]%list_elem_of_filter.
    rewrite Forall_forall in Hx. by apply Hx.
  - by rewrite filter_cons_False.
Qed.
End select.

Section player.
Context (md4 : Bytes → Z) `{CharClasses}.

(** ** Whom to follow

    The rules of drift correction, stated on the view: who counts, who leads,
    who lags, whom the seek authority names. *)

(** A present peer that plays with us: interactive, holding the video of the
    playing file, with a position reported for it. *)
Definition sample (v : StateView) (peers : list PeerInfo) (u : UserId) (pos : PlaybackPosition) : Prop :=
  v_now_playing v = Some (pos_file pos) ∧ v_playback_position v !! u = Some pos ∧
  holds_video v u (pos_file pos) = true ∧
  ∃ p, p ∈ peers ∧ peer_username p = u ∧ peer_presence p = Present ∧ peer_role p = Interactive.
(** The furthest ahead; of several, the last by name. *)
Definition leader (v : StateView) (peers : list PeerInfo) (u : UserId) (pos : PlaybackPosition) : Prop :=
  sample v peers u pos ∧ ∀ u' pos', sample v peers u' pos' →
    position_millis pos' < position_millis pos ∨ position_millis pos' = position_millis pos ∧ ord_le u' u.
(** No further behind anybody than an outage lasts. *)
Definition in_reach (v : StateView) (peers : list PeerInfo) (pos : PlaybackPosition) : Prop :=
  ∀ u' pos', sample v peers u' pos' →
    position_millis pos' ≤ u64_saturating_add (position_millis pos) OUTAGE_GRACE_MILLIS.
(** The furthest behind of those in reach; of several, the first by name. *)
Definition laggard (v : StateView) (peers : list PeerInfo) (u : UserId) (pos : PlaybackPosition) : Prop :=
  sample v peers u pos ∧ in_reach v peers pos ∧ ∀ u' pos', sample v peers u' pos' → in_reach v peers pos' →
    position_millis pos < position_millis pos' ∨ position_millis pos = position_millis pos' ∧ ord_le u u'.

(** Whom the seek authority names: who seeked, the anchor of the playing file,
    or after an outage the laggard of the playing file. *)
Inductive named (v : StateView) (peers : list PeerInfo) : UserId → Prop :=
  | named_seek s : v_seek_authority v = Some (AuthUser s) → named v peers (seek_user s)
  | named_anchor u file : v_seek_authority v = Some (AuthAnchor u file) → v_now_playing v = Some file →
      named v peers u
  | named_laggard u pos file : v_seek_authority v = Some (AuthLaggard file) → v_now_playing v = Some file →
      laggard v peers u pos → named v peers u.

(** Our own position in the playing file, 0 if we have none. *)
Definition own_position (me : UserId) (v : StateView) : Z :=
  match v_playback_position v !! me with
  | Some p => if decide (v_now_playing v = Some (pos_file p)) then position_millis p else 0
  | None => 0
  end.
Definition in_charge (me : UserId) (v : StateView) (peers : list PeerInfo) : Prop :=
  ∃ u, named v peers u ∧ (u = me ∨ ∃ pos, sample v peers u pos).
(** The reference: the one named, unless that is us; with nobody usable named,
    the leader if it is ahead of us; else nobody. *)
Inductive reference (me : UserId) (v : StateView) (peers : list PeerInfo) : option (UserId * PlaybackPosition) → Prop :=
  | reference_self : named v peers me → reference me v peers None
  | reference_named u pos : named v peers u → u ≠ me → sample v peers u pos → reference me v peers (Some (u, pos))
  | reference_leader u pos : ¬ in_charge me v peers → leader v peers u pos → u ≠ me →
      own_position me v < position_millis pos → reference me v peers (Some (u, pos))
  | reference_nobody : ¬ in_charge me v peers →
      (∀ u pos, leader v peers u pos → u = me ∨ position_millis pos ≤ own_position me v) →
      reference me v peers None.

(** *** The code's lists *)

Definition by_name : relation (UserId * PlaybackPosition) := λ a b, ord_le a.1 b.1.
#[local] Instance by_name_po : PreOrder by_name.
Proof. split; [intros a; unfold by_name; reflexivity|]. intros a b c. unfold by_name. apply ord_le_trans. Qed.

Lemma elem_of_same_file v peers u pos : (u, pos) ∈ same_file_positions v peers ↔ sample v peers u pos.
Proof.
  unfold same_file_positions, sample. destruct (v_now_playing v) as [file|].
  - rewrite elem_of_loaded_positions. setoid_rewrite loaded_position_Some. naive_solver.
  - split; [by intros ?%elem_of_nil|by intros [? _]].
Qed.
Lemma same_file_sorted v peers : StronglySorted by_name (same_file_positions v peers).
Proof. unfold same_file_positions. destruct (v_now_playing v); [apply btree_iter_sorted|constructor]. Qed.

Lemma leader_of_max v peers s :
  max_by_key (λ up, position_millis up.2) (same_file_positions v peers) = Some s → leader v peers s.1 s.2.
Proof.
  destruct s as [u pos]. intros [Hin Hmax]%(max_by_key_sorted by_name); [|apply same_file_sorted]. split.
  - by apply elem_of_same_file.
  - intros u' pos' Hs%elem_of_same_file. apply (Hmax _ Hs).
Qed.
Lemma no_leader v peers u pos :
  max_by_key (λ up, position_millis up.2) (same_file_positions v peers) = None → ¬ sample v peers u pos.
Proof.
  intros Hm Hs%elem_of_same_file. destruct (same_file_positions v peers); [by apply elem_of_nil in Hs|done].
Qed.

Lemma in_reach_front v peers front pos :
  iter_max ((λ up, position_millis up.2) <$> same_file_positions v peers) = Some front →
  in_reach v peers pos ↔ front ≤ u64_saturating_add (position_millis pos) OUTAGE_GRACE_MILLIS.
Proof.
  intros Hf. split.
  - intros Hr. apply iter_max_elem, list_elem_of_fmap in Hf as ([u pos'] & -> & Hin%elem_of_same_file). by apply (Hr u).
  - intros Hle u' pos' Hs%elem_of_same_file.
    pose proof (iter_max_ub _ _ (list_elem_of_fmap_2 (λ up : UserId * PlaybackPosition, position_millis up.2) _ _ Hs)) as Hub.
    rewrite Hf in Hub. cbn in Hub. lia.
Qed.
Lemma rejoin_laggard_front v peers :
  rejoin_laggard v peers =
  (front ← iter_max ((λ up, position_millis up.2) <$> same_file_positions v peers);
   min_by_key (λ up, position_millis up.2)
     (filter (λ up, front ≤ u64_saturating_add (position_millis up.2) OUTAGE_GRACE_MILLIS) (same_file_positions v peers))).
Proof. unfold rejoin_laggard, same_file_positions. by destruct (v_now_playing v). Qed.
Lemma laggard_of_min v peers s : rejoin_laggard v peers = Some s → laggard v peers s.1 s.2.
Proof.
  rewrite rejoin_laggard_front. intros (front & Hf & Hm)%bind_Some. destruct s as [u pos].
  apply (min_by_key_sorted by_name) in Hm as [[Hr Hin]%list_elem_of_filter Hmin];
    [|apply (filter_sorted by_name), same_file_sorted].
  split; [by apply elem_of_same_file|]. split; [by apply (in_reach_front _ _ front)|].
  intros u' pos' Hs%elem_of_same_file Hr'. apply (Hmin (u', pos')), list_elem_of_filter. split; [|done].
  by apply (in_reach_front _ _ front) in Hr'.
Qed.
Lemma no_laggard v peers u pos : rejoin_laggard v peers = None → ¬ laggard v peers u pos.
Proof.
  rewrite rejoin_laggard_front. intros Hn (Hs & Hr & _). apply elem_of_same_file in Hs as Hin.
  destruct (iter_max _) as [front|] eqn:Hf; cbn in Hn.
  - apply (in_reach_front _ _ front) in Hr; [|done].
    assert ((u, pos) ∈ filter (λ up, front ≤ u64_saturating_add (position_millis up.2) OUTAGE_GRACE_MILLIS)
      (same_file_positions v peers)) as Hx by (by apply list_elem_of_filter).
    destruct (filter _ _); [by apply elem_of_nil in Hx|done].
  - destruct (same_file_positions v peers); [by apply elem_of_nil in Hin|done].
Qed.

Lemma sample_position v peers u pos pos' : sample v peers u pos → sample v peers u pos' → pos = pos'.
Proof. intros (_ & H1 & _) (_ & H2 & _). congruence. Qed.
Lemma leader_unique v peers u pos u' pos' : leader v peers u pos → leader v peers u' pos' → u = u' ∧ pos = pos'.
Proof.
  intros [Hs Hm] [Hs' Hm']. assert (u = u') as <-.
  { destruct (Hm _ _ Hs'), (Hm' _ _ Hs); try lia. apply (anti_symm ord_le); naive_solver. }
  split; [done|]. by eapply sample_position.
Qed.
Lemma laggard_unique v peers u pos u' pos' : laggard v peers u pos → laggard v peers u' pos' → u = u'.
Proof.
  intros (Hs & Hr & Hm) (Hs' & Hr' & Hm').
  destruct (Hm _ _ Hs' Hr'), (Hm' _ _ Hs Hr); try lia. apply (anti_symm ord_le); naive_solver.
Qed.
Lemma named_unique v peers u u' : named v peers u → named v peers u' → u = u'.
Proof. intros [] H'; inversion H'; simplify_eq; try done. by eapply laggard_unique. Qed.

(** The rules leave no choice. *)
Lemma reference_unique me v peers r r' : reference me v peers r → reference me v peers r' → r = r'.
Proof.
  assert (∀ u pos, named v peers u → sample v peers u pos → in_charge me v peers) as Hin
    by (intros u pos ? ?; exists u; eauto).
  assert (named v peers me → in_charge me v peers) as Hme by (intros ?; exists me; eauto).
  intros H1 H2. destruct H1 as [Hn|u pos Hn Hne Hs|u pos Hc Hl Hne Hlt|Hc Ho],
    H2 as [Hn'|u' pos' Hn' Hne' Hs'|u' pos' Hc' Hl' Hne' Hlt'|Hc' Ho']; try done.
  all: try (by exfalso; (apply Hc || apply Hc'); eauto).
  - by destruct Hne'; eapply named_unique.
  - by destruct Hne; eapply named_unique.
  - assert (u = u') as <- by (by eapply named_unique). by rewrite (sample_position v peers u pos pos').
  - by destruct (leader_unique _ _ _ _ _ _ Hl Hl') as [-> ->].
  - destruct (Ho' _ _ Hl); [done|lia].
  - destruct (Ho _ _ Hl'); [done|lia].
Qed.

Lemma elected_reference me v peers : ¬ in_charge me v peers →
  reference me v peers
    match max_by_key (λ up, position_millis up.2) (same_file_positions v peers) with
    | None => None
    | Some leader => if bool_decide (leader.1 = me) || (position_millis leader.2 <=? own_position me v) then None
                     else Some leader
    end.
Proof.
  intros Hc. destruct (max_by_key _ _) as [[u pos]|] eqn:Hm.
  - apply leader_of_max in Hm. cbn [fst snd] in *. destruct (bool_decide (u = me)) eqn:Hu; cbn [orb].
    + apply bool_decide_eq_true in Hu. apply reference_nobody; [done|]. intros u' pos' Hl'.
      destruct (leader_unique _ _ _ _ _ _ Hm Hl') as [<- <-]. by left.
    + apply bool_decide_eq_false in Hu. destruct (Z.leb_spec (position_millis pos) (own_position me v)).
      * apply reference_nobody; [done|]. intros u' pos' Hl'. destruct (leader_unique _ _ _ _ _ _ Hm Hl') as [<- <-]. by right.
      * by apply reference_leader.
  - apply reference_nobody; [done|]. intros u pos [Hs _]. by destruct (no_leader _ _ _ _ Hm Hs).
Qed.

(** The one named, as the code tries it. *)
Lemma named_reference me v peers u : named v peers u →
  reference me v peers
    (if decide (u = me) then None
     else match List.find (λ up, bool_decide (up.1 = u)) (same_file_positions v peers) with
     | Some s => Some s
     | None => match max_by_key (λ up, position_millis up.2) (same_file_positions v peers) with
       | None => None
       | Some leader => if bool_decide (leader.1 = me) || (position_millis leader.2 <=? own_position me v) then None
                        else Some leader
       end end).
Proof.
  intros Hn. case_decide as Hu; [subst; by apply reference_self|].
  destruct (List.find _ _) as [[u' pos]|] eqn:Hf.
  - apply find_some in Hf as [Hin%list_elem_of_In%elem_of_same_file Hu']. cbn in Hu'.
    apply bool_decide_eq_true in Hu' as ->. by apply reference_named.
  - apply elected_reference. intros (u' & Hn' & Hx). assert (u' = u) as -> by (by eapply named_unique).
    destruct Hx as [?|[pos Hs%elem_of_same_file%list_elem_of_In]]; [done|].
    apply (find_none _ _ Hf) in Hs. by apply bool_decide_eq_false in Hs.
Qed.

(** The code computes the reference. *)
Lemma position_reference_sound me v peers : reference me v peers (position_reference me v peers).
Proof.
  unfold position_reference. fold (own_position me v).
  destruct (v_seek_authority v) as [[|seek|file|user file]|] eqn:Ha; cbn [mbind option_bind].
  - rewrite decide_False by done. apply elected_reference. intros (u & Hn & _). inversion Hn; congruence.
  - pose proof (named_reference me v peers _ (named_seek _ _ _ Ha)) as Hr.
    destruct (decide (seek_user seek = me)); [by rewrite decide_True by congruence|by rewrite decide_False by congruence].
  - destruct (decide (v_now_playing v = Some file)) as [Hp|Hp].
    + destruct (rejoin_laggard v peers) as [[u pos]|] eqn:Hl.
      * apply laggard_of_min in Hl. cbn [fst snd] in *. assert (named v peers u) as Hn by (by eapply named_laggard).
        case_decide as Hu; [subst; by apply reference_self|]. apply reference_named; [done..|]. apply Hl.
      * rewrite decide_False by done. apply elected_reference. intros (u & Hn & _). inversion Hn; try congruence.
        by eapply no_laggard.
    + rewrite decide_False by done. apply elected_reference. intros (u & Hn & _). inversion Hn; congruence.
  - destruct (decide (v_now_playing v = Some file)) as [Hp|Hp]; cbn [mbind option_bind].
    + pose proof (named_reference me v peers _ (named_anchor _ _ _ _ Ha Hp)) as Hr.
      destruct (decide (user = me)); [by rewrite decide_True by congruence|by rewrite decide_False by congruence].
    + rewrite decide_False by done. apply elected_reference. intros (u & Hn & _). inversion Hn; congruence.
  - rewrite decide_False by done. apply elected_reference. intros (u & Hn & _). inversion Hn; congruence.
Qed.

(** Whoever is followed follows nobody: drift correction makes no chains. *)
Lemma reference_follows_nobody me v peers u pos :
  reference me v peers (Some (u, pos)) → reference u v peers None.
Proof.
  intros Hr. inversion Hr as [|? ? Hn _ _|? ? Hc Hl Hne _|]; subst; [by apply reference_self|].
  apply reference_nobody.
  - intros (u' & Hn & Hs). apply Hc. exists u'. split; [done|]. right. destruct Hs as [->|Hs]; [|done].
    exists pos. apply Hl.
  - intros u' pos' Hl'. left. by destruct (leader_unique _ _ _ _ _ _ Hl Hl').
Qed.
(** ** Driving the player *)

(** What decides the player's commands, and recovery: the blocks of [on_state]
    that send nothing leave it alone. *)
Definition same_player (w w' : PlayerWiring) : Prop :=
  pw_me w' = pw_me w ∧ pw_resolved w' = pw_resolved w ∧ pw_loaded w' = pw_loaded w ∧
  pw_last_synced w' = pw_last_synced w ∧ pw_eof_recovery w' = pw_eof_recovery w ∧
  pw_verified_position w' = pw_verified_position w ∧
  pw_blocker_overlay_sent w' = pw_blocker_overlay_sent w ∧ pw_chat_seen w' = pw_chat_seen w.
#[local] Instance same_player_po : PreOrder same_player.
Proof.
  split; [by repeat split|]. intros w1 w2 w3 H1 H2. unfold same_player in *. destruct_and!.
  split_and!; congruence.
Qed.

(** The command a directive sends the player. *)
Definition command (d : Directive) : option PlayerCommand :=
  match d with Player c => Some c | _ => None end.
Definition offstage (d : Directive) : Prop := command d = None.
Lemma commands_offstage l : Forall offstage l → omap command l = [].
Proof. induction 1 as [|d l Hd _ IH]; [done|]. cbn. by rewrite Hd. Qed.
(** A block that neither drives the player nor touches what drives it. *)
Definition backstage (w : PlayerWiring) (r : PlayerWiring * list Directive) : Prop :=
  same_player w r.1 ∧ Forall offstage r.2.

Lemma backstage_none w : backstage w (w, []).
Proof. split; [done|constructor]. Qed.
Lemma backstage_each {A} (f : PlayerWiring → A → PlayerWiring * list Directive) l w :
  (∀ w x, backstage w (f w x)) → backstage w (each f l w).
Proof.
  revert w. induction l as [|x l IH]; intros w Hf; [apply backstage_none|]. rewrite each_cons.
  destruct (Hf w x) as [H1 H2]. destruct (IH (f w x).1 Hf) as [H3 H4]. split; cbn [fst snd].
  - by transitivity (f w x).1.
  - by apply Forall_app.
Qed.
Ltac backstage_done := first [apply backstage_none | split; [by repeat split|by repeat constructor]].

Lemma backstage_eviction v w : backstage w (state_eviction v w).
Proof. unfold state_eviction, plan_eviction. split_if; backstage_done. Qed.
Lemma backstage_resolves v w : backstage w (state_resolves v w).
Proof.
  apply backstage_each. intros w' e. unfold request_resolve. cbv zeta. split_if; [backstage_done|].
  destruct (pw_pending_resolve w' !! pe_hash e); [split_if|]; backstage_done.
Qed.
Lemma backstage_lookup w info v : backstage w (maybe_request_lookup w info v).
Proof. unfold maybe_request_lookup. cbv zeta. split_if; backstage_done. Qed.
Lemma backstage_lookups v w : backstage w (state_lookups v w).
Proof. apply backstage_each. intros. apply backstage_lookup. Qed.
Lemma backstage_watchers v w : backstage w (state_watchers v w).
Proof.
  apply backstage_each. intros w' [id e]. unfold write_watcher_pref. case_decide; [backstage_done|].
  split_if; backstage_done.
Qed.
Lemma backstage_check w v : backstage w (maybe_check_series_known w v).
Proof. unfold maybe_check_series_known. repeat case_match; backstage_done. Qed.
Lemma backstage_offer w v : backstage w (maybe_offer_local_copies md4 w v).
Proof. unfold maybe_offer_local_copies. repeat (case_match || case_decide); backstage_done. Qed.
Lemma backstage_plan_download w v peers : backstage w (plan_download md4 w v peers).
Proof.
  split; [destruct (plan_download_frame md4 w v peers) as (? & ? & ->); by repeat split|].
  unfold plan_download. cbv zeta. destruct (negb _); [by repeat constructor|].
  destruct (foldl _ _ _). by repeat constructor.
Qed.
Lemma backstage_drift v peers w : backstage w (state_drift md4 v peers w).
Proof. unfold state_drift, report_drift. repeat case_match; backstage_done. Qed.
Lemma backstage_narrate w v peers : backstage w (narrate md4 w v peers).
Proof.
  unfold narrate. cbv zeta. destruct (pw_narrator w); [|backstage_done]. split_if; [backstage_done|].
  split; [by repeat split|]. apply Forall_fmap, Forall_true. done.
Qed.
#[local] Hint Resolve backstage_eviction backstage_resolves backstage_lookups backstage_watchers backstage_check
  backstage_offer backstage_plan_download backstage_drift backstage_narrate : session.

Lemma backstage_sequence fs w : Forall (λ f, ∀ w, backstage w (f w)) fs → backstage w (sequence fs w).
Proof.
  revert w. induction fs as [|f fs IH]; intros w Hf; [apply backstage_none|].
  apply Forall_cons in Hf as [Hx Hf]. unfold sequence. rewrite each_cons. fold (sequence fs).
  destruct (Hx w) as [H1 H2]. destruct (IH (f w).1 Hf) as [H3 H4]. split; cbn [fst snd].
  - by transitivity (f w).1.
  - by apply Forall_app.
Qed.

Lemma sequence_app fs gs w :
  sequence (fs ++ gs) w =
  ((sequence gs (sequence fs w).1).1, (sequence fs w).2 ++ (sequence gs (sequence fs w).1).2).
Proof.
  unfold sequence. revert w. induction fs as [|f fs IH]; intros w; cbn [app].
  - rewrite each_nil. cbn [fst snd app]. by destruct (each _ gs w).
  - rewrite !each_cons, IH. cbn [fst snd]. by rewrite (assoc_L (++)).
Qed.

(** [on_state] is its commanding blocks between others. *)
Definition front (v : StateView) (peers : list PeerInfo) : list (PlayerWiring → PlayerWiring * list Directive) :=
  [state_eviction v; state_resolves v; state_lookups v; state_watchers v;
   (λ w, maybe_check_series_known w v); (λ w, maybe_offer_local_copies md4 w v);
   (λ w, plan_download md4 w v peers)].
Lemma backstage_front v peers w : backstage w (sequence (front v peers) w).
Proof.
  apply backstage_sequence. unfold front.
  repeat first [apply Forall_cons_2; [intros w'; auto with session|]|apply Forall_nil_2].
Qed.

Lemma state_steps_split v peers :
  state_steps md4 v peers =
  front v peers ++ [state_load v; state_playing md4 v peers; state_follow md4 v peers; state_drift md4 v peers;
    state_overlay md4 v peers; state_chat v; (λ w, narrate md4 w v peers)].
Proof. unfold state_steps, front. cbn [app]. reflexivity. Qed.
Lemma on_state_unfold w v peers : on_state md4 w v peers = sequence (state_steps md4 v peers) w.
Proof. unfold on_state. reflexivity. Qed.

Lemma sequence_seven fs f1 f2 f3 f4 f5 f6 f7 w :
  let w0 := (sequence fs w).1 in let w1 := (f1 w0).1 in let w2 := (f2 w1).1 in let w3 := (f3 w2).1 in
  let w4 := (f4 w3).1 in let w5 := (f5 w4).1 in let w6 := (f6 w5).1 in
  (sequence (fs ++ [f1; f2; f3; f4; f5; f6; f7]) w).1 = (f7 w6).1 ∧
  (sequence (fs ++ [f1; f2; f3; f4; f5; f6; f7]) w).2 =
    (sequence fs w).2 ++ (f1 w0).2 ++ (f2 w1).2 ++ (f3 w2).2 ++ (f4 w3).2 ++ (f5 w4).2 ++ (f6 w5).2 ++ (f7 w6).2.
Proof.
  cbv zeta. rewrite sequence_app. cbn [fst snd]. generalize (sequence fs w). intros [w0 o]. cbn [fst snd].
  unfold sequence. rewrite !each_cons, each_nil. cbn [fst snd]. by rewrite app_nil_r.
Qed.

(** The blocks that command, one after the other. *)
Record commanding (v : StateView) (peers : list PeerInfo) (w w1 w2 w3 w4 w5 : PlayerWiring)
    (o1 o2 o3 o5 o6 : list Directive) : Prop := {
  cm_front : ∃ w0, same_player w w0 ∧ state_load v w0 = (w1, o1);
  cm_playing : state_playing md4 v peers w1 = (w2, o2);
  cm_follow : state_follow md4 v peers w2 = (w3, o3);
  cm_drift : same_player w3 w4;
  cm_overlay : state_overlay md4 v peers w4 = (w5, o5);
  cm_chat : ∃ w6, state_chat v w5 = (w6, o6) ∧ same_player w6 (on_state md4 w v peers).1;
  cm_commands : omap command (on_state md4 w v peers).2 = omap command (o1 ++ o2 ++ o3 ++ o5 ++ o6)
}.
Lemma on_state_commanding w v peers : ∃ w1 w2 w3 w4 w5 o1 o2 o3 o5 o6,
  commanding v peers w w1 w2 w3 w4 w5 o1 o2 o3 o5 o6.
Proof.
  destruct (backstage_front v peers w) as [Hp1 Ho1].
  pose proof (sequence_seven (front v peers) (state_load v) (state_playing md4 v peers) (state_follow md4 v peers)
    (state_drift md4 v peers) (state_overlay md4 v peers) (state_chat v) (λ w, narrate md4 w v peers) w) as Hs.
  rewrite <-state_steps_split, <-on_state_unfold in Hs. cbv zeta in Hs.
  set (w0 := (sequence (front v peers) w).1) in *.
  destruct (state_load v w0) as [w1 o1] eqn:E1. cbn [fst snd] in Hs.
  destruct (state_playing md4 v peers w1) as [w2 o2] eqn:E2. cbn [fst snd] in Hs.
  destruct (state_follow md4 v peers w2) as [w3 o3] eqn:E3. cbn [fst snd] in Hs.
  destruct (backstage_drift v peers w3) as [Hp4 Ho4].
  destruct (state_drift md4 v peers w3) as [w4 o4] eqn:E4. cbn [fst snd] in Hs, Hp4, Ho4.
  destruct (state_overlay md4 v peers w4) as [w5 o5] eqn:E5. cbn [fst snd] in Hs.
  destruct (state_chat v w5) as [w6 o6] eqn:E6. cbn [fst snd] in Hs.
  destruct (backstage_narrate w6 v peers) as [Hp7 Ho7]. destruct Hs as [Hs1 Hs2].
  exists w1, w2, w3, w4, w5, o1, o2, o3, o5, o6. constructor; eauto.
  - exists w6. rewrite Hs1. eauto.
  - rewrite Hs2, !omap_app, (commands_offstage _ Ho1), (commands_offstage _ Ho4), (commands_offstage _ Ho7).
    by rewrite app_nil_r.
Qed.

(** What the player should have loaded after a view: the verified copy of the
    playing file if there is one, else what it has. *)
Definition to_load (w : PlayerWiring) (v : StateView) : option LoadedFile :=
  match v_now_playing v with
  | Some file => match pw_resolved w !! file with
                 | Some (Verified path) => Some (mkLoadedFile file path false)
                 | _ => pw_loaded w end
  | None => pw_loaded w
  end.
(** Where a file was left, if it was started. *)
Definition left_at (v : StateView) (file : Ed2kHash) : option Z :=
  match v_saved_position v !! file with
  | Some t => if decide (0 < t) then Some t else None
  | None => None
  end.
Definition load_command (v : StateView) (l : LoadedFile) : PlayerCommand :=
  Load (lf_file l) (lf_path l) (playlist_title v (lf_file l)) (left_at v (lf_file l)).
(** What the overlay is to say while a file plays: who is waited for, or with
    nobody waited for the outage that is played through. *)
Definition notice (me : UserId) (v : StateView) (peers : list PeerInfo) : option string :=
  if decide (v_now_playing v = None) then None
  else if decide (playback_blockers md4 v peers = []) then grace_summary peers me
  else blocker_summary md4 v peers.

Lemma resume_point_left v file : v_now_playing v = Some file → resume_point v = left_at v file.
Proof.
  unfold resume_point, left_at. intros ->. cbn. destruct (v_saved_position v !! file) as [t|]; [|done]. cbn.
  destruct (Z.ltb_spec 0 t); case_decide; (done || lia).
Qed.
Lemma overlay_notice w v peers : overlay_text md4 w v peers = notice (pw_me w) v peers.
Proof.
  unfold overlay_text, notice, blocker_summary. destruct (v_now_playing v); [|by rewrite decide_True].
  rewrite (decide_False (P := _ = None)) by done. by destruct (playback_blockers md4 v peers).
Qed.

Lemma is_loaded_copy_spec w file path :
  is_loaded_copy w file path = true ↔ pw_loaded w = Some (mkLoadedFile file path false).
Proof.
  unfold is_loaded_copy. destruct (pw_loaded w) as [[f p b]|]; [|done]. cbn.
  rewrite !andb_true_iff, !bool_decide_eq_true, negb_true_iff. split.
  - by intros [[-> ->] ->].
  - by intros [= -> -> ->].
Qed.

Lemma state_load_spec v w w' o : state_load v w = (w', o) →
  pw_loaded w' = to_load w v ∧
  omap command o =
    (if decide (pw_loaded w = to_load w v) then []
     else match to_load w v with Some l => [load_command v l] | None => [] end) ∧
  pw_me w' = pw_me w ∧ pw_last_synced w' = pw_last_synced w ∧
  pw_blocker_overlay_sent w' = pw_blocker_overlay_sent w ∧ pw_chat_seen w' = pw_chat_seen w ∧
  pw_verified_position w' = pw_verified_position w ∧
  pw_eof_recovery w' = (if decide (pw_loaded w = to_load w v) then pw_eof_recovery w else None).
Proof.
  unfold state_load, to_load. destruct (v_now_playing v) as [file|] eqn:Hn;
    [|intros [= <- <-]; by rewrite !decide_True by done].
  destruct (pw_resolved w !! file) as [[path| |]|] eqn:Hr;
    try (intros [= <- <-]; by rewrite !decide_True by done).
  destruct (is_loaded_copy w file path) eqn:Hc; intros [= <- <-].
  - apply is_loaded_copy_spec in Hc. by rewrite !decide_True by done.
  - assert (pw_loaded w ≠ Some (mkLoadedFile file path false)) as Hl
      by (intros Hl; apply is_loaded_copy_spec in Hl; congruence).
    rewrite !decide_False by done. cbn. unfold load_command. cbn. by rewrite (resume_point_left v file).
Qed.

Lemma holds_loaded w v l : pw_loaded w = Some l →
  holds_now_playing w v = bool_decide (v_now_playing v = Some (lf_file l)).
Proof. unfold holds_now_playing. by intros ->. Qed.

(** Whom to follow given what is loaded. *)
Definition followed (loaded : option LoadedFile) (v : StateView) (ref : option (UserId * PlaybackPosition))
    : option (UserId * PlaybackPosition) :=
  match loaded with
  | Some l => if decide (v_now_playing v = Some (lf_file l)) then ref else None
  | None => None
  end.
Lemma state_follow_spec v peers w w' o : state_follow md4 v peers w = (w', o) →
  let f := followed (pw_loaded w) v (position_reference (pw_me w) v peers) in
  pw_last_synced w' = f ∧ pw_loaded w' = pw_loaded w ∧ pw_me w' = pw_me w ∧
  pw_blocker_overlay_sent w' = pw_blocker_overlay_sent w ∧ pw_chat_seen w' = pw_chat_seen w ∧
  pw_verified_position w' = pw_verified_position w ∧ pw_eof_recovery w' = pw_eof_recovery w ∧
  omap command o =
    match f with
    | Some s => if decide (pw_last_synced w = Some s) then []
                else [SyncTo (position_millis s.2) (pos_timestamp s.2) (playback_active md4 v peers)]
    | None => match pw_last_synced w with Some _ => [ReleaseSlew] | None => [] end
    end.
Proof.
  unfold state_follow, followed, holds_now_playing. cbv zeta.
  set (f := match pw_loaded w with Some l => if decide _ then _ else _ | None => None end).
  assert ((if match pw_loaded w with Some l => bool_decide (v_now_playing v = Some (lf_file l)) | None => false end
     then position_reference (pw_me w) v peers else None) = f) as ->.
  { unfold f. destruct (pw_loaded w); [|done].
    case_decide; [by rewrite bool_decide_eq_true_2|by rewrite bool_decide_eq_false_2]. }
  destruct f as [s|]; [case_decide|destruct (pw_last_synced w) eqn:Hs]; intros [= <- <-]; done.
Qed.
Lemma state_overlay_spec v peers w w' o : state_overlay md4 v peers w = (w', o) →
  let key := (lf_file <$> pw_loaded w, notice (pw_me w) v peers) in
  pw_blocker_overlay_sent w' = Some key ∧ pw_loaded w' = pw_loaded w ∧ pw_last_synced w' = pw_last_synced w ∧
  pw_me w' = pw_me w ∧ pw_chat_seen w' = pw_chat_seen w ∧
  pw_verified_position w' = pw_verified_position w ∧ pw_eof_recovery w' = pw_eof_recovery w ∧
  omap command o = if decide (pw_blocker_overlay_sent w = Some key) then [] else [SetBlockerOverlay key.2].
Proof. unfold state_overlay. rewrite overlay_notice. cbv zeta. case_decide; by intros [= <- <-]. Qed.

(** The lines for the player's screen: the chat that came since the last view,
    but our own. *)
Definition chat_lines (w : PlayerWiring) (v : StateView) : list PlayerCommand :=
  match pw_chat_seen w with
  | None => []
  | Some seen => (λ msg, ShowOsd (osd_line msg)) <$> filter (λ msg, chat_sender msg ≠ pw_me w) (drop seen (v_chat v))
  end.
Lemma state_chat_spec v w w' o : state_chat v w = (w', o) →
  pw_chat_seen w' = Some (length (v_chat v)) ∧ pw_loaded w' = pw_loaded w ∧ pw_last_synced w' = pw_last_synced w ∧
  pw_blocker_overlay_sent w' = pw_blocker_overlay_sent w ∧
  pw_verified_position w' = pw_verified_position w ∧ pw_eof_recovery w' = pw_eof_recovery w ∧
  omap command o = chat_lines w v.
Proof.
  unfold state_chat, chat_lines. intros [= <- <-]. split_and!; try done. destruct (pw_chat_seen w) as [seen|]; [|done].
  induction (filter _ _) as [|m l IH]; [done|]. cbn. by rewrite IH.
Qed.

(** Everything a fresh view makes the player do. *)
Definition commands_for (w : PlayerWiring) (v : StateView) (peers : list PeerInfo)
    (ref : option (UserId * PlaybackPosition)) : list PlayerCommand :=
  let loaded := to_load w v in
  let active := playback_active md4 v peers in
  (if decide (pw_loaded w = loaded) then [] else match loaded with Some l => [load_command v l] | None => [] end) ++
  match loaded with
  | Some l => [SetPlaying (bool_decide (v_now_playing v = Some (lf_file l)) && active);
               SetGraceLock (bool_decide (is_Some (outage_grace peers)))]
  | None => []
  end ++
  match followed loaded v ref with
  | Some s => if decide (pw_last_synced w = Some s) then []
              else [SyncTo (position_millis s.2) (pos_timestamp s.2) active]
  | None => match pw_last_synced w with Some _ => [ReleaseSlew] | None => [] end
  end ++
  (if decide (pw_blocker_overlay_sent w = Some (lf_file <$> loaded, notice (pw_me w) v peers)) then []
   else [SetBlockerOverlay (notice (pw_me w) v peers)]) ++
  chat_lines w v.

Lemma on_state_commands w v peers :
  let r := on_state md4 w v peers in
  let ref := position_reference (pw_me w) v peers in
  pw_loaded r.1 = to_load w v ∧ pw_last_synced r.1 = followed (to_load w v) v ref ∧
  pw_blocker_overlay_sent r.1 = Some (lf_file <$> to_load w v, notice (pw_me w) v peers) ∧
  pw_chat_seen r.1 = Some (length (v_chat v)) ∧
  pw_verified_position r.1 = pw_verified_position w ∧
  pw_eof_recovery r.1 = (if decide (pw_loaded w = to_load w v) then pw_eof_recovery w else None) ∧
  omap command r.2 = commands_for w v peers ref.
Proof.
  cbv zeta. destruct (on_state_commanding w v peers) as (w1 & w2 & w3 & w4 & w5 & o1 & o2 & o3 & o5 & o6 & C).
  destruct C as [(w0 & H0 & E1) E2 E3 H4 E5 (w6 & E6 & H7) Hout].
  assert (to_load w0 v = to_load w v) as Ht by (unfold to_load; destruct H0 as (_ & -> & -> & _); done).
  destruct H0 as (Me0 & _ & L0 & S0 & R0 & V0 & O0 & C0).
  apply state_load_spec in E1 as (L1 & D1 & Me1 & S1 & O1 & C1 & V1 & R1). rewrite Ht, L0 in D1, R1. rewrite Ht in L1.
  unfold state_playing in E2. injection E2 as <- <-.
  apply state_follow_spec in E3 as (S3 & L3 & Me3 & O3 & C3 & V3 & R3 & D3).
  cbn [pw_loaded pw_me pw_last_synced pw_blocker_overlay_sent pw_chat_seen pw_verified_position pw_eof_recovery
    pw_grace put_grace] in *.
  assert (pw_me w1 = pw_me w) as Me by congruence. rewrite L1, Me in S3, D3.
  assert (pw_last_synced w1 = pw_last_synced w) as S by congruence. rewrite S in D3.
  destruct H4 as (Me4 & _ & L4 & S4 & R4 & V4 & O4 & C4).
  apply state_overlay_spec in E5 as (O5 & L5 & S5 & Me5 & C5 & V5 & R5 & D5).
  assert (pw_loaded w4 = to_load w v) as L by congruence. assert (pw_me w4 = pw_me w) as Mf by congruence.
  rewrite L, Mf in O5, D5. assert (pw_blocker_overlay_sent w4 = pw_blocker_overlay_sent w) as O by congruence.
  rewrite O in D5.
  apply state_chat_spec in E6 as (C6 & L6 & S6 & O6 & V6 & R6 & D6).
  assert (chat_lines w5 v = chat_lines w v) as Hc by (unfold chat_lines; by replace (pw_chat_seen w5) with (pw_chat_seen w)
    by congruence; replace (pw_me w5) with (pw_me w) by congruence).
  destruct H7 as (Me7 & _ & L7 & S7 & R7 & V7 & O7 & C7). split_and!; try congruence.
  { by rewrite R7, R6, R5, R4, R3, R1, R0. }
  rewrite Hout, !omap_app, D1, D3, D5, D6, Hc. unfold commands_for. rewrite L1. f_equal. f_equal.
  unfold holds_now_playing. cbn [pw_loaded put_grace]. rewrite L1. by destruct (to_load w v).
Qed.


(** ** Playing *)

Definition view_of (e : Event) : option (StateView * list PeerInfo) :=
  match e with
  | EvState v peers | EvResolved _ _ v peers | EvPlayable _ _ v peers => Some (v, peers)
  | _ => None
  end.

(** What the player was last told to put on the screen: a video, under the path
    it has now, or the placeholder of a file. *)
Inductive Screen := Blank | Video (file : Ed2kHash) (path : PathBuf) | Placeholder (file : Ed2kHash).
Definition put_up (e : Event) (s : Screen) (d : Directive) : Screen :=
  match d, e with
  | Player (Load file _ _ _), EvPlaceholder _ _ _ => Placeholder file
  | Player (Load file path _ _), _ => Video file path
  | _, _ => s
  end.
Definition moved (e : Event) (s : Screen) : Screen :=
  match e, s with
  | EvArchived file path, Video f _ => if decide (f = file) then Video f path else s
  | _, _ => s
  end.
Fixpoint screen (s : Screen) (es : list Event) (w : PlayerWiring) : Screen :=
  match es with
  | [] => s
  | e :: es => let r := step md4 w e in screen (moved e (foldl (put_up e) s r.2)) es r.1
  end.

(** The orders that matter to it: loads, and play or pause. *)
Inductive Order := OLoad (file : Ed2kHash) (path : PathBuf) | OPlay (playing : bool).
Definition order (c : PlayerCommand) : option Order :=
  match c with
  | Load file path _ _ => Some (OLoad file path)
  | SetPlaying b => Some (OPlay b)
  | _ => None
  end.
Definition orders (l : list Directive) : list Order := omap order (omap command l).
Definition obey (e : Event) (s : Screen) (o : Order) : Screen :=
  match o, e with
  | OLoad file _, EvPlaceholder _ _ _ => Placeholder file
  | OLoad file path, _ => Video file path
  | OPlay _, _ => s
  end.
Lemma put_up_orders e l : ∀ s, foldl (put_up e) s l = foldl (obey e) s (orders l).
Proof.
  unfold orders. induction l as [|d l IH]; intros s; [done|]. cbn [foldl]. rewrite IH.
  destruct d as [[]| | | | | | | | | | | | | |]; cbn; try done; by destruct e.
Qed.
Lemma orders_app l k : orders (l ++ k) = orders l ++ orders k.
Proof. unfold orders. by rewrite !omap_app. Qed.
Lemma orders_offstage l : Forall offstage l → orders l = [].
Proof. unfold orders. by intros ->%commands_offstage. Qed.

(** What a step does to what is loaded when it orders no load. *)
Definition carried (e : Event) (o o' : option LoadedFile) : Prop :=
  ∀ l', o' = Some l' → ∃ l, o = Some l ∧ lf_file l' = lf_file l ∧
    moved e (Video (lf_file l) (lf_path l)) = Video (lf_file l') (lf_path l').
(** What an order to play presupposes. *)
Definition plays_with (e : Event) (w' : PlayerWiring) (b : bool) : Prop :=
  b = true → ∃ v peers l, view_of e = Some (v, peers) ∧ playback_active md4 v peers = true ∧
    pw_loaded w' = Some l ∧ v_now_playing v = Some (lf_file l).
Inductive ordered (w : PlayerWiring) (e : Event) (w' : PlayerWiring) : list Order → Prop :=
  | ordered_none : carried e (pw_loaded w) (pw_loaded w') → ordered w e w' []
  | ordered_play b : is_Some (view_of e) → pw_loaded w' = pw_loaded w → plays_with e w' b → ordered w e w' [OPlay b]
  | ordered_load l b : is_Some (view_of e) → pw_loaded w' = Some l → plays_with e w' b →
      ordered w e w' [OLoad (lf_file l) (lf_path l); OPlay b]
  | ordered_placeholder file path v : e = EvPlaceholder file path v → w' = w →
      (∀ l, pw_loaded w = Some l → lf_file l ≠ file) → ordered w e w' [OLoad file path].

Lemma carried_same e o : (∀ file path, e ≠ EvArchived file path) → carried e o o.
Proof. intros He l Hl. exists l. split; [done|]. split; [done|]. destruct e; try done. by destruct (He file path). Qed.
Lemma carried_none e o : carried e o None.
Proof. by intros l. Qed.


Lemma orders_chat w v : omap order (chat_lines w v) = [].
Proof. unfold chat_lines. destruct (pw_chat_seen w); [|done]. by induction (filter _ _). Qed.
Lemma orders_commands_for w v peers ref :
  omap order (commands_for w v peers ref) =
  (if decide (pw_loaded w = to_load w v) then []
   else match to_load w v with Some l => [OLoad (lf_file l) (lf_path l)] | None => [] end) ++
  match to_load w v with
  | Some l => [OPlay (bool_decide (v_now_playing v = Some (lf_file l)) && playback_active md4 v peers)]
  | None => []
  end.
Proof.
  unfold commands_for. cbv zeta. rewrite !omap_app, orders_chat.
  assert (∀ o : option (UserId * PlaybackPosition), omap order match o with
    | Some s => if decide (pw_last_synced w = Some s) then []
                else [SyncTo (position_millis s.2) (pos_timestamp s.2) (playback_active md4 v peers)]
    | None => match pw_last_synced w with Some _ => [ReleaseSlew] | None => [] end end = []) as ->
    by (intros [s|]; [by case_decide|by destruct (pw_last_synced w)]).
  destruct (decide (pw_blocker_overlay_sent w = _)); cbn [omap list_omap order]; rewrite !app_nil_r.
  all: by destruct (decide (pw_loaded w = to_load w v)), (to_load w v).
Qed.
Lemma ordered_on_state w v peers : let r := on_state md4 w v peers in ordered w (EvState v peers) r.1 (orders r.2).
Proof.
  cbv zeta. destruct (on_state_commands w v peers) as (L & _ & _ & _ & _ & _ & Hout).
  unfold orders. rewrite Hout, orders_commands_for.
  assert (∀ l, to_load w v = Some l → plays_with (EvState v peers) (on_state md4 w v peers).1
    (bool_decide (v_now_playing v = Some (lf_file l)) && playback_active md4 v peers)) as Hplays.
  { intros l Hl [Hn%bool_decide_eq_true Ha]%andb_true_iff. exists v, peers, l. split; [done|]. by rewrite L. }
  destruct (to_load w v) as [l|] eqn:Hl.
  - destruct (decide (pw_loaded w = Some l)); cbn [app].
    + apply ordered_play; [by eexists|congruence|by apply Hplays].
    + apply ordered_load; [by eexists|done|by apply Hplays].
  - assert (pw_loaded w = None) as Hw.
    { unfold to_load in Hl. destruct (v_now_playing v) as [file|]; [destruct (pw_resolved w !! file) as [[]|]|]; done. }
    rewrite decide_True by done. apply ordered_none. rewrite L. apply carried_none.
Qed.

Lemma offstage_placeholder v peers file : Forall offstage (placeholder_if_playing md4 v peers file).
Proof. unfold placeholder_if_playing. case_decide; by repeat constructor. Qed.
Lemma offstage_on_series_known w file series known v peers :
  Forall offstage (on_series_known md4 w file series known v peers).2.
Proof.
  unfold on_series_known. case_decide; [constructor|]. destruct known; [constructor|].
  destruct series; [|constructor]. cbv zeta. split_if; [constructor|]. split_if; [apply offstage_placeholder|].
  destruct (resolve_or_create_series_entry md4 v file) as [[entry create]|]; [|constructor]. cbn [snd].
  apply Forall_app. split; [destruct create; by repeat constructor|].
  apply Forall_app. split; [by repeat constructor|apply offstage_placeholder].
Qed.
Lemma offstage_evicted w files : Forall offstage (note_evicted w files).2.
Proof.
  unfold note_evicted. assert (∀ acc : PlayerWiring * list Directive, Forall offstage acc.2 → Forall offstage (foldl (λ acc file,
    match pw_resolved acc.1 !! file with
    | Some _ => (put_resolved (delete file (pw_resolved acc.1)) acc.1,
                 acc.2 ++ [DMutate (SetFileAvailability file AvMissing)])
    | None => acc
    end) acc files).2) as Hf; [|apply Hf; constructor].
  induction files as [|f files IH]; intros acc Hacc; [done|]. cbn [foldl]. apply IH.
  destruct (_ !! f); [|done]. apply Forall_app. split; [done|by repeat constructor].
Qed.


Lemma ordered_quiet w e r : (∀ file path, e ≠ EvArchived file path) → Forall offstage r.2 →
  (pw_loaded r.1 = pw_loaded w ∨ pw_loaded r.1 = None) → ordered w e r.1 (orders r.2).
Proof.
  intros He Ho Hl. rewrite orders_offstage by done. apply ordered_none.
  destruct Hl as [->| ->]; [by apply carried_same|apply carried_none].
Qed.

Ltac quietly := lazymatch goal with |- ordered ?w ?e ?w' (orders ?o) => apply (ordered_quiet w e (w', o)) end.

Lemma loaded_on_series_known w file series known v peers :
  pw_loaded (on_series_known md4 w file series known v peers).1 = pw_loaded w.
Proof. unfold on_series_known. case_decide; [done|]. cbv zeta. by repeat case_match. Qed.
Lemma loaded_evicted w files : pw_loaded (note_evicted w files).1 = pw_loaded w.
Proof.
  unfold note_evicted. assert (∀ acc : PlayerWiring * list Directive, pw_loaded acc.1 = pw_loaded w → pw_loaded (foldl (λ acc file,
    match pw_resolved acc.1 !! file with
    | Some _ => (put_resolved (delete file (pw_resolved acc.1)) acc.1,
                 acc.2 ++ [DMutate (SetFileAvailability file AvMissing)])
    | None => acc
    end) acc files).1 = pw_loaded w) as Hf; [|by apply Hf].
  induction files as [|f files IH]; intros acc Hacc; [done|]. cbn [foldl]. apply IH. by destruct (_ !! f).
Qed.
Lemma backstage_indexed w files v : backstage w (on_library_indexed w files v).
Proof. apply backstage_each. intros. apply backstage_lookup. Qed.
Lemma loaded_copy_offer_closed w file v peers :
  pw_loaded (on_copy_offer_closed md4 w file v peers).1 = pw_loaded w ∧
  Forall offstage (on_copy_offer_closed md4 w file v peers).2.
Proof.
  unfold on_copy_offer_closed. cbv zeta. destruct (_ !! file) as [[series known]|]; [|by split].
  by rewrite loaded_on_series_known; split; [|apply offstage_on_series_known].
Qed.

Lemma recorded_no_order w v p : orders (maybe_record_watched w v p).2 = [] ∧
  pw_loaded (maybe_record_watched w v p).1 = pw_loaded w.
Proof.
  unfold maybe_record_watched. destruct (v_now_playing v) as [file|]; [|done]. case_decide; [done|].
  destruct (entry_of v file); [|done]. destruct (pfs_duration_millis _); [|done]. by split_if.
Qed.
Lemma ordered_on_player w output v : let r := on_player w output v in ordered w (EvPlayer output v) r.1 (orders r.2).
Proof.
  cbv zeta. destruct output; cbn [on_player]; try (quietly; [done|by repeat constructor|by left]).
  - quietly; [done|destruct (pw_grace w); by repeat constructor|by left].
  - quietly; [done|destruct (if holds_now_playing w v then _ else _); by repeat constructor|left].
    by destruct (if holds_now_playing w v then _ else _).
  - unfold on_position_tick. destruct (negb _); [quietly; [done|constructor|by left]|]. cbv zeta.
    match goal with |- context [maybe_record_watched ?x v ?p] => set (w1 := x) end.
    assert (pw_loaded w1 = pw_loaded w) as H1 by (unfold w1; by repeat split_if).
    pose proof (recorded_no_order w1 v position_millis) as [Ho Hl].
    destruct (maybe_record_watched w1 v position_millis) as [w' more]. cbn [fst snd] in *.
    change (orders (?x :: more)) with (orders more). rewrite Ho. apply ordered_none. rewrite Hl, H1. by apply carried_same.
  - quietly; [done|destruct (existsb _ _); by repeat constructor|by left].
  - unfold on_eof. destruct (negb _); [quietly; [done|constructor|by left]|]. cbv zeta.
    split_if; cbn [fst snd]; apply ordered_none; by apply carried_same.
  - unfold on_load_failed. cbv zeta. destruct (bool_decide (lf_file <$> pw_loaded w = Some file)); cbn [andb];
      [split_if|]; try (destruct (entry_of v file)); quietly; try done; try (by repeat constructor);
      first [by left|by right].
  - quietly; [done| |by left]. cbn [snd].
    destruct (adopt_dragged_file w path v) as [d|] eqn:Ha; [|constructor]. apply Forall_singleton.
    unfold adopt_dragged_file in Ha. apply bind_Some in Ha as (f & _ & Ha). destruct (holds_now_playing w v); [done|].
    apply bind_Some in Ha as (want & _ & (got & _ & Ha)%bind_Some).
    destruct (eq_ignore_ascii_case _ _); by simplify_eq/=.
Qed.

Lemma ordered_on_resolved w file res v peers :
  let r := on_resolved md4 w file res v peers in ordered w (EvResolved file res v peers) r.1 (orders r.2).
Proof.
  cbv zeta. unfold on_resolved. cbv zeta. split_if; [quietly; [done|constructor|by left]|].
  destruct res as [path| |]; cbn [fst snd]; try (quietly; [done|by repeat constructor|by left]).
  split_if; cbn [fst snd]; [|quietly; [done|by repeat constructor|by left]].
  apply andb_true_iff in Heqb0 as [Hn%bool_decide_eq_true _].
  apply (ordered_load _ _ _ (mkLoadedFile file path false)); [by eexists|done|].
  intros Ha. by exists v, peers, (mkLoadedFile file path false).
Qed.
Lemma ordered_load_partial w w0 file path0 path v peers : v_now_playing v = Some file →
  (pw_loaded w = pw_loaded w0 ∨ pw_loaded w = None) →
  let r := load_partial md4 w file path v peers in ordered w0 (EvPlayable file path0 v peers) r.1 (orders r.2).
Proof.
  intros Hn Hw. cbv zeta. unfold load_partial. cbv zeta. split_if; [quietly; [done|constructor|done]|]. cbn [fst snd].
  apply (ordered_load _ _ _ (mkLoadedFile file path true)); [by eexists|done|].
  intros Ha. by exists v, peers, (mkLoadedFile file path true).
Qed.
Lemma ordered_playable w file path v peers :
  let r := on_download_playable md4 w file path v peers in ordered w (EvPlayable file path v peers) r.1 (orders r.2).
Proof.
  cbv zeta. unfold on_download_playable. destruct (negb (bool_decide (v_now_playing v = Some file))) eqn:Hn;
    [quietly; [done|constructor|by left]|].
  apply negb_false_iff, bool_decide_eq_true in Hn. destruct (negb _); [by apply ordered_load_partial; [|left]|].
  destruct (negb _); [quietly; [done|constructor|by left]|].
  destruct (pw_verified_position w) as [[f t]|]; [case_decide|]; try (by apply ordered_load_partial; [|right]).
  cbn [fst snd]. apply ordered_none. by apply carried_same.
Qed.
Lemma ordered_placeholder_ready w file path v :
  ordered w (EvPlaceholder file path v) w (orders (on_placeholder_ready w file path v)).
Proof.
  unfold on_placeholder_ready. destruct (bool_decide (v_now_playing v = Some file)) eqn:Hn; cbn [andb];
    [|apply ordered_none; by apply carried_same].
  apply bool_decide_eq_true in Hn.
  destruct (holds_now_playing w v) eqn:Hh; cbn [negb]; [apply ordered_none; by apply carried_same|].
  apply (ordered_placeholder _ _ _ file path v); [done|done|]. intros l Hl Hf.
  rewrite (holds_loaded w v l Hl) in Hh. apply bool_decide_eq_false in Hh. congruence.
Qed.
Lemma ordered_archived w file path : ordered w (EvArchived file path) (on_archived w file path) [].
Proof.
  apply ordered_none. unfold on_archived, carried. cbn [pw_loaded put_resolved].
  destruct (pw_loaded w) as [l|] eqn:Hl; [|cbn; intros l'; congruence].
  destruct (decide (lf_file l = file)) as [Hf|Hf]; cbn; intros l' Hl'.
  - injection Hl' as <-. exists l. split; [done|]. split; [done|]. cbn. by rewrite decide_True, Hf.
  - rewrite Hl in Hl'. injection Hl' as <-. exists l. split; [done|]. split; [done|]. cbn. by rewrite decide_False.
Qed.
Lemma ordered_local_file w file path in_place :
  let r := note_local_file w file path in_place in ordered w (EvLocalFile file path in_place) r.1 (orders r.2).
Proof.
  cbv zeta. unfold note_local_file. cbn [fst snd]. apply ordered_none. intros l'.
  assert (∀ l b, pw_loaded w = Some l → pw_loaded (put_loaded (Some (mkLoadedFile (lf_file l) (lf_path l) b)) w) = Some l' →
    ∃ l, pw_loaded w = Some l ∧ lf_file l' = lf_file l ∧ Video (lf_file l) (lf_path l) = Video (lf_file l') (lf_path l'))
    as Hsame by (intros l b Hl Hl'; injection Hl' as <-; by exists l).
  cbn [moved]. cbn. destruct (pw_loaded w) as [l|] eqn:Hl; cbn; [|congruence].
  split_if; [|cbn; rewrite Hl; intros [= <-]; by exists l].
  destruct in_place; [|done]. destruct (pw_eof_recovery w) as [[f o]|]; [destruct (decide (f = file))|]; cbn; try done.
  all: intros Hl'; by apply (Hsame l false).
Qed.

Lemma step_ordered w e : ordered w e (step md4 w e).1 (orders (step md4 w e).2).
Proof.
  destruct e; cbn [step].
  - apply ordered_on_state.
  - apply ordered_on_player.
  - apply ordered_on_resolved.
  - apply ordered_local_file.
  - destruct (backstage_indexed w files v) as [(_ & _ & Hl & _) Ho]. quietly; [done|done|by left].
  - quietly; [done|apply offstage_on_series_known|left; apply loaded_on_series_known].
  - quietly; [done|constructor|by left].
  - destruct (loaded_copy_offer_closed w file v peers). quietly; [done|done|by left].
  - quietly; [done|apply offstage_evicted|left; apply loaded_evicted].
  - apply ordered_archived.
  - apply ordered_placeholder_ready.
  - apply ordered_playable.
  - quietly; [done|constructor|by left].
  - quietly; [done|constructor|by left].
  - quietly; [done|constructor|by left].
  - quietly; [done|constructor|by left].
Qed.


(** The screen shows what is loaded, unless the placeholder of another file came
    over it. *)
Definition faithful (w : PlayerWiring) (s : Screen) : Prop :=
  ∀ l, pw_loaded w = Some l →
    s = Video (lf_file l) (lf_path l) ∨ ∃ file, s = Placeholder file ∧ file ≠ lf_file l.

Lemma faithful_carried e w w' s : carried e (pw_loaded w) (pw_loaded w') → faithful w s → faithful w' (moved e s).
Proof.
  intros Hc Hs l' Hl'. destruct (Hc l' Hl') as (l & Hl & Hf & Hm).
  destruct (Hs l Hl) as [->|(file & -> & Hne)]; [left; exact Hm|]. right. exists file.
  split; [by destruct e|congruence].
Qed.
Lemma moved_view e s : is_Some (view_of e) → moved e s = s.
Proof. by destruct e; intros [? ?]. Qed.
Lemma step_faithful w e s : faithful w s →
  faithful (step md4 w e).1 (moved e (foldl (put_up e) s (step md4 w e).2)).
Proof.
  intros Hs. rewrite put_up_orders. pose proof (step_ordered w e) as Ho.
  destruct Ho as [Hc|b Hv Hl _|l b Hv Hl _|file path v -> Hw Hne]; cbn [foldl obey].
  - by eapply faithful_carried.
  - rewrite moved_view by done. intros l'. rewrite Hl. apply Hs.
  - rewrite moved_view by done. intros l'. rewrite Hl. intros [= <-]. left. by destruct e; destruct Hv.
  - intros l'. cbn [moved]. rewrite Hw. intros Hl'. right. exists file. split; [done|]. intros ->. by apply (Hne l').
Qed.
Lemma run_cons e es w :
  run md4 (e :: es) w = ((run md4 es (step md4 w e).1).1, (step md4 w e).2 ++ (run md4 es (step md4 w e).1).2).
Proof. apply each_cons. Qed.
Lemma run_faithful es : ∀ w s, faithful w s → faithful (run md4 es w).1 (screen s es w).
Proof.
  induction es as [|e es IH]; intros w s Hs; [done|]. rewrite run_cons. cbn [fst screen].
  apply IH. by apply step_faithful.
Qed.
Lemma new_faithful me : faithful (new_wiring me) Blank.
Proof. by intros l. Qed.

Lemma playing_ordered w e pre post : (step md4 w e).2 = pre ++ Player (SetPlaying true) :: post →
  plays_with e (step md4 w e).1 true ∧
  ((orders pre = [] ∧ pw_loaded (step md4 w e).1 = pw_loaded w) ∨
   ∃ l, orders pre = [OLoad (lf_file l) (lf_path l)] ∧ pw_loaded (step md4 w e).1 = Some l).
Proof.
  intros Hout. pose proof (step_ordered w e) as Ho. rewrite Hout, orders_app in Ho.
  change (orders (Player (SetPlaying true) :: post)) with (OPlay true :: orders post) in Ho.
  generalize dependent (orders pre). generalize (orders post). intros k o Ho. inversion Ho as [Hc Hn|b Hv Hl Hp Hn|l b Hv Hl Hp Hn|file path v He Hw Hne Hn].
  - by destruct o.
  - destruct o as [|x o]; simplify_list_eq; [by auto|]. by destruct o.
  - destruct o as [|x [|y o]]; simplify_list_eq; [eauto|by destruct o].
  - destruct o as [|x [|y o]]; simplify_list_eq.
Qed.

(** ** Statements *)

(** C12. The player is told to play only while the group plays and what the session
    has recorded as loaded is the playing file, over any session and whatever
    event it was. What is on the screen at that moment is that file's video,
    under the path it was loaded from or archived to; or else the placeholder
    of another file: a placeholder is put up by a load that the record does not
    see, so going back to the recorded file plays over it. A placeholder of the
    playing file is never told to play. *)
Theorem plays_only_with_the_group me es e pre post :
  let w := (run md4 es (new_wiring me)).1 in
  (step md4 w e).2 = pre ++ Player (SetPlaying true) :: post →
  ∃ v peers l, view_of e = Some (v, peers) ∧ playback_active md4 v peers = true ∧
    pw_loaded (step md4 w e).1 = Some l ∧ v_now_playing v = Some (lf_file l) ∧
    let s := foldl (put_up e) (screen Blank es (new_wiring me)) pre in
    s = Video (lf_file l) (lf_path l) ∨ ∃ file, s = Placeholder file ∧ file ≠ lf_file l.
Proof.
  intros w Hout. destruct (playing_ordered w e pre post Hout) as [Hp Ho].
  destruct (Hp eq_refl) as (v & peers & l & Hv & Ha & Hl & Hn). exists v, peers, l. do 4 (split; [done|]). cbv zeta.
  rewrite put_up_orders. destruct Ho as [[-> Hw]|(l' & -> & Hl')]; cbn [foldl obey].
  - apply (run_faithful es _ _ (new_faithful me)). fold w. congruence.
  - left. assert (l' = l) as -> by congruence. by destruct e.
Qed.

(** C13. What a fresh view makes the player do: every command, exactly and in
    order. Load the verified copy of the playing file, where it was left, unless
    it is loaded; play or pause and lock the controls during an outage;
    follow the reference, or release the slew when there is none any more;
    change the overlay when what is loaded or what it says has changed; show
    the chat that is new and not our own. The reference is the one the rules
    name ([reference]), and they name only one. The wording of titles, overlay
    and chat lines is the code's ([playlist_title], [blocker_summary],
    [grace_summary], [osd_line]). *)
Theorem on_state_drives_player w v peers :
  let r := on_state md4 w v peers in
  ∃ ref, (∀ o, reference (pw_me w) v peers o ↔ o = ref) ∧
    omap command r.2 = commands_for w v peers ref ∧
    pw_loaded r.1 = to_load w v ∧ pw_last_synced r.1 = followed (to_load w v) v ref ∧
    pw_blocker_overlay_sent r.1 = Some (lf_file <$> to_load w v, notice (pw_me w) v peers) ∧
    pw_chat_seen r.1 = Some (length (v_chat v)).
Proof.
  cbv zeta. destruct (on_state_commands w v peers) as (Hl & Hs & Ho & Hc & _ & _ & Hout).
  exists (position_reference (pw_me w) v peers). split; [|done]. intros o. split.
  - intros Hr. eapply reference_unique; [exact Hr|apply position_reference_sound].
  - intros ->. apply position_reference_sound.
Qed.
End player.

(** ** Examples *)

Lemma reference_follows_nobody_witness : reference ex_you ex_view ex_peers None.
Proof.
  refine (reference_follows_nobody ex_me ex_view ex_peers ex_you (mkPlaybackPosition 9000 5 ex_file) _).
  exact (position_reference_sound ex_me ex_view ex_peers).
Defined.

(** The playing file is verified, then a placeholder of another comes up while
    that one plays, and the group goes back: the player plays on with no load. *)
Definition ex_other : Ed2kHash := mkEd2kHash [2].
Definition ex_other_view : StateView :=
  mkStateView ex_playlist ∅ (Some ex_other) None None IntentPlaying ∅ ∅ ∅ ∅ ∅ ∅ ∅ ∅ ∅ [] ∅ ∅ None ∅.
Definition ex_back : list Event :=
  [EvResolved ex_file (Verified "/a.mkv") ex_view ex_peers; EvPlaceholder ex_other "/tmp/p.png" ex_other_view].
Example ex_back_commands :
  omap command (@step ex_digest ascii_classes (@run ex_digest ascii_classes ex_back (new_wiring ex_me)).1
    (EvState ex_view ex_peers)).2 =
  [SetPlaying true; SetGraceLock false; SyncTo 9000 5 true; SetBlockerOverlay None].
Proof. vm_compute. reflexivity. Qed.
Lemma plays_only_with_the_group_witness :
  let w := (@run ex_digest ascii_classes ex_back (new_wiring ex_me)).1 in
  ∃ v peers l, view_of (EvState ex_view ex_peers) = Some (v, peers) ∧ playback_active ex_digest v peers = true ∧
    pw_loaded (@step ex_digest ascii_classes w (EvState ex_view ex_peers)).1 = Some l ∧
    v_now_playing v = Some (lf_file l) ∧
    let s := foldl (put_up (EvState ex_view ex_peers)) (@screen ex_digest ascii_classes Blank ex_back (new_wiring ex_me))
      (take 2 (@step ex_digest ascii_classes w (EvState ex_view ex_peers)).2) in
    s = Video (lf_file l) (lf_path l) ∨ ∃ file, s = Placeholder file ∧ file ≠ lf_file l.
Proof.
  apply (@plays_only_with_the_group ex_digest ascii_classes ex_me ex_back (EvState ex_view ex_peers)
    (take 2 (@step ex_digest ascii_classes (@run ex_digest ascii_classes ex_back (new_wiring ex_me)).1 (EvState ex_view ex_peers)).2)
    (drop 3 (@step ex_digest ascii_classes (@run ex_digest ascii_classes ex_back (new_wiring ex_me)).1 (EvState ex_view ex_peers)).2)).
  vm_compute. reflexivity.
Defined.
