(* ===== verification/SessionLive.v ===== *)
(** * The session policy: progress

    A file that is not found is asked for again until it is, whatever comes
    between; recovery from false ends of file is bounded by what the player, the
    download and the snapshots give; the download want-set and the automatic
    opt-out are exact. *)

From S2P Require Import Prelude Text Types View Playlist Derive SeriesIdentity Message Sync Transfer F64 Drift Spoiler Hash Download Session SessionCorrect SessionPlayer.

Section progress.
Context (md4 : Bytes → Z) `{CharClasses}.

(** ** Resolving *)

(** Blocks that leave the resolutions and the pending requests alone. *)
Definition keeps_resolves (w w' : PlayerWiring) : Prop :=
  pw_resolved w' = pw_resolved w ∧ pw_pending_resolve w' = pw_pending_resolve w.
#[local] Instance keeps_resolves_po : PreOrder keeps_resolves.
Proof. split; [done|]. intros w1 w2 w3 [] []. split; congruence. Qed.

Lemma keeps_each {A} (f : PlayerWiring → A → PlayerWiring * list Directive) l w :
  (∀ w x, keeps_resolves w (f w x).1) → keeps_resolves w (each f l w).1.
Proof.
  revert w. induction l as [|x l IH]; intros w Hf; [done|]. rewrite each_cons. cbn [fst].
  transitivity (f w x).1; [apply Hf|by apply IH].
Qed.

Lemma keeps_lookups v w : keeps_resolves w (state_lookups v w).1.
Proof. apply keeps_each. intros. unfold maybe_request_lookup. cbv zeta. by split_if. Qed.
Lemma keeps_watchers v w : keeps_resolves w (state_watchers v w).1.
Proof. apply keeps_each. intros w' [id e]. unfold write_watcher_pref. case_decide; [done|]. by split_if. Qed.
Lemma keeps_check w v : keeps_resolves w (maybe_check_series_known w v).1.
Proof. unfold maybe_check_series_known. by repeat case_match. Qed.
Lemma keeps_offer w v : keeps_resolves w (maybe_offer_local_copies md4 w v).1.
Proof. unfold maybe_offer_local_copies. by repeat (case_match || case_decide). Qed.
Lemma keeps_plan_download w v peers : keeps_resolves w (plan_download md4 w v peers).1.
Proof. by destruct (plan_download_frame md4 w v peers) as (? & ? & ->). Qed.
Lemma keeps_load v w : keeps_resolves w (state_load v w).1.
Proof. unfold state_load. by repeat case_match. Qed.
Lemma keeps_playing v peers w : keeps_resolves w (state_playing md4 v peers w).1.
Proof. done. Qed.
Lemma keeps_follow v peers w : keeps_resolves w (state_follow md4 v peers w).1.
Proof.
  unfold state_follow. cbv zeta. destruct (if holds_now_playing w v then _ else _); [by case_decide|].
  by destruct (pw_last_synced w).
Qed.
Lemma keeps_drift v peers w : keeps_resolves w (state_drift md4 v peers w).1.
Proof. unfold state_drift, report_drift. by repeat case_match. Qed.
Lemma keeps_overlay v peers w : keeps_resolves w (state_overlay md4 v peers w).1.
Proof. unfold state_overlay. cbv zeta. by case_decide. Qed.
Lemma keeps_chat v w : keeps_resolves w (state_chat v w).1.
Proof. done. Qed.
Lemma keeps_narrate w v peers : keeps_resolves w (narrate md4 w v peers).1.
Proof. unfold narrate. cbv zeta. destruct (pw_narrator w); [|done]. by split_if. Qed.
#[local] Hint Resolve keeps_lookups keeps_watchers keeps_check keeps_offer keeps_plan_download keeps_load keeps_playing keeps_follow
  keeps_drift keeps_overlay keeps_chat keeps_narrate : session.




(** ** Asking again *)









(** ** False ends of file *)

Definition is_seek_back (d : Directive) : bool :=
  match d with Player (RecoverFalseEof (Some _)) => true | _ => false end.
Definition seek_backs (l : list Directive) : Z := tally is_seek_back l.
Definition loads (l : list Directive) : Z :=
  tally (λ d, match d with Player (Load _ _ _ _) => true | _ => false end) l.

(** Whether some end of file would seek back: there is a verified position and
    the last recovery did not go there. *)
Definition seek_due (w : PlayerWiring) : Z :=
  match pw_verified_position w with
  | Some (file, target) => if decide (pw_eof_recovery w = Some (file, Some target)) then 0 else 1
  | None => 0
  end.
Lemma seek_due_range w : 0 ≤ seek_due w ≤ 1.
Proof. unfold seek_due. repeat (case_match || case_decide); lia. Qed.

(** What may let recovery seek once more: a position reported, a window
    refilled, a completed file, a load. *)
Definition chances (e : Event) (out : list Directive) : Z :=
  match e with
  | EvPlayer (PositionTick _ _) _ => 1
  | EvPlayable _ _ _ _ => 1
  | EvLocalFile _ _ _ => 1
  | EvState _ _ => loads out
  | _ => 0
  end.

Lemma tally_none {A} (P : A → bool) l : Forall (λ x, P x = false) l → tally P l = 0.
Proof. unfold tally. induction 1 as [|x l Hx _ IH]; [done|]. cbn. by rewrite Hx. Qed.
Lemma tally_nonneg {A} (P : A → bool) l : 0 ≤ tally P l.
Proof. unfold tally. lia. Qed.

(** A step that neither seeks back nor changes what recovery looks at. *)
Lemma due_unchanged w c (r : PlayerWiring * list Directive) :
  pw_verified_position r.1 = pw_verified_position w → pw_eof_recovery r.1 = pw_eof_recovery w →
  Forall (λ d, is_seek_back d = false) r.2 → 0 ≤ c →
  seek_backs r.2 + seek_due r.1 ≤ seek_due w + c.
Proof.
  intros Hv He Hs Hc. unfold seek_backs. rewrite tally_none by done. unfold seek_due. rewrite Hv, He. lia.
Qed.
(** A step with a chance and no seek. *)
Lemma due_chance w c (r : PlayerWiring * list Directive) :
  Forall (λ d, is_seek_back d = false) r.2 → 1 ≤ c →
  seek_backs r.2 + seek_due r.1 ≤ seek_due w + c.
Proof.
  intros Hs Hc. unfold seek_backs. rewrite tally_none by done.
  pose proof (seek_due_range r.1). pose proof (seek_due_range w). lia.
Qed.

Lemma no_seek_commands (l : list Directive) :
  (∀ t, RecoverFalseEof (Some t) ∉ omap command l) → Forall (λ d, is_seek_back d = false) l.
Proof.
  intros Hn. apply Forall_forall. intros d Hd. destruct (is_seek_back d) eqn:Hs; [|done]. exfalso.
  destruct d as [[| | | | |[t|]| | | | |]| | | | | | | | | | | | | |]; try done.
  apply (Hn t), list_elem_of_omap. by eexists.
Qed.
Lemma no_seek_offstage l : Forall offstage l → Forall (λ d, is_seek_back d = false) l.
Proof. intros Hl. eapply Forall_impl; [exact Hl|]. by intros [[]| | | | | | | | | | | | | |]. Qed.

Lemma commands_for_no_seek w v peers ref t : RecoverFalseEof (Some t) ∉ commands_for md4 w v peers ref.
Proof.
  unfold commands_for. cbv zeta. rewrite !not_elem_of_app. split_and!.
  - destruct (decide _); [by intros ?%elem_of_nil|].
    destruct (to_load w v); [by intros ?%list_elem_of_singleton|by intros ?%elem_of_nil].
  - destruct (to_load w v); [|by intros ?%elem_of_nil]. by intros [?|?%list_elem_of_singleton]%elem_of_cons.
  - destruct (followed _ _ _); [destruct (decide _)|destruct (pw_last_synced w)];
      first [by intros ?%elem_of_nil|by intros ?%list_elem_of_singleton].
  - destruct (decide _); [by intros ?%elem_of_nil|by intros ?%list_elem_of_singleton].
  - unfold chat_lines. destruct (pw_chat_seen w); [|by intros ?%elem_of_nil].
    by intros (? & ? & _)%list_elem_of_fmap.
Qed.
Lemma on_state_no_seek w v peers : Forall (λ d, is_seek_back d = false) (on_state md4 w v peers).2.
Proof.
  apply no_seek_commands. intros t. destruct (on_state_commands md4 w v peers) as (_ & _ & _ & _ & _ & _ & ->).
  apply commands_for_no_seek.
Qed.

Lemma loads_commands (l : list Directive) :
  loads l = tally (λ c, match c with Load _ _ _ _ => true | _ => false end) (omap command l).
Proof.
  unfold loads, tally. induction l as [|d l IH]; [done|].
  destruct d as [[]| | | | | | | | | | | | | |]; cbn in *; lia.
Qed.
Lemma due_on_state w v peers :
  let r := on_state md4 w v peers in
  seek_backs r.2 + seek_due r.1 ≤ seek_due w + loads r.2.
Proof.
  cbv zeta. destruct (on_state_commands md4 w v peers) as (_ & _ & _ & _ & Hv & He & Hout).
  destruct (decide (pw_loaded w = to_load w v)) as [Heq|Hne].
  - apply due_unchanged; [done..|apply on_state_no_seek|apply tally_nonneg].
  - apply due_chance; [apply on_state_no_seek|]. rewrite loads_commands, Hout. unfold commands_for. cbv zeta.
    rewrite decide_False by done.
    assert (∃ l, to_load w v = Some l) as [l ->].
    { destruct (to_load w v) as [l|] eqn:Ht; [by exists l|]. exfalso. apply Hne.
      unfold to_load in Ht. repeat case_match; done. }
    rewrite tally_app. match goal with |- 1 ≤ ?a + ?b => assert (a = 1 ∧ 0 ≤ b) by (by split; [|apply tally_nonneg]); lia end.
Qed.

Lemma seek_backs_recover o : seek_backs [Player (RecoverFalseEof o)] = match o with Some _ => 1 | None => 0 end.
Proof. by destruct o. Qed.

(** Recovery is of the partial file that is loaded. *)
Definition recovers_loaded (w : PlayerWiring) : Prop :=
  ∀ file issued l, pw_eof_recovery w = Some (file, issued) → pw_loaded w = Some l → lf_partial l = true → lf_file l = file.
Lemma due_eof w file v : recovers_loaded w →
  seek_backs (on_eof w file v).2 + seek_due (on_eof w file v).1 ≤ seek_due w.
Proof.
  intros Hrec. unfold on_eof. destruct (speaks_for_now_playing w v file) eqn:Hs; [|done]. cbn [negb]. cbv zeta.
  destruct (speaks_holds _ _ _ Hs) as (_ & l & Hl & Hf). rewrite Hl. split_if; [|done].
  apply andb_true_iff in Heqb as [Hpart _]. unfold seek_due.
  cbn [fst snd pw_verified_position pw_eof_recovery put_eof_recovery]. rewrite seek_backs_recover.
  specialize (λ f i Hr, Hrec f i l Hr Hl Hpart). rewrite Hf in Hrec.
  destruct (pw_verified_position w) as [[f target]|]; [|done].
  destruct (decide (f = file)) as [->|Hne].
  - destruct (pw_eof_recovery w) as [[g issued]|] eqn:He.
    + specialize (Hrec g issued eq_refl). subst g. rewrite (decide_True (P := file = file)) by done.
      destruct (decide (issued = Some target)) as [->|Hi]; [done|].
      rewrite decide_True by done. rewrite decide_False by congruence. lia.
    + rewrite (decide_False (P := None = Some target)) by done. rewrite decide_True by done.
      rewrite decide_False by done. lia.
  - rewrite decide_False by congruence. rewrite decide_False; [lia|]. intros He. by specialize (Hrec _ _ He).
Qed.

(** Events that leave recovery alone. *)
Definition keeps_recovery (w w' : PlayerWiring) : Prop :=
  pw_verified_position w' = pw_verified_position w ∧ pw_eof_recovery w' = pw_eof_recovery w.
Lemma due_keeps w r : keeps_recovery w r.1 → Forall offstage r.2 →
  seek_backs r.2 + seek_due r.1 ≤ seek_due w + 0.
Proof. intros [Hv He] Ho. by apply due_unchanged; [..|apply no_seek_offstage|]. Qed.

Lemma recovery_on_resolved w file r v peers : keeps_recovery w (on_resolved md4 w file r v peers).1.
Proof.
  unfold on_resolved, keeps_recovery. cbv zeta. split_if; [done|]. destruct r; cbn [fst snd]; [|done..]. by split_if.
Qed.
Lemma recovery_load_failed w file v : keeps_recovery w (on_load_failed w file v).1.
Proof.
  unfold on_load_failed, keeps_recovery. cbv zeta. destruct (bool_decide _); cbn [andb]; [split_if|];
    try (destruct (entry_of v file)); done.
Qed.
Lemma recovery_on_series_known w file series known v peers :
  keeps_recovery w (on_series_known md4 w file series known v peers).1.
Proof. unfold on_series_known, keeps_recovery. case_decide; [done|]. cbv zeta. by repeat case_match. Qed.
Lemma recovery_offer_closed w file v peers : keeps_recovery w (on_copy_offer_closed md4 w file v peers).1.
Proof.
  unfold on_copy_offer_closed. cbv zeta. destruct (_ !! file) as [[series known]|]; [|done].
  match goal with |- keeps_recovery _ (on_series_known _ ?x ?f ?s ?k _ _).1 =>
    exact (recovery_on_series_known x f s k v peers) end.
Qed.
Lemma recovery_evicted w files : keeps_recovery w (note_evicted w files).1.
Proof.
  unfold note_evicted. assert (∀ acc : PlayerWiring * list Directive, keeps_recovery w acc.1 → keeps_recovery w (foldl (λ acc file,
    match pw_resolved acc.1 !! file with
    | Some _ => (put_resolved (delete file (pw_resolved acc.1)) acc.1,
                 acc.2 ++ [DMutate (SetFileAvailability file AvMissing)])
    | None => acc
    end) acc files).1) as Hf; [|by apply Hf].
  induction files as [|f files IH]; intros acc Hacc; [done|]. cbn [foldl]. apply IH. by destruct (_ !! f).
Qed.
Lemma recovery_indexed w files v : keeps_recovery w (on_library_indexed w files v).1.
Proof.
  apply (each_inv (λ w', keeps_recovery w w') (λ _, True)); [done|]. intros w' x _ Hw'.
  unfold maybe_request_lookup. cbv zeta. split_if; (split; [exact Hw'|by apply Forall_true]).
Qed.

Lemma tick_no_seek w file p v : Forall (λ d, is_seek_back d = false) (on_position_tick w file p v).2.
Proof.
  apply Forall_forall. intros d Hd. destruct (tick_speaks w file p v d Hd) as (l & _ & _ & Hs).
  by destruct d.
Qed.


Lemma load_partial_no_seek w file path v peers :
  Forall (λ d, is_seek_back d = false) (load_partial md4 w file path v peers).2.
Proof. unfold load_partial. cbv zeta. split_if; by repeat constructor. Qed.
Lemma due_playable w file path v peers :
  let r := on_download_playable md4 w file path v peers in seek_backs r.2 + seek_due r.1 ≤ seek_due w + 1.
Proof.
  cbv zeta. unfold on_download_playable. destruct (negb _); [by apply due_chance|].
  destruct (negb _); [by apply due_chance; [apply load_partial_no_seek|]|]. destruct (negb _); [by apply due_chance|].
  destruct (pw_verified_position w) as [[f t]|] eqn:Hv; [case_decide|];
    try (match goal with |- context [load_partial _ ?x] => set (w1 := x) end;
         pose proof (seek_due_range w); pose proof (seek_due_range (load_partial md4 w1 file path v peers).1);
         unfold seek_backs; rewrite tally_none by apply load_partial_no_seek; lia).
  subst f. unfold seek_due. cbn [fst snd pw_verified_position pw_eof_recovery put_eof_recovery].
  rewrite Hv, decide_True by done. rewrite seek_backs_recover. case_decide; lia.
Qed.

Lemma due_on_player w output v : recovers_loaded w →
  let r := on_player w output v in
  seek_backs r.2 + seek_due r.1 ≤ seek_due w + chances (EvPlayer output v) r.2.
Proof.
  intros He. cbv zeta. destruct output; cbn [on_player chances].
  1,2,7,11,12: apply due_keeps; [by split|by repeat constructor].
  - apply due_keeps; [by split|]. destruct (pw_grace w); by repeat constructor.
  - destruct (if holds_now_playing w v then _ else _); apply due_keeps; try (by split); by repeat constructor.
  - apply due_chance; [apply tick_no_seek|done].
  - apply due_keeps; [by split|]. cbn [snd]. destruct (existsb _ _); by repeat constructor.
  - pose proof (due_eof w file v He). lia.
  - apply due_unchanged; [apply recovery_load_failed..| |done].
    unfold on_load_failed. cbv zeta. destruct (bool_decide _ && _); [by repeat constructor|].
    destruct (entry_of v file); by repeat constructor.
  - apply due_unchanged; [done..| |done]. cbn [snd].
    destruct (adopt_dragged_file w path v) as [d|] eqn:Ha; [|constructor]. apply Forall_singleton.
    unfold adopt_dragged_file in Ha. apply bind_Some in Ha as (f & _ & Ha). destruct (holds_now_playing w v); [done|].
    apply bind_Some in Ha as (want & _ & (got & _ & Ha)%bind_Some).
    destruct (eq_ignore_ascii_case _ _); by simplify_eq/=.
Qed.


Lemma due_step w e : recovers_loaded w →
  seek_backs (step md4 w e).2 + seek_due (step md4 w e).1 ≤ seek_due w + chances e (step md4 w e).2.
Proof.
  intros He. destruct e; cbn [step chances].
  - apply due_on_state.
  - by apply due_on_player.
  - apply due_unchanged; [apply recovery_on_resolved..| |done].
    unfold on_resolved. cbv zeta. split_if; [constructor|]. destruct resolution; cbn [fst snd]; [|by repeat constructor..].
    split_if; by repeat constructor.
  - apply due_chance; [by repeat constructor|done].
  - apply due_keeps; [apply recovery_indexed|]. apply backstage_indexed.
  - apply due_keeps; [apply recovery_on_series_known|apply offstage_on_series_known].
  - apply due_keeps; [done|constructor].
  - apply due_keeps; [apply recovery_offer_closed|apply loaded_copy_offer_closed].
  - apply due_keeps; [apply recovery_evicted|apply offstage_evicted].
  - apply due_keeps; [|constructor]. unfold on_archived, keeps_recovery. cbn [fst]. repeat (case_match || case_decide); done.
  - apply due_unchanged; [done..| |done]. unfold on_placeholder_ready. split_if; by repeat constructor.
  - apply due_playable.
  - apply due_keeps; [done|constructor].
  - apply due_keeps; [done|constructor].
  - apply due_keeps; [done|constructor].
  - apply due_keeps; [done|constructor].
Qed.

(** *** What recovery is of *)

Lemma recovers_kept w w' : recovers_loaded w →
  pw_eof_recovery w' = pw_eof_recovery w ∨ pw_eof_recovery w' = None →
  (∀ l', pw_loaded w' = Some l' → lf_partial l' = true →
     ∃ l, pw_loaded w = Some l ∧ lf_partial l = true ∧ lf_file l = lf_file l') →
  recovers_loaded w'.
Proof.
  intros Hw He Hl file issued l' Hr Hl' Hp. destruct He as [He|He]; [|congruence]. rewrite He in Hr.
  destruct (Hl l' Hl' Hp) as (l & H1 & H2 & <-). by eapply Hw.
Qed.
Lemma recovers_same w w' : recovers_loaded w → keeps_recovery w w' →
  pw_loaded w' = pw_loaded w ∨ pw_loaded w' = None → recovers_loaded w'.
Proof.
  intros Hw [_ He] Hl. eapply recovers_kept; [done|by left|]. intros l' Hl' Hp.
  destruct Hl as [Hl|Hl]; [|congruence]. exists l'. by rewrite <-Hl.
Qed.
Lemma recovers_none w : pw_eof_recovery w = None → recovers_loaded w.
Proof. intros He file issued l Hr. congruence. Qed.
Lemma recovers_on_player w output v : recovers_loaded w → recovers_loaded (on_player w output v).1.
Proof.
  intros Hw. destruct output; cbn [on_player]; try done.
  - by destruct (if holds_now_playing w v then _ else _).
  - unfold on_position_tick. destruct (negb _); [done|]. cbv zeta.
    match goal with |- context [maybe_record_watched ?x v ?p] => set (w1 := x) end.
    assert (pw_loaded w1 = pw_loaded w ∧ (pw_eof_recovery w1 = pw_eof_recovery w ∨ pw_eof_recovery w1 = None)) as [H1 H2]
      by (unfold w1; repeat split_if; auto).
    assert (pw_loaded (maybe_record_watched w1 v position_millis).1 = pw_loaded w1 ∧
      pw_eof_recovery (maybe_record_watched w1 v position_millis).1 = pw_eof_recovery w1) as [H3 H4]
      by (unfold maybe_record_watched; by repeat (case_match || case_decide)).
    destruct (maybe_record_watched w1 v position_millis) as [w' more]. cbn [fst] in *.
    eapply recovers_kept; [exact Hw|by rewrite H4|]. rewrite H3, H1. intros l' Hl Hp. by exists l'.
  - unfold on_eof. destruct (speaks_for_now_playing w v file) eqn:Hs; [|done]. cbn [negb]. cbv zeta.
    destruct (speaks_holds _ _ _ Hs) as (_ & l & Hl & Hf). split_if; [|done].
    intros g issued l'. cbn. intros [= <- _] Hl' _. congruence.
  - eapply recovers_same; [done|apply recovery_load_failed|]. unfold on_load_failed. cbv zeta.
    destruct (bool_decide _); cbn [andb]; [split_if|]; try (destruct (entry_of v file)); first [by left|by right].
Qed.
Lemma recovers_playable w file path v peers :
  recovers_loaded w → recovers_loaded (on_download_playable md4 w file path v peers).1.
Proof.
  intros Hw. assert (∀ w', recovers_loaded w' → recovers_loaded (load_partial md4 w' file path v peers).1) as Hl.
  { intros w' Hw'. unfold load_partial. cbv zeta. split_if; [done|by apply recovers_none]. }
  unfold on_download_playable. destruct (negb _); [done|].
  destruct (negb _) eqn:Hf; [by apply Hl|]. apply negb_false_iff, bool_decide_eq_true in Hf. destruct (negb _); [done|].
  destruct (pw_verified_position w) as [[f t]|]; [case_decide|]; try (by apply Hl, recovers_none).
  intros g issued l. cbn. intros [= <- _] Hl' _. rewrite Hl' in Hf. by injection Hf.
Qed.
Lemma recovers_on_resolved w file res v peers :
  recovers_loaded w → recovers_loaded (on_resolved md4 w file res v peers).1.
Proof.
  intros Hw. eapply recovers_kept; [done|left; apply recovery_on_resolved|]. intros l'.
  unfold on_resolved. cbv zeta. split_if; [cbn; by eauto|]. destruct res; cbn [fst snd]; [|cbn; by eauto..].
  split_if; cbn; [by intros [= <-]|by eauto].
Qed.
Lemma recovers_local_file w file path in_place :
  recovers_loaded w → recovers_loaded (note_local_file w file path in_place).1.
Proof.
  intros Hw. unfold note_local_file. cbn [fst]. cbv zeta. cbn [pw_loaded put_pending_resolve pw_eof_recovery].
  destruct (pw_loaded w) as [l|] eqn:Hl; [split_if; [destruct in_place; [destruct (pw_eof_recovery w) as [[f o]|] eqn:He;
    [destruct (decide (f = file))|]|]|]|]; try done.
  all: intros g issued l'; cbn; try done; intros _ [= <-]; done.
Qed.
Lemma step_recovers w e : recovers_loaded w → recovers_loaded (step md4 w e).1.
Proof.
  intros Hw. destruct e; cbn [step]; try done.
  - destruct (on_state_commands md4 w v peers) as (Hl & _ & _ & _ & _ & He & _).
    destruct (decide (pw_loaded w = to_load w v)) as [Heq|]; [|by apply recovers_none].
    eapply recovers_kept; [done|by left|]. rewrite Hl, <-Heq. intros l' ? ?. by exists l'.
  - by apply recovers_on_player.
  - by apply recovers_on_resolved.
  - by apply recovers_local_file.
  - eapply recovers_same; [done|apply recovery_indexed|left; apply backstage_indexed].
  - eapply recovers_same; [done|apply recovery_on_series_known|left; apply loaded_on_series_known].
  - eapply recovers_same; [done|apply recovery_offer_closed|left; apply loaded_copy_offer_closed].
  - eapply recovers_same; [done|apply recovery_evicted|left; apply loaded_evicted].
  - unfold on_archived. cbn [fst]. cbv zeta. cbn [pw_loaded put_resolved].
    destruct (pw_loaded w) as [l|] eqn:Hl; [|exact Hw]. case_decide; [|exact Hw].
    intros g issued l'. cbn. intros Hr [= <-] Hp. cbn in *. subst file. by eapply Hw.
  - by apply recovers_playable.
Qed.

(** The chances over a run. *)
Fixpoint chances_in (es : list Event) (w : PlayerWiring) : Z :=
  match es with
  | [] => 0
  | e :: es => chances e (step md4 w e).2 + chances_in es (step md4 w e).1
  end.
Lemma due_run es : ∀ w, recovers_loaded w →
  seek_backs (run md4 es w).2 + seek_due (run md4 es w).1 ≤ seek_due w + chances_in es w.
Proof.
  induction es as [|e es IH]; intros w Hw.
  { unfold run. rewrite each_nil. cbn [fst snd chances_in]. change (seek_backs []) with 0. lia. }
  rewrite run_cons. cbn [fst snd chances_in]. unfold seek_backs in *. rewrite tally_app.
  pose proof (due_step w e Hw) as H1. unfold seek_backs in H1.
  specialize (IH (step md4 w e).1 (step_recovers w e Hw)). lia.
Qed.


(** ** Downloads *)

(** What is wanted of an entry: a fetch exactly when its file is known to be
    missing here. *)
Definition want (w : PlayerWiring) (v : StateView) (peers : list PeerInfo) (e : PlaylistEntry) : WantedDownload :=
  mkWantedDownload (pe_hash e)
    (if is_missing w (pe_hash e) then
       Some (mkDownloadFetch (pfs_size_bytes (pe_state e)) (download_sources w v peers (pe_hash e))
               (play_anchor_chunk w v (pe_hash e) (pfs_size_bytes (pe_state e))))
     else None).

Lemma same_but_logs_want w w' v peers e : same_but_logs w w' → want w' v peers e = want w v peers e.
Proof. intros (p & a & ->). done. Qed.
Lemma plan_wanted_want w v peers out e :
  (plan_wanted v peers (w, out) e).2 = out ++ [want w v peers e].
Proof.
  unfold plan_wanted, want, is_missing. cbv zeta.
  destruct (pw_resolved w !! pe_hash e) as [[]|]; try done; by destruct (download_sources w v peers (pe_hash e)) eqn:?.
Qed.
Lemma plan_wanted_all w0 v peers l : ∀ w out, same_but_logs w0 w →
  (foldl (plan_wanted v peers) (w, out) l).2 = out ++ (want w0 v peers <$> l).
Proof.
  induction l as [|e l IH]; intros w out Hw; cbn [foldl fmap list_fmap]; [by rewrite app_nil_r|].
  pose proof (plan_wanted_want w v peers out e) as Hout.
  pose proof (plan_wanted_frame v peers [e] w out) as Hframe. cbn [foldl] in Hframe.
  destruct (plan_wanted v peers (w, out) e) as [w1 out1]. cbn [fst snd] in *.
  rewrite IH by (by eapply same_but_logs_trans). rewrite Hout, (same_but_logs_want w0 w) by done.
  by rewrite <-(assoc_L (++)).
Qed.

Lemma plan_download_wants w v peers :
  (plan_download md4 w v peers).2 =
  [SetDownloads (if pw_auto_download w then want w v peers <$> wanted_entries md4 w v else []) (v_now_playing v)].
Proof.
  unfold plan_download. destruct (pw_auto_download w); [|done]. cbn [negb]. cbv zeta.
  match goal with |- context [foldl _ (?x, []) _] => set (w0 := x) end.
  pose proof (plan_wanted_all w v peers (wanted_entries md4 w v) w0 []) as Hall.
  destruct (foldl _ _ _) as [w1 out]. cbn [snd] in *. rewrite Hall; [done|]. by eexists _, _.
Qed.

Lemma elem_of_anchored e l anchor : e ∈ anchored_download_order l anchor ↔ e ∈ l.
Proof.
  unfold anchored_download_order. destruct (anchor ≫= _) as [i|]; [|done].
  rewrite <-(take_drop i l) at 3. rewrite !elem_of_app, elem_of_reverse. tauto.
Qed.
Lemma elem_of_wanted_entries w v e :
  e ∈ wanted_entries md4 w v ↔
  e ∈ v_playlist v ∧ (v_now_playing v = Some (pe_hash e) ∨ v_watched v !! pe_hash e ≠ Some true) ∧
  series_watch_for_file md4 v (pw_me w) (pe_hash e) ≠ NotWatching.
Proof.
  unfold wanted_entries. rewrite list_elem_of_filter, elem_of_anchored.
  assert (Some (pe_hash e) = v_now_playing v ↔ v_now_playing v = Some (pe_hash e)) as -> by done. tauto.
Qed.

(** ** Statements *)


(** C16. Recovery from false ends of file never spins: over a whole session,
    whatever files it plays and whichever ends of file are reported, the
    player is seeked back at most once for each position it reports, each load
    a snapshot orders, each completed file, and each time a download becomes
    playable. *)
Theorem false_eof_recovery_bounded me es :
  seek_backs (run md4 es (new_wiring me)).2 ≤ chances_in es (new_wiring me).
Proof.
  pose proof (due_run es (new_wiring me) (recovers_none (new_wiring me) eq_refl)) as Hd.
  pose proof (seek_due_range (run md4 es (new_wiring me)).1).
  change (seek_due (new_wiring me)) with 0 in Hd. lia.
Qed.

(** The want-set of a snapshot: every playlist entry that plays or is unwatched
    and whose series we did not opt out of, and nothing else; a fetch exactly for
    those known to be missing, from exactly the other present peers that
    advertise the file ready; nothing at all with automatic downloads off. *)
Theorem downloads_wanted_exact w v peers :
  ∃ wanted, (plan_download md4 w v peers).2 = [SetDownloads wanted (v_now_playing v)] ∧
  (∀ file, file ∈ wd_file <$> wanted ↔
     pw_auto_download w = true ∧ ∃ e, e ∈ v_playlist v ∧ pe_hash e = file ∧
       (v_now_playing v = Some file ∨ v_watched v !! file ≠ Some true) ∧
       series_watch_for_file md4 v (pw_me w) file ≠ NotWatching) ∧
  (∀ d, d ∈ wanted → (wd_fetch d = None ↔ is_missing w (wd_file d) = false) ∧
     ∀ fetch, wd_fetch d = Some fetch → ∀ u, u ∈ df_sources fetch ↔
       u ≠ pw_me w ∧ v_file_availability v !! (u, wd_file d) = Some AvReady ∧
       ∃ p, p ∈ peers ∧ peer_username p = u ∧ peer_presence p = Present).
Proof.
  eexists. split; [apply plan_download_wants|]. split.
  - intros file. destruct (pw_auto_download w); [|split; [by intros ?%elem_of_nil|by intros [? _]]].
    rewrite <-list_fmap_compose, list_elem_of_fmap. unfold compose, want. cbn [wd_file]. split.
    + intros (e & -> & He%elem_of_wanted_entries). split; [done|]. exists e. tauto.
    + intros (_ & e & He & <- & Hrest). exists e. split; [done|]. by apply elem_of_wanted_entries.
  - intros d Hd. destruct (pw_auto_download w); [|by apply elem_of_nil in Hd].
    apply list_elem_of_fmap in Hd as (e & -> & _). unfold want. cbn [wd_fetch wd_file].
    destruct (is_missing w (pe_hash e)); [|done]. split; [done|]. intros fetch [= <-] u. cbn [df_sources].
    unfold download_sources. rewrite list_elem_of_fmap. split.
    + intros (p & -> & ((H1 & H2 & H3) & Hp)%list_elem_of_filter). split; [done|]. split; [done|]. by exists p.
    + intros (H1 & H2 & p & Hp & <- & H3). exists p. split; [done|]. by apply list_elem_of_filter.
Qed.

(** The session opts a user out of a series by itself exactly when the file is
    missing, its AniDB series is unknown to the user, no preference was set, no
    source can provide it (or downloads are off) and no offer is on screen. *)
Theorem auto_opt_out_exact w file series known v peers :
  (∃ user entry pref by_,
     DMutate (SetSeriesPreference user entry pref by_) ∈ (on_series_known md4 w file series known v peers).2) ↔
  (file ∉ pw_copy_offer_pending w) ∧ known = false ∧ series ≠ None ∧
  (∀ entry, resolve_series_entry_for_file md4 v file = Some entry →
     v_series_preference v !! (pw_me w, entry) = None) ∧
  (pw_auto_download w = false ∨ download_sources w v peers file = []) ∧
  resolve_or_build_entry md4 v file ≠ None.
Proof.
  unfold on_series_known.
  assert (∀ p, p ∈ placeholder_if_playing md4 v peers file → ∀ m, p ≠ DMutate m) as Hph.
  { unfold placeholder_if_playing. case_decide; [|by intros ? ?%elem_of_nil].
    by intros ? ->%list_elem_of_singleton. }
  case_decide as Hoff; [split; [by intros (?&?&?&?&?%elem_of_nil)|tauto]|].
  destruct known; [split; [by intros (?&?&?&?&?%elem_of_nil)|by intros (_ & ? & _)]|].
  destruct series as [sid|]; [|split; [by intros (?&?&?&?&?%elem_of_nil)|by intros (_ & _ & ? & _)]].
  set (has := match resolve_series_entry_for_file md4 v file with Some _ => _ | None => _ end).
  assert (has = false ↔ ∀ entry, resolve_series_entry_for_file md4 v file = Some entry →
    v_series_preference v !! (pw_me w, entry) = None) as Hhas.
  { unfold has. destruct (resolve_series_entry_for_file md4 v file) as [en|]; [|by split].
    rewrite bool_decide_eq_false, <-eq_None_not_Some. split; [by intros ? ? [= <-]|by intros Hx; apply Hx]. }
  clearbody has. destruct has.
  { split; [by intros (?&?&?&?&?%elem_of_nil)|]. intros (_ & _ & _ & Hx & _). by apply Hhas in Hx. }
  pose proof (proj1 Hhas eq_refl) as Hpref.
  destruct (pw_auto_download w && negb (bool_decide (download_sources w v peers file = []))) eqn:Hobt.
  { apply andb_true_iff in Hobt as [Hau Hsrc%negb_true_iff%bool_decide_eq_false]. split.
    - intros (? & ? & ? & ? & Hd). by destruct (Hph _ Hd _ eq_refl).
    - intros (_ & _ & _ & _ & [?|?] & _); congruence. }
  assert (pw_auto_download w = false ∨ download_sources w v peers file = []) as Hno.
  { destruct (pw_auto_download w); [|by left]. apply negb_false_iff, bool_decide_eq_true in Hobt. by right. }
  unfold resolve_or_create_series_entry. destruct (resolve_or_build_entry md4 v file) as [[id en]|]; cbn [fmap option_fmap option_map].
  - split; [intros _; by split_and!|]. intros _. eexists _, _, _, _. cbn [snd fst].
    apply elem_of_app. right. apply elem_of_app. left. by apply list_elem_of_singleton.
  - split; [by intros (?&?&?&?&?%elem_of_nil)|]. by intros (_ & _ & _ & _ & _ & ?).
Qed.
End progress.

(** ** Examples *)


(** Our copy of the file is a download in progress. *)
Definition ex_partial_view : StateView :=
  mkStateView ex_playlist ∅ (Some ex_file) None None IntentPlaying ∅ ∅
    {[(ex_me, ex_file) := AvDownloadingPlayable 5000; (ex_you, ex_file) := AvReady]} ∅ ∅ ∅ ∅ ∅ ∅ []
    ∅ ∅ None ∅.
(** A partial file is loaded, plays to the edge of its data and reports two false
    ends: one seek, to the position it had reported. *)
Definition ex_stall : list Event :=
  [EvPlayable ex_file "/a.part" ex_partial_view ex_peers; EvPlayer (PositionTick ex_file 1000) ex_partial_view;
   EvPlayer (Eof ex_file) ex_partial_view; EvPlayer (Eof ex_file) ex_partial_view].
Example ex_stall_seeks :
  omap command (@run ex_digest ascii_classes ex_stall (new_wiring ex_me)).2 =
  [Load ex_file "/a.part" (Some "a.mkv"%string) None; SetPlaying true; RecoverFalseEof (Some 1000); RecoverFalseEof None].
Proof. vm_compute. reflexivity. Qed.
