(* ===== verification/PlayerActor.v ===== *)
(** * The player actor

    src/dessplay/src/actors/player.rs: the task that owns the running player. It
    turns the session's commands into player calls and the player's raw
    observations into reports, telling the user's actions from the echoes of its
    own; it follows the group's position through the drift controller, attributes
    every observation to the file the player proves to have loaded, and brings a
    dead player back.

    Every handler is here, with the arms of the main loop. A player call may be
    refused; clocks advance as they like: both are readings the theorems quantify
    over ([Readings], consumed in order; [pa_reads] counts them). Instants and
    durations are in nanoseconds. Log lines are left out. src/dessplay/src/player/mod.rs
    gives the interface to the player. Between two iterations the arms of the loop
    race; here any enabled one may be next. *)

From Stdlib Require Import SpecFloat.
From S2P Require Import Prelude Text Types Sync TimeSync F64 Drift Session.

(** ** Data *)

(** [PlayerEvent] and the calls of the [Player] trait (player/mod.rs). *)
Inductive PlayerEvent :=
  | PauseChanged (paused : bool)
  | Seeked (position_millis : Z)
  | EvPosition (position_millis : Z)
  | EvDurationKnown (duration_millis : positive)
  | Loaded
  | EvLoadFailed
  | PathChanged (path : string)
  | EvSubtitleLine (text : string) (speaker : option string)
  | EvEof
  | Exited (clean : bool).
Inductive PlayerCall :=
  | CLoad (path : PathBuf) (title : option string)
  | CSetPause (paused : bool)
  | CSeek (position_millis : Z)
  | CSetSpeed (speed : f64)
  | CSetOsdOverlay (id : Z) (data : option string)
  | CScreenshot (path : PathBuf)
  | CShutdown.

(** What the actor does: report upstream, call the player (with the answer), launch
    one in the background, probe for the user's own, answer a screenshot request. *)
Inductive Eff :=
  | Report (o : PlayerOutput)
  | Call (c : PlayerCall) (accepted : bool)
  | Launch
  | Probe (up : bool)
  | Taken (b : bool).

Record Estimate := mkEstimate { est_millis : Z; est_at : Z }.

Definition millis_ns (n : Z) : Z := n * 1000000.
Definition SEEK_DEBOUNCE : Z := millis_ns 1500.
Definition POSITION_CADENCE_PLAYING : Z := millis_ns 100.
Definition POSITION_CADENCE_PAUSED : Z := millis_ns 1000.
Definition CRASH_FATAL_WINDOW : Z := millis_ns 30000.
Definition CRASH_GIVE_UP_COUNT : Z := 3.
Definition OSD_CHAT_OVERLAY_ID : Z := 1.
Definition OSD_BLOCKER_OVERLAY_ID : Z := 2.
Definition OSD_CHAT_RETENTION : Z := millis_ns 8000.
Definition OSD_CHAT_MAX : nat := 8.
Definition REATTACH_BACKOFF_INITIAL : Z := millis_ns 500.
Definition REATTACH_BACKOFF_MAX : Z := millis_ns 10000.

(** [Actor]. The factory and the player are present or not; a launch in flight is
    a flag, its result an arm of the loop. [pa_reads] counts the readings taken. *)
Record Actor := mkActor {
  pa_factory : bool;
  pa_offset_millis : Z;
  pa_player : bool;
  pa_current : option (Ed2kHash * PathBuf * option string);
  pa_observed_path : option PathBuf;
  pa_desired_playing : bool;
  pa_believed_pause : option bool;
  pa_speed : f64;
  pa_drift : DriftController;
  pa_pending_pause_echoes : list bool;
  pa_pending_seek_echoes : nat;
  pa_pending_user_seek : option (Z * Z * Z);
  pa_grace_lock : bool;
  pa_restore_millis : option Z;
  pa_estimate : option Estimate;
  pa_last_position_emit : option Z;
  pa_eof_reported : bool;
  pa_last_death : option Z;
  pa_consecutive_crashes : Z;
  pa_attach_mode : bool;
  pa_reattach_at : option Z;
  pa_reattach_backoff : Z;
  pa_pending_spawn : bool;
  pa_spawn_failure_exits : bool;
  pa_osd_chat : list (string * Z);
  pa_blocker_overlay : option string;
  pa_reads : nat
}.

Definition upd_factory (x : bool) (a : Actor) : Actor :=
  mkActor x (pa_offset_millis a) (pa_player a) (pa_current a) (pa_observed_path a) (pa_desired_playing a)
    (pa_believed_pause a) (pa_speed a) (pa_drift a) (pa_pending_pause_echoes a) (pa_pending_seek_echoes a)
    (pa_pending_user_seek a) (pa_grace_lock a) (pa_restore_millis a) (pa_estimate a)
    (pa_last_position_emit a) (pa_eof_reported a) (pa_last_death a) (pa_consecutive_crashes a)
    (pa_attach_mode a) (pa_reattach_at a) (pa_reattach_backoff a) (pa_pending_spawn a)
    (pa_spawn_failure_exits a) (pa_osd_chat a) (pa_blocker_overlay a) (pa_reads a).
Definition upd_offset_millis (x : Z) (a : Actor) : Actor :=
  mkActor (pa_factory a) x (pa_player a) (pa_current a) (pa_observed_path a) (pa_desired_playing a)
    (pa_believed_pause a) (pa_speed a) (pa_drift a) (pa_pending_pause_echoes a) (pa_pending_seek_echoes a)
    (pa_pending_user_seek a) (pa_grace_lock a) (pa_restore_millis a) (pa_estimate a)
    (pa_last_position_emit a) (pa_eof_reported a) (pa_last_death a) (pa_consecutive_crashes a)
    (pa_attach_mode a) (pa_reattach_at a) (pa_reattach_backoff a) (pa_pending_spawn a)
    (pa_spawn_failure_exits a) (pa_osd_chat a) (pa_blocker_overlay a) (pa_reads a).
Definition upd_player (x : bool) (a : Actor) : Actor :=
  mkActor (pa_factory a) (pa_offset_millis a) x (pa_current a) (pa_observed_path a) (pa_desired_playing a)
    (pa_believed_pause a) (pa_speed a) (pa_drift a) (pa_pending_pause_echoes a) (pa_pending_seek_echoes a)
    (pa_pending_user_seek a) (pa_grace_lock a) (pa_restore_millis a) (pa_estimate a)
    (pa_last_position_emit a) (pa_eof_reported a) (pa_last_death a) (pa_consecutive_crashes a)
    (pa_attach_mode a) (pa_reattach_at a) (pa_reattach_backoff a) (pa_pending_spawn a)
    (pa_spawn_failure_exits a) (pa_osd_chat a) (pa_blocker_overlay a) (pa_reads a).
Definition upd_current (x : option (Ed2kHash * PathBuf * option string)) (a : Actor) : Actor :=
  mkActor (pa_factory a) (pa_offset_millis a) (pa_player a) x (pa_observed_path a) (pa_desired_playing a)
    (pa_believed_pause a) (pa_speed a) (pa_drift a) (pa_pending_pause_echoes a) (pa_pending_seek_echoes a)
    (pa_pending_user_seek a) (pa_grace_lock a) (pa_restore_millis a) (pa_estimate a)
    (pa_last_position_emit a) (pa_eof_reported a) (pa_last_death a) (pa_consecutive_crashes a)
    (pa_attach_mode a) (pa_reattach_at a) (pa_reattach_backoff a) (pa_pending_spawn a)
    (pa_spawn_failure_exits a) (pa_osd_chat a) (pa_blocker_overlay a) (pa_reads a).
Definition upd_observed_path (x : option PathBuf) (a : Actor) : Actor :=
  mkActor (pa_factory a) (pa_offset_millis a) (pa_player a) (pa_current a) x (pa_desired_playing a)
    (pa_believed_pause a) (pa_speed a) (pa_drift a) (pa_pending_pause_echoes a) (pa_pending_seek_echoes a)
    (pa_pending_user_seek a) (pa_grace_lock a) (pa_restore_millis a) (pa_estimate a)
    (pa_last_position_emit a) (pa_eof_reported a) (pa_last_death a) (pa_consecutive_crashes a)
    (pa_attach_mode a) (pa_reattach_at a) (pa_reattach_backoff a) (pa_pending_spawn a)
    (pa_spawn_failure_exits a) (pa_osd_chat a) (pa_blocker_overlay a) (pa_reads a).
Definition upd_desired_playing (x : bool) (a : Actor) : Actor :=
  mkActor (pa_factory a) (pa_offset_millis a) (pa_player a) (pa_current a) (pa_observed_path a) x
    (pa_believed_pause a) (pa_speed a) (pa_drift a) (pa_pending_pause_echoes a) (pa_pending_seek_echoes a)
    (pa_pending_user_seek a) (pa_grace_lock a) (pa_restore_millis a) (pa_estimate a)
    (pa_last_position_emit a) (pa_eof_reported a) (pa_last_death a) (pa_consecutive_crashes a)
    (pa_attach_mode a) (pa_reattach_at a) (pa_reattach_backoff a) (pa_pending_spawn a)
    (pa_spawn_failure_exits a) (pa_osd_chat a) (pa_blocker_overlay a) (pa_reads a).
Definition upd_believed_pause (x : option bool) (a : Actor) : Actor :=
  mkActor (pa_factory a) (pa_offset_millis a) (pa_player a) (pa_current a) (pa_observed_path a)
    (pa_desired_playing a) x (pa_speed a) (pa_drift a) (pa_pending_pause_echoes a)
    (pa_pending_seek_echoes a) (pa_pending_user_seek a) (pa_grace_lock a) (pa_restore_millis a)
    (pa_estimate a) (pa_last_position_emit a) (pa_eof_reported a) (pa_last_death a)
    (pa_consecutive_crashes a) (pa_attach_mode a) (pa_reattach_at a) (pa_reattach_backoff a)
    (pa_pending_spawn a) (pa_spawn_failure_exits a) (pa_osd_chat a) (pa_blocker_overlay a) (pa_reads a).
Definition upd_speed (x : f64) (a : Actor) : Actor :=
  mkActor (pa_factory a) (pa_offset_millis a) (pa_player a) (pa_current a) (pa_observed_path a)
    (pa_desired_playing a) (pa_believed_pause a) x (pa_drift a) (pa_pending_pause_echoes a)
    (pa_pending_seek_echoes a) (pa_pending_user_seek a) (pa_grace_lock a) (pa_restore_millis a)
    (pa_estimate a) (pa_last_position_emit a) (pa_eof_reported a) (pa_last_death a)
    (pa_consecutive_crashes a) (pa_attach_mode a) (pa_reattach_at a) (pa_reattach_backoff a)
    (pa_pending_spawn a) (pa_spawn_failure_exits a) (pa_osd_chat a) (pa_blocker_overlay a) (pa_reads a).
Definition upd_drift (x : DriftController) (a : Actor) : Actor :=
  mkActor (pa_factory a) (pa_offset_millis a) (pa_player a) (pa_current a) (pa_observed_path a)
    (pa_desired_playing a) (pa_believed_pause a) (pa_speed a) x (pa_pending_pause_echoes a)
    (pa_pending_seek_echoes a) (pa_pending_user_seek a) (pa_grace_lock a) (pa_restore_millis a)
    (pa_estimate a) (pa_last_position_emit a) (pa_eof_reported a) (pa_last_death a)
    (pa_consecutive_crashes a) (pa_attach_mode a) (pa_reattach_at a) (pa_reattach_backoff a)
    (pa_pending_spawn a) (pa_spawn_failure_exits a) (pa_osd_chat a) (pa_blocker_overlay a) (pa_reads a).
Definition upd_pending_pause_echoes (x : list bool) (a : Actor) : Actor :=
  mkActor (pa_factory a) (pa_offset_millis a) (pa_player a) (pa_current a) (pa_observed_path a)
    (pa_desired_playing a) (pa_believed_pause a) (pa_speed a) (pa_drift a) x (pa_pending_seek_echoes a)
    (pa_pending_user_seek a) (pa_grace_lock a) (pa_restore_millis a) (pa_estimate a)
    (pa_last_position_emit a) (pa_eof_reported a) (pa_last_death a) (pa_consecutive_crashes a)
    (pa_attach_mode a) (pa_reattach_at a) (pa_reattach_backoff a) (pa_pending_spawn a)
    (pa_spawn_failure_exits a) (pa_osd_chat a) (pa_blocker_overlay a) (pa_reads a).
Definition upd_pending_seek_echoes (x : nat) (a : Actor) : Actor :=
  mkActor (pa_factory a) (pa_offset_millis a) (pa_player a) (pa_current a) (pa_observed_path a)
    (pa_desired_playing a) (pa_believed_pause a) (pa_speed a) (pa_drift a) (pa_pending_pause_echoes a) x
    (pa_pending_user_seek a) (pa_grace_lock a) (pa_restore_millis a) (pa_estimate a)
    (pa_last_position_emit a) (pa_eof_reported a) (pa_last_death a) (pa_consecutive_crashes a)
    (pa_attach_mode a) (pa_reattach_at a) (pa_reattach_backoff a) (pa_pending_spawn a)
    (pa_spawn_failure_exits a) (pa_osd_chat a) (pa_blocker_overlay a) (pa_reads a).
Definition upd_pending_user_seek (x : option (Z * Z * Z)) (a : Actor) : Actor :=
  mkActor (pa_factory a) (pa_offset_millis a) (pa_player a) (pa_current a) (pa_observed_path a)
    (pa_desired_playing a) (pa_believed_pause a) (pa_speed a) (pa_drift a) (pa_pending_pause_echoes a)
    (pa_pending_seek_echoes a) x (pa_grace_lock a) (pa_restore_millis a) (pa_estimate a)
    (pa_last_position_emit a) (pa_eof_reported a) (pa_last_death a) (pa_consecutive_crashes a)
    (pa_attach_mode a) (pa_reattach_at a) (pa_reattach_backoff a) (pa_pending_spawn a)
    (pa_spawn_failure_exits a) (pa_osd_chat a) (pa_blocker_overlay a) (pa_reads a).
Definition upd_grace_lock (x : bool) (a : Actor) : Actor :=
  mkActor (pa_factory a) (pa_offset_millis a) (pa_player a) (pa_current a) (pa_observed_path a)
    (pa_desired_playing a) (pa_believed_pause a) (pa_speed a) (pa_drift a) (pa_pending_pause_echoes a)
    (pa_pending_seek_echoes a) (pa_pending_user_seek a) x (pa_restore_millis a) (pa_estimate a)
    (pa_last_position_emit a) (pa_eof_reported a) (pa_last_death a) (pa_consecutive_crashes a)
    (pa_attach_mode a) (pa_reattach_at a) (pa_reattach_backoff a) (pa_pending_spawn a)
    (pa_spawn_failure_exits a) (pa_osd_chat a) (pa_blocker_overlay a) (pa_reads a).
Definition upd_restore_millis (x : option Z) (a : Actor) : Actor :=
  mkActor (pa_factory a) (pa_offset_millis a) (pa_player a) (pa_current a) (pa_observed_path a)
    (pa_desired_playing a) (pa_believed_pause a) (pa_speed a) (pa_drift a) (pa_pending_pause_echoes a)
    (pa_pending_seek_echoes a) (pa_pending_user_seek a) (pa_grace_lock a) x (pa_estimate a)
    (pa_last_position_emit a) (pa_eof_reported a) (pa_last_death a) (pa_consecutive_crashes a)
    (pa_attach_mode a) (pa_reattach_at a) (pa_reattach_backoff a) (pa_pending_spawn a)
    (pa_spawn_failure_exits a) (pa_osd_chat a) (pa_blocker_overlay a) (pa_reads a).
Definition upd_estimate (x : option Estimate) (a : Actor) : Actor :=
  mkActor (pa_factory a) (pa_offset_millis a) (pa_player a) (pa_current a) (pa_observed_path a)
    (pa_desired_playing a) (pa_believed_pause a) (pa_speed a) (pa_drift a) (pa_pending_pause_echoes a)
    (pa_pending_seek_echoes a) (pa_pending_user_seek a) (pa_grace_lock a) (pa_restore_millis a) x
    (pa_last_position_emit a) (pa_eof_reported a) (pa_last_death a) (pa_consecutive_crashes a)
    (pa_attach_mode a) (pa_reattach_at a) (pa_reattach_backoff a) (pa_pending_spawn a)
    (pa_spawn_failure_exits a) (pa_osd_chat a) (pa_blocker_overlay a) (pa_reads a).
Definition upd_last_position_emit (x : option Z) (a : Actor) : Actor :=
  mkActor (pa_factory a) (pa_offset_millis a) (pa_player a) (pa_current a) (pa_observed_path a)
    (pa_desired_playing a) (pa_believed_pause a) (pa_speed a) (pa_drift a) (pa_pending_pause_echoes a)
    (pa_pending_seek_echoes a) (pa_pending_user_seek a) (pa_grace_lock a) (pa_restore_millis a)
    (pa_estimate a) x (pa_eof_reported a) (pa_last_death a) (pa_consecutive_crashes a) (pa_attach_mode a)
    (pa_reattach_at a) (pa_reattach_backoff a) (pa_pending_spawn a) (pa_spawn_failure_exits a)
    (pa_osd_chat a) (pa_blocker_overlay a) (pa_reads a).
Definition upd_eof_reported (x : bool) (a : Actor) : Actor :=
  mkActor (pa_factory a) (pa_offset_millis a) (pa_player a) (pa_current a) (pa_observed_path a)
    (pa_desired_playing a) (pa_believed_pause a) (pa_speed a) (pa_drift a) (pa_pending_pause_echoes a)
    (pa_pending_seek_echoes a) (pa_pending_user_seek a) (pa_grace_lock a) (pa_restore_millis a)
    (pa_estimate a) (pa_last_position_emit a) x (pa_last_death a) (pa_consecutive_crashes a)
    (pa_attach_mode a) (pa_reattach_at a) (pa_reattach_backoff a) (pa_pending_spawn a)
    (pa_spawn_failure_exits a) (pa_osd_chat a) (pa_blocker_overlay a) (pa_reads a).
Definition upd_last_death (x : option Z) (a : Actor) : Actor :=
  mkActor (pa_factory a) (pa_offset_millis a) (pa_player a) (pa_current a) (pa_observed_path a)
    (pa_desired_playing a) (pa_believed_pause a) (pa_speed a) (pa_drift a) (pa_pending_pause_echoes a)
    (pa_pending_seek_echoes a) (pa_pending_user_seek a) (pa_grace_lock a) (pa_restore_millis a)
    (pa_estimate a) (pa_last_position_emit a) (pa_eof_reported a) x (pa_consecutive_crashes a)
    (pa_attach_mode a) (pa_reattach_at a) (pa_reattach_backoff a) (pa_pending_spawn a)
    (pa_spawn_failure_exits a) (pa_osd_chat a) (pa_blocker_overlay a) (pa_reads a).
Definition upd_consecutive_crashes (x : Z) (a : Actor) : Actor :=
  mkActor (pa_factory a) (pa_offset_millis a) (pa_player a) (pa_current a) (pa_observed_path a)
    (pa_desired_playing a) (pa_believed_pause a) (pa_speed a) (pa_drift a) (pa_pending_pause_echoes a)
    (pa_pending_seek_echoes a) (pa_pending_user_seek a) (pa_grace_lock a) (pa_restore_millis a)
    (pa_estimate a) (pa_last_position_emit a) (pa_eof_reported a) (pa_last_death a) x (pa_attach_mode a)
    (pa_reattach_at a) (pa_reattach_backoff a) (pa_pending_spawn a) (pa_spawn_failure_exits a)
    (pa_osd_chat a) (pa_blocker_overlay a) (pa_reads a).
Definition upd_attach_mode (x : bool) (a : Actor) : Actor :=
  mkActor (pa_factory a) (pa_offset_millis a) (pa_player a) (pa_current a) (pa_observed_path a)
    (pa_desired_playing a) (pa_believed_pause a) (pa_speed a) (pa_drift a) (pa_pending_pause_echoes a)
    (pa_pending_seek_echoes a) (pa_pending_user_seek a) (pa_grace_lock a) (pa_restore_millis a)
    (pa_estimate a) (pa_last_position_emit a) (pa_eof_reported a) (pa_last_death a)
    (pa_consecutive_crashes a) x (pa_reattach_at a) (pa_reattach_backoff a) (pa_pending_spawn a)
    (pa_spawn_failure_exits a) (pa_osd_chat a) (pa_blocker_overlay a) (pa_reads a).
Definition upd_reattach_at (x : option Z) (a : Actor) : Actor :=
  mkActor (pa_factory a) (pa_offset_millis a) (pa_player a) (pa_current a) (pa_observed_path a)
    (pa_desired_playing a) (pa_believed_pause a) (pa_speed a) (pa_drift a) (pa_pending_pause_echoes a)
    (pa_pending_seek_echoes a) (pa_pending_user_seek a) (pa_grace_lock a) (pa_restore_millis a)
    (pa_estimate a) (pa_last_position_emit a) (pa_eof_reported a) (pa_last_death a)
    (pa_consecutive_crashes a) (pa_attach_mode a) x (pa_reattach_backoff a) (pa_pending_spawn a)
    (pa_spawn_failure_exits a) (pa_osd_chat a) (pa_blocker_overlay a) (pa_reads a).
Definition upd_reattach_backoff (x : Z) (a : Actor) : Actor :=
  mkActor (pa_factory a) (pa_offset_millis a) (pa_player a) (pa_current a) (pa_observed_path a)
    (pa_desired_playing a) (pa_believed_pause a) (pa_speed a) (pa_drift a) (pa_pending_pause_echoes a)
    (pa_pending_seek_echoes a) (pa_pending_user_seek a) (pa_grace_lock a) (pa_restore_millis a)
    (pa_estimate a) (pa_last_position_emit a) (pa_eof_reported a) (pa_last_death a)
    (pa_consecutive_crashes a) (pa_attach_mode a) (pa_reattach_at a) x (pa_pending_spawn a)
    (pa_spawn_failure_exits a) (pa_osd_chat a) (pa_blocker_overlay a) (pa_reads a).
Definition upd_pending_spawn (x : bool) (a : Actor) : Actor :=
  mkActor (pa_factory a) (pa_offset_millis a) (pa_player a) (pa_current a) (pa_observed_path a)
    (pa_desired_playing a) (pa_believed_pause a) (pa_speed a) (pa_drift a) (pa_pending_pause_echoes a)
    (pa_pending_seek_echoes a) (pa_pending_user_seek a) (pa_grace_lock a) (pa_restore_millis a)
    (pa_estimate a) (pa_last_position_emit a) (pa_eof_reported a) (pa_last_death a)
    (pa_consecutive_crashes a) (pa_attach_mode a) (pa_reattach_at a) (pa_reattach_backoff a) x
    (pa_spawn_failure_exits a) (pa_osd_chat a) (pa_blocker_overlay a) (pa_reads a).
Definition upd_spawn_failure_exits (x : bool) (a : Actor) : Actor :=
  mkActor (pa_factory a) (pa_offset_millis a) (pa_player a) (pa_current a) (pa_observed_path a)
    (pa_desired_playing a) (pa_believed_pause a) (pa_speed a) (pa_drift a) (pa_pending_pause_echoes a)
    (pa_pending_seek_echoes a) (pa_pending_user_seek a) (pa_grace_lock a) (pa_restore_millis a)
    (pa_estimate a) (pa_last_position_emit a) (pa_eof_reported a) (pa_last_death a)
    (pa_consecutive_crashes a) (pa_attach_mode a) (pa_reattach_at a) (pa_reattach_backoff a)
    (pa_pending_spawn a) x (pa_osd_chat a) (pa_blocker_overlay a) (pa_reads a).
Definition upd_osd_chat (x : list (string * Z)) (a : Actor) : Actor :=
  mkActor (pa_factory a) (pa_offset_millis a) (pa_player a) (pa_current a) (pa_observed_path a)
    (pa_desired_playing a) (pa_believed_pause a) (pa_speed a) (pa_drift a) (pa_pending_pause_echoes a)
    (pa_pending_seek_echoes a) (pa_pending_user_seek a) (pa_grace_lock a) (pa_restore_millis a)
    (pa_estimate a) (pa_last_position_emit a) (pa_eof_reported a) (pa_last_death a)
    (pa_consecutive_crashes a) (pa_attach_mode a) (pa_reattach_at a) (pa_reattach_backoff a)
    (pa_pending_spawn a) (pa_spawn_failure_exits a) x (pa_blocker_overlay a) (pa_reads a).
Definition upd_blocker_overlay (x : option string) (a : Actor) : Actor :=
  mkActor (pa_factory a) (pa_offset_millis a) (pa_player a) (pa_current a) (pa_observed_path a)
    (pa_desired_playing a) (pa_believed_pause a) (pa_speed a) (pa_drift a) (pa_pending_pause_echoes a)
    (pa_pending_seek_echoes a) (pa_pending_user_seek a) (pa_grace_lock a) (pa_restore_millis a)
    (pa_estimate a) (pa_last_position_emit a) (pa_eof_reported a) (pa_last_death a)
    (pa_consecutive_crashes a) (pa_attach_mode a) (pa_reattach_at a) (pa_reattach_backoff a)
    (pa_pending_spawn a) (pa_spawn_failure_exits a) (pa_osd_chat a) x (pa_reads a).
Definition upd_reads (x : nat) (a : Actor) : Actor :=
  mkActor (pa_factory a) (pa_offset_millis a) (pa_player a) (pa_current a) (pa_observed_path a)
    (pa_desired_playing a) (pa_believed_pause a) (pa_speed a) (pa_drift a) (pa_pending_pause_echoes a)
    (pa_pending_seek_echoes a) (pa_pending_user_seek a) (pa_grace_lock a) (pa_restore_millis a)
    (pa_estimate a) (pa_last_position_emit a) (pa_eof_reported a) (pa_last_death a)
    (pa_consecutive_crashes a) (pa_attach_mode a) (pa_reattach_at a) (pa_reattach_backoff a)
    (pa_pending_spawn a) (pa_spawn_failure_exits a) (pa_osd_chat a) (pa_blocker_overlay a) x.


(** ** The monad *)

(** The outside: the monotonic clock, the wall clock, and whether the player (or a
    launch probe) accepts. *)
Record Readings := mkReadings { rd_instant : nat → Z; rd_clock : nat → Z; rd_ok : nat → bool }.

Definition Act (A : Type) : Type := Actor → A * (Actor * list Eff).
#[export] Instance Act_ret : MRet Act := λ A x a, (x, (a, [])).
#[export] Instance Act_bind : MBind Act := λ A B f m a,
  let '(x, (a, o)) := m a in let '(y, (a, o')) := f x a in (y, (a, o ++ o')).
Definition ask {A} (f : Actor → A) : Act A := λ a, (f a, (a, [])).
Definition update (f : Actor → Actor) : Act unit := λ a, ((), (f a, [])).
Definition effect (e : Eff) : Act unit := λ a, ((), (a, [e])).
Definition report (o : PlayerOutput) : Act unit := effect (Report o).
Definition only_if (b : bool) (m : Act unit) : Act unit := if b then m else mret ().

(** ** Texts *)

(** [Actor::ass_escape]: braces and line breaks are replaced, a backslash becomes
    U+FF3C. *)
Definition ass_escape_byte (b : Z) : Bytes :=
  if b =? 123 then [40] else if b =? 125 then [41]
  else if (b =? 10) || (b =? 13) then [32]
  else if b =? 92 then [0xEF; 0xBC; 0xBC] else [b].
Definition ass_escape (text : string) : string :=
  string_of_bytes (mjoin (ass_escape_byte <$> bytes_of_string text)).
Fixpoint join_lines (l : list string) : string :=
  match l with [] => "" | [x] => x | x :: l => x +:+ "\N" +:+ join_lines l end.

(** [f64::EPSILON]. *)
Definition f64_EPSILON : f64 := Eval vm_compute in f64_lit 1 (2 ^ 52).
Definition one : f64 := Eval vm_compute in f64_of 1.

Section actor.
Context (R : Readings).

Definition next {A} (f : nat → A) : Act A := λ a, (f (pa_reads a), (upd_reads (S (pa_reads a)) a, [])).
Definition instant_now : Act Z := next (rd_instant R).
Definition call (c : PlayerCall) : Act bool := ok ← next (rd_ok R); effect (Call c ok);; mret ok.

(** ** Position *)

Definition shared_now : Act Z :=
  t ← next (rd_clock R); ask (λ a, u64_saturating_add_signed t (pa_offset_millis a)).

(** The estimate at an instant. *)
Definition extrapolate (est : Estimate) (speed : f64) (now : Z) : Z :=
  u64_wrap (est_millis est + f64_to_u64 (f64_mul (f64_of (Z.max 0 (now - est_at est) / 1000000)) speed)).
Definition estimate_now : Act (option Z) :=
  a ← ask id;
  match pa_estimate a with
  | None => mret None
  | Some est =>
      if decide (pa_believed_pause a = Some false) then
        now ← instant_now; mret (Some (extrapolate est (pa_speed a) now))
      else mret (Some (est_millis est))
  end.
Definition note_position (millis : Z) : Act unit :=
  now ← instant_now; update (upd_estimate (Some (mkEstimate millis now))).
Definition reanchor_estimate : Act unit :=
  e ← estimate_now; match e with Some now => note_position now | None => mret () end.

Definition player_on_current_file (a : Actor) : bool :=
  match pa_observed_path a, pa_current a with
  | Some observed, Some (_, commanded, _) => bool_decide (observed = commanded)
  | _, _ => false
  end.
Definition current_file (a : Actor) : option Ed2kHash := (λ c, c.1.1) <$> pa_current a.

(** ** Overlays *)

Definition apply_overlay (id : Z) (data : option string) : Act unit :=
  p ← ask pa_player; only_if p (call (CSetOsdOverlay id data);; mret ()).
Definition chat_overlay (osd_chat : list (string * Z)) : option string :=
  if decide (osd_chat = []) then None
  else Some ("{\an7\fs26}" +:+ join_lines ((λ l, ass_escape l.1) <$> osd_chat)).
Definition render_chat_overlay : Act unit :=
  chat ← ask pa_osd_chat; apply_overlay OSD_CHAT_OVERLAY_ID (chat_overlay chat).
Definition blocker_data (text : option string) : option string :=
  (λ t, "{\an9\fs26}" +:+ ass_escape t) <$> text.
Definition render_blocker_overlay : Act unit :=
  text ← ask pa_blocker_overlay; apply_overlay OSD_BLOCKER_OVERLAY_ID (blocker_data text).
Fixpoint drop_expired (now : Z) (osd_chat : list (string * Z)) : list (string * Z) :=
  match osd_chat with
  | (text, at_) :: rest => if at_ <=? now then drop_expired now rest else osd_chat
  | [] => []
  end.
Definition expire_osd_chat : Act unit :=
  now ← instant_now; update (λ a, upd_osd_chat (drop_expired now (pa_osd_chat a)) a);; render_chat_overlay.
Definition reapply_overlays : Act unit :=
  chat ← ask pa_osd_chat; only_if (negb (bool_decide (chat = []))) render_chat_overlay;;
  text ← ask pa_blocker_overlay; only_if (bool_decide (is_Some text)) render_blocker_overlay.
(** [push_back] and the trim from the front. *)
Definition push_osd (line : string * Z) (osd_chat : list (string * Z)) : list (string * Z) :=
  let chat := osd_chat ++ [line] in drop (length chat - OSD_CHAT_MAX) chat.

(** ** Commanding the player *)

Definition apply_desired_pause : Act unit :=
  a ← ask id;
  let target := negb (pa_desired_playing a) in
  if bool_decide (pa_current a = None) || bool_decide (pa_believed_pause a = Some target) then mret ()
  else if pa_player a then
    ok ← call (CSetPause target);
    only_if ok (reanchor_estimate;; update (upd_believed_pause (Some target));;
                update (λ a, upd_pending_pause_echoes (pa_pending_pause_echoes a ++ [target]) a))
  else mret ().
Definition set_speed (speed : f64) : Act unit :=
  a ← ask id;
  if f64_lt (f64_abs (f64_sub (pa_speed a) speed)) f64_EPSILON then mret ()
  else if pa_player a then
    ok ← call (CSetSpeed speed);
    only_if ok (reanchor_estimate;; update (upd_speed speed))
  else mret ().
Definition seek_programmatic (target_millis : Z) : Act unit :=
  p ← ask pa_player;
  if p : bool then
    ok ← call (CSeek target_millis);
    only_if ok (update (λ a, upd_pending_seek_echoes (S (pa_pending_seek_echoes a)) a);;
                note_position target_millis)
  else mret ().

(** [x as i64], and the subtraction of two such. *)
Definition to_i64 (x : Z) : Z := let y := u64_wrap x in if 2 ^ 63 <=? y then y - 2 ^ 64 else y.
Definition delta_of (target current : Z) : Z := to_i64 (to_i64 target - to_i64 current).

Definition drift_correct (sample : Z) (timestamp : SharedTimestamp) (playing : bool) : Act unit :=
  a ← ask id;
  if negb (player_on_current_file a) then update (λ a, upd_drift (Drift.reset (pa_drift a)) a)
  else if bool_decide (is_Some (pa_pending_user_seek a)) then mret ()
  else
    e ← estimate_now;
    match e with
    | None => mret ()
    | Some current =>
        target ← (if playing then
                    t ← shared_now; mret (u64_saturating_add sample (u64_saturating_sub t timestamp))
                  else mret sample);
        action ← ask (λ a, Drift.observe (pa_drift a) (delta_of target current));
        update (upd_drift action.1);;
        match action.2 with
        | NoAction => mret ()
        | SetSpeed slew => set_speed slew
        | HardSeek => set_speed one;; seek_programmatic target
        end
    end.

(** ** Launching *)

Definition begin_spawn (failure_exits : bool) : Act unit :=
  a ← ask id;
  if pa_factory a then
    update (upd_factory false);; update (upd_spawn_failure_exits failure_exits);;
    effect Launch;; update (upd_pending_spawn true)
  else mret ().

(** ** Commands *)

(** A file-load call, with its failure reported. *)
Definition load_player (file : Ed2kHash) (path : PathBuf) (title : option string) : Act unit :=
  p ← ask pa_player;
  only_if p (ok ← call (CLoad path title); only_if (negb ok) (report (LoadFailed file))).

(** Another file is a clean slate for the crash counter; after giving up it brings a
    player back. *)
Definition forget_crashes (different : bool) : Act unit :=
  only_if different (
    update (upd_consecutive_crashes 0);; update (upd_last_death None);;
    a ← ask id;
    only_if (negb (pa_player a) && bool_decide (pa_reattach_at a = None) && negb (pa_pending_spawn a))
      (begin_spawn false)).

Definition handle_load (file : Ed2kHash) (path : PathBuf) (title : option string) (resume_millis : option Z)
    : Act unit :=
  different ← ask (λ a, negb (bool_decide (current_file a = Some file)));
  update (upd_current (Some (file, path, title)));;
  update (upd_eof_reported false);;
  update (upd_restore_millis resume_millis);;
  update (upd_pending_user_seek None);;
  update (upd_pending_pause_echoes []);;
  update (upd_pending_seek_echoes 0);;
  update (upd_estimate None);;
  update (upd_believed_pause (Some true));;
  update (λ a, upd_drift (Drift.reset (pa_drift a)) a);;
  set_speed one;;
  forget_crashes different;;
  load_player file path title.

Definition set_grace_lock (locked : bool) : Act unit :=
  a ← ask id;
  only_if (locked && negb (pa_grace_lock a))
    (match pa_pending_user_seek a with
     | Some (from_millis, _, _) =>
         update (upd_pending_user_seek None);; seek_programmatic from_millis;; report (OGraceRefused RefuseSeek)
     | None => mret ()
     end);;
  update (upd_grace_lock locked).

Definition take_screenshot (path : PathBuf) (file : Ed2kHash) : Act unit :=
  a ← ask id;
  if pa_player a && (bool_decide (current_file a = Some file) && player_on_current_file a) then
    effect (Taken true);; call (CScreenshot path);; mret ()
  else effect (Taken false).

Definition handle_command (cmd : PlayerCommand) : Act unit :=
  match cmd with
  | Load file path title resume_millis => handle_load file path title resume_millis
  | SetPlaying playing => update (upd_desired_playing playing);; apply_desired_pause
  | SetGraceLock locked => set_grace_lock locked
  | SyncTo position_millis timestamp playing => drift_correct position_millis timestamp playing
  | RecoverFalseEof position_millis =>
      update (upd_eof_reported false);;
      match position_millis with Some target => seek_programmatic target | None => mret () end
  | ReleaseSlew => update (λ a, upd_drift (Drift.reset (pa_drift a)) a);; set_speed one
  | ClockOffset offset_millis => update (upd_offset_millis offset_millis)
  | ShowOsd text =>
      now ← instant_now;
      update (λ a, upd_osd_chat (push_osd (text, now + OSD_CHAT_RETENTION) (pa_osd_chat a)) a);;
      render_chat_overlay
  | SetBlockerOverlay text => update (upd_blocker_overlay text);; render_blocker_overlay
  | Screenshot path file => take_screenshot path file
  | Shutdown => mret ()
  end.

(** ** Player deaths *)

Definition begin_reattach : Act unit :=
  e ← estimate_now; update (upd_restore_millis e);;
  update (upd_speed one);; update (λ a, upd_drift (Drift.reset (pa_drift a)) a);;
  update (upd_estimate None);; update (upd_reattach_backoff REATTACH_BACKOFF_INITIAL);;
  now ← instant_now; update (upd_reattach_at (Some now)).

Definition handle_crash (clean : bool) : Act bool :=
  now ← instant_now;
  update (λ a,
    let recent := match pa_last_death a with Some at_ => Z.max 0 (now - at_) <? CRASH_FATAL_WINDOW | None => false end in
    upd_consecutive_crashes (if recent then u32_wrap (pa_consecutive_crashes a + 1) else 1) a);;
  update (upd_last_death (Some now));;
  crashes ← ask pa_consecutive_crashes;
  only_if (crashes =? 2) (report FatalCrash);;
  if CRASH_GIVE_UP_COUNT <=? crashes then
    report GaveUp;; update (upd_speed one);; update (upd_estimate None);; mret true
  else
    e ← estimate_now; update (upd_restore_millis e);;
    update (upd_speed one);; update (λ a, upd_drift (Drift.reset (pa_drift a)) a);;
    update (upd_estimate None);; begin_spawn true;; mret true.

Definition handle_player_death (clean : bool) : Act bool :=
  update (upd_player false);; update (upd_observed_path None);;
  update (upd_pending_pause_echoes []);; update (upd_pending_seek_echoes 0);;
  update (upd_pending_user_seek None);; update (upd_believed_pause None);;
  attach ← ask pa_attach_mode;
  if attach : bool then begin_reattach;; mret true else handle_crash clean.

(** The current file loaded into a fresh player; in attach mode a refusal is not
    reported. *)
Definition try_reattach : Act unit :=
  update (upd_reattach_at None);;
  f ← ask pa_factory;
  if negb f then mret ()
  else
    up ← next (rd_ok R); effect (Probe up);;
    if up : bool then
      update (upd_reattach_backoff REATTACH_BACKOFF_INITIAL);; update (upd_player true);; reapply_overlays;;
      c ← ask pa_current;
      match c with Some (_, path, title) => call (CLoad path title);; mret () | None => mret () end
    else
      now ← instant_now;
      update (λ a, upd_reattach_at (Some (now + pa_reattach_backoff a)) a);;
      update (λ a, upd_reattach_backoff (Z.min (pa_reattach_backoff a * 2) REATTACH_BACKOFF_MAX) a).

(** [delivered]: the launch task vanished, or its result. *)
Definition finish_spawn (delivered : option bool) : Act bool :=
  update (upd_pending_spawn false);;
  match delivered with
  | None => report FatalCrash;; mret false
  | Some true =>
      update (upd_factory true);; update (upd_player true);; reapply_overlays;;
      c ← ask pa_current;
      match c with Some (file, path, title) => load_player file path title | None => mret () end;;
      mret true
  | Some false => update (upd_factory true);; report FatalCrash;; ask (λ a, negb (pa_spawn_failure_exits a))
  end.

(** ** Player events *)

Definition handle_pause_observation (paused : bool) : Act unit :=
  reanchor_estimate;; update (upd_believed_pause (Some paused));;
  a ← ask id;
  if decide (head (pa_pending_pause_echoes a) = Some paused) then
    update (λ a, upd_pending_pause_echoes (tail (pa_pending_pause_echoes a)) a)
  else
    update (upd_pending_pause_echoes []);;
    if paused && pa_grace_lock a && pa_desired_playing a then
      apply_desired_pause;; report (OGraceRefused RefusePause)
    else report (if paused then UserPaused else UserUnpaused).

Definition handle_seeked (position_millis : Z) : Act unit :=
  a ← ask id;
  let echo := bool_decide (pa_pending_seek_echoes a ≠ 0%nat) in
  only_if echo (update (λ a, upd_pending_seek_echoes (pred (pa_pending_seek_echoes a)) a));;
  if negb (player_on_current_file a) then mret ()
  else
    update (upd_eof_reported false);;
    from ← match pa_pending_user_seek a with
           | Some (from, _, _) => mret (Some from)
           | None => estimate_now
           end;
    let from_millis := default position_millis from in
    note_position position_millis;;
    if negb echo && pa_grace_lock a then
      seek_programmatic from_millis;; report (OGraceRefused RefuseSeek)
    else if negb echo then
      now ← instant_now; update (upd_pending_user_seek (Some (from_millis, position_millis, now)))
    else mret ().

Definition handle_loaded : Act unit :=
  update (upd_believed_pause (Some true));;
  e ← ask pa_estimate; only_if (bool_decide (e = None)) (note_position 0);;
  restore ← ask pa_restore_millis;
  match restore with
  | Some millis => update (upd_restore_millis None);; seek_programmatic millis
  | None => mret ()
  end;;
  apply_desired_pause.

Definition handle_path_changed (path : string) : Act unit :=
  update (upd_observed_path (Some path));;
  a ← ask id;
  let ours := match pa_current a with Some (_, commanded, _) => bool_decide (commanded = path) | None => false end in
  only_if (negb ours) (update (λ a, upd_drift (Drift.reset (pa_drift a)) a);; report (PathObserved path)).

(** A report about the current file. *)
Definition about_current (o : Ed2kHash → PlayerOutput) : Act unit :=
  c ← ask current_file; match c with Some file => report (o file) | None => mret () end.

(** [None]: the connection to the player was lost. *)
Definition handle_player_event (event : option PlayerEvent) : Act bool :=
  match event with
  | None => handle_player_death false
  | Some (Exited clean) => handle_player_death clean
  | Some (PauseChanged paused) => handle_pause_observation paused;; mret true
  | Some (Seeked position_millis) => handle_seeked position_millis;; mret true
  | Some (EvPosition position_millis) =>
      a ← ask id; only_if (player_on_current_file a) (note_position position_millis);; mret true
  | Some (EvDurationKnown duration_millis) =>
      a ← ask id;
      only_if (player_on_current_file a) (about_current (λ file, DurationKnown file duration_millis));; mret true
  | Some Loaded => handle_loaded;; mret true
  | Some (PathChanged path) => handle_path_changed path;; mret true
  | Some (EvSubtitleLine text speaker) =>
      e ← estimate_now; report (OSubtitleLine text speaker (default 0 e));; mret true
  | Some EvEof =>
      a ← ask id;
      only_if (negb (pa_eof_reported a) && player_on_current_file a)
        (update (upd_eof_reported true);; about_current Eof);;
      mret true
  | Some EvLoadFailed => about_current LoadFailed;; mret true
  end.

(** ** Timers *)

Definition flush_user_seek : Act unit :=
  s ← ask pa_pending_user_seek;
  match s with
  | Some (from_millis, to_millis, _) =>
      update (upd_pending_user_seek None);; report (UserSeeked from_millis to_millis)
  | None => mret ()
  end.

Definition maybe_emit_position : Act unit :=
  a ← ask id;
  if negb (player_on_current_file a) then mret ()
  else
    e ← estimate_now;
    match e, current_file a with
    | Some position_millis, Some file =>
        let cadence := if decide (pa_believed_pause a = Some false) then POSITION_CADENCE_PLAYING
                       else POSITION_CADENCE_PAUSED in
        due ← match pa_last_position_emit a with
              | None => mret true
              | Some at_ => now ← instant_now; mret (cadence <=? Z.max 0 (now - at_))
              end;
        only_if due (now ← instant_now; update (upd_last_position_emit (Some now));;
                     report (PositionTick file position_millis))
    | _, _ => mret ()
    end.

(** ** The main loop *)

(** [Actor] as [run] builds it, and what it does before the loop. *)
Definition new_actor (attach_mode : bool) : Actor :=
  mkActor true 0 false None None false None one Drift.new [] 0 None false None None None false None 0
    attach_mode None REATTACH_BACKOFF_INITIAL false false [] None 0.
Definition start_actor : Act unit :=
  attach ← ask pa_attach_mode; if attach : bool then begin_reattach else begin_spawn true.

(** The arms of [select!]; [OnCommand None] is the closed channel. *)
Inductive Arm :=
  | OnCommand (cmd : option PlayerCommand)
  | OnEvent (event : option PlayerEvent)
  | OnSpawned (delivered : option bool)
  | OnCadence
  | OnDebounce
  | OnReattach
  | OnOsdExpiry.

(** Whether an arm may be taken at an instant. *)
Definition enabled (a : Actor) (now : Z) (arm : Arm) : bool :=
  match arm with
  | OnCommand _ | OnCadence => true
  | OnEvent _ => pa_player a
  | OnSpawned _ => pa_pending_spawn a
  | OnDebounce => match pa_pending_user_seek a with Some (_, _, at_) => at_ + SEEK_DEBOUNCE <=? now | None => false end
  | OnReattach => match pa_reattach_at a with Some at_ => at_ <=? now | None => false end
  | OnOsdExpiry => match head (pa_osd_chat a) with Some (_, at_) => at_ <=? now | None => false end
  end.

(** One iteration; [false] leaves the loop. *)
Definition iteration (arm : Arm) : Act bool :=
  match arm with
  | OnCommand None => mret false
  | OnCommand (Some cmd) =>
      handle_command cmd;; mret (match cmd with Shutdown => false | _ => true end)
  | OnEvent event => handle_player_event event
  | OnSpawned delivered => finish_spawn delivered
  | OnCadence => maybe_emit_position;; mret true
  | OnDebounce => flush_user_seek;; mret true
  | OnReattach => try_reattach;; mret true
  | OnOsdExpiry => expire_osd_chat;; mret true
  end.
Definition finish : Act unit := p ← ask pa_player; only_if p (call CShutdown;; mret ()).

(** The loop over a sequence of arms; one that is not enabled is not taken. For each
    taken, the state it was taken in and what was done; then the state at the end. *)
Definition History : Type := list (Actor * Arm * list Eff).
Fixpoint loop (arms : list Arm) (a : Actor) : History * Actor :=
  match arms with
  | [] => ([], a)
  | arm :: rest =>
      let '(now, (a, _)) := instant_now a in
      if enabled a now arm then
        let '(go, (a', out)) := iteration arm a in
        if go : bool then let '(h, z) := loop rest a' in ((a, arm, out) :: h, z)
        else let '(_, (z, out')) := finish a' in ([(a, arm, out ++ out')], z)
      else loop rest a
  end.
Definition run_actor (attach_mode : bool) (arms : list Arm) : History * Actor :=
  loop arms (start_actor (new_actor attach_mode)).2.1.
End actor.
