(* ===== verification/PlayerCorrect.v ===== *)
(** * The player actor: what it guarantees

    The operations first, each described by the fields it may change and the
    calls it makes; then invariants of the loop; then statements over whole runs:
    attribution of observations to files, the cadence of reports, ends of file and
    the outage lock. *)

From Stdlib Require Import SpecFloat.
From S2P Require Import Prelude Text Types Sync TimeSync F64 Drift Session PlayerActor.

#[global] Arguments decide : simpl never.
#[global] Arguments bool_decide : simpl never.
#[global] Arguments extrapolate : simpl never.
#[global] Arguments f64_lt : simpl never.
#[global] Arguments f64_sub : simpl never.
#[global] Arguments Drift.observe : simpl never.
#[global] Arguments Drift.reset : simpl never.
#[global] Arguments Z.add : simpl never.
#[global] Arguments Z.sub : simpl never.
#[global] Arguments Z.mul : simpl never.
#[global] Arguments Z.max : simpl never.
#[global] Arguments Z.min : simpl never.
#[global] Arguments Z.leb : simpl never.
#[global] Arguments Z.ltb : simpl never.
#[global] Arguments Z.eqb : simpl never.
#[global] Arguments reanchor_estimate : simpl never.
#[global] Arguments set_speed : simpl never.
#[global] Arguments seek_programmatic : simpl never.
#[global] Arguments apply_desired_pause : simpl never.
#[global] Arguments apply_overlay : simpl never.
#[global] Arguments render_chat_overlay : simpl never.
#[global] Arguments render_blocker_overlay : simpl never.
#[global] Arguments reapply_overlays : simpl never.
#[global] Arguments load_player : simpl never.
#[global] Arguments estimate_now : simpl never.
#[global] Arguments begin_spawn : simpl never.
#[global] Arguments current_file : simpl never.
#[global] Arguments player_on_current_file : simpl never.
#[global] Arguments u32_wrap : simpl never.
#[global] Arguments delta_of : simpl never.

(** Run a computation as far as it goes. *)
Ltac exec :=
  unfold about_current, note_position, shared_now, call, instant_now, next, report, effect, update, ask, only_if,
    mbind, Act_bind, mret, Act_ret; cbn.

(** ** Frames *)

(** A computation that keeps [π] and whose effects are all [ok]. *)
Section frame.
Context {T : Type} (π : Actor → T) (ok : Eff → bool).

Definition framed {A} (m : Act A) : Prop :=
  ∀ a, π (m a).2.1 = π a ∧ (pa_reads a ≤ pa_reads (m a).2.1)%nat ∧ Forall (λ e, ok e = true) (m a).2.2.

Lemma framed_ret {A} (x : A) : framed (mret x).
Proof. done. Qed.
Lemma framed_ask {A} (f : Actor → A) : framed (ask f).
Proof. done. Qed.
Lemma framed_bind {A B} (m : Act A) (f : A → Act B) : framed m → (∀ x, framed (f x)) → framed (m ≫= f).
Proof.
  intros Hm Hf a. unfold mbind, Act_bind. specialize (Hm a). destruct (m a) as [x [a1 o1]]. cbn in Hm.
  specialize (Hf x a1). destruct (f x a1) as [y [a2 o2]]. cbn in *. destruct Hm as (H1 & H2 & H3), Hf as (H4 & H5 & H6).
  split; [congruence|]. split; [lia|]. by apply Forall_app.
Qed.
Lemma framed_update f : (∀ a, π (f a) = π a ∧ pa_reads (f a) = pa_reads a) → framed (update f).
Proof. intros Hf a. cbn. destruct (Hf a) as [-> ->]. split_and!; [done|lia|constructor]. Qed.
Lemma framed_effect e : ok e = true → framed (effect e).
Proof. intros He a. cbn. split_and!; [done|lia|by constructor]. Qed.
Lemma framed_next {A} (f : nat → A) : (∀ n a, π (upd_reads n a) = π a) → framed (next f).
Proof. intros Hf a. cbn. split_and!; [apply Hf|lia|constructor]. Qed.
End frame.

(** The rest of a computation after a framed part. *)
Lemma bind_framed {T A B} (π : Actor → T) ok (m : Act A) (f : A → Act B) a : framed π ok m →
  ∃ x b o, π b = π a ∧ (pa_reads a ≤ pa_reads b)%nat ∧ Forall (λ e, ok e = true) o ∧
    (m ≫= f) a = ((f x b).1, ((f x b).2.1, o ++ (f x b).2.2)).
Proof.
  intros Hm. specialize (Hm a). unfold mbind, Act_bind. destruct (m a) as [x [b o]]. exists x, b, o.
  destruct (f x b) as [y [c o']]. destruct Hm as (H1 & H2 & H3). by split_and!.
Qed.

(** Frames by unfolding. *)
Ltac frame_step :=
  lazymatch goal with
  | |- framed _ _ (mbind _ _) => apply framed_bind; [|intros ?]
  | |- framed _ _ (mret _) => apply framed_ret
  | |- framed _ _ (ask _) => apply framed_ask
  | |- framed _ _ (update _) => apply framed_update; intros ?; split; reflexivity
  | |- framed _ _ (effect (Report (if ?b then _ else _))) => destruct b
  | |- framed _ _ (effect _) => apply framed_effect; reflexivity
  | |- framed _ _ (next _) => apply framed_next; reflexivity
  | |- framed _ _ (match ?x with _ => _ end) => destruct x
  | |- framed _ _ ?m => let h := head_of m in unfold h
  end
with head_of m := match m with ?f _ => head_of f | _ => m end.
Ltac frame := repeat frame_step.


Section correct.
Context (R : Readings).

(** ** Operations *)

(** A computation, made explicit. *)
Definition does {A} (m : Act A) (a : Actor) (x : A) (a' : Actor) (o : list Eff) : Prop := m a = (x, (a', o)).

Lemma does_bind {A B} (m : Act A) (f : A → Act B) a x a1 o1 y a2 o2 :
  does m a x a1 o1 → does (f x) a1 y a2 o2 → does (m ≫= f) a y a2 (o1 ++ o2).
Proof. unfold does, mbind, Act_bind. intros -> ->. done. Qed.

Lemma same_reads a : upd_reads (pa_reads a) a = a.
Proof. by destruct a. Qed.

Lemma bind_quiet {A B} (m : Act A) (f : A → Act B) a x a1 : does m a x a1 [] → (m ≫= f) a = f x a1.
Proof. unfold does, mbind, Act_bind. intros ->. cbn. by destruct (f x a1) as [? [? ?]]. Qed.
Lemma bind_ask {A B} (f : Actor → A) (k : A → Act B) a : (ask f ≫= k) a = k (f a) a.
Proof. exec. by destruct (k (f a) a) as [? [? ?]]. Qed.
Lemma bind_update {B} f (k : unit → Act B) a : (update f ≫= k) a = k () (f a).
Proof. exec. by destruct (k () (f a)) as [? [? ?]]. Qed.
Lemma bind_next {A B} (f : nat → A) (k : A → Act B) a :
  (next f ≫= k) a = k (f (pa_reads a)) (upd_reads (S (pa_reads a)) a).
Proof. exec. by destruct (k (f (pa_reads a)) _) as [? [? ?]]. Qed.

Lemma seq_ret {A B} (m : Act A) (y : B) a : ((m;; mret y) a).2 = (m a).2.
Proof. exec. destruct (m a) as [? [? o]]. cbn. by rewrite app_nil_r. Qed.

(** The calls that move or shape playback are not overlays. *)
Definition is_overlay (e : Eff) : bool := match e with Call (CSetOsdOverlay _ _) _ => true | _ => false end.

Lemma reanchor_spec a : ∃ n e, does (reanchor_estimate R) a () (upd_reads n (upd_estimate e a)) [] ∧
  (pa_reads a ≤ n)%nat ∧ (e = None ↔ pa_estimate a = None).
Proof.
  unfold does, reanchor_estimate, estimate_now. exec. destruct (pa_estimate a) as [est|] eqn:He; cbn.
  - case_decide; cbn; eexists _, _; (split; [reflexivity|]); cbn; (split; [lia|done]).
  - exists (pa_reads a), None. split; [|done]. destruct a. cbn in *. by subst.
Qed.

Lemma set_speed_spec v a : ∃ n e s o, does (set_speed R v) a () (upd_reads n (upd_estimate e (upd_speed s a))) o ∧
  (pa_reads a ≤ n)%nat ∧ (e = None ↔ pa_estimate a = None) ∧
  (o = [] ∨ pa_player a = true ∧ ∃ ok, o = [Call (CSetSpeed v) ok]).
Proof.
  unfold does, set_speed. exec.
  assert (∀ n, upd_reads n (upd_estimate (pa_estimate a) (upd_speed (pa_speed a) a)) = upd_reads n a) as Hid by (by destruct a).
  destruct (f64_lt _ _); cbn; [|destruct (pa_player a) eqn:Hp; cbn].
  - exists (pa_reads a), (pa_estimate a), (pa_speed a), []. rewrite Hid. split; [by destruct a|]. split; [lia|]. split; [done|by left].
  - destruct (rd_ok R (pa_reads a)) eqn:Hok; cbn.
    + match goal with |- context [reanchor_estimate R ?b] => destruct (reanchor_spec b) as (n & e & Hd & Hn & He) end.
      unfold does in Hd. rewrite Hd. cbn. eexists n, e, v, _. split; [reflexivity|]. split; [cbn in Hn; lia|]. split; [done|]. right. by eauto.
    + eexists _, (pa_estimate a), (pa_speed a), _. rewrite Hid. split; [reflexivity|]. split; [lia|]. split; [done|]. right. by eauto.
  - exists (pa_reads a), (pa_estimate a), (pa_speed a), []. rewrite Hid. split; [by destruct a|]. split; [lia|]. split; [done|by left].
Qed.

Lemma seek_spec t a : ∃ n e k o,
  does (seek_programmatic R t) a () (upd_reads n (upd_estimate e (upd_pending_seek_echoes k a))) o ∧
  (pa_reads a ≤ n)%nat ∧ (pa_estimate a ≠ None → e ≠ None) ∧
  ((o = [] ∨ o = [Call (CSeek t) false]) ∧ k = pa_pending_seek_echoes a ∧ e = pa_estimate a ∨
   o = [Call (CSeek t) true] ∧ pa_player a = true ∧ k = S (pa_pending_seek_echoes a) ∧
     ∃ m, (m < n)%nat ∧ e = Some (mkEstimate t (rd_instant R m))).
Proof.
  unfold does, seek_programmatic. exec.
  assert (∀ n, upd_reads n (upd_estimate (pa_estimate a) (upd_pending_seek_echoes (pa_pending_seek_echoes a) a)) = upd_reads n a)
    as Hid by (by destruct a).
  destruct (pa_player a) eqn:Hp; cbn; [destruct (rd_ok R (pa_reads a)) eqn:Hok; cbn|].
  - eexists _, _, _, _. split; [reflexivity|]. cbn. split; [lia|]. split; [done|]. right. split_and!; try done.
    eexists _. split; [|reflexivity]. lia.
  - eexists _, (pa_estimate a), (pa_pending_seek_echoes a), _. rewrite Hid. split; [reflexivity|].
    split; [lia|]. split; [done|]. left. by eauto.
  - eexists (pa_reads a), (pa_estimate a), (pa_pending_seek_echoes a), []. rewrite Hid. split; [by destruct a|].
    split; [lia|]. split; [done|]. left. by eauto.
Qed.

Lemma pause_spec a : ∃ n e b q o, let t := negb (pa_desired_playing a) in
  does (apply_desired_pause R) a ()
    (upd_reads n (upd_estimate e (upd_believed_pause b (upd_pending_pause_echoes q a)))) o ∧
  (pa_reads a ≤ n)%nat ∧ (e = None ↔ pa_estimate a = None) ∧
  ((o = [] ∧ (pa_current a = None ∨ pa_believed_pause a = Some t ∨ pa_player a = false) ∨ o = [Call (CSetPause t) false]) ∧
     b = pa_believed_pause a ∧ q = pa_pending_pause_echoes a ∨
   o = [Call (CSetPause t) true] ∧ pa_player a = true ∧ pa_believed_pause a ≠ Some t ∧ b = Some t ∧
     q = pa_pending_pause_echoes a ++ [t]).
Proof.
  unfold does, apply_desired_pause. exec. set (t := negb _).
  assert (∀ n, upd_reads n (upd_estimate (pa_estimate a) (upd_believed_pause (pa_believed_pause a)
    (upd_pending_pause_echoes (pa_pending_pause_echoes a) a))) = upd_reads n a) as Hid by (by destruct a).
  assert (a = upd_reads (pa_reads a) a) as Hsame by (by destruct a).
  destruct (bool_decide (pa_current a = None) || bool_decide (pa_believed_pause a = Some t)) eqn:Hskip; cbn.
  { eexists (pa_reads a), (pa_estimate a), (pa_believed_pause a), (pa_pending_pause_echoes a), []. rewrite Hid, <-Hsame.
    split; [done|]. split; [lia|]. split; [done|]. left. split; [|done]. left. split; [done|].
    apply orb_true_iff in Hskip as [H%bool_decide_eq_true|H%bool_decide_eq_true]; tauto. }
  apply orb_false_iff in Hskip as [_ Hb%bool_decide_eq_false].
  destruct (pa_player a) eqn:Hp; cbn; [destruct (rd_ok R (pa_reads a)) eqn:Hok; cbn|].
  - match goal with |- context [reanchor_estimate R ?b] => destruct (reanchor_spec b) as (n & e & Hd & Hn & He) end.
    unfold does in Hd. rewrite Hd. cbn. eexists n, e, _, _, _. split; [reflexivity|]. split; [cbn in Hn; lia|]. split; [done|]. right. by eauto.
  - eexists _, (pa_estimate a), (pa_believed_pause a), (pa_pending_pause_echoes a), _. rewrite Hid. split; [reflexivity|].
    split; [lia|]. split; [done|]. left. split; [by right|done].
  - eexists (pa_reads a), (pa_estimate a), (pa_believed_pause a), (pa_pending_pause_echoes a), []. rewrite Hid, <-Hsame.
    split; [done|]. split; [lia|]. split; [done|]. left. split; [left; tauto|done].
Qed.

Lemma overlay_spec id data a : ∃ n o, does (apply_overlay R id data) a () (upd_reads n a) o ∧
  (pa_reads a ≤ n)%nat ∧ Forall (λ e, is_overlay e = true) o.
Proof.
  unfold does, apply_overlay. exec. destruct (pa_player a); cbn.
  - eexists _, _. split; [reflexivity|]. split; [lia|]. by repeat constructor.
  - exists (pa_reads a), []. rewrite same_reads. split; [done|]. split; [lia|]. constructor.
Qed.
Lemma chat_overlay_spec a : ∃ n o, does (render_chat_overlay R) a () (upd_reads n a) o ∧
  (pa_reads a ≤ n)%nat ∧ Forall (λ e, is_overlay e = true) o.
Proof.
  destruct (overlay_spec OSD_CHAT_OVERLAY_ID (chat_overlay (pa_osd_chat a)) a) as (n & o & Hd & H). exists n, o.
  split; [|done]. unfold does, render_chat_overlay in *. exec. by rewrite Hd.
Qed.
Lemma blocker_overlay_spec a : ∃ n o, does (render_blocker_overlay R) a () (upd_reads n a) o ∧
  (pa_reads a ≤ n)%nat ∧ Forall (λ e, is_overlay e = true) o.
Proof.
  destruct (overlay_spec OSD_BLOCKER_OVERLAY_ID (blocker_data (pa_blocker_overlay a)) a) as (n & o & Hd & H). exists n, o.
  split; [|done]. unfold does, render_blocker_overlay in *. exec. by rewrite Hd.
Qed.
Lemma reapply_spec a : ∃ n o, does (reapply_overlays R) a () (upd_reads n a) o ∧
  (pa_reads a ≤ n)%nat ∧ Forall (λ e, is_overlay e = true) o.
Proof.
  unfold does, reapply_overlays. exec.
  assert (upd_reads (pa_reads a) a = a) as Hsame by (by destruct a).
  destruct (negb (bool_decide (pa_osd_chat a = []))); cbn.
  - destruct (chat_overlay_spec a) as (n & o & Hd & Hn & Ho). rewrite Hd. cbn.
    destruct (bool_decide (is_Some (pa_blocker_overlay a))); cbn.
    + destruct (blocker_overlay_spec (upd_reads n a)) as (n' & o' & Hd' & Hn' & Ho'). rewrite Hd'. cbn in *.
      eexists n', _. split; [reflexivity|]. split; [lia|]. by apply Forall_app.
    + eexists n, _. split; [reflexivity|]. split; [lia|]. apply Forall_app. by split.
  - destruct (bool_decide (is_Some (pa_blocker_overlay a))); cbn.
    + destruct (blocker_overlay_spec a) as (n' & o' & Hd' & Hn' & Ho'). rewrite Hd'. cbn in *.
      eexists n', _. split; [reflexivity|]. by split.
    + eexists (pa_reads a), []. rewrite Hsame. split; [done|]. split; [lia|constructor].
Qed.

Lemma load_player_spec file path title a : ∃ n o, does (load_player R file path title) a () (upd_reads n a) o ∧
  (pa_reads a ≤ n)%nat ∧
  (o = [] ∧ pa_player a = false ∨ pa_player a = true ∧
   (o = [Call (CLoad path title) true] ∨ o = [Call (CLoad path title) false; Report (LoadFailed file)])).
Proof.
  unfold does, load_player. exec. destruct (pa_player a); cbn; [destruct (rd_ok R (pa_reads a)); cbn|].
  - eexists _, _. split; [reflexivity|]. split; [lia|]. tauto.
  - eexists _, _. split; [reflexivity|]. split; [lia|]. tauto.
  - eexists (pa_reads a), []. rewrite same_reads. split; [done|]. split; [lia|]. tauto.
Qed.

Lemma estimate_spec a : ∃ n x, does (estimate_now R) a x (upd_reads n a) [] ∧ (pa_reads a ≤ n)%nat ∧
  (x = None ↔ pa_estimate a = None).
Proof.
  unfold does, estimate_now. exec. assert (upd_reads (pa_reads a) a = a) as Hsame by (by destruct a).
  destruct (pa_estimate a); [case_decide; cbn|].
  - eexists _, _. split; [reflexivity|]. split; [lia|done].
  - eexists (pa_reads a), _. rewrite Hsame. split; [reflexivity|]. split; [lia|done].
  - eexists (pa_reads a), _. rewrite Hsame. split; [reflexivity|]. split; [lia|done].
Qed.

(** ** Runs *)

Definition is_shutdown (e : Eff) : bool := match e with Call CShutdown _ => true | _ => false end.

(** The instant at which the arm of an entry was taken. *)
Definition taken_at (a : Actor) : Z := rd_instant R (pred (pa_reads a)).

Lemma finish_spec a : ∃ n o, does (finish R) a () (upd_reads n a) o ∧ (pa_reads a ≤ n)%nat ∧
  Forall (λ e, is_shutdown e = true) o.
Proof.
  unfold does, finish. exec. destruct (pa_player a); cbn.
  - eexists _, _. split; [reflexivity|]. split; [lia|]. by repeat constructor.
  - exists (pa_reads a), []. rewrite same_reads. split; [done|]. split; [lia|]. constructor.
Qed.

(** An invariant [I] of the state and of a summary [g] of the history so far; [J] is
    what is left of it when the loop is left. *)
Section runs.
Context {G : Type} (upd : G → Actor * Arm * list Eff → G) (I J : G → Actor → Prop).
Hypothesis I_reads : ∀ g a n, (pa_reads a ≤ n)%nat → I g a → I g (upd_reads n a).
Hypothesis J_reads : ∀ g a n, (pa_reads a ≤ n)%nat → J g a → J g (upd_reads n a).
Hypothesis I_J : ∀ g a, I g a → J g a.
Hypothesis I_step : ∀ g a arm, I g a → enabled a (taken_at a) arm = true →
  let r := iteration R arm a in
  (r.1 = true → I (upd g (a, arm, r.2.2)) r.2.1) ∧ J (upd g (a, arm, r.2.2)) r.2.1.
Hypothesis upd_finish : ∀ g a arm o e, Forall (λ e, is_shutdown e = true) e → upd g (a, arm, o ++ e) = upd g (a, arm, o).

Definition explained (e : Actor * Arm * list Eff) : Prop :=
  enabled e.1.1 (taken_at e.1.1) e.1.2 = true ∧
  ∃ ext, e.2 = (iteration R e.1.2 e.1.1).2.2 ++ ext ∧ Forall (λ e, is_shutdown e = true) ext.

Lemma loop_invariant arms : ∀ g a, I g a →
  J (foldl upd g (loop R arms a).1) (loop R arms a).2 ∧
  ∀ h1 e h2, (loop R arms a).1 = h1 ++ e :: h2 → I (foldl upd g h1) e.1.1 ∧ explained e.
Proof.
  induction arms as [|arm rest IH]; intros g a Ha; [split; [by apply I_J|intros h1 ? ? ?; by destruct h1]|].
  cbn [loop]. unfold instant_now, next. cbn [fst snd].
  set (b := upd_reads (S (pa_reads a)) a). assert (I g b) as Hb by (apply I_reads; [lia|done]).
  change (rd_instant R (pa_reads a)) with (taken_at b).
  destruct (enabled b (taken_at b) arm) eqn:Hen; [|by apply IH].
  destruct (I_step g b arm Hb Hen) as [Hs Hj]. destruct (iteration R arm b) as [go [a' out]] eqn:Hit.
  assert (∀ ext, Forall (λ e, is_shutdown e = true) ext → explained (b, arm, out ++ ext)) as Hex.
  { intros ext Hext. split; [done|]. exists ext. cbn [fst snd]. by rewrite Hit. }
  cbn [fst snd] in Hs, Hj. destruct go.
  - specialize (IH _ _ (Hs eq_refl)). destruct (loop R rest a') as [h z]. cbn [fst snd foldl] in *. destruct IH as [IH1 IH2].
    split; [done|]. intros h1 e h2 Heq. destruct h1 as [|e1 h1]; injection Heq as <- Heq.
    + split; [done|]. rewrite <-(app_nil_r out). by apply Hex.
    + apply IH2 in Heq. done.
  - destruct (finish_spec a') as (n & o & Hf & Hn & Ho). unfold does in Hf. rewrite !Hf. cbn [fst snd foldl].
    rewrite upd_finish by done. split; [by apply J_reads|].
    intros h1 e h2 Heq. destruct h1 as [|e1 h1]; cbn [app] in Heq.
    + injection Heq as <- _. split; [exact Hb|by apply Hex].
    + injection Heq as _ Heq. by destruct h1.
Qed.
End runs.

(** ** Attribution *)

(** What a history shows: the last load commanded, and the path the player itself
    reported last, since it last died. *)
Definition Shown : Type := option (Ed2kHash * PathBuf * option string) * option PathBuf.
Definition show_arm (g : Shown) (arm : Arm) : Shown :=
  match arm with
  | OnCommand (Some (Load file path title _)) => (Some (file, path, title), g.2)
  | OnEvent (Some (PathChanged path)) => (g.1, Some path)
  | OnEvent None | OnEvent (Some (Exited _)) => (g.1, None)
  | _ => g
  end.
Definition shown (h : History) : Shown := foldl (λ g e, show_arm g e.1.2) (None, None) h.
Definition shows_actor (g : Shown) (a : Actor) : Prop := (pa_current a, pa_observed_path a) = g.

Lemma framed_keeps {T A} (π : Actor → T) (m : Act A) a : framed π (λ _, true) m → π (m a).2.1 = π a.
Proof. intros Hm. apply Hm. Qed.

Lemma shows_death clean a : let r := handle_player_death R clean a in
  (pa_current r.2.1, pa_observed_path r.2.1) = (pa_current a, None).
Proof.
  unfold handle_player_death. rewrite !bind_update.
  refine (eq_trans (framed_keeps (λ a, (pa_current a, pa_observed_path a)) _ _ _) eq_refl). frame.
Qed.
Lemma shows_step g a arm : shows_actor g a → shows_actor (show_arm g arm) (iteration R arm a).2.1.
Proof.
  unfold shows_actor. intros <-.
  assert (∀ A (m : Act A), framed (λ a, (pa_current a, pa_observed_path a)) (λ _, true) m →
    (pa_current (m a).2.1, pa_observed_path (m a).2.1) = (pa_current a, pa_observed_path a)) as Hf.
  { intros A m Hm. apply Hm. }
  destruct arm as [[[]|]|[[]|]|[[]|]| | | |]; cbn [iteration show_arm fst snd];
    try (apply Hf; frame); try apply shows_death.
  - rewrite seq_ret. cbn [handle_command]. unfold handle_load. rewrite bind_ask, bind_update.
    refine (eq_trans (framed_keeps (λ a, (pa_current a, pa_observed_path a)) _ _ _) eq_refl). frame.
  - cbn [handle_player_event]. rewrite seq_ret. unfold handle_path_changed. rewrite bind_update.
    refine (eq_trans (framed_keeps (λ a, (pa_current a, pa_observed_path a)) _ _ _) eq_refl). frame.
Qed.

(** Reports that speak about a file. *)
Definition speaks_of (e : Eff) : option Ed2kHash :=
  match e with
  | Report (PositionTick file _) | Report (DurationKnown file _) | Report (Eof file) => Some file
  | _ => None
  end.
Definition mute (e : Eff) : bool := match speaks_of e with Some _ => false | None => true end.
Definition speaking_arm (arm : Arm) : bool :=
  match arm with OnCadence | OnEvent (Some (EvDurationKnown _)) | OnEvent (Some EvEof) => true | _ => false end.

Lemma mute_frame arm : speaking_arm arm = false → framed (λ _, ()) mute (iteration R arm).
Proof. intros Hne. destruct arm as [[[]|]|[[]|]|[[]|]| | | |]; try done; cbn [iteration]; frame. Qed.

Definition on_file (a : Actor) (file : Ed2kHash) : Prop :=
  ∃ path title, pa_current a = Some (file, path, title) ∧ pa_observed_path a = Some path.
Lemma on_current_file a : player_on_current_file a = true → ∃ file, current_file a = Some file ∧ on_file a file.
Proof.
  unfold player_on_current_file, current_file, on_file. destruct (pa_observed_path a) as [p|]; [|done].
  destruct (pa_current a) as [[[file q] title]|]; [|done]. intros ->%bool_decide_eq_true. exists file. split; [done|]. by eexists _, _.
Qed.

Lemma speaks_step a arm e file :
  e ∈ (iteration R arm a).2.2 → speaks_of e = Some file → on_file a file.
Proof.
  intros He Hs. destruct (speaking_arm arm) eqn:Harm; last first.
  { destruct (mute_frame arm Harm a) as (_ & _ & Hm). rewrite Forall_forall in Hm. specialize (Hm e He).
    unfold mute in Hm. by rewrite Hs in Hm. }
  assert (∀ o : list Eff, e ∈ o → (player_on_current_file a = false → o = []) →
    (∀ f, current_file a = Some f → ∀ x, x ∈ o → speaks_of x = Some f ∨ speaks_of x = None) → on_file a file) as Hkey.
  { intros o Ho Hoff Hon. destruct (player_on_current_file a) eqn:Hp; [|rewrite Hoff in Ho by done; by apply elem_of_nil in Ho].
    destruct (on_current_file a Hp) as (f & Hf & Hof). destruct (Hon f Hf e Ho) as [H|H]; congruence. }
  destruct arm as [|[[]|]| | | | |]; try done; cbn [iteration handle_player_event] in He.
  - revert He. exec. destruct (player_on_current_file a) eqn:Hp; exec; [|by intros ?%elem_of_nil].
    destruct (current_file a) as [f|] eqn:Hf; exec; [|by intros ?%elem_of_nil]. intros Ho.
    apply (Hkey _ Ho); [congruence|]. intros f' [= <-] x ->%list_elem_of_singleton. by left.
  - revert He. exec. destruct (negb (pa_eof_reported a)) eqn:Hr, (player_on_current_file a) eqn:Hp; exec; try (by intros ?%elem_of_nil).
    change (current_file (upd_eof_reported true a)) with (current_file a).
    destruct (current_file a) as [f|] eqn:Hf; exec; [|by intros ?%elem_of_nil]. intros Ho.
    apply (Hkey _ Ho); [congruence|]. intros f' [= <-] x ->%list_elem_of_singleton. by left.
  - rewrite seq_ret in He. revert He. unfold maybe_emit_position. rewrite bind_ask.
    destruct (player_on_current_file (id a)) eqn:Hp; cbn [negb]; [|by intros ?%elem_of_nil].
    intros Ho. apply (Hkey _ Ho); [unfold id in Hp; congruence|]. intros f Hf x Hx. revert Hx.
    unfold id. rewrite Hf.
    destruct (estimate_spec a) as (n & y & Hd & _). exec. rewrite Hd. destruct y as [y|]; cbn; [|by intros ?%elem_of_nil].
    destruct (pa_last_position_emit a); cbn; [destruct (_ <=? _); cbn|]; try (by intros ?%elem_of_nil);
      intros ->%list_elem_of_singleton; by left.
Qed.
Lemma shown_run attach arms h1 e h2 :
  (run_actor R attach arms).1 = h1 ++ e :: h2 → shows_actor (shown h1) e.1.1 ∧ explained e.
Proof.
  intros Hh. eapply (loop_invariant (λ g e, show_arm g e.1.2) shows_actor shows_actor) in Hh; [exact Hh|..]; try done.
  - intros g a arm Hg _. split; [intros _|]; by apply shows_step.
  - by destruct attach.
Qed.
Lemma explained_elem a arm out x : explained (a, arm, out) → x ∈ out → is_shutdown x = false → x ∈ (iteration R arm a).2.2.
Proof.
  intros (_ & ext & He & Hext) Hx Hs. cbn [fst snd] in He. rewrite He in Hx. apply elem_of_app in Hx as [Hx|Hx]; [done|].
  rewrite Forall_forall in Hext. by rewrite (Hext x Hx) in Hs.
Qed.

(** ** Cadence *)

Definition is_tick (e : Eff) : bool := match e with Report (PositionTick _ _) => true | _ => false end.

Lemma cadence_frame arm : arm ≠ OnCadence →
  framed pa_last_position_emit (λ e, negb (is_tick e)) (iteration R arm).
Proof. intros Hne. destruct arm as [[[]|]|[[]|]|[[]|]| | | |]; try done; cbn [iteration]; frame. Qed.

(** The time a tick accounts for: the cadence of the state it was sent in. *)
Definition cadence_of (a : Actor) : Z :=
  if decide (pa_believed_pause a = Some false) then POSITION_CADENCE_PLAYING else POSITION_CADENCE_PAUSED.
Definition spend (t : Z) (e : Actor * Arm * list Eff) : Z := t + tally is_tick e.2 * cadence_of e.1.1.
Definition spent (h : History) : Z := foldl spend 0 h.

Definition paid (t : Z) (a : Actor) : Prop :=
  match pa_last_position_emit a with
  | None => t = 0
  | Some at_ => t ≤ at_ - rd_instant R 0 + POSITION_CADENCE_PAUSED ∧ ∃ m, (m < pa_reads a)%nat ∧ at_ = rd_instant R m
  end.

Lemma existsb_app_shutdown (f : Eff → bool) o e :
  (∀ x, is_shutdown x = true → f x = false) → Forall (λ e, is_shutdown e = true) e → existsb f (o ++ e) = existsb f o.
Proof.
  intros Hf He. rewrite existsb_app. assert (existsb f e = false) as ->; [|apply orb_false_r].
  induction He as [|x e Hx He IH]; [done|]. cbn. by rewrite Hf, IH.
Qed.

Lemma tally_false {A} (f : A → bool) l : Forall (λ x, negb (f x) = true) l → tally f l = 0.
Proof.
  unfold tally. induction 1 as [|x l Hx _ IH]; [done|]. cbn. apply negb_true_iff in Hx. by rewrite Hx.
Qed.
Lemma tally_app_shutdown (f : Eff → bool) o e :
  (∀ x, is_shutdown x = true → f x = false) → Forall (λ e, is_shutdown e = true) e → tally f (o ++ e) = tally f o.
Proof.
  intros Hf He. unfold tally. rewrite List.filter_app, length_app.
  assert (List.filter f e = []) as ->; [|cbn; lia].
  induction He as [|x e Hx He IH]; [done|]. cbn. by rewrite Hf, IH.
Qed.

Section cadence.
Hypothesis instants_grow : ∀ m n, (m ≤ n)%nat → rd_instant R m ≤ rd_instant R n.

Lemma paid_step t a arm : paid t a → paid (spend t (a, arm, (iteration R arm a).2.2)) (iteration R arm a).2.1.
Proof.
  intros Ht. assert (arm = OnCadence ∨ arm ≠ OnCadence) as [->|Hne] by (destruct arm; (by left) || by right); last first.
  { destruct (cadence_frame arm Hne a) as (H1 & H2 & H3%tally_false). unfold spend. cbn [fst snd]. rewrite H3, Z.mul_0_l, Z.add_0_r.
    unfold paid in *. rewrite H1. destruct (pa_last_position_emit a); [|done]. destruct Ht as (Ht & m & Hm & ->).
    split; [done|]. exists m. split; [lia|done]. }
  cbn [iteration]. rewrite seq_ret. unfold spend. cbn [fst snd].
  unfold maybe_emit_position. rewrite bind_ask. unfold id.
  assert (paid (t + 0) a) as Ht0 by (by rewrite Z.add_0_r).
  destruct (negb (player_on_current_file a)); [done|].
  destruct (estimate_spec a) as (n & y & Hd & Hn & _). rewrite (bind_quiet _ _ _ _ _ Hd).
  assert (∀ k, (pa_reads a ≤ k)%nat → paid (t + 0) (upd_reads k a)) as Hk.
  { intros k Hk. unfold paid in *. cbn. destruct (pa_last_position_emit a); [|done].
    destruct Ht0 as (Ht' & m & Hm & ->). split; [done|]. exists m. split; [lia|done]. }
  destruct y as [y|]; [|by apply Hk]. destruct (current_file a) as [f|]; [|by apply Hk].
  fold (cadence_of a).
  assert (∀ k at_, (pa_reads a ≤ k)%nat → at_ = rd_instant R k → t + cadence_of a ≤ at_ - rd_instant R 0 + POSITION_CADENCE_PAUSED →
    paid (t + cadence_of a) (upd_last_position_emit (Some at_) (upd_reads (S k) a))) as Htick.
  { intros k at_ Hk' -> Hle. unfold paid. cbn. split; [done|]. exists k. split; [lia|done]. }
  assert (cadence_of a ≤ POSITION_CADENCE_PAUSED) as Hc by (unfold cadence_of; by case_decide).
  destruct (pa_last_position_emit a) as [at_|] eqn:Hl.
  - exec. destruct (cadence_of a <=? Z.max 0 (rd_instant R n - at_)) eqn:Hdue; exec; [|by apply (Hk (S n)); lia].
    change (tally is_tick _) with 1. rewrite Z.mul_1_l.
    apply (Htick (S n)); [lia|done|]. unfold paid in Ht. rewrite Hl in Ht. destruct Ht as (Ht & m & Hm & ->).
    pose proof (instants_grow m n). pose proof (instants_grow n (S n)). lia.
  - exec. change (tally is_tick _) with 1. rewrite Z.mul_1_l. apply (Htick n); [lia|done|]. unfold paid in Ht. rewrite Hl in Ht. subst t. pose proof (instants_grow 0 n). lia.
Qed.
Lemma paid_spent t a : paid t a → t ≤ rd_instant R (pa_reads a) - rd_instant R 0 + POSITION_CADENCE_PAUSED.
Proof.
  assert (0 ≤ POSITION_CADENCE_PAUSED) by done. unfold paid. destruct (pa_last_position_emit a) as [at_|].
  - intros (Ht & m & Hm & ->). pose proof (instants_grow m (pa_reads a)). lia.
  - intros ->. pose proof (instants_grow 0 (pa_reads a)). lia.
Qed.
Lemma paid_reads t a n : (pa_reads a ≤ n)%nat → paid t a → paid t (upd_reads n a).
Proof.
  intros Hn. unfold paid. cbn. destruct (pa_last_position_emit a); [|done]. intros (Ht & m & Hm & ->).
  split; [done|]. exists m. split; [lia|done].
Qed.
End cadence.

(** ** Ends of file *)

Definition is_end (e : Eff) : bool := match e with Report (Eof _) => true | _ => false end.
(** Arms that let the next end of file be reported. *)
Definition rearms (arm : Arm) : bool :=
  match arm with
  | OnCommand (Some (Load _ _ _ _)) | OnCommand (Some (RecoverFalseEof _)) | OnEvent (Some (Seeked _)) => true
  | _ => false
  end.
(** Whether an end was reported since the last chance for one. *)
Definition end_arm (g : bool) (e : Actor * Arm * list Eff) : bool :=
  if rearms e.1.2 then false else g || existsb is_end e.2.
Definition end_noted (g : bool) (a : Actor) : Prop := g = true → pa_eof_reported a = true.

Lemma end_frame arm : rearms arm = false → arm ≠ OnEvent (Some EvEof) →
  framed pa_eof_reported (λ e, negb (is_end e)) (iteration R arm).
Proof. intros H1 H2. destruct arm as [[[]|]|[[]|]|[[]|]| | | |]; try done; cbn [iteration]; frame. Qed.
Lemma rearm_frame arm : rearms arm = true → framed (λ _, ()) (λ e, negb (is_end e)) (iteration R arm).
Proof. intros H1. destruct arm as [[[]|]|[[]|]|[[]|]| | | |]; try done; cbn [iteration]; frame. Qed.

Lemma existsb_false {A} (f : A → bool) l : Forall (λ x, negb (f x) = true) l → existsb f l = false.
Proof. induction 1 as [|x l Hx _ IH]; [done|]. cbn. by apply negb_true_iff in Hx as ->. Qed.
Lemma ends_step g a arm : end_noted g a →
  end_noted (end_arm g (a, arm, (iteration R arm a).2.2)) (iteration R arm a).2.1 ∧
  (existsb is_end (iteration R arm a).2.2 = true → pa_eof_reported a = false).
Proof.
  unfold end_noted, end_arm. cbn [fst snd]. intros Hg. destruct (rearms arm) eqn:Hr.
  { destruct (rearm_frame arm Hr a) as (_ & _ & Ho%existsb_false). by rewrite Ho. }
  assert (arm = OnEvent (Some EvEof) ∨ arm ≠ OnEvent (Some EvEof)) as [->|Hne].
  { destruct arm as [|[[]|]| | | | |]; (by left) || by right. }
  - cbn [iteration handle_player_event]. exec.
    destruct (pa_eof_reported a) eqn:He, (player_on_current_file a); cbn; try by rewrite ?He, ?orb_false_r.
    change (current_file (upd_eof_reported true a)) with (current_file a). by destruct (current_file a); cbn; rewrite ?orb_false_r.
  - destruct (end_frame arm Hr Hne a) as (He & _ & Ho%existsb_false). by rewrite Ho, He, orb_false_r.
Qed.
Lemma end_kept h : ∀ g, foldl end_arm g h = false → existsb (λ e, rearms e.1.2) h = false → g = false.
Proof.
  induction h as [|e h IH]; intros g; [done|]. cbn. intros Hf [He Hh]%orb_false_iff. specialize (IH _ Hf Hh).
  unfold end_arm in IH. rewrite He in IH. by apply orb_false_iff in IH as [-> _].
Qed.

(** ** The outage lock *)

(** The last lock and the last play state commanded. *)
Definition hold_arm (g : bool * bool) (arm : Arm) : bool * bool :=
  match arm with
  | OnCommand (Some (SetGraceLock locked)) => (locked, g.2)
  | OnCommand (Some (SetPlaying playing)) => (g.1, playing)
  | _ => g
  end.
Definition held (h : History) : bool * bool := foldl (λ g e, hold_arm g e.1.2) (false, false) h.
Definition seek_state (a : Actor) : bool * bool * option (Z * Z * Z) :=
  (pa_grace_lock a, pa_desired_playing a, pa_pending_user_seek a).
Definition holds_state (g : bool * bool) (s : bool * bool * option (Z * Z * Z)) : Prop :=
  s.1 = g ∧ (g.1 = true → s.2 = None).
Definition holds_actor (g : bool * bool) (a : Actor) : Prop := holds_state g (seek_state a).

(** Arms that may touch the lock or the scrub. *)
Definition scrub_arm (arm : Arm) : bool :=
  match arm with
  | OnCommand (Some (Load _ _ _ _)) | OnCommand (Some (SetGraceLock _)) | OnCommand (Some (SetPlaying _))
  | OnEvent None | OnEvent (Some (Exited _)) | OnEvent (Some (Seeked _)) | OnDebounce => true
  | _ => false
  end.
Definition is_user_seek (e : Eff) : bool := match e with Report (UserSeeked _ _) => true | _ => false end.
Definition is_user_pause (e : Eff) : bool := match e with Report UserPaused => true | _ => false end.

Lemma scrub_frame arm : scrub_arm arm = false → framed seek_state (λ e, negb (is_user_seek e)) (iteration R arm).
Proof. intros H. destruct arm as [[[]|]|[[]|]|[[]|]| | | |]; try done; cbn [iteration]; frame. Qed.
Lemma scrub_death clean a : let r := handle_player_death R clean a in
  seek_state r.2.1 = (pa_grace_lock a, pa_desired_playing a, None) ∧ Forall (λ e, negb (is_user_seek e) = true) r.2.2.
Proof.
  unfold handle_player_death. rewrite !bind_update. cbv zeta.
  match goal with |- context [?m (upd_believed_pause ?x ?b)] =>
    assert (framed seek_state (λ e, negb (is_user_seek e)) m) as Hf by frame;
    destruct (Hf (upd_believed_pause x b)) as (-> & _ & Ho) end.
  done.
Qed.

(** What follows [only_if c (update f)]. *)
Lemma after_update {B} c f (k : Act B) a (Q : B * (Actor * list Eff) → Prop) :
  (∀ b, b = a ∨ b = f a → Q (k b)) → Q ((only_if c (update f);; k) a).
Proof. intros Hk. destruct c; cbn [only_if]; [rewrite bind_update|rewrite (bind_quiet _ _ a () a) by done]; auto. Qed.

Definition quiet_hold (s : bool * bool * option (Z * Z * Z)) {B} (r : B * (Actor * list Eff)) : Prop :=
  (seek_state r.2.1).1 = s.1 ∧ (s.1.1 = true → (seek_state r.2.1).2 = s.2) ∧
  Forall (λ e, negb (is_user_seek e) = true) r.2.2.
Lemma framed_quiet_hold {B} (m : Act B) a : framed seek_state (λ e, negb (is_user_seek e)) m → quiet_hold (seek_state a) (m a).
Proof. intros Hm. destruct (Hm a) as (Hs & _ & Ho). unfold quiet_hold. by rewrite Hs. Qed.

Lemma seeked_spec p a : quiet_hold (seek_state a) (handle_seeked R p a).
Proof.
  unfold handle_seeked. rewrite bind_ask. unfold id. cbv zeta. apply after_update. intros b Hb.
  assert (seek_state a = seek_state b) as Heq by (destruct Hb; by subst). rewrite Heq.
  assert (pa_grace_lock a = pa_grace_lock b) as -> by (destruct Hb; by subst). clear Heq Hb.
  destruct (negb (player_on_current_file a)); [apply framed_quiet_hold; frame|].
  set (echo := bool_decide _). destruct (negb echo && pa_grace_lock b) eqn:Hl; [apply framed_quiet_hold; frame|].
  destruct (negb echo) eqn:He; [|apply framed_quiet_hold; frame]. cbn [andb] in Hl.
  match goal with |- quiet_hold _ (?m b) =>
    assert (framed (λ a, (seek_state a).1) (λ e, negb (is_user_seek e)) m) as Hm by frame;
    destruct (Hm b) as (Hs & _ & Ho) end.
  unfold quiet_hold. rewrite Hs. split; [done|]. split; [|done]. unfold seek_state. cbn. by rewrite Hl.
Qed.

Lemma holds_step g a arm : holds_actor g a →
  holds_actor (hold_arm g arm) (iteration R arm a).2.1 ∧
  (g.1 = true → Forall (λ e, negb (is_user_seek e) = true) (iteration R arm a).2.2).
Proof.
  unfold holds_actor, holds_state. intros [Hg Hp]. destruct (scrub_arm arm) eqn:Hs; last first.
  { destruct (scrub_frame arm Hs a) as (-> & _ & Ho).
    assert (hold_arm g arm = g) as -> by (by destruct arm as [[[]|]| | | | | |]). done. }
  destruct arm as [[[]|]|[[]|]|[[]|]| | | |]; try done; cbn [iteration hold_arm handle_command handle_player_event];
    rewrite ?seq_ret.
  - unfold handle_load. rewrite bind_ask, !bind_update.
    match goal with |- context [?m (upd_drift ?x ?b)] =>
      assert (framed seek_state (λ e, negb (is_user_seek e)) m) as Hf by frame;
      destruct (Hf (upd_drift x b)) as (-> & _ & Ho) end.
    done.
  - rewrite bind_update.
    match goal with |- context [?m (upd_desired_playing ?x ?b)] =>
      assert (framed seek_state (λ e, negb (is_user_seek e)) m) as Hf by frame;
      destruct (Hf (upd_desired_playing x b)) as (-> & _ & Ho) end.
    subst g. done.
  - unfold set_grace_lock. rewrite bind_ask. unfold id. subst g. cbn [fst snd] in *.
    destruct (locked && negb (pa_grace_lock a)) eqn:Hl; cbn [only_if]; last first.
    { rewrite (bind_quiet _ _ a () a) by done. split; [|intros _; constructor]. split; [done|]. cbn. intros ->.
      apply Hp. cbn. by apply negb_false_iff in Hl. }
    destruct (pa_pending_user_seek a) as [[[from to] t]|] eqn:Hpend; last first.
    { rewrite (bind_quiet _ _ a () a) by done. split; [|intros _; constructor]. split; [done|]. by intros _. }
    exec. match goal with |- context [seek_programmatic R from ?b] => destruct (seek_spec from b) as (n & e & k & o & Hd & _ & _ & Ho) end.
    rewrite Hd. cbn. split; [done|]. intros _.
    destruct Ho as [([->| ->] & _)|(-> & _)]; by repeat constructor.
  - destruct (seeked_spec position_millis a) as (H1 & H2 & H3). rewrite H1. subst g. split; [|done]. split; [done|].
    intros Hl. rewrite H2 by done. by apply Hp.
  - destruct (scrub_death clean a) as [-> Ho]. subst g. done.
  - destruct (scrub_death false a) as [-> Ho]. subst g. done.
  - unfold flush_user_seek. rewrite bind_ask. destruct (pa_pending_user_seek a) as [[[from to] t]|] eqn:Hpend.
    + exec. subst g. split; [done|]. intros Hl. by specialize (Hp Hl); cbn in Hp; congruence.
    + subst g. split; [split; [done|by intros _]|]. intros _. constructor.
Qed.

Lemma pause_frame arm : (∀ b, arm ≠ OnEvent (Some (PauseChanged b))) →
  framed (λ _, ()) (λ e, negb (is_user_pause e)) (iteration R arm).
Proof.
  intros H. destruct arm as [[[]|]|[[]|]|[[]|]| | | |]; try done; cbn [iteration]; try by frame.
  by destruct (H paused).
Qed.

(** What the player is asked to do about a user's pause under the lock. *)
Lemma pause_undone a : pa_grace_lock a = true → pa_desired_playing a = true →
  head (pa_pending_pause_echoes a) ≠ Some true →
  let out := (handle_pause_observation R true a).2.2 in
  (pa_player a = true → pa_current a ≠ None → ∃ ok, out = [Call (CSetPause false) ok; Report (OGraceRefused RefusePause)]) ∧
  Forall (λ e, negb (is_user_pause e) = true) out.
Proof.
  intros Hl Hd He. cbv zeta. unfold handle_pause_observation.
  destruct (reanchor_spec a) as (n & e & Hr & _). rewrite (bind_quiet _ _ _ _ _ Hr), bind_update, bind_ask. unfold id. cbn [pa_pending_pause_echoes].
  cbn. rewrite decide_False by done. rewrite bind_update. cbn. rewrite Hl, Hd. cbn [andb].
  exec. match goal with |- context [apply_desired_pause R ?b] => destruct (pause_spec b) as (n' & e' & b' & q & o & Hp & _ & _ & Ho) end.
  unfold does in Hp. rewrite !Hp. cbn in Ho |- *. rewrite Hd in Ho. cbn in Ho.
  destruct Ho as [([[-> Hwhy]| ->] & _)|(-> & _)].
  - split; [|by repeat constructor]. intros Hpl Hc. destruct Hwhy as [?|[?|?]]; congruence.
  - split; [by eauto|by repeat constructor].
  - split; [by eauto|by repeat constructor].
Qed.

Lemma pause_step arm a : pa_grace_lock a = true → pa_desired_playing a = true →
  Forall (λ e, negb (is_user_pause e) = true) (iteration R arm a).2.2.
Proof.
  intros Hl Hd. assert ((∃ b, arm = OnEvent (Some (PauseChanged b))) ∨ ∀ b, arm ≠ OnEvent (Some (PauseChanged b))) as [[b ->]|Hne].
  { destruct arm as [|[[]|]| | | | |]; (by eauto) || by right. }
  - cbn [iteration handle_player_event]. rewrite seq_ret. destruct b.
    + destruct (decide (head (pa_pending_pause_echoes a) = Some true)) as [He|He]; [|by apply pause_undone].
      unfold handle_pause_observation. destruct (reanchor_spec a) as (n & e & Hr & _).
      rewrite (bind_quiet _ _ _ _ _ Hr), bind_update, bind_ask. unfold id. cbn. rewrite decide_True by done. constructor.
    + assert (framed (λ _, ()) (λ e, negb (is_user_pause e)) (handle_pause_observation R false)) as Hf by frame. by destruct (Hf a) as (_ & _ & ?).
  - by destruct (pause_frame arm Hne a) as (_ & _ & ?).
Qed.

(** The position by dead reckoning, if any. *)
Definition reckoned (a : Actor) : option Z :=
  (λ est, if decide (pa_believed_pause a = Some false) then extrapolate est (pa_speed a) (rd_instant R (pa_reads a))
          else est_millis est) <$> pa_estimate a.
Lemma estimate_reckoned a : ∃ n, does (estimate_now R) a (reckoned a) (upd_reads n a) [].
Proof.
  unfold does, estimate_now, reckoned. exec. destruct (pa_estimate a); [case_decide|]; exec.
  - by eexists.
  - exists (pa_reads a). by rewrite same_reads.
  - exists (pa_reads a). by rewrite same_reads.
Qed.

(** And about a user's seek. *)
Lemma seek_undone a p : pa_grace_lock a = true → pa_pending_user_seek a = None → pa_pending_seek_echoes a = 0%nat →
  player_on_current_file a = true → pa_player a = true →
  ∃ ok, (handle_seeked R p a).2.2 = [Call (CSeek (default p (reckoned a))) ok; Report (OGraceRefused RefuseSeek)].
Proof.
  intros Hl Hn He Ho Hp. unfold handle_seeked. rewrite bind_ask. unfold id. rewrite He. cbv zeta.
  rewrite bool_decide_eq_false_2 by (intros []; done). cbn [only_if negb andb]. rewrite (bind_quiet _ _ a () a) by done.
  rewrite Ho, Hl, Hn. cbn [negb]. rewrite bind_update. set (b := upd_eof_reported false a).
  destruct (estimate_reckoned b) as [n Hd]. rewrite (bind_quiet _ _ _ _ _ Hd). change (reckoned b) with (reckoned a).
  exec. match goal with |- context [seek_programmatic R ?x ?c] => destruct (seek_spec x c) as (n' & e' & k & o & Hs & _ & _ & Hout) end.
  unfold does in Hs. rewrite !Hs. cbn in *. destruct Hout as [([->| ->] & H)|(-> & _)]; [|by eauto|by eauto].
  exfalso. unfold seek_programmatic in Hs. revert Hs. exec. rewrite Hp. exec. by destruct (rd_ok R _).
Qed.

Lemma explained_no a arm out f : explained (a, arm, out) → (∀ x, is_shutdown x = true → f x = false) →
  Forall (λ e, negb (f e) = true) (iteration R arm a).2.2 → ∀ x, f x = true → x ∉ out.
Proof.
  intros Hex Hf Ho x Hx Hin. assert (is_shutdown x = false) as Hs by (destruct (is_shutdown x) eqn:E; [by rewrite Hf in Hx|done]).
  apply (explained_elem _ _ _ _ Hex) in Hin; [|done]. rewrite Forall_forall in Ho. specialize (Ho x Hin). by rewrite Hx in Ho.
Qed.

(** ** Statements *)

(** C19. Observations are attributed to files on evidence. A position, a duration or an
    end of file is reported for a file only when the last load commanded was of
    that file and the path the player itself last reported, since it last died, is
    the path of that load; in the gap between a load and the player's echo of it
    nothing is reported, for the old file or for the new one. *)
Theorem observations_attributed attach arms h1 a arm out h2 e file :
  (run_actor R attach arms).1 = h1 ++ (a, arm, out) :: h2 → e ∈ out → speaks_of e = Some file →
  ∃ path title, shown h1 = (Some (file, path, title), Some path).
Proof.
  intros Hh He Hs. apply shown_run in Hh as [Hg Hex].
  apply (explained_elem _ _ _ _ Hex) in He; [|by destruct e as [[]|[]| | |]].
  destruct (speaks_step _ _ _ _ He Hs) as (path & title & Hc & Ho). exists path, title.
  unfold shows_actor in Hg. cbn in Hg. by rewrite <-Hg, Hc, Ho.
Qed.
(** The cadence of positions, for clocks that never run backwards. Every position
    reported uses up a tenth of a second if the player was believed to be playing
    and a second otherwise; a run never uses up more than the time it took, and a
    second for the report that comes first. *)
Theorem position_cadence attach arms : (∀ m n, (m ≤ n)%nat → rd_instant R m ≤ rd_instant R n) →
  let '(h, z) := run_actor R attach arms in
  spent h ≤ rd_instant R (pa_reads z) - rd_instant R 0 + POSITION_CADENCE_PAUSED.
Proof.
  intros Hg. destruct (loop_invariant spend paid paid) with (arms := arms) (g := 0) (a := (start_actor R (new_actor attach)).2.1)
    as [Hi _]; try done; try by (intros; apply paid_reads).
  - intros t a arm Ht _. cbv zeta. split; [intros _|]; by apply paid_step.
  - intros t a arm o e He. unfold spend. cbn [fst snd]. rewrite tally_app_shutdown; [done| |done]. by intros [|[]| | |].
  - by destruct attach.
  - unfold run_actor. destruct (loop R arms _) as [h z]. by apply paid_spent.
Qed.

(** An end of file is reported once. Between two reports there was a load, a
    recovery from a false end, or a seek. *)
Theorem eof_reported_once attach arms h1 e1 h2 e2 h3 f1 f2 :
  (run_actor R attach arms).1 = h1 ++ e1 :: h2 ++ e2 :: h3 → Report (Eof f1) ∈ e1.2 → Report (Eof f2) ∈ e2.2 →
  ∃ e, e ∈ h2 ∧ rearms e.1.2 = true.
Proof.
  intros Hh H1 H2. destruct (loop_invariant end_arm end_noted end_noted) with (arms := arms) (g := false)
    (a := (start_actor R (new_actor attach)).2.1) as [_ Hi]; try done.
  { intros g a arm Hg _. cbv zeta. destruct (ends_step g a arm Hg). by split. }
  { intros g a arm o e He. unfold end_arm. cbn [fst snd]. rewrite existsb_app_shutdown; [done| |done]. by intros [|[]| | |]. }
  change (loop R arms _) with (run_actor R attach arms) in Hi.
  assert (∀ a arm out f, explained (a, arm, out) → Report (Eof f) ∈ out → existsb is_end (iteration R arm a).2.2 = true) as Hend.
  { intros a arm out f Hex Hin. apply existsb_exists. exists (Report (Eof f)). split; [|done].
    apply list_elem_of_In. by eapply explained_elem. }
  destruct (Hi h1 e1 (h2 ++ e2 :: h3) Hh) as [Hg1 Hx1]. rewrite app_comm_cons, app_assoc in Hh.
  destruct (Hi _ e2 h3 Hh) as [Hg2 Hx2]. destruct e1 as [[a1 arm1] o1], e2 as [[a2 arm2] o2]. cbn [fst snd] in *.
  pose proof (Hend _ _ _ _ Hx1 H1) as E1. pose proof (Hend _ _ _ _ Hx2 H2) as E2.
  destruct (ends_step _ _ arm2 Hg2) as [_ Hf%(λ f, f E2)].
  destruct (existsb (λ e, rearms e.1.2) h2) eqn:Hr.
  - apply existsb_exists in Hr as (e & He & Hr). exists e. by rewrite list_elem_of_In.
  - exfalso. unfold end_noted in Hg2. rewrite foldl_app in Hg2. cbn [foldl] in Hg2.
    destruct (foldl end_arm _ h2) eqn:Hfold; [specialize (Hg2 eq_refl); congruence|]. apply end_kept in Hfold; [|done].
    unfold end_arm in Hfold. cbn [fst snd] in Hfold. destruct (rearms arm1) eqn:Hr1.
    + destruct (rearm_frame arm1 Hr1 a1) as (_ & _ & Ho%existsb_false). congruence.
    + apply orb_false_iff in Hfold as [_ Hfold]. rewrite (proj2 (existsb_exists _ _)) in Hfold; [done|].
      exists (Report (Eof f1)). by rewrite <-list_elem_of_In.
Qed.

Lemma held_run attach arms h1 e h2 :
  (run_actor R attach arms).1 = h1 ++ e :: h2 → holds_actor (held h1) e.1.1 ∧ explained e.
Proof.
  intros Hh. destruct (loop_invariant (λ g e, hold_arm g e.1.2) holds_actor holds_actor) with (arms := arms) (g := (false, false))
    (a := (start_actor R (new_actor attach)).2.1) as [_ Hi]; try done; [|by destruct attach|by apply (Hi _ _ _ Hh)].
  intros g b arm' Hg _. cbv zeta. destruct (holds_step g b arm' Hg). by split.
Qed.

(** C20. While the outage lock is held the viewer steers nothing. No seek of the viewer's
    is reported, and no pause while the group is meant to play; a seek that is not
    the echo of one of ours is answered at once by a seek back to where the player
    was, a pause by an unpause, each with the refusal reported. *)
Theorem grace_lock_holds attach arms h1 a arm out h2 playing :
  (run_actor R attach arms).1 = h1 ++ (a, arm, out) :: h2 → held h1 = (true, playing) →
  (∀ from to, Report (UserSeeked from to) ∉ out) ∧
  (playing = true → Report UserPaused ∉ out) ∧
  (∀ p, arm = OnEvent (Some (Seeked p)) → pa_pending_seek_echoes a = 0%nat → player_on_current_file a = true →
    ∃ ok, [Call (CSeek (default p (reckoned a))) ok; Report (OGraceRefused RefuseSeek)] `prefix_of` out) ∧
  (arm = OnEvent (Some (PauseChanged true)) → playing = true → head (pa_pending_pause_echoes a) ≠ Some true →
    pa_current a ≠ None →
    ∃ ok, [Call (CSetPause false) ok; Report (OGraceRefused RefusePause)] `prefix_of` out).
Proof.
  intros Hh Hheld. destruct (held_run _ _ _ _ _ Hh) as [Hg Hex]. rewrite Hheld in Hg. cbn [fst snd] in Hg.
  destruct (holds_step _ _ arm Hg) as [_ Hseek%(λ f, f eq_refl)]. destruct Hg as [Hst Hnone%(λ f, f eq_refl)].
  unfold seek_state in Hst, Hnone. cbn in Hst, Hnone. injection Hst as Hlock Hplay.
  pose proof Hex as (Hen & ext & Ho & _). cbn [fst snd] in Hen, Ho. split_and!.
  - intros from to. eapply explained_no; [done| |exact Hseek|done]. by intros [|[]| | |].
  - intros ->. eapply (explained_no _ _ _ is_user_pause); [done|by intros [|[]| | |]| |done].
    by apply pause_step.
  - intros p -> Hz Hon. destruct (seek_undone a p Hlock Hnone Hz Hon Hen) as [ok Hok]. exists ok, ext.
    rewrite Ho. cbn [iteration handle_player_event]. by rewrite seq_ret, Hok.
  - intros -> -> Hhd Hc. destruct (pause_undone a Hlock Hplay Hhd) as [Hp _]. destruct (Hp Hen Hc) as [ok Hok]. exists ok, ext.
    rewrite Ho. cbn [iteration handle_player_event]. by rewrite seq_ret, Hok.
Qed.
End correct.

(** ** Instances *)

(** A clock of ten seconds a reading, and a player that never refuses. *)
Definition steady : Readings := mkReadings (λ n, millis_ns (10000 * Z.of_nat n)) (λ _, 0) (λ _, true).
Lemma steady_grows m n : (m ≤ n)%nat → rd_instant steady m ≤ rd_instant steady n.
Proof. cbn. unfold millis_ns. lia. Qed.


Definition ex_film : Ed2kHash := mkEd2kHash (repeat 7 16).
(** A film is opened and played to its end; the viewer tries to seek and to pause
    under the lock, and the end is seen again after the seek. *)
Definition film_arms : list Arm :=
  [OnSpawned (Some true); OnCommand (Some (Load ex_film "/a.mkv" None None)); OnEvent (Some (PathChanged "/a.mkv"));
   OnEvent (Some Loaded); OnCommand (Some (SetPlaying true)); OnEvent (Some (PauseChanged false));
   OnEvent (Some (EvPosition 1000)); OnCadence; OnEvent (Some EvEof); OnCommand (Some (SetGraceLock true));
   OnEvent (Some (Seeked 5000)); OnEvent (Some (PauseChanged true)); OnEvent (Some EvEof)].
Abbreviation film := (run_actor steady false film_arms).1.
Definition hist_entry (h : History) (n : nat) : Actor * Arm * list Eff := nth n h (new_actor false, OnCadence, []).

Lemma hist_split h n : (n < length h)%nat →
  h = take n h ++ ((hist_entry h n).1.1, (hist_entry h n).1.2, (hist_entry h n).2) :: drop (S n) h.
Proof.
  intros Hn. rewrite <-!surjective_pairing. unfold hist_entry. symmetry. apply take_drop_middle.
  destruct (nth_lookup_or_length h n (new_actor false, OnCadence, [])); [done|lia].
Qed.

Lemma observations_attributed_witness :
  Report (PositionTick ex_film 21000) ∈ (hist_entry film 7).2 ∧
  ∃ path title, shown (take 7 film) = (Some (ex_film, path, title), Some path).
Proof.
  assert (Report (PositionTick ex_film 21000) ∈ (hist_entry film 7).2) as Hin by (vm_compute; apply list_elem_of_here). split; [exact Hin|].
  exact (observations_attributed steady false film_arms _ _ _ _ _ _ ex_film (hist_split film 7 ltac:(vm_compute; lia)) Hin eq_refl).
Defined.
Lemma position_cadence_witness :
  let '(h, z) := run_actor steady false film_arms in
  0 < spent h ≤ rd_instant steady (pa_reads z) - rd_instant steady 0 + POSITION_CADENCE_PAUSED.
Proof.
  pose proof (position_cadence steady false film_arms steady_grows) as H.
  assert (0 < spent (run_actor steady false film_arms).1) as Hp by (vm_compute; reflexivity).
  destruct (run_actor steady false film_arms). by split.
Defined.
Lemma eof_reported_once_witness :
  ∃ e, e ∈ take 3 (drop 9 film) ∧ rearms e.1.2 = true.
Proof.
  assert (Report (Eof ex_film) ∈ (hist_entry film 8).2) as H8 by (vm_compute; apply list_elem_of_here).
  assert (Report (Eof ex_film) ∈ (hist_entry film 12).2) as H12 by (vm_compute; apply list_elem_of_here).
  exact (eof_reported_once steady false film_arms (take 8 film) (hist_entry film 8)
    (take 3 (drop 9 film)) (hist_entry film 12) [] ex_film ex_film ltac:(vm_compute; reflexivity) H8 H12).
Defined.
Lemma grace_lock_holds_witness :
  (∃ ok, [Call (CSeek (default 5000 (reckoned steady (hist_entry film 10).1.1))) ok; Report (OGraceRefused RefuseSeek)] `prefix_of` (hist_entry film 10).2) ∧
  (∃ ok, [Call (CSetPause false) ok; Report (OGraceRefused RefusePause)] `prefix_of` (hist_entry film 11).2).
Proof.
  split.
  - exact (proj1 (proj2 (proj2 (grace_lock_holds steady false film_arms _ _ _ _ _ true (hist_split film 10 ltac:(vm_compute; lia)) ltac:(vm_compute; reflexivity))))
      5000 ltac:(vm_compute; reflexivity) ltac:(vm_compute; reflexivity) ltac:(vm_compute; reflexivity)).
  - exact (proj2 (proj2 (proj2 (grace_lock_holds steady false film_arms _ _ _ _ _ true (hist_split film 11 ltac:(vm_compute; lia)) ltac:(vm_compute; reflexivity))))
      ltac:(vm_compute; reflexivity) eq_refl ltac:(vm_compute; discriminate) ltac:(vm_compute; discriminate)).
Defined.
