(* ===== verification/PlayerEcho.v ===== *)
(** * The player actor: telling the viewer from the echo

    Every pause and every seek the actor commands comes back as an observation, in
    the order of the commands (player/mod.rs; the acknowledging player of
    player/mock.rs does exactly this). The actor counts what it is owed. Here: the
    count is right in every reachable state, so that a player nobody else touches
    never makes the actor report an action of the viewer's; a touch of the viewer's
    always does; and what a load does to the count. *)

From Stdlib Require Import SpecFloat.
From S2P Require Import Prelude Text Types Sync TimeSync F64 Drift Session PlayerActor PlayerCorrect.

(** Echoes owed: the pauses commanded, in order, and the number of seeks. *)
Definition Owed : Type := list bool * nat.
(** An accepted call is owed an echo. *)
Definition owe (w : Owed) (e : Eff) : Owed :=
  match e with
  | Call (CSetPause b) true => (w.1 ++ [b], w.2)
  | Call (CSeek _) true => (w.1, S w.2)
  | _ => w
  end.
(** An observation pays; a dead player owes nothing. *)
Definition pay_arm (w : Owed) (arm : Arm) : Owed :=
  match arm with
  | OnEvent (Some (PauseChanged _)) => (tail w.1, w.2)
  | OnEvent (Some (Seeked _)) => (w.1, pred w.2)
  | OnEvent None | OnEvent (Some (Exited _)) => ([], 0%nat)
  | _ => w
  end.
Definition owe_step (w : Owed) (e : Actor * Arm * list Eff) : Owed := foldl owe (pay_arm w e.1.2) e.2.
Definition owed (h : History) : Owed := foldl owe_step ([], 0%nat) h.

(** The echoes the actor still waits for: an observation that is not the next one ends
    the wait for pauses, and so do a death and a load, whatever is still on its way. *)
Definition expect_arm (w : Owed) (arm : Arm) : Owed :=
  match arm with
  | OnEvent (Some (PauseChanged b)) => (if decide (head w.1 = Some b) then tail w.1 else [], w.2)
  | OnEvent (Some (Seeked _)) => (w.1, pred w.2)
  | OnEvent None | OnEvent (Some (Exited _)) | OnCommand (Some (Load _ _ _ _)) => ([], 0%nat)
  | _ => w
  end.
Definition expected (h : History) : Owed := foldl (λ w e, foldl owe (expect_arm w e.1.2) e.2) ([], 0%nat) h.

(** What a player that only answers the actor can do next, if it finds every load with
    no echo owed. The actor does not see to that: a load forgets the echoes still on
    their way, and they are then taken for the viewer ([load_forgets_echoes]). *)
Definition echo_arm (w : Owed) (arm : Arm) : Prop :=
  match arm with
  | OnEvent (Some (PauseChanged b)) => head w.1 = Some b
  | OnEvent (Some (Seeked _)) => w.2 ≠ 0%nat
  | OnCommand (Some (Load _ _ _ _)) => w = ([], 0%nat)
  | _ => True
  end.

(** Reports of an action of the viewer's. *)
Definition is_user (e : Eff) : bool :=
  match e with
  | Report UserPaused | Report UserUnpaused | Report (UserSeeked _ _) | Report (OGraceRefused _) => true
  | _ => false
  end.

Section echo.
Context (R : Readings).

(** ** Bookkeeping, compositionally *)

Definition Book : Type := Owed * option (Z * Z * Z).
Definition book (a : Actor) : Book := ((pa_pending_pause_echoes a, pa_pending_seek_echoes a), pa_pending_user_seek a).

(** The echoes pending grow by the calls made, the scrub is kept, the viewer is not
    mentioned. *)
Definition booked {A} (m : Act A) : Prop := ∀ a,
  book (m a).2.1 = (foldl owe (book a).1 (m a).2.2, (book a).2) ∧ Forall (λ e, negb (is_user e) = true) (m a).2.2.

Lemma booked_ret {A} (x : A) : booked (mret x).
Proof. intros a. by split. Qed.
Lemma booked_ask {A} (f : Actor → A) : booked (ask f).
Proof. intros a. by split. Qed.
Lemma booked_bind {A B} (m : Act A) (f : A → Act B) : booked m → (∀ x, booked (f x)) → booked (m ≫= f).
Proof.
  intros Hm Hf a. unfold mbind, Act_bind. specialize (Hm a). destruct (m a) as [x [a1 o1]]. cbn [fst snd] in Hm.
  specialize (Hf x a1). destruct (f x a1) as [y [a2 o2]]. cbn [fst snd] in *. destruct Hm as [H1 H2], Hf as [H3 H4].
  rewrite H3, H1, foldl_app. split; [done|]. by apply Forall_app.
Qed.
Lemma booked_update f : (∀ a, book (f a) = book a) → booked (update f).
Proof. intros Hf a. cbn. rewrite Hf. by split. Qed.
Lemma booked_effect e : (∀ w, owe w e = w) → is_user e = false → booked (effect e).
Proof. intros He Hu a. cbn. rewrite He. split; [done|]. constructor; [by rewrite Hu|constructor]. Qed.
Lemma booked_next {A} (f : nat → A) : booked (next f).
Proof. intros a. by split. Qed.
Lemma booked_call c : (∀ b, c ≠ CSetPause b) → (∀ t, c ≠ CSeek t) → booked (call R c).
Proof.
  intros H1 H2. unfold call. apply booked_bind; [apply booked_next|]. intros ok. apply booked_bind; [|intros; apply booked_ret].
  apply booked_effect; [|done]. intros w. cbn. destruct c; try done; by destruct (H1 paused) || destruct (H2 position_millis).
Qed.
Lemma booked_seek t : booked (seek_programmatic R t).
Proof.
  intros a. destruct (seek_spec R t a) as (n & e & k & o & Hd & _ & _ & Ho). unfold does in Hd. rewrite Hd. cbn [fst snd].
  destruct Ho as [([->| ->] & -> & _)|(-> & _ & -> & _)]; (split; [done|by repeat constructor]).
Qed.
Lemma booked_pause : booked (apply_desired_pause R).
Proof.
  intros a. destruct (pause_spec R a) as (n & e & b & q & o & Hd & _ & _ & Ho). unfold does in Hd. rewrite Hd. cbn [fst snd].
  destruct Ho as [([[-> _]| ->] & _ & ->)|(-> & _ & _ & _ & ->)]; (split; [done|by repeat constructor]).
Qed.

Ltac booking_step :=
  lazymatch goal with
  | |- booked (mbind _ _) => apply booked_bind; [|intros ?]
  | |- booked (mret _) => apply booked_ret
  | |- booked (ask _) => apply booked_ask
  | |- booked (update _) => apply booked_update; reflexivity
  | |- booked (effect _) => apply booked_effect; reflexivity
  | |- booked (next _) => apply booked_next
  | |- booked (call _ _) => apply booked_call; discriminate
  | |- booked (seek_programmatic _ _) => apply booked_seek
  | |- booked (apply_desired_pause _) => apply booked_pause
  | |- booked (match ?x with _ => _ end) => destruct x
  | |- booked ?m => let h := head_of m in unfold h
  end.
Ltac booking := repeat booking_step.

(** ** One iteration *)

(** Arms whose handlers do more than call. *)
Definition echo_sensitive (arm : Arm) : bool :=
  match arm with
  | OnCommand (Some (Load _ _ _ _)) | OnCommand (Some (SetGraceLock _)) | OnDebounce
  | OnEvent (Some (PauseChanged _)) | OnEvent (Some (Seeked _)) | OnEvent None | OnEvent (Some (Exited _)) => true
  | _ => false
  end.
Lemma booked_arm arm : echo_sensitive arm = false → booked (iteration R arm).
Proof. intros H. destruct arm as [[[]|]|[[]|]|[[]|]| | | |]; try done; cbn [iteration]; booking. Qed.

(** The actor is owed what the player owes it, and the viewer scrubs nothing. *)
Definition in_step (w : Owed) (a : Actor) : Prop := book a = (w, None).

Lemma booked_in_step {A} (m : Act A) w a : booked m → in_step w a →
  in_step (foldl owe w (m a).2.2) (m a).2.1 ∧ Forall (λ e, negb (is_user e) = true) (m a).2.2.
Proof. intros Hm Ha. destruct (Hm a) as [H1 H2]. unfold in_step in *. rewrite H1, Ha. by split. Qed.

Lemma in_step_death clean w a : in_step w a → let r := handle_player_death R clean a in
  in_step (foldl owe ([], 0%nat) r.2.2) r.2.1 ∧ Forall (λ e, negb (is_user e) = true) r.2.2.
Proof.
  intros _. cbv zeta. unfold handle_player_death. rewrite !bind_update.
  match goal with |- context [?m (upd_believed_pause ?x ?b)] =>
    assert (booked m) as Hm by booking; by apply (booked_in_step m ([], 0%nat) (upd_believed_pause x b)) end.
Qed.
Lemma in_step_load file path title resume a : in_step ([], 0%nat) a → let r := handle_load R file path title resume a in
  in_step (foldl owe ([], 0%nat) r.2.2) r.2.1 ∧ Forall (λ e, negb (is_user e) = true) r.2.2.
Proof.
  intros _. cbv zeta. unfold handle_load. rewrite bind_ask, !bind_update.
  match goal with |- context [?m (upd_drift ?x ?b)] =>
    assert (booked m) as Hm by booking; by apply (booked_in_step m ([], 0%nat) (upd_drift x b)) end.
Qed.
(** An observation that is the echo waited for. *)
Lemma pause_echo b a : head (pa_pending_pause_echoes a) = Some b → let r := handle_pause_observation R b a in
  book r.2.1 = ((tail (pa_pending_pause_echoes a), pa_pending_seek_echoes a), pa_pending_user_seek a) ∧ r.2.2 = [].
Proof.
  intros Hb. cbv zeta. unfold handle_pause_observation. destruct (reanchor_spec R a) as (n & e & Hr & _).
  rewrite (bind_quiet _ _ _ _ _ Hr), bind_update, bind_ask. unfold id. cbn. rewrite decide_True by done. by exec.
Qed.
Lemma seeked_echo p a : pa_pending_seek_echoes a ≠ 0%nat → let r := handle_seeked R p a in
  book r.2.1 = (foldl owe (pa_pending_pause_echoes a, pred (pa_pending_seek_echoes a)) r.2.2, pa_pending_user_seek a) ∧
  Forall (λ e, negb (is_user e) = true) r.2.2.
Proof.
  intros Hk. cbv zeta. unfold handle_seeked. rewrite bind_ask. unfold id. cbv zeta. rewrite bool_decide_eq_true_2 by done. cbn [only_if negb andb].
  rewrite bind_update.
  match goal with |- context [?m (upd_pending_seek_echoes ?x ?b)] =>
    assert (booked m) as Hm by booking; exact (Hm (upd_pending_seek_echoes x b)) end.
Qed.
Lemma in_step_pause b w a : in_step w a → head w.1 = Some b → let r := handle_pause_observation R b a in
  in_step (tail w.1, w.2) r.2.1 ∧ r.2.2 = [].
Proof.
  intros Ha Hb. cbv zeta. unfold in_step, book in Ha. destruct w as [q k]. injection Ha as Hq Hk Hn.
  destruct (pause_echo b a) as [H1 H2]; [by rewrite Hq|]. split; [|done]. unfold in_step. by rewrite H1, Hq, Hk, Hn.
Qed.
Lemma in_step_seeked p w a : in_step w a → w.2 ≠ 0%nat → let r := handle_seeked R p a in
  in_step (foldl owe (w.1, pred w.2) r.2.2) r.2.1 ∧ Forall (λ e, negb (is_user e) = true) r.2.2.
Proof.
  intros Ha Hk. cbv zeta. unfold in_step, book in Ha. destruct w as [q k]. injection Ha as Hq Hs Hn.
  destruct (seeked_echo p a) as [H1 H2]; [by rewrite Hs|]. split; [|done]. unfold in_step. by rewrite H1, Hq, Hs, Hn.
Qed.

Lemma echo_step w a arm : in_step w a → echo_arm w arm → let r := iteration R arm a in
  in_step (owe_step w (a, arm, r.2.2)) r.2.1 ∧ Forall (λ e, negb (is_user e) = true) r.2.2.
Proof.
  intros Ha He. cbv zeta. unfold owe_step. cbn [fst snd]. destruct (echo_sensitive arm) eqn:Hs; last first.
  { assert (pay_arm w arm = w) as -> by (by destruct arm as [[[]|]|[[]|]|[[]|]| | | |]).
    by apply booked_in_step; [apply booked_arm|]. }
  assert (pa_pending_user_seek a = None) as Hn by (by unfold in_step in Ha; injection Ha as _ Ha).
  destruct arm as [[[]|]|[[]|]|[[]|]| | | |]; try done; cbn [iteration handle_command handle_player_event pay_arm]; rewrite ?seq_ret.
  - cbn in He. subst w. by apply in_step_load.
  - unfold set_grace_lock. rewrite bind_ask. unfold id. rewrite Hn.
    match goal with |- context [?m a] => assert (booked m) as Hm by booking; by apply (booked_in_step m w a Hm) end.
  - destruct (in_step_pause paused w a Ha He) as [H1 ->]. by split.
  - by apply in_step_seeked.
  - by apply (in_step_death clean w).
  - by apply (in_step_death false w).
  - unfold flush_user_seek. rewrite bind_ask, Hn. by split.
Qed.
(** ** Runs *)

(** A history in which the player only answers. *)
Fixpoint echo_only (w : Owed) (h : History) : Prop :=
  match h with [] => True | e :: h => echo_arm w e.1.2 ∧ echo_only (owe_step w e) h end.
Definition track (g : Owed * Prop) (e : Actor * Arm * list Eff) : Owed * Prop :=
  (owe_step g.1 e, g.2 ∧ echo_arm g.1 e.1.2).
Lemma track_owed h : ∀ g, (foldl track g h).1 = foldl owe_step g.1 h.
Proof. induction h as [|e h IH]; intros g; [done|]. cbn. by rewrite IH. Qed.
Lemma track_only h : ∀ g, (foldl track g h).2 ↔ g.2 ∧ echo_only g.1 h.
Proof. induction h as [|e h IH]; intros g; cbn; [tauto|]. rewrite IH. cbn. tauto. Qed.
Lemma echo_only_app h h' : ∀ w, echo_only w (h ++ h') ↔ echo_only w h ∧ echo_only (foldl owe_step w h) h'.
Proof. induction h as [|e h IH]; intros w; cbn; [tauto|]. rewrite IH. tauto. Qed.

Lemma owe_finish w o e : Forall (λ e, is_shutdown e = true) e → foldl owe w (o ++ e) = foldl owe w o.
Proof.
  intros He. rewrite foldl_app. induction He as [|x e Hx He IH]; [done|]. cbn. by destruct x as [|[]| | |].
Qed.

(** As long as the player only answers, the actor's count is what it is owed. *)
Lemma owed_run attach arms h1 e h2 : (run_actor R attach arms).1 = h1 ++ e :: h2 → echo_only ([], 0%nat) h1 →
  in_step (owed h1) e.1.1 ∧ explained R e.
Proof.
  intros Hh Ho. destruct (loop_invariant R track (λ g a, g.2 → in_step g.1 a) (λ g a, g.2 → in_step g.1 a)) with
    (arms := arms) (g := ((([], 0%nat) : Owed), True)) (a := (start_actor R (new_actor attach)).2.1) as [_ Hi]; try done.
  - intros g a arm Hg _. cbv zeta. split; [intros _|]; intros [H1 H2]; by apply echo_step; [apply Hg|].
  - intros g a arm o e' He. unfold track, owe_step. cbn [fst snd]. by rewrite owe_finish.
  - by destruct attach.
  - destruct (Hi _ _ _ Hh) as [Hin Hex]. split; [|done]. rewrite track_owed in Hin. apply Hin. by apply track_only.
Qed.

(** ** Any run *)

(** What the actor waits for grows by the calls made, whatever else it does. *)
Definition waits (a : Actor) : Owed := (pa_pending_pause_echoes a, pa_pending_seek_echoes a).
Definition tallied {A} (m : Act A) : Prop := ∀ a, waits (m a).2.1 = foldl owe (waits a) (m a).2.2.
Lemma tallied_booked {A} (m : Act A) : booked m → tallied m.
Proof. intros Hm a. destruct (Hm a) as [H _]. by injection H. Qed.
Lemma tallied_bind {A B} (m : Act A) (f : A → Act B) : tallied m → (∀ x, tallied (f x)) → tallied (m ≫= f).
Proof.
  intros Hm Hf a. unfold mbind, Act_bind. specialize (Hm a). destruct (m a) as [x [a1 o1]]. cbn [fst snd] in Hm.
  specialize (Hf x a1). destruct (f x a1) as [y [a2 o2]]. cbn [fst snd] in *. by rewrite Hf, Hm, foldl_app.
Qed.
Lemma tallied_update f : (∀ a, waits (f a) = waits a) → tallied (update f).
Proof. intros Hf a. apply Hf. Qed.
Lemma tallied_report x : tallied (report x).
Proof. done. Qed.
Ltac tallying_step :=
  lazymatch goal with
  | |- tallied (mbind _ _) => apply tallied_bind; [|intros ?]
  | |- tallied (update _) => apply tallied_update; reflexivity
  | |- tallied (report _) => apply tallied_report
  | |- tallied (match ?x with _ => _ end) => destruct x
  | |- tallied (only_if ?x _) => destruct x; unfold only_if
  | |- tallied _ => apply tallied_booked; booking_step
  end.
Ltac tallying := repeat first [solve [apply tallied_booked; booking]|tallying_step].

Lemma waits_pause b a : waits (handle_pause_observation R b a).2.1 =
  foldl owe (expect_arm (waits a) (OnEvent (Some (PauseChanged b)))) (handle_pause_observation R b a).2.2.
Proof.
  unfold handle_pause_observation. destruct (reanchor_spec R a) as (n & e & Hr & _).
  rewrite (bind_quiet _ _ _ _ _ Hr), bind_update, bind_ask. unfold id. cbn. case_decide as Hd; cbn; rewrite ?decide_True, ?decide_False by done; [done|].
  rewrite bind_update. match goal with |- context [?m (upd_pending_pause_echoes [] ?x)] => assert (tallied m) as Hm by tallying; apply (Hm (upd_pending_pause_echoes [] x)) end.
Qed.
Lemma waits_seeked p a : waits (handle_seeked R p a).2.1 =
  foldl owe (expect_arm (waits a) (OnEvent (Some (Seeked p)))) (handle_seeked R p a).2.2.
Proof.
  unfold handle_seeked. rewrite bind_ask. unfold id. cbv zeta.
  destruct (pa_pending_seek_echoes a) as [|k] eqn:Hs.
  - rewrite bool_decide_eq_false_2 by (intros Hx; by apply Hx). cbn [only_if negb andb]. rewrite (bind_quiet _ _ a () a) by done.
    match goal with |- context [?m a] => assert (tallied m) as Hm by tallying; rewrite (Hm a) end. unfold waits. by rewrite Hs.
  - rewrite bool_decide_eq_true_2 by done. cbn [only_if negb andb]. rewrite bind_update.
    match goal with |- context [?m (upd_pending_seek_echoes ?x a)] => assert (tallied m) as Hm by tallying; rewrite (Hm (upd_pending_seek_echoes x a)) end.
    unfold waits. cbn. by rewrite Hs.
Qed.
Lemma waits_step a arm : let r := iteration R arm a in waits r.2.1 = foldl owe (expect_arm (waits a) arm) r.2.2.
Proof.
  cbv zeta. destruct (echo_sensitive arm) eqn:Hs; last first.
  { assert (expect_arm (waits a) arm = waits a) as -> by (by destruct arm as [[[]|]|[[]|]|[[]|]| | | |]).
    by apply tallied_booked, booked_arm. }
  destruct arm as [[[]|]|[[]|]|[[]|]| | | |]; try done; cbn [iteration handle_command handle_player_event]; rewrite ?seq_ret.
  - unfold handle_load. rewrite bind_ask, !bind_update.
    match goal with |- context [?m (upd_drift ?x ?b)] => assert (tallied m) as Hm by tallying; apply (Hm (upd_drift x b)) end.
  - unfold set_grace_lock. match goal with |- context [?m a] => assert (tallied m) as Hm by tallying; apply (Hm a) end.
  - apply waits_pause.
  - apply waits_seeked.
  - unfold handle_player_death. rewrite !bind_update.
    match goal with |- context [?m (upd_believed_pause ?x ?b)] => assert (tallied m) as Hm by tallying; apply (Hm (upd_believed_pause x b)) end.
  - unfold handle_player_death. rewrite !bind_update.
    match goal with |- context [?m (upd_believed_pause ?x ?b)] => assert (tallied m) as Hm by tallying; apply (Hm (upd_believed_pause x b)) end.
  - unfold flush_user_seek. match goal with |- context [?m a] => assert (tallied m) as Hm by tallying; apply (Hm a) end.
Qed.
Lemma waits_run attach arms h1 e h2 : (run_actor R attach arms).1 = h1 ++ e :: h2 → waits e.1.1 = expected h1 ∧ explained R e.
Proof.
  intros Hh. destruct (loop_invariant R (λ w e, foldl owe (expect_arm w e.1.2) e.2) (λ g a, waits a = g) (λ g a, waits a = g)) with
    (arms := arms) (g := (([], 0%nat) : Owed)) (a := (start_actor R (new_actor attach)).2.1) as [_ Hi]; try done.
  - intros g a arm <- _. cbv zeta. split; [intros _|]; apply waits_step.
  - intros g a arm o e' He. cbn [fst snd]. by rewrite owe_finish.
  - by destruct attach.
  - apply (Hi _ _ _ Hh).
Qed.

(** ** A scrub, until it settles *)

(** Where a seek of the viewer's is reported to come from: where the scrub it continues
    began, or where the player was. *)
Definition scrub_from (a : Actor) (p : Z) : Z :=
  match pa_pending_user_seek a with Some (from, _, _) => from | None => default p (reckoned R a) end.
(** The viewer's seek that is settling, in a history. *)
Definition scrub (g : option (Z * Z)) (e : Actor * Arm * list Eff) : option (Z * Z) :=
  if scrub_arm e.1.2 then
    match e.1.2 with
    | OnEvent (Some (Seeked p)) =>
        if bool_decide (pa_pending_seek_echoes e.1.1 = 0%nat) && player_on_current_file e.1.1 && negb (pa_grace_lock e.1.1)
        then Some (scrub_from e.1.1 p, p) else None
    | _ => None
    end
  else g.
Definition settling_seek (g : option (Z * Z)) (a : Actor) : Prop :=
  ∀ from to, g = Some (from, to) → ∃ t, pa_pending_user_seek a = Some (from, to, t).
Lemma settling_step g a arm : settling_seek g a → let r := iteration R arm a in settling_seek (scrub g (a, arm, r.2.2)) r.2.1.
Proof.
  intros Hg. cbv zeta. unfold scrub. cbn [fst snd]. destruct (scrub_arm arm) eqn:Hs; last first.
  { destruct (scrub_frame R arm Hs a) as [Hst _]. unfold seek_state in Hst. injection Hst as _ _ Hst. unfold settling_seek. by rewrite Hst. }
  destruct arm as [[[]|]|[[]|]|[[]|]| | | |]; try done. cbn [iteration handle_player_event]. rewrite seq_ret.
  destruct (bool_decide _ && _ && _) eqn:E; [|done]. apply andb_true_iff in E as [[Hz%bool_decide_eq_true Hon]%andb_true_iff Hl%negb_true_iff].
  intros from to [= <- <-]. unfold handle_seeked. rewrite bind_ask. unfold id. cbv zeta. rewrite Hz, bool_decide_eq_false_2 by (by intros []).
  cbn [only_if negb andb]. rewrite (bind_quiet _ _ a () a) by done. rewrite Hon, Hl. cbn [negb].
  rewrite bind_update. unfold scrub_from. cbn [pa_pending_user_seek upd_eof_reported]. destruct (pa_pending_user_seek a) as [[[from to] t]|] eqn:Hp.
  - rewrite (bind_quiet _ _ (upd_eof_reported false a) (Some from) (upd_eof_reported false a)) by done. by exec; eexists.
  - destruct (estimate_reckoned R (upd_eof_reported false a)) as [n Hd]. rewrite (bind_quiet _ _ _ _ _ Hd).
    change (reckoned R (upd_eof_reported false a)) with (reckoned R a). by exec; eexists.
Qed.
Lemma scrub_run attach arms h1 e h2 : (run_actor R attach arms).1 = h1 ++ e :: h2 →
  settling_seek (foldl scrub None h1) e.1.1 ∧ explained R e.
Proof.
  intros Hh. destruct (loop_invariant R scrub settling_seek settling_seek) with
    (arms := arms) (g := (None : option (Z * Z))) (a := (start_actor R (new_actor attach)).2.1) as [_ Hi]; try done.
  - intros g a arm Hg _. cbv zeta. split; [intros _|]; by apply settling_step.
  - apply (Hi _ _ _ Hh).
Qed.
Lemma scrub_kept h g : Forall (λ e, scrub_arm e.1.2 = false) h → foldl scrub g h = g.
Proof. induction 1 as [|e h He Hh IH]; [done|]. cbn. unfold scrub at 2. by rewrite He. Qed.

(** ** Statements *)

(** C17. No echo is taken for the viewer. In any run, whatever the viewer does, whenever
    players die and loads come, an observation that is the next echo the actor waits for
    is not reported as an action of the viewer's, nor refused. And in a run in which the
    player only answers the actor's own commands, in order, nothing is ever reported as
    the viewer's or refused, provided that no load comes while an echo is still owed: a
    load forgets the echoes on their way ([load_forgets_echoes] shows one reported as the
    viewer's unpause). *)
Theorem echoes_suppressed attach arms h1 a arm out h2 :
  (run_actor R attach arms).1 = h1 ++ (a, arm, out) :: h2 →
  ((∃ b, arm = OnEvent (Some (PauseChanged b)) ∧ head (expected h1).1 = Some b) ∨
   (∃ p, arm = OnEvent (Some (Seeked p)) ∧ (expected h1).2 ≠ 0%nat) ∨
   echo_only ([], 0%nat) (h1 ++ [(a, arm, out)])) →
  Forall (λ e, negb (is_user e) = true) out.
Proof.
  intros Hh Harm. destruct (waits_run _ _ _ _ _ Hh) as [Hw (_ & ext & Hout & Hext)]. cbn [fst snd] in *. rewrite Hout.
  apply Forall_app. split; [|eapply Forall_impl; [exact Hext|]; by intros [|[]| | |]].
  destruct Harm as [(b & -> & Hb)|[(p & -> & Hp)|[Ho [He _]]%echo_only_app]].
  - rewrite <-Hw in Hb. cbn [iteration handle_player_event]. rewrite seq_ret. by rewrite (proj2 (pause_echo b a Hb)).
  - rewrite <-Hw in Hp. cbn [iteration handle_player_event]. rewrite seq_ret. by apply seeked_echo.
  - destruct (owed_run _ _ _ _ _ Hh Ho) as [Hin _]. by destruct (echo_step _ _ _ Hin He) as [_ Hq].
Qed.

(** C18. The viewer is heard. In any run, while the outage lock is not held, a pause or
    unpause that is not the next echo the actor waits for is reported at once; and a seek
    that it waits for no echo of, made while the player shows the current file, is
    reported at the debounce that follows, unless a load, a death, the lock or another
    seek comes between: with the place it went to and the place it left, which is where
    the scrub it continues began. *)
Theorem viewer_heard attach arms h1 a arm out h2 :
  (run_actor R attach arms).1 = h1 ++ (a, arm, out) :: h2 → (held h1).1 = false →
  (∀ b, arm = OnEvent (Some (PauseChanged b)) → head (expected h1).1 ≠ Some b →
    Report (if b then UserPaused else UserUnpaused) ∈ out) ∧
  (∀ p k1 b out' k2, arm = OnEvent (Some (Seeked p)) → (expected h1).2 = 0%nat → player_on_current_file a = true →
    h2 = k1 ++ (b, OnDebounce, out') :: k2 → Forall (λ e, scrub_arm e.1.2 = false) k1 →
    Report (UserSeeked (scrub_from a p) p) ∈ out').
Proof.
  intros Hh Hl. destruct (waits_run _ _ _ _ _ Hh) as [Hw (_ & ext & Hout & _)]. cbn [fst snd] in *.
  destruct (held_run _ _ _ _ _ _ Hh) as [[Hheld _] _]. cbn in Hheld. apply (f_equal fst) in Hheld. cbn in Hheld. rewrite Hl in Hheld.
  rewrite <-Hw. cbn [waits fst snd]. split.
  - intros b -> Hb. rewrite Hout, elem_of_app. left. cbn [iteration handle_player_event]. rewrite seq_ret.
    unfold handle_pause_observation. destruct (reanchor_spec R a) as (n & e & Hr & _).
    rewrite (bind_quiet _ _ _ _ _ Hr), bind_update, bind_ask. unfold id. cbn. rewrite decide_False by done. rewrite bind_update.
    cbn. rewrite Hheld, andb_false_r. cbn. by left.
  - intros p k1 b out' k2 -> Hk Hon -> Hk1.
    assert ((run_actor R attach arms).1 = (h1 ++ (a, OnEvent (Some (Seeked p)), out) :: k1) ++ (b, OnDebounce, out') :: k2) as Hh2
      by (rewrite Hh, <-app_assoc; done).
    destruct (scrub_run _ _ _ _ _ Hh2) as [Hs (_ & ext' & Hout' & _)]. cbn [fst snd] in *.
    rewrite foldl_app in Hs. cbn [foldl] in Hs. rewrite scrub_kept in Hs by done. unfold scrub in Hs. cbn [fst snd scrub_arm] in Hs.
    rewrite Hk, Hon, Hheld in Hs. cbn in Hs. destruct (Hs _ _ eq_refl) as [t Ht].
    rewrite Hout', elem_of_app. left. cbn [iteration]. rewrite seq_ret. unfold flush_user_seek. rewrite bind_ask, Ht. exec. by left.
Qed.
End echo.

(** ** Instances *)

(** Playing, as commanded; then the viewer pauses and unpauses, or seeks. *)
Definition playing_arms : list Arm := take 7 film_arms.
Abbreviation touched := (run_actor steady false (playing_arms ++
  [OnEvent (Some (PauseChanged true)); OnEvent (Some (PauseChanged false)); OnEvent (Some (Seeked 5000)); OnCadence; OnDebounce])).1.

Lemma echoes_suppressed_witness :
  (hist_entry film 5).1.2 = OnEvent (Some (PauseChanged false)) ∧ Forall (λ e, negb (is_user e) = true) (hist_entry film 5).2.
Proof.
  split; [vm_compute; reflexivity|].
  refine (echoes_suppressed steady false film_arms _ _ _ _ _ (hist_split film 5 ltac:(vm_compute; lia)) _).
  vm_compute. tauto.
Defined.
Lemma viewer_heard_witness :
  Report UserUnpaused ∈ (hist_entry touched 8).2 ∧
  Report (UserSeeked (scrub_from steady (hist_entry touched 9).1.1 5000) 5000) ∈ (hist_entry touched 11).2.
Proof.
  split.
  - refine (proj1 (viewer_heard steady false _ _ _ _ _ _ (hist_split touched 8 ltac:(vm_compute; lia)) _) false _ _);
      [vm_compute; reflexivity..|vm_compute; discriminate].
  - refine (proj2 (viewer_heard steady false _ _ _ _ _ _ (hist_split touched 9 ltac:(vm_compute; lia)) _) 5000
      [hist_entry touched 10] (hist_entry touched 11).1.1 _ [] _ _ _ _ _); [vm_compute; reflexivity..|].
    constructor; [vm_compute; reflexivity|constructor].
Defined.

(** A load forgets the echoes still on their way: the unpause commanded just before
    it comes back as the viewer's. *)
Theorem load_forgets_echoes :
  let arms := take 5 film_arms ++ [OnCommand (Some (Load (mkEd2kHash (repeat 8 16)) "/b.mkv" None None)); OnEvent (Some (PauseChanged false))] in
  let h := (run_actor steady false arms).1 in
  (owed (take 6 h)).1 = [false] ∧ (hist_entry h 6).2 = [Report UserUnpaused].
Proof. vm_compute. by split. Qed.
