(* ===== verification/PlayerLaunch.v ===== *)
(** * The player actor: launching, crashes and giving up

    The bookkeeping of launches is an invariant of the loop in both modes; a player
    that keeps crashing is relaunched a bounded number of times; one the user owns
    is waited for without end; a relaunched player is put back where it was. *)

From Stdlib Require Import SpecFloat.
From S2P Require Import Prelude Text Types Sync TimeSync F64 Drift Session PlayerActor PlayerCorrect.

Section launch.
Context (R : Readings).

(** ** The invariant *)

(** The fields that say whether there is a player and whether one is coming. *)
Definition launch_state (a : Actor) : bool * bool * bool * option Z * bool * Z * bool * Z :=
  (pa_factory a, pa_player a, pa_pending_spawn a, pa_reattach_at a, pa_attach_mode a, pa_consecutive_crashes a,
   pa_spawn_failure_exits a, pa_reattach_backoff a).

(** Spawn mode: the factory is away exactly while a launch is in flight, never
    beside a live player; without either we have given up or a recovery launch
    failed. Attach mode: a player, or a retry within ten seconds. *)
Definition launch_ok (a : Actor) : Prop :=
  if pa_attach_mode a then
    pa_factory a = true ∧ pa_pending_spawn a = false ∧ pa_consecutive_crashes a = 0 ∧
    (pa_player a = true ↔ pa_reattach_at a = None) ∧
    REATTACH_BACKOFF_INITIAL ≤ pa_reattach_backoff a ≤ REATTACH_BACKOFF_MAX
  else
    pa_reattach_at a = None ∧ pa_factory a = negb (pa_pending_spawn a) ∧
    (pa_player a = true → pa_pending_spawn a = false) ∧
    0 ≤ pa_consecutive_crashes a ≤ 3 ∧
    (pa_player a = true ∨ pa_pending_spawn a = true → pa_consecutive_crashes a ≤ 2) ∧
    (pa_player a = false → pa_pending_spawn a = false →
       pa_consecutive_crashes a = 3 ∨ pa_spawn_failure_exits a = false).

Lemma launch_ok_state a b : launch_state a = launch_state b → launch_ok a → launch_ok b.
Proof. destruct a, b. unfold launch_state, launch_ok. cbn. by intros [= -> -> -> -> -> -> -> ->]. Qed.

Lemma launch_state_mode a b : launch_state a = launch_state b → pa_attach_mode a = pa_attach_mode b.
Proof. unfold launch_state. by intros [=]. Qed.

(** Arms that may touch it. *)
Definition launch_arm (arm : Arm) : bool :=
  match arm with
  | OnCommand (Some (Load _ _ _ _)) | OnEvent None | OnEvent (Some (Exited _)) | OnSpawned _ | OnReattach => true
  | _ => false
  end.
Definition is_launch (e : Eff) : bool := match e with Launch => true | _ => false end.
Definition is_surrender (e : Eff) : bool := match e with Report FatalCrash | Report GaveUp => true | _ => false end.
Definition is_launching (e : Eff) : bool := is_launch e || is_surrender e.

Lemma launch_frame arm : launch_arm arm = false → framed (λ a, (launch_state a, pa_last_death a)) (λ e, negb (is_launching e)) (iteration R arm).
Proof. intros H. destruct arm as [[[]|]|[[]|]|[[]|]| | | |]; try done; cbn [iteration]; frame. Qed.

Lemma tally_launching o : Forall (λ e, negb (is_launching e) = true) o → tally is_launch o = 0 ∧ tally is_surrender o = 0.
Proof.
  intros Ho. split; apply tally_false; eapply Forall_impl; try exact Ho; intros e; unfold is_launching;
    by destruct (is_launch e), (is_surrender e).
Qed.
Lemma tally_no_launch o : tally is_launching o = 0 → tally is_launch o = 0.
Proof.
  unfold tally. induction o as [|e o IH]; [done|]. cbn. unfold is_launching at 1.
  destruct (is_launch e), (is_surrender e); cbn; lia.
Qed.
Definition launch_frame_of (a : Actor) := (launch_state a, pa_last_death a).

(** What a load of another file does about crashes: they are forgotten, and without
    a player or one coming a launch begins. *)
Definition forgets_crashes (different : bool) (a : Actor) : Actor * list Eff :=
  if different then
    let b := upd_last_death None (upd_consecutive_crashes 0 a) in
    if negb (pa_player a) && bool_decide (pa_reattach_at a = None) && negb (pa_pending_spawn a) && pa_factory a then
      (upd_pending_spawn true (upd_spawn_failure_exits false (upd_factory false b)), [Launch])
    else (b, [])
  else (a, []).
Lemma forget_crashes_spec different a : forget_crashes different a = ((), forgets_crashes different a).
Proof.
  unfold forget_crashes, forgets_crashes, begin_spawn. destruct different; exec; [|done].
  destruct (negb (pa_player a) && bool_decide (pa_reattach_at a = None) && negb (pa_pending_spawn a)); cbn [andb]; exec; [|done].
  unfold id. by destruct (pa_factory a); exec.
Qed.
Lemma forgets_crashes_frame different a b : launch_frame_of a = launch_frame_of b →
  launch_frame_of (forgets_crashes different a).1 = launch_frame_of (forgets_crashes different b).1 ∧
  (forgets_crashes different a).2 = (forgets_crashes different b).2.
Proof.
  destruct a, b. unfold launch_frame_of, launch_state, forgets_crashes. cbn. intros [= -> -> -> -> -> -> -> -> ->].
  destruct different; [|done]. by destruct (_ && _).
Qed.
Lemma load_launch file path title resume a :
  let r := handle_load R file path title resume a in
  let f := forgets_crashes (negb (bool_decide (current_file a = Some file))) a in
  launch_frame_of r.2.1 = launch_frame_of f.1 ∧
  tally is_launch r.2.2 = tally is_launch f.2 ∧ tally is_surrender r.2.2 = 0 ∧ (pa_reads a ≤ pa_reads r.2.1)%nat.
Proof.
  cbv zeta. unfold handle_load. rewrite bind_ask, !bind_update. set (different := negb _).
  match goal with |- context [(set_speed R one ≫= ?k) ?c] =>
    destruct (bind_framed launch_frame_of (λ e, negb (is_launching e)) (set_speed R one) k c) as (x & b & o & Hb & Hr & Ho & ->);
    [frame|]; assert (launch_frame_of b = launch_frame_of a) as Hba by exact Hb; assert (pa_reads a ≤ pa_reads b)%nat as Hra by exact Hr;
    clear Hb Hr end.
  pose proof (forget_crashes_spec different b) as Hfc. destruct (forgets_crashes_frame different b a Hba) as [Hf <-].
  assert (pa_reads (forgets_crashes different b).1 = pa_reads b ∧ tally is_surrender (forgets_crashes different b).2 = 0) as [Hrf Hsf].
  { unfold forgets_crashes. destruct different; [destruct (_ && _)|]; done. }
  destruct (forgets_crashes different b) as [c o1]. cbn [fst snd] in *.
  assert (framed launch_frame_of (λ e, negb (is_launching e)) (load_player R file path title)) as Hlp by frame.
  destruct (Hlp c) as (H3 & H4 & H5). destruct (load_player R file path title c) as [y [d o2]] eqn:Hlc.
  rewrite (does_bind _ (λ _, load_player R file path title) _ _ _ _ _ _ _ Hfc Hlc). cbn [fst snd] in *.
  apply tally_launching in H5 as [H5 H6]. apply tally_launching in Ho as [Ho1 Ho2].
  rewrite H3, !tally_app, Ho1, Ho2, H5, H6, Hsf. split_and!; [done|lia|lia|lia].
Qed.

(** The death of a player. *)
Lemma death_attach clean a : pa_attach_mode a = true →
  let r := handle_player_death R clean a in
  (∃ n, launch_state r.2.1 = launch_state (upd_player false (upd_reattach_at (Some (rd_instant R n))
     (upd_reattach_backoff REATTACH_BACKOFF_INITIAL a)))) ∧
  r.1 = true ∧ tally is_launching r.2.2 = 0 ∧ (pa_reads a ≤ pa_reads r.2.1)%nat.
Proof.
  intros Ha. cbv zeta. unfold handle_player_death. rewrite !bind_update, bind_ask. cbn. rewrite Ha.
  unfold begin_reattach. exec.
  match goal with |- context [estimate_now R ?b] => destruct (estimate_spec R b) as (n & x & Hd & Hn & _) end.
  unfold does in Hd. rewrite !Hd. cbn in *. split; [exists n; by destruct a|]. split_and!; [done|done|lia].
Qed.

(** The number of crashes in a row after one at [now]. *)
Definition crash_run (a : Actor) (now : Z) : Z :=
  match pa_last_death a with
  | Some at_ => if Z.max 0 (now - at_) <? CRASH_FATAL_WINDOW then u32_wrap (pa_consecutive_crashes a + 1) else 1
  | None => 1
  end.
Lemma death_spawn clean a : pa_attach_mode a = false → pa_factory a = true →
  let r := handle_player_death R clean a in
  let now := rd_instant R (pa_reads a) in
  let c := crash_run a now in
  launch_frame_of r.2.1 = launch_frame_of (upd_player false (upd_consecutive_crashes c (upd_last_death (Some now)
    (if CRASH_GIVE_UP_COUNT <=? c then a
     else upd_pending_spawn true (upd_spawn_failure_exits true (upd_factory false a)))))) ∧
  r.1 = true ∧ tally is_launch r.2.2 = (if CRASH_GIVE_UP_COUNT <=? c then 0 else 1) ∧
  filter (λ e, is_surrender e = true) r.2.2 =
    (if c =? 2 then [Report FatalCrash] else []) ++ (if CRASH_GIVE_UP_COUNT <=? c then [Report GaveUp] else []) ∧
  (pa_reads a < pa_reads r.2.1)%nat.
Proof.
  intros Ha Hf. cbv zeta. unfold handle_player_death. rewrite !bind_update, bind_ask. cbn. rewrite Ha.
  unfold handle_crash, instant_now. rewrite bind_next, !bind_update, bind_ask. cbn.
  assert ((if match pa_last_death a with Some at_ => Z.max 0 (rd_instant R (pa_reads a) - at_) <? CRASH_FATAL_WINDOW | None => false end
          then u32_wrap (pa_consecutive_crashes a + 1) else 1) = crash_run a (rd_instant R (pa_reads a))) as -> by (unfold crash_run; by destruct (pa_last_death a)).
  set (c := crash_run a _). exec.
  destruct (CRASH_GIVE_UP_COUNT <=? c) eqn:Hgive; [|unfold begin_spawn; exec].
  - destruct (c =? 2) eqn:H2; exec; [unfold CRASH_GIVE_UP_COUNT in Hgive; lia|].
    split; [by destruct a|]. split_and!; [done..|lia].
  - destruct (c =? 2) eqn:H2; exec;
      match goal with |- context [estimate_now R ?b] => destruct (estimate_spec R b) as (n & x & Hd & Hn & _) end;
      unfold does in Hd; rewrite !Hd; cbn in *; rewrite Hf; exec; (split; [by destruct a|]); split_and!; try done; lia.
Qed.

(** The result of a launch. *)
Lemma spawned_launch delivered a :
  let r := finish_spawn R delivered a in
  let b := upd_pending_spawn false a in
  launch_frame_of r.2.1 = launch_frame_of
    (match delivered with None => b | Some true => upd_player true (upd_factory true b) | Some false => upd_factory true b end) ∧
  r.1 = match delivered with None => false | Some true => true | Some false => negb (pa_spawn_failure_exits a) end ∧
  tally is_launch r.2.2 = 0 ∧ (pa_reads a ≤ pa_reads r.2.1)%nat.
Proof.
  cbv zeta. unfold finish_spawn. rewrite bind_update. destruct delivered as [[|]|]; [|exec; by split_and!..].
  rewrite !bind_update.
  match goal with |- context [(reapply_overlays R ≫= ?k) ?c] =>
    assert (framed launch_frame_of (λ e, negb (is_launching e)) (reapply_overlays R ≫= k)) as Hf by frame;
    assert (((reapply_overlays R ≫= k) c).1 = true) as Ht by
      (destruct (reapply_spec R c) as (n & o & Hd & _); unfold mbind at 1, Act_bind; rewrite Hd;
       exec; destruct (pa_current a) as [[[? ?] ?]|]; exec; try done;
       match goal with |- context [load_player R ?f ?p ?t ?b] => by destruct (load_player R f p t b) as [? [? ?]] end);
    destruct (Hf c) as (H1 & H2 & H3) end.
  apply tally_launching in H3 as [H3 _]. by split_and!.
Qed.

(** A probe for the user's own player. *)
Lemma reattach_launch a : pa_factory a = true →
  let r := try_reattach R a in
  (launch_state r.2.1 = launch_state (upd_player true (upd_reattach_at None (upd_reattach_backoff REATTACH_BACKOFF_INITIAL a))) ∨
   ∃ n, launch_state r.2.1 = launch_state (upd_reattach_at (Some (rd_instant R n + pa_reattach_backoff a))
     (upd_reattach_backoff (Z.min (pa_reattach_backoff a * 2) REATTACH_BACKOFF_MAX) a))) ∧
  tally is_launching r.2.2 = 0 ∧ pa_last_death r.2.1 = pa_last_death a ∧ (pa_reads a ≤ pa_reads r.2.1)%nat.
Proof.
  intros Hf. cbv zeta. unfold try_reattach. rewrite bind_update, bind_ask. cbn. rewrite Hf. cbn [negb].
  rewrite bind_next. cbn. destruct (rd_ok R (pa_reads a)); exec.
  - match goal with |- context [reapply_overlays R ?b] => destruct (reapply_spec R b) as (n & o & Hd & Hn & Ho) end.
    unfold does in Hd. rewrite !Hd. cbn in *.
    assert (tally is_launching o = 0) as Ho'.
    { apply tally_false. eapply Forall_impl; [exact Ho|]. by intros [| [] | | |]. }
    destruct (pa_current a) as [[[f p] t]|]; exec; rewrite ?tally_app; cbn.
    + split; [left; by destruct a|]. split_and!; try done; [|lia]. unfold tally in *. cbn. rewrite List.filter_app, length_app. cbn. lia.
    + split; [left; by destruct a|]. split_and!; try done; [|lia]. unfold tally in *. cbn. by rewrite ?app_nil_r.
  - split; [right; eexists; by destruct a|]. split_and!; [done|done|lia].
Qed.

(** ** The budget of launches *)

(** Launches, and loads of another file. *)
Definition fresh_load (a : Actor) (arm : Arm) : Z :=
  match arm with
  | OnCommand (Some (Load file _ _ _)) => if decide (current_file a = Some file) then 0 else 1
  | _ => 0
  end.
Definition count_launch (g : Z * Z) (e : Actor * Arm * list Eff) : Z * Z :=
  (g.1 + tally is_launch e.2, g.2 + fresh_load e.1.1 e.1.2).
Definition launches (h : History) : Z := (foldl count_launch (0, 0) h).1.
Definition fresh_loads (h : History) : Z := (foldl count_launch (0, 0) h).2.

Section budget.
Hypothesis instants_grow : ∀ m n, (m ≤ n)%nat → rd_instant R m ≤ rd_instant R n.

(** [D] windows have passed since the start. *)
Definition windows (a : Actor) (D : Z) : Prop :=
  0 ≤ D ∧ CRASH_FATAL_WINDOW * D ≤
    (match pa_last_death a with Some d => d | None => rd_instant R (pa_reads a) end) - rd_instant R 0 ∧
  (∀ d, pa_last_death a = Some d → ∃ m, (m < pa_reads a)%nat ∧ d = rd_instant R m).
Definition budget (g : Z * Z) (a : Actor) : Prop :=
  launch_ok a ∧
  if pa_attach_mode a then g.1 = 0
  else (pa_last_death a = None → pa_consecutive_crashes a = 0) ∧
    ∃ D, windows a D ∧ g.1 ≤ Z.min (pa_consecutive_crashes a) 2 + 3 * g.2 + 2 * D.
Definition spent_budget (g : Z * Z) (a : Actor) : Prop :=
  if pa_attach_mode a then g.1 = 0
  else ∃ D, 0 ≤ D ∧ CRASH_FATAL_WINDOW * D ≤ rd_instant R (pa_reads a) - rd_instant R 0 ∧ g.1 ≤ 2 + 3 * g.2 + 2 * D.

Lemma budget_frame g a b : launch_frame_of b = launch_frame_of a → (pa_reads a ≤ pa_reads b)%nat → budget g a → budget g b.
Proof.
  intros Hf Hr [Hok Hb]. assert (launch_state b = launch_state a) as Hs by (exact (f_equal fst Hf)).
  split; [by apply (launch_ok_state a)|]. unfold launch_frame_of, launch_state in Hf. injection Hf as _ _ _ _ E5 E6 _ _ E9.
  rewrite E5, E6. destruct (pa_attach_mode a); [done|]. rewrite E9. destruct Hb as (H0 & D & (H1 & H2 & H3) & H4). split; [done|]. exists D. split; [|done].
  unfold windows. rewrite E9. split; [done|]. split.
  - pose proof (instants_grow _ _ Hr). destruct (pa_last_death a); lia.
  - intros d Hd. destruct (H3 d Hd) as (m & Hm & ->). exists m. split; [lia|done].
Qed.
Lemma budget_spent g a : budget g a → spent_budget g a.
Proof.
  intros [_ Hb]. unfold spent_budget. destruct (pa_attach_mode a); [done|]. destruct Hb as (_ & D & (H1 & H2 & H3) & H4).
  exists D. split; [done|]. split; [|lia]. destruct (pa_last_death a) as [d|]; [|done].
  destruct (H3 d eq_refl) as (m & Hm & ->). pose proof (instants_grow m (pa_reads a)). lia.
Qed.

Lemma spent_frame g a b : pa_attach_mode b = pa_attach_mode a → (pa_reads a ≤ pa_reads b)%nat → spent_budget g a → spent_budget g b.
Proof.
  unfold spent_budget. intros -> Hr. destruct (pa_attach_mode a); [done|]. intros (D & H1 & H2 & H3). exists D.
  pose proof (instants_grow _ _ Hr). split; [done|]. split; [lia|done].
Qed.

(** A load. *)
Lemma budget_forget g a different : budget g a →
  let f := forgets_crashes different a in
  budget (g.1 + tally is_launch f.2, g.2 + (if different then 1 else 0)) f.1.
Proof.
  intros [Hok Hb]. cbv zeta. unfold forgets_crashes. destruct different; last first.
  { cbn. split; [done|]. cbn [fst snd]. change (tally is_launch []) with 0. by rewrite !Z.add_0_r. }
  unfold launch_ok in Hok. unfold budget.
  destruct (pa_attach_mode a) eqn:Ha.
  - destruct Hok as (H1 & H2 & H3 & H4 & H5).
    assert (negb (pa_player a) && bool_decide (pa_reattach_at a = None) = false) as ->.
    { destruct (pa_player a); [done|]. cbn. apply bool_decide_eq_false. intros ?%H4. done. }
    cbn [andb fst snd]. unfold launch_ok. cbn. rewrite Ha. split; [done|]. change (tally is_launch []) with 0. lia.
  - destruct Hok as (H1 & H2 & H3 & H4 & H5 & H6). destruct Hb as (_ & D & (D1 & D2 & D3) & Hg).
    assert (0 ≤ Z.min (pa_consecutive_crashes a) 2 ≤ 2) by lia.
    assert (∀ b, pa_last_death b = None → pa_reads b = pa_reads a → windows b D) as Hw.
    { intros b Hb1 Hb2. unfold windows. rewrite Hb1, Hb2. split; [done|]. split; [|done].
      destruct (pa_last_death a) as [d|]; [|lia]. destruct (D3 d eq_refl) as (m & Hm & ->). pose proof (instants_grow m (pa_reads a)). lia. }
    destruct (_ && pa_factory a) eqn:Hc; unfold launch_ok; cbn; rewrite Ha.
    + apply andb_true_iff in Hc as [[[Hp _]%andb_true_iff Hs]%andb_true_iff Hfa]. split.
      { split_and!; try done; intros; try lia. by destruct (pa_player a). }
      split; [done|]. exists D. split; [by apply Hw|]. change (tally is_launch [Launch]) with 1. cbn. lia.
    + split.
      { split_and!; try done; try lia. intros Hp Hs. right. rewrite Hp, H1, H2, Hs in Hc. cbn in Hc. by rewrite bool_decide_eq_true_2 in Hc. }
      split; [done|]. exists D. split; [by apply Hw|]. change (tally is_launch []) with 0. cbn. lia.
Qed.

(** A death. *)
Lemma budget_death g a clean : budget g a → pa_player a = true →
  let r := handle_player_death R clean a in budget (g.1 + tally is_launch r.2.2, g.2) r.2.1 ∧ r.1 = true.
Proof.
  intros Hall Hp. pose proof Hall as [Hok Hb]. cbv zeta. unfold launch_ok in Hok. destruct (pa_attach_mode a) eqn:Ha.
  - destruct (death_attach clean a Ha) as ([n Hs] & Ht & Hl & Hr). split; [|done]. destruct Hok as (H1 & H2 & H3 & H4 & H5).
    split.
    + eapply launch_ok_state; [symmetry; exact Hs|]. unfold launch_ok. cbn. rewrite Ha. split_and!; try done.
    + rewrite (launch_state_mode _ _ Hs). cbn. rewrite Ha. assert (tally is_launch (handle_player_death R clean a).2.2 = 0); [|lia].
      by apply tally_no_launch.
  - destruct Hok as (H1 & H2 & H3 & H4 & H5 & H6). destruct Hb as (D0 & D & (D1 & D2 & D3) & Hg).
    pose proof (H3 Hp) as Hpend. rewrite Hpend in H2. cbn in H2. specialize (H5 (or_introl Hp)).
    destruct (death_spawn clean a Ha H2) as (Hs & Ht & Hl & _ & Hr). split; [|done]. rewrite Hl.
    set (now := rd_instant R (pa_reads a)) in *. set (c := crash_run a now) in *.
    assert (∃ D', 0 ≤ D' ∧ CRASH_FATAL_WINDOW * D' ≤ now - rd_instant R 0 ∧ 1 ≤ c ≤ 3 ∧
      g.1 + (if CRASH_GIVE_UP_COUNT <=? c then 0 else 1) ≤ Z.min c 2 + 3 * g.2 + 2 * D') as (D' & E1 & E2 & E3 & E4).
    { assert (0 < CRASH_FATAL_WINDOW) as HW by done. unfold c, crash_run in *. unfold CRASH_GIVE_UP_COUNT.
      destruct (pa_last_death a) as [d|].
      - destruct (D3 d eq_refl) as (m & Hm & ->). pose proof (instants_grow m (pa_reads a)) as Hmn.
        fold now in Hmn. destruct (Z.ltb_spec (Z.max 0 (now - rd_instant R m)) CRASH_FATAL_WINDOW).
        + exists D. unfold u32_wrap. rewrite Z.mod_small by (unfold u32_modulus; lia). split_and!; try lia.
          destruct (Z.leb_spec 3 (pa_consecutive_crashes a + 1)); lia.
        + exists (D + 1). split_and!; try lia. destruct (Z.leb_spec 3 1); lia.
      - specialize (D0 eq_refl). exists D. fold now in D2. split_and!; try lia. destruct (Z.leb_spec 3 1); lia. }
    apply (budget_frame _ (upd_reads (S (pa_reads a)) (upd_player false (upd_consecutive_crashes c (upd_last_death (Some now)
      (if CRASH_GIVE_UP_COUNT <=? c then a else upd_pending_spawn true (upd_spawn_failure_exits true (upd_factory false a)))))))).
    { rewrite Hs. by destruct a. }
    { cbn. lia. }
    unfold budget, launch_ok. destruct (CRASH_GIVE_UP_COUNT <=? c) eqn:Hgive; cbn; rewrite Ha; unfold CRASH_GIVE_UP_COUNT in Hgive.
    + split; [split_and!; [done|by rewrite H2, Hpend|done|lia|lia|by intros [|]; congruence|left; lia]|].
      split; [done|]. exists D'. split; [|done]. unfold windows. cbn. split_and!; try done. intros d [= <-]. exists (pa_reads a). split; [lia|done].
    + split; [split_and!; [done|done|done|lia|lia|lia|done]|].
      split; [done|]. exists D'. split; [|done]. unfold windows. cbn. split_and!; try done. intros d [= <-]. exists (pa_reads a). split; [lia|done].
Qed.

Lemma budget_step g a arm : budget g a → enabled a (taken_at R a) arm = true →
  let r := iteration R arm a in
  (r.1 = true → budget (count_launch g (a, arm, r.2.2)) r.2.1) ∧ spent_budget (count_launch g (a, arm, r.2.2)) r.2.1.
Proof.
  intros Hg Hen. cbv zeta. unfold count_launch. cbn [fst snd].
  assert (∀ h b, budget h b → (iteration R arm a).1 = (iteration R arm a).1 → spent_budget h b) as Hsp by (intros; by apply budget_spent).
  destruct (launch_arm arm) eqn:Harm; last first.
  { destruct (launch_frame arm Harm a) as (H1 & H2 & [H3 _]%tally_launching). rewrite H3.
    assert (fresh_load a arm = 0) as -> by (by destruct arm as [[[]|]| | | | | |]). rewrite !Z.add_0_r, <-surjective_pairing.
    assert (budget g (iteration R arm a).2.1) by (by eapply budget_frame). split; [done|by apply budget_spent]. }
  destruct arm as [[[]|]|[[]|]|delivered| | | |]; try done; cbn [iteration handle_command handle_player_event fresh_load];
    rewrite ?seq_ret.
  - destruct (load_launch file path title resume_millis a) as (H1 & H2 & _ & H4). rewrite H2.
    assert (budget (g.1 + tally is_launch (forgets_crashes (negb (bool_decide (current_file a = Some file))) a).2,
                    g.2 + (if decide (current_file a = Some file) then 0 else 1))
      (handle_load R file path title resume_millis a).2.1) as Hb; [|split; [done|by apply budget_spent]].
    eapply budget_frame; [exact H1| |].
    { revert H4. unfold forgets_crashes. destruct (negb _); [destruct (_ && _)|]; by cbn. }
    pose proof (budget_forget g a (negb (bool_decide (current_file a = Some file))) Hg) as Hf. cbv zeta in Hf.
    destruct (decide (current_file a = Some file)) as [Hc|Hc];
      [rewrite bool_decide_eq_true_2 in Hf |- * by done|rewrite bool_decide_eq_false_2 in Hf |- * by done]; exact Hf.
  - cbn in Hen. destruct (budget_death g a clean Hg Hen) as [Hb _]. rewrite Z.add_0_r. split; [done|by apply budget_spent].
  - cbn in Hen. destruct (budget_death g a false Hg Hen) as [Hb _]. rewrite Z.add_0_r. split; [done|by apply budget_spent].
  - cbn in Hen. destruct (spawned_launch delivered a) as (H1 & H2 & H3 & H4). rewrite H2, H3, !Z.add_0_r, <-surjective_pairing.
    destruct Hg as [Hok Hb]. pose proof Hok as Hok'. unfold launch_ok in Hok. destruct (pa_attach_mode a) eqn:Ha.
    { destruct Hok as (_ & ? & _). congruence. }
    assert (∀ b, launch_frame_of (finish_spawn R delivered a).2.1 = launch_frame_of b → pa_reads b = pa_reads a → launch_ok b →
      pa_attach_mode b = false → pa_consecutive_crashes b = pa_consecutive_crashes a → pa_last_death b = pa_last_death a →
      budget g (finish_spawn R delivered a).2.1) as Hk.
    { intros b Hb1 Hb2 Hb3 Hb4 Hb5 Hb6. apply (budget_frame g b); [done|lia|]. split; [done|]. rewrite Hb4, Hb5.
      rewrite Hb6. destruct Hb as (H0 & D & HD & Hle). split; [done|]. exists D. split; [|done]. unfold windows in *. by rewrite Hb6, Hb2. }
    destruct Hok as (K1 & K2 & K3 & K4 & K5 & K6). specialize (K5 (or_intror Hen)).
    assert (pa_player a = false) as Hpl by (destruct (pa_player a); [by rewrite K3 in Hen|done]).
    destruct delivered as [[|]|].
    + assert (budget g (finish_spawn R (Some true) a).2.1) as Hbud; [|split; [done|by apply budget_spent]].
      eapply Hk; [exact H1|done| |done..]. unfold launch_ok. cbn. rewrite Ha.
      split_and!; [done|done|done|lia|lia|done|done].
    + assert (spent_budget g (finish_spawn R (Some false) a).2.1) as Hspent.
      { apply (spent_frame g a); [|done|by apply budget_spent; split; [|rewrite Ha]]. by apply (f_equal fst) in H1 as ->%launch_state_mode. }
      split; [|done]. intros He%negb_true_iff. eapply Hk; [exact H1|done| |done..]. unfold launch_ok. cbn. rewrite Ha, Hpl.
      split_and!; [done|done|done|lia|lia|by intros [|]|by right].
    + split; [done|]. apply (spent_frame g a); [|done|by apply budget_spent; split; [|rewrite Ha]]. by apply (f_equal fst) in H1 as ->%launch_state_mode.
  - cbn in Hen. pose proof Hg as [Hok Hb]. unfold launch_ok in Hok. destruct (pa_attach_mode a) eqn:Ha; last first.
    { destruct Hok as (K & _). by rewrite K in Hen. }
    destruct Hok as (K1 & K2 & K3 & K4 & K5). destruct (reattach_launch a K1) as (Hs & Hl%tally_no_launch & _ & Hr).
    rewrite Hl, !Z.add_0_r, <-surjective_pairing.
    assert (budget g (try_reattach R a).2.1) as Hbud; [|split; [done|by apply budget_spent]].
    unfold REATTACH_BACKOFF_INITIAL, REATTACH_BACKOFF_MAX, millis_ns in *.
    destruct Hs as [Hs|[n Hs]]; (split; [eapply launch_ok_state; [symmetry; exact Hs|]|by rewrite (launch_state_mode _ _ Hs); cbn; rewrite Ha]);
      unfold launch_ok; cbn; rewrite Ha; unfold REATTACH_BACKOFF_INITIAL, REATTACH_BACKOFF_MAX, millis_ns.
    + by split_and!.
    + split_and!; try done; [|lia..]. split; [|done]. intros Hpl%K4. by rewrite Hpl in Hen.
Qed.

Lemma start_budget attach : budget (0, 0) (start_actor R (new_actor attach)).2.1.
Proof.
  destruct attach; unfold start_actor, begin_spawn, begin_reattach, estimate_now, budget, launch_ok; exec.
  - split; [|done]. by split_and!.
  - split; [by split_and!; try done; try lia|]. split; [done|]. exists 0. split; [|done]. unfold windows. cbn. split_and!; [done|lia|done].
Qed.

Lemma count_launch_finish g a arm o e : Forall (λ e, is_shutdown e = true) e →
  count_launch g (a, arm, o ++ e) = count_launch g (a, arm, o).
Proof. intros He. unfold count_launch. cbn [fst snd]. rewrite tally_app_shutdown; [done| |done]. by intros [|[]| | |]. Qed.

Lemma budget_run attach arms :
  let '(h, z) := run_actor R attach arms in
  spent_budget (launches h, fresh_loads h) z ∧ (∀ h1 e h2, h = h1 ++ e :: h2 → launch_ok e.1.1 ∧ explained R e).
Proof.
  pose proof (loop_invariant R count_launch budget spent_budget) as Hl. unfold run_actor.
  destruct (Hl (λ g a n, budget_frame g a (upd_reads n a) eq_refl) (λ g a n, spent_frame g a (upd_reads n a) eq_refl) budget_spent budget_step
    count_launch_finish
    arms (0, 0) (start_actor R (new_actor attach)).2.1 (start_budget attach)) as [H1 H2].
  destruct (loop R arms _) as [h z]. cbn [fst snd] in *. unfold launches, fresh_loads. rewrite <-surjective_pairing. split; [done|].
  intros h1 e h2 Hh. destruct (H2 h1 e h2 Hh) as [[Hok _] Hex]. done.
Qed.

Lemma mode_frame arm : framed pa_attach_mode (λ _, true) (iteration R arm).
Proof. destruct arm as [[[]|]|[[]|]|[[]|]| | | |]; cbn [iteration]; frame. Qed.
Lemma mode_run attach arms h1 e h2 : (run_actor R attach arms).1 = h1 ++ e :: h2 → pa_attach_mode e.1.1 = attach.
Proof.
  intros Hh. destruct (loop_invariant R (λ (g : ()) _, g) (λ _ a, pa_attach_mode a = attach) (λ _ a, pa_attach_mode a = attach))
    with (arms := arms) (g := ()) (a := (start_actor R (new_actor attach)).2.1) as [_ Hi]; try done.
  - intros _ a arm Ha _. destruct (mode_frame arm a) as (Hm & _). cbv zeta. by rewrite Hm.
  - by destruct attach.
  - by destruct (Hi _ _ _ Hh).
Qed.

(** In attach mode nothing is launched and nothing surrendered. *)
Lemma attach_step a arm : launch_ok a → pa_attach_mode a = true → enabled a (taken_at R a) arm = true →
  tally is_launch (iteration R arm a).2.2 = 0 ∧ tally is_surrender (iteration R arm a).2.2 = 0.
Proof.
  intros Hok Ha Hen. destruct (launch_arm arm) eqn:Harm; [|by destruct (launch_frame arm Harm a) as (_ & _ & ?%tally_launching)].
  unfold launch_ok in Hok. rewrite Ha in Hok. destruct Hok as (H1 & H2 & H3 & H4 & H5).
  assert (∀ o, tally is_launching o = 0 → tally is_launch o = 0 ∧ tally is_surrender o = 0) as Ht.
  { intros o Ho. split; [by apply tally_no_launch|]. revert Ho. unfold tally. induction o as [|e o IH]; [done|]. cbn.
    unfold is_launching at 1. destruct (is_launch e), (is_surrender e); cbn; lia. }
  destruct arm as [[[]|]|[[]|]|delivered| | | |]; try done; cbn [iteration handle_command handle_player_event]; rewrite ?seq_ret.
  - destruct (load_launch file path title resume_millis a) as (_ & -> & -> & _). split; [|done]. unfold forgets_crashes.
    destruct (negb _); [|done].
    assert (negb (pa_player a) && bool_decide (pa_reattach_at a = None) = false) as ->; [|done].
    destruct (pa_player a); [done|]. cbn. apply bool_decide_eq_false. intros ?%H4. done.
  - destruct (death_attach clean a Ha) as (_ & _ & Hl & _). by apply Ht.
  - destruct (death_attach false a Ha) as (_ & _ & Hl & _). by apply Ht.
  - cbn in Hen. congruence.
  - destruct (reattach_launch a H1) as (_ & Hl & _). by apply Ht.
Qed.
End budget.

(** ** Statements *)

(** C21. Supervision of the player, for clocks that never run backwards. Whenever an arm
    of the loop is taken the bookkeeping is sound: with a launched player the
    launcher is away exactly while a launch is in flight, never beside a live
    player, at most two crashes in a row are behind any player there is or that is
    coming, and when there is none the third crash or a failed recovery launch says
    why; with a player the user owns there is one or a probe for it is scheduled,
    with a back-off of half a second to ten. There nothing is ever launched and no
    crash is ever declared fatal. *)
Theorem player_supervision attach arms h1 a arm out h2 :
  (∀ m n, (m ≤ n)%nat → rd_instant R m ≤ rd_instant R n) →
  (run_actor R attach arms).1 = h1 ++ (a, arm, out) :: h2 →
  launch_ok a ∧ pa_attach_mode a = attach ∧
  (attach = true → tally is_launch out = 0 ∧ tally is_surrender out = 0).
Proof.
  intros Hg Hh. pose proof (mode_run _ _ _ _ _ Hh) as Hm. cbn in Hm. pose proof (budget_run Hg attach arms) as Hr.
  destruct (run_actor R attach arms) as [h z]. cbn [fst] in Hh. destruct Hr as [_ Hr]. destruct (Hr _ _ _ Hh) as [Hok (Hen & ext & Ho & Hext)].
  cbn [fst snd] in *. split; [done|]. split; [done|]. intros ->. rewrite Ho, !tally_app_shutdown; [by apply attach_step| |done| |done];
    by intros [|[]| | |].
Qed.

Lemma fresh_loads_nonneg h : ∀ g, 0 ≤ g.2 → 0 ≤ (foldl count_launch g h).2.
Proof.
  induction h as [|[[a arm] o] h IH]; intros g Hg; [done|]. cbn [foldl]. apply IH. cbn. unfold fresh_load.
  destruct arm as [[[]|]| | | | | |]; try lia. case_decide; lia.
Qed.

(** C22. A player that keeps dying is not relaunched without end: beyond the launch at
    the start, a run starts at most two players, three more for every load of
    another file, and two more for every thirty seconds that pass. *)
Theorem relaunches_bounded attach arms : (∀ m n, (m ≤ n)%nat → rd_instant R m ≤ rd_instant R n) →
  let '(h, z) := run_actor R attach arms in
  launches h ≤ 2 + 3 * fresh_loads h + 2 * ((rd_instant R (pa_reads z) - rd_instant R 0) / CRASH_FATAL_WINDOW).
Proof.
  intros Hg. pose proof (budget_run Hg attach arms) as Hr. destruct (run_actor R attach arms) as [h z]. destruct Hr as [Hr _].
  unfold spent_budget in Hr. cbn [fst snd] in Hr. assert (0 < CRASH_FATAL_WINDOW) as HW by done.
  pose proof (Hg 0%nat (pa_reads z)) as Hz. assert (0 ≤ fresh_loads h) as Hf by (by apply fresh_loads_nonneg).
  destruct (pa_attach_mode z).
  - pose proof (Z.div_pos (rd_instant R (pa_reads z) - rd_instant R 0) CRASH_FATAL_WINDOW). lia.
  - destruct Hr as (D & H0 & H1 & H2). assert (D ≤ (rd_instant R (pa_reads z) - rd_instant R 0) / CRASH_FATAL_WINDOW); [|lia].
    by apply Z.div_le_lower_bound.
Qed.
(** The state and the effects of a death that is followed by a relaunch. *)
Definition after_crash (a : Actor) : Actor :=
  let now := rd_instant R (pa_reads a) in
  upd_reads (S (pa_reads a)) (upd_pending_spawn true (upd_spawn_failure_exits true (upd_factory false
    (upd_estimate None (upd_drift (Drift.reset (pa_drift a)) (upd_speed one (upd_restore_millis (est_millis <$> pa_estimate a)
      (upd_last_death (Some now) (upd_consecutive_crashes (crash_run a now)
        (upd_believed_pause None (upd_pending_user_seek None (upd_pending_seek_echoes 0 (upd_pending_pause_echoes []
          (upd_observed_path None (upd_player false a))))))))))))))).
Lemma estimate_unknown a : pa_believed_pause a = None → estimate_now R a = (est_millis <$> pa_estimate a, (a, [])).
Proof.
  intros Hb. unfold estimate_now. rewrite bind_ask. unfold id. destruct (pa_estimate a); [|done].
  by rewrite decide_False by congruence.
Qed.
Lemma crash_relaunch clean a : pa_attach_mode a = false → pa_factory a = true →
  crash_run a (rd_instant R (pa_reads a)) < CRASH_GIVE_UP_COUNT →
  (handle_player_death R clean a).2 = (after_crash a,
    (if crash_run a (rd_instant R (pa_reads a)) =? 2 then [Report FatalCrash] else []) ++ [Launch]).
Proof.
  intros Ha Hf Hc. unfold handle_player_death. rewrite !bind_update, bind_ask. cbn. rewrite Ha.
  unfold handle_crash, instant_now. rewrite bind_next, !bind_update, bind_ask. cbn.
  assert ((if match pa_last_death a with Some at_ => Z.max 0 (rd_instant R (pa_reads a) - at_) <? CRASH_FATAL_WINDOW | None => false end
          then u32_wrap (pa_consecutive_crashes a + 1) else 1) = crash_run a (rd_instant R (pa_reads a))) as -> by (unfold crash_run; by destruct (pa_last_death a)).
  unfold after_crash. set (c := crash_run a _) in *. exec. destruct (Z.leb_spec CRASH_GIVE_UP_COUNT c); [lia|].
  unfold begin_spawn.
  destruct (c =? 2); exec; rewrite estimate_unknown by done; exec; rewrite Hf; exec; done.
Qed.

(** A load into a fresh player, with a position to restore. *)
Lemma loaded_restored a millis : pa_player a = true → pa_current a ≠ None → pa_estimate a = None →
  pa_restore_millis a = Some millis → (∀ n, rd_ok R n = true) →
  (handle_loaded R a).2.2 = Call (CSeek millis) true :: (if pa_desired_playing a then [Call (CSetPause false) true] else []).
Proof.
  intros Hp Hc He Hr Hok. unfold handle_loaded. rewrite bind_update, bind_ask. cbn. rewrite He, bool_decide_eq_true_2 by done.
  exec. rewrite Hr. exec. unfold seek_programmatic. exec. rewrite Hp. exec. rewrite Hok. exec.
  unfold apply_desired_pause. exec. rewrite bool_decide_eq_false_2 by done. cbn [orb].
  destruct (pa_desired_playing a); cbn [negb]; [|by rewrite bool_decide_eq_true_2 by done].
  rewrite bool_decide_eq_false_2 by done. rewrite Hp. exec. rewrite Hok. exec.
  match goal with |- context [reanchor_estimate R ?b] => destruct (reanchor_spec R b) as (n & e & Hd & _) end.
  unfold does in Hd. rewrite !Hd. done.
Qed.

(** A crash costs the viewer nothing but the wait. A player that died with a file
    loaded, and is brought back, is given the file again, is sent to the last
    position known of the old one when it reports the file loaded, and plays again
    if the group is playing. *)
Theorem crash_restores a clean file path title est : pa_attach_mode a = false → pa_factory a = true →
  pa_current a = Some (file, path, title) → pa_estimate a = Some est →
  crash_run a (rd_instant R (pa_reads a)) < CRASH_GIVE_UP_COUNT → (∀ n, rd_ok R n = true) →
  let d := handle_player_event R (Some (Exited clean)) a in
  let s := finish_spawn R (Some true) d.2.1 in
  let l := handle_player_event R (Some Loaded) s.2.1 in
  Launch ∈ d.2.2 ∧ Call (CLoad path title) true ∈ s.2.2 ∧
  l.2.2 = Call (CSeek (est_millis est)) true :: (if pa_desired_playing a then [Call (CSetPause false) true] else []).
Proof.
  intros Ha Hf Hcur Hest Hc Hok. cbn [handle_player_event]. cbv zeta. rewrite (crash_relaunch clean a Ha Hf Hc). cbn [fst snd].
  split; [rewrite elem_of_app; right; by left|]. unfold finish_spawn. rewrite !bind_update.
  match goal with |- context [(reapply_overlays R ≫= ?k) ?b] => destruct (reapply_spec R b) as (n & o & Hd & Hn & _); set (b0 := b) in * end.
  assert (pa_current b0 = Some (file, path, title)) as Hb0 by exact Hcur.
  set (b1 := upd_reads (S n) b0).
  match goal with |- context [?m b0] => assert (m b0 = (true, (b1, o ++ [Call (CLoad path title) true]))) as Hm end.
  { unfold mbind at 1, Act_bind. unfold does in Hd. rewrite Hd. exec. rewrite Hcur. unfold load_player. exec. rewrite Hok. done. }
  rewrite !Hm. cbn [fst snd]. split; [rewrite elem_of_app; right; by left|].
  unfold handle_player_event. rewrite seq_ret. refine (loaded_restored b1 (est_millis est) _ _ _ _ Hok); try done.
  - change (pa_current b0 ≠ None). by rewrite Hb0.
  - cbn. by rewrite Hest.
Qed.
End launch.

(** ** Instances *)

Definition flaky_arms : list Arm :=
  [OnSpawned (Some true); OnEvent None; OnSpawned (Some true); OnEvent (Some (Exited false)); OnSpawned (Some true)].

Lemma player_supervision_witness :
  let '(h, _) := run_actor steady false flaky_arms in
  ∃ a, nth_error (h.*1.*1) 4 = Some a ∧ launch_ok a ∧ pa_attach_mode a = false ∧ pa_pending_spawn a = true.
Proof.
  destruct (run_actor steady false flaky_arms) as [h z] eqn:Hr.
  assert (h = (run_actor steady false flaky_arms).1) as Hh by (by rewrite Hr). vm_compute in Hh.
  match type of Hh with _ = [?e1; ?e2; ?e3; ?e4; (?a, ?arm, ?out)] => exists a;
    destruct (player_supervision steady false flaky_arms [e1; e2; e3; e4] a arm out [] steady_grows ltac:(vm_compute; reflexivity)) as (H1 & H2 & _) end.
  subst h. done.
Defined.
Lemma relaunches_bounded_witness :
  let '(h, z) := run_actor steady false flaky_arms in
  launches h = 2 ∧ launches h ≤ 2 + 3 * fresh_loads h + 2 * ((rd_instant steady (pa_reads z) - rd_instant steady 0) / CRASH_FATAL_WINDOW).
Proof.
  pose proof (relaunches_bounded steady false flaky_arms steady_grows) as H.
  assert (launches (run_actor steady false flaky_arms).1 = 2) as Hl by (vm_compute; reflexivity).
  destruct (run_actor steady false flaky_arms). by split.
Defined.
Lemma crash_restores_witness :
  let a := upd_player true (upd_current (Some (mkEd2kHash (repeat 7 16), "/a.mkv", None)) (upd_estimate (Some (mkEstimate 61000 0)) (upd_desired_playing true (new_actor false)))) in
  let d := handle_player_event steady (Some (Exited false)) a in
  let s := finish_spawn steady (Some true) d.2.1 in
  (handle_player_event steady (Some Loaded) s.2.1).2.2 = [Call (CSeek 61000) true; Call (CSetPause false) true].
Proof.
  cbv zeta. match goal with |- context [handle_player_event steady (Some (Exited false)) ?a] =>
    destruct (crash_restores steady a false (mkEd2kHash (repeat 7 16)) "/a.mkv" None (mkEstimate 61000 0) eq_refl eq_refl eq_refl eq_refl
      ltac:(vm_compute; reflexivity) (λ _, eq_refl)) as (_ & _ & H) end.
  exact H.
Defined.
