(* ===== verification/AniDb.v ===== *)
(** * The AniDB codec, the lookup schedule and the recordings

    src/dessplay-rendezvous/src/anidb: protocol.rs, the text format of requests and
    replies; schedule.rs, when a file is asked for again; record.rs, the recordings
    of real exchanges, without credentials; titles.rs, the title dump. Text is its
    UTF-8 bytes. *)

From S2P Require Import Prelude Text Types Franchise TimeSync Session.

Abbreviation text := bytes_of_string.

(** ** [str] *)

(** [str::replace] of a byte, and of a string (left to right). *)
Definition replace_byte (b : Z) (by_ : Bytes) (l : Bytes) : Bytes := mjoin ((λ x, if x =? b then by_ else [x]) <$> l).
Fixpoint replace_from (fuel : nat) (p by_ : Bytes) (l : Bytes) : Bytes :=
  match fuel with
  | O => l
  | S fuel =>
      match l with
      | [] => []
      | x :: r => if starts_with p l then by_ ++ replace_from fuel p by_ (drop (length p) l)
                  else x :: replace_from fuel p by_ r
      end
  end.
Definition replace_str (p by_ : Bytes) (l : Bytes) : Bytes := replace_from (length l) p by_ l.
(** [str::split_once] at a byte. *)
Fixpoint split_once (b : Z) (l : Bytes) : option (Bytes * Bytes) :=
  match l with
  | [] => None
  | x :: l => if x =? b then Some ([], l) else (λ p, (x :: p.1, p.2)) <$> split_once b l
  end.
Definition split_on (b : Z) : Bytes → list Bytes := split_at (Z.eqb b).
(** [join]. *)
Fixpoint join (sep : Bytes) (l : list Bytes) : Bytes :=
  match l with [] => [] | [x] => x | x :: l => x ++ sep ++ join sep l end.
(** [str::lines]: a final newline ends the last line, CR LF ends a line too. *)
Definition strip_cr (l : Bytes) : Bytes := match last l with Some 13 => take (length l - 1) l | _ => l end.
Fixpoint lines_of (pieces : list Bytes) : list Bytes :=
  match pieces with
  | [] => []
  | [l] => if decide (l = []) then [] else [l]
  | l :: pieces => strip_cr l :: lines_of pieces
  end.
Definition str_lines (l : Bytes) : list Bytes := lines_of (split_on 10 l).
Definition strip_prefix (p l : Bytes) : option Bytes := if starts_with p l then Some (drop (length p) l) else None.

(** ** Requests *)

Definition CLIENT_NAME : Bytes := (text "dessplay").
Definition CLIENT_VERSION : Z := 1.
Definition PROTOVER : Z := 3.
Definition FILE_FMASK : Bytes := (text "4000000000").
Definition FILE_AMASK : Bytes := (text "00A08000").
Definition FILE_FIELDS : nat := 5.
Definition ANIME_AMASK : Bytes := (text "ACA08000000000").
Definition ANIME_FIELDS : nat := 7.

Definition escape_value (value : Bytes) : Bytes := replace_byte 10 (text "<br />") (replace_byte 38 (text "&amp;") value).
Definition encode (command : Bytes) (params : list (Bytes * Bytes)) : Bytes :=
  command ++ (text " ") ++ join (text "&") ((λ p, p.1 ++ (text "=") ++ escape_value p.2) <$> params).

Definition auth (user pass tag : Bytes) : Bytes :=
  encode (text "AUTH")
    [((text "user"), user); ((text "pass"), pass); ((text "protover"), decimal PROTOVER); ((text "client"), CLIENT_NAME);
     ((text "clientver"), decimal CLIENT_VERSION); ((text "enc"), (text "UTF8")); ((text "tag"), tag)].
Definition logout_request (session tag : Bytes) : Bytes := encode (text "LOGOUT") [((text "s"), session); ((text "tag"), tag)].
Definition ping_request (tag : Bytes) : Bytes := encode (text "PING") [((text "tag"), tag)].
Definition file_request (size : Z) (hash : Ed2kHash) (session tag : Bytes) : Bytes :=
  encode (text "FILE")
    [((text "size"), decimal size); ((text "ed2k"), text (show_hash hash)); ((text "fmask"), FILE_FMASK); ((text "amask"), FILE_AMASK);
     ((text "s"), session); ((text "tag"), tag)].
Definition anime_request (series : AniDbSeriesId) (session tag : Bytes) : Bytes :=
  encode (text "ANIME") [((text "aid"), decimal (aid series)); ((text "amask"), ANIME_AMASK); ((text "s"), session); ((text "tag"), tag)].

(** ** Replies *)

Inductive ProtocolError :=
  | MalformedHeader (line : Bytes)
  | WrongFieldCount (expected got : nat)
  | BadNumber (field : Bytes)
  | MissingDataLine.

Record Response := mkResponse {
  rs_tag : option Bytes;
  rs_code : Z;
  rs_text : Bytes;
  rs_lines : list (list Bytes)
}.

Definition is_code (token : Bytes) : bool := bool_decide (length token = 3%nat) && forallb is_ascii_digit token.
Definition parse_response (raw : Bytes) : ProtocolError + Response :=
  match str_lines raw with
  | [] => inl (MalformedHeader [])
  | header :: lines =>
      match split_once 32 header with
      | None => inl (MalformedHeader header)
      | Some (first, rest) =>
          let '(tag, code_str, text_) :=
            if is_code first then (None, first, rest)
            else let '(code_str, text_) := default (rest, []) (split_once 32 rest) in (Some first, code_str, text_) in
          if is_code code_str then
            match parse_unsigned u16_max code_str with
            | None => inl (MalformedHeader header)
            | Some code =>
                inr (mkResponse tag code text_ (split_on 124 <$> filter (λ l, l ≠ []) lines))
            end
          else inl (MalformedHeader header)
      end
  end.

Definition unescape (field : Bytes) : Bytes := replace_byte 96 [39] (replace_str (text "<br />") [10] field).
(** [split] always yields a first piece. *)
Definition session_key (header : Bytes) : option Bytes :=
  let key := default [] (head (split_on 32 header)) in
  if negb (bool_decide (key = [])) && forallb is_ascii_alphanumeric key then Some key else None.

Definition parse_number (max : Z) (field : Bytes) : ProtocolError + Z :=
  match parse_unsigned max field with Some n => inr n | None => inl (BadNumber field) end.
Definition split_list (field : Bytes) : list Bytes := filter (λ i, i ≠ []) (split_on 39 field).
(** [collect] into a [Result]. *)
Fixpoint collect {E A} (l : list (E + A)) : E + list A :=
  match l with
  | [] => inr []
  | inl e :: _ => inl e
  | inr x :: l => match collect l with inl e => inl e | inr l => inr (x :: l) end
  end.
Fixpoint take_digits (l : Bytes) : Bytes :=
  match l with b :: l => if is_ascii_digit b then b :: take_digits l else [] | [] => [] end.
Definition parse_year (field : Bytes) : option Z :=
  let digits := take_digits field in
  if bool_decide (length digits = 4%nat) then parse_unsigned u16_max digits else None.

Record FileResult := mkFileResult {
  fr_fid : Z; fr_aid : AniDbSeriesId; fr_romaji : Bytes; fr_english : Bytes; fr_epno : Bytes
}.
Definition series_name (r : FileResult) : Bytes := if decide (fr_romaji r = []) then fr_english r else fr_romaji r.
Definition parse_file_data (response : Response) : ProtocolError + FileResult :=
  match rs_lines response with
  | [] => inl MissingDataLine
  | line :: _ =>
      match line with
      | [fid; aid; romaji; english; epno] =>
          match parse_number u32_max fid with
          | inl e => inl e
          | inr fid =>
              match parse_number u32_max aid with
              | inl e => inl e
              | inr aid => inr (mkFileResult fid (mkAniDbSeriesId aid) (unescape romaji) (unescape english) (unescape epno))
              end
          end
      | _ => inl (WrongFieldCount FILE_FIELDS (length line))
      end
  end.

Record AnimeResult := mkAnimeResult {
  ar_aid : AniDbSeriesId; ar_year : option Z; ar_relations : list (Z * AniDbSeriesId);
  ar_romaji : Bytes; ar_english : Bytes; ar_episode_count : option Z
}.
Definition anime_title (r : AnimeResult) : Bytes := if decide (ar_romaji r = []) then ar_english r else ar_romaji r.
Definition parse_anime_data (response : Response) : ProtocolError + AnimeResult :=
  match rs_lines response with
  | [] => inl MissingDataLine
  | line :: _ =>
      match line with
      | [aid; year; targets; kinds; romaji; english; episodes] =>
          match collect (parse_number u32_max <$> split_list targets) with
          | inl e => inl e
          | inr targets =>
              match collect (parse_number u16_max <$> split_list kinds) with
              | inl e => inl e
              | inr kinds =>
                  let episodes := match parse_number u32_max episodes with inr n => n | inl _ => 0 end in
                  match parse_number u32_max aid with
                  | inl e => inl e
                  | inr aid =>
                      inr (mkAnimeResult (mkAniDbSeriesId aid) (parse_year year)
                        ((λ p, (p.1, mkAniDbSeriesId p.2)) <$> zip kinds targets)
                        (unescape romaji) (unescape english) (if 0 <? episodes then Some episodes else None))
                  end
              end
          end
      | _ => inl (WrongFieldCount ANIME_FIELDS (length line))
      end
  end.
Definition relation_kind (code : Z) : RelationKind :=
  match code with
  | 1 => Sequel
  | 2 => Prequel
  | 11 => SameSetting
  | 12 | 21 | 22 => AlternativeSetting
  | 31 | 32 => AlternativeVersion
  | 41 => MusicVideo
  | 42 => Character
  | 51 => SideStory
  | 52 => ParentStory
  | 61 => Summary
  | 62 => FullStory
  | other => OtherRelation other
  end.

(** ** The lookup schedule (schedule.rs) *)

Definition i64_wrap (x : Z) : Z := (x + 2 ^ 63) mod 2 ^ 64 - 2 ^ 63.
Definition i64_saturating_sub (x y : Z) : Z := Z.max i64_min (Z.min i64_max (x - y)).

Definition MINUTE : Z := 60 * 1000.
Definition HOUR : Z := 60 * MINUTE.
Definition DAY : Z := 24 * HOUR.
Definition WEEK : Z := 7 * DAY.
Definition TIMEOUT_RETRY_MILLIS : Z := 5000.

Inductive Outcome := Data | NoData | Timeout.

Definition effective_anchor (first_seen : Z) (mtime : option Z) : Z :=
  match mtime with Some m => Z.min first_seen m | None => first_seen end.
Definition next_attempt (now anchor : Z) (has_data : bool) (outcome : Outcome) : option Z :=
  match outcome with
  | Timeout => Some (i64_wrap (now + TIMEOUT_RETRY_MILLIS))
  | Data => Some (i64_wrap (now + WEEK))
  | NoData =>
      if has_data then Some (i64_wrap (now + WEEK))
      else
        let age := i64_saturating_sub now anchor in
        if age <? DAY then Some (i64_wrap (now + 30 * MINUTE))
        else if age <? WEEK then Some (i64_wrap (now + 2 * HOUR))
        else if age <? 30 * DAY then Some (i64_wrap (now + 12 * HOUR))
        else if age <? 90 * DAY then Some (i64_wrap (now + 3 * DAY))
        else None
  end.

(** ** Recordings (record.rs) *)

Definition USER_REDACTED : Bytes := text "USER".
Definition PASS_REDACTED : Bytes := text "REDACTED".
Definition SESSION_REDACTED : Bytes := text "SESSION".

Definition sanitize_param (kv : Bytes) : Bytes :=
  match split_once 61 kv with
  | Some (k, _) =>
      if decide (k = text "user") then text "user=" ++ USER_REDACTED
      else if decide (k = text "pass") then text "pass=" ++ PASS_REDACTED
      else if decide (k = text "s") then text "s=" ++ SESSION_REDACTED
      else kv
  | None => kv
  end.
Definition sanitize_request (request : Bytes) : Bytes :=
  match split_once 32 request with
  | None => request
  | Some (command, params) => command ++ text " " ++ join (text "&") (sanitize_param <$> split_on 38 params)
  end.

(** [tokens[index + 1] = ...] after the first code, if it is 200 or 201. *)
Fixpoint redact_after (tokens : list Bytes) : list Bytes :=
  match tokens with
  | [] => []
  | t :: rest =>
      if is_code t then
        if decide (t = text "200" ∨ t = text "201")
        then t :: match rest with [] => [] | _ :: rest => SESSION_REDACTED :: rest end
        else tokens
      else t :: redact_after rest
  end.
Definition sanitize_response (response : Bytes) : Bytes :=
  match str_lines response with
  | [] => response
  | header :: lines =>
      foldl (λ acc line, acc ++ [10] ++ line) (join (text " ") (redact_after (split_on 32 header))) lines
  end.

Definition write_exchange (request response : Bytes) : Bytes :=
  text ">>> " ++ request ++ [10] ++
  mjoin ((λ line, text "<<< " ++ line ++ [10]) <$> str_lines response) ++ [10].

(** The state of [parse_exchanges]: the pairs found, the request, the reply so far. *)
Record Replay := mkReplay { rp_done : list (Bytes * Bytes); rp_request : option Bytes; rp_response : Bytes }.
Definition flush (p : Replay) : Replay :=
  match rp_request p with
  | Some req =>
      if decide (rp_response p = []) then mkReplay (rp_done p) None []
      else mkReplay (rp_done p ++ [(req, rp_response p)]) None []
  | None => mkReplay (rp_done p) None []
  end.
Definition replay_line (p : Replay) (line : Bytes) : Replay :=
  match strip_prefix (text ">>> ") line with
  | Some req => let p := flush p in mkReplay (rp_done p) (Some req) (rp_response p)
  | None =>
      match strip_prefix (text "<<< ") line with
      | Some part =>
          let response := if decide (rp_response p = []) then [] else rp_response p ++ [10] in
          mkReplay (rp_done p) (rp_request p) (response ++ part)
      | None => flush p
      end
  end.
Definition parse_exchanges (recording : Bytes) : list (Bytes * Bytes) :=
  rp_done (flush (foldl replay_line (mkReplay [] None []) (str_lines recording))).

(** ** The title dump (titles.rs) *)

Record TitleRow := mkTitleRow { tr_series : AniDbSeriesId; tr_kind : Z; tr_lang : Bytes; tr_title : Bytes }.
(** One line; [splitn(4, '|')] leaves the rest of the line in the fourth part. *)
Definition parse_title (line : Bytes) : option TitleRow :=
  '(series, rest) ← split_once 124 line;
  series ← parse_unsigned u32_max series;
  '(kind, rest) ← split_once 124 rest;
  kind ← parse_unsigned 255 kind;
  '(lang, title) ← split_once 124 rest;
  if decide (title = []) then None else Some (mkTitleRow (mkAniDbSeriesId series) kind lang title).
Definition parse_dump (dump : Bytes) : list TitleRow :=
  omap parse_title (filter (λ l, l ≠ [] ∧ starts_with (text "#") l = false) (str_lines dump)).

(** ** [str] laws *)

Lemma split_once_app b p r : b ∉ p → split_once b (p ++ b :: r) = Some (p, r).
Proof.
  induction p as [|x p IH]; intros Hp; cbn; [by rewrite Z.eqb_refl|]. apply not_elem_of_cons in Hp as [Hx Hp].
  rewrite (proj2 (Z.eqb_neq x b)) by congruence. by rewrite IH.
Qed.
Lemma split_once_None b l : b ∉ l → split_once b l = None.
Proof.
  induction l as [|x l IH]; intros Hl; cbn; [done|]. apply not_elem_of_cons in Hl as [Hx Hl].
  rewrite (proj2 (Z.eqb_neq x b)) by congruence. by rewrite IH.
Qed.
Lemma split_on_one b p : b ∉ p → split_on b p = [p].
Proof.
  unfold split_on. induction p as [|x p IH]; intros Hp; cbn; [done|]. apply not_elem_of_cons in Hp as [Hx Hp].
  rewrite (proj2 (Z.eqb_neq b x)) by done. by rewrite IH.
Qed.
Lemma split_on_cons b p r : b ∉ p → split_on b (p ++ b :: r) = p :: split_on b r.
Proof.
  unfold split_on. induction p as [|x p IH]; intros Hp; cbn; [by rewrite Z.eqb_refl|]. apply not_elem_of_cons in Hp as [Hx Hp].
  rewrite (proj2 (Z.eqb_neq b x)) by done. by rewrite IH.
Qed.
Lemma split_on_join b ps : ps ≠ [] → Forall (λ p, b ∉ p) ps → split_on b (join [b] ps) = ps.
Proof.
  intros Hne Hps. induction Hps as [|p ps Hp Hps IH]; [done|]. destruct ps as [|q ps]; [by apply split_on_one|].
  change (join [b] (p :: q :: ps)) with (p ++ b :: join [b] (q :: ps)). by rewrite split_on_cons, IH.
Qed.

(** A line that [lines] gives back as it is. *)
Definition line_ok (l : Bytes) : Prop := (10 ∉ l) ∧ last l ≠ Some 13.
Lemma strip_cr_ok l : last l ≠ Some 13 → strip_cr l = l.
Proof. intros Hl. unfold strip_cr. destruct (last l) as [z|]; [|done]. repeat case_match; (done || congruence). Qed.
Lemma lines_of_cons l ps : ps ≠ [] → lines_of (l :: ps) = strip_cr l :: lines_of ps.
Proof. by destruct ps. Qed.
Lemma split_on_nonempty b l : split_on b l ≠ [].
Proof. unfold split_on. destruct l as [|x l]; cbn; [done|]. destruct (b =? x); [done|]. by destruct (split_at _ l). Qed.
Lemma str_lines_cons l r : line_ok l → str_lines (l ++ 10 :: r) = l :: str_lines r.
Proof.
  intros [Hl Hc]. unfold str_lines. rewrite split_on_cons, lines_of_cons, strip_cr_ok by (done || apply split_on_nonempty). done.
Qed.
Lemma mjoin_cons {A} (x : list A) xs : mjoin (x :: xs) = x ++ mjoin xs.
Proof. done. Qed.
Lemma str_lines_terminated ls r : Forall line_ok ls → str_lines (mjoin ((λ l, l ++ [10]) <$> ls) ++ r) = ls ++ str_lines r.
Proof.
  intros Hls. induction Hls as [|l ls Hl Hls IH]; [done|]. rewrite fmap_cons, mjoin_cons, <-!app_assoc. cbn [app]. by rewrite str_lines_cons, IH.
Qed.
Lemma str_lines_all ls : Forall line_ok ls → str_lines (mjoin ((λ l, l ++ [10]) <$> ls)) = ls.
Proof. intros Hls. pose proof (str_lines_terminated ls [] Hls) as H. by rewrite !app_nil_r in H. Qed.
Lemma str_lines_join ls : ls ≠ [] → Forall line_ok ls → last ls ≠ Some [] → str_lines (join [10] ls) = ls.
Proof.
  intros Hne Hls Hl. induction Hls as [|l ls Hl1 Hls IH]; [done|]. destruct ls as [|l' ls].
  - cbn [join]. unfold str_lines. rewrite split_on_one by apply Hl1. cbn. rewrite decide_False; [done|]. cbn in Hl. congruence.
  - change (join [10] (l :: l' :: ls)) with (l ++ 10 :: join [10] (l' :: ls)). rewrite str_lines_cons by done. f_equal. by apply IH.
Qed.
Lemma not_elem_join b sep ps : b ∉ sep → Forall (λ p, b ∉ p) ps → b ∉ join sep ps.
Proof.
  intros Hs Hps. induction Hps as [|p ps Hp Hps IH]; [apply not_elem_of_nil|]. destruct ps as [|q ps]; [done|].
  change (join sep (p :: q :: ps)) with (p ++ sep ++ join sep (q :: ps)). rewrite !elem_of_app. tauto.
Qed.
