(* ===== verification/AniDbCorrect.v ===== *)
(** * The AniDB codec: round trips, recordings without credentials, the ladder

    Replies and requests survive printing and parsing; a recording replays to the
    exchanges it was made of and shows neither password nor session key; a file
    AniDB does not know is asked for a bounded number of times. *)

From S2P Require Import Prelude Text Types Franchise TimeSync Session AniDb.

(** ** Replies *)

(** A reply as the server writes it. *)
Definition print_response (r : Response) : Bytes :=
  mjoin ((λ l, l ++ [10]) <$>
    ((match rs_tag r with Some tag => tag ++ text " " | None => [] end ++ decimal (rs_code r) ++ text " " ++ rs_text r)
     :: (join [124] <$> rs_lines r))).
(** What it can carry: a tag without blanks that is no code, three digits, and
    fields without bars on lines that are not empty. *)
Definition response_ok (r : Response) : Prop :=
  match rs_tag r with Some tag => (32 ∉ tag) ∧ (10 ∉ tag) ∧ is_code tag = false | None => True end ∧
  100 ≤ rs_code r ≤ 999 ∧ line_ok (rs_text r) ∧
  Forall (λ fields, fields ≠ [] ∧ Forall (λ f, 124 ∉ f) fields ∧ line_ok (join [124] fields) ∧ join [124] fields ≠ [])
    (rs_lines r).

Lemma digits_no b l : digits l → is_ascii_digit b = false → b ∉ l.
Proof. intros Hl Hb Hin. unfold digits in Hl. rewrite Forall_forall in Hl. rewrite (Hl b Hin) in Hb. done. Qed.

Lemma decimal_code n : 100 ≤ n ≤ 999 → is_code (decimal n) = true ∧ parse_unsigned u16_max (decimal n) = Some n.
Proof.
  intros Hn. destruct (decimal_digits n) as [Hd Hne]; [lia|]. pose proof (decimal_value n ltac:(lia)) as Hv. split.
  - apply andb_true_iff. split.
    + apply bool_decide_eq_true. unfold decimal. rewrite length_reverse.
      assert (n / 10 / 10 < 10) by (rewrite Z.div_div by done; apply Z.div_lt_upper_bound; lia).
      assert (10 ≤ n / 10) by (apply Z.div_le_lower_bound; lia).
      cbn [decimal_rev]. destruct (Z.ltb_spec n 10); [lia|]. destruct (Z.ltb_spec (n / 10) 10); [lia|].
      destruct (Z.ltb_spec (n / 10 / 10) 10); [done|lia].
    + apply forallb_forall. intros x Hx%list_elem_of_In. unfold digits in Hd. rewrite Forall_forall in Hd. by apply Hd.
  - rewrite parse_unsigned_digits; [by rewrite Hv|done..|]. rewrite Hv. unfold u16_max. lia.
Qed.

Lemma last_app_ne {A} (p : list A) l x : l ≠ [] → last (p ++ l) = Some x → last l = Some x.
Proof. intros Hl. rewrite last_app. destruct (last l) eqn:E; [done|]. by apply last_None in E. Qed.
Lemma line_ok_app p l : 10 ∉ p → l ≠ [] → line_ok l → line_ok (p ++ l).
Proof. intros Hp Hne [Hl Hc]. split; [rewrite elem_of_app; tauto|]. intros H%last_app_ne; done. Qed.
Lemma line_ok_blank l : line_ok l → line_ok (text " " ++ l).
Proof.
  intros [Hl Hc]. change (text " ") with [32]. destruct l as [|x l]; [split; [rewrite app_nil_r, list_elem_of_singleton; lia|done]|].
  apply line_ok_app; [rewrite list_elem_of_singleton; lia|done..].
Qed.

Lemma parse_header (tag : option Bytes) code header_text lines :
  match tag with Some tag => (32 ∉ tag) ∧ is_code tag = false | None => True end → 100 ≤ code ≤ 999 →
  let header := match tag with Some tag => tag ++ text " " | None => [] end ++ decimal code ++ text " " ++ header_text in
  ∀ raw, str_lines raw = header :: lines →
  parse_response raw = inr (mkResponse tag code header_text (split_on 124 <$> filter (λ l, l ≠ []) lines)).
Proof.
  intros Ht Hc header raw Hraw. destruct (decimal_code code Hc) as [H1 H2]. destruct (decimal_digits code) as [Hd _]; [lia|].
  assert (32 ∉ decimal code) as Hsp by (by apply digits_no).
  unfold parse_response. rewrite Hraw. unfold header. destruct tag as [tag|].
  - destruct Ht as [Ht1 Ht2]. rewrite <-!app_assoc. change (text " ") with [32].
    cbn [app]. rewrite split_once_app by done. rewrite Ht2. rewrite split_once_app by done. cbn [default from_option id]. by rewrite H1, H2.
  - change (text " ") with [32]. cbn [app]. rewrite split_once_app by done. by rewrite H1, H1, H2.
Qed.

(** A reply is read back as it was written. *)
Theorem response_roundtrip r : response_ok r → parse_response (print_response r) = inr r.
Proof.
  intros (Ht & Hc & Htext & Hls). destruct r as [tag code header_text lines]. cbn [rs_tag rs_code rs_text rs_lines] in *.
  rewrite (parse_header tag code header_text (join [124] <$> lines)); [|by destruct tag; destruct_and?|done|].
  - f_equal. f_equal. assert (filter (λ l : list Z, l ≠ []) (join [124] <$> lines) = join [124] <$> lines) as ->.
    { clear -Hls. induction Hls as [|l ls (_ & _ & _ & H) _ IH]; [done|]. rewrite fmap_cons, filter_cons_True by done. by rewrite IH. }
    rewrite <-list_fmap_compose. clear -Hls. induction Hls as [|l ls (H1 & H2 & _) _ IH]; [done|]. cbn. rewrite split_on_join by done. by f_equal.
  - unfold print_response. cbn [rs_tag rs_code rs_text rs_lines]. rewrite str_lines_all; [done|].
    constructor.
    + destruct (decimal_digits code) as [Hd Hne]; [lia|]. assert (10 ∉ decimal code) as H10 by (by apply digits_no).
      assert (line_ok (decimal code ++ text " " ++ header_text)) as Hl by (apply line_ok_app; [done|done|by apply line_ok_blank]).
      destruct tag as [tag|]; [|done]. apply line_ok_app; [|by destruct (decimal code)|done].
      change (text " ") with [32]. rewrite elem_of_app, list_elem_of_singleton. intros [?|?]; [naive_solver|lia].
    + clear -Hls. induction Hls as [|l ls (_ & _ & H & _) _ IH]; [done|]. by constructor.
Qed.

(** ** Recordings *)

Definition amp_free (l : Bytes) : Prop := 38 ∉ l.
Lemma escape_amp_free l : amp_free l → amp_free (escape_value l).
Proof.
  unfold amp_free, escape_value, replace_byte. induction l as [|x l IH]; [done|]. intros Hl.
  apply not_elem_of_cons in Hl as [Hx Hl]. rewrite fmap_cons, mjoin_cons. rewrite (proj2 (Z.eqb_neq x 38)) by done.
  rewrite fmap_app, join_app, elem_of_app. intros [H|H]; [|by apply IH]. cbn in H. revert H.
  destruct (x =? 10); cbn; rewrite ?elem_of_cons, ?elem_of_nil; [naive_solver lia|naive_solver].
Qed.

Lemma split_on_app b p r : split_on b (p ++ b :: r) = split_on b p ++ split_on b r.
Proof.
  unfold split_on. induction p as [|x p IH]; cbn; [by rewrite Z.eqb_refl|]. destruct (b =? x); [by rewrite IH|].
  rewrite IH. pose proof (split_on_nonempty b p) as Hp. unfold split_on in Hp. by destruct (split_at (Z.eqb b) p).
Qed.
Lemma split_on_join_any b ps : ps ≠ [] → split_on b (join [b] ps) = mjoin (split_on b <$> ps).
Proof.
  intros Hne. induction ps as [|p ps IH]; [done|]. destruct ps as [|q ps]; [cbn; by rewrite app_nil_r|].
  change (join [b] (p :: q :: ps)) with (p ++ b :: join [b] (q :: ps)). by rewrite split_on_app, IH.
Qed.

(** Parameter by parameter. *)
Definition sanitized (p : Bytes * Bytes) : list Bytes := sanitize_param <$> split_on 38 (p.1 ++ text "=" ++ escape_value p.2).
Lemma sanitize_encode command params : 32 ∉ command → params ≠ [] →
  sanitize_request (encode command params) = command ++ text " " ++ join (text "&") (mjoin (sanitized <$> params)).
Proof.
  intros Hc Hp. unfold sanitize_request, encode. change (text " ") with [32]. cbn [app]. rewrite split_once_app by done.
  change (text "&") with [38]. rewrite split_on_join_any by (by destruct params). do 3 f_equal.
  clear Hp. induction params as [|q params IH]; [done|]. rewrite !fmap_cons, !mjoin_cons, fmap_app. by rewrite IH.
Qed.
Lemma sanitized_secret k v r : 38 ∉ k → amp_free v → (∀ x, sanitize_param (k ++ 61 :: x) = r) → sanitized (k, v) = [r].
Proof.
  intros Hk Hv Hr. unfold sanitized. cbn [fst snd]. change (text "=") with [61]. cbn [app]. rewrite split_on_one; [cbn; by rewrite Hr|].
  apply escape_amp_free in Hv. rewrite elem_of_app, elem_of_cons. unfold amp_free in Hv. intros [?|[?|?]]; [done|lia|done].
Qed.
Ltac no_byte := apply (bool_decide_unpack _); vm_compute; exact I.
Lemma sanitized_user v : amp_free v → sanitized (text "user", v) = [text "user=USER"].
Proof. intros Hv. apply sanitized_secret; [no_byte|done|]. intros x. unfold sanitize_param. rewrite split_once_app by no_byte. done. Qed.
Lemma sanitized_pass v : amp_free v → sanitized (text "pass", v) = [text "pass=REDACTED"].
Proof. intros Hv. apply sanitized_secret; [no_byte|done|]. intros x. unfold sanitize_param. rewrite split_once_app by no_byte. done. Qed.
Lemma sanitized_session v : amp_free v → sanitized (text "s", v) = [text "s=SESSION"].
Proof. intros Hv. apply sanitized_secret; [no_byte|done|]. intros x. unfold sanitize_param. rewrite split_once_app by no_byte. done. Qed.

(** A login accepted, as the server writes it. *)
Definition login_reply (tag : Bytes) (code : Z) (key rest : Bytes) : Bytes :=
  tag ++ text " " ++ decimal code ++ text " " ++ key ++ text " " ++ rest.
Lemma login_redacted tag code key rest lines : (32 ∉ tag) → is_code tag = false → code = 200 ∨ code = 201 → (32 ∉ key) →
  ∀ raw, str_lines raw = login_reply tag code key rest :: lines →
  sanitize_response raw =
    foldl (λ acc line, acc ++ [10] ++ line)
      (join (text " ") (tag :: decimal code :: SESSION_REDACTED :: split_on 32 rest)) lines.
Proof.
  intros Ht1 Ht2 Hc Hk raw Hraw. unfold sanitize_response. rewrite Hraw. f_equal. f_equal. unfold login_reply.
  assert (is_code (decimal code) = true ∧ (decimal code = text "200" ∨ decimal code = text "201") ∧ 32 ∉ decimal code) as (H1 & H2 & H3).
  { destruct Hc as [->| ->]; (split_and!; [vm_compute; reflexivity|vm_compute; tauto|no_byte]). }
  change (text " ") with [32]. cbn [app]. rewrite !split_on_cons by done. cbn [redact_after]. rewrite Ht2, H1, decide_True by done. done.
Qed.

(** No credential reaches a recording. The recorded login shows neither the user nor
    the password, the recorded requests and the recorded answer to a login do not
    show the session key: whatever they are, the recording is the same. (Neither
    may contain an ampersand.) *)
Theorem recordings_hide_credentials user pass user' pass' key key' tag size hash series code rest lines raw raw' :
  amp_free user → amp_free pass → amp_free user' → amp_free pass' →
  forallb is_ascii_alphanumeric key = true → forallb is_ascii_alphanumeric key' = true →
  sanitize_request (auth user pass tag) = sanitize_request (auth user' pass' tag) ∧
  sanitize_request (file_request size hash key tag) = sanitize_request (file_request size hash key' tag) ∧
  sanitize_request (anime_request series key tag) = sanitize_request (anime_request series key' tag) ∧
  sanitize_request (logout_request key tag) = sanitize_request (logout_request key' tag) ∧
  ((32 ∉ tag) → is_code tag = false → code = 200 ∨ code = 201 →
   str_lines raw = login_reply tag code key rest :: lines → str_lines raw' = login_reply tag code key' rest :: lines →
   sanitize_response raw = sanitize_response raw').
Proof.
  intros Hu Hp Hu' Hp' Hk Hk'.
  assert (∀ l, forallb is_ascii_alphanumeric l = true → amp_free l ∧ 32 ∉ l) as Hal.
  { intros l Hl. rewrite forallb_forall in Hl. split; intros H%list_elem_of_In%Hl; done. }
  destruct (Hal _ Hk) as [Ka Kb], (Hal _ Hk') as [Ka' Kb'].
  unfold auth, file_request, anime_request, logout_request. rewrite !sanitize_encode by (no_byte || done).
  rewrite !fmap_cons, !mjoin_cons, !sanitized_user, !sanitized_pass, !sanitized_session by done. split_and!; try done.
  intros H1 H2 H3 H4 H5. by rewrite (login_redacted _ _ _ _ _ H1 H2 H3 Kb _ H4), (login_redacted _ _ _ _ _ H1 H2 H3 Kb' _ H5).
Qed.

(** With an ampersand in it, the rest of a password is recorded. *)
Lemma password_tail_recorded :
  sanitize_request (auth (text "me") (text "a&hunter2") (text "t1")) =
  text "AUTH user=USER&pass=REDACTED&amp;hunter2&protover=3&client=dessplay&clientver=1&enc=UTF8&tag=t1".
Proof. vm_compute. reflexivity. Qed.

(** ** Replaying a recording *)

(** A reply of several lines, neither the first nor the last of them empty. *)
Definition exchange_ok (e : Bytes * Bytes) : Prop :=
  line_ok e.1 ∧ ∃ ls, e.2 = join [10] ls ∧ ls ≠ [] ∧ Forall line_ok ls ∧ head ls ≠ Some [] ∧ last ls ≠ Some [].
Definition exchange_lines (e : Bytes * Bytes) : list Bytes :=
  (text ">>> " ++ e.1) :: ((λ l, text "<<< " ++ l) <$> str_lines e.2) ++ [[]].

Lemma write_lines e : write_exchange e.1 e.2 = mjoin ((λ l, l ++ [10]) <$> exchange_lines e).
Proof.
  unfold write_exchange, exchange_lines. rewrite fmap_cons, mjoin_cons, fmap_app, join_app, <-!app_assoc. do 3 f_equal.
  f_equal. induction (str_lines e.2) as [|l ls IH]; [done|]. rewrite !fmap_cons, !mjoin_cons, IH. by rewrite <-!app_assoc.
Qed.
Lemma marked_ok m l : line_ok l → (10 ∉ m) → last m ≠ Some 13 → line_ok (m ++ l).
Proof.
  intros Hl Hm Hc. destruct l as [|x l]; [by rewrite app_nil_r|]. by apply line_ok_app.
Qed.
Lemma exchange_lines_ok e : exchange_ok e → Forall line_ok (exchange_lines e).
Proof.
  intros (Hr & ls & He & Hne & Hls & _ & Hl). unfold exchange_lines. rewrite He, str_lines_join by done.
  constructor; [apply marked_ok; [done|no_byte|done]|]. apply Forall_app. split; [|by repeat constructor; [apply not_elem_of_nil|]].
  apply Forall_fmap. eapply Forall_impl; [exact Hls|]. intros l Hl'. apply marked_ok; [done|no_byte|done].
Qed.

Lemma strip_prefix_app p l : strip_prefix p (p ++ l) = Some l.
Proof. unfold strip_prefix. by rewrite starts_with_app, drop_app_length. Qed.
Lemma replay_response d req acc ls : acc ≠ [] →
  foldl replay_line (mkReplay d (Some req) acc) ((λ l, text "<<< " ++ l) <$> ls) =
  mkReplay d (Some req) (acc ++ mjoin ((λ l, 10 :: l) <$> ls)).
Proof.
  revert acc. induction ls as [|l ls IH]; intros acc Ha; [cbn; by rewrite app_nil_r|]. rewrite !fmap_cons, mjoin_cons. cbn [foldl].
  assert (replay_line (mkReplay d (Some req) acc) (text "<<< " ++ l) = mkReplay d (Some req) (acc ++ 10 :: l)) as ->.
  { unfold replay_line. assert (strip_prefix (text ">>> ") (text "<<< " ++ l) = None) as -> by done.
    rewrite strip_prefix_app. cbn [rp_response rp_done rp_request]. rewrite decide_False by done. by rewrite <-app_assoc. }
  rewrite IH by (by destruct acc). by rewrite <-app_assoc.
Qed.
Lemma join_lines_cons l ls : join [10] (l :: ls) = l ++ mjoin ((λ l, 10 :: l) <$> ls).
Proof.
  revert l. induction ls as [|l' ls IH]; intros l; [cbn; by rewrite app_nil_r|].
  change (join [10] (l :: l' :: ls)) with (l ++ 10 :: join [10] (l' :: ls)). by rewrite IH.
Qed.
Lemma replay_exchange d e : exchange_ok e →
  foldl replay_line (mkReplay d None []) (exchange_lines e) = mkReplay (d ++ [e]) None [].
Proof.
  intros (Hr & ls & He & Hne & Hls & Hhd & Hl). unfold exchange_lines. rewrite He, str_lines_join by done.
  cbn [foldl]. assert (replay_line (mkReplay d None []) (text ">>> " ++ e.1) = mkReplay d (Some e.1) []) as ->.
  { unfold replay_line. by rewrite strip_prefix_app. }
  destruct ls as [|l ls]; [done|]. cbn in Hhd. rewrite fmap_cons, foldl_app. cbn [foldl].
  assert (replay_line (mkReplay d (Some e.1) []) (text "<<< " ++ l) = mkReplay d (Some e.1) l) as ->.
  { unfold replay_line. assert (strip_prefix (text ">>> ") (text "<<< " ++ l) = None) as -> by done. by rewrite strip_prefix_app. }
  rewrite replay_response, <-join_lines_cons by congruence. rewrite <-He. unfold replay_line. cbn [strip_prefix].
  assert (e.2 ≠ []) as Hne2.
  { rewrite He, join_lines_cons. destruct l; [congruence|done]. }
  change (strip_prefix (text ">>> ") []) with (@None Bytes). change (strip_prefix (text "<<< ") []) with (@None Bytes). unfold flush.
  cbn [rp_request rp_response rp_done]. rewrite decide_False by done. by destruct e.
Qed.

(** A recording replays to the exchanges it was made of, in order. *)
Theorem recordings_replay es : Forall exchange_ok es →
  parse_exchanges (mjoin ((λ e, write_exchange e.1 e.2) <$> es)) = es.
Proof.
  intros Hes. unfold parse_exchanges.
  assert (str_lines (mjoin ((λ e, write_exchange e.1 e.2) <$> es)) = mjoin (exchange_lines <$> es)) as ->.
  { induction Hes as [|e es He Hes IH]; [done|]. rewrite !fmap_cons, !mjoin_cons, write_lines.
    by rewrite str_lines_terminated, IH by (by apply exchange_lines_ok). }
  assert (∀ d, foldl replay_line (mkReplay d None []) (mjoin (exchange_lines <$> es)) = mkReplay (d ++ es) None []) as ->; [|done].
  induction Hes as [|e es He Hes IH]; intros d; [cbn; by rewrite app_nil_r|].
  rewrite fmap_cons, mjoin_cons, foldl_app, replay_exchange, IH by done. by rewrite <-app_assoc.
Qed.

(** ** Instances *)

Definition ex_response : Response :=
  mkResponse (Some (text "t2")) 220 (text "FILE") [[text "312498"; text "8692"; text "Sousou no Frieren"; text "Frieren"; text "01"]].
Lemma response_roundtrip_witness : parse_response (text "t2 220 FILE" ++ [10] ++ text "312498|8692|Sousou no Frieren|Frieren|01" ++ [10]) = inr ex_response.
Proof.
  assert (response_ok ex_response) as Hok.
  { split_and!; try no_byte; done. }
  exact (response_roundtrip ex_response Hok).
Defined.
Lemma recordings_hide_credentials_witness :
  sanitize_request (auth (text "me") (text "hunter2") (text "t1")) = sanitize_request (auth (text "you") (text "secret") (text "t1")).
Proof.
  exact (proj1 (recordings_hide_credentials (text "me") (text "hunter2") (text "you") (text "secret") (text "xK3fp") (text "abc")
    (text "t1") 0 (mkEd2kHash []) (mkAniDbSeriesId 1) 200 [] [] [] [] ltac:(no_byte) ltac:(no_byte) ltac:(no_byte) ltac:(no_byte)
    ltac:(vm_compute; reflexivity) ltac:(vm_compute; reflexivity))).
Defined.
Lemma recordings_replay_witness :
  parse_exchanges (write_exchange (text "PING tag=t1") (text "t1 300 PONG") ++ []) = [(text "PING tag=t1", text "t1 300 PONG")].
Proof.
  refine (recordings_replay [(text "PING tag=t1", text "t1 300 PONG")] _).
  repeat constructor; try no_byte; try done. exists [text "t1 300 PONG"]. split_and!; try done. repeat constructor; [no_byte|done].
Defined.
