(* ===== verification/AniDbClient.v ===== *)
(** * The AniDB client

    src/dessplay-rendezvous/src/anidb/client.rs: the rate limiter, one request and its
    reply, the session, and the lookups built on them. A request is a whole critical
    section of the client's lock, so requests follow each other.

    The outside ([Net]): how much time passes before each reading of the clock (never
    less than none), whether a datagram could be sent, and the datagrams that arrive
    before the reply is given up on. Instants and durations are in nanoseconds; a
    sleep ends at or after its deadline. A panic ends the run ([Panicked]). Log lines
    are left out. *)

From Stdlib Require Import SpecFloat.
From S2P Require Import Prelude Text Types F64 AniDb AniDbCorrect.

(** ** Return codes and constants *)

Definition LOGIN_ACCEPTED : Z := 200.
Definition LOGIN_ACCEPTED_NEW_VERSION : Z := 201.
Definition FILE : Z := 220.
Definition PONG : Z := 300.
Definition ANIME : Z := 230.
Definition NO_SUCH_FILE : Z := 320.
Definition MULTIPLE_FILES_FOUND : Z := 322.
Definition NO_SUCH_ANIME : Z := 330.
Definition LOGIN_FAILED : Z := 500.
Definition LOGIN_FIRST : Z := 501.
Definition ACCESS_DENIED : Z := 502.
Definition CLIENT_VERSION_OUTDATED : Z := 503.
Definition CLIENT_BANNED : Z := 504.
Definition INVALID_SESSION : Z := 506.
Definition BANNED : Z := 555.
Definition INTERNAL_SERVER_ERROR : Z := 600.
Definition OUT_OF_SERVICE : Z := 601.
Definition SERVER_BUSY : Z := 602.

Definition secs (n : Z) : Z := n * 1000000000.
Definition MIN_GAP : Z := secs 2.
Definition SUSTAINED_GAP : Z := secs 4.
Definition BURST : f64 := Eval vm_compute in f64_of 60.
Definition TIMEOUT_PENALTY : Z := secs 5.
Definition BUSY_BACKOFF : Z := secs (5 * 60).
Definition BAN_BACKOFF : Z := secs (30 * 60).

(** The message of a fatal error, by its kind. *)
Inductive FatalReason :=
  | BadCredentials
  | VersionOutdated
  | BannedClient (header : Bytes)
  | Denied
  | NoSessionKey (header : Bytes)
  | UnexpectedAuth (code : Z) (header : Bytes)
  | UnexpectedPing (code : Z) (header : Bytes)
  | FileParseError (e : ProtocolError)
  | AnimeParseError (e : ProtocolError).
Inductive LookupError :=
  | LookupTimeout
  | Backoff (millis : Z)
  | Fatal (reason : FatalReason).
(** An error, or a panic. *)
Inductive Failure := Failed (e : LookupError) | Panicked.

(** ** Durations *)

Definition nanos : Z := 1000000000.
Definition as_secs_f64 (d : Z) : f64 := f64_add (f64_of (d / nanos)) (f64_div (f64_of (d mod nanos)) (f64_of nanos)).
(** The integer nearest to [n / 2^k], ties to even. *)
Definition round_shift (n : Z) (k : Z) : Z :=
  let q := Z.shiftr n k in
  let r := n - Z.shiftl q k in
  let half := Z.shiftl 1 (k - 1) in
  if (half <? r) || (r =? half) && Z.odd q then q + 1 else q.
(** [Duration::from_secs_f64], rounded to nanoseconds; a negative or not finite
    number, or more than a [u64] of seconds, panics. *)
Definition from_secs_f64 (x : f64) : option Z :=
  match x with
  | S754_zero _ => Some 0
  | S754_finite false m e =>
      let d := if 0 <=? e then Z.shiftl (Zpos m * nanos) e else round_shift (Zpos m * nanos) (- e) in
      if d <? 2 ^ 64 * nanos then Some d else None
  | _ => None
  end.
Definition f64_one : f64 := Eval vm_compute in f64_of 1.
(** [a.min(b)], for numbers. *)
Definition f64_min (a b : f64) : f64 := if f64_lt b a then b else a.

(** ** State *)

(** [RateLimiter] and [Inner], with the clock and the readings taken. *)
Record Client := mkClient {
  cl_tokens : f64;
  cl_last_refill : Z;
  cl_next_allowed : Z;
  cl_session : option Bytes;
  cl_tag_counter : Z;
  cl_now : Z;
  cl_reads : nat
}.
Definition put_tokens (x : f64) (c : Client) : Client :=
  mkClient x (cl_last_refill c) (cl_next_allowed c) (cl_session c) (cl_tag_counter c) (cl_now c) (cl_reads c).
Definition put_last_refill (x : Z) (c : Client) : Client :=
  mkClient (cl_tokens c) x (cl_next_allowed c) (cl_session c) (cl_tag_counter c) (cl_now c) (cl_reads c).
Definition put_next_allowed (x : Z) (c : Client) : Client :=
  mkClient (cl_tokens c) (cl_last_refill c) x (cl_session c) (cl_tag_counter c) (cl_now c) (cl_reads c).
Definition put_session (x : option Bytes) (c : Client) : Client :=
  mkClient (cl_tokens c) (cl_last_refill c) (cl_next_allowed c) x (cl_tag_counter c) (cl_now c) (cl_reads c).
Definition put_tag_counter (x : Z) (c : Client) : Client :=
  mkClient (cl_tokens c) (cl_last_refill c) (cl_next_allowed c) (cl_session c) x (cl_now c) (cl_reads c).
Definition put_clock (now : Z) (reads : nat) (c : Client) : Client :=
  mkClient (cl_tokens c) (cl_last_refill c) (cl_next_allowed c) (cl_session c) (cl_tag_counter c) now reads.

Record Net := mkNet { nt_delay : nat → N; nt_send : nat → bool; nt_recv : nat → list Bytes }.

(** What passes the wire, as it passes, whatever the client makes of it: a packet is
    handed to the socket, the socket says whether it went, and datagrams came back for
    a request, with the tag it carried. *)
Inductive Ev :=
  | Sent (at_ : Z) (payload : Bytes)
  | Written (at_ : Z) (ok : bool)
  | Heard (at_ : Z) (payload tag : Bytes) (datagrams : list Bytes).

Definition Cl (A : Type) : Type := Client → A * (Client * list Ev).
#[export] Instance Cl_ret : MRet Cl := λ A x c, (x, (c, [])).
#[export] Instance Cl_bind : MBind Cl := λ A B f m c,
  let '(x, (c, o)) := m c in let '(y, (c, o')) := f x c in (y, (c, o ++ o')).
Definition look {A} (f : Client → A) : Cl A := λ c, (f c, (c, [])).
Definition change (f : Client → Client) : Cl unit := λ c, ((), (f c, [])).
Definition happens (f : Client → Ev) : Cl unit := λ c, ((), (c, [f c])).
(** [?]. *)
Definition and_then {A B} (m : Cl (Failure + A)) (f : A → Cl (Failure + B)) : Cl (Failure + B) :=
  r ← m; match r with inl e => mret (inl e) | inr x => f x end.

Section client.
Context (W : Net) (user password : Bytes).

Definition next {A} (f : nat → A) : Cl A := λ c, (f (cl_reads c), (put_clock (cl_now c) (S (cl_reads c)) c, [])).
Definition instant_now : Cl Z := λ c,
  let now := cl_now c + Z.of_N (nt_delay W (cl_reads c)) in (now, (put_clock now (S (cl_reads c)) c, [])).
Definition sleep_until (deadline : Z) : Cl unit := change (λ c, put_clock (Z.max (cl_now c) deadline) (cl_reads c) c).

(** ** The rate limiter *)

Definition refill (now : Z) (c : Client) : Client :=
  let accrued := f64_div (as_secs_f64 (Z.max 0 (now - cl_last_refill c))) (as_secs_f64 SUSTAINED_GAP) in
  put_last_refill now (put_tokens (f64_min (f64_add (cl_tokens c) accrued) BURST) c).
Definition acquire : Cl (Failure + unit) :=
  now ← instant_now;
  change (refill now);;
  c ← look id;
  let until :=
    if f64_lt (cl_tokens c) f64_one then
      (λ d, Z.max (cl_next_allowed c) (now + d)) <$>
        from_secs_f64 (f64_mul (f64_sub f64_one (cl_tokens c)) (as_secs_f64 SUSTAINED_GAP))
    else Some (cl_next_allowed c) in
  match until with
  | None => mret (inl Panicked)
  | Some until =>
      (if now <? until then sleep_until until else mret ());;
      now ← instant_now;
      change (refill now);;
      change (λ c, put_tokens (f64_sub (cl_tokens c) f64_one) c);;
      change (put_next_allowed (now + MIN_GAP));;
      mret (inr ())
  end.
Definition penalize (extra : Z) : Cl unit :=
  now ← instant_now; change (λ c, put_next_allowed (Z.max (cl_next_allowed c) (now + extra)) c).

(** ** One request *)

(** The first datagram that answers it; others are dropped. *)
Fixpoint first_reply (tag : Bytes) (datagrams : list Bytes) : option Response :=
  match datagrams with
  | [] => None
  | raw :: rest =>
      match parse_response raw with
      | inr response =>
          if decide (rs_tag response = Some tag ∨ rs_tag response = None) then Some response else first_reply tag rest
      | inl _ => first_reply tag rest
      end
  end.
(** [Wire::send], and the readings of [Wire::recv] until a reply or the deadline. *)
Definition send (payload : Bytes) : Cl bool :=
  happens (λ c, Sent (cl_now c) payload);;
  ok ← next (nt_send W);
  happens (λ c, Written (cl_now c) ok);; mret ok.
Definition recv (payload tag : Bytes) : Cl (list Bytes) :=
  instant_now;;
  datagrams ← next (nt_recv W);
  happens (λ c, Heard (cl_now c) payload tag datagrams);; mret datagrams.
Definition abandon : Cl (Failure + Response) := penalize TIMEOUT_PENALTY;; mret (inl (Failed LookupTimeout)).
Definition exchange (payload tag : Bytes) : Cl (Failure + Response) :=
  and_then acquire (λ _,
    ok ← send payload;
    if negb ok then abandon
    else
      datagrams ← recv payload tag;
      match first_reply tag datagrams with Some response => mret (inr response) | None => abandon end).

Definition backoff_of (code : Z) : option Z :=
  if decide (code = SERVER_BUSY) then Some BUSY_BACKOFF
  else if decide (code = BANNED ∨ code = INTERNAL_SERVER_ERROR ∨ code = OUT_OF_SERVICE) then Some BAN_BACKOFF
  else None.
Definition global_error (response : Response) : Cl (option LookupError) :=
  match backoff_of (rs_code response) with
  | Some duration => penalize duration;; mret (Some (Backoff (duration / 1000000)))
  | None =>
      let code := rs_code response in
      mret (if decide (code = LOGIN_FAILED) then Some (Fatal BadCredentials)
            else if decide (code = CLIENT_VERSION_OUTDATED) then Some (Fatal VersionOutdated)
            else if decide (code = CLIENT_BANNED) then Some (Fatal (BannedClient (rs_text response)))
            else if decide (code = ACCESS_DENIED) then Some (Fatal Denied)
            else None)
  end.
(** A request whose reply is classified. *)
Definition judged_exchange (payload tag : Bytes) : Cl (Failure + Response) :=
  and_then (exchange payload tag) (λ response,
    error ← global_error response;
    mret (match error with Some e => inl (Failed e) | None => inr response end)).

(** ** Sessions *)

Definition next_tag : Cl Bytes :=
  change (λ c, put_tag_counter (u64_wrap (cl_tag_counter c + 1)) c);; look (λ c, text "t" ++ decimal (cl_tag_counter c)).
Definition ensure_session : Cl (Failure + Bytes) :=
  s ← look cl_session;
  match s with
  | Some session => mret (inr session)
  | None =>
      tag ← next_tag;
      and_then (judged_exchange (auth user password tag) tag) (λ response,
        if decide (rs_code response = LOGIN_ACCEPTED ∨ rs_code response = LOGIN_ACCEPTED_NEW_VERSION) then
          match session_key (rs_text response) with
          | None => mret (inl (Failed (Fatal (NoSessionKey (rs_text response)))))
          | Some session => change (put_session (Some session));; mret (inr session)
          end
        else mret (inl (Failed (Fatal (UnexpectedAuth (rs_code response) (rs_text response))))))
  end.
(** [attempts] are left, of two. *)
Fixpoint call_from (attempts : nat) (build : Bytes → Bytes → Bytes) : Cl (Failure + Response) :=
  match attempts with
  | O => mret (inl (Failed LookupTimeout))
  | S rest =>
      and_then ensure_session (λ session,
        tag ← next_tag;
        and_then (judged_exchange (build session tag) tag) (λ response,
          if decide (rs_code response = LOGIN_FIRST ∨ rs_code response = INVALID_SESSION) then
            change (put_session None);;
            match rest with
            | O => mret (inl (Failed (Backoff (BUSY_BACKOFF / 1000000))))
            | _ => call_from rest build
            end
          else mret (inr response)))
  end.
Definition call : (Bytes → Bytes → Bytes) → Cl (Failure + Response) := call_from 2.

(** ** Operations *)

Definition ping : Cl (Failure + unit) :=
  tag ← next_tag;
  and_then (exchange (ping_request tag) tag) (λ response,
    mret (if decide (rs_code response = PONG) then inr ()
          else inl (Failed (Fatal (UnexpectedPing (rs_code response) (rs_text response)))))).
Definition logout : Cl (Failure + unit) :=
  s ← look cl_session;
  match s with
  | None => mret (inr ())
  | Some session =>
      change (put_session None);;
      tag ← next_tag;
      and_then (exchange (logout_request session tag) tag) (λ _, mret (inr ()))
  end.
Definition file_by_hash (size : Z) (hash : Ed2kHash) : Cl (Failure + option FileResult) :=
  and_then (call (file_request size hash)) (λ response,
    mret (if decide (rs_code response = FILE) then
            match parse_file_data response with inr r => inr (Some r) | inl e => inl (Failed (Fatal (FileParseError e))) end
          else if decide (rs_code response = NO_SUCH_FILE ∨ rs_code response = MULTIPLE_FILES_FOUND) then inr None
          else inl (Failed (Backoff (BUSY_BACKOFF / 1000000))))).
Definition anime_by_id (series : AniDbSeriesId) : Cl (Failure + option AnimeResult) :=
  and_then (call (anime_request series)) (λ response,
    mret (if decide (rs_code response = ANIME) then
            match parse_anime_data response with inr r => inr (Some r) | inl e => inl (Failed (Fatal (AnimeParseError e))) end
          else if decide (rs_code response = NO_SUCH_ANIME) then inr None
          else inl (Failed (Backoff (BUSY_BACKOFF / 1000000))))).

(** [UdpClient::new], at an instant. *)
Definition new_client (now : Z) : Client := mkClient BURST now now None 0 now 0.

(** Requests in the order in which they get the lock, until one panics. *)
Inductive Op := LookFile (size : Z) (hash : Ed2kHash) | LookAnime (series : AniDbSeriesId) | Ping | Logout.
Definition forget {A} (r : Failure + A) : bool := match r with inl Panicked => false | _ => true end.
Definition perform (op : Op) : Cl bool :=
  match op with
  | LookFile size hash => r ← file_by_hash size hash; mret (forget r)
  | LookAnime series => r ← anime_by_id series; mret (forget r)
  | Ping => r ← ping; mret (forget r)
  | Logout => r ← logout; mret (forget r)
  end.
Fixpoint perform_all (ops : list Op) : Cl unit :=
  match ops with [] => mret () | op :: ops => go ← perform op; if go : bool then perform_all ops else mret () end.
Definition events (now : Z) (ops : list Op) : list Ev := (perform_all ops (new_client now)).2.2.
End client.
