(* ===== verification/AniDbPaced.v ===== *)
(** * The AniDB client: pacing and sessions

    A server that bans for flooding must be left in peace: however requests follow
    each other and whatever comes back, packets are spaced out, and an unanswered
    request or a reply that asks for quiet is respected by every packet that follows.
    A lookup sends at most four packets, and credentials only in logins. *)

From Stdlib Require Import SpecFloat.
From S2P Require Import Prelude Text Types F64 AniDb AniDbCorrect AniDbClient.

#[global] Arguments f64_lt : simpl never.
#[global] Arguments f64_add : simpl never.
#[global] Arguments f64_sub : simpl never.
#[global] Arguments f64_mul : simpl never.
#[global] Arguments f64_div : simpl never.
#[global] Arguments from_secs_f64 : simpl never.
#[global] Arguments as_secs_f64 : simpl never.
#[global] Arguments refill : simpl never.
#[global] Arguments decide : simpl never.
#[global] Arguments Z.add : simpl never.
#[global] Arguments Z.max : simpl never.
#[global] Arguments Z.ltb : simpl never.
#[global] Arguments Z.div : simpl never.
#[global] Arguments parse_response : simpl never.
#[global] Arguments first_reply : simpl never.

(** ** Pacing *)

(** The reply that datagrams hold for a tag: the first of those that decode and carry
    that tag, or none. *)
Definition decoded (d : Bytes) : option Response := match parse_response d with inr r => Some r | inl _ => None end.
Definition addressed (tag : Bytes) (r : Response) : bool := bool_decide (rs_tag r = Some tag ∨ rs_tag r = None).
Definition answer (tag : Bytes) (datagrams : list Bytes) : option Response :=
  head (List.filter (addressed tag) (omap decoded datagrams)).
(** Logins and lookups: every request but PING and LOGOUT. *)
Definition heeded (payload : Bytes) : bool :=
  negb (bool_decide (take 4 payload = text "PING")) && negb (bool_decide (take 6 payload = text "LOGOUT")).
(** How long a reply's code asks for quiet. *)
Definition asks_quiet (code : Z) : option Z :=
  match code with 602 => Some (secs 300) | 555 | 600 | 601 => Some (secs 1800) | _ => None end.
(** No packet may follow an event before this instant: a packet; a packet the socket
    refused; what came back, which is nothing, or a reply. *)
Definition free_at (e : Ev) : option Z :=
  match e with
  | Sent t _ => Some (t + secs 2)
  | Written t ok => if ok then None else Some (t + secs 5)
  | Heard t payload tag datagrams =>
      match answer tag datagrams with
      | None => Some (t + secs 5)
      | Some response => if heeded payload then (λ d, t + d) <$> asks_quiet (rs_code response) else None
      end
  end.
Definition bump (n : Z) (e : Ev) : Z := match free_at e with Some f => Z.max n f | None => n end.
(** From an instant [n] on. *)
Fixpoint spaced (n : Z) (es : list Ev) : Prop :=
  match es with
  | [] => True
  | e :: es => match e with Sent t _ => n ≤ t | _ => True end ∧ spaced (bump n e) es
  end.

Lemma bump_mono n n' e : n ≤ n' → bump n e ≤ bump n' e.
Proof. unfold bump. destruct (free_at e); lia. Qed.
Lemma bumps_mono es : ∀ n n', n ≤ n' → foldl bump n es ≤ foldl bump n' es.
Proof. induction es as [|e es IH]; intros n n' Hn; [done|]. cbn. by apply IH, bump_mono. Qed.
Lemma bumps_ge es : ∀ n, n ≤ foldl bump n es.
Proof.
  induction es as [|e es IH]; intros n; [done|]. cbn. etransitivity; [|apply IH]. unfold bump. destruct (free_at e); lia.
Qed.
Lemma spaced_mono es : ∀ n n', n ≤ n' → spaced n' es → spaced n es.
Proof.
  induction es as [|e es IH]; intros n n' Hn; [done|]. cbn. intros [H1 H2]. split; [destruct e; lia|].
  eapply IH; [|exact H2]. by apply bump_mono.
Qed.
Lemma spaced_app es es' : ∀ n, spaced n (es ++ es') ↔ spaced n es ∧ spaced (foldl bump n es) es'.
Proof. induction es as [|e es IH]; intros n; cbn; [tauto|]. rewrite IH. tauto. Qed.
Lemma spaced_after es : ∀ n e1 e e2 t p e3, spaced n es → es = e1 ++ e :: e2 ++ Sent t p :: e3 → ∀ f, free_at e = Some f → f ≤ t.
Proof.
  intros n e1 e e2 t p e3 Hs -> f Hf. apply spaced_app in Hs as [_ Hs]. cbn in Hs. destruct Hs as [_ Hs].
  apply spaced_app in Hs as [_ [Hs _]]. pose proof (bumps_ge e2 (bump (foldl bump n e1) e)) as H.
  assert (f ≤ bump (foldl bump n e1) e) by (unfold bump; rewrite Hf; lia). lia.
Qed.

Section paced.
Context (W : Net) (user password : Bytes).

Definition paced {A} (m : Cl A) : Prop := ∀ c,
  spaced (cl_next_allowed c) (m c).2.2 ∧ foldl bump (cl_next_allowed c) (m c).2.2 ≤ cl_next_allowed (m c).2.1.

Lemma paced_ret {A} (x : A) : paced (mret x).
Proof. intros c. by split. Qed.
Lemma paced_look {A} (f : Client → A) : paced (look f).
Proof. intros c. by split. Qed.
Lemma paced_change f : (∀ c, cl_next_allowed (f c) = cl_next_allowed c) → paced (change f).
Proof. intros Hf c. cbn. rewrite Hf. by split. Qed.
Lemma paced_next {A} (f : nat → A) : paced (next f).
Proof. intros c. by split. Qed.
Lemma paced_now : paced (instant_now W).
Proof. intros c. by split. Qed.
Lemma paced_bind {A B} (m : Cl A) (f : A → Cl B) : paced m → (∀ x, paced (f x)) → paced (m ≫= f).
Proof.
  intros Hm Hf c. unfold mbind, Cl_bind. specialize (Hm c). destruct (m c) as [x [c1 o1]]. cbn [fst snd] in Hm.
  specialize (Hf x c1). destruct (f x c1) as [y [c2 o2]]. cbn [fst snd] in *. destruct Hm as [H1 H2], Hf as [H3 H4].
  rewrite spaced_app, foldl_app. split; [split; [done|by eapply spaced_mono]|]. etransitivity; [by apply bumps_mono|done].
Qed.
Lemma paced_and_then {A B} (m : Cl (Failure + A)) (f : A → Cl (Failure + B)) : paced m → (∀ x, paced (f x)) → paced (and_then m f).
Proof. intros Hm Hf. apply paced_bind; [done|]. intros [e|x]; [apply paced_ret|apply Hf]. Qed.

(** What the limiter does. *)
Lemma acquire_spec c : ∃ x c', acquire W c = (x, (c', [])) ∧ cl_session c' = cl_session c ∧ cl_tag_counter c' = cl_tag_counter c ∧
  (x = inl Panicked ∧ cl_next_allowed c' = cl_next_allowed c ∨
   x = inr () ∧ cl_next_allowed c' = cl_now c' + MIN_GAP ∧ cl_next_allowed c ≤ cl_now c').
Proof.
  unfold acquire, mbind, Cl_bind, change, look, instant_now, sleep_until, mret, Cl_ret, id. cbn.
  set (now := cl_now c + _). set (c1 := refill now _).
  assert (cl_next_allowed c1 = cl_next_allowed c ∧ cl_now c1 = now ∧ cl_session c1 = cl_session c ∧ cl_tag_counter c1 = cl_tag_counter c)
    as (H1 & H2 & H3 & H4) by done.
  set (until := if f64_lt (cl_tokens c1) f64_one then _ else _).
  assert (∀ u, until = Some u → cl_next_allowed c ≤ u) as Hu.
  { unfold until. destruct (f64_lt _ _); [|intros u [= <-]; lia]. intros u (d & _ & ->)%fmap_Some. lia. }
  destruct until as [u|]; [|eexists _, _; split; [reflexivity|]; cbn; rewrite ?H1; by eauto].
  specialize (Hu u eq_refl). destruct (now <? u) eqn:Hlt; cbn; (eexists _, _; split; [reflexivity|]; cbn; split_and!; [done|done|]);
    right; (split; [done|]); split; try done; rewrite ?H2; match goal with |- _ ≤ cl_now (refill _ (put_clock ?x _ _)) => change (cl_next_allowed c ≤ x) end; lia.
Qed.

(** What passed since the last packet asks for quiet until an instant; [m] leaves
    nothing before it. *)
Definition settles {A} (f : Client → Ev) (m : Cl A) : Prop := ∀ c, (∀ t p, f c ≠ Sent t p) ∧
  spaced (bump (cl_next_allowed c) (f c)) (m c).2.2 ∧
  foldl bump (bump (cl_next_allowed c) (f c)) (m c).2.2 ≤ cl_next_allowed (m c).2.1.
Lemma settles_free {A} f (m : Cl A) : (∀ c, (∀ t p, f c ≠ Sent t p) ∧ free_at (f c) = None) → paced m → settles f m.
Proof. intros Hf Hm c. destruct (Hf c) as [H1 H2]. split; [done|]. unfold bump. rewrite H2. apply Hm. Qed.
Lemma settles_penalty {A} (f : Client → Ev) d (x : A) : 0 ≤ d →
  (∀ c, (∀ t p, f c ≠ Sent t p) ∧ ∀ u, free_at (f c) = Some u → u ≤ cl_now c + d) → settles f (penalize W d;; mret x).
Proof.
  intros Hd Hf c. destruct (Hf c) as [H1 H2]. split; [done|]. split; [done|].
  unfold penalize, instant_now, change, mbind, Cl_bind, mret, Cl_ret. cbn. unfold bump.
  destruct (free_at (f c)) as [u|]; [specialize (H2 _ eq_refl)|]; lia.
Qed.

Lemma first_reply_cons tag d ds : first_reply tag (d :: ds) =
  match decoded d with Some r => if addressed tag r then Some r else first_reply tag ds | None => first_reply tag ds end.
Proof. unfold decoded, addressed. cbn [first_reply]. unfold first_reply at 1. destruct (parse_response d); [done|]. by case_bool_decide; case_decide. Qed.
Lemma answer_first tag ds : answer tag ds = first_reply tag ds.
Proof.
  unfold answer. induction ds as [|d ds IH]; [done|]. rewrite first_reply_cons. cbn.
  destruct (decoded d) as [r|]; [|exact IH]. cbn. by destruct (addressed tag r).
Qed.
Lemma asks_backoff code : asks_quiet code = backoff_of code.
Proof.
  unfold backoff_of, SERVER_BUSY, BANNED, INTERNAL_SERVER_ERROR, OUT_OF_SERVICE.
  destruct (decide (code = 602)) as [->|]; [done|]. case_decide as H; [by destruct H as [->|[->| ->]]|].
  unfold asks_quiet. repeat case_match; done || (subst; tauto).
Qed.

#[local] Arguments bump : simpl never.
#[local] Arguments answer : simpl never.
(** A request, and what [k] makes of its reply. *)
Lemma paced_request {A} payload tag (k : Response → Cl (Failure + A)) :
  (∀ ds response, answer tag ds = Some response → settles (λ c, Heard (cl_now c) payload tag ds) (k response)) →
  paced (and_then (exchange W payload tag) k).
Proof.
  intros Hk c. unfold exchange, abandon, penalize, send, recv, and_then, mbind, Cl_bind, happens, instant_now, change, next, mret, Cl_ret.
  destruct (acquire_spec c) as (x & c' & -> & _ & _ & [(-> & H)|(-> & H1 & H2)]); [cbn; rewrite H; by split|]. cbn.
  assert (bump (cl_next_allowed c) (Sent (cl_now c') payload) ≤ cl_next_allowed c') as Hs
    by (rewrite H1; unfold bump; cbn; unfold MIN_GAP, secs; lia).
  destruct (nt_send W (cl_reads c')) eqn:Hok; cbn.
  2: { split; [by split_and!|]. unfold bump at 1. cbn. unfold bump at 1. cbn. unfold TIMEOUT_PENALTY. unfold bump in Hs; cbn in Hs. lia. }
  set (ds := nt_recv W _). destruct (first_reply tag ds) as [response|] eqn:Hr; rewrite <-answer_first in Hr; cbn.
  - match goal with |- context [k response ?c2] => destruct (Hk ds response Hr c2) as (_ & H3 & H4); destruct (k response c2) as [y [c3 o]] end.
    cbn in *. change (bump (bump ?n (Sent (cl_now c') payload)) (Written (cl_now c') true)) with (bump n (Sent (cl_now c') payload)).
    split; [split_and!; try done|]; [eapply spaced_mono; [|exact H3]|etransitivity; [|exact H4]; apply bumps_mono]; by apply bump_mono.
  - change (bump (bump ?n (Sent (cl_now c') payload)) (Written (cl_now c') true)) with (bump n (Sent (cl_now c') payload)).
    split; [by split_and!|]. unfold bump at 1. cbn. rewrite Hr. unfold TIMEOUT_PENALTY. lia.
Qed.

Lemma paced_unheeded {A} payload tag (k : Response → Cl (Failure + A)) : heeded payload = false →
  (∀ response, paced (k response)) → paced (and_then (exchange W payload tag) k).
Proof.
  intros Hp Hk. apply paced_request. intros ds response Hr. apply settles_free; [|done]. intros c. split; [done|]. cbn. by rewrite Hr, Hp.
Qed.

Ltac pace_step :=
  lazymatch goal with
  | |- paced (mbind _ _) => apply paced_bind; [|intros ?]
  | |- paced (and_then (exchange _ _ _) _) => apply paced_unheeded; [reflexivity|intros ?]
  | |- paced (and_then _ _) => apply paced_and_then; [|intros ?]
  | |- paced (mret _) => apply paced_ret
  | |- paced (look _) => apply paced_look
  | |- paced (change _) => apply paced_change; reflexivity
  | |- paced (match ?x with _ => _ end) => destruct x
  end.
Ltac pace := repeat pace_step.

Lemma paced_judged payload tag : paced (judged_exchange W payload tag).
Proof.
  apply paced_request. intros ds response Hr. unfold global_error. destruct (backoff_of (rs_code response)) as [d|] eqn:Hb.
  - assert (0 ≤ d) as Hd by (revert Hb; unfold backoff_of; repeat case_decide; by intros [= <-]).
    intros c. destruct (settles_penalty (λ c, Heard (cl_now c) payload tag ds) d (Some (Backoff (d / 1000000))) Hd) with (c := c) as (H1 & H2 & H3).
    { intros c'. split; [done|]. cbn. rewrite Hr, asks_backoff, Hb. destruct (heeded payload); [|done]. intros u [= <-]. lia. }
    split_and!; [done|done|exact H3].
  - apply settles_free; [|intros c; by split]. intros c. split; [done|]. cbn. rewrite Hr, asks_backoff, Hb. by destruct (heeded payload).
Qed.
Lemma paced_session : paced (ensure_session W user password).
Proof. unfold ensure_session, next_tag. pace. apply paced_judged. Qed.
Lemma paced_call attempts build : paced (call_from W user password attempts build).
Proof. induction attempts as [|n IH]; cbn; pace; [apply paced_session|unfold next_tag; pace|apply paced_judged|exact IH]. Qed.
Lemma paced_perform op : paced (perform W user password op).
Proof.
  destruct op; cbn [perform]; unfold file_by_hash, anime_by_id, ping, logout, next_tag; pace; apply paced_call.
Qed.
Lemma paced_all ops : paced (perform_all W user password ops).
Proof. induction ops as [|op ops IH]; cbn; pace; [apply paced_perform|exact IH]. Qed.
End paced.

(** ** Packets *)

Definition payloads (es : list Ev) : list Bytes := omap (λ e, match e with Sent _ p => Some p | _ => None end) es.
Definition key_ok (key : Bytes) : Prop := key ≠ [] ∧ forallb is_ascii_alphanumeric key = true.
Definition session_ok (c : Client) : Prop := ∀ key, cl_session c = Some key → key_ok key.

Section packets.
Context (W : Net) (user password : Bytes) (P : Bytes → Prop).

(** At most [n] packets, all of them [P]; sessions stay keys, and [Q] of the result. *)
Definition sends {A} (n : nat) (Q : A → Prop) (m : Cl A) : Prop := ∀ c, session_ok c →
  session_ok (m c).2.1 ∧ (length (payloads (m c).2.2) ≤ n)%nat ∧ Forall P (payloads (m c).2.2) ∧ Q (m c).1.

Lemma sends_bind {A B} n k (Q : A → Prop) (Q' : B → Prop) (m : Cl A) (f : A → Cl B) :
  sends n Q m → (∀ x, Q x → sends k Q' (f x)) → sends (n + k) Q' (m ≫= f).
Proof.
  intros Hm Hf c Hc. unfold mbind, Cl_bind. specialize (Hm c Hc). destruct (m c) as [x [c1 o1]]. cbn [fst snd] in Hm.
  destruct Hm as (H1 & H2 & H3 & H4). specialize (Hf x H4 c1 H1). destruct (f x c1) as [y [c2 o2]]. cbn [fst snd] in *.
  destruct Hf as (H5 & H6 & H7 & H8). unfold payloads in *. rewrite omap_app, length_app. split_and!; [done|lia|by apply Forall_app|done].
Qed.
Lemma sends_weaken {A} n k (Q : A → Prop) (m : Cl A) : (n ≤ k)%nat → sends n Q m → sends k Q m.
Proof. intros Hn Hm c Hc. destruct (Hm c Hc) as (H1 & H2 & H3 & H4). split_and!; [done|lia|done|done]. Qed.
Lemma sends_ret {A} (Q : A → Prop) x : Q x → sends 0 Q (mret x).
Proof. intros Hx c Hc. split_and!; [done|cbn; lia|constructor|done]. Qed.
(** A result that is a failure, or [Q]. *)
Definition fine {A} (Q : A → Prop) (r : Failure + A) : Prop := match r with inl _ => True | inr x => Q x end.
Lemma sends_and_then {A B} n k (Q : A → Prop) (Q' : B → Prop) (m : Cl (Failure + A)) (f : A → Cl (Failure + B)) :
  sends n (fine Q) m → (∀ x, Q x → sends k (fine Q') (f x)) → sends (n + k) (fine Q') (and_then m f).
Proof.
  intros Hm Hf. unfold and_then. eapply sends_bind; [exact Hm|]. intros [e|x] Hx; [|by apply Hf].
  apply (sends_weaken 0); [lia|]. by apply sends_ret.
Qed.

Lemma sends_quiet {A} (Q : A → Prop) (m : Cl A) : (∀ c, cl_session (m c).2.1 = cl_session c ∧ payloads (m c).2.2 = [] ∧ Q (m c).1) → sends 0 Q m.
Proof. intros Hm c Hc. destruct (Hm c) as (H1 & H2 & H3). unfold session_ok. rewrite H1, H2. split_and!; [done|cbn; lia|constructor|done]. Qed.

Lemma sends_exchange payload tag : P payload → sends 1 (fine (λ _, True)) (exchange W payload tag).
Proof.
  intros HP c Hc. unfold exchange, send, recv, abandon, penalize, instant_now, change, next, and_then, mbind, Cl_bind, happens, mret, Cl_ret.
  destruct (acquire_spec W c) as (x & c' & -> & Hs & _ & [(-> & H)|(-> & H1 & H2)]); cbn.
  - unfold session_ok. rewrite Hs. split_and!; [done|cbn; lia|constructor|done].
  - destruct (negb _); cbn; [|destruct (first_reply tag _)]; cbn;
      (split_and!; [intros key Hk; apply Hc; rewrite <-Hs; exact Hk|cbn; lia|by repeat constructor|done]).
Qed.
Lemma sends_judged payload tag : P payload → sends 1 (fine (λ _, True)) (judged_exchange W payload tag).
Proof.
  intros HP. apply (sends_and_then 1 0 (λ _, True)); [by apply sends_exchange|]. intros response _. apply sends_quiet. intros c.
  unfold global_error. destruct (backoff_of (rs_code response)); cbn; [done|]. split_and!; [done|done|]. by repeat case_decide.
Qed.
Lemma sends_tag : sends 0 (λ _, True) next_tag.
Proof. by apply sends_quiet. Qed.

Lemma session_key_ok header key : session_key header = Some key → key_ok key.
Proof.
  unfold session_key. destruct (negb _ && _) eqn:E; [|done]. intros [= <-]. apply andb_true_iff in E as [H1 H2].
  split; [|done]. by apply negb_true_iff, bool_decide_eq_false in H1.
Qed.
Lemma sends_put {A} session (Q : A → Prop) x : (∀ key, session = Some key → key_ok key) → Q x →
  sends 0 Q (change (put_session session);; mret x).
Proof. intros Hs Hx c _. unfold change, mbind, Cl_bind, mret, Cl_ret. split_and!; [done|cbn; lia|constructor|done]. Qed.
Lemma look_bind {A B} (f : Client → A) (k : A → Cl B) c : (look f ≫= k) c = k (f c) c.
Proof. unfold look, mbind, Cl_bind. by destruct (k (f c) c) as [? [? ?]]. Qed.
Lemma sends_session : (∀ tag, P (auth user password tag)) → sends 1 (fine key_ok) (ensure_session W user password).
Proof.
  intros HP c Hc. unfold ensure_session. rewrite look_bind.
  destruct (cl_session c) as [key|] eqn:Hk.
  { split_and!; [done|cbn; lia|constructor|]. by apply Hc. }
  match goal with |- context [(next_tag ≫= ?k) c] => assert (sends 1 (fine key_ok) (next_tag ≫= k)) as Hm; [|exact (Hm c Hc)] end.
  apply (sends_bind 0 1 (λ _, True)); [apply sends_tag|]. intros tag _. apply (sends_and_then 1 0 (λ _, True)); [by apply sends_judged|].
  intros response _. case_decide; [|by apply sends_ret]. destruct (session_key _) as [key|] eqn:Hs; [|by apply sends_ret].
  apply session_key_ok in Hs. apply sends_put; [by intros ? [= <-]|done].
Qed.
Lemma sends_call attempts build : (∀ tag, P (auth user password tag)) → (∀ key tag, key_ok key → P (build key tag)) →
  sends (2 * attempts) (fine (λ _, True)) (call_from W user password attempts build).
Proof.
  intros HP HB. induction attempts as [|n IH]; cbn [call_from]; [by apply sends_ret|].
  apply (sends_weaken (1 + (0 + (1 + (0 + 2 * n)))) _); [lia|]. apply (sends_and_then _ _ key_ok); [by apply sends_session|].
  intros key Hkey. apply (sends_bind _ _ (λ _, True)); [apply sends_tag|]. intros tag _.
  apply (sends_and_then _ _ (λ _, True)); [apply sends_judged; by apply HB|]. intros response _. case_decide.
  - apply (sends_bind _ _ (λ _, True)).
    + intros c Hc. split_and!; [intros ? [=]|cbn; lia|constructor|done].
    + intros _ _. destruct n; [by apply sends_ret|exact IH].
  - apply (sends_weaken 0); [lia|]. by apply sends_ret.
Qed.
End packets.

(** ** Statements *)

(** C34. The server is left in peace, judging by the wire alone. Whatever requests come,
    whatever is received or lost, a packet leaves at the earliest two seconds after the
    one before, five seconds after a packet that the socket refused or whose answer
    did not come, and, when a login or a lookup is answered, five minutes after the
    reply that the server is busy and half an hour after the reply of a ban, an
    internal error or an outage. The replies to PING and LOGOUT are not asked for
    quiet: the client does not read one out of them. *)
Theorem packets_spaced W user password now ops e1 e e2 t payload e3 f :
  events W user password now ops = e1 ++ e :: e2 ++ Sent t payload :: e3 → free_at e = Some f → f ≤ t.
Proof.
  intros He Hf. destruct (paced_all W user password ops (new_client now)) as [Hs _]. unfold events in He. rewrite He in Hs.
  by eapply spaced_after.
Qed.

(** A lookup sends at most four packets: logins, which alone carry the credentials,
    and the request itself under a key that a login gave, letters and digits only.
    The session kept afterwards is such a key again. *)
Theorem lookup_packets W user password build c : session_ok c →
  let r := call W user password build c in
  (length (payloads r.2.2) ≤ 4)%nat ∧
  Forall (λ p, (∃ tag, p = auth user password tag) ∨ (∃ key tag, key_ok key ∧ p = build key tag)) (payloads r.2.2) ∧
  session_ok r.2.1.
Proof.
  intros Hc. unfold call. set (P := λ p, (∃ tag, p = auth user password tag) ∨ (∃ key tag, key_ok key ∧ p = build key tag)).
  destruct (sends_call W user password P 2 build) with (c := c) as (H1 & H2 & H3 & _); [by left; eexists|by right; eauto|done|].
  by split_and!.
Qed.

(** ** Instances *)

(** A second passes before every reading; everything is sent, and a ban comes back. *)
Definition banned_net : Net := mkNet (λ _, 1000000000%N) (λ _, true) (λ _, [text "555 BANNED"]).
Definition ex_ops : list Op := [LookAnime (mkAniDbSeriesId 1); Ping].
Lemma packets_spaced_witness : 
  match events banned_net (text "me") (text "hunter2") 0 ex_ops with
  | [Sent t _; Written _ true; Heard u _ _ _; Sent v _; Written _ true; Heard _ _ _ _] => t + secs 2 ≤ v ∧ u + secs 1800 ≤ v
  | _ => False
  end.
Proof.
  destruct (events banned_net (text "me") (text "hunter2") 0 ex_ops) as [|e1 [|e2 [|e3 [|e4 [|e5 [|e6 [|]]]]]]] eqn:He; vm_compute in He; try done.
  pose proof He as He'. injection He' as H1 H2 H3 H4 H5 H6. subst e1 e2 e3 e4 e5 e6.
  pose proof (packets_spaced banned_net (text "me") (text "hunter2") 0 ex_ops [] _ [_; _] _ _ [_; _] _ He eq_refl) as Ha.
  pose proof (packets_spaced banned_net (text "me") (text "hunter2") 0 ex_ops [_; _] _ [] _ _ [_; _] _ He eq_refl) as Hb.
  split; assumption.
Defined.
Lemma lookup_packets_witness : 
  (length (payloads (call banned_net (text "me") (text "hunter2") (anime_request (mkAniDbSeriesId 1)) (new_client 0)).2.2) ≤ 4)%nat.
Proof. exact (proj1 (lookup_packets banned_net (text "me") (text "hunter2") (anime_request (mkAniDbSeriesId 1)) (new_client 0) ltac:(discriminate))). Defined.
