(* ===== verification/AniDbQueue.v ===== *)
(** * The AniDB tables of the server's database

    src/dessplay-rendezvous/src/storage.rs, the lookup queues, the title dump and the
    curator's cache. A table is a map from its primary key to the other columns; a
    statement's effect is its SQL. Rows in no stated order come in the order of the
    map. An access to the database ([Sql]) is the sequence of its statements: each may
    fail, which leaves the tables alone and ends the access; a transaction that fails
    leaves no trace. *)

From S2P Require Import Prelude Text Types TimeSync AniDb.

(** ** The tables *)

Record LookupRow := mkLookupRow {
  lr_size_bytes : Z; lr_filename : string; lr_first_seen : Z; lr_last_attempt : option Z; lr_next_attempt : Z;
  lr_attempts : Z; lr_has_data : bool; lr_mtime : option Z; lr_series_hint : option string
}.
Record AnimeRow := mkAnimeRow {
  an_first_seen : Z; an_last_attempt : option Z; an_next_attempt : Z; an_attempts : Z
}.
Record CuratedRow := mkCuratedRow {
  cu_title : option string; cu_fetched_at : Z; cu_attempts : Z; cu_asked_at : option Z; cu_settled : bool;
  cu_gave_up : bool
}.
Record Db := mkDb {
  db_lookups : gmap Ed2kHash LookupRow;
  db_anime : gmap AniDbSeriesId AnimeRow;
  db_titles : list TitleRow;
  db_curated : gmap AniDbSeriesId CuratedRow;
  db_kv : gmap string string
}.
Definition put_lookups (x : gmap Ed2kHash LookupRow) (d : Db) : Db :=
  mkDb x (db_anime d) (db_titles d) (db_curated d) (db_kv d).
Definition put_anime (x : gmap AniDbSeriesId AnimeRow) (d : Db) : Db :=
  mkDb (db_lookups d) x (db_titles d) (db_curated d) (db_kv d).
Definition put_titles (x : list TitleRow) (d : Db) : Db :=
  mkDb (db_lookups d) (db_anime d) x (db_curated d) (db_kv d).
Definition put_curated (x : gmap AniDbSeriesId CuratedRow) (d : Db) : Db :=
  mkDb (db_lookups d) (db_anime d) (db_titles d) x (db_kv d).
Definition put_kv (x : gmap string string) (d : Db) : Db :=
  mkDb (db_lookups d) (db_anime d) (db_titles d) (db_curated d) x.
Definition empty_db : Db := mkDb ∅ ∅ [] ∅ ∅.

Definition NEVER : Z := i64_max.
Definition ANTHROPIC_TOKEN_KEY : string := "anthropic_token".

Record QueueEntry := mkQueueEntry {
  qe_info : FileHashInfo; qe_first_seen : Z; qe_last_attempt : option Z; qe_next_attempt : Z; qe_attempts : Z;
  qe_has_data : bool
}.
Record AnimeQueueEntry := mkAnimeQueueEntry {
  aq_series : AniDbSeriesId; aq_first_seen : Z; aq_last_attempt : option Z; aq_next_attempt : Z; aq_attempts : Z
}.
Record CurationCacheRow := mkCurationCacheRow { cc_title : option string; cc_attempts : Z; cc_settled : bool }.

(** ** Accesses *)

Definition Sql (A : Type) : Type := Db * nat → option A * (Db * nat).
#[export] Instance Sql_ret : MRet Sql := λ A a s, (Some a, s).
#[export] Instance Sql_bind : MBind Sql := λ A B f m s,
  match m s with (Some a, s) => f a s | (None, s) => (None, s) end.

Section sql.
Context (ok : nat → bool).

Definition statement {A} (f : Db → A * Db) : Sql A := λ '(d, n),
  if ok n then let '(a, d) := f d in (Some a, (d, S n)) else (None, (d, S n)).
Definition select {A} (f : Db → A) : Sql A := statement (λ d, (f d, d)).
Definition update (f : Db → Db) : Sql unit := statement (λ d, ((), f d)).
Definition transaction {A} (m : Sql A) : Sql A := λ '(d, n),
  match m (d, n) with (Some a, s) => (Some a, s) | (None, (_, n)) => (None, (d, n)) end.
Fixpoint each {A} (f : A → Sql unit) (l : list A) : Sql unit :=
  match l with [] => mret () | x :: l => f x;; each f l end.

(** ** The file queue *)

Definition older (stored new : option Z) : option Z :=
  match new, stored with
  | None, _ => stored
  | Some _, None => new
  | Some m, Some k => Some (Z.min k m)
  end.
Definition enqueue_lookup_row (info : FileHashInfo) (now : Z) (row : option LookupRow) : LookupRow :=
  match row with
  | None =>
      mkLookupRow (i64_wrap (fhi_size info)) (fhi_filename info) now None now 0 false (fhi_mtime info)
        (fhi_series_hint info)
  | Some r =>
      mkLookupRow (lr_size_bytes r) (lr_filename r) (lr_first_seen r) (lr_last_attempt r) (lr_next_attempt r)
        (lr_attempts r) (lr_has_data r) (older (lr_mtime r) (fhi_mtime info))
        (match lr_series_hint r with Some h => Some h | None => fhi_series_hint info end)
  end.
Definition enqueue_lookup (info : FileHashInfo) (now : Z) : Sql unit := update (λ d,
  put_lookups (<[fhi_hash info := enqueue_lookup_row info now (db_lookups d !! fhi_hash info)]> (db_lookups d)) d).

Definition queue_entry (hr : Ed2kHash * LookupRow) : QueueEntry :=
  let '(hash, r) := hr in
  mkQueueEntry (mkFileHashInfo hash (u64_wrap (lr_size_bytes r)) (lr_filename r) (lr_mtime r) (lr_series_hint r))
    (lr_first_seen r) (lr_last_attempt r) (lr_next_attempt r) (u32_wrap (lr_attempts r)) (lr_has_data r).
(** The rows due, soonest first, then by key. *)
Definition due_order `{Ord K} {R} (next : R → Z) (a b : K * R) : comparison :=
  then_with (cmp (next a.2) (next b.2)) (cmp a.1 b.1).
Definition due_rows `{Countable K, Ord K} {R} (next : R → Z) (now : Z) (limit : nat) (m : gmap K R) : list (K * R) :=
  take limit (sort_by (due_order next) (filter (λ kr, next kr.2 ≤ now) (map_to_list m))).
Definition due_lookups (now : Z) (limit : nat) : Sql (list QueueEntry) :=
  select (λ d, queue_entry <$> due_rows lr_next_attempt now limit (db_lookups d)).
Definition series_hints : Sql (list (Ed2kHash * string)) := select (λ d,
  omap (λ hr, pair hr.1 <$> lr_series_hint hr.2) (map_to_list (db_lookups d))).

Definition attempted (attempted_at next_attempt : Z) (got_data : bool) (r : LookupRow) : LookupRow :=
  mkLookupRow (lr_size_bytes r) (lr_filename r) (lr_first_seen r) (Some attempted_at) next_attempt
    (lr_attempts r + 1) (lr_has_data r || got_data) (lr_mtime r) (lr_series_hint r).
Definition record_lookup_attempt (hash : Ed2kHash) (attempted_at next_attempt : Z) (got_data : bool) : Sql unit :=
  update (λ d, put_lookups (alter (attempted attempted_at next_attempt got_data) hash (db_lookups d)) d).
Definition remove_lookup (hash : Ed2kHash) : Sql unit := update (λ d, put_lookups (delete hash (db_lookups d)) d).

Definition rearm_row (now : Z) (r : LookupRow) : LookupRow :=
  mkLookupRow (lr_size_bytes r) (lr_filename r) (lr_first_seen r) (lr_last_attempt r) now (lr_attempts r) false
    (lr_mtime r) (lr_series_hint r).
Definition rearm_settled_without_metadata (present : gset Ed2kHash) (now : Z) : Sql (list string) :=
  orphaned ← select (λ d, filter (λ hr, hr.1 ∉ present)
    (filter (λ hr, lr_has_data hr.2 = true) (map_to_list (db_lookups d))));
  each (λ hr, update (λ d, put_lookups (alter (rearm_row now) hr.1 (db_lookups d)) d)) orphaned;;
  mret ((λ hr, lr_filename hr.2) <$> orphaned).

(** ** The series queue *)

Definition enqueue_anime (series : AniDbSeriesId) (now : Z) : Sql unit := update (λ d,
  match db_anime d !! series with
  | Some _ => d
  | None => put_anime (<[series := mkAnimeRow now None now 0]> (db_anime d)) d
  end).
Definition anime_entry (sr : AniDbSeriesId * AnimeRow) : AnimeQueueEntry :=
  let '(series, r) := sr in
  mkAnimeQueueEntry series (an_first_seen r) (an_last_attempt r) (an_next_attempt r) (u32_wrap (an_attempts r)).
Definition due_anime (now : Z) (limit : nat) : Sql (list AnimeQueueEntry) :=
  select (λ d, anime_entry <$> due_rows an_next_attempt now limit (db_anime d)).
Definition anime_attempted (attempted_at next_attempt : Z) (r : AnimeRow) : AnimeRow :=
  mkAnimeRow (an_first_seen r) (Some attempted_at) next_attempt (an_attempts r + 1).
Definition record_anime_attempt (series : AniDbSeriesId) (attempted_at next_attempt : Z) : Sql unit :=
  update (λ d, put_anime (alter (anime_attempted attempted_at next_attempt) series (db_anime d)) d).
Definition rearm_anime_row (now : Z) (r : AnimeRow) : AnimeRow :=
  mkAnimeRow (an_first_seen r) (an_last_attempt r) now (an_attempts r).
Definition rearm_settled_anime_without_relations (present : gset AniDbSeriesId) (now : Z)
    : Sql (list AniDbSeriesId) :=
  orphaned ← select (λ d, filter (λ s, s ∉ present)
    (filter (λ sr, an_next_attempt sr.2 = NEVER) (map_to_list (db_anime d))).*1);
  each (λ s, update (λ d, put_anime (alter (rearm_anime_row now) s (db_anime d)) d)) orphaned;;
  mret orphaned.

(** [MIN] of a column: null over no rows. *)
Definition sql_min (l : list Z) : option Z := match l with [] => None | x :: l => Some (foldl Z.min x l) end.
Definition next_attempt_at : Sql (option Z) := select (λ d,
  let pending {K} (l : list (K * Z)) := filter (λ t, t < NEVER) l.*2 in
  sql_min (option_list (sql_min (pending ((λ hr, (hr.1, lr_next_attempt hr.2)) <$> map_to_list (db_lookups d)))) ++
           option_list (sql_min (pending ((λ sr, (sr.1, an_next_attempt sr.2)) <$> map_to_list (db_anime d)))))).

(** ** The title dump *)

Definition replace_titles (titles : list TitleRow) : Sql unit :=
  transaction (update (put_titles []);;
    each (λ row, update (λ d, put_titles (db_titles d ++ [row]) d)) titles).
Definition title_order (a b : TitleRow) : comparison :=
  then_with (cmp (tr_kind a) (tr_kind b)) (then_with (cmp (tr_lang a) (tr_lang b)) (cmp (tr_title a) (tr_title b))).
Definition titles_for (series : AniDbSeriesId) : Sql (list TitleRow) :=
  select (λ d, sort_by title_order (filter (λ r, tr_series r = series) (db_titles d))).
Definition titles_available : Sql bool := select (λ d, bool_decide (db_titles d ≠ [])).

(** ** The curator's cache *)

(** [None]: no answer yet. *)
Definition curated_short_title (series : AniDbSeriesId) : Sql (option (option string)) := select (λ d,
  match db_curated d !! series with
  | Some r => if cu_settled r then Some (cu_title r) else None
  | None => None
  end).
Definition cache_row (r : CuratedRow) : CurationCacheRow :=
  mkCurationCacheRow (cu_title r) (u32_wrap (cu_attempts r)) (cu_settled r).
Definition curated_titles : Sql (gmap AniDbSeriesId CurationCacheRow) := select (λ d, cache_row <$> db_curated d).
Definition set_curated_row (title : option string) (now : Z) (row : option CuratedRow) : CuratedRow :=
  match row with
  | None => mkCuratedRow title now 0 None true false
  | Some r => mkCuratedRow title now (cu_attempts r) (cu_asked_at r) true false
  end.
Definition set_curated_short_title (series : AniDbSeriesId) (title : option string) (now : Z) : Sql unit :=
  update (λ d, put_curated (<[series := set_curated_row title now (db_curated d !! series)]> (db_curated d)) d).

Definition ask_row (now : Z) (row : option CuratedRow) : CuratedRow :=
  match row with
  | None => mkCuratedRow None now 1 (Some now) false false
  | Some r =>
      if cu_settled r then r
      else mkCuratedRow (cu_title r) (cu_fetched_at r) (cu_attempts r + 1) (Some now) false (cu_gave_up r)
  end.
Definition settle_row (now : Z) (r : CuratedRow) : CuratedRow :=
  mkCuratedRow (cu_title r) now (cu_attempts r) (cu_asked_at r) true true.
(** The second statement, and whether it changed the row. *)
Definition settle_exhausted (max_attempts now : Z) (s : AniDbSeriesId) (d : Db) : bool * Db :=
  match db_curated d !! s with
  | Some r =>
      if negb (cu_settled r) && (max_attempts <=? cu_attempts r)
      then (true, put_curated (<[s := settle_row now r]> (db_curated d)) d) else (false, d)
  | None => (false, d)
  end.
Fixpoint record_unanswered_from (series : list AniDbSeriesId) (now max_attempts : Z) : Sql (list AniDbSeriesId) :=
  match series with
  | [] => mret []
  | s :: series =>
      update (λ d, put_curated (<[s := ask_row now (db_curated d !! s)]> (db_curated d)) d);;
      settled_now ← statement (settle_exhausted max_attempts now s);
      gave_up ← record_unanswered_from series now max_attempts;
      mret (if settled_now : bool then s :: gave_up else gave_up)
  end.
Definition record_curation_unanswered (series : list AniDbSeriesId) (now max_attempts : Z) : Sql (list AniDbSeriesId) :=
  transaction (record_unanswered_from series now max_attempts).
Definition rearm_curated_row (r : CuratedRow) : CuratedRow :=
  if cu_settled r && cu_gave_up r
  then mkCuratedRow (cu_title r) (cu_fetched_at r) 0 (cu_asked_at r) false false else r.
Definition rearm_curation_give_ups : Sql (list AniDbSeriesId) := statement (λ d,
  ((filter (λ sr, cu_settled sr.2 && cu_gave_up sr.2 = true) (map_to_list (db_curated d))).*1,
   put_curated (rearm_curated_row <$> db_curated d) d)).

(** ** Bookkeeping *)

Definition kv_get (key : string) : Sql (option string) := select (λ d, db_kv d !! key).
Definition kv_set (key value : string) : Sql unit := update (λ d, put_kv (<[key := value]> (db_kv d)) d).
Definition kv_delete (key : string) : Sql unit := update (λ d, put_kv (delete key (db_kv d)) d).
End sql.
