(* ===== verification/AniDbWorker.v ===== *)
(** * The AniDB worker

    src/dessplay-rendezvous/src/anidb/worker.rs: the task that turns lookup requests
    into replicated metadata, one pass after another. The traits it is written against
    are classes: [AniDbHost] (the server), [AniDbApi] (the client); the title source and
    the curator, and whether a statement succeeds, are readings ([Outside]), which also
    hold what the server's other tasks do before each access to it. Times of the shared
    clock and of sleeps are in milliseconds; log lines are left out. *)

From S2P Require Import Prelude Session Text Types TimeSync Conc View AniDb AniDbClient AniDbQueue.

(** ** The traits *)

Class AniDbHost (H : Type) := {
  host_now : H → Z * H;
  host_view : H → option StateView;
  host_write_metadata : Ed2kHash → AniDbMetadata → H → H;
  host_write_relations : AniDbSeriesId → SeriesRelations → H → H;
  host_write_catalog : Ed2kHash → FileCatalogEntry → H → H;
  host_db : H → option Db;
  host_put_db : Db → H → H
}.
Class AniDbApi (A : Type) := {
  api_file_by_hash : Z → Ed2kHash → A → (Failure + option FileResult) * A;
  api_anime_by_id : AniDbSeriesId → A → (Failure + option AnimeResult) * A
}.

(** [CurationInput], [Curation], [CurateError]; a call may also die. *)
Record CurationInput := mkCurationInput { ci_series : AniDbSeriesId; ci_rows : list TitleRow }.
Inductive Curation := NoAnswer | NoShortName | Short (name : string).
Inductive CurateOutcome := Answers (answers : list Curation) | ModelError | TransportError | TaskDied.
Inductive Fetch := Fetched (dump : Bytes) | NotFetched.

(** ** State *)

(** [CurationJob], with what it was given. *)
Record CurationJob := mkCurationJob { cj_asked : list AniDbSeriesId; cj_token : string; cj_batch : list CurationInput }.

Record Worker (H A : Type) := mkWorker {
  wk_host : H;
  wk_api : A;
  wk_reads : nat;
  wk_titles_due : Z;
  wk_backoff : Z;
  wk_job : option CurationJob
}.
Arguments mkWorker {H A}.
Arguments wk_host {H A}.
Arguments wk_api {H A}.
Arguments wk_reads {H A}.
Arguments wk_titles_due {H A}.
Arguments wk_backoff {H A}.
Arguments wk_job {H A}.

Record Outside (H : Type) := mkOutside {
  os_others : nat → H → H;
  os_sql : nat → bool;
  os_fetch : nat → Fetch;
  os_finished : nat → bool;
  os_curate : nat → string → list CurationInput → CurateOutcome
}.
Arguments mkOutside {H}.
Arguments os_others {H}.
Arguments os_sql {H}.
Arguments os_fetch {H}.
Arguments os_finished {H}.
Arguments os_curate {H}.

(** What the worker does that is not a write: it asks AniDB about a file or a series
    (and gets an answer about the series), it asks the model about series, a call about
    series comes back with what it comes back with, it sleeps, it stops. *)
Inductive Did :=
| AskedFile (hash : Ed2kHash)
| AskedAnime (series : AniDbSeriesId)
| AnsweredAnime (series : AniDbSeriesId)
| AskedModel (series : list AniDbSeriesId)
| Returned (asked : list AniDbSeriesId) (outcome : CurateOutcome)
| Slept (millis : Z)
| Stopped.

Definition POLL_MIN : Z := 5 * 1000.
Definition POLL_MAX : Z := 60 * 1000.
Definition ANIME_TIMEOUT_RETRY_MILLIS : Z := TIMEOUT_RETRY_MILLIS.
Definition CURATE_BATCH : nat := 20.
Definition CURATE_RETRY_MILLIS : Z := 10 * 60 * 1000.
Definition MAX_CURATE_ATTEMPTS : Z := 5.
Definition REFRESH_MILLIS : Z := 24 * 60 * 60 * 1000.
Definition RETRY_MILLIS : Z := 60 * 60 * 1000.
Definition FETCHED_AT_KEY : string := "titles_fetched_at".

(** ** [std::path] *)

(** [Path::file_stem]: what is before the last dot of the name, a first one aside. *)
Definition file_stem (path : string) : option Bytes :=
  name ← Session.file_name path;
  Some (match split_once 46 (reverse name) with
        | Some (_, []) | None => name
        | Some (_, before) => reverse before
        end).
Definition trimmed (s : string) : string := string_of_bytes (str_trim (bytes_of_string s)).

Definition filename_derived (filename : string) (series_hint : option string) : AniDbMetadata :=
  let series_name :=
    match (hint ← trimmed <$> series_hint; if decide (hint = EmptyString) then None else Some hint) with
    | Some hint => hint
    | None =>
        default filename (stem ← file_stem filename;
                          if decide (stem = []) then None else Some (string_of_bytes stem))
    end in
  mkAniDbMetadata SourceFilenameDerived series_name None None.

(** The metadata of a hit; the relations of one, with the cached short title. *)
Definition file_metadata (file : FileResult) : AniDbMetadata :=
  mkAniDbMetadata SourceAniDb (string_of_bytes (series_name file)) (Some (fr_aid file))
    (Some (string_of_bytes (fr_epno file))).
Definition anime_relations (anime : AnimeResult) (short : option string) : SeriesRelations :=
  mkSeriesRelations (string_of_bytes (anime_title anime)) (ar_year anime) (ar_episode_count anime)
    (list_to_set ((λ ct, mkSeriesRelation (relation_kind ct.1) ct.2) <$> ar_relations anime)) (option_list short).

(** Series referenced anywhere, without relations. *)
Definition wanted_series (v : StateView) : gset AniDbSeriesId :=
  list_to_set (filter (λ s, v_series_relations v !! s = None)
    (omap (λ hm : Ed2kHash * option AniDbMetadata, hm.2 ≫= series_id) (map_to_list (v_anidb_metadata v)) ++
     omap (λ ie : ListEntryId * SeriesListEntry, anidb_series_id ie.2) (map_to_list (v_list_entries v)))).

(** The series without a settled answer, fewest attempts first. *)
Definition candidates (v : StateView) (cache : gmap AniDbSeriesId CurationCacheRow) : list AniDbSeriesId :=
  (sort_by cmp (omap (λ sr : AniDbSeriesId * SeriesRelations,
    match cache !! sr.1 with
    | None => Some (0, sr.1)
    | Some row => if cc_settled row then None else Some (cc_attempts row, sr.1)
    end) (map_to_list (v_series_relations v)))).*2.

(** Splitting a reply by position: what was answered, what was not. *)
Fixpoint split_answers (asked : list AniDbSeriesId) (answers : list Curation)
    : list (AniDbSeriesId * option string) * list AniDbSeriesId :=
  match asked with
  | [] => ([], [])
  | s :: asked =>
      let '(answered, unanswered) := split_answers asked (tail answers) in
      match head answers with
      | Some (Short name) => ((s, Some name) :: answered, unanswered)
      | Some NoShortName => ((s, None) :: answered, unanswered)
      | Some NoAnswer | None => (answered, s :: unanswered)
      end
  end.

Section worker.
Context {H A : Type} `{!AniDbHost H, !AniDbApi A} (U : Outside H) (curator : bool).
Abbreviation WorkerM := (Sec (Worker H A) Did).

Definition set_host (h : H) (w : Worker H A) : Worker H A :=
  mkWorker h (wk_api w) (wk_reads w) (wk_titles_due w) (wk_backoff w) (wk_job w).
Definition set_api (a : A) (w : Worker H A) : Worker H A :=
  mkWorker (wk_host w) a (wk_reads w) (wk_titles_due w) (wk_backoff w) (wk_job w).
Definition set_reads (n : nat) (w : Worker H A) : Worker H A :=
  mkWorker (wk_host w) (wk_api w) n (wk_titles_due w) (wk_backoff w) (wk_job w).
Definition set_titles_due (t : Z) (w : Worker H A) : Worker H A :=
  mkWorker (wk_host w) (wk_api w) (wk_reads w) t (wk_backoff w) (wk_job w).
Definition set_backoff (t : Z) (w : Worker H A) : Worker H A :=
  mkWorker (wk_host w) (wk_api w) (wk_reads w) (wk_titles_due w) t (wk_job w).
Definition set_job (j : option CurationJob) (w : Worker H A) : Worker H A :=
  mkWorker (wk_host w) (wk_api w) (wk_reads w) (wk_titles_due w) (wk_backoff w) j.

(** ** Access to the outside *)

Definition outside {B} (f : nat → B) : WorkerM B :=
  n ← sget wk_reads; smodify (set_reads (S n));; mret (f n).
(** The server's other tasks run. *)
Definition meanwhile : WorkerM unit :=
  others ← outside (os_others U); smodify (λ w, set_host (others (wk_host w)) w).
Definition on_host (f : H → H) : WorkerM unit := meanwhile;; smodify (λ w, set_host (f (wk_host w)) w).
Definition worker_now : WorkerM Z :=
  meanwhile;; '(t, h) ← sget (λ w, host_now (wk_host w)); smodify (set_host h);; mret t.
Definition worker_view : WorkerM StateView :=
  meanwhile;; v ← sget (λ w, host_view (wk_host w)); sof_option v.
Definition write_metadata (hash : Ed2kHash) (metadata : AniDbMetadata) : WorkerM unit :=
  on_host (host_write_metadata hash metadata).
Definition write_relations (series : AniDbSeriesId) (rels : SeriesRelations) : WorkerM unit :=
  on_host (host_write_relations series rels).
Definition write_catalog (hash : Ed2kHash) (entry : FileCatalogEntry) : WorkerM unit :=
  on_host (host_write_catalog hash entry).

(** [store]: without storage, or after a failure, nothing comes back. *)
Definition store {B} (m : Sql B) : WorkerM (option B) :=
  meanwhile;;
  w ← sget id;
  match host_db (wk_host w) with
  | None => mret None
  | Some d =>
      let '(r, (d, n)) := m (d, wk_reads w) in
      smodify (λ w, set_reads n (set_host (host_put_db d (wk_host w)) w));; mret r
  end.
Fixpoint wfor {B} (l : list B) (f : B → WorkerM unit) : WorkerM unit :=
  match l with [] => mret () | x :: l => f x;; wfor l f end.

(** A call to the client: an error, or an answer; a panic ends the task. *)
Definition asks {B} (f : A → (Failure + B) * A) : WorkerM (LookupError + B) :=
  '(r, a) ← sget (λ w, f (wk_api w));
  smodify (set_api a);;
  meanwhile;;
  match r with
  | inr x => mret (inr x)
  | inl (Failed e) => mret (inl e)
  | inl Panicked => sof_option None
  end.

Abbreviation sql := (os_sql U).

(** ** Seeding *)

Definition seed_queues (v : StateView) (now : Z) : WorkerM unit :=
  store (each (λ info, enqueue_lookup sql info (i64_wrap now)) (btree_set_iter (v_lookup_requests v));;
         each (λ s, enqueue_anime sql s (i64_wrap now)) (btree_set_iter (wanted_series v)));;
  mret ().

Definition populate_catalog (v : StateView) : WorkerM unit :=
  wfor (btree_set_iter (v_lookup_requests v)) (λ info,
    match v_file_catalog v !! fhi_hash info with
    | Some _ => mret ()
    | None => write_catalog (fhi_hash info) (mkFileCatalogEntry (fhi_filename info) (fhi_size info) None)
    end).

Definition apply_series_hint (v : StateView) (hash : Ed2kHash) (hint : string) : WorkerM unit :=
  let hint := trimmed hint in
  if decide (hint = EmptyString) then mret ()
  else
    match v_anidb_metadata v !! hash with
    | Some (Some meta) =>
        if decide (meta_source meta = SourceFilenameDerived ∧ Types.series_name meta ≠ hint) then
          write_metadata hash (mkAniDbMetadata (meta_source meta) hint (series_id meta) (episode_number meta))
        else mret ()
    | _ => mret ()
    end.
Definition apply_series_hints (v : StateView) : WorkerM unit :=
  hints ← store (series_hints sql);
  match hints with
  | None => mret ()
  | Some hints => wfor hints (λ '(hash, hint), apply_series_hint v hash hint)
  end.

(** ** Curation *)

Definition harvest_curation (job : CurationJob) (now : Z) : WorkerM unit :=
  outcome ← outside (λ n, os_curate U n (cj_token job) (cj_batch job));
  semit (Returned (cj_asked job) outcome);;
  let back_off := smodify (set_backoff (u64_wrap (now + CURATE_RETRY_MILLIS))) in
  unanswered ←
    match outcome with
    | Answers answers =>
        let '(answered, unanswered) := split_answers (cj_asked job) answers in
        store (each (λ '(s, short), set_curated_short_title sql s short (i64_wrap now)) answered);;
        swhen (bool_decide (answered = [])) back_off;;
        mret unanswered
    | ModelError => back_off;; mret (cj_asked job)
    | TransportError | TaskDied => back_off;; mret []
    end;
  swhen (bool_decide (unanswered ≠ []))
    (store (record_curation_unanswered sql unanswered (i64_wrap now) MAX_CURATE_ATTEMPTS);; mret ()).

(** The batch: up to [room] of the candidates that have titles. *)
Fixpoint fill_batch (room : nat) (cs : list AniDbSeriesId) : WorkerM (list CurationInput) :=
  match cs, room with
  | [], _ | _, O => mret []
  | s :: cs, S fewer =>
      rows ← store (titles_for sql s);
      match rows with
      | Some ((_ :: _) as rows) => batch ← fill_batch fewer cs; mret (mkCurationInput s rows :: batch)
      | _ => fill_batch room cs
      end
  end.
Definition reconcile_relations (v : StateView) (cache : gmap AniDbSeriesId CurationCacheRow) : WorkerM unit :=
  wfor (btree_iter (v_series_relations v)) (λ '(series, rels),
    match cache !! series with
    | Some row =>
        let short := option_list (cc_title row) in
        if decide (cc_settled row = true ∧ short_titles rels ≠ short) then
          write_relations series
            (mkSeriesRelations (rels_title rels) (rels_year rels) (rels_episode_count rels) (relations rels) short)
        else mret ()
    | None => mret ()
    end).
Definition launch_curation (v : StateView) (cache : gmap AniDbSeriesId CurationCacheRow) (now : Z) : WorkerM unit :=
  w ← sget id;
  if bool_decide (wk_job w = None) && (wk_backoff w <=? now) && curator then
    token ← store (kv_get sql ANTHROPIC_TOKEN_KEY);
    match token with
    | Some (Some token) =>
        present ← store (titles_available sql);
        match present with
        | Some true =>
            batch ← fill_batch CURATE_BATCH (candidates v cache);
            let asked := ci_series <$> batch in
            if decide (batch = []) then mret ()
            else semit (AskedModel asked);; smodify (set_job (Some (mkCurationJob asked token batch)))
        | _ => mret ()
        end
    | _ => mret ()
    end
  else mret ().
Definition curate_short_titles (v : StateView) (now : Z) : WorkerM unit :=
  job ← sget wk_job;
  match job with
  | Some job =>
      finished ← outside (os_finished U);
      if finished : bool then smodify (set_job None);; harvest_curation job now else mret ()
  | None => mret ()
  end;;
  cache ← store (curated_titles sql);
  match cache with
  | None => mret ()
  | Some cache => reconcile_relations v cache;; launch_curation v cache now
  end.

(** ** Start-up *)

Definition reconcile_settled_lookups : WorkerM unit :=
  now ← worker_now;
  v ← worker_view;
  let present : gset Ed2kHash := list_to_set (omap (λ hm : Ed2kHash * option AniDbMetadata,
    (λ _, hm.1) <$> hm.2) (map_to_list (v_anidb_metadata v))) in
  store (rearm_settled_without_metadata sql present (i64_wrap now));;
  store (rearm_settled_anime_without_relations sql (dom (v_series_relations v)) (i64_wrap now));;
  store (rearm_curation_give_ups sql);;
  mret ().

(** ** Lookups *)

Definition lookup_file (now : Z) (entry : QueueEntry) : WorkerM (LookupError + unit) :=
  let hash := fhi_hash (qe_info entry) in
  semit (AskedFile hash);;
  result ← asks (api_file_by_hash (fhi_size (qe_info entry)) hash);
  let now_i := i64_wrap now in
  let anchor := effective_anchor (qe_first_seen entry) (fhi_mtime (qe_info entry)) in
  let next had outcome := default NEVER (next_attempt now_i anchor had outcome) in
  match result with
  | inr (Some file) =>
      write_metadata hash (file_metadata file);;
      store (record_lookup_attempt sql hash now_i (next true Data) true);;
      mret (inr ())
  | inr None =>
      v ← worker_view;
      (match v_anidb_metadata v !! hash with
       | Some (Some _) => mret ()
       | _ => write_metadata hash
                (filename_derived (fhi_filename (qe_info entry)) (fhi_series_hint (qe_info entry)))
       end);;
      store (record_lookup_attempt sql hash now_i (next (qe_has_data entry) NoData) false);;
      mret (inr ())
  | inl LookupTimeout =>
      store (record_lookup_attempt sql hash now_i (next (qe_has_data entry) Timeout) false);;
      mret (inl LookupTimeout)
  | inl other => mret (inl other)
  end.

Definition lookup_anime (now : Z) (series : AniDbSeriesId) : WorkerM (LookupError + unit) :=
  semit (AskedAnime series);;
  result ← asks (api_anime_by_id series);
  let now_i := i64_wrap now in
  match result with
  | inr (Some anime) =>
      semit (AnsweredAnime series);;
      short ← store (curated_short_title sql series);
      write_relations series (anime_relations anime (mjoin (mjoin short)));;
      v ← worker_view;
      let fresh := filter (λ t, v_series_relations v !! t = None) (ar_relations anime).*2 in
      store (record_anime_attempt sql series now_i NEVER;; each (λ t, enqueue_anime sql t now_i) fresh);;
      mret (inr ())
  | inr None =>
      semit (AnsweredAnime series);;
      store (record_anime_attempt sql series now_i NEVER);;
      mret (inr ())
  | inl LookupTimeout =>
      store (record_anime_attempt sql series now_i (i64_wrap (now_i + ANIME_TIMEOUT_RETRY_MILLIS)));;
      mret (inl LookupTimeout)
  | inl other => mret (inl other)
  end.

(** One due lookup, files first; whether there was one. *)
Definition step (now : Z) : WorkerM (LookupError + bool) :=
  due ← store (due_lookups sql (i64_wrap now) 1);
  match due ≫= last with
  | Some entry => r ← lookup_file now entry; mret (match r with inr _ => inr true | inl e => inl e end)
  | None =>
      due ← store (due_anime sql (i64_wrap now) 1);
      match due ≫= last with
      | Some entry => r ← lookup_anime now (aq_series entry); mret (match r with inr _ => inr true | inl e => inl e end)
      | None => mret (inr false)
      end
  end.

(** ** The title dump *)

Definition refresh_titles_if_due (now : Z) : WorkerM unit :=
  due ← sget wk_titles_due;
  if now <? due then mret ()
  else
    stored ← store (kv_get sql FETCHED_AT_KEY);
    let fetched_at := default 0 (value ← mjoin stored; parse_unsigned u64_max (bytes_of_string value)) in
    if u64_saturating_sub now fetched_at <? REFRESH_MILLIS then
      smodify (set_titles_due (u64_wrap (fetched_at + REFRESH_MILLIS)))
    else
      fetched ← outside (os_fetch U);
      match fetched with
      | Fetched dump =>
          match parse_dump dump with
          | [] => smodify (set_titles_due (u64_wrap (now + RETRY_MILLIS)))
          | rows =>
              store (replace_titles sql rows;; kv_set sql FETCHED_AT_KEY (string_of_bytes (decimal now)));;
              smodify (set_titles_due (u64_wrap (now + REFRESH_MILLIS)))
          end
      | NotFetched => smodify (set_titles_due (u64_wrap (now + RETRY_MILLIS)))
      end.

(** ** The loop *)

(** One turn of the loop; [false] when the worker stops. *)
Definition pass : WorkerM bool :=
  now ← worker_now;
  refresh_titles_if_due now;;
  v ← worker_view;
  seed_queues v now;;
  populate_catalog v;;
  apply_series_hints v;;
  curate_short_titles v now;;
  r ← step now;
  match r with
  | inr true => mret true
  | inr false =>
      due ← store (next_attempt_at sql);
      let wait :=
        match mjoin due with
        | Some at_ => Z.max POLL_MIN (Z.min POLL_MAX (u64_saturating_sub (Z.max at_ 0) now))
        | None => POLL_MAX
        end in
      semit (Slept wait);; mret true
  | inl LookupTimeout => mret true
  | inl (Backoff millis) => semit (Slept millis);; mret true
  | inl (Fatal _) => semit Stopped;; mret false
  end.
Fixpoint passes (n : nat) : WorkerM unit :=
  match n with
  | O => mret ()
  | S n => go ← pass; if go : bool then passes n else mret ()
  end.
Definition worker_run (n : nat) : WorkerM unit := reconcile_settled_lookups;; passes n.
End worker.

(** [CurationState::default()], at the start of the task. *)
Definition new_worker {H A} (h : H) (a : A) : Worker H A := mkWorker h a 0 0 0 None.

(** ** The real client *)

#[export] Instance client_api (W : Net) (user password : Bytes) : AniDbApi Client := {
  api_file_by_hash size hash c := let '(r, (c, _)) := AniDbClient.file_by_hash W user password size hash c in (r, c);
  api_anime_by_id series c := let '(r, (c, _)) := AniDbClient.anime_by_id W user password series c in (r, c)
}.
