(* ===== verification/AniDbWorkerLogic.v ===== *)
(** * Reasoning about the AniDB worker

    A program logic for the worker's tasks: assertions speak of what the worker has
    done so far and of its state ([hoare]). [LawfulHost] is what the worker relies on
    in a server: the metadata it reads are the metadata it wrote, nobody else touches
    its tables, and what AniDB has said about the files one speaks of is not taken
    back ([quiet]). *)

From S2P Require Import Prelude Text Types Conc View AniDb AniDbClient AniDbQueue AniDbWorker.

(** ** The promise of a host *)

(** The worker's tables: all but the bookkeeping, where the token lies. *)
Definition same_tables (d d' : Db) : Prop :=
  db_lookups d' = db_lookups d ∧ db_anime d' = db_anime d ∧ db_titles d' = db_titles d ∧
  db_curated d' = db_curated d.

Class LawfulHost (H : Type) `{!AniDbHost H} := {
  host_ok : H → Prop;
  host_metadata : H → gmap Ed2kHash (option AniDbMetadata);
  host_now_ok h : host_ok h → host_ok (host_now h).2 ∧ host_metadata (host_now h).2 = host_metadata h ∧
    host_db (host_now h).2 = host_db h;
  host_view_metadata h v : host_ok h → host_view h = Some v → v_anidb_metadata v = host_metadata h;
  host_write_metadata_ok h hash m : host_ok h →
    host_ok (host_write_metadata hash m h) ∧ host_db (host_write_metadata hash m h) = host_db h ∧
    (host_metadata (host_write_metadata hash m h) = host_metadata h ∨
     host_metadata (host_write_metadata hash m h) = <[hash := Some m]> (host_metadata h));
  host_write_relations_ok h s r : host_ok h → host_ok (host_write_relations s r h) ∧
    host_db (host_write_relations s r h) = host_db h ∧ host_metadata (host_write_relations s r h) = host_metadata h;
  host_write_catalog_ok h hash e : host_ok h → host_ok (host_write_catalog hash e h) ∧
    host_db (host_write_catalog hash e h) = host_db h ∧ host_metadata (host_write_catalog hash e h) = host_metadata h;
  host_put_db_ok h d d' : host_ok h → host_db h = Some d →
    host_ok (host_put_db d' h) ∧ host_db (host_put_db d' h) = Some d' ∧
    host_metadata (host_put_db d' h) = host_metadata h
}.

(** Metadata that AniDB gave, and a set of files for which they are not taken back. *)
Definition real (m : AniDbMetadata) : Prop := meta_source m = SourceAniDb.
Definition has_real (md : gmap Ed2kHash (option AniDbMetadata)) (hash : Ed2kHash) : Prop :=
  ∃ m, md !! hash = Some (Some m) ∧ real m.
Class Kept := kept : Ed2kHash → Prop.
Definition replaces (K : Kept) (md md' : gmap Ed2kHash (option AniDbMetadata)) : Prop :=
  ∀ hash, K hash → has_real md hash → has_real md' hash.
(** What the other tasks may do to it. *)
Definition quiet `{LawfulHost H} (K : Kept) (f : H → H) : Prop := ∀ h, host_ok h →
  host_ok (f h) ∧ replaces K (host_metadata h) (host_metadata (f h)) ∧
  option_Forall2 same_tables (host_db h) (host_db (f h)).
#[export] Instance replaces_refl K : Reflexive (replaces K).
Proof. by intros md hash _. Qed.
Lemma quiet_id `{LawfulHost H} K : quiet K (λ h, h).
Proof. intros h Hok. split; [done|]. split; [done|]. destruct (host_db h); by constructor. Qed.
Lemma quiet_compose `{LawfulHost H} K (f g : H → H) : quiet K f → quiet K g → quiet K (λ h, g (f h)).
Proof.
  intros Hf Hg h Hok. destruct (Hf h Hok) as (H1 & H2 & H3). destruct (Hg _ H1) as (H4 & H5 & H6).
  split; [done|]. split; [by intros hash Hk Hr; apply H5, H2|].
  destruct H3 as [d d' (E1 & E2 & E3 & E4)|]; inversion H6 as [? d'' (F1 & F2 & F3 & F4)|]; subst; constructor.
  unfold same_tables. split_and!; congruence.
Qed.

#[export] Instance same_tables_refl : Reflexive same_tables.
Proof. done. Qed.

(** ** The logic *)

Section logic.
Context {H A : Type} `{!AniDbHost H, !AniDbApi A}.
Abbreviation Assertion := (list Did → Worker H A → Prop).
Abbreviation WorkerM := (Sec (Worker H A) Did).

Definition hoare {B} (P : list Did → Worker H A → Prop) (m : WorkerM B) (Q : B → list Did → Worker H A → Prop) : Prop :=
  ∀ tr w b w' o, P tr w → m w = Some (b, (w', o)) → Q b (tr ++ o) w'.
Abbreviation keeps P m := (hoare P%function m (λ _, P%function)).

Lemma hoare_ret {B} (b : B) P (Q : B → Assertion) : (∀ tr w, P tr w → Q b tr w) → hoare P (mret b) Q.
Proof. intros HQ tr w b' w' o HP [= <- <- <-]. rewrite app_nil_r. by apply HQ. Qed.
Lemma hoare_bind {B C} (m : WorkerM B) (f : B → WorkerM C) P Q R :
  hoare P m Q → (∀ b, hoare (Q b) (f b) R) → hoare P (m ≫= f) R.
Proof.
  intros Hm Hf tr w c w' o HP Hrun. unfold mbind, Sec_bind in Hrun.
  destruct (m w) as [[b [w1 o1]]|] eqn:E1; [|done].
  destruct (f b w1) as [[c' [w2 o2]]|] eqn:E2; [|done]. simplify_eq. rewrite (assoc_L (++)).
  exact (Hf b _ _ _ _ _ (Hm _ _ _ _ _ HP E1) E2).
Qed.
Lemma keeps_then {B C} (m : WorkerM B) (f : B → WorkerM C) (P : Assertion) :
  keeps P m → (∀ b, keeps P (f b)) → keeps P (m ≫= f).
Proof. intros Hm Hf. by eapply hoare_bind. Qed.
Lemma hoare_mono {B} (m : WorkerM B) (P P' : Assertion) (Q Q' : B → Assertion) :
  hoare P m Q → (∀ tr w, P' tr w → P tr w) → (∀ b tr w, Q b tr w → Q' b tr w) → hoare P' m Q'.
Proof. intros Hm HP HQ tr w b w' o Hp E. apply HQ. eapply Hm; [by apply HP|exact E]. Qed.
Lemma hoare_get {B} (f : Worker H A → B) P :
  hoare P (sget f) (λ b tr w, P tr w ∧ b = f w).
Proof. intros tr w b w' o HP [= <- <- <-]. by rewrite app_nil_r. Qed.
(** Whatever was read. *)
Lemma hoare_read {B} (f : Worker H A → B) (P : Assertion) : keeps P (sget f).
Proof. intros tr w b w' o HP [= <- <- <-]. by rewrite app_nil_r. Qed.
Lemma hoare_modify f (P : Assertion) (Q : unit → Assertion) :
  (∀ tr w, P tr w → Q () tr (f w)) → hoare P (smodify f) Q.
Proof. intros HQ tr w b w' o HP [= <- <- <-]. rewrite app_nil_r. by apply HQ. Qed.
Lemma hoare_emit e P (Q : unit → Assertion) :
  (∀ tr w, P tr w → Q () (tr ++ [e]) w) → hoare P (semit e) Q.
Proof. intros HQ tr w b w' o HP [= <- <- <-]. by apply HQ. Qed.
Lemma hoare_of_option {B} (x : option B) (P : Assertion) : hoare P (sof_option x) (λ b tr w, P tr w ∧ x = Some b).
Proof.
  intros tr w b w' o HP Hrun. unfold sof_option in Hrun. destruct x as [x|]; [|done].
  injection Hrun as <- <- <-. by rewrite app_nil_r.
Qed.
Lemma hoare_when (b : bool) m P : (b = true → keeps P m) → keeps P (swhen b m).
Proof. destruct b; [auto|]. intros _. by apply hoare_ret. Qed.
(** A fact that does not depend on the state. *)
Lemma hoare_pure {B} (φ : Prop) (m : WorkerM B) P Q :
  (φ → hoare P m Q) → hoare (λ tr w, P tr w ∧ φ) m Q.
Proof. intros Hm tr w b w' o [HP Hφ]. by apply Hm. Qed.
(** A fact that is not needed. *)
Lemma hoare_weaken {B} (P R : Assertion) (m : WorkerM B) Q : hoare P m Q → hoare (λ tr w, P tr w ∧ R tr w) m Q.
Proof. intros Hm tr w b w' o [HP _]. by apply Hm. Qed.
Lemma keeps_for {B} (l : list B) (f : B → WorkerM unit) (P : Assertion) :
  (∀ x, x ∈ l → keeps P (f x)) → keeps P (wfor l f).
Proof.
  induction l as [|x l IH]; intros Hl; [by apply hoare_ret|]. cbn.
  eapply hoare_bind; [apply Hl; by left|]. intros ?. apply IH. intros y Hy. apply Hl. by right.
Qed.

End logic.
Abbreviation keeps P m := (hoare P%function m (λ _, P%function)).

(** ** Accesses to the tables *)

Definition sql_hoare {B} (I : Db → Prop) (m : Sql B) (Q : option B → Db → Prop) : Prop :=
  ∀ d n, I d → Q (m (d, n)).1 (m (d, n)).2.1.
Lemma sql_ret {B} (b : B) (I : Db → Prop) (Q : option B → Db → Prop) :
  (∀ d, I d → Q (Some b) d) → sql_hoare I (mret b) Q.
Proof. intros HQ d n HI. by apply HQ. Qed.
Lemma sql_bind {B C} (m : Sql B) (f : B → Sql C) I Q R :
  sql_hoare I m Q → (∀ b, sql_hoare (Q (Some b)) (f b) R) → (∀ d, Q None d → R None d) →
  sql_hoare I (m ≫= f) R.
Proof.
  intros Hm Hf HN d n HI. unfold mbind, Sql_bind. specialize (Hm d n HI).
  destruct (m (d, n)) as [[b|] [d' n']]; [by apply Hf|by apply HN].
Qed.
Lemma sql_statement {B} ok (f : Db → B * Db) (I : Db → Prop) (Q : option B → Db → Prop) :
  (∀ d, I d → Q (Some (f d).1) (f d).2) → (∀ d n, I d → ok n = false → Q None d) → sql_hoare I (statement ok f) Q.
Proof.
  intros Hf HN d n HI. unfold statement. specialize (Hf d HI). specialize (HN d n HI).
  destruct (ok n); [|auto]. by destruct (f d).
Qed.
Lemma sql_mono {B} (m : Sql B) (I I' : Db → Prop) (Q Q' : option B → Db → Prop) :
  sql_hoare I m Q → (∀ d, I' d → I d) → (∀ b d, Q b d → Q' b d) → sql_hoare I' m Q'.
Proof. intros Hm HI HQ d n Hd. apply HQ, Hm, HI, Hd. Qed.

(** What every access leaves alone. *)
Abbreviation sql_keeps I m := (sql_hoare I%function m (λ _, I%function)).
Lemma sql_keeps_bind {B C} (m : Sql B) (f : B → Sql C) I :
  sql_keeps I m → (∀ b, sql_keeps I (f b)) → sql_keeps I (m ≫= f).
Proof. intros Hm Hf. by eapply sql_bind. Qed.
Lemma keeps_update ok f (I : Db → Prop) : (∀ d, I d → I (f d)) → sql_keeps I (update ok f).
Proof. intros Hf. apply sql_statement; auto. Qed.
Lemma keeps_select {B} ok (f : Db → B) I : sql_keeps I (select ok f).
Proof. apply sql_statement; auto. Qed.
Lemma keeps_transaction {B} (m : Sql B) I : sql_keeps I m → sql_keeps I (transaction m).
Proof.
  intros Hm d n HI. unfold transaction. specialize (Hm d n HI). by destruct (m (d, n)) as [[b|] [d' n']].
Qed.
Lemma sql_keeps_each {B} (f : B → Sql unit) l (I : Db → Prop) :
  (∀ x, x ∈ l → sql_keeps I (f x)) → sql_keeps I (each f l).
Proof.
  induction l as [|x l IH]; intros Hl; [by apply sql_ret|]. cbn.
  eapply sql_bind; [apply Hl; by left| |done]. intros ?. apply IH. intros y Hy. apply Hl. by right.
Qed.

(** ** The host *)

(** Facts about what was done, the metadata, the tables and the running call. *)
Abbreviation Fact :=
  (list Did → gmap Ed2kHash (option AniDbMetadata) → option Db → option CurationJob → Prop) (only parsing).
(** What most accesses do to the tables the facts are about: a series may be queued. *)
Definition extends (d d' : Db) : Prop := db_curated d' = db_curated d ∧ db_anime d ⊆ db_anime d'.
#[export] Instance extends_preorder : PreOrder extends.
Proof. split; [done|]. intros d1 d2 d3 [? ?] [? ?]. split; [congruence|by etransitivity]. Qed.
Lemma same_tables_extends d d' : same_tables d d' → extends d d'.
Proof. intros (_ & Ha & _ & Hc). split; [done|]. by rewrite Ha. Qed.
Definition stable `{K : Kept} (Φ : Fact) : Prop := ∀ tr md md' db db' j,
  replaces K md md' → option_Forall2 extends db db' → Φ tr md db j → Φ tr md' db' j.

Section host.
Context {H A : Type} `{!AniDbHost H, !LawfulHost H, !AniDbApi A, K : Kept} (U : Outside H).
Context (others_quiet : ∀ n, quiet K (os_others U n)).
Abbreviation WorkerM := (Sec (Worker H A) Did).
Implicit Types (Φ : Fact).

Definition on Φ (tr : list Did) (w : Worker H A) : Prop :=
  host_ok (wk_host w) ∧ Φ tr (host_metadata (wk_host w)) (host_db (wk_host w)) (wk_job w).

Lemma on_mono Φ Φ' tr w : (∀ tr md db j, Φ tr md db j → Φ' tr md db j) → on Φ tr w → on Φ' tr w.
Proof. intros HΦ [? ?]. split; auto. Qed.

(** A change of the bookkeeping of a turn. *)
Lemma keeps_turn f Φ :
  (∀ w : Worker H A, wk_host (f w) = wk_host w ∧ wk_job (f w) = wk_job w) → keeps (on Φ) (smodify f).
Proof. intros Hf. apply hoare_modify. intros tr w Hw. unfold on. by destruct (Hf w) as [-> ->]. Qed.
Lemma keeps_outside {B} (f : nat → B) Φ : keeps (on Φ) (outside (A:=A) f).
Proof.
  unfold outside. eapply hoare_bind; [apply hoare_read|]. intros n.
  eapply hoare_bind; [by apply keeps_turn|]. intros ?. by apply hoare_ret.
Qed.
(** A step of the host. *)
Lemma hoare_host (f : H → H) Φ Ψ :
  (∀ tr h j, host_ok h → Φ tr (host_metadata h) (host_db h) j →
     host_ok (f h) ∧ Ψ tr (host_metadata (f h)) (host_db (f h)) j) →
  hoare (on Φ) (smodify (λ w : Worker H A, set_host (f (wk_host w)) w)) (λ _, on Ψ).
Proof. intros Hf. apply hoare_modify. intros tr w [? ?]. by apply Hf. Qed.
Lemma extends_refl_db (db : option Db) : option_Forall2 extends db db.
Proof. destruct db; by constructor. Qed.
Lemma keeps_meanwhile Φ : stable Φ → keeps (on Φ) (meanwhile (A:=A) U).
Proof using others_quiet.
  intros HΦ. unfold meanwhile, outside. eapply hoare_bind.
  { eapply hoare_bind; [apply hoare_read|]. intros n.
    eapply hoare_bind; [by apply keeps_turn|]. intros ?.
    apply (hoare_ret _ _ (λ f tr w, on Φ tr w ∧ ∃ n, f = os_others U n)). eauto. }
  intros f. cbv beta. apply hoare_pure. intros [n ->]. apply hoare_host. intros tr h j Hok Hp.
  destruct (others_quiet n h Hok) as (? & Hmd & Hdb). split; [done|]. eapply HΦ; [exact Hmd| |exact Hp].
  destruct Hdb; constructor; by apply same_tables_extends.
Qed.
Lemma hoare_on_host f Φ Ψ :
  stable Φ →
  (∀ tr h j, host_ok h → Φ tr (host_metadata h) (host_db h) j →
     host_ok (f h) ∧ Ψ tr (host_metadata (f h)) (host_db (f h)) j) →
  hoare (on Φ) (on_host (A:=A) U f) (λ _, on Ψ).
Proof using others_quiet.
  intros HΦ Hf. unfold on_host. eapply hoare_bind; [by apply keeps_meanwhile|]. intros ?. by apply hoare_host.
Qed.
Lemma hoare_now Φ :
  stable Φ → hoare (on Φ) (worker_now (A:=A) U) (λ t tr w, on Φ tr w ∧ ∃ h, t = (host_now h).1).
Proof using others_quiet.
  intros HΦ. unfold worker_now. eapply hoare_bind; [by apply keeps_meanwhile|]. intros [].
  intros tr w t0 w' o [Hok Hp] Hrun. unfold mbind, Sec_bind, sget in Hrun.
  destruct (host_now_ok (wk_host w) Hok) as (Hok' & Hmd & Hdb).
  destruct (host_now (wk_host w)) as [t h] eqn:E. cbn in *. injection Hrun as <- <- <-.
  split; [|exists (wk_host w); by rewrite E]. split; cbn; [done|]. by rewrite app_nil_r, Hmd, Hdb.
Qed.
Lemma hoare_view Φ :
  stable Φ → hoare (on Φ) (worker_view (A:=A) U)
    (λ v tr w, on Φ tr w ∧ v_anidb_metadata v = host_metadata (wk_host w)).
Proof using others_quiet.
  intros HΦ. unfold worker_view. eapply hoare_bind; [by apply keeps_meanwhile|]. intros [].
  intros tr w v w' o [Hok Hp] Hrun. unfold mbind, Sec_bind, sget, sof_option in Hrun.
  destruct (host_view (wk_host w)) as [v'|] eqn:E; [|done]. cbn in Hrun. injection Hrun as <- <- <-.
  rewrite app_nil_r. split; [done|]. by apply host_view_metadata.
Qed.
Lemma keeps_write_relations s r Φ : stable Φ → keeps (on Φ) (write_relations (A:=A) U s r).
Proof using others_quiet.
  intros HΦ. apply hoare_on_host; [done|]. intros tr h j Hok Hp.
  destruct (host_write_relations_ok h s r Hok) as (? & -> & ->). done.
Qed.
Lemma keeps_write_catalog hash e Φ : stable Φ → keeps (on Φ) (write_catalog (A:=A) U hash e).
Proof using others_quiet.
  intros HΦ. apply hoare_on_host; [done|]. intros tr h j Hok Hp.
  destruct (host_write_catalog_ok h hash e Hok) as (? & -> & ->). done.
Qed.
Lemma hoare_write_metadata hash m Φ Ψ :
  stable Φ →
  (∀ tr md db j, Φ tr md db j → Ψ tr md db j ∧ Ψ tr (<[hash := Some m]> md) db j) →
  hoare (on Φ) (write_metadata (A:=A) U hash m) (λ _, on Ψ).
Proof using others_quiet.
  intros HΦ HΨ. apply hoare_on_host; [done|]. intros tr h j Hok Hp.
  destruct (host_write_metadata_ok h hash m Hok) as (? & -> & [-> | ->]); split; try done; by apply HΨ.
Qed.

(** An access to the tables. *)
Lemma hoare_store {B} (m : Sql B) Φ (Ψ : option B → Fact) :
  stable Φ →
  (∀ tr md j, sql_hoare (λ d, Φ tr md (Some d) j) m (λ b d, Ψ b tr md (Some d) j)) →
  (∀ tr md j, Φ tr md None j → Ψ None tr md None j) →
  hoare (on Φ) (store (A:=A) U m) (λ b, on (Ψ b)).
Proof using others_quiet.
  intros HΦ Hm HN. unfold store. eapply hoare_bind; [by apply keeps_meanwhile|]. intros [].
  intros tr w b w' o [Hok Hp] Hrun. unfold mbind, Sec_bind, sget, id in Hrun.
  destruct (host_db (wk_host w)) as [d|] eqn:Hd.
  - specialize (Hm tr (host_metadata (wk_host w)) (wk_job w) d (wk_reads w) Hp).
    destruct (m (d, wk_reads w)) as [r [d' n]] eqn:E. cbn in Hrun, Hm. injection Hrun as <- <- <-.
    destruct (host_put_db_ok (wk_host w) d d' Hok Hd) as (? & Hd' & Hmd).
    rewrite app_nil_r. split; cbn; [done|]. by rewrite Hd', Hmd.
  - cbn in Hrun. injection Hrun as <- <- <-. rewrite app_nil_r. split; [done|]. rewrite Hd. by apply HN.
Qed.
Lemma keeps_store {B} (m : Sql B) Φ :
  stable Φ → (∀ d0, sql_keeps (extends d0) m) → keeps (on Φ) (store (A:=A) U m).
Proof using others_quiet.
  intros HΦ Hm. apply (hoare_store _ _ (λ _, Φ)); [done| |done]. intros tr md j d n Hp.
  eapply HΦ; [reflexivity| |exact Hp]. constructor. by apply (Hm d).
Qed.
End host.

(** ** What accesses leave alone *)

Lemma extends_lookups d d' f : extends d d' → extends d (put_lookups f d').
Proof. done. Qed.
Create HintDb extending discriminated.
Section accesses.
Context (ok : nat → bool) (d0 : Db).
Lemma extends_enqueue_lookup info now : sql_keeps (extends d0) (enqueue_lookup ok info now).
Proof. by apply keeps_update. Qed.
Lemma extends_record_lookup hash t n g : sql_keeps (extends d0) (record_lookup_attempt ok hash t n g).
Proof. by apply keeps_update. Qed.
Lemma extends_rearm_lookups present now : sql_keeps (extends d0) (rearm_settled_without_metadata ok present now).
Proof.
  eapply sql_bind; [apply keeps_select| |done]. intros l. cbn beta.
  eapply sql_bind; [apply sql_keeps_each; intros ? ?; by apply keeps_update| |done]. intros ?. by apply sql_ret.
Qed.
Lemma extends_enqueue_anime s now : sql_keeps (extends d0) (enqueue_anime ok s now).
Proof.
  apply keeps_update. intros d [Hc Ha]. destruct (db_anime d !! s) eqn:E; [done|]. split; [done|].
  cbn. etransitivity; [exact Ha|]. by apply insert_subseteq.
Qed.
Lemma extends_replace_titles rows : sql_keeps (extends d0) (replace_titles ok rows).
Proof.
  apply keeps_transaction. eapply sql_bind; [by apply keeps_update| |done]. intros ?.
  apply sql_keeps_each. intros ? ?. by apply keeps_update.
Qed.
Lemma extends_kv_set k x : sql_keeps (extends d0) (kv_set ok k x).
Proof. by apply keeps_update. Qed.
End accesses.
#[export] Hint Resolve extends_enqueue_lookup extends_record_lookup extends_rearm_lookups extends_enqueue_anime
  extends_replace_titles extends_kv_set keeps_select sql_keeps_each : extending.
