(* ===== verification/AniDbWorkerCorrect.v ===== *)
(** * What the AniDB worker promises

    Whatever AniDB, the model and the other tasks of the server do, and for any host
    that keeps its promise ([LawfulHost]): real metadata are never lost to a guess; a
    series AniDB has answered about is never asked about again; the model is asked
    about a series a bounded number of times. *)

From S2P Require Import Prelude Text Types TimeSync Conc View AniDb AniDbClient AniDbQueue AniDbWorker AniDbWorkerLogic.

(** ** Facts a turn keeps *)

Definition idle (e : Did) : Prop := match e with AskedFile _ | Slept _ | Stopped => True | _ => False end.

Record closed `{K : Kept} (Φ : Fact) : Prop := {
  cl_stable : stable Φ;
  cl_kept tr md db j : Φ tr md db j → ∀ hash, K hash → has_real md hash;
  cl_idle tr md db j e : idle e → Φ tr md db j → Φ (tr ++ [e]) md db j
}.

(** The series is due. *)
Definition due_series (now : Z) (s : AniDbSeriesId) (db : option Db) : Prop :=
  ∀ d, db = Some d → ∃ r, db_anime d !! s = Some r ∧ an_next_attempt r ≤ i64_wrap now.
Definition when_due (Φ : Fact) (now : Z) (s : AniDbSeriesId) : Fact := λ tr md db j, Φ tr md db j ∧ due_series now s db.
Lemma stable_due `{K : Kept} Φ now s : stable Φ → stable (when_due Φ now s).
Proof.
  intros HΦ tr md md' db db' j Hmd Hdb [? Hdue]. split; [by eapply HΦ|]. intros d' ->. inversion Hdb as [d ? [_ Ha]|]; subst.
  destruct (Hdue d eq_refl) as (r & Hr & Hle). exists r. split; [by eapply lookup_weaken|done].
Qed.

Lemma due_rows_sound `{Countable K, Ord K} {R} (next : R → Z) now limit (m : gmap K R) k r :
  (k, r) ∈ due_rows next now limit m → m !! k = Some r ∧ next r ≤ now.
Proof.
  unfold due_rows. intros Hin%elem_of_take. destruct Hin as (i & Hin & _). apply list_elem_of_lookup_2 in Hin.
  rewrite sort_by_perm, list_elem_of_filter in Hin. destruct Hin as [Hle Hin].
  split; [by apply elem_of_map_to_list|done].
Qed.

Section pass.
Context {H A : Type} `{!AniDbHost H, !LawfulHost H, !AniDbApi A, K : Kept} (U : Outside H) (curator : bool).
Context (others_quiet : ∀ n, quiet K (os_others U n)).
Abbreviation WorkerM := (Sec (Worker H A) Did).
Implicit Types (Φ : Fact).

Lemma keeps_asks {B} (f : A → (Failure + B) * A) Φ : stable Φ → keeps (on Φ) (asks (H:=H) U f).
Proof using others_quiet.
  intros HΦ. unfold asks. eapply hoare_bind; [apply hoare_read|]. intros [r a].
  eapply hoare_bind; [by apply keeps_turn|]. intros [].
  eapply hoare_bind; [by apply keeps_meanwhile|]. intros [].
  destruct r as [[e|]|x]; [by apply hoare_ret| |by apply hoare_ret].
  intros tr w b w' o Hp Hrun. done.
Qed.

Lemma keeps_seed_queues v now Φ : stable Φ → keeps (on Φ) (seed_queues (A:=A) U v now).
Proof using others_quiet.
  intros HΦ. unfold seed_queues. eapply hoare_bind; [apply keeps_store; [done..|]|intros ?; by apply hoare_ret].
  intros d0. apply sql_keeps_bind.
  - apply sql_keeps_each. auto with extending.
  - intros ?. apply sql_keeps_each. auto with extending.
Qed.
Lemma keeps_populate_catalog v Φ : stable Φ → keeps (on Φ) (populate_catalog (A:=A) U v).
Proof using others_quiet.
  intros HΦ. apply keeps_for. intros info _. destruct (v_file_catalog v !! _); [by apply hoare_ret|].
  by apply keeps_write_catalog.
Qed.

(** A write about a file that the view does not show as real, or one that is real. *)
Lemma replaces_insert md hash m : ¬ K hash ∨ real m → replaces K md (<[hash := Some m]> md).
Proof.
  intros Hm hash' Hk Hr. destruct (decide (hash' = hash)) as [->|].
  - destruct Hm as [?|?]; [done|]. exists m. by rewrite lookup_insert_eq.
  - unfold has_real. by rewrite lookup_insert_ne.
Qed.
Lemma keeps_write hash m Φ : closed Φ → ¬ K hash ∨ real m → keeps (on Φ) (write_metadata (A:=A) U hash m).
Proof using others_quiet.
  intros HΦ Hm. apply hoare_write_metadata; [done|by apply cl_stable|]. intros tr md db j Hp. split; [done|].
  eapply cl_stable; [done|by apply replaces_insert|apply extends_refl_db|exact Hp].
Qed.
(** The view, in which the files kept are real. *)
Definition shows (v : StateView) : Prop := ∀ hash, K hash → has_real (v_anidb_metadata v) hash.
Lemma hoare_shown Φ : closed Φ → hoare (on Φ) (worker_view (A:=A) U) (λ v tr w, on Φ tr w ∧ shows v).
Proof using others_quiet.
  intros HΦ. eapply hoare_mono; [by apply hoare_view, cl_stable|done|]. intros v tr w [[? Hp] Hv]. split; [done|].
  intros hash Hk. rewrite Hv. by eapply cl_kept.
Qed.
Lemma not_shown v hash : shows v → ¬ has_real (v_anidb_metadata v) hash → ¬ K hash.
Proof. intros Hv Hn Hk. by apply Hn, Hv. Qed.
Lemma keeps_apply_series_hints v Φ : closed Φ → shows v → keeps (on Φ) (apply_series_hints (A:=A) U v).
Proof using others_quiet.
  intros HΦ Hv. unfold apply_series_hints.
  eapply hoare_bind; [apply keeps_store; [done|by apply cl_stable|intros d0; apply keeps_select]|].
  intros [hints|]; [|by apply hoare_ret]. apply keeps_for. intros [hash hint] _. unfold apply_series_hint.
  case_decide; [by apply hoare_ret|]. destruct (v_anidb_metadata v !! hash) as [[meta|]|] eqn:E; try by apply hoare_ret.
  case_decide as Hd; [|by apply hoare_ret]. destruct Hd as [Hsrc _]. apply keeps_write; [done|]. left.
  apply (not_shown v); [done|]. intros (m & Hm & Hr). unfold real in Hr. rewrite E in Hm. simplify_eq. congruence.
Qed.

Lemma keeps_lookup_file now entry Φ : closed Φ → keeps (on Φ) (lookup_file U now entry).
Proof using others_quiet.
  intros HΦ. pose proof (cl_stable _ HΦ) as Hs. unfold lookup_file.
  assert (∀ hash t n g, keeps (on Φ) (store (A:=A) U (record_lookup_attempt (os_sql U) hash t n g))) as Hrec.
  { intros. apply keeps_store; [done..|]. auto with extending. }
  eapply hoare_bind.
  { apply (hoare_emit _ _ (λ _, on Φ)). intros tr w [? Hp]. split; [done|]. by apply cl_idle. }
  intros []. eapply hoare_bind; [by apply keeps_asks|]. intros [[|millis|reason]|[file|]].
  - apply keeps_then; [apply Hrec|]. intros ?. by apply hoare_ret.
  - by apply hoare_ret.
  - by apply hoare_ret.
  - apply keeps_then; [|intros []; apply keeps_then; [apply Hrec|]; intros ?; by apply hoare_ret].
    apply keeps_write; [done|by right].
  - eapply hoare_bind; [by apply hoare_shown|]. intros v. cbv beta. apply hoare_pure. intros Hv.
    apply keeps_then; [|intros []; apply keeps_then; [apply Hrec|]; intros ?; by apply hoare_ret].
    assert (∀ m, (∀ m', v_anidb_metadata v !! fhi_hash (qe_info entry) ≠ Some (Some m')) →
      keeps (on Φ) (write_metadata (A:=A) U (fhi_hash (qe_info entry)) m)) as Hguess.
    { intros m Hn. apply keeps_write; [done|]. left. apply (not_shown v); [done|]. intros (m' & Hm' & _). by eapply Hn. }
    destruct (v_anidb_metadata v !! _) as [[meta|]|] eqn:E; [by apply hoare_ret| |]; by apply Hguess.
Qed.

Lemma keeps_refresh_titles now Φ : stable Φ → keeps (on Φ) (refresh_titles_if_due (A:=A) U now).
Proof using others_quiet.
  intros HΦ. unfold refresh_titles_if_due. apply keeps_then; [apply hoare_read|]. intros due.
  destruct (now <? due); [by apply hoare_ret|].
  apply keeps_then; [apply keeps_store; [done..|]; intros d0; apply keeps_select|]. intros stored.
  case_match; [by apply keeps_turn|]. apply keeps_then; [apply keeps_outside|]. intros [dump|]; [|by apply keeps_turn].
  destruct (parse_dump dump); [by apply keeps_turn|].
  apply keeps_then; [|intros ?; by apply keeps_turn]. apply keeps_store; [done..|]. intros d0.
  apply sql_keeps_bind; auto with extending.
Qed.

(** Facts curation has no say in, and facts the series queue has no say in. *)
Record no_curation Φ : Prop := {
  nc_stable : stable Φ;
  nc_curated tr md d j c : Φ tr md (Some d) j → Φ tr md (Some (put_curated c d)) j;
  nc_job tr md db j j' : Φ tr md db j → Φ tr md db j';
  nc_asked tr md db j l : Φ tr md db j → Φ (tr ++ [AskedModel l]) md db j;
  nc_returned tr md db j l r : Φ tr md db j → Φ (tr ++ [Returned l r]) md db j
}.
Record no_anime Φ : Prop := {
  na_stable : stable Φ;
  na_anime tr md d j a : Φ tr md (Some d) j → Φ tr md (Some (put_anime a d)) j;
  na_asked tr md db j s : Φ tr md db j → Φ (tr ++ [AskedAnime s]) md db j;
  na_answered tr md db j s : Φ tr md db j → Φ (tr ++ [AnsweredAnime s]) md db j
}.

Lemma keeps_store_select {B} (f : Db → B) Φ : stable Φ → keeps (on Φ) (store (A:=A) U (select (os_sql U) f)).
Proof using others_quiet. intros HΦ. apply keeps_store; [done..|]. intros d0. apply keeps_select. Qed.
Lemma keeps_store_fact {B} (m : Sql B) Φ :
  stable Φ → (∀ tr md j, sql_keeps (λ d, Φ tr md (Some d) j) m) → keeps (on Φ) (store (A:=A) U m).
Proof using others_quiet. intros HΦ Hm. by apply (hoare_store U others_quiet m Φ (λ _, Φ)). Qed.
Lemma keeps_emit e Φ : (∀ tr md db j, Φ tr md db j → Φ (tr ++ [e]) md db j) → keeps (on (A:=A) Φ) (semit e).
Proof. intros He. apply hoare_emit. intros tr w [? ?]. split; auto. Qed.
Lemma keeps_set_job job Φ : (∀ tr md db j, Φ tr md db j → Φ tr md db job) → keeps (on (A:=A) Φ) (smodify (set_job job)).
Proof. intros Hj. apply hoare_modify. intros tr w [? ?]. split; [done|]. eapply Hj. done. Qed.

Lemma keeps_reconcile_relations v cache Φ : stable Φ → keeps (on Φ) (reconcile_relations (A:=A) U v cache).
Proof using others_quiet.
  intros HΦ. apply keeps_for. intros [s rels] _. destruct (cache !! s); [|by apply hoare_ret]. cbv zeta.
  case_decide; [by apply keeps_write_relations|by apply hoare_ret].
Qed.
Lemma keeps_harvest_nc job now Φ : no_curation Φ → keeps (on Φ) (harvest_curation (A:=A) U job now).
Proof using others_quiet.
  intros HΦ. pose proof (nc_stable _ HΦ) as Hs. unfold harvest_curation.
  assert (∀ f, (∀ d, ∃ c, f d = put_curated c d) → ∀ tr md j,
    sql_keeps (λ d, Φ tr md (Some d) j) (update (os_sql U) f)) as Hput.
  { intros f Hf tr md j. apply keeps_update. intros d Hd. destruct (Hf d) as [c ->]. by apply nc_curated. }
  apply keeps_then; [apply keeps_outside|]. intros outcome.
  apply keeps_then; [apply keeps_emit; intros ????; by apply nc_returned|]. intros ?. apply keeps_then.
  - destruct outcome as [answers| | |]; try (apply keeps_then; [by apply keeps_turn|intros ?; by apply hoare_ret]).
    destruct (split_answers (cj_asked job) answers) as [answered unanswered].
    apply keeps_then; [|intros ?; apply keeps_then; [|intros ?; by apply hoare_ret]].
    + apply keeps_store_fact; [done|]. intros tr md j. apply sql_keeps_each. intros [s short] _. apply Hput. by eexists.
    + apply hoare_when. intros _. by apply keeps_turn.
  - intros unanswered. apply hoare_when. intros _. apply keeps_then; [|intros ?; by apply hoare_ret].
    apply keeps_store_fact; [done|]. intros tr md j. apply keeps_transaction.
    induction unanswered as [|s l IH]; [by apply sql_ret|]. cbn.
    apply sql_keeps_bind; [apply Hput; by eexists|]. intros ?. apply sql_keeps_bind.
    + apply sql_statement; [|done]. intros d Hd. unfold settle_exhausted. repeat case_match; cbn; try done.
      by apply nc_curated.
    + intros ?. apply sql_keeps_bind; [exact IH|]. intros ?. by apply sql_ret.
Qed.
Lemma keeps_fill_batch room cs Φ : stable Φ → keeps (on Φ) (fill_batch (A:=A) U room cs).
Proof using others_quiet.
  intros HΦ. revert room. induction cs as [|s cs IH]; intros room; [by apply hoare_ret|].
  destruct room as [|fewer]; [by apply hoare_ret|]. cbn [fill_batch].
  apply keeps_then; [by apply keeps_store_select|]. intros [[|row rows]|]; [apply IH| |apply IH].
  apply keeps_then; [apply IH|]. intros ?. by apply hoare_ret.
Qed.
Lemma keeps_launch_nc v cache now Φ : no_curation Φ → keeps (on Φ) (launch_curation (A:=A) U curator v cache now).
Proof using others_quiet.
  intros HΦ. pose proof (nc_stable _ HΦ) as Hs. unfold launch_curation.
  apply keeps_then; [apply hoare_read|]. intros w. case_match; [|by apply hoare_ret].
  apply keeps_then; [by apply keeps_store_select|]. intros [[token|]|]; try by apply hoare_ret.
  apply keeps_then; [by apply keeps_store_select|]. intros [[]|]; try by apply hoare_ret.
  apply keeps_then; [by apply keeps_fill_batch|]. intros batch. cbv zeta. case_decide; [by apply hoare_ret|].
  apply keeps_then; [apply keeps_emit; intros ????; by apply nc_asked|]. intros ?.
  apply keeps_set_job. intros ????. by apply nc_job.
Qed.
Lemma keeps_curate_nc v now Φ : no_curation Φ → keeps (on Φ) (curate_short_titles (A:=A) U curator v now).
Proof using others_quiet.
  intros HΦ. pose proof (nc_stable _ HΦ) as Hs. unfold curate_short_titles.
  apply keeps_then; [apply hoare_read|]. intros job. apply keeps_then.
  - destruct job as [job|]; [|by apply hoare_ret]. apply keeps_then; [apply keeps_outside|]. intros []; [|by apply hoare_ret].
    apply keeps_then; [apply keeps_set_job; intros ????; by apply nc_job|]. intros ?. by apply keeps_harvest_nc.
  - intros ?. apply keeps_then; [by apply keeps_store_select|]. intros [cache|]; [|by apply hoare_ret].
    apply keeps_then; [by apply keeps_reconcile_relations|]. intros ?. by apply keeps_launch_nc.
Qed.

Lemma keeps_lookup_anime_na now s Φ : no_anime Φ → keeps (on Φ) (lookup_anime U now s).
Proof using others_quiet.
  intros HΦ. pose proof (na_stable _ HΦ) as Hs. unfold lookup_anime.
  assert (∀ s t n tr md j, sql_keeps (λ d, Φ tr md (Some d) j) (record_anime_attempt (os_sql U) s t n)) as Hrec.
  { intros. apply keeps_update. intros d. by apply na_anime. }
  apply keeps_then; [apply keeps_emit; intros ????; by apply na_asked|]. intros ?.
  apply keeps_then; [by apply keeps_asks|]. intros [[|millis|reason]|[anime|]]; try by apply hoare_ret.
  - apply keeps_then; [by apply keeps_store_fact|]. intros ?. by apply hoare_ret.
  - apply keeps_then; [apply keeps_emit; intros ????; by apply na_answered|]. intros ?.
    apply keeps_then; [by apply keeps_store_select|]. intros short.
    apply keeps_then; [by apply keeps_write_relations|]. intros ?.
    eapply hoare_bind; [by apply hoare_view|]. intros v. cbv beta. apply (hoare_weaken (on Φ)).
    apply keeps_then; [|intros ?; by apply hoare_ret]. apply keeps_store_fact; [done|]. intros tr md j.
    apply sql_keeps_bind; [apply Hrec|]. intros ?. apply sql_keeps_each. intros x _. apply keeps_update. intros d Hd.
    case_match; [done|]. by apply na_anime.
  - apply keeps_then; [apply keeps_emit; intros ????; by apply na_answered|]. intros ?.
    apply keeps_then; [by apply keeps_store_fact|]. intros ?. by apply hoare_ret.
Qed.

(** ** The loop *)

Section turn.
Context (C : Z → Prop) (clock_C : ∀ h : H, C (host_now h).1) (Φ : Fact) (HΦ : closed Φ).
Context (curate_keeps : ∀ v now, keeps (on Φ) (curate_short_titles (A:=A) U curator v now)).
Context (anime_keeps : ∀ now s, C now → hoare (on (when_due Φ now s)) (lookup_anime (A:=A) U now s) (λ _, on Φ)).

Lemma keeps_step now : C now → keeps (on Φ) (step (A:=A) U now).
Proof using HΦ anime_keeps others_quiet.
  intros Hnow. pose proof (cl_stable _ HΦ) as Hs. unfold step.
  apply keeps_then; [by apply keeps_store_select|]. intros due. destruct (due ≫= last) as [entry|].
  { apply keeps_then; [by apply keeps_lookup_file|]. intros ?. by apply hoare_ret. }
  set (Ψ := λ (l : option (list AnimeQueueEntry)) tr md db j,
    Φ tr md db j ∧ ∀ l' e, l = Some l' → e ∈ l' → due_series now (aq_series e) db).
  eapply hoare_bind; [apply (hoare_store U others_quiet _ Φ Ψ); [done| |]|].
  - intros tr md j. apply sql_statement.
    + intros d Hd. split; [done|]. intros l' e [= <-] He d' [= <-]. apply list_elem_of_fmap in He as ([s r] & -> & Hin).
      apply due_rows_sound in Hin as [? ?]. by exists r.
    + intros d n Hd _. split; [done|]. by intros ? ? [=].
  - intros tr md j Hp. split; [done|]. by intros ? ? [=].
  - intros l. cbv beta. destruct (l ≫= last) as [e|] eqn:El.
    + apply (hoare_bind _ _ _ (λ _, on Φ)); [|intros ?; by apply hoare_ret].
      eapply hoare_mono; [by apply anime_keeps| |done]. intros tr w [Hok [Hp Hdue]]. split; [done|]. split; [done|].
      destruct l as [l|]; [|done]. cbn in El. eapply Hdue; [done|]. by apply last_Some_elem_of.
    + apply hoare_ret. intros tr w [Hok [Hp _]]. by split.
Qed.
Lemma keeps_pass : keeps (on Φ) (pass (A:=A) U curator).
Proof using HΦ anime_keeps others_quiet curate_keeps clock_C.
  pose proof (cl_stable _ HΦ) as Hs. unfold pass.
  eapply hoare_bind; [by apply hoare_now|]. intros now. cbv beta. apply hoare_pure. intros [h ->].
  pose proof (clock_C h) as Hnow. remember ((host_now h).1) as now eqn:En. clear En.
  apply keeps_then; [by apply keeps_refresh_titles|]. intros ?.
  eapply hoare_bind; [by apply hoare_shown|]. intros v. cbv beta. apply hoare_pure. intros Hv.
  apply keeps_then; [by apply keeps_seed_queues|]. intros ?. apply keeps_then; [by apply keeps_populate_catalog|]. intros ?.
  apply keeps_then; [by apply keeps_apply_series_hints|]. intros ?.
  apply keeps_then; [apply curate_keeps|]. intros ?. apply keeps_then; [by apply keeps_step|].
  assert (∀ e, idle e → keeps (on (A:=A) Φ) (semit e)) as Hidle.
  { intros e He. apply keeps_emit. intros tr md db j. by apply cl_idle. }
  intros [[|millis|reason]|[]]; try by apply hoare_ret.
  1,2: apply keeps_then; [by apply Hidle|intros ?; by apply hoare_ret].
  apply keeps_then; [by apply keeps_store_select|]. intros due. cbv zeta.
  apply keeps_then; [by apply Hidle|intros ?; by apply hoare_ret].
Qed.
Lemma keeps_passes n : keeps (on Φ) (passes (A:=A) U curator n).
Proof using HΦ anime_keeps others_quiet curate_keeps clock_C.
  induction n as [|n IH]; [by apply hoare_ret|]. cbn. apply keeps_then; [apply keeps_pass|].
  intros []; [exact IH|by apply hoare_ret].
Qed.
End turn.

(** A run that starts with a fact the start-up keeps. *)
Lemma run_keeps (C : Z → Prop) Φ Φ0 n :
  (∀ h : H, C (host_now h).1) → closed Φ →
  (∀ v now, keeps (on Φ) (curate_short_titles (A:=A) U curator v now)) →
  (∀ now s, C now → hoare (on (when_due Φ now s)) (lookup_anime (A:=A) U now s) (λ _, on Φ)) →
  hoare (on Φ0) (reconcile_settled_lookups (A:=A) U) (λ _, on Φ) →
  hoare (on Φ0) (worker_run (A:=A) U curator n) (λ _, on Φ).
Proof using others_quiet.
  intros HC HΦ Hcur Han H0. unfold worker_run. eapply hoare_bind; [exact H0|]. intros ?. by eapply keeps_passes.
Qed.
(** Start-up resets rows. *)
Lemma hoare_reconcile Φ Ψ :
  stable Φ →
  (∀ tr md j present now, sql_keeps (λ d, Φ tr md (Some d) j) (rearm_settled_anime_without_relations (os_sql U) present now)) →
  (∀ tr md j, sql_hoare (λ d, Φ tr md (Some d) j) (rearm_curation_give_ups (os_sql U)) (λ _ d, Ψ tr md (Some d) j)) →
  (∀ tr md j, Φ tr md None j → Ψ tr md None j) →
  hoare (on Φ) (reconcile_settled_lookups (A:=A) U) (λ _, on Ψ).
Proof using others_quiet.
  intros HΦ H1 H2 HN. unfold reconcile_settled_lookups. eapply hoare_bind; [by apply hoare_now|]. intros now. cbv beta.
  apply hoare_pure. intros _. eapply hoare_bind; [by apply hoare_view|]. intros v. cbv beta zeta.
  apply (hoare_weaken (on Φ)).
  eapply (hoare_bind _ _ _ (λ _, on Φ)); [apply keeps_store; [done..|]; intros d0; auto with extending|]. intros ?.
  eapply (hoare_bind _ _ _ (λ _, on Φ)); [by apply keeps_store_fact|]. intros ?.
  eapply (hoare_bind _ _ _ (λ _, on Ψ)); [by apply (hoare_store U others_quiet _ Φ (λ _, Ψ))|]. intros ?. by apply hoare_ret.
Qed.
Lemma keeps_reconcile Φ :
  stable Φ →
  (∀ tr md j present now, sql_keeps (λ d, Φ tr md (Some d) j) (rearm_settled_anime_without_relations (os_sql U) present now)) →
  (∀ tr md j, sql_keeps (λ d, Φ tr md (Some d) j) (rearm_curation_give_ups (os_sql U))) →
  keeps (on Φ) (reconcile_settled_lookups (A:=A) U).
Proof using others_quiet. intros HΦ H1 H2. by apply hoare_reconcile. Qed.
End pass.
