(* ===== verification/AniDbLadder.v ===== *)
(** * The ladder of a file AniDB does not know

    A row of the file queue over its life: what the worker records of its attempts
    ([lookup_file], as [file_lookup_recorded] shows) and what clients report in between.
    A file AniDB keeps not knowing is given up; one whose requests time out is not. *)

From S2P Require Import Prelude Text Types TimeSync Conc View AniDb AniDbClient AniDbQueue AniDbWorker AniDbWorkerLogic AniDbWorkerCorrect.

(** ** A row *)

(** The worker attempts a lookup, at an instant, with an outcome; a client reports the
    file, with the mtime it sees. *)
Inductive RowEvent := Attempted (at_ : Z) (outcome : Outcome) | Reported (info : FileHashInfo).
Definition anchor (r : LookupRow) : Z := effective_anchor (lr_first_seen r) (lr_mtime r).
Definition row_event (e : RowEvent) (r : LookupRow) : LookupRow :=
  match e with
  | Attempted t outcome =>
      attempted t (default NEVER (next_attempt t (anchor r) (lr_has_data r) outcome)) (match outcome with Data => true | _ => false end) r
  | Reported info => enqueue_lookup_row info 0 (Some r)
  end.
(** Attempts are made when the row is due, and AniDB never has data; instants and
    mtimes are far from the ends of an [i64]. *)
Definition event_fits (r : LookupRow) (e : RowEvent) : Prop :=
  match e with
  | Attempted t outcome => lr_next_attempt r ≤ t < 2 ^ 62 ∧ outcome ≠ Data
  | Reported info => ∀ m, fhi_mtime info = Some m → - 2 ^ 62 < m
  end.
Fixpoint life (r : LookupRow) (es : list RowEvent) : Prop :=
  match es with [] => True | e :: es => event_fits r e ∧ life (row_event e r) es end.
Fixpoint misses (es : list RowEvent) : nat :=
  match es with [] => 0 | Attempted _ NoData :: es => S (misses es) | _ :: es => misses es end.

(** How often a file of some age may still be asked for. *)
Definition asks_left (age : Z) : Z :=
  if age <? DAY then 140 + (DAY - 1 - age) / (30 * MINUTE)
  else if age <? WEEK then 68 + (WEEK - 1 - age) / (2 * HOUR)
  else if age <? 30 * DAY then 22 + (30 * DAY - 1 - age) / (12 * HOUR)
  else if age <? 90 * DAY then 2 + (90 * DAY - 1 - age) / (3 * DAY)
  else 1.
Lemma asks_left_step t anchor n : 0 ≤ t - anchor → -2 ^ 62 < anchor → t < 2 ^ 62 →
  next_attempt t anchor false NoData = Some n → ∀ t', n ≤ t' → asks_left (t' - anchor) + 1 ≤ asks_left (t - anchor).
Proof.
  intros H0 Ha Ht. unfold next_attempt, i64_saturating_sub, i64_wrap, i64_min, i64_max.
  replace (Z.max (-2 ^ 63) (Z.min (2 ^ 63 - 1) (t - anchor))) with (t - anchor) by lia.
  assert (∀ d, 0 ≤ d ≤ 3 * DAY → (t + d + 2 ^ 63) mod 2 ^ 64 - 2 ^ 63 = t + d) as Hw.
  { intros d Hd. unfold DAY, HOUR, MINUTE in Hd. rewrite Z.mod_small by lia. lia. }
  intros Hn t' Ht'.
  assert (∃ d, (if t - anchor <? DAY then d = 30 * MINUTE else if t - anchor <? WEEK then d = 2 * HOUR
    else if t - anchor <? 30 * DAY then d = 12 * HOUR else t - anchor < 90 * DAY ∧ d = 3 * DAY) ∧ t + d ≤ t') as (d & Hd & Hle).
  { unfold WEEK, DAY, HOUR, MINUTE in *. repeat case_match; try done; injection Hn as <-; rewrite Hw in Ht' by lia; eexists; (split; [|exact Ht']); lia. }
  clear Hn Hw. unfold asks_left, WEEK, DAY, HOUR, MINUTE in *.
  set (a := t - anchor) in *. assert (t' - anchor = a + (t' - t)) as -> by lia. set (k := t' - t) in *. assert (d ≤ k) by lia. clearbody a k. clear - H0 Hd H.
  repeat case_match; Z.to_euclidean_division_equations; lia.
Qed.

Lemma asks_left_mono a b : 0 ≤ a → a ≤ b → asks_left b ≤ asks_left a.
Proof. intros Ha Hb. unfold asks_left, WEEK, DAY, HOUR, MINUTE. repeat case_match; Z.to_euclidean_division_equations; lia. Qed.
Lemma asks_left_range a : 0 ≤ a → 1 ≤ asks_left a ≤ 187.
Proof. intros Ha. unfold asks_left, WEEK, DAY, HOUR, MINUTE. repeat case_match; Z.to_euclidean_division_equations; lia. Qed.

(** ** Over a life *)

Definition unknown (r : LookupRow) : Prop := lr_has_data r = false ∧ - 2 ^ 62 < anchor r ≤ lr_next_attempt r.
(** How often the row's file may still be asked for in vain. *)
Definition left (r : LookupRow) : Z := if 2 ^ 62 <=? lr_next_attempt r then 0 else asks_left (lr_next_attempt r - anchor r).

Lemma next_later t a o : - 2 ^ 62 < a ≤ t → t < 2 ^ 62 → o ≠ Data →
  t + TIMEOUT_RETRY_MILLIS ≤ default NEVER (next_attempt t a false o) ∧
  (o = NoData → 90 * DAY ≤ t - a → next_attempt t a false o = None) ∧
  (o = Timeout → next_attempt t a false o = Some (t + TIMEOUT_RETRY_MILLIS)).
Proof.
  intros Ha Ht Ho. assert (∀ d, 0 ≤ d ≤ 3 * DAY → i64_wrap (t + d) = t + d) as Hw.
  { intros d Hd. unfold i64_wrap, DAY, HOUR, MINUTE in *. rewrite Z.mod_small by lia. lia. }
  unfold next_attempt, TIMEOUT_RETRY_MILLIS, NEVER, i64_saturating_sub, i64_min, i64_max, WEEK, DAY, HOUR, MINUTE in *.
  destruct o; [done| |].
  - split_and!; [|intros _ H90; repeat case_match; try done; lia|done].
    repeat match goal with |- context [i64_wrap (t + ?d)] => rewrite (Hw d) by lia end. repeat case_match; simplify_eq/=; lia.
  - rewrite !Hw by lia. split_and!; [simpl; lia|done|done].
Qed.
Lemma unknown_event e r : event_fits r e → unknown r → unknown (row_event e r) ∧ lr_next_attempt r ≤ lr_next_attempt (row_event e r).
Proof.
  intros He (Hd & Ha). destruct e as [t o|info]; cbn in *.
  - destruct He as [Ht Ho]. destruct (next_later t (anchor r) o) as (Hn & _ & _); [lia|lia|done|].
    unfold unknown, anchor in *. cbn. rewrite Hd. unfold TIMEOUT_RETRY_MILLIS in Hn. cbn in *. split_and!; [by destruct o|lia..].
  - split; [|done]. unfold unknown, anchor, effective_anchor, older in *. cbn. split; [done|].
    destruct (fhi_mtime info) as [m|]; [specialize (He m eq_refl)|]; destruct (lr_mtime r); lia.
Qed.
Lemma left_event e r : event_fits r e → unknown r →
  left (row_event e r) + (match e with Attempted _ NoData => 1 | _ => 0 end) ≤ left r.
Proof.
  intros He Hu. pose proof (unknown_event e r He Hu) as [(Hd' & Ha') Hle]. destruct Hu as (Hd & Ha). unfold left.
  destruct e as [t o|info].
  - destruct He as [Ht Ho]. assert (anchor (row_event (Attempted t o) r) = anchor r) as Han by done. rewrite Han in *.
    assert ((2 ^ 62 <=? lr_next_attempt r) = false) as -> by lia.
    pose proof (asks_left_mono (lr_next_attempt r - anchor r) (t - anchor r) ltac:(lia) ltac:(lia)) as Hmono.
    pose proof (asks_left_range (t - anchor r) ltac:(lia)) as Hrange.
    assert (lr_next_attempt (row_event (Attempted t o) r) = default NEVER (next_attempt t (anchor r) false o)) as Hnext by (cbn; by rewrite Hd).
    rewrite Hnext in *. destruct o; [done| |].
    + destruct (next_attempt t (anchor r) false NoData) as [n|] eqn:En.
      2: { replace (2 ^ 62 <=? default NEVER None) with true by done. lia. }
      change (default NEVER (Some n)) with n in *.
      pose proof (asks_left_step t (anchor r) n ltac:(lia) ltac:(lia) ltac:(lia) En n ltac:(lia)). case_match; lia.
    + destruct (next_later t (anchor r) Timeout) as (_ & _ & E); [lia|lia|done|]. rewrite (E eq_refl). simpl default.
      pose proof (asks_left_mono (t - anchor r) (t + TIMEOUT_RETRY_MILLIS - anchor r) ltac:(lia) ltac:(unfold TIMEOUT_RETRY_MILLIS; lia)).
      case_match; lia.
  - assert (lr_next_attempt (row_event (Reported info) r) = lr_next_attempt r) as -> by done.
    assert (anchor (row_event (Reported info) r) ≤ anchor r) as Han.
    { unfold anchor, effective_anchor, older. cbn. destruct (fhi_mtime info), (lr_mtime r); simpl; lia. }
    case_match; [lia|]. pose proof (asks_left_mono (lr_next_attempt r - anchor r) (lr_next_attempt r - anchor (row_event (Reported info) r)) ltac:(lia) ltac:(lia)). lia.
Qed.
Lemma life_misses es : ∀ r, life r es → unknown r → Z.of_nat (misses es) ≤ left r.
Proof.
  induction es as [|e es IH]; intros r Hl Hu.
  - unfold left. case_match; [done|]. destruct Hu. pose proof (asks_left_range (lr_next_attempt r - anchor r) ltac:(lia)). cbn. lia.
  - destruct Hl as [He Hl]. destruct (unknown_event e r He Hu) as [Hu' _]. specialize (IH _ Hl Hu').
    pose proof (left_event e r He Hu) as Hs. destruct e as [t []|info]; cbn [misses]; lia.
Qed.
(** Attempts come when the row is due, whatever lies between. *)
Lemma life_later es : ∀ r t o, life r es → unknown r → Attempted t o ∈ es → lr_next_attempt r ≤ t < 2 ^ 62.
Proof.
  induction es as [|e es IH]; intros r t o Hl Hu Hin; [by apply not_elem_of_nil in Hin|].
  destruct Hl as [He Hl]. apply elem_of_cons in Hin as [<-|Hin]; [apply He|].
  destruct (unknown_event e r He Hu) as [Hu' Hle]. destruct (IH _ t o Hl Hu' Hin). lia.
Qed.
Lemma life_app e1 e2 : ∀ r, life r (e1 ++ e2) → unknown r →
  let r' := foldl (λ r e, row_event e r) r e1 in life r' e2 ∧ unknown r'.
Proof.
  induction e1 as [|e e1 IH]; intros r; [done|]. intros [He Hl] Hu. apply IH; [done|]. by apply (unknown_event e r).
Qed.

(** C35. A file that AniDB keeps not knowing is given up, whatever requests time out and
    whatever clients report of the file in between. However late the attempts run, AniDB
    says at most 187 times that it does not know the file; when it says so of a file that
    is ninety days old or more, no attempt follows. No attempt follows another within
    five seconds. Timeouts alone are retried for ever, at any age: they are not counted, and
    an attempt that ends in another error is not recorded at all. *)
Theorem unknown_file_dropped info now es : let r := enqueue_lookup_row info now None in
  - 2 ^ 62 < now → (∀ m, fhi_mtime info = Some m → - 2 ^ 62 < m) → life r es →
  (misses es ≤ 187)%nat ∧
  (∀ e1 t e2, es = e1 ++ Attempted t NoData :: e2 →
    90 * DAY ≤ t - anchor (foldl (λ r e, row_event e r) r e1) → ∀ t' o, Attempted t' o ∉ e2) ∧
  (∀ e1 t o e2 t' o', es = e1 ++ Attempted t o :: e2 → Attempted t' o' ∈ e2 → t + TIMEOUT_RETRY_MILLIS ≤ t').
Proof.
  intros r Hnow Hm Hl. assert (unknown r) as Hu.
  { unfold r, unknown, anchor, effective_anchor. cbn. split; [done|]. destruct (fhi_mtime info) as [m|]; [specialize (Hm m eq_refl)|]; lia. }
  assert (∀ e1 t o e2, es = e1 ++ Attempted t o :: e2 → let r1 := foldl (λ r e, row_event e r) r e1 in
    o ≠ Data ∧ - 2 ^ 62 < anchor r1 ≤ t ∧ t < 2 ^ 62 ∧
    ∀ t' o', Attempted t' o' ∈ e2 → default NEVER (next_attempt t (anchor r1) false o) ≤ t' < 2 ^ 62) as Hat.
  { intros e1 t o e2 -> r1. destruct (life_app e1 (Attempted t o :: e2) r Hl Hu) as [[He Hl2] Hu1]. fold r1 in He, Hl2, Hu1.
    destruct (unknown_event _ _ He Hu1) as [Hu2 _]. destruct Hu1 as [Hd Ha]. destruct He as [Ht Ho]. split_and!; [done|lia..|].
    intros t' o' Hin. pose proof (life_later e2 _ t' o' Hl2 Hu2 Hin) as H. cbn in H. by rewrite Hd in H. }
  split; [|split].
  - pose proof (life_misses es r Hl Hu) as H. unfold left in H. case_match; [lia|]. destruct Hu.
    pose proof (asks_left_range (lr_next_attempt r - anchor r) ltac:(lia)). lia.
  - intros e1 t e2 He H90 t' o' Hin. destruct (Hat e1 t NoData e2 He) as (Ho & Ha & Ht & Hlater).
    destruct (next_later t _ NoData Ha Ht Ho) as (_ & Hn & _). specialize (Hlater t' o' Hin). rewrite (Hn eq_refl H90) in Hlater.
    cbn in Hlater. unfold NEVER, i64_max in Hlater. lia.
  - intros e1 t o e2 t' o' He Hin. destruct (Hat e1 t o e2 He) as (Ho & Ha & Ht & Hlater).
    destruct (next_later t _ o Ha Ht Ho) as (Hn & _). specialize (Hlater t' o' Hin). lia.
Qed.

(** ** The worker writes such lives *)

Definition outcome_of (r : Failure + option FileResult) : option Outcome :=
  match r with
  | inr (Some _) => Some Data
  | inr None => Some NoData
  | inl (Failed LookupTimeout) => Some Timeout
  | inl _ => None
  end.

Section worker.
Context {H A : Type} `{!AniDbHost H, !LawfulHost H, !AniDbApi A, K : Kept} (U : Outside H).
Context (others_quiet : ∀ n, quiet K (os_others U n)) (sql_ok : ∀ n, os_sql U n = true).

(** The queue is [L]. *)
Definition queue_is (L : gmap Ed2kHash LookupRow) (tr : list Did) (w : Worker H A) : Prop :=
  host_ok (wk_host w) ∧ ∃ d, host_db (wk_host w) = Some d ∧ db_lookups d = L.
Lemma queue_host (f : H → H) L :
  (∀ h, host_ok h → host_ok (f h) ∧ option_Forall2 same_tables (host_db h) (host_db (f h))) →
  keeps (queue_is L) (smodify (λ w : Worker H A, set_host (f (wk_host w)) w)).
Proof.
  intros Hf. apply hoare_modify. intros tr w [Hok (d & Hd & HL)]. destruct (Hf _ Hok) as [Hok' Hdb]. split; [done|]. cbn.
  rewrite Hd in Hdb. inversion Hdb as [? d' (E & _)|]; subst. exists d'. by rewrite E.
Qed.
Lemma queue_meanwhile L : keeps (queue_is L) (meanwhile (A:=A) U).
Proof using others_quiet.
  unfold meanwhile, outside. eapply hoare_bind.
  { eapply hoare_bind; [apply hoare_read|]. intros n. eapply hoare_bind; [apply (hoare_modify _ _ (λ _, queue_is L)); intros tr w Hq; exact Hq|]. intros ?.
    apply (hoare_ret _ _ (λ f tr w, queue_is L tr w ∧ ∃ n, f = os_others U n)). eauto. }
  intros f. cbv beta. apply hoare_pure. intros [n ->]. apply queue_host. intros h Hok. by destruct (others_quiet n h Hok) as (? & _ & ?).
Qed.
Lemma queue_write hash m L : keeps (queue_is L) (write_metadata (A:=A) U hash m).
Proof using others_quiet.
  unfold write_metadata, on_host. eapply hoare_bind; [apply queue_meanwhile|]. intros ?. apply queue_host. intros h Hok.
  destruct (host_write_metadata_ok h hash m Hok) as (? & -> & _). split; [done|]. destruct (host_db h); by constructor.
Qed.
Lemma queue_view L : keeps (queue_is L) (worker_view (A:=A) U).
Proof using others_quiet.
  unfold worker_view. eapply hoare_bind; [apply queue_meanwhile|]. intros ?.
  eapply hoare_bind; [apply hoare_read|]. intros v.
  eapply hoare_mono; [apply hoare_of_option|done|]. by intros ? ? ? [? _].
Qed.
Lemma queue_record hash t n g L :
  hoare (queue_is L) (store (A:=A) U (record_lookup_attempt (os_sql U) hash t n g)) (λ _, queue_is (alter (attempted t n g) hash L)).
Proof using others_quiet sql_ok.
  unfold store. eapply hoare_bind; [apply queue_meanwhile|]. intros []. intros tr w b w' o [Hok (d & Hd & HL)] Hrun.
  unfold mbind, Sec_bind, sget, id in Hrun. rewrite Hd in Hrun. unfold record_lookup_attempt, update, statement in Hrun. rewrite sql_ok in Hrun.
  cbn in Hrun. injection Hrun as <- <- <-. rewrite app_nil_r.
  destruct (host_put_db_ok (wk_host w) d (put_lookups (alter (attempted t n g) hash (db_lookups d)) d) Hok Hd) as (? & Hd' & _).
  split; [done|]. eexists. split; [exact Hd'|]. cbn. by rewrite HL.
Qed.
Lemma queue_asks {B} (f : A → (Failure + B) * A) a L :
  hoare (λ tr w, queue_is L tr w ∧ wk_api w = a) (asks (H:=H) U f)
    (λ r tr w, queue_is L tr w ∧ match (f a).1 with inr x => r = inr x | inl (Failed e) => r = inl e | inl Panicked => False end).
Proof using others_quiet.
  unfold asks. eapply hoare_bind; [apply (hoare_get (λ w, f (wk_api w)))|]. intros [r a']. cbv beta.
  eapply (hoare_mono _ (λ tr w, queue_is L tr w ∧ (f a).1 = r)); [|intros tr w [[HL Ha] E]; rewrite Ha in E; by rewrite <-E|intros b tr w HQ; exact HQ].
  apply hoare_pure. intros ->. eapply hoare_bind; [apply (hoare_modify _ (queue_is L) (λ _, queue_is L)); intros tr w Hq; exact Hq|]. intros [].
  eapply hoare_bind; [apply queue_meanwhile|]. intros [].
  destruct r as [[e|]|x]; [by apply hoare_ret| |by apply hoare_ret]. intros tr w b w' o Hp Hrun. done.
Qed.

(** A lookup is an event of the row's life: what it records is [row_event]. *)
Theorem file_lookup_recorded now hash row L w r w' o :
  queue_is L [] w → L !! hash = Some row →
  lookup_file U now (queue_entry (hash, row)) w = Some (r, (w', o)) →
  queue_is (match outcome_of (api_file_by_hash (u64_wrap (lr_size_bytes row)) hash (wk_api w)).1 with
            | Some outcome => alter (row_event (Attempted (i64_wrap now) outcome)) hash L
            | None => L
            end) o w'.
Proof using others_quiet sql_ok.
  intros Hq Hrow Hrun. set (answer := (api_file_by_hash _ hash (wk_api w)).1).
  assert (∀ outcome, row_event (Attempted (i64_wrap now) outcome) row =
    attempted (i64_wrap now) (default NEVER (next_attempt (i64_wrap now) (anchor row) (match outcome with Data => true | _ => lr_has_data row end) outcome))
      (match outcome with Data => true | _ => false end) row) as Hev by by intros [].
  assert (∀ outcome, alter (row_event (Attempted (i64_wrap now) outcome)) hash L = alter (attempted (i64_wrap now)
    (default NEVER (next_attempt (i64_wrap now) (anchor row) (match outcome with Data => true | _ => lr_has_data row end) outcome))
    (match outcome with Data => true | _ => false end)) hash L) as Halter.
  { intros outcome. apply map_eq. intros k. destruct (decide (k = hash)) as [->|]; [|by rewrite !lookup_alter_ne].
    rewrite !lookup_alter_eq, Hrow. cbn [fmap option_fmap option_map]. by rewrite Hev. }
  assert (hoare (λ tr v, queue_is L tr v ∧ wk_api v = wk_api w) (lookup_file U now (queue_entry (hash, row)))
    (λ _, queue_is (match outcome_of answer with Some outcome => alter (row_event (Attempted (i64_wrap now) outcome)) hash L | None => L end))) as Hh;
    [|by apply (Hh [] w r w' o)].
  unfold lookup_file. eapply hoare_bind.
  { apply (hoare_emit _ _ (λ _ tr v, queue_is L tr v ∧ wk_api v = wk_api w)). by intros tr v. }
  intros []. eapply hoare_bind; [apply queue_asks|]. intros res. cbv beta. apply hoare_pure. cbn [queue_entry qe_info fhi_size fhi_hash qe_first_seen fhi_mtime qe_has_data].
  fold answer. destruct answer as [[e|]|x]; [intros ->|done|intros ->]; cbn [outcome_of].
  - destruct e as [|millis|reason]; [|by apply hoare_ret..]. rewrite Halter.
    eapply hoare_bind; [apply queue_record|]. intros ?. by apply hoare_ret.
  - destruct x as [file|]; rewrite Halter.
    + eapply hoare_bind; [apply queue_write|]. intros ?. eapply hoare_bind; [apply queue_record|]. intros ?. by apply hoare_ret.
    + eapply hoare_bind; [apply queue_view|]. intros v. eapply (hoare_bind _ _ _ (λ _, queue_is L)).
      * destruct (v_anidb_metadata v !! hash) as [[meta|]|]; [by apply hoare_ret|apply queue_write..].
      * intros ?. eapply hoare_bind; [apply queue_record|]. intros ?. by apply hoare_ret.
Qed.
End worker.

(** ** Instances *)

(** Unknown, then no reply; a client reports an old mtime; unknown again, and dropped. *)
Definition ex_file : FileHashInfo := mkFileHashInfo (mkEd2kHash [1]) 10 "a.mkv" None None.
Definition ex_life : list RowEvent :=
  [Attempted 0 NoData; Attempted (30 * MINUTE) Timeout; Reported (mkFileHashInfo (mkEd2kHash [1]) 10 "a.mkv" (Some (- 90 * DAY)) None);
   Attempted (2 * DAY) NoData].
Lemma unknown_file_dropped_witness : (misses ex_life ≤ 187)%nat ∧ 0 + TIMEOUT_RETRY_MILLIS ≤ 2 * DAY ∧ ∀ t' o, Attempted t' o ∉ [].
Proof.
  destruct (unknown_file_dropped ex_file 0 ex_life) as (H1 & H2 & H3).
  - lia.
  - intros m Hm. discriminate Hm.
  - cbn. repeat split; try (vm_compute; discriminate); try (vm_compute; reflexivity); try done. intros m Hm. injection Hm as <-. vm_compute. reflexivity.
  - split; [exact H1|]. split.
    + apply (H3 [] 0 NoData (tail ex_life) (2 * DAY) NoData); [reflexivity|]. right. right. left.
    + apply (H2 [Attempted 0 NoData; Attempted (30 * MINUTE) Timeout; Reported (mkFileHashInfo (mkEd2kHash [1]) 10 "a.mkv" (Some (- 90 * DAY)) None)] (2 * DAY)); [reflexivity|]. vm_compute. discriminate.
Defined.
