(* ===== verification/AniDbServer.v ===== *)
(** * The server is a host for the AniDB worker

    src/dessplay-rendezvous/src/server.rs, [SharedHost]: the worker's trait over the
    server's shared state, discharged against the server's tasks ([Server]). A write
    of the server's is a whole task; what the other tasks do between two of the
    worker's accesses is the worker's [os_others]. *)

From S2P Require Import Prelude Types Text Lww Vclock CrdtMap Identifier State Fields StateRepr Resolve View Writes.
From S2P Require Import Message Conc Server ServerCorrect ServerHandlers AniDbQueue AniDbWorker AniDbWorkerLogic.

(** The shared state, and the AniDB tables of its database. *)
Record SharedHost := mkSharedHost { sh_shared : Shared; sh_tables : Db }.
Definition with_shared (s : Shared) (h : SharedHost) : SharedHost := mkSharedHost s (sh_tables h).

Section host.
Context (encode : ServerControl → option (list Z)) (max_datagram_size : ConnId → option Z) (W : World).

(** The state a task leaves, when it runs alone. *)
Definition after {A} (t : Task Shared Out A) (s : Shared) : Shared :=
  match run t s with Some (_, (s', _)) => s' | None => s end.
#[local] Arguments after : simpl never.
#[local] Arguments server_write : simpl never.
#[local] Arguments stamp_value : simpl never.
#[export] Instance shared_host : AniDbHost SharedHost := {
  host_now h := (w_clock W (sv_reads (sh_shared h)),
                 with_shared (put_reads (S (sv_reads (sh_shared h))) (sh_shared h)) h);
  host_view h := view (sv_state (sh_shared h));
  host_write_metadata hash m h :=
    with_shared (after (Server.write_metadata encode max_datagram_size W hash m) (sh_shared h)) h;
  host_write_relations series r h :=
    with_shared (after (Server.write_relations encode max_datagram_size W series r) (sh_shared h)) h;
  host_write_catalog hash e h :=
    with_shared (after (Server.write_catalog encode max_datagram_size W hash e) (sh_shared h)) h;
  host_db h := (λ _, sh_tables h) <$> sv_storage (sh_shared h);
  host_put_db d h := mkSharedHost (sh_shared h) d
}.

(** A write either wins its cell or changes nothing. *)
Lemma map_put_weak {K V} `{Countable K, !Ord K, !LawfulOrd K, !Ord V, !LawfulOrd V} (m : LwwMap K V) a ts k v :
  map_deferred m = ∅ →
  map_deferred (map_put m a ts k v).1 = ∅ ∧
  (map_view (map_put m a ts k v).1 = map_view m ∨ map_view (map_put m a ts k v).1 = <[k := v]> (map_view m)).
Proof.
  intros Hd. unfold map_put, map_update. cbn. case_match; [by split; [|left]|].
  rewrite apply_deferred_empty by done. cbn. split; [done|].
  unfold cm_apply, LwwCell_cmrdt, lww_write.
  set (e := default entry_default (map_entries m !! k)). set (c := lww_apply (entry_val e) (mkLww ts v)).
  assert (c = entry_val e ∧ is_Some (map_entries m !! k) ∨ c = mkLwwCell (Some (mkLww ts v))) as Hc.
  { unfold c, e, lww_apply. destruct (map_entries m !! k) as [x|] eqn:E; cbn; [|by right].
    destruct (current (entry_val x)) as [cur|] eqn:Ecur; [|by right]. case_match; [by right|left].
    split; [done|by eexists]. }
  destruct Hc as [[Hc [x Hx]]|Hc]; [left|right]; apply map_eq; intros j; rewrite lookup_map_view; cbn;
    (destruct (decide (j = k)) as [->|]; [rewrite lookup_insert_eq; cbn|rewrite lookup_insert_ne by done]).
  - rewrite Hc, lookup_map_view. unfold e. by rewrite Hx.
  - by rewrite lookup_map_view.
  - by rewrite Hc, lookup_insert_eq.
  - by rewrite lookup_insert_ne, lookup_map_view.
Qed.

(** A write of the server's, run alone. *)
Lemma after_write w s :
  sv_state (after (server_write encode max_datagram_size W w) s) =
    (run_write w SERVER (stamp_value W s) (sv_state s)).1 ∧
  sv_storage (after (server_write encode max_datagram_size W w) s) = sv_storage s.
Proof. unfold after. by rewrite run_server_write. Qed.
Lemma after_other w s :
  (∀ ts, anidb_metadata (run_write w SERVER ts (sv_state s)).1 = anidb_metadata (sv_state s)) →
  anidb_metadata (sv_state (after (server_write encode max_datagram_size W w) s)) = anidb_metadata (sv_state s).
Proof. intros Hw. by rewrite (proj1 (after_write w s)), Hw. Qed.

#[export] Program Instance shared_lawful : LawfulHost SharedHost := {
  host_ok h := map_deferred (anidb_metadata (sv_state (sh_shared h))) = ∅;
  host_metadata h := map_view (anidb_metadata (sv_state (sh_shared h)))
}.
Next Obligation. done. Qed.
Next Obligation.
  intros h v _ Hv. cbn in Hv. unfold view in Hv. destruct (glist_read _); [|done]. by injection Hv as <-.
Qed.
Next Obligation.
  intros h hash m Hd. cbn. unfold Server.write_metadata. destruct (after_write (WAniDbMetadata hash (Some m)) (sh_shared h)) as [-> ->].
  cbn [run_write]. unfold set_anidb_metadata.
  destruct (map_put_weak (anidb_metadata (sv_state (sh_shared h))) SERVER (stamp_value W (sh_shared h)) hash (Some m) Hd)
    as [Hd' Hv]. revert Hd' Hv. by destruct (map_put _ _ _ _ _).
Qed.
Next Obligation.
  intros h s r Hd. cbn. unfold Server.write_relations. rewrite (after_other (WSeriesRelations s r)).
  - by rewrite (proj2 (after_write _ (sh_shared h))).
  - intros ts. cbn [run_write]. unfold set_series_relations.
    by destruct (map_put (series_relations (sv_state (sh_shared h))) SERVER ts s r).
Qed.
Next Obligation.
  intros h hash e Hd. cbn. unfold Server.write_catalog. rewrite (after_other (WFileCatalog hash e)).
  - by rewrite (proj2 (after_write _ (sh_shared h))).
  - intros ts. cbn [run_write]. unfold set_file_catalog.
    by destruct (map_put (file_catalog (sv_state (sh_shared h))) SERVER ts hash e).
Qed.
Next Obligation. intros h d d' Hd Hdb. cbn in *. destruct (sv_storage (sh_shared h)); [|done]. by split_and!. Qed.
End host.
