(* ===== verification/AniDbOthers.v ===== *)
(** * The server's tasks leave AniDB's answers alone

    The other half of the worker's reliance on its host ([quiet]), discharged against
    the server: whatever its tasks do between two accesses of the worker's (timers, the
    messages of any number of connections, the server's own writes), the files kept stay
    real, as long as no client sends an op on the metadata or a state to merge, which is
    the clients' part: theirs never issue such an op. A compaction is apart: it keeps the
    metadata's view as a whole ([ServerHandlers.compaction_preserves_view]). *)

From S2P Require Import Prelude Types Text Lww Vclock CrdtMap Identifier State Fields StateRepr Resolve View Writes.
From S2P Require Import Message Transfer Conc AuthLimit Server ServerCorrect ServerSafe ServerHandlers AniDbQueue AniDbWorker AniDbWorkerLogic AniDbServer.

Section others.
Context (md4 : list Z → Z).
Context (encode_view : StateView → option (list Z)) (sha256 : list Z → list Z).
Context (encode : ServerControl → option (list Z)) (encode_relay : RelayEnvelope → option (list Z)).
Context (max_datagram_size : ConnId → option Z).
Context (search_titles : Storage → string → list AniDbSearchHit).
Context (W : World) (K : Kept).

(** ** Sections *)

Abbreviation metadata s := (anidb_metadata (sv_state s)).
Definition spares (s s' : Shared) : Prop :=
  (map_deferred (metadata s) = ∅ → map_deferred (metadata s') = ∅ ∧
     replaces K (map_view (metadata s)) (map_view (metadata s'))) ∧
  (sv_storage s = None ↔ sv_storage s' = None).
#[export] Instance spares_preorder : PreOrder spares.
Proof.
  split; [by intros s; split|]. intros s1 s2 s3 [H1 H2] [H3 H4]. split; [|by rewrite H2]. intros Hd.
  destruct (H1 Hd) as [Hd2 Hr]. destruct (H3 Hd2) as [Hd3 Hr']. split; [done|]. intros hash Hk Hm. by apply Hr', Hr.
Qed.
Lemma spares_alone s s' : sv_state s' = sv_state s → (sv_storage s = None ↔ sv_storage s' = None) → spares s s'.
Proof. intros E Hst. split; [|done]. by rewrite E. Qed.

Definition gentle {A} (m : SecM A) : Prop := ∀ s a s' o, m s = Some (a, (s', o)) → spares s s'.
Lemma gentle_ret {A} (a : A) : gentle (mret a).
Proof. by intros s ? ? ? [= <- <- <-]. Qed.
Lemma gentle_bind {A B} (m : SecM A) (f : A → SecM B) : gentle m → (∀ a, gentle (f a)) → gentle (m ≫= f).
Proof.
  intros Hm Hf s b s' o. unfold mbind, Sec_bind. destruct (m s) as [[a [s1 o1]]|] eqn:E; [|done].
  destruct (f a s1) as [[b' [s2 o2]]|] eqn:E2; [|done]. intros [= <- <- <-]. trans s1; [by eapply Hm|by eapply Hf].
Qed.
Lemma gentle_get {A} (f : Shared → A) : gentle (sget f).
Proof. by intros s ? ? ? [= <- <- <-]. Qed.
Lemma gentle_modify f : (∀ s, spares s (f s)) → gentle (smodify f).
Proof. intros Hf s ? ? ? [= <- <- <-]. apply Hf. Qed.
Lemma gentle_emit o : gentle (semit o).
Proof. by intros s ? ? ? [= <- <- <-]. Qed.
Lemma gentle_of_option {A} (x : option A) : gentle (sof_option x).
Proof. intros s ? ? ? E. unfold sof_option in E. destruct x; [by injection E as <- <- <-|done]. Qed.
Lemma gentle_when b m : gentle m → gentle (swhen b m).
Proof. intros Hm. destruct b; [done|apply gentle_ret]. Qed.

(** ** Tasks *)

Inductive gentle_task {A} : TaskM A → Prop :=
| gentle_done a : gentle_task (Done a)
| gentle_step k : (∀ s s' o t, k s = Some (s', o, t) → spares s s') →
    (∀ s s' o t, k s = Some (s', o, t) → gentle_task t) → gentle_task (Atomic k).
Lemma task_atomic {A} (m : SecM A) : gentle m → gentle_task (atomic m).
Proof.
  intros Hm. constructor; intros s s' o t E; (destruct (m s) as [[a [s1 o1]]|] eqn:E2; [|done]);
    injection E as <- <- <-; [by eapply Hm|constructor].
Qed.
Lemma task_ret {A} (a : A) : gentle_task (mret a).
Proof. constructor. Qed.
Lemma task_bind {A B} (t : TaskM A) (f : A → TaskM B) : gentle_task t → (∀ a, gentle_task (f a)) → gentle_task (t ≫= f).
Proof.
  intros Ht Hf. unfold mbind, Task_bind. induction Ht as [a|k Hk _ IH]; cbn [tbind]; [apply Hf|].
  constructor; intros s s' o t E; (destruct (k s) as [[[s1 o1] t1]|] eqn:E2; [|done]); injection E as <- <- <-;
    [by eapply Hk|by eapply IH].
Qed.
Lemma task_when b t : gentle_task t → gentle_task (twhen b t).
Proof. intros Ht. destruct b; [done|apply task_ret]. Qed.
Lemma task_for_each {A} (l : list A) (f : A → TaskM unit) : (∀ x, gentle_task (f x)) → gentle_task (for_each l f).
Proof. intros Hf. induction l as [|x l IH]; [apply task_ret|]. by apply task_bind. Qed.

Create HintDb gentle discriminated.
Ltac spare := let s := fresh "s" in intros s; apply spares_alone; [by repeat case_match|by repeat case_match].
Ltac gentle_tac :=
  lazymatch goal with
  | |- gentle_task (mbind _ _) => apply task_bind; [|intros ?]
  | |- gentle_task (mret _) => apply task_ret
  | |- gentle_task (atomic _) => apply task_atomic
  | |- gentle_task (twhen _ _) => apply task_when
  | |- gentle_task (for_each _ _) => apply task_for_each; intros ?
  | |- gentle_task (match ?x with _ => _ end) => destruct x
  | |- gentle (mbind _ _) => apply gentle_bind; [|intros ?]
  | |- gentle (mret _) => apply gentle_ret
  | |- gentle (sget _) => apply gentle_get
  | |- gentle (smodify _) => apply gentle_modify; spare
  | |- gentle (semit _) => apply gentle_emit
  | |- gentle (sof_option _) => apply gentle_of_option
  | |- gentle (swhen _ _) => apply gentle_when
  | |- gentle (match ?x with _ => _ end) => destruct x
  end.
Ltac gently := cbn zeta; repeat first [solve [eauto 2 with gentle] | gentle_tac].

(** ** The server's operations *)

Lemma gentle_reading {A} (f : nat → A) : gentle (reading f).
Proof. unfold reading. gently. Qed.
#[local] Hint Resolve gentle_reading : gentle.
Lemma gentle_now : gentle (now W).
Proof. apply gentle_reading. Qed.
Lemma gentle_instant : gentle (instant_now W).
Proof. apply gentle_reading. Qed.
Lemma gentle_succeeds : gentle (succeeds W).
Proof. apply gentle_reading. Qed.
#[local] Hint Resolve gentle_now gentle_instant gentle_succeeds : gentle.
Lemma gentle_stamp : gentle (stamp W).
Proof. unfold stamp. gently. Qed.
Lemma gentle_observe ts : gentle (observe ts).
Proof. unfold observe. gently. Qed.
Lemma gentle_send_to c msg : gentle (send_to encode W c msg).
Proof. unfold send_to. gently. Qed.
Lemma gentle_known peers : gentle (known_offline W peers).
Proof. unfold known_offline. gently. Qed.
#[local] Hint Resolve gentle_stamp gentle_observe gentle_send_to gentle_known : gentle.

(** What the storage holds may change; that there is one does not. *)
Lemma gentle_storage {A} (x : A) (k : Storage → SecM A) :
  (∀ st s a s' o, sv_storage s = Some st → k st s = Some (a, (s', o)) → spares s s') →
  gentle (storage ← sget sv_storage; match storage with None => mret x | Some st => k st end).
Proof.
  intros Hk s a s' o. unfold mbind, Sec_bind, sget, mret, Sec_ret. destruct (sv_storage s) as [st|] eqn:Hst; [|by intros [= <- <- <-]].
  destruct (k st s) as [[a1 [s1 o1]]|] eqn:E; [|done]. intros [= <- <- <-]. by eapply Hk.
Qed.
(** One write to it, if the storage takes it. *)
Lemma storing st (m : bool → SecM unit) s a s' o :
  sv_storage s = Some st →
  (∀ b s a s' o, is_Some (sv_storage s) → m b s = Some (a, (s', o)) → sv_state s' = sv_state s ∧ is_Some (sv_storage s')) →
  (ok ← succeeds W; m ok) s = Some (a, (s', o)) → spares s s'.
Proof.
  intros Hst Hm. unfold mbind, Sec_bind, succeeds, reading, sget, smodify, mret, Sec_ret. cbn.
  unfold mbind, Sec_bind. cbn. destruct (m _ _) as [[a1 [s1 o1]]|] eqn:E; [|done]. intros [= <- <- <-].
  assert (is_Some (sv_storage (put_reads (S (sv_reads s)) s))) as Hs1 by by eexists.
  destruct (Hm _ _ _ _ _ Hs1 E) as [Hs [st' Hst']]. apply spares_alone; [exact Hs|]. by rewrite Hst, Hst'.
Qed.
Lemma put_storage_some (b : bool) (g : Storage) (s : Shared) a s' o : is_Some (sv_storage s) →
  swhen b (smodify (put_storage (Some g))) s = Some (a, (s', o) : Shared * list Out) → sv_state s' = sv_state s ∧ is_Some (sv_storage s').
Proof. intros Hst. destruct b; intros [= <- <- <-]; [split; [done|by eexists]|done]. Qed.
Lemma gentle_record_seen user t : gentle (record_seen W user t).
Proof. apply gentle_storage. intros st s a s' o Hst. apply (storing st); [done|]. intros b s1 a1 s2 o2. apply put_storage_some. Qed.
Lemma gentle_token token : gentle_task (on_token W token).
Proof.
  apply task_atomic, gentle_storage. intros st s a s' o Hst. apply (storing st); [done|]. intros b s1 a1 s2 o2. apply put_storage_some.
Qed.
Lemma gentle_flush : gentle_task (flush W).
Proof.
  unfold flush. apply task_bind; [gently|]. intros dirty. apply task_when. apply task_bind; [unfold snapshot; gently|]. intros snap.
  apply task_bind; [gently|]. intros t. apply task_atomic, gentle_storage. intros st s a s' o Hst. apply (storing st); [done|].
  intros [] s1 a1 s2 o2 Hst1; intros [= <- <- <-]; [split; [done|by eexists]|done].
Qed.
#[local] Hint Resolve gentle_record_seen gentle_token gentle_flush : gentle.

(** A write of the server's own, on any field but another's answer for a kept file. *)
Definition tame (w : LocalWrite) : Prop :=
  match w with WAniDbMetadata hash m => ¬ K hash ∨ ∃ m', m = Some m' ∧ real m' | _ => True end.
Lemma write_spares w ts s : tame w → spares s (put_crdt (run_write w SERVER ts (sv_state s)).1 s).
Proof.
  intros Hw. split; [|done]. cbn. intros Hd.
  assert (anidb_metadata (run_write w SERVER ts (sv_state s)).1 = metadata s ∨
    ∃ hash m, w = WAniDbMetadata hash m ∧
      anidb_metadata (run_write w SERVER ts (sv_state s)).1 = (map_put (metadata s) SERVER ts hash m).1) as [->|(hash & m & -> & ->)].
  { destruct w; try (left; cbn; by repeat case_match); [].
    right. eexists _, _. split; [done|]. cbn. unfold set_anidb_metadata. by case_match. }
  - by split.
  - destruct (map_put_weak (metadata s) SERVER ts hash m Hd) as [Hd' [Hv|Hv]]; rewrite Hv; (split; [done|]); [done|].
    intros hash' Hk Hr. unfold has_real. destruct (decide (hash' = hash)) as [->|]; [|by rewrite lookup_insert_ne].
    rewrite lookup_insert_eq. destruct Hw as [Hw|(m' & -> & Hm)]; [done|]. by exists m'.
Qed.
Lemma gentle_apply_write w ts : tame w → gentle (apply_write w ts).
Proof.
  intros Hw s a s' o. unfold apply_write, mbind, Sec_bind, sget, smodify, mret, Sec_ret, id. cbn.
  pose proof (write_spares w ts s Hw) as H. destruct (run_write w SERVER ts (sv_state s)). by intros [= <- <- <-].
Qed.
#[local] Hint Extern 1 (gentle (apply_write _ _)) => (apply gentle_apply_write; exact I) : gentle.
Lemma gentle_write_all ws : Forall tame ws → gentle (write_all W ws).
Proof. induction 1 as [|w ws Hw _ IH]; cbn [write_all]; gently. by apply gentle_apply_write. Qed.
Lemma gentle_saved peers file : gentle (saved_position_op W peers file).
Proof. unfold saved_position_op. gently. Qed.
#[local] Hint Resolve gentle_saved : gentle.

(** Broadcasts, the outage windows, the authority. *)
Lemma gentle_broadcast_control msg skip : gentle_task (broadcast_control encode msg skip).
Proof. unfold broadcast_control, live_conns. gently. Qed.
Lemma gentle_broadcast_op msg skip tr : gentle_task (broadcast_op encode max_datagram_size msg skip tr).
Proof. unfold broadcast_op, live_conns, send_op_to. gently. Qed.
#[local] Hint Resolve gentle_broadcast_control gentle_broadcast_op : gentle.
Lemma gentle_server_op epoch op : gentle_task (broadcast_server_op encode max_datagram_size epoch op).
Proof. unfold broadcast_server_op. gently. Qed.
#[local] Hint Resolve gentle_server_op : gentle.
Lemma gentle_server_write w : tame w → gentle_task (server_write encode max_datagram_size W w).
Proof. intros Hw. unfold server_write. gently. by apply gentle_apply_write. Qed.
#[local] Hint Extern 1 (gentle_task (server_write _ _ _ _)) => (apply gentle_server_write; exact I) : gentle.
Lemma gentle_peer_list : gentle_task (broadcast_peer_list encode W).
Proof. unfold broadcast_peer_list, peer_infos. gently. Qed.
Lemma gentle_close_windows : gentle close_grace_windows.
Proof. unfold close_grace_windows. gently. Qed.
Lemma gentle_follow file : gentle_task (follow_laggard encode max_datagram_size W file).
Proof. unfold follow_laggard. gently. Qed.
#[local] Hint Resolve gentle_peer_list gentle_close_windows gentle_follow : gentle.
Lemma gentle_force_pause : gentle_task (force_pause encode max_datagram_size W).
Proof. unfold force_pause. gently. Qed.
Lemma gentle_reconcile : gentle_task (reconcile_grace_windows encode max_datagram_size W).
Proof. unfold reconcile_grace_windows. gently. Qed.
Lemma gentle_pin : gentle_task (pin_rejoin_anchor md4 encode max_datagram_size W).
Proof. unfold pin_rejoin_anchor, peer_infos. gently. Qed.
Lemma gentle_take user : gentle_task (take_authority_from encode max_datagram_size W user).
Proof. unfold take_authority_from. gently. Qed.
Lemma gentle_open user c before : gentle_task (open_grace_window md4 W user c before).
Proof. unfold open_grace_window, open_window. gently. Qed.
#[local] Hint Resolve gentle_force_pause gentle_reconcile gentle_pin gentle_take gentle_open : gentle.

(** The timers. *)
Lemma gentle_hash : gentle_task (hash_tick encode_view sha256 encode).
Proof. unfold hash_tick. gently. Qed.
Lemma gentle_sweep : gentle_task (sweep_departed encode max_datagram_size W;; sweep_grace encode max_datagram_size W).
Proof. unfold sweep_departed, sweep_grace, promote_departed. gently. Qed.

(** The messages. *)
Lemma tame_advances v file : Forall tame (advance_writes md4 v file).
Proof. unfold advance_writes. apply Forall_fmap, Forall_true. by intros []. Qed.
Lemma gentle_eof reporter role file : gentle_task (handle_eof md4 encode max_datagram_size W reporter role file).
Proof.
  unfold handle_eof, eof_section, peer_infos. gently; apply gentle_write_all; first [apply tame_advances|by repeat constructor].
Qed.
Lemma gentle_mark file w : gentle_task (handle_mark_watched md4 encode max_datagram_size W file w).
Proof.
  unfold handle_mark_watched, mark_section. gently. apply gentle_write_all. constructor; [done|].
  destruct w; [apply tame_advances|constructor].
Qed.
Lemma gentle_after changed saved : gentle_task (after_change md4 encode max_datagram_size W changed saved).
Proof. unfold after_change. gently. Qed.
#[local] Hint Resolve gentle_eof gentle_mark gentle_after : gentle.
(** An op on another field than the metadata. *)
Definition elsewhere (op : CrdtOp) : Prop := match op with OpAniDbMeta _ => False | _ => True end.
Lemma op_spares op dg s : elsewhere op → spares s (put_crdt (apply_for_broadcast (sv_state s) op dg).1 s).
Proof.
  intros Hop. split; [|done]. cbn.
  assert (anidb_metadata (apply_for_broadcast (sv_state s) op dg).1 = metadata s) as ->; [|by split].
  destruct (broadcast_state_cases (sv_state s) op dg) as [-> | ->]; [done|].
  destruct op; try done; cbn; by repeat case_match.
Qed.
Lemma gentle_op_section epoch op dg peers : elsewhere op → gentle (op_section W epoch op dg peers).
Proof.
  intros Hop s a s' o. unfold op_section. unfold mbind at 1, Sec_bind at 1, sget at 1, id. cbn [fst snd].
  case_bool_decide; [by intros [= <- <- <-]|]. cbn zeta. pose proof (op_spares op dg s Hop) as H1.
  destruct (apply_for_broadcast (sv_state s) op dg) as [state applied]. cbn [fst] in H1.
  unfold mbind at 1, Sec_bind at 1, smodify at 1. match goal with |- context [match ?m (put_crdt state s) with _ => _ end] => assert (gentle m) as Hm by gently; destruct (m (put_crdt state s)) as [[a1 [s1 o1]]|] eqn:E end; [|done].
  intros [= <- <- <-]. trans (put_crdt state s); [done|by eapply Hm].
Qed.
Lemma gentle_state_op c epoch op dg : elsewhere op → gentle_task (on_state_op md4 encode max_datagram_size W c epoch op dg).
Proof. intros Hop. pose proof (λ peers, gentle_op_section epoch op dg peers Hop). unfold on_state_op, peer_infos. gently; auto. Qed.
Lemma gentle_time_sync c t dg : gentle_task (on_time_sync encode W c t dg).
Proof. unfold on_time_sync. gently. Qed.
Lemma gentle_search c q : gentle_task (on_search encode search_titles W c q).
Proof. unfold on_search. gently. Qed.
Lemma gentle_sync c epoch hash : gentle_task (on_sync_status encode_view sha256 encode W c epoch hash).
Proof. unfold on_sync_status, snapshot. gently. Qed.
Lemma gentle_request c : gentle_task (on_request_merge encode W c).
Proof. unfold on_request_merge, snapshot. gently. Qed.
#[local] Hint Resolve gentle_time_sync gentle_search gentle_sync gentle_request : gentle.

(** What a client may send: no op on the metadata, no state to merge. *)
Definition tame_event (e : TransportEvent) : Prop :=
  match e with
  | EvControl (Some (StateOp _ op)) | EvDatagram (Some (StateOp _ op)) => elsewhere op
  | EvControl (Some (StateMerge _)) | EvDatagram (Some (StateMerge _)) => False
  | _ => True
  end.
Lemma gentle_authed c user role sent events : Forall tame_event events →
  gentle_task (serve_authed md4 encode_view sha256 encode max_datagram_size search_titles W c user role sent events).
Proof.
  intros Hev. revert sent. induction Hev as [|e events He Hev IH]; intros sent; cbn [serve_authed]; [gently|].
  destruct e as [[msg|]|[msg|]| |reason]; auto using task_ret; cbn in He; destruct msg; try done; auto using task_ret;
    try (apply task_bind; [by apply gentle_state_op|by intros _]); cbn zeta; gently; auto.
Qed.

(** ** Connections *)

Lemma gentle_session c remote token user role events : Forall tame_event events →
  gentle_task (serve_session md4 encode_view sha256 encode max_datagram_size search_titles W c remote token user role events).
Proof.
  intros Hev. pose proof (λ sent, gentle_authed c user role sent events Hev) as Hserve.
  unfold serve_session, register, close_old, seen, deregister, leave_position, connection_ended, peer_infos. gently; auto.
Qed.
Lemma gentle_connection config c remote ip token events : Forall tame_event events →
  gentle_task (serve_connection md4 encode_view sha256 encode max_datagram_size search_titles W config c remote ip token events).
Proof.
  intros Hev. unfold serve_connection. pose proof (await_auth_suffix events) as [l Hl].
  destruct (await_auth events) as [outcome rest]. cbn in Hl. subst events. apply Forall_app in Hev as [_ Hev].
  pose proof (λ token user role, gentle_session c remote token user role rest Hev). unfold reject_and_close, judge_auth. gently; auto.
Qed.
Lemma gentle_transfer c auth : gentle_task (serve_transfer c auth).
Proof. unfold serve_transfer, bind_transfer, unbind_transfer. gently. Qed.
Lemma gentle_relay c user outbox envelopes : gentle_task (relay_stream encode_relay W c user outbox envelopes).
Proof.
  unfold relay_stream, register_relay. apply task_bind; [gently|]. intros _.
  induction envelopes as [|[[]|] envelopes IH]; cbn [relay_reader]; unfold forward; gently; auto.
Qed.

(** ** Any interleaving *)

(** The tasks that run beside the worker, but for a compaction. *)
Inductive beside (config : ServerConfig) : TaskM unit → Prop :=
| beside_hash : beside config (hash_tick encode_view sha256 encode)
| beside_flush : beside config (flush W)
| beside_sweep : beside config (sweep_departed encode max_datagram_size W;; sweep_grace encode max_datagram_size W)
| beside_connection c remote ip token events : Forall tame_event events →
    beside config (serve_connection md4 encode_view sha256 encode max_datagram_size search_titles W config c remote ip token events)
| beside_transfer c auth : beside config (serve_transfer c auth)
| beside_relay c user outbox envelopes : beside config (relay_stream encode_relay W c user outbox envelopes).
Lemma beside_gentle config t : beside config t → gentle_task t.
Proof.
  intros []; [apply gentle_hash|apply gentle_flush|apply gentle_sweep|by apply gentle_connection|apply gentle_transfer|apply gentle_relay].
Qed.
Lemma beside_server_task config t : beside config t →
  server_task md4 encode_view sha256 encode encode_relay max_datagram_size search_titles W config tame_event t.
Proof. by intros []; constructor. Qed.
Lemma pool_spares config l s l' s' :
  rtc (pool_step (beside config)) (l, s) (l', s') → Forall gentle_task l → spares s s'.
Proof.
  intros Hr. remember (l, s) as p eqn:Ep. remember (l', s') as q eqn:Eq. revert l s Ep.
  induction Hr as [p|p q' q Hstep Hr IH]; intros l s -> Hl; [by simplify_eq|].
  inversion Hstep as [? ? t Ht|? ? i k s1 o t Hi Hk]; subst.
  - eapply IH; [done..|]. apply Forall_app. split; [done|]. constructor; [by eapply beside_gentle|constructor].
  - assert (gentle_task (Atomic k)) as Ha by (by eapply Forall_lookup_1). inversion Ha as [|? H1 H2]; subst.
    trans s1; [by eapply H1|]. eapply IH; [done..|]. apply Forall_insert; [done|by eapply H2].
Qed.
End others.


(** Whatever pool of such tasks runs between two accesses of the worker's, what it does
    to the host is what the worker relies on. *)
Theorem server_quiet md4 encode_view sha256 encode encode_relay max_datagram_size search_titles W K config (f : Shared → Shared) :
  let _ := shared_host encode max_datagram_size W in
  let _ := shared_lawful encode max_datagram_size W in
  (∀ s, ∃ l l', Forall (gentle_task K) l ∧
     rtc (pool_step (beside md4 encode_view sha256 encode encode_relay max_datagram_size search_titles W config)) (l, s) (l', f s)) →
  quiet K (λ h, with_shared (f (sh_shared h)) h).
Proof.
  intros ? ? Hf h Hok. destruct (Hf (sh_shared h)) as (l & l' & Hl & Hr). destruct (pool_spares _ _ _ _ _ _ _ _ K _ _ _ _ _ Hr Hl) as [Hmd Hst].
  destruct (Hmd Hok) as [Hok' Hrep]. split; [exact Hok'|]. split; [exact Hrep|]. cbn. unfold host_db. cbn.
  destruct (sv_storage (sh_shared h)), (sv_storage (f (sh_shared h))); [by constructor|naive_solver..|by constructor].
Qed.
(** One such task, run alone. *)
Lemma task_quiet encode max_datagram_size W K (t : TaskM unit) :
  let _ := shared_host encode max_datagram_size W in
  let _ := shared_lawful encode max_datagram_size W in
  gentle_task K t → quiet K (λ h, with_shared (after t (sh_shared h)) h).
Proof.
  intros ? ? Ht. apply (server_quiet (λ _, 0) (λ _, None) id encode (λ _, None) max_datagram_size (λ _ _, []) W K
    (ServerConfig_new EmptyString) (after t)).
  intros x. unfold after. destruct (run t x) as [[[] [x' o]]|] eqn:E; [|exists [], []; by split; [constructor|]].
  exists [t], [Done ()]. split; [by repeat constructor|]. by apply (run_steps _ t x x' o [t] 0).
Qed.
