(* ===== verification/AniDbWorkerSafe.v ===== *)
(** * The AniDB worker: the three promises

    The facts that a run of the worker keeps, each through the general argument of
    [AniDbWorkerCorrect], and the properties that follow. *)

From S2P Require Import Prelude Text Types TimeSync Conc View AniDb AniDbClient AniDbQueue AniDbWorker AniDbWorkerLogic.
From S2P Require Import AniDbWorkerCorrect.

(** ** Real metadata *)

(** One file, and none. *)
Definition only (hash : Ed2kHash) : Kept := eq hash.
Definition nothing : Kept := λ _, False.

Section real.
Context {H A : Type} `{!AniDbHost H, !LawfulHost H, !AniDbApi A} (U : Outside H) (curator : bool) (hash : Ed2kHash).
#[local] Instance kept_file : Kept := only hash.
Context (others_quiet : ∀ n, quiet (only hash) (os_others U n)).

Definition known : Fact := λ tr md db j, has_real md hash.
Lemma known_stable : stable known.
Proof. intros tr md md' db db' j Hr _. by apply Hr. Qed.
Lemma known_closed : closed known.
Proof. split; [apply known_stable| |by intros tr md db j e _]. intros tr md db j Hk hash' Hh. unfold kept_file, only in Hh. by subst. Qed.
Lemma run_known n : keeps (on known) (worker_run (A:=A) U curator n).
Proof using others_quiet.
  apply (run_keeps _ _ others_quiet (λ _, True)); [done|apply known_closed| | |].
  - intros v now. apply keeps_curate_nc; [done|]. by split; [apply known_stable|..].
  - intros now s _. apply (hoare_mono _ (on known) _ (λ _, on known)); [|intros tr w [? [? _]]; by split|done].
    apply keeps_lookup_anime_na; [done|]. by split; [apply known_stable|..].
  - apply keeps_reconcile; [done|apply known_stable| |].
    + intros tr md j present now d nn Hp. exact Hp.
    + intros tr md j d nn Hp. exact Hp.
Qed.
End real.

#[export] Existing Instance nothing.

(** ** Series lookups *)

(** No series is asked about after an answer. *)
Definition asked_first (tr : list Did) : Prop :=
  ∀ t1 s t2, tr = t1 ++ AskedAnime s :: t2 → AnsweredAnime s ∉ t1.
Definition settled (d : Db) (s : AniDbSeriesId) : Prop :=
  ∃ r, db_anime d !! s = Some r ∧ an_next_attempt r = NEVER.
(** The answered series are settled, [except] aside. *)
Definition settling (except : AniDbSeriesId → Prop) : Fact := λ tr _ db _,
  asked_first tr ∧ ∃ d, db = Some d ∧ ∀ s, AnsweredAnime s ∈ tr → except s ∨ settled d s.
Abbreviation all_settled := (settling (λ _, False)).

Lemma snoc_split {B} (l l1 l2 : list B) x y :
  l ++ [x] = l1 ++ y :: l2 → (l2 = [] ∧ x = y ∧ l = l1) ∨ ∃ k, l2 = k ++ [x] ∧ l = l1 ++ y :: k.
Proof.
  destruct l2 as [|z l2] using rev_ind; intros E.
  - left. by apply app_inj_tail in E as [-> ->].
  - right. exists l2. rewrite app_comm_cons, (assoc_L (++)) in E. by apply app_inj_tail in E as [-> ->].
Qed.
Lemma asked_first_snoc tr e :
  asked_first tr → (∀ s, e = AskedAnime s → AnsweredAnime s ∉ tr) → asked_first (tr ++ [e]).
Proof.
  intros Ht He t1 s t2 E. apply snoc_split in E as [(-> & -> & ->)|(k & -> & ->)]; [by apply He|by eapply Ht].
Qed.
Lemma settling_snoc except tr md db j e :
  (∀ s, e ≠ AskedAnime s) → (∀ s, e = AnsweredAnime s → except s) →
  settling except tr md db j → settling except (tr ++ [e]) md db j.
Proof.
  intros H1 H2 (Ht & d & -> & Hs). split; [apply asked_first_snoc; [done|]; intros s ->; by destruct (H1 s)|].
  exists d. split; [done|]. intros s [Hin|Hin%list_elem_of_singleton]%elem_of_app; [by apply Hs|left; auto].
Qed.
Lemma settled_weaken d d' s : db_anime d ⊆ db_anime d' → settled d s → settled d' s.
Proof. intros Hd (r & Hr & Hn). exists r. split; [by eapply lookup_weaken|done]. Qed.
Lemma settling_stable except : stable (settling except).
Proof.
  intros tr md md' db db' j _ Hdb (Ht & d & -> & Hs). split; [done|]. inversion Hdb as [? d' [_ Ha]|]; subst.
  exists d'. split; [done|]. intros s Hin. destruct (Hs s Hin); [by left|right; by eapply settled_weaken].
Qed.
Lemma settling_mono (P Q : AniDbSeriesId → Prop) tr md db j :
  (∀ s, P s → AnsweredAnime s ∈ tr → Q s) → settling P tr md db j → settling Q tr md db j.
Proof.
  intros HPQ (Ht & d & -> & Hs). split; [done|]. exists d. split; [done|]. intros s Hin. destruct (Hs s Hin); auto.
Qed.
Lemma all_settled_closed : closed all_settled.
Proof.
  split; [apply settling_stable|by intros ? ? ? ? _ ? []|]. intros tr md db j e He. apply settling_snoc; intros s ->; done.
Qed.

(** A row of the queue, kept by what queues series. *)
Definition queued (s : AniDbSeriesId) (P : list Did → Prop) (except : AniDbSeriesId → Prop) : Fact :=
  λ tr md db j, settling except tr md db j ∧ P tr ∧ ∃ d, db = Some d ∧ is_Some (db_anime d !! s).
Lemma queued_stable s P except : stable (queued s P except).
Proof.
  intros tr md md' db db' j _ Hdb (Hs & HP & d & -> & r & Hr). split; [by eapply settling_stable|]. split; [done|].
  inversion Hdb as [? d' [_ Ha]|]; subst. exists d'. split; [done|]. exists r. by eapply lookup_weaken.
Qed.

Section series.
Context {H A : Type} `{!AniDbHost H, !LawfulHost H, !AniDbApi A} (U : Outside H) (curator : bool).
Context (others_quiet : ∀ n, quiet nothing (os_others U n)) (sql_ok : ∀ n, os_sql U n = true).

(** Recording an attempt on [s] settles what was settled, and [s] when told so. *)
Lemma record_settles s t n P (except : AniDbSeriesId → Prop) tr md j :
  (∀ x, except x → x = s) → (n = NEVER ∨ AnsweredAnime s ∉ tr) →
  sql_hoare (λ d, queued s P except tr md (Some d) j) (record_anime_attempt (os_sql U) s t n)
    (λ _ d, all_settled tr md (Some d) j).
Proof using sql_ok.
  intros Hex Hn. apply sql_statement; [|intros d k _; by rewrite sql_ok].
  intros d ((Ht & d1 & [= <-] & Hs) & _ & d2 & [= <-] & r & Hr). split; [done|]. eexists. split; [done|].
  intros x Hx. right. cbn. unfold settled. cbn. destruct (decide (x = s)) as [->|Hne].
  - rewrite lookup_alter_eq, Hr. destruct Hn as [->|?]; [|done]. by eexists.
  - rewrite lookup_alter_ne by done. destruct (Hs x Hx) as [?|Hset]; [by destruct Hne; apply Hex|exact Hset].
Qed.
(** Asking: the series is due, so it was not answered. *)
Definition unanswered (s : AniDbSeriesId) (tr : list Did) : Prop := AnsweredAnime s ∉ tr.
Lemma ask_series now s tr (w : Worker H A) :
  0 ≤ now < NEVER → on (when_due all_settled now s) tr w →
  on (queued s (unanswered s) (λ _, False)) (tr ++ [AskedAnime s]) w.
Proof.
  intros Hnow [Hok [(Ht & d & Hd & Hs) Hdue]]. split; [done|]. destruct (Hdue d Hd) as (r & Hr & Hle).
  assert (AnsweredAnime s ∉ tr) as Hfresh.
  { intros Hin. destruct (Hs s Hin) as [[]|(r' & Hr' & Hn)]. rewrite Hr in Hr'. simplify_eq.
    rewrite Hn in Hle. unfold i64_wrap, NEVER, i64_max in *. rewrite Z.mod_small in Hle by lia. lia. }
  split; [|split].
  - split; [apply asked_first_snoc; [done|]; by intros ? [= <-]|]. exists d. split; [done|].
    intros x [Hx|Hx%list_elem_of_singleton]%elem_of_app; [by apply Hs|done].
  - intros [Hx|Hx%list_elem_of_singleton]%elem_of_app; done.
  - exists d. by eauto.
Qed.
Lemma series_lookup now s :
  0 ≤ now < NEVER →
  hoare (on (when_due all_settled now s)) (lookup_anime (A:=A) U now s) (λ _, on all_settled).
Proof using others_quiet sql_ok.
  intros Hnow. unfold lookup_anime.
  set (fresh := unanswered s).
  assert (stable (queued s fresh (λ _, False))) as Hs1 by apply queued_stable.
  assert (stable (queued s (λ _, True) (λ x, x = s))) as Hs2 by apply queued_stable.
  eapply (hoare_bind _ _ _ (λ _, on (queued s fresh (λ _, False)))).
  { apply hoare_emit. intros tr w. by apply ask_series. }
  intros []. eapply hoare_bind; [by apply keeps_asks|].
  assert (∀ tr w, on (A:=A) (queued s fresh (λ _, False)) tr w → on all_settled tr w) as Hout.
  { intros tr w [? [? _]]. by split. }
  assert (∀ tr w, on (A:=A) (queued s fresh (λ _, False)) tr w →
    on (queued s (λ _, True) (λ x, x = s)) (tr ++ [AnsweredAnime s]) w) as Hans.
  { intros tr w [Hok (Hset & _ & Hq)]. split; [done|]. split; [|by split].
    apply settling_snoc; [done|by intros ? [= <-]|]. eapply settling_mono; [|exact Hset]. by intros ? []. }
  intros [[|millis|reason]|[anime|]].
  - eapply (hoare_bind _ _ _ (λ _, on all_settled)); [|intros ?; by apply hoare_ret].
    apply (hoare_store U others_quiet _ _ (λ _, all_settled)); [done| |by intros tr md j (_ & _ & ? & [=] & _)].
    intros tr md j d n Hq. destruct Hq as (Hset & Hf & Hd).
    eapply (record_settles s _ _ fresh (λ _, False)); [done|by right|by split_and!].
  - apply hoare_ret. exact Hout.
  - apply hoare_ret. exact Hout.
  - eapply hoare_bind; [apply (hoare_emit _ _ (λ _, on (queued s (λ _, True) (λ x, x = s)))), Hans|]. intros [].
    eapply hoare_bind; [by apply keeps_store_select|]. intros short.
    eapply hoare_bind; [by apply keeps_write_relations|]. intros [].
    eapply hoare_bind; [by apply hoare_view|]. intros v. cbv beta.
    apply (hoare_weaken (on (queued s (λ _, True) (λ x, x = s)))).
    eapply (hoare_bind _ _ _ (λ _, on all_settled)); [|intros ?; by apply hoare_ret].
    apply (hoare_store U others_quiet _ _ (λ _, all_settled)); [done| |by intros tr md j (_ & _ & ? & [=] & _)].
    intros tr md j. eapply sql_bind; [by apply record_settles; [|left]| |done]. intros ?.
    apply sql_keeps_each. intros x _ d n Hset. eapply (settling_stable _ _ md md (Some d)); [done| |exact Hset].
    constructor. by apply (extends_enqueue_anime _ d).
  - eapply hoare_bind; [apply (hoare_emit _ _ (λ _, on (queued s (λ _, True) (λ x, x = s)))), Hans|]. intros [].
    eapply (hoare_bind _ _ _ (λ _, on all_settled)); [|intros ?; by apply hoare_ret].
    apply (hoare_store U others_quiet _ _ (λ _, all_settled)); [done| |by intros tr md j (_ & _ & ? & [=] & _)].
    intros tr md j. by apply record_settles; [|left].
Qed.
Lemma run_settled n :
  (∀ h : H, 0 ≤ (host_now h).1 < NEVER) →
  hoare (on (λ tr md db j, tr = [] ∧ is_Some db)) (worker_run (A:=A) U curator n) (λ _, on all_settled).
Proof using others_quiet sql_ok.
  intros HC. apply (run_keeps _ _ others_quiet (λ t, 0 ≤ t < NEVER)); [done|apply all_settled_closed| | |].
  - intros v now. apply keeps_curate_nc; [done|]. split; try done; [apply settling_stable| | |].
    + intros tr md d j c (Ht & d' & [= <-] & Hs). split; [done|]. by eexists.
    + intros. by apply settling_snoc.
    + intros. by apply settling_snoc.
  - intros now s Hnow. by apply series_lookup.
  - set (Φ := λ (tr : list Did) (md : gmap Ed2kHash (option AniDbMetadata)) (db : option Db) (j : option CurationJob),
      tr = [] ∧ is_Some db).
    apply (hoare_mono _ (on Φ) _ (λ _, on Φ)); [|done|].
    + apply keeps_reconcile; [done| | |].
      * intros tr md md' db db' j _ Hdb [-> [d ->]]. inversion Hdb; subst. by split; [|eexists].
      * intros tr md j present now d k [-> _]. by split; [|eexists].
      * intros tr md j d k [-> _]. by split; [|eexists].
    + intros _ tr w [Hok [-> [d Hd]]]. split; [done|]. split.
      * intros t1 s t2 E. by destruct t1.
      * exists d. split; [done|]. intros s Hin. by apply not_elem_of_nil in Hin.
Qed.
End series.
