(* ===== verification/AniDbCuration.v ===== *)
(** * The AniDB worker: curation is bounded

    The model is not asked about a series it has answered, nor more than
    [MAX_CURATE_ATTEMPTS] times about one it leaves unanswered. What the model was asked
    and what came back are the raw events of the run; the attempts in the cache are
    exactly the calls of the run that reached the model and left the series out. *)

From S2P Require Import Prelude Text Types TimeSync Conc View AniDb AniDbClient AniDbQueue AniDbWorker AniDbWorkerLogic.
From S2P Require Import AniDbWorkerCorrect AniDbWorkerSafe.

(** ** What a run has asked *)

(** What a call that came back says of a series, by its place in the batch: nothing, or
    an answer. A call that failed on its way, or whose task died, says nothing and did
    not reach the model. *)
Definition usable (c : option Curation) : bool := match c with Some (Short _) | Some NoShortName => true | _ => false end.
Definition answers_for (s : AniDbSeriesId) (asked : list AniDbSeriesId) (outcome : CurateOutcome) : bool :=
  match outcome, list_find (s =.) asked with Answers answers, Some (i, _) => usable (answers !! i) | _, _ => false end.
Definition reached (outcome : CurateOutcome) : bool := match outcome with Answers _ | ModelError => true | _ => false end.
Definition in_vain (s : AniDbSeriesId) (asked : list AniDbSeriesId) (outcome : CurateOutcome) : bool :=
  bool_decide (s ∈ asked) && reached outcome && negb (answers_for s asked outcome).
Definition vain (s : AniDbSeriesId) (e : Did) : Z :=
  match e with Returned asked outcome => if in_vain s asked outcome then 1 else 0 | _ => 0 end.
(** How often the model was asked about a series in vain; whether it answered. *)
Fixpoint times_unanswered (s : AniDbSeriesId) (tr : list Did) : Z :=
  match tr with [] => 0 | e :: tr => vain s e + times_unanswered s tr end.
Definition model_answered (tr : list Did) (s : AniDbSeriesId) : Prop :=
  ∃ asked outcome, Returned asked outcome ∈ tr ∧ s ∈ asked ∧ answers_for s asked outcome = true.

Lemma times_app s t1 t2 : times_unanswered s (t1 ++ t2) = times_unanswered s t1 + times_unanswered s t2.
Proof. induction t1 as [|e t1 IH]; cbn; lia. Qed.
Lemma times_snoc s tr e : times_unanswered s (tr ++ [e]) = times_unanswered s tr + vain s e.
Proof. rewrite times_app. cbn. lia. Qed.
Lemma model_answered_snoc tr e s :
  model_answered (tr ++ [e]) s ↔
  model_answered tr s ∨ ∃ asked outcome, e = Returned asked outcome ∧ s ∈ asked ∧ answers_for s asked outcome = true.
Proof.
  unfold model_answered. setoid_rewrite elem_of_app. setoid_rewrite list_elem_of_singleton. naive_solver.
Qed.
Lemma times_nonneg s tr : 0 ≤ times_unanswered s tr.
Proof. induction tr as [|e tr IH]; [done|]. cbn. unfold vain. repeat case_match; lia. Qed.
(** ** The cache against the run *)

(** The attempts of a row, and whether it is settled; no row is a row without any. *)
Definition tries (r : option CuratedRow) : Z := match r with Some r => cu_attempts r | None => 0 end.
Definition is_settled (r : option CuratedRow) : bool := match r with Some r => cu_settled r | None => false end.
(** The row of a series that was [base] when the run began, after [c] vain calls. *)
Definition row_ok (base : option CuratedRow) (c : Z) (answered : Prop) (r : option CuratedRow) : Prop :=
  if is_settled base then r = base
  else tries r = tries base + c ∧ (is_settled r = true ↔ answered ∨ 0 < c ∧ MAX_CURATE_ATTEMPTS ≤ tries base + c).
Definition pend (u : list AniDbSeriesId) (s : AniDbSeriesId) : Z := if decide (s ∈ u) then 1 else 0.

Section cache.
Context (base : AniDbSeriesId → option CuratedRow).
(** Only open series are asked about. *)
Definition asked_within (tr : list Did) : Prop := ∀ t1 l t2 s, tr = t1 ++ AskedModel l :: t2 → s ∈ l →
  is_settled (base s) = false ∧ times_unanswered s t1 < MAX_CURATE_ATTEMPTS ∧ ¬ model_answered t1 s.
Lemma asked_within_snoc tr e :
  asked_within tr →
  (∀ l s, e = AskedModel l → s ∈ l →
     is_settled (base s) = false ∧ times_unanswered s tr < MAX_CURATE_ATTEMPTS ∧ ¬ model_answered tr s) →
  asked_within (tr ++ [e]).
Proof.
  intros Ht He t1 l t2 s E Hs. apply snoc_split in E as [(-> & -> & ->)|(k & -> & ->)]; [by eapply He|by eapply Ht].
Qed.
(** Every row follows from the run so far; the answers for [l], and that [u] was left
    out, are still to be written. *)
Definition counts (l u : list AniDbSeriesId) (tr : list Did) (d : Db) : Prop := ∀ s,
  (is_settled (base s) = true → times_unanswered s tr = 0 ∧ ¬ model_answered tr s) ∧
  times_unanswered s tr ≤ MAX_CURATE_ATTEMPTS ∧
  (s ∈ l → model_answered tr s) ∧ (s ∈ u → 0 < times_unanswered s tr ∧ is_settled (db_curated d !! s) = false) ∧
  row_ok (base s) (times_unanswered s tr - pend u s) (model_answered tr s ∧ s ∉ l) (db_curated d !! s).
(** ... and the rows satisfy [P]. *)
Definition counting (l u : list AniDbSeriesId) (P : Db → option CurationJob → Prop) : Fact :=
  λ tr _ db j, asked_within tr ∧ ∃ d, db = Some d ∧ counts l u tr d ∧ P d j.
Definition cache_only (P : Db → option CurationJob → Prop) : Prop :=
  ∀ d d' j, db_curated d' = db_curated d → P d j → P d' j.
Definition cu_open (d : Db) (s : AniDbSeriesId) : Prop := is_settled (db_curated d !! s) = false.
(** The call that runs is about open series. *)
Definition job_open (d : Db) (j : option CurationJob) : Prop := ∀ job, j = Some job →
  NoDup (cj_asked job) ∧ ∀ s, s ∈ cj_asked job → cu_open d s.
Abbreviation counted := (counting [] [] job_open).

Lemma pend_nil s : pend [] s = 0.
Proof. unfold pend. by rewrite decide_False by apply not_elem_of_nil. Qed.
Lemma counts_same l u tr d d' : db_curated d' = db_curated d → counts l u tr d → counts l u tr d'.
Proof. unfold counts. by intros ->. Qed.
Lemma counting_stable l u P : cache_only P → stable (counting l u P).
Proof.
  intros HP tr md md' db db' j _ Hdb (Ha & d & -> & Hc & Hp). split; [done|]. inversion Hdb as [? d' [Hcur _]|]; subst.
  exists d'. split; [done|]. split; [by eapply counts_same|by eapply HP].
Qed.
Lemma counting_mono l u P Q tr md db j : (∀ d, P d j → Q d j) → counting l u P tr md db j → counting l u Q tr md db j.
Proof. intros HPQ (Ha & d & -> & Hc & Hp). split; [done|]. exists d. auto. Qed.
Lemma job_open_cache : cache_only job_open.
Proof.
  intros d d' j Hd Hj job ->. destruct (Hj job eq_refl) as [? Ho]. split; [done|]. intros s Hs. unfold cu_open.
  rewrite Hd. by apply Ho.
Qed.
(** An event that is not a call's. *)
Lemma counts_snoc l u tr d e : (∀ a r, e ≠ Returned a r) → counts l u tr d → counts l u (tr ++ [e]) d.
Proof.
  intros He Hc s. assert (vain s e = 0) as Hv by (destruct e; try done; by edestruct He).
  assert (model_answered (tr ++ [e]) s ↔ model_answered tr s) as Hm.
  { rewrite model_answered_snoc. split; [|by left]. intros [?|(a & r & -> & _)]; [done|by edestruct He]. }
  rewrite times_snoc, Hv, Z.add_0_r. specialize (Hc s). unfold row_ok in *. destruct (is_settled (base s)); tauto.
Qed.
Lemma counting_snoc l u P tr md db j e :
  (∀ l, e ≠ AskedModel l) → (∀ a r, e ≠ Returned a r) → counting l u P tr md db j → counting l u P (tr ++ [e]) md db j.
Proof.
  intros H1 H2 (Ha & d & -> & Hc & Hp). split; [apply asked_within_snoc; [done|]; intros l' s ->; by destruct (H1 l')|].
  exists d. split; [done|]. split; [by apply counts_snoc|done].
Qed.
(** An open series has neither been answered nor run out of attempts. *)
Lemma counts_open tr d s : 0 ≤ tries (base s) → counts [] [] tr d → cu_open d s →
  is_settled (base s) = false ∧ times_unanswered s tr < MAX_CURATE_ATTEMPTS ∧ ¬ model_answered tr s.
Proof.
  intros Hb Hc Ho. destruct (Hc s) as (_ & Hmax & _ & _ & Hr). unfold row_ok in Hr. unfold cu_open in Ho.
  destruct (is_settled (base s)) eqn:E; [by rewrite Hr, E in Ho|]. rewrite pend_nil, Z.sub_0_r in Hr. destruct Hr as [Ht Hs].
  assert (¬ (model_answered tr s ∧ s ∉ [] ∨ 0 < times_unanswered s tr ∧ MAX_CURATE_ATTEMPTS ≤ tries (base s) + times_unanswered s tr)) as Hn
    by (rewrite <-Hs; congruence).
  split; [done|]. split; [unfold MAX_CURATE_ATTEMPTS in *; lia|]. intros Hm. apply Hn. left. split; [done|apply not_elem_of_nil].
Qed.
Lemma counted_closed : closed counted.
Proof.
  split; [apply counting_stable, job_open_cache|by intros ? ? ? ? _ ? []|]. intros tr md db j e He.
  apply counting_snoc; [intros ? ->|intros ? ? ->]; done.
Qed.
End cache.

(** ** Harvests *)

Lemma split_answers_perm asked : ∀ answers,
  asked ≡ₚ (split_answers asked answers).1.*1 ++ (split_answers asked answers).2.
Proof.
  induction asked as [|s asked IH]; intros answers; [done|]. cbn. specialize (IH (tail answers)).
  destruct (split_answers asked (tail answers)) as [a u]. cbn in IH.
  destruct (head answers) as [[| |name]|]; cbn in *; rewrite <-?Permutation_middle; by apply Permutation_skip.
Qed.
Lemma answers_for_cons s x asked answers :
  answers_for s (x :: asked) (Answers answers) =
  if decide (s = x) then usable (head answers) else answers_for s asked (Answers (tail answers)).
Proof.
  unfold answers_for. cbn [list_find]. destruct (decide (s = x)); [by destruct answers|].
  destruct (list_find (s =.) asked) as [[i y]|]; [|done]. cbn. by destruct answers.
Qed.
Lemma in_vain_cons s x asked answers :
  in_vain s (x :: asked) (Answers answers) =
  if decide (s = x) then negb (usable (head answers)) else in_vain s asked (Answers (tail answers)).
Proof.
  unfold in_vain. rewrite answers_for_cons. cbn [reached]. rewrite !andb_true_r. case_decide as Hd.
  - by rewrite bool_decide_eq_true_2 by (subst; by left).
  - f_equal. apply bool_decide_ext. rewrite elem_of_cons. tauto.
Qed.
(** The worker's reading of a reply is the one by place. *)
Lemma split_answers_spec asked : ∀ answers, NoDup asked →
  (∀ s, s ∈ (split_answers asked answers).1.*1 ↔ s ∈ asked ∧ answers_for s asked (Answers answers) = true) ∧
  (∀ s, s ∈ (split_answers asked answers).2 ↔ in_vain s asked (Answers answers) = true).
Proof.
  induction asked as [|x asked IH]; intros answers Hnd.
  { split; intros s; cbn; [|unfold in_vain; rewrite bool_decide_eq_false_2 by apply not_elem_of_nil]; rewrite elem_of_nil; naive_solver. }
  apply NoDup_cons in Hnd as [Hx Hnd]. destruct (IH (tail answers) Hnd) as [IH1 IH2].
  assert (true = true ∧ ¬ false = true) as [Ht Hf] by done.
  assert (∀ s, in_vain s asked (Answers (tail answers)) = true → s ∈ asked) as Hin.
  { intros s Hs. apply andb_true_iff in Hs as [[Hs _]%andb_true_iff _]. by apply bool_decide_eq_true in Hs. }
  split; intros s; specialize (IH1 s); specialize (IH2 s); specialize (Hin s);
    rewrite ?answers_for_cons, ?in_vain_cons; cbn [split_answers];
    destruct (split_answers asked (tail answers)) as [a u]; cbn [fst snd] in *;
    destruct (decide (s = x)) as [->|]; destruct (head answers) as [[| |name]|];
    cbn [fst snd usable negb] in *; rewrite ?fmap_cons, ?elem_of_cons; cbn [fst]; tauto.
Qed.

Section returned.
Context (base : AniDbSeriesId → option CuratedRow) (base_tries : ∀ s, 0 ≤ tries (base s)).
(** A call about open series comes back, [l] answered and [u] asked in vain. *)
Lemma counts_returned asked outcome l u tr d :
  (∀ s, s ∈ asked → cu_open d s) → (∀ s, s ∈ l ↔ s ∈ asked ∧ answers_for s asked outcome = true) →
  (∀ s, s ∈ u ↔ in_vain s asked outcome = true) →
  counts base [] [] tr d → counts base l u (tr ++ [Returned asked outcome]) d.
Proof using base_tries.
  intros Ho Hl Hu Hc s. rewrite times_snoc. cbn [vain].
  assert (model_answered (tr ++ [Returned asked outcome]) s ↔ model_answered tr s ∨ s ∈ l) as Hm.
  { rewrite model_answered_snoc, Hl. naive_solver. }
  assert (pend u s = if in_vain s asked outcome then 1 else 0) as Hp.
  { unfold pend. specialize (Hu s). destruct (in_vain s asked outcome); [rewrite decide_True by naive_solver|rewrite decide_False by naive_solver]; done. }
  rewrite Hp. replace (_ + _ - _) with (times_unanswered s tr) by lia.
  assert (s ∉ asked → (s ∉ l) ∧ in_vain s asked outcome = false) as Hout.
  { intros Hn. split; [naive_solver|]. unfold in_vain. by rewrite bool_decide_eq_false_2. }
  destruct (decide (s ∈ asked)) as [Hin|Hin].
  - destruct (counts_open base tr d s (base_tries s) Hc (Ho s Hin)) as (Hb & Hlt & Hna).
    pose proof (times_nonneg s tr) as H0. destruct (Hc s) as (_ & _ & _ & _ & Hr). unfold row_ok in *. rewrite Hb in *.
    rewrite pend_nil, Z.sub_0_r in Hr. pose proof (not_elem_of_nil s) as Hnil.
    split_and!; [done|case_match; lia|tauto| |tauto|].
    + intros Hs%Hu. rewrite Hs. split; [lia|]. by apply Ho.
    + tauto.
  - destruct (Hout Hin) as [Hnl ->]. rewrite Z.add_0_r. destruct (Hc s) as (Hb & Hmax & _ & _ & Hr). unfold row_ok in *.
    rewrite pend_nil, Z.sub_0_r in Hr. pose proof (not_elem_of_nil s) as Hnil.
    split_and!; [tauto|done|tauto| |destruct (is_settled (base s)); tauto].
    intros Hs%Hu. unfold in_vain in Hs. by rewrite bool_decide_eq_false_2 in Hs.
Qed.
End returned.

Section sql.
Context (ok : nat → bool) (sql_ok : ∀ n, ok n = true).

Lemma sql_update_ok f (I : Db → Prop) (Q : option unit → Db → Prop) :
  (∀ d, I d → Q (Some ()) (f d)) → sql_hoare I (update ok f) Q.
Proof using sql_ok. intros HQ. apply sql_statement; [exact HQ|]. intros d n _. by rewrite sql_ok. Qed.

Lemma tries_put s x title now (m : gmap AniDbSeriesId CuratedRow) :
  tries (<[s := set_curated_row title now (m !! s)]> m !! x) = tries (m !! x).
Proof. destruct (decide (x = s)) as [->|]; [rewrite lookup_insert_eq; by destruct (m !! s)|by rewrite lookup_insert_ne]. Qed.
Lemma settled_put s x title now (m : gmap AniDbSeriesId CuratedRow) :
  is_settled (<[s := set_curated_row title now (m !! s)]> m !! x) = bool_decide (x = s) || is_settled (m !! x).
Proof.
  destruct (decide (x = s)) as [->|].
  - rewrite lookup_insert_eq, bool_decide_eq_true_2 by done. by destruct (m !! s).
  - by rewrite lookup_insert_ne, bool_decide_eq_false_2.
Qed.
(** Caching answers. *)
Lemma counts_cached base s l u tr d title now :
  s ∉ l → s ∉ u → counts base (s :: l) u tr d →
  counts base l u tr (put_curated (<[s := set_curated_row title now (db_curated d !! s)]> (db_curated d)) d).
Proof.
  intros Hl Hu Hc x. destruct (Hc x) as (Hb & Hmax & Hal & Hau & Hr). cbn [put_curated db_curated].
  rewrite settled_put. unfold row_ok in *. rewrite tries_put, settled_put.
  split_and!; [done|done|intros ?; apply Hal; by right| |].
  - intros Hx. destruct (Hau Hx) as [? ->]. split; [done|]. by rewrite bool_decide_eq_false_2 by by intros ->.
  - destruct (decide (x = s)) as [->|Hne].
    + assert (model_answered tr s) as Hm by (apply Hal; by left). destruct (is_settled (base s)); [by destruct (Hb eq_refl)|].
      rewrite bool_decide_eq_true_2 by done. cbn. tauto.
    + rewrite bool_decide_eq_false_2, lookup_insert_ne by done. cbn.
      assert (x ∉ s :: l ↔ x ∉ l) as Hx by (rewrite elem_of_cons; tauto). destruct (is_settled (base x)); tauto.
Qed.
Lemma cache_answers base now tr u l : NoDup l.*1 → (∀ s, s ∈ l.*1 → s ∉ u) →
  sql_hoare (counts base l.*1 u tr) (each (λ '(s, short), set_curated_short_title ok s short now) l)
    (λ _, counts base [] u tr).
Proof using sql_ok.
  intros Hnd Hu. induction l as [|[s short] l IH]; [by apply sql_ret|]. apply NoDup_cons in Hnd as [Hs Hnd]. cbn.
  eapply sql_bind; [apply (sql_update_ok _ _ (λ b d, is_Some b ∧ counts base l.*1 u tr d))| |by intros d [[? ?] _]].
  - intros d Hd. split; [done|]. apply counts_cached; [done|apply Hu; by left|done].
  - intros ?. eapply sql_mono; [apply IH; [done|]|by intros d [_ ?]|done]. intros x Hx. apply Hu. by right.
Qed.

(** Recording what was left out. *)
Definition after_ask (now : Z) (s : AniDbSeriesId) (d : Db) : Db :=
  put_curated (<[s := ask_row now (db_curated d !! s)]> (db_curated d)) d.
Definition asked_row (now : Z) (row : option CuratedRow) : CuratedRow :=
  let r := ask_row now row in
  if negb (cu_settled r) && (MAX_CURATE_ATTEMPTS <=? cu_attempts r) then settle_row now r else r.
Lemma after_settle now s d :
  db_curated (settle_exhausted MAX_CURATE_ATTEMPTS now s (after_ask now s d)).2 =
    <[s := asked_row now (db_curated d !! s)]> (db_curated d).
Proof.
  unfold settle_exhausted, after_ask, asked_row. cbn. rewrite lookup_insert_eq. cbv zeta.
  case_match; cbn; [by rewrite insert_insert_eq|done].
Qed.
Lemma asked_row_open now row : is_settled row = false →
  tries (Some (asked_row now row)) = tries row + 1 ∧
  is_settled (Some (asked_row now row)) = (MAX_CURATE_ATTEMPTS <=? tries row + 1).
Proof.
  unfold asked_row, ask_row. cbv zeta. destruct row as [r|]; cbn; [intros ->; cbn|done].
  by destruct (MAX_CURATE_ATTEMPTS <=? cu_attempts r + 1).
Qed.
Lemma counts_asked base now s u tr d d' :
  s ∉ u → counts base [] (s :: u) tr d → db_curated d' = <[s := asked_row now (db_curated d !! s)]> (db_curated d) →
  counts base [] u tr d'.
Proof.
  intros Hs Hc Hd x. destruct (Hc x) as (Hb & Hmax & Hal & Hau & Hr). rewrite Hd. destruct (decide (x = s)) as [->|Hne].
  - rewrite lookup_insert_eq. assert (s ∈ s :: u) as Hin by by left. destruct (Hau Hin) as [Hpos Hopen].
    destruct (asked_row_open now _ Hopen) as [Ht Hset]. unfold pend, row_ok in *. rewrite Ht, Hset, Hopen in *.
    rewrite decide_False by done. rewrite decide_True in Hr by done.
    split_and!; [done|done|by intros ?%elem_of_nil|done|]. destruct (is_settled (base s)); [destruct (Hb eq_refl); lia|].
    destruct Hr as [Hr1 Hr2]. split; [lia|]. rewrite Z.leb_le, Hr1.
    assert (¬ (model_answered tr s ∧ s ∉ [])) by naive_solver. split; [right; lia|intros [?|?]; [done|lia]].
  - rewrite lookup_insert_ne by done.
    assert (pend (s :: u) x = pend u x) as Hp.
    { unfold pend. destruct (decide (x ∈ u)); [by rewrite decide_True by by right|]. rewrite decide_False; [done|]. by intros [?|?]%elem_of_cons. }
    rewrite Hp in Hr. split_and!; [done|done|done| |done]. intros ?. apply Hau. by right.
Qed.
Lemma record_counts base now tr u : NoDup u →
  sql_hoare (counts base [] u tr) (record_unanswered_from ok u now MAX_CURATE_ATTEMPTS)
    (λ b d, is_Some b ∧ counts base [] [] tr d).
Proof using sql_ok.
  induction 1 as [|s u Hs _ IH]; [by apply sql_ret|]. cbn.
  eapply sql_bind; [apply (sql_update_ok _ _ (λ b d, is_Some b ∧ ∃ d0, counts base [] (s :: u) tr d0 ∧ d = after_ask now s d0))| |by intros d [[? ?] _]].
  { intros d Hd. split; [done|]. by exists d. }
  intros ?. eapply (sql_bind _ _ _ (λ b d, is_Some b ∧ counts base [] u tr d)); [| |by intros d [[? ?] _]].
  { apply sql_statement; [|intros d n _; by rewrite sql_ok]. intros d (_ & d0 & Hd0 & ->). split; [done|].
    eapply counts_asked; [done|exact Hd0|]. apply after_settle. }
  intros settled_now. eapply (sql_bind _ _ _ (λ b d, is_Some b ∧ counts base [] [] tr d)); [|intros ?; apply sql_ret; intros d [_ ?]; by split|by intros d [[? ?] _]].
  eapply sql_mono; [exact IH|by intros d [_ ?]|done].
Qed.
Lemma transaction_total {B} (m : Sql B) (I Q : Db → Prop) :
  sql_hoare I m (λ b d, is_Some b ∧ Q d) → sql_hoare I (transaction m) (λ _, Q).
Proof.
  intros Hm d n HI. unfold transaction. specialize (Hm d n HI).
  destruct (m (d, n)) as [[b|] [d' n']]; [by destruct Hm|by destruct Hm as [[? ?] _]].
Qed.
End sql.

(** ** Launches *)

Lemma omap_snd_sublist {B K} (f : K * B → option (Z * K)) (l : list (K * B)) :
  (∀ kb x, f kb = Some x → x.2 = kb.1) → (omap f l).*2 `sublist_of` l.*1.
Proof.
  intros Hf. induction l as [|kb l IH]; cbn; [done|]. destruct (f kb) as [x|] eqn:E; cbn.
  - rewrite (Hf _ _ E). by apply sublist_skip.
  - by apply sublist_cons.
Qed.
Lemma candidates_NoDup v cache : NoDup (candidates v cache).
Proof.
  unfold candidates. rewrite sort_by_perm. eapply sublist_NoDup; [|apply omap_snd_sublist].
  - apply NoDup_fst_map_to_list.
  - intros [s rels] x. cbn. destruct (cache !! s) as [row|]; [destruct (cc_settled row)|]; by intros [= <-].
Qed.
Lemma candidates_open v cache s row : s ∈ candidates v cache → cache !! s = Some row → cc_settled row = false.
Proof.
  unfold candidates. rewrite sort_by_perm. intros Hs Hrow. apply list_elem_of_fmap in Hs as ([n s'] & -> & Hin).
  apply list_elem_of_omap in Hin as ([s2 rels] & _ & E). cbn in *. destruct (cache !! s2) as [row2|] eqn:E2; [|by simplify_eq].
  destruct (cc_settled row2) eqn:Es; [done|]. by simplify_eq.
Qed.

Section curation.
Context {H A : Type} `{!AniDbHost H, !LawfulHost H, !AniDbApi A} (U : Outside H) (curator : bool).
Context (others_quiet : ∀ n, quiet nothing (os_others U n)) (sql_ok : ∀ n, os_sql U n = true).
Context (base : AniDbSeriesId → option CuratedRow) (base_tries : ∀ s, 0 ≤ tries (base s)).
Implicit Types (l u : list AniDbSeriesId).
Abbreviation counting := (counting base).
Abbreviation counted := (counting [] [] (job_open)).
(** No call runs; [l] and [u] are still to be written. *)
Abbreviation writing l u := (counting l u (λ _ j, j = None)).
Lemma writing_stable l u : stable (writing l u).
Proof. apply counting_stable. by intros ? ? ? _. Qed.
Lemma written_counted tr md db j : writing [] [] tr md db j → counted tr md db j.
Proof. intros (Ha & d & Hd & Hc & ->). split; [done|]. exists d. split_and!; [done..|]. by intros ? [=]. Qed.

(** The call is over and its series are open: what came back is an event. *)
Definition over (asked : list AniDbSeriesId) : Fact :=
  counting [] [] (λ d j, j = None ∧ ∀ s, s ∈ asked → cu_open d s).
Lemma returned asked outcome l u :
  (∀ s, s ∈ l ↔ s ∈ asked ∧ answers_for s asked outcome = true) → (∀ s, s ∈ u ↔ in_vain s asked outcome = true) →
  ∀ tr md db j, over asked tr md db j → writing l u (tr ++ [Returned asked outcome]) md db j.
Proof using base_tries.
  intros Hl Hu tr md db j (Ha & d & -> & Hc & -> & Ho). split; [by apply asked_within_snoc|]. exists d. split; [done|].
  split; [|done]. by apply counts_returned.
Qed.
Lemma store_answers now (l : list (AniDbSeriesId * option string)) u : NoDup l.*1 → (∀ s, s ∈ l.*1 → s ∉ u) →
  hoare (on (A:=A) (writing l.*1 u)) (store U (each (λ '(s, short), set_curated_short_title (os_sql U) s short now) l))
    (λ _, on (writing [] u)).
Proof using others_quiet sql_ok.
  intros Hnd Hu. apply (hoare_store U others_quiet _ _ (λ _, writing [] u)); [apply writing_stable| |by intros ? ? ? (_ & ? & [=] & _)].
  intros tr md j d n (Ha & d' & [= <-] & Hc & ->). split; [done|]. eexists. split; [done|]. split; [|done].
  exact (cache_answers _ sql_ok base now tr u l Hnd Hu d n Hc).
Qed.
Lemma store_unanswered now u : NoDup u →
  hoare (on (A:=A) (writing [] u)) (swhen (bool_decide (u ≠ []))
      (store U (record_curation_unanswered (os_sql U) u now MAX_CURATE_ATTEMPTS);; mret ()))
    (λ _, on counted).
Proof using others_quiet sql_ok.
  intros Hnd. destruct (decide (u = [])) as [->|Hne].
  { rewrite bool_decide_eq_false_2 by (intros Hx; by apply Hx). apply hoare_ret. intros tr w [? ?]. split; [done|by apply written_counted]. }
  rewrite bool_decide_eq_true_2 by done. cbn [swhen]. eapply (hoare_bind _ _ _ (λ _, on counted)); [|intros ?; by apply hoare_ret].
  apply (hoare_store U others_quiet _ _ (λ _, counted)); [apply writing_stable| |by intros ? ? ? (_ & ? & [=] & _)].
  intros tr md j d n (Ha & d' & [= <-] & Hc & ->). apply written_counted. split; [done|]. eexists. split; [done|]. split; [|done].
  exact (transaction_total _ (counts base [] u tr) (counts base [] [] tr) (record_counts _ sql_ok base _ tr u Hnd) d n Hc).
Qed.
(** What is left of a harvest once it is known who was left out. *)
Lemma record_rest P (m : Sec (Worker H A) Did (list AniDbSeriesId)) now u : NoDup u →
  hoare P m (λ x tr w, on (writing [] u) tr w ∧ x = u) →
  hoare P (m ≫= λ unanswered, swhen (bool_decide (unanswered ≠ []))
      (store U (record_curation_unanswered (os_sql U) unanswered now MAX_CURATE_ATTEMPTS);; mret ()))
    (λ _, on counted).
Proof using others_quiet sql_ok.
  intros Hnd Hm. eapply hoare_bind; [exact Hm|]. intros x. cbv beta. apply hoare_pure. intros ->. by apply store_unanswered.
Qed.
Lemma keeps_harvest job now :
  NoDup (cj_asked job) → hoare (on (over (cj_asked job))) (harvest_curation (A:=A) U job now) (λ _, on counted).
Proof using others_quiet sql_ok base_tries.
  intros Hnd. unfold harvest_curation. eapply hoare_bind; [apply keeps_outside|]. intros outcome. cbv zeta.
  assert (∀ l u, (∀ s, s ∈ l ↔ s ∈ cj_asked job ∧ answers_for s (cj_asked job) outcome = true) →
    (∀ s, s ∈ u ↔ in_vain s (cj_asked job) outcome = true) →
    hoare (on (A:=A) (over (cj_asked job))) (semit (Returned (cj_asked job) outcome)) (λ _, on (writing l u))) as Hret.
  { intros l u Hl Hu. apply hoare_emit. intros tr w [Hok Hp]. split; [done|]. by eapply returned. }
  set (asked := cj_asked job) in *.
  destruct outcome as [answers| | |].
  - destruct (split_answers_spec asked answers Hnd) as [Hl Hu]. pose proof (split_answers_perm asked answers) as Hperm.
    destruct (split_answers asked answers) as [l u]. cbn [fst snd] in *. rewrite Hperm in Hnd.
    apply NoDup_app in Hnd as (Hndl & Hdisj & Hndu). eapply hoare_bind; [by apply (Hret l.*1 u)|]. intros []. cbv beta.
    apply (record_rest _ _ _ u); [done|]. eapply hoare_bind; [by apply store_answers|]. intros ?.
    eapply hoare_bind; [apply hoare_when; intros _; by apply keeps_turn|]. intros ?. by apply hoare_ret.
  - eapply hoare_bind; [apply (Hret [] asked)|].
    + intros s. cbn. split; [by intros ?%elem_of_nil|by intros []].
    + intros s. unfold in_vain. cbn. by rewrite !andb_true_r, bool_decide_eq_true.
    + intros []. apply (record_rest _ _ _ asked); [done|]. eapply hoare_bind; [by apply keeps_turn|]. intros ?. by apply hoare_ret.
  - eapply hoare_bind; [apply (Hret [] [])|].
    + intros s. cbn. split; [by intros ?%elem_of_nil|by intros []].
    + intros s. unfold in_vain. cbn. rewrite andb_false_r. split; [by intros ?%elem_of_nil|done].
    + intros []. apply (record_rest _ _ _ []); [constructor|]. eapply hoare_bind; [by apply keeps_turn|]. intros ?. by apply hoare_ret.
  - eapply hoare_bind; [apply (Hret [] [])|].
    + intros s. cbn. split; [by intros ?%elem_of_nil|by intros []].
    + intros s. unfold in_vain. cbn. rewrite andb_false_r. split; [by intros ?%elem_of_nil|done].
    + intros []. apply (record_rest _ _ _ []); [constructor|]. eapply hoare_bind; [by apply keeps_turn|]. intros ?. by apply hoare_ret.
Qed.

(** The cache that was read is the one in the tables. *)
Abbreviation with_cache c := (counting [] [] (λ d j, job_open d j ∧ c = cache_row <$> db_curated d)).
Lemma with_cache_stable c : stable (with_cache c).
Proof. apply counting_stable. intros d d' j Hd [? ->]. split; [by eapply job_open_cache|by rewrite Hd]. Qed.
Lemma fill_batch_sublist Φ room cs :
  stable Φ →
  hoare (on Φ) (fill_batch (A:=A) U room cs) (λ b tr w, on Φ tr w ∧ ci_series <$> b `sublist_of` cs).
Proof using others_quiet.
  intros HΦ. revert room. induction cs as [|s cs IH]; intros room; [by apply hoare_ret|].
  destruct room as [|fewer]; [apply hoare_ret; intros tr w Hp; split; [done|apply sublist_nil_l]|]. cbn [fill_batch].
  assert (∀ room, hoare (on Φ) (fill_batch (A:=A) U room cs) (λ b tr w, on Φ tr w ∧ ci_series <$> b `sublist_of` s :: cs)) as IH'.
  { intros room. eapply hoare_mono; [apply IH|done|]. intros b tr w [? ?]. split; [done|by apply sublist_cons]. }
  eapply hoare_bind; [by apply keeps_store_select|]. intros [[|row rows]|]; [apply IH'| |apply IH'].
  eapply hoare_bind; [apply IH|]. intros batch. cbv beta. apply hoare_pure. intros Hsub. apply hoare_ret.
  intros tr w Hp. split; [done|]. cbn. by apply sublist_skip.
Qed.
Lemma launch_counted v c now : hoare (on (with_cache c)) (launch_curation (A:=A) U curator v c now) (λ _, on counted).
Proof using others_quiet base_tries.
  pose proof (with_cache_stable c) as Hs.
  assert (∀ tr w, on (A:=A) (with_cache c) tr w → on counted tr w) as Hout.
  { intros tr w [? Hp]. split; [done|]. eapply counting_mono; [|exact Hp]. by intros d [? _]. }
  unfold launch_curation. eapply hoare_bind; [apply hoare_read|]. intros w0. cbv beta.
  case_match; [|by apply hoare_ret]. eapply hoare_bind; [by apply keeps_store_select|].
  intros [[token|]|]; try by apply hoare_ret. eapply hoare_bind; [by apply keeps_store_select|].
  intros [[]|]; try by apply hoare_ret. eapply hoare_bind; [by apply fill_batch_sublist|]. intros batch. cbv beta zeta.
  apply hoare_pure. intros Hsub. case_decide; [by apply hoare_ret|].
  assert (NoDup (ci_series <$> batch)) as Hnd by (eapply sublist_NoDup; [apply candidates_NoDup|exact Hsub]).
  assert (∀ d s, c = cache_row <$> db_curated d → s ∈ ci_series <$> batch → cu_open d s) as Hopen.
  { intros d s -> Hin. assert (s ∈ candidates v (cache_row <$> db_curated d)) as Hc by by eapply elem_of_sublist.
    unfold cu_open, is_settled. destruct (db_curated d !! s) as [r|] eqn:Hr; [|done].
    apply (candidates_open _ _ _ (cache_row r)) in Hc; [done|]. by rewrite lookup_fmap, Hr. }
  eapply (hoare_bind _ _ _ (λ _, on (with_cache c))).
  - apply hoare_emit. intros tr w [Hok (Ha & d & Hd & Hc & Hj & Hcache)]. split; [done|].
    split; [|exists d; split_and!; [done|by apply counts_snoc|done|done]].
    apply asked_within_snoc; [done|]. intros l s [= <-] Hin. eapply counts_open; [done|exact Hc|by eapply Hopen].
  - intros []. apply hoare_modify. intros tr w [Hok (Ha & d & Hd & Hc & _ & Hcache)]. split; [done|]. split; [done|].
    exists d. split_and!; [done..|]. intros job [= <-]. cbn. split; [done|]. intros s. by apply Hopen.
Qed.
Lemma keeps_curate v now : keeps (on counted) (curate_short_titles (A:=A) U curator v now).
Proof using others_quiet sql_ok base_tries.
  pose proof (cl_stable _ (counted_closed base)) as Hs. unfold curate_short_titles.
  eapply hoare_bind; [apply (hoare_get wk_job)|]. intros job. cbv beta.
  apply (hoare_bind _ _ _ (λ _, on counted)).
  - destruct job as [job|]; [|apply hoare_ret; by intros tr w [? _]].
    set (Φ := counting [] [] (λ d j, job_open d j ∧ j = Some job)).
    apply (hoare_mono _ (on Φ) _ (λ _, on counted)); [| |done].
    + apply (hoare_bind _ _ _ (λ _, on Φ)); [apply keeps_outside|]. intros [].
      * eapply (hoare_bind _ _ _ (λ _ tr w, on (over (cj_asked job)) tr w ∧ NoDup (cj_asked job))).
        -- apply hoare_modify. intros tr w [Hok (Ha & d & Hd & Hc & Hj & Hjob)]. destruct (Hj job Hjob) as [Hnd Ho].
           split; [|done]. split; [done|]. split; [done|]. by exists d.
        -- intros []. cbv beta. apply hoare_pure. intros Hnd. by apply keeps_harvest.
      * apply hoare_ret. intros tr w [Hok Hp]. split; [done|]. eapply counting_mono; [|exact Hp]. by intros d [? _].
    + intros tr w [[Hok (Ha & d & Hd & Hc & Hj)] Hjob]. split; [done|]. split; [done|]. by exists d.
  - intros ?. eapply (hoare_bind _ _ _ (λ r, on (match r with Some c => with_cache c | None => counted end))).
    + apply (hoare_store U others_quiet _ _ (λ r, match r with Some c => with_cache c | None => counted end)); [done| |by intros ? ? ? (_ & ? & [=] & _)].
      intros tr md j. apply sql_statement; [|by intros d n _; rewrite sql_ok].
      intros d (Ha & d' & [= <-] & Hc & Hj). split; [done|]. by exists d.
    + intros [c|]; [|by apply hoare_ret].
      eapply hoare_bind; [apply keeps_reconcile_relations, with_cache_stable; done|]. intros ?. apply launch_counted.
Qed.

End curation.

(** ** A run *)

Section run.
Context {H A : Type} `{!AniDbHost H, !LawfulHost H, !AniDbApi A} (U : Outside H) (curator : bool).
Context (others_quiet : ∀ n, quiet nothing (os_others U n)) (sql_ok : ∀ n, os_sql U n = true).
Context (cache : gmap AniDbSeriesId CuratedRow) (attempts_ok : ∀ s r, cache !! s = Some r → 0 ≤ cu_attempts r).

(** The rows once the start has taken back what the last run gave up on. *)
Definition rearmed (s : AniDbSeriesId) : option CuratedRow := rearm_curated_row <$> cache !! s.
Lemma rearmed_tries s : 0 ≤ tries (rearmed s).
Proof using attempts_ok.
  unfold rearmed. destruct (cache !! s) as [r|] eqn:E; [|done]. specialize (attempts_ok s r E). cbn. unfold rearm_curated_row. by case_match.
Qed.
Definition fresh : Fact := λ tr md db j, tr = [] ∧ j = None ∧ ∃ d, db = Some d ∧ db_curated d = cache.
Abbreviation counted := (counting rearmed [] [] job_open).
Lemma fresh_stable : stable fresh.
Proof.
  intros tr md md' db db' j _ Hdb (-> & -> & d & -> & Hr). inversion Hdb as [? d' [Hc _]|]; subst.
  split; [done|]. split; [done|]. exists d'. split; [done|congruence].
Qed.
Lemma start_counted : hoare (on (A:=A) fresh) (reconcile_settled_lookups U) (λ _, on counted).
Proof using others_quiet sql_ok.
  apply hoare_reconcile; [done|apply fresh_stable| | |by intros ? ? ? (_ & _ & ? & [=] & _)].
  - intros tr md j present now. apply sql_keeps_bind; [apply keeps_select|]. intros l.
    apply sql_keeps_bind; [|intros ?; by apply sql_ret]. apply sql_keeps_each. intros s _. apply keeps_update.
    intros d (-> & -> & d' & [= <-] & Hr). split_and!; [done..|]. by eexists.
  - intros tr md j. apply sql_statement; [|by intros d n _; rewrite sql_ok]. intros d (-> & -> & d' & [= <-] & Hr).
    split; [by intros [|??] ? ? ? [=]|]. eexists. split; [done|]. split; [|by intros ? [=]]. intros s. cbn [snd put_curated db_curated].
    assert (¬ model_answered [] s) as Hn by (by intros (? & ? & ?%elem_of_nil & _)). cbn [times_unanswered].
    rewrite pend_nil, lookup_fmap, Hr. fold (rearmed s). unfold row_ok.
    split_and!; [done|done|by intros ?%elem_of_nil|by intros ?%elem_of_nil|]. destruct (is_settled (rearmed s)) eqn:E; [done|].
    split; [lia|]. split; [done|]. intros [[? _]|[? _]]; [done|lia].
Qed.
Lemma run_counted n : hoare (on fresh) (worker_run (A:=A) U curator n) (λ _, on counted).
Proof using others_quiet sql_ok attempts_ok.
  apply (run_keeps _ _ others_quiet (λ _, True)); [done|apply counted_closed| | |apply start_counted].
  - intros v now. apply keeps_curate; [done..|apply rearmed_tries].
  - intros now s _. apply (hoare_mono _ (on counted) _ (λ _, on counted)); [|intros tr w [? [? _]]; by split|done].
    apply keeps_lookup_anime_na; [done|]. split; [apply cl_stable, counted_closed| | |].
    + intros tr md d j a (Ha & d' & [= <-] & Hc & Hj). split; [done|]. by eexists.
    + intros. by apply counting_snoc.
    + intros. by apply counting_snoc.
Qed.
End run.
