(* ===== verification/AniDbPromises.v ===== *)
(** * The AniDB worker: statements

    The worker's promises to the server, over any host, with a run of it on the real
    server's state ([AniDbServer]) as their witness. *)

From S2P Require Import Prelude Text Types TimeSync State StateRepr Writes Conc View Message AuthLimit Server ServerHandlers.
From S2P Require Import AniDb AniDbClient AniDbQueue AniDbWorker AniDbWorkerLogic AniDbWorkerCorrect AniDbServer.
From S2P Require Import AniDbOthers AniDbWorkerSafe AniDbCuration.

Section statements.
Context {H A : Type} `{!AniDbHost H, !LawfulHost H, !AniDbApi A} (U : Outside H) (curator : bool).


(** C32. A series is not asked about again after AniDB has answered, be it that
    there is no such series: the relations walk looks every series up once. The database
    must work; a start of the server may reset the queue. *)
Theorem series_asked_until_answered n (w w' : Worker H A) o o1 s o2 :
  (∀ k, quiet nothing (os_others U k)) → (∀ k, os_sql U k = true) → (∀ h : H, 0 ≤ (host_now h).1 < NEVER) →
  host_ok (wk_host w) → is_Some (host_db (wk_host w)) →
  worker_run U curator n w = Some ((), (w', o)) → o = o1 ++ AnsweredAnime s :: o2 → AskedAnime s ∉ o2.
Proof.
  intros Hq Hsql Hclock Hok Hdb Hrun -> Hin.
  assert (on (λ tr md db j, tr = [] ∧ is_Some db) [] w) as Hp by done.
  destruct (run_settled U curator Hq Hsql n Hclock [] w () w' _ Hp Hrun) as [_ [Hfirst _]].
  apply list_elem_of_split in Hin as (k1 & k2 & ->).
  apply (Hfirst (o1 ++ AnsweredAnime s :: k1) s k2); [by rewrite <-(assoc_L (++))|].
  apply elem_of_app. right. by left.
Qed.

(** C33. The model is asked about a series until it answers and at most five times
    in vain. Only series without an answer are asked about, and no later batch holds one
    that was answered or left out [MAX_CURATE_ATTEMPTS] times. What counts is exactly the
    calls that reached the model: a reply that leaves the series out, or an error of the
    model's; a call that failed on its way, or whose task died, is charged to nobody. So
    after any number of turns a series' attempts in the cache are those it had when the
    worker started (none, if the last run had given up on it) and its vain calls since,
    and it is settled if and only if it was answered or has used its attempts up. Every
    access to the database is assumed to succeed: one that fails loses a count. *)
Theorem curation_bounded n (w w' : Worker H A) d o s :
  (∀ k, quiet nothing (os_others U k)) → (∀ k, os_sql U k = true) →
  host_ok (wk_host w) → wk_job w = None → host_db (wk_host w) = Some d →
  (∀ x r, db_curated d !! x = Some r → 0 ≤ cu_attempts r) →
  worker_run U curator n w = Some ((), (w', o)) →
  let base := rearm_curated_row <$> db_curated d !! s in
  times_unanswered s o ≤ MAX_CURATE_ATTEMPTS ∧
  (∀ o1 asked o2, o = o1 ++ AskedModel asked :: o2 → s ∈ asked →
    is_settled base = false ∧ times_unanswered s o1 < MAX_CURATE_ATTEMPTS ∧ ¬ model_answered o1 s) ∧
  ∃ d', host_db (wk_host w') = Some d' ∧ row_ok base (times_unanswered s o) (model_answered o s) (db_curated d' !! s).
Proof.
  intros Hq Hsql Hok Hjob Hdb Hrows Hrun base.
  assert (on (fresh (db_curated d)) [] w) as Hp by (split; [done|]; split; [done|]; split; [done|]; by exists d).
  destruct (run_counted U curator Hq Hsql (db_curated d) Hrows n [] w () w' o Hp Hrun) as [_ (Hasked & d' & Hd' & Hc & _)].
  destruct (Hc s) as (_ & Hmax & _ & _ & Hr). rewrite pend_nil, Z.sub_0_r in Hr.
  split; [done|]. split; [intros o1 asked o2 E Hs; by apply (Hasked o1 asked o2 s E Hs)|]. exists d'. split; [done|].
  unfold row_ok in *. fold base in Hr. unfold rearmed in Hr. fold base in Hr. pose proof (not_elem_of_nil s). destruct (is_settled base); tauto.
Qed.
End statements.

(** ** Witnesses *)

(** AniDB has answered about the file once; it does not know it any more. *)
Definition ex_series : AniDbSeriesId := mkAniDbSeriesId 7.
#[local] Instance ex_api : AniDbApi unit := {
  api_file_by_hash _ _ a := (inr None, a);
  api_anime_by_id s a := (inr (Some (mkAnimeResult s None [] (text "Show") [] None)), a)
}.
Definition ex_real : AniDbMetadata := mkAniDbMetadata SourceAniDb "Show" (Some ex_series) (Some "1"%string).
Definition ex_queues : Db := mkDb
  {[ex_h1 := mkLookupRow 10 "a.mkv" 0 None 0 0 true None (Some "Guess"%string)]} {[ex_series := mkAnimeRow 0 None 0 0]}
  [mkTitleRow ex_series 1 (text "en") (text "Show")] ∅ {["anthropic_token"%string := "key"%string]}.
Definition ex_host : SharedHost := mkSharedHost
  (put_crdt (set_anidb_metadata ex_crdt SERVER 500 ex_h1 (Some ex_real)).1
     (put_storage (Some (mkStorage None ∅ ∅ None)) ex_shared)) ex_queues.
(** Meanwhile, every time, the server marks a file as watched. *)
Definition ex_others (h : SharedHost) : SharedHost :=
  with_shared (after (server_write ex_encode ex_datagram ex_world (WWatched ex_h1 true)) (sh_shared h)) h.
Definition ex_outside : Outside SharedHost :=
  mkOutside (λ _, ex_others) (λ _, true) (λ _, NotFetched) (λ _, true) (λ n _ _, if Nat.even n then ModelError else TransportError).
#[local] Instance ex_hosts : AniDbHost SharedHost := shared_host ex_encode ex_datagram ex_world.
#[local] Instance ex_lawful : LawfulHost SharedHost := shared_lawful ex_encode ex_datagram ex_world.
Definition ex_run := worker_run ex_outside true 4 (new_worker ex_host ()).
Definition ex_did : list Did := match ex_run with Some (_, (_, o)) => o | None => [] end.
Lemma ex_others_quiet K k : quiet K (os_others ex_outside k).
Proof. apply (task_quiet ex_encode ex_datagram ex_world). by apply gentle_server_write. Qed.
Lemma ex_host_ok : host_ok ex_host.
Proof. vm_compute. reflexivity. Qed.
Lemma ex_run_returns : ∃ w', ex_run = Some ((), (w', ex_did)).
Proof.
  unfold ex_did. destruct ex_run as [[[] [w' o]]|] eqn:E; [by exists w'|]. vm_compute in E. discriminate E.
Qed.
(** A turn for the file, one for the series, and two that ask the model in vain. *)
Example ex_did_is : ex_did = [AskedFile ex_h1; AskedAnime ex_series; AnsweredAnime ex_series;
  AskedModel [ex_series]; Slept 60000; Returned [ex_series] ModelError; Slept 60000].
Proof. vm_compute. reflexivity. Qed.

Lemma series_asked_until_answered_witness :
  AskedAnime ex_series ∉ [AskedModel [ex_series]; Slept 60000; Returned [ex_series] ModelError; Slept 60000].
Proof.
  destruct ex_run_returns as [w' E].
  apply (series_asked_until_answered ex_outside true 4 (new_worker ex_host ()) w' ex_did
    [AskedFile ex_h1; AskedAnime ex_series] ex_series).
  - exact (ex_others_quiet _).
  - reflexivity.
  - intros h. cbn. unfold NEVER, i64_max. lia.
  - exact ex_host_ok.
  - by eexists.
  - exact E.
  - exact ex_did_is.
Defined.
Lemma curation_bounded_witness : times_unanswered ex_series ex_did = 1 ∧ ∃ w' d',
  ex_run = Some ((), (w', ex_did)) ∧ host_db (wk_host w') = Some d' ∧ tries (db_curated d' !! ex_series) = 1.
Proof.
  split; [vm_compute; reflexivity|]. destruct ex_run_returns as [w' E]. exists w'.
  destruct (curation_bounded ex_outside true 4 (new_worker ex_host ()) w' ex_queues ex_did ex_series) as (_ & _ & d' & Hd & Hr).
  - exact (ex_others_quiet _).
  - intros k. reflexivity.
  - exact ex_host_ok.
  - reflexivity.
  - reflexivity.
  - intros x r Hr. cbn in Hr. by rewrite lookup_empty in Hr.
  - exact E.
  - exists d'. split; [exact E|]. split; [exact Hd|]. destruct Hr as [Ht _]. rewrite Ht. vm_compute. reflexivity.
Defined.
